(* ===== verification/_CoqProject ===== *)
-Q . S2P
Prelude.v
StoreError.v
ZigZag.v
DataOutput.v
DataInput.v
SliceInput.v
Wire.v
CodecUtil.v
BitWords.v
FixedBitSet.v
FixedBitSetSpec.v
FixedBitSetAlgebra.v
FixedBitSetRange.v
PackedLongs.v
DirectReader.v
SparseFixedBitSet.v
SparseFixedBitSetSpec.v
Bits.v
LiveDocs.v
Lz4.v
Lz4Decode.v
Lz4Encode.v
SegmentNames.v
ByteBuffersDirectory.v
Lock.v
FileDeleter.v
IndexDirectory.v
SegmentFile.v
LiveDocsFormat.v
CompoundFormat.v
FieldInfos.v
SegmentInfos.v
Search.v
FloatBits.v
IndexSort.v
Codecs.v
SegmentInfo.v
Commit.v
DeletionPolicy.v
IndexFileDeleter.v
SegmentListing.v
InflateGens.v
IndexFileDeleterSpec.v
DeleterSnapshots.v
Float32.v
DirectMonotonic.v
IndexedDisi.v
IndexedDisiSpec.v
IndexedDisiWindows.v
IndexedDisiSafety.v
Scorer.v
Collector.v
Leaf.v
Conjunction.v
Req.v
HeapTheory.v
TopDocs.v
TopDocsSpec.v
TernaryLongHeap.v
DisiQueue.v
Disjunction.v
DisjunctionLaws.v
Dyn.v
BooleanScorer.v
CachedScorer.v
BulkScore.v
CountBits.v
IndexedDisiDecode.v
BulkScoreSpec.v
TimeLimit.v
RunScorers.v
SegmentQueryCache.v
Searching.v
