(* ===== verification/Prelude.v ===== *)
(** * A verification library for lucene-rust

    The repository is a Rust port of Apache Lucene.  Its crates form a
    pipeline: [lucene-util] (bits, sets, base 36) under [lucene-store] (bytes,
    directories, locks) under [lucene-codecs] (on-disk formats) under
    [lucene-index] (writers, commits) under [lucene-search].  This library
    models three parts of that pipeline: the storage core every index format
    rests on; the life of a segment and of a commit (their files, live
    documents, the two phases of a commit, the policies and counts that decide
    when files may go); and the execution core of a search (scorers, boolean
    composition, bulk loops, collectors, the query cache).  They are executable definitions over integers of explicit width,
    byte lists, IEEE floats and finite maps, and the theorems are what the
    layers above rely on.  Names are the source's where Rocq allows it.

    ** Parts, in the order they build on each other

    - [Prelude.v] (this file): machine integers as [Z] with their wrap-around
      written out, byte strings, slices, the fallible state monad [M] (an
      [&mut self] method returning [Result]: it leaves a state whether it
      succeeds or fails), bit-level reasoning and the hint databases.
    - [StoreError.v]: [lucene-store/src/error.rs].  Messages are kept as their
      format string.
    - [ZigZag.v]: [lucene-util/src/zigzag.rs].
    - [DataOutput.v], [DataInput.v]: the two traits of the wire format
      ([lucene-store/src/data_output.rs], [data_input.rs]): required methods,
      overridable ones and defaults as classes, with the laws a backend owes
      ([DataOutputLaws], [DataInputLaws]).  Clients are proved against the
      laws.
    - [SliceInput.v]: the zero-copy input with all its fast paths, and its
      instance of the laws.
    - [Wire.v]: a calculus of "this reader consumes these bytes and returns
      this value" over any lawful source, and the round trips of every
      primitive between any lawful sink and source.
    - [CodecUtil.v]: [lucene-store/src/codec_util.rs], the headers and
      checksummed footers of every index file.
    - [BitWords.v], [FixedBitSet.v], [FixedBitSetSpec.v],
      [FixedBitSetAlgebra.v], [FixedBitSetRange.v]:
      [lucene-util/src/fixed_bit_set.rs] and [popcount.rs].  The operations
      are in [FixedBitSet.v] ([None] is a panic); the other files relate them
      to the set of members.
    - [PackedLongs.v], [DirectReader.v]: [lucene-util/src/packed_longs.rs] and
      [lucene-codecs/src/direct_reader.rs], fixed-width integers packed into
      bytes, at a width known when the code runs or when it is compiled.  A
      width that is a [const] parameter is an argument here.
    - [SparseFixedBitSet.v], [SparseFixedBitSetSpec.v]:
      [lucene-util/src/sparse_fixed_bit_set.rs]; an index out of bounds is a
      panic, and one of an unchecked access is [Undefined].
    - [Bits.v], [LiveDocs.v]: [lucene-util/src/bits.rs] and [live_docs.rs],
      the [Bits] and [LiveDocs] traits as classes with the contract
      implementations owe ([BitsLaws], [LiveDocsLaws]), the implementations,
      and the iterator over a complement.
    - [Lz4.v], [Lz4Decode.v], [Lz4Encode.v]: [lucene-codecs/src/lz4.rs], both
      decoders, both hash tables and the compressor.  The compressor is proved
      against the class [HashTableLaws], which both tables implement.
    - [SegmentNames.v]: [lucene-util/src/base36.rs] and the naming functions
      of [lucene-store/src/directory.rs].
    - [ByteBuffersDirectory.v]: [lucene-store/src/byte_buffers_directory.rs],
      with a store of shared entries and a transition system of its users.
    - [Lock.v]: [lucene-store/src/lock.rs], the single-instance factory down
      to its atomic accesses, and the verifying wrapper.
    - [FileDeleter.v]: [lucene-index/src/file_deleter.rs], over the class
      [Directory], which the in-memory directory implements.
    - [IndexDirectory.v]: what commits ask of [lucene-store/src/directory.rs],
      a class whose laws say what a failing call may leave behind.
    - [SegmentFile.v]: what files of a header, a body and a footer share: the
      bytes of collections, readers that leave the buffer alone, what a reader
      lets through.
    - [LiveDocsFormat.v]: [lucene-codecs/src/live_docs.rs], the [.liv] file.
    - [CompoundFormat.v]: [lucene-codecs/src/compound_format.rs], the [.cfs]
      and [.cfe] files a segment's other files are packed into.
    - [FieldInfos.v]: [lucene-codecs/src/field_infos.rs], what a segment knows
      of its fields and the [.fnm] file.
    - [DirectMonotonic.v]: [lucene-codecs/src/direct_monotonic.rs], blocks of
      packed differences from a line whose slope is an [f32] of [Float32.v].
    - [IndexedDisi.v], [IndexedDisiSpec.v], [IndexedDisiWindows.v],
      [IndexedDisiSafety.v], [IndexedDisiDecode.v]:
      [lucene-codecs/src/indexed_disi.rs], the documents that have a value, in
      blocks of three encodings: the writer, the forward-only cursor with its
      ranks and jumps, and the reader of the whole.
    - [FloatBits.v], [IndexSort.v]: the index sort of
      [lucene-index/src/segment_info.rs] and [index_sorter.rs]: sort fields,
      the comparator over floats kept as their bits, ranks of terms.
    - [Codecs.v]: [lucene-codecs/src/codecs.rs], the table of codec names.
    - [SegmentInfo.v]: [lucene-index/src/segment_info.rs], the [.si] file;
      [SegmentListing.v]: it as the reader the file deleter calls.
    - [SegmentInfos.v]: [lucene-index/src/segment_infos.rs], the records and
      the format of [segments_N]; [Commit.v]: its two-phase publication.
    - [DeletionPolicy.v]: [lucene-index/src/deletion_policy.rs], the trait as a
      class, its policies and both snapshot wrappers.
    - [IndexFileDeleter.v], [InflateGens.v], [IndexFileDeleterSpec.v],
      [DeleterSnapshots.v]: [lucene-index/src/index_file_deleter.rs], over any
      lawful directory and policy: the operations, the generations stepped
      past a crash, the counts and deletions, and the deleter under a snapshot
      policy.
    - [Search.v], [Float32.v], [HeapTheory.v]: what the searching code needs: a
      monad of computations that fail, panic or run out of fuel, with its
      total-correctness logic [wp]; Rust's floats as the Standard Library's
      [spec_float]; array heaps of any arity.
    - [Scorer.v]: the trait of the scorer tree
      ([lucene-search/src/exec/mod.rs]) as a class, and [ScorerLaws], the
      contract every scorer owes: the documents it stands for ([accept]), the
      scores it may answer on each ([gives]), what its approximation may visit,
      and how far a loop over it can run.
    - [Leaf.v], [Conjunction.v], [Req.v], [DisiQueue.v], [Disjunction.v],
      [DisjunctionLaws.v], [Dyn.v]: the scorers of [leaf.rs],
      [conjunction.rs], [req.rs] and [disjunction.rs], each over any lawful
      children and each lawful in turn.
    - [BooleanScorer.v]: [exec/build.rs], the boolean query's scorer out of its
      clauses' scorers.
    - [Collector.v], [TopDocs.v], [TopDocsSpec.v]:
      [lucene-search/src/collector.rs], the collector trait with the contract
      its bulk methods owe ([CollectorLaws]), the ranking, the shared bar and
      [TopDocsCollector].
    - [TernaryLongHeap.v]: [lucene-util/src/ternary_long_heap.rs].
    - [CachedScorer.v], [SegmentQueryCache.v]: [exec/cache.rs] and the policy of
      [query_cache.rs], with the critical sections searches interleave.
    - [BulkScore.v], [CountBits.v], [BulkScoreSpec.v], [TimeLimit.v],
      [RunScorers.v]: [exec/bulk.rs], the loops that drive a scorer into a
      collector, over any lawful scorer and collector.
    - [Searching.v]: the parts together, with the counter of
      [index_searcher.rs].

    ** What the theorems show

    - Wire format: zigzag is a bijection; the branch-free varint encoder is
      the reference one; every integer, varint, group, string, set and map
      written by any lawful sink is read back by any lawful source; an
      unterminated varint and an impossible count are errors after at most the
      bytes their type allows; every fast path of [SliceInput] is the default
      it replaces, error cases included.
    - Headers and footers: [check_index_header] accepts exactly the header
      [write_index_header] writes for the same codec, id and suffix, and tells
      the reason otherwise; the footer check accepts exactly the files whose
      checksum is right; splitting a checksum over threads changes nothing.
    - Bit sets: every operation is the set operation it stands for and keeps
      the bits past the length clear; counts, enumeration, searches and
      sub-range combination at any alignment are exact; a bad index panics.
      The sparse set does the same in blocks that grow, never reads outside
      one and keeps the structure its check accepts; its searches are exact.
    - Packed integers: no read leaves the bytes it has, whatever the index; the
      readers specialised by width return what [get] returns; what is encoded
      is read back, and the padding the format asks for is enough.  Sequences
      kept as differences from a line are read back whatever the slope rounds
      to ([monotonic_round_trip]); the readers of many values, and the search
      for the last value not above a key, are [get] index by index.
    - Sparse sets of documents: a forward walk over what the writer wrote gives
      every document asked its position in the list, through all three kinds
      of block, ranks and jumps ([written_sets_are_searched]); a window of
      words is the set's bits; the whole reads back; and over any bytes a walk
      ends with answers or an error ([any_region_is_searched_or_refused]),
      though not one that goes on after its first error
      ([a_retry_after_an_error_panics]).
    - Live documents: dense or sparse, a segment's live documents answer,
      iterate and count the same; a mask over any implementation of [Bits] is
      the intersection; the complement iterator enumerates the complement.  A
      [.liv] file reads back, what it lets through is sound, and writing any
      [Bits] in batches is writing the dense set.
    - Compound files: what is packed is opened again byte for byte, under the
      table read back and through the check of the data against it; a foreign
      or damaged sub-file stops the writer; no table opens bytes outside.
    - Segments: a segment info reads back with any index sort, and what is
      accepted is well formed; the comparator of a sort field is a total
      preorder, NaN and signed zeros included, and ranks compare as their
      terms do; a codec name resolves to the last registration unless it is
      built in; the deleter lists the files a descriptor was written with.
    - Field infos: reading a file back is the constructor, coercions and errors
      included; whatever is read is consistent, with distinct names and
      numbers, and can be written and read again.
    - LZ4: an overlapping copy is byte by byte; [decompress] over any input is
      a reference decoder of the block format, accepting and rejecting the
      same blocks; the slice decoder with its wild copies is [decompress]; the
      tables only return verified candidates; what is compressed with any
      lawful table and dictionary, from any stale state, has a bounded size
      and decompresses to the input.
    - Directories: commit names parse back and the scan for the last commit is
      exact; the in-memory directory refines a map from names to files; under
      any interleaving files are written once; temporary names are fresh.
    - Locks exclude under any interleaving of their atomic accesses, and the
      verifying wrapper never leaks one.
    - File deletion: counts are the references held, a held file survives
      every step, and a failed deletion never leaves a commit file naming
      deleted data.
    - Commits: a commit file parses back, and one the code accepts can always
      be followed by another; whatever call fails, publishing leaves other
      files alone and [segments_N] absent or whole; the published commit is
      the one read.  No policy marks the newest commit, a pinned commit is
      never marked, and pins survive a restart.  The deleter's counts are the
      references of live commits, current view and holders; a step deletes
      what lost its last reference and nothing else; no commit file left on
      disk has lost a file; after a crash no name written next is on disk.
    - Scorers: every scorer honours the contract, so a tree of them stands for
      the intersection, union or difference its query means, and its scores
      are the sums its query means; [compose_is_the_boolean] says so of the
      documents of the whole construction, for any clause counts, score mode
      and minimum ([compose_ok] of its scores too).
    - Collectors: the best hits are kept in every representation and order of
      arrival; the batched paths are the document-at-a-time one; hits pack
      into integers in ranking order and the bar leaves share hides no winner.
    - Bulk scoring: outside the top-scores mode, whichever of its paths a
      window takes, it collects the live matches in order, once each, with the
      scores the scorer gives them; counting bits a word at a time is counting
      documents; under a deadline the windows of the growing interval are run
      one for every answer that is no, and the search ends.
    - The query cache: entry and byte bounds hold and least recently used
      entries go first under any interleaving; searches compute their sets
      between the two critical sections, and a set found or computed is
      exactly the clause's matches.
    - A search: outside the top-scores mode, a boolean query composed, driven
      and collected over one segment ends without a panic with the best [n] of
      its live matches by the boolean's scores, or with their number.

    ** Fuel

    A loop whose recursion is not structural takes fuel, and the bound is
    shown enough.  The varint loops take the number of bytes their shift bound
    admits.  The LZ4 decoder takes the space left plus one, since a sequence
    that does not end the block writes at least four bytes
    ([decompress_terminates]); a length extension takes the bytes remaining;
    the compressor's loops take the input length ([compress_loops_terminate]),
    the candidate walk the offset it descends from, the chain walk
    [MAX_ATTEMPTS].  The floor search takes 65 rounds, one more than halve a
    range of [i64] away, and [fill] one per slot.  The walk over the headers
    of a sparse set takes one more than the bytes there are, a header being
    four of them.  [create_temp_output] takes the number of files plus one
    ([temp_output_is_fresh]).  The scans of a bit set take its number of
    words.  The searching code gives every loop of a computation the same fuel
    ([cloop]); a lawful scorer says how much its moves take ([need]) and how
    much a loop over what is left of it takes ([exact_need]), and the theorems
    about loops hold for every fuel above that.

    ** What is not modelled

    Sizes are those of a 64-bit [usize]; a buffer is shorter than [2 ^ 63]
    where a theorem says so.  CRC-32 ([crc32fast]) is a parameter with its
    documented combination law.  CPU intrinsics ([pdep], AVX-512 counts) are
    their portable definitions; cache prefetches have no effect on state.  An
    input or output backed by the operating system (files, mappings, sockets)
    is an instance or a parameter.  A poisoned mutex is an unpoisoned one, as
    [lock_ignoring_poison] makes it.  The block-max scorers ([WandScorer],
    [BlockMaxConjunctionScorer]), scorers over postings ([TermScorer],
    [LegConjunctionScorer]) and the skipping a published threshold makes are
    not modelled: under the top-scores mode [BooleanScorer.v] stops at the
    choice of such a scorer, and [BulkScoreSpec.v] speaks of the exhaustive
    modes.  Queries, their rewriting and the statistics behind a score are
    above this library, as are the formats of postings, doc values, points and
    stored fields, writers and merging; next to it
    is [lucene-util/src/sorter.rs].
    Of what is modelled, left out are: the sparse set's estimate of its
    cardinality (floating point), memory accounts and printed forms; the
    [BitSet] trait, whose methods are the sets' own, and [AnyBitSet], which
    picks one; a sparse set on disk read into a bit set ([or_into_words]) and
    [rank_of], a binary search; the text form of a segment info (its reader is a parameter of
    [SegmentListing.v]), its diagnostics, the printed index sort, and
    [read_segment_terms], which decodes doc values.  Around commits, the hash that names a persistent snapshot is a parameter; the reference
    counts are bounded below their 32-bit limit where a theorem says so; and
    [list_commits] and the writer that calls all of this are left out. *)
From Stdlib Require Export ZArith Lia.
From Stdlib Require Export Btauto.
From stdpp Require Export base list numbers option.

#[global] Open Scope Z_scope.

(** ** Widths.  A [w]-bit unsigned value is a [Z] in [[0, 2^w)], a signed one a
    [Z] in [[-2^(w-1), 2^(w-1))]; [wrapu] and [wraps] are Rust's [as]
    conversions (two's complement truncation). *)
Definition in_u (w z : Z) : Prop := 0 <= z < 2 ^ w.
Definition in_s (w z : Z) : Prop := - 2 ^ (w - 1) <= z < 2 ^ (w - 1).
Definition wrapu (w z : Z) : Z := z mod 2 ^ w.
Definition wraps (w z : Z) : Z := (z + 2 ^ (w - 1)) mod 2 ^ w - 2 ^ (w - 1).

(** Bitwise complement of a [w]-bit unsigned value (Rust's [!x]). *)
Definition notu (w z : Z) : Z := Z.lxor z (Z.ones w).

(** [x.leading_zeros()] and [x.trailing_zeros()] of a [w]-bit unsigned value. *)
Definition leading_zeros (w z : Z) : Z :=
  if z =? 0 then w else w - 1 - Z.log2 z.

Fixpoint ctz_pos (p : positive) : Z :=
  match p with
  | xO q => 1 + ctz_pos q
  | _ => 0
  end.

Definition trailing_zeros (w z : Z) : Z :=
  match z with
  | Zpos p => ctz_pos p
  | _ => w
  end.

(** [x.count_ones()]. *)
Fixpoint popcount_pos (p : positive) : Z :=
  match p with
  | xH => 1
  | xO q => popcount_pos q
  | xI q => 1 + popcount_pos q
  end.

Definition count_ones (z : Z) : Z :=
  match z with
  | Zpos p => popcount_pos p
  | _ => 0
  end.

(** [a.div_ceil(b)] on unsigned operands. *)
Definition div_ceil (a b : Z) : Z := (a + b - 1) / b.

(** [usize] is 64 bits wide; [checked_add] fails past its range. *)
Definition usize_max : Z := 2 ^ 64 - 1.
Definition checked_add (a b : Z) : option Z :=
  if a + b <=? usize_max then Some (a + b) else None.
Definition saturating_add (a b : Z) : Z := Z.min (a + b) usize_max.

(** ** Bytes and slices. *)
Notation byte := Z (only parsing).
Definition bytes_ok (l : list byte) : Prop := Forall (in_u 8) l.

Definition zlen {A} (l : list A) : Z := Z.of_nat (length l).

(** [l.get(i)]. *)
Definition zget {A} (l : list A) (i : Z) : option A :=
  if i <? 0 then None else l !! Z.to_nat i.

(** [l.get(from..to)]. *)
Definition zslice {A} (l : list A) (from to : Z) : option (list A) :=
  if (0 <=? from) && (from <=? to) && (to <=? zlen l)
  then Some (take (Z.to_nat (to - from)) (drop (Z.to_nat from) l))
  else None.

(** [l[i]] of a word array at an index the caller has bounded. *)
Definition at0 (l : list Z) (i : Z) : Z := nth (Z.to_nat i) l 0.

(** [l[i] = v] at an index the caller has bounded. *)
Definition set_at {A} (l : list A) (i : Z) (v : A) : list A := <[Z.to_nat i := v]> l.

(** [l[from..to].fill(v)]-style updates: [from..to] rewritten by [f]. *)
Definition map_range {A} (f : A -> A) (l : list A) (from to : Z) : list A :=
  take (Z.to_nat from) l
  ++ map f (take (Z.to_nat (to - from)) (drop (Z.to_nat from) l))
  ++ drop (Z.to_nat (Z.max from to)) l.

(** Little- and big-endian byte strings of a fixed width. *)
Fixpoint to_le (n : nat) (z : Z) : list byte :=
  match n with
  | O => []
  | S m => Z.land z 255 :: to_le m (Z.shiftr z 8)
  end.

Fixpoint from_le (l : list byte) : Z :=
  match l with
  | [] => 0
  | b :: t => Z.lor b (Z.shiftl (from_le t) 8)
  end.

Definition to_be (n : nat) (z : Z) : list byte := reverse (to_le n z).
Definition from_be (l : list byte) : Z := from_le (reverse l).

(** ** Results and the fallible state monad: a step over a state [S] that
    either returns a value or fails, and leaves a state in both cases (an
    [&mut self] method that returns [Err] has still moved its cursor). *)
Inductive result (E A : Type) : Type :=
| Ok (a : A)
| Err (e : E).
Arguments Ok {E A} a.
Arguments Err {E A} e.

Definition is_ok {E A} (r : result E A) : bool :=
  match r with Ok _ => true | Err _ => false end.

Definition M (E S A : Type) : Type := S -> result E A * S.

Definition ret {E S A} (a : A) : M E S A := fun s => (Ok a, s).
Definition fail {E S A} (e : E) : M E S A := fun s => (Err e, s).
Definition get_state {E S} : M E S S := fun s => (Ok s, s).
Definition bind {E S A B} (m : M E S A) (k : A -> M E S B) : M E S B :=
  fun s => match m s with
           | (Ok a, s') => k a s'
           | (Err e, s') => (Err e, s')
           end.

Declare Scope lucene_scope.
Delimit Scope lucene_scope with lucene.
Notation "'let*' x ':=' m 'in' k" := (bind m (fun x => k))
  (at level 200, x pattern, m at level 100, k at level 200, right associativity)
  : lucene_scope.
#[global] Open Scope lucene_scope.

(** [n] repetitions of a fallible step, collecting the results. *)
Fixpoint repeatM {E S A} (n : nat) (m : M E S A) : M E S (list A) :=
  match n with
  | O => ret []
  | Datatypes.S k => let* a := m in let* l := repeatM k m in ret (a :: l)
  end.

(** ** Bit-level reasoning.  [bits_solve] proves an equality of [Z]s bit by bit:
    it pushes [Z.testbit] through the operations, splits on the index
    comparisons, drops the bits a range hypothesis [in_u w a] excludes, and
    leaves the Boolean identity to [btauto]. *)
Lemma testbit_shiftl a n i : Z.testbit (Z.shiftl a n) i = (0 <=? i) && Z.testbit a (i - n).
Proof.
  destruct (Z.leb_spec 0 i); [by rewrite Z.shiftl_spec | by rewrite Z.testbit_neg_r].
Qed.

Lemma testbit_shiftr a n i : Z.testbit (Z.shiftr a n) i = (0 <=? i) && Z.testbit a (i + n).
Proof.
  destruct (Z.leb_spec 0 i); [by rewrite Z.shiftr_spec | by rewrite Z.testbit_neg_r].
Qed.

Lemma testbit_mod_pow2 a n i : 0 <= n -> Z.testbit (a mod 2 ^ n) i = (i <? n) && Z.testbit a i.
Proof.
  intros Hn. destruct (Z.ltb_spec i n);
    [by rewrite Z.mod_pow2_bits_low | by rewrite Z.mod_pow2_bits_high by lia].
Qed.

Lemma testbit_ones n i : 0 <= n -> Z.testbit (Z.ones n) i = (0 <=? i) && (i <? n).
Proof.
  intros Hn. destruct (Z.leb_spec 0 i), (Z.ltb_spec i n); simpl;
    rewrite ?Z.testbit_neg_r, ?Z.ones_spec_low, ?Z.ones_spec_high by lia; done.
Qed.

Lemma testbit_pow2 n i : 0 <= n -> Z.testbit (2 ^ n) i = (i =? n).
Proof.
  intros Hn. rewrite Z.pow2_bits_eqb by lia. apply Z.eqb_sym.
Qed.

Lemma testbit_above w a i : in_u w a -> w <= i -> Z.testbit a i = false.
Proof.
  intros [Ha1 Ha2] Hi. destruct (Z.ltb_spec i 0); [by apply Z.testbit_neg_r|].
  destruct (Z.ltb_spec w 0); [rewrite Z.pow_neg_r in Ha2; lia|].
  rewrite <- (Z.mod_small a (2 ^ w)) by lia. by apply Z.mod_pow2_bits_high; lia.
Qed.

Create HintDb lucene.
Create HintDb lucene_bits.
#[export] Hint Rewrite Z.lor_spec Z.land_spec Z.lxor_spec Z.ldiff_spec Z.testbit_0_l
  testbit_shiftl testbit_shiftr : lucene_bits.
#[export] Hint Rewrite testbit_mod_pow2 testbit_ones testbit_pow2 using lia : lucene_bits.

Ltac bits_split :=
  repeat match goal with
  | |- context [?a <=? ?b] => destruct (Z.leb_spec a b); try lia
  | |- context [?a <? ?b] => destruct (Z.ltb_spec a b); try lia
  | |- context [?a =? ?b] => destruct (Z.eqb_spec a b); try lia
  end.

(** Boolean combinations of comparisons, by cases. *)
Ltac bool_lia :=
  repeat match goal with
  | |- context [?a <=? ?b] => destruct (Z.leb_spec a b)
  | |- context [?a <? ?b] => destruct (Z.ltb_spec a b)
  | |- context [?a =? ?b] => destruct (Z.eqb_spec a b)
  end; try lia; try done.

Ltac bits_prune :=
  repeat match goal with
  | H : in_u ?w ?a |- context [Z.testbit ?a ?i] =>
      rewrite (testbit_above w a i H) by lia
  | |- context [Z.testbit ?a ?i] => rewrite (Z.testbit_neg_r a i) by lia
  end.

Ltac bits_unify :=
  repeat match goal with
  | |- context [Z.testbit ?a ?i] =>
      match goal with
      | |- context [Z.testbit a ?j] =>
          tryif constr_eq i j then fail else
          tryif is_var j then replace i with j by lia else replace j with i by lia
      end
  end.

Ltac bits_core :=
  autorewrite with lucene_bits; bits_split; bits_prune; bits_unify;
  rewrite ?andb_false_r, ?andb_true_r, ?orb_false_r, ?andb_false_l; simpl; try done; try btauto.

Ltac bits_solve := apply Z.bits_inj'; intros ?i ?Hi; bits_core.

(** ** Ranges. *)
Lemma wrapu_range w z : 0 <= w -> in_u w (wrapu w z).
Proof. intros. apply Z.mod_pos_bound. lia. Qed.

Lemma wrapu_id w z : in_u w z -> wrapu w z = z.
Proof. intros. by apply Z.mod_small. Qed.

Lemma wraps_range w z : 0 < w -> in_s w (wraps w z).
Proof.
  intros Hw. unfold in_s, wraps.
  assert (2 ^ w = 2 * 2 ^ (w - 1)) as -> by (rewrite <- Z.pow_succ_r by lia; f_equal; lia).
  pose proof (Z.mod_pos_bound (z + 2 ^ (w - 1)) (2 * 2 ^ (w - 1))). lia.
Qed.

Lemma wraps_id w z : 0 < w -> in_s w z -> wraps w z = z.
Proof.
  intros Hw Hz. unfold in_s, wraps in *.
  assert (2 ^ w = 2 * 2 ^ (w - 1)) as -> by (rewrite <- Z.pow_succ_r by lia; f_equal; lia).
  rewrite Z.mod_small; lia.
Qed.

Lemma wraps_wrapu w z : 0 < w -> wraps w (wrapu w z) = wraps w z.
Proof. intros. unfold wraps, wrapu. by rewrite Z.add_mod_idemp_l by lia. Qed.

Lemma wrapu_wraps w z : 0 < w -> wrapu w (wraps w z) = wrapu w z.
Proof.
  intros. unfold wraps, wrapu. rewrite Zminus_mod_idemp_l. f_equal. lia.
Qed.

(** Wrapping is up to multiples of [2 ^ w]. *)
Lemma wraps_multiple w z k : 0 < w -> wraps w (z + k * 2 ^ w) = wraps w z.
Proof.
  intros Hw. unfold wraps. f_equal. replace (z + k * 2 ^ w + 2 ^ (w - 1)) with (z + 2 ^ (w - 1) + k * 2 ^ w) by lia.
  apply Z.mod_add. apply Z.pow_nonzero; lia.
Qed.

Lemma wraps_off w z : 0 < w -> exists k, wraps w z = z + k * 2 ^ w.
Proof.
  intros Hw. exists (- ((z + 2 ^ (w - 1)) / 2 ^ w)). unfold wraps. rewrite Z.mod_eq by (apply Z.pow_nonzero; lia). lia.
Qed.

Lemma in_u_weaken w w' z : w <= w' -> in_u w z -> in_u w' z.
Proof. intros ? [??]. split; [done|]. pose proof (Z.pow_le_mono_r 2 w w'). lia. Qed.

Lemma in_u_bits w a : 0 <= w -> 0 <= a -> (forall i, w <= i -> Z.testbit a i = false) -> in_u w a.
Proof.
  intros Hw Ha Hbits. split; [done|].
  replace a with (a mod 2 ^ w); [apply Z.mod_pos_bound; lia|].
  apply Z.bits_inj'; intros i Hi. rewrite testbit_mod_pow2 by done.
  destruct (Z.ltb_spec i w); [done|]. by rewrite Hbits.
Qed.

Lemma in_u_lor w a b : 0 <= w -> in_u w a -> in_u w b -> in_u w (Z.lor a b).
Proof.
  intros Hw Ha Hb. apply in_u_bits; [done| |].
  - apply Z.lor_nonneg. destruct Ha, Hb; lia.
  - intros i Hi. rewrite Z.lor_spec, (testbit_above w a), (testbit_above w b); done.
Qed.

Lemma in_u_land w a b : 0 <= w -> in_u w a -> 0 <= b -> in_u w (Z.land a b).
Proof.
  intros Hw Ha Hb. apply in_u_bits; [done| |].
  - apply Z.land_nonneg; lia.
  - intros i Hi. by rewrite Z.land_spec, (testbit_above w a).
Qed.

Lemma in_u_lxor w a b : 0 <= w -> in_u w a -> in_u w b -> in_u w (Z.lxor a b).
Proof.
  intros Hw Ha Hb. apply in_u_bits; [done| |].
  - apply Z.lxor_nonneg. destruct Ha, Hb; lia.
  - intros i Hi. rewrite Z.lxor_spec, (testbit_above w a), (testbit_above w b); done.
Qed.


Lemma in_u_notu w a : 0 <= w -> in_u w a -> in_u w (notu w a).
Proof.
  intros Hw Ha. apply in_u_lxor; [done|done|].
  rewrite Z.ones_equiv. split; pose proof (Z.pow_pos_nonneg 2 w); lia.
Qed.

Lemma in_u_pow2 w n : 0 <= n < w -> in_u w (2 ^ n).
Proof.
  intros. split; [lia|]. apply Z.pow_lt_mono_r; lia.
Qed.

Lemma in_u_0 w : 0 <= w -> in_u w 0.
Proof. intros. split; lia. Qed.

Lemma in_u_ones w : 0 <= w -> in_u w (Z.ones w).
Proof. intros. rewrite Z.ones_equiv. pose proof (Z.pow_pos_nonneg 2 w). split; lia. Qed.

#[export] Hint Resolve wrapu_range wraps_range in_u_lor in_u_land in_u_lxor in_u_notu
  in_u_0 in_u_ones : lucene.

Lemma wrapu_land w z : 0 <= w -> wrapu w z = Z.land z (Z.ones w).
Proof. intros. unfold wrapu. by rewrite Z.land_ones. Qed.

Lemma testbit_wrapu w z i : 0 <= w -> Z.testbit (wrapu w z) i = (i <? w) && Z.testbit z i.
Proof. intros. by apply testbit_mod_pow2. Qed.
#[export] Hint Rewrite testbit_wrapu using lia : lucene_bits.

(** ** Slices. *)
Lemma zlen_nonneg {A} (l : list A) : 0 <= zlen l.
Proof. unfold zlen. lia. Qed.

Lemma zlen_app {A} (l k : list A) : zlen (l ++ k) = zlen l + zlen k.
Proof. unfold zlen. rewrite length_app. lia. Qed.

Lemma zlen_nil {A} : zlen (@nil A) = 0.
Proof. done. Qed.

Lemma zlen_cons {A} (x : A) l : zlen (x :: l) = 1 + zlen l.
Proof. unfold zlen. simpl. lia. Qed.

Lemma zlen_map {A B} (f : A -> B) l : zlen (map f l) = zlen l.
Proof. unfold zlen. by rewrite List.length_map. Qed.

Lemma zlen_set_at {A} (l : list A) i v : zlen (set_at l i v) = zlen l.
Proof. unfold zlen, set_at. by rewrite length_insert. Qed.

Lemma lookup_lt {A} (l : list A) i : (i < length l)%nat -> exists x, l !! i = Some x.
Proof. intros H. by apply lookup_lt_is_Some_2 in H. Qed.

Lemma zlen_0_inv {A} (l : list A) : zlen l <= 0 -> l = [].
Proof. destruct l; [done|]. rewrite zlen_cons. pose proof (zlen_nonneg l). lia. Qed.

#[export] Hint Rewrite @zlen_app @zlen_nil @zlen_cons @zlen_map @zlen_set_at : zlen.

Ltac zlen_solve := autorewrite with zlen in *;
  repeat match goal with
  | l : list ?A |- _ => lazymatch goal with
                        | _ : 0 <= zlen l |- _ => fail
                        | _ => pose proof (zlen_nonneg l)
                        end
  end; try lia.

Lemma zget_Some {A} (l : list A) i x :
  zget l i = Some x <-> 0 <= i /\ l !! Z.to_nat i = Some x.
Proof. unfold zget. destruct (Z.ltb_spec i 0); naive_solver lia. Qed.

Lemma zget_None {A} (l : list A) i : 0 <= i -> zget l i = None <-> zlen l <= i.
Proof.
  intros. unfold zget, zlen. destruct (Z.ltb_spec i 0); [lia|].
  rewrite lookup_ge_None. lia.
Qed.

Lemma zget_app_r {A} (l k : list A) i : zlen l <= i -> zget (l ++ k) i = zget k (i - zlen l).
Proof.
  unfold zget, zlen. intros. destruct (Z.ltb_spec i 0), (Z.ltb_spec (i - Z.of_nat (length l)) 0);
    try lia. rewrite lookup_app_r by lia. f_equal. lia.
Qed.

Lemma zget_middle {A} (l k : list A) x : zget (l ++ x :: k) (zlen l) = Some x.
Proof. rewrite zget_app_r by lia. by rewrite Z.sub_diag. Qed.

Lemma zslice_Some {A} (l : list A) from to s :
  zslice l from to = Some s <->
  exists a b, l = a ++ s ++ b /\ zlen a = from /\ zlen a + zlen s = to.
Proof.
  unfold zslice. split.
  - intros H. destruct (Z.leb_spec 0 from), (Z.leb_spec from to), (Z.leb_spec to (zlen l)); try done.
    simpl in H. injection H as <-.
    exists (take (Z.to_nat from) l), (drop (Z.to_nat (to - from)) (drop (Z.to_nat from) l)).
    rewrite take_drop, take_drop. unfold zlen in *.
    rewrite !length_take, !length_drop. split; [done|]. lia.
  - intros (a & b & -> & <- & <-). autorewrite with zlen.
    pose proof (zlen_nonneg a); pose proof (zlen_nonneg b); pose proof (zlen_nonneg s).
    destruct (Z.leb_spec 0 (zlen a)), (Z.leb_spec (zlen a) (zlen a + zlen s)),
      (Z.leb_spec (zlen a + zlen s) (zlen a + (zlen s + zlen b))); try lia. simpl. f_equal.
    unfold zlen. rewrite Nat2Z.id, drop_app_length.
    replace (Z.to_nat _) with (length s) by lia. by rewrite take_app_length.
Qed.

Lemma zslice_mid {A} (a s b : list A) : zslice (a ++ s ++ b) (zlen a) (zlen a + zlen s) = Some s.
Proof. apply zslice_Some. eauto. Qed.

Lemma zslice_None {A} (l : list A) from to :
  0 <= from -> from <= to -> zlen l < to -> zslice l from to = None.
Proof.
  intros. unfold zslice. destruct (Z.leb_spec 0 from), (Z.leb_spec from to),
    (Z.leb_spec to (zlen l)); try lia; done.
Qed.

Lemma zslice_total {A} (l : list A) from to :
  0 <= from -> from <= to -> to <= zlen l -> exists s, zslice l from to = Some s /\ zlen s = to - from.
Proof.
  intros. unfold zslice. destruct (Z.leb_spec 0 from), (Z.leb_spec from to),
    (Z.leb_spec to (zlen l)); try lia. simpl. eexists; split; [done|].
  unfold zlen in *. rewrite length_take, length_drop. lia.
Qed.

(** Induction by chunks of four. *)
Lemma list4_ind {A} (P : list A -> Prop) :
  (forall l, (length l < 4)%nat -> P l) ->
  (forall a b c d l, P l -> P (a :: b :: c :: d :: l)) -> forall l, P l.
Proof.
  intros H1 H2 l. remember (length l) as n eqn:Hn. revert l Hn.
  induction (lt_wf n) as [n _ IH]. intros l ->.
  destruct l as [|a [|b [|c [|d l]]]]; [apply H1; simpl; lia..|].
  apply H2. eapply IH; [|reflexivity]. simpl. lia.
Qed.

(** ** Fixed-width byte strings. *)
Lemma zlen_to_le n z : zlen (to_le n z) = Z.of_nat n.
Proof.
  unfold zlen. f_equal. revert z. induction n; intros; simpl; [done|]. by rewrite IHn.
Qed.

Lemma to_le_ok n z : bytes_ok (to_le n z).
Proof.
  revert z. induction n as [|n IH]; intros z; simpl; constructor; [|apply IH].
  change 255 with (Z.ones 8). rewrite Z.land_ones by lia. apply Z.mod_pos_bound. lia.
Qed.

Lemma from_to_le n z : from_le (to_le n z) = z mod 2 ^ (8 * Z.of_nat n).
Proof.
  revert z. induction n; intros; cbn [to_le from_le].
  - rewrite Z.mod_1_r. done.
  - rewrite IHn. change 255 with (Z.ones 8).
    replace (8 * Z.of_nat (Datatypes.S n)) with (8 * Z.of_nat n + 8) by lia. bits_solve.
Qed.

Lemma from_to_le_id n z : in_u (8 * Z.of_nat n) z -> from_le (to_le n z) = z.
Proof. intros. rewrite from_to_le. by apply Z.mod_small. Qed.

Lemma from_le_range l : bytes_ok l -> in_u (8 * zlen l) (from_le l).
Proof.
  induction 1 as [|b l Hb _ IH]; simpl; [split; done|].
  rewrite zlen_cons. pose proof (zlen_nonneg l). apply in_u_lor; [lia| |].
  - apply (in_u_weaken 8); [lia|done].
  - rewrite Z.shiftl_mul_pow2 by lia. destruct IH as [IH1 IH2]. split; [lia|].
    replace (8 * (1 + zlen l)) with (8 * zlen l + 8) by lia.
    rewrite Z.pow_add_r by lia. nia.
Qed.

Lemma to_from_le l : bytes_ok l -> to_le (length l) (from_le l) = l.
Proof.
  induction 1 as [|b l Hb Hl IH]; simpl; [done|]. f_equal.
  - change 255 with (Z.ones 8). bits_solve.
  - transitivity (to_le (length l) (from_le l)); [|done]. f_equal. bits_solve.
Qed.

Lemma from_le_app l k : from_le (l ++ k) = Z.lor (from_le l) (Z.shiftl (from_le k) (8 * zlen l)).
Proof.
  induction l as [|b l IH]; cbn [app from_le].
  - change (8 * zlen []) with 0. by rewrite Z.shiftl_0_r.
  - rewrite IH, zlen_cons, Z.shiftl_lor, Z.shiftl_shiftl, Z.lor_assoc by (pose proof (zlen_nonneg l); lia).
    do 2 f_equal. lia.
Qed.

Lemma zlen_to_be n z : zlen (to_be n z) = Z.of_nat n.
Proof. unfold to_be, zlen. rewrite length_reverse. apply zlen_to_le. Qed.

Lemma to_be_ok n z : bytes_ok (to_be n z).
Proof. apply Forall_reverse, to_le_ok. Qed.

Lemma from_to_be n z : from_be (to_be n z) = z mod 2 ^ (8 * Z.of_nat n).
Proof. unfold from_be, to_be. rewrite reverse_involutive. apply from_to_le. Qed.

Lemma from_to_be_id n z : in_u (8 * Z.of_nat n) z -> from_be (to_be n z) = z.
Proof. intros. rewrite from_to_be. by apply Z.mod_small. Qed.

Lemma to_from_be l : bytes_ok l -> to_be (length l) (from_be l) = l.
Proof.
  intros. unfold to_be, from_be.
  replace (length l) with (length (reverse l)) by apply length_reverse.
  rewrite to_from_le by by apply Forall_reverse. apply reverse_involutive.
Qed.

#[export] Hint Rewrite zlen_to_le zlen_to_be : zlen.
#[export] Hint Resolve to_le_ok to_be_ok : lucene.

(** ** Two's complement, bit by bit, and the shifts of Rust's [wrapping_shl]. *)
Definition shls (w x n : Z) : Z := wraps w (Z.shiftl x (n mod w)).
Definition shlu (w x n : Z) : Z := wrapu w (Z.shiftl x (n mod w)).

Lemma wraps_cases w z : 0 < w ->
  wraps w z = wrapu w z - (if Z.testbit z (w - 1) then 2 ^ w else 0).
Proof.
  intros Hw. rewrite <- wraps_wrapu by done.
  rewrite <- (testbit_wrapu w z (w - 1)) || idtac.
  assert (Hb : Z.testbit z (w - 1) = (2 ^ (w - 1) <=? wrapu w z)).
  { assert (Hr := wrapu_range w z ltac:(lia)).
    transitivity (Z.testbit (wrapu w z) (w - 1)).
    { rewrite testbit_wrapu by lia. destruct (Z.ltb_spec (w - 1) w); [done|lia]. }
    destruct (Z.leb_spec (2 ^ (w - 1)) (wrapu w z)) as [Hc|Hc].
    - rewrite Z.testbit_true by lia.
      assert (2 ^ w = 2 * 2 ^ (w - 1)) as Hp by (rewrite <- Z.pow_succ_r by lia; f_equal; lia).
      destruct Hr as [_ Hr]. rewrite Hp in Hr.
      replace (wrapu w z / 2 ^ (w - 1)) with 1; [done|].
      apply Z.div_unique with (wrapu w z - 2 ^ (w - 1)); lia.
    - apply (testbit_above (w - 1)); [|lia]. destruct Hr. split; lia. }
  rewrite Hb. assert (Hr := wrapu_range w z ltac:(lia)). destruct Hr as [Hr1 Hr2].
  assert (2 ^ w = 2 * 2 ^ (w - 1)) as Hp by (rewrite <- Z.pow_succ_r by lia; f_equal; lia).
  unfold wraps. destruct (Z.leb_spec (2 ^ (w - 1)) (wrapu w z)).
  - replace (wrapu w z + 2 ^ (w - 1)) with (wrapu w z - 2 ^ (w - 1) + 1 * 2 ^ w) by lia.
    rewrite Z.mod_add, Z.mod_small by lia. lia.
  - rewrite Z.mod_small by lia. lia.
Qed.

Lemma testbit_wraps w z i : 0 < w -> 0 <= i ->
  Z.testbit (wraps w z) i = Z.testbit z (Z.min i (w - 1)).
Proof.
  intros Hw Hi. rewrite wraps_cases by done.
  assert (Hr := wrapu_range w z ltac:(lia)).
  destruct (Z.testbit z (w - 1)) eqn:Hs.
  - replace (wrapu w z - 2 ^ w) with (Z.lor (wrapu w z) (Z.shiftl (-1) w)).
    + rewrite Z.lor_spec, testbit_wrapu, testbit_shiftl by lia.
      destruct (Z.leb_spec 0 i), (Z.ltb_spec i w); try lia; simpl.
      * rewrite (Z.testbit_neg_r (-1)) by lia. rewrite orb_false_r. f_equal. lia.
      * rewrite Z.bits_m1 by lia. rewrite Z.min_r by lia. done.
    + rewrite <- Z.lxor_lor, <- Z.add_nocarry_lxor.
      * rewrite Z.shiftl_mul_pow2 by lia. lia.
      * bits_solve.
      * bits_solve.
  - rewrite Z.sub_0_r, testbit_wrapu by lia.
    destruct (Z.ltb_spec i w); simpl.
    + f_equal. lia.
    + by rewrite Z.min_r by lia.
Qed.

Lemma wraps_lor w a b : 0 < w -> Z.lor (wraps w a) (wraps w b) = wraps w (Z.lor a b).
Proof.
  intros. apply Z.bits_inj'; intros i Hi.
  by rewrite Z.lor_spec, !testbit_wraps, Z.lor_spec by done.
Qed.

Lemma wraps_small w a : 0 < w -> in_u (w - 1) a -> wraps w a = a.
Proof. intros Hw [??]. apply wraps_id; [done|]. unfold in_s. lia. Qed.

Lemma wrapu_lor w a b : 0 <= w -> Z.lor (wrapu w a) (wrapu w b) = wrapu w (Z.lor a b).
Proof. intros. bits_solve. Qed.

Lemma lor_disjoint_add a b : Z.land a b = 0 -> Z.lor a b = a + b.
Proof. intros. by rewrite <- Z.lxor_lor, <- Z.add_nocarry_lxor. Qed.

Lemma land_127 b : Z.land b 127 = b mod 2 ^ 7.
Proof. change 127 with (Z.ones 7). by rewrite Z.land_ones. Qed.

Lemma land_128_0 b : in_u 8 b -> Z.land b 128 = 0 <-> b < 128.
Proof.
  intros Hb. change 128 with (2 ^ 7) at 1. rewrite Z.land_comm.
  assert (Hbit : Z.testbit b 7 = negb (b <? 128)).
  { rewrite Z.testbit_eqb by lia. destruct Hb.
    change (2 ^ 7) with 128. destruct (Z.ltb_spec b 128).
    - by rewrite Z.div_small.
    - replace (b / 128) with 1; [done|]. apply Z.div_unique with (b - 128); lia. }
  split; intros H.
  - destruct (Z.ltb_spec b 128); [done|]. cbn [negb] in Hbit.
    assert (Z.testbit (Z.land (2 ^ 7) b) 7 = true) by (rewrite Z.land_spec, Hbit; done).
    rewrite H in *. by rewrite Z.testbit_0_l in *.
  - destruct (Z.ltb_spec b 128); [|lia]. apply Z.bits_inj'; intros i Hi.
    rewrite Z.land_spec, testbit_pow2, Z.testbit_0_l by lia.
    destruct (Z.eqb_spec i 7) as [->|]; [by rewrite Hbit | done].
Qed.

(** Prefixes of little-endian strings. *)
Lemma to_le_app n m z : to_le (n + m) z = to_le n z ++ to_le m (Z.shiftr z (8 * Z.of_nat n)).
Proof.
  revert z. induction n as [|n IH]; intros z; cbn [to_le Nat.add app].
  - by rewrite Z.shiftr_0_r.
  - rewrite IH, Z.shiftr_shiftr by lia. do 4 f_equal. lia.
Qed.

Lemma take_to_le n m z : (n <= m)%nat -> take n (to_le m z) = to_le n z.
Proof.
  intros. replace m with (n + (m - n))%nat by lia. rewrite to_le_app.
  replace n with (length (to_le n z)) at 1; [by rewrite take_app_length|].
  pose proof (zlen_to_le n z). unfold zlen in *. lia.
Qed.

Lemma take_to_from_le n m l : bytes_ok l -> (n <= length l)%nat -> (length l <= m)%nat ->
  take n (to_le m (from_le l)) = take n l.
Proof.
  intros Hl Hn Hm. rewrite take_to_le by lia. rewrite <- (take_to_le n (length l)) by lia.
  by rewrite to_from_le.
Qed.

Lemma from_le_lor l k : length l = length k ->
  Z.lor (from_le l) (from_le k) = from_le (zip_with Z.lor l k).
Proof.
  revert k. induction l as [|a l IH]; intros [|b k] Hlen; try done. cbn [from_le zip_with].
  rewrite <- IH by (simpl in Hlen; lia). rewrite Z.shiftl_lor. bits_solve.
Qed.

Lemma testbit_shlu w x n i : 0 <= n < w -> Z.testbit (shlu w x n) i = (i <? w) && (0 <=? i) && Z.testbit x (i - n).
Proof.
  intros. unfold shlu. rewrite testbit_wrapu, testbit_shiftl, Z.mod_small by lia. btauto.
Qed.
#[export] Hint Rewrite testbit_shlu using lia : lucene_bits.

Lemma bytes_ok_zip_lor l k : bytes_ok l -> bytes_ok k -> bytes_ok (zip_with Z.lor l k).
Proof.
  intros Hl. revert k. induction Hl as [|a l Ha _ IH]; intros k Hk; [constructor|].
  destruct Hk as [|b k Hb Hk]; simpl; constructor; [|by apply IH].
  apply in_u_lor; [lia|done|done].
Qed.

Lemma bytes_ok_replicate n b : in_u 8 b -> bytes_ok (replicate n b).
Proof. intros. by apply Forall_replicate. Qed.

Lemma bytes_ok_app l k : bytes_ok l -> bytes_ok k -> bytes_ok (l ++ k).
Proof. intros. by apply Forall_app. Qed.
#[export] Hint Resolve bytes_ok_app bytes_ok_replicate bytes_ok_zip_lor : lucene.

(** [bytes_ok], decided: for closed byte strings. *)
Definition bytes_okb (l : list byte) : bool := forallb (fun b => (0 <=? b) && (b <? 256)) l.

Lemma bytes_okb_ok l : bytes_okb l = true -> bytes_ok l.
Proof.
  unfold bytes_ok. induction l as [|b l IH]; cbn [bytes_okb forallb]; [constructor|].
  intros [[H1%Z.leb_le H2%Z.ltb_lt]%andb_true_iff H]%andb_true_iff.
  constructor; [split; [done|exact H2]|by apply IH].
Qed.

(** ** Stepping through the monad. *)
Lemma bind_Ok {E S A B} (m : M E S A) (k : A -> M E S B) s a s' :
  m s = (Ok a, s') -> bind m k s = k a s'.
Proof. intros H. unfold bind. by rewrite H. Qed.

Lemma bind_Err {E S A B} (m : M E S A) (k : A -> M E S B) s e s' :
  m s = (Err e, s') -> bind m k s = (Err e, s').
Proof. intros H. unfold bind. by rewrite H. Qed.

Lemma bind_Ok_inv {E S A B} (m : M E S A) (k : A -> M E S B) s b s' :
  bind m k s = (Ok b, s') -> exists a s1, m s = (Ok a, s1) /\ k a s1 = (Ok b, s').
Proof. unfold bind. destruct (m s) as [[a|e] s1]; [eauto|done]. Qed.

Lemma bind_ext {E S A B} (m : M E S A) (k1 k2 : A -> M E S B) s :
  (forall a s', m s = (Ok a, s') -> k1 a s' = k2 a s') -> bind m k1 s = bind m k2 s.
Proof. intros Hk. unfold bind. destruct (m s) as [[a|e] s']; [by apply Hk|done]. Qed.

Lemma repeatM_S {E S A} n (m : M E S A) :
  repeatM (Datatypes.S n) m = (let* a := m in let* l := repeatM n m in ret (a :: l)).
Proof. done. Qed.

(** [preserves P m]: the step [m] keeps the state invariant [P], whether it
    succeeds or fails. *)
Definition preserves {E S A} (P : S -> Prop) (m : M E S A) : Prop :=
  forall s, P s -> P (m s).2.

Section preserves.
Context {E S : Type} (P : S -> Prop).
Lemma preserves_ret {A} (a : A) : preserves P (@ret E S A a).
Proof. by intros s Hs. Qed.
Lemma preserves_fail {A} (e : E) : preserves P (@fail E S A e).
Proof. by intros s Hs. Qed.
Lemma preserves_get : preserves P (@get_state E S).
Proof. by intros s Hs. Qed.
Lemma preserves_bind {A B} (m : M E S A) (k : A -> M E S B) :
  preserves P m -> (forall a, preserves P (k a)) -> preserves P (bind m k).
Proof.
  intros Hm Hk s Hs. specialize (Hm s Hs). unfold bind.
  destruct (m s) as [[a|e] s']; [by apply Hk|done].
Qed.
Lemma preserves_if {A} (b : bool) (m1 m2 : M E S A) :
  preserves P m1 -> preserves P m2 -> preserves P (if b then m1 else m2).
Proof. by destruct b. Qed.
Lemma preserves_repeatM {A} n (m : M E S A) : preserves P m -> preserves P (repeatM n m).
Proof.
  intros Hm. induction n as [|n IH]; [apply preserves_ret|].
  apply preserves_bind; [done|]. intros a. apply preserves_bind; [done|].
  intros l. apply preserves_ret.
Qed.
Lemma repeatM_ext {A} n (m1 m2 : M E S A) s :
  preserves P m1 -> (forall s, P s -> m1 s = m2 s) -> P s -> repeatM n m1 s = repeatM n m2 s.
Proof.
  intros Hm Heq. revert s. induction n as [|n IH]; intros s Hs; [done|].
  cbn [repeatM]. pose proof (Hm s Hs) as Hs1. unfold bind. rewrite <- Heq by done.
  destruct (m1 s) as [[a|e] s1]; [|done]. by rewrite IH.
Qed.
End preserves.
#[export] Hint Resolve preserves_ret preserves_fail preserves_get preserves_bind preserves_if
  preserves_repeatM : lucene.
