(* ===== verification/StoreError.v ===== *)
(** The store crate's error type ([crates/lucene-store/src/error.rs]).  The
    text of a message is kept as the tag of its format string: what the source
    interpolates into it is diagnostic only. *)
From stdpp Require Import strings.
From S2P Require Import Prelude.

(** [std::io::ErrorKind], as far as the store crate distinguishes it. *)
Inductive ErrorKind : Type :=
| NotFound
| AlreadyExists
| PermissionDenied
| Other.

Inductive Error : Type :=
| Eof (offset : Z)
| MalformedVarint
| Corrupted (msg : string)
| Io (kind : ErrorKind) (msg : string)
| LockObtainFailed (msg : string)
| LockReleaseFailed (msg : string)
| AlreadyClosed (msg : string)
| IllegalArgument (msg : string).

#[export] Instance ErrorKind_eq_dec : EqDecision ErrorKind.
Proof. solve_decision. Defined.

#[export] Instance Error_eq_dec : EqDecision Error.
Proof. solve_decision. Defined.

(** [Error::is_no_such_file]. *)
Definition is_no_such_file (e : Error) : bool :=
  match e with
  | Io NotFound _ => true
  | _ => false
  end.

(** [Error::no_such_file] and [Error::file_already_exists]. *)
Definition no_such_file (message : string) : Error := Io NotFound message.
Definition file_already_exists (message : string) : Error := Io AlreadyExists message.
