(* ===== verification/ZigZag.v ===== *)
(** ZigZag integers ([crates/lucene-util/src/zigzag.rs]): the 64- and 32-bit
    encoders, their inverses, and the size property they exist for. *)
From S2P Require Import Prelude.

Module ZigZag.

(** [encode(v: i64) -> u64]. *)
Definition encode (v : Z) : Z :=
  wrapu 64 (Z.lxor (Z.shiftr v 63) (wraps 64 (Z.shiftl v 1))).

(** [decode(v: u64) -> i64]. *)
Definition decode (v : Z) : Z :=
  Z.lxor (wraps 64 (Z.shiftr v 1)) (wraps 64 (- wraps 64 (Z.land v 1))).

(** [encode_i32(v: i32) -> u32]. *)
Definition encode_i32 (v : Z) : Z :=
  wrapu 32 (Z.lxor (Z.shiftr v 31) (wraps 32 (Z.shiftl v 1))).

(** [decode_i32(v: u32) -> i32]. *)
Definition decode_i32 (v : Z) : Z :=
  Z.lxor (wraps 32 (Z.shiftr v 1)) (wraps 32 (- wraps 32 (Z.land v 1))).

(** Both widths are one function of the width. *)
Definition enc (w v : Z) : Z :=
  wrapu w (Z.lxor (Z.shiftr v (w - 1)) (wraps w (Z.shiftl v 1))).
Definition dec (w v : Z) : Z :=
  Z.lxor (wraps w (Z.shiftr v 1)) (wraps w (- wraps w (Z.land v 1))).

Lemma shiftr_sign w v : 1 < w -> in_s w v -> Z.shiftr v (w - 1) = if v <? 0 then -1 else 0.
Proof.
  intros Hw [Hl Hu]. rewrite Z.shiftr_div_pow2 by lia.
  destruct (Z.ltb_spec v 0).
  - symmetry. apply Z.div_unique with (v + 2 ^ (w - 1)); lia.
  - apply Z.div_small. lia.
Qed.

(** The closed form of the encoder: even codes for non-negative values, odd
    codes for negative ones. *)
Lemma enc_closed w v : 1 < w -> in_s w v -> enc w v = if v <? 0 then - 2 * v - 1 else 2 * v.
Proof.
  intros Hw Hv. assert (2 ^ w = 2 * 2 ^ (w - 1)) as Hp
    by (rewrite <- Z.pow_succ_r by lia; f_equal; lia).
  unfold enc. rewrite shiftr_sign by done. rewrite Z.shiftl_mul_pow2 by lia.
  change (2 ^ 1) with 2. destruct Hv as [Hl Hu]. destruct (Z.ltb_spec v 0).
  - rewrite Z.lxor_comm, Z.lxor_m1_r. unfold Z.lnot, Z.pred.
    transitivity (wrapu w (- (v * 2) - 1)).
    + unfold wrapu, wraps.
      replace (- ((v * 2 + 2 ^ (w - 1)) mod 2 ^ w - 2 ^ (w - 1)) + -1)
        with (2 ^ (w - 1) - 1 - (v * 2 + 2 ^ (w - 1)) mod 2 ^ w) by lia.
      rewrite Zminus_mod_idemp_r. f_equal. lia.
    + rewrite wrapu_id; [lia|]. split; lia.
  - rewrite Z.lxor_0_l, wrapu_wraps by lia. rewrite wrapu_id; [lia|]. split; lia.
Qed.

Lemma dec_closed w u : 1 < w -> in_u w u ->
  dec w u = if Z.odd u then - (u / 2) - 1 else u / 2.
Proof.
  intros Hw [Hl Hu]. assert (2 ^ w = 2 * 2 ^ (w - 1)) as Hp
    by (rewrite <- Z.pow_succ_r by lia; f_equal; lia).
  unfold dec. rewrite Z.shiftr_div_pow2 by lia. change (2 ^ 1) with 2.
  rewrite (wraps_small w (u / 2)) by
    (first [lia | split; [apply Z.div_pos|apply Z.div_lt_upper_bound]; lia]).
  change 1 with (Z.ones 1) at 1. rewrite Z.land_ones by lia. change (2 ^ 1) with 2.
  assert (H1 : 1 <= 2 ^ (w - 1)) by (pose proof (Z.pow_pos_nonneg 2 (w - 1)); lia).
  rewrite Zmod_odd. destruct (Z.odd u).
  - destruct (Z.eqb_spec w 2) as [->|].
    + change (wraps 2 (- wraps 2 1)) with (-1). rewrite Z.lxor_m1_r. unfold Z.lnot. lia.
    + assert (1 < 2 ^ (w - 1)) by (change 1 with (2 ^ 0); apply Z.pow_lt_mono_r; lia).
      rewrite (wraps_id w 1) by (unfold in_s; lia).
      change (- (1)) with (-1). rewrite (wraps_id w (-1)) by (unfold in_s; lia).
      rewrite Z.lxor_m1_r. unfold Z.lnot. lia.
  - rewrite (wraps_id w 0) by (unfold in_s; lia).
    change (- 0) with 0. rewrite (wraps_id w 0) by (unfold in_s; lia). apply Z.lxor_0_r.
Qed.

Lemma enc_range w v : 1 < w -> in_u w (enc w v).
Proof. intros. apply wrapu_range. lia. Qed.

Lemma dec_enc w v : 1 < w -> in_s w v -> dec w (enc w v) = v.
Proof.
  intros Hw Hv. rewrite dec_closed by (try apply enc_range; done).
  rewrite enc_closed by done. destruct (Z.ltb_spec v 0).
  - replace (-2 * v - 1) with (1 + 2 * (- v - 1)) by lia.
    rewrite Z.odd_add_mul_2. replace (1 + 2 * (- v - 1)) with (1 + (- v - 1) * 2) by lia.
    rewrite Z.div_add by lia. change (1 / 2) with 0. cbn [Z.odd]. lia.
  - rewrite Z.mul_comm, Z.div_mul by lia.
    rewrite <- (Z.add_0_l (v * 2)), Z.mul_comm, Z.odd_add_mul_2. done.
Qed.

Lemma enc_dec w u : 1 < w -> in_u w u -> enc w (dec w u) = u.
Proof.
  intros Hw Hu. rewrite dec_closed by done.
  assert (2 ^ w = 2 * 2 ^ (w - 1)) as Hp by (rewrite <- Z.pow_succ_r by lia; f_equal; lia).
  destruct Hu as [Hl Hu].
  assert (u / 2 < 2 ^ (w - 1)) by (apply Z.div_lt_upper_bound; lia).
  assert (0 <= u / 2) by (apply Z.div_pos; lia).
  assert (Hm := Z.div_mod u 2 ltac:(lia)). rewrite Zmod_odd in Hm.
  destruct (Z.odd u).
  - rewrite enc_closed by (try done; split; lia). destruct (Z.ltb_spec (- (u / 2) - 1) 0); lia.
  - rewrite enc_closed by (try done; split; lia). destruct (Z.ltb_spec (u / 2) 0); lia.
Qed.

Lemma encode_range v : in_u 64 (encode v).
Proof. apply (enc_range 64). lia. Qed.

Lemma encode_i32_range v : in_u 32 (encode_i32 v).
Proof. apply (enc_range 32). lia. Qed.

Lemma decode_encode v : in_s 64 v -> decode (encode v) = v.
Proof. apply (dec_enc 64). lia. Qed.

Lemma decode_encode_i32 v : in_s 32 v -> decode_i32 (encode_i32 v) = v.
Proof. apply (dec_enc 32). lia. Qed.

(** Zigzag is a bijection at both widths: [decode] inverts [encode] on
    every signed value, [encode] inverts [decode] on every unsigned one, and a
    value of magnitude below [2^k] gets a code below [2^(k+1)], which is why
    small negative numbers cost one byte on the wire. *)
Lemma zigzag_bijective :
  (forall v, in_s 64 v -> decode (encode v) = v)
  /\ (forall u, in_u 64 u -> encode (decode u) = u)
  /\ (forall v, in_s 32 v -> decode_i32 (encode_i32 v) = v)
  /\ (forall u, in_u 32 u -> encode_i32 (decode_i32 u) = u)
  /\ (forall v k, in_s 64 v -> 0 <= k -> Z.abs v < 2 ^ k -> encode v < 2 ^ (k + 1)).
Proof.
  split; [apply decode_encode|]. split; [intros u; apply (enc_dec 64); lia|].
  split; [apply decode_encode_i32|]. split; [intros u; apply (enc_dec 32); lia|].
  intros v k Hv Hk Habs. change (encode v) with (enc 64 v). rewrite enc_closed by (try done; lia).
  rewrite Z.pow_add_r by lia. destruct (Z.ltb_spec v 0); lia.
Qed.

Lemma zigzag_bijective_witness : in_s 64 (-5) /\ decode (encode (-5)) = -5 /\ encode (-5) = 9.
Proof.
  assert (H : in_s 64 (-5)) by (split; vm_compute; congruence).
  split; [exact H|]. split; [exact (proj1 zigzag_bijective (-5) H)|]. vm_compute. reflexivity.
Defined.

End ZigZag.
