(* ===== verification/DataOutput.v ===== *)
(** The write side of the wire format ([crates/lucene-store/src/data_output.rs]):
    the [DataOutput] trait as a class, its provided methods, the two overrides
    of the byte-vector sinks, and the laws a sink owes its users. *)
From S2P Require Import Prelude ZigZag.

(** ** The encoders.  [encode_varint] fills a 10-byte buffer and returns how
    much of it; here it is the filled prefix.  [fuel] bounds the 7-bit groups
    of a 64-bit value: ten. *)
Fixpoint encode_varint_loop (fuel : nat) (v : Z) : list byte :=
  match fuel with
  | O => []
  | Datatypes.S f =>
      if Z.land v (notu 64 0x7f) =? 0 then [wrapu 8 v]
      else Z.lor (wrapu 8 (Z.land v 0x7f)) 0x80 :: encode_varint_loop f (Z.shiftr v 7)
  end.

Definition encode_varint (v : Z) : list byte := encode_varint_loop 10 v.

(** [spread7] (the portable body): the low 56 bits as eight 7-bit lanes. *)
Definition spread7 (v : Z) : Z :=
  Z.lor (Z.lor (Z.lor (Z.lor (Z.lor (Z.lor (Z.lor
    (Z.land v 0x7f)
    (Z.land (shlu 64 v 1) 0x7f00))
    (Z.land (shlu 64 v 2) 0x7f0000))
    (Z.land (shlu 64 v 3) 0x7f000000))
    (Z.land (shlu 64 v 4) 0x7f00000000))
    (Z.land (shlu 64 v 5) 0x7f0000000000))
    (Z.land (shlu 64 v 6) 0x7f000000000000))
    (Z.land (shlu 64 v 7) 0x7f00000000000000).

(** [push_varint]: the bytes it appends to [out], branch-free. *)
Definition push_varint (out : list byte) (v : Z) : list byte :=
  let bits := 64 - leading_zeros 64 (Z.lor v 1) in
  let n := div_ceil bits 7 in
  let lanes := Z.lor (Z.lor (spread7 v) (shlu 128 (Z.land (Z.shiftr v 56) 0x7f) 64))
                     (shlu 128 (Z.shiftr v 63) 72) in
  let CONT := 0x80808080808080808080 in
  let encoded := Z.lor lanes (Z.land CONT (shlu 128 1 (8 * (n - 1)) - 1)) in
  out ++ take (Z.to_nat n) (to_le 16 encoded).

(** ** The trait.  The methods a sink overrides are fields; every other method
    of the trait is a definition over them. *)
Class DataOutput (W : Type) : Type := {
  write_byte : Z -> W -> W;
  write_bytes : list byte -> W -> W;
  write_vint : Z -> W -> W;
  write_vlong_raw_u64 : Z -> W -> W;
}.

Section provided.
Context {W : Type} (wbyte : Z -> W -> W) (wbytes : list byte -> W -> W).

(** The trait's own bodies of the two overridable varint writers. *)
Definition default_write_vint (v : Z) (w : W) : W :=
  if wrapu 32 v <=? 0x7f then wbyte (wrapu 8 v) w
  else wbytes (encode_varint (wrapu 32 v)) w.

Definition default_write_vlong_raw_u64 (v : Z) (w : W) : W :=
  if v <=? 0x7f then wbyte (wrapu 8 v) w
  else wbytes (encode_varint v) w.
End provided.

Section methods.
Context {W : Type} `{DataOutput W}.

(** A release build: the [debug_assert!(v >= 0)] is off. *)
Definition write_vlong (v : Z) : W -> W := write_vlong_raw_u64 (wrapu 64 v).
Definition write_zlong (v : Z) : W -> W := write_vlong_raw_u64 (ZigZag.encode v).
Definition write_zint (v : Z) : W -> W := write_vint (wraps 32 (ZigZag.encode_i32 v)).

Definition write_be_u32 (v : Z) : W -> W := write_bytes (to_be 4 v).
Definition write_be_u64 (v : Z) : W -> W := write_bytes (to_be 8 v).
Definition write_i16 (v : Z) : W -> W := write_bytes (to_le 2 v).
Definition write_i32 (v : Z) : W -> W := write_bytes (to_le 4 v).
Definition write_i64 (v : Z) : W -> W := write_bytes (to_le 8 v).

(** [GroupVIntUtil.numBytes]: [4 - (v | 1).leading_zeros() / 8]. *)
Definition num_bytes (v : Z) : Z := 4 - leading_zeros 32 (Z.lor v 1) / 8.

(** One group of four: the flag byte, then each value's low bytes. *)
Definition encode_group (a b c d : Z) : list byte :=
  let la := num_bytes a in let lb := num_bytes b in
  let lc := num_bytes c in let ld := num_bytes d in
  let flag := Z.lor (Z.lor (Z.lor (Z.shiftl (la - 1) 6) (Z.shiftl (lb - 1) 4))
                           (Z.shiftl (lc - 1) 2)) (ld - 1) in
  wrapu 8 flag ::
    take (Z.to_nat la) (to_le 4 a) ++ take (Z.to_nat lb) (to_le 4 b)
    ++ take (Z.to_nat lc) (to_le 4 c) ++ take (Z.to_nat ld) (to_le 4 d).

Fixpoint write_group_vints (values : list Z) (w : W) : W :=
  match values with
  | a :: b :: c :: d :: rest =>
      write_group_vints rest (write_bytes (encode_group a b c d) w)
  | tail => fold_left (fun w v => write_vint (wraps 32 v) w) tail w
  end.

(** A string is its UTF-8 bytes. *)
Definition write_string (s : list byte) (w : W) : W :=
  write_bytes s (write_vint (wraps 32 (zlen s)) w).

Definition write_map_of_strings (map : list (list byte * list byte)) (w : W) : W :=
  fold_left (fun w kv => write_string kv.2 (write_string kv.1 w)) map
    (write_vint (wraps 32 (zlen map)) w).

Definition write_set_of_strings (set : list (list byte)) (w : W) : W :=
  fold_left (fun w s => write_string s w) set (write_vint (wraps 32 (zlen set)) w).
End methods.

(** [impl DataOutput for Vec<u8>] (and [VecDataOutput], which wraps one). *)
#[export] Instance VecDataOutput : DataOutput (list byte) := {|
  write_byte b w := w ++ [b];
  write_bytes b w := w ++ b;
  write_vint v w := push_varint w (wrapu 32 v);
  write_vlong_raw_u64 v w := push_varint w v;
|}.

(** ** What a sink promises: it appends, and its varint writers append the
    bytes of [encode_varint]. *)
Class DataOutputLaws (W : Type) `{DataOutput W} : Type := {
  contents : W -> list byte;
  contents_write_byte b w : contents (write_byte b w) = contents w ++ [b];
  contents_write_bytes b w : contents (write_bytes b w) = contents w ++ b;
  contents_write_vint v w :
    contents (write_vint v w) = contents w ++ encode_varint (wrapu 32 v);
  contents_write_vlong_raw_u64 v w : in_u 64 v ->
    contents (write_vlong_raw_u64 v w) = contents w ++ encode_varint v;
}.

(** ** The 7-bit groups of a value. *)
Lemma notu_7f_0 v : in_u 64 v -> Z.land v (notu 64 0x7f) = 0 <-> v < 128.
Proof.
  intros Hv. assert (E : Z.land v (notu 64 0x7f) = Z.shiftl (Z.shiftr v 7) 7).
  { unfold notu. change 0x7f with (Z.ones 7). bits_solve. }
  rewrite E, Z.shiftl_mul_pow2, Z.shiftr_div_pow2 by lia. destruct Hv.
  change (2 ^ 7) with 128. split; intros Hz.
  - assert (Hd := Z.div_mod v 128 ltac:(lia)). pose proof (Z.mod_pos_bound v 128). lia.
  - rewrite Z.div_small; lia.
Qed.

Lemma encode_varint_small v : 0 <= v < 128 -> encode_varint v = [v].
Proof.
  intros Hv. unfold encode_varint. cbn [encode_varint_loop].
  assert (Hu : in_u 64 v) by (split; lia).
  destruct (Z.eqb_spec (Z.land v (notu 64 127)) 0) as [_|Hne].
  - rewrite wrapu_id; [done|]. split; lia.
  - destruct Hne. apply notu_7f_0; [done|lia].
Qed.

(** The loop by the number [n] of groups it emits. *)
Lemma encode_varint_loop_fuel f g v :
  in_u (7 * Z.of_nat f) v -> in_u 64 v -> (0 < f <= g)%nat ->
  encode_varint_loop g v = encode_varint_loop f v.
Proof.
  revert g v. induction f as [|f IH]; intros g v Hf Hv Hfg; [lia|].
  destruct g as [|g]; [lia|]. cbn [encode_varint_loop].
  destruct (Z.eqb_spec (Z.land v (notu 64 127)) 0) as [|Hne]; [done|].
  f_equal. destruct f as [|f].
  { destruct Hne. apply notu_7f_0; [done|]. destruct Hf. simpl in *. lia. }
  apply IH; [| |lia].
  - destruct Hf as [Hf1 Hf2]. rewrite Z.shiftr_div_pow2 by lia. split.
    + apply Z.div_pos; lia.
    + apply Z.div_lt_upper_bound; [lia|]. rewrite <- Z.pow_add_r by lia.
      replace (7 + 7 * Z.of_nat (Datatypes.S f)) with (7 * Z.of_nat (Datatypes.S (Datatypes.S f))) by lia.
      done.
  - destruct Hv. rewrite Z.shiftr_div_pow2 by lia. split; [apply Z.div_pos; lia|].
    apply Z.div_lt_upper_bound; lia.
Qed.

(** [vgroups n v]: the [n]-group encoding of [v]. *)
Fixpoint vgroups (n : nat) (v : Z) : list byte :=
  match n with
  | O => []
  | Datatypes.S O => [v]
  | Datatypes.S m => Z.lor (Z.land v 127) 128 :: vgroups m (Z.shiftr v 7)
  end.

Lemma shiftr7_range n v : in_u (7 * Z.of_nat (Datatypes.S n)) v -> in_u (7 * Z.of_nat n) (Z.shiftr v 7).
Proof.
  intros [H1 H2]. rewrite Z.shiftr_div_pow2 by lia. split; [apply Z.div_pos; lia|].
  apply Z.div_lt_upper_bound; [lia|]. rewrite <- Z.pow_add_r by lia.
  by replace (7 + 7 * Z.of_nat n) with (7 * Z.of_nat (Datatypes.S n)) by lia.
Qed.

Lemma shiftr7_64 v : in_u 64 v -> in_u 64 (Z.shiftr v 7).
Proof.
  intros [H1 H2]. rewrite Z.shiftr_div_pow2 by lia. split; [apply Z.div_pos; lia|].
  apply Z.div_lt_upper_bound; lia.
Qed.

Lemma encode_varint_loop_groups fuel n v :
  (0 < n <= fuel)%nat -> in_u 64 v -> in_u (7 * Z.of_nat n) v ->
  (n = 1%nat \/ 2 ^ (7 * (Z.of_nat n - 1)) <= v) ->
  encode_varint_loop fuel v = vgroups n v.
Proof.
  revert fuel v. induction n as [|n IH]; intros fuel v Hn H64 Hv Hlow; [lia|].
  destruct fuel as [|fuel]; [lia|]. cbn [encode_varint_loop].
  destruct n as [|n].
  - cbn [vgroups]. destruct (Z.eqb_spec (Z.land v (notu 64 127)) 0) as [|Hne].
    + f_equal. apply wrapu_id. destruct Hv. split; lia.
    + destruct Hne. apply notu_7f_0; [done|]. destruct Hv; lia.
  - destruct Hlow as [|Hlow]; [lia|].
    assert (Hge : 128 <= v).
    { transitivity (2 ^ (7 * (Z.of_nat (Datatypes.S (Datatypes.S n)) - 1))); [|done].
      change 128 with (2 ^ 7). apply Z.pow_le_mono_r; lia. }
    destruct (Z.eqb_spec (Z.land v (notu 64 127)) 0) as [Hz|_];
      [apply notu_7f_0 in Hz; [lia|done]|].
    change (vgroups (Datatypes.S (Datatypes.S n)) v)
      with (Z.lor (Z.land v 127) 128 :: vgroups (Datatypes.S n) (Z.shiftr v 7)).
    f_equal.
    + f_equal. apply wrapu_id. rewrite land_127. pose proof (Z.mod_pos_bound v (2^7)). split; lia.
    + apply IH; [lia|by apply shiftr7_64|by apply shiftr7_range|].
      destruct n as [|n]; [by left|right].
      rewrite Z.shiftr_div_pow2 by lia. apply Z.div_le_lower_bound; [lia|].
      rewrite <- Z.pow_add_r by lia. etransitivity; [|exact Hlow].
      apply Z.pow_le_mono_r; lia.
Qed.

(** Every value has such an [n], and [push_varint] computes it. *)
Lemma push_varint_groups v : in_u 64 v ->
  let n := div_ceil (64 - leading_zeros 64 (Z.lor v 1)) 7 in
  1 <= n <= 10 /\ in_u (7 * n) v /\ (n = 1 \/ 2 ^ (7 * (n - 1)) <= v).
Proof.
  intros [Hv1 Hv2] n.
  assert (Hb : 64 - leading_zeros 64 (Z.lor v 1) = Z.log2 v + 1).
  { unfold leading_zeros. destruct (Z.eqb_spec (Z.lor v 1) 0) as [E|_].
    - apply Z.lor_eq_0_iff in E. lia.
    - rewrite Z.log2_lor by lia. change (Z.log2 1) with 0. pose proof (Z.log2_nonneg v). lia. }
  assert (Hnn := Z.log2_nonneg v).
  subst n. rewrite Hb. unfold div_ceil.
  set (n := (Z.log2 v + 1 + 7 - 1) / 7).
  assert (Hn : 7 * (n - 1) <= Z.log2 v < 7 * n) by (subst n; Z.div_mod_to_equations; lia).
  destruct (Z.eq_dec v 0) as [->|Hv0].
  { change (Z.log2 0) with 0 in *. assert (n = 1) as -> by lia. split; [lia|].
    split; [split; lia | by left]. }
  assert (Hlog := Z.log2_spec v ltac:(lia)).
  assert (Hlt : Z.log2 v < 64) by (apply Z.log2_lt_pow2; lia).
  split; [lia|]. split; [split; [lia|]|right].
  - eapply Z.lt_le_trans; [apply Hlog|]. apply Z.pow_le_mono_r; lia.
  - etransitivity; [|apply Hlog]. apply Z.pow_le_mono_r; lia.
Qed.

(** The lanes: [glanes m v] are the first [m] 7-bit groups. *)
Fixpoint glanes (m : nat) (v : Z) : list byte :=
  match m with
  | O => []
  | Datatypes.S k => Z.land v 127 :: glanes k (Z.shiftr v 7)
  end.

Lemma lane_shift v k : 0 <= k <= 7 ->
  Z.land (shlu 64 v k) (Z.shiftl (Z.ones 7) (8 * k))
  = Z.shiftl (Z.land (Z.shiftr v (7 * k)) 127) (8 * k).
Proof. intros. change 127 with (Z.ones 7). bits_solve. Qed.

Lemma spread7_lanes v : in_u 64 v ->
  Z.lor (Z.lor (spread7 v) (shlu 128 (Z.land (Z.shiftr v 56) 0x7f) 64))
        (shlu 128 (Z.shiftr v 63) 72)
  = from_le (glanes 10 v).
Proof.
  intros Hv. unfold spread7.
  change 0x7f00 with (Z.shiftl (Z.ones 7) (8 * 1)).
  change 0x7f0000 with (Z.shiftl (Z.ones 7) (8 * 2)).
  change 0x7f000000 with (Z.shiftl (Z.ones 7) (8 * 3)).
  change 0x7f00000000 with (Z.shiftl (Z.ones 7) (8 * 4)).
  change 0x7f0000000000 with (Z.shiftl (Z.ones 7) (8 * 5)).
  change 0x7f000000000000 with (Z.shiftl (Z.ones 7) (8 * 6)).
  change 0x7f00000000000000 with (Z.shiftl (Z.ones 7) (8 * 7)).
  rewrite !lane_shift by lia.
  assert (shlu 128 (Z.land (Z.shiftr v 56) 127) 64 = Z.shiftl (Z.land (Z.shiftr v 56) 127) 64) as ->.
  { change 127 with (Z.ones 7). bits_solve. }
  assert (shlu 128 (Z.shiftr v 63) 72 = Z.shiftl (Z.land (Z.shiftr v 63) 127) 72) as ->.
  { change 127 with (Z.ones 7). bits_solve. }
  cbn [glanes from_le]. rewrite !Z.shiftr_shiftr by lia.
  rewrite Z.shiftl_0_l, Z.lor_0_r.
  rewrite !Z.shiftl_lor, !Z.shiftl_shiftl, !Z.lor_assoc by lia. done.
Qed.

Lemma glanes_ok m v : bytes_ok (glanes m v).
Proof.
  revert v. induction m as [|m IH]; intros v; cbn [glanes]; constructor; [|apply IH].
  rewrite land_127. pose proof (Z.mod_pos_bound v (2 ^ 7)). split; lia.
Qed.

Lemma length_glanes m v : length (glanes m v) = m.
Proof. revert v. induction m; intros; simpl; [done|]. by rewrite IHm. Qed.

(** The continuation bits: the first [k] of ten lanes. *)
Definition conts (k : nat) : list byte := replicate k 128 ++ replicate (10 - k) 0.

Lemma length_conts k : (k <= 10)%nat -> length (conts k) = 10%nat.
Proof. intros. unfold conts. rewrite length_app, !length_replicate. lia. Qed.

Lemma conts_mask k : (k <= 9)%nat ->
  Z.land 0x80808080808080808080 (shlu 128 1 (8 * Z.of_nat k) - 1) = from_le (conts k).
Proof. intros. do 10 (destruct k as [|k]; [vm_compute; reflexivity|]). lia. Qed.

Lemma zip_groups k m v : in_u (7 * Z.of_nat (Datatypes.S k)) v ->
  take (Datatypes.S k) (zip_with Z.lor (glanes (Datatypes.S (k + m)) v) (replicate k 128 ++ replicate (Datatypes.S m) 0))
  = vgroups (Datatypes.S k) v.
Proof.
  revert v. induction k as [|k IH]; intros v Hv.
  - cbn. rewrite Z.lor_0_r, land_127. f_equal. apply Z.mod_small, Hv.
  - change (vgroups (Datatypes.S (Datatypes.S k)) v)
      with (Z.lor (Z.land v 127) 128 :: vgroups (Datatypes.S k) (Z.shiftr v 7)).
    rewrite <- IH by by apply shiftr7_range. done.
Qed.

(** [push_varint] appends exactly [encode_varint]'s bytes. *)
Lemma push_varint_encode out v : in_u 64 v -> push_varint out v = out ++ encode_varint v.
Proof.
  intros Hv. unfold push_varint. destruct (push_varint_groups v Hv) as (Hn & Hr & Hlow).
  set (n := div_ceil _ 7) in *. f_equal.
  rewrite spread7_lanes by done.
  destruct (Z_of_nat_complete (n - 1) ltac:(lia)) as [k Hk].
  assert (Hk9 : (k <= 9)%nat) by lia.
  rewrite Hk, conts_mask by done.
  assert (n = Z.of_nat (Datatypes.S k)) as -> by lia. rewrite Nat2Z.id.
  rewrite from_le_lor by (rewrite length_glanes, length_conts; lia).
  rewrite take_to_from_le.
  - unfold conts. replace (10 - k)%nat with (Datatypes.S (9 - k)) by lia.
    replace 10%nat with (Datatypes.S (k + (9 - k))) at 1 by lia.
    rewrite zip_groups by done. symmetry. unfold encode_varint.
    apply encode_varint_loop_groups; [lia|done|done|].
    destruct Hlow as [Hl|Hl]; [left; lia|by right].
  - apply bytes_ok_zip_lor; [apply glanes_ok|].
    apply bytes_ok_app; apply bytes_ok_replicate; split; lia.
  - rewrite length_zip_with, length_glanes, length_conts by lia. lia.
  - rewrite length_zip_with, length_glanes, length_conts by lia. lia.
Qed.

#[export] Program Instance VecDataOutputLaws : DataOutputLaws (list byte) := {|
  contents w := w;
|}.
Next Obligation. done. Qed.
Next Obligation. done. Qed.
Next Obligation. intros. apply push_varint_encode, (in_u_weaken 32); [lia|]. apply wrapu_range. lia. Qed.
Next Obligation. intros. by apply push_varint_encode. Qed.

(** The branch-free encoder of the byte-vector sinks appends, for every
    64-bit value, exactly the bytes of the reference loop [encode_varint], and
    no value takes more than the ten bytes of its buffer. *)
Lemma push_varint_is_encode_varint out v : in_u 64 v ->
  push_varint out v = out ++ encode_varint v /\ 1 <= zlen (encode_varint v) <= 10.
Proof.
  intros Hv. split; [by apply push_varint_encode|].
  destruct (push_varint_groups v Hv) as (Hn & Hr & Hlow). set (n := div_ceil _ 7) in *.
  destruct (Z_of_nat_complete n ltac:(lia)) as [k Hk].
  unfold encode_varint. rewrite (encode_varint_loop_groups 10 k); [|lia|done|by rewrite <- Hk|].
  - assert (Hlen : forall m u, zlen (vgroups m u) = Z.of_nat m).
    { induction m as [|[|m] IH]; intros u; [done|done|].
      change (vgroups (Datatypes.S (Datatypes.S m)) u)
        with (Z.lor (Z.land u 127) 128 :: vgroups (Datatypes.S m) (Z.shiftr u 7)).
      rewrite zlen_cons, IH. lia. }
    rewrite Hlen. lia.
  - destruct Hlow as [|Hl]; [left; lia|right]. by rewrite <- Hk.
Qed.

Lemma push_varint_is_encode_varint_witness :
  in_u 64 300 /\ push_varint [7] 300 = [7] ++ encode_varint 300 /\ encode_varint 300 = [0xac; 0x02].
Proof.
  assert (H : in_u 64 300) by (split; lia).
  split; [exact H|]. split; [exact (proj1 (push_varint_is_encode_varint [7] 300 H))|].
  vm_compute. reflexivity.
Defined.
