(* ===== verification/DataInput.v ===== *)
(** The read side of the wire format ([crates/lucene-store/src/data_input.rs]):
    the [DataInput] trait as a pair of classes (the required methods, then the
    ones a backend may override), its provided methods, and the laws a backend
    owes its users.  [SliceInput.v] is the zero-copy implementation. *)
From stdpp Require Import strings.
From S2P Require Import Prelude StoreError ZigZag.

(** The methods every backend implements. *)
Class DataInputCore (R : Type) : Type := {
  read_byte : M Error R Z;
  read_bytes : Z -> M Error R (list byte);
  remaining : R -> Z;
  peek_u32_le : M Error R Z;
  skip : Z -> M Error R unit;
}.

(** [std::str::from_utf8]'s acceptance test (RFC 3629: shortest forms, no
    surrogates, nothing above U+10FFFF). *)
Definition between (lo hi b : Z) : bool := (lo <=? b) && (b <=? hi).
Definition cont (b : Z) : bool := between 0x80 0xbf b.

Fixpoint utf8_valid (l : list byte) : bool :=
  match l with
  | [] => true
  | b0 :: t0 =>
      if b0 <? 0x80 then utf8_valid t0 else
      match t0 with
      | [] => false
      | b1 :: t1 =>
          if between 0xc2 0xdf b0 then cont b1 && utf8_valid t1 else
          match t1 with
          | [] => false
          | b2 :: t2 =>
              if between 0xe0 0xef b0 then
                between (if b0 =? 0xe0 then 0xa0 else 0x80) (if b0 =? 0xed then 0x9f else 0xbf) b1
                && cont b2 && utf8_valid t2
              else
              match t2 with
              | [] => false
              | b3 :: t3 =>
                  between 0xf0 0xf4 b0
                  && between (if b0 =? 0xf0 then 0x90 else 0x80) (if b0 =? 0xf4 then 0x8f else 0xbf) b1
                  && cont b2 && cont b3 && utf8_valid t3
              end
          end
      end
  end.

(** [String::from_utf8(..).map_err(..)]. *)
Definition from_utf8 {R} (l : list byte) : M Error R (list byte) :=
  if utf8_valid l then ret l else fail (Corrupted "invalid UTF-8 string").

Section defaults.
Context {R : Type} `{DataInputCore R}.

(** [read_vint_loop] and [read_vlong_loop] after their first byte: [stop] is
    the source's bound on [shift], [width] the accumulator's.  [fuel] is the
    number of further bytes the bound lets through. *)
Fixpoint varint_loop (stop : Z -> bool) (width : Z) (fuel : nat) (b v shift : Z) : M Error R Z :=
  if Z.land b 0x80 =? 0 then ret v
  else if stop shift then fail MalformedVarint
  else match fuel with
       | O => fail MalformedVarint
       | Datatypes.S f =>
           let* b' := read_byte in
           varint_loop stop width f b' (Z.lor v (shls width (Z.land b' 0x7f) shift)) (shift + 7)
       end.

(** [while b & 0x80 != 0 { if shift > 28 { return Err } .. shift += 7 }]. *)
Definition read_vint_loop : M Error R Z :=
  let* b := read_byte in varint_loop (fun shift => 28 <? shift) 32 4 b (Z.land b 0x7f) 7.

(** The same with [shift >= 64]. *)
Definition read_vlong_loop : M Error R Z :=
  let* b := read_byte in varint_loop (fun shift => 64 <=? shift) 64 9 b (Z.land b 0x7f) 7.

(** [read_zlong_loop]: [loop { read; or in; stop at a final byte; shift += 7;
    if shift >= 70 { return Err } }], on a [u64]. *)
Fixpoint zlong_loop (fuel : nat) (v shift : Z) : M Error R Z :=
  let* b := read_byte in
  let v' := Z.lor v (shlu 64 (Z.land b 0x7f) shift) in
  if Z.land b 0x80 =? 0 then ret v'
  else let shift' := shift + 7 in
       if 70 <=? shift' then fail MalformedVarint
       else match fuel with
            | O => fail MalformedVarint
            | Datatypes.S f => zlong_loop f v' shift'
            end.

Definition read_zlong_loop : M Error R Z :=
  let* v := zlong_loop 9 0 0 in ret (ZigZag.decode v).

Definition default_read_u32_le : M Error R Z :=
  let* b := read_bytes 4 in ret (from_le b).
Definition default_read_i16 : M Error R Z :=
  let* b := read_bytes 2 in ret (wraps 16 (from_le b)).
Definition default_read_i64 : M Error R Z :=
  let* b := read_bytes 8 in ret (wraps 64 (from_le b)).
Definition default_read_i32 (read_u32_le : M Error R Z) : M Error R Z :=
  let* v := read_u32_le in ret (wraps 32 v).
Definition default_read_u32s_le (read_u32_le : M Error R Z) (n : nat) : M Error R (list Z) :=
  repeatM n read_u32_le.
Definition default_read_i64s (read_i64 : M Error R Z) (n : nat) : M Error R (list Z) :=
  repeatM n read_i64.

(** [read_length]: a vint count no larger than the bytes left. *)
Definition read_length_with (read_vint : M Error R Z) : M Error R Z :=
  let* len := read_vint in
  if len <? 0 then fail (Corrupted "negative length")
  else let* r := get_state in
       if remaining r <? len then fail (Corrupted "length exceeds remaining bytes")
       else ret len.

Definition default_read_string (read_vint : M Error R Z) : M Error R (list byte) :=
  let* len := read_length_with read_vint in
  let* buf := read_bytes len in
  from_utf8 buf.

(** [MASKS[n_minus_1]]. *)
Definition vint_mask (n_minus_1 : Z) : Z := Z.ones (8 * (n_minus_1 + 1)).

(** One value of a group on the branchless path: peek four bytes, keep the
    low ones, advance past them. *)
Definition group_value_peek (n_minus_1 : Z) : M Error R Z :=
  let* w := peek_u32_le in
  let* _ := skip (n_minus_1 + 1) in
  ret (Z.land w (vint_mask n_minus_1)).

Definition group_value_bytes (n_minus_1 : Z) : M Error R Z :=
  let* b := read_bytes (n_minus_1 + 1) in ret (from_le b).

(** The flag byte's four 2-bit lengths. *)
Definition group_lens (flag : Z) : list Z :=
  [Z.land (Z.shiftr flag 6) 3; Z.land (Z.shiftr flag 4) 3;
   Z.land (Z.shiftr flag 2) 3; Z.land flag 3].

Fixpoint mapM_ (f : Z -> M Error R Z) (l : list Z) : M Error R (list Z) :=
  match l with
  | [] => ret []
  | x :: t => let* y := f x in let* ys := mapM_ f t in ret (y :: ys)
  end.

Definition read_group : M Error R (list Z) :=
  let* flag := read_byte in
  let* r := get_state in
  if (16 <=? remaining r) && is_ok (peek_u32_le r).1
  then mapM_ group_value_peek (group_lens flag)
  else mapM_ group_value_bytes (group_lens flag).

(** [group_vints_default] for [limit] values: whole groups of four, then
    plain vints. *)
Fixpoint group_vints_default (read_vint : M Error R Z) (limit : nat) : M Error R (list Z) :=
  match limit with
  | Datatypes.S (Datatypes.S (Datatypes.S (Datatypes.S k))) =>
      let* g := read_group in
      let* rest := group_vints_default read_vint k in
      ret (g ++ rest)
  | n => repeatM n (let* v := read_vint in ret (wrapu 32 v))
  end.
End defaults.

(** The trait: the methods a backend may override are fields. *)
Class DataInput (R : Type) : Type := {
  data_input_core :: DataInputCore R;
  read_u32_le : M Error R Z;
  read_u32s_le : nat -> M Error R (list Z);
  read_vint : M Error R Z;
  read_vlong : M Error R Z;
  read_zlong : M Error R Z;
  read_group_vints : nat -> M Error R (list Z);
  read_string : M Error R (list byte);
  read_i16 : M Error R Z;
  read_i32 : M Error R Z;
  read_i64 : M Error R Z;
  read_i64s : nat -> M Error R (list Z);
}.

Section methods.
Context {R : Type} `{DataInput R}.

Definition read_zint : M Error R Z :=
  let* v := read_vint in ret (ZigZag.decode_i32 (wrapu 32 v)).

Definition read_be_u32 : M Error R Z :=
  let* b := read_bytes 4 in ret (from_be b).

Definition read_be_u64 : M Error R Z :=
  let* hi := read_be_u32 in
  let* lo := read_be_u32 in
  ret (Z.lor (Z.shiftl hi 32) lo).

Definition read_be_i32 : M Error R Z :=
  let* v := read_be_u32 in ret (wraps 32 v).

Definition read_u16 : M Error R Z :=
  let* b := read_bytes 2 in ret (from_le b).

Definition read_length : M Error R Z := read_length_with read_vint.

Definition read_map_of_strings : M Error R (list (list byte * list byte)) :=
  let* count := read_length in
  repeatM (Z.to_nat count) (let* k := read_string in let* v := read_string in ret (k, v)).

Definition read_set_of_strings : M Error R (list (list byte)) :=
  let* count := read_length in
  repeatM (Z.to_nat count) read_string.
End methods.

(** ** What a backend promises.  [view] is what is left to read.  The five core
    methods consume it; a varint, string or group override is its default,
    errors and final cursor included; a bulk override agrees with its default
    on success and fails when it fails. *)
Definition same_success {R A} (m d : M Error R A) (r : R) : Prop :=
  match d r with
  | (Ok a, r') => m r = (Ok a, r')
  | (Err _, _) => is_ok (m r).1 = false
  end.

Class DataInputLaws (R : Type) `{DataInput R} : Type := {
  view : R -> list byte;
  wf : R -> Prop;
  wf_bytes r : wf r -> bytes_ok (view r);
  law_remaining r : wf r -> remaining r = zlen (view r);
  law_read_byte_nil r : wf r -> view r = [] ->
    exists e r', read_byte r = (Err e, r') /\ wf r' /\ view r' = [];
  law_read_byte r b bs : wf r -> view r = b :: bs ->
    exists r', read_byte r = (Ok b, r') /\ wf r' /\ view r' = bs;
  law_read_bytes r xs bs : wf r -> view r = xs ++ bs ->
    exists r', read_bytes (zlen xs) r = (Ok xs, r') /\ wf r' /\ view r' = bs;
  law_read_bytes_short r n : wf r -> zlen (view r) < n ->
    exists e r', read_bytes n r = (Err e, r') /\ wf r';
  law_peek r : wf r ->
    (exists e, peek_u32_le r = (Err e, r))
    \/ (exists a b, view r = a ++ b /\ zlen a = 4 /\ peek_u32_le r = (Ok (from_le a), r));
  law_peek_again r r' n : wf r -> is_ok (peek_u32_le r).1 = true -> skip n r = (Ok tt, r') ->
    0 <= n -> 4 <= remaining r' -> is_ok (peek_u32_le r').1 = true;
  law_skip r xs bs : wf r -> view r = xs ++ bs ->
    exists r', skip (zlen xs) r = (Ok tt, r') /\ wf r' /\ view r' = bs;
  law_read_vint r : wf r -> read_vint r = read_vint_loop r;
  law_read_vlong r : wf r -> read_vlong r = read_vlong_loop r;
  law_read_zlong r : wf r -> read_zlong r = read_zlong_loop r;
  law_read_u32_le r : wf r -> read_u32_le r = default_read_u32_le r;
  law_read_i16 r : wf r -> read_i16 r = default_read_i16 r;
  law_read_i32 r : wf r -> read_i32 r = default_read_i32 read_u32_le r;
  law_read_i64 r : wf r -> read_i64 r = default_read_i64 r;
  law_read_string r : wf r -> read_string r = default_read_string read_vint r;
  law_read_group_vints r n : wf r ->
    read_group_vints n r = group_vints_default read_vint n r;
  law_read_u32s_le r n : wf r -> same_success (read_u32s_le n) (default_read_u32s_le read_u32_le n) r;
  law_read_i64s r n : wf r -> same_success (read_i64s n) (default_read_i64s read_i64 n) r;
}.
