(* ===== verification/SliceInput.v ===== *)
(** [SliceInput] ([crates/lucene-store/src/data_input.rs]): the zero-copy cursor
    over a byte slice, its fast paths, and the proof that it keeps every
    promise of [DataInputLaws]. *)
From stdpp Require Import strings.
From S2P Require Import Prelude StoreError ZigZag DataInput.

Module SliceInput.

Record t : Type := mk { buf : list byte; pos : Z }.

Definition new (b : list byte) : t := mk b 0.
Definition position (s : t) : Z := pos s.
Definition len (s : t) : Z := zlen (buf s).
Definition is_empty (s : t) : bool := len s =? 0.
Definition eof (s : t) : Error := Eof (pos s).
Definition advance (s : t) (n : Z) : t := mk (buf s) (pos s + n).

Definition seek (p : Z) : M Error t unit := fun s =>
  if len s <? p then (Err (eof s), s) else (Ok tt, mk (buf s) p).

(** [slice(from, to)]: a view of the buffer, the cursor untouched. *)
Definition slice (from to : Z) (s : t) : result Error (list byte) :=
  match zslice (buf s) from to with
  | Some b => Ok b
  | None => Err (eof s)
  end.

Definition slice_input (offset length : Z) (s : t) : result Error t :=
  match checked_add offset length with
  | None => Err (eof s)
  | Some e => match zslice (buf s) offset e with
              | Some b => Ok (mk b 0)
              | None => Err (eof s)
              end
  end.

Definition as_slice (s : t) : list byte := drop (Z.to_nat (pos s)) (buf s).

(** The next [n] bytes, or [eof] with the cursor in place. *)
Definition take_bytes (n : Z) : M Error t (list byte) := fun s =>
  match zslice (buf s) (pos s) (pos s + n) with
  | Some b => (Ok b, advance s n)
  | None => (Err (eof s), s)
  end.

Definition slice_read_byte : M Error t Z := fun s =>
  match zget (buf s) (pos s) with
  | Some b => (Ok b, advance s 1)
  | None => (Err (eof s), s)
  end.

Definition slice_read_bytes (n : Z) : M Error t (list byte) := fun s =>
  match checked_add (pos s) n with
  | None => (Err (eof s), s)
  | Some e => match zslice (buf s) (pos s) e with
              | Some b => (Ok b, mk (buf s) e)
              | None => (Err (eof s), s)
              end
  end.

Definition slice_remaining (s : t) : Z := len s - pos s.

Definition slice_peek_u32_le : M Error t Z := fun s =>
  match zslice (buf s) (pos s) (pos s + 4) with
  | Some b => (Ok (from_le b), s)
  | None => (Err (eof s), s)
  end.

Definition slice_skip (n : Z) : M Error t unit := fun s =>
  if slice_remaining s <? n then (Err (eof s), s) else (Ok tt, advance s n).

#[local] Instance slice_core : DataInputCore t := {|
  read_byte := slice_read_byte;
  read_bytes := slice_read_bytes;
  remaining := slice_remaining;
  peek_u32_le := slice_peek_u32_le;
  skip := slice_skip;
|}.

(** The loop over the window of a varint's longest encoding: [Some (v, n)] when
    one of the bytes ends the value, [n] the bytes it took. *)
Fixpoint window_loop (shl : Z -> Z -> Z) (b : list byte) (v i : Z) : option (Z * Z) :=
  match b with
  | [] => None
  | x :: rest =>
      let v' := Z.lor v (shl (Z.land x 0x7f) (7 * i)) in
      if x <? 0x80 then Some (v', i + 1) else window_loop shl rest v' (i + 1)
  end.

Definition fast_varint (shl : Z -> Z -> Z) (width : Z) (k : Z -> Z) (slow : M Error t Z) : M Error t Z :=
  fun s =>
    match zslice (buf s) (pos s) (pos s + width) with
    | Some b => match window_loop shl b 0 0 with
                | Some (v, n) => (Ok (k v), advance s n)
                | None => slow s
                end
    | None => slow s
    end.

Definition slice_read_vint : M Error t Z := fast_varint (shls 32) 5 id read_vint_loop.
Definition slice_read_vlong : M Error t Z := fast_varint (shls 64) 10 id read_vlong_loop.
Definition slice_read_zlong : M Error t Z := fast_varint (shlu 64) 10 ZigZag.decode read_zlong_loop.

Definition slice_read_u32_le : M Error t Z := let* b := take_bytes 4 in ret (from_le b).
Definition slice_read_i32 : M Error t Z := let* v := slice_read_u32_le in ret (wraps 32 v).
Definition slice_read_i16 : M Error t Z := let* b := take_bytes 2 in ret (wraps 16 (from_le b)).
Definition slice_read_i64 : M Error t Z := let* b := take_bytes 8 in ret (wraps 64 (from_le b)).

Definition slice_read_string : M Error t (list byte) :=
  let* n := read_length_with slice_read_vint in
  let* b := take_bytes n in
  from_utf8 b.

(** [src.chunks_exact(w)] mapped by [f]. *)
Fixpoint chunks_exact (w : nat) (f : list byte -> Z) (n : nat) (src : list byte) : list Z :=
  match n with
  | O => []
  | Datatypes.S k => f (take w src) :: chunks_exact w f k (drop w src)
  end.

Definition slice_read_words (w : nat) (f : list byte -> Z) (n : nat) : M Error t (list Z) := fun s =>
  match checked_add (pos s) (Z.of_nat n * Z.of_nat w) with
  | None => (Err (eof s), s)
  | Some e => match zslice (buf s) (pos s) e with
              | Some src => (Ok (chunks_exact w f n src), mk (buf s) e)
              | None => (Err (eof s), s)
              end
  end.

Definition slice_read_u32s_le : nat -> M Error t (list Z) := slice_read_words 4 from_le.
Definition slice_read_i64s : nat -> M Error t (list Z) :=
  slice_read_words 8 (fun b => wraps 64 (from_le b)).

(** A group decoded inside its 17-byte window: the values, and the offset past
    the last of them. *)
Fixpoint window_group (bytes : list byte) (flag : Z) (n : nat) (j at_ : Z) : list Z * Z :=
  match n with
  | O => ([], at_)
  | Datatypes.S m =>
      let n_minus_1 := Z.land (Z.shiftr flag (6 - 2 * j)) 3 in
      let word := from_le (take 4 (drop (Z.to_nat at_) bytes)) in
      let '(vs, e) := window_group bytes flag m (j + 1) (at_ + n_minus_1 + 1) in
      (Z.land word (vint_mask n_minus_1) :: vs, e)
  end.

Fixpoint slice_read_group_vints (n : nat) : M Error t (list Z) := fun s =>
  match n with
  | Datatypes.S (Datatypes.S (Datatypes.S (Datatypes.S k))) =>
      match zslice (buf s) (pos s) (pos s + 17) with
      | None => group_vints_default slice_read_vint n s
      | Some bytes =>
          let '(g, e) := window_group bytes (at0 bytes 0) 4 0 1 in
          (let* rest := slice_read_group_vints k in ret (g ++ rest)) (advance s e)
      end
  | _ => group_vints_default slice_read_vint n s
  end.

(** ** [read_group_vints_i32] and its tail: the same values as [i32]s.  The
    final [chunks_mut(4)] loop stages whole groups through the default decoder. *)
Fixpoint group_vints_i32_chunks (n : nat) : M Error t (list Z) :=
  match n with
  | Datatypes.S (Datatypes.S (Datatypes.S (Datatypes.S k))) =>
      let* g := group_vints_default slice_read_vint 4 in
      let* rest := group_vints_i32_chunks k in
      ret (map (wraps 32) g ++ rest)
  | _ => let* g := group_vints_default slice_read_vint n in ret (map (wraps 32) g)
  end.

(** Each value from its own bytes, zero-extended to a word. *)
Fixpoint tail_values (bytes : list byte) (at_ : Z) (lens : list Z) : list Z :=
  match lens with
  | [] => []
  | n :: rest =>
      wraps 32 (from_le (take (Z.to_nat n) (drop (Z.to_nat at_) bytes) ++ replicate (4 - Z.to_nat n) 0))
        :: tail_values bytes (at_ + n) rest
  end.

Fixpoint group_vints_i32_tail (n : nat) : M Error t (list Z) := fun s =>
  match n with
  | Datatypes.S (Datatypes.S (Datatypes.S (Datatypes.S k))) =>
      match zget (buf s) (pos s) with
      | None => group_vints_i32_chunks n s
      | Some flag =>
          let lens := map (fun l => l + 1)
            [Z.shiftr flag 6; Z.land (Z.shiftr flag 4) 3; Z.land (Z.shiftr flag 2) 3; Z.land flag 3] in
          let need := 1 + fold_right Z.add 0 lens in
          match zslice (buf s) (pos s) (pos s + need) with
          | None => group_vints_i32_chunks n s
          | Some bytes =>
              (let* rest := group_vints_i32_tail k in ret (tail_values bytes 1 lens ++ rest))
                (advance s need)
          end
      end
  | _ => group_vints_i32_chunks n s
  end.

Fixpoint slice_read_group_vints_i32 (n : nat) : M Error t (list Z) := fun s =>
  match n with
  | Datatypes.S (Datatypes.S (Datatypes.S (Datatypes.S k))) =>
      match zslice (buf s) (pos s) (pos s + 17) with
      | None => group_vints_i32_tail n s
      | Some bytes =>
          let '(g, e) := window_group bytes (at0 bytes 0) 4 0 1 in
          (let* rest := slice_read_group_vints_i32 k in ret (map (wraps 32) g ++ rest)) (advance s e)
      end
  | _ => group_vints_i32_tail n s
  end.

#[global] Instance slice_data_input : DataInput t := {|
  read_u32_le := slice_read_u32_le;
  read_u32s_le := slice_read_u32s_le;
  read_vint := slice_read_vint;
  read_vlong := slice_read_vlong;
  read_zlong := slice_read_zlong;
  read_group_vints := slice_read_group_vints;
  read_string := slice_read_string;
  read_i16 := slice_read_i16;
  read_i32 := slice_read_i32;
  read_i64 := slice_read_i64;
  read_i64s := slice_read_i64s;
|}.

(** ** The cursor's invariant ([pos <= buf.len()], in the source's words) and
    what it gives. *)
Definition inv (s : t) : Prop := 0 <= pos s <= len s /\ bytes_ok (buf s) /\ len s < 2 ^ 63.

(** The window of [xs] at the cursor. *)
Definition at_window (s : t) (xs : list byte) : Prop :=
  exists a c, buf s = a ++ xs ++ c /\ pos s = zlen a.

Lemma as_slice_split s : inv s -> exists a, buf s = a ++ as_slice s /\ pos s = zlen a.
Proof.
  intros ((H1 & H2) & _). exists (take (Z.to_nat (pos s)) (buf s)). unfold as_slice, len in *.
  rewrite take_drop. split; [done|]. unfold zlen in *. rewrite length_take. lia.
Qed.

Lemma as_slice_eq s a b : buf s = a ++ b -> pos s = zlen a -> as_slice s = b.
Proof.
  intros Hb Hp. unfold as_slice. rewrite Hp, Hb. unfold zlen. rewrite Nat2Z.id.
  by rewrite drop_app_length.
Qed.

Lemma advance_inv s xs : inv s -> at_window s xs -> inv (advance s (zlen xs)).
Proof.
  intros ((H1 & H2) & Hok & Hl) (a & c & Hb & Hp). unfold inv, advance, len in *; simpl.
  rewrite Hb in *. rewrite Hp in *. zlen_solve. repeat split; (done || lia).
Qed.

Lemma advance_advance s a b : advance (advance s a) b = advance s (a + b).
Proof. unfold advance. simpl. f_equal. lia. Qed.

Lemma advance_0 s : advance s 0 = s.
Proof. destruct s. unfold advance. simpl. f_equal. lia. Qed.

Lemma window_next s xs ys : at_window s (xs ++ ys) -> at_window (advance s (zlen xs)) ys.
Proof.
  intros (a & c & Hb & Hp). exists (a ++ xs), c. simpl. rewrite Hb, Hp, zlen_app.
  by rewrite !app_assoc.
Qed.

Lemma window_prefix s xs ys : at_window s (xs ++ ys) -> at_window s xs.
Proof. intros (a & c & Hb & Hp). exists a, (ys ++ c). by rewrite Hb, app_assoc, !app_assoc. Qed.

Lemma window_ok s xs : inv s -> at_window s xs -> bytes_ok xs.
Proof.
  intros (_ & Hok & _) (a & c & Hb & _). unfold bytes_ok in *. rewrite Hb in Hok.
  apply Forall_app in Hok as [_ Hok]. by apply Forall_app in Hok as [? _].
Qed.

Lemma window_slice s n xs : zslice (buf s) (pos s) (pos s + n) = Some xs ->
  at_window s xs /\ zlen xs = n.
Proof.
  intros (a & b & Hb & Hp & Hl)%zslice_Some. split; [|lia]. by exists a, b.
Qed.

Lemma slice_window s xs : at_window s xs -> zslice (buf s) (pos s) (pos s + zlen xs) = Some xs.
Proof. intros (a & c & -> & ->). apply zslice_mid. Qed.

Lemma read_byte_window s x xs : at_window s (x :: xs) -> read_byte s = (Ok x, advance s 1).
Proof.
  intros (a & c & Hb & Hp). simpl. unfold slice_read_byte. rewrite Hb, Hp. simpl.
  by rewrite zget_middle.
Qed.

Lemma take_bytes_window s xs : at_window s xs -> take_bytes (zlen xs) s = (Ok xs, advance s (zlen xs)).
Proof. intros Hw. unfold take_bytes. by rewrite (slice_window s xs Hw). Qed.

Lemma read_bytes_window s xs : inv s -> at_window s xs ->
  read_bytes (zlen xs) s = (Ok xs, advance s (zlen xs)).
Proof.
  intros Hi Hw. simpl. unfold slice_read_bytes, checked_add.
  assert (pos s + zlen xs <= usize_max).
  { destruct (advance_inv s xs Hi Hw) as ((? & Hp) & _ & Hl). simpl in *. unfold len, usize_max in *.
    simpl in *. lia. }
  destruct (Z.leb_spec (pos s + zlen xs) usize_max); [|lia].
  by rewrite (slice_window s xs Hw).
Qed.

(** [read_bytes] and the direct loads are the same function of the cursor. *)
Lemma read_bytes_take n s : inv s -> 0 <= n -> read_bytes n s = take_bytes n s.
Proof.
  intros ((H1 & H2) & Hok & Hl) Hn. simpl. unfold slice_read_bytes, take_bytes, checked_add.
  destruct (Z.leb_spec (pos s + n) usize_max) as [|Hbig]; [done|].
  rewrite zslice_None; [done|lia|lia|]. unfold usize_max, len in *. lia.
Qed.

Lemma peek_window s xs : at_window s xs -> zlen xs = 4 -> peek_u32_le s = (Ok (from_le xs), s).
Proof. intros Hw Hl. simpl. unfold slice_peek_u32_le. by rewrite <- Hl, (slice_window s xs Hw). Qed.

Lemma remaining_window s xs : at_window s xs -> zlen xs <= slice_remaining s.
Proof.
  intros (a & c & Hb & Hp). unfold slice_remaining, len. rewrite Hb, Hp. zlen_solve.
Qed.

Lemma skip_window s xs : at_window s xs -> skip (zlen xs) s = (Ok tt, advance s (zlen xs)).
Proof.
  intros Hw. simpl. unfold slice_skip. pose proof (remaining_window s xs Hw).
  destruct (Z.ltb_spec (slice_remaining s) (zlen xs)); [lia|done].
Qed.

(** ** The varint fast paths. *)
Lemma window_varint stop w fuel x v i s xs r n :
  bytes_ok xs -> at_window s xs -> in_u 8 x -> 128 <= x -> (length xs <= fuel)%nat ->
  (forall j, i <= j < i + zlen xs -> stop (7 * j) = false) ->
  window_loop (shls w) xs v i = Some (r, n) ->
  varint_loop stop w fuel x v (7 * i) s = (Ok r, advance s (n - i)).
Proof.
  intros Hok. revert fuel x v i s. induction Hok as [|y xs Hy _ IH];
    intros fuel x v i s Hw Hx Hx128 Hf Hstop Hl; [done|].
  cbn [window_loop] in Hl. destruct fuel as [|fuel]; [simpl in Hf; lia|].
  cbn [varint_loop].
  destruct (Z.eqb_spec (Z.land x 128) 0) as [Hz|_]; [apply land_128_0 in Hz; [lia|done]|].
  rewrite Hstop by (rewrite zlen_cons; pose proof (zlen_nonneg xs); lia).
  unfold bind. rewrite (read_byte_window s y xs Hw).
  destruct (Z.ltb_spec y 128) as [Hlt|Hge].
  - injection Hl as <- <-.
    destruct fuel; cbn [varint_loop];
      (destruct (Z.eqb_spec (Z.land y 128) 0) as [_|Hne];
       [unfold ret; do 2 f_equal; lia | destruct Hne; by apply land_128_0]).
  - replace (7 * i + 7) with (7 * (i + 1)) by lia.
    rewrite IH; [rewrite advance_advance; do 2 f_equal; lia|..|exact Hl].
    + by apply (window_next s [y]).
    + done.
    + lia.
    + simpl in Hf. lia.
    + intros j Hj. apply Hstop. rewrite zlen_cons. lia.
Qed.

Lemma window_zlong fuel v i s xs r n :
  bytes_ok xs -> at_window s xs -> (length xs <= Datatypes.S fuel)%nat -> 7 * (i + zlen xs) <= 70 ->
  window_loop (shlu 64) xs v i = Some (r, n) ->
  zlong_loop fuel v (7 * i) s = (Ok r, advance s (n - i)).
Proof.
  intros Hok. revert fuel v i s. induction Hok as [|y xs Hy _ IH];
    intros fuel v i s Hw Hf H70 Hl; [done|].
  cbn [window_loop] in Hl.
  assert (E : zlong_loop fuel v (7 * i) s =
    (if Z.land y 128 =? 0 then ret (Z.lor v (shlu 64 (Z.land y 127) (7 * i)))
     else if 70 <=? 7 * i + 7 then fail MalformedVarint
     else match fuel with
          | O => fail MalformedVarint
          | Datatypes.S f => zlong_loop f (Z.lor v (shlu 64 (Z.land y 127) (7 * i))) (7 * i + 7)
          end) (advance s 1)).
  { destruct fuel; cbn [zlong_loop]; unfold bind; by rewrite (read_byte_window s y xs Hw). }
  rewrite E. clear E. destruct (Z.ltb_spec y 128) as [Hlt|Hge].
  - injection Hl as <- <-.
    destruct (Z.eqb_spec (Z.land y 128) 0) as [_|Hne]; [|destruct Hne; by apply land_128_0].
    unfold ret. do 2 f_equal. lia.
  - destruct (Z.eqb_spec (Z.land y 128) 0) as [Hz|_]; [apply land_128_0 in Hz; [lia|done]|].
    rewrite zlen_cons in H70. destruct xs as [|z xs]; [done|]. rewrite zlen_cons in H70.
    pose proof (zlen_nonneg xs).
    destruct (Z.leb_spec 70 (7 * i + 7)); [lia|].
    destruct fuel as [|fuel]; [simpl in Hf; lia|].
    replace (7 * i + 7) with (7 * (i + 1)) by lia.
    rewrite IH; [rewrite advance_advance; do 2 f_equal; lia|..|exact Hl].
    + by apply (window_next s [y]).
    + simpl in *. lia.
    + rewrite zlen_cons. lia.
Qed.

(** The first byte of the loops, in window form. *)
Lemma fast_varint_loop w stop fuel width s :
  0 < w -> 8 <= w -> inv s -> (Z.to_nat width <= Datatypes.S fuel)%nat ->
  (forall j, 1 <= j < width -> stop (7 * j) = false) ->
  fast_varint (shls w) width id (let* b := read_byte in varint_loop stop w fuel b (Z.land b 0x7f) 7) s
  = (let* b := read_byte in varint_loop stop w fuel b (Z.land b 0x7f) 7) s.
Proof.
  intros Hw0 Hw8 Hi Hf Hstop. unfold fast_varint.
  destruct (zslice (buf s) (pos s) (pos s + width)) as [b|] eqn:Hs; [|done].
  apply window_slice in Hs as [Hwin Hlen].
  destruct (window_loop (shls w) b 0 0) as [[r n]|] eqn:Hl; [|done].
  pose proof (window_ok s b Hi Hwin) as Hok.
  destruct b as [|x xs]; [done|]. cbn [window_loop] in Hl. rewrite Z.lor_0_l in Hl.
  apply Forall_cons_1 in Hok as [Hx Hok'].
  assert (E : shls w (Z.land x 127) (7 * 0) = Z.land x 127).
  { unfold shls. change (7 * 0) with 0. rewrite Z.mod_0_l by lia. rewrite Z.shiftl_0_r.
    apply wraps_small; [done|]. rewrite land_127.
    apply (in_u_weaken 7); [lia|]. apply Z.mod_pos_bound. lia. }
  rewrite E in Hl. unfold bind. rewrite (read_byte_window s x xs Hwin). unfold id.
  rewrite zlen_cons in Hlen. destruct (Z.ltb_spec x 128).
  - injection Hl as <- <-. destruct fuel; cbn [varint_loop];
      (destruct (Z.eqb_spec (Z.land x 128) 0) as [_|Hne]; [done | destruct Hne; by apply land_128_0]).
  - change (varint_loop stop w fuel x (Z.land x 127) 7) with (varint_loop stop w fuel x (Z.land x 127) (7 * 1)).
    rewrite (window_varint stop w fuel x (Z.land x 127) 1 (advance s 1) xs r n); try done.
    + rewrite advance_advance. do 2 f_equal. lia.
    + by apply (window_next s [x]).
    + unfold zlen in Hlen. lia.
    + intros j Hj. apply Hstop. lia.
Qed.

Lemma slice_read_vint_loop s : inv s -> slice_read_vint s = read_vint_loop s.
Proof.
  intros. apply (fast_varint_loop 32); [lia|lia|done|simpl; lia|].
  intros j Hj. destruct (Z.ltb_spec 28 (7 * j)); [lia|done].
Qed.

Lemma slice_read_vlong_loop s : inv s -> slice_read_vlong s = read_vlong_loop s.
Proof.
  intros. apply (fast_varint_loop 64); [lia|lia|done|simpl; lia|].
  intros j Hj. destruct (Z.leb_spec 64 (7 * j)); [lia|done].
Qed.

Lemma slice_read_zlong_loop s : inv s -> slice_read_zlong s = read_zlong_loop s.
Proof.
  intros Hi. unfold slice_read_zlong, fast_varint.
  destruct (zslice (buf s) (pos s) (pos s + 10)) as [b|] eqn:Hs; [|done].
  apply window_slice in Hs as [Hwin Hlen].
  destruct (window_loop (shlu 64) b 0 0) as [[r n]|] eqn:Hl; [|done].
  unfold read_zlong_loop, bind. change (zlong_loop 9 0 0 s) with (zlong_loop 9 0 (7 * 0) s).
  rewrite (window_zlong 9 0 0 s b r n); try done.
  - unfold ret. do 2 f_equal. lia.
  - by apply (window_ok s).
  - unfold zlen in Hlen. lia.
  - lia.
Qed.

(** ** The group-varint fast path. *)
Lemma land_3_range x : 0 <= Z.land x 3 <= 3.
Proof.
  change 3 with (Z.ones 2) at 1 2. rewrite Z.land_ones by lia.
  pose proof (Z.mod_pos_bound x (2 ^ 2)). lia.
Qed.

Lemma window_cut (bytes : list byte) at_ n : 0 <= at_ -> 0 <= n -> at_ + n <= zlen bytes ->
  exists p q, bytes = p ++ take (Z.to_nat n) (drop (Z.to_nat at_) bytes) ++ q
    /\ zlen p = at_ /\ zlen (take (Z.to_nat n) (drop (Z.to_nat at_) bytes)) = n.
Proof.
  intros H1 H2 H3. exists (take (Z.to_nat at_) bytes), (drop (Z.to_nat n) (drop (Z.to_nat at_) bytes)).
  rewrite take_drop, take_drop. split; [done|]. unfold zlen in *.
  rewrite !length_take, length_drop. lia.
Qed.

Lemma group_value_window s bytes at_ nm :
  at_window s bytes -> 0 <= at_ -> at_ + 4 <= zlen bytes -> 0 <= nm <= 3 ->
  group_value_peek nm (advance s at_)
  = (Ok (Z.land (from_le (take 4 (drop (Z.to_nat at_) bytes))) (vint_mask nm)), advance s (at_ + nm + 1)).
Proof.
  intros Hw H0 H4 Hnm. destruct (window_cut bytes at_ 4) as (p & q & Hb & Hp & Hl); [lia..|].
  change (Z.to_nat 4) with 4%nat in *. set (w := take 4 (drop (Z.to_nat at_) bytes)) in *.
  assert (Hw' : at_window (advance s at_) w).
  { rewrite <- Hp. apply window_prefix with q. apply window_next. by rewrite <- Hb. }
  unfold group_value_peek, bind. rewrite (peek_window _ w) by done.
  assert (Hr := remaining_window _ _ Hw'). simpl. unfold slice_skip.
  destruct (Z.ltb_spec (slice_remaining (advance s at_)) (nm + 1)); [lia|].
  unfold ret. rewrite advance_advance. do 2 f_equal. lia.
Qed.

Lemma read_group_window s bytes : at_window s bytes -> zlen bytes = 17 ->
  read_group s =
    (Ok (window_group bytes (at0 bytes 0) 4 0 1).1, advance s (window_group bytes (at0 bytes 0) 4 0 1).2).
Proof.
  intros Hw Hl. destruct bytes as [|flag rest]; [done|]. rewrite zlen_cons in Hl.
  unfold read_group, bind at 1. rewrite (read_byte_window s flag rest Hw).
  unfold bind at 1, get_state.
  assert (Hw1 : at_window (advance s 1) rest) by by apply (window_next s [flag]).
  assert (Hr := remaining_window _ _ Hw1).
  destruct (window_cut rest 0 4) as (p & q & Hb & Hp & Hl4); [lia..|].
  assert (p = []) as -> by (apply zlen_0_inv; lia).
  change (Z.to_nat 4) with 4%nat in *. change (Z.to_nat 0) with 0%nat in *.
  rewrite drop_0 in *. cbn [app] in Hb.
  assert (Hpk : peek_u32_le (advance s 1) = (Ok (from_le (take 4 rest)), advance s 1)).
  { apply peek_window; [|done]. apply window_prefix with q. by rewrite <- Hb. }
  rewrite Hpk. change (remaining (advance s 1)) with (slice_remaining (advance s 1)).
  destruct (Z.leb_spec 16 (slice_remaining (advance s 1))); [|lia].
  change (at0 (flag :: rest) 0) with flag.
  set (bytes := flag :: rest) in *.
  assert (Hlen : zlen bytes = 17) by (subst bytes; rewrite zlen_cons; lia).
  cbn [andb is_ok fst]. unfold group_lens. cbn [mapM_ window_group fst snd].
  change (6 - 2 * 0) with 6. change (6 - 2 * (0 + 1)) with 4.
  change (6 - 2 * (0 + 1 + 1)) with 2. change (6 - 2 * (0 + 1 + 1 + 1)) with 0.
  rewrite Z.shiftr_0_r.
  pose proof (land_3_range (Z.shiftr flag 6)) as R1.
  pose proof (land_3_range (Z.shiftr flag 4)) as R2.
  pose proof (land_3_range (Z.shiftr flag 2)) as R3.
  pose proof (land_3_range flag) as R4.
  set (n1 := Z.land (Z.shiftr flag 6) 3) in *. set (n2 := Z.land (Z.shiftr flag 4) 3) in *.
  set (n3 := Z.land (Z.shiftr flag 2) 3) in *. set (n4 := Z.land flag 3) in *.
  unfold bind. rewrite (group_value_window s bytes 1 n1) by (done || lia).
  rewrite (group_value_window s bytes (1 + n1 + 1) n2) by (done || lia).
  rewrite (group_value_window s bytes (1 + n1 + 1 + n2 + 1) n3) by (done || lia).
  rewrite (group_value_window s bytes (1 + n1 + 1 + n2 + 1 + n3 + 1) n4) by (done || lia).
  done.
Qed.

(** [group_vints_default]'s equation by groups. *)
Lemma group_vints_default_S {R} `{DataInputCore R} (rv : M Error R Z) k :
  group_vints_default rv (4 + k) =
    (let* g := read_group in let* rest := group_vints_default rv k in ret (g ++ rest)).
Proof. done. Qed.

Lemma window_group_end bytes flag n j at_ :
  at_ + Z.of_nat n <= (window_group bytes flag n j at_).2 <= at_ + 4 * Z.of_nat n.
Proof.
  revert j at_. induction n as [|n IH]; intros j at_; cbn [window_group]; [simpl; lia|].
  specialize (IH (j + 1) (at_ + Z.land (Z.shiftr flag (6 - 2 * j)) 3 + 1)).
  pose proof (land_3_range (Z.shiftr flag (6 - 2 * j))).
  destruct (window_group _ _ _ _ _) as [vs e]. simpl in *. lia.
Qed.

Lemma advance_inv_le s bytes n : inv s -> at_window s bytes -> 0 <= n <= zlen bytes -> inv (advance s n).
Proof.
  intros Hi Hw Hn. destruct (window_cut bytes 0 n) as (p & q & Hb & Hp & Hl); [lia..|].
  assert (p = []) as -> by (apply zlen_0_inv; lia). cbn [app] in Hb. rewrite <- Hl.
  apply advance_inv; [done|]. apply window_prefix with q. by rewrite <- Hb.
Qed.

Lemma slice_group_vints_default n s : inv s ->
  slice_read_group_vints n s = group_vints_default slice_read_vint n s.
Proof.
  revert s. induction (lt_wf n) as [n _ IH]. intros s Hi.
  destruct n as [|[|[|[|k]]]]; [done..|].
  change (slice_read_group_vints (Datatypes.S (Datatypes.S (Datatypes.S (Datatypes.S k)))) s)
    with (match zslice (buf s) (pos s) (pos s + 17) with
          | None => group_vints_default slice_read_vint (4 + k) s
          | Some bytes =>
              let '(g, e) := window_group bytes (at0 bytes 0) 4 0 1 in
              (let* rest := slice_read_group_vints k in ret (g ++ rest)) (advance s e)
          end).
  destruct (zslice (buf s) (pos s) (pos s + 17)) as [bytes|] eqn:Hs; [|done].
  apply window_slice in Hs as [Hw Hl].
  change (Datatypes.S (Datatypes.S (Datatypes.S (Datatypes.S k)))) with (4 + k)%nat.
  rewrite group_vints_default_S. unfold bind at 2. rewrite (read_group_window s bytes Hw Hl).
  pose proof (window_group_end bytes (at0 bytes 0) 4 0 1) as He.
  destruct (window_group bytes (at0 bytes 0) 4 0 1) as [g e]. simpl in He. cbn [fst snd].
  unfold bind. rewrite IH; [done|lia|].
  apply (advance_inv_le s bytes); [done|done|lia].
Qed.

(** ** The [i32] group decoder. *)
Definition as_i32s {R} (m : M Error R (list Z)) : M Error R (list Z) :=
  let* vs := m in ret (map (wraps 32) vs).

(** A group followed by the rest, both mapped. *)
Lemma as_i32s_group {R} (m k : M Error R (list Z)) s :
  (let* g := m in let* rest := as_i32s k in ret (map (wraps 32) g ++ rest)) s
  = as_i32s (let* g := m in let* rest := k in ret (g ++ rest)) s.
Proof.
  unfold as_i32s, bind, ret. destruct (m s) as [[g|e] s1]; [|done].
  destruct (k s1) as [[vs|e] s2]; [|done]. by rewrite map_app.
Qed.

Lemma group_of_4 (rv : M Error t Z) s : group_vints_default rv 4 s = read_group s.
Proof.
  change (group_vints_default rv 4 s) with ((let* g := read_group in let* rest := ret [] in ret (g ++ rest)) s).
  unfold bind, ret. destruct (read_group s) as [[g|e] s1]; [|done]. by rewrite app_nil_r.
Qed.

Lemma i32_chunks_default n s :
  group_vints_i32_chunks n s = as_i32s (group_vints_default slice_read_vint n) s.
Proof.
  revert s. induction (lt_wf n) as [n _ IH]. intros s.
  destruct n as [|[|[|[|k]]]]; [done..|].
  change (Datatypes.S (Datatypes.S (Datatypes.S (Datatypes.S k)))) with (4 + k)%nat.
  change (group_vints_i32_chunks (4 + k) s) with
    ((let* g := group_vints_default slice_read_vint 4 in
      let* rest := group_vints_i32_chunks k in ret (map (wraps 32) g ++ rest)) s).
  rewrite group_vints_default_S, <- as_i32s_group. unfold bind. rewrite group_of_4.
  destruct (read_group s) as [[g|e] s1]; [|done]. by rewrite IH by lia.
Qed.

Lemma from_le_zeros l n : from_le (l ++ replicate n 0) = from_le l.
Proof.
  rewrite from_le_app. assert (from_le (replicate n 0) = 0) as ->.
  { induction n as [|n IH]; simpl; [done|]. by rewrite IH. }
  by rewrite Z.shiftl_0_l, Z.lor_0_r.
Qed.

(** Near the end of the buffer the group reader takes its byte-wise path, and
    the values are the ones the tail decodes in place. *)
Lemma group_values_bytes bytes at_ lens s : inv s -> at_window s bytes -> 0 <= at_ ->
  Forall (fun l => 0 <= l <= 3) lens ->
  at_ + fold_right Z.add 0 (map (fun l => l + 1) lens) <= zlen bytes ->
  as_i32s (mapM_ group_value_bytes lens) (advance s at_)
  = (Ok (tail_values bytes at_ (map (fun l => l + 1) lens)),
     advance s (at_ + fold_right Z.add 0 (map (fun l => l + 1) lens))).
Proof.
  intros Hi Hw. revert at_. induction lens as [|l lens IH]; intros at_ Hat Hl Hsum.
  { simpl. unfold as_i32s, bind, ret. do 2 f_equal. lia. }
  apply Forall_cons_1 in Hl as [Hl0 Hl].
  cbn [map fold_right mapM_ tail_values] in *.
  assert (Hnn : 0 <= fold_right Z.add 0 (map (fun l => l + 1) lens)).
  { clear -Hl. induction Hl; simpl; lia. }
  destruct (window_cut bytes at_ (l + 1)) as (p & q & Hb & Hp & Hlen); [lia..|].
  set (w := take (Z.to_nat (l + 1)) (drop (Z.to_nat at_) bytes)) in *.
  assert (Hw' : at_window (advance s at_) w).
  { rewrite <- Hp. apply window_prefix with q. apply window_next. by rewrite <- Hb. }
  assert (Hi' : inv (advance s at_)) by (apply (advance_inv_le s bytes); [done|done|lia]).
  assert (Hv : group_value_bytes l (advance s at_) = (Ok (from_le w), advance s (at_ + (l + 1)))).
  { unfold group_value_bytes, bind. rewrite <- Hlen, (read_bytes_window _ w) by done.
    unfold ret. by rewrite advance_advance. }
  specialize (IH (at_ + (l + 1)) ltac:(lia) Hl ltac:(lia)).
  unfold as_i32s, bind, ret in *. rewrite Hv.
  destruct (mapM_ group_value_bytes lens (advance s (at_ + (l + 1)))) as [[vs|e] s2]; [|done].
  injection IH as Hvs Hs2. rewrite <- Hvs, Hs2. cbn [map]. rewrite from_le_zeros.
  do 2 f_equal. lia.
Qed.

Lemma shiftr6_land flag : in_u 8 flag -> Z.shiftr flag 6 = Z.land (Z.shiftr flag 6) 3.
Proof. intros. change 3 with (Z.ones 2). bits_solve. Qed.

Lemma i32_tail_group s flag bytes :
  inv s -> slice_remaining s < 17 -> zget (buf s) (pos s) = Some flag ->
  let need := 1 + fold_right Z.add 0 (map (fun l => l + 1) (group_lens flag)) in
  zslice (buf s) (pos s) (pos s + need) = Some bytes ->
  as_i32s read_group s
  = (Ok (tail_values bytes 1 (map (fun l => l + 1) (group_lens flag))), advance s need).
Proof.
  intros Hi Hr Hf need Hs. apply window_slice in Hs as [Hw Hl].
  assert (Hnn : Forall (fun l => 0 <= l <= 3) (group_lens flag)).
  { repeat constructor; apply land_3_range. }
  assert (Hb : read_byte s = (Ok flag, advance s 1)) by (simpl; unfold slice_read_byte; by rewrite Hf).
  assert (E : as_i32s read_group s = as_i32s (mapM_ group_value_bytes (group_lens flag)) (advance s 1)).
  { unfold as_i32s, read_group, bind at 1 2. rewrite Hb. unfold bind at 1, get_state.
    change (remaining (advance s 1)) with (slice_remaining (advance s 1)).
    destruct (Z.leb_spec 16 (slice_remaining (advance s 1))) as [Hc|_]; [|done].
    unfold slice_remaining, advance, len in *. simpl in *. lia. }
  rewrite E. apply (group_values_bytes bytes 1 _ s); [done|done|lia|done|]. lia.
Qed.

Lemma i32_tail_default n s : inv s -> slice_remaining s < 17 ->
  group_vints_i32_tail n s = as_i32s (group_vints_default slice_read_vint n) s.
Proof.
  revert s. induction (lt_wf n) as [n _ IH]. intros s Hi Hr.
  destruct n as [|[|[|[|k]]]]; [apply (i32_chunks_default _ s)..|].
  rewrite <- i32_chunks_default. cbn [group_vints_i32_tail].
  destruct (zget (buf s) (pos s)) as [flag|] eqn:Hf; [|done].
  rewrite (shiftr6_land flag).
  2: { apply zget_Some in Hf as [_ Hf]. destruct Hi as (_ & Hok & _).
       by apply (Forall_lookup_1 _ _ _ _ Hok Hf). }
  fold (group_lens flag). set (need := 1 + _).
  destruct (zslice (buf s) (pos s) (pos s + need)) as [bytes|] eqn:Hs; [|done].
  rewrite i32_chunks_default.
  change (Datatypes.S (Datatypes.S (Datatypes.S (Datatypes.S k)))) with (4 + k)%nat.
  rewrite group_vints_default_S, <- as_i32s_group.
  pose proof (i32_tail_group s flag bytes Hi Hr Hf Hs) as Hg. fold need in Hg.
  apply window_slice in Hs as [Hw Hl].
  assert (0 <= need) by (rewrite <- Hl; apply zlen_nonneg).
  assert (Hi' : inv (advance s need)) by (rewrite <- Hl; by apply advance_inv).
  set (vs := tail_values bytes 1 (map (fun l => l + 1) (group_lens flag))) in *.
  unfold as_i32s in Hg at 1. unfold bind, ret in Hg. unfold bind.
  destruct (read_group s) as [[g|e] s1]; [|done]. injection Hg as Hg ->.
  rewrite IH; [|lia|done|].
  - by rewrite <- Hg.
  - unfold slice_remaining, advance, len in *. simpl. lia.
Qed.

Lemma i32_group_default n s : inv s ->
  slice_read_group_vints_i32 n s = as_i32s (group_vints_default slice_read_vint n) s.
Proof.
  revert s. induction (lt_wf n) as [n _ IH]. intros s Hi.
  destruct n as [|[|[|[|k]]]]; [apply (i32_chunks_default _ s)..|].
  cbn [slice_read_group_vints_i32].
  destruct (zslice (buf s) (pos s) (pos s + 17)) as [bytes|] eqn:Hs.
  - apply window_slice in Hs as [Hw Hl].
    change (Datatypes.S (Datatypes.S (Datatypes.S (Datatypes.S k)))) with (4 + k)%nat.
    rewrite group_vints_default_S, <- as_i32s_group.
    unfold bind at 2. rewrite (read_group_window s bytes Hw Hl).
    pose proof (window_group_end bytes (at0 bytes 0) 4 0 1) as He.
    destruct (window_group bytes (at0 bytes 0) 4 0 1) as [g e]. cbn [fst snd] in *.
    unfold bind. rewrite IH; [done|lia|]. apply (advance_inv_le s bytes); [done|done|lia].
  - apply i32_tail_default; [done|]. destruct (Z.ltb_spec (slice_remaining s) 17); [done|].
    exfalso. destruct Hi as ((? & ?) & _). unfold slice_remaining, len in *.
    destruct (zslice_total (buf s) (pos s) (pos s + 17)) as (b & Hb & _); [lia..|]. by rewrite Hs in Hb.
Qed.

(** ** The bulk reads. *)
Lemma repeat_words w f n s : (0 < w)%nat -> inv s ->
  match zslice (buf s) (pos s) (pos s + Z.of_nat n * Z.of_nat w) with
  | Some src =>
      repeatM n (let* b := take_bytes (Z.of_nat w) in ret (f b)) s
      = (Ok (chunks_exact w f n src), advance s (Z.of_nat n * Z.of_nat w))
  | None => is_ok (repeatM n (let* b := take_bytes (Z.of_nat w) in ret (f b)) s).1 = false
  end.
Proof.
  intros Hw. revert s. induction n as [|n IH]; intros s Hi.
  - destruct Hi as (Hp & _). unfold len in Hp.
    destruct (zslice_total (buf s) (pos s) (pos s + Z.of_nat 0 * Z.of_nat w)) as (src & -> & Hl); [lia..|].
    simpl. unfold ret. by rewrite advance_0.
  - destruct (zslice (buf s) (pos s) (pos s + Z.of_nat (Datatypes.S n) * Z.of_nat w)) as [src|] eqn:Hs.
    + apply window_slice in Hs as [Hwin Hl].
      assert (Hsplit : src = take w src ++ drop w src) by by rewrite take_drop.
      assert (Hlw : zlen (take w src) = Z.of_nat w).
      { unfold zlen in *. rewrite length_take. nia. }
      rewrite repeatM_S. rewrite Hsplit in Hwin.
      erewrite bind_Ok; [|erewrite bind_Ok; [reflexivity|]; rewrite <- Hlw;
        apply take_bytes_window; by eapply window_prefix].
      assert (Hwin' := window_next _ _ _ Hwin).
      specialize (IH (advance s (zlen (take w src)))).
      assert (Hsl : zslice (buf (advance s (zlen (take w src)))) (pos (advance s (zlen (take w src))))
        (pos (advance s (zlen (take w src))) + Z.of_nat n * Z.of_nat w) = Some (drop w src)).
      { replace (Z.of_nat n * Z.of_nat w) with (zlen (drop w src)); [by apply slice_window|].
        unfold zlen in *. rewrite length_drop. nia. }
      rewrite Hsl in IH. erewrite bind_Ok; [|apply IH; apply advance_inv;
        [done|by eapply window_prefix]].
      unfold ret. rewrite advance_advance. cbn [chunks_exact]. do 2 f_equal. lia.
    + rewrite repeatM_S.
      destruct (zslice (buf s) (pos s) (pos s + Z.of_nat w)) as [b|] eqn:Hb.
      2: { erewrite bind_Err; [done|]. apply bind_Err. unfold take_bytes. by rewrite Hb. }
      assert (Htb : take_bytes (Z.of_nat w) s = (Ok b, advance s (Z.of_nat w)))
        by (unfold take_bytes; by rewrite Hb).
      erewrite bind_Ok; [|by erewrite bind_Ok].
      apply window_slice in Hb as [Hwin Hl].
      specialize (IH (advance s (Z.of_nat w))).
      assert (inv (advance s (Z.of_nat w))) as Hi' by (rewrite <- Hl; by apply advance_inv).
      assert (Hsl : zslice (buf (advance s (Z.of_nat w))) (pos (advance s (Z.of_nat w)))
        (pos (advance s (Z.of_nat w)) + Z.of_nat n * Z.of_nat w) = None).
      { simpl. rewrite <- Hs. unfold zslice. destruct Hi as ((? & ?) & _).
        replace (pos s + Z.of_nat w + Z.of_nat n * Z.of_nat w)
          with (pos s + Z.of_nat (Datatypes.S n) * Z.of_nat w) by lia.
        destruct (Z.leb_spec (pos s + Z.of_nat (Datatypes.S n) * Z.of_nat w) (zlen (buf s))) as [Hle|].
        - exfalso. destruct (zslice_total (buf s) (pos s) (pos s + Z.of_nat (Datatypes.S n) * Z.of_nat w))
            as (src & Hc & _); [lia|nia|done|]. by rewrite Hs in Hc.
        - by rewrite !andb_false_r. }
      rewrite Hsl in IH. specialize (IH Hi'). unfold bind at 1.
      destruct (repeatM n _ (advance s (Z.of_nat w))) as [[?|?] ?]; done.
Qed.

Lemma slice_words_success w f n s : (0 < w)%nat -> inv s ->
  same_success (slice_read_words w f n) (repeatM n (let* b := take_bytes (Z.of_nat w) in ret (f b))) s.
Proof.
  intros Hw Hi. pose proof (repeat_words w f n s Hw Hi) as Hr. unfold same_success, slice_read_words, checked_add.
  destruct (Z.leb_spec (pos s + Z.of_nat n * Z.of_nat w) usize_max) as [Hle|Hbig].
  - destruct (zslice (buf s) (pos s) (pos s + Z.of_nat n * Z.of_nat w)) as [src|].
    + rewrite Hr. done.
    + by destruct (repeatM _ _ s) as [[?|?] ?].
  - destruct Hi as ((H1 & H2) & _ & H3). unfold len in *. rewrite zslice_None in Hr;
      [|done|nia|unfold usize_max in *; lia].
    by destruct (repeatM _ _ s) as [[?|?] ?].
Qed.

(** ** Every read keeps the invariant. *)
Lemma read_byte_preserves : preserves inv slice_read_byte.
Proof.
  intros s Hi. unfold slice_read_byte. destruct (zget (buf s) (pos s)) as [b|] eqn:E; [|done].
  apply zget_Some in E as [Hp Hg%lookup_lt_Some]. destruct Hi as (_ & Hok & Hl).
  unfold inv, len, zlen in *. simpl. split; [|done]. lia.
Qed.

Lemma varint_loop_preserves stop w fuel b v shift : preserves inv (varint_loop (R:=t) stop w fuel b v shift).
Proof.
  revert b v shift. induction fuel as [|fuel IH]; intros b v shift; cbn [varint_loop];
    repeat apply preserves_if; auto with lucene.
  apply preserves_bind; [apply read_byte_preserves|]. intros. apply IH.
Qed.

Lemma read_vint_preserves : preserves inv slice_read_vint.
Proof.
  intros s Hi. rewrite slice_read_vint_loop by done. revert s Hi. fold (preserves inv (read_vint_loop (R:=t))).
  apply preserves_bind; [apply read_byte_preserves|]. intros. apply varint_loop_preserves.
Qed.

Lemma read_length_preserves : preserves inv (read_length_with slice_read_vint).
Proof.
  apply preserves_bind; [apply read_vint_preserves|]. intros n.
  apply preserves_if; [apply preserves_fail|]. apply preserves_bind; [apply preserves_get|].
  intros r. apply preserves_if; auto with lucene.
Qed.

Lemma read_length_nonneg {R} `{DataInputCore R} (rv : M Error R Z) r n r' :
  read_length_with rv r = (Ok n, r') -> 0 <= n <= remaining r'.
Proof.
  intros (len & s1 & Hv & Hk)%bind_Ok_inv. destruct (Z.ltb_spec len 0); [done|].
  unfold bind, get_state in Hk. destruct (Z.ltb_spec (remaining s1) len); [done|].
  injection Hk as <- <-. lia.
Qed.

(** ** Agreement of the composed reads with the loops. *)
Lemma skip_preserves n : 0 <= n -> preserves inv (slice_skip n).
Proof.
  intros Hn s ((? & ?) & Hok & Hl). unfold slice_skip.
  destruct (Z.ltb_spec (slice_remaining s) n) as [|Hr]; [done|].
  unfold inv, advance, slice_remaining, len in *. simpl. split; [lia|done].
Qed.

Lemma read_bytes_preserves n : 0 <= n -> preserves inv (slice_read_bytes n).
Proof.
  intros Hn s Hi. change (slice_read_bytes n) with (@read_bytes t _ n).
  rewrite read_bytes_take by done. unfold take_bytes.
  destruct (zslice _ _ _) as [b|] eqn:Hs; [|done]. apply window_slice in Hs as [Hw <-].
  by apply advance_inv.
Qed.

Lemma peek_preserves : preserves inv slice_peek_u32_le.
Proof. intros s Hi. unfold slice_peek_u32_le. by destruct (zslice _ _ _). Qed.

Lemma mapM_preserves f l : Forall (fun x => preserves inv (f x)) l -> preserves inv (mapM_ (R:=t) f l).
Proof.
  induction 1 as [|x l Hx _ IH]; cbn [mapM_]; [apply preserves_ret|].
  apply preserves_bind; [done|]. intros y. apply preserves_bind; [done|]. intros; apply preserves_ret.
Qed.

Lemma read_group_preserves : preserves inv (read_group (R:=t)).
Proof.
  apply preserves_bind; [apply read_byte_preserves|]. intros flag.
  apply preserves_bind; [apply preserves_get|]. intros r.
  assert (Hl : Forall (fun l => 0 <= l <= 3) (group_lens flag)) by (repeat constructor; apply land_3_range).
  apply preserves_if; apply mapM_preserves; (eapply Forall_impl; [|exact Hl]); intros l Hr; cbn beta in *.
  - apply preserves_bind; [apply peek_preserves|]. intros w.
    apply preserves_bind; [apply skip_preserves; lia|]. intros; apply preserves_ret.
  - apply preserves_bind; [apply read_bytes_preserves; lia|]. intros; apply preserves_ret.
Qed.

Lemma group_tail_ext n s : (n < 4)%nat -> inv s ->
  group_vints_default slice_read_vint n s = group_vints_default read_vint_loop n s.
Proof.
  intros Hn Hi.
  assert (Hr : forall m, repeatM m (let* v := slice_read_vint in ret (wrapu 32 v)) s
                       = repeatM m (let* v := read_vint_loop in ret (wrapu 32 v)) s).
  { intros m. apply (repeatM_ext inv); [|intros s' Hi'|done].
    - apply preserves_bind; [apply read_vint_preserves|]. intros; apply preserves_ret.
    - unfold bind. by rewrite slice_read_vint_loop. }
  destruct n as [|[|[|[|k]]]]; [apply (Hr 0%nat)|apply (Hr 1%nat)|apply (Hr 2%nat)|apply (Hr 3%nat)|lia]; done.
Qed.

Lemma slice_string_default s : inv s -> slice_read_string s = default_read_string read_vint_loop s.
Proof.
  intros Hi. unfold slice_read_string, default_read_string.
  assert (E : read_length_with slice_read_vint s = read_length_with read_vint_loop s).
  { unfold read_length_with, bind. by rewrite slice_read_vint_loop. }
  unfold bind at 1 3. rewrite <- E.
  destruct (read_length_with slice_read_vint s) as [[n|e] s'] eqn:El; [|done].
  unfold bind. rewrite read_bytes_take; [done|..].
  - pose proof (read_length_preserves s Hi) as Hp. by rewrite El in Hp.
  - apply read_length_nonneg in El. lia.
Qed.

(** ** [SliceInput] keeps the trait's promises. *)
Lemma view_window s xs bs : inv s -> as_slice s = xs ++ bs -> at_window s xs.
Proof.
  intros Hi Hv. destruct (as_slice_split s Hi) as (a & Hb & Hp). exists a, bs. by rewrite Hb, Hv.
Qed.

Lemma view_advance s xs bs : inv s -> as_slice s = xs ++ bs ->
  inv (advance s (zlen xs)) /\ as_slice (advance s (zlen xs)) = bs.
Proof.
  intros Hi Hv. split; [by apply advance_inv; [|eapply view_window]|].
  destruct (as_slice_split s Hi) as (a & Hb & Hp). apply (as_slice_eq _ (a ++ xs)); simpl.
  - by rewrite Hb, Hv, app_assoc.
  - rewrite Hp, zlen_app. done.
Qed.

Lemma slice_remaining_view s : inv s -> slice_remaining s = zlen (as_slice s).
Proof.
  intros Hi. destruct (as_slice_split s Hi) as (a & Hb & Hp). unfold slice_remaining, len.
  rewrite Hb, Hp, zlen_app. lia.
Qed.

Lemma short_slice s n : inv s -> 0 <= n -> zlen (as_slice s) < n -> zslice (buf s) (pos s) (pos s + n) = None.
Proof.
  intros Hi Hn Hs. rewrite <- slice_remaining_view in Hs by done. unfold slice_remaining, len in Hs.
  destruct Hi as ((?&?)&_). apply zslice_None; lia.
Qed.

#[global] Program Instance slice_laws : DataInputLaws t := {| view := as_slice; wf := inv |}.
Next Obligation.
  intros s Hi. destruct (as_slice_split s Hi) as (a & Hb & _). destruct Hi as (_ & Hok & _).
  rewrite Hb in Hok. by apply Forall_app in Hok as [_ ?].
Qed.
Next Obligation. intros. by apply slice_remaining_view. Qed.
Next Obligation.
  intros s Hi Hv. exists (eof s), s. split; [|done]. simpl. unfold slice_read_byte.
  pose proof (slice_remaining_view s Hi) as Hr. rewrite Hv in Hr. unfold slice_remaining, len in Hr.
  destruct Hi as ((?&?)&_). rewrite (proj2 (zget_None (buf s) (pos s) ltac:(lia))); [done|].
  change (zlen []) with 0 in Hr. lia.
Qed.
Next Obligation.
  intros s b bs Hi Hv. exists (advance s 1). split.
  - apply read_byte_window with []. by apply (view_window s [b] bs).
  - by apply (view_advance s [b] bs).
Qed.
Next Obligation.
  intros s xs bs Hi Hv. exists (advance s (zlen xs)).
  split; [apply read_bytes_window; [done|by eapply view_window]|by apply view_advance].
Qed.
Next Obligation.
  intros s n Hi Hn. exists (eof s), s. split; [|done]. pose proof (zlen_nonneg (as_slice s)).
  rewrite read_bytes_take by (done || lia). unfold take_bytes. rewrite short_slice by (done || lia). done.
Qed.
Next Obligation.
  intros s Hi. simpl. unfold slice_peek_u32_le.
  destruct (zslice (buf s) (pos s) (pos s + 4)) as [xs|] eqn:Hs; [right|left; eauto].
  apply window_slice in Hs as [(a & c & Hb & Hp) Hl]. exists xs, c.
  split; [by apply (as_slice_eq _ a)|done].
Qed.
Next Obligation.
  intros s s' n ((? & ?) & _) _ Hsk Hn Hr. simpl in *. unfold slice_skip in Hsk.
  destruct (slice_remaining s <? n); [done|]. injection Hsk as <-. unfold slice_remaining, len in Hr.
  unfold slice_peek_u32_le, advance in *. simpl in *.
  destruct (zslice_total (buf s) (pos s + n) (pos s + n + 4)) as (b & -> & _); [lia..|]. done.
Qed.
Next Obligation.
  intros s xs bs Hi Hv. exists (advance s (zlen xs)).
  split; [apply skip_window; by eapply view_window|by apply view_advance].
Qed.
Next Obligation. intros. by apply slice_read_vint_loop. Qed.
Next Obligation. intros. by apply slice_read_vlong_loop. Qed.
Next Obligation. intros. by apply slice_read_zlong_loop. Qed.
Next Obligation.
  intros s Hi. unfold default_read_u32_le, bind. rewrite read_bytes_take by (done || lia). done.
Qed.
Next Obligation.
  intros s Hi. unfold default_read_i16, bind. rewrite read_bytes_take by (done || lia). done.
Qed.
Next Obligation. done. Qed.
Next Obligation.
  intros s Hi. unfold default_read_i64, bind. rewrite read_bytes_take by (done || lia). done.
Qed.
Next Obligation.
  intros s Hi. cbn [read_string read_vint slice_data_input].
  unfold slice_read_string, default_read_string, bind at 1 3.
  destruct (read_length_with slice_read_vint s) as [[n|e] s'] eqn:E; [|done].
  unfold bind. rewrite read_bytes_take; [done|..].
  - pose proof (read_length_preserves s Hi) as Hp. by rewrite E in Hp.
  - apply read_length_nonneg in E. lia.
Qed.
Next Obligation. intros. by apply slice_group_vints_default. Qed.
Next Obligation. intros s n Hi. apply (slice_words_success 4 from_le); [lia|done]. Qed.
Next Obligation. intros s n Hi. apply (slice_words_success 8 (fun b => wraps 64 (from_le b))); [lia|done]. Qed.

(** C40: every fast path of the zero-copy cursor is the trait's default: on
    any state the cursor can be in, the windowed varint, zigzag, string and
    group decoders return the same value or the same error and leave the same
    cursor as the byte-at-a-time loops, and the [i32] group decoder returns
    the default group decoder's values truncated to 32 bits. *)
Theorem slice_fast_paths_are_defaults (s : t) (n : nat) : inv s ->
  slice_read_vint s = read_vint_loop s
  /\ slice_read_vlong s = read_vlong_loop s
  /\ slice_read_zlong s = read_zlong_loop s
  /\ slice_read_string s = default_read_string read_vint_loop s
  /\ slice_read_group_vints n s = group_vints_default read_vint_loop n s
  /\ slice_read_group_vints_i32 n s = as_i32s (group_vints_default read_vint_loop n) s.
Proof.
  intros Hi.
  assert (Hg : forall m s', inv s' ->
    group_vints_default slice_read_vint m s' = group_vints_default read_vint_loop m s').
  { intros m. induction (lt_wf m) as [m _ IH]. intros s' Hi'.
    destruct m as [|[|[|[|k]]]]; [apply group_tail_ext; [lia|done]..|].
    change (Datatypes.S (Datatypes.S (Datatypes.S (Datatypes.S k)))) with (4 + k)%nat.
    rewrite !group_vints_default_S. apply bind_ext. intros g s1 Hgr.
    unfold bind. rewrite IH; [done|lia|]. pose proof (read_group_preserves s' Hi') as Hp.
    by rewrite Hgr in Hp. }
  split; [by apply slice_read_vint_loop|]. split; [by apply slice_read_vlong_loop|].
  split; [by apply slice_read_zlong_loop|]. split; [by apply slice_string_default|].
  rewrite slice_group_vints_default, i32_group_default, Hg by done. split; [done|].
  unfold as_i32s, bind. by rewrite Hg.
Qed.

Lemma slice_fast_paths_are_defaults_witness :
  let s := new (replicate 6 0x80 ++ [1; 0xe4; 1; 2; 3; 4; 5; 6; 7; 8; 9; 1; 1; 1; 1; 1; 1; 1; 1]) in
  inv s /\ slice_read_vint s = read_vint_loop s.
Proof.
  intros s. assert (H : inv s).
  { split; [by vm_compute|]. split; [by apply bytes_okb_ok|by vm_compute]. }
  split; [exact H|]. exact (proj1 (slice_fast_paths_are_defaults s 4 H)).
Defined.

End SliceInput.
