(* ===== verification/Wire.v ===== *)
(** The wire format end to end: a calculus of "this reader consumes these bytes
    and returns this value", valid for every lawful source, and the round trips
    of every primitive between any lawful sink and any lawful source. *)
From stdpp Require Import strings.
From S2P Require Import Prelude StoreError ZigZag DataOutput DataInput SliceInput.

(** ** The calculus. *)
Section reads.
Context {R : Type} `{DataInputLaws R}.

(** [reads m xs a]: wherever the bytes left begin with [xs], [m] consumes
    exactly [xs] and returns [a]. *)
Definition reads {E A} (m : M E R A) (xs : list byte) (a : A) : Prop :=
  forall r bs, wf r -> view r = xs ++ bs ->
    exists r', m r = (Ok a, r') /\ wf r' /\ view r' = bs.

Lemma reads_ret {E A} (a : A) : reads (@ret E R A a) [] a.
Proof. intros r bs Hw Hv. by exists r. Qed.

Lemma reads_bind {E A B} (m : M E R A) (k : A -> M E R B) xs ys a b :
  reads m xs a -> reads (k a) ys b -> reads (bind m k) (xs ++ ys) b.
Proof.
  intros Hm Hk r bs Hw Hv. rewrite <- app_assoc in Hv.
  destruct (Hm r _ Hw Hv) as (r1 & E1 & Hw1 & Hv1).
  destruct (Hk r1 _ Hw1 Hv1) as (r2 & E2 & Hw2 & Hv2).
  exists r2. by rewrite (bind_Ok _ _ _ _ _ E1).
Qed.

Lemma reads_bind_last {E A B} (m : M E R A) (k : A -> M E R B) xs a b :
  reads m xs a -> reads (k a) [] b -> reads (bind m k) xs b.
Proof. intros Hm Hk. rewrite <- (app_nil_r xs). by eapply reads_bind. Qed.

Lemma reads_map {E A B} (m : M E R A) (f : A -> B) xs a b :
  reads m xs a -> f a = b -> reads (let* x := m in ret (f x)) xs b.
Proof.
  intros Hm <-. by eapply reads_bind_last; [|apply reads_ret].
Qed.

Lemma reads_ext {E A} (m m' : M E R A) xs a :
  (forall r, wf r -> m r = m' r) -> reads m' xs a -> reads m xs a.
Proof. intros He Hm r bs Hw Hv. rewrite He by done. by apply Hm. Qed.

Lemma reads_byte b : reads read_byte [b] b.
Proof. intros r bs Hw Hv. by apply law_read_byte. Qed.

Lemma reads_bytes n xs : n = zlen xs -> reads (read_bytes n) xs xs.
Proof. intros -> r bs Hw Hv. by apply law_read_bytes. Qed.

(** Reading the state first. *)
Lemma reads_get {E A} (k : R -> M E R A) xs a :
  (forall r0, zlen xs <= remaining r0 -> reads (k r0) xs a) ->
  reads (let* r := get_state in k r) xs a.
Proof.
  intros Hk r bs Hw Hv. unfold bind, get_state. apply (Hk r); [|done|done].
  rewrite law_remaining, Hv, zlen_app by done. pose proof (zlen_nonneg bs). lia.
Qed.

Lemma reads_repeat {E A} (m : M E R A) (enc : A -> list byte) (l : list A) :
  Forall (fun a => reads m (enc a) a) l ->
  reads (repeatM (length l) m) (concat (map enc l)) l.
Proof.
  induction 1 as [|a l Ha _ IH]; cbn [repeatM length map concat]; [apply reads_ret|].
  apply (reads_bind _ _ _ _ a); [done|]. by eapply reads_map.
Qed.

(** ** Varints. *)
Lemma vgroups_head n v : exists b rest,
  vgroups (Datatypes.S n) v = b :: rest
  /\ (in_u (7 * Z.of_nat (Datatypes.S n)) v -> Z.land b 127 = Z.land v 127)
  /\ (n = O -> b = v /\ rest = [])
  /\ (forall m, n = Datatypes.S m -> rest = vgroups (Datatypes.S m) (Z.shiftr v 7) /\ Z.land b 128 = 128).
Proof.
  destruct n as [|n].
  - exists v, []. split; [done|]. split; [done|]. split; [done|]. intros; lia.
  - exists (Z.lor (Z.land v 127) 128), (vgroups (Datatypes.S n) (Z.shiftr v 7)).
    split; [done|]. split; [|split; [done|]].
    + intros _. change 127 with (Z.ones 7). change 128 with (2 ^ 7). bits_solve.
    + intros m [= <-]. split; [done|]. change 127 with (Z.ones 7). change 128 with (2 ^ 7). bits_solve.
Qed.

Lemma land_128_small u : in_u 7 u -> Z.land u 128 =? 0 = true.
Proof. intros Hu. apply Z.eqb_eq. change 128 with (2 ^ 7). bits_solve. Qed.

Lemma shls_small w x n : 0 <= n < w -> shls w x n = wraps w (Z.shiftl x n).
Proof. intros. unfold shls. by rewrite Z.mod_small. Qed.

Lemma varint_loop_reads stop w n fuel u acc k b rest :
  0 < w -> 0 <= k -> (n <= fuel)%nat -> in_u (7 * Z.of_nat (Datatypes.S n)) u ->
  (forall j, k <= j < k + Z.of_nat n -> stop (7 * j) = false /\ 7 * j < w) ->
  vgroups (Datatypes.S n) u = b :: rest ->
  reads (varint_loop stop w fuel b acc (7 * k)) rest
        (Z.lor acc (wraps w (Z.shiftl (Z.shiftr u 7) (7 * k)))).
Proof.
  intros Hw. revert fuel u acc k b rest.
  induction n as [|n IH]; intros fuel u acc k b rest Hk Hf Hu Hstop Hb.
  - cbn [vgroups] in Hb. injection Hb as <- <-. assert (Z.shiftr u 7 = 0) as ->.
    { rewrite Z.shiftr_div_pow2 by lia. apply Z.div_small. apply Hu. }
    rewrite Z.shiftl_0_l, (wraps_id w 0) by (try split; pose proof (Z.pow_pos_nonneg 2 (w - 1)); lia).
    rewrite Z.lor_0_r. destruct fuel; cbn [varint_loop]; rewrite land_128_small by done; apply reads_ret.
  - destruct (vgroups_head (Datatypes.S n) u) as (b' & rest' & Hb' & _ & _ & HS).
    rewrite Hb' in Hb. injection Hb as -> ->.
    destruct (HS n eq_refl) as [-> H128]. destruct fuel as [|fuel]; [lia|]. cbn [varint_loop].
    rewrite H128. change (128 =? 0) with false. cbv iota.
    destruct (Hstop k ltac:(lia)) as [-> Hkw].
    destruct (vgroups_head n (Z.shiftr u 7)) as (b1 & rest1 & Hb1 & H1 & _ & _).
    rewrite Hb1. change (b1 :: rest1) with ([b1] ++ rest1).
    apply (reads_bind _ _ _ _ b1); [apply reads_byte|].
    replace (7 * k + 7) with (7 * (k + 1)) by lia.
    assert (Hu' : in_u (7 * Z.of_nat (Datatypes.S n)) (Z.shiftr u 7)) by by apply shiftr7_range.
    rewrite (H1 Hu'), shls_small by lia.
    replace (Z.lor acc (wraps w (Z.shiftl (Z.shiftr u 7) (7 * k))))
      with (Z.lor (Z.lor acc (wraps w (Z.shiftl (Z.land (Z.shiftr u 7) 127) (7 * k))))
                  (wraps w (Z.shiftl (Z.shiftr (Z.shiftr u 7) 7) (7 * (k + 1))))).
    + apply IH; [lia|lia|done| |done]. intros j Hj. apply Hstop. lia.
    + rewrite <- Z.lor_assoc, wraps_lor by done. do 2 f_equal.
      change 127 with (Z.ones 7). bits_solve.
Qed.

(** The number of groups of a value below [2 ^ (7 * m)]. *)
Lemma encode_varint_vgroups v m : (m <= 9)%nat -> in_u 64 v -> in_u (7 * Z.of_nat (Datatypes.S m)) v ->
  exists n, (n <= m)%nat /\ encode_varint v = vgroups (Datatypes.S n) v
    /\ in_u (7 * Z.of_nat (Datatypes.S n)) v.
Proof.
  intros Hm H64 Hv. destruct (push_varint_groups v H64) as (Hn & Hr & Hlow).
  set (n := div_ceil _ 7) in *.
  destruct (Z_of_nat_complete (n - 1) ltac:(lia)) as [k Hk].
  assert (Hnk : n = Z.of_nat (Datatypes.S k)) by lia. rewrite Hnk in *.
  exists k. split; [|split; [|done]].
  - destruct Hlow as [Hl|Hl]; [lia|]. destruct Hv as [_ Hv].
    assert (7 * (Z.of_nat (Datatypes.S k) - 1) < 7 * Z.of_nat (Datatypes.S m)); [|lia].
    apply (Z.pow_lt_mono_r_iff 2); lia.
  - apply encode_varint_loop_groups; [lia|done|done|]. destruct Hlow as [|]; [left; lia|by right].
Qed.

Lemma varint_reads stop w m v :
  8 <= w -> (m <= 9)%nat -> in_u 64 v -> in_u (7 * Z.of_nat (Datatypes.S m)) v ->
  (forall j, 1 <= j < 1 + Z.of_nat m -> stop (7 * j) = false /\ 7 * j < w) ->
  reads (let* b := read_byte in varint_loop stop w m b (Z.land b 0x7f) 7) (encode_varint v) (wraps w v).
Proof.
  intros Hw Hm H64 Hv Hstop.
  destruct (encode_varint_vgroups v m Hm H64 Hv) as (n & Hn & -> & Hr).
  destruct (vgroups_head n v) as (b & rest & Hb & H127 & _). rewrite Hb.
  change (b :: rest) with ([b] ++ rest). apply (reads_bind _ _ _ _ b); [apply reads_byte|].
  rewrite H127 by done. change 7 with (7 * 1).
  replace (wraps w v) with (Z.lor (Z.land v 127) (wraps w (Z.shiftl (Z.shiftr v 7) (7 * 1)))).
  - apply (varint_loop_reads stop w n m v _ 1 b rest); [lia|lia|lia|done| |done].
    intros j Hj. apply Hstop. lia.
  - rewrite <- (wraps_small w (Z.land v 127)).
    + rewrite wraps_lor by lia. f_equal. change 127 with (Z.ones 7). bits_solve.
    + lia.
    + rewrite land_127. apply (in_u_weaken 7); [lia|]. apply Z.mod_pos_bound. lia.
Qed.

Lemma reads_vint v : in_s 32 v -> reads read_vint (encode_varint (wrapu 32 v)) v.
Proof.
  intros Hv. apply (reads_ext _ read_vint_loop); [apply law_read_vint|].
  rewrite <- (wraps_id 32 v) at 2 by done. rewrite <- wraps_wrapu by done.
  assert (Hu : in_u 32 (wrapu 32 v)) by (apply wrapu_range; lia).
  apply (varint_reads _ 32 4); [lia|lia|by apply (in_u_weaken 32)|by apply (in_u_weaken 32)|].
  intros j Hj. destruct (Z.ltb_spec 28 (7 * j)); [lia|]. split; [done|lia].
Qed.

Lemma reads_vlong v : in_s 64 v -> reads read_vlong (encode_varint (wrapu 64 v)) v.
Proof.
  intros Hv. apply (reads_ext _ read_vlong_loop); [apply law_read_vlong|].
  rewrite <- (wraps_id 64 v) at 2 by done. rewrite <- wraps_wrapu by done.
  assert (Hu : in_u 64 (wrapu 64 v)) by (apply wrapu_range; lia).
  apply (varint_reads _ 64 9); [lia|lia|done|by apply (in_u_weaken 64)|].
  intros j Hj. destruct (Z.leb_spec 64 (7 * j)); [lia|]. split; [done|lia].
Qed.

Lemma zlong_loop_reads n fuel u acc k :
  0 <= k -> k + Z.of_nat n <= 9 -> (n <= fuel)%nat -> in_u (7 * Z.of_nat (Datatypes.S n)) u ->
  reads (zlong_loop fuel acc (7 * k)) (vgroups (Datatypes.S n) u)
        (Z.lor acc (wrapu 64 (Z.shiftl u (7 * k)))).
Proof.
  revert fuel u acc k. induction n as [|n IH]; intros fuel u acc k Hk Hkn Hf Hu.
  - cbn [vgroups]. rewrite <- (app_nil_r [u]).
    destruct fuel; cbn [zlong_loop]; (apply (reads_bind _ _ _ _ u); [apply reads_byte|]);
      rewrite land_128_small by done;
      rewrite land_127, Z.mod_small by apply Hu; unfold shlu; rewrite Z.mod_small by lia; apply reads_ret.
  - destruct (vgroups_head (Datatypes.S n) u) as (b & rest & Hb & H127 & _ & HS).
    destruct (HS n eq_refl) as [-> H128]. rewrite Hb.
    destruct fuel as [|fuel]; [lia|]. change (b :: ?l) with ([b] ++ l). cbn [zlong_loop].
    apply (reads_bind _ _ _ _ b); [apply reads_byte|].
    rewrite H128, H127 by done. change (128 =? 0) with false. cbv iota.
    destruct (Z.leb_spec 70 (7 * k + 7)); [lia|].
    replace (7 * k + 7) with (7 * (k + 1)) by lia.
    unfold shlu. rewrite Z.mod_small by lia.
    replace (Z.lor acc (wrapu 64 (Z.shiftl u (7 * k))))
      with (Z.lor (Z.lor acc (wrapu 64 (Z.shiftl (Z.land u 127) (7 * k))))
                  (wrapu 64 (Z.shiftl (Z.shiftr u 7) (7 * (k + 1))))).
    + apply IH; [lia|lia|lia|by apply shiftr7_range].
    + rewrite <- Z.lor_assoc, wrapu_lor by lia. do 2 f_equal.
      change 127 with (Z.ones 7). bits_solve.
Qed.

Lemma reads_zlong v : in_s 64 v -> reads read_zlong (encode_varint (ZigZag.encode v)) v.
Proof.
  intros Hv. apply (reads_ext _ read_zlong_loop); [apply law_read_zlong|].
  eapply (reads_map _ _ _ (ZigZag.encode v)); [|by apply ZigZag.decode_encode].
  pose proof (ZigZag.encode_range v) as Hu.
  destruct (encode_varint_vgroups (ZigZag.encode v) 9) as (n & Hn & -> & Hr);
    [lia|done|by apply (in_u_weaken 64)|].
  rewrite <- (Z.lor_0_l (ZigZag.encode v)) at 2. rewrite <- (wrapu_id 64 (ZigZag.encode v)) at 2 by done.
  apply (zlong_loop_reads n 9 _ 0 0); [lia|lia|lia|done].
Qed.

Lemma reads_zint v : in_s 32 v ->
  reads read_zint (encode_varint (wrapu 32 (wraps 32 (ZigZag.encode_i32 v)))) v.
Proof.
  intros Hv. eapply reads_map; [apply reads_vint, wraps_range; lia|]. cbn beta.
  pose proof (ZigZag.encode_i32_range v). rewrite wrapu_wraps, wrapu_id by (done || lia).
  by apply ZigZag.decode_encode_i32.
Qed.

(** ** Fixed-width integers. *)
Lemma reads_le n w f (m : M Error R Z) v :
  (forall r, wf r -> m r = (let* b := read_bytes (Z.of_nat n) in ret (f (from_le b))) r) ->
  (forall z, f (z mod 2 ^ (8 * Z.of_nat n)) = wraps w z) -> 0 < w -> in_s w v ->
  reads m (to_le n v) v.
Proof.
  intros Hm Hf Hw Hv. apply (reads_ext _ _ _ _ Hm).
  eapply reads_map; [apply reads_bytes; by rewrite zlen_to_le|]. cbn beta.
  rewrite from_to_le, Hf. by apply wraps_id.
Qed.

Lemma reads_i16 v : in_s 16 v -> reads read_i16 (to_le 2 v) v.
Proof.
  intros. apply (reads_le 2 16 (wraps 16)); [apply law_read_i16| |lia|done].
  intros z. by apply (wraps_wrapu 16).
Qed.

Lemma reads_u32_le v : in_u 32 v -> reads read_u32_le (to_le 4 v) v.
Proof.
  intros Hv. apply (reads_ext _ default_read_u32_le); [apply law_read_u32_le|].
  eapply reads_map; [apply reads_bytes; by rewrite zlen_to_le|]. by apply from_to_le_id.
Qed.

Lemma reads_i32 v : in_s 32 v -> reads read_i32 (to_le 4 v) v.
Proof.
  intros. apply (reads_le 4 32 (wraps 32)); [| |lia|done].
  - intros r Hr. rewrite law_read_i32 by done. unfold default_read_i32, bind.
    rewrite law_read_u32_le by done. unfold default_read_u32_le, bind.
    change (Z.of_nat 4) with 4. by destruct (read_bytes 4 r) as [[?|?] ?].
  - intros z. by apply (wraps_wrapu 32).
Qed.

Lemma reads_i64 v : in_s 64 v -> reads read_i64 (to_le 8 v) v.
Proof.
  intros. apply (reads_le 8 64 (wraps 64)); [apply law_read_i64| |lia|done].
  intros z. by apply (wraps_wrapu 64).
Qed.

Lemma reads_i64s vs : Forall (in_s 64) vs -> reads (read_i64s (length vs)) (concat (map (to_le 8) vs)) vs.
Proof.
  intros Hv r bs Hw Hview. assert (Hd : reads (default_read_i64s read_i64 (length vs)) (concat (map (to_le 8) vs)) vs).
  { apply reads_repeat. eapply Forall_impl; [|exact Hv]. intros v. apply reads_i64. }
  destruct (Hd r bs Hw Hview) as (r' & E & H'). exists r'. split; [|done].
  pose proof (law_read_i64s r (length vs) Hw) as Hs. unfold same_success in Hs. by rewrite E in Hs.
Qed.

Lemma reads_be_u32 v : in_u 32 v -> reads read_be_u32 (to_be 4 v) v.
Proof.
  intros Hv. eapply reads_map; [apply reads_bytes; by rewrite zlen_to_be|]. by apply from_to_be_id.
Qed.

Lemma to_be_app n m v : to_be (n + m) v = to_be m (Z.shiftr v (8 * Z.of_nat n)) ++ to_be n v.
Proof. unfold to_be. by rewrite to_le_app, reverse_app. Qed.

Lemma to_be_wrapu n v : to_be n (wrapu (8 * Z.of_nat n) v) = to_be n v.
Proof.
  unfold to_be. f_equal. revert v. induction n as [|n IH]; intros v; [done|]. cbn [to_le]. f_equal.
  - change 255 with (Z.ones 8). bits_solve.
  - rewrite <- (IH (Z.shiftr v 8)), <- (IH (Z.shiftr (wrapu _ v) 8)). f_equal. bits_solve.
Qed.

Lemma reads_be_u64 v : in_u 64 v -> reads read_be_u64 (to_be 8 v) v.
Proof.
  intros Hv. change (to_be 8 v) with (to_be (4 + 4) v). rewrite to_be_app.
  change (8 * Z.of_nat 4) with 32. rewrite <- (to_be_wrapu 4 v). change (8 * Z.of_nat 4) with 32.
  assert (Hu : in_u 32 (Z.shiftr v 32)).
  { destruct Hv. rewrite Z.shiftr_div_pow2 by lia. split; [apply Z.div_pos; lia|].
    apply Z.div_lt_upper_bound; lia. }
  eapply reads_bind; [by apply reads_be_u32|].
  eapply reads_map; [apply reads_be_u32, wrapu_range; lia|]. bits_solve.
Qed.

Lemma reads_be_i32 v : in_s 32 v -> reads read_be_i32 (to_be 4 (wrapu 32 v)) v.
Proof.
  intros Hv. eapply reads_map; [apply reads_be_u32, wrapu_range; lia|].
  cbn beta. rewrite wraps_wrapu by lia. by apply wraps_id.
Qed.

(** ** Strings, sets and maps: a vint count, checked against what is left. *)
Definition count_bytes (n : Z) : list byte := encode_varint (wrapu 32 (wraps 32 n)).

Lemma reads_length {A} (k : Z -> M Error R A) n ys a :
  0 <= n < 2 ^ 31 -> n <= zlen ys -> reads (k n) ys a ->
  reads (let* c := read_length in k c) (count_bytes n ++ ys) a.
Proof.
  intros Hn Hle Hk r bs Hw Hv. rewrite <- app_assoc in Hv.
  assert (Hs : in_s 32 n) by (unfold in_s; simpl; lia).
  destruct (reads_vint n Hs r (ys ++ bs) Hw) as (r1 & E & Hw1 & Hv1).
  { unfold count_bytes in Hv. by rewrite (wraps_id 32 n) in Hv by (done || lia). }
  unfold bind at 1, read_length, read_length_with, bind at 1. rewrite E.
  destruct (Z.ltb_spec n 0); [lia|]. unfold bind, get_state.
  rewrite law_remaining, Hv1, zlen_app by done. pose proof (zlen_nonneg bs).
  destruct (Z.ltb_spec (zlen ys + zlen bs) n); [lia|]. unfold ret. by apply Hk.
Qed.

(** A string the writer can be given: valid UTF-8, shorter than 2 GiB. *)
Definition string_ok (s : list byte) : Prop := utf8_valid s = true /\ zlen s < 2 ^ 31.
Definition string_bytes (s : list byte) : list byte := count_bytes (zlen s) ++ s.

Lemma reads_string s : string_ok s -> reads read_string (string_bytes s) s.
Proof.
  intros [Hu Hl]. apply (reads_ext _ (default_read_string read_vint)); [apply law_read_string|].
  apply (reads_length (fun len => let* buf := read_bytes len in from_utf8 buf));
    [pose proof (zlen_nonneg s); lia|lia|].
  rewrite <- (app_nil_r s) at 2. eapply reads_bind; [by apply reads_bytes|].
  unfold from_utf8. rewrite Hu. apply reads_ret.
Qed.

Lemma encode_varint_loop_pos f v : 1 <= zlen (encode_varint_loop (Datatypes.S f) v).
Proof.
  cbn [encode_varint_loop]. destruct (Z.land _ _ =? 0); [done|]. rewrite zlen_cons.
  pose proof (zlen_nonneg (encode_varint_loop f (Z.shiftr v 7))). lia.
Qed.

Lemma string_bytes_pos s : 1 <= zlen (string_bytes s).
Proof.
  unfold string_bytes, count_bytes. rewrite zlen_app.
  assert (1 <= zlen (encode_varint (wrapu 32 (wraps 32 (zlen s))))); [|pose proof (zlen_nonneg s); lia].
  apply (encode_varint_loop_pos 9).
Qed.

Lemma concat_length {A} (enc : A -> list byte) l : (forall a, 1 <= zlen (enc a)) ->
  zlen l <= zlen (concat (map enc l)).
Proof.
  intros He. induction l as [|a l IH]; simpl; [done|]. rewrite zlen_cons, zlen_app.
  specialize (He a). lia.
Qed.

Lemma reads_counted {A} (m : M Error R A) enc (l : list A) :
  (forall a, 1 <= zlen (enc a)) -> Forall (fun a => reads m (enc a) a) l -> zlen l < 2 ^ 31 ->
  reads (let* count := read_length in repeatM (Z.to_nat count) m)
        (count_bytes (zlen l) ++ concat (map enc l)) l.
Proof.
  intros He Hl Hn. apply reads_length; [pose proof (zlen_nonneg l); lia|by apply concat_length|].
  unfold zlen. rewrite Nat2Z.id. by apply reads_repeat.
Qed.

Definition pair_bytes (kv : list byte * list byte) : list byte := string_bytes kv.1 ++ string_bytes kv.2.

Lemma reads_map_of_strings m : Forall (fun kv => string_ok kv.1 /\ string_ok kv.2) m -> zlen m < 2 ^ 31 ->
  reads read_map_of_strings (count_bytes (zlen m) ++ concat (map pair_bytes m)) m.
Proof.
  intros Hm Hl. apply reads_counted; [|eapply Forall_impl; [|exact Hm]|done].
  - intros kv. unfold pair_bytes. rewrite zlen_app.
    pose proof (string_bytes_pos kv.1); pose proof (string_bytes_pos kv.2). lia.
  - intros [k v] [Hk Hv]. eapply reads_bind; [by apply reads_string|].
    eapply reads_map; [by apply reads_string|done].
Qed.

Lemma reads_set_of_strings l : Forall string_ok l -> zlen l < 2 ^ 31 ->
  reads read_set_of_strings (count_bytes (zlen l) ++ concat (map string_bytes l)) l.
Proof.
  intros Hs Hl. apply reads_counted; [apply string_bytes_pos|eapply Forall_impl; [|exact Hs]|done].
  intros s. apply reads_string.
Qed.

(** ** Group varints. *)
Definition value_bytes (v : Z) : list byte := take (Z.to_nat (num_bytes v)) (to_le 4 v).

Lemma num_bytes_range v : in_u 32 v -> 1 <= num_bytes v <= 4 /\ in_u (8 * num_bytes v) v.
Proof.
  intros [H1 H2]. unfold num_bytes, leading_zeros.
  destruct (Z.eqb_spec (Z.lor v 1) 0) as [E|_]; [apply Z.lor_eq_0_iff in E; lia|].
  assert (Hl : Z.log2 (Z.lor v 1) = Z.log2 v).
  { rewrite Z.log2_lor by lia. change (Z.log2 1) with 0. pose proof (Z.log2_nonneg v). lia. }
  rewrite Hl. pose proof (Z.log2_nonneg v).
  destruct (Z.eq_dec v 0) as [->|Hv].
  { change (Z.log2 0) with 0. vm_compute. split; [split; discriminate|split; [discriminate|reflexivity]]. }
  assert (Z.log2 v < 32) by (apply Z.log2_lt_pow2; lia).
  split; [Z.div_mod_to_equations; lia|]. split; [lia|].
  apply Z.log2_lt_pow2; [lia|]. Z.div_mod_to_equations; lia.
Qed.

Lemma value_bytes_to_le v : in_u 32 v ->
  value_bytes v = to_le (Z.to_nat (num_bytes v)) v /\ zlen (value_bytes v) = num_bytes v.
Proof.
  intros Hv. destruct (num_bytes_range v Hv) as [Hn _]. unfold value_bytes.
  rewrite take_to_le by lia. split; [done|]. rewrite zlen_to_le. lia.
Qed.

Lemma reads_value v : in_u 32 v -> reads (group_value_bytes (num_bytes v - 1)) (value_bytes v) v.
Proof.
  intros Hv. destruct (value_bytes_to_le v Hv) as [E Hl]. destruct (num_bytes_range v Hv) as [Hn Hr].
  eapply reads_map; [apply reads_bytes; lia|]. rewrite E. apply from_to_le_id.
  by rewrite Z2Nat.id by lia.
Qed.

Lemma peek_value v r bs : in_u 32 v -> wf r -> view r = value_bytes v ++ bs ->
  is_ok (peek_u32_le r).1 = true ->
  exists r', group_value_peek (num_bytes v - 1) r = (Ok v, r') /\ wf r' /\ view r' = bs
    /\ (4 <= remaining r' -> is_ok (peek_u32_le r').1 = true).
Proof.
  intros Hv Hw Hvw Hpk. destruct (value_bytes_to_le v Hv) as [E Hl].
  destruct (num_bytes_range v Hv) as [Hn Hr].
  destruct (law_peek r Hw) as [(e & Hp)|(a & b & Hab & Ha4 & Hp)]; [by rewrite Hp in Hpk|].
  destruct (law_skip r _ bs Hw Hvw) as (r' & Hs & Hw' & Hv').
  exists r'. split; [|split; [done|split; [done|]]].
  - unfold group_value_peek, bind. rewrite Hp. replace (num_bytes v - 1 + 1) with (zlen (value_bytes v)) by lia.
    rewrite Hs. unfold ret, vint_mask. do 2 f_equal.
    replace (num_bytes v - 1 + 1) with (num_bytes v) by lia.
    rewrite Z.land_ones by lia.
    assert (Ht : take (Z.to_nat (num_bytes v)) a = value_bytes v).
    { assert (Hla : length a = 4%nat) by (unfold zlen in Ha4; lia).
      assert (Hlv : length (value_bytes v) = Z.to_nat (num_bytes v)) by (unfold zlen in Hl; lia).
      rewrite Hab in Hvw. apply (f_equal (take (Z.to_nat (num_bytes v)))) in Hvw.
      rewrite take_app_le, <- Hlv, take_app_length in Hvw by lia. by rewrite Hlv in Hvw. }
    assert (Hok : bytes_ok a).
    { pose proof (wf_bytes r Hw) as Hb. rewrite Hab in Hb. by apply Forall_app in Hb as [? _]. }
    rewrite <- (take_drop (Z.to_nat (num_bytes v)) a), Ht, from_le_app, Hl, E.
    rewrite from_to_le_id by (rewrite Z2Nat.id by lia; done).
    rewrite <- (Z.land_ones _ (8 * num_bytes v)) by lia. bits_solve.
  - intros H4. eapply law_peek_again; [exact Hw|exact Hpk|exact Hs|lia|done].
Qed.

Definition values_bytes (vs : list Z) : list byte := concat (map value_bytes vs).

Lemma peek_values vs r bs : Forall (in_u 32) vs -> wf r -> view r = values_bytes vs ++ bs ->
  (4 <= remaining r -> is_ok (peek_u32_le r).1 = true) -> 4 * zlen vs <= remaining r ->
  exists r', mapM_ group_value_peek (map (fun v => num_bytes v - 1) vs) r = (Ok vs, r')
    /\ wf r' /\ view r' = bs.
Proof.
  intros Hvs. revert r. induction Hvs as [|v vs Hv _ IH]; intros r Hw Hvw Hpk Hrem.
  { by exists r. }
  cbn [map mapM_]. unfold values_bytes in Hvw. cbn [map concat] in Hvw. rewrite <- app_assoc in Hvw.
  rewrite zlen_cons in Hrem. pose proof (zlen_nonneg vs).
  destruct (peek_value v r _ Hv Hw Hvw ltac:(apply Hpk; lia)) as (r1 & E1 & Hw1 & Hv1 & Hpk1).
  destruct (value_bytes_to_le v Hv) as [_ Hl]. destruct (num_bytes_range v Hv) as [Hn _].
  assert (remaining r = num_bytes v + remaining r1).
  { rewrite !law_remaining, Hv1, Hvw, zlen_app by done. lia. }
  destruct (IH r1 Hw1 Hv1 Hpk1 ltac:(lia)) as (r2 & E2 & Hw2 & Hv2).
  exists r2. unfold bind. rewrite E1, E2. done.
Qed.

Lemma reads_values vs : Forall (in_u 32) vs ->
  reads (mapM_ group_value_bytes (map (fun v => num_bytes v - 1) vs)) (values_bytes vs) vs.
Proof.
  induction 1 as [|v vs Hv _ IH]; cbn [map mapM_]; [apply reads_ret|].
  apply (reads_bind _ _ _ _ v); [by apply reads_value|]. by eapply reads_map.
Qed.

Lemma flag_lens x y z w : in_u 2 x -> in_u 2 y -> in_u 2 z -> in_u 2 w ->
  group_lens (wrapu 8 (Z.lor (Z.lor (Z.lor (Z.shiftl x 6) (Z.shiftl y 4)) (Z.shiftl z 2)) w)) = [x; y; z; w].
Proof.
  intros. unfold group_lens. change 3 with (Z.ones 2). repeat f_equal; bits_solve.
Qed.

Lemma reads_group a b c d : Forall (in_u 32) [a; b; c; d] ->
  reads read_group (encode_group a b c d) [a; b; c; d].
Proof.
  intros Hvs. assert (Hr : forall v, in_u 32 v -> in_u 2 (num_bytes v - 1)).
  { intros v Hv. destruct (num_bytes_range v Hv). split; lia. }
  unfold encode_group, read_group.
  replace (_ ++ _ ++ _ ++ _) with (values_bytes [a; b; c; d])
    by (unfold values_bytes; cbn [map concat]; by rewrite app_nil_r).
  set (flag := wrapu 8 _). change (flag :: ?l) with ([flag] ++ l).
  apply (reads_bind _ _ _ _ flag); [apply reads_byte|].
  assert (Hlens : group_lens flag = map (fun v => num_bytes v - 1) [a; b; c; d]).
  { inversion_clear Hvs as [|? ? Ha H1]. inversion_clear H1 as [|? ? Hb H2].
    inversion_clear H2 as [|? ? Hc H3]. inversion_clear H3 as [|? ? Hd _].
    apply flag_lens; by apply Hr. }
  rewrite Hlens. intros r bs Hw Hv. unfold bind, get_state.
  destruct (Z.leb_spec 16 (remaining r)) as [H16|]; cbn [andb]; [|by apply reads_values].
  destruct (is_ok (peek_u32_le r).1) eqn:Hpk; [|by apply reads_values].
  apply peek_values; [done|done|done|done|]. exact H16.
Qed.

(** What [write_group_vints] appends. *)
Fixpoint group_bytes (values : list Z) : list byte :=
  match values with
  | a :: b :: c :: d :: rest => encode_group a b c d ++ group_bytes rest
  | tail => concat (map (fun v => encode_varint (wrapu 32 (wraps 32 v))) tail)
  end.

Lemma reads_group_vints vs : Forall (in_u 32) vs ->
  reads (read_group_vints (length vs)) (group_bytes vs) vs.
Proof.
  intros Hvs. apply (reads_ext _ (group_vints_default read_vint (length vs)));
    [intros; by apply law_read_group_vints|].
  revert Hvs. induction vs as [l Hl|a b c d l IH] using list4_ind; intros Hvs.
  - assert (Ht : reads (repeatM (length l) (let* v := read_vint in ret (wrapu 32 v)))
      (concat (map (fun v => encode_varint (wrapu 32 (wraps 32 v))) l)) l).
    { apply (reads_repeat _ (fun v => encode_varint (wrapu 32 (wraps 32 v)))).
      eapply Forall_impl; [|exact Hvs]. intros v Hv.
      eapply reads_map; [apply reads_vint, wraps_range; lia|].
      rewrite wrapu_wraps by lia. by apply wrapu_id. }
    destruct l as [|? [|? [|? [|? ?]]]]; [exact Ht..|simpl in Hl; lia].
  - apply (Forall_app _ [a; b; c; d] l) in Hvs as [Hg Hl]. cbn [group_bytes].
    change (group_vints_default read_vint (length (a :: b :: c :: d :: l)))
      with (let* g := read_group (R:=R) in let* rest := group_vints_default read_vint (length l) in ret (g ++ rest)).
    apply (reads_bind _ _ _ _ [a; b; c; d]); [by apply reads_group|].
    eapply reads_map; [by apply IH|done].
Qed.
End reads.

(** ** The sinks: what each writer appends. *)
Section writes.
Context {W : Type} `{DataOutputLaws W}.

(** [writes f xs]: [f] appends exactly [xs]. *)
Definition writes (f : W -> W) (xs : list byte) : Prop :=
  forall w, contents (f w) = contents w ++ xs.

Lemma writes_comp f g xs ys : writes f xs -> writes g ys -> writes (fun w => g (f w)) (xs ++ ys).
Proof. intros Hf Hg w. by rewrite Hg, Hf, app_assoc. Qed.

Lemma writes_bytes b : writes (write_bytes b) b.
Proof. intros w. apply contents_write_bytes. Qed.

Lemma writes_vint v : writes (write_vint v) (encode_varint (wrapu 32 v)).
Proof. intros w. apply contents_write_vint. Qed.

Lemma writes_vlong v : writes (write_vlong v) (encode_varint (wrapu 64 v)).
Proof. intros w. apply contents_write_vlong_raw_u64, wrapu_range. lia. Qed.

Lemma writes_zlong v : writes (write_zlong v) (encode_varint (ZigZag.encode v)).
Proof. intros w. apply contents_write_vlong_raw_u64, ZigZag.encode_range. Qed.

Lemma writes_fold {A} (f : A -> W -> W) (enc : A -> list byte) (l : list A) :
  (forall a, writes (f a) (enc a)) -> writes (fun w => fold_left (fun w a => f a w) l w) (concat (map enc l)).
Proof.
  intros Hf. induction l as [|a l IH]; intros w; cbn [fold_left map concat]; [by rewrite app_nil_r|].
  by rewrite IH, Hf, app_assoc.
Qed.

Lemma writes_string s : writes (write_string s) (string_bytes s).
Proof. apply (writes_comp (write_vint (wraps 32 (zlen s))) (write_bytes s)); [apply writes_vint|apply writes_bytes]. Qed.

Lemma writes_map_of_strings m :
  writes (write_map_of_strings m) (count_bytes (zlen m) ++ concat (map pair_bytes m)).
Proof.
  apply (writes_comp (write_vint (wraps 32 (zlen m)))); [apply writes_vint|].
  apply (writes_fold (fun kv w => write_string kv.2 (write_string kv.1 w))).
  intros kv. apply (writes_comp (write_string kv.1)); apply writes_string.
Qed.

Lemma writes_set_of_strings l :
  writes (write_set_of_strings l) (count_bytes (zlen l) ++ concat (map string_bytes l)).
Proof.
  apply (writes_comp (write_vint (wraps 32 (zlen l)))); [apply writes_vint|].
  apply (writes_fold write_string). apply writes_string.
Qed.

Lemma writes_group_vints vs : writes (write_group_vints vs) (group_bytes vs).
Proof.
  induction vs as [l Hl|a b c d l IH] using list4_ind.
  - assert (Ht := writes_fold (fun v => write_vint (wraps 32 v))
      (fun v => encode_varint (wrapu 32 (wraps 32 v))) l ltac:(intros; apply writes_vint)).
    destruct l as [|? [|? [|? [|? ?]]]]; [exact Ht..|simpl in Hl; lia].
  - apply (writes_comp (write_bytes (encode_group a b c d)) (write_group_vints l));
      [apply writes_bytes|apply IH].
Qed.
End writes.

(** ** The round trips. *)

(** Writing to a [Vec<u8>] appends. *)
Lemma write_varint_bytes v (out : list byte) : write_vint v out = out ++ encode_varint (wrapu 32 v).
Proof. exact (writes_vint (W := list byte) v out). Qed.
Lemma write_varlong_bytes v (out : list byte) : write_vlong v out = out ++ encode_varint (wrapu 64 v).
Proof. exact (writes_vlong (W := list byte) v out). Qed.
Lemma write_string_bytes s (out : list byte) : write_string s out = out ++ string_bytes s.
Proof. exact (writes_string (W := list byte) s out). Qed.
Lemma write_map_bytes m (out : list byte) :
  write_map_of_strings m out = out ++ (count_bytes (zlen m) ++ concat (map pair_bytes m)).
Proof. exact (writes_map_of_strings (W := list byte) m out). Qed.

(** [round_trip wr rd a]: what [wr a] appends, [rd] reads back as [a], whatever
    precedes and follows it. *)
Definition round_trip {W R} `{DataOutputLaws W} `{DataInputLaws R} {A}
    (wr : A -> W -> W) (rd : M Error R A) (a : A) : Prop :=
  exists xs, writes (wr a) xs /\ reads rd xs a.

Section claims.
Context {W R : Type} `{DataOutputLaws W} `{DataInputLaws R}.

(** Variable-length integers round-trip between any sink and any source
    that keep their laws: every [i32] through [vint] and [zint], every [i64]
    (negative ones included) through [vlong] and [zlong]. *)
Lemma varint_round_trip (i l : Z) : in_s 32 i -> in_s 64 l ->
  round_trip (W:=W) (R:=R) write_vint read_vint i
  /\ round_trip (W:=W) (R:=R) write_zint read_zint i
  /\ round_trip (W:=W) (R:=R) write_vlong read_vlong l
  /\ round_trip (W:=W) (R:=R) write_zlong read_zlong l.
Proof.
  intros Hi Hl. repeat split; eexists.
  - split; [apply writes_vint|by apply reads_vint].
  - split; [apply writes_vint|by apply reads_zint].
  - split; [apply writes_vlong|by apply reads_vlong].
  - split; [apply writes_zlong|by apply reads_zlong].
Qed.

(** A group-varint block of any number of [u32]s (whole groups of four,
    then the vint tail) reads back as the same values, whether the source
    can peek or not. *)
Lemma group_vints_round_trip (vs : list Z) : Forall (in_u 32) vs ->
  round_trip (W:=W) (R:=R) write_group_vints (read_group_vints (length vs)) vs.
Proof. intros Hv. eexists. split; [apply writes_group_vints|by apply reads_group_vints]. Qed.

(** Strings, and the counted maps and sets of strings, round-trip: valid
    UTF-8 of less than 2 GiB, fewer than [2^31] entries. *)
Lemma strings_round_trip (s : list byte) (l : list (list byte)) (m : list (list byte * list byte)) :
  string_ok s -> Forall string_ok l -> zlen l < 2 ^ 31 ->
  Forall (fun kv => string_ok kv.1 /\ string_ok kv.2) m -> zlen m < 2 ^ 31 ->
  round_trip (W:=W) (R:=R) write_string read_string s
  /\ round_trip (W:=W) (R:=R) write_set_of_strings read_set_of_strings l
  /\ round_trip (W:=W) (R:=R) write_map_of_strings read_map_of_strings m.
Proof.
  intros Hs Hl Hln Hm Hmn. repeat split; eexists.
  - split; [apply writes_string|by apply reads_string].
  - split; [apply writes_set_of_strings|by apply reads_set_of_strings].
  - split; [apply writes_map_of_strings|by apply reads_map_of_strings].
Qed.

(** The fixed-width integers round-trip, little-endian for the payload
    and big-endian for the magics and checksums. *)
Lemma fixed_width_round_trip (h i l u q : Z) :
  in_s 16 h -> in_s 32 i -> in_s 64 l -> in_u 32 u -> in_u 64 q ->
  round_trip (W:=W) (R:=R) write_i16 read_i16 h
  /\ round_trip (W:=W) (R:=R) write_i32 read_i32 i
  /\ round_trip (W:=W) (R:=R) write_i64 read_i64 l
  /\ round_trip (W:=W) (R:=R) write_be_u32 read_be_u32 u
  /\ round_trip (W:=W) (R:=R) write_be_u64 read_be_u64 q.
Proof.
  intros Hh Hi Hl Hu Hq. repeat split; eexists; (split; [apply writes_bytes|]).
  - by apply reads_i16.
  - by apply reads_i32.
  - by apply reads_i64.
  - by apply reads_be_u32.
  - by apply reads_be_u64.
Qed.
End claims.

(** ** Malformed input. *)
Section malformed.
Context {R : Type} `{DataInputLaws R}.

Lemma land_128_big b : in_u 8 b -> 128 <= b -> Z.land b 128 =? 0 = false.
Proof. intros Hb Hge. apply Z.eqb_neq. rewrite land_128_0 by done. lia. Qed.

(** A loop whose every byte has the continuation bit stops with
    [MalformedVarint] at its bound, having consumed the bytes up to it. *)
Lemma varint_loop_malformed stop w bs0 b acc k fuel r bs :
  Forall (fun b => in_u 8 b /\ 128 <= b) (b :: bs0) -> (length bs0 <= fuel)%nat ->
  (forall j, k <= j < k + zlen bs0 -> stop (7 * j) = false) -> stop (7 * (k + zlen bs0)) = true ->
  wf r -> view r = bs0 ++ bs ->
  exists r', varint_loop stop w fuel b acc (7 * k) r = (Err MalformedVarint, r') /\ wf r' /\ view r' = bs.
Proof.
  revert b acc k fuel r. induction bs0 as [|b1 bs0 IH]; intros b acc k fuel r Hc Hf Hstop Hend Hw Hv;
    apply Forall_cons_1 in Hc as [[Hb Hge] Hc].
  - exists r. rewrite zlen_nil, Z.add_0_r in Hend.
    destruct fuel; cbn [varint_loop]; rewrite land_128_big, Hend by done; done.
  - destruct fuel as [|fuel]; [simpl in Hf; lia|]. cbn [varint_loop].
    rewrite zlen_cons in *. pose proof (zlen_nonneg bs0).
    rewrite land_128_big, Hstop by (done || lia).
    destruct (law_read_byte r b1 (bs0 ++ bs) Hw Hv) as (r1 & E & Hw1 & Hv1).
    unfold bind. rewrite E. replace (7 * k + 7) with (7 * (k + 1)) by lia.
    apply IH; [done|simpl in Hf; lia| | |done|done].
    + intros j Hj. apply Hstop. lia.
    + by replace (k + 1 + zlen bs0) with (k + (1 + zlen bs0)) by lia.
Qed.

(** A varint that does not end within its longest encoding is
    [MalformedVarint], and the source has consumed exactly the five bytes of
    a [vint] or the ten of a [vlong], never more. *)
Lemma unterminated_varint_is_malformed (r : R) (xs bs : list byte) :
  wf r -> view r = xs ++ bs -> Forall (fun b => in_u 8 b /\ 128 <= b) xs ->
  (zlen xs = 5 -> exists r', read_vint r = read_vint_loop r
     /\ read_vint_loop r = (Err MalformedVarint, r') /\ view r' = bs)
  /\ (zlen xs = 10 -> exists r', read_vlong r = read_vlong_loop r
     /\ read_vlong_loop r = (Err MalformedVarint, r') /\ view r' = bs).
Proof.
  intros Hw Hv Hx. destruct xs as [|b xs]; [done|].
  destruct (law_read_byte r b (xs ++ bs) Hw Hv) as (r1 & E & Hw1 & Hv1).
  rewrite zlen_cons. split; intros Hl.
  - rewrite law_read_vint by done. unfold read_vint_loop, bind. rewrite E.
    destruct (varint_loop_malformed (fun shift => 28 <? shift) 32 xs b (Z.land b 127) 1 4 r1 bs)
      as (r2 & E2 & _ & Hv2); [done|unfold zlen in Hl; lia| | |done|done|by exists r2].
    + intros j Hj. destruct (Z.ltb_spec 28 (7 * j)); [lia|done].
    + destruct (Z.ltb_spec 28 (7 * (1 + zlen xs))); [done|lia].
  - rewrite law_read_vlong by done. unfold read_vlong_loop, bind. rewrite E.
    destruct (varint_loop_malformed (fun shift => 64 <=? shift) 64 xs b (Z.land b 127) 1 9 r1 bs)
      as (r2 & E2 & _ & Hv2); [done|unfold zlen in Hl; lia| | |done|done|by exists r2].
    + intros j Hj. destruct (Z.leb_spec 64 (7 * j)); [lia|done].
    + destruct (Z.leb_spec 64 (7 * (1 + zlen xs))); [done|lia].
Qed.

(** A count read off the wire is never trusted: a string, map or set
    whose count is negative, or larger than what is left, is [Corrupted]
    before anything is read or sized by it. *)
Lemma bad_count_is_corrupted (r : R) (n : Z) (bs : list byte) :
  wf r -> in_s 32 n -> view r = encode_varint (wrapu 32 n) ++ bs -> n < 0 \/ zlen bs < n ->
  exists msg r', read_length r = (Err (Corrupted msg), r') /\ view r' = bs
    /\ read_string r = (Err (Corrupted msg), r')
    /\ read_map_of_strings r = (Err (Corrupted msg), r')
    /\ read_set_of_strings r = (Err (Corrupted msg), r').
Proof.
  intros Hw Hn Hv Hbad. destruct (reads_vint n Hn r bs Hw Hv) as (r' & E & Hw' & Hv').
  assert (El : exists msg, read_length r = (Err (Corrupted msg), r')).
  { unfold read_length, read_length_with, bind. rewrite E. destruct (Z.ltb_spec n 0); [by eexists|].
    unfold get_state. rewrite law_remaining, Hv' by done.
    destruct (Z.ltb_spec (zlen bs) n); [by eexists|lia]. }
  destruct El as [msg El]. exists msg, r'. split; [done|]. split; [done|].
  split; [|split; by apply bind_Err].
  rewrite law_read_string by done. by apply bind_Err.
Qed.
End malformed.

(** ** Witnesses: a byte vector written, a slice of it read. *)
Definition written (f : list byte -> list byte) : SliceInput.t := SliceInput.new (f []).

Lemma varint_round_trip_witness :
  in_s 32 (-1) /\ in_s 64 (- 2 ^ 63)
  /\ round_trip (W:=list byte) (R:=SliceInput.t) write_zlong read_zlong (- 2 ^ 63)
  /\ (read_vint (written (write_vint (-1)))).1 = Ok (-1).
Proof.
  assert (H1 : in_s 32 (-1)) by (split; vm_compute; congruence).
  assert (H2 : in_s 64 (- 2 ^ 63)) by (split; vm_compute; congruence).
  split; [exact H1|]. split; [exact H2|].
  split; [exact (proj2 (proj2 (proj2 (varint_round_trip (-1) (- 2 ^ 63) H1 H2))))|].
  vm_compute. reflexivity.
Defined.

Lemma group_vints_round_trip_witness :
  Forall (in_u 32) [1; 300; 70000; 2 ^ 32 - 1; 5]
  /\ round_trip (W:=list byte) (R:=SliceInput.t) write_group_vints
       (read_group_vints 5) [1; 300; 70000; 2 ^ 32 - 1; 5]
  /\ (read_group_vints 5 (written (write_group_vints [1; 300; 70000; 2 ^ 32 - 1; 5]))).1
     = Ok [1; 300; 70000; 2 ^ 32 - 1; 5].
Proof.
  assert (H : Forall (in_u 32) [1; 300; 70000; 2 ^ 32 - 1; 5])
    by (repeat constructor; vm_compute; congruence).
  split; [exact H|]. split; [exact (group_vints_round_trip _ H)|]. vm_compute. reflexivity.
Defined.

Lemma strings_round_trip_witness :
  string_ok [0x68; 0xc3; 0xa9]
  /\ round_trip (W:=list byte) (R:=SliceInput.t) write_map_of_strings read_map_of_strings
       [([0x6b], [0x68; 0xc3; 0xa9])].
Proof.
  assert (H : forall s, utf8_valid s = true -> zlen s <? 2 ^ 31 = true -> string_ok s)
    by (intros s H1 H2; split; [exact H1|by apply Z.ltb_lt]).
  assert (H1 : string_ok [0x68; 0xc3; 0xa9]) by (apply H; vm_compute; reflexivity).
  assert (H2 : string_ok [0x6b]) by (apply H; vm_compute; reflexivity).
  split; [exact H1|].
  refine (proj2 (proj2 (strings_round_trip [0x6b] [[0x6b]] [([0x6b], [0x68; 0xc3; 0xa9])] H2 _ _ _ _)));
    [by repeat constructor|reflexivity|by repeat constructor|reflexivity].
Defined.

Lemma fixed_width_round_trip_witness :
  in_s 16 (-2)
  /\ round_trip (W:=list byte) (R:=SliceInput.t) write_i16 read_i16 (-2)
  /\ (read_be_u32 (written (write_be_u32 0x3fd76c17))).1 = Ok 0x3fd76c17.
Proof.
  assert (H : in_s 16 (-2)) by (split; vm_compute; congruence).
  split; [exact H|]. split; [|vm_compute; reflexivity].
  refine (proj1 (fixed_width_round_trip (-2) 0 0 0 0 H _ _ _ _)); split; vm_compute; congruence.
Defined.

Lemma new_input_inv (b : list byte) : bytes_ok b -> zlen b < 2 ^ 63 -> SliceInput.inv (SliceInput.new b).
Proof.
  intros Hb Hl. pose proof (zlen_nonneg b). split; [|done].
  unfold SliceInput.len. cbn [SliceInput.pos SliceInput.buf SliceInput.new]. lia.
Qed.

Lemma new_view (b : list byte) : SliceInput.as_slice (SliceInput.new b) = b.
Proof. done. Qed.

Lemma new_wf (b : list byte) : bytes_okb b = true -> zlen b < 2 ^ 63 -> SliceInput.inv (SliceInput.new b).
Proof. intros. apply new_input_inv; [by apply bytes_okb_ok|done]. Qed.

Lemma unterminated_varint_is_malformed_witness :
  let r := SliceInput.new [0xff; 0xff; 0xff; 0xff; 0xff; 1] in
  exists r', read_vint r = read_vint_loop r /\ read_vint_loop r = (Err MalformedVarint, r') /\ view r' = [1].
Proof.
  intros r. assert (Hr : wf r) by (apply new_wf; reflexivity).
  refine (proj1 (unterminated_varint_is_malformed r [0xff; 0xff; 0xff; 0xff; 0xff] [1] Hr eq_refl _) eq_refl).
  repeat constructor; vm_compute; congruence.
Defined.

Lemma bad_count_is_corrupted_witness :
  let r := SliceInput.new [200; 1; 65] in
  exists msg r', read_length r = (Err (Corrupted msg), r') /\ view r' = [65]
    /\ read_string r = (Err (Corrupted msg), r')
    /\ read_map_of_strings r = (Err (Corrupted msg), r')
    /\ read_set_of_strings r = (Err (Corrupted msg), r').
Proof.
  intros r. assert (Hr : wf r) by (apply new_wf; reflexivity).
  refine (bad_count_is_corrupted r 200 [65] Hr _ eq_refl _); [split; vm_compute; congruence|].
  right. reflexivity.
Defined.
