(* ===== verification/CodecUtil.v ===== *)
(** Header and footer framing of index files
    ([crates/lucene-store/src/codec_util.rs]).  The CRC library is a parameter:
    [hash] and the streaming [Hasher] it comes with. *)
From stdpp Require Import strings.
From S2P Require Import Prelude StoreError ZigZag DataOutput DataInput SliceInput Wire.

Definition CODEC_MAGIC : Z := 0x3fd76c17.
Definition FOOTER_MAGIC : Z := notu 32 CODEC_MAGIC.
Definition FOOTER_LENGTH : Z := 16.
Definition ID_LENGTH : Z := 16.

Record Header : Type := mk_header { version : Z }.
Record IndexHeader : Type := mk_index_header { iversion : Z; iid : list byte; isuffix : list byte }.

(** ** Reading headers. *)
Notation S := (M Error SliceInput.t).

Definition corrupt {A} (msg : string) : S A := fail (Corrupted msg).

(** A [Result] that does not touch the cursor. *)
Definition lift {A} (f : SliceInput.t -> result Error A) : S A := fun s => (f s, s).

Definition read_string_bytes : S (list byte) :=
  let* len := read_length in
  let* s := get_state in
  let start := SliceInput.position s in
  let end_ := saturating_add start len in
  let* bytes := lift (SliceInput.slice start end_) in
  let* _ := SliceInput.seek end_ in
  ret bytes.

Definition check_header_no_magic (expected_codec : list byte) (min_version max_version : Z) : S Header :=
  let* actual_codec := read_string_bytes in
  if bool_decide (actual_codec <> expected_codec) then
    (if utf8_valid actual_codec then corrupt "codec mismatch" else corrupt "invalid UTF-8 string")
  else
    let* v := read_be_u32 in
    let version := wraps 32 v in
    if version <? min_version then corrupt "Version too old"
    else if max_version <? version then corrupt "Version too new"
    else ret (mk_header version).

Definition check_header (expected_codec : list byte) (min_version max_version : Z) : S Header :=
  let* magic := read_be_u32 in
  if bool_decide (magic <> CODEC_MAGIC) then corrupt "codec header mismatch"
  else check_header_no_magic expected_codec min_version max_version.

(** [peek_codec_name(buf)]: an [Option]. *)
Definition peek_codec_name (buf : list byte) : option (list byte) :=
  match read_be_u32 (SliceInput.new buf) with
  | (Ok magic, input) =>
      if bool_decide (magic <> CODEC_MAGIC) then None
      else match read_string input with
           | (Ok s, _) => Some s
           | (Err _, _) => None
           end
  | (Err _, _) => None
  end.

Definition check_index_header_id (expected_id : list byte) : S (list byte) :=
  let* id := read_bytes ID_LENGTH in
  if bool_decide (id <> expected_id) then corrupt "object id does not match" else ret id.

Definition check_index_header_suffix (expected_suffix : list byte) : S (list byte) :=
  let* len := read_byte in
  let* s := get_state in
  let start := SliceInput.position s in
  let* bytes := lift (SliceInput.slice start (saturating_add start len)) in
  let* _ := SliceInput.seek (saturating_add start len) in
  if bool_decide (bytes = expected_suffix) then ret expected_suffix
  else if utf8_valid bytes then corrupt "suffix mismatch" else corrupt "invalid UTF-8 suffix".

Definition check_index_header (expected_codec : list byte) (min_version max_version : Z)
    (expected_id expected_suffix : list byte) : S IndexHeader :=
  let* header := check_header expected_codec min_version max_version in
  let* id := check_index_header_id expected_id in
  let* suffix := check_index_header_suffix expected_suffix in
  ret (mk_index_header (version header) id suffix).

(** ** Writing headers. *)
Definition header_length (codec : list byte) : Z := 9 + zlen codec.
Definition index_header_length (codec suffix : list byte) : Z :=
  header_length codec + ID_LENGTH + 1 + zlen suffix.

Definition write_header {W} `{DataOutput W} (codec : list byte) (version : Z) (out : W) : W :=
  write_be_u32 (wrapu 32 version) (write_string codec (write_be_u32 CODEC_MAGIC out)).

Definition header_len (codec suffix : list byte) : Z :=
  fold_left saturating_add [4; 5; zlen codec; 4; ID_LENGTH; 1; zlen suffix] 0.

(** [HeaderCursor]: a fixed buffer and the filled prefix's length; [None] once
    a write has panicked on [self.buf[self.len..end]]. *)
Record cursor : Type := mk_cursor { cbuf : list byte; clen : Z }.
Definition HeaderCursor : Type := option cursor.

Definition hc_write_bytes (b : list byte) (w : HeaderCursor) : HeaderCursor :=
  match w with
  | None => None
  | Some c =>
      let end_ := saturating_add (clen c) (zlen b) in
      match zslice (cbuf c) (clen c) end_ with
      | None => None
      | Some _ => Some (mk_cursor (take (Z.to_nat (clen c)) (cbuf c) ++ b ++ drop (Z.to_nat end_) (cbuf c)) end_)
      end
  end.
Definition hc_write_byte (b : Z) : HeaderCursor -> HeaderCursor := hc_write_bytes [b].

#[global] Instance header_cursor_output : DataOutput HeaderCursor := {|
  write_byte := hc_write_byte;
  write_bytes := hc_write_bytes;
  write_vint := default_write_vint hc_write_byte hc_write_bytes;
  write_vlong_raw_u64 := default_write_vlong_raw_u64 hc_write_byte hc_write_bytes;
|}.

(** [const MAX]. *)
Definition HEADER_MAX : Z := 4 + 5 + 127 + 4 + ID_LENGTH + 1 + 255.

(** [None] is a panic. *)
Definition write_index_header {W} `{DataOutput W} (codec : list byte) (version : Z)
    (id suffix : list byte) (out : W) : option W :=
  let len := header_len codec suffix in
  let buf := if len <=? HEADER_MAX then replicate (Z.to_nat HEADER_MAX) 0 else replicate (Z.to_nat len) 0 in
  let c0 : HeaderCursor := Some (mk_cursor buf 0) in
  let c1 := write_header codec version c0 in
  let c2 := write_bytes id c1 in
  let c3 := write_byte (wrapu 8 (zlen suffix)) c2 in
  match write_bytes suffix c3 with
  | None => None
  | Some c => Some (write_bytes (take (Z.to_nat (clen c)) (cbuf c)) out)
  end.

(** ** The checksum.  [Hasher], [hnew], [update], [combine], [finalize] and
    [hash] stand for the crc32fast crate. *)
Definition PARALLEL_CRC_MIN : Z := Z.shiftl 8 20.

(** [buf.chunks(n)]. *)
Fixpoint chunks_fuel (fuel : nat) (n : nat) (l : list byte) : list (list byte) :=
  match fuel, l with
  | _, [] => []
  | O, _ => []
  | Datatypes.S f, _ => take n l :: chunks_fuel f n (drop n l)
  end.
Definition chunks (n : nat) (l : list byte) : list (list byte) := chunks_fuel (length l) n l.

Section checksum.
Context {Hasher : Type} (hnew : Hasher) (update : Hasher -> list byte -> Hasher)
  (combine : Hasher -> Hasher -> Hasher) (finalize : Hasher -> Z) (hash : list byte -> Z).

(** [crc32(buf)] on a machine with [threads] cores. *)
Definition crc32 (threads : Z) (buf : list byte) : Z :=
  if zlen buf <? PARALLEL_CRC_MIN then hash buf
  else
    let pieces := Z.max (Z.min threads (zlen buf / (PARALLEL_CRC_MIN / 2))) 1 in
    if pieces =? 1 then hash buf
    else
      let piece := div_ceil (zlen buf) pieces in
      let partials := map (update hnew) (chunks (Z.to_nat piece) buf) in
      match partials with
      | [] => finalize hnew
      | acc :: rest => finalize (fold_left combine rest acc)
      end.
End checksum.

(** ** Footers, over the checksum function [crc] in force. *)
Section footer.
Context (crc : list byte -> Z).

Definition write_footer (buf : list byte) : list byte :=
  let buf := write_be_u32 FOOTER_MAGIC buf in
  let buf := write_be_u32 0 buf in
  let checksum := crc buf in
  write_be_u64 checksum buf.

Definition check_footer (total_len : Z) : S Z :=
  if total_len <? FOOTER_LENGTH then corrupt "misplaced codec footer (file truncated?)" else
  let footer_start := total_len - FOOTER_LENGTH in
  let* s := get_state in
  if bool_decide (SliceInput.position s <> footer_start) then corrupt "did not read all bytes from file" else
  let* magic := read_be_u32 in
  if bool_decide (magic <> FOOTER_MAGIC) then corrupt "codec footer mismatch (file truncated?)" else
  let* algorithm_id := read_be_u32 in
  if bool_decide (algorithm_id <> 0) then corrupt "codec footer mismatch: unknown algorithmID" else
  let* covered := lift (SliceInput.slice 0 (footer_start + 8)) in
  let actual_checksum := crc covered in
  let* expected_checksum := read_be_u64 in
  if bool_decide (Z.land expected_checksum 0xFFFFFFFF00000000 <> 0) then corrupt "Illegal CRC-32 checksum"
  else if bool_decide (expected_checksum <> actual_checksum) then corrupt "checksum failed (hardware problem?)"
  else ret actual_checksum.

Definition check_whole_file_header (buf expected_codec : list byte) (min_version max_version : Z)
    : result Error Header :=
  if zlen buf <? FOOTER_LENGTH then Err (Corrupted "file too small to contain a codec footer")
  else (check_header expected_codec min_version max_version (SliceInput.new buf)).1.

Definition check_whole_file_footer (buf : list byte) (payload_end : Z) : result Error Z :=
  ((let* _ := SliceInput.seek payload_end in check_footer (zlen buf)) (SliceInput.new buf)).1.
End footer.

Definition retrieve_checksum (buf : list byte) : result Error Z :=
  if zlen buf <? FOOTER_LENGTH then Err (Corrupted "misplaced codec footer (file truncated?)") else
  let footer_start := zlen buf - FOOTER_LENGTH in
  ((let* _ := SliceInput.seek footer_start in
    let* magic := read_be_u32 in
    if bool_decide (magic <> FOOTER_MAGIC) then corrupt "codec footer mismatch (file truncated?)" else
    let* algorithm_id := read_be_u32 in
    if bool_decide (algorithm_id <> 0) then corrupt "codec footer mismatch: unknown algorithmID" else
    let* checksum := read_be_u64 in
    if bool_decide (Z.land checksum 0xFFFFFFFF00000000 <> 0) then corrupt "Illegal CRC-32 checksum"
    else ret checksum) (SliceInput.new buf)).1.

Definition retrieve_checksum_with_expected_length (buf : list byte) (expected_length : Z) : result Error Z :=
  if expected_length <? FOOTER_LENGTH then
    Err (Corrupted "expectedLength cannot be less than the footer length")
  else if zlen buf <? expected_length then Err (Corrupted "truncated file")
  else if expected_length <? zlen buf then Err (Corrupted "file too long")
  else retrieve_checksum buf.

(** ** Reading a borrowed range. *)
Lemma saturating_add_small a b : 0 <= a -> 0 <= b -> a + b < 2 ^ 63 -> saturating_add a b = a + b.
Proof. intros. unfold saturating_add, usize_max. lia. Qed.

Lemma reads_slice {A} n xs ys (k : list byte -> S A) a :
  n = zlen xs -> reads (k xs) ys a ->
  reads (let* s := get_state in
         let* b := lift (SliceInput.slice (SliceInput.position s) (saturating_add (SliceInput.position s) n)) in
         let* _ := SliceInput.seek (saturating_add (SliceInput.position s) n) in k b) (xs ++ ys) a.
Proof.
  intros -> Hk s bs Hw Hv. rewrite <- app_assoc in Hv.
  assert (Hwin : SliceInput.at_window s xs) by (by eapply SliceInput.view_window).
  destruct (SliceInput.view_advance s xs (ys ++ bs) Hw Hv) as [Hi' Hv'].
  change (SliceInput.inv s) in Hw. pose proof Hw as ((Hp & Hpl) & _ & Hlen). pose proof Hi' as ((_ & Hp2) & _). unfold SliceInput.len, SliceInput.advance in *. simpl in *.
  pose proof (zlen_nonneg xs).
  unfold bind, get_state, lift, SliceInput.slice, SliceInput.position, SliceInput.seek, SliceInput.len.
  rewrite saturating_add_small by lia. rewrite (SliceInput.slice_window s xs Hwin).
  destruct (Z.ltb_spec (zlen (SliceInput.buf s)) (SliceInput.pos s + zlen xs)); [lia|].
  by apply Hk.
Qed.

Lemma reads_slice_last {A} n xs (k : list byte -> S A) a :
  n = zlen xs -> reads (k xs) [] a ->
  reads (let* s := get_state in
         let* b := lift (SliceInput.slice (SliceInput.position s) (saturating_add (SliceInput.position s) n)) in
         let* _ := SliceInput.seek (saturating_add (SliceInput.position s) n) in k b) xs a.
Proof. intros Hn Hk. rewrite <- (app_nil_r xs). by apply reads_slice. Qed.

Lemma reads_string_bytes c : zlen c < 2 ^ 31 -> reads read_string_bytes (string_bytes c) c.
Proof.
  intros Hc. pose proof (zlen_nonneg c).
  apply (reads_length (R:=SliceInput.t)); [lia|lia|].
  by apply reads_slice_last; [|apply reads_ret].
Qed.

(** ** The outcome of a check over given bytes, failures included. *)
Definition yields {A} (m : S A) (xs : list byte) (res : result Error A) : Prop :=
  forall s bs, SliceInput.inv s -> SliceInput.as_slice s = xs ++ bs -> (m s).1 = res.

Lemma yields_reads {A} (m : S A) xs a : reads m xs a -> yields m xs (Ok a).
Proof. intros Hm s bs Hw Hv. destruct (Hm s bs Hw Hv) as (s' & E & _). by rewrite E. Qed.

Lemma yields_bind {A B} (m : S A) (k : A -> S B) xs ys a res :
  reads m xs a -> yields (k a) ys res -> yields (bind m k) (xs ++ ys) res.
Proof.
  intros Hm Hk s bs Hw Hv. rewrite <- app_assoc in Hv.
  destruct (Hm s _ Hw Hv) as (s' & E & Hw' & Hv'). rewrite (bind_Ok _ _ _ _ _ E). by eapply Hk.
Qed.

Lemma yields_corrupt {A} msg xs : yields (@corrupt A msg) xs (Err (Corrupted msg)).
Proof. intros s bs _ _. done. Qed.

Lemma yields_ret {A} (a : A) xs : yields (ret a) xs (Ok a).
Proof. intros s bs _ _. done. Qed.

Lemma yields_bind_err {A B} (m : S A) (k : A -> S B) xs e :
  yields m xs (Err e) -> yields (bind m k) xs (Err e).
Proof.
  intros Hm s bs Hw Hv. specialize (Hm s bs Hw Hv). unfold bind.
  destruct (m s) as [[a|e'] s']; simpl in *; congruence.
Qed.

Lemma yields_app {A} (m : S A) xs ys res : yields m xs res -> yields m (xs ++ ys) res.
Proof. intros Hm s bs Hw Hv. rewrite <- app_assoc in Hv. by eapply Hm. Qed.

(** ** Headers. *)
Definition header_bytes (codec : list byte) (v : Z) : list byte :=
  to_be 4 CODEC_MAGIC ++ string_bytes codec ++ to_be 4 (wrapu 32 v).
Definition index_header_bytes (codec : list byte) (v : Z) (id suffix : list byte) : list byte :=
  header_bytes codec v ++ id ++ [zlen suffix] ++ suffix.

(** What [check_header] must answer for a header of [codec] at version [v]. *)
Definition header_verdict (codec : list byte) (v : Z) (codec' : list byte) (vmin vmax : Z) : result Error Header :=
  if bool_decide (codec <> codec') then Err (Corrupted "codec mismatch")
  else if v <? vmin then Err (Corrupted "Version too old")
  else if vmax <? v then Err (Corrupted "Version too new")
  else Ok (mk_header v).

Definition index_header_verdict (codec : list byte) (v : Z) (id suffix codec' : list byte)
    (vmin vmax : Z) (id' suffix' : list byte) : result Error IndexHeader :=
  match header_verdict codec v codec' vmin vmax with
  | Err e => Err e
  | Ok h =>
      if bool_decide (id <> id') then Err (Corrupted "object id does not match")
      else if bool_decide (suffix <> suffix') then Err (Corrupted "suffix mismatch")
      else Ok (mk_index_header v id suffix)
  end.

Lemma reads_magic m : in_u 32 m -> reads (R:=SliceInput.t) read_be_u32 (to_be 4 m) m.
Proof. apply reads_be_u32. Qed.

Lemma codec_magic_ok : in_u 32 CODEC_MAGIC.
Proof. split; vm_compute; congruence. Qed.

Lemma reads_version v : in_s 32 v ->
  exists u, reads (R:=SliceInput.t) read_be_u32 (to_be 4 (wrapu 32 v)) u /\ wraps 32 u = v.
Proof.
  intros Hv. exists (wrapu 32 v). split; [apply reads_be_u32, wrapu_range; lia|].
  rewrite wraps_wrapu by lia. by apply wraps_id.
Qed.

Section header_check.
Context (codec : list byte) (v : Z).
Hypothesis codec_ok : string_ok codec.
Hypothesis v_ok : in_s 32 v.

Lemma check_header_yields codec' vmin vmax :
  yields (check_header codec' vmin vmax) (header_bytes codec v) (header_verdict codec v codec' vmin vmax).
Proof.
  unfold check_header, header_bytes. eapply yields_bind; [apply reads_magic, codec_magic_ok|].
  rewrite bool_decide_eq_false_2 by (intros Hn; by apply Hn).
  destruct codec_ok as [Hu Hl].
  eapply yields_bind; [by apply reads_string_bytes|]. unfold header_verdict.
  case_bool_decide as Hc; [rewrite Hu; apply yields_corrupt|].
  rewrite <- (app_nil_r (to_be 4 (wrapu 32 v))).
  destruct (reads_version v v_ok) as (u & Hr & Hwu). eapply yields_bind; [exact Hr|].
  rewrite Hwu. destruct (v <? vmin); [apply yields_corrupt|].
  destruct (vmax <? v); [apply yields_corrupt|apply yields_ret].
Qed.

Lemma check_header_reads vmin vmax : vmin <= v <= vmax ->
  reads (check_header codec vmin vmax) (header_bytes codec v) (mk_header v).
Proof.
  intros Hr. unfold check_header, header_bytes.
  eapply reads_bind; [apply reads_magic, codec_magic_ok|].
  rewrite bool_decide_eq_false_2 by (intros Hn; by apply Hn).
  destruct codec_ok as [Hu Hl]. eapply reads_bind; [by apply reads_string_bytes|].
  rewrite bool_decide_eq_false_2 by (intros Hn; by apply Hn).
  rewrite <- (app_nil_r (to_be 4 (wrapu 32 v))).
  destruct (reads_version v v_ok) as (u & Hrd & Hwu). eapply reads_bind; [exact Hrd|].
  rewrite Hwu. cbv zeta. destruct (Z.ltb_spec v vmin); [lia|]. destruct (Z.ltb_spec vmax v); [lia|]. apply reads_ret.
Qed.

Lemma check_id_reads id : zlen id = ID_LENGTH -> reads (check_index_header_id id) id id.
Proof.
  intros Hl. unfold check_index_header_id. eapply reads_bind_last; [by apply reads_bytes|].
  rewrite bool_decide_eq_false_2 by (intros Hn; by apply Hn). apply reads_ret.
Qed.

Lemma check_suffix_reads suffix : reads (check_index_header_suffix suffix) ([zlen suffix] ++ suffix) suffix.
Proof.
  unfold check_index_header_suffix. eapply reads_bind; [apply reads_byte|].
  apply (reads_slice_last _ suffix
    (fun bytes => if bool_decide (bytes = suffix) then ret suffix
                  else if utf8_valid bytes then corrupt "suffix mismatch"
                  else corrupt "invalid UTF-8 suffix")); [done|].
  rewrite bool_decide_eq_true_2 by done. apply reads_ret.
Qed.

Lemma check_index_header_reads id suffix vmin vmax : zlen id = ID_LENGTH -> vmin <= v <= vmax ->
  reads (check_index_header codec vmin vmax id suffix) (index_header_bytes codec v id suffix)
        (mk_index_header v id suffix).
Proof.
  intros Hid Hr. unfold index_header_bytes. eapply reads_bind; [by apply check_header_reads|].
  eapply reads_bind; [by apply check_id_reads|]. eapply reads_map; [apply check_suffix_reads|done].
Qed.

Lemma check_suffix_yields suffix suffix' : utf8_valid suffix = true -> suffix <> suffix' ->
  yields (check_index_header_suffix suffix') ([zlen suffix] ++ suffix) (Err (Corrupted "suffix mismatch")).
Proof.
  intros Hu Hne. unfold check_index_header_suffix. eapply yields_bind; [apply reads_byte|].
  intros s bs Hw Hv. assert (Hwin : SliceInput.at_window s suffix) by (by eapply SliceInput.view_window).
  pose proof (SliceInput.slice_window s suffix Hwin) as Hsl.
  pose proof (SliceInput.remaining_window s suffix Hwin) as Hrem.
  destruct Hw as ((Hp & Hpl) & _ & Hlen). pose proof (zlen_nonneg suffix).
  unfold SliceInput.slice_remaining, SliceInput.len in *.
  unfold bind, get_state, lift, SliceInput.slice, SliceInput.position, SliceInput.seek, SliceInput.len.
  rewrite saturating_add_small by lia. rewrite Hsl.
  destruct (Z.ltb_spec (zlen (SliceInput.buf s)) (SliceInput.pos s + zlen suffix)); [lia|].
  rewrite bool_decide_eq_false_2 by done. by rewrite Hu.
Qed.
End header_check.

(** [check_index_header] decides exactly what it is asked: over the
    header of any codec, version, id and suffix it succeeds iff the codec name,
    the id and the suffix are the expected ones and the version is in range,
    returning the stored fields, and otherwise reports the first field that
    differs, in the order codec, version, id, suffix. *)
Lemma check_index_header_decides (codec id suffix codec' id' suffix' : list byte) (v vmin vmax : Z) :
  string_ok codec -> utf8_valid suffix = true -> zlen id = ID_LENGTH -> in_s 32 v ->
  yields (check_index_header codec' vmin vmax id' suffix') (index_header_bytes codec v id suffix)
         (index_header_verdict codec v id suffix codec' vmin vmax id' suffix').
Proof.
  intros Hc Hs Hid Hv. unfold index_header_bytes, index_header_verdict.
  pose proof (check_header_yields codec v Hc Hv codec' vmin vmax) as Hy.
  destruct (header_verdict codec v codec' vmin vmax) as [h|e] eqn:Hver.
  2: { apply yields_app, yields_bind_err, Hy. }
  unfold header_verdict in Hver.
  case_bool_decide as Hcc; [done|]. destruct (Z.ltb_spec v vmin); [done|]. destruct (Z.ltb_spec vmax v); [done|].
  subst codec'. injection Hver as <-.
  eapply yields_bind; [by apply check_header_reads|].
  case_bool_decide as Hii.
  { apply yields_app, yields_bind_err. unfold check_index_header_id. rewrite <- (app_nil_r id).
    eapply yields_bind; [by apply reads_bytes|]. rewrite bool_decide_eq_true_2 by done. apply yields_corrupt. }
  subst id'. eapply yields_bind; [by apply check_id_reads|].
  case_bool_decide as Hss.
  { apply yields_bind_err. by apply check_suffix_yields. }
  subst suffix'. apply yields_reads. eapply reads_map; [apply check_suffix_reads|done].
Qed.

Lemma check_index_header_decides_witness :
  yields (check_index_header [0x61] 1 3 (replicate 16 7) [0x62]) (index_header_bytes [0x61] 2 (replicate 16 7) [0x62])
         (Ok (mk_index_header 2 (replicate 16 7) [0x62])).
Proof.
  refine (check_index_header_decides [0x61] (replicate 16 7) [0x62] [0x61] (replicate 16 7) [0x62] 2 1 3 _ _ _ _);
    [split; reflexivity|reflexivity|reflexivity|split; vm_compute; congruence].
Defined.

(** ** The header cursor. *)

(** [hc_at w xs room]: the cursor has not panicked, holds [xs], and has [room]
    bytes left. *)
Definition hc_at (w : HeaderCursor) (xs : list byte) (room : Z) : Prop :=
  exists rest, w = Some (mk_cursor (xs ++ rest) (zlen xs)) /\ zlen rest = room /\ zlen (xs ++ rest) < 2 ^ 63.

Lemma hc_write w xs room b : hc_at w xs room -> zlen b <= room ->
  hc_at (hc_write_bytes b w) (xs ++ b) (room - zlen b).
Proof.
  intros (rest & -> & Hr & Hl) Hb. pose proof (zlen_nonneg xs). pose proof (zlen_nonneg b).
  rewrite zlen_app in Hl. unfold hc_write_bytes. cbn [cbuf clen].
  rewrite saturating_add_small by lia.
  destruct (zslice_total (xs ++ rest) (zlen xs) (zlen xs + zlen b)) as (m & Hm & _);
    [lia|lia|rewrite zlen_app; lia|]. rewrite Hm.
  exists (drop (length b) rest). split; [|split].
  - rewrite zlen_app. do 2 f_equal. rewrite <- app_assoc. f_equal.
    + unfold zlen. by rewrite Nat2Z.id, take_app_length.
    + f_equal. replace (Z.to_nat (zlen xs + zlen b)) with (length xs + length b)%nat by (unfold zlen; lia).
      rewrite <- drop_drop. by rewrite drop_app_length.
  - unfold zlen in *. rewrite length_drop. lia.
  - rewrite !zlen_app. unfold zlen in *. rewrite length_drop. lia.
Qed.

Lemma default_vint_bytes v w :
  default_write_vint hc_write_byte hc_write_bytes v w = hc_write_bytes (encode_varint (wrapu 32 v)) w.
Proof.
  unfold default_write_vint. destruct (Z.leb_spec (wrapu 32 v) 127) as [Hle|]; [|done].
  pose proof (wrapu_range 32 v ltac:(lia)) as [Hl _].
  rewrite encode_varint_small by lia. unfold hc_write_byte. do 2 f_equal.
  assert (Hu : in_u 8 (wrapu 32 v)) by (split; lia).
  rewrite <- (wrapu_id 8 (wrapu 32 v)) by done. unfold wrapu. rewrite <- Znumtheory.Zmod_div_mod; try lia.
  by exists (2 ^ 24).
Qed.

Lemma count_bytes_len n : 0 <= n < 2 ^ 31 -> 1 <= zlen (count_bytes n) <= 5 /\ (n < 128 -> zlen (count_bytes n) = 1).
Proof.
  intros Hn. unfold count_bytes. rewrite wrapu_wraps by lia. rewrite wrapu_id by (split; lia).
  split; [|intros; by rewrite encode_varint_small by lia].
  assert (Hg : forall m u, zlen (vgroups m u) = Z.of_nat m).
  { induction m as [|[|m] IH]; intros u; [done|done|].
    change (zlen (Z.lor (Z.land u 127) 128 :: vgroups (Datatypes.S m) (Z.shiftr u 7)) = Z.of_nat (Datatypes.S (Datatypes.S m))).
    rewrite zlen_cons, IH. lia. }
  destruct (encode_varint_vgroups n 4) as (k & Hk & -> & _); [lia|split; lia|split; lia|].
  rewrite Hg. lia.
Qed.

Lemma header_len_sum codec suffix : zlen codec < 2 ^ 31 -> zlen suffix < 2 ^ 31 ->
  header_len codec suffix = 30 + zlen codec + zlen suffix.
Proof.
  intros. pose proof (zlen_nonneg codec); pose proof (zlen_nonneg suffix).
  unfold header_len, ID_LENGTH. cbn [fold_left].
  unfold saturating_add, usize_max. lia.
Qed.

Lemma write_index_header_spec {W} `{DataOutputLaws W} codec v id suffix (out : W) :
  zlen codec < 2 ^ 31 -> zlen suffix < 256 -> zlen id = ID_LENGTH ->
  write_index_header codec v id suffix out = Some (write_bytes (index_header_bytes codec v id suffix) out).
Proof.
  intros Hc Hs Hid. pose proof (zlen_nonneg codec); pose proof (zlen_nonneg suffix).
  unfold write_index_header. rewrite header_len_sum by lia.
  set (len := 30 + zlen codec + zlen suffix).
  set (buf := if len <=? HEADER_MAX then _ else _).
  assert (Hbuf : len <= zlen buf < 2 ^ 62).
  { subst buf. unfold HEADER_MAX, ID_LENGTH.
    destruct (Z.leb_spec len (4 + 5 + 127 + 4 + 16 + 1 + 255)); unfold zlen;
      rewrite length_replicate, Z2Nat.id; lia. }
  assert (Hat : hc_at (Some (mk_cursor buf 0)) [] (zlen buf)) by (exists buf; simpl; split; [done|split; lia]).
  destruct (count_bytes_len (zlen codec) ltac:(lia)) as [Hcnt _].
  unfold write_header, write_string, write_be_u32. cbn [write_bytes write_byte write_vint header_cursor_output].
  rewrite default_vint_bytes. fold (count_bytes (zlen codec)).
  apply (hc_write _ _ _ (to_be 4 CODEC_MAGIC)) in Hat; [|rewrite zlen_to_be; lia].
  apply (hc_write _ _ _ (count_bytes (zlen codec))) in Hat; [|rewrite zlen_to_be; lia].
  apply (hc_write _ _ _ codec) in Hat; [|rewrite zlen_to_be; lia].
  apply (hc_write _ _ _ (to_be 4 (wrapu 32 v))) in Hat; [|rewrite !zlen_to_be; lia].
  apply (hc_write _ _ _ id) in Hat; [|rewrite !zlen_to_be; unfold ID_LENGTH in Hid; lia].
  apply (hc_write _ _ _ [zlen suffix]) in Hat; [|rewrite !zlen_to_be, zlen_cons, zlen_nil; unfold ID_LENGTH in Hid; lia].
  apply (hc_write _ _ _ suffix) in Hat; [|rewrite !zlen_to_be, zlen_cons, zlen_nil; unfold ID_LENGTH in Hid; lia].
  unfold hc_write_byte. rewrite wrapu_id by (split; lia).
  destruct Hat as (rest & -> & _). cbn [cbuf clen]. do 2 f_equal.
  unfold zlen. rewrite Nat2Z.id, take_app_length. unfold index_header_bytes, header_bytes, string_bytes.
  cbn [app]. by rewrite <- !app_assoc.
Qed.

(** [write_index_header] never overruns its stack or heap buffer; the one
    write it makes is [index_header_length] bytes long for a codec name the
    format allows, [check_index_header] accepts it (at any version in range)
    from any position of any file, and [peek_codec_name] recovers the name. *)
Lemma index_header_round_trip {W : Type} `{DataOutputLaws W} (codec id suffix : list byte)
    (v vmin vmax : Z) (out : W) :
  string_ok codec -> zlen codec < 128 -> zlen suffix < 256 -> zlen id = ID_LENGTH -> in_s 32 v ->
  vmin <= v <= vmax ->
  exists hdr out', write_index_header codec v id suffix out = Some out'
    /\ contents out' = contents out ++ hdr
    /\ zlen hdr = index_header_length codec suffix
    /\ reads (check_index_header codec vmin vmax id suffix) hdr (mk_index_header v id suffix)
    /\ (forall rest, bytes_ok (hdr ++ rest) -> zlen (hdr ++ rest) < 2 ^ 63 ->
          peek_codec_name (hdr ++ rest) = Some codec).
Proof.
  intros Hc Hc128 Hs Hid Hv Hr. eexists _, _. split; [apply write_index_header_spec; lia|].
  split; [apply contents_write_bytes|]. split; [|split; [by apply check_index_header_reads|]].
  - destruct (count_bytes_len (zlen codec)) as [_ H1]; [pose proof (zlen_nonneg codec); lia|].
    unfold index_header_bytes, header_bytes, string_bytes, index_header_length, header_length.
    rewrite !zlen_app, !zlen_to_be, H1, zlen_cons, zlen_nil by done. lia.
  - intros rest Hok Hl. set (s0 := SliceInput.new (index_header_bytes codec v id suffix ++ rest)).
    assert (Hi : SliceInput.inv s0) by by apply new_input_inv.
    destruct (reads_magic CODEC_MAGIC codec_magic_ok s0
      (string_bytes codec ++ to_be 4 (wrapu 32 v) ++ (id ++ [zlen suffix] ++ suffix) ++ rest) Hi) as (s1 & E1 & Hi1 & Hv1).
    { change (view s0) with (index_header_bytes codec v id suffix ++ rest).
      unfold index_header_bytes, header_bytes. by rewrite <- !app_assoc. }
    destruct (reads_string codec Hc s1 _ Hi1 Hv1) as (s2 & E2 & _).
    unfold peek_codec_name. fold s0. rewrite E1. rewrite bool_decide_eq_false_2 by (intros Hn; by apply Hn).
    by rewrite E2.
Qed.

Lemma index_header_round_trip_witness :
  exists hdr out', write_index_header [0x61; 0x62] 2 (replicate 16 7) [0x5f] [9] = Some out'
    /\ contents out' = [9] ++ hdr
    /\ zlen hdr = index_header_length [0x61; 0x62] [0x5f]
    /\ reads (check_index_header [0x61; 0x62] 0 2 (replicate 16 7) [0x5f]) hdr (mk_index_header 2 (replicate 16 7) [0x5f])
    /\ (forall rest, bytes_ok (hdr ++ rest) -> zlen (hdr ++ rest) < 2 ^ 63 ->
          peek_codec_name (hdr ++ rest) = Some [0x61; 0x62]).
Proof.
  refine (index_header_round_trip [0x61; 0x62] (replicate 16 7) [0x5f] 2 0 2 [9] _ _ _ _ _ _);
    [split; reflexivity|reflexivity|reflexivity|reflexivity|split; vm_compute; congruence|lia].
Defined.

(** ** The parallel checksum. *)
Lemma chunks_concat n l : (0 < n)%nat -> concat (chunks n l) = l.
Proof.
  intros Hn. unfold chunks.
  assert (H : forall fuel k, (length k <= fuel)%nat -> concat (chunks_fuel fuel n k) = k).
  { induction fuel as [|fuel IH]; intros k Hk; [destruct k; [done|simpl in Hk; lia]|].
    destruct k as [|x k]; [done|]. cbn [chunks_fuel concat].
    rewrite IH; [by rewrite take_drop|]. rewrite length_drop. simpl in *. lia. }
  by apply H.
Qed.

Section crc_laws.
Context {Hasher : Type} (hnew : Hasher) (update : Hasher -> list byte -> Hasher)
  (combine : Hasher -> Hasher -> Hasher) (finalize : Hasher -> Z) (hash : list byte -> Z).

(** crc32fast's documented contract: a hasher fed a buffer finalizes to its
    [hash], and [combine] of two fed hashers is the hasher fed both. *)
Hypothesis finalize_update : forall l, finalize (update hnew l) = hash l.
Hypothesis combine_update : forall a b, combine (update hnew a) (update hnew b) = update hnew (a ++ b).

Lemma fold_combine acc cs :
  fold_left combine (map (update hnew) cs) (update hnew acc) = update hnew (acc ++ concat cs).
Proof.
  revert acc. induction cs as [|c cs IH]; intros acc; cbn [map fold_left concat]; [by rewrite app_nil_r|].
  by rewrite combine_update, IH, app_assoc.
Qed.

(** Splitting the checksum of a large buffer over any number of cores,
    one contiguous piece each, gives the sequential checksum, the ragged
    last piece included. *)
Lemma crc32_parallel_is_sequential (threads : Z) (buf : list byte) :
  crc32 hnew update combine finalize hash threads buf = hash buf.
Proof.
  unfold crc32. destruct (Z.ltb_spec (zlen buf) PARALLEL_CRC_MIN) as [|Hbig]; [done|].
  set (pieces := Z.max _ 1). destruct (Z.eqb_spec pieces 1) as [|Hp]; [done|].
  assert (Hpc : 0 < div_ceil (zlen buf) pieces).
  { unfold div_ceil. apply Z.div_str_pos. change PARALLEL_CRC_MIN with 8388608 in Hbig.
    assert (1 <= pieces) by (subst pieces; lia). lia. }
  pose proof (chunks_concat (Z.to_nat (div_ceil (zlen buf) pieces)) buf ltac:(lia)) as Hcat.
  destruct (chunks _ buf) as [|c cs]; cbn [map concat] in *.
  - change PARALLEL_CRC_MIN with 8388608 in Hbig. rewrite <- Hcat in Hbig. done.
  - by rewrite fold_combine, finalize_update, Hcat.
Qed.
End crc_laws.

(** CRC-32 (IEEE 802.3, reflected), the checksum of the witnesses. *)
Fixpoint crc_bits (n : nat) (c : Z) : Z :=
  match n with
  | O => c
  | Datatypes.S k => crc_bits k (if Z.odd c then Z.lxor (Z.shiftr c 1) 0xEDB88320 else Z.shiftr c 1)
  end.
Definition ieee_crc32 (l : list byte) : Z :=
  wrapu 32 (Z.lxor (fold_left (fun c b => crc_bits 8 (Z.lxor c b)) l 0xFFFFFFFF) 0xFFFFFFFF).

Lemma ieee_range l : in_u 32 (ieee_crc32 l).
Proof. apply wrapu_range. lia. Qed.

Example ieee_crc32_check : ieee_crc32 [0x31; 0x32; 0x33; 0x34; 0x35; 0x36; 0x37; 0x38; 0x39] = 0xCBF43926.
Proof. vm_compute. reflexivity. Qed.

Lemma crc32_parallel_is_sequential_witness :
  crc32 [] (fun h l => h ++ l) (fun a b => a ++ b) ieee_crc32 ieee_crc32 8 [1; 2; 3] = ieee_crc32 [1; 2; 3].
Proof.
  exact (crc32_parallel_is_sequential [] (fun h l => h ++ l) (fun a b => a ++ b) ieee_crc32 ieee_crc32
    (fun l => eq_refl) (fun a b => eq_refl) 8 [1; 2; 3]).
Defined.

(** ** Footers. *)
Definition footer_head (m a : Z) : list byte := to_be 4 m ++ to_be 4 a.

Lemma footer_magic_ok : in_u 32 FOOTER_MAGIC.
Proof. split; vm_compute; congruence. Qed.

(** Any sixteen bytes are a magic, an algorithm id and a checksum. *)
Lemma footer_split (l : list byte) : bytes_ok l -> zlen l = 16 ->
  exists m a c, in_u 32 m /\ in_u 32 a /\ in_u 64 c /\ l = footer_head m a ++ to_be 8 c.
Proof.
  intros Hok Hl. assert (Hf : forall k : list byte, bytes_ok k -> in_u (8 * zlen k) (from_be k)).
  { intros k Hk. unfold from_be. replace (zlen k) with (zlen (reverse k)) by (unfold zlen; by rewrite length_reverse).
    by apply from_le_range, Forall_reverse. }
  assert (Hd : forall n (k : list byte), bytes_ok k -> length k = n -> to_be n (from_be k) = k).
  { intros n k Hk <-. by apply to_from_be. }
  set (x := take 4 l). set (y := take 4 (drop 4 l)). set (z := drop 8 l).
  assert (E : l = (x ++ y) ++ z).
  { subst x y z. rewrite <- app_assoc. change (drop 8 l) with (drop (4 + 4) l). rewrite <- drop_drop.
    by rewrite !take_drop. }
  assert (Hlen : length x = 4%nat /\ length y = 4%nat /\ length z = 8%nat).
  { subst x y z. unfold zlen in Hl. rewrite !length_take, !length_drop. lia. }
  destruct Hlen as (Hx & Hy & Hz). rewrite E in Hok.
  apply Forall_app in Hok as [Hxy Hzo]. apply Forall_app in Hxy as [Hxo Hyo].
  exists (from_be x), (from_be y), (from_be z). unfold footer_head.
  rewrite !Hd by done. split; [|split; [|split; [|exact E]]].
  - specialize (Hf x Hxo). unfold zlen in Hf. by rewrite Hx in Hf.
  - specialize (Hf y Hyo). unfold zlen in Hf. by rewrite Hy in Hf.
  - specialize (Hf z Hzo). unfold zlen in Hf. by rewrite Hz in Hf.
Qed.

Lemma high_mask_0 c : in_u 64 c -> Z.land c 0xFFFFFFFF00000000 = 0 <-> in_u 32 c.
Proof.
  intros Hc. change 0xFFFFFFFF00000000 with (Z.shiftl (Z.ones 32) 32). split; intros H.
  - apply in_u_bits; [lia|apply Hc|]. intros i Hi. destruct (Z.ltb_spec i 64).
    + apply (f_equal (fun x => Z.testbit x i)) in H.
      rewrite Z.land_spec, testbit_shiftl, testbit_ones, Z.testbit_0_l in H by lia.
      destruct (Z.leb_spec 0 i), (Z.leb_spec 0 (i - 32)), (Z.ltb_spec (i - 32) 32); try lia.
      by rewrite !andb_true_r in H.
    + by apply (testbit_above 64).
  - bits_solve.
Qed.

(** The three fields of a footer, read in order: [k] is what a caller does with
    the checksum. *)
Lemma slice_prefix (l k : list byte) s : SliceInput.buf s = l ++ k -> SliceInput.slice 0 (zlen l) s = Ok l.
Proof.
  intros Hb. unfold SliceInput.slice. rewrite Hb.
  assert (E : zslice (l ++ k) 0 (zlen l) = Some l) by apply (zslice_mid [] l k). by rewrite E.
Qed.

Section footer_proofs.
Context (crc : list byte -> Z).
Hypothesis crc_range : forall l, in_u 32 (crc l).

(** What [check_footer] must answer. *)
Definition footer_verdict (payload : list byte) (m a c : Z) : result Error Z :=
  if bool_decide (m <> FOOTER_MAGIC) then Err (Corrupted "codec footer mismatch (file truncated?)")
  else if bool_decide (a <> 0) then Err (Corrupted "codec footer mismatch: unknown algorithmID")
  else if bool_decide (Z.land c 0xFFFFFFFF00000000 <> 0) then Err (Corrupted "Illegal CRC-32 checksum")
  else if bool_decide (c <> crc (payload ++ footer_head m a))
  then Err (Corrupted "checksum failed (hardware problem?)")
  else Ok c.

Lemma check_footer_verdict (payload : list byte) m a c :
  in_u 32 m -> in_u 32 a -> in_u 64 c ->
  let file := payload ++ footer_head m a ++ to_be 8 c in
  bytes_ok file -> zlen file < 2 ^ 63 ->
  (check_footer crc (zlen file) (SliceInput.mk file (zlen payload))).1 = footer_verdict payload m a c.
Proof.
  intros Hm Ha Hc file Hok Hl.
  assert (Hlen : zlen file = zlen payload + 16).
  { subst file. unfold footer_head. rewrite !zlen_app, !zlen_to_be. lia. }
  pose proof (zlen_nonneg payload) as Hpn.
  unfold check_footer, FOOTER_LENGTH. destruct (Z.ltb_spec (zlen file) 16); [lia|].
  set (s0 := SliceInput.mk file (zlen payload)).
  assert (Hi0 : SliceInput.inv s0) by (split; [unfold SliceInput.len; simpl; lia|done]).
  assert (Hv0 : SliceInput.as_slice s0 = to_be 4 m ++ to_be 4 a ++ to_be 8 c).
  { apply (SliceInput.as_slice_eq _ payload); [|done]. cbn. subst file. unfold footer_head.
    by rewrite <- !app_assoc. }
  unfold bind at 1, get_state. cbn [SliceInput.position].
  change (SliceInput.position s0) with (zlen payload).
  replace (zlen file - 16) with (zlen payload) by lia.
  rewrite bool_decide_eq_false_2 by (intros Hn; by apply Hn).
  destruct (reads_magic m Hm s0 _ Hi0 Hv0) as (s1 & E1 & Hi1 & Hv1).
  rewrite (bind_Ok _ _ _ _ _ E1). unfold footer_verdict. case_bool_decide as Hmm; [done|].
  destruct (reads_magic a Ha s1 _ Hi1 Hv1) as (s2 & E2 & Hi2 & Hv2).
  rewrite (bind_Ok _ _ _ _ _ E2). case_bool_decide as Haa; [done|].
  assert (Hb : forall s s' v, read_be_u32 s = (Ok v, s') -> SliceInput.buf s' = SliceInput.buf s).
  { intros s s' v E. unfold read_be_u32 in E. apply bind_Ok_inv in E as (b & s3 & E & [= _ <-]).
    cbn in E. unfold SliceInput.slice_read_bytes in E. destruct (checked_add _ _); [|done].
    destruct (zslice _ _ _); [|done]. by injection E as _ <-. }
  unfold lift at 1, bind at 1.
  assert (Hbuf : SliceInput.buf s2 = (payload ++ footer_head m a) ++ to_be 8 c).
  { rewrite (Hb _ _ _ E2), (Hb _ _ _ E1). subst s0 file. cbn. by rewrite <- app_assoc. }
  replace (zlen payload + 8) with (zlen (payload ++ footer_head m a))
    by (unfold footer_head; rewrite !zlen_app, !zlen_to_be; lia).
  rewrite (slice_prefix _ _ _ Hbuf).
  rewrite <- (app_nil_r (to_be 8 c)) in Hv2.
  destruct (reads_be_u64 c Hc s2 [] Hi2 Hv2) as (s3 & E3 & _).
  rewrite (bind_Ok _ _ _ _ _ E3). case_bool_decide; [done|].
  case_bool_decide as Hcc; [done|]. unfold ret. by rewrite Hcc.
Qed.

Lemma write_footer_bytes payload :
  write_footer crc payload
  = payload ++ footer_head FOOTER_MAGIC 0 ++ to_be 8 (crc (payload ++ footer_head FOOTER_MAGIC 0)).
Proof.
  unfold write_footer, write_be_u32, write_be_u64, footer_head. cbn [write_bytes VecDataOutput].
  by rewrite <- !app_assoc.
Qed.

(** The last sixteen bytes of a file, taken apart. *)
Lemma file_split (buf : list byte) : bytes_ok buf -> 16 <= zlen buf ->
  exists payload m a c, in_u 32 m /\ in_u 32 a /\ in_u 64 c
    /\ buf = payload ++ footer_head m a ++ to_be 8 c /\ zlen payload = zlen buf - 16.
Proof.
  intros Hok Hl. set (n := Z.to_nat (zlen buf - 16)).
  destruct (footer_split (drop n buf)) as (m & a & c & Hm & Ha & Hc & E).
  - rewrite <- (take_drop n buf) in Hok. by apply Forall_app in Hok as [_ ?].
  - unfold zlen in *. rewrite length_drop. subst n. lia.
  - exists (take n buf), m, a, c. rewrite <- E, take_drop.
    repeat (split; [done|]). unfold zlen in *. rewrite length_take. subst n. lia.
Qed.

Lemma footer_verdict_Ok payload m a c r : in_u 64 c ->
  footer_verdict payload m a c = Ok r <->
  m = FOOTER_MAGIC /\ a = 0 /\ c = crc (payload ++ footer_head m a) /\ r = c.
Proof.
  intros Hc. unfold footer_verdict. split.
  - repeat case_bool_decide; try done. intros [= <-]. done.
  - intros (-> & -> & Hcrc & ->).
    rewrite bool_decide_eq_false_2 by (intros Hn; by apply Hn).
    rewrite bool_decide_eq_false_2 by (intros Hn; by apply Hn).
    rewrite bool_decide_eq_false_2; [by rewrite bool_decide_eq_false_2 by (intros Hn; by apply Hn)|].
    intros Hn. apply Hn, high_mask_0; [done|]. rewrite Hcrc. apply crc_range.
Qed.

(** C39: the footer check accepts a file exactly when [write_footer] could
    have produced it: success with checksum [c] at [payload_end] means the
    file is [write_footer] of its first [payload_end] bytes and [c] is their
    checksum, and every file [write_footer] produces is accepted. *)
Theorem footer_check_sound_and_complete (buf : list byte) (payload_end c : Z) :
  bytes_ok buf -> zlen buf < 2 ^ 63 -> 0 <= payload_end ->
  check_whole_file_footer crc buf payload_end = Ok c <->
  exists payload, buf = write_footer crc payload /\ payload_end = zlen payload
    /\ c = crc (payload ++ footer_head FOOTER_MAGIC 0).
Proof.
  intros Hok Hl Hpe. unfold check_whole_file_footer, bind at 1, SliceInput.seek.
  change (SliceInput.len (SliceInput.new buf)) with (zlen buf).
  destruct (Z.ltb_spec (zlen buf) payload_end) as [Hs|Hs]; cbv iota beta.
  { split; [done|]. intros (payload & -> & -> & _). rewrite write_footer_bytes, zlen_app in Hs.
    pose proof (zlen_nonneg (footer_head FOOTER_MAGIC 0 ++ to_be 8 (crc (payload ++ footer_head FOOTER_MAGIC 0)))). lia. }
  cbn [SliceInput.new SliceInput.buf].
  destruct (Z.eq_dec payload_end (zlen buf - 16)) as [->|Hne].
  - destruct (file_split buf Hok ltac:(lia)) as (payload & m & a & ck & Hm & Ha & Hc & -> & Hp).
    rewrite <- Hp. rewrite (check_footer_verdict payload m a ck) by done.
    rewrite footer_verdict_Ok by done. split.
    + intros (-> & -> & Hcrc & ->). exists payload. rewrite write_footer_bytes, <- Hcrc. done.
    + intros (payload' & E & Hlen & ->). rewrite write_footer_bytes in E.
      apply app_inj_1 in E as [<- E]; [|unfold zlen in Hlen; lia].
      apply app_inj_1 in E as [E1 E2].
      2: { pose proof (zlen_to_be 4 m). pose proof (zlen_to_be 4 a).
           pose proof (zlen_to_be 4 FOOTER_MAGIC). pose proof (zlen_to_be 4 0).
           unfold footer_head. rewrite !length_app. unfold zlen in *. lia. }
      apply (f_equal from_be) in E2. rewrite !from_to_be_id in E2;
        [|apply (in_u_weaken 32); [lia|apply crc_range]|done].
      unfold footer_head in E1. apply app_inj_1 in E1 as [E3 E4].
      2: { pose proof (zlen_to_be 4 m). pose proof (zlen_to_be 4 FOOTER_MAGIC). unfold zlen in *. lia. }
      apply (f_equal from_be) in E3, E4.
      rewrite !from_to_be_id in E3, E4 by (try done; try apply footer_magic_ok; split; lia). subst. done.
  - split.
    + unfold check_footer, FOOTER_LENGTH. destruct (Z.ltb_spec (zlen buf) 16); [done|].
      unfold bind at 1, get_state. cbn [SliceInput.position SliceInput.pos].
      by rewrite bool_decide_eq_true_2.
    + intros (payload & -> & -> & _). destruct Hne. rewrite write_footer_bytes. unfold footer_head.
      rewrite !zlen_app, !zlen_to_be. lia.
Qed.
End footer_proofs.

Lemma footer_check_sound_and_complete_witness :
  check_whole_file_footer ieee_crc32 (write_footer ieee_crc32 [1; 2; 3]) 3
    = Ok (ieee_crc32 ([1; 2; 3] ++ footer_head FOOTER_MAGIC 0)).
Proof.
  assert (Hr := ieee_range).
  apply (footer_check_sound_and_complete ieee_crc32 Hr (write_footer ieee_crc32 [1; 2; 3]) 3).
  - apply bytes_okb_ok. vm_compute. reflexivity.
  - vm_compute. reflexivity.
  - lia.
  - exists [1; 2; 3]. split; [reflexivity|]. split; reflexivity.
Defined.

(** ** The structural check. *)
Lemma retrieve_checksum_fields (payload : list byte) m a c :
  in_u 32 m -> in_u 32 a -> in_u 64 c ->
  let file := payload ++ footer_head m a ++ to_be 8 c in
  bytes_ok file -> zlen file < 2 ^ 63 ->
  retrieve_checksum file =
    (if bool_decide (m <> FOOTER_MAGIC) then Err (Corrupted "codec footer mismatch (file truncated?)")
     else if bool_decide (a <> 0) then Err (Corrupted "codec footer mismatch: unknown algorithmID")
     else if bool_decide (Z.land c 0xFFFFFFFF00000000 <> 0) then Err (Corrupted "Illegal CRC-32 checksum")
     else Ok c).
Proof.
  intros Hm Ha Hc file Hok Hl.
  assert (Hlen : zlen file = zlen payload + 16).
  { subst file. unfold footer_head. rewrite !zlen_app, !zlen_to_be. lia. }
  pose proof (zlen_nonneg payload) as Hpn.
  unfold retrieve_checksum, FOOTER_LENGTH. destruct (Z.ltb_spec (zlen file) 16); [lia|].
  unfold bind at 1, SliceInput.seek. change (SliceInput.len (SliceInput.new file)) with (zlen file).
  destruct (Z.ltb_spec (zlen file) (zlen file - 16)); [lia|]. cbn [SliceInput.new SliceInput.buf].
  set (s0 := SliceInput.mk file (zlen file - 16)).
  assert (Hi0 : SliceInput.inv s0).
  { split; [unfold SliceInput.len; cbn [s0 SliceInput.pos SliceInput.buf]; lia|done]. }
  assert (Hv0 : SliceInput.as_slice s0 = to_be 4 m ++ to_be 4 a ++ to_be 8 c).
  { apply (SliceInput.as_slice_eq _ payload); [|cbn [s0 SliceInput.pos]; lia].
    cbn [s0 SliceInput.buf]. subst file. unfold footer_head. by rewrite <- !app_assoc. }
  destruct (reads_magic m Hm s0 _ Hi0 Hv0) as (s1 & E1 & Hi1 & Hv1). rewrite (bind_Ok _ _ _ _ _ E1).
  case_bool_decide as Hmm; [done|].
  destruct (reads_magic a Ha s1 _ Hi1 Hv1) as (s2 & E2 & Hi2 & Hv2). rewrite (bind_Ok _ _ _ _ _ E2).
  case_bool_decide as Haa; [done|]. rewrite <- (app_nil_r (to_be 8 c)) in Hv2.
  destruct (reads_be_u64 c Hc s2 [] Hi2 Hv2) as (s3 & E3 & _). rewrite (bind_Ok _ _ _ _ _ E3).
  by case_bool_decide.
Qed.

(** [retrieve_checksum_with_expected_length] accepts a file exactly when
    it has the expected length and ends in a well-formed footer, and then
    returns the stored checksum; a truncated or over-long file is refused. *)
Lemma retrieve_checksum_decides (buf : list byte) (expected_length c : Z) :
  bytes_ok buf -> zlen buf < 2 ^ 63 ->
  retrieve_checksum_with_expected_length buf expected_length = Ok c <->
  zlen buf = expected_length
  /\ exists payload, buf = payload ++ footer_head FOOTER_MAGIC 0 ++ to_be 8 c /\ in_u 32 c.
Proof.
  intros Hok Hl. unfold retrieve_checksum_with_expected_length, FOOTER_LENGTH.
  assert (H16 : forall payload, zlen (payload ++ footer_head FOOTER_MAGIC 0 ++ to_be 8 c) = zlen payload + 16).
  { intros payload. unfold footer_head. rewrite !zlen_app, !zlen_to_be. lia. }
  destruct (Z.ltb_spec expected_length 16) as [Hs|Hs].
  { split; [done|]. intros (He & payload & -> & _). rewrite H16 in He. pose proof (zlen_nonneg payload). lia. }
  destruct (Z.ltb_spec (zlen buf) expected_length); [split; [done|lia]|].
  destruct (Z.ltb_spec expected_length (zlen buf)); [split; [done|lia]|].
  split.
  - intros Hr. split; [lia|].
    destruct (file_split buf Hok ltac:(lia)) as (payload & m & a & ck & Hm & Ha & Hc & -> & Hp).
    rewrite retrieve_checksum_fields in Hr by done.
    repeat case_bool_decide; try done. injection Hr as ->. subst.
    exists payload. split; [done|]. by apply high_mask_0.
  - intros (_ & payload & -> & Hc).
    assert (Hc64 : in_u 64 c) by (by apply (in_u_weaken 32)).
    rewrite retrieve_checksum_fields; [|apply footer_magic_ok|split; lia|done|done|done].
    rewrite bool_decide_eq_false_2 by (intros Hn; by apply Hn).
    rewrite bool_decide_eq_false_2 by (intros Hn; by apply Hn).
    rewrite bool_decide_eq_false_2; [done|]. intros Hn. by apply Hn, high_mask_0.
Qed.

Lemma retrieve_checksum_decides_witness :
  retrieve_checksum_with_expected_length (write_footer ieee_crc32 [1; 2]) 18
    = Ok (ieee_crc32 ([1; 2] ++ footer_head FOOTER_MAGIC 0)).
Proof.
  apply (retrieve_checksum_decides (write_footer ieee_crc32 [1; 2]) 18).
  - apply bytes_okb_ok. vm_compute. reflexivity.
  - vm_compute. reflexivity.
  - split; [vm_compute; reflexivity|]. exists [1; 2]. split; [reflexivity|].
    apply wrapu_range. lia.
Defined.
