(* ===== verification/BitWords.v ===== *)
(** Arrays of 64-bit words as sets of bit indices: the bit of an index, how
    word updates change it, and counting and enumerating the bits set.  Shared
    by the bit sets. *)
From S2P Require Import Prelude.

Definition words_ok (ws : list Z) : Prop := Forall (in_u 64) ws.

(** Bit [i] of the array: bit [i mod 64] of word [i / 64]. *)
Definition wbit (ws : list Z) (i : Z) : bool := Z.testbit (at0 ws (i / 64)) (i mod 64).

Lemma shiftr_6 i : Z.shiftr i 6 = i / 64.
Proof. by rewrite Z.shiftr_div_pow2. Qed.

Lemma land_63 i : Z.land i 63 = i mod 64.
Proof. change 63 with (Z.ones 6). by rewrite Z.land_ones. Qed.

Lemma shiftl_6 i : Z.shiftl i 6 = 64 * i.
Proof. rewrite Z.shiftl_mul_pow2 by lia. lia. Qed.

#[export] Hint Rewrite shiftr_6 land_63 shiftl_6 : words.

(** [div_mod i] names the word and offset of [i]. *)
Ltac word_of i q r :=
  let Hq := fresh "Hdm" in let Hr := fresh "Hm" in
  pose proof (Z.div_mod i 64 ltac:(lia)) as Hq;
  pose proof (Z.mod_pos_bound i 64 ltac:(lia)) as Hr;
  set (q := i / 64) in *; set (r := i mod 64) in *.

Lemma word_of_unique i q r : 0 <= r < 64 -> i = 64 * q + r -> i / 64 = q /\ i mod 64 = r.
Proof.
  intros Hr Hi. split; symmetry; [apply (Z.div_unique _ 64 q r)|apply (Z.mod_unique _ 64 q r)]; lia.
Qed.

(** ** Words of an array. *)
Lemma at0_lookup ws i : 0 <= i < zlen ws -> ws !! Z.to_nat i = Some (at0 ws i).
Proof.
  intros. unfold at0. destruct (lookup_lt_is_Some_2 ws (Z.to_nat i)) as [x Hx]; [unfold zlen in *; lia|].
  by rewrite Hx, (nth_lookup_Some _ _ _ _ Hx).
Qed.

Lemma at0_out ws i : zlen ws <= i -> at0 ws i = 0.
Proof. intros. apply nth_overflow. unfold zlen in *. lia. Qed.

Lemma at0_range ws i : words_ok ws -> in_u 64 (at0 ws i).
Proof.
  intros Hw. unfold at0.
  destruct (decide (Z.to_nat i < length ws)%nat) as [Hl|Hl].
  - destruct (lookup_lt_is_Some_2 ws _ Hl) as [x Hx]. rewrite (nth_lookup_Some _ _ _ _ Hx).
    by apply (Forall_lookup_1 _ _ _ _ Hw Hx).
  - rewrite nth_overflow by lia. apply in_u_0. lia.
Qed.

Lemma at0_set ws i v k : 0 <= i < zlen ws -> 0 <= k -> at0 (set_at ws i v) k = if k =? i then v else at0 ws k.
Proof.
  intros Hi Hk. unfold at0, set_at. destruct (Z.eqb_spec k i) as [->|Hne].
  - rewrite (nth_lookup_Some _ _ _ v); [done|]. apply list_lookup_insert_eq. unfold zlen in *. lia.
  - rewrite !nth_lookup, list_lookup_insert_ne by lia. done.
Qed.

Lemma at0_map_range f ws a b k : 0 <= a <= b -> b <= zlen ws -> 0 <= k ->
  at0 (map_range f ws a b) k = if (a <=? k) && (k <? b) then f (at0 ws k) else at0 ws k.
Proof.
  intros Hab Hb Hk. unfold at0, map_range. rewrite Z.max_r by lia. unfold zlen in Hb.
  rewrite !nth_lookup. destruct (Z.leb_spec a k), (Z.ltb_spec k b); cbn [andb].
  - rewrite lookup_app_r, length_take by (rewrite length_take; lia).
    rewrite lookup_app_l by (rewrite List.length_map, length_take, length_drop; lia).
    rewrite list_lookup_fmap, lookup_take_lt, lookup_drop by lia.
    replace (Z.to_nat a + (Z.to_nat k - Z.to_nat a `min` length ws))%nat with (Z.to_nat k) by lia.
    destruct (lookup_lt_is_Some_2 ws (Z.to_nat k)) as [x Hx]; [lia|]. by rewrite Hx.
  - rewrite lookup_app_r, length_take by (rewrite length_take; lia).
    rewrite lookup_app_r, List.length_map, length_take, length_drop
      by (rewrite List.length_map, length_take, length_drop; lia).
    rewrite lookup_drop. do 2 f_equal. lia.
  - rewrite lookup_app_l, lookup_take_lt by (rewrite ?length_take; lia). done.
  - lia.
Qed.

Lemma zlen_map_range {A} (f : A -> A) ws a b : 0 <= a <= b -> b <= zlen ws -> zlen (map_range f ws a b) = zlen ws.
Proof.
  intros. unfold zlen, map_range in *. rewrite !length_app, List.length_map, !length_take, !length_drop. lia.
Qed.

Lemma words_ok_set ws i v : words_ok ws -> in_u 64 v -> words_ok (set_at ws i v).
Proof. intros. by apply Forall_insert. Qed.

Lemma words_ok_map_range f ws a b : words_ok ws -> (forall w, in_u 64 w -> in_u 64 (f w)) ->
  words_ok (map_range f ws a b).
Proof.
  intros Hw Hf. unfold map_range. apply Forall_app. split; [by apply Forall_take|].
  apply Forall_app. split; [|by apply Forall_drop]. apply Forall_fmap.
  eapply Forall_impl; [|apply Forall_take, Forall_drop, Hw]. intros x. apply Hf.
Qed.

Lemma wbit_set ws k v i : 0 <= k < zlen ws -> 0 <= i ->
  wbit (set_at ws k v) i = if i / 64 =? k then Z.testbit v (i mod 64) else wbit ws i.
Proof.
  intros Hk Hi. unfold wbit. rewrite at0_set by (try apply Z.div_pos; lia). by destruct (_ =? _).
Qed.

Lemma wbit_out ws i : 64 * zlen ws <= i -> wbit ws i = false.
Proof.
  intros. unfold wbit. rewrite at0_out; [apply Z.testbit_0_l|]. apply Z.div_le_lower_bound; lia.
Qed.

(** ** Parts of an array. *)
Lemma at0_take ws n k : 0 <= k < Z.of_nat n -> at0 (take n ws) k = at0 ws k.
Proof. intros. unfold at0. rewrite !nth_lookup, lookup_take_lt by lia. done. Qed.

Lemma at0_drop ws n k : 0 <= n -> 0 <= k -> at0 (drop (Z.to_nat n) ws) k = at0 ws (n + k).
Proof. intros. unfold at0. rewrite !nth_lookup, lookup_drop. do 2 f_equal. lia. Qed.

(** A block of words replaced. *)
Lemma at0_splice ws a d' k : 0 <= a -> a + zlen d' <= zlen ws -> 0 <= k ->
  at0 (take (Z.to_nat a) ws ++ d' ++ drop (Z.to_nat (a + zlen d')) ws) k
  = if (a <=? k) && (k <? a + zlen d') then at0 d' (k - a) else at0 ws k.
Proof.
  intros Ha Hl Hk. unfold at0, zlen in *. rewrite !nth_lookup.
  destruct (Z.leb_spec a k), (Z.ltb_spec k (a + Z.of_nat (length d'))); cbn [andb].
  - rewrite lookup_app_r, length_take by (rewrite length_take; lia). rewrite lookup_app_l by lia.
    do 2 f_equal. lia.
  - rewrite lookup_app_r, length_take by (rewrite length_take; lia). rewrite lookup_app_r by lia.
    rewrite lookup_drop. do 2 f_equal. lia.
  - rewrite lookup_app_l, lookup_take_lt by (rewrite ?length_take; lia). done.
  - lia.
Qed.

Lemma zlen_splice (ws d' : list Z) a : 0 <= a -> a + zlen d' <= zlen ws ->
  zlen (take (Z.to_nat a) ws ++ d' ++ drop (Z.to_nat (a + zlen d')) ws) = zlen ws.
Proof. intros. unfold zlen in *. rewrite !length_app, length_take, length_drop. lia. Qed.

(** Arrays of the same words are the same array. *)
Lemma words_ext ws ws' : zlen ws = zlen ws' -> (forall k, 0 <= k < zlen ws -> at0 ws k = at0 ws' k) -> ws = ws'.
Proof.
  intros Hl He. apply list_eq. intros n. destruct (decide (n < length ws)%nat).
  - pose proof (at0_lookup ws (Z.of_nat n)) as H1. pose proof (at0_lookup ws' (Z.of_nat n)) as H2.
    rewrite Nat2Z.id in *. rewrite H1, H2 by (unfold zlen in *; lia).
    f_equal. apply He. unfold zlen. lia.
  - rewrite !lookup_ge_None_2; [done| |]; unfold zlen in *; lia.
Qed.

Lemma wbit_ext ws ws' : words_ok ws -> words_ok ws' -> zlen ws = zlen ws' ->
  (forall i, 0 <= i -> wbit ws i = wbit ws' i) -> ws = ws'.
Proof.
  intros Hw Hw' Hl He. apply words_ext; [done|]. intros k Hk. apply Z.bits_inj'. intros i Hi.
  pose proof (at0_range ws k Hw). pose proof (at0_range ws' k Hw').
  destruct (Z.ltb_spec i 64).
  - specialize (He (64 * k + i) ltac:(lia)). unfold wbit in He.
    destruct (word_of_unique (64 * k + i) k i) as [E1 E2]; [lia|lia|]. by rewrite E1, E2 in He.
  - by rewrite !(testbit_above 64) by done.
Qed.

(** ** Counting. *)
Fixpoint count (P : Z -> bool) (lo : Z) (n : nat) : Z :=
  match n with
  | O => 0
  | S k => Z.b2z (P lo) + count P (lo + 1) k
  end.

Lemma count_ext P Q lo n : (forall i, lo <= i < lo + Z.of_nat n -> P i = Q i) -> count P lo n = count Q lo n.
Proof.
  revert lo. induction n as [|n IH]; intros lo H; [done|]. cbn [count].
  rewrite (H lo) by lia. f_equal. apply IH. intros. apply H. lia.
Qed.

Lemma count_app P lo n m : count P lo (n + m) = count P lo n + count P (lo + Z.of_nat n) m.
Proof.
  revert lo. induction n as [|n IH]; intros lo; cbn [count Nat.add].
  - by replace (lo + Z.of_nat 0) with lo by lia.
  - rewrite IH. replace (lo + 1 + Z.of_nat n) with (lo + Z.of_nat (S n)) by lia. lia.
Qed.

Lemma count_false P lo n : (forall i, lo <= i < lo + Z.of_nat n -> P i = false) -> count P lo n = 0.
Proof.
  revert lo. induction n as [|n IH]; intros lo H; [done|]. cbn [count].
  rewrite (H lo) by lia. rewrite IH; [done|]. intros. apply H. lia.
Qed.

Lemma count_shift P d lo n : count (fun i => P (i + d)) lo n = count P (lo + d) n.
Proof.
  revert lo. induction n as [|n IH]; intros lo; [done|]. cbn [count]. rewrite IH.
  by replace (lo + 1 + d) with (lo + d + 1) by lia.
Qed.

Lemma count_range P lo n : 0 <= count P lo n <= Z.of_nat n.
Proof.
  revert lo. induction n as [|n IH]; intros lo; [simpl; lia|]. cbn [count].
  specialize (IH (lo + 1)). destruct (P lo); simpl Z.b2z; lia.
Qed.

Lemma count_ones_double w : 0 <= w -> count_ones w = Z.b2z (Z.testbit w 0) + count_ones (Z.shiftr w 1).
Proof.
  intros Hw. destruct w as [|[p|p|]|]; [done|done|done|done|lia].
Qed.

Lemma count_ones_count n w : in_u (Z.of_nat n) w -> count_ones w = count (Z.testbit w) 0 n.
Proof.
  revert w. induction n as [|n IH]; intros w Hw.
  - assert (w = 0) as -> by (destruct Hw; simpl in *; lia). done.
  - rewrite count_ones_double by apply Hw. cbn [count]. f_equal.
    rewrite IH.
    + rewrite <- (count_shift (Z.testbit w) 1 0). apply count_ext. intros i Hi. rewrite Z.shiftr_spec by lia. done.
    + destruct Hw as [H1 H2]. rewrite Z.shiftr_div_pow2 by lia. split; [apply Z.div_pos; lia|].
      apply Z.div_lt_upper_bound; [lia|]. rewrite <- Z.pow_add_r by lia.
      by replace (1 + Z.of_nat n) with (Z.of_nat (S n)) by lia.
Qed.

Lemma count_word (P : Z -> bool) w k : in_u 64 w ->
  (forall i, 0 <= i < 64 -> P (64 * k + i) = Z.testbit w i) ->
  count P (64 * k) 64 = count_ones w.
Proof.
  intros Hw HP. rewrite (count_ones_count 64) by done.
  rewrite <- (Z.add_0_l (64 * k)), <- count_shift. apply count_ext. intros i Hi.
  rewrite <- HP by lia. f_equal. lia.
Qed.

(** ** Trailing and leading zeros. *)
Lemma ctz_pos_spec p : 0 <= ctz_pos p /\ Z.testbit (Zpos p) (ctz_pos p) = true
  /\ forall i, 0 <= i < ctz_pos p -> Z.testbit (Zpos p) i = false.
Proof.
  induction p as [p _|p (IH0 & IH1 & IH2)|]; cbn [ctz_pos].
  - split; [lia|]. split; [done|lia].
  - assert (Hd : forall i, 1 <= i -> Z.testbit (Zpos (xO p)) i = Z.testbit (Zpos p) (i - 1)).
    { intros i Hi. change (Zpos (xO p)) with (2 * Zpos p).
      rewrite <- (Z.succ_pred i) at 1. rewrite Z.double_bits_succ. f_equal. }
    split; [lia|]. split.
    + rewrite Hd by lia. by replace (1 + ctz_pos p - 1) with (ctz_pos p) by lia.
    + intros i Hi. destruct (Z.eq_dec i 0) as [->|]; [done|]. rewrite Hd by lia. apply IH2. lia.
  - split; [lia|]. split; [done|lia].
Qed.

Lemma trailing_zeros_spec w x : in_u w x -> x <> 0 ->
  0 <= trailing_zeros w x < w /\ Z.testbit x (trailing_zeros w x) = true
  /\ forall i, 0 <= i < trailing_zeros w x -> Z.testbit x i = false.
Proof.
  intros Hx Hne. destruct x as [|p|p]; [done| |destruct Hx; lia]. cbn [trailing_zeros].
  destruct (ctz_pos_spec p) as (H0 & H1 & H2). split; [|done]. split; [done|].
  destruct (Z.ltb_spec (ctz_pos p) w); [done|]. by rewrite (testbit_above w) in H1 by done.
Qed.

Lemma trailing_zeros_unique w x k : in_u w x -> 0 <= k -> Z.testbit x k = true ->
  (forall i, 0 <= i < k -> Z.testbit x i = false) -> trailing_zeros w x = k.
Proof.
  intros Hx Hk Hb Hz. assert (x <> 0) as Hne by (intros ->; by rewrite Z.testbit_0_l in Hb).
  destruct (trailing_zeros_spec w x Hx Hne) as (H1 & H2 & H3).
  destruct (Z.lt_trichotomy (trailing_zeros w x) k) as [Hl|[He|Hl]]; [|done|].
  - by rewrite Hz in H2 by lia.
  - by rewrite H3 in Hb by lia.
Qed.

Lemma log2_bits x : 0 < x -> Z.testbit x (Z.log2 x) = true /\ forall i, Z.log2 x < i -> Z.testbit x i = false.
Proof. intros. split; [by apply Z.bit_log2|]. intros. by apply Z.bits_above_log2; lia. Qed.

Lemma leading_zeros_log2 w x : in_u w x -> x <> 0 -> w - 1 - leading_zeros w x = Z.log2 x /\ 0 <= Z.log2 x < w.
Proof.
  intros [H1 H2] Hne. unfold leading_zeros. destruct (Z.eqb_spec x 0); [done|].
  split; [lia|]. split; [apply Z.log2_nonneg|]. apply Z.log2_lt_pow2; lia.
Qed.

(** Clearing the lowest set bit. *)
Lemma clear_lowest x k i : 0 <= x -> 0 <= k -> Z.testbit x k = true ->
  (forall j, 0 <= j < k -> Z.testbit x j = false) ->
  Z.testbit (Z.land x (x - 1)) i = Z.testbit x i && negb (i =? k).
Proof.
  intros Hx Hk Hb Hz. destruct (Z.ltb_spec i 0); [by rewrite !Z.testbit_neg_r|].
  assert (E : x = Z.lor (Z.shiftl (Z.shiftr x (k + 1)) (k + 1)) (2 ^ k)).
  { apply Z.bits_inj'. intros j Hj. rewrite Z.lor_spec, testbit_shiftl, testbit_shiftr, testbit_pow2 by lia.
    destruct (Z.leb_spec 0 j); [|lia]. destruct (Z.leb_spec 0 (j - (k + 1))), (Z.eqb_spec j k); try lia; simpl.
    - replace (j - (k + 1) + (k + 1)) with j by lia. by rewrite orb_false_r.
    - subst. by rewrite Hb.
    - by rewrite Hz by lia. }
  set (q := Z.shiftr x (k + 1)) in *.
  assert (E1 : x - 1 = Z.lor (Z.shiftl q (k + 1)) (Z.ones k)).
  { rewrite E at 1. rewrite !lor_disjoint_add.
    - rewrite Z.ones_equiv. lia.
    - bits_solve.
    - bits_solve. }
  rewrite Z.land_spec, E1. rewrite E at 1 2. rewrite !Z.lor_spec, !testbit_shiftl, testbit_pow2, testbit_ones by lia.
  destruct (Z.leb_spec 0 i), (Z.eqb_spec i k), (Z.ltb_spec i k); try lia; simpl;
    rewrite ?(Z.testbit_neg_r q) by lia; simpl; btauto.
Qed.

(** ** Enumeration. *)

(** The indices of [[lo, lo + n)] that satisfy [P], ascending. *)
Fixpoint members (P : Z -> bool) (lo : Z) (n : nat) : list Z :=
  match n with
  | O => []
  | S k => (if P lo then [lo] else []) ++ members P (lo + 1) k
  end.

Lemma members_ext P Q lo n : (forall i, lo <= i < lo + Z.of_nat n -> P i = Q i) -> members P lo n = members Q lo n.
Proof.
  revert lo. induction n as [|n IH]; intros lo H; [done|]. cbn [members].
  rewrite (H lo) by lia. f_equal. apply IH. intros. apply H. lia.
Qed.

Lemma members_app P lo n m : members P lo (n + m) = members P lo n ++ members P (lo + Z.of_nat n) m.
Proof.
  revert lo. induction n as [|n IH]; intros lo; cbn [members Nat.add].
  - by replace (lo + Z.of_nat 0) with lo by lia.
  - rewrite IH, <- app_assoc. by replace (lo + 1 + Z.of_nat n) with (lo + Z.of_nat (S n)) by lia.
Qed.

Lemma members_false P lo n : (forall i, lo <= i < lo + Z.of_nat n -> P i = false) -> members P lo n = [].
Proof.
  revert lo. induction n as [|n IH]; intros lo H; [done|]. cbn [members].
  rewrite (H lo) by lia. apply IH. intros. apply H. lia.
Qed.

(** The part of a wider search that lies in a range. *)
Lemma members_inside P lo from to n : lo <= from <= to -> to <= lo + Z.of_nat n ->
  members (fun i => P i && ((from <=? i) && (i <? to))) lo n = members P from (Z.to_nat (to - from)).
Proof.
  intros H1 H2.
  replace n with (Z.to_nat (from - lo) + (Z.to_nat (to - from) + Z.to_nat (lo + Z.of_nat n - to)))%nat by lia.
  rewrite members_app, members_app, (members_false _ lo), (members_false _ (_ + _ + _)).
  - rewrite app_nil_r. cbn [app]. replace (lo + Z.of_nat (Z.to_nat (from - lo))) with from by lia.
    apply members_ext. intros i Hi. replace ((from <=? i) && (i <? to)) with true by bool_lia. apply andb_true_r.
  - intros i Hi. replace ((from <=? i) && (i <? to)) with false by bool_lia. apply andb_false_r.
  - intros i Hi. replace ((from <=? i) && (i <? to)) with false by bool_lia. apply andb_false_r.
Qed.

Lemma members_length P lo n : zlen (members P lo n) = count P lo n.
Proof.
  revert lo. induction n as [|n IH]; intros lo; [done|]. cbn [members count].
  rewrite zlen_app, IH. by destruct (P lo).
Qed.

Lemma members_spec P lo n i : i ∈ members P lo n <-> lo <= i < lo + Z.of_nat n /\ P i = true.
Proof.
  revert lo. induction n as [|n IH]; intros lo; cbn [members].
  - split; [intros H; by apply not_elem_of_nil in H|lia].
  - rewrite elem_of_app, IH. destruct (P lo) eqn:E.
    + rewrite list_elem_of_singleton. split; [intros [->|]; [split; [lia|done]|split; [lia|tauto]]|].
      intros [? ?]. destruct (Z.eq_dec i lo); [by left|right; split; [lia|done]].
    + split; [intros [H|]; [by apply not_elem_of_nil in H|split; [lia|tauto]]|].
      intros [? ?]. right. split; [|done]. destruct (Z.eq_dec i lo); [congruence|lia].
Qed.
