(* ===== verification/FixedBitSet.v ===== *)
(** [FixedBitSet] ([crates/lucene-util/src/fixed_bit_set.rs]) and the word
    population counts it uses ([crates/lucene-util/src/popcount.rs]): every
    operation, over a list of 64-bit words.  [None] is a panic (an [assert!],
    or an index out of range).  The proofs are in [FixedBitSetSpec.v]. *)
From stdpp Require Import strings.
From S2P Require Import Prelude.

Module FixedBitSet.

Definition MAX64 : Z := Z.ones 64.

Definition bits2words (num_bits : Z) : Z :=
  if num_bits =? 0 then 0 else Z.shiftr (num_bits - 1) 6 + 1.

Definition ghost_bits_clear (words : list Z) (num_bits : Z) : bool :=
  if Z.land num_bits 0x3f =? 0 then true
  else Z.land (at0 words (bits2words num_bits - 1)) (shlu 64 MAX64 (Z.land num_bits 0x3f)) =? 0.

(** The table's entry [k]: bits [k..64] set. *)
Definition FROM_BIT (k : Z) : Z := shlu 64 MAX64 k.

(** The loop of [next_set_bit]: [word] is word [i], [rest] the words after. *)
Fixpoint scan_set (rest : list Z) (i word : Z) : option Z :=
  if negb (word =? 0) then Some (Z.shiftl i 6 + trailing_zeros 64 word)
  else match rest with
       | [] => None
       | w :: rest' => scan_set rest' (i + 1) w
       end.

Definition next_set_bit_in_words (words : list Z) (from : Z) : option Z :=
  let i := Z.shiftr from 6 in
  match zget words i with
  | None => None
  | Some w => scan_set (drop (Z.to_nat (i + 1)) words) i (Z.land w (FROM_BIT (Z.land from 63)))
  end.

Fixpoint scan_clear (rest : list Z) (end_ i word : Z) : Z :=
  if negb (word =? MAX64) then Z.shiftl i 6 + trailing_zeros 64 (notu 64 word)
  else match rest with
       | [] => end_
       | w :: rest' => scan_clear rest' end_ (i + 1) w
       end.

Definition next_clear_bit_in_words (words : list Z) (from : Z) : Z :=
  let end_ := zlen words * 64 in
  if end_ <=? from then end_
  else let i := Z.shiftr from 6 in
       scan_clear (drop (Z.to_nat (i + 1)) words) end_ i
         (Z.lor (at0 words i) (notu 64 (FROM_BIT (Z.land from 63)))).

(** ** [popcount::words] and [popcount::zip]: the scalar kernels, four
    accumulators over whole chunks of four, then the remainder. *)
Fixpoint scalar_loop (words : list Z) (a0 a1 a2 a3 : Z) : Z :=
  match words with
  | w0 :: w1 :: w2 :: w3 :: rest =>
      scalar_loop rest (a0 + count_ones w0) (a1 + count_ones w1)
                       (a2 + count_ones w2) (a3 + count_ones w3)
  | remainder =>
      let tail := fold_left (fun s w => s + count_ones w) remainder 0 in
      fold_left Z.add [a0; a1; a2; a3] tail
  end.
Definition popcount_words (words : list Z) : Z := scalar_loop words 0 0 0 0.

Inductive Op : Type := And | Or | AndNot.
Definition apply_op (op : Op) (x y : Z) : Z :=
  match op with
  | And => Z.land x y
  | Or => Z.lor x y
  | AndNot => Z.land x (notu 64 y)
  end.
Definition popcount_zip (a b : list Z) (op : Op) : Z := popcount_words (zip_with (apply_op op) a b).

(** ** The type. *)
Record t : Type := mk { words : list Z; num_bits : Z }.

Definition from_words (ws : list Z) (n : Z) : option t :=
  if zlen ws <? bits2words n then None else Some (mk ws n).
Definition new (n : Z) : t := mk (replicate (Z.to_nat (bits2words n)) 0) n.
Definition len (s : t) : Z := num_bits s.
Definition is_empty (s : t) : bool := num_bits s =? 0.

(** [words[i] = f(words[i])]. *)
Definition upd (ws : list Z) (i : Z) (f : Z -> Z) : list Z := set_at ws i (f (at0 ws i)).

Definition get (s : t) (index : Z) : option bool :=
  if num_bits s <=? index then None
  else Some (negb (Z.land (Z.shiftr (at0 (words s) (Z.shiftr index 6)) (Z.land index 63)) 1 =? 0)).

(** [get_doc(doc: i32)]. *)
Definition get_doc (s : t) (doc : Z) : bool :=
  if doc <? 0 then false
  else if doc <? len s then match get s doc with Some b => b | None => false end
  else false.

Definition bit_mask (index : Z) : Z := shlu 64 1 (Z.land index 63).

Definition set (s : t) (index : Z) : option t :=
  if num_bits s <=? index then None
  else Some (mk (upd (words s) (Z.shiftr index 6) (fun w => Z.lor w (bit_mask index))) (num_bits s)).

Definition clear (s : t) (index : Z) : option t :=
  if num_bits s <=? index then None
  else Some (mk (upd (words s) (Z.shiftr index 6) (fun w => Z.land w (notu 64 (bit_mask index)))) (num_bits s)).

Definition clear_all (s : t) : t := mk (map (fun _ => 0) (words s)) (num_bits s).
Definition cardinality (s : t) : Z := popcount_words (words s).

Definition next_set_bit (s : t) (index : Z) : option Z :=
  if num_bits s <=? index then None
  else let i := Z.shiftr index 6 in
       scan_set (drop (Z.to_nat (i + 1)) (words s)) i
         (Z.land (at0 (words s) i) (FROM_BIT (Z.land index 63))).

(** [while bits != 0 { f((w << 6) | tz); bits &= bits - 1 }]: the calls, in
    order.  64 rounds empty any word. *)
Fixpoint word_bits (fuel : nat) (w bits : Z) : list Z :=
  match fuel with
  | O => []
  | Datatypes.S k =>
      if bits =? 0 then []
      else Z.lor (Z.shiftl w 6) (trailing_zeros 64 bits) :: word_bits k w (Z.land bits (bits - 1))
  end.

Fixpoint each_word_bits (w : Z) (ws : list Z) : list Z :=
  match ws with
  | [] => []
  | word :: rest => word_bits 64 w word ++ each_word_bits (w + 1) rest
  end.
Definition for_each_set_bit (s : t) : list Z := each_word_bits 0 (words s).

(** Word-wise combination of the common prefix. *)
Fixpoint zip_words (f : Z -> Z -> Z) (a b : list Z) : list Z :=
  match a, b with
  | x :: a', y :: b' => f x y :: zip_words f a' b'
  | _, _ => a
  end.

Definition or (s other : t) : option t :=
  if num_bits s <? num_bits other then None
  else Some (mk (zip_words Z.lor (words s) (words other)) (num_bits s)).

Definition and (s other : t) : t :=
  let n := Nat.min (length (words s)) (length (words other)) in
  mk (zip_with Z.land (words s) (words other) ++ map (fun _ => 0) (drop n (words s))) (num_bits s).

Definition and_not (s other : t) : t :=
  mk (zip_words (fun a b => Z.land a (notu 64 b)) (words s) (words other)) (num_bits s).

(** [merge_words_at]: the answer, and the set. *)
Definition merge_words_at (s : t) (word_offset : Z) (ws : list Z) (op : Z -> Z -> Z) : option (bool * t) :=
  let own := bits2words (num_bits s) in
  let fit := Z.min (Z.max (own - word_offset) 0) (zlen ws) in
  let in_range := forallb (fun w => w =? 0) (drop (Z.to_nat fit) ws) in
  if fit =? 0 then Some (in_range, s)
  else match zslice (words s) word_offset (word_offset + fit) with
       | None => None
       | Some dst =>
           let head := zip_words op (take (Z.to_nat (fit - 1)) dst) (take (Z.to_nat (fit - 1)) ws) in
           let last := at0 ws (fit - 1) in
           let '(in_range, last) :=
             if (word_offset + fit =? own) && negb (Z.land (num_bits s) 63 =? 0) then
               let keep := shlu 64 1 (Z.land (num_bits s) 63) - 1 in
               (in_range && (Z.land last (notu 64 keep) =? 0), Z.land last keep)
             else (in_range, last) in
           let dst' := head ++ [op (at0 dst (fit - 1)) last] in
           Some (in_range,
                 mk (take (Z.to_nat word_offset) (words s) ++ dst'
                     ++ drop (Z.to_nat (word_offset + fit)) (words s)) (num_bits s))
       end.

Definition or_words_at (s : t) (word_offset : Z) (ws : list Z) : option (bool * t) :=
  merge_words_at s word_offset ws Z.lor.
Definition and_not_words_at (s : t) (word_offset : Z) (ws : list Z) : option (bool * t) :=
  merge_words_at s word_offset ws (fun a b => Z.land a (notu 64 b)).

Definition intersection_count (a b : t) : Z := popcount_zip (words a) (words b) And.

(** ** Ranges, flips, counts. *)
Definition check (s : t) (index : Z) : bool := negb (num_bits s <=? index).

Definition range_masks (start end_ : Z) : Z * Z :=
  (shlu 64 MAX64 (Z.land start 63), Z.shiftr MAX64 (Z.land (64 - Z.land end_ 63) 63)).

Definition get_and_set (s : t) (index : Z) : option (bool * t) :=
  if check s index then
    let mask := bit_mask index in
    let was := negb (Z.land (at0 (words s) (Z.shiftr index 6)) mask =? 0) in
    Some (was, mk (upd (words s) (Z.shiftr index 6) (fun w => Z.lor w mask)) (num_bits s))
  else None.

Definition get_and_clear (s : t) (index : Z) : option (bool * t) :=
  if check s index then
    let mask := bit_mask index in
    let was := negb (Z.land (at0 (words s) (Z.shiftr index 6)) mask =? 0) in
    Some (was, mk (upd (words s) (Z.shiftr index 6) (fun w => Z.land w (notu 64 mask))) (num_bits s))
  else None.

Definition flip (s : t) (index : Z) : option t :=
  if check s index then
    Some (mk (upd (words s) (Z.shiftr index 6) (fun w => Z.lxor w (bit_mask index))) (num_bits s))
  else None.

Definition flip_range (s : t) (start end_ : Z) : option t :=
  if end_ <=? start then Some s
  else if num_bits s <? end_ then None
  else
    let sw := Z.shiftr start 6 in let ew := Z.shiftr (end_ - 1) 6 in
    let '(startmask, endmask) := range_masks start end_ in
    let ws := words s in
    if sw =? ew then Some (mk (upd ws sw (fun w => Z.lxor w (Z.land startmask endmask))) (num_bits s))
    else
      let ws := upd ws sw (fun w => Z.lxor w startmask) in
      let ws := map_range (notu 64) ws (sw + 1) ew in
      let ws := upd ws ew (fun w => Z.lxor w endmask) in
      Some (mk ws (num_bits s)).

Definition set_range (s : t) (start end_ : Z) : option t :=
  if end_ <=? start then Some s
  else if num_bits s <? end_ then None
  else
    let sw := Z.shiftr start 6 in let ew := Z.shiftr (end_ - 1) 6 in
    let '(startmask, endmask) := range_masks start end_ in
    let ws := words s in
    if sw =? ew then Some (mk (upd ws sw (fun w => Z.lor w (Z.land startmask endmask))) (num_bits s))
    else
      let ws := upd ws sw (fun w => Z.lor w startmask) in
      let ws := map_range (fun _ => MAX64) ws (sw + 1) ew in
      let ws := upd ws ew (fun w => Z.lor w endmask) in
      Some (mk ws (num_bits s)).

Definition clear_range (s : t) (start end_ : Z) : option t :=
  if end_ <=? start then Some s
  else if num_bits s <? end_ then None
  else
    let sw := Z.shiftr start 6 in let ew := Z.shiftr (end_ - 1) 6 in
    let '(startmask, endmask) := range_masks start end_ in
    let startmask := notu 64 startmask in let endmask := notu 64 endmask in
    let ws := words s in
    if sw =? ew then Some (mk (upd ws sw (fun w => Z.land w (Z.lor startmask endmask))) (num_bits s))
    else
      let ws := upd ws sw (fun w => Z.land w startmask) in
      let ws := map_range (fun _ => 0) ws (sw + 1) ew in
      let ws := upd ws ew (fun w => Z.land w endmask) in
      Some (mk ws (num_bits s)).

(** [while i > 0 { i -= 1; .. }]: [fuel] is [i]. *)
Fixpoint scan_back (ws : list Z) (i : nat) : option Z :=
  match i with
  | O => None
  | Datatypes.S k =>
      let word := at0 ws (Z.of_nat k) in
      if negb (word =? 0) then Some (Z.shiftl (Z.of_nat k) 6 + 63 - leading_zeros 64 word)
      else scan_back ws k
  end.

(** The outer [option] is the panic, the inner one Java's [-1]. *)
Definition prev_set_bit (s : t) (index : Z) : option (option Z) :=
  if check s index then
    let i := Z.shiftr index 6 in
    let sub := Z.land index 63 in
    let word := shlu 64 (at0 (words s) i) (63 - sub) in
    Some (if negb (word =? 0) then Some (Z.shiftl i 6 + sub - leading_zeros 64 word)
          else scan_back (words s) (Z.to_nat i))
  else None.

Definition next_set_bit_in_range (s : t) (start upper_bound : Z) : option Z :=
  let ub := Z.min upper_bound (num_bits s) in
  if ub <=? start then None
  else match next_set_bit_in_words (take (Z.to_nat (bits2words ub)) (words s)) start with
       | Some b => if b <? ub then Some b else None
       | None => None
       end.

Definition next_clear_bit_in_range (s : t) (start upper_bound : Z) : option Z :=
  if Z.min upper_bound (num_bits s) <=? start then None
  else
    let ub := Z.min upper_bound (num_bits s) in
    let b := next_clear_bit_in_words (take (Z.to_nat (bits2words ub)) (words s)) start in
    if b <? ub then Some b else None.

Definition next_clear_bit (s : t) (index : Z) : option Z := next_clear_bit_in_range s index (num_bits s).

Definition cardinality_range (s : t) (from to : Z) : option Z :=
  if negb ((from <=? to) && (to <=? num_bits s)) then None
  else if from =? to then Some 0
  else
    let fw := Z.shiftr from 6 in let tw := Z.shiftr (to - 1) 6 in
    let '(startmask, endmask) := range_masks from to in
    if fw =? tw then Some (count_ones (Z.land (Z.land (at0 (words s) fw) startmask) endmask))
    else Some (count_ones (Z.land (at0 (words s) fw) startmask)
               + popcount_words (take (Z.to_nat (tw - (fw + 1))) (drop (Z.to_nat (fw + 1)) (words s)))
               + count_ones (Z.land (at0 (words s) tw) endmask)).

(** [approximate_cardinality]: the sampling loop; [fuel] intervals. *)
Fixpoint sample_loop (fuel : nat) (ws : list Z) (pop max_word : Z) : Z * Z :=
  match fuel with
  | O => (pop, max_word)
  | Datatypes.S k =>
      if max_word + 1024 <? zlen ws then
        let block := take 16 (drop (Z.to_nat max_word) ws) in
        sample_loop k ws (fold_left (fun p w => p + count_ones w) block pop) (max_word + 1024)
      else (pop, max_word)
  end.

Definition approximate_cardinality (s : t) : Z :=
  let num_words := zlen (words s) in
  if num_words <=? 1024 then cardinality s
  else
    let '(pop, max_word) := sample_loop (length (words s)) (words s) 0 0 in
    let pop := wraps 64 (pop * (Z.quot ((1024 / 16) * num_words) max_word)) in
    wrapu 64 (wraps 32 pop).

Definition union_count (a b : t) : Z :=
  let n := Nat.min (length (words a)) (length (words b)) in
  popcount_zip (words a) (words b) Or
  + popcount_words (drop n (words a)) + popcount_words (drop n (words b)).

Definition and_not_count (a b : t) : Z :=
  let n := Nat.min (length (words a)) (length (words b)) in
  popcount_zip (words a) (words b) AndNot + popcount_words (drop n (words a)).

Definition xor (s other : t) : option t :=
  if zlen (words s) <? zlen (words other) then None
  else Some (mk (zip_words Z.lxor (words s) (words other)) (num_bits s)).

Definition intersects (s other : t) : bool :=
  existsb (fun w => negb (w =? 0)) (zip_with Z.land (words s) (words other)).

Definition scan_is_empty (s : t) : bool := forallb (fun w => w =? 0) (words s).

(** A sum that overflows [usize] panics one way or another, like the assert. *)
Definition or_mask (s : t) (start_bit mask mask_len : Z) : option t :=
  if num_bits s <? start_bit + mask_len then None
  else
    let w := Z.shiftr start_bit 6 in
    let off := Z.land start_bit 63 in
    if zlen (words s) <=? w then None
    else
      let ws := upd (words s) w (fun x => Z.lor x (shlu 64 mask off)) in
      if 64 <? off + mask_len then
        if zlen ws <=? w + 1 then None
        else Some (mk (upd ws (w + 1) (fun x => Z.lor x (Z.shiftr mask (64 - off)))) (num_bits s))
      else Some (mk ws (num_bits s)).

Definition bits_at (s : t) (from n : Z) : Z :=
  let w := Z.shiftr from 6 in let sh := Z.land from 63 in
  let v := Z.shiftr (at0 (words s) w) sh in
  let v := if 64 <? sh + n then Z.lor v (shlu 64 (at0 (words s) (w + 1)) (64 - sh)) else v in
  if n <? 64 then Z.land v (shlu 64 1 n - 1) else v.

(** The whole-word part of [range_op]: [windows(2)] when the source is not
    aligned. *)
Fixpoint combine_shifted (word : Z -> Z -> Z) (shift : Z) (d src : list Z) : list Z :=
  match d, src with
  | x :: d', y0 :: ((y1 :: _) as src') =>
      word x (Z.lor (Z.shiftr y0 shift) (shlu 64 y1 (64 - shift))) :: combine_shifted word shift d' src'
  | _, _ => d
  end.

(** [range_op] past the alignment of [dest_from]: the whole words, then the
    tail. *)
Definition range_words (source : t) (source_from : Z) (dw : list Z) (dest_from length : Z)
    (head : Z -> Z -> Z -> Z -> Z) (word : Z -> Z -> Z) : list Z :=
  let full := Z.shiftr length 6 in
  let sw := Z.shiftr source_from 6 in let dwi := Z.shiftr dest_from 6 in
  let d := take (Z.to_nat full) (drop (Z.to_nat dwi) dw) in
  let shift := Z.land source_from 63 in
  let d' :=
    if shift =? 0 then zip_words word d (take (Z.to_nat full) (drop (Z.to_nat sw) (words source)))
    else if 0 <? full then
      combine_shifted word shift d (take (Z.to_nat (full + 1)) (drop (Z.to_nat sw) (words source)))
    else d in
  let dw := take (Z.to_nat dwi) dw ++ d' ++ drop (Z.to_nat (dwi + full)) dw in
  let source_from := source_from + Z.shiftl full 6 in
  let dest_from := dest_from + Z.shiftl full 6 in
  let length := length - Z.shiftl full 6 in
  if 0 <? length then
    upd dw (Z.shiftr dest_from 6) (fun x => head x (bits_at source source_from length) 0 length)
  else dw.

Definition range_op (source : t) (source_from : Z) (dest : t) (dest_from length : Z)
    (head : Z -> Z -> Z -> Z -> Z) (word : Z -> Z -> Z) : option t :=
  let fits from n := match checked_add from length with Some e => e <=? n | None => false end in
  if negb (fits source_from (len source) && fits dest_from (len dest)) then None
  else if length =? 0 then Some dest
  else if negb (Z.land dest_from 63 =? 0) then
    let n := Z.min (64 - Z.land dest_from 63) length in
    let bits := bits_at source source_from n in
    let dw := upd (words dest) (Z.shiftr dest_from 6) (fun x => head x bits (Z.land dest_from 63) n) in
    if length - n =? 0 then Some (mk dw (num_bits dest))
    else Some (mk (range_words source (source_from + n) dw (dest_from + n) (length - n) head word)
                  (num_bits dest))
  else Some (mk (range_words source source_from (words dest) dest_from length head word) (num_bits dest)).

Definition or_range (source : t) (source_from : Z) (dest : t) (dest_from length : Z) : option t :=
  range_op source source_from dest dest_from length
    (fun d bits sh _ => Z.lor d (shlu 64 bits sh)) (fun d w => Z.lor d w).

Definition and_range (source : t) (source_from : Z) (dest : t) (dest_from length : Z) : option t :=
  range_op source source_from dest dest_from length
    (fun d bits sh n =>
       let span := if n =? 64 then MAX64 else shlu 64 1 n - 1 in
       Z.land d (Z.lor (shlu 64 bits sh) (notu 64 (shlu 64 span sh))))
    (fun d w => Z.land d w).

Definition ensure_capacity_internal (bits : t) (desired_bit : Z) (preserve : bool) : t :=
  if desired_bit <? num_bits bits then (if preserve then bits else clear_all bits)
  else
    let num_words := bits2words desired_bit in
    let ws := if preserve then words bits else [] in
    let ws :=
      if zlen ws <=? num_words then
        let min := num_words + 1 in
        let extra := Z.max (Z.shiftr min 3) 3 in
        ws ++ replicate (Z.to_nat (min + extra - zlen ws)) 0
      else ws in
    mk ws (Z.shiftl (zlen ws) 6).
Definition ensure_capacity (bits : t) (desired_bit : Z) : t := ensure_capacity_internal bits desired_bit true.
Definition ensure_capacity_and_clear (bits : t) (desired_bit : Z) : t :=
  ensure_capacity_internal bits desired_bit false.

Definition rotate_left1 (h : Z) : Z := Z.lor (shlu 64 h 1) (Z.shiftr h 63).
Definition java_hash_code (s : t) : Z :=
  let h := fold_left (fun h w => rotate_left1 (Z.lxor h w)) (reverse (words s)) 0 in
  wraps 32 (wraps 32 (Z.lxor (Z.shiftr (wraps 64 h) 32) (wraps 64 h)) + wraps 32 0x98761234).

(** [for w in first..=last { .. if !f(w, bits) { return } }], threading the
    closure's captured state [A]. *)
Section each_word.
Context {A : Type} (f : Z -> Z -> A -> bool * A).

Fixpoint each_word (ws : list Z) (fuel : nat) (from tail first last w : Z) (st : A) : A :=
  match fuel with
  | O => st
  | Datatypes.S k =>
      let bits := at0 ws w in
      let bits := if w =? first then Z.land bits (shlu 64 MAX64 (Z.land from 63)) else bits in
      let bits := if w =? last then Z.land bits tail else bits in
      let '(go, st') := f w bits st in
      if go then each_word ws k from tail first last (w + 1) st' else st'
  end.

Definition for_each_word_in_range (s : t) (from to : Z) (st : A) : A :=
  if to <=? from then st
  else
    let first := Z.shiftr from 6 in let last := Z.shiftr (to - 1) 6 in
    let tail := Z.shiftr MAX64 (63 - Z.land (to - 1) 63) in
    each_word (words s) (Z.to_nat (last - first + 1)) from tail first last first st.
End each_word.

(** [base + ((w << 6) | tz) as i32]. *)
Definition based (base i : Z) : Z := wraps 32 (base + wraps 32 i).

Fixpoint fill_array (fuel : nat) (w bits base : Z) (st : Z * list Z) : Z * list Z :=
  match fuel with
  | O => st
  | Datatypes.S k =>
      let '(n, array) := st in
      if negb (bits =? 0) && (n <? zlen array) then
        fill_array k w (Z.land bits (bits - 1)) base
          (n + 1, set_at array n (based base (Z.lor (Z.shiftl w 6) (trailing_zeros 64 bits))))
      else st
  end.

Definition into_array (s : t) (from to base : Z) (array : list Z) : option (Z * list Z) :=
  if negb ((from <=? to) && (to <=? num_bits s)) then None
  else Some (for_each_word_in_range
    (fun w bits st => let st' := fill_array 64 w bits base st in (fst st' <? zlen (snd st'), st'))
    s from to (0, array)).

(** The consumer's calls, in order. *)
Definition for_each_in_range (s : t) (from to base : Z) : option (list Z) :=
  if negb ((from <=? to) && (to <=? num_bits s)) then None
  else Some (for_each_word_in_range
    (fun w bits calls => (true, calls ++ map (based base) (word_bits 64 w bits))) s from to []).

(** The masked set, and [Err] when bits past this set's end remain. *)
Definition apply_mask (s bit_set : t) (offset : Z) : option (result string unit * t) :=
  let length := Z.min (num_bits bit_set) (Z.max (num_bits s - offset) 0) in
  let masked := if offset <=? num_bits s then and_range s offset bit_set 0 length else Some bit_set in
  match masked with
  | None => None
  | Some b =>
      if (length <? num_bits b) && match next_set_bit b length with Some _ => true | None => false end
      then Some (Err "Some bits are set beyond the end of live docs"%string, b)
      else Some (Ok tt, b)
  end.

Fixpoint copy_word (fuel : nat) (get : Z -> bool) (base b acc : Z) : Z :=
  match fuel with
  | O => acc
  | Datatypes.S k => copy_word k get base (b + 1) (Z.lor acc (shlu 64 (Z.b2z (get (base + b))) b))
  end.

Definition copy_of (n : Z) (get : Z -> bool) : t :=
  mk (map (fun w => let base := Z.shiftl w 6 in
                    copy_word (Z.to_nat (Z.min (n - base) 64)) get base 0 0)
          (seqZ 0 (bits2words n))) n.

Definition eq (a b : t) : bool :=
  (num_bits a =? num_bits b) && bool_decide (words a = words b).

End FixedBitSet.
