(* ===== verification/FixedBitSetSpec.v ===== *)
(** What [FixedBitSet] promises: each operation, seen through the set of bit
    indices it denotes ([bit]), with the ghost-bit invariant preserved. *)
From stdpp Require Import strings.
From S2P Require Import Prelude BitWords FixedBitSet.
Import FixedBitSet.

(** The abstraction: index [i] is a member. *)
Definition bit (s : t) (i : Z) : bool := wbit (words s) i.

(** The type's invariant: 64-bit words, exactly as many as the length needs,
    and no ghost bit past the length. *)
Record inv (s : t) : Prop := {
  inv_len : 0 <= num_bits s;
  inv_words : words_ok (words s);
  inv_size : zlen (words s) = bits2words (num_bits s);
  inv_ghost : forall i, num_bits s <= i -> bit s i = false;
}.

(** [models s n f]: [s] satisfies the invariant, has length [n] and members [f]. *)
Definition models (s : t) (n : Z) (f : Z -> bool) : Prop :=
  inv s /\ num_bits s = n /\ forall i, 0 <= i -> bit s i = f i.

Lemma inv_models s : inv s -> models s (num_bits s) (bit s).
Proof. done. Qed.

Lemma models_ext s n f g : models s n f -> (forall i, f i = g i) -> models s n g.
Proof. intros (H1 & H2 & H3) E. split; [done|]. split; [done|]. intros. by rewrite <- E, H3. Qed.

(** ** Sizes and masks. *)
Lemma bits2words_spec n : 0 <= n -> 64 * (bits2words n - 1) < n <= 64 * bits2words n \/ (n = 0 /\ bits2words n = 0).
Proof.
  intros Hn. unfold bits2words. destruct (Z.eqb_spec n 0); [right; done|left].
  rewrite shiftr_6. Z.div_mod_to_equations. lia.
Qed.

Lemma bits2words_index n i : 0 <= i < n -> 0 <= i / 64 < bits2words n.
Proof.
  intros Hi. destruct (bits2words_spec n) as [|[? _]]; [lia| |lia]. Z.div_mod_to_equations. lia.
Qed.

Lemma bits2words_nonneg n : 0 <= n -> 0 <= bits2words n.
Proof. intros. destruct (bits2words_spec n) as [|[_ ->]]; lia. Qed.

Lemma MAX64_ok : in_u 64 MAX64.
Proof. apply in_u_ones. lia. Qed.

Lemma testbit_MAX64 k : 0 <= k -> Z.testbit MAX64 k = (k <? 64).
Proof. intros. unfold MAX64. rewrite testbit_ones by lia. by destruct (Z.leb_spec 0 k); [|lia]. Qed.

Lemma testbit_FROM_BIT k i : 0 <= k < 64 -> 0 <= i < 64 -> Z.testbit (FROM_BIT k) i = (k <=? i).
Proof. intros. unfold FROM_BIT, MAX64. bits_core. Qed.

Lemma testbit_bit_mask index i : 0 <= i < 64 -> Z.testbit (bit_mask index) i = (i =? index mod 64).
Proof.
  intros Hi. unfold bit_mask. rewrite land_63. pose proof (Z.mod_pos_bound index 64 ltac:(lia)).
  rewrite testbit_shlu by lia. change 1 with (2 ^ 0). bits_core.
Qed.

Lemma shlu_ok x k : in_u 64 (shlu 64 x k).
Proof. apply wrapu_range. lia. Qed.

Lemma bit_mask_ok index : in_u 64 (bit_mask index).
Proof. apply shlu_ok. Qed.

Lemma FROM_BIT_ok k : in_u 64 (FROM_BIT k).
Proof. apply shlu_ok. Qed.

Lemma testbit_notu x i : 0 <= i < 64 -> Z.testbit (notu 64 x) i = negb (Z.testbit x i).
Proof.
  intros. unfold notu. rewrite Z.lxor_spec, testbit_ones by lia.
  destruct (Z.leb_spec 0 i), (Z.ltb_spec i 64); try lia. by rewrite xorb_true_r.
Qed.

#[export] Hint Resolve MAX64_ok bit_mask_ok FROM_BIT_ok shlu_ok : lucene.

(** [(w >> k) & 1 != 0]. *)
Lemma land_1_testbit w k : negb (Z.land (Z.shiftr w k) 1 =? 0) = Z.testbit (Z.shiftr w k) 0.
Proof.
  change 1 with (Z.ones 1). rewrite Z.land_ones by lia. change (2 ^ 1) with 2.
  rewrite Zmod_odd, Z.bit0_odd. by destruct (Z.odd _).
Qed.

Lemma land_mask_testbit w index : in_u 64 w ->
  negb (Z.land w (bit_mask index) =? 0) = Z.testbit w (index mod 64).
Proof.
  intros Hw. pose proof (Z.mod_pos_bound index 64 ltac:(lia)) as Hr.
  assert (E : forall i, 0 <= i -> Z.testbit (Z.land w (bit_mask index)) i
                  = Z.testbit w (index mod 64) && (i =? index mod 64)).
  { intros i Hi. rewrite Z.land_spec. destruct (Z.ltb_spec i 64).
    - rewrite testbit_bit_mask by lia. destruct (Z.eqb_spec i (index mod 64)) as [->|]; btauto.
    - rewrite (testbit_above 64 w) by done. destruct (Z.eqb_spec i (index mod 64)); [lia|btauto]. }
  destruct (Z.testbit w (index mod 64)) eqn:Hb.
  - destruct (Z.eqb_spec (Z.land w (bit_mask index)) 0) as [E0|]; [|done].
    specialize (E (index mod 64) ltac:(lia)). rewrite E0, Z.testbit_0_l, Z.eqb_refl in E. done.
  - assert (Z.land w (bit_mask index) = 0) as ->; [|done].
    apply Z.bits_inj'. intros i Hi. rewrite E, Z.testbit_0_l by done. done.
Qed.

(** ** Single bits. *)
Lemma wbit_upd ws k f i : 0 <= k < zlen ws -> 0 <= i ->
  wbit (upd ws k f) i = if i / 64 =? k then Z.testbit (f (at0 ws k)) (i mod 64) else wbit ws i.
Proof. intros. unfold upd. by apply wbit_set. Qed.

Lemma index_word s index : inv s -> 0 <= index < num_bits s -> 0 <= index / 64 < zlen (words s).
Proof. intros Hi Hx. rewrite inv_size by done. by apply bits2words_index. Qed.

(** Updating the word of [index] with a mask of its bit. *)
Lemma upd_mask (b : bool -> bool) s index f :
  inv s -> 0 <= index < num_bits s ->
  (forall w, in_u 64 w -> in_u 64 (f w) /\ forall i, 0 <= i < 64 ->
     Z.testbit (f w) i = if i =? index mod 64 then b (Z.testbit w i) else Z.testbit w i) ->
  models (mk (upd (words s) (Z.shiftr index 6) f) (num_bits s)) (num_bits s)
         (fun i => if i =? index then b (bit s i) else bit s i).
Proof.
  intros Hi Hx Hf. pose proof (index_word s index Hi Hx) as Hk. rewrite shiftr_6.
  assert (Hb : forall i, 0 <= i -> bit (mk (upd (words s) (index / 64) f) (num_bits s)) i
                = if i =? index then b (bit s i) else bit s i).
  { intros i H0. unfold bit. cbn [words]. rewrite wbit_upd by done.
    destruct (Hf (at0 (words s) (index / 64)) (at0_range _ _ (inv_words s Hi))) as [_ Hff].
    pose proof (Z.mod_pos_bound i 64 ltac:(lia)). pose proof (Z.div_mod i 64 ltac:(lia)).
    pose proof (Z.div_mod index 64 ltac:(lia)). pose proof (Z.mod_pos_bound index 64 ltac:(lia)).
    destruct (Z.eqb_spec (i / 64) (index / 64)) as [Ed|Ed].
    - rewrite Hff by done. unfold wbit. rewrite Ed.
      destruct (Z.eqb_spec (i mod 64) (index mod 64)), (Z.eqb_spec i index); try lia; done.
    - destruct (Z.eqb_spec i index) as [->|]; [done|done]. }
  split; [|split; [done|exact Hb]]. destruct Hi as [H1 H2 H3 H4]. split; cbn [num_bits words].
  - done.
  - apply words_ok_set; [done|]. apply Hf. by apply at0_range.
  - unfold upd. by rewrite zlen_set_at.
  - intros i Hge. rewrite Hb by lia. destruct (Z.eqb_spec i index); [lia|]. by apply H4.
Qed.

Lemma set_mask_word index w : in_u 64 w -> in_u 64 (Z.lor w (bit_mask index)) /\ forall i, 0 <= i < 64 ->
  Z.testbit (Z.lor w (bit_mask index)) i = if i =? index mod 64 then true else Z.testbit w i.
Proof.
  intros Hw. split; [auto with lucene lia|]. intros i Hi. rewrite Z.lor_spec, testbit_bit_mask by lia.
  destruct (_ =? _); btauto.
Qed.

Lemma clear_mask_word index w : in_u 64 w -> in_u 64 (Z.land w (notu 64 (bit_mask index))) /\ forall i, 0 <= i < 64 ->
  Z.testbit (Z.land w (notu 64 (bit_mask index))) i = if i =? index mod 64 then false else Z.testbit w i.
Proof.
  intros Hw. split.
  - apply in_u_land; [lia|done|]. apply in_u_notu; auto with lucene lia.
  - intros i Hi. rewrite Z.land_spec, testbit_notu, testbit_bit_mask by lia. destruct (_ =? _); btauto.
Qed.

Lemma flip_mask_word index w : in_u 64 w -> in_u 64 (Z.lxor w (bit_mask index)) /\ forall i, 0 <= i < 64 ->
  Z.testbit (Z.lxor w (bit_mask index)) i = if i =? index mod 64 then negb (Z.testbit w i) else Z.testbit w i.
Proof.
  intros Hw. split; [apply in_u_lxor; auto with lucene lia|]. intros i Hi.
  rewrite Z.lxor_spec, testbit_bit_mask by lia. destruct (_ =? _); btauto.
Qed.

Lemma get_bit s index : inv s -> 0 <= index < num_bits s -> get s index = Some (bit s index).
Proof.
  intros Hi Hx. unfold get. destruct (Z.leb_spec (num_bits s) index); [lia|].
  rewrite land_1_testbit, Z.shiftr_spec, shiftr_6, land_63 by lia. done.
Qed.

Lemma was_bit s index : inv s -> 0 <= index ->
  negb (Z.land (at0 (words s) (Z.shiftr index 6)) (bit_mask index) =? 0) = bit s index.
Proof.
  intros Hi Hx. rewrite shiftr_6, land_mask_testbit by (apply at0_range, Hi). done.
Qed.

Lemma get_doc_bit s doc : inv s -> get_doc s doc = (0 <=? doc) && bit s doc.
Proof.
  intros Hi. unfold get_doc, len. destruct (Z.ltb_spec doc 0), (Z.leb_spec 0 doc); try lia.
  destruct (Z.ltb_spec doc (num_bits s)); cbn [andb]; [by rewrite get_bit by (done || lia)|].
  symmetry. by apply (inv_ghost s Hi).
Qed.

(** The single-bit operations: past the length every one of them panics
    (no ghost bit is ever read or written); inside it each returns the bit it
    should and leaves a set of the same length, without ghost bits, whose
    members differ at that index only.  [get_doc] of any id, negative or past
    the end, answers membership. *)
Lemma single_bit_operations (s : t) (index : Z) : inv s -> 0 <= index ->
  (num_bits s <= index ->
     get s index = None /\ set s index = None /\ clear s index = None /\ flip s index = None
     /\ get_and_set s index = None /\ get_and_clear s index = None)
  /\ (index < num_bits s ->
     get s index = Some (bit s index)
     /\ (exists s', set s index = Some s' /\ get_and_set s index = Some (bit s index, s')
          /\ models s' (num_bits s) (fun i => (i =? index) || bit s i))
     /\ (exists s', clear s index = Some s' /\ get_and_clear s index = Some (bit s index, s')
          /\ models s' (num_bits s) (fun i => negb (i =? index) && bit s i))
     /\ (exists s', flip s index = Some s'
          /\ models s' (num_bits s) (fun i => xorb (i =? index) (bit s i))))
  /\ (forall doc, get_doc s doc = (0 <=? doc) && bit s doc).
Proof.
  intros Hi H0. split; [|split].
  - intros Hge. unfold get, set, clear, flip, get_and_set, get_and_clear, check.
    destruct (Z.leb_spec (num_bits s) index); [done|lia].
  - intros Hlt. split; [by apply get_bit|].
    unfold set, clear, flip, get_and_set, get_and_clear, check.
    destruct (Z.leb_spec (num_bits s) index); [lia|]. cbn [negb]. rewrite was_bit by done.
    split; [|split].
    + eexists. split; [done|]. split; [done|]. eapply models_ext.
      * apply (upd_mask (fun _ => true)); [done|lia|apply set_mask_word].
      * intros i. cbn beta. by destruct (i =? index).
    + eexists. split; [done|]. split; [done|]. eapply models_ext.
      * apply (upd_mask (fun _ => false)); [done|lia|apply clear_mask_word].
      * intros i. cbn beta. by destruct (i =? index).
    + eexists. split; [done|]. eapply models_ext.
      * apply (upd_mask negb); [done|lia|apply flip_mask_word].
      * intros i. cbn beta. by destruct (i =? index), (bit s i).
  - intros doc. by apply get_doc_bit.
Qed.

Lemma new_inv n : 0 <= n -> models (new n) n (fun _ => false).
Proof.
  intros Hn. assert (Hb : forall i, bit (new n) i = false).
  { intros i. unfold bit, wbit, at0, new. cbn [words].
    assert (E : forall m k, nth k (replicate m 0) 0 = 0) by (induction m; destruct k; simpl; auto).
    rewrite E. apply Z.testbit_0_l. }
  split; [|split; [done|intros; apply Hb]]. split; cbn [new words num_bits].
  - done.
  - apply Forall_replicate, in_u_0. lia.
  - unfold zlen. rewrite length_replicate. rewrite Z2Nat.id; [done|by apply bits2words_nonneg].
  - intros. apply Hb.
Qed.

Lemma single_bit_operations_witness :
  get (new 70) 70 = None /\ get_doc (new 70) (-1) = (0 <=? (-1)) && bit (new 70) (-1)
  /\ (exists s', set (new 70) 69 = Some s' /\ get_and_set (new 70) 69 = Some (bit (new 70) 69, s')
        /\ models s' 70 (fun i => (i =? 69) || bit (new 70) i)).
Proof.
  assert (Hi : inv (new 70)) by (apply new_inv; lia).
  split; [|split].
  - refine (proj1 (proj1 (single_bit_operations (new 70) 70 Hi _) _)); [lia|reflexivity || (vm_compute; congruence)].
  - exact (proj2 (proj2 (single_bit_operations (new 70) 70 Hi ltac:(lia))) (-1)).
  - refine (proj1 (proj2 (proj1 (proj2 (single_bit_operations (new 70) 69 Hi _)) _))); [lia|reflexivity].
Defined.

(** ** Ranges. *)
Lemma startmask_bits start end_ k : 0 <= start -> 0 <= k < 64 ->
  Z.testbit (fst (range_masks start end_)) k = (start mod 64 <=? k).
Proof.
  intros. unfold range_masks. cbn [fst]. rewrite land_63. apply (testbit_FROM_BIT (start mod 64));
    [apply Z.mod_pos_bound; lia|done].
Qed.

Lemma endmask_bits start end_ k : 0 < end_ -> 0 <= k < 64 ->
  Z.testbit (snd (range_masks start end_)) k = (k <=? (end_ - 1) mod 64).
Proof.
  intros He Hk. unfold range_masks. cbn [snd]. rewrite !land_63.
  assert (E : (64 - end_ mod 64) mod 64 = 63 - (end_ - 1) mod 64) by (Z.div_mod_to_equations; lia).
  rewrite E. pose proof (Z.mod_pos_bound (end_ - 1) 64 ltac:(lia)).
  rewrite Z.shiftr_spec by lia. rewrite testbit_MAX64 by lia.
  destruct (Z.ltb_spec (k + (63 - (end_ - 1) mod 64)) 64), (Z.leb_spec k ((end_ - 1) mod 64)); lia.
Qed.

Lemma range_masks_ok start end_ : in_u 64 (fst (range_masks start end_)) /\ in_u 64 (snd (range_masks start end_)).
Proof.
  split; [apply shlu_ok|]. unfold range_masks. cbn [snd]. destruct MAX64_ok as [H1 H2].
  rewrite Z.shiftr_div_pow2 by (rewrite land_63; apply Z.mod_pos_bound; lia).
  rewrite land_63. pose proof (Z.mod_pos_bound (64 - Z.land end_ 63) 64 ltac:(lia)).
  pose proof (Z.pow_pos_nonneg 2 ((64 - Z.land end_ 63) mod 64)).
  split; [apply Z.div_pos; lia|]. eapply Z.le_lt_trans; [|exact H2].
  apply Z.div_le_upper_bound; nia.
Qed.

Section range_update.
Context (comb : Z -> Z -> Z) (bop : bool -> bool -> bool) (mid : Z -> Z).
Hypothesis comb_bits : forall w m, in_u 64 w -> in_u 64 m ->
  in_u 64 (comb w m) /\ forall k, 0 <= k < 64 -> Z.testbit (comb w m) k = bop (Z.testbit w k) (Z.testbit m k).
Hypothesis bop_false : forall b, bop b false = b.
Hypothesis mid_comb : forall w, in_u 64 w -> mid w = comb w MAX64.

(** The common shape of [flip_range], [set_range] and [clear_range]. *)
Definition range_ws (ws : list Z) (start end_ : Z) : list Z :=
  let sw := Z.shiftr start 6 in let ew := Z.shiftr (end_ - 1) 6 in
  let sm := fst (range_masks start end_) in let em := snd (range_masks start end_) in
  if sw =? ew then upd ws sw (fun w => comb w (Z.land sm em))
  else upd (map_range mid (upd ws sw (fun w => comb w sm)) (sw + 1) ew) ew (fun w => comb w em).

Lemma range_ws_bits s start end_ i : inv s -> 0 <= start < end_ -> end_ <= num_bits s -> 0 <= i ->
  wbit (range_ws (words s) start end_) i = bop (bit s i) ((start <=? i) && (i <? end_)).
Proof.
  intros Hi Hse Hen H0. pose proof (inv_words s Hi) as Hw.
  pose proof (index_word s start Hi ltac:(lia)) as Hsw.
  pose proof (index_word s (end_ - 1) Hi ltac:(lia)) as Hew.
  destruct (range_masks_ok start end_) as [Hsm Hem].
  assert (Hle : start / 64 <= (end_ - 1) / 64) by (apply Z.div_le_mono; lia).
  assert (Hsm_b := startmask_bits start end_ (i mod 64) ltac:(lia) ltac:(apply Z.mod_pos_bound; lia)).
  assert (Hem_b := endmask_bits start end_ (i mod 64) ltac:(lia) ltac:(apply Z.mod_pos_bound; lia)).
  set (sm := fst (range_masks start end_)) in *. set (em := snd (range_masks start end_)) in *.
  assert (Him : 0 <= i mod 64 < 64) by (apply Z.mod_pos_bound; lia).
  assert (Hat : forall k, in_u 64 (at0 (words s) k)) by (intros; by apply at0_range).
  assert (Hdi := Z.div_mod i 64 ltac:(lia)).
  assert (Hds := Z.div_mod start 64 ltac:(lia)). assert (Hms := Z.mod_pos_bound start 64 ltac:(lia)).
  assert (Hde := Z.div_mod (end_ - 1) 64 ltac:(lia)). assert (Hme := Z.mod_pos_bound (end_ - 1) 64 ltac:(lia)).
  unfold range_ws. fold sm em. rewrite !shiftr_6. unfold bit.
  destruct (Z.eqb_spec (start / 64) ((end_ - 1) / 64)) as [Heq|Hne].
  - rewrite wbit_upd by done. destruct (Z.eqb_spec (i / 64) (start / 64)) as [Eq|Eq].
    + destruct (comb_bits (at0 (words s) (start / 64)) (Z.land sm em)) as [_ Hc];
        [done|apply in_u_land; [lia|done|apply Hem]|].
      rewrite Hc by done. unfold wbit. rewrite Eq. f_equal.
      rewrite Z.land_spec, Hsm_b, Hem_b. lia.
    + replace ((start <=? i) && (i <? end_)) with false by lia. by rewrite bop_false.
  - assert (Hlm : zlen (map_range mid (upd (words s) (start / 64) (fun w => comb w sm)) (start / 64 + 1) ((end_ - 1) / 64))
      = zlen (words s)).
    { rewrite zlen_map_range; unfold upd; rewrite ?zlen_set_at; lia. }
    rewrite wbit_upd by (try rewrite Hlm; done).
    unfold wbit at 1. rewrite !at0_map_range by (unfold upd; rewrite ?zlen_set_at; try (apply Z.div_pos); lia).
    unfold upd. rewrite !at0_set by (try apply Z.div_pos; lia).
    destruct (Z.eqb_spec (i / 64) ((end_ - 1) / 64)) as [Ee|Ee].
    + rewrite (proj2 (Z.ltb_ge ((end_ - 1) / 64) ((end_ - 1) / 64))), andb_false_r by lia.
      destruct (Z.eqb_spec ((end_ - 1) / 64) (start / 64)); [lia|].
      destruct (comb_bits (at0 (words s) ((end_ - 1) / 64)) em) as [_ Hc]; [done|done|].
      rewrite Hc by done. unfold wbit. rewrite Ee. f_equal. rewrite Hem_b. lia.
    + destruct (Z.leb_spec (start / 64 + 1) (i / 64)), (Z.ltb_spec (i / 64) ((end_ - 1) / 64)); cbn [andb].
      * destruct (Z.eqb_spec (i / 64) (start / 64)); [lia|]. rewrite mid_comb by done.
        destruct (comb_bits (at0 (words s) (i / 64)) MAX64) as [_ Hc]; [done|apply MAX64_ok|].
        rewrite Hc by done. unfold wbit. f_equal. rewrite testbit_MAX64 by lia. lia.
      * destruct (Z.eqb_spec (i / 64) (start / 64)); [lia|].
        replace ((start <=? i) && (i <? end_)) with false by lia. by rewrite bop_false.
      * destruct (Z.eqb_spec (i / 64) (start / 64)) as [Es|Es].
        -- destruct (comb_bits (at0 (words s) (start / 64)) sm) as [_ Hc]; [done|done|].
           rewrite Hc by done. unfold wbit. rewrite Es. f_equal. rewrite Hsm_b. lia.
        -- replace ((start <=? i) && (i <? end_)) with false by lia. by rewrite bop_false.
      * lia.
Qed.

Lemma range_ws_models s start end_ : inv s -> 0 <= start < end_ -> end_ <= num_bits s ->
  models (mk (range_ws (words s) start end_) (num_bits s)) (num_bits s)
         (fun i => bop (bit s i) ((start <=? i) && (i <? end_))).
Proof.
  intros Hi Hse Hen. pose proof (range_ws_bits s start end_) as Hb.
  destruct (range_masks_ok start end_) as [Hsm Hem].
  pose proof (index_word s start Hi ltac:(lia)) as Hsw.
  pose proof (index_word s (end_ - 1) Hi ltac:(lia)) as Hew.
  assert (Hle : start / 64 <= (end_ - 1) / 64) by (apply Z.div_le_mono; lia).
  assert (Hs := Hi). destruct Hs as [H1 H2 H3 H4].
  assert (Hok : forall w m, in_u 64 w -> in_u 64 m -> in_u 64 (comb w m)) by (intros; by apply comb_bits).
  split; [|split; [done|]].
  - split; cbn [words num_bits]; [done| | |].
    + unfold range_ws, upd. destruct (_ =? _).
      * apply words_ok_set; [done|]. apply Hok; [by apply at0_range|]. apply in_u_land; [lia|done|apply Hem].
      * assert (words_ok (map_range mid (set_at (words s) (Z.shiftr start 6)
          (comb (at0 (words s) (Z.shiftr start 6)) (range_masks start end_).1)) (Z.shiftr start 6 + 1) (Z.shiftr (end_ - 1) 6))) as Hm.
        { apply words_ok_map_range.
          - apply words_ok_set; [done|]. apply Hok; [by apply at0_range|done].
          - intros w Hw. rewrite mid_comb by done. apply Hok; [done|apply MAX64_ok]. }
        apply words_ok_set; [done|]. apply Hok; [by apply at0_range|done].
    + unfold range_ws, upd. rewrite !shiftr_6. destruct (Z.eqb_spec (start / 64) ((end_ - 1) / 64)).
      * by rewrite zlen_set_at.
      * rewrite zlen_set_at, zlen_map_range by (rewrite ?zlen_set_at; lia). by rewrite zlen_set_at.
    + intros i Hge. change (bit (mk ?w _) i) with (wbit w i).
      rewrite Hb by (done || lia). rewrite H4 by lia.
      replace ((start <=? i) && (i <? end_)) with false by lia. apply bop_false.
  - intros i H0. unfold bit at 1. cbn [words]. by rewrite Hb by (done || lia).
Qed.
End range_update.

Lemma notu_land a b : in_u 64 a -> in_u 64 b -> Z.lor (notu 64 a) (notu 64 b) = notu 64 (Z.land a b).
Proof. intros Ha Hb. unfold notu. bits_solve. Qed.

(** [set_range], [clear_range] and [flip_range]: an empty or reversed
    range changes nothing, a range past the length panics, and any other range
    sets, clears or flips exactly its members, whatever words it spans. *)
Lemma range_operations (s : t) (start end_ : Z) : inv s -> 0 <= start ->
  let inside i := (start <=? i) && (i <? end_) in
  (end_ <= start -> set_range s start end_ = Some s /\ clear_range s start end_ = Some s
     /\ flip_range s start end_ = Some s)
  /\ (start < end_ -> num_bits s < end_ -> set_range s start end_ = None
     /\ clear_range s start end_ = None /\ flip_range s start end_ = None)
  /\ (start < end_ <= num_bits s ->
     (exists s', set_range s start end_ = Some s' /\ models s' (num_bits s) (fun i => inside i || bit s i))
     /\ (exists s', clear_range s start end_ = Some s' /\ models s' (num_bits s) (fun i => negb (inside i) && bit s i))
     /\ (exists s', flip_range s start end_ = Some s' /\ models s' (num_bits s) (fun i => xorb (inside i) (bit s i)))).
Proof.
  intros Hi H0 inside. unfold set_range, clear_range, flip_range.
  destruct (Z.leb_spec end_ start); [split; [done|split; lia]|].
  destruct (Z.ltb_spec (num_bits s) end_); [split; [lia|split; [done|lia]]|].
  split; [lia|]. split; [lia|]. intros _.
  change (range_masks start end_) with ((range_masks start end_).1, (range_masks start end_).2). cbv iota beta zeta.
  destruct (range_masks_ok start end_) as [Hsm Hem].
  split; [|split].
  - exists (mk (range_ws Z.lor (fun _ => MAX64) (words s) start end_) (num_bits s)).
    split; [unfold range_ws; by destruct (_ =? _)|]. eapply models_ext.
    + apply (range_ws_models _ orb); [|intros []; done| |done|lia|done].
      * intros w m Hw Hm. split; [auto with lucene lia|]. intros. apply Z.lor_spec.
      * intros w Hw. apply Z.bits_inj'. intros k Hk. rewrite Z.lor_spec, testbit_MAX64 by done.
        destruct (Z.ltb_spec k 64); [by rewrite orb_true_r|]. by rewrite (testbit_above 64) by done.
    + intros i. unfold inside. btauto.
  - exists (mk (range_ws (fun w m => Z.land w (notu 64 m)) (fun _ => 0) (words s) start end_) (num_bits s)).
    split.
    { rewrite notu_land by done. unfold range_ws. by destruct (_ =? _). }
    eapply models_ext.
    + apply (range_ws_models _ (fun a b => a && negb b)); [|intros []; done| |done|lia|done].
      * intros w m Hw Hm. split.
        -- apply in_u_land; [lia|done|]. apply in_u_notu; [lia|done].
        -- intros. by rewrite Z.land_spec, testbit_notu.
      * intros w Hw. apply Z.bits_inj'. intros k Hk. rewrite Z.land_spec, Z.testbit_0_l.
        destruct (Z.ltb_spec k 64).
        -- rewrite testbit_notu, testbit_MAX64 by lia. destruct (Z.ltb_spec k 64); [by rewrite andb_false_r|lia].
        -- by rewrite (testbit_above 64 w) by done.
    + intros i. unfold inside. btauto.
  - exists (mk (range_ws Z.lxor (notu 64) (words s) start end_) (num_bits s)).
    split; [unfold range_ws; by destruct (_ =? _)|]. eapply models_ext.
    + apply (range_ws_models _ xorb); [|intros []; done|done|done|lia|done].
      intros w m Hw Hm. split; [auto with lucene lia|]. intros. apply Z.lxor_spec.
    + intros i. unfold inside. btauto.
Qed.

Lemma range_operations_witness :
  exists s', flip_range (new 200) 60 130 = Some s'
    /\ models s' 200 (fun i => xorb ((60 <=? i) && (i <? 130)) (bit (new 200) i)).
Proof.
  assert (Hi : inv (new 200)) by (apply new_inv; lia).
  refine (proj2 (proj2 (proj2 (proj2 (range_operations (new 200) 60 130 Hi _)) _))); [lia|].
  split; [reflexivity|vm_compute; congruence].
Defined.

(** ** Scans. *)

(** [first P lo hi r]: [r] is the first index of [[lo, hi)] that satisfies
    [P], if there is one. *)
Definition first (P : Z -> bool) (lo hi : Z) (r : option Z) : Prop :=
  match r with
  | Some j => lo <= j < hi /\ P j = true /\ forall k, lo <= k < j -> P k = false
  | None => forall k, lo <= k < hi -> P k = false
  end.

(** [last P hi r]: [r] is the last index of [[0, hi]] that satisfies [P]. *)
Definition last (P : Z -> bool) (hi : Z) (r : option Z) : Prop :=
  match r with
  | Some j => 0 <= j <= hi /\ P j = true /\ forall k, j < k <= hi -> P k = false
  | None => forall k, 0 <= k <= hi -> P k = false
  end.

(** Word [i] replaced by [word]. *)
Definition with_word (ws : list Z) (i word j : Z) : bool :=
  if j / 64 =? i then Z.testbit word (j mod 64) else wbit ws j.

Lemma drop_cons_at0 ws i w rest : 0 <= i -> drop (Z.to_nat i) ws = w :: rest ->
  w = at0 ws i /\ rest = drop (Z.to_nat (i + 1)) ws /\ i < zlen ws.
Proof.
  intros Hi Hd. assert (Hl : ws !! Z.to_nat i = Some w).
  { rewrite <- (Nat.add_0_r (Z.to_nat i)), <- lookup_drop, Hd. done. }
  split; [unfold at0; by rewrite (nth_lookup_Some _ _ _ _ Hl)|]. split.
  - rewrite Z2Nat.inj_add, <- drop_drop, Hd by lia. done.
  - apply lookup_lt_Some in Hl. unfold zlen. lia.
Qed.

Lemma scan_set_first ws i word : words_ok ws -> in_u 64 word -> 0 <= i < zlen ws ->
  first (with_word ws i word) (64 * i) (64 * zlen ws) (scan_set (drop (Z.to_nat (i + 1)) ws) i word).
Proof.
  intros Hw. remember (drop (Z.to_nat (i + 1)) ws) as rest eqn:Hrest.
  revert i word Hrest. induction rest as [|w rest IH]; intros i word Hrest Hword Hi; cbn [scan_set];
    (destruct (Z.eqb_spec word 0) as [->|Hne]; cbn [negb];
     [|destruct (trailing_zeros_spec 64 word Hword Hne) as (T1 & T2 & T3); rewrite shiftl_6;
       assert (E : forall k, 0 <= k < 64 -> with_word ws i word (64 * i + k) = Z.testbit word k);
       [intros k Hk; unfold with_word; destruct (word_of_unique (64 * i + k) i k) as [-> ->]; [lia|lia|];
        by rewrite Z.eqb_refl
       |split; [lia|]; split; [by rewrite E by lia|]; intros k Hk;
        replace k with (64 * i + (k - 64 * i)) by lia; rewrite E by lia; apply T3; lia]]).
  - intros k Hk. unfold with_word. destruct (Z.eqb_spec (k / 64) i); [apply Z.testbit_0_l|].
    apply wbit_out. pose proof (Z.div_mod k 64 ltac:(lia)). pose proof (Z.mod_pos_bound k 64 ltac:(lia)).
    apply (f_equal length) in Hrest. rewrite length_drop in Hrest. unfold zlen in *. simpl in Hrest. lia.
  - symmetry in Hrest. apply drop_cons_at0 in Hrest as (-> & -> & Hlt); [|lia].
    specialize (IH (i + 1) (at0 ws (i + 1)) eq_refl (at0_range _ _ Hw) ltac:(lia)).
    assert (E : forall k, 64 * (i + 1) <= k ->
      with_word ws i 0 k = with_word ws (i + 1) (at0 ws (i + 1)) k).
    { intros k Hk. unfold with_word. destruct (Z.eqb_spec (k / 64) i) as [Eq|_].
      - pose proof (Z.mod_pos_bound k 64 ltac:(lia)). pose proof (Z.div_mod k 64 ltac:(lia)). lia.
      - destruct (Z.eqb_spec (k / 64) (i + 1)) as [Eq|_]; [unfold wbit; by rewrite Eq|done]. }
    assert (E0 : forall k, 64 * i <= k < 64 * (i + 1) -> with_word ws i 0 k = false).
    { intros k Hk. unfold with_word. destruct (word_of_unique k i (k - 64 * i)) as [-> _]; [lia|lia|].
      rewrite Z.eqb_refl. apply Z.testbit_0_l. }
    destruct (scan_set _ _ _) as [j|]; cbn [first] in *.
    + destruct IH as (J1 & J2 & J3). split; [lia|]. split; [by rewrite E by lia|].
      intros k Hk. destruct (Z.ltb_spec k (64 * (i + 1))); [apply E0; lia|]. rewrite E by lia. apply J3. lia.
    + intros k Hk. destruct (Z.ltb_spec k (64 * (i + 1))); [apply E0; lia|]. rewrite E by lia. apply IH. lia.
Qed.

(** From a masked first word to the set itself. *)
Lemma masked_first ws index : words_ok ws -> 0 <= index -> index / 64 < zlen ws ->
  first (wbit ws) index (64 * zlen ws)
    (scan_set (drop (Z.to_nat (index / 64 + 1)) ws) (index / 64)
       (Z.land (at0 ws (index / 64)) (FROM_BIT (index mod 64)))).
Proof.
  intros Hw H0 Hi. assert (Hr := at0_range ws (index / 64) Hw).
  pose proof (Z.mod_pos_bound index 64 ltac:(lia)) as Hm. pose proof (Z.div_mod index 64 ltac:(lia)) as Hd.
  assert (0 <= index / 64) by (apply Z.div_pos; lia).
  assert (Hf := scan_set_first ws (index / 64) (Z.land (at0 ws (index / 64)) (FROM_BIT (index mod 64)))
    Hw ltac:(apply in_u_land; [lia|done|apply FROM_BIT_ok]) ltac:(lia)).
  assert (E : forall k, 64 * (index / 64) <= k ->
    with_word ws (index / 64) (Z.land (at0 ws (index / 64)) (FROM_BIT (index mod 64))) k
    = wbit ws k && (index <=? k)).
  { intros k Hk. pose proof (Z.mod_pos_bound k 64 ltac:(lia)). pose proof (Z.div_mod k 64 ltac:(lia)).
    unfold with_word. destruct (Z.eqb_spec (k / 64) (index / 64)) as [Eq|Ne].
    - rewrite Z.land_spec, testbit_FROM_BIT by lia. unfold wbit. rewrite Eq. f_equal. lia.
    - assert (index / 64 < k / 64) by (assert (index / 64 <= k / 64); [apply Z.div_le_lower_bound; lia|lia]).
      destruct (Z.leb_spec index k); [by rewrite andb_true_r|lia]. }
  destruct (scan_set _ _ _) as [j|]; cbn [first] in *.
  - destruct Hf as (J1 & J2 & J3). rewrite E in J2 by lia. apply andb_true_iff in J2 as [J2 J4].
    split; [lia|]. split; [done|]. intros k Hk. specialize (J3 k ltac:(lia)). rewrite E in J3 by lia.
    destruct (Z.leb_spec index k); [by rewrite andb_true_r in J3|lia].
  - intros k Hk. specialize (Hf k ltac:(lia)). rewrite E in Hf by lia.
    destruct (Z.leb_spec index k); [by rewrite andb_true_r in Hf|lia].
Qed.

(** Narrowing and widening the searched range. *)
Lemma first_extend P lo hi hi' r : first P lo hi r -> hi <= hi' -> (forall k, hi <= k -> P k = false) ->
  first P lo hi' r.
Proof.
  intros Hf Hh Hz. destruct r as [j|]; cbn [first] in *.
  - destruct Hf as (? & ? & ?). split; [lia|done].
  - intros k Hk. destruct (Z.ltb_spec k hi); [apply Hf; lia|apply Hz; lia].
Qed.

Lemma first_filter P lo hi ub r : first P lo hi r -> ub <= hi ->
  first P lo ub (match r with Some b => if b <? ub then Some b else None | None => None end).
Proof.
  intros Hf Hh. destruct r as [j|]; cbn [first] in *.
  - destruct Hf as (? & ? & Hk). destruct (Z.ltb_spec j ub); [by split; [lia|]|]. intros k ?. apply Hk. lia.
  - intros k Hk. apply Hf. lia.
Qed.

Lemma first_ext P Q lo hi r : (forall k, lo <= k < hi -> P k = Q k) -> first P lo hi r -> first Q lo hi r.
Proof.
  intros E Hf. destruct r as [j|]; cbn [first] in *.
  - destruct Hf as (? & ? & Hk). split; [done|]. rewrite <- E by lia. split; [done|].
    intros k ?. rewrite <- E by lia. by apply Hk.
  - intros k Hk. rewrite <- E by done. by apply Hf.
Qed.

Lemma wbit_take ws n j : 0 <= j < 64 * n -> wbit (take (Z.to_nat n) ws) j = wbit ws j.
Proof.
  intros Hj. unfold wbit, at0. rewrite !nth_lookup, lookup_take_lt; [done|].
  assert (j / 64 < n) by (apply Z.div_lt_upper_bound; lia). assert (0 <= j / 64) by (apply Z.div_pos; lia). lia.
Qed.

Lemma take_words_ok ws n : words_ok ws -> words_ok (take n ws).
Proof. apply Forall_take. Qed.

Lemma zlen_take {A} (l : list A) n : 0 <= n <= zlen l -> zlen (take (Z.to_nat n) l) = n.
Proof. intros. unfold zlen in *. rewrite length_take. lia. Qed.

(** ** Backwards. *)
Lemma scan_back_last ws n : words_ok ws -> (n <= length ws)%nat ->
  last (wbit ws) (64 * Z.of_nat n - 1) (scan_back ws n).
Proof.
  intros Hw. induction n as [|n IH]; intros Hn; cbn [scan_back last]; [intros; lia|].
  assert (Hr := at0_range ws (Z.of_nat n) Hw).
  assert (E : forall k, 64 * Z.of_nat n <= k < 64 * Z.of_nat (S n) ->
    wbit ws k = Z.testbit (at0 ws (Z.of_nat n)) (k - 64 * Z.of_nat n)).
  { intros k Hk. unfold wbit. by destruct (word_of_unique k (Z.of_nat n) (k - 64 * Z.of_nat n)) as [-> ->]; [lia|lia|]. }
  destruct (Z.eqb_spec (at0 ws (Z.of_nat n)) 0) as [Hz|Hne]; cbn [negb].
  - specialize (IH ltac:(lia)). destruct (scan_back ws n) as [j|]; cbn [last] in *.
    + destruct IH as (? & ? & IH). split; [lia|]. split; [done|]. intros k Hk.
      destruct (Z.ltb_spec k (64 * Z.of_nat n)); [apply IH; lia|]. rewrite E, Hz by lia. apply Z.testbit_0_l.
    + intros k Hk. destruct (Z.ltb_spec k (64 * Z.of_nat n)); [apply IH; lia|].
      rewrite E, Hz by lia. apply Z.testbit_0_l.
  - destruct (leading_zeros_log2 64 _ Hr Hne) as [El Hl]. rewrite shiftl_6.
    destruct (log2_bits (at0 ws (Z.of_nat n))) as [B1 B2]; [destruct Hr; lia|].
    split; [lia|]. split.
    + rewrite E by lia.
      replace (64 * Z.of_nat n + 63 - leading_zeros 64 (at0 ws (Z.of_nat n)) - 64 * Z.of_nat n)
        with (Z.log2 (at0 ws (Z.of_nat n))) by lia. done.
    + intros k Hk. rewrite E by lia. apply B2. lia.
Qed.

Lemma prev_set_bit_last s index : inv s -> 0 <= index < num_bits s ->
  exists r, prev_set_bit s index = Some r /\ last (bit s) index r.
Proof.
  intros Hi Hx. pose proof (index_word s index Hi Hx) as Hk. pose proof (inv_words s Hi) as Hw.
  unfold prev_set_bit, check. destruct (Z.leb_spec (num_bits s) index); [lia|]. cbn [negb].
  eexists. split; [done|]. rewrite shiftr_6, land_63, shiftl_6.
  pose proof (Z.mod_pos_bound index 64 ltac:(lia)) as Hm. pose proof (Z.div_mod index 64 ltac:(lia)) as Hd.
  set (q := index / 64) in *. set (r := index mod 64) in *.
  assert (Hr := at0_range (words s) q Hw).
  assert (E : forall k, 64 * q <= k <= index -> bit s k = Z.testbit (at0 (words s) q) (k - 64 * q)).
  { intros k Hk2. unfold bit, wbit. by destruct (word_of_unique k q (k - 64 * q)) as [-> ->]; [lia|lia|]. }
  assert (Eb : forall i, 0 <= i < 64 -> Z.testbit (shlu 64 (at0 (words s) q) (63 - r)) i
    = Z.testbit (at0 (words s) q) (i - (63 - r))).
  { intros i Hi2. rewrite testbit_shlu by lia.
    destruct (Z.ltb_spec i 64), (Z.leb_spec 0 i); try lia. done. }
  destruct (Z.eqb_spec (shlu 64 (at0 (words s) q) (63 - r)) 0) as [Hz|Hne]; cbn [negb].
  - assert (Hlow : forall k, 64 * q <= k <= index -> bit s k = false).
    { intros k Hk2. rewrite E by done. replace (k - 64 * q) with ((k - 64 * q + (63 - r)) - (63 - r)) by lia.
      rewrite <- Eb, Hz by lia. apply Z.testbit_0_l. }
    assert (Hb := scan_back_last (words s) (Z.to_nat q) Hw ltac:(unfold zlen in *; lia)).
    rewrite Z2Nat.id in Hb by lia. destruct (scan_back _ _) as [j|]; cbn [last] in *.
    + destruct Hb as (? & ? & Hb). split; [lia|]. split; [done|]. intros k Hk2.
      destruct (Z.ltb_spec k (64 * q)); [apply Hb; lia|apply Hlow; lia].
    + intros k Hk2. destruct (Z.ltb_spec k (64 * q)); [apply Hb; lia|apply Hlow; lia].
  - set (word := shlu 64 (at0 (words s) q) (63 - r)) in *.
    destruct (leading_zeros_log2 64 word (shlu_ok _ _) Hne) as [El Hl].
    destruct (log2_bits word) as [B1 B2].
    { pose proof (shlu_ok (at0 (words s) q) (63 - r)) as [Hp _]. fold word in Hp. lia. }
    assert (Hge : 63 - r <= Z.log2 word).
    { destruct (Z.ltb_spec (Z.log2 word) (63 - r)); [|lia]. rewrite Eb in B1 by lia.
      by rewrite Z.testbit_neg_r in B1 by lia. }
    split; [lia|]. split.
    + rewrite E by lia. rewrite Eb in B1 by lia. rewrite <- B1. f_equal. lia.
    + intros k Hk2. rewrite E by lia.
      replace (k - 64 * q) with ((k - 64 * q + (63 - r)) - (63 - r)) by lia. rewrite <- Eb by lia. apply B2. lia.
Qed.

(** Scanning for a clear bit is scanning the complement for a set one. *)
Lemma notu_0 w : in_u 64 w -> notu 64 w = 0 <-> w = MAX64.
Proof.
  intros Hw. split; intros H.
  - apply Z.bits_inj'. intros k Hk. rewrite testbit_MAX64 by done. destruct (Z.ltb_spec k 64).
    + apply (f_equal (fun x => Z.testbit x k)) in H. rewrite testbit_notu, Z.testbit_0_l in H by lia.
      by destruct (Z.testbit w k).
    + by apply (testbit_above 64).
  - subst. apply Z.lxor_nilpotent.
Qed.

Lemma scan_clear_set rest end_ i word : Forall (in_u 64) rest -> in_u 64 word ->
  scan_clear rest end_ i word
  = match scan_set (map (notu 64) rest) i (notu 64 word) with Some j => j | None => end_ end.
Proof.
  intros Hr. revert i word. induction Hr as [|w rest Hw _ IH]; intros i word Hword; cbn [scan_clear scan_set map];
    pose proof (notu_0 word Hword);
    (destruct (Z.eqb_spec word MAX64), (Z.eqb_spec (notu 64 word) 0); cbn [negb]; try tauto); by apply IH.
Qed.

Lemma at0_map (f : Z -> Z) ws i : 0 <= i < zlen ws -> at0 (map f ws) i = f (at0 ws i).
Proof.
  intros Hi. unfold at0. rewrite !nth_lookup, list_lookup_fmap.
  destruct (lookup_lt_is_Some_2 ws (Z.to_nat i)) as [x ->]; [unfold zlen in *; lia|done].
Qed.

Lemma wbit_complement ws k : 0 <= k < 64 * zlen ws -> wbit (map (notu 64) ws) k = negb (wbit ws k).
Proof.
  intros Hk. unfold wbit. rewrite at0_map.
  - apply testbit_notu, Z.mod_pos_bound. lia.
  - split; [apply Z.div_pos; lia|]. apply Z.div_lt_upper_bound; lia.
Qed.

Lemma complement_ok ws : words_ok ws -> words_ok (map (notu 64) ws).
Proof. intros. apply Forall_fmap. eapply Forall_impl; [|done]. intros. apply in_u_notu; [lia|done]. Qed.

Lemma next_clear_words ws from : words_ok ws -> 0 <= from ->
  let r := next_clear_bit_in_words ws from in
  r <= 64 * zlen ws /\ first (fun k => negb (wbit ws k)) from (64 * zlen ws) (if r <? 64 * zlen ws then Some r else None).
Proof.
  intros Hw H0. unfold next_clear_bit_in_words.
  destruct (Z.leb_spec (zlen ws * 64) from) as [Hge|Hlt].
  { cbv zeta. split; [lia|]. destruct (Z.ltb_spec (zlen ws * 64) (64 * zlen ws)); [lia|]. intros k Hk. lia. }
  rewrite shiftr_6, land_63. assert (Hi : 0 <= from / 64 < zlen ws).
  { split; [apply Z.div_pos; lia|]. apply Z.div_lt_upper_bound; lia. }
  assert (Hword := at0_range ws (from / 64) Hw). assert (HF := FROM_BIT_ok (from mod 64)).
  rewrite scan_clear_set; [|by apply Forall_drop|apply in_u_lor; [lia|done|apply in_u_notu; [lia|done]]].
  replace (notu 64 (Z.lor (at0 ws (from / 64)) (notu 64 (FROM_BIT (from mod 64)))))
    with (Z.land (at0 (map (notu 64) ws) (from / 64)) (FROM_BIT (from mod 64))).
  2: { rewrite at0_map by done. unfold notu. bits_solve. }
  rewrite <- skipn_map.
  assert (Hf := masked_first (map (notu 64) ws) from (complement_ok ws Hw) H0).
  rewrite zlen_map in Hf. specialize (Hf ltac:(lia)).
  apply (first_ext _ (fun k => negb (wbit ws k))) in Hf; [|intros; apply wbit_complement; lia].
  change (@drop Z) with (@skipn Z) in *.
  destruct (scan_set _ _ _) as [j|]; cbv zeta.
  - destruct Hf as (? & ? & ?). split; [lia|]. destruct (Z.ltb_spec j (64 * zlen ws)); [|lia]. split; [lia|done].
  - split; [lia|]. destruct (Z.ltb_spec (zlen ws * 64) (64 * zlen ws)); [lia|]. exact Hf.
Qed.

Lemma next_set_words ws from : words_ok ws -> 0 <= from ->
  first (wbit ws) from (64 * zlen ws) (next_set_bit_in_words ws from).
Proof.
  intros Hw H0. unfold next_set_bit_in_words. rewrite shiftr_6, land_63.
  assert (0 <= from / 64) by (apply Z.div_pos; lia).
  destruct (zget ws (from / 64)) as [w|] eqn:Hg.
  - apply zget_Some in Hg as [_ Hg]. assert (Hl := lookup_lt_Some _ _ _ Hg).
    assert (w = at0 ws (from / 64)) as -> by (unfold at0; by rewrite (nth_lookup_Some _ _ _ _ Hg)).
    apply masked_first; [done|done|unfold zlen; lia].
  - apply zget_None in Hg; [|done]. intros k Hk. pose proof (Z.div_mod from 64 ltac:(lia)).
    pose proof (Z.mod_pos_bound from 64 ltac:(lia)). lia.
Qed.

(** The word-array scans of the range searches see the words below the bound. *)
Lemma words_below s ub : inv s -> 0 < ub <= num_bits s ->
  let ws := take (Z.to_nat (bits2words ub)) (words s) in
  words_ok ws /\ ub <= 64 * zlen ws /\ forall k, 0 <= k < ub -> wbit ws k = bit s k.
Proof.
  intros Hi Hub. assert (Hle : 0 <= bits2words ub <= zlen (words s)).
  { rewrite inv_size by done. pose proof (bits2words_nonneg ub ltac:(lia)). split; [done|].
    pose proof (bits2words_index (num_bits s) (ub - 1) ltac:(lia)).
    destruct (bits2words_spec ub) as [Hb|]; [lia| |lia]. pose proof (Z.div_mod (ub - 1) 64 ltac:(lia)).
    pose proof (Z.mod_pos_bound (ub - 1) 64 ltac:(lia)). lia. }
  cbv zeta. rewrite zlen_take by done.
  destruct (bits2words_spec ub) as [Hb|]; [lia| |lia].
  split; [apply take_words_ok, Hi|]. split; [lia|]. intros k Hk. apply wbit_take. lia.
Qed.

Lemma next_set_bit_first s index : inv s -> 0 <= index ->
  first (bit s) index (num_bits s) (next_set_bit s index).
Proof.
  intros Hi H0. assert (Hw := inv_words s Hi).
  unfold next_set_bit. destruct (Z.leb_spec (num_bits s) index); [intros k Hk; lia|].
  pose proof (index_word s index Hi ltac:(lia)) as Hk.
  assert (Hf := masked_first (words s) index Hw H0 ltac:(lia)). rewrite shiftr_6, land_63.
  destruct (scan_set _ _ _) as [j|].
  - destruct Hf as (? & Hj & ?). split; [|done]. split; [lia|].
    destruct (Z.ltb_spec j (num_bits s)); [done|]. pose proof (inv_ghost s Hi j ltac:(lia)) as Hg.
    unfold bit in Hg. by rewrite Hj in Hg.
  - intros k Hk2. destruct (Z.ltb_spec k (64 * zlen (words s))); [apply Hf; lia|by apply wbit_out].
Qed.

Lemma next_clear_range_first s index u : inv s -> 0 <= index -> 0 <= u ->
  first (fun i => negb (bit s i)) index (Z.min u (num_bits s)) (next_clear_bit_in_range s index u).
Proof.
  intros Hi H0 Hu0. unfold next_clear_bit_in_range. destruct (Z.leb_spec (Z.min u (num_bits s)) index); [intros k Hk; lia|].
  destruct (words_below s (Z.min u (num_bits s)) Hi ltac:(lia)) as (W1 & W2 & W3).
  set (ws := take _ _) in *. destruct (next_clear_words ws index W1 H0) as [Hle Hf].
  apply (first_filter _ _ _ (Z.min u (num_bits s))) in Hf; [|done].
  apply (first_ext (fun k => negb (wbit ws k))); [intros k Hk; by rewrite W3 by lia|].
  destruct (Z.ltb_spec (next_clear_bit_in_words ws index) (64 * zlen ws)); [exact Hf|].
  destruct (Z.ltb_spec (next_clear_bit_in_words ws index) (Z.min u (num_bits s))); [lia|exact Hf].
Qed.

(** The searches.  [next_set_bit] finds the first member at or after an
    index and [prev_set_bit] the last at or before it (panicking past the
    length); the bounded forms find the first set or clear bit of a range and
    never look past its bound; over a bare word slice, [next_clear_bit_in_words]
    answers the slice's end when every bit is set. *)
Lemma searches (s : t) (index upper_bound : Z) : inv s -> 0 <= index -> 0 <= upper_bound ->
  let ub := Z.min upper_bound (num_bits s) in
  first (bit s) index (num_bits s) (next_set_bit s index)
  /\ (num_bits s <= index -> prev_set_bit s index = None)
  /\ (index < num_bits s -> exists r, prev_set_bit s index = Some r /\ last (bit s) index r)
  /\ first (bit s) index ub (next_set_bit_in_range s index upper_bound)
  /\ first (fun i => negb (bit s i)) index ub (next_clear_bit_in_range s index upper_bound)
  /\ first (fun i => negb (bit s i)) index (num_bits s) (next_clear_bit s index).
Proof.
  intros Hi H0 Hu ub. assert (Hw := inv_words s Hi).
  assert (Hclear : forall u, 0 <= u -> first (fun i => negb (bit s i)) index (Z.min u (num_bits s))
    (next_clear_bit_in_range s index u)) by (intros; by apply next_clear_range_first).
  split; [|split; [|split; [|split; [|split]]]].
  - by apply next_set_bit_first.
  - intros Hge. unfold prev_set_bit, check. by destruct (Z.leb_spec (num_bits s) index); [|lia].
  - intros Hlt. by apply prev_set_bit_last.
  - unfold next_set_bit_in_range. fold ub. destruct (Z.leb_spec ub index); [intros k Hk; lia|].
    destruct (words_below s ub Hi ltac:(lia)) as (W1 & W2 & W3).
    apply (first_ext (wbit (take (Z.to_nat (bits2words ub)) (words s)))); [intros k Hk; apply W3; lia|].
    eapply first_filter; [by apply next_set_words|done].
  - by apply Hclear.
  - unfold next_clear_bit. rewrite <- (Z.min_id (num_bits s)) at 1. apply Hclear, Hi.
Qed.

Lemma searches_witness :
  let s := mk [1; 0; 8] 140 in
  inv s /\ next_set_bit s 1 = Some 131 /\ first (bit s) 1 140 (next_set_bit s 1).
Proof.
  intros s. assert (Hi : inv s).
  { split; [vm_compute; congruence| |vm_compute; reflexivity|].
    - repeat constructor; vm_compute; congruence.
    - intros i Hge. change (num_bits s) with 140 in Hge. unfold bit, wbit, at0. cbn [s words].
      assert (Hq : 2 <= i / 64) by (apply Z.div_le_lower_bound; lia).
      destruct (Z.eq_dec (i / 64) 2) as [E|E].
      + rewrite E. change (nth (Z.to_nat 2) [1; 0; 8] 0) with (2 ^ 3). apply Z.pow2_bits_false.
        pose proof (Z.div_mod i 64 ltac:(lia)). lia.
      + rewrite nth_overflow; [apply Z.testbit_0_l|]. simpl. lia. }
  split; [exact Hi|]. split; [vm_compute; reflexivity|].
  exact (proj1 (searches s 1 140 Hi ltac:(lia) ltac:(lia))).
Defined.
