(* ===== verification/FixedBitSetAlgebra.v ===== *)
(** [FixedBitSet] as an algebra of sets: counting, enumeration, union,
    intersection, difference, and the combination of sub-ranges. *)
From stdpp Require Import strings.
From S2P Require Import Prelude BitWords FixedBitSet FixedBitSetSpec.
Import FixedBitSet.

(** ** Population counts. *)
Fixpoint sum_ones (ws : list Z) : Z :=
  match ws with
  | [] => 0
  | w :: rest => count_ones w + sum_ones rest
  end.

Lemma scalar_loop_sum ws a0 a1 a2 a3 : scalar_loop ws a0 a1 a2 a3 = a0 + a1 + a2 + a3 + sum_ones ws.
Proof.
  revert a0 a1 a2 a3. induction ws as [l Hl|a b c d l IH] using list4_ind; intros a0 a1 a2 a3.
  - destruct l as [|? [|? [|? [|? ?]]]]; [simpl; lia..|simpl in Hl; lia].
  - cbn [scalar_loop sum_ones]. rewrite IH. lia.
Qed.

Lemma popcount_sum ws : popcount_words ws = sum_ones ws.
Proof. unfold popcount_words. rewrite scalar_loop_sum. lia. Qed.

Lemma sum_ones_count ws k n : words_ok ws -> 0 <= k -> Z.of_nat n = zlen ws - k ->
  sum_ones (drop (Z.to_nat k) ws) = count (wbit ws) (64 * k) (64 * n).
Proof.
  intros Hw. revert k. induction n as [|n IH]; intros k Hk Hn.
  - rewrite drop_ge by (unfold zlen in *; lia). done.
  - assert (Hd : drop (Z.to_nat k) ws = at0 ws k :: drop (Z.to_nat (k + 1)) ws).
    { replace (Z.to_nat (k + 1)) with (S (Z.to_nat k)) by lia. apply drop_S, at0_lookup. lia. }
    rewrite Hd. cbn [sum_ones]. rewrite IH by lia.
    replace (64 * S n)%nat with (64 + 64 * n)%nat by lia. rewrite count_app. f_equal.
    + symmetry. apply count_word; [by apply at0_range|]. intros i Hi. unfold wbit.
      by destruct (word_of_unique (64 * k + i) k i) as [-> ->]; [lia|lia|].
    + f_equal. lia.
Qed.

Lemma popcount_count ws : words_ok ws -> popcount_words ws = count (wbit ws) 0 (64 * length ws).
Proof.
  intros Hw. rewrite popcount_sum, <- (drop_0 ws) at 1. change 0%nat with (Z.to_nat 0).
  rewrite (sum_ones_count ws 0 (length ws)) by (try done; unfold zlen; lia). done.
Qed.

(** Counting beyond the last member adds nothing. *)
Lemma count_widen P n m : (n <= m)%nat -> (forall i, Z.of_nat n <= i -> P i = false) -> count P 0 m = count P 0 n.
Proof.
  intros Hn Hz. replace m with (n + (m - n))%nat by lia. rewrite count_app.
  rewrite (count_false P (0 + Z.of_nat n)); [lia|]. intros i Hi. apply Hz. lia.
Qed.

Lemma size_bits s : inv s -> num_bits s <= 64 * zlen (words s).
Proof.
  intros Hi. rewrite inv_size by done. destruct (bits2words_spec (num_bits s) (inv_len s Hi)); lia.
Qed.

Lemma cardinality_count s : inv s -> cardinality s = count (bit s) 0 (Z.to_nat (num_bits s)).
Proof.
  intros Hi. unfold cardinality. rewrite popcount_count by apply Hi.
  apply count_widen.
  - pose proof (size_bits s Hi). unfold zlen in *. lia.
  - intros i Hge. apply (inv_ghost s Hi). pose proof (inv_len s Hi). lia.
Qed.

(** ** Word-wise combinations. *)
Lemma length_zip_words f a b : length (zip_words f a b) = length a.
Proof. revert b. induction a as [|x a IH]; intros [|y b]; simpl; auto. Qed.

Lemma at0_zip_words f a b k : 0 <= k ->
  at0 (zip_words f a b) k
  = if (k <? zlen a) && (k <? zlen b) then f (at0 a k) (at0 b k) else at0 a k.
Proof.
  intros Hk. destruct (Z_of_nat_complete k Hk) as [n ->]. unfold at0, zlen. rewrite Nat2Z.id. clear Hk.
  revert n b. induction a as [|x a IH]; intros n [|y b]; cbn [zip_words length].
  - destruct (Z.ltb_spec (Z.of_nat n) (Z.of_nat 0)); [lia|done].
  - destruct (Z.ltb_spec (Z.of_nat n) (Z.of_nat 0)); [lia|done].
  - destruct (Z.ltb_spec (Z.of_nat n) (Z.of_nat 0)); [lia|]. by rewrite andb_false_r.
  - destruct n as [|n]; [done|]. cbn [nth]. rewrite IH.
    destruct (Z.ltb_spec (Z.of_nat n) (Z.of_nat (length a))), (Z.ltb_spec (Z.of_nat n) (Z.of_nat (length b))),
      (Z.ltb_spec (Z.of_nat (S n)) (Z.of_nat (S (length a)))), (Z.ltb_spec (Z.of_nat (S n)) (Z.of_nat (S (length b))));
      try lia; done.
Qed.

Lemma zip_words_ok f a b : words_ok a -> words_ok b -> (forall x y, in_u 64 x -> in_u 64 y -> in_u 64 (f x y)) ->
  words_ok (zip_words f a b).
Proof.
  intros Ha Hb Hf. revert b Hb. induction Ha as [|x a Hx Ha IH]; intros b Hb; destruct Hb as [|y b Hy Hb];
    cbn [zip_words]; [by constructor..|]. constructor; [by apply Hf|by apply IH].
Qed.

Lemma wbit_zip_words bop f a b i : words_ok a -> words_ok b -> 0 <= i ->
  (forall x y k, in_u 64 x -> in_u 64 y -> 0 <= k < 64 ->
     Z.testbit (f x y) k = bop (Z.testbit x k) (Z.testbit y k)) ->
  (forall x, bop x false = x) -> zlen b <= zlen a ->
  wbit (zip_words f a b) i = bop (wbit a i) (wbit b i).
Proof.
  intros Ha Hb Hi Hf Hz Hl. unfold wbit. pose proof (Z.mod_pos_bound i 64 ltac:(lia)).
  rewrite at0_zip_words by (apply Z.div_pos; lia).
  destruct (Z.ltb_spec (i / 64) (zlen a)), (Z.ltb_spec (i / 64) (zlen b)); cbn [andb]; try lia.
  - apply Hf; [by apply at0_range|by apply at0_range|done].
  - rewrite (at0_out b) by done. by rewrite Z.testbit_0_l, Hz.
  - rewrite (at0_out b) by done. by rewrite Z.testbit_0_l, Hz.
Qed.

Lemma zip_with_words f a b : zip_with f a b = take (Nat.min (length a) (length b)) (zip_words f a b).
Proof. revert b. induction a as [|x a IH]; intros [|y b]; simpl; f_equal; auto. Qed.

(** The count of a pairwise combination of two sets. *)
Lemma count_zip op bop a b : inv a -> inv b ->
  (forall x y k, in_u 64 x -> in_u 64 y -> 0 <= k < 64 ->
     Z.testbit (apply_op op x y) k = bop (Z.testbit x k) (Z.testbit y k)) ->
  (forall x y, in_u 64 x -> in_u 64 y -> in_u 64 (apply_op op x y)) ->
  popcount_zip (words a) (words b) op
  = count (fun i => bop (bit a i) (bit b i)) 0 (64 * Nat.min (length (words a)) (length (words b))).
Proof.
  intros Ha Hb Hf Hok. unfold popcount_zip. rewrite zip_with_words.
  set (n := Nat.min _ _). assert (Hz : words_ok (zip_words (apply_op op) (words a) (words b)))
    by (apply zip_words_ok; [apply Ha|apply Hb|done]).
  rewrite popcount_count by by apply Forall_take.
  rewrite length_take, length_zip_words. replace (n `min` length (words a))%nat with n by lia.
  apply count_ext. intros i Hi.
  replace n with (Z.to_nat (Z.of_nat n)) by lia. rewrite wbit_take by lia.
  unfold bit, wbit. rewrite at0_zip_words by (apply Z.div_pos; lia).
  assert (i / 64 < Z.of_nat n) by (apply Z.div_lt_upper_bound; lia).
  destruct (Z.ltb_spec (i / 64) (zlen (words a))), (Z.ltb_spec (i / 64) (zlen (words b)));
    unfold zlen in *; try lia. cbn [andb].
  apply Hf; [apply at0_range, Ha|apply at0_range, Hb|apply Z.mod_pos_bound; lia].
Qed.

(** The words past the common prefix: nothing of the shorter set is there. *)
Lemma count_rest s n m : inv s -> (n <= m)%nat -> (length (words s) <= m)%nat ->
  sum_ones (drop n (words s)) = count (bit s) (64 * Z.of_nat n) (64 * (m - n)).
Proof.
  intros Hi Hn Hm. destruct (Nat.le_ge_cases n (length (words s))) as [Hle|Hge].
  - replace n with (Z.to_nat (Z.of_nat n)) at 1 by lia.
    rewrite (sum_ones_count (words s) (Z.of_nat n) (length (words s) - n)) by (try apply Hi; unfold zlen; lia).
    replace (64 * (m - n))%nat with (64 * (length (words s) - n) + 64 * (m - length (words s)))%nat by lia.
    rewrite count_app, (count_false _ (_ + _)); [change (bit s) with (wbit (words s)); lia|].
    intros i Hi2. apply wbit_out. unfold zlen. lia.
  - rewrite drop_ge by lia. rewrite count_false; [done|]. intros i Hi2. apply wbit_out. unfold zlen. lia.
Qed.

Section counts.
Context (a b : t).
Hypothesis Ha : inv a.
Hypothesis Hb : inv b.

(** An index range that covers both sets. *)
Definition cover : nat := Z.to_nat (Z.max (num_bits a) (num_bits b)).

Lemma count_cover P : (forall i, bit a i = false -> bit b i = false -> P i = false) ->
  count P 0 (64 * Nat.max (length (words a)) (length (words b))) = count P 0 cover.
Proof.
  intros HP. pose proof (size_bits a Ha). pose proof (size_bits b Hb). apply count_widen.
  - unfold cover, zlen in *. lia.
  - intros i Hi. unfold cover in Hi. apply HP; apply inv_ghost; (done || lia).
Qed.

Lemma intersection_count_spec : intersection_count a b = count (fun i => bit a i && bit b i) 0 cover.
Proof.
  unfold intersection_count. rewrite (count_zip And andb); [|done|done|intros; apply Z.land_spec|].
  2: { intros x y Hx Hy. apply in_u_land; [lia|done|apply Hy]. }
  rewrite <- (count_cover (fun i => bit a i && bit b i)) by by intros i -> ->.
  symmetry. apply count_widen; [lia|]. intros i Hi.
  destruct (Nat.le_ge_cases (length (words a)) (length (words b))).
  - unfold bit at 1. rewrite wbit_out; [done|]. unfold zlen. lia.
  - unfold bit at 2. rewrite wbit_out; [by rewrite andb_false_r|]. unfold zlen. lia.
Qed.

Lemma and_not_ok x y : in_u 64 x -> in_u 64 y -> in_u 64 (Z.land x (notu 64 y)).
Proof. intros. apply in_u_land; [lia|done|]. apply in_u_notu; [lia|done]. Qed.

Lemma and_not_count_spec : and_not_count a b = count (fun i => bit a i && negb (bit b i)) 0 cover.
Proof.
  unfold and_not_count. set (n := Nat.min _ _). set (m := Nat.max (length (words a)) (length (words b))).
  rewrite (count_zip AndNot (fun x y => x && negb y)); [|done|done| |apply and_not_ok].
  2: { intros x y k Hx Hy Hk. cbn [apply_op]. by rewrite Z.land_spec, testbit_notu. }
  fold n. rewrite popcount_sum, (count_rest a n m) by (try done; lia).
  rewrite <- (count_cover (fun i => bit a i && negb (bit b i))) by by intros i ->.
  fold m. replace (64 * m)%nat with (64 * n + 64 * (m - n))%nat by lia. rewrite count_app. f_equal.
  replace (0 + Z.of_nat (64 * n)) with (64 * Z.of_nat n) by lia. apply count_ext. intros i Hi.
  destruct (Nat.le_ge_cases (length (words a)) (length (words b))).
  - unfold bit. rewrite (wbit_out (words a)); [done|]. unfold zlen. lia.
  - unfold bit. rewrite (wbit_out (words b)); [by rewrite andb_true_r|]. unfold zlen. lia.
Qed.

Lemma union_count_spec : union_count a b = count (fun i => bit a i || bit b i) 0 cover.
Proof.
  unfold union_count. set (n := Nat.min _ _). set (m := Nat.max (length (words a)) (length (words b))).
  rewrite (count_zip Or orb); [|done|done| |intros; apply in_u_lor; (lia || done)].
  2: { intros. apply Z.lor_spec. }
  fold n. rewrite !popcount_sum, (count_rest a n m), (count_rest b n m) by (try done; lia).
  rewrite <- (count_cover (fun i => bit a i || bit b i)) by by intros i -> ->.
  fold m. replace (64 * m)%nat with (64 * n + 64 * (m - n))%nat by lia. rewrite count_app, <- Z.add_assoc. f_equal.
  replace (0 + Z.of_nat (64 * n)) with (64 * Z.of_nat n) by lia.
  destruct (Nat.le_ge_cases (length (words a)) (length (words b))).
  - rewrite (count_false (bit a)); [|intros i Hi; apply wbit_out; unfold zlen; lia].
    rewrite Z.add_0_l. apply count_ext. intros i Hi. unfold bit. rewrite (wbit_out (words a)); [done|].
    unfold zlen. lia.
  - rewrite (count_false (bit b)); [|intros i Hi; apply wbit_out; unfold zlen; lia].
    rewrite Z.add_0_r. apply count_ext. intros i Hi. unfold bit. rewrite (wbit_out (words b)); [by rewrite orb_false_r|].
    unfold zlen. lia.
Qed.
End counts.

(** The masked head, whole middle and masked tail of a range. *)
Lemma cardinality_range_spec s from to : inv s -> 0 <= from -> from <= to <= num_bits s ->
  cardinality_range s from to = Some (count (bit s) from (Z.to_nat (to - from))).
Proof.
  intros Hi H0 Hft. unfold cardinality_range.
  destruct (Z.leb_spec from to), (Z.leb_spec to (num_bits s)); try lia. cbn [andb negb].
  destruct (Z.eqb_spec from to) as [->|Hne]; [by rewrite Z.sub_diag|].
  pose proof (index_word s from Hi ltac:(lia)) as Hf. pose proof (index_word s (to - 1) Hi ltac:(lia)) as Ht.
  assert (Hle : from / 64 <= (to - 1) / 64) by (apply Z.div_le_mono; lia).
  destruct (range_masks_ok from to) as [Hsm Hem]. pose proof (inv_words s Hi) as Hw.
  assert (Hdf := Z.div_mod from 64 ltac:(lia)). assert (Hmf := Z.mod_pos_bound from 64 ltac:(lia)).
  assert (Hdt := Z.div_mod (to - 1) 64 ltac:(lia)). assert (Hmt := Z.mod_pos_bound (to - 1) 64 ltac:(lia)).
  assert (Hs := fun k => startmask_bits from to k H0). assert (He := fun k => endmask_bits from to k ltac:(lia)).
  destruct (range_masks from to) as [sm em]. cbn [fst snd] in *. rewrite !shiftr_6.
  set (fw := from / 64) in *. set (tw := (to - 1) / 64) in *.
  assert (Hin : forall k i, 0 <= i < 64 -> wbit (words s) (64 * k + i) = Z.testbit (at0 (words s) k) i).
  { intros k i Hi2. unfold wbit. by destruct (word_of_unique (64 * k + i) k i) as [-> ->]; [lia|lia|]. }
  (* a masked word counts the members of its part of the range *)
  assert (Hpart : forall k m lo n, 0 <= lo - 64 * k -> lo - 64 * k + Z.of_nat n <= 64 -> in_u 64 m ->
    (forall i, 0 <= i < 64 -> Z.testbit m i = (lo - 64 * k <=? i) && (i <? lo - 64 * k + Z.of_nat n)) ->
    count_ones (Z.land (at0 (words s) k) m) = count (bit s) lo n).
  { intros k m lo n Hlo Hn Hm Hmask. set (j := Z.to_nat (lo - 64 * k)).
    rewrite (count_ones_count (j + (n + (64 - n - j)))).
    2: { replace (Z.of_nat _) with 64 by lia. apply in_u_land; [lia|by apply at0_range|apply Hm]. }
    rewrite count_app, (count_false _ 0 j), count_app, (count_false _ (_ + _ + _)).
    - replace (0 + Z.of_nat j) with (lo + - (64 * k)) by lia. rewrite <- (count_shift _ (- (64 * k)) lo).
      rewrite Z.add_0_l, Z.add_0_r. apply count_ext. intros i Hi2. rewrite Z.land_spec, Hmask by lia.
      replace (i + - (64 * k)) with (i - 64 * k) by lia. rewrite <- Hin by lia.
      replace (64 * k + (i - 64 * k)) with i by lia. unfold bit.
      destruct (Z.leb_spec (lo - 64 * k) (i - 64 * k)), (Z.ltb_spec (i - 64 * k) (lo - 64 * k + Z.of_nat n)); try lia.
      by rewrite andb_true_r.
    - intros i Hi2. rewrite Z.land_spec, Hmask by lia.
      replace ((lo - 64 * k <=? i) && (i <? lo - 64 * k + Z.of_nat n)) with false by lia. apply andb_false_r.
    - intros i Hi2. rewrite Z.land_spec, Hmask by lia.
      replace ((lo - 64 * k <=? i) && (i <? lo - 64 * k + Z.of_nat n)) with false by lia. apply andb_false_r. }
  destruct (Z.eqb_spec fw tw) as [Eq|Ne].
  - f_equal. rewrite <- Z.land_assoc. apply Hpart; [lia|lia|apply in_u_land; [lia|done|apply Hem]|].
    intros i Hi2. rewrite Z.land_spec, Hs, He by lia. rewrite Z2Nat.id by lia. bool_lia.
  - f_equal.
    replace (Z.to_nat (to - from)) with
      (Z.to_nat (64 * (fw + 1) - from) + (64 * Z.to_nat (tw - (fw + 1)) + Z.to_nat (to - 64 * tw)))%nat by lia.
    rewrite !count_app, Z.add_assoc. f_equal; [f_equal|].
    + apply Hpart; [lia|lia|done|]. intros i Hi2. rewrite Hs by lia. rewrite Z2Nat.id by lia. bool_lia.
    + rewrite popcount_count by by apply Forall_take, Forall_drop.
      rewrite length_take, length_drop.
      replace (Z.to_nat (tw - (fw + 1)) `min` (length (words s) - Z.to_nat (fw + 1)))%nat
        with (Z.to_nat (tw - (fw + 1))) by (unfold zlen in *; lia).
      replace (from + Z.of_nat (Z.to_nat (64 * (fw + 1) - from))) with (0 + 64 * (fw + 1)) by lia.
      rewrite <- count_shift. apply count_ext. intros i Hi2. rewrite wbit_take by lia.
      unfold bit, wbit.
      replace (i + 64 * (fw + 1)) with (64 * (i / 64 + (fw + 1)) + i mod 64)
        by (pose proof (Z.div_mod i 64 ltac:(lia)); lia).
      destruct (word_of_unique (64 * (i / 64 + (fw + 1)) + i mod 64) (i / 64 + (fw + 1)) (i mod 64)) as [-> ->];
        [apply Z.mod_pos_bound; lia|done|].
      f_equal. unfold at0. rewrite !nth_lookup, lookup_drop. do 2 f_equal.
      assert (0 <= i / 64) by (apply Z.div_pos; lia). lia.
    + apply Hpart; [lia|lia|done|]. intros i Hi2. rewrite He by lia. rewrite Z2Nat.id by lia. bool_lia.
Qed.

(** ** Enumeration. *)
Lemma word_index w k : 0 <= k < 64 -> Z.lor (Z.shiftl w 6) k = 64 * w + k.
Proof.
  intros Hk. rewrite lor_disjoint_add; [rewrite shiftl_6; lia|].
  assert (Hu : in_u 6 k) by (split; lia). apply Z.bits_inj'. intros i Hi.
  destruct (Z.ltb_spec i 6); bits_core.
Qed.

Lemma word_bits_members fuel w x k : in_u 64 x -> 0 <= k <= 64 -> 64 - k <= Z.of_nat fuel ->
  (forall j, 0 <= j < k -> Z.testbit x j = false) ->
  word_bits fuel w x = members (fun i => Z.testbit x (i - 64 * w)) (64 * w + k) (Z.to_nat (64 - k)).
Proof.
  intros Hx Hk Hf. remember (Z.to_nat (64 - k)) as n eqn:Hn. revert fuel x k Hx Hk Hf Hn.
  induction n as [|n IH]; intros fuel x k Hx Hk Hf Hn Hz.
  - assert (x = 0) as ->.
    { apply Z.bits_inj'. intros i Hi. rewrite Z.testbit_0_l. destruct (Z.ltb_spec i 64); [apply Hz; lia|].
      by apply (testbit_above 64). }
    by destruct fuel.
  - destruct fuel as [|fuel]; [lia|]. cbn [members].
    replace (64 * w + k - 64 * w) with k by lia. destruct (Z.testbit x k) eqn:Hb.
    + assert (x <> 0) by (intros ->; by rewrite Z.testbit_0_l in Hb).
      cbn [word_bits]. destruct (Z.eqb_spec x 0); [done|].
      rewrite (trailing_zeros_unique 64 x k), word_index by (done || lia). cbn [app]. f_equal.
      assert (Hc : forall i, Z.testbit (Z.land x (x - 1)) i = Z.testbit x i && negb (i =? k))
        by (intros; apply clear_lowest; [apply Hx|lia|done|done]).
      rewrite (IH fuel _ (k + 1)); try lia.
      * rewrite Z.add_assoc. apply members_ext. intros i Hi. rewrite Hc.
        destruct (Z.eqb_spec (i - 64 * w) k); [lia|]. by rewrite andb_true_r.
      * apply in_u_land; [lia|done|]. destruct Hx. lia.
      * intros j Hj. rewrite Hc. destruct (Z.eqb_spec j k); [by rewrite andb_false_r|]. rewrite Hz by lia. done.
    + cbn [app]. rewrite (IH (S fuel) x (k + 1)); [by rewrite Z.add_assoc|done|lia|lia|lia|].
      intros j Hj. destruct (Z.eq_dec j k) as [->|]; [done|]. apply Hz. lia.
Qed.

Lemma word_bits_all w x : in_u 64 x ->
  word_bits 64 w x = members (fun i => Z.testbit x (i - 64 * w)) (64 * w) 64.
Proof.
  intros Hx. rewrite (word_bits_members 64 w x 0) by (try done; lia). by rewrite Z.add_0_r.
Qed.

Lemma each_word_bits_members ws w : words_ok ws -> 0 <= w ->
  each_word_bits w ws = members (fun i => Z.testbit (at0 ws (i / 64 - w)) (i mod 64)) (64 * w) (64 * length ws).
Proof.
  intros Hw. revert w. induction Hw as [|x ws Hx Hw IH]; intros w H0; [done|]. cbn [each_word_bits].
  rewrite word_bits_all, IH by (done || lia).
  replace (64 * length (x :: ws))%nat with (64 + 64 * length ws)%nat by (simpl; lia).
  rewrite members_app. f_equal.
  - apply members_ext. intros i Hi. destruct (word_of_unique i w (i - 64 * w)) as [-> ->]; [lia|lia|].
    by rewrite Z.sub_diag.
  - replace (64 * w + Z.of_nat 64) with (64 * (w + 1)) by lia. apply members_ext. intros i Hi.
    assert (w + 1 <= i / 64) by (apply Z.div_le_lower_bound; lia).
    f_equal. unfold at0. replace (Z.to_nat (i / 64 - w)) with (S (Z.to_nat (i / 64 - (w + 1)))) by lia. done.
Qed.

Lemma for_each_set_bit_members s : inv s ->
  for_each_set_bit s = members (bit s) 0 (Z.to_nat (num_bits s)).
Proof.
  intros Hi. unfold for_each_set_bit. rewrite each_word_bits_members by (try apply Hi; lia).
  pose proof (size_bits s Hi). pose proof (inv_len s Hi).
  replace (64 * length (words s))%nat with (Z.to_nat (num_bits s) + (64 * length (words s) - Z.to_nat (num_bits s)))%nat
    by (unfold zlen in *; lia).
  rewrite members_app, (members_false _ (_ + _)).
  - rewrite app_nil_r. apply members_ext. intros i Hi2. rewrite Z.sub_0_r. done.
  - intros i Hi2. rewrite Z.sub_0_r. apply (inv_ghost s Hi). lia.
Qed.

(** ** The words of a range, masked. *)
Definition range_word (ws : list Z) (from to w : Z) : Z :=
  let bits := at0 ws w in
  let bits := if w =? Z.shiftr from 6 then Z.land bits (shlu 64 MAX64 (Z.land from 63)) else bits in
  if w =? Z.shiftr (to - 1) 6 then Z.land bits (Z.shiftr MAX64 (63 - Z.land (to - 1) 63)) else bits.

Lemma range_word_bits s from to w i : inv s -> 0 <= from < to -> to <= num_bits s ->
  from / 64 <= w <= (to - 1) / 64 -> 0 <= i < 64 ->
  in_u 64 (range_word (words s) from to w) /\
  Z.testbit (range_word (words s) from to w) i
  = bit s (64 * w + i) && ((from <=? 64 * w + i) && (64 * w + i <? to)).
Proof.
  intros Hi Hft Hto Hw Hi2. pose proof (inv_words s Hi) as Hok.
  assert (Hdf := Z.div_mod from 64 ltac:(lia)). assert (Hmf := Z.mod_pos_bound from 64 ltac:(lia)).
  assert (Hdt := Z.div_mod (to - 1) 64 ltac:(lia)). assert (Hmt := Z.mod_pos_bound (to - 1) 64 ltac:(lia)).
  unfold range_word. rewrite !shiftr_6, !land_63.
  assert (Hat := at0_range (words s) w Hok).
  assert (Hb : bit s (64 * w + i) = Z.testbit (at0 (words s) w) i).
  { unfold bit, wbit. by destruct (word_of_unique (64 * w + i) w i) as [-> ->]; [lia|lia|]. }
  assert (Hs : Z.testbit (shlu 64 MAX64 (from mod 64)) i = (from mod 64 <=? i)).
  { by apply (testbit_FROM_BIT (from mod 64)). }
  assert (He : Z.testbit (Z.shiftr MAX64 (63 - (to - 1) mod 64)) i = (i <=? (to - 1) mod 64)).
  { rewrite Z.shiftr_spec, testbit_MAX64 by lia. bool_lia. }
  assert (Heok : 0 <= Z.shiftr MAX64 (63 - (to - 1) mod 64)).
  { apply Z.shiftr_nonneg. destruct MAX64_ok. lia. }
  assert (Hsok : 0 <= shlu 64 MAX64 (from mod 64)) by apply shlu_ok.
  split.
  - destruct (w =? from / 64), (w =? (to - 1) / 64); repeat (apply in_u_land; [lia| |done]); done.
  - rewrite Hb. destruct (Z.eqb_spec w (from / 64)), (Z.eqb_spec w ((to - 1) / 64));
      rewrite ?Z.land_spec, ?Hs, ?He.
    + rewrite <- andb_assoc. f_equal. bool_lia.
    + f_equal. bool_lia.
    + f_equal. bool_lia.
    + replace ((from <=? 64 * w + i) && (64 * w + i <? to)) with true by bool_lia. by rewrite andb_true_r.
Qed.

Lemma range_word_members s from to w : inv s -> 0 <= from < to -> to <= num_bits s ->
  from / 64 <= w <= (to - 1) / 64 ->
  word_bits 64 w (range_word (words s) from to w)
  = members (fun i => bit s i && ((from <=? i) && (i <? to))) (64 * w) 64.
Proof.
  intros Hi Hft Hto Hw. rewrite word_bits_all by (by apply (range_word_bits s from to w 0)).
  apply members_ext. intros i Hi2.
  destruct (range_word_bits s from to w (i - 64 * w) Hi Hft Hto Hw ltac:(lia)) as [_ ->].
  by replace (64 * w + (i - 64 * w)) with i by lia.
Qed.

(** The loop calls its closure on each masked word in turn. *)
Lemma each_word_step {A} (f : Z -> Z -> A -> bool * A) ws k from to w st :
  each_word f ws (S k) from (Z.shiftr MAX64 (63 - Z.land (to - 1) 63)) (Z.shiftr from 6) (Z.shiftr (to - 1) 6) w st
  = let '(go, st') := f w (range_word ws from to w) st in
    if go then each_word f ws k from (Z.shiftr MAX64 (63 - Z.land (to - 1) 63)) (Z.shiftr from 6) (Z.shiftr (to - 1) 6) (w + 1) st'
    else st'.
Proof. done. Qed.

Section range_loops.
Context (s : t) (from to base : Z).
Hypothesis Hs : inv s.
Hypothesis Hft : 0 <= from < to.
Hypothesis Hto : to <= num_bits s.

Definition in_range_members (w : Z) (n : nat) : list Z :=
  members (fun i => bit s i && ((from <=? i) && (i <? to))) (64 * w) (64 * n).

Lemma in_range_members_S w n : from / 64 <= w <= (to - 1) / 64 ->
  in_range_members w (S n) = word_bits 64 w (range_word (words s) from to w) ++ in_range_members (w + 1) n.
Proof.
  intros Hw. rewrite range_word_members by done. unfold in_range_members.
  replace (64 * S n)%nat with (64 + 64 * n)%nat by lia. rewrite members_app. do 2 f_equal. lia.
Qed.

Lemma in_range_members_all :
  in_range_members (from / 64) (Z.to_nat ((to - 1) / 64 - from / 64 + 1)) = members (bit s) from (Z.to_nat (to - from)).
Proof.
  pose proof (Z.div_mod from 64 ltac:(lia)). pose proof (Z.mod_pos_bound from 64 ltac:(lia)).
  pose proof (Z.div_mod (to - 1) 64 ltac:(lia)). pose proof (Z.mod_pos_bound (to - 1) 64 ltac:(lia)).
  assert (from / 64 <= (to - 1) / 64) by (apply Z.div_le_mono; lia).
  apply members_inside; lia.
Qed.

Lemma each_word_calls k w calls : from / 64 <= w -> w + Z.of_nat k <= (to - 1) / 64 + 1 ->
  each_word (fun w bits calls => (true, calls ++ map (based base) (word_bits 64 w bits))) (words s) k from
    (Z.shiftr MAX64 (63 - Z.land (to - 1) 63)) (Z.shiftr from 6) (Z.shiftr (to - 1) 6) w calls
  = calls ++ map (based base) (in_range_members w k).
Proof.
  revert w calls. induction k as [|k IH]; intros w calls H1 H2.
  - cbn. by rewrite app_nil_r.
  - rewrite each_word_step. cbv beta iota. rewrite IH, in_range_members_S, map_app by lia. by rewrite app_assoc.
Qed.

(** [fill_array] writes as many of the word's members as there is room for. *)
Lemma fill_array_spec fuel w bits done_ room :
  fill_array fuel w bits base (zlen done_, done_ ++ room)
  = let ms := take (length room) (map (based base) (word_bits fuel w bits)) in
    (zlen (done_ ++ ms), (done_ ++ ms) ++ drop (length ms) room).
Proof.
  revert bits done_ room. induction fuel as [|fuel IH]; intros bits done_ room.
  - cbn. destruct room; simpl; by rewrite !app_nil_r.
  - cbn [fill_array word_bits]. destruct (Z.eqb_spec bits 0) as [->|Hne]; cbn [negb andb].
    { cbn [map]. rewrite take_nil. simpl. by rewrite !app_nil_r. }
    destruct room as [|x room].
    { rewrite app_nil_r, Z.ltb_irrefl. simpl. by rewrite !app_nil_r. }
    destruct (Z.ltb_spec (zlen done_) (zlen (done_ ++ x :: room))) as [_|Hc];
      [|rewrite zlen_app, zlen_cons in Hc; pose proof (zlen_nonneg room); lia].
    set (v := based base _). cbn [map]. fold v.
    replace (set_at (done_ ++ x :: room) (zlen done_) v) with ((done_ ++ [v]) ++ room).
    2: { unfold set_at, zlen. rewrite Nat2Z.id, insert_app_r_alt by lia. rewrite Nat.sub_diag. simpl.
         by rewrite <- app_assoc. }
    replace (zlen done_ + 1) with (zlen (done_ ++ [v])) by (rewrite zlen_app; done).
    rewrite IH. cbv zeta. cbn [length take]. rewrite <- !app_assoc. cbn [app length drop]. done.
Qed.

Lemma each_word_fill k w done_ room : from / 64 <= w -> w + Z.of_nat k <= (to - 1) / 64 + 1 ->
  each_word (fun w bits st => let st' := fill_array 64 w bits base st in (fst st' <? zlen (snd st'), st')) (words s) k from
    (Z.shiftr MAX64 (63 - Z.land (to - 1) 63)) (Z.shiftr from 6) (Z.shiftr (to - 1) 6) w (zlen done_, done_ ++ room)
  = let ms := take (length room) (map (based base) (in_range_members w k)) in
    (zlen (done_ ++ ms), (done_ ++ ms) ++ drop (length ms) room).
Proof.
  revert w done_ room. induction k as [|k IH]; intros w done_ room H1 H2.
  - cbn. destruct room; simpl; by rewrite !app_nil_r.
  - rewrite each_word_step. cbv beta zeta. rewrite fill_array_spec. cbv zeta. cbn [fst snd].
    rewrite in_range_members_S, map_app by lia.
    set (here := map (based base) (word_bits 64 w _)). set (later := map (based base) (in_range_members (w + 1) k)).
    set (ms := take (length room) here).
    assert (Hlen : length ms = Nat.min (length room) (length here)) by apply length_take.
    destruct (Z.ltb_spec (zlen (done_ ++ ms)) (zlen ((done_ ++ ms) ++ drop (length ms) room))) as [Hl|Hl].
    + rewrite IH by lia. cbv zeta. rewrite length_drop.
      rewrite (zlen_app (done_ ++ ms)) in Hl. unfold zlen in Hl. rewrite length_drop in Hl.
      assert (Hms : ms = here) by (subst ms; apply take_ge; lia). rewrite Hms in *.
      assert (Ht : take (length room) (here ++ later) = here ++ take (length room - length here) later).
      { rewrite take_app_ge by lia. done. }
      rewrite Ht, <- !app_assoc, drop_drop, length_app. done.
    + rewrite (zlen_app (done_ ++ ms)) in Hl. unfold zlen in Hl. rewrite length_drop in Hl.
      assert (Ht : take (length room) (here ++ later) = ms).
      { rewrite take_app_le by lia. done. }
      by rewrite Ht.
Qed.
End range_loops.

(** ** The theorems. *)

(** Counting.  [cardinality] (the four-accumulator kernel over whole
    words) is the number of members, and [cardinality_range] the number in a
    range, panicking outside the length; [approximate_cardinality] is exact up
    to 1024 words; [intersection_count], [union_count] and [and_not_count]
    count the combined sets without building them, whatever the two lengths. *)
Lemma cardinalities (a b : t) (from to : Z) : inv a -> inv b -> 0 <= from ->
  let n := Z.to_nat (Z.max (num_bits a) (num_bits b)) in
  cardinality a = count (bit a) 0 (Z.to_nat (num_bits a))
  /\ (zlen (words a) <= 1024 -> approximate_cardinality a = cardinality a)
  /\ cardinality_range a from to
     = (if (from <=? to) && (to <=? num_bits a) then Some (count (bit a) from (Z.to_nat (to - from))) else None)
  /\ intersection_count a b = count (fun i => bit a i && bit b i) 0 n
  /\ union_count a b = count (fun i => bit a i || bit b i) 0 n
  /\ and_not_count a b = count (fun i => bit a i && negb (bit b i)) 0 n.
Proof.
  intros Ha Hb H0 n. split; [by apply cardinality_count|]. split; [|split; [|split; [|split]]].
  - intros Hl. unfold approximate_cardinality. by destruct (Z.leb_spec (zlen (words a)) 1024); [|lia].
  - destruct ((from <=? to) && (to <=? num_bits a)) eqn:E.
    + apply andb_true_iff in E as [?%Z.leb_le ?%Z.leb_le]. by apply cardinality_range_spec.
    + unfold cardinality_range. by rewrite E.
  - by apply intersection_count_spec.
  - by apply union_count_spec.
  - by apply and_not_count_spec.
Qed.

Lemma cardinalities_witness :
  inv (new 100) /\ inv (new 300)
  /\ union_count (new 100) (new 300) = count (fun i => bit (new 100) i || bit (new 300) i) 0 300.
Proof.
  assert (Ha : inv (new 100)) by (apply new_inv; lia). assert (Hb : inv (new 300)) by (apply new_inv; lia).
  split; [exact Ha|]. split; [exact Hb|].
  exact (proj1 (proj2 (proj2 (proj2 (proj2 (cardinalities (new 100) (new 300) 0 0 Ha Hb ltac:(lia))))))).
Defined.

(** Enumeration.  [for_each_set_bit] calls its consumer with exactly the
    members, ascending; [for_each_in_range] with those of the range, offset by
    [base]; [into_array] writes the first of them that fit, leaves the rest of
    the array alone and returns how many it wrote. *)
Lemma enumeration (s : t) (from to base : Z) (array : list Z) : inv s -> 0 <= from ->
  let found := map (based base) (members (bit s) from (Z.to_nat (to - from))) in
  let written := take (length array) found in
  for_each_set_bit s = members (bit s) 0 (Z.to_nat (num_bits s))
  /\ (from <= to <= num_bits s ->
       for_each_in_range s from to base = Some found
       /\ into_array s from to base array = Some (zlen written, written ++ drop (length written) array))
  /\ (~ from <= to <= num_bits s ->
       for_each_in_range s from to base = None /\ into_array s from to base array = None).
Proof.
  intros Hi H0 found written. split; [by apply for_each_set_bit_members|].
  unfold for_each_in_range, into_array. split.
  - intros Hft. destruct (Z.leb_spec from to), (Z.leb_spec to (num_bits s)); try lia. cbn [andb negb].
    unfold for_each_word_in_range. destruct (Z.leb_spec to from).
    { subst written found. replace (Z.to_nat (to - from)) with 0%nat by lia. cbn [members map].
      rewrite take_nil. by rewrite drop_0. }
    assert (from / 64 <= (to - 1) / 64) by (apply Z.div_le_mono; lia).
    rewrite !(shiftr_6 from), !(shiftr_6 (to - 1)). split.
    + f_equal. rewrite <- (shiftr_6 from) at 2. rewrite <- (shiftr_6 (to - 1)) at 2.
      rewrite each_word_calls by (try done; lia). subst found. by rewrite in_range_members_all by (done || lia).
    + f_equal. rewrite <- (shiftr_6 from) at 2. rewrite <- (shiftr_6 (to - 1)) at 2.
      change (0, array) with (zlen (@nil Z), [] ++ array).
      rewrite each_word_fill by (try done; lia). cbv zeta. by rewrite in_range_members_all by (done || lia).
  - intros Hn. destruct (Z.leb_spec from to), (Z.leb_spec to (num_bits s)); try done. lia.
Qed.

Lemma enumeration_witness :
  for_each_set_bit (new 100) = members (bit (new 100)) 0 (Z.to_nat (num_bits (new 100)))
  /\ into_array (mk [11; 6] 70) 0 70 100 [0; 0; 0; 7] = Some (4, [100; 101; 103; 165]).
Proof.
  assert (Hi : inv (new 100)) by (apply new_inv; lia).
  split; [exact (proj1 (enumeration (new 100) 0 0 0 [] Hi ltac:(lia)))|]. vm_compute. reflexivity.
Defined.

(** ** Boolean algebra. *)
Lemma zip_words_models bop f a b : inv a -> inv b ->
  (forall x y k, in_u 64 x -> in_u 64 y -> 0 <= k < 64 ->
     Z.testbit (f x y) k = bop (Z.testbit x k) (Z.testbit y k)) ->
  (forall x y, in_u 64 x -> in_u 64 y -> in_u 64 (f x y)) ->
  (forall x, bop x false = x) ->
  (forall i, num_bits a <= i -> bop false (bit b i) = false) -> zlen (words b) <= zlen (words a) ->
  models (mk (zip_words f (words a) (words b)) (num_bits a)) (num_bits a) (fun i => bop (bit a i) (bit b i)).
Proof.
  intros Ha Hb Hf Hok Hz Hg Hl.
  assert (E : forall i, 0 <= i -> wbit (zip_words f (words a) (words b)) i = bop (bit a i) (bit b i)).
  { intros i Hi. apply wbit_zip_words; try done; [apply Ha|apply Hb]. }
  split; [|split; [done|exact E]]. destruct Ha as [H1 H2 H3 H4]. split; cbn [words num_bits].
  - done.
  - apply zip_words_ok; [done|apply Hb|done].
  - unfold zlen in *. by rewrite length_zip_words.
  - intros i Hge. unfold bit at 1. cbn [words]. rewrite E, H4 by lia. by apply Hg.
Qed.

Lemma zip_words_take f a b : zip_words f a b = zip_words f a (take (length a) b).
Proof. revert b. induction a as [|x a IH]; intros [|y b]; simpl; f_equal; auto. Qed.

(** [b] cut to the words of [a]: for an intersection or a difference the rest
    of [b] does not matter. *)
Lemma zip_words_cut bop f a b : inv a -> inv b ->
  (forall x y k, in_u 64 x -> in_u 64 y -> 0 <= k < 64 ->
     Z.testbit (f x y) k = bop (Z.testbit x k) (Z.testbit y k)) ->
  (forall x y, in_u 64 x -> in_u 64 y -> in_u 64 (f x y)) ->
  (forall x, bop x false = x) -> (forall y, bop false y = false) ->
  models (mk (zip_words f (words a) (words b)) (num_bits a)) (num_bits a) (fun i => bop (bit a i) (bit b i)).
Proof.
  intros Ha Hb Hf Hok Hz Hg.
  assert (E : forall i, 0 <= i -> wbit (zip_words f (words a) (words b)) i = bop (bit a i) (bit b i)).
  { intros i Hi. rewrite zip_words_take.
    rewrite (wbit_zip_words bop); [|apply Ha|by apply Forall_take; apply Hb|done|done|done|].
    - unfold bit. destruct (Z.ltb_spec i (64 * zlen (words a))).
      + f_equal. rewrite <- (Nat2Z.id (length (words a))). apply wbit_take. unfold zlen in *. lia.
      + by rewrite (wbit_out (words a)), !Hg by done.
    - unfold zlen. rewrite length_take. lia. }
  split; [|split; [done|exact E]]. destruct Ha as [H1 H2 H3 H4]. split; cbn [words num_bits].
  - done.
  - apply zip_words_ok; [done|apply Hb|done].
  - unfold zlen in *. by rewrite length_zip_words.
  - intros i Hge. unfold bit at 1. cbn [words]. rewrite E, H4 by lia. apply Hg.
Qed.

Lemma and_models a b : inv a -> inv b -> models (and a b) (num_bits a) (fun i => bit a i && bit b i).
Proof.
  intros Ha Hb. unfold and. set (n := Nat.min _ _).
  set (ws := zip_with Z.land (words a) (words b) ++ map (fun _ => 0) (drop n (words a))).
  assert (Hlen : zlen ws = zlen (words a)).
  { subst ws. unfold zlen. rewrite length_app, length_zip_with, List.length_map, length_drop. lia. }
  assert (Hat : forall k, 0 <= k -> at0 ws k = Z.land (at0 (words a) k) (at0 (words b) k)).
  { intros k Hk. subst ws. destruct (Z.ltb_spec k (Z.of_nat n)).
    - unfold at0. rewrite app_nth1 by (rewrite length_zip_with; lia). rewrite !nth_lookup, lookup_zip_with.
      destruct (lookup_lt_is_Some_2 (words a) (Z.to_nat k)) as [x ->]; [lia|].
      destruct (lookup_lt_is_Some_2 (words b) (Z.to_nat k)) as [y ->]; [lia|]. done.
    - unfold at0 at 1. rewrite app_nth2 by (rewrite length_zip_with; lia).
      assert (E : forall (l : list Z) m, nth m (map (fun _ => 0) l) 0 = 0) by (induction l; destruct m; simpl; auto).
      rewrite E. destruct (Nat.le_ge_cases (length (words a)) (length (words b))).
      + rewrite (at0_out (words a)); [done|]. unfold zlen. lia.
      + rewrite (at0_out (words b)); [by rewrite Z.land_0_r|]. unfold zlen. lia. }
  assert (Hbit : forall i, 0 <= i -> wbit ws i = bit a i && bit b i).
  { intros i Hi. unfold wbit. rewrite Hat by (apply Z.div_pos; lia). apply Z.land_spec. }
  split; [|split; [done|exact Hbit]]. destruct Ha as [H1 H2 H3 H4]. split; cbn [words num_bits].
  - done.
  - apply Forall_app. split.
    + rewrite zip_with_words. apply Forall_take, zip_words_ok; [done|apply Hb|].
      intros x y Hx Hy. apply in_u_land; [lia|done|apply Hy].
    + apply Forall_fmap. eapply Forall_impl; [|apply Forall_drop, H2]. intros; apply in_u_0; lia.
  - by rewrite Hlen.
  - intros i Hge. unfold bit at 1. cbn [words]. by rewrite Hbit, H4 by lia.
Qed.

(** The bulk operations are the operations of sets, length and ghost bits
    kept: union (panicking when the other is longer), intersection, difference
    and symmetric difference; [intersects] and [scan_is_empty] decide
    disjointness and emptiness, and [eq] decides equality of length and
    members. *)
Lemma boolean_algebra (a b : t) : inv a -> inv b ->
  (num_bits a < num_bits b -> or a b = None)
  /\ (num_bits b <= num_bits a ->
       (exists s, or a b = Some s /\ models s (num_bits a) (fun i => bit a i || bit b i))
       /\ (exists s, xor a b = Some s /\ models s (num_bits a) (fun i => xorb (bit a i) (bit b i))))
  /\ models (and a b) (num_bits a) (fun i => bit a i && bit b i)
  /\ models (and_not a b) (num_bits a) (fun i => bit a i && negb (bit b i))
  /\ (scan_is_empty a = true <-> forall i, 0 <= i -> bit a i = false)
  /\ (eq a b = true <-> num_bits a = num_bits b /\ forall i, 0 <= i -> bit a i = bit b i).
Proof.
  intros Ha Hb.
  assert (Hsize : num_bits b <= num_bits a -> zlen (words b) <= zlen (words a)).
  { intros Hl. rewrite !inv_size by done. pose proof (inv_len b Hb).
    destruct (bits2words_spec (num_bits a)), (bits2words_spec (num_bits b)); lia. }
  assert (Hghost : num_bits b <= num_bits a -> forall i, num_bits a <= i -> bit b i = false).
  { intros Hl i Hge. apply (inv_ghost b Hb). lia. }
  split; [|split; [|split; [|split; [|split]]]].
  - intros Hl. unfold or. by destruct (Z.ltb_spec (num_bits a) (num_bits b)); [|lia].
  - intros Hl. specialize (Hsize Hl). specialize (Hghost Hl). split.
    + unfold or. destruct (Z.ltb_spec (num_bits a) (num_bits b)); [lia|]. eexists. split; [done|].
      apply (zip_words_models orb); try done.
      * intros. apply Z.lor_spec.
      * intros. apply in_u_lor; [lia|done|done].
      * intros x. apply orb_false_r.
    + unfold xor. destruct (Z.ltb_spec (zlen (words a)) (zlen (words b))); [lia|]. eexists. split; [done|].
      apply (zip_words_models xorb); try done.
      * intros. apply Z.lxor_spec.
      * intros. apply in_u_lxor; [lia|done|done].
      * intros x. apply xorb_false_r.
  - by apply and_models.
  - apply (zip_words_cut (fun x y => x && negb y)); try done.
    + intros x y k Hx Hy Hk. by rewrite Z.land_spec, testbit_notu.
    + apply and_not_ok.
    + intros x. apply andb_true_r.
  - unfold scan_is_empty. rewrite forallb_forall. split.
    + intros He i Hi. unfold bit, wbit. destruct (Z.ltb_spec (i / 64) (zlen (words a))).
      * assert (0 <= i / 64) by (apply Z.div_pos; lia).
        rewrite (proj1 (Z.eqb_eq _ _) (He _ (proj1 (list_elem_of_In _ _) (list_elem_of_lookup_2 _ _ _ (at0_lookup (words a) (i / 64) ltac:(lia)))))).
        apply Z.testbit_0_l.
      * by rewrite at0_out, Z.testbit_0_l.
    + intros He w Hw%list_elem_of_In%list_elem_of_lookup_1. destruct Hw as [n Hn]. apply Z.eqb_eq.
      apply Z.bits_inj'. intros k Hk. rewrite Z.testbit_0_l. destruct (Z.ltb_spec k 64).
      * rewrite <- (He (64 * Z.of_nat n + k)) by lia. unfold bit, wbit.
        destruct (word_of_unique (64 * Z.of_nat n + k) (Z.of_nat n) k) as [-> ->]; [lia|lia|].
        unfold at0. by rewrite Nat2Z.id, (nth_lookup_Some _ _ _ _ Hn).
      * apply (testbit_above 64); [|done]. apply (Forall_lookup_1 _ _ _ _ (inv_words a Ha) Hn).
  - unfold eq. rewrite andb_true_iff, Z.eqb_eq, bool_decide_eq_true. split.
    + intros [H1 H2]. split; [done|]. intros i Hi. unfold bit. by rewrite H2.
    + intros [H1 H2]. split; [done|]. apply wbit_ext; [apply Ha|apply Hb| |done].
      rewrite !inv_size by done. by rewrite H1.
Qed.

Lemma boolean_algebra_witness :
  inv (new 100) /\ inv (new 30)
  /\ (exists s, or (new 100) (new 30) = Some s /\ models s 100 (fun i => bit (new 100) i || bit (new 30) i)).
Proof.
  assert (Ha : inv (new 100)) by (apply new_inv; lia). assert (Hb : inv (new 30)) by (apply new_inv; lia).
  split; [exact Ha|]. split; [exact Hb|].
  refine (proj1 (proj1 (proj2 (boolean_algebra (new 100) (new 30) Ha Hb)) _)). vm_compute. congruence.
Defined.
