(* ===== verification/FixedBitSetRange.v ===== *)
(** [FixedBitSet]'s word-shifting operations: copying a sub-range of one set
    onto another at any alignment, masking, merging word blocks, and growing. *)
From stdpp Require Import strings.
From S2P Require Import Prelude BitWords FixedBitSet FixedBitSetSpec FixedBitSetAlgebra.
Import FixedBitSet.

(** ** Reading up to 64 bits at any offset. *)
Lemma shiftr_ok w n : in_u 64 w -> 0 <= n -> in_u 64 (Z.shiftr w n).
Proof.
  intros [H1 H2] Hn. rewrite Z.shiftr_div_pow2 by lia. pose proof (Z.pow_pos_nonneg 2 n).
  split; [apply Z.div_pos; lia|]. eapply Z.le_lt_trans; [|exact H2]. apply Z.div_le_upper_bound; nia.
Qed.

(** Two adjacent words seen at offset [sh]. *)
Lemma straddle_bits w0 w1 sh k : in_u 64 w0 -> in_u 64 w1 -> 0 < sh < 64 -> 0 <= k ->
  Z.testbit (Z.lor (Z.shiftr w0 sh) (shlu 64 w1 (64 - sh))) k
  = if k <? 64 then (if k + sh <? 64 then Z.testbit w0 (k + sh) else Z.testbit w1 (k + sh - 64)) else false.
Proof.
  intros H0 H1 Hsh Hk. rewrite Z.lor_spec, Z.shiftr_spec, testbit_shlu by lia.
  destruct (Z.ltb_spec k 64), (Z.ltb_spec (k + sh) 64), (Z.leb_spec 0 k); try lia; cbn [andb].
  - rewrite (Z.testbit_neg_r w1) by lia. by rewrite orb_false_r.
  - rewrite (testbit_above 64 w0) by (done || lia). cbn [orb]. f_equal. lia.
  - rewrite (testbit_above 64 w0) by (done || lia). done.
Qed.

Lemma wbit_offset ws from k : 0 <= k + from mod 64 < 128 ->
  wbit ws (from + k) = if k + from mod 64 <? 64 then Z.testbit (at0 ws (from / 64)) (k + from mod 64)
                       else Z.testbit (at0 ws (from / 64 + 1)) (k + from mod 64 - 64).
Proof.
  intros H. unfold wbit. pose proof (Z.div_mod from 64 ltac:(lia)). pose proof (Z.mod_pos_bound from 64 ltac:(lia)).
  destruct (Z.ltb_spec (k + from mod 64) 64).
  - by destruct (word_of_unique (from + k) (from / 64) (k + from mod 64)) as [-> ->]; [lia|lia|].
  - by destruct (word_of_unique (from + k) (from / 64 + 1) (k + from mod 64 - 64)) as [-> ->]; [lia|lia|].
Qed.

Lemma low_bits_mask n k : 0 < n < 64 -> 0 <= k -> Z.testbit (shlu 64 1 n - 1) k = (k <? n).
Proof.
  intros Hn Hk. unfold shlu. rewrite Z.mod_small, Z.shiftl_mul_pow2, Z.mul_1_l by lia.
  rewrite wrapu_id by (apply in_u_pow2; lia).
  replace (2 ^ n - 1) with (Z.ones n) by (rewrite Z.ones_equiv; lia). rewrite testbit_ones by lia. bool_lia.
Qed.

Lemma bits_at_spec s from n : inv s -> 0 <= from -> 1 <= n <= 64 ->
  in_u n (bits_at s from n) /\
  forall k, 0 <= k -> Z.testbit (bits_at s from n) k = (k <? n) && bit s (from + k).
Proof.
  intros Hi Hf Hn. unfold bits_at. rewrite shiftr_6, land_63.
  pose proof (Z.mod_pos_bound from 64 ltac:(lia)) as Hsh.
  assert (H0 := at0_range (words s) (from / 64) (inv_words s Hi)).
  assert (H1 := at0_range (words s) (from / 64 + 1) (inv_words s Hi)).
  set (v := if 64 <? _ then _ else _).
  assert (Hv : forall k, 0 <= k < n -> Z.testbit v k = bit s (from + k)).
  { intros k Hk. unfold bit. rewrite wbit_offset by lia. subst v.
    destruct (Z.ltb_spec 64 (from mod 64 + n)) as [Hs|Hs].
    - rewrite straddle_bits by (done || lia). by destruct (Z.ltb_spec k 64); [|lia].
    - rewrite Z.shiftr_spec by lia. by destruct (Z.ltb_spec (k + from mod 64) 64); [|lia]. }
  assert (Hv64 : in_u 64 v).
  { subst v. destruct (_ <? _); [apply in_u_lor; [lia| |apply shlu_ok]|]; apply shiftr_ok; (done || lia). }
  assert (E : forall k, 0 <= k -> Z.testbit (if n <? 64 then Z.land v (shlu 64 1 n - 1) else v) k
                = (k <? n) && bit s (from + k)).
  { intros k Hk. destruct (Z.ltb_spec n 64).
    - rewrite Z.land_spec, low_bits_mask by lia. destruct (Z.ltb_spec k n); cbn [andb]; [|apply andb_false_r].
      rewrite Hv by lia. apply andb_true_r.
    - destruct (Z.ltb_spec k n); cbn [andb]; [apply Hv; lia|]. apply (testbit_above 64); [done|lia]. }
  split; [|exact E]. apply in_u_bits; [lia| |].
  - destruct (Z.ltb_spec n 64); [apply Z.land_nonneg; left; apply Hv64|apply Hv64].
  - intros i Hi2. rewrite E by lia. by destruct (Z.ltb_spec i n); [lia|].
Qed.

(** ** The walk. *)
Lemma length_combine_shifted word sh d src : length (combine_shifted word sh d src) = length d.
Proof.
  revert src. induction d as [|x d IH]; intros [|y0 [|y1 src]]; cbn [combine_shifted length]; auto.
Qed.

Lemma at0_combine_shifted word sh d src k : 0 <= k < zlen d -> k + 1 < zlen src ->
  at0 (combine_shifted word sh d src) k
  = word (at0 d k) (Z.lor (Z.shiftr (at0 src k) sh) (shlu 64 (at0 src (k + 1)) (64 - sh))).
Proof.
  intros Hk Hk2. destruct (Z_of_nat_complete k ltac:(lia)) as [n ->].
  replace (Z.of_nat n + 1) with (Z.of_nat (S n)) in * by lia. unfold at0, zlen in *. rewrite !Nat2Z.id.
  revert n src Hk Hk2. induction d as [|x d IH]; intros n src Hk Hk2; [simpl in Hk; lia|].
  destruct src as [|y0 [|y1 src]]; [simpl in Hk2; lia|simpl in Hk2; lia|]. cbn [combine_shifted].
  destruct n as [|n]; [done|]. cbn [nth]. rewrite IH; [done|simpl in *; lia|simpl in *; lia].
Qed.

Lemma words_ok_at0 ws : (forall k, 0 <= k < zlen ws -> in_u 64 (at0 ws k)) -> words_ok ws.
Proof.
  intros H. apply Forall_lookup_2. intros n x Hx. specialize (H (Z.of_nat n)).
  unfold at0 in H. rewrite Nat2Z.id, (nth_lookup_Some _ _ _ _ Hx) in H. apply H.
  apply lookup_lt_Some in Hx. unfold zlen. lia.
Qed.

Section range_op.
Context (source : t) (head : Z -> Z -> Z -> Z -> Z) (word : Z -> Z -> Z) (bop : bool -> bool -> bool).
Hypothesis Hsrc : inv source.
Hypothesis head_bits : forall d bits sh n, in_u 64 d -> in_u n bits -> 0 <= sh -> 1 <= n -> sh + n <= 64 ->
  in_u 64 (head d bits sh n) /\ forall k, 0 <= k < 64 ->
    Z.testbit (head d bits sh n) k
    = if (sh <=? k) && (k <? sh + n) then bop (Z.testbit d k) (Z.testbit bits (k - sh)) else Z.testbit d k.
Hypothesis word_bits : forall d w, in_u 64 d -> in_u 64 w ->
  in_u 64 (word d w) /\ forall k, 0 <= k < 64 -> Z.testbit (word d w) k = bop (Z.testbit d k) (Z.testbit w k).

(** The combination of [[dest_from, dest_from + length)]. *)
Definition combined (P : Z -> bool) (source_from dest_from length j : Z) : bool :=
  if (dest_from <=? j) && (j <? dest_from + length) then bop (P j) (bit source (source_from + (j - dest_from)))
  else P j.

(** One partial word. *)
Lemma head_upd ws source_from dest_from n : words_ok ws -> 0 <= source_from -> 0 <= dest_from -> 1 <= n ->
  dest_from mod 64 + n <= 64 -> dest_from / 64 < zlen ws ->
  let ws' := upd ws (dest_from / 64) (fun x => head x (bits_at source source_from n) (dest_from mod 64) n) in
  words_ok ws' /\ zlen ws' = zlen ws /\
  forall j, 0 <= j -> wbit ws' j = combined (wbit ws) source_from dest_from n j.
Proof.
  intros Hw Hsf Hdf Hn Hfit Hlt. pose proof (Z.mod_pos_bound dest_from 64 ltac:(lia)) as Hm.
  pose proof (Z.div_mod dest_from 64 ltac:(lia)) as Hd. assert (0 <= dest_from / 64) by (apply Z.div_pos; lia).
  destruct (bits_at_spec source source_from n Hsrc Hsf ltac:(lia)) as [Hb Hbits].
  destruct (head_bits (at0 ws (dest_from / 64)) (bits_at source source_from n) (dest_from mod 64) n) as [Hok Hh];
    [by apply at0_range|done|lia|lia|lia|].
  cbv zeta. split; [by apply words_ok_set|]. split; [unfold upd; by rewrite zlen_set_at|].
  intros j Hj. rewrite wbit_upd by lia. unfold combined.
  pose proof (Z.mod_pos_bound j 64 ltac:(lia)). pose proof (Z.div_mod j 64 ltac:(lia)).
  destruct (Z.eqb_spec (j / 64) (dest_from / 64)) as [Eq|Ne].
  - rewrite Hh by lia. unfold wbit. rewrite Eq.
    replace ((dest_from <=? j) && (j <? dest_from + n))
      with ((dest_from mod 64 <=? j mod 64) && (j mod 64 <? dest_from mod 64 + n)) by bool_lia.
    destruct ((dest_from mod 64 <=? j mod 64) && (j mod 64 <? dest_from mod 64 + n)) eqn:Ein; [|done].
    f_equal. apply andb_true_iff in Ein as [?%Z.leb_le ?%Z.ltb_lt].
    rewrite Hbits by lia. destruct (Z.ltb_spec (j mod 64 - dest_from mod 64) n); [|lia]. cbn [andb]. f_equal. lia.
  - replace ((dest_from <=? j) && (j <? dest_from + n)) with false by bool_lia. done.
Qed.

(** The whole words: [y] is the source seen from bit [source_from + 64 * k]. *)
Lemma full_words d sw shift full k : words_ok d -> zlen d = full -> 0 <= k < full -> 0 <= sw -> 0 <= shift < 64 ->
  sw + full + (if shift =? 0 then 0 else 1) <= zlen (words source) ->
  let d' := if shift =? 0 then zip_words word d (take (Z.to_nat full) (drop (Z.to_nat sw) (words source)))
            else if 0 <? full then
              combine_shifted word shift d (take (Z.to_nat (full + 1)) (drop (Z.to_nat sw) (words source)))
            else d in
  zlen d' = full /\ in_u 64 (at0 d' k) /\
  forall i, 0 <= i < 64 -> Z.testbit (at0 d' k) i
    = bop (Z.testbit (at0 d k) i) (bit source (64 * (sw + k) + shift + i)).
Proof.
  intros Hd Hl Hk Hsw Hsh Hlen. cbv zeta. assert (Hok := inv_words source Hsrc).
  assert (Hat := fun j => at0_range (words source) j Hok).
  destruct (Z.eqb_spec shift 0) as [->|Hne].
  - split; [unfold zlen; rewrite length_zip_words; done|].
    rewrite at0_zip_words by lia.
    assert (zlen (take (Z.to_nat full) (drop (Z.to_nat sw) (words source))) = full) as Hz.
    { unfold zlen in *. rewrite length_take, length_drop. lia. }
    rewrite Hz, Hl. destruct (Z.ltb_spec k full); [|lia]. cbn [andb].
    rewrite at0_take, at0_drop by lia.
    destruct (word_bits (at0 d k) (at0 (words source) (sw + k))) as [H1 H2]; [by apply at0_range|done|].
    split; [done|]. intros i Hi. rewrite H2 by done. f_equal. unfold bit, wbit.
    by destruct (word_of_unique (64 * (sw + k) + 0 + i) (sw + k) i) as [-> ->]; [lia|lia|].
  - destruct (Z.ltb_spec 0 full); [|lia]. split; [unfold zlen; rewrite length_combine_shifted; done|].
    assert (zlen (take (Z.to_nat (full + 1)) (drop (Z.to_nat sw) (words source))) = full + 1) as Hz.
    { unfold zlen in *. rewrite length_take, length_drop. lia. }
    rewrite at0_combine_shifted by lia. rewrite !at0_take, !at0_drop by lia.
    set (y := Z.lor _ _). assert (Hy : in_u 64 y).
    { apply in_u_lor; [lia|apply shiftr_ok; [done|lia]|apply shlu_ok]. }
    destruct (word_bits (at0 d k) y) as [H1 H2]; [by apply at0_range|done|].
    split; [done|]. intros i Hi. rewrite H2 by done. f_equal. subst y.
    rewrite straddle_bits by (done || lia). destruct (Z.ltb_spec i 64); [|lia].
    unfold bit. rewrite wbit_offset.
    + destruct (word_of_unique (64 * (sw + k) + shift) (sw + k) shift) as [-> ->]; [lia|lia|].
      by replace (sw + (k + 1)) with (sw + k + 1) by lia.
    + destruct (word_of_unique (64 * (sw + k) + shift) (sw + k) shift) as [_ ->]; [lia|lia|]. lia.
Qed.

Lemma range_words_bits ws source_from dest_from length : words_ok ws -> 0 <= source_from -> 0 <= dest_from ->
  0 <= length -> dest_from mod 64 = 0 -> dest_from + length <= 64 * zlen ws ->
  source_from + length <= num_bits source ->
  let ws' := range_words source source_from ws dest_from length head word in
  words_ok ws' /\ zlen ws' = zlen ws /\
  forall j, 0 <= j -> wbit ws' j = combined (wbit ws) source_from dest_from length j.
Proof.
  intros Hw Hsf Hdf Hlen Hal Hdl Hsl. cbv zeta. unfold range_words. rewrite !shiftr_6, land_63, !shiftl_6.
  set (full := length / 64). set (dwi := dest_from / 64). set (sw := source_from / 64). set (shift := source_from mod 64).
  pose proof (Z.div_mod length 64 ltac:(lia)) as Hl. pose proof (Z.mod_pos_bound length 64 ltac:(lia)) as Hlm.
  pose proof (Z.div_mod dest_from 64 ltac:(lia)) as Hd. rewrite Hal in Hd.
  pose proof (Z.div_mod source_from 64 ltac:(lia)) as Hs. pose proof (Z.mod_pos_bound source_from 64 ltac:(lia)) as Hsm.
  fold full in Hl. fold dwi in Hd. fold sw shift in Hs. fold shift in Hsm.
  assert (0 <= full) by (apply Z.div_pos; lia). assert (0 <= dwi) by (apply Z.div_pos; lia).
  assert (0 <= sw) by (apply Z.div_pos; lia). pose proof (size_bits source Hsrc) as Hsize.
  set (d := take (Z.to_nat full) (drop (Z.to_nat dwi) ws)).
  assert (Hdlen : zlen d = full). { subst d. unfold zlen in *. rewrite length_take, length_drop. lia. }
  assert (Hdok : words_ok d) by (by apply Forall_take, Forall_drop).
  set (d' := if shift =? 0 then _ else _).
  assert (Hd' : zlen d' = full /\ forall k, 0 <= k < full -> in_u 64 (at0 d' k) /\
    forall i, 0 <= i < 64 -> Z.testbit (at0 d' k) i = bop (Z.testbit (at0 ws (dwi + k)) i) (bit source (64 * (sw + k) + shift + i))).
  { assert (Hroom : 0 < full -> sw + full + (if shift =? 0 then 0 else 1) <= zlen (words source)).
    { intros. destruct (Z.eqb_spec shift 0); lia. }
    destruct (Z.eq_dec full 0) as [Hz|Hnz].
    - split; [|intros; lia]. subst d'. assert (Hnil : d = []) by (apply zlen_0_inv; lia).
      rewrite Hnil, Hz. destruct (shift =? 0); [by destruct (take _ _)|done].
    - split.
      + apply (full_words d sw shift full 0); (done || lia || apply Hroom; lia).
      + intros k Hk. destruct (full_words d sw shift full k) as (_ & F1 & F2); [done|done|lia|lia|lia|apply Hroom; lia|].
        split; [done|]. intros i Hi. rewrite F2 by done. f_equal. subst d.
        rewrite at0_take, at0_drop by lia. done. }
  destruct Hd' as [Hd'l Hd'b].
  set (dw := take (Z.to_nat dwi) ws ++ d' ++ drop (Z.to_nat (dwi + full)) ws).
  assert (Hdw : dw = take (Z.to_nat dwi) ws ++ d' ++ drop (Z.to_nat (dwi + zlen d')) ws) by (by rewrite Hd'l).
  assert (Hdwl : zlen dw = zlen ws) by (rewrite Hdw; apply zlen_splice; lia).
  assert (Hdwat : forall k, 0 <= k -> at0 dw k = if (dwi <=? k) && (k <? dwi + full) then at0 d' (k - dwi) else at0 ws k).
  { intros k Hk. rewrite Hdw, at0_splice by lia. by rewrite Hd'l. }
  assert (Hdwok : words_ok dw).
  { apply words_ok_at0. intros k Hk. rewrite Hdwat by lia.
    destruct (Z.leb_spec dwi k), (Z.ltb_spec k (dwi + full)); cbn [andb]; try by apply at0_range.
    apply Hd'b. lia. }
  assert (Hdwb : forall j, 0 <= j -> wbit dw j = combined (wbit ws) source_from dest_from (64 * full) j).
  { intros j Hj. unfold combined. pose proof (Z.mod_pos_bound j 64 ltac:(lia)). pose proof (Z.div_mod j 64 ltac:(lia)).
    assert (0 <= j / 64) by (apply Z.div_pos; lia). unfold wbit at 1. rewrite Hdwat by done.
    replace ((dest_from <=? j) && (j <? dest_from + 64 * full)) with ((dwi <=? j / 64) && (j / 64 <? dwi + full)) by bool_lia.
    destruct ((dwi <=? j / 64) && (j / 64 <? dwi + full)) eqn:Ein; [|done].
    apply andb_true_iff in Ein as [?%Z.leb_le ?%Z.ltb_lt].
    destruct (Hd'b (j / 64 - dwi) ltac:(lia)) as [_ ->]; [|done].
    replace (dwi + (j / 64 - dwi)) with (j / 64) by lia. f_equal. f_equal. lia. }
  destruct (Z.ltb_spec 0 (length - 64 * full)) as [Htail|Htail].
  - assert (Hm : (dest_from + 64 * full) mod 64 = 0).
    { rewrite Z.mul_comm, Z.mod_add by lia. done. }
    destruct (head_upd dw (source_from + 64 * full) (dest_from + 64 * full) (length - 64 * full)) as (G1 & G2 & G3);
      [done|lia|lia|lia|lia| |].
    { rewrite Hdwl. apply Z.div_lt_upper_bound; lia. }
    rewrite Hm in *. split; [done|]. split; [by rewrite G2|]. intros j Hj. rewrite G3 by done. unfold combined.
    rewrite Hdwb by done. unfold combined.
    destruct (Z.leb_spec (dest_from + 64 * full) j), (Z.ltb_spec j (dest_from + 64 * full + (length - 64 * full)));
      cbn [andb].
    + replace ((dest_from <=? j) && (j <? dest_from + 64 * full)) with false by bool_lia.
      replace ((dest_from <=? j) && (j <? dest_from + length)) with true by bool_lia. f_equal. f_equal. lia.
    + replace ((dest_from <=? j) && (j <? dest_from + 64 * full)) with false by bool_lia.
      replace ((dest_from <=? j) && (j <? dest_from + length)) with false by bool_lia. done.
    + replace ((dest_from <=? j) && (j <? dest_from + 64 * full)) with ((dest_from <=? j) && (j <? dest_from + length)) by bool_lia.
      done.
    + lia.
  - split; [done|]. split; [done|]. intros j Hj. rewrite Hdwb by done. by replace length with (64 * full) by lia.
Qed.

(** [range_op]: the range checks, then the combination, at any alignment. *)
Lemma range_op_spec dest source_from dest_from length :
  inv dest -> 0 <= source_from -> 0 <= dest_from -> 0 <= length ->
  num_bits source < 2 ^ 63 -> num_bits dest < 2 ^ 63 ->
  if (source_from + length <=? num_bits source) && (dest_from + length <=? num_bits dest) then
    exists d', range_op source source_from dest dest_from length head word = Some d'
      /\ models d' (num_bits dest) (combined (bit dest) source_from dest_from length)
  else range_op source source_from dest dest_from length head word = None.
Proof.
  intros Hdest Hsf Hdf Hlen Hsn Hdn. unfold range_op, checked_add, len, usize_max.
  destruct (Z.leb_spec (source_from + length) (num_bits source)) as [Hs|Hs]; cbn [andb].
  2: { destruct (Z.leb_spec (source_from + length) (2 ^ 64 - 1)); [|done].
       by destruct (Z.leb_spec (source_from + length) (num_bits source)); [lia|]. }
  destruct (Z.leb_spec (source_from + length) (2 ^ 64 - 1)); [|lia].
  destruct (Z.leb_spec (source_from + length) (num_bits source)); [|lia]. cbn [andb].
  destruct (Z.leb_spec (dest_from + length) (num_bits dest)) as [Hd|Hd]; cbn [andb].
  2: { destruct (Z.leb_spec (dest_from + length) (2 ^ 64 - 1)); [|done].
       by destruct (Z.leb_spec (dest_from + length) (num_bits dest)); [lia|]. }
  destruct (Z.leb_spec (dest_from + length) (2 ^ 64 - 1)); [|lia].
  destruct (Z.leb_spec (dest_from + length) (num_bits dest)); [|lia]. cbn [negb].
  pose proof (size_bits dest Hdest) as Hsize.
  assert (Hmodels : forall ws', words_ok ws' -> zlen ws' = zlen (words dest) ->
    (forall j, 0 <= j -> wbit ws' j = combined (bit dest) source_from dest_from length j) ->
    models (mk ws' (num_bits dest)) (num_bits dest) (combined (bit dest) source_from dest_from length)).
  { intros ws' W1 W2 W3. split; [|split; [done|exact W3]]. split; cbn [words num_bits].
    - apply Hdest.
    - done.
    - rewrite W2. apply Hdest.
    - intros i Hge. unfold bit at 1. cbn [words]. pose proof (inv_len dest Hdest). rewrite W3 by lia. unfold combined.
      replace ((dest_from <=? i) && (i <? dest_from + length)) with false by bool_lia. by apply (inv_ghost dest Hdest). }
  destruct (Z.eqb_spec length 0) as [->|Hnz].
  { exists dest. split; [done|]. split; [done|]. split; [done|]. intros i Hi. unfold combined.
    by replace ((dest_from <=? i) && (i <? dest_from + 0)) with false by bool_lia. }
  pose proof (Z.mod_pos_bound dest_from 64 ltac:(lia)) as Hm. pose proof (Z.div_mod dest_from 64 ltac:(lia)) as Hdm.
  rewrite land_63. destruct (Z.eqb_spec (dest_from mod 64) 0) as [Hal|Hal]; cbn [negb].
  - eexists. split; [done|].
    destruct (range_words_bits (words dest) source_from dest_from length) as (G1 & G2 & G3);
      [apply Hdest|done|done|done|done|lia|done|]. by apply Hmodels.
  - set (n := Z.min (64 - dest_from mod 64) length). rewrite shiftr_6.
    destruct (head_upd (words dest) source_from dest_from n) as (G1 & G2 & G3);
      [apply Hdest|done|done|lia|lia| |].
    { apply Z.div_lt_upper_bound; lia. }
    set (dw := upd _ _ _) in *.
    destruct (Z.eqb_spec (length - n) 0) as [Hz|Hz].
    + eexists. split; [done|]. apply Hmodels; [done|done|]. intros j Hj. rewrite G3 by done.
      by replace length with n by lia.
    + eexists. split; [done|].
      assert (Hal' : (dest_from + n) mod 64 = 0).
      { replace (dest_from + n) with ((dest_from / 64 + 1) * 64) by lia. apply Z.mod_mul. lia. }
      destruct (range_words_bits dw (source_from + n) (dest_from + n) (length - n)) as (R1 & R2 & R3);
        [done|lia|lia|lia|done|lia|lia|].
      apply Hmodels; [done|by rewrite R2|]. intros j Hj. rewrite R3 by done. unfold combined. rewrite G3 by done.
      unfold combined. fold (bit dest j).
      destruct (Z.leb_spec (dest_from + n) j), (Z.ltb_spec j (dest_from + n + (length - n))); cbn [andb].
      * replace ((dest_from <=? j) && (j <? dest_from + n)) with false by bool_lia.
        replace ((dest_from <=? j) && (j <? dest_from + length)) with true by bool_lia. f_equal. f_equal. lia.
      * replace ((dest_from <=? j) && (j <? dest_from + n)) with false by bool_lia.
        by replace ((dest_from <=? j) && (j <? dest_from + length)) with false by bool_lia.
      * replace ((dest_from <=? j) && (j <? dest_from + n)) with ((dest_from <=? j) && (j <? dest_from + length)) by bool_lia.
        done.
      * lia.
Qed.
End range_op.

(** ** [or_range], [and_range], [apply_mask]. *)
Lemma or_head_bits d bits sh n : in_u 64 d -> in_u n bits -> 0 <= sh -> 1 <= n -> sh + n <= 64 ->
  in_u 64 (Z.lor d (shlu 64 bits sh)) /\ forall k, 0 <= k < 64 ->
    Z.testbit (Z.lor d (shlu 64 bits sh)) k
    = if (sh <=? k) && (k <? sh + n) then Z.testbit d k || Z.testbit bits (k - sh) else Z.testbit d k.
Proof.
  intros Hd Hb Hsh Hn Hf. split; [apply in_u_lor; [lia|done|apply shlu_ok]|]. intros k Hk.
  rewrite Z.lor_spec, testbit_shlu by lia.
  destruct (Z.leb_spec sh k), (Z.ltb_spec k (sh + n)), (Z.ltb_spec k 64), (Z.leb_spec 0 k); try lia; cbn [andb]; try done.
  - rewrite (testbit_above n bits) by (done || lia). apply orb_false_r.
  - rewrite (Z.testbit_neg_r bits) by lia. apply orb_false_r.
Qed.

Lemma and_head_bits d bits sh n : in_u 64 d -> in_u n bits -> 0 <= sh -> 1 <= n -> sh + n <= 64 ->
  let f := Z.land d (Z.lor (shlu 64 bits sh) (notu 64 (shlu 64 (if n =? 64 then MAX64 else shlu 64 1 n - 1) sh))) in
  in_u 64 f /\ forall k, 0 <= k < 64 ->
    Z.testbit f k = if (sh <=? k) && (k <? sh + n) then Z.testbit d k && Z.testbit bits (k - sh) else Z.testbit d k.
Proof.
  intros Hd Hb Hsh Hn Hf. cbv zeta. set (span := if n =? 64 then _ else _).
  assert (Hspan : forall i, 0 <= i < 64 -> Z.testbit span i = (i <? n)).
  { intros i Hi. subst span. destruct (Z.eqb_spec n 64) as [->|]; [by apply testbit_MAX64; lia|].
    apply low_bits_mask; lia. }
  split.
  - apply in_u_land; [lia|done|]. apply Z.lor_nonneg. split; [apply shlu_ok|].
    apply (in_u_notu 64); [lia|apply shlu_ok].
  - intros k Hk. rewrite Z.land_spec, Z.lor_spec, testbit_notu, !testbit_shlu by lia.
    destruct (Z.ltb_spec k 64), (Z.leb_spec 0 k); try lia; cbn [andb].
    destruct (Z.leb_spec sh k), (Z.ltb_spec k (sh + n)); try lia; cbn [andb].
    + rewrite Hspan by lia. destruct (Z.ltb_spec (k - sh) n); [|lia]. cbn [negb]. by rewrite orb_false_r.
    + rewrite Hspan by lia. destruct (Z.ltb_spec (k - sh) n); [lia|]. cbn [negb]. by rewrite orb_true_r, andb_true_r.
    + rewrite (Z.testbit_neg_r bits), (Z.testbit_neg_r span) by lia. cbn [negb]. by rewrite orb_true_r, andb_true_r.
Qed.

Lemma or_range_spec source source_from dest dest_from length :
  inv source -> inv dest -> 0 <= source_from -> 0 <= dest_from -> 0 <= length ->
  num_bits source < 2 ^ 63 -> num_bits dest < 2 ^ 63 ->
  if (source_from + length <=? num_bits source) && (dest_from + length <=? num_bits dest) then
    exists d', or_range source source_from dest dest_from length = Some d'
      /\ models d' (num_bits dest) (combined source orb (bit dest) source_from dest_from length)
  else or_range source source_from dest dest_from length = None.
Proof.
  intros. apply range_op_spec; try done.
  - apply or_head_bits.
  - intros d w Hd Hw. split; [by apply in_u_lor|]. intros. apply Z.lor_spec.
Qed.

Lemma and_range_spec source source_from dest dest_from length :
  inv source -> inv dest -> 0 <= source_from -> 0 <= dest_from -> 0 <= length ->
  num_bits source < 2 ^ 63 -> num_bits dest < 2 ^ 63 ->
  if (source_from + length <=? num_bits source) && (dest_from + length <=? num_bits dest) then
    exists d', and_range source source_from dest dest_from length = Some d'
      /\ models d' (num_bits dest) (combined source andb (bit dest) source_from dest_from length)
  else and_range source source_from dest dest_from length = None.
Proof.
  intros. apply range_op_spec; try done.
  - apply and_head_bits.
  - intros d w Hd Hw. split; [apply in_u_land; [lia|done|apply Hw]|]. intros. apply Z.land_spec.
Qed.

(** [or_range] and [and_range] combine a sub-range of one set into
    another at any two alignments: every bit of the destination range is or-ed
    (and-ed) with the source bit at the same distance into its range, every
    other bit is untouched, and a range past either length panics. *)
Lemma sub_range_combination (source dest : t) (source_from dest_from length : Z) :
  inv source -> inv dest -> 0 <= source_from -> 0 <= dest_from -> 0 <= length ->
  num_bits source < 2 ^ 63 -> num_bits dest < 2 ^ 63 ->
  let inside j := (dest_from <=? j) && (j <? dest_from + length) in
  let src j := bit source (source_from + (j - dest_from)) in
  if (source_from + length <=? num_bits source) && (dest_from + length <=? num_bits dest) then
    (exists d, or_range source source_from dest dest_from length = Some d
       /\ models d (num_bits dest) (fun j => bit dest j || (inside j && src j)))
    /\ (exists d, and_range source source_from dest dest_from length = Some d
       /\ models d (num_bits dest) (fun j => bit dest j && (negb (inside j) || src j)))
  else or_range source source_from dest dest_from length = None
       /\ and_range source source_from dest dest_from length = None.
Proof.
  intros Hs Hd H1 H2 H3 H4 H5 inside src.
  pose proof (or_range_spec source source_from dest dest_from length Hs Hd H1 H2 H3 H4 H5) as Ho.
  pose proof (and_range_spec source source_from dest dest_from length Hs Hd H1 H2 H3 H4 H5) as Ha.
  destruct (_ && _); [|done]. destruct Ho as (d & Ed & Md), Ha as (e & Ee & Me).
  split; [exists d|exists e]; (split; [done|]); (eapply models_ext; [eassumption|]); intros j; unfold combined, inside, src.
  - destruct (_ && _); [done|]. by rewrite orb_false_r.
  - destruct (_ && _); [done|]. by rewrite andb_true_r.
Qed.

Lemma sub_range_combination_witness :
  inv (new 300) /\
  exists d, or_range (new 300) 70 (new 200) 3 130 = Some d
    /\ models d 200 (fun j => bit (new 200) j || ((3 <=? j) && (j <? 133) && bit (new 300) (70 + (j - 3)))).
Proof.
  assert (Hs : inv (new 300)) by (apply new_inv; lia). assert (Hd : inv (new 200)) by (apply new_inv; lia).
  split; [exact Hs|].
  exact (proj1 (sub_range_combination (new 300) (new 200) 70 3 130 Hs Hd ltac:(lia) ltac:(lia) ltac:(lia) eq_refl eq_refl)).
Defined.

(** [apply_mask]: the bits whose counterpart is dead are cleared; bits past
    the end of the live docs are the error. *)
Lemma apply_mask_spec s b offset : inv s -> inv b -> 0 <= offset -> num_bits s < 2 ^ 63 -> num_bits b < 2 ^ 63 ->
  exists b' r, apply_mask s b offset = Some (r, b')
    /\ models b' (num_bits b) (fun i => bit b i && ((num_bits s - offset <=? i) || bit s (offset + i)))
    /\ (r = Ok tt <-> forall i, Z.max 0 (num_bits s - offset) <= i -> bit b i = false).
Proof.
  intros Hs Hb Ho Hns Hnb. unfold apply_mask. set (length := Z.min _ _).
  pose proof (inv_len s Hs). pose proof (inv_len b Hb).
  assert (Hmask : exists b', (if offset <=? num_bits s then and_range s offset b 0 length else Some b) = Some b'
    /\ models b' (num_bits b) (fun i => bit b i && ((num_bits s - offset <=? i) || bit s (offset + i)))).
  { destruct (Z.leb_spec offset (num_bits s)) as [Hle|Hgt].
    - pose proof (and_range_spec s offset b 0 length Hs Hb Ho ltac:(lia) ltac:(lia) Hns Hnb) as Ha.
      replace ((offset + length <=? num_bits s) && (0 + length <=? num_bits b)) with true in Ha by bool_lia.
      destruct Ha as (b' & E & M1 & M2 & M3). exists b'. split; [done|]. split; [done|]. split; [done|].
      intros i Hi. rewrite M3 by done. unfold combined.
      destruct (Z.leb_spec 0 i), (Z.ltb_spec i (0 + length)); try lia; cbn [andb].
      + destruct (Z.leb_spec (num_bits s - offset) i); [lia|]. cbn [orb]. do 2 f_equal. lia.
      + destruct (Z.leb_spec (num_bits s - offset) i); cbn [orb]; [by rewrite andb_true_r|].
        by rewrite (inv_ghost b Hb) by lia.
    - exists b. split; [done|]. split; [done|]. split; [done|]. intros i Hi.
      destruct (Z.leb_spec (num_bits s - offset) i); [|lia]. by rewrite andb_true_r. }
  destruct Hmask as (b' & -> & M). exists b'. assert (M' := M). destruct M' as (M1 & M2 & M3).
  assert (Hf := proj1 (searches b' length 0 M1 ltac:(lia) ltac:(lia))).
  assert (Hpast : forall i, Z.max 0 (num_bits s - offset) <= i -> bit b' i = bit b i).
  { intros i Hi. rewrite M3 by lia. destruct (Z.leb_spec (num_bits s - offset) i); [|lia]. by rewrite andb_true_r. }
  destruct (next_set_bit b' length) as [j|] eqn:En.
  - destruct Hf as (Hj & Hbj & _). destruct (Z.ltb_spec length (num_bits b')) as [Hl|Hl]; cbn [andb].
    + eexists. split; [done|]. split; [done|]. split; [done|]. intros Hall.
      rewrite Hpast in Hbj by lia. by rewrite Hall in Hbj by lia.
    + exists (Ok tt). split; [done|]. split; [done|]. split; [|done]. intros _ i Hi. apply (inv_ghost b Hb). lia.
  - rewrite andb_false_r. exists (Ok tt). split; [done|]. split; [done|]. split; [|done]. intros _ i Hi.
    rewrite <- Hpast by done. destruct (Z.ltb_spec i (num_bits b')); [apply Hf; lia|by apply (inv_ghost b' M1)].
Qed.

(** ** Growth and copies. *)
Lemma zlen_replicate (x : Z) n : 0 <= n -> zlen (replicate (Z.to_nat n) x) = n.
Proof. intros. unfold zlen. rewrite length_replicate. lia. Qed.

Lemma wbit_app_zeros ws n i : wbit (ws ++ replicate n 0) i = wbit ws i.
Proof.
  unfold wbit, at0. f_equal. rewrite !nth_lookup.
  destruct (decide (Z.to_nat (i / 64) < length ws)%nat).
  - by rewrite lookup_app_l by done.
  - rewrite lookup_app_r by lia. rewrite (lookup_ge_None_2 ws) by lia.
    destruct (replicate n 0 !! _) as [x|] eqn:E; [|done]. apply lookup_replicate in E as [-> _]. done.
Qed.

Lemma bits2words_64 n : 0 <= n -> bits2words (64 * n) = n.
Proof. intros. destruct (bits2words_spec (64 * n)) as [|[? ->]]; lia. Qed.

(** [ensure_capacity] returns a set that can hold [desired_bit] and has
    the members it was given ([ensure_capacity_and_clear]: none), unchanged
    when it was already large enough; [apply_mask] clears exactly the bits
    whose live-docs counterpart is dead, and reports bits past the end. *)
Lemma growth_and_masks (s b : t) (desired_bit offset : Z) :
  inv s -> inv b -> 0 <= desired_bit -> 0 <= offset -> num_bits s < 2 ^ 63 -> num_bits b < 2 ^ 63 ->
  (let g := ensure_capacity s desired_bit in
   inv g /\ desired_bit < num_bits g /\ num_bits s <= num_bits g /\ (forall i, 0 <= i -> bit g i = bit s i)
   /\ (desired_bit < num_bits s -> g = s))
  /\ (let c := ensure_capacity_and_clear s desired_bit in
      inv c /\ desired_bit < num_bits c /\ forall i, 0 <= i -> bit c i = false)
  /\ exists b' r, apply_mask s b offset = Some (r, b')
       /\ models b' (num_bits b) (fun i => bit b i && ((num_bits s - offset <=? i) || bit s (offset + i)))
       /\ (r = Ok tt <-> forall i, Z.max 0 (num_bits s - offset) <= i -> bit b i = false).
Proof.
  intros Hs Hb Hd Ho Hns Hnb. pose proof (inv_len s Hs). pose proof (size_bits s Hs).
  assert (Hw : desired_bit < 64 * (bits2words desired_bit + 1)).
  { destruct (bits2words_spec desired_bit Hd) as [|[-> ->]]; lia. }
  pose proof (bits2words_nonneg desired_bit Hd). set (need := bits2words desired_bit + 1).
  assert (Hgrow : forall ws, words_ok ws -> zlen ws <= bits2words desired_bit \/ 64 * zlen ws > desired_bit ->
    let ws' := if zlen ws <=? bits2words desired_bit
               then ws ++ replicate (Z.to_nat (need + Z.max (Z.shiftr need 3) 3 - zlen ws)) 0 else ws in
    inv (mk ws' (Z.shiftl (zlen ws') 6)) /\ desired_bit < Z.shiftl (zlen ws') 6 /\ zlen ws <= zlen ws'
    /\ forall i, wbit ws' i = wbit ws i).
  { intros ws Hok Hcase ws'. assert (E : forall i, wbit ws' i = wbit ws i).
    { intros i. subst ws'. destruct (_ <=? _); [apply wbit_app_zeros|done]. }
    assert (Hlen : desired_bit < 64 * zlen ws' /\ zlen ws <= zlen ws').
    { subst ws'. destruct (Z.leb_spec (zlen ws) (bits2words desired_bit)); [|lia].
      rewrite zlen_app, zlen_replicate by (subst need; lia). lia. }
    rewrite !shiftl_6. split; [|split; [lia|split; [lia|exact E]]]. split; cbn [words num_bits].
    - lia.
    - subst ws'. destruct (_ <=? _); [|done]. apply Forall_app. split; [done|]. apply Forall_replicate, in_u_0. lia.
    - symmetry. apply bits2words_64. lia.
    - intros i Hi. by apply wbit_out. }
  split; [|split; [|by apply apply_mask_spec]].
  - unfold ensure_capacity, ensure_capacity_internal. destruct (Z.ltb_spec desired_bit (num_bits s)) as [Hlt|Hge].
    + cbv zeta. split; [done|]. split; [done|]. split; [lia|]. done.
    + cbv zeta. destruct (Hgrow (words s) (inv_words s Hs)) as (G1 & G2 & G3 & G4).
      { destruct (Z.le_gt_cases (zlen (words s)) (bits2words desired_bit)); [by left|right; lia]. }
      split; [exact G1|]. split; [exact G2|]. split.
      * cbn [num_bits]. rewrite shiftl_6. unfold need in *. lia.
      * split; [|lia]. intros i Hi. apply G4.
  - unfold ensure_capacity_and_clear, ensure_capacity_internal. destruct (Z.ltb_spec desired_bit (num_bits s)) as [Hlt|Hge].
    + cbv zeta. assert (E : forall i, bit (clear_all s) i = false).
      { intros i. unfold bit, wbit, at0, clear_all. cbn [words].
        assert (En : forall (l : list Z) m, nth m (map (fun _ => 0) l) 0 = 0) by (induction l; destruct m; simpl; auto).
        rewrite En. apply Z.testbit_0_l. }
      split; [|split; [done|intros; apply E]]. split; cbn [clear_all words num_bits].
      * done.
      * apply Forall_fmap. eapply Forall_impl; [|apply Hs]. intros; apply in_u_0; lia.
      * rewrite zlen_map. apply Hs.
      * intros; apply E.
    + cbv zeta. destruct (Hgrow []) as (G1 & G2 & G3 & G4); [constructor|left; done|].
      split; [exact G1|]. split; [exact G2|]. intros i Hi. unfold bit. cbn [words]. rewrite G4.
      unfold wbit. rewrite at0_out by (rewrite zlen_nil; apply Z.div_pos; lia). apply Z.testbit_0_l.
Qed.

Lemma growth_and_masks_witness :
  inv (ensure_capacity (new 100) 500) /\ 500 < num_bits (ensure_capacity (new 100) 500).
Proof.
  assert (Hs : inv (new 100)) by (apply new_inv; lia).
  destruct (growth_and_masks (new 100) (new 100) 500 0 Hs Hs ltac:(lia) ltac:(lia) eq_refl eq_refl) as [(H1 & H2 & _) _].
  split; [exact H1|exact H2].
Defined.
