(* ===== verification/PackedLongs.v ===== *)
(** * Bit-packed values, read a word at a time ([lucene-util/src/packed_longs.rs])

    A slice holds values [bits] wide, least significant bit first.
    [PackedLongs] works out once how many leading values have a whole 8-byte
    window inside the slice; its reads below that limit are unchecked loads.
    The outer [option] of a read is such a load: [None] is a load past the
    slice, undefined behaviour.  Proved: no read is ever undefined, whatever
    the slice, width, index or limit; each answers the value's own bits; and
    the limit is exactly where windows end. *)
From S2P Require Import Prelude.

(** The value at [index], bit by bit: what the slice stands for. *)
Definition bit_slice (bytes : list byte) (bits index : Z) : Z :=
  Z.land (Z.shiftr (from_le bytes) (index * bits)) (Z.ones bits).

(** [read_unaligned] of [n] little-endian bytes at [byte]. *)
Definition load (n : Z) (bytes : list byte) (byte : Z) : option Z := from_le <$> zslice bytes byte (byte + n).

(** [u64] arithmetic in a release build. *)
Definition mul64 (a b : Z) : Z := wrapu 64 (a * b).
Definition add64 (a b : Z) : Z := wrapu 64 (a + b).

Record PackedLongs : Type := mk_packed { bytes : list byte; bits : Z; mask : Z; fast_limit : Z }.

Definition packed_new (bytes : list byte) (bits : Z) : option PackedLongs :=
  if (bits =? 0) || (64 <? bits) || (negb (bits mod 8 =? 0) && (56 <? bits)) then None
  else
    let mask := if bits =? 64 then 2 ^ 64 - 1 else Z.shiftl 1 bits - 1 in
    let fast_limit := if zlen bytes <? 8 then 0 else ((zlen bytes - 8) * 8 + 7) / bits + 1 in
    Some (mk_packed bytes bits mask fast_limit).

Definition limited_to (p : PackedLongs) (n : Z) : PackedLongs :=
  mk_packed (bytes p) (bits p) (mask p) (Z.min (fast_limit p) n).

Definition packed_get (p : PackedLongs) (index : Z) : option (option Z) :=
  if fast_limit p <=? index then Some None
  else
    let bit := mul64 index (bits p) in
    word ← load 8 (bytes p) (Z.shiftr bit 3);
    Some (Some (Z.land (Z.shiftr word (Z.land bit 7)) (mask p))).

(** The loop of [decode_run] over the [n] slots it fills. *)
Fixpoint decode_run (p : PackedLongs) (start i : Z) (n : nat) : option (list Z) :=
  match n with
  | O => Some []
  | S n =>
      let bit := mul64 (add64 start i) (bits p) in
      word ← load 8 (bytes p) (Z.shiftr bit 3);
      rest ← decode_run p start (i + 1) n;
      Some (wraps 64 (Z.land (Z.shiftr word (Z.land bit 7)) (mask p)) :: rest)
  end.

(** [k]-th and later values of one word. *)
Fixpoint decode_word (p : PackedLongs) (word k : Z) (n : nat) : list Z :=
  match n with
  | O => []
  | S n => wraps 64 (Z.land (Z.shiftr word (k * bits p)) (mask p)) :: decode_word p word (k + 1) n
  end.
Fixpoint decode_chunks (p : PackedLongs) (word_start per_word w : Z) (n : nat) : option (list Z) :=
  match n with
  | O => Some []
  | S n =>
      let byte := mul64 (add64 word_start (w * per_word)) (bits p) / 8 in
      word ← load 8 (bytes p) byte;
      rest ← decode_chunks p word_start per_word (w + 1) n;
      Some (decode_word p word 0 (Z.to_nat per_word) ++ rest)
  end.
Definition decode_words (p : PackedLongs) (start : Z) (n : nat) : option (list Z) :=
  let per_word := 64 / bits p in
  let head := (per_word - start mod per_word) mod per_word in
  let head := Z.min head (Z.of_nat n) in
  let rest := Z.of_nat n - head in
  let word_start := add64 start head in
  let done := head + rest / per_word * per_word in
  l1 ← decode_run p start 0 (Z.to_nat head);
  l2 ← decode_chunks p word_start per_word 0 (Z.to_nat (rest / per_word));
  l3 ← decode_run p (add64 start done) 0 (Z.to_nat (rest mod per_word));
  Some (l1 ++ l2 ++ l3).

(** [decode_range]: how many values were written, and [out] after. *)
Definition decode_range (p : PackedLongs) (start : Z) (out : list Z) : option (Z * list Z) :=
  if fast_limit p <? start then Some (0, out)
  else
    let n := Z.to_nat (Z.min (zlen out) (fast_limit p - start)) in
    run ← (if (bits p =? 1) || (bits p =? 2) || (bits p =? 4) then decode_words p start n else decode_run p start 0 n);
    Some (Z.of_nat n, run ++ drop n out).

(** [FixedPackedLongs<B>]. *)
Record FixedPackedLongs : Type := mk_fixed { fixed_bytes : list byte; fixed_limit : Z }.
Definition fixed_new (B : Z) (bytes : list byte) : FixedPackedLongs :=
  mk_fixed bytes (match packed_new bytes B with Some p => fast_limit p | None => 0 end).
Definition fixed_load_width (B : Z) : Z :=
  if (B =? 1) || (B =? 2) || (B =? 4) || (B =? 8) then 1
  else if (B =? 12) || (B =? 16) then 2
  else if (B =? 20) || (B =? 24) || (B =? 28) || (B =? 32) then 4
  else 8.
(** [u64::MAX.checked_shr(64u32.saturating_sub(B)).unwrap_or(0)]. *)
Definition width_mask (B : Z) : Z :=
  let n := Z.max 0 (64 - B) in if n <? 64 then Z.shiftr (2 ^ 64 - 1) n else 0.
Definition fixed_get (B : Z) (p : FixedPackedLongs) (index : Z) : option (option Z) :=
  if fixed_limit p <=? index then Some None
  else
    let bit := mul64 index B in
    let byte := if B mod 8 =? 0 then mul64 index (B / 8) else Z.shiftr bit 3 in
    word ← load (fixed_load_width B) (fixed_bytes p) byte;
    Some (Some (Z.land (Z.shiftr word (Z.land bit 7)) (width_mask B))).

(** ** Windows and bit slices. *)
Lemma load_spec n l b : bytes_ok l -> 0 <= n -> 0 <= b -> b + n <= zlen l ->
  load n l b = Some (Z.land (Z.shiftr (from_le l) (8 * b)) (Z.ones (8 * n))).
Proof.
  intros Hl Hn Hb Hle. unfold load. destruct (zslice l b (b + n)) as [s|] eqn:E.
  - apply zslice_Some in E as (x & y & -> & <- & Hs). cbn. f_equal.
    apply Forall_app in Hl as [Hx Hl]. apply Forall_app in Hl as [Hs' Hy].
    pose proof (from_le_range x Hx). pose proof (from_le_range s Hs'). pose proof (zlen_nonneg x). pose proof (zlen_nonneg s).
    assert (n = zlen s) as -> by lia. rewrite !from_le_app.
    rewrite Z.shiftr_lor, Z.shiftr_shiftl_l by lia. rewrite Z.sub_diag, Z.shiftl_0_r.
    apply Z.bits_inj'. intros i Hi. rewrite Z.land_spec, !Z.lor_spec, Z.shiftr_spec, Z.shiftl_spec by lia.
    rewrite (testbit_above (8 * zlen x) (from_le x)) by (done || lia). cbn [orb].
    destruct (Z.ltb_spec i (8 * zlen s)).
    + rewrite Z.ones_spec_low by lia. rewrite (Z.testbit_neg_r _ (i - 8 * zlen s)) by lia. by rewrite orb_false_r, andb_true_r.
    + rewrite Z.ones_spec_high, andb_false_r by lia. by apply (testbit_above (8 * zlen s)).
  - exfalso. destruct (zslice_total l b (b + n)) as (s' & E' & _); [lia..|]. congruence.
Qed.

(** A value inside a window is the slice's. *)
Lemma window_bits v w s b : 0 <= s -> 0 <= b -> s + b <= 8 * w -> forall p, 0 <= p ->
  Z.land (Z.shiftr (Z.land (Z.shiftr v (8 * p)) (Z.ones (8 * w))) s) (Z.ones b) = Z.land (Z.shiftr v (8 * p + s)) (Z.ones b).
Proof.
  intros Hs Hb Hw p Hp. apply Z.bits_inj'. intros i Hi. rewrite !Z.land_spec, !Z.shiftr_spec, Z.land_spec, Z.shiftr_spec by lia.
  destruct (Z.ltb_spec i b).
  - rewrite !Z.ones_spec_low by lia. rewrite !andb_true_r. f_equal. lia.
  - rewrite (Z.ones_spec_high b) by lia. by rewrite !andb_false_r.
Qed.

(** Reading [w] bytes at the byte of bit [pos]. *)
Definition bits_at (l : list byte) (pos b : Z) : Z := Z.land (Z.shiftr (from_le l) pos) (Z.ones b).

Lemma load_at l w pos b : bytes_ok l -> 0 <= w -> 0 <= b -> 0 <= pos -> pos mod 8 + b <= 8 * w -> pos / 8 + w <= zlen l ->
  exists word, load w l (pos / 8) = Some word /\ Z.land (Z.shiftr word (pos mod 8)) (Z.ones b) = bits_at l pos b.
Proof.
  intros Hl Hw Hb Hi Hfit Hle. pose proof (Z.div_mod pos 8 ltac:(lia)) as Hd. pose proof (Z.mod_pos_bound pos 8 ltac:(lia)) as Hm.
  assert (Hq : 0 <= pos / 8) by (apply Z.div_pos; nia). eexists. split; [by apply load_spec|].
  rewrite window_bits by lia. unfold bits_at. by rewrite <- Hd.
Qed.

Lemma load_value l w index b m : bytes_ok l -> m = Z.ones b -> 0 <= w -> 0 <= b -> 0 <= index ->
  (index * b) mod 8 + b <= 8 * w -> index * b / 8 + w <= zlen l ->
  exists word, load w l (index * b / 8) = Some word /\
    Z.land (Z.shiftr word ((index * b) mod 8)) m = bit_slice l b index.
Proof. intros Hl -> Hw Hb Hi. apply load_at; (done || nia). Qed.

(** ** Every read is defined and exact. *)
Definition limit_of (len bits : Z) : Z := if len <? 8 then 0 else ((len - 8) * 8 + 7) / bits + 1.

(** What [new] and [limited_to] establish. *)
Record packed_ok (p : PackedLongs) : Prop := {
  ok_bytes : bytes_ok (bytes p) /\ zlen (bytes p) < 2 ^ 60;
  ok_bits : 1 <= bits p <= 64 /\ (bits p mod 8 = 0 \/ bits p <= 56);
  ok_mask : mask p = Z.ones (bits p);
  ok_limit : fast_limit p <= limit_of (zlen (bytes p)) (bits p);
}.

Lemma shiftl_ones b : 0 <= b -> Z.shiftl 1 b - 1 = Z.ones b.
Proof. intros. by rewrite Z.ones_equiv, Z.shiftl_1_l. Qed.

Lemma packed_new_spec l b : bytes_ok l -> zlen l < 2 ^ 60 -> 0 <= b -> forall p, packed_new l b = Some p ->
  packed_ok p /\ bytes p = l /\ bits p = b /\ fast_limit p = limit_of (zlen l) b.
Proof.
  intros Hl Hlen Hb p. unfold packed_new. destruct (_ || _) eqn:E; [done|]. intros [= <-].
  apply orb_false_iff in E as [[E1 E2]%orb_false_iff E3]. apply andb_false_iff in E3.
  split; [|done]. constructor; cbn; [done| | |done].
  - split; [lia|]. destruct E3 as [E3|E3]; [left; apply negb_false_iff in E3; lia|right; lia].
  - destruct (Z.eqb_spec b 64) as [->|]; [done|by apply shiftl_ones].
Qed.

Lemma limited_to_ok p n : packed_ok p -> packed_ok (limited_to p n).
Proof. intros [H1 H2 H3 H4]. constructor; cbn; try done. lia. Qed.

Lemma mul_div_8 i b : b mod 8 = 0 -> (i * b) mod 8 = 0 /\ i * b / 8 = i * (b / 8).
Proof.
  intros H. assert (Hb : b = b / 8 * 8) by (pose proof (Z.div_mod b 8 ltac:(lia)); lia).
  rewrite Hb at 1 2. rewrite Z.mul_assoc, Z.mod_mul, Z.div_mul by lia. done.
Qed.

Section lawful.
Context (p : PackedLongs) (Hp : packed_ok p).

Lemma fast_fits index : 0 <= index < fast_limit p ->
  0 <= index * bits p < 2 ^ 64 /\ index * bits p / 8 + 8 <= zlen (bytes p) /\ (index * bits p) mod 8 + bits p <= 8 * 8.
Proof.
  intros Hi. destruct Hp as [[_ Hlen] [Hb Hw] _ Hlim]. unfold limit_of in Hlim. destruct (Z.ltb_spec (zlen (bytes p)) 8); [lia|].
  set (room := (zlen (bytes p) - 8) * 8 + 7) in *. pose proof (Z.mul_div_le room (bits p) ltac:(lia)) as Hd.
  assert (Hx : index * bits p <= room) by nia. split; [|split].
  - split; [nia|]. unfold room in Hx. change (2 ^ 60) with 1152921504606846976 in Hlen. change (2 ^ 64) with 18446744073709551616. lia.
  - assert (index * bits p / 8 <= room / 8) by (apply Z.div_le_mono; lia).
    assert (room / 8 = zlen (bytes p) - 8) by (symmetry; apply (Z.div_unique _ _ _ 7); unfold room; lia). lia.
  - destruct Hw as [Hw|Hw]; [rewrite (proj1 (mul_div_8 index _ Hw)); lia|]. pose proof (Z.mod_pos_bound (index * bits p) 8). lia.
Qed.

(** One unchecked load, at any index under the limit. *)
Lemma fast_load index : 0 <= index < fast_limit p ->
  let bit := mul64 index (bits p) in
  exists word, load 8 (bytes p) (Z.shiftr bit 3) = Some word /\
    Z.land (Z.shiftr word (Z.land bit 7)) (mask p) = bit_slice (bytes p) (bits p) index.
Proof.
  intros Hi. destruct (fast_fits index Hi) as (H1 & H2 & H3). cbv zeta. unfold mul64. rewrite wrapu_id by done.
  rewrite Z.shiftr_div_pow2 by lia. change 7 with (Z.ones 3). rewrite Z.land_ones by lia. change (2 ^ 3) with 8.
  destruct Hp as [[Hl _] [Hb _] Hm _]. by apply load_value; try lia.
Qed.

Lemma packed_get_ok index : 0 <= index ->
  packed_get p index = Some (if index <? fast_limit p then Some (bit_slice (bytes p) (bits p) index) else None).
Proof.
  intros Hi. unfold packed_get. destruct (Z.leb_spec (fast_limit p) index), (Z.ltb_spec index (fast_limit p)); try lia; [done|].
  destruct (fast_load index) as (w & E & Ew); [lia|]. cbv zeta in *. by rewrite E; cbn; rewrite Ew.
Qed.

(** The run of values a range decodes to. *)
Definition value (index : Z) : Z := wraps 64 (bit_slice (bytes p) (bits p) index).
Fixpoint values (index : Z) (n : nat) : list Z :=
  match n with O => [] | S n => value index :: values (index + 1) n end.

Lemma values_length i n : length (values i n) = n.
Proof. revert i. induction n as [|n IH]; intros i; cbn; [done|]. by rewrite IH. Qed.

Lemma values_app i n m : values i (n + m) = values i n ++ values (i + Z.of_nat n) m.
Proof.
  revert i. induction n as [|n IH]; intros i; cbn [Nat.add values app]; [by rewrite Z.add_0_r|]. rewrite IH. do 3 f_equal. lia.
Qed.

Lemma limit_small : fast_limit p < 2 ^ 64.
Proof.
  destruct Hp as [[_ Hlen] [Hb _] _ Hlim]. unfold limit_of in Hlim. destruct (Z.ltb_spec (zlen (bytes p)) 8); [lia|].
  assert (((zlen (bytes p) - 8) * 8 + 7) / bits p <= (zlen (bytes p) - 8) * 8 + 7) by (apply Z.div_le_upper_bound; nia).
  change (2 ^ 60) with 1152921504606846976 in Hlen. change (2 ^ 64) with 18446744073709551616. lia.
Qed.

Lemma add64_small a b : 0 <= a -> 0 <= b -> a + b < 2 ^ 64 -> add64 a b = a + b.
Proof. intros. unfold add64. apply wrapu_id. unfold in_u. lia. Qed.

Lemma decode_run_ok start n : 0 <= start -> forall i, 0 <= i -> start + i + Z.of_nat n <= fast_limit p ->
  decode_run p start i n = Some (values (start + i) n).
Proof.
  intros Hs. pose proof limit_small. induction n as [|n IH]; intros i Hi Hle; cbn [decode_run values]; [done|]. rewrite add64_small by lia.
  destruct (fast_load (start + i)) as (w & E & Ew); [lia|]. cbv zeta in *. rewrite E. cbn [mbind option_bind]. rewrite IH by lia.
  cbn [mbind option_bind]. rewrite Ew. unfold value. by rewrite Z.add_assoc.
Qed.

(** Widths that divide a word. *)
Section words.
Context (Hdiv : bits p = 1 \/ bits p = 2 \/ bits p = 4).
Notation per_word := (64 / bits p).

Lemma per_word_bits : per_word * bits p = 64 /\ 0 < per_word.
Proof. by destruct Hdiv as [->|[->| ->]]. Qed.

Lemma decode_word_ok first word n : 0 <= first -> first mod per_word = 0 ->
  load 8 (bytes p) (first * bits p / 8) = Some word -> first * bits p / 8 + 8 <= zlen (bytes p) ->
  forall k, 0 <= k -> k + Z.of_nat n <= per_word -> decode_word p word k n = values (first + k) n.
Proof.
  intros Hf Hal El Hle. pose proof per_word_bits as [Hw Hw0]. destruct Hp as [[Hl _] [Hb _] Hm _].
  assert (Hfb : first * bits p = 64 * (first / per_word)) by (pose proof (Z.div_mod first per_word ltac:(lia)); nia).
  assert (H8 : 8 * (first * bits p / 8) = first * bits p) by (rewrite Hfb; replace (64 * (first / per_word)) with (8 * (first / per_word) * 8) by lia; rewrite Z.div_mul by lia; lia).
  assert (Hq : 0 <= first * bits p / 8) by (apply Z.div_pos; nia).
  rewrite load_spec in El by lia || done. injection El as <-.
  induction n as [|n IH]; intros k Hk Hkn; cbn [decode_word values]; [done|]. rewrite IH by lia. rewrite Z.add_assoc. f_equal.
  unfold value, bit_slice. rewrite Hm, window_bits by nia. do 3 f_equal. lia.
Qed.

Lemma decode_chunks_ok word_start n : 0 <= word_start -> word_start mod per_word = 0 -> forall w, 0 <= w ->
  word_start + (w + Z.of_nat n) * per_word <= fast_limit p ->
  decode_chunks p word_start per_word w n = Some (values (word_start + w * per_word) (n * Z.to_nat per_word)).
Proof.
  intros Hs Hal. pose proof limit_small. pose proof per_word_bits as [Hpb Hp0].
  induction n as [|n IH]; intros w Hw Hle; cbn [decode_chunks Nat.mul values]; [done|].
  set (first := word_start + w * per_word). assert (Hin : 0 <= first < fast_limit p) by (unfold first; nia).
  destruct (fast_fits first Hin) as (H1 & H2 & _). rewrite add64_small by (unfold first in *; nia). fold first.
  unfold mul64. rewrite wrapu_id by done. rewrite load_spec; [|apply Hp|lia|apply Z.div_pos; lia|lia]. cbn [mbind option_bind].
  rewrite IH by lia. cbn [mbind option_bind]. f_equal. rewrite values_app.
  assert (Hfal : first mod per_word = 0) by (unfold first; rewrite Z.mod_add by lia; done).
  rewrite (decode_word_ok first _ (Z.to_nat per_word)); [|lia|done| |lia|lia|lia].
  - rewrite Z.add_0_r. f_equal. unfold first. f_equal. lia.
  - apply load_spec; [apply Hp|lia|apply Z.div_pos; lia|lia].
Qed.

Lemma decode_words_ok start n : 0 <= start -> start + Z.of_nat n <= fast_limit p -> decode_words p start n = Some (values start n).
Proof.
  intros Hs Hle. pose proof limit_small. pose proof per_word_bits as [Hpb Hp0]. unfold decode_words. cbv zeta.
  set (h := (per_word - start mod per_word) mod per_word). pose proof (Z.mod_pos_bound (per_word - start mod per_word) per_word Hp0) as Hh.
  fold h in Hh. set (head := Z.min h (Z.of_nat n)). set (rest := Z.of_nat n - head).
  pose proof (Z.div_mod rest per_word ltac:(lia)) as Hr. pose proof (Z.mod_pos_bound rest per_word Hp0) as Hrm.
  assert (Hhead : 0 <= head <= Z.of_nat n /\ rest = Z.of_nat n - head) by (unfold head, rest; lia).
  assert (Hrest : 0 <= rest) by lia. assert (Hq : 0 <= rest / per_word) by (apply Z.div_pos; lia).
  rewrite (decode_run_ok start (Z.to_nat head)) by lia. cbn [mbind option_bind].
  assert (Hdone : 0 <= head + rest / per_word * per_word <= Z.of_nat n) by nia. rewrite !add64_small by lia.
  assert (Hchunks : decode_chunks p (start + head) per_word 0 (Z.to_nat (rest / per_word)) =
    Some (values (start + head) (Z.to_nat (rest / per_word) * Z.to_nat per_word))).
  { destruct (Z.eq_dec (rest / per_word) 0) as [->|Hnz]; [done|]. rewrite decode_chunks_ok; [by rewrite Z.mul_0_l, Z.add_0_r|lia| |lia|nia].
    assert (head = h) as -> by nia. unfold h. rewrite Z.add_mod_idemp_r by lia.
    replace (start + (per_word - start mod per_word)) with (start / per_word * per_word + 1 * per_word) by (pose proof (Z.div_mod start per_word ltac:(lia)); lia).
    by rewrite Z.mod_add, Z.mod_mul by lia. }
  rewrite Hchunks. cbn [mbind option_bind]. rewrite decode_run_ok by nia. cbn [mbind option_bind]. f_equal. rewrite Z.add_0_r.
  assert (Hn : (n = Z.to_nat head + (Z.to_nat (rest / per_word) * Z.to_nat per_word + Z.to_nat (rest mod per_word)))%nat) by nia.
  rewrite Hn at 1. rewrite !values_app. f_equal. f_equal; f_equal; nia.
Qed.
End words.

Lemma decode_range_ok start out : 0 <= start ->
  let n := Z.max 0 (Z.min (zlen out) (fast_limit p - start)) in
  decode_range p start out = Some (n, values start (Z.to_nat n) ++ drop (Z.to_nat n) out).
Proof.
  intros Hs. cbv zeta. pose proof (zlen_nonneg out). unfold decode_range. destruct (Z.ltb_spec (fast_limit p) start).
  - rewrite Z.max_l by lia. done.
  - rewrite Z.max_r by lia. set (n := Z.min (zlen out) (fast_limit p - start)). rewrite Z2Nat.id by lia.
    destruct (_ || _) eqn:E; [rewrite decode_words_ok by lia|rewrite decode_run_ok by lia; rewrite Z.add_0_r]; done.
Qed.
End lawful.

(** The constant-width reader, with its narrower loads. *)
Lemma width_mask_ones B : 1 <= B <= 64 -> width_mask B = Z.ones B.
Proof.
  intros HB. unfold width_mask. cbv zeta. destruct (Z.ltb_spec (Z.max 0 (64 - B)) 64); [|lia].
  rewrite Z.max_r by lia. change (2 ^ 64 - 1) with (Z.ones 64). apply Z.bits_inj'. intros i Hi.
  rewrite Z.shiftr_spec by lia. destruct (Z.ltb_spec i B); [rewrite !Z.ones_spec_low by lia|rewrite !Z.ones_spec_high by lia]; done.
Qed.

Lemma fixed_window B index : 1 <= B <= 64 -> (B mod 8 = 0 \/ B <= 56) -> 0 <= index ->
  (index * B) mod 8 + B <= 8 * fixed_load_width B /\ 1 <= fixed_load_width B <= 8.
Proof.
  intros HB Hw Hi. unfold fixed_load_width.
  repeat match goal with |- context [?x =? ?y] => destruct (Z.eqb_spec x y); [subst; cbn [orb]; Z.div_mod_to_equations; lia|] end. cbn [orb]. split; [|lia].
  destruct Hw as [Hw|Hw]; [rewrite (proj1 (mul_div_8 index _ Hw)); lia|]. pose proof (Z.mod_pos_bound (index * B) 8 eq_refl). lia.
Qed.

Lemma fixed_get_ok B l index : bytes_ok l -> zlen l < 2 ^ 60 -> 0 <= B -> 0 <= index ->
  fixed_get B (fixed_new B l) index =
  Some (if index <? match packed_new l B with Some p => fast_limit p | None => 0 end then Some (bit_slice l B index) else None).
Proof.
  intros Hl Hlen HB Hi. unfold fixed_get, fixed_new. cbn [fixed_limit fixed_bytes].
  destruct (packed_new l B) as [p|] eqn:Ep.
  - destruct (packed_new_spec l B Hl Hlen HB p Ep) as (Hp & El & Eb & _). 
    destruct (Z.leb_spec (fast_limit p) index), (Z.ltb_spec index (fast_limit p)); try lia; [done|].
    destruct (fast_fits p Hp index) as (H1 & H2 & _); [lia|]. destruct Hp as [_ [Hb Hw] _ _]. rewrite El, Eb in *.
    destruct (fixed_window B index Hb Hw Hi) as [H3 H4]. cbv zeta. unfold mul64. rewrite (wrapu_id 64 (index * B)) by done.
    assert (Hbyte : (if B mod 8 =? 0 then wrapu 64 (index * (B / 8)) else Z.shiftr (index * B) 3) = index * B / 8).
    { rewrite Z.shiftr_div_pow2 by lia. destruct (Z.eqb_spec (B mod 8) 0) as [E|]; [|done].
      rewrite (proj2 (mul_div_8 index B E)). apply wrapu_id. pose proof (Z.div_le_upper_bound B 8 B). unfold in_u. 
      assert (0 <= B / 8) by (apply Z.div_pos; lia). nia. }
    rewrite Hbyte. change 7 with (Z.ones 3). rewrite Z.land_ones, width_mask_ones by lia. change (2 ^ 3) with 8.
    destruct (load_value l (fixed_load_width B) index B (Z.ones B)) as (w & E & Ew); [done|done|lia..|]. rewrite E; cbn; rewrite Ew. done.
  - destruct (Z.leb_spec 0 index); [|lia]. destruct (Z.ltb_spec index 0); [lia|done].
Qed.

(** C30: reading bit-packed values: over any slice, any width [new] accepts and
    any limit, at any index or range: no unchecked load leaves the slice;
    [get] answers exactly the value's own bits below the limit and nothing
    past it, [decode_range] writes exactly the values it covers and touches
    nothing else, the constant-width reader answers what the general one
    does; and an index is below the limit [new] sets just when the 8 bytes at
    its value lie in the slice. *)
Theorem packed_reads_are_safe_and_exact (l : list byte) (b n index : Z) (out : list Z) (q : PackedLongs) :
  bytes_ok l -> zlen l < 2 ^ 60 -> 0 <= b -> 0 <= index -> packed_new l b = Some q ->
  let p := limited_to q n in
  packed_get p index = Some (if index <? fast_limit p then Some (bit_slice l b index) else None) /\
  (let k := Z.max 0 (Z.min (zlen out) (fast_limit p - index)) in
   decode_range p index out = Some (k, values p index (Z.to_nat k) ++ drop (Z.to_nat k) out)) /\
  fixed_get b (fixed_new b l) index = packed_get q index /\
  (index < fast_limit q <-> index * b / 8 + 8 <= zlen l).
Proof.
  intros Hl Hlen Hb Hi Hq p. destruct (packed_new_spec l b Hl Hlen Hb q Hq) as (Hok & El & Eb & Elim).
  assert (Hp : packed_ok p) by by apply limited_to_ok. split; [|split; [|split]].
  - rewrite packed_get_ok by done. unfold p. cbn [limited_to bytes bits fast_limit]. by rewrite El, Eb.
  - by apply decode_range_ok.
  - rewrite fixed_get_ok, packed_get_ok, Hq, El, Eb by done. done.
  - split; [intros H; destruct (fast_fits q Hok index) as (_ & H2 & _); [lia|]; by rewrite El, Eb in H2|].
    intros H. rewrite Elim. destruct Hok as [_ [Hbits _] _ _]. rewrite Eb in Hbits. unfold limit_of.
    pose proof (Z.div_mod (index * b) 8 ltac:(lia)). pose proof (Z.mod_pos_bound (index * b) 8).
    assert (0 <= index * b / 8) by (apply Z.div_pos; nia). destruct (Z.ltb_spec (zlen l) 8); [lia|].
    assert (index <= ((zlen l - 8) * 8 + 7) / b) by (apply Z.div_le_lower_bound; lia). lia.
Qed.

Lemma packed_reads_are_safe_and_exact_witness :
  exists q, packed_new [0x21; 0x43; 0x65; 0x87; 0xa9; 0xcb; 0xed; 0x0f; 0xff] 4 = Some q /\ fast_limit q = 4 /\
    packed_get q 2 = Some (Some 3) /\
    decode_range q 1 [7; 7; 7; 7; 7] = Some (3, [2; 3; 4; 7; 7]) /\
    (2 < fast_limit q <-> 2 * 4 / 8 + 8 <= 9).
Proof.
  eexists. split; [reflexivity|]. split; [reflexivity|]. split; [reflexivity|]. split; [reflexivity|].
  refine (proj2 (proj2 (proj2 (packed_reads_are_safe_and_exact [0x21; 0x43; 0x65; 0x87; 0xa9; 0xcb; 0xed; 0x0f; 0xff] 4 9 2 [] _ _ _ _ _ eq_refl))));
    [by apply bytes_okb_ok|reflexivity|lia|lia].
Defined.
