(* ===== verification/DirectReader.v ===== *)
(** * Packed values on disk: reader and writer ([lucene-codecs/src/direct_reader.rs])

    [get] is the generic read: width checked, one 8-byte load or a byte loop
    at the end of the slice.  [DirectReader] and [FixedWidthReader] are the
    per-width readers, [encode] the writer.  Proved: what [get] answers at any
    index; that both fast readers are [get]; and that they read back what
    [encode] packed. *)
From Stdlib Require Import Sorting.Sorted.
From stdpp Require Import strings.
From S2P Require Import Prelude StoreError BitWords PackedLongs.

Definition SUPPORTED_BITS : list Z := [1; 2; 4; 8; 12; 16; 20; 24; 28; 32; 40; 48; 56; 64].

(** The compile-time loop over the table. *)
Definition SUPPORTED_BITS_MASK : Z :=
  fold_left (fun mask b => if b <? 64 then Z.lor mask (shlu 64 1 b) else mask) SUPPORTED_BITS 0.

Definition is_supported_bits (bits_per_value : Z) : bool :=
  (bits_per_value =? 64) || ((bits_per_value <? 64) && negb (Z.land (Z.shiftr SUPPORTED_BITS_MASK bits_per_value) 1 =? 0)).

Definition unsupported : Error := Corrupted "unsupported DirectReader bitsPerValue: {bits_per_value}".

(** The byte loop of the tail: [acc |= (b as u64) << (8 * i)]. *)
Fixpoint or_bytes (acc i : Z) (bytes : list byte) : Z :=
  match bytes with
  | [] => acc
  | b :: bytes => or_bytes (Z.lor acc (shlu 64 b (8 * i))) (i + 1) bytes
  end.

Definition get (slice : list byte) (bits_per_value index : Z) : result Error Z :=
  if negb (is_supported_bits bits_per_value) then Err unsupported
  else
    let bit_pos := mul64 (wrapu 64 index) bits_per_value in
    let byte_pos := Z.shiftr bit_pos 3 in
    let shift := Z.land bit_pos 7 in
    let bytes_needed := div_ceil (shift + bits_per_value) 8 in
    if zlen slice <? byte_pos then Err (Eof byte_pos)
    else
      match match zslice slice byte_pos (byte_pos + 8) with
            | Some window => Some (from_le window)
            | None => or_bytes 0 0 <$> zslice slice byte_pos (byte_pos + bytes_needed)
            end with
      | None => Err (Eof byte_pos)
      | Some acc =>
          let mask := if bits_per_value =? 64 then 2 ^ 64 - 1 else shlu 64 1 bits_per_value - 1 in
          Ok (wraps 64 (Z.land (Z.shiftr acc shift) mask))
      end.

(** [read_at_width::<B>]. *)
Definition checked_mul64 (a b : Z) : option Z := if a * b <? 2 ^ 64 then Some (a * b) else None.
Definition first_chunk (n : Z) (tail : list byte) : option Z := from_le <$> zslice tail 0 n.

Definition read_at_width (B : Z) (slice : list byte) (index : Z) : option Z :=
  index ← (if 0 <=? index then Some index else None);
  bit_pos ← checked_mul64 index B;
  let byte_pos := Z.shiftr bit_pos 3 in
  tail ← (if byte_pos <=? zlen slice then Some (drop (Z.to_nat byte_pos) slice) else None);
  value ← (if B =? 8 then first_chunk 1 tail
           else if B =? 16 then first_chunk 2 tail
           else if B =? 32 then first_chunk 4 tail
           else if B =? 64 then first_chunk 8 tail
           else if (B =? 1) || (B =? 2) || (B =? 4) then (fun b => Z.shiftr b (Z.land bit_pos 7)) <$> zget tail 0
           else (fun w => Z.shiftr w (Z.land bit_pos 7)) <$> first_chunk 8 tail);
  Some (wraps 64 (Z.land value (width_mask B))).

(** [DirectReader]: [new] checks the width once. *)
Record DirectReader : Type := mk_reader { slice : list byte; bits_per_value : Z }.
Definition reader_new (slice : list byte) (bits_per_value : Z) : result Error DirectReader :=
  if negb (is_supported_bits bits_per_value) then Err unsupported else Ok (mk_reader slice bits_per_value).

(** [DirectReader::get]: one arm per width of the table. *)
Definition reader_get (r : DirectReader) (index : Z) : result Error Z :=
  let fast := if existsb (Z.eqb (bits_per_value r)) SUPPORTED_BITS
              then read_at_width (bits_per_value r) (slice r) index else None in
  match fast with Some v => Ok v | None => get (slice r) (bits_per_value r) index end.

(** [FixedWidthReader::<B>]; an undefined load of [fast] is [None]. *)
Record FixedWidthReader : Type := mk_fixed_width { fixed_slice : list byte; fast : FixedPackedLongs }.
Definition fixed_width_new (B : Z) (slice : list byte) : FixedWidthReader := mk_fixed_width slice (fixed_new B slice).
Definition fixed_width_get (B : Z) (r : FixedWidthReader) (index : Z) : option (result Error Z) :=
  v ← fixed_get B (fast r) (wrapu 64 index);
  Some (match v with Some v => Ok (wraps 64 v) | None => get (fixed_slice r) B index end).

(** [with_width]: the width the visitor is compiled for. *)
Definition visited_width (r : DirectReader) : Z :=
  if existsb (Z.eqb (bits_per_value r)) (removelast SUPPORTED_BITS) then bits_per_value r else 64.

(** The packing loop of [encode], over the values left. *)
Fixpoint encode_loop (bpv mask : Z) (values : list Z) (out : list byte) (acc nbits : Z) : list byte * Z * Z :=
  match values with
  | [] => (out, acc, nbits)
  | v :: values =>
      let acc := Z.lor acc (wrapu 128 (Z.shiftl (Z.land (wrapu 64 v) mask) nbits)) in
      let nbits := nbits + bpv in
      if 64 <=? nbits
      then encode_loop bpv mask values (out ++ to_le 8 (wrapu 64 acc)) (Z.shiftr acc 64) (nbits - 64)
      else encode_loop bpv mask values out acc nbits
  end.
Definition encode (values : list Z) (bits_per_value : Z) : list byte :=
  let bpv := Z.min bits_per_value 64 in
  let mask := if bpv =? 64 then 2 ^ 64 - 1 else shlu 64 1 bpv - 1 in
  let '(out, acc, nbits) := encode_loop bpv mask values [] 0 0 in
  out ++ take (Z.to_nat (div_ceil nbits 8)) (to_le 8 (wrapu 64 acc)).

Definition unsigned_bits_required (max_value : Z) : Z :=
  let bits := if max_value =? 0 then 1 else 64 - leading_zeros 64 (wrapu 64 max_value) in
  match List.find (fun w => bits <=? w) SUPPORTED_BITS with Some w => w | None => 64 end.

Definition padding_bytes_needed (bits_per_value : Z) : Z :=
  let padding_bits :=
    if 32 <? bits_per_value then 64 - bits_per_value
    else if 16 <? bits_per_value then 32 - bits_per_value
    else if 8 <? bits_per_value then 16 - bits_per_value else 0 in
  div_ceil padding_bits 8.

(** ** Supported widths. *)
Lemma supported_spec b : 0 <= b < 256 -> is_supported_bits b = existsb (Z.eqb b) SUPPORTED_BITS.
Proof.
  intros Hb. assert (H : forallb (fun n => Bool.eqb (is_supported_bits (Z.of_nat n)) (existsb (Z.eqb (Z.of_nat n)) SUPPORTED_BITS)) (seq 0 256) = true)
    by (vm_compute; reflexivity).
  rewrite forallb_forall in H. specialize (H (Z.to_nat b)). rewrite Z2Nat.id in H by lia. apply eqb_prop, H, in_seq. lia.
Qed.

Definition supported (b : Z) : Prop := In b SUPPORTED_BITS.

Lemma is_supported b : 0 <= b < 256 -> is_supported_bits b = true <-> supported b.
Proof.
  intros Hb. rewrite supported_spec by done. rewrite existsb_exists. split.
  - intros (x & Hx & ->%Z.eqb_eq). done.
  - intros H. exists b. by rewrite Z.eqb_refl.
Qed.

(** A supported width is accepted by [PackedLongs], and is read in 8 bytes. *)
Lemma supported_widths b : supported b -> 1 <= b <= 64 /\ (b mod 8 = 0 \/ b <= 28).
Proof. cbn. intros H. repeat destruct H as [<-|H]; try done; split; try lia; by (left + right). Qed.

Lemma get_mask b : 1 <= b <= 64 -> (if b =? 64 then 2 ^ 64 - 1 else shlu 64 1 b - 1) = Z.ones b.
Proof.
  intros Hb. destruct (Z.eqb_spec b 64) as [->|]; [done|]. unfold shlu. rewrite Z.mod_small by lia.
  rewrite wrapu_id by (rewrite Z.shiftl_1_l; apply in_u_pow2; lia). apply shiftl_ones. lia.
Qed.

(** ** What a read answers. *)
Lemma or_bytes_spec l : bytes_ok l -> forall acc i, 0 <= i -> 8 * (i + zlen l) <= 64 ->
  or_bytes acc i l = Z.lor acc (Z.shiftl (from_le l) (8 * i)).
Proof.
  induction 1 as [|b l Hb Hl IH]; intros acc i Hi Hle; cbn [or_bytes from_le]; [by rewrite Z.shiftl_0_l, Z.lor_0_r|].
  rewrite zlen_cons in Hle. pose proof (zlen_nonneg l). rewrite IH by lia.
  assert (E : shlu 64 b (8 * i) = Z.shiftl b (8 * i)).
  { unfold shlu. rewrite Z.mod_small by lia. apply wrapu_id. unfold in_u in *. rewrite Z.shiftl_mul_pow2 by lia.
    assert (2 ^ (8 * i) <= 2 ^ 56) by (apply Z.pow_le_mono_r; lia). assert (0 < 2 ^ (8 * i)) by (apply Z.pow_pos_nonneg; lia).
    change (2 ^ 64) with (256 * 2 ^ 56). change (2 ^ 8) with 256 in Hb. nia. }
  rewrite E, <- Z.lor_assoc, Z.shiftl_lor, Z.shiftl_shiftl by lia. do 3 f_equal. lia.
Qed.

(** The window of 8 bytes or the bytes needed: either holds the value. *)
Definition needed (pos b : Z) : Z := div_ceil (pos mod 8 + b) 8.

Lemma needed_fits (l : list byte) pos b : 0 <= pos -> 1 <= b -> pos / 8 + needed pos b <= zlen l <-> pos + b <= 8 * zlen l.
Proof. unfold needed, div_ceil. intros. Z.div_mod_to_equations. lia. Qed.

Lemma narrow pos b : 1 <= b <= 64 -> (b mod 8 = 0 \/ b <= 28) -> (exists i, pos = i * b) -> pos mod 8 + b <= 64.
Proof.
  intros Hb [Hw|Hw] [i ->].
  - rewrite (proj1 (mul_div_8 i b Hw)). lia.
  - pose proof (Z.mod_pos_bound (i * b) 8 eq_refl). lia.
Qed.

(** The bit position of a wrapped index is still a multiple of 8, or the width small. *)
Lemma wrapped_narrow i b : 1 <= b <= 64 -> (b mod 8 = 0 \/ b <= 28) -> (mul64 i b) mod 8 + b <= 64.
Proof.
  intros Hb [Hw|Hw].
  - unfold mul64, wrapu. change (2 ^ 64) with (8 * 2 ^ 61). rewrite Z.rem_mul_r by lia.
    rewrite (Z.mul_comm 8), Z.mod_add, Z.mod_mod, (proj1 (mul_div_8 i b Hw)) by lia. lia.
  - pose proof (Z.mod_pos_bound (mul64 i b) 8 eq_refl). lia.
Qed.

Definition bit_position (b index : Z) : Z := mul64 (wrapu 64 index) b.

Lemma get_spec l b index : bytes_ok l -> supported b ->
  get l b index =
  let pos := bit_position b index in
  if pos + b <=? 8 * zlen l then Ok (wraps 64 (bits_at l pos b)) else Err (Eof (pos / 8)).
Proof.
  intros Hl Hs. destruct (supported_widths b Hs) as [Hb Hw]. cbv zeta. set (pos := bit_position b index).
  assert (H0 : 0 <= pos) by (apply (wrapu_range 64); lia). pose proof (zlen_nonneg l).
  unfold get. rewrite (proj2 (is_supported b ltac:(lia)) Hs). cbn [negb]. cbv zeta. fold (bit_position b index). fold pos.
  rewrite Z.shiftr_div_pow2 by lia. change 7 with (Z.ones 3). rewrite Z.land_ones by lia. change (2 ^ 3) with 8. rewrite get_mask by done.
  fold (needed pos b). pose proof (wrapped_narrow (wrapu 64 index) b Hb Hw) as Hn. fold (bit_position b index) in Hn. fold pos in Hn.
  assert (Hpos : 0 <= pos / 8) by (apply Z.div_pos; lia). pose proof (needed_fits l pos b H0 ltac:(lia)) as Hf.
  assert (Hnd : 0 <= needed pos b /\ pos mod 8 + b <= 8 * needed pos b <= 64) by (unfold needed, div_ceil; Z.div_mod_to_equations; lia).
  destruct (Z.ltb_spec (zlen l) (pos / 8)); [destruct (Z.leb_spec (pos + b) (8 * zlen l)); [lia|done]|].
  destruct (zslice l (pos / 8) (pos / 8 + 8)) as [s|] eqn:E8.
  - assert (H8 : pos / 8 + 8 <= zlen l).
    { apply zslice_Some in E8 as (x & y & -> & <- & Hz). autorewrite with zlen in *. pose proof (zlen_nonneg y). lia. }
    destruct (load_at l 8 pos b) as (w & Ew & Ev); [done|lia..|]. unfold load in Ew. rewrite E8 in Ew. injection Ew as <-. rewrite Ev.
    destruct (Z.leb_spec (pos + b) (8 * zlen l)); [done|]. pose proof (Z.div_mod pos 8). lia.
  - destruct (Z.leb_spec (pos + b) (8 * zlen l)).
    + destruct (load_at l (needed pos b) pos b) as (w & Ew & Ev); [done|lia..|]. unfold load in Ew.
      destruct (zslice l (pos / 8) (pos / 8 + needed pos b)) as [s|] eqn:Es; [|done]. injection Ew as <-. cbn [fmap option_fmap option_map].
      assert (Hs' : bytes_ok s /\ zlen s = needed pos b).
      { apply zslice_Some in Es as (x & y & Ex & Hx & Hz). rewrite Ex in Hl. apply Forall_app in Hl as [_ Hl]. apply Forall_app in Hl as [Hl _].
        split; [done|]. lia. }
      rewrite or_bytes_spec by (try apply Hs'; lia). change (8 * 0) with 0. by rewrite Z.shiftl_0_r, Z.lor_0_l, Ev.
    + rewrite zslice_None by lia. done.
Qed.

(** ** The per-width readers are [get]. *)
Lemma first_chunk_load n (l : list byte) k : 0 <= n -> 0 <= k <= zlen l -> first_chunk n (drop (Z.to_nat k) l) = load n l k.
Proof.
  intros Hn Hk. unfold first_chunk, load. f_equal. destruct (zslice l k (k + n)) as [s|] eqn:E.
  - apply zslice_Some in E as (x & y & -> & Hx & Hz). apply zslice_Some. exists [], y.
    assert (Z.to_nat k = length x) as -> by (unfold zlen in *; lia). rewrite drop_app_length, zlen_nil. split; [done|]. lia.
  - destruct (decide (k + n <= zlen l)) as [H|H]; [destruct (zslice_total l k (k + n)) as (s & E' & _); [lia..|congruence]|].
    apply zslice_None; [done..|]. unfold zlen in *. rewrite length_drop. lia.
Qed.

Lemma first_byte (tail : list byte) : zget tail 0 = first_chunk 1 tail.
Proof. destruct tail as [|b tail]; [done|]. unfold first_chunk, zslice. rewrite zlen_cons. pose proof (zlen_nonneg tail).
  destruct (Z.leb_spec 1 (1 + zlen tail)); [|lia]. cbn. f_equal. by destruct b. Qed.

Lemma load_bound n l k w : load n l k = Some w -> 0 <= k /\ k + n <= zlen l.
Proof.
  unfold load. destruct (zslice _ _ _) as [s|] eqn:E; [|done]. intros _. apply zslice_Some in E as (x & y & -> & <- & Hz).
  autorewrite with zlen in *. pose proof (zlen_nonneg x). pose proof (zlen_nonneg y). lia.
Qed.

(** A chunk that is there and holds the value gives what [get] answers. *)
Lemma chunk_value l b index n w : bytes_ok l -> supported b -> in_u 64 index -> index * b < 2 ^ 64 -> 0 <= n ->
  (index * b) mod 8 + b <= 8 * n -> load n l (index * b / 8) = Some w ->
  get l b index = Ok (wraps 64 (Z.land (Z.shiftr w ((index * b) mod 8)) (width_mask b))).
Proof.
  intros Hl Hs Hi Hp Hn Hfit E. destruct (supported_widths b Hs) as [Hb _]. assert (Hpos : 0 <= index * b) by (destruct Hi; nia).
  pose proof (load_bound _ _ _ _ E) as [_ Hle]. destruct (load_at l n (index * b) b) as (w' & E' & Ev); [done|lia..|].
  assert (w' = w) as -> by congruence. rewrite width_mask_ones, Ev, get_spec by done. cbv zeta.
  assert (Hbp : bit_position b index = index * b) by (unfold bit_position, mul64; rewrite (wrapu_id 64 index), wrapu_id by done; done).
  rewrite Hbp. pose proof (Z.div_mod (index * b) 8). destruct (Z.leb_spec (index * b + b) (8 * zlen l)); [done|lia].
Qed.

(** The bytes each width loads. *)
Definition chunk_width (b : Z) : Z :=
  if (b =? 8) || (b =? 16) || (b =? 32) || (b =? 64) then b / 8 else if (b =? 1) || (b =? 2) || (b =? 4) then 1 else 8.

Lemma chunk_fits b index : supported b -> (index * b) mod 8 + b <= 8 * chunk_width b /\ 0 <= chunk_width b.
Proof.
  intros H. cbn in H. repeat destruct H as [<-|H]; try done; cbn [chunk_width Z.eqb Pos.eqb orb]; split; try done.
  all: unfold chunk_width; cbn [Z.eqb Pos.eqb orb]; Z.div_mod_to_equations; lia.
Qed.

Lemma read_at_width_chunk b l index : supported b -> in_s 64 index ->
  read_at_width b l index =
  if (0 <=? index) && (index * b <? 2 ^ 64)
  then w ← load (chunk_width b) l (index * b / 8); Some (wraps 64 (Z.land (Z.shiftr w ((index * b) mod 8)) (width_mask b)))
  else None.
Proof.
  intros Hs Hi. destruct (supported_widths b Hs) as [Hb _]. destruct (chunk_fits b index Hs) as [_ Hc].
  unfold read_at_width, checked_mul64. destruct (Z.leb_spec 0 index); [|done]. cbn [mbind option_bind andb].
  destruct (index * b <? 2 ^ 64); [|done]. cbn [mbind option_bind]. cbv zeta.
  rewrite Z.shiftr_div_pow2 by lia. change 7 with (Z.ones 3). rewrite Z.land_ones by lia. change (2 ^ 3) with 8.
  assert (Hq : 0 <= index * b / 8) by (apply Z.div_pos; nia).
  destruct (Z.leb_spec (index * b / 8) (zlen l)).
  2:{ destruct (load _ _ _) as [w|] eqn:E; [|done]. apply load_bound in E. lia. }
  cbn [mbind option_bind]. rewrite first_byte, !first_chunk_load by lia.
  pose proof (mul_div_8 index b) as H8. unfold chunk_width. cbn in Hs.
  repeat destruct Hs as [<-|Hs]; try done; cbn [Z.eqb Pos.eqb orb]; try (rewrite (proj1 (H8 eq_refl))).
  all: repeat change (8 / 8) with 1; repeat change (16 / 8) with 2; repeat change (32 / 8) with 4; repeat change (64 / 8) with 8.
  all: match goal with |- context [load ?n ?l ?k] => destruct (load n l k) end; cbn; rewrite ?Z.shiftr_0_r; done.
Qed.

Lemma read_at_width_get b l index v : bytes_ok l -> supported b -> in_s 64 index -> read_at_width b l index = Some v -> get l b index = Ok v.
Proof.
  intros Hl Hs Hi. rewrite read_at_width_chunk by done. destruct (Z.leb_spec 0 index); [|done]. cbn [andb].
  destruct (Z.ltb_spec (index * b) (2 ^ 64)); [|done]. destruct (load _ _ _) as [w|] eqn:E; [|done]. intros [= <-].
  destruct (chunk_fits b index Hs). eapply chunk_value; try done. unfold in_u, in_s in *. lia.
Qed.

Lemma supported_existsb b : supported b -> existsb (Z.eqb b) SUPPORTED_BITS = true.
Proof. intros H. apply existsb_exists. exists b. by rewrite Z.eqb_refl. Qed.

Lemma fixed_is_get b l index : bytes_ok l -> zlen l < 2 ^ 60 -> supported b -> in_s 64 index ->
  fixed_width_get b (fixed_width_new b l) index = Some (get l b index).
Proof.
  intros Hl Hlen Hs Hi. destruct (supported_widths b Hs) as [Hb Hw]. pose proof (wrapu_range 64 index ltac:(lia)) as Hu.
  unfold fixed_width_get, fixed_width_new. cbn [fast fixed_slice]. rewrite fixed_get_ok by (done || destruct Hu; lia).
  destruct (packed_new l b) as [p|] eqn:Ep; [|destruct (Z.ltb_spec (wrapu 64 index) 0); [destruct Hu; lia|done]].
  destruct (packed_new_spec l b Hl Hlen ltac:(lia) p Ep) as (Hp & El & Eb & _).
  destruct (Z.ltb_spec (wrapu 64 index) (fast_limit p)) as [H|]; [|done]. cbn [mbind option_bind]. f_equal.
  destruct (fast_fits p Hp (wrapu 64 index)) as (H1 & H2 & H3); [destruct Hu; lia|]. rewrite El, Eb in *.
  rewrite get_spec by done. cbv zeta. unfold bit_position, mul64. rewrite (wrapu_id 64 (_ * _)) by done.
  pose proof (Z.div_mod (wrapu 64 index * b) 8). destruct (Z.leb_spec (wrapu 64 index * b + b) (8 * zlen l)); [done|lia].
Qed.

(** The per-width readers: over any slice, at any [i64] index, for every
    width [get] accepts, [DirectReader::get] and the constant-width reader
    answer exactly what [get] does, errors included, without an undefined
    load; [new] refuses exactly the other widths, with the error [get] has for
    them; and [with_width] compiles for the reader's own width. *)
Lemma width_readers_are_get (l : list byte) (b index : Z) : bytes_ok l -> zlen l < 2 ^ 60 -> 0 <= b < 256 -> in_s 64 index ->
  match reader_new l b with
  | Ok r => reader_get r index = get l b index /\ visited_width r = b /\
            fixed_width_get (visited_width r) (fixed_width_new (visited_width r) l) index = Some (get l b index)
  | Err e => get l b index = Err e /\ ~ supported b
  end.
Proof.
  intros Hl Hlen Hb Hi. unfold reader_new. destruct (is_supported_bits b) eqn:E; cbn [negb].
  - apply is_supported in E; [|done]. assert (Hv : visited_width (mk_reader l b) = b) by (cbn in E; by repeat destruct E as [<-|E]).
    rewrite Hv. split; [|split; [done|by apply fixed_is_get]]. unfold reader_get. cbn [slice bits_per_value]. rewrite supported_existsb by done.
    destruct (read_at_width b l index) as [v|] eqn:Er; [|done]. by rewrite (read_at_width_get _ _ _ _ Hl E Hi Er).
  - split; [unfold get; by rewrite E|]. rewrite <- is_supported, E by done. done.
Qed.

Lemma width_readers_are_get_witness :
  get [0xBC; 0xFA; 0xDE] 12 1 = Ok 0xDEF /\ get [0xBC; 0xFA; 0xDE] 12 2 = Err (Eof 3) /\
  reader_get (mk_reader [0xBC; 0xFA; 0xDE] 12) 1 = get [0xBC; 0xFA; 0xDE] 12 1.
Proof.
  split; [reflexivity|]. split; [reflexivity|].
  refine (proj1 (_ : _ /\ visited_width (mk_reader [0xBC; 0xFA; 0xDE] 12) = 12 /\ _)).
  apply (width_readers_are_get [0xBC; 0xFA; 0xDE] 12 1); [by apply bytes_okb_ok|reflexivity|lia|split; [discriminate|reflexivity]].
Defined.

(** ** What [encode] packs. *)
Fixpoint packed (b : Z) (values : list Z) : Z :=
  match values with
  | [] => 0
  | v :: values => Z.lor (Z.land v (Z.ones b)) (Z.shiftl (packed b values) b)
  end.

Lemma in_u_shiftl w n x : 0 <= n -> 0 <= w -> in_u w x -> in_u (w + n) (Z.shiftl x n).
Proof.
  intros Hn Hw [H1 H2]. unfold in_u. rewrite Z.shiftl_mul_pow2, Z.pow_add_r by lia.
  assert (0 < 2 ^ n) by (apply Z.pow_pos_nonneg; lia). nia.
Qed.

Lemma in_u_shiftr w n x : 0 <= n -> 0 <= w -> in_u (w + n) x -> in_u w (Z.shiftr x n).
Proof.
  intros Hn Hw [H1 H2]. unfold in_u. rewrite Z.pow_add_r in H2 by lia. rewrite Z.shiftr_div_pow2 by lia.
  assert (0 < 2 ^ n) by (apply Z.pow_pos_nonneg; lia). split; [by apply Z.div_pos|apply Z.div_lt_upper_bound; lia].
Qed.

Lemma split_word n x : 0 <= n -> Z.lor (wrapu n x) (Z.shiftl (Z.shiftr x n) n) = x.
Proof.
  intros Hn. apply Z.bits_inj'. intros i Hi. rewrite Z.lor_spec, testbit_wrapu, Z.shiftl_spec by lia.
  destruct (Z.ltb_spec i n); [rewrite (Z.testbit_neg_r _ (i - n)) by lia; by rewrite orb_false_r|].
  rewrite Z.shiftr_spec by lia. cbn. f_equal. lia.
Qed.

Lemma wrapu_below m acc x : 64 <= m -> wrapu 64 acc = wrapu 64 (Z.lor acc (Z.shiftl x m)).
Proof.
  intros Hm. apply Z.bits_inj'. intros i Hi. rewrite !testbit_wrapu, Z.lor_spec, Z.shiftl_spec by lia.
  destruct (Z.ltb_spec i 64); [|done]. rewrite (Z.testbit_neg_r _ (i - m)) by lia. by rewrite orb_false_r.
Qed.

(** The stream written so far, with the bits [acc] still holds. *)
Definition stream (out : list byte) (acc : Z) : Z := Z.lor (from_le out) (Z.shiftl acc (8 * zlen out)).

Lemma stream_flush out acc n : 0 <= n -> stream (out ++ to_le (Z.to_nat n) (wrapu (8 * n) acc)) (Z.shiftr acc (8 * n)) = stream out acc.
Proof.
  intros Hn. unfold stream. pose proof (zlen_nonneg out). rewrite from_le_app, zlen_app, zlen_to_le, Z2Nat.id by lia.
  rewrite from_to_le_id by (rewrite Z2Nat.id by lia; apply wrapu_range; lia).
  rewrite <- Z.lor_assoc. f_equal. rewrite <- (split_word (8 * n) acc) at 3 by lia. rewrite Z.shiftl_lor, Z.shiftl_shiftl by lia. do 2 f_equal. lia.
Qed.

Lemma encode_loop_spec b vs : 0 <= b <= 64 -> forall out acc nbits out' acc' nbits', 0 <= nbits < 64 -> in_u nbits acc -> bytes_ok out ->
  encode_loop b (Z.ones b) vs out acc nbits = (out', acc', nbits') ->
  (0 <= nbits' < 64 /\ in_u nbits' acc' /\ bytes_ok out') /\
  8 * zlen out' + nbits' = 8 * zlen out + nbits + zlen vs * b /\
  stream out' acc' = stream out (Z.lor acc (Z.shiftl (packed b vs) nbits)).
Proof.
  intros Hb. induction vs as [|v vs IH]; intros out acc nbits out' acc' nbits' Hn Ha Ho; cbn [encode_loop packed].
  - intros [= <- <- <-]. rewrite Z.shiftl_0_l, Z.lor_0_r. split; [done|]. split; [|done]. change (zlen []) with 0. lia.
  - set (x := Z.land (wrapu 64 v) (Z.ones b)).
    assert (Ex : x = Z.land v (Z.ones b)).
    { unfold x. apply Z.bits_inj'. intros i Hi. rewrite !Z.land_spec, testbit_wrapu, testbit_ones by lia.
      destruct (Z.ltb_spec i 64), (Z.ltb_spec i b); try lia; [done|by rewrite !andb_false_r..]. }
    assert (Hx : in_u b x) by (rewrite Ex, <- wrapu_land by lia; apply wrapu_range; lia).
    assert (Hs : in_u (nbits + b) (Z.shiftl x nbits)) by (rewrite Z.add_comm; apply in_u_shiftl; (done || lia)).
    rewrite (wrapu_id 128) by (apply (in_u_weaken (nbits + b)); [lia|done]).
    set (acc1 := Z.lor acc (Z.shiftl x nbits)).
    assert (H1 : in_u (nbits + b) acc1) by (apply in_u_lor; [lia|apply (in_u_weaken nbits); [lia|done]|done]).
    assert (Eacc : Z.lor acc (Z.shiftl (Z.lor (Z.land v (Z.ones b)) (Z.shiftl (packed b vs) b)) nbits) =
      Z.lor acc1 (Z.shiftl (packed b vs) (nbits + b))).
    { unfold acc1. rewrite Ex, Z.shiftl_lor, Z.shiftl_shiftl, Z.lor_assoc by lia. do 2 f_equal. lia. }
    rewrite Eacc, zlen_cons. destruct (Z.leb_spec 64 (nbits + b)) as [H64|H64]; intros E.
    + apply IH in E as (H & Hl & Es); [|lia|apply in_u_shiftr; [lia..|]; by replace (nbits + b - 64 + 64) with (nbits + b) by lia|
        apply bytes_ok_app; [done|apply to_le_ok]].
      split; [done|]. split; [rewrite zlen_app, zlen_to_le in Hl; lia|]. rewrite Es, <- (stream_flush out _ 8) by lia.
      change (8 * 8) with 64. change (Z.to_nat 8) with 8%nat. rewrite (wrapu_below (nbits + b) acc1 (packed b vs)), Z.shiftr_lor, Z.shiftr_shiftl_l by lia.
      done.
    + apply IH in E as (H & Hl & Es); [|lia|done|done]. split; [done|]. split; [lia|done].
Qed.

Lemma encode_spec b vs : 0 <= b <= 64 -> bytes_ok (encode vs b) /\ zlen (encode vs b) = div_ceil (zlen vs * b) 8 /\ from_le (encode vs b) = packed b vs.
Proof.
  intros Hb. unfold encode. rewrite Z.min_l by lia.
  assert ((if b =? 64 then 2 ^ 64 - 1 else shlu 64 1 b - 1) = Z.ones b) as ->.
  { destruct (Z.eq_dec b 0) as [->|]; [done|apply get_mask; lia]. }
  destruct (encode_loop b (Z.ones b) vs [] 0 0) as [[out acc] nbits] eqn:E.
  apply encode_loop_spec in E as ((Hn & Ha & Ho) & Hl & Es); [|done|lia|by apply in_u_0|constructor].
  change (zlen []) with 0 in Hl. unfold stream in Es. cbn [from_le] in Es. change (8 * zlen []) with 0 in Es.
  rewrite !Z.shiftl_0_r, !Z.lor_0_l in Es. set (k := div_ceil nbits 8).
  assert (Hk : 0 <= k <= 8 /\ nbits <= 8 * k < nbits + 8) by (unfold k, div_ceil; Z.div_mod_to_equations; lia).
  rewrite take_to_le by lia. rewrite wrapu_id by (apply (in_u_weaken nbits); [lia|done]).
  split; [by apply bytes_ok_app; [|apply to_le_ok]|]. split.
  - rewrite zlen_app, zlen_to_le, Z2Nat.id by lia. unfold k, div_ceil in *. Z.div_mod_to_equations. lia.
  - rewrite from_le_app, from_to_le_id; [done|]. rewrite Z2Nat.id by lia. apply (in_u_weaken nbits); [lia|done].
Qed.

(** A value of the packed stream. *)
Lemma packed_value b vs i v : 0 <= b -> vs !! i = Some v ->
  Z.land (Z.shiftr (packed b vs) (Z.of_nat i * b)) (Z.ones b) = Z.land v (Z.ones b).
Proof.
  intros Hb. revert i. induction vs as [|x vs IH]; intros [|i] E; try done; cbn [packed].
  - injection E as ->. change (Z.of_nat 0 * b) with 0. rewrite Z.shiftr_0_r. apply Z.bits_inj'. intros k Hk.
    rewrite !Z.land_spec, Z.lor_spec, Z.land_spec, Z.shiftl_spec, testbit_ones by lia.
    destruct (Z.leb_spec 0 k); [|lia]. destruct (Z.ltb_spec k b); cbn [andb]; [|by rewrite !andb_false_r].
    rewrite (Z.testbit_neg_r _ (k - b)) by lia. by rewrite orb_false_r, !andb_true_r.
  - rewrite <- (IH i E). apply Z.bits_inj'. intros k Hk.
    rewrite !Z.land_spec, !Z.shiftr_spec, Z.lor_spec, Z.land_spec, Z.shiftl_spec, !testbit_ones by nia.
    destruct (Z.ltb_spec k b); [|by rewrite !andb_false_r]. destruct (Z.ltb_spec (k + Z.of_nat (Datatypes.S i) * b) b); [nia|].
    rewrite andb_false_r, andb_false_r. cbn [orb]. do 2 f_equal. lia.
Qed.

Lemma bits_at_app l rest pos b : bytes_ok l -> 0 <= pos -> 0 <= b -> pos + b <= 8 * zlen l -> bits_at (l ++ rest) pos b = bits_at l pos b.
Proof.
  intros Hl Hp Hb Hle. unfold bits_at. rewrite from_le_app. apply Z.bits_inj'. intros k Hk.
  rewrite !Z.land_spec, !Z.shiftr_spec, Z.lor_spec, Z.shiftl_spec, testbit_ones by lia.
  destruct (Z.ltb_spec k b); [|by rewrite !andb_false_r]. rewrite (Z.testbit_neg_r _ (k + pos - _)) by lia. by rewrite orb_false_r.
Qed.

Lemma get_encoded b vs rest i v : supported b -> bytes_ok rest -> zlen vs < 2 ^ 56 -> vs !! i = Some v ->
  get (encode vs b ++ rest) b (Z.of_nat i) = Ok (wraps 64 (Z.land v (Z.ones b))).
Proof.
  intros Hs Hr Hlen E. destruct (supported_widths b Hs) as [Hb _]. destruct (encode_spec b vs ltac:(lia)) as (Hok & Hl & Hf).
  pose proof (lookup_lt_Some _ _ _ E) as Hi. assert (Hiz : Z.of_nat i < zlen vs) by (unfold zlen; lia).
  rewrite get_spec by (try apply bytes_ok_app; done). cbv zeta. change (2 ^ 56) with 72057594037927936 in Hlen.
  assert (Hbp : bit_position b (Z.of_nat i) = Z.of_nat i * b).
  { unfold bit_position, mul64. rewrite (wrapu_id 64 (Z.of_nat i)); [apply wrapu_id|]; unfold in_u; change (2 ^ 64) with 18446744073709551616; nia. }
  assert (Hend : Z.of_nat i * b + b <= 8 * zlen (encode vs b)) by (rewrite Hl; unfold div_ceil; Z.div_mod_to_equations; nia).
  rewrite Hbp, zlen_app. pose proof (zlen_nonneg rest). destruct (Z.leb_spec (Z.of_nat i * b + b) (8 * (zlen (encode vs b) + zlen rest))); [|lia].
  rewrite bits_at_app by (done || lia). unfold bits_at. by rewrite Hf, (packed_value b vs i v ltac:(lia) E).
Qed.

(** ** The width the writer picks. *)
Lemma find_least bits l w w' : StronglySorted Z.le l -> List.find (fun w => bits <=? w) l = Some w -> In w' l -> bits <= w' -> w <= w'.
Proof.
  induction 1 as [|x l Hl IH Hx]; cbn; [done|]. destruct (Z.leb_spec bits x).
  - intros [= ->] [->|H'] _; [lia|]. by apply (proj1 (List.Forall_forall _ _) Hx) in H'.
  - intros E [->|H'] Hb; [lia|]. by apply IH.
Qed.

Lemma unsigned_bits_least max_value :
  let b := unsigned_bits_required max_value in
  supported b /\ forall w, supported w -> wrapu 64 max_value < 2 ^ w <-> b <= w.
Proof.
  cbv zeta. set (u := wrapu 64 max_value). pose proof (wrapu_range 64 max_value ltac:(lia)) as Hu. fold u in Hu.
  unfold unsigned_bits_required. fold u.
  set (bits := if max_value =? 0 then 1 else 64 - leading_zeros 64 u).
  assert (Hbits : bits <= 64 /\ forall w, 1 <= w <= 64 -> u < 2 ^ w <-> bits <= w).
  { assert (Hz : u = 0 -> bits <= 1).
    { intros Z0. unfold bits. destruct (Z.eqb_spec max_value 0); [lia|]. rewrite Z0. cbn. lia. }
    destruct (Z.eq_dec u 0) as [Z0|Hne].
    - specialize (Hz Z0). split; [lia|]. intros w Hw. rewrite Z0. split; [lia|]. intros _. apply Z.pow_pos_nonneg; lia.
    - assert (Hmz : max_value <> 0) by (intros ->; done). unfold bits. destruct (Z.eqb_spec max_value 0); [done|].
      destruct (leading_zeros_log2 64 u Hu Hne) as [Hlog Hr]. assert (H0 : 0 < u) by (destruct Hu; lia).
      split; [lia|]. intros w Hw. replace (64 - leading_zeros 64 u) with (Z.log2 u + 1) by lia.
      split; intros Hp; [apply Z.log2_lt_pow2 in Hp; lia|apply Z.log2_lt_pow2; lia]. }
  destruct Hbits as [H64 Hiff].
  destruct (List.find (fun w => bits <=? w) SUPPORTED_BITS) as [b|] eqn:E.
  - destruct (List.find_some _ _ E) as [Hb Hle]. split; [done|]. intros w Hw. pose proof (supported_widths w Hw) as [Hw1 _].
    rewrite Hiff by done. split; [|lia]. intros H. apply (find_least bits SUPPORTED_BITS); try done.
    repeat (constructor; [|repeat (constructor; [lia|]); constructor]). constructor.
  - pose proof (List.find_none _ _ E 64) as H. cbn in H. lia.
Qed.

(** A value no larger than the maximum survives its width. *)
Lemma encoded_value vs rest max_value i v : let b := unsigned_bits_required max_value in
  bytes_ok rest -> zlen vs < 2 ^ 56 -> vs !! i = Some v -> in_s 64 v -> wrapu 64 v <= wrapu 64 max_value ->
  get (encode vs b ++ rest) b (Z.of_nat i) = Ok v.
Proof.
  intros b Hr Hlen E Hv Hmax. pose proof (unsigned_bits_least max_value) as [Hb Hle]. fold b in Hb, Hle. destruct (supported_widths b Hb) as [Hw _].
  rewrite (get_encoded b vs rest i v Hb Hr Hlen E). f_equal. pose proof (proj2 (Hle b Hb) ltac:(lia)) as Hu.
  assert (Z.land v (Z.ones b) = wrapu 64 v) as ->; [|by rewrite wraps_wrapu, wraps_id].
  assert (H : in_u b (wrapu 64 v)) by (split; [apply (wrapu_range 64); lia|lia]).
  apply Z.bits_inj'. intros k Hk. rewrite Z.land_spec, testbit_ones by lia. destruct (Z.leb_spec 0 k); [|lia]. cbn [andb].
  destruct (Z.ltb_spec k b); [|by rewrite andb_false_r, (testbit_above b _ k H) by lia].
  rewrite testbit_wrapu by lia. destruct (Z.ltb_spec k 64); [|lia]. by rewrite andb_true_r.
Qed.

(** The bytes of the one word (of 8, 16, 32 or 64 bits) that [DirectWriter]
    pads for at each width. *)
Definition word_bytes (b : Z) : Z := if 32 <? b then 8 else if 16 <? b then 4 else if 8 <? b then 2 else 1.

(** A value starts at most seven bits into its word, and the words of the
    last values end within the padding. *)
Lemma padded_word b n i : supported b -> 0 <= i < n ->
  (i * b) mod 8 + b <= 8 * word_bytes b /\ i * b / 8 + word_bytes b <= div_ceil (n * b) 8 + padding_bytes_needed b.
Proof.
  intros H Hi. cbn in H. unfold div_ceil.
  repeat destruct H as [<-|H]; try done; cbn [word_bytes padding_bytes_needed div_ceil Z.ltb Z.compare Pos.compare Pos.compare_cont Z.sub Z.opp Z.add Z.pos_sub Pos.succ Pos.pred_double];
    unfold word_bytes, padding_bytes_needed, div_ceil; cbn -[Z.mul Z.add Z.div Z.modulo Z.sub]; split; Z.div_mod_to_equations; lia.
Qed.

(** C29: what [encode] packs, every reader reads: for any run of [i64] values
    none above [max_value] as unsigned numbers, at the width
    [unsigned_bits_required max_value] picks (the least supported one that
    holds [max_value]), the buffer has exactly the bytes the bits need, and
    whatever bytes follow it [get], [DirectReader::get] and the fixed-width
    reader answer every value.  When at least [padding_bytes_needed] bytes
    follow, the word of 8, 16, 32 or 64 bits at the value's first byte is all
    there and holds the value. *)
Theorem packed_values_round_trip (vs : list Z) (rest : list byte) (max_value : Z) :
  Forall (in_s 64) vs -> Forall (fun v => wrapu 64 v <= wrapu 64 max_value) vs -> zlen vs < 2 ^ 56 -> bytes_ok rest ->
  let b := unsigned_bits_required max_value in
  let l := encode vs b ++ rest in
  (supported b /\ forall w, supported w -> wrapu 64 max_value < 2 ^ w <-> b <= w) /\
  zlen (encode vs b) = div_ceil (zlen vs * b) 8 /\
  forall i v, vs !! i = Some v ->
    get l b (Z.of_nat i) = Ok v /\
    (zlen l < 2 ^ 60 -> reader_get (mk_reader l b) (Z.of_nat i) = Ok v /\
       fixed_width_get b (fixed_width_new b l) (Z.of_nat i) = Some (Ok v)) /\
    (padding_bytes_needed b <= zlen rest -> exists word, load (word_bytes b) l (Z.of_nat i * b / 8) = Some word /\
       wraps 64 (Z.land (Z.shiftr word ((Z.of_nat i * b) mod 8)) (Z.ones b)) = v).
Proof.
  intros Hs Hm Hlen Hr b l. pose proof (unsigned_bits_least max_value) as [Hb Hle]. fold b in Hb, Hle.
  destruct (supported_widths b Hb) as [Hw _]. destruct (encode_spec b vs ltac:(lia)) as (He & Hl & _).
  split; [done|]. split; [done|]. intros i v E.
  assert (Hget : get l b (Z.of_nat i) = Ok v).
  { apply encoded_value; try done; [by apply (proj1 (Forall_lookup _ _) Hs i v E)|exact (proj1 (Forall_lookup _ _) Hm i v E)]. }
  assert (Hok : bytes_ok l) by (by apply Forall_app). pose proof (lookup_lt_Some _ _ _ E) as Hi. unfold zlen in Hlen. split; [done|].
  change (2 ^ 56) with 72057594037927936 in Hlen.
  assert (Hin : in_s 64 (Z.of_nat i)) by (unfold in_s; change (2 ^ (64 - 1)) with 9223372036854775808; lia).
  split.
  - intros Hlt. pose proof (width_readers_are_get l b (Z.of_nat i) Hok Hlt ltac:(lia) Hin) as Hread. unfold reader_new in Hread.
    rewrite (proj2 (is_supported b ltac:(lia)) Hb) in Hread. cbn [negb] in Hread. destruct Hread as (H1 & Hv & H2).
    rewrite Hv in H2. by rewrite H1, H2, Hget.
  - intros Hp. destruct (padded_word b (zlen vs) (Z.of_nat i) Hb ltac:(unfold zlen; lia)) as [Hfit Hend].
    assert (Hbn : 0 <= word_bytes b) by (unfold word_bytes; repeat case_match; lia).
    assert (Hthere : Z.of_nat i * b / 8 + word_bytes b <= zlen l) by (unfold l; rewrite zlen_app, Hl; lia).
    destruct (load_at l (word_bytes b) (Z.of_nat i * b) b) as (word & Hword & _); [done|lia..|].
    exists word. split; [done|]. assert (Hu : in_u 64 (Z.of_nat i)) by (unfold in_u; change (2 ^ 64) with 18446744073709551616; lia).
    pose proof (chunk_value l b (Z.of_nat i) (word_bytes b) word Hok Hb Hu) as Hc. rewrite Hget, (width_mask_ones b) in Hc by lia.
    enough (Ok v = Ok (wraps 64 (Z.land (Z.shiftr word ((Z.of_nat i * b) mod 8)) (Z.ones b))) :> result Error Z) by congruence.
    change (2 ^ 64) with 18446744073709551616 in Hc. apply Hc; [nia|lia|done|done].
Qed.

Lemma packed_values_round_trip_witness :
  encode [3000; 5; 4095] 12 = [0xB8; 0x5B; 0x00; 0xFF; 0x0F] /\
  get (encode [3000; 5; 4095] (unsigned_bits_required 4095) ++ [1; 2]) (unsigned_bits_required 4095) (Z.of_nat 2) = Ok 4095 /\
  exists word, load 2 [0xB8; 0x5B; 0x00; 0xFF; 0x0F; 1; 2] 3 = Some word /\ wraps 64 (Z.land (Z.shiftr word 0) (Z.ones 12)) = 4095.
Proof.
  split; [reflexivity|].
  pose proof (proj2 (proj2 (packed_values_round_trip [3000; 5; 4095] [1; 2] 4095 ltac:(repeat constructor; discriminate)
    ltac:(repeat constructor; discriminate) eq_refl ltac:(by apply bytes_okb_ok))) 2%nat 4095 eq_refl) as (H1 & _ & H2).
  split; [exact H1|]. apply H2. vm_compute. discriminate.
Defined.

(** A positive index far past the end wraps into the slice: the multiply is
    not checked. *)
Lemma wild_index_reads_a_value : get [0x21] 4 (2 ^ 62) = Ok 1.
Proof. reflexivity. Qed.
