(* ===== verification/SparseFixedBitSet.v ===== *)
(** * The sparse bit set ([lucene-util/src/sparse_fixed_bit_set.rs])

    Blocks of 4096 bits; per block a 64-bit [index] of which words are stored
    and the stored words, in order.  Every operation but the floating-point
    cardinality estimate and [Display].  A fault is a panic or, from the
    unchecked reads of [get] and [get_and_set], undefined behaviour.  The
    proofs are in [SparseFixedBitSetSpec.v]. *)
From S2P Require Import Prelude.

(** ** Faults. *)
Inductive fault : Type := Panic | Undefined.
Definition R (A : Type) : Type := result fault A.
Definition rbind {A B} (m : R A) (k : A -> R B) : R B := match m with Ok a => k a | Err e => Err e end.
Notation "'let!' x ':=' m 'in' k" := (rbind m (fun x => k)) (at level 200, x name, m at level 100, k at level 200) : lucene_scope.
Open Scope lucene_scope.

Definition expect {A} (o : option A) : R A := match o with Some a => Ok a | None => Err Panic end.
Definition unwrap_unchecked {A} (o : option A) : R A := match o with Some a => Ok a | None => Err Undefined end.
(** [l[i]], [l[i] = v], [l.get_unchecked(i)]. *)
Definition index_at {A} (l : list A) (i : Z) : R A := expect (zget l i).
Definition put_at {A} (l : list A) (i : Z) (v : A) : R (list A) :=
  if (0 <=? i) && (i <? zlen l) then Ok (set_at l i v) else Err Panic.
Definition get_unchecked {A} (l : list A) (i : Z) : R A := unwrap_unchecked (zget l i).
(** [l.copy_within(from..to, dest)]. *)
Definition copy_within (l : list Z) (from to dest : Z) : R (list Z) :=
  let! src := expect (zslice l from to) in
  if dest + (to - from) <=? zlen l
  then Ok (take (Z.to_nat dest) l ++ src ++ drop (Z.to_nat (dest + (to - from))) l)
  else Err Panic.
(** [for x in l { s = f(s, x) }]. *)
Fixpoint foldR {S A} (f : S -> A -> R S) (l : list A) (s : S) : R S :=
  match l with [] => Ok s | x :: l => let! s := f s x in foldR f l s end.

Module SparseFixedBitSet.

Definition MASK_4096 : Z := 4095.
Definition MAX64 : Z := Z.ones 64.
Definition block_count (length : Z) : Z := div_ceil length 4096.
Definition oversize (s : Z) : Z := let n := s + Z.shiftr s 1 in if 50 <? n then 64 else n.

Record t : Type := mk { indices : list Z; bits : list (option (list Z)); size : Z; non_zero_long_count : Z }.

Definition new (length : Z) : R t :=
  if 1 <=? length
  then let n := Z.to_nat (block_count length) in Ok (mk (replicate n 0) (replicate n None) length 0)
  else Err Panic.
Definition len (s : t) : Z := size s.
Definition is_empty (s : t) : bool := size s =? 0.
Definition check (s : t) (i : Z) : R unit := if size s <=? i then Err Panic else Ok tt.

Definition clear_all (s : t) : t :=
  mk (map (fun _ => 0) (indices s)) (map (fun _ => None) (bits s)) (size s) 0.
Definition cardinality (s : t) : Z := fold_left Z.add (map count_ones (concat (omap id (bits s)))) 0.

(** [1u64 << j], and the stored words before it. *)
Definition word_bit (j : Z) : Z := shlu 64 1 j.
Definition rank (index i64bit : Z) : Z := count_ones (Z.land index (i64bit - 1)).

Definition get (s : t) (i : Z) : R bool :=
  let! _ := check s i in
  let i4096 := Z.shiftr i 12 in
  let! index := get_unchecked (indices s) i4096 in
  let i64bit := word_bit (Z.land (Z.shiftr i 6) 63) in
  if Z.land index i64bit =? 0 then Ok false
  else
    let o := rank index i64bit in
    let! block := get_unchecked (bits s) i4096 in
    let! block := unwrap_unchecked block in
    let! w := get_unchecked block o in
    Ok (negb (Z.land w (word_bit (Z.land i 63)) =? 0)).

(** The two ways [insert] makes room in a block. *)
Definition grow (block : list Z) (o value : Z) : R (list Z) :=
  let! last := expect (zget block (zlen block - 1)) in
  if last =? 0 then
    let n := zlen block in
    let! block := copy_within block o (n - 1) (o + 1) in
    put_at block o value
  else
    let new_size := oversize (zlen block + 1) in
    let! front := expect (zslice block 0 o) in
    let! back := expect (zslice block o (zlen block)) in
    if zlen block + 1 <=? new_size
    then Ok (front ++ value :: back ++ replicate (Z.to_nat (new_size - (zlen block + 1))) 0)
    else Err Panic.

Definition insert (s : t) (i4096 i64bit value index : Z) : R t :=
  if index =? 0 then
    let! indices := put_at (indices s) i4096 i64bit in
    let! bits := put_at (bits s) i4096 (Some [value]) in
    Ok (mk indices bits (size s) (non_zero_long_count s + 1))
  else
    let! old := index_at (indices s) i4096 in
    let! indices := put_at (indices s) i4096 (Z.lor old i64bit) in
    let o := rank index i64bit in
    let! block := index_at (bits s) i4096 in
    let! block := expect block in
    let! block := grow block o value in
    let! bits := put_at (bits s) i4096 (Some block) in
    Ok (mk indices bits (size s) (non_zero_long_count s + 1)).

Definition get_and_set (s : t) (i : Z) : R (bool * t) :=
  let! _ := check s i in
  let i4096 := Z.shiftr i 12 in
  let! index := get_unchecked (indices s) i4096 in
  let i64bit := word_bit (Z.land (Z.shiftr i 6) 63) in
  if negb (Z.land index i64bit =? 0) then
    let o := rank index i64bit in
    let bit := word_bit (Z.land i 63) in
    let! block := get_unchecked (bits s) i4096 in
    let! block := unwrap_unchecked block in
    let! word := get_unchecked block o in
    Ok (negb (Z.land word bit =? 0),
        mk (indices s) (set_at (bits s) i4096 (Some (set_at block o (Z.lor word bit)))) (size s) (non_zero_long_count s))
  else
    let! s := insert s i4096 i64bit (word_bit (Z.land i 63)) index in
    Ok (false, s).
Definition set (s : t) (i : Z) : R t := let! r := get_and_set s i in Ok r.2.

Definition remove_long (s : t) (i4096 i64 index o : Z) : R t :=
  let index := Z.land index (notu 64 (word_bit i64)) in
  let! indices := put_at (indices s) i4096 index in
  let! bits :=
    if index =? 0 then put_at (bits s) i4096 None
    else
      let length := count_ones index in
      let! block := index_at (bits s) i4096 in
      let! block := expect block in
      let! block := copy_within block (o + 1) (length + 1) o in
      let! block := put_at block length 0 in
      put_at (bits s) i4096 (Some block) in
  Ok (mk indices bits (size s) (non_zero_long_count s - 1)).

Definition and_ (s : t) (i4096 i64 mask : Z) : R t :=
  let! index := index_at (indices s) i4096 in
  if negb (Z.land index (word_bit i64) =? 0) then
    let o := rank index (word_bit i64) in
    let! block := index_at (bits s) i4096 in
    let! block := expect block in
    let! w := index_at block o in
    let b := Z.land w mask in
    if b =? 0 then remove_long s i4096 i64 index o
    else
      let! block := put_at block o b in
      let! bits := put_at (bits s) i4096 (Some block) in
      Ok (mk (indices s) bits (size s) (non_zero_long_count s))
  else Ok s.

Definition or_long (s : t) (i4096 i64 new_bits : Z) : R t :=
  if new_bits =? 0 then Ok s
  else
    let! index := index_at (indices s) i4096 in
    let i64bit := word_bit i64 in
    if negb (Z.land index i64bit =? 0) then
      let o := rank index i64bit in
      let! block := index_at (bits s) i4096 in
      let! block := expect block in
      let! w := index_at block o in
      let! block := put_at block o (Z.lor w new_bits) in
      let! bits := put_at (bits s) i4096 (Some block) in
      Ok (mk (indices s) bits (size s) (non_zero_long_count s))
    else insert s i4096 i64bit new_bits index.

Definition clear (s : t) (i : Z) : R t :=
  let! _ := check s i in
  and_ s (Z.shiftr i 12) (Z.land (Z.shiftr i 6) 63) (notu 64 (word_bit (Z.land i 63))).

(** Bits [from..=to] of a word. *)
Definition mask (from to : Z) : Z :=
  let span := to - from + 1 in
  let m := if 64 <=? span then MAX64 else shlu 64 1 span - 1 in
  shlu 64 m (Z.land from 63).

Definition between (a b : Z) : list Z := seqZ a (b - a).

Definition set_within_block (s : t) (i4096 from to : Z) : R t :=
  let first := Z.shiftr from 6 in
  let last := Z.shiftr to 6 in
  if first =? last then or_long s i4096 first (mask (Z.land from 63) (Z.land to 63))
  else
    let! s := or_long s i4096 last (mask 0 (Z.land to 63)) in
    let! s := foldR (fun s i => or_long s i4096 i MAX64) (between (first + 1) last) s in
    or_long s i4096 first (mask (Z.land from 63) 63).
Definition clear_within_block (s : t) (i4096 from to : Z) : R t :=
  let first := Z.shiftr from 6 in
  let last := Z.shiftr to 6 in
  if first =? last then and_ s i4096 first (notu 64 (mask (Z.land from 63) (Z.land to 63)))
  else
    let! s := and_ s i4096 last (notu 64 (mask 0 (Z.land to 63))) in
    let! s := foldR (fun s i => and_ s i4096 i 0) (reverse (between (first + 1) last)) s in
    and_ s i4096 first (notu 64 (mask (Z.land from 63) 63)).

Definition set_range (s : t) (start end_ : Z) : R t :=
  if end_ <=? start then Ok s
  else if negb ((start <? size s) && (end_ <=? size s)) then Err Panic
  else
    let first := Z.shiftr start 12 in
    let last := Z.shiftr (end_ - 1) 12 in
    if first =? last then set_within_block s first (Z.land start MASK_4096) (Z.land (end_ - 1) MASK_4096)
    else
      let! s := set_within_block s first (Z.land start MASK_4096) MASK_4096 in
      let! s := foldR (fun s i => set_within_block s i 0 MASK_4096) (between (first + 1) last) s in
      set_within_block s last 0 (Z.land (end_ - 1) MASK_4096).

(** A whole block dropped. *)
Definition drop_block (s : t) (i : Z) : R t :=
  let! index := index_at (indices s) i in
  let! indices := put_at (indices s) i 0 in
  let! bits := put_at (bits s) i None in
  Ok (mk indices bits (size s) (non_zero_long_count s - count_ones index)).
Definition clear_range (s : t) (from to : Z) : R t :=
  if to <=? from then Ok s
  else if negb (to <=? size s) then Err Panic
  else
    let first := Z.shiftr from 12 in
    let last := Z.shiftr (to - 1) 12 in
    if first =? last then clear_within_block s first (Z.land from MASK_4096) (Z.land (to - 1) MASK_4096)
    else
      let! s := clear_within_block s first (Z.land from MASK_4096) MASK_4096 in
      let! s := foldR drop_block (between (first + 1) last) s in
      clear_within_block s last 0 (Z.land (to - 1) MASK_4096).

(** [while i4096 < upper]: [n] blocks are left. *)
Fixpoint first_doc (n : nat) (s : t) (i4096 : Z) : R (option Z) :=
  match n with
  | O => Ok None
  | S n =>
      let! index := index_at (indices s) i4096 in
      if negb (index =? 0) then
        let i64 := trailing_zeros 64 index in
        let! block := index_at (bits s) i4096 in
        let! block := expect block in
        let! w := index_at block 0 in
        Ok (Some (Z.lor (Z.lor (Z.shiftl i4096 12) (Z.shiftl i64 6)) (trailing_zeros 64 w)))
      else first_doc n s (i4096 + 1)
  end.

Definition then_some (b : bool) (r : Z) : option Z := if b then Some r else None.

Definition next_set_bit_in_range (s : t) (start upper_bound : Z) : R (option Z) :=
  if upper_bound <=? start then Ok None
  else
    let i4096 := Z.shiftr start 12 in
    let! index := index_at (indices s) i4096 in
    let i64 := Z.land (Z.shiftr start 6) 63 in
    let i64bit := word_bit i64 in
    let o := rank index i64bit in
    let here := negb (Z.land index i64bit =? 0) in
    let! b :=
      if here then
        let! block := index_at (bits s) i4096 in
        let! block := expect block in
        let! w := index_at block o in
        Ok (Z.shiftr w (Z.land start 63))
      else Ok 0 in
    if negb (b =? 0) then
      let r := start + trailing_zeros 64 b in Ok (then_some (r <? upper_bound) r)
    else
      let o := if here then o + 1 else o in
      let index_bits := Z.shiftr (Z.shiftr index i64) 1 in
      let! r :=
        if index_bits =? 0 then
          let upper := if upper_bound =? size s then zlen (indices s) else block_count upper_bound in
          first_doc (Z.to_nat (upper - (i4096 + 1))) s (i4096 + 1)
        else
          let i64 := i64 + (1 + trailing_zeros 64 index_bits) in
          let! block := index_at (bits s) i4096 in
          let! block := expect block in
          let! w := index_at block o in
          Ok (Some (Z.lor (Z.lor (Z.shiftl i4096 12) (Z.shiftl i64 6)) (trailing_zeros 64 w))) in
      Ok (match r with Some r => then_some (r <? upper_bound) r | None => None end).
Definition next_set_bit (s : t) (i : Z) : R (option Z) :=
  if size s <=? i then Ok None else next_set_bit_in_range s i (size s).

Definition word (s : t) (w : Z) : R Z :=
  let i4096 := Z.shiftr w 6 in
  let! index := index_at (indices s) i4096 in
  let i64bit := word_bit (Z.land w 63) in
  if Z.land index i64bit =? 0 then Ok 0
  else
    let o := rank index i64bit in
    let! block := index_at (bits s) i4096 in
    let! block := expect block in
    index_at block o.

(** The loop of [next_clear_bit_in_range] over the [n] words left. *)
Fixpoint clear_loop (n : nat) (s : t) (w from upper_bound : Z) : R (option Z) :=
  match n with
  | O => Ok None
  | S n =>
      let i4096 := Z.shiftr w 6 in
      let! index := index_at (indices s) i4096 in
      let i64bit := word_bit (Z.land w 63) in
      if Z.land index i64bit =? 0 then
        let r := Z.shiftl w 6 + from in Ok (then_some (r <? upper_bound) r)
      else
        let o := rank index i64bit in
        let! block := index_at (bits s) i4096 in
        let! block := expect block in
        let! word := index_at block o in
        let clear := Z.land (notu 64 word) (shlu 64 MAX64 from) in
        if clear =? 0 then clear_loop n s (w + 1) 0 upper_bound
        else let r := Z.shiftl w 6 + trailing_zeros 64 clear in Ok (then_some (r <? upper_bound) r)
  end.
Definition next_clear_bit_in_range (s : t) (start upper_bound : Z) : R (option Z) :=
  let upper_bound := Z.min upper_bound (size s) in
  if upper_bound <=? start then Ok None
  else
    let w := Z.shiftr start 6 in
    let last := Z.shiftr (upper_bound - 1) 6 in
    clear_loop (Z.to_nat (last + 1 - w)) s w (Z.land start 63) upper_bound.
Definition next_clear_bit (s : t) (index : Z) : R (option Z) := next_clear_bit_in_range s index (size s).

(** [last_doc(Some(i4096))], the loop down to block 0; [n] is [i4096 + 1]. *)
Fixpoint last_doc (n : nat) (s : t) (i4096 : Z) : R (option Z) :=
  match n with
  | O => Ok None
  | S n =>
      let! index := index_at (indices s) i4096 in
      if negb (index =? 0) then
        let i64 := 63 - leading_zeros 64 index in
        let! block := index_at (bits s) i4096 in
        let! block := expect block in
        let! w := index_at block (count_ones index - 1) in
        Ok (Some (Z.lor (Z.lor (Z.shiftl i4096 12) (Z.shiftl i64 6)) (63 - leading_zeros 64 w)))
      else last_doc n s (i4096 - 1)
  end.

Definition prev_set_bit (s : t) (i : Z) : R (option Z) :=
  let! _ := check s i in
  let i4096 := Z.shiftr i 12 in
  let! index := index_at (indices s) i4096 in
  let i64 := Z.land (Z.shiftr i 6) 63 in
  let index_bits := Z.land index (word_bit i64 - 1) in
  let o := count_ones index_bits in
  let! b :=
    if negb (Z.land index (word_bit i64) =? 0) then
      let sub := Z.land i 63 in
      let mask := if sub =? 63 then MAX64 else shlu 64 1 (sub + 1) - 1 in
      let! block := index_at (bits s) i4096 in
      let! block := expect block in
      let! w := index_at block o in
      Ok (Z.land w mask)
    else Ok 0 in
  if negb (b =? 0) then
    Ok (Some (Z.lor (Z.lor (Z.shiftl i4096 12) (Z.shiftl i64 6)) (63 - leading_zeros 64 b)))
  else if index_bits =? 0 then last_doc (Z.to_nat i4096) s (i4096 - 1)
  else
    let i64 := 63 - leading_zeros 64 index_bits in
    let! block := index_at (bits s) i4096 in
    let! block := expect block in
    let! w := index_at block (o - 1) in
    Ok (Some (Z.lor (Z.lor (Z.shiftl i4096 12) (Z.shiftl i64 6)) (63 - leading_zeros 64 w))).

Definition or_iter (s : t) (docs : list Z) : R t := foldR set docs s.

(** The loop of [or] over one block's index bits; at most 64 are set. *)
Fixpoint or_block (fuel : nat) (s : t) (i4096 : Z) (block : list Z) (idx o : Z) : R t :=
  match fuel with
  | O => Ok s
  | S fuel =>
      if idx =? 0 then Ok s
      else
        let i64 := trailing_zeros 64 idx in
        let! w := index_at block o in
        let! s := or_long s i4096 i64 w in
        or_block fuel s i4096 block (Z.land idx (idx - 1)) (o + 1)
  end.
Definition or_step (other : t) (s : t) (i4096 : Z) : R t :=
  let! index := index_at (indices other) i4096 in
  if index =? 0 then Ok s
  else
    let! block := index_at (bits other) i4096 in
    let! block := expect block in
    or_block 64 s i4096 block index 0.
Definition or (s other : t) : R t :=
  foldR (or_step other) (between 0 (Z.min (zlen (indices other)) (zlen (indices s)))) s.

(** [check_structure]: the error's text aside. *)
Fixpoint structure_total (indices : list Z) (bits : list (option (list Z))) (total : Z) : option Z :=
  match indices, bits with
  | index :: indices, block :: bits =>
      let n := count_ones index in
      if n =? 0 then structure_total indices bits total
      else
        let total := total + n in
        let block := match block with Some b => b | None => [] end in
        if zlen block <? n then None
        else if existsb (fun w => negb (w =? 0)) (drop (Z.to_nat n) block) then None
        else structure_total indices bits total
  | _, _ => Some total
  end.
Definition check_structure (s : t) : bool :=
  match structure_total (indices s) (bits s) 0 with Some total => total =? non_zero_long_count s | None => false end.

End SparseFixedBitSet.
