(* ===== verification/SparseFixedBitSetSpec.v ===== *)
(** * The sparse bit set is a set of bits

    [wordof] is a block's word at a position, stored or not; [inv] the
    structure the source's unchecked reads rely on, with what its searches
    need besides: stored words are not zero.  First the blocks: each way a
    block changes is one word changing.  Then the operations, bit by bit, and
    the searches. *)
From S2P Require Import Prelude BitWords FixedBitSet FixedBitSetSpec FixedBitSetAlgebra SparseFixedBitSet.

Module SparseSpec.
Export SparseFixedBitSet.
Open Scope lucene_scope.

(** ** Ranks. *)
Definition stored_before (index j : Z) : Z := count (Z.testbit index) 0 (Z.to_nat j).

Lemma word_bit_mask j : 0 <= j < 64 -> word_bit j = FixedBitSet.bit_mask j.
Proof. intros. unfold word_bit, FixedBitSet.bit_mask. by rewrite land_63, Z.mod_small. Qed.

Lemma word_bit_pow j : 0 <= j < 64 -> word_bit j = 2 ^ j.
Proof. intros. unfold word_bit, shlu. rewrite Z.mod_small, Z.shiftl_1_l by lia. apply wrapu_id, in_u_pow2. lia. Qed.

Lemma has_word index j : in_u 64 index -> 0 <= j < 64 -> (Z.land index (word_bit j) =? 0) = negb (Z.testbit index j).
Proof.
  intros Hi Hj. rewrite word_bit_mask by done. pose proof (land_mask_testbit index j Hi) as H. rewrite Z.mod_small in H by done.
  rewrite <- H. by rewrite negb_involutive.
Qed.

Lemma rank_spec index j : in_u 64 index -> 0 <= j < 64 -> rank index (word_bit j) = stored_before index j.
Proof.
  intros Hi Hj. unfold rank, stored_before. rewrite word_bit_pow by done. replace (2 ^ j - 1) with (Z.ones j) by (rewrite Z.ones_equiv; lia).
  rewrite (count_ones_count (Z.to_nat j)).
  - apply count_ext. intros i Hr. rewrite Z.land_spec, Z.ones_spec_low by lia. by rewrite andb_true_r.
  - rewrite Z2Nat.id by lia. rewrite Z.land_ones by lia. apply Z.mod_pos_bound. apply Z.pow_pos_nonneg; lia.
Qed.

Lemma stored_all index : in_u 64 index -> count_ones index = stored_before index 64.
Proof. intros Hi. by apply (count_ones_count 64). Qed.

Lemma stored_S index j : 0 <= j -> stored_before index (j + 1) = stored_before index j + Z.b2z (Z.testbit index j).
Proof.
  intros Hj. unfold stored_before. rewrite Z2Nat.inj_add by lia. rewrite count_app. cbn [count Z.to_nat Pos.to_nat Pos.iter_op].
  change (Z.to_nat 1) with 1%nat. cbn [count]. rewrite Z2Nat.id by lia. change (0 + j) with j. lia.
Qed.

Lemma stored_mono index a b : 0 <= a <= b -> 0 <= stored_before index a <= stored_before index b.
Proof.
  intros H. unfold stored_before. replace (Z.to_nat b) with (Z.to_nat a + Z.to_nat (b - a))%nat by lia. rewrite count_app.
  pose proof (count_range (Z.testbit index) 0 (Z.to_nat a)). pose proof (count_range (Z.testbit index) (0 + Z.of_nat (Z.to_nat a)) (Z.to_nat (b - a))). lia.
Qed.

Lemma stored_lt index a b : 0 <= a < b -> Z.testbit index a = true -> stored_before index a < stored_before index b.
Proof.
  intros H E. pose proof (stored_S index a ltac:(lia)) as Hs. rewrite E in Hs. cbn in Hs. pose proof (stored_mono index (a + 1) b). lia.
Qed.

Lemma stored_here index j : in_u 64 index -> 0 <= j < 64 -> Z.testbit index j = true -> 0 <= stored_before index j < count_ones index.
Proof.
  intros Hi Hj E. pose proof (stored_lt index j 64 ltac:(lia) E). rewrite stored_all by done. pose proof (stored_mono index j j). lia.
Qed.

(** An index that differs from another in one bit. *)
Lemma stored_change index index' k j : 0 <= k -> 0 <= j -> (forall i, 0 <= i -> i <> k -> Z.testbit index' i = Z.testbit index i) ->
  stored_before index' j =
  stored_before index j + (if k <? j then Z.b2z (Z.testbit index' k) - Z.b2z (Z.testbit index k) else 0).
Proof.
  intros Hk Hj He. unfold stored_before. destruct (Z.ltb_spec k j).
  - replace (Z.to_nat j) with (Z.to_nat k + (1 + Z.to_nat (j - k - 1)))%nat by lia. rewrite !count_app. cbn [count Nat.add].
    rewrite Z2Nat.id by lia. rewrite !Z.add_0_l.
    rewrite (count_ext (Z.testbit index') (Z.testbit index) 0) by (intros; apply He; lia).
    rewrite (count_ext (Z.testbit index') (Z.testbit index) (k + Z.of_nat 1)) by (intros; apply He; lia). lia.
  - rewrite (count_ext (Z.testbit index') (Z.testbit index)) by (intros; apply He; lia). lia.
Qed.

(** ** Arrays. *)
Lemma at0_cons v l j : 0 <= j -> at0 (v :: l) j = if j =? 0 then v else at0 l (j - 1).
Proof.
  intros Hj. unfold at0. destruct (Z.eqb_spec j 0) as [->|]; [done|].
  replace (Z.to_nat j) with (Datatypes.S (Z.to_nat (j - 1))) by lia. done.
Qed.

Lemma at0_app (l k : list Z) j : 0 <= j -> at0 (l ++ k) j = if j <? zlen l then at0 l j else at0 k (j - zlen l).
Proof.
  intros Hj. unfold at0, zlen. rewrite !nth_lookup. destruct (Z.ltb_spec j (Z.of_nat (length l))).
  - by rewrite lookup_app_l by lia.
  - rewrite lookup_app_r by lia. do 2 f_equal. lia.
Qed.

Lemma at0_zeros n j : at0 (replicate n 0) j = 0.
Proof. unfold at0. rewrite nth_lookup. destruct (replicate n 0 !! Z.to_nat j) as [x|] eqn:E; [|done]. by apply lookup_replicate in E as [-> _]. Qed.

Lemma slice_at0 (l : list Z) a b s : zslice l a b = Some s -> zlen s = b - a /\ 0 <= a <= b /\ b <= zlen l /\ (words_ok l -> words_ok s) /\
  forall j, 0 <= j < b - a -> at0 s j = at0 l (a + j).
Proof.
  intros (x & y & -> & Hx & Hz)%zslice_Some. autorewrite with zlen. pose proof (zlen_nonneg x). pose proof (zlen_nonneg y). pose proof (zlen_nonneg s).
  split; [lia|]. split; [lia|]. split; [lia|]. split; [intros [_ [H' _]%Forall_app]%Forall_app; done|].
  intros j Hj. rewrite !at0_app by lia. destruct (Z.ltb_spec (a + j) (zlen x)); [lia|]. destruct (Z.ltb_spec (a + j - zlen x) (zlen s)); [|lia].
  f_equal. lia.
Qed.

Lemma zget_in (l : list Z) i : 0 <= i < zlen l -> zget l i = Some (at0 l i).
Proof. intros Hi. unfold zget. destruct (Z.ltb_spec i 0); [lia|]. by apply at0_lookup. Qed.

Lemma index_ok (l : list Z) i : 0 <= i < zlen l -> index_at l i = Ok (at0 l i).
Proof. intros. unfold index_at. by rewrite zget_in. Qed.
Lemma unchecked_ok (l : list Z) i : 0 <= i < zlen l -> get_unchecked l i = Ok (at0 l i).
Proof. intros. unfold get_unchecked. by rewrite zget_in. Qed.
Lemma put_ok {A} (l : list A) i v : 0 <= i < zlen l -> put_at l i v = Ok (set_at l i v).
Proof. intros. unfold put_at. destruct (Z.leb_spec 0 i), (Z.ltb_spec i (zlen l)); try lia. done. Qed.

(** ** Blocks. *)
Record block_ok (index : Z) (l : list Z) : Prop := {
  blk_index : in_u 64 index;
  blk_words : words_ok l;
  blk_size : count_ones index <= zlen l <= 64;
  blk_stored j : 0 <= j < count_ones index -> at0 l j <> 0;
  blk_free j : count_ones index <= j -> at0 l j = 0;
}.
Definition wordof (index : Z) (l : list Z) (j : Z) : Z := if Z.testbit index j then at0 l (stored_before index j) else 0.

(** A block after one of its words has become [v]. *)
Definition word_becomes (index : Z) (l : list Z) (index' : Z) (l' : list Z) (k v : Z) : Prop :=
  block_ok index' l' /\ forall j, 0 <= j < 64 -> wordof index' l' j = if j =? k then v else wordof index l j.

Lemma block_update index l k v : block_ok index l -> 0 <= k < 64 -> Z.testbit index k = true -> in_u 64 v -> v <> 0 ->
  word_becomes index l index (set_at l (stored_before index k) v) k v.
Proof.
  intros H Hk E Hv Hne. pose proof (stored_here index k (blk_index _ _ H) Hk E) as Hr. pose proof (blk_size _ _ H) as Hs. split.
  - constructor; [apply H|by apply words_ok_set; [apply H|]|by rewrite zlen_set_at|..]; intros j Hj;
      rewrite at0_set by lia; destruct (Z.eqb_spec j (stored_before index k)); (done || lia || by apply H).
  - intros j Hj. unfold wordof. destruct (Z.eqb_spec j k) as [->|Hjk]; [by rewrite E, at0_set, Z.eqb_refl by lia|].
    destruct (Z.testbit index j) eqn:Ej; [|done]. pose proof (stored_mono index j j). rewrite at0_set by lia.
    destruct (Z.eqb_spec (stored_before index j) (stored_before index k)) as [Eq|]; [|done].
    exfalso. destruct (Z.lt_total j k) as [Hl|[Hl|Hl]]; [pose proof (stored_lt index j k ltac:(lia) Ej)|lia|pose proof (stored_lt index k j ltac:(lia) E)]; lia.
Qed.

Lemma testbit_with index k i : 0 <= k < 64 -> 0 <= i -> Z.testbit (Z.lor index (word_bit k)) i = (i =? k) || Z.testbit index i.
Proof. intros Hk Hi. rewrite word_bit_pow, Z.lor_spec, testbit_pow2 by lia. apply orb_comm. Qed.

Lemma testbit_without index k i : 0 <= k < 64 -> in_u 64 index -> 0 <= i ->
  Z.testbit (Z.land index (notu 64 (word_bit k))) i = negb (i =? k) && Z.testbit index i.
Proof.
  intros Hk Hx Hi. rewrite Z.land_spec. destruct (Z.ltb_spec i 64).
  - rewrite testbit_notu, word_bit_pow, testbit_pow2 by lia. apply andb_comm.
  - rewrite (testbit_above 64 index) by done. by rewrite andb_false_r.
Qed.

Lemma count_with index k : in_u 64 index -> 0 <= k < 64 -> Z.testbit index k = false ->
  in_u 64 (Z.lor index (word_bit k)) /\ count_ones (Z.lor index (word_bit k)) = count_ones index + 1 /\
  forall j, 0 <= j -> stored_before (Z.lor index (word_bit k)) j = stored_before index j + (if k <? j then 1 else 0).
Proof.
  intros Hx Hk E. assert (Hu : in_u 64 (Z.lor index (word_bit k))) by (apply in_u_lor; [lia|done|apply (wrapu_range 64); lia]).
  assert (Hs : forall j, 0 <= j -> stored_before (Z.lor index (word_bit k)) j = stored_before index j + (if k <? j then 1 else 0)).
  { intros j Hj. rewrite (stored_change index _ k) by (try lia; intros i Hi Hne; rewrite testbit_with by lia; by destruct (Z.eqb_spec i k)).
    rewrite testbit_with, Z.eqb_refl, E by lia. done. }
  split; [done|]. split; [|done]. rewrite !stored_all, Hs by (done || lia). destruct (Z.ltb_spec k 64); lia.
Qed.

Lemma count_without index k : in_u 64 index -> 0 <= k < 64 -> Z.testbit index k = true ->
  in_u 64 (Z.land index (notu 64 (word_bit k))) /\ count_ones (Z.land index (notu 64 (word_bit k))) = count_ones index - 1 /\
  forall j, 0 <= j -> stored_before (Z.land index (notu 64 (word_bit k))) j = stored_before index j - (if k <? j then 1 else 0).
Proof.
  intros Hx Hk E. assert (Hu : in_u 64 (Z.land index (notu 64 (word_bit k)))).
  { apply in_u_land; [lia|done|]. apply in_u_notu; [lia|]. apply (wrapu_range 64). lia. }
  assert (Hs : forall j, 0 <= j -> stored_before (Z.land index (notu 64 (word_bit k))) j = stored_before index j - (if k <? j then 1 else 0)).
  { intros j Hj. rewrite (stored_change index _ k) by (try lia; intros i Hi Hne; rewrite testbit_without by (done || lia); by destruct (Z.eqb_spec i k)).
    rewrite testbit_without, Z.eqb_refl, E by (done || lia). cbn. destruct (k <? j); lia. }
  split; [done|]. split; [|done]. rewrite !stored_all, Hs by (done || lia). destruct (Z.ltb_spec k 64); lia.
Qed.

(** A word put in at its rank, the later ones one place on. *)
Lemma block_insert index l l' k v : block_ok index l -> 0 <= k < 64 -> Z.testbit index k = false -> in_u 64 v -> v <> 0 ->
  words_ok l' -> count_ones index + 1 <= zlen l' <= 64 ->
  (forall j, 0 <= j -> at0 l' j = if j <? stored_before index k then at0 l j else if j =? stored_before index k then v else at0 l (j - 1)) ->
  word_becomes index l (Z.lor index (word_bit k)) l' k v.
Proof.
  intros H Hk E Hv Hne Hw Hl He. destruct (count_with index k (blk_index _ _ H) Hk E) as (Hu & Hc & Hs). pose proof (stored_mono index k k ltac:(lia)) as Hr.
  pose proof (stored_mono index k 64 ltac:(lia)) as Hr64. rewrite <- stored_all in Hr64 by apply H. split.
  - constructor; [done|done|lia|..]; intros j Hj; rewrite He by lia.
    + destruct (Z.ltb_spec j (stored_before index k)); [apply (blk_stored _ _ H); lia|].
      destruct (Z.eqb_spec j (stored_before index k)); [done|apply (blk_stored _ _ H); lia].
    + destruct (Z.ltb_spec j (stored_before index k)); [lia|]. destruct (Z.eqb_spec j (stored_before index k)); [lia|apply (blk_free _ _ H); lia].
  - intros j Hj. unfold wordof. rewrite testbit_with by lia. destruct (Z.eqb_spec j k) as [->|Hjk]; cbn [orb].
    + rewrite Hs by lia. rewrite Z.ltb_irrefl, Z.add_0_r, He, Z.ltb_irrefl, Z.eqb_refl by lia. done.
    + destruct (Z.testbit index j) eqn:Ej; [|done]. rewrite Hs by lia. pose proof (stored_mono index j j ltac:(lia)). destruct (Z.ltb_spec k j).
      * pose proof (stored_mono index k j ltac:(lia)). rewrite He by lia. destruct (Z.ltb_spec (stored_before index j + 1) (stored_before index k)); [lia|].
        destruct (Z.eqb_spec (stored_before index j + 1) (stored_before index k)); [lia|]. f_equal. lia.
      * pose proof (stored_lt index j k ltac:(lia) Ej). rewrite Z.add_0_r, He by lia.
        destruct (Z.ltb_spec (stored_before index j) (stored_before index k)); [done|lia].
Qed.

(** A word taken out, the later ones one place back. *)
Lemma block_remove index l l' k : block_ok index l -> 0 <= k < 64 -> Z.testbit index k = true ->
  words_ok l' -> count_ones index - 1 <= zlen l' <= 64 ->
  (forall j, 0 <= j -> at0 l' j = if j <? stored_before index k then at0 l j else at0 l (j + 1)) ->
  word_becomes index l (Z.land index (notu 64 (word_bit k))) l' k 0.
Proof.
  intros H Hk E Hw Hl He. destruct (count_without index k (blk_index _ _ H) Hk E) as (Hu & Hc & Hs).
  pose proof (stored_here index k (blk_index _ _ H) Hk E) as Hr. split.
  - constructor; [done|done|lia|..]; intros j Hj; rewrite He by lia; destruct (Z.ltb_spec j (stored_before index k));
      (apply (blk_stored _ _ H) || apply (blk_free _ _ H)); lia.
  - intros j Hj. unfold wordof. rewrite testbit_without by (apply H || lia). destruct (Z.eqb_spec j k) as [->|Hjk]; cbn [negb andb]; [done|].
    destruct (Z.testbit index j) eqn:Ej; [|done]. rewrite Hs by lia. destruct (Z.ltb_spec k j).
    + pose proof (stored_lt index k j ltac:(lia) E). rewrite He by lia. destruct (Z.ltb_spec (stored_before index j - 1) (stored_before index k)); [lia|].
      f_equal. lia.
    + pose proof (stored_lt index j k ltac:(lia) Ej). pose proof (stored_mono index j j ltac:(lia)). rewrite Z.sub_0_r, He by lia.
      destruct (Z.ltb_spec (stored_before index j) (stored_before index k)); [done|lia].
Qed.

(** [copy_within], as the array it leaves. *)
Lemma copied l from to dest : words_ok l -> 0 <= from <= to -> to <= zlen l -> 0 <= dest -> dest + (to - from) <= zlen l ->
  exists l', copy_within l from to dest = Ok l' /\ zlen l' = zlen l /\ words_ok l' /\
    forall j, 0 <= j -> at0 l' j = if (dest <=? j) && (j <? dest + (to - from)) then at0 l (from + (j - dest)) else at0 l j.
Proof.
  intros Hw Hf Ht Hd Hle. unfold copy_within. destruct (zslice_total l from to) as (s & E & Hs); [lia..|]. rewrite E. cbn [expect rbind].
  destruct (slice_at0 _ _ _ _ E) as (_ & _ & _ & Hsw & Hs0). destruct (Z.leb_spec (dest + (to - from)) (zlen l)); [|lia]. rewrite <- Hs in *.
  eexists. split; [done|]. split; [apply zlen_splice; lia|]. split.
  - apply Forall_app. split; [by apply Forall_take|]. apply Forall_app. split; [by apply Hsw|by apply Forall_drop].
  - intros j Hj. rewrite at0_splice by lia. destruct (Z.leb_spec dest j), (Z.ltb_spec j (dest + zlen s)); try done. cbn [andb]. apply Hs0. lia.
Qed.

Lemma grow_ok index l k v : block_ok index l -> 0 < count_ones index -> 0 <= k < 64 -> Z.testbit index k = false -> in_u 64 v -> v <> 0 ->
  exists l', grow l (stored_before index k) v = Ok l' /\ word_becomes index l (Z.lor index (word_bit k)) l' k v.
Proof.
  intros H Hpos Hk E Hv Hne. pose proof (blk_size _ _ H) as Hsz. set (o := stored_before index k).
  assert (Ho : 0 <= o <= count_ones index) by (rewrite stored_all by apply H; apply stored_mono; lia).
  assert (H64 : count_ones index < 64).
  { destruct (count_with index k (blk_index _ _ H) Hk E) as (Hu & Hc & _). rewrite (count_ones_count 64) in Hc by done.
    pose proof (count_range (Z.testbit (Z.lor index (word_bit k))) 0 64). lia. }
  unfold grow. rewrite zget_in by lia. cbn [expect rbind]. destruct (Z.eqb_spec (at0 l (zlen l - 1)) 0) as [E0|E0].
  - assert (Hlt : count_ones index <= zlen l - 1).
    { destruct (Z.le_gt_cases (count_ones index) (zlen l - 1)); [done|]. destruct (blk_stored _ _ H (zlen l - 1)); [lia|done]. }
    destruct (copied l o (zlen l - 1) (o + 1)) as (l' & E1 & Hl & Hw & He); [apply H|lia..|]. rewrite E1. cbn [rbind]. rewrite put_ok by lia.
    eexists. split; [done|]. apply block_insert; [done..|by apply words_ok_set|rewrite zlen_set_at; lia|]. intros j Hj. rewrite at0_set, He by lia. fold o.
    destruct (Z.ltb_spec j o), (Z.eqb_spec j o), (Z.leb_spec (o + 1) j), (Z.ltb_spec j (o + 1 + (zlen l - 1 - o))); try lia; cbn [andb]; try done.
    + f_equal. lia.
    + rewrite !(blk_free _ _ H) by lia. done.
  - assert (Hfull : count_ones index = zlen l).
    { destruct (Z.eq_dec (count_ones index) (zlen l)); [done|]. destruct E0. apply (blk_free _ _ H). lia. }
    destruct (zslice_total l 0 o) as (a & Ea & La); [lia..|]. destruct (zslice_total l o (zlen l)) as (b & Eb & Lb); [lia..|].
    rewrite Ea, Eb. cbn [expect rbind]. destruct (slice_at0 _ _ _ _ Ea) as (_ & _ & _ & Hwa & Ha). destruct (slice_at0 _ _ _ _ Eb) as (_ & _ & _ & Hwb & Hb).
    assert (Hov : zlen l + 1 <= oversize (zlen l + 1) <= 64).
    { unfold oversize. cbv zeta. rewrite Z.shiftr_div_pow2 by lia. change (2 ^ 1) with 2.
      destruct (Z.ltb_spec 50 (zlen l + 1 + (zlen l + 1) / 2)); Z.div_mod_to_equations; lia. }
    destruct (Z.leb_spec (zlen l + 1) (oversize (zlen l + 1))); [|lia]. eexists. split; [done|]. apply block_insert; try done.
    + apply Forall_app. split; [by apply Hwa, H|]. constructor; [done|]. apply Forall_app. split; [by apply Hwb, H|].
      apply Forall_replicate. by apply in_u_0.
    + rewrite zlen_app, zlen_cons, zlen_app. unfold zlen in *. rewrite length_replicate. lia.
    + intros j Hj. fold o. rewrite at0_app by lia. rewrite La, Z.sub_0_r. destruct (Z.ltb_spec j o); [rewrite Ha by lia; f_equal; lia|].
      rewrite at0_cons by lia. destruct (Z.eqb_spec (j - o) 0), (Z.eqb_spec j o); [done|lia|lia|]. rewrite at0_app, Lb by lia.
      destruct (Z.ltb_spec (j - o - 1) (zlen l - o)); [rewrite Hb by lia; f_equal; lia|]. rewrite at0_zeros, (blk_free _ _ H) by lia. done.
Qed.

(** ** The structure. *)
Definition block_at (s : t) (k : Z) : option (list Z) := nth (Z.to_nat k) (bits s) None.
Definition stored (ob : option (list Z)) : list Z := match ob with Some l => l | None => [] end.
(** A block is there just when its index is not zero. *)
Definition entry_ok (index : Z) (ob : option (list Z)) : Prop :=
  block_ok index (stored ob) /\ (ob = None <-> index = 0).

Record inv (s : t) : Prop := {
  inv_size : 1 <= size s;
  inv_indices : zlen (indices s) = block_count (size s);
  inv_bits : zlen (bits s) = block_count (size s);
  inv_blocks k : 0 <= k < block_count (size s) -> entry_ok (at0 (indices s) k) (block_at s k);
  inv_total : non_zero_long_count s = sum_ones (indices s);
}.

(** The word at [w], stored or not, and the bit at [i]. *)
Definition word_at (s : t) (w : Z) : Z := wordof (at0 (indices s) (w / 64)) (stored (block_at s (w / 64))) (w mod 64).
Definition bit (s : t) (i : Z) : bool := Z.testbit (word_at s (i / 64)) (i mod 64).

Lemma block_get s k : 0 <= k < zlen (bits s) -> zget (bits s) k = Some (block_at s k).
Proof.
  intros Hk. unfold zget. destruct (Z.ltb_spec k 0); [lia|]. unfold block_at. rewrite nth_lookup. unfold zlen in Hk.
  destruct (lookup_lt (bits s) (Z.to_nat k)) as [x E]; [lia|]. by rewrite E.
Qed.

Lemma wordof_u64 index l j : block_ok index l -> in_u 64 (wordof index l j).
Proof. intros H. unfold wordof. destruct (Z.testbit index j); [by apply at0_range, H|by apply in_u_0]. Qed.

Lemma empty_entry : entry_ok 0 None.
Proof.
  split; [|done]. constructor; cbn [stored]; [by apply in_u_0|by apply Forall_nil|split; done|cbn; lia|].
  intros j _. unfold at0. by destruct (Z.to_nat j).
Qed.

Lemma sum_set l k v : 0 <= k < zlen l -> sum_ones (set_at l k v) = sum_ones l - count_ones (at0 l k) + count_ones v.
Proof.
  unfold set_at, at0, zlen. intros Hk. replace k with (Z.of_nat (Z.to_nat k)) in Hk by lia. revert Hk. generalize (Z.to_nat k) as n.
  induction l as [|x l IH]; intros [|n] Hn; cbn [length] in Hn; try lia; [cbn; lia|].
  change (sum_ones (<[Datatypes.S n:=v]> (x :: l))) with (count_ones x + sum_ones (<[n:=v]> l)).
  rewrite IH by lia. cbn [sum_ones nth]. lia.
Qed.

Section states.
Context (s : t) (Hs : inv s).
Notation nblocks := (block_count (size s)).

Lemma has_block k : 0 <= k < nblocks -> in_u 64 (at0 (indices s) k) /\ zget (indices s) k = Some (at0 (indices s) k) /\ zget (bits s) k = Some (block_at s k).
Proof.
  intros Hk. destruct (inv_blocks _ Hs k Hk) as [H _]. split; [apply H|].
  rewrite zget_in, block_get by (rewrite ?(inv_indices _ Hs), ?(inv_bits _ Hs); done). done.
Qed.

(** The state after block [k] has become [index], [ob]. *)
Definition with_block (k index : Z) (ob : option (list Z)) : t :=
  mk (set_at (indices s) k index) (set_at (bits s) k ob) (size s) (non_zero_long_count s - count_ones (at0 (indices s) k) + count_ones index).

Lemma with_block_ok k index ob : 0 <= k < nblocks -> entry_ok index ob ->
  inv (with_block k index ob) /\
  forall w, 0 <= w -> word_at (with_block k index ob) w = if w / 64 =? k then wordof index (stored ob) (w mod 64) else word_at s w.
Proof.
  intros Hk H. pose proof (inv_indices _ Hs) as Hi. pose proof (inv_bits _ Hs) as Hb.
  assert (Ha : forall j, 0 <= j -> at0 (indices (with_block k index ob)) j = if j =? k then index else at0 (indices s) j)
    by (intros; apply at0_set; lia).
  assert (Hn : forall j, 0 <= j -> block_at (with_block k index ob) j = if j =? k then ob else block_at s j).
  { intros j Hj. unfold block_at, with_block, set_at. cbn [bits]. rewrite !nth_lookup. unfold zlen in *. destruct (Z.eqb_spec j k) as [->|].
    - rewrite list_lookup_insert_eq by lia. done.
    - rewrite list_lookup_insert_ne by lia. done. }
  split.
  - constructor; cbn [with_block size indices bits non_zero_long_count]; rewrite ?zlen_set_at; try apply Hs.
    + intros j Hj. rewrite Ha, Hn by lia. destruct (Z.eqb_spec j k); [done|by apply Hs].
    + rewrite sum_set, (inv_total _ Hs) by lia. done.
  - intros w Hw. unfold word_at. rewrite Ha, Hn by (apply Z.div_pos; lia). by destruct (w / 64 =? k).
Qed.
End states.

(** One word changed. *)
Definition word_set (s s' : t) (w v : Z) : Prop :=
  inv s' /\ size s' = size s /\ forall x, 0 <= x -> word_at s' x = if x =? w then v else word_at s x.

Lemma with_word s k j index ob v : inv s -> 0 <= k < block_count (size s) -> 0 <= j < 64 -> (ob = None <-> index = 0) ->
  word_becomes (at0 (indices s) k) (stored (block_at s k)) index (stored ob) j v ->
  word_set s (with_block s k index ob) (64 * k + j) v.
Proof.
  intros Hs Hk Hj Ho [Hb Hw]. destruct (with_block_ok s Hs k index ob Hk (conj Hb Ho)) as [Hi He]. split; [done|]. split; [done|].
  intros x Hx. rewrite He by done. pose proof (Z.div_mod x 64 ltac:(lia)). pose proof (Z.mod_pos_bound x 64 ltac:(lia)).
  destruct (Z.eqb_spec (x / 64) k) as [E|E]; [|destruct (Z.eqb_spec x (64 * k + j)); [|done]; destruct E; lia].
  rewrite Hw by lia. unfold word_at. rewrite E. destruct (Z.eqb_spec (x mod 64) j), (Z.eqb_spec x (64 * k + j)); (done || lia).
Qed.

Lemma word_here s k j : 0 <= j < 64 -> word_at s (64 * k + j) = wordof (at0 (indices s) k) (stored (block_at s k)) j.
Proof. intros Hj. unfold word_at. destruct (word_of_unique (64 * k + j) k j) as [-> ->]; (done || lia). Qed.

Lemma set_same {A} (l : list A) k x : zget l k = Some x -> set_at l k x = l.
Proof. unfold zget, set_at. destruct (k <? 0); [done|]. apply list_insert_id. Qed.

Lemma with_same_index s k ob nz : inv s -> 0 <= k < block_count (size s) -> nz = non_zero_long_count s ->
  mk (indices s) (set_at (bits s) k ob) (size s) nz = with_block s k (at0 (indices s) k) ob.
Proof.
  intros Hs Hk ->. unfold with_block. destruct (has_block s Hs k Hk) as (_ & E & _). rewrite (set_same _ _ _ E). f_equal. lia.
Qed.

Lemma no_words : words_ok [].
Proof. by apply Forall_nil. Qed.
Lemma one_word v : in_u 64 v -> words_ok [v].
Proof. intros H. apply Forall_cons; [done|apply no_words]. Qed.

Section words.
Context (s : t) (Hs : inv s) (k : Z) (Hk : 0 <= k < block_count (size s)).
Notation index := (at0 (indices s) k).
Notation entry := (block_at s k).

Lemma reads_index : index_at (indices s) k = Ok index /\ get_unchecked (indices s) k = Ok index.
Proof. destruct (has_block s Hs k Hk) as (_ & E & _). unfold index_at, get_unchecked. by rewrite E. Qed.
Lemma reads_entry : index_at (bits s) k = Ok entry /\ get_unchecked (bits s) k = Ok entry.
Proof. destruct (has_block s Hs k Hk) as (_ & _ & E). unfold index_at, get_unchecked. by rewrite E. Qed.
Lemma puts_index (v : Z) : put_at (indices s) k v = Ok (set_at (indices s) k v).
Proof. apply put_ok. by rewrite (inv_indices _ Hs). Qed.
Lemma puts_entry ob : put_at (bits s) k ob = Ok (set_at (bits s) k ob).
Proof. apply put_ok. by rewrite (inv_bits _ Hs). Qed.

(** A word that is stored: its block is there, and holds it at its rank. *)
Lemma stored_word j : 0 <= j < 64 -> Z.testbit index j = true ->
  exists l, entry = Some l /\ block_ok index l /\ rank index (word_bit j) = stored_before index j /\
    0 <= stored_before index j < zlen l /\ at0 l (stored_before index j) = word_at s (64 * k + j) /\ word_at s (64 * k + j) <> 0.
Proof.
  intros Hj E. destruct (inv_blocks _ Hs k Hk) as [Hb Hiff]. destruct entry as [l|] eqn:El.
  2:{ rewrite (proj1 Hiff eq_refl), Z.testbit_0_l in E. done. }
  cbn [stored] in Hb. exists l. pose proof (stored_here _ _ (blk_index _ _ Hb) Hj E). pose proof (blk_size _ _ Hb).
  split; [done|]. split; [done|]. split; [apply rank_spec; [apply Hb|done]|]. split; [lia|].
  rewrite word_here, El by done. cbn [stored]. unfold wordof. rewrite E. split; [done|]. by apply Hb.
Qed.

Lemma unstored_word j : 0 <= j < 64 -> Z.testbit index j = false -> word_at s (64 * k + j) = 0.
Proof. intros Hj E. rewrite word_here by done. unfold wordof. by rewrite E. Qed.

Lemma index_bit j : 0 <= j < 64 -> (Z.land index (word_bit j) =? 0) = negb (Z.testbit index j).
Proof. intros Hj. apply has_word; [apply (has_block s Hs k Hk)|done]. Qed.

Lemma update_ok j l v : 0 <= j < 64 -> Z.testbit index j = true -> entry = Some l -> in_u 64 v -> v <> 0 ->
  word_set s (mk (indices s) (set_at (bits s) k (Some (set_at l (stored_before index j) v))) (size s) (non_zero_long_count s)) (64 * k + j) v.
Proof.
  intros Hj E El Hv Hne. destruct (inv_blocks _ Hs k Hk) as [Hb Hiff]. rewrite El in Hb, Hiff. rewrite with_same_index by done.
  apply with_word; [done..| |]. { split; [done|]. intros H0. by apply Hiff in H0. }
  rewrite El. by apply block_update.
Qed.

Lemma insert_word_ok j v : 0 <= j < 64 -> Z.testbit index j = false -> in_u 64 v -> v <> 0 ->
  exists s', insert s k (word_bit j) v index = Ok s' /\ word_set s s' (64 * k + j) v.
Proof.
  intros Hj E Hv Hne. destruct (inv_blocks _ Hs k Hk) as [Hb Hiff]. destruct (count_with index j (blk_index _ _ Hb) Hj E) as (Hu & Hc & _).
  assert (Hnz : Z.lor index (word_bit j) <> 0).
  { intros H0. pose proof (testbit_with index j j ltac:(lia) ltac:(lia)) as Ht. by rewrite H0, Z.testbit_0_l, Z.eqb_refl in Ht. }
  unfold insert. destruct (Z.eqb_spec index 0) as [E0|E0].
  - rewrite puts_index, puts_entry. cbn [rbind]. eexists. split; [done|].
    assert (Hi0 : index = 0) by done. rewrite Hi0 in *. cbn [Z.lor] in Hu, Hc, Hnz. rewrite Z.lor_0_l in *.
    replace (mk _ _ _ _) with (with_block s k (word_bit j) (Some [v])) by (unfold with_block; f_equal; rewrite Hi0, Hc; cbn; lia).
    apply with_word; [done..|by split|]. rewrite Hi0. assert (block_at s k = None) as -> by by apply Hiff. cbn [stored].
    rewrite <- (Z.lor_0_l (word_bit j)). apply block_insert; [|done..|by apply one_word|by cbn|].
    + apply (proj1 empty_entry).
    + assert (stored_before 0 j = 0) as -> by (apply count_false; intros; apply Z.testbit_0_l). intros i Hi. rewrite at0_cons by done.
      destruct (Z.ltb_spec i 0); [lia|]. done.
  - rewrite (proj1 reads_index). cbn [rbind]. rewrite puts_index. cbn [rbind]. rewrite (proj1 reads_entry). cbn [rbind].
    destruct entry as [l|] eqn:El; [|by destruct E0; apply Hiff]. cbn [expect rbind stored] in *. rewrite rank_spec by (apply Hb || done).
    assert (Hpos : 0 < count_ones index).
    { pose proof (blk_index _ _ Hb) as [? ?]. destruct (trailing_zeros_spec 64 index (blk_index _ _ Hb) E0) as (Ht & Htb & _).
      pose proof (stored_here index _ (blk_index _ _ Hb) Ht Htb). lia. }
    destruct (grow_ok index l j v Hb Hpos Hj E Hv Hne) as (l' & Eg & Hw). rewrite Eg. cbn [rbind]. rewrite puts_entry. cbn [rbind].
    eexists. split; [done|]. replace (mk _ _ _ _) with (with_block s k (Z.lor index (word_bit j)) (Some l')) by (unfold with_block; f_equal; rewrite Hc; lia).
    apply with_word; [done..|by split|]. by rewrite El.
Qed.

Lemma or_long_ok j nb : 0 <= j < 64 -> in_u 64 nb ->
  exists s', or_long s k j nb = Ok s' /\ word_set s s' (64 * k + j) (Z.lor (word_at s (64 * k + j)) nb).
Proof.
  intros Hj Hnb. unfold or_long. destruct (Z.eqb_spec nb 0) as [->|Hne].
  { exists s. rewrite Z.lor_0_r. split; [done|]. split; [done|]. split; [done|]. intros x _. by destruct (Z.eqb_spec x (64 * k + j)) as [->|]. }
  rewrite (proj1 reads_index). cbn [rbind]. cbv zeta. rewrite index_bit, negb_involutive by done. destruct (Z.testbit index j) eqn:E.
  - destruct (stored_word j Hj E) as (l & El & Hb & Hr & Ho & Hw & Hwne). rewrite (proj1 reads_entry), El. cbn [rbind expect]. rewrite Hr.
    rewrite index_ok by done. cbn [rbind]. rewrite put_ok by done. cbn [rbind]. rewrite puts_entry. cbn [rbind]. eexists. split; [done|].
    rewrite Hw. apply update_ok; [done..| |].
    + apply in_u_lor; [lia| |done]. rewrite word_here, El by done. by apply wordof_u64.
    + by intros [? _]%Z.lor_eq_0_iff.
  - destruct (insert_word_ok j nb Hj E Hnb Hne) as (s' & Es & Hw). exists s'. split; [done|]. by rewrite (unstored_word j Hj E), Z.lor_0_l.
Qed.

Lemma remove_ok j : 0 <= j < 64 -> Z.testbit index j = true ->
  exists s', remove_long s k j index (stored_before index j) = Ok s' /\ word_set s s' (64 * k + j) 0.
Proof.
  intros Hj E. destruct (stored_word j Hj E) as (l & El & Hb & Hr & Ho & _). destruct (count_without index j (blk_index _ _ Hb) Hj E) as (Hu & Hc & _).
  pose proof (stored_here _ _ (blk_index _ _ Hb) Hj E) as Hoc. pose proof (blk_size _ _ Hb) as Hsz. set (o := stored_before index j) in *.
  unfold remove_long. cbv zeta. set (index' := Z.land index (notu 64 (word_bit j))) in *. rewrite puts_index. cbn [rbind].
  assert (Hfinal : forall ob, (ob = None <-> index' = 0) -> word_becomes index l index' (stored ob) j 0 ->
    word_set s (mk (set_at (indices s) k index') (set_at (bits s) k ob) (size s) (non_zero_long_count s - 1)) (64 * k + j) 0).
  { intros ob Hob Hw. replace (mk _ _ _ _) with (with_block s k index' ob) by (unfold with_block; f_equal; lia). apply with_word; [done..|]. by rewrite El. }
  destruct (Z.eqb_spec index' 0) as [E0|E0].
  - rewrite puts_entry. cbn [rbind]. eexists. split; [done|]. apply Hfinal; [done|]. rewrite E0 in Hc. cbn [count_ones] in Hc.
    apply block_remove; [done..|apply no_words|change (zlen (stored None)) with 0; lia|]. intros i Hi. cbn [stored]. rewrite at0_out by (change (zlen []) with 0; lia).
    destruct (Z.ltb_spec i (stored_before index j)); [unfold o in *; lia|]. symmetry. apply (blk_free _ _ Hb). lia.
  - rewrite (proj1 reads_entry), El. cbn [rbind expect]. rewrite Hc.
    destruct (copied l (o + 1) (count_ones index - 1 + 1) o) as (l1 & E1 & Hl & Hw & He); [apply Hb|lia..|]. rewrite E1. cbn [rbind].
    rewrite put_ok by lia. cbn [rbind]. rewrite puts_entry. cbn [rbind]. eexists. split; [done|]. apply Hfinal; [done|]. cbn [stored].
    apply block_remove; [done..|by apply words_ok_set; [|apply in_u_0]|rewrite zlen_set_at; lia|]. intros i Hi. fold o. rewrite at0_set, He by lia.
    destruct (Z.eqb_spec i (count_ones index - 1)), (Z.ltb_spec i o), (Z.leb_spec o i), (Z.ltb_spec i (o + (count_ones index - 1 + 1 - (o + 1)))); try lia; cbn [andb].
    + symmetry. apply (blk_free _ _ Hb). lia.
    + done.
    + f_equal. lia.
    + rewrite !(blk_free _ _ Hb) by lia. done.
Qed.

Lemma and_ok j m : 0 <= j < 64 -> 0 <= m ->
  exists s', and_ s k j m = Ok s' /\ word_set s s' (64 * k + j) (Z.land (word_at s (64 * k + j)) m).
Proof.
  intros Hj Hm. unfold and_. rewrite (proj1 reads_index). cbn [rbind]. rewrite index_bit, negb_involutive by done. destruct (Z.testbit index j) eqn:E.
  - destruct (stored_word j Hj E) as (l & El & Hb & Hr & Ho & Hw & Hwne). rewrite (proj1 reads_entry), El. cbn [rbind expect]. cbv zeta. rewrite Hr.
    rewrite index_ok by done. cbn [rbind]. rewrite Hw. destruct (Z.eqb_spec (Z.land (word_at s (64 * k + j)) m) 0) as [E0|E0].
    + rewrite E0. by apply remove_ok.
    + rewrite put_ok by done. cbn [rbind]. rewrite puts_entry. cbn [rbind]. eexists. split; [done|]. apply update_ok; try done.
      apply in_u_land; [lia| |done]. rewrite word_here, El by done. by apply wordof_u64.
  - exists s. split; [done|]. rewrite (unstored_word j Hj E), Z.land_0_l. split; [done|]. split; [done|]. intros x _.
    destruct (Z.eqb_spec x (64 * k + j)) as [->|]; [by apply unstored_word|done].
Qed.
End words.

(** ** Single bits. *)
Lemma split_index i : 0 <= i -> Z.shiftr i 12 = i / 64 / 64 /\ Z.land (Z.shiftr i 6) 63 = (i / 64) mod 64 /\ Z.land i 63 = i mod 64.
Proof.
  intros Hi. rewrite !land_63, !Z.shiftr_div_pow2 by lia. change (2 ^ 6) with 64. change (2 ^ 12) with (64 * 64).
  by rewrite Z.div_div by lia.
Qed.

Lemma block_count_spec n : 1 <= n -> 4096 * (block_count n - 1) < n <= 4096 * block_count n /\ 1 <= block_count n.
Proof. intros. unfold block_count, div_ceil. Z.div_mod_to_equations. lia. Qed.

Lemma index_block s i : inv s -> 0 <= i < size s -> 0 <= i / 64 / 64 < block_count (size s).
Proof.
  intros Hs Hi. pose proof (block_count_spec (size s) (inv_size _ Hs)). rewrite Z.div_div by lia. change (64 * 64) with 4096.
  split; [by apply Z.div_pos; lia|]. apply Z.div_lt_upper_bound; lia.
Qed.

Lemma word_addr w : 64 * (w / 64) + w mod 64 = w.
Proof. symmetry. apply Z.div_mod. lia. Qed.

Lemma word_u64 s w : inv s -> 0 <= w < 64 * block_count (size s) -> in_u 64 (word_at s w).
Proof.
  intros Hs Hw. apply wordof_u64, inv_blocks; [done|]. split; [by apply Z.div_pos; lia|]. apply Z.div_lt_upper_bound; lia.
Qed.

Lemma get_ok s i : inv s -> 0 <= i -> get s i = if size s <=? i then Err Panic else Ok (bit s i).
Proof.
  intros Hs Hi. unfold get, check. destruct (Z.leb_spec (size s) i); [done|]. cbn [rbind]. cbv zeta.
  destruct (split_index i Hi) as (-> & -> & ->). pose proof (index_block s i Hs ltac:(lia)) as Hk. set (k := i / 64 / 64) in *. set (j := (i / 64) mod 64).
  assert (Hj : 0 <= j < 64) by (apply Z.mod_pos_bound; lia). assert (Hw : i / 64 = 64 * k + j) by (symmetry; apply word_addr).
  pose proof (Z.mod_pos_bound i 64 ltac:(lia)) as Hr. rewrite (proj2 (reads_index s Hs k Hk)). cbn [rbind]. rewrite (index_bit s Hs k Hk) by done.
  unfold bit. rewrite Hw. destruct (Z.testbit _ j) eqn:E; cbn [negb].
  - destruct (stored_word s Hs k Hk j Hj E) as (l & El & Hb & Hrk & Ho & Hv & _). rewrite (proj2 (reads_entry s Hs k Hk)), El. cbn [rbind unwrap_unchecked].
    rewrite Hrk, unchecked_ok by done. cbn [rbind]. rewrite Hv, has_word; [by rewrite negb_involutive| |done].
    rewrite word_here, El by done. by apply wordof_u64.
  - rewrite (unstored_word s k j Hj E). by rewrite Z.testbit_0_l.
Qed.

(** [s'] is [s] with the bits of [P] set, or cleared. *)
Definition marks (on : bool) (s s' : t) (P : Z -> bool) : Prop :=
  inv s' /\ size s' = size s /\ forall i, 0 <= i -> bit s' i = if on then bit s i || P i else bit s i && negb (P i).

Lemma marks_ext on s s' P Q : marks on s s' P -> (forall i, 0 <= i -> P i = Q i) -> marks on s s' Q.
Proof. intros (H1 & H2 & H3) E. split; [done|]. split; [done|]. intros i Hi. by rewrite H3, E. Qed.

Lemma marks_none on s : inv s -> marks on s s (fun _ => false).
Proof. intros H. split; [done|]. split; [done|]. intros i _. destruct on; btauto. Qed.

Lemma marks_trans on s s1 s2 P Q : marks on s s1 P -> marks on s1 s2 Q -> marks on s s2 (fun i => P i || Q i).
Proof.
  intros (H1 & H2 & H3) (H4 & H5 & H6). split; [done|]. split; [lia|]. intros i Hi. rewrite H6, H3 by done. destruct on; btauto.
Qed.

Lemma word_marks (on : bool) s s' w v P : word_set s s' w v -> 0 <= w ->
  (forall r, 0 <= r < 64 -> Z.testbit v r = if on then Z.testbit (word_at s w) r || P (64 * w + r) else Z.testbit (word_at s w) r && negb (P (64 * w + r))) ->
  (forall i, 0 <= i -> i / 64 <> w -> P i = false) -> marks on s s' P.
Proof.
  intros (H1 & H2 & H3) Hw Hv Ho. split; [done|]. split; [done|]. intros i Hi. unfold bit. rewrite H3 by (apply Z.div_pos; lia).
  destruct (Z.eqb_spec (i / 64) w) as [E|E].
  - rewrite Hv by (apply Z.mod_pos_bound; lia). rewrite <- E. by rewrite word_addr.
  - rewrite Ho by done. destruct on; btauto.
Qed.

Definition within (lo hi i : Z) : bool := (lo <=? i) && (i <=? hi).

Lemma testbit_mask a b i : 0 <= a <= b -> b < 64 -> 0 <= i -> Z.testbit (mask a b) i = within a b i.
Proof.
  intros Ha Hb Hi. unfold mask, within. rewrite land_63, (Z.mod_small a) by lia.
  assert ((if 64 <=? b - a + 1 then MAX64 else shlu 64 1 (b - a + 1) - 1) = Z.ones (b - a + 1)) as ->.
  { destruct (Z.leb_spec 64 (b - a + 1)); [unfold MAX64; f_equal; lia|]. fold (word_bit (b - a + 1)). rewrite word_bit_pow by lia. rewrite Z.ones_equiv. lia. }
  rewrite testbit_shlu by lia. rewrite testbit_ones by lia.
  destruct (Z.ltb_spec i 64), (Z.leb_spec 0 i), (Z.leb_spec 0 (i - a)), (Z.ltb_spec (i - a) (b - a + 1)), (Z.leb_spec a i), (Z.leb_spec i b); (done || lia).
Qed.

Lemma mask_ok a b : 0 <= a -> in_u 64 (mask a b).
Proof. intros Ha. apply (wrapu_range 64). lia. Qed.

(** One word's bits set or cleared. *)
Definition word_mark (on : bool) (s : t) (k j a b : Z) : R t :=
  if on then or_long s k j (mask a b) else and_ s k j (notu 64 (mask a b)).

Lemma word_mark_ok on s k j a b : inv s -> 0 <= k < block_count (size s) -> 0 <= j < 64 -> 0 <= a <= b -> b < 64 ->
  exists s', word_mark on s k j a b = Ok s' /\ marks on s s' (within (4096 * k + 64 * j + a) (4096 * k + 64 * j + b)).
Proof.
  intros Hs Hk Hj Ha Hb. assert (Hout : forall i, 0 <= i -> i / 64 <> 64 * k + j -> within (4096 * k + 64 * j + a) (4096 * k + 64 * j + b) i = false).
  { intros i Hi Hne. unfold within. destruct (Z.leb_spec (4096 * k + 64 * j + a) i), (Z.leb_spec i (4096 * k + 64 * j + b)); try done.
    destruct Hne. symmetry. apply (Z.div_unique _ _ _ (i - 64 * (64 * k + j))); lia. }
  assert (Hm : forall r, 0 <= r < 64 -> Z.testbit (mask a b) r = within (4096 * k + 64 * j + a) (4096 * k + 64 * j + b) (64 * (64 * k + j) + r)).
  { intros r Hr. rewrite testbit_mask by lia. unfold within. f_equal; apply Bool.eq_iff_eq_true; rewrite !Z.leb_le; lia. }
  destruct on; unfold word_mark.
  - destruct (or_long_ok s Hs k Hk j (mask a b) Hj (mask_ok a b ltac:(lia))) as (s' & E & H). exists s'. split; [done|].
    apply (word_marks true _ _ _ _ _ H); [lia| |done]. intros r Hr. by rewrite Z.lor_spec, Hm.
  - destruct (and_ok s Hs k Hk j (notu 64 (mask a b)) Hj) as (s' & E & H); [apply in_u_notu; [lia|by apply mask_ok; lia]|].
    exists s'. split; [done|]. apply (word_marks false _ _ _ _ _ H); [lia| |done]. intros r Hr. by rewrite Z.land_spec, testbit_notu, Hm.
Qed.

(** ** Ranges. *)
Lemma fold_marks on (f : t -> Z -> R t) (P : Z -> Z -> bool) n l :
  (forall s x, inv s -> size s = n -> In x l -> exists s', f s x = Ok s' /\ marks on s s' (P x)) ->
  forall s, inv s -> size s = n -> exists s', foldR f l s = Ok s' /\ marks on s s' (fun i => existsb (fun x => P x i) l).
Proof.
  intros Hf. induction l as [|x l IH]; intros s Hs Hn; cbn [foldR existsb]; [exists s; split; [done|by apply marks_none]|].
  destruct (Hf s x Hs Hn (or_introl eq_refl)) as (s1 & E1 & M1). rewrite E1. cbn [rbind].
  destruct (IH ltac:(intros ? ? ? ? ?; apply Hf; auto using in_cons) s1) as (s2 & E2 & M2); [apply M1|destruct M1 as (_ & ? & _); lia|].
  exists s2. split; [done|]. by eapply marks_trans.
Qed.

Lemma in_between a b x : In x (between a b) <-> a <= x < b.
Proof. unfold between. rewrite <- list_elem_of_In, elem_of_seqZ. lia. Qed.

(** Consecutive pieces of width [W]. *)
Lemma tiles A W p q i : 0 < W -> existsb (fun x => within (A + W * x) (A + W * x + (W - 1)) i) (between p q) = within (A + W * p) (A + W * q - 1) i.
Proof.
  intros HW. apply Bool.eq_iff_eq_true. rewrite existsb_exists. unfold within. setoid_rewrite andb_true_iff. setoid_rewrite Z.leb_le. setoid_rewrite in_between. split.
  - intros (x & Hx & H). nia.
  - intros H. exists ((i - A) / W). pose proof (Z.div_mod (i - A) W ltac:(lia)). pose proof (Z.mod_pos_bound (i - A) W HW). nia.
Qed.

Lemma existsb_reverse {A} (f : A -> bool) l : existsb f (reverse l) = existsb f l.
Proof. apply Bool.eq_iff_eq_true. rewrite !existsb_exists. setoid_rewrite <- list_elem_of_In. by setoid_rewrite elem_of_reverse. Qed.

(** [set_within_block] and [clear_within_block]; [order] is the middle words'. *)
Definition across_words (on : bool) (order : list Z -> list Z) (s : t) (k from to : Z) : R t :=
  let first := Z.shiftr from 6 in
  let last := Z.shiftr to 6 in
  if first =? last then word_mark on s k first (Z.land from 63) (Z.land to 63)
  else
    let! s := word_mark on s k last 0 (Z.land to 63) in
    let! s := foldR (fun s i => word_mark on s k i 0 63) (order (between (first + 1) last)) s in
    word_mark on s k first (Z.land from 63) 63.

Lemma set_within_across s k from to : set_within_block s k from to = across_words true id s k from to.
Proof. reflexivity. Qed.
Lemma clear_within_across s k from to : clear_within_block s k from to = across_words false reverse s k from to.
Proof. reflexivity. Qed.

Lemma across_words_ok on order s k from to : (forall l x, In x (order l) <-> In x l) -> (forall f l, existsb f (order l) = existsb f l) ->
  inv s -> 0 <= k < block_count (size s) -> 0 <= from <= to -> to < 4096 ->
  exists s', across_words on order s k from to = Ok s' /\ marks on s s' (within (4096 * k + from) (4096 * k + to)).
Proof.
  intros Ho He Hs Hk Hf Ht. unfold across_words. cbv zeta. rewrite !land_63, !Z.shiftr_div_pow2 by lia. change (2 ^ 6) with 64.
  pose proof (Z.div_mod from 64 ltac:(lia)) as Df. pose proof (Z.div_mod to 64 ltac:(lia)) as Dt.
  pose proof (Z.mod_pos_bound from 64 ltac:(lia)) as Mf. pose proof (Z.mod_pos_bound to 64 ltac:(lia)) as Mt.
  set (a := from / 64) in *. set (b := to / 64) in *. assert (Hab : 0 <= a <= b /\ b < 64) by lia.
  destruct (Z.eqb_spec a b) as [E|E].
  - destruct (word_mark_ok on s k a (from mod 64) (to mod 64)) as (s' & E1 & M); [done|done|lia..|]. exists s'. split; [done|].
    eapply marks_ext; [exact M|]. intros i _. f_equal; lia.
  - destruct (word_mark_ok on s k b 0 (to mod 64)) as (s1 & E1 & M1); [done|done|lia..|]. rewrite E1. cbn [rbind].
    assert (Hn1 := M1). destruct Hn1 as (I1 & N1 & _).
    destruct (fold_marks on (fun s i => word_mark on s k i 0 63) (fun x => within (4096 * k + 64 * x) (4096 * k + 64 * x + (64 - 1))) (size s) (order (between (a + 1) b)))
      with (s := s1) as (s2 & E2 & M2); [|done|done|].
    { intros s' x Hs' Hn' Hx. apply Ho, in_between in Hx. destruct (word_mark_ok on s' k x 0 63) as (s'' & E' & M'); [done|by rewrite Hn'|lia..|].
      exists s''. split; [done|]. eapply marks_ext; [exact M'|]. intros i _. f_equal; lia. }
    rewrite E2. cbn [rbind]. assert (Hn2 := M2). destruct Hn2 as (I2 & N2 & _).
    destruct (word_mark_ok on s2 k a (from mod 64) 63) as (s3 & E3 & M3); [done|by rewrite N2, N1|lia..|]. exists s3. split; [done|].
    eapply marks_ext; [exact (marks_trans _ _ _ _ _ _ (marks_trans _ _ _ _ _ _ M1 M2) M3)|]. intros i Hi. cbn beta. rewrite He, tiles by lia.
    unfold within. bool_lia.
Qed.

Lemma set_within_ok s k from to : inv s -> 0 <= k < block_count (size s) -> 0 <= from <= to -> to < 4096 ->
  exists s', set_within_block s k from to = Ok s' /\ marks true s s' (within (4096 * k + from) (4096 * k + to)).
Proof. intros. rewrite set_within_across. by apply across_words_ok. Qed.

Lemma clear_within_ok s k from to : inv s -> 0 <= k < block_count (size s) -> 0 <= from <= to -> to < 4096 ->
  exists s', clear_within_block s k from to = Ok s' /\ marks false s s' (within (4096 * k + from) (4096 * k + to)).
Proof.
  intros. rewrite clear_within_across. apply across_words_ok; try done; [|intros; apply existsb_reverse].
  intros l x. rewrite <- !list_elem_of_In. apply elem_of_reverse.
Qed.

Lemma drop_block_ok s k : inv s -> 0 <= k < block_count (size s) ->
  exists s', drop_block s k = Ok s' /\ marks false s s' (within (4096 * k) (4096 * k + (4096 - 1))).
Proof.
  intros Hs Hk. unfold drop_block. rewrite (proj1 (reads_index s Hs k Hk)). cbn [rbind]. rewrite (puts_index s Hs k Hk). cbn [rbind].
  rewrite (puts_entry s Hs k Hk). cbn [rbind]. eexists. split; [done|].
  replace (mk _ _ _ _) with (with_block s k 0 None) by (unfold with_block; f_equal; cbn; lia).
  destruct (with_block_ok s Hs k 0 None Hk empty_entry) as [Hi Hw]. split; [done|]. split; [done|]. intros i Hp. unfold bit.
  rewrite Hw by (apply Z.div_pos; lia). rewrite Z.div_div by lia. change (64 * 64) with 4096. unfold within, wordof. rewrite Z.testbit_0_l.
  pose proof (Z.div_mod i 4096 ltac:(lia)). pose proof (Z.mod_pos_bound i 4096 ltac:(lia)). destruct (Z.eqb_spec (i / 4096) k).
  - destruct (Z.leb_spec (4096 * k) i), (Z.leb_spec i (4096 * k + (4096 - 1))); try lia. cbn. by rewrite Z.testbit_0_l, andb_false_r.
  - destruct (Z.leb_spec (4096 * k) i), (Z.leb_spec i (4096 * k + (4096 - 1))); try lia; cbn; by rewrite andb_true_r.
Qed.

(** [set_range] and [clear_range], from the parts at both ends and the whole
    blocks between. *)
Definition across_blocks (part : t -> Z -> Z -> Z -> R t) (whole : t -> Z -> R t) (s : t) (start end_ : Z) : R t :=
  let first := Z.shiftr start 12 in
  let last := Z.shiftr (end_ - 1) 12 in
  if first =? last then part s first (Z.land start MASK_4096) (Z.land (end_ - 1) MASK_4096)
  else
    let! s := part s first (Z.land start MASK_4096) MASK_4096 in
    let! s := foldR whole (between (first + 1) last) s in
    part s last 0 (Z.land (end_ - 1) MASK_4096).

Lemma across_blocks_ok on part whole s start end_ :
  (forall s k from to, inv s -> 0 <= k < block_count (size s) -> 0 <= from <= to -> to < 4096 ->
    exists s', part s k from to = Ok s' /\ marks on s s' (within (4096 * k + from) (4096 * k + to))) ->
  (forall s k, inv s -> 0 <= k < block_count (size s) -> exists s', whole s k = Ok s' /\ marks on s s' (within (4096 * k) (4096 * k + (4096 - 1)))) ->
  inv s -> 0 <= start < end_ -> end_ <= size s ->
  exists s', across_blocks part whole s start end_ = Ok s' /\ marks on s s' (within start (end_ - 1)).
Proof.
  intros Hpart Hwhole Hs Hst He. unfold across_blocks, MASK_4096. cbv zeta. change 4095 with (Z.ones 12). rewrite !Z.land_ones, !Z.shiftr_div_pow2 by lia.
  change (2 ^ 12) with 4096. change (Z.ones 12) with 4095. pose proof (block_count_spec (size s) (inv_size _ Hs)) as [Hbc _].
  pose proof (Z.div_mod start 4096 ltac:(lia)) as Df. pose proof (Z.div_mod (end_ - 1) 4096 ltac:(lia)) as Dt.
  pose proof (Z.mod_pos_bound start 4096 ltac:(lia)) as Mf. pose proof (Z.mod_pos_bound (end_ - 1) 4096 ltac:(lia)) as Mt.
  set (a := start / 4096) in *. set (b := (end_ - 1) / 4096) in *. assert (Hab : 0 <= a <= b /\ b < block_count (size s)) by lia.
  destruct (Z.eqb_spec a b) as [E|E].
  - destruct (Hpart s a (start mod 4096) ((end_ - 1) mod 4096)) as (s' & E1 & M); [done|lia..|]. exists s'. split; [done|].
    eapply marks_ext; [exact M|]. intros i _. f_equal; lia.
  - destruct (Hpart s a (start mod 4096) 4095) as (s1 & E1 & M1); [done|lia..|]. rewrite E1. cbn [rbind]. assert (Hn1 := M1). destruct Hn1 as (I1 & N1 & _).
    destruct (fold_marks on whole (fun x => within (0 + 4096 * x) (0 + 4096 * x + (4096 - 1))) (size s) (between (a + 1) b)) with (s := s1) as (s2 & E2 & M2); [|done|done|].
    { intros s' x Hs' Hn' Hx%in_between. apply Hwhole; [done|]. rewrite Hn'. lia. }
    rewrite E2. cbn [rbind]. assert (Hn2 := M2). destruct Hn2 as (I2 & N2 & _).
    destruct (Hpart s2 b 0 ((end_ - 1) mod 4096)) as (s3 & E3 & M3); [done|rewrite N2, N1; lia|lia..|]. exists s3. split; [done|].
    eapply marks_ext; [exact (marks_trans _ _ _ _ _ _ (marks_trans _ _ _ _ _ _ M1 M2) M3)|]. intros i Hi. cbn beta. rewrite tiles by lia.
    unfold within. bool_lia.
Qed.

Lemma set_range_ok s start end_ : inv s -> 0 <= start -> end_ <= size s ->
  exists s', set_range s start end_ = Ok s' /\ marks true s s' (within start (end_ - 1)).
Proof.
  intros Hs Hst He. unfold set_range. destruct (Z.leb_spec end_ start).
  - exists s. split; [done|]. eapply marks_ext; [by apply marks_none|]. intros i _. unfold within. bool_lia.
  - destruct (Z.ltb_spec start (size s)); [|lia]. destruct (Z.leb_spec end_ (size s)); [|lia]. cbn [andb negb].
    apply (across_blocks_ok true set_within_block (fun s i => set_within_block s i 0 MASK_4096)); [apply set_within_ok| |done|lia|done].
    intros s0 k Hs0 Hk0. destruct (set_within_ok s0 k 0 4095 Hs0 Hk0) as (s' & E & M); [lia..|]. exists s'. split; [done|].
    eapply marks_ext; [exact M|]. intros i _. f_equal; lia.
Qed.

Lemma clear_range_ok s from to : inv s -> 0 <= from -> to <= size s ->
  exists s', clear_range s from to = Ok s' /\ marks false s s' (within from (to - 1)).
Proof.
  intros Hs Hf Ht. unfold clear_range. destruct (Z.leb_spec to from).
  - exists s. split; [done|]. eapply marks_ext; [by apply marks_none|]. intros i _. unfold within. bool_lia.
  - destruct (Z.leb_spec to (size s)); [|lia]. cbn [negb].
    apply (across_blocks_ok false clear_within_block drop_block); [apply clear_within_ok|apply drop_block_ok|done|lia|done].
Qed.

(** ** Construction and single bits. *)
Lemma bit_absent s i : inv s -> 4096 * block_count (size s) <= i -> bit s i = false.
Proof.
  intros Hs Hi. unfold bit, word_at. rewrite at0_out; [unfold wordof; by rewrite !Z.testbit_0_l|].
  rewrite (inv_indices _ Hs), Z.div_div by lia. change (64 * 64) with 4096. apply Z.div_le_lower_bound; lia.
Qed.

Lemma empty_marks s n nz ix bs : 1 <= n -> zlen ix = block_count n -> zlen bs = block_count n -> nz = 0 ->
  (forall x, In x ix -> x = 0) -> (forall x, In x bs -> x = None) -> s = mk ix bs n nz ->
  inv s /\ size s = n /\ forall i, bit s i = false.
Proof.
  intros Hn Hi Hb -> Hx Hy ->. assert (H0 : forall k, at0 ix k = 0).
  { intros k. unfold at0. destruct (nth_in_or_default (Z.to_nat k) ix 0) as [H|H]; [by apply Hx|done]. }
  assert (H1 : forall k, block_at (mk ix bs n 0) k = None).
  { intros k. unfold block_at. cbn [bits]. destruct (nth_in_or_default (Z.to_nat k) bs None) as [H|H]; [by apply Hy|done]. }
  split; [|split; [done|]].
  - constructor; cbn [size indices bits non_zero_long_count]; try done; [intros k _; rewrite H0, H1; apply empty_entry|].
    clear - Hx. induction ix as [|x ix IH]; cbn [sum_ones]; [done|]. rewrite <- IH by auto using in_cons. by rewrite (Hx x (or_introl eq_refl)).
  - intros i. unfold bit, word_at. cbn [indices]. rewrite H0. unfold wordof. by rewrite Z.testbit_0_l, Z.testbit_0_l.
Qed.

Lemma new_ok n : 1 <= n -> exists s, new n = Ok s /\ inv s /\ size s = n /\ forall i, bit s i = false.
Proof.
  intros Hn. unfold new. destruct (Z.leb_spec 1 n); [|lia]. eexists. split; [done|]. pose proof (block_count_spec n Hn).
  eapply empty_marks; [exact Hn|..|done]; [unfold zlen; rewrite length_replicate; lia..|done| |]; intros x;
    rewrite <- list_elem_of_In, elem_of_replicate; tauto.
Qed.

Lemma clear_all_ok s : inv s -> inv (clear_all s) /\ size (clear_all s) = size s /\ forall i, bit (clear_all s) i = false.
Proof.
  intros Hs. eapply empty_marks; [apply Hs|..|reflexivity]; [rewrite zlen_map; apply Hs..|done| |]; intros x (y & <- & _)%in_map_iff; done.
Qed.

Lemma mask_one r : 0 <= r < 64 -> word_bit r = mask r r.
Proof. intros Hr. unfold mask. replace (r - r + 1) with 1 by lia. cbn [Z.leb Z.compare]. rewrite land_63, Z.mod_small by lia. done. Qed.

Lemma get_and_set_ok s i : inv s -> 0 <= i < size s ->
  exists s', get_and_set s i = Ok (bit s i, s') /\ marks true s s' (Z.eqb i).
Proof.
  intros Hs Hi. unfold get_and_set, check. destruct (Z.leb_spec (size s) i); [lia|]. cbn [rbind]. cbv zeta.
  destruct (split_index i ltac:(lia)) as (-> & -> & ->). pose proof (index_block s i Hs Hi) as Hk. set (k := i / 64 / 64) in *. set (j := (i / 64) mod 64).
  assert (Hj : 0 <= j < 64) by (apply Z.mod_pos_bound; lia). assert (Hw : i / 64 = 64 * k + j) by (symmetry; apply word_addr).
  pose proof (Z.mod_pos_bound i 64 ltac:(lia)) as Hr. set (r := i mod 64) in *. assert (Hir : i = 64 * (64 * k + j) + r) by (rewrite <- Hw; unfold r; by rewrite <- Z.div_mod).
  assert (Hmark : forall s' w, word_set s s' (64 * k + j) (Z.lor w (word_bit r)) -> w = word_at s (64 * k + j) -> marks true s s' (Z.eqb i)).
  { intros s' w Hset ->. apply (word_marks true _ _ _ _ _ Hset); [lia| |].
    - intros q Hq. rewrite testbit_with by lia. rewrite orb_comm. f_equal. apply Bool.eq_iff_eq_true. rewrite !Z.eqb_eq. lia.
    - intros x Hx Hne. apply Z.eqb_neq. intros <-. lia. }
  rewrite (proj2 (reads_index s Hs k Hk)). cbn [rbind]. rewrite (index_bit s Hs k Hk), negb_involutive by done.
  unfold bit. rewrite Hw. destruct (Z.testbit _ j) eqn:E.
  - destruct (stored_word s Hs k Hk j Hj E) as (l & El & Hb & Hrk & Ho & Hv & Hne). rewrite (proj2 (reads_entry s Hs k Hk)), El. cbn [rbind unwrap_unchecked].
    assert (Hu : in_u 64 (word_at s (64 * k + j))) by (rewrite word_here, El by done; by apply wordof_u64).
    rewrite Hrk, unchecked_ok by done. cbn [rbind]. rewrite Hv, has_word, negb_involutive by done. eexists. split; [done|].
    eapply Hmark; [|reflexivity]. apply update_ok; [done..| |by intros [? _]%Z.lor_eq_0_iff].
    apply in_u_lor; [lia|done|apply (wrapu_range 64); lia].
  - destruct (insert_word_ok s Hs k Hk j (word_bit r) Hj E) as (s' & Es & Hset); [apply (wrapu_range 64); lia|rewrite word_bit_pow by done; pose proof (Z.pow_pos_nonneg 2 r); lia|].
    rewrite Es. cbn [rbind]. rewrite (unstored_word s k j Hj E), Z.testbit_0_l. exists s'. split; [done|]. apply (Hmark s' 0); [done|].
    symmetry. by apply unstored_word.
Qed.

Lemma set_ok s i : inv s -> 0 <= i < size s -> exists s', set s i = Ok s' /\ marks true s s' (Z.eqb i).
Proof. intros Hs Hi. unfold set. destruct (get_and_set_ok s i Hs Hi) as (s' & -> & M). by exists s'. Qed.

Lemma clear_ok s i : inv s -> 0 <= i < size s -> exists s', clear s i = Ok s' /\ marks false s s' (Z.eqb i).
Proof.
  intros Hs Hi. unfold clear, check. destruct (Z.leb_spec (size s) i); [lia|]. cbn [rbind].
  destruct (split_index i ltac:(lia)) as (-> & -> & ->). pose proof (index_block s i Hs Hi) as Hk.
  pose proof (Z.mod_pos_bound i 64 ltac:(lia)) as Hr. pose proof (Z.mod_pos_bound (i / 64) 64 ltac:(lia)) as Hj. rewrite mask_one by done.
  destruct (word_mark_ok false s (i / 64 / 64) ((i / 64) mod 64) (i mod 64) (i mod 64)) as (s' & E & M); [done|done|done|lia|lia|].
  exists s'. split; [exact E|]. eapply marks_ext; [exact M|]. intros x Hx. pose proof (word_addr (i / 64)). pose proof (Z.div_mod i 64 ltac:(lia)).
  unfold within. bool_lia.
Qed.

Lemma or_iter_ok docs : forall s, inv s -> Forall (fun d => 0 <= d < size s) docs ->
  exists s', or_iter s docs = Ok s' /\ marks true s s' (fun i => existsb (fun d => d =? i) docs).
Proof.
  intros s Hs Hd. apply (fold_marks true set Z.eqb (size s)); [|done|done].
  intros s0 x Hs0 Hn Hx. apply set_ok; [done|]. rewrite Hn. by apply (proj1 (List.Forall_forall _ _) Hd).
Qed.

(** ** Union. *)
Lemma or_block_ok other oi ol k fuel : inv other -> 0 <= k < block_count (size other) -> oi = at0 (indices other) k -> block_at other k = Some ol ->
  forall s idx p, inv s -> 0 <= k < block_count (size s) -> 0 <= p -> 64 - p <= Z.of_nat fuel -> in_u 64 idx ->
  (forall j, 0 <= j -> Z.testbit idx j = (p <=? j) && Z.testbit oi j) ->
  exists s', or_block fuel s k ol idx (stored_before oi p) = Ok s' /\
    marks true s s' (fun i => (i / 4096 =? k) && (p <=? (i / 64) mod 64) && bit other i).
Proof.
  intros Ho Hk -> Hol. destruct (inv_blocks _ Ho k Hk) as [Hb _]. rewrite Hol in Hb. cbn [stored] in Hb. set (oi := at0 (indices other) k) in *.
  induction fuel as [|fuel IH]; intros s idx p Hs Hks Hp Hfuel Hu Hidx; cbn [or_block].
  { exists s. split; [done|]. eapply marks_ext; [by apply marks_none|]. intros i Hi. pose proof (Z.mod_pos_bound (i / 64) 64 ltac:(lia)).
    destruct (Z.leb_spec p ((i / 64) mod 64)); [lia|]. by rewrite andb_false_r. }
  assert (Hoff : forall i, 0 <= i -> i / 4096 = k -> i / 64 = 64 * k + (i / 64) mod 64).
  { intros i Hi <-. rewrite <- (word_addr (i / 64)) at 1. by rewrite Z.div_div. }
  destruct (Z.eqb_spec idx 0) as [->|Hne].
  { exists s. split; [done|]. eapply marks_ext; [by apply marks_none|]. intros i Hi. destruct (Z.eqb_spec (i / 4096) k) as [E|]; [|done].
    pose proof (Z.mod_pos_bound (i / 64) 64 ltac:(lia)) as Hm. specialize (Hidx _ (proj1 Hm)). rewrite Z.testbit_0_l in Hidx. cbn [andb].
    destruct (p <=? _); [|done]. cbn [andb] in *. unfold bit. rewrite (Hoff i Hi E), word_here by done. unfold wordof. fold oi. by rewrite <- Hidx, Z.testbit_0_l. }
  destruct (trailing_zeros_spec 64 idx Hu Hne) as (Ht & Htb & Hlow). set (j := trailing_zeros 64 idx) in *.
  assert (Hpj : p <= j /\ Z.testbit oi j = true).
  { rewrite Hidx in Htb by lia. apply andb_true_iff in Htb as [H1%Z.leb_le H2]. done. }
  destruct Hpj as [Hpj Hoj].
  assert (Hsame : stored_before oi p = stored_before oi j).
  { unfold stored_before. replace (Z.to_nat j) with (Z.to_nat p + Z.to_nat (j - p))%nat by lia. rewrite count_app, (count_false _ (0 + _)); [lia|].
    intros i Hi. specialize (Hidx i ltac:(lia)). rewrite Hlow in Hidx by lia. destruct (Z.leb_spec p i); [done|lia]. }
  destruct (stored_word other Ho k Hk j Ht Hoj) as (l & El & _ & _ & Hol' & Hv & _). fold oi in Hol', Hv. assert (l = ol) as -> by congruence.
  rewrite Hsame, index_ok by done. cbn [rbind]. rewrite Hv.
  assert (Hwu : in_u 64 (word_at other (64 * k + j))) by (rewrite word_here, Hol by done; by apply wordof_u64).
  destruct (or_long_ok s Hs k Hks j _ Ht Hwu) as (s1 & E1 & Hset). rewrite E1. cbn [rbind].
  assert (M1 : marks true s s1 (fun i => (i / 64 =? 64 * k + j) && bit other i)).
  { apply (word_marks true _ _ _ _ _ Hset); [lia| |].
    - intros r Hr. rewrite Z.lor_spec. unfold bit. destruct (word_of_unique (64 * (64 * k + j) + r) (64 * k + j) r) as [-> ->]; [done|done|]. by rewrite Z.eqb_refl.
    - intros i _ Hi. by destruct (Z.eqb_spec (i / 64) (64 * k + j)). }
  assert (Hn1 := M1). destruct Hn1 as (I1 & N1 & _).
  rewrite <- (Z.add_0_r (stored_before oi j + 1)). replace (stored_before oi j + 1 + 0) with (stored_before oi (j + 1)) by (rewrite stored_S, Hoj by lia; cbn; lia).
  destruct (IH s1 (Z.land idx (idx - 1)) (j + 1)) as (s2 & E2 & M2); [done|by rewrite N1|lia|lia| | |].
  - apply in_u_land; [lia|done|]. destruct Hu; lia.
  - intros i Hi. rewrite (clear_lowest idx j i) by (done || lia || apply Hu). destruct (Z.eqb_spec i j) as [->|]; [destruct (Z.leb_spec (j + 1) j); [lia|]; by rewrite ?andb_false_r|].
    rewrite Hidx by done. cbn [negb]. rewrite andb_true_r. destruct (Z.leb_spec p i), (Z.leb_spec (j + 1) i); try lia; cbn [andb]; try done.
    specialize (Hidx i Hi). rewrite Hlow in Hidx by lia. destruct (Z.leb_spec p i); [|lia]. by symmetry.
  - exists s2. split; [done|]. eapply marks_ext; [exact (marks_trans _ _ _ _ _ _ M1 M2)|]. intros i Hi. cbn beta.
    pose proof (Z.mod_pos_bound (i / 64) 64 ltac:(lia)) as Hm. destruct (Z.eqb_spec (i / 4096) k) as [E|E]; cbn [andb orb].
    + rewrite (Hoff i Hi E) at 1. destruct (Z.eqb_spec (64 * k + (i / 64) mod 64) (64 * k + j)), (Z.leb_spec (j + 1) ((i / 64) mod 64)), (Z.leb_spec p ((i / 64) mod 64)); try lia; cbn [andb orb]; rewrite ?orb_false_r; try done.
      specialize (Hidx _ (proj1 Hm)). rewrite Hlow in Hidx by lia. destruct (Z.leb_spec p ((i / 64) mod 64)); [|lia]. cbn [andb] in Hidx.
      unfold bit. rewrite (Hoff i Hi E), word_here by done. unfold wordof. fold oi. by rewrite <- Hidx, Z.testbit_0_l.
    + destruct (Z.eqb_spec (i / 64) (64 * k + j)) as [E'|]; [|done]. destruct E. change 4096 with (64 * 64). rewrite <- (Z.div_div i 64 64), E' by lia.
      symmetry. apply (Z.div_unique _ _ _ j); lia.
Qed.

Lemma or_step_ok other s k : inv other -> inv s -> 0 <= k < block_count (size other) -> 0 <= k < block_count (size s) ->
  exists s', or_step other s k = Ok s' /\ marks true s s' (fun i => (i / 4096 =? k) && bit other i).
Proof.
  intros Ho Hs Hk Hks. unfold or_step. rewrite (proj1 (reads_index other Ho k Hk)). cbn [rbind].
  destruct (inv_blocks _ Ho k Hk) as [Hb Hiff]. destruct (Z.eqb_spec (at0 (indices other) k) 0) as [E0|E0].
  - exists s. split; [done|]. eapply marks_ext; [by apply marks_none|]. intros i Hi. destruct (Z.eqb_spec (i / 4096) k) as [E|]; [|done].
    unfold bit, word_at. rewrite Z.div_div by lia. change (64 * 64) with 4096. rewrite E, E0. unfold wordof. by rewrite !Z.testbit_0_l.
  - rewrite (proj1 (reads_entry other Ho k Hk)). cbn [rbind]. destruct (block_at other k) as [ol|] eqn:El; [|by destruct E0; apply Hiff].
    cbn [expect rbind]. destruct (or_block_ok other _ ol k 64 Ho Hk eq_refl El s (at0 (indices other) k) 0) as (s' & E & M);
      [done|done|lia|lia|apply Hb| |].
    + intros j Hj. by destruct (Z.leb_spec 0 j); [|lia].
    + exists s'. split; [exact E|]. eapply marks_ext; [exact M|]. intros i Hi. cbn beta. pose proof (Z.mod_pos_bound (i / 64) 64 ltac:(lia)).
      destruct (Z.leb_spec 0 ((i / 64) mod 64)); [|lia]. by rewrite andb_true_r.
Qed.

Lemma or_ok s other : inv s -> inv other -> size other <= size s ->
  exists s', or s other = Ok s' /\ marks true s s' (bit other).
Proof.
  intros Hs Ho Hle. unfold or. rewrite (inv_indices _ Ho), (inv_indices _ Hs).
  pose proof (block_count_spec _ (inv_size _ Hs)). pose proof (block_count_spec _ (inv_size _ Ho)). rewrite Z.min_l by lia.
  destruct (fold_marks true (or_step other) (fun k i => (i / 4096 =? k) && bit other i) (size s) (between 0 (block_count (size other)))) with (s := s)
    as (s' & E & M); [|done|done|].
  - intros s0 x Hs0 Hn Hx%in_between. apply or_step_ok; [done..|rewrite Hn; lia].
  - exists s'. split; [done|]. eapply marks_ext; [exact M|]. intros i Hi. apply Bool.eq_iff_eq_true. rewrite existsb_exists.
    setoid_rewrite andb_true_iff. setoid_rewrite in_between. split; [by intros (x & _ & _ & ?)|].
    intros Hb. exists (i / 4096). rewrite Z.eqb_refl. split; [|done]. split; [by apply Z.div_pos; lia|].
    destruct (Z.lt_ge_cases (i / 4096) (block_count (size other))) as [|Hge]; [done|]. rewrite bit_absent in Hb; [done|done|].
    pose proof (Z.div_mod i 4096 ltac:(lia)). pose proof (Z.mod_pos_bound i 4096 ltac:(lia)). nia.
Qed.

(** ** Words. *)
Lemma word_ok s w : inv s -> 0 <= w < 64 * block_count (size s) -> word s w = Ok (word_at s w).
Proof.
  intros Hs Hw. unfold word. rewrite land_63, Z.shiftr_div_pow2 by lia. change (2 ^ 6) with 64.
  assert (Hk : 0 <= w / 64 < block_count (size s)) by (split; [by apply Z.div_pos; lia|apply Z.div_lt_upper_bound; lia]).
  pose proof (Z.mod_pos_bound w 64 ltac:(lia)) as Hj. rewrite (proj1 (reads_index s Hs _ Hk)). cbn [rbind]. rewrite (index_bit s Hs _ Hk) by done.
  destruct (Z.testbit _ (w mod 64)) eqn:E; cbn [negb].
  - destruct (stored_word s Hs _ Hk _ Hj E) as (l & El & _ & Hrk & Ho & Hv & _). rewrite (proj1 (reads_entry s Hs _ Hk)), El. cbn [rbind expect].
    rewrite Hrk, index_ok by done. by rewrite Hv, word_addr.
  - by rewrite <- (word_addr w), (unstored_word s _ _ Hj E).
Qed.

Lemma word_bits s w r : 0 <= r < 64 -> Z.testbit (word_at s w) r = bit s (64 * w + r).
Proof. intros Hr. unfold bit. destruct (word_of_unique (64 * w + r) w r) as [-> ->]; (done || lia). Qed.

(** ** Searches. *)
Lemma first_skip P lo mid hi r : (forall x, lo <= x < mid -> P x = false) -> lo <= mid -> first P mid hi r -> first P lo hi r.
Proof.
  intros Hc Hle Hf. destruct r as [j|]; cbn [first] in *.
  - destruct Hf as (H1 & H2 & H3). split; [lia|]. split; [done|]. intros x Hx. destruct (Z.ltb_spec x mid); [apply Hc|apply H3]; lia.
  - intros x Hx. destruct (Z.ltb_spec x mid); [apply Hc|apply Hf]; lia.
Qed.

Lemma last_skip P hi mid r : (forall x, mid < x <= hi -> P x = false) -> mid <= hi -> last P mid r -> last P hi r.
Proof.
  intros Hc Hle Hf. destruct r as [j|]; cbn [last] in *.
  - destruct Hf as (H1 & H2 & H3). split; [lia|]. split; [done|]. intros x Hx. destruct (Z.ltb_spec mid x); [apply Hc|apply H3]; lia.
  - intros x Hx. destruct (Z.ltb_spec mid x); [apply Hc|apply Hf]; lia.
Qed.

Lemma address k j t : 0 <= k -> 0 <= j < 64 -> 0 <= t < 64 -> Z.lor (Z.lor (Z.shiftl k 12) (Z.shiftl j 6)) t = 4096 * k + 64 * j + t.
Proof.
  intros Hk Hj Ht. assert (E1 : Z.lor (Z.shiftl k 12) (Z.shiftl j 6) = 64 * (64 * k + j)).
  { change (Z.shiftl k 12) with (Z.shiftl k (6 + 6)). rewrite <- Z.shiftl_shiftl, <- Z.shiftl_lor by lia.
    rewrite (word_index k j) by done. by rewrite Z.shiftl_mul_pow2, Z.mul_comm by lia. }
  rewrite E1. replace (64 * (64 * k + j)) with (Z.shiftl (64 * k + j) 6) by (rewrite Z.shiftl_mul_pow2 by lia; lia).
  rewrite word_index by done. lia.
Qed.

(** The bits of one word, from [r] up and from the top down. *)
Lemma word_scan P base v r : in_u 64 v -> 0 <= r < 64 -> (forall i, 0 <= i < 64 -> P (base + i) = Z.testbit v i) ->
  if Z.shiftr v r =? 0 then forall x, base + r <= x < base + 64 -> P x = false
  else 0 <= trailing_zeros 64 (Z.shiftr v r) /\ first P (base + r) (base + 64) (Some (base + r + trailing_zeros 64 (Z.shiftr v r))).
Proof.
  intros Hv Hr HP. assert (Hb : forall x, base + r <= x < base + 64 -> P x = Z.testbit (Z.shiftr v r) (x - base - r)).
  { intros x Hx. rewrite Z.shiftr_spec by lia. rewrite <- HP by lia. f_equal; lia. }
  assert (Hu : in_u 64 (Z.shiftr v r)) by (apply (in_u_bits 64); [lia|by apply Z.shiftr_nonneg, Hv|intros i Hi; rewrite Z.shiftr_spec by lia; apply (testbit_above 64); [done|lia]]).
  destruct (Z.eqb_spec (Z.shiftr v r) 0) as [E|E]; [intros x Hx; by rewrite Hb, E, Z.testbit_0_l|].
  destruct (trailing_zeros_spec 64 _ Hu E) as (Ht & Htb & Hlow). set (t := trailing_zeros 64 (Z.shiftr v r)) in *.
  assert (Hrt : r + t < 64).
  { destruct (Z.lt_ge_cases (r + t) 64); [done|]. rewrite Z.shiftr_spec, (testbit_above 64) in Htb by (done || lia). done. }
  split; [lia|]. split; [lia|]. split; [rewrite Hb by lia; by replace (base + r + t - base - r) with t by lia|].
  intros x Hx. rewrite Hb by lia. apply Hlow. lia.
Qed.

Lemma word_scan_back P base v : in_u 64 v -> v <> 0 -> 0 <= base -> (forall i, 0 <= i < 64 -> P (base + i) = Z.testbit v i) ->
  0 <= 63 - leading_zeros 64 v < 64 /\ last P (base + 63) (Some (base + (63 - leading_zeros 64 v))).
Proof.
  intros Hv Hne Hb HP. destruct (leading_zeros_log2 64 v Hv Hne) as [E Hr]. replace (63 - leading_zeros 64 v) with (Z.log2 v) by lia.
  destruct (log2_bits v ltac:(destruct Hv; lia)) as [H1 H2]. split; [lia|]. split; [lia|]. split; [by rewrite HP|].
  intros x Hx. replace x with (base + (x - base)) by lia. rewrite HP by lia. apply H2. lia.
Qed.

Section searching.
Context (s : t) (Hs : inv s).
Notation nblocks := (block_count (size s)).
Notation index k := (at0 (indices s) k).

Lemma bits_of_word w i : 0 <= i < 64 -> bit s (64 * w + i) = Z.testbit (word_at s w) i.
Proof. intros Hi. by rewrite word_bits. Qed.

(** Words a block does not store are clear. *)
Lemma unstored_clear k a b : 0 <= k -> 0 <= a -> b <= 64 -> (forall j, a <= j < b -> Z.testbit (index k) j = false) ->
  forall x, 64 * (64 * k + a) <= x < 64 * (64 * k + b) -> bit s x = false.
Proof.
  intros Hk Ha Hb Hj x Hx. unfold bit. pose proof (Z.div_mod x 64 ltac:(lia)). pose proof (Z.mod_pos_bound x 64 ltac:(lia)).
  replace (x / 64) with (64 * k + (x / 64 - 64 * k)) by lia. rewrite unstored_word; [apply Z.testbit_0_l|lia|apply Hj; lia].
Qed.

(** The first stored word at or after position [j]. *)
Lemma next_stored k j o : 0 <= k < nblocks -> 0 <= j < 64 -> Z.testbit (index k) j = true -> o = stored_before (index k) j ->
  exists l, block_at s k = Some l /\ index_at l o = Ok (word_at s (64 * k + j)) /\
    in_u 64 (word_at s (64 * k + j)) /\ word_at s (64 * k + j) <> 0.
Proof.
  intros Hk Hj E ->. destruct (stored_word s Hs k Hk j Hj E) as (l & El & Hb & _ & Ho & Hv & Hne). exists l.
  rewrite index_ok, Hv by done. split; [done|]. split; [done|]. split; [|done]. rewrite word_here, El by done. by apply wordof_u64.
Qed.

Lemma entry_read k : 0 <= k < nblocks -> index_at (bits s) k = Ok (block_at s k).
Proof. intros Hk. apply (reads_entry s Hs k Hk). Qed.
Lemma index_read k : 0 <= k < nblocks -> index_at (indices s) k = Ok (index k).
Proof. intros Hk. apply (reads_index s Hs k Hk). Qed.
Lemma index_u64 k : 0 <= k < nblocks -> in_u 64 (index k).
Proof. intros Hk. apply (has_block s Hs k Hk). Qed.

(** The lowest bit of a word known not to be zero. *)
Lemma lowest_in_word k j : in_u 64 (word_at s (64 * k + j)) -> word_at s (64 * k + j) <> 0 -> 0 <= k -> 0 <= j < 64 ->
  first (bit s) (64 * (64 * k + j)) (64 * (64 * k + j) + 64)
    (Some (Z.lor (Z.lor (Z.shiftl k 12) (Z.shiftl j 6)) (trailing_zeros 64 (word_at s (64 * k + j))))).
Proof.
  intros Hu Hne Hk Hj. pose proof (word_scan (bit s) (64 * (64 * k + j)) _ 0 Hu ltac:(lia) (fun i Hi => bits_of_word _ i Hi)) as H.
  rewrite Z.shiftr_0_r, Z.add_0_r in H. destruct (Z.eqb_spec (word_at s (64 * k + j)) 0); [done|]. destruct H as [H0 H]. assert (Hf := H). destruct H as (H1 & _).
  rewrite address by lia. replace (4096 * k + 64 * j) with (64 * (64 * k + j)) by lia. done.
Qed.

Lemma first_doc_ok n : forall k, 0 <= k -> k + Z.of_nat n <= nblocks ->
  exists r, first_doc n s k = Ok r /\ first (bit s) (4096 * k) (4096 * (k + Z.of_nat n)) r.
Proof.
  induction n as [|n IH]; intros k Hk Hn; cbn [first_doc]; [exists None; split; [done|intros x Hx; lia]|].
  rewrite index_read by lia. cbn [rbind]. destruct (Z.eqb_spec (index k) 0) as [E0|E0]; cbn [negb].
  - destruct (IH (k + 1)) as (r & E & Hf); [lia|lia|]. exists r. split; [done|].
    replace (k + Z.of_nat (Datatypes.S n)) with (k + 1 + Z.of_nat n) by lia. apply (first_skip _ _ (4096 * (k + 1))); [|lia|done].
    intros x Hx. apply (unstored_clear k 0 64); [lia..| |lia]. intros j Hj. by rewrite E0, Z.testbit_0_l.
  - destruct (trailing_zeros_spec 64 _ (index_u64 k ltac:(lia)) E0) as (Ht & Htb & Hlow). set (j := trailing_zeros 64 (index k)) in *.
    destruct (next_stored k j 0) as (l & El & Ei & Hu & Hne); [lia|done|done|symmetry; apply count_false; intros; apply Hlow; lia|].
    rewrite entry_read, El by lia. cbn [rbind expect]. rewrite Ei. cbn [rbind]. eexists. split; [done|].
    apply (first_skip _ _ (64 * (64 * k + j))); [|lia|].
    + intros x Hx. apply (unstored_clear k 0 j); [lia..|intros; apply Hlow; lia|lia].
    + pose proof (lowest_in_word k j Hu Hne ltac:(lia) Ht) as (H1 & H2 & H3). split; [lia|done].
Qed.

(** The index bits above position [j]. *)
Lemma after_word k j : 0 <= k < nblocks -> 0 <= j < 64 ->
  let above := Z.shiftr (Z.shiftr (index k) j) 1 in
  if above =? 0 then forall i, j + 1 <= i < 64 -> Z.testbit (index k) i = false
  else
    let j' := j + (1 + trailing_zeros 64 above) in
    j < j' < 64 /\ Z.testbit (index k) j' = true /\ (forall i, j + 1 <= i < j' -> Z.testbit (index k) i = false) /\
    (if Z.testbit (index k) j then stored_before (index k) j + 1 else stored_before (index k) j) = stored_before (index k) j'.
Proof.
  intros Hk Hj above. assert (Habove : forall i, j + 1 <= i -> Z.testbit (index k) i = Z.testbit above (i - (j + 1))).
  { intros i Hi. unfold above. rewrite !Z.shiftr_spec by lia. f_equal. lia. }
  assert (Hau : in_u 64 above).
  { apply (in_u_bits 64); [lia|apply Z.shiftr_nonneg, Z.shiftr_nonneg, (index_u64 k Hk)|]. intros i Hi. unfold above. rewrite !Z.shiftr_spec by lia.
    apply (testbit_above 64); [by apply index_u64|lia]. }
  destruct (Z.eqb_spec above 0) as [Ea|Ea]; [intros i Hi; rewrite Habove, Ea by lia; apply Z.testbit_0_l|].
  destruct (trailing_zeros_spec 64 _ Hau Ea) as (Ht & Htb & Hlow). set (t0 := trailing_zeros 64 above) in *. cbv zeta. set (j' := j + (1 + t0)).
  assert (Htj : Z.testbit (index k) j' = true) by (rewrite Habove by (unfold j'; lia); by replace (j' - (j + 1)) with t0 by (unfold j'; lia)).
  assert (Hclear : forall i, j + 1 <= i < j' -> Z.testbit (index k) i = false) by (intros i Hi; rewrite Habove by lia; apply Hlow; unfold j' in Hi; lia).
  split; [|split; [done|split; [done|]]].
  - split; [unfold j'; lia|]. destruct (Z.lt_ge_cases j' 64); [done|]. rewrite (testbit_above 64) in Htj; [done|by apply index_u64|done].
  - assert (stored_before (index k) j' = stored_before (index k) (j + 1)) as ->.
    { unfold stored_before. replace (Z.to_nat j') with (Z.to_nat (j + 1) + Z.to_nat t0)%nat by (unfold j'; lia). rewrite count_app, (count_false _ (0 + _)); [lia|].
      intros i Hi. apply Hclear. unfold j'. lia. }
    rewrite stored_S by lia. destruct (Z.testbit (index k) j); cbn; lia.
Qed.

Lemma next_in_range_ok start ub : 0 <= start -> ub <= size s ->
  exists r, next_set_bit_in_range s start ub = Ok r /\ first (bit s) start ub r.
Proof.
  intros Hst Hub. unfold next_set_bit_in_range. destruct (Z.leb_spec ub start); [exists None; split; [done|intros x Hx; lia]|].
  destruct (split_index start Hst) as (-> & -> & ->). pose proof (index_block s start Hs ltac:(lia)) as Hk. set (k := start / 64 / 64) in *. set (j := (start / 64) mod 64).
  assert (Hj : 0 <= j < 64) by (apply Z.mod_pos_bound; lia). assert (Hw : start / 64 = 64 * k + j) by (symmetry; apply word_addr).
  pose proof (Z.mod_pos_bound start 64 ltac:(lia)) as Hr. set (r := start mod 64) in *.
  assert (Hsr : start = 64 * (64 * k + j) + r) by (rewrite <- Hw; unfold r; by apply Z.div_mod).
  rewrite index_read by done. cbn [rbind]. cbv zeta. rewrite (index_bit s Hs k Hk), negb_involutive by done. rewrite rank_spec by (done || by apply index_u64).
  set (w := word_at s (64 * k + j)). assert (Hu : in_u 64 w) by (apply word_u64; [done|lia]).
  pose proof (word_scan (bit s) (64 * (64 * k + j)) w r Hu Hr (fun i Hi => bits_of_word _ i Hi)) as Hscan. rewrite <- Hsr in Hscan.
  match goal with |- context [rbind (if ?c then ?a else ?b) _] => assert ((if c then a else b) = Ok (Z.shiftr w r)) as -> end.
  { destruct (Z.testbit (index k) j) eqn:E.
    - destruct (next_stored k j _ Hk Hj E eq_refl) as (l & El & Ei & _). rewrite entry_read, El by done. cbn [rbind expect]. by rewrite Ei.
    - unfold w. rewrite (unstored_word s k j Hj E). by rewrite Z.shiftr_0_l. }
  cbn [rbind]. destruct (Z.eqb_spec (Z.shiftr w r) 0) as [E0|E0]; cbn [negb].
  2:{ destruct Hscan as [H0 Hf]. eexists. split; [done|]. unfold then_some. set (x := start + trailing_zeros 64 (Z.shiftr w r)) in *. destruct Hf as (F1 & F2 & F3).
      destruct (Z.ltb_spec x ub); [split; [lia|done]|]. intros y Hy. apply F3. lia. }
  pose proof (after_word k j Hk Hj) as Hafter. cbv zeta in Hafter. set (above := Z.shiftr (Z.shiftr (index k) j) 1) in *.
  assert (Hfinal : forall m r', first (bit s) (64 * (64 * k + j) + 64) m r' -> ub <= m ->
    first (bit s) start ub (match r' with Some x => then_some (x <? ub) x | None => None end)).
  { intros m r' Hf Hm. eapply first_filter in Hf; [|exact Hm]. unfold then_some. destruct r' as [x|]; [destruct (x <? ub)|]; (apply (first_skip _ _ (64 * (64 * k + j) + 64)); [intros; apply Hscan; lia|lia|done]). }
  destruct (Z.eqb_spec above 0) as [Ea|Ea].
  - set (upper := if ub =? size s then _ else _). pose proof (block_count_spec _ (inv_size _ Hs)) as Hbc.
    assert (Hup : upper <= nblocks /\ ub <= 4096 * upper).
    { unfold upper. rewrite (inv_indices _ Hs). destruct (Z.eqb_spec ub (size s)); [lia|]. pose proof (block_count_spec ub ltac:(lia)). split; [|lia]. lia. }
    destruct (first_doc_ok (Z.to_nat (upper - (k + 1))) (k + 1)) as (r' & E & Hf); [lia|lia|]. rewrite E. cbn [rbind]. eexists. split; [done|].
    apply (Hfinal (4096 * (k + 1 + Z.of_nat (Z.to_nat (upper - (k + 1)))))); [|lia].
    apply (first_skip _ _ (4096 * (k + 1))); [|lia|done]. intros x Hx. apply (unstored_clear k (j + 1) 64); [lia..| |lia].
    exact Hafter.
  - set (j' := j + (1 + trailing_zeros 64 above)) in *. destruct Hafter as (Hj' & Htb & Hclear & Hrank).
    destruct (next_stored k j' (if Z.testbit (index k) j then stored_before (index k) j + 1 else stored_before (index k) j)) as (l & El & Ei & Hu' & Hne'); [done|lia|done|done|].
    rewrite entry_read, El by done. cbn [rbind expect]. rewrite Ei. cbn [rbind]. eexists. split; [done|].
    pose proof (block_count_spec _ (inv_size _ Hs)) as Hbc.
    refine (Hfinal (Z.max ub (64 * (64 * k + j') + 64)) (Some _) _ _); [|lia]. apply (first_skip _ _ (64 * (64 * k + j'))); [|lia|].
    + intros x Hx. apply (unstored_clear k (j + 1) j'); [lia..|exact Hclear|lia].
    + pose proof (lowest_in_word k j' Hu' Hne' ltac:(lia) ltac:(lia)) as (F1 & F2 & F3). split; [lia|done].
Qed.

Lemma next_set_bit_ok i : 0 <= i -> exists r, next_set_bit s i = Ok r /\ first (bit s) i (size s) r.
Proof.
  intros Hi. unfold next_set_bit. destruct (Z.leb_spec (size s) i); [exists None; split; [done|intros x Hx; lia]|]. by apply next_in_range_ok.
Qed.

Lemma last_doc_ok n : Z.of_nat n <= nblocks ->
  exists r, last_doc n s (Z.of_nat n - 1) = Ok r /\ last (bit s) (4096 * Z.of_nat n - 1) r.
Proof.
  induction n as [|n IH]; intros Hn; cbn [last_doc]; [exists None; split; [done|intros x Hx; lia]|].
  replace (Z.of_nat (Datatypes.S n) - 1) with (Z.of_nat n) by lia. set (k := Z.of_nat n) in *. rewrite index_read by lia. cbn [rbind].
  destruct (Z.eqb_spec (index k) 0) as [E0|E0]; cbn [negb].
  - destruct (IH ltac:(lia)) as (r & E & Hf). exists r. split; [done|]. apply (last_skip _ _ (4096 * k - 1)); [|lia|done].
    intros x Hx. apply (unstored_clear k 0 64); [lia..| |lia]. intros j Hj. by rewrite E0, Z.testbit_0_l.
  - destruct (leading_zeros_log2 64 _ (index_u64 k ltac:(lia)) E0) as [El Hr]. set (j := 63 - leading_zeros 64 (index k)).
    destruct (log2_bits (index k)) as [Htb Hhigh]; [destruct (index_u64 k ltac:(lia)); lia|]. replace (Z.log2 (index k)) with j in * by (unfold j; lia).
    assert (Hcount : count_ones (index k) - 1 = stored_before (index k) j).
    { rewrite stored_all by (apply index_u64; lia). transitivity (stored_before (index k) (j + 1) - 1); [|rewrite stored_S, Htb by lia; cbn; lia].
      f_equal. unfold stored_before. replace (Z.to_nat 64) with (Z.to_nat (j + 1) + Z.to_nat (63 - j))%nat by lia. rewrite count_app, (count_false _ (0 + _)); [lia|].
      intros i Hi. apply Hhigh. lia. }
    destruct (next_stored k j _ ltac:(lia) Hr Htb Hcount) as (l & Eb & Ei & Hu & Hne). rewrite entry_read, Eb by lia. cbn [rbind expect]. rewrite Ei. cbn [rbind].
    eexists. split; [done|]. destruct (word_scan_back (bit s) (64 * (64 * k + j)) _ Hu Hne ltac:(lia) (fun i Hi => bits_of_word _ i Hi)) as [Hlz Hl].
    rewrite address by lia. replace (4096 * k + 64 * j) with (64 * (64 * k + j)) by lia. apply (last_skip _ _ (64 * (64 * k + j) + 63)); [|lia|done].
    intros x Hx. apply (unstored_clear k (j + 1) 64); [lia..|intros i Hi; apply Hhigh; lia|lia].
Qed.

(** The bits of [v] at or below [r]. *)
Lemma low_mask r : 0 <= r < 64 -> (if r =? 63 then MAX64 else shlu 64 1 (r + 1) - 1) = Z.ones (r + 1).
Proof.
  intros Hr. destruct (Z.eqb_spec r 63) as [->|]; [done|]. fold (word_bit (r + 1)). rewrite word_bit_pow by lia. rewrite Z.ones_equiv. lia.
Qed.

Lemma prev_set_bit_ok i : 0 <= i < size s -> exists r, prev_set_bit s i = Ok r /\ last (bit s) i r.
Proof.
  intros Hi. unfold prev_set_bit, check. destruct (Z.leb_spec (size s) i); [lia|]. cbn [rbind].
  destruct (split_index i ltac:(lia)) as (-> & -> & ->). pose proof (index_block s i Hs Hi) as Hk. set (k := i / 64 / 64) in *. set (j := (i / 64) mod 64).
  assert (Hj : 0 <= j < 64) by (apply Z.mod_pos_bound; lia). assert (Hw : i / 64 = 64 * k + j) by (symmetry; apply word_addr).
  pose proof (Z.mod_pos_bound i 64 ltac:(lia)) as Hr. set (r := i mod 64) in *.
  assert (Hsr : i = 64 * (64 * k + j) + r) by (rewrite <- Hw; unfold r; apply Z.div_mod; lia).
  rewrite index_read by done. cbn [rbind]. cbv zeta. rewrite (index_bit s Hs k Hk), negb_involutive by done. rewrite low_mask by done.
  set (w := word_at s (64 * k + j)). assert (Hu : in_u 64 w) by (apply word_u64; [done|lia]).
  fold (rank (index k) (word_bit j)). rewrite rank_spec by (done || by apply index_u64). set (low := Z.land (index k) (word_bit j - 1)).
  assert (Hlow : forall x, 0 <= x -> Z.testbit low x = (x <? j) && Z.testbit (index k) x).
  { intros x Hx. unfold low. rewrite word_bit_pow by done. replace (2 ^ j - 1) with (Z.ones j) by (rewrite Z.ones_equiv; lia).
    rewrite Z.land_spec, testbit_ones by lia. destruct (Z.leb_spec 0 x); [|lia]. apply andb_comm. }
  match goal with |- context [rbind (if ?c then ?a else ?b) _] => assert ((if c then a else b) = Ok (Z.land w (Z.ones (r + 1)))) as -> end.
  { destruct (Z.testbit (index k) j) eqn:E.
    - destruct (next_stored k j _ Hk Hj E eq_refl) as (l & El & Ei & _). rewrite entry_read, El by done. cbn [rbind expect]. by rewrite Ei.
    - unfold w. by rewrite (unstored_word s k j Hj E), Z.land_0_l. }
  cbn [rbind]. set (b := Z.land w (Z.ones (r + 1))).
  assert (Hb : forall x, 0 <= x -> Z.testbit b x = Z.testbit w x && (x <=? r)).
  { intros x Hx. unfold b. rewrite Z.land_spec, testbit_ones by lia. destruct (Z.leb_spec 0 x); [|lia]. f_equal. bool_lia. }
  assert (Hbu : in_u 64 b) by (apply in_u_land; [lia|done|rewrite Z.ones_equiv; pose proof (Z.pow_pos_nonneg 2 (r + 1)); lia]).
  destruct (Z.eqb_spec b 0) as [E0|E0]; cbn [negb].
  2:{ eexists. split; [done|]. destruct (word_scan_back (fun x => Z.testbit b (x - 64 * (64 * k + j))) (64 * (64 * k + j)) b Hbu E0 ltac:(lia)) as [Hz (F1 & F2 & F3)].
      { intros x Hx. f_equal. lia. }
      rewrite address by lia. replace (4096 * k + 64 * j) with (64 * (64 * k + j)) by lia. set (z := 63 - leading_zeros 64 b) in *.
      replace (64 * (64 * k + j) + z - 64 * (64 * k + j)) with z in F2 by lia. rewrite Hb in F2 by lia. apply andb_true_iff in F2 as [F2 F4%Z.leb_le].
      split; [lia|]. split; [by rewrite bits_of_word|]. intros x Hx. specialize (F3 x ltac:(lia)). rewrite Hb in F3 by lia.
      replace x with (64 * (64 * k + j) + (x - 64 * (64 * k + j))) by lia. rewrite bits_of_word by lia.
      destruct (Z.leb_spec (x - 64 * (64 * k + j)) r); [by rewrite andb_true_r in F3|lia]. }
  assert (Hhere : forall x, 64 * (64 * k + j) <= x <= i -> bit s x = false).
  { intros x Hx. replace x with (64 * (64 * k + j) + (x - 64 * (64 * k + j))) by lia. rewrite bits_of_word by lia. specialize (Hb (x - 64 * (64 * k + j)) ltac:(lia)).
    rewrite E0, Z.testbit_0_l in Hb. destruct (Z.leb_spec (x - 64 * (64 * k + j)) r); [by rewrite andb_true_r in Hb|lia]. }
  destruct (Z.eqb_spec low 0) as [El|El].
  - destruct (last_doc_ok (Z.to_nat k)) as (r' & E & Hf); [lia|]. rewrite Z2Nat.id in E, Hf by lia. exists r'. split; [done|].
    apply (last_skip _ _ (4096 * k - 1)); [|lia|done]. intros x Hx. destruct (Z.lt_ge_cases x (64 * (64 * k + j))); [|apply Hhere; lia].
    apply (unstored_clear k 0 j); [lia..| |lia]. intros y Hy. specialize (Hlow y ltac:(lia)). rewrite El, Z.testbit_0_l in Hlow. destruct (Z.ltb_spec y j); [done|lia].
  - assert (Hlu : in_u 64 low) by (apply in_u_land; [lia|by apply index_u64|rewrite word_bit_pow by done; pose proof (Z.pow_pos_nonneg 2 j); lia]).
    destruct (leading_zeros_log2 64 low Hlu El) as [Elz Hz]. set (j' := 63 - leading_zeros 64 low).
    destruct (log2_bits low) as [Htb Hhigh]; [destruct Hlu; lia|]. replace (Z.log2 low) with j' in * by (unfold j'; lia).
    rewrite Hlow in Htb by lia. apply andb_true_iff in Htb as [Hj'%Z.ltb_lt Htb].
    assert (Hclear : forall x, j' < x < j -> Z.testbit (index k) x = false).
    { intros x Hx. specialize (Hhigh x ltac:(lia)). rewrite Hlow in Hhigh by lia. destruct (Z.ltb_spec x j); [done|lia]. }
    destruct (next_stored k j' (stored_before (index k) j - 1)) as (l & Eb & Ei & Hu' & Hne'); [done|lia|done| |].
    { transitivity (stored_before (index k) (j' + 1) - 1); [|rewrite stored_S, Htb by lia; cbn; lia]. f_equal. unfold stored_before.
      replace (Z.to_nat j) with (Z.to_nat (j' + 1) + Z.to_nat (j - j' - 1))%nat by lia. rewrite count_app, (count_false _ (0 + _)); [lia|].
      intros x Hx. apply Hclear. lia. }
    rewrite entry_read, Eb by done. cbn [rbind expect]. rewrite Ei. cbn [rbind]. eexists. split; [done|].
    destruct (word_scan_back (bit s) (64 * (64 * k + j')) _ Hu' Hne' ltac:(lia) (fun i Hi => bits_of_word _ i Hi)) as [Hlz Hl].
    rewrite address by lia. replace (4096 * k + 64 * j') with (64 * (64 * k + j')) by lia. apply (last_skip _ _ (64 * (64 * k + j') + 63)); [|lia|done].
    intros x Hx. destruct (Z.lt_ge_cases x (64 * (64 * k + j))); [|apply Hhere; lia]. apply (unstored_clear k (j' + 1) j); [lia..|intros y Hy; apply Hclear; lia|lia].
Qed.

Notation clear_bit := (fun i => negb (bit s i)).

Lemma clear_loop_ok n : forall w from ub, 0 <= w -> w + Z.of_nat n <= 64 * nblocks -> 0 <= from < 64 -> ub <= 64 * (w + Z.of_nat n) ->
  (n = O -> from = 0) -> exists r, clear_loop n s w from ub = Ok r /\ first clear_bit (64 * w + from) ub r.
Proof.
  induction n as [|n IH]; intros w from ub Hw Hn Hf Hub H0; cbn [clear_loop]; [exists None; split; [done|intros x Hx; lia]|].
  rewrite land_63, Z.shiftr_div_pow2, Z.shiftl_mul_pow2 by lia. change (2 ^ 6) with 64.
  assert (Hk : 0 <= w / 64 < nblocks) by (split; [by apply Z.div_pos; lia|apply Z.div_lt_upper_bound; lia]).
  pose proof (Z.mod_pos_bound w 64 ltac:(lia)) as Hj. pose proof (word_addr w) as Ha. rewrite index_read by done. cbn [rbind]. rewrite (index_bit s Hs _ Hk) by done.
  assert (Hbits : forall i, 0 <= i < 64 -> bit s (64 * w + i) = Z.testbit (word_at s w) i) by (intros; by apply bits_of_word).
  destruct (Z.testbit (index (w / 64)) (w mod 64)) eqn:E; cbn [negb].
  - destruct (next_stored (w / 64) (w mod 64) _ Hk Hj E eq_refl) as (l & El & Ei & Hu & _). rewrite Ha in Ei, Hu.
    rewrite rank_spec by (done || by apply index_u64). rewrite entry_read, El by done. cbn [rbind expect]. rewrite Ei. cbn [rbind].
    set (c := Z.land (notu 64 (word_at s w)) (shlu 64 MAX64 from)).
    assert (Hc : forall i, 0 <= i < 64 -> Z.testbit c i = (from <=? i) && clear_bit (64 * w + i)).
    { intros i Hi. unfold c. rewrite Z.land_spec, testbit_notu, Hbits, testbit_shlu by lia. unfold MAX64. rewrite testbit_ones by lia.
      destruct (Z.ltb_spec i 64), (Z.leb_spec 0 i), (Z.leb_spec 0 (i - from)), (Z.ltb_spec (i - from) 64), (Z.leb_spec from i); try lia; cbn [andb];
        by rewrite ?andb_true_r, ?andb_false_r. }
    assert (Hcu : in_u 64 c) by (apply in_u_land; [lia|by apply in_u_notu|by apply (wrapu_range 64)]).
    destruct (Z.eqb_spec c 0) as [E0|E0].
    + destruct (IH (w + 1) 0 ub) as (r & Er & Hr); [lia|lia|lia|lia|done|]. exists r. split; [done|].
      destruct (Z.le_gt_cases ub (64 * (w + 1) + 0)).
      * destruct r as [x|]; [destruct Hr; lia|]. intros x Hx. specialize (Hc (x - 64 * w) ltac:(lia)). rewrite E0, Z.testbit_0_l in Hc.
        destruct (Z.leb_spec from (x - 64 * w)); [|lia]. by replace (64 * w + (x - 64 * w)) with x in Hc by lia.
      * apply (first_skip _ _ (64 * (w + 1) + 0)); [|lia|done]. intros x Hx. specialize (Hc (x - 64 * w) ltac:(lia)). rewrite E0, Z.testbit_0_l in Hc.
        destruct (Z.leb_spec from (x - 64 * w)); [|lia]. by replace (64 * w + (x - 64 * w)) with x in Hc by lia.
    + destruct (trailing_zeros_spec 64 c Hcu E0) as (Ht & Htb & Hlow). set (t0 := trailing_zeros 64 c) in *. rewrite Hc in Htb by lia.
      apply andb_true_iff in Htb as [Hft%Z.leb_le Htb]. eexists. split; [done|]. rewrite (Z.mul_comm w). unfold then_some.
      assert (Hbelow : forall x, 64 * w + from <= x < 64 * w + t0 -> clear_bit x = false).
      { intros x Hx. specialize (Hc (x - 64 * w) ltac:(lia)). rewrite Hlow in Hc by lia. destruct (Z.leb_spec from (x - 64 * w)); [|lia].
        by replace (64 * w + (x - 64 * w)) with x in Hc by lia. }
      destruct (Z.ltb_spec (64 * w + t0) ub); [split; [lia|done]|]. intros x Hx. apply Hbelow. lia.
  - eexists. split; [done|]. rewrite (Z.mul_comm w). unfold then_some. destruct (Z.ltb_spec (64 * w + from) ub); [|intros x Hx; lia].
    split; [lia|]. split; [|intros x Hx; lia]. rewrite Hbits by lia. rewrite <- Ha, (unstored_word s _ _ Hj E). by rewrite Z.testbit_0_l.
Qed.

Lemma next_clear_in_range_ok start ub : 0 <= start ->
  exists r, next_clear_bit_in_range s start ub = Ok r /\ first clear_bit start (Z.min ub (size s)) r.
Proof.
  intros Hst. unfold next_clear_bit_in_range. set (m := Z.min ub (size s)). destruct (Z.leb_spec m start); [exists None; split; [done|intros x Hx; lia]|].
  rewrite land_63, !Z.shiftr_div_pow2 by lia. change (2 ^ 6) with 64. pose proof (block_count_spec _ (inv_size _ Hs)) as Hbc.
  pose proof (Z.div_mod start 64 ltac:(lia)). pose proof (Z.mod_pos_bound start 64 ltac:(lia)). pose proof (Z.div_mod (m - 1) 64 ltac:(lia)).
  pose proof (Z.mod_pos_bound (m - 1) 64 ltac:(lia)). assert (m <= size s) by (unfold m; lia).
  destruct (clear_loop_ok (Z.to_nat ((m - 1) / 64 + 1 - start / 64)) (start / 64) (start mod 64) m) as (r & E & Hf); [apply Z.div_pos; lia|lia|lia|lia|lia|].
  exists r. split; [done|]. by replace (64 * (start / 64) + start mod 64) with start in Hf by lia.
Qed.
End searching.

(** ** Cardinality. *)
Lemma sum_app l k : sum_ones (l ++ k) = sum_ones l + sum_ones k.
Proof. induction l as [|x l IH]; cbn [app sum_ones]; [done|]. rewrite IH. lia. Qed.

Lemma sum_fold l a : fold_left Z.add (map count_ones l) a = a + sum_ones l.
Proof. revert a. induction l as [|x l IH]; intros a; cbn [map fold_left sum_ones]; [lia|]. rewrite IH. lia. Qed.

Lemma sum_zeros l : (forall j, 0 <= j -> at0 l j = 0) -> sum_ones l = 0.
Proof.
  induction l as [|x l IH]; intros H; cbn [sum_ones]; [done|]. rewrite IH.
  - specialize (H 0 ltac:(lia)). rewrite at0_cons in H by lia. cbn in H. by rewrite H.
  - intros j Hj. specialize (H (j + 1) ltac:(lia)). rewrite at0_cons in H by lia. destruct (Z.eqb_spec (j + 1) 0); [lia|].
    by replace (j + 1 - 1) with j in H by lia.
Qed.

Lemma take_next (l : list Z) o : 0 <= o < zlen l -> take (Z.to_nat (o + 1)) l = take (Z.to_nat o) l ++ [at0 l o].
Proof. intros Ho. rewrite Z2Nat.inj_add, Nat.add_1_r by lia. apply take_S_r. by apply at0_lookup. Qed.

Lemma block_sum s k n : inv s -> 0 <= k < block_count (size s) -> (n <= 64)%nat ->
  sum_ones (take (Z.to_nat (stored_before (at0 (indices s) k) (Z.of_nat n))) (stored (block_at s k))) = count (bit s) (4096 * k) (64 * n).
Proof.
  intros Hs Hk. induction n as [|n IH]; intros Hn; [by rewrite Nat.mul_0_r|].
  rewrite Nat.mul_succ_r, count_app, <- IH by lia. set (j := Z.of_nat n). replace (Z.of_nat (Datatypes.S n)) with (j + 1) by lia.
  replace (4096 * k + Z.of_nat (64 * n)) with (64 * (64 * k + j)) by lia. rewrite stored_S by lia.
  rewrite (count_word (bit s) (word_at s (64 * k + j)) (64 * k + j)); [|apply word_u64; [done|lia]|intros i Hi; by rewrite word_bits].
  destruct (Z.testbit (at0 (indices s) k) j) eqn:E; cbn [Z.b2z].
  - destruct (stored_word s Hs k Hk j ltac:(lia) E) as (l & El & _ & _ & Ho & Hv & _). rewrite El. cbn [stored].
    rewrite take_next, sum_app, Hv by done. cbn [sum_ones]. lia.
  - rewrite (unstored_word s k j ltac:(lia) E), !Z.add_0_r. cbn. lia.
Qed.

Lemma block_total s k : inv s -> 0 <= k < block_count (size s) -> sum_ones (stored (block_at s k)) = count (bit s) (4096 * k) 4096.
Proof.
  intros Hs Hk. destruct (inv_blocks _ Hs k Hk) as [Hb _]. set (l := stored (block_at s k)) in *. set (index := at0 (indices s) k) in *.
  assert (Hc : 0 <= count_ones index) by (rewrite stored_all by apply Hb; pose proof (stored_mono index 0 64); lia).
  rewrite <- (take_drop (Z.to_nat (count_ones index)) l), sum_app, (sum_zeros (drop _ _)).
  - rewrite Z.add_0_r, (stored_all _ (blk_index _ _ Hb)). change 64 with (Z.of_nat 64). unfold l, index. by rewrite (block_sum s k 64).
  - intros j Hj. rewrite at0_drop by lia. apply (blk_free _ _ Hb). lia.
Qed.

Lemma blocks_total s n : inv s -> Z.of_nat n <= block_count (size s) ->
  sum_ones (concat (omap id (take n (bits s)))) = count (bit s) 0 (4096 * n).
Proof.
  intros Hs. induction n as [|n IH]; intros Hn; [by rewrite Nat.mul_0_r|].
  rewrite Nat.mul_succ_r, count_app, <- IH by lia. rewrite Z.add_0_l. replace (Z.of_nat (4096 * n)) with (4096 * Z.of_nat n) by lia.
  rewrite <- block_total by (done || lia). assert (E : bits s !! n = Some (block_at s (Z.of_nat n))).
  { destruct (has_block s Hs (Z.of_nat n)) as (_ & _ & E); [lia|]. unfold zget in E. destruct (Z.ltb_spec (Z.of_nat n) 0); [lia|]. by rewrite Nat2Z.id in E. }
  rewrite (take_S_r _ _ _ E), omap_app. rewrite concat_app, sum_app. f_equal.
  destruct (block_at s (Z.of_nat n)); cbn; [by rewrite app_nil_r|done].
Qed.

(** No bit at or past the length: what every operation keeps. *)
Definition lawful (s : t) : Prop := inv s /\ forall i, size s <= i -> bit s i = false.

Lemma cardinality_ok s : lawful s -> cardinality s = count (bit s) 0 (Z.to_nat (size s)).
Proof.
  intros [Hs Hg]. unfold cardinality. rewrite sum_fold, Z.add_0_l. pose proof (block_count_spec _ (inv_size _ Hs)) as Hbc.
  rewrite <- (take_ge (bits s) (Z.to_nat (block_count (size s)))) at 1.
  - rewrite blocks_total by (done || lia). apply count_widen; [lia|]. intros i Hi. apply Hg. pose proof (inv_size _ Hs). lia.
  - pose proof (inv_bits _ Hs) as Hb. unfold zlen in Hb. lia.
Qed.

(** [s'] has length [n] and the members [f]. *)
Definition models (s : t) (n : Z) (f : Z -> bool) : Prop := lawful s /\ size s = n /\ forall i, 0 <= i -> bit s i = f i.

Lemma marks_models on s s' P : lawful s -> marks on s s' P -> (on = true -> forall i, size s <= i -> P i = false) ->
  models s' (size s) (fun i => if on then P i || bit s i else negb (P i) && bit s i).
Proof.
  intros [Hs Hg] (H1 & H2 & H3) Hp. pose proof (inv_size _ Hs). split; [split; [done|]|split; [done|]].
  - intros i Hi. rewrite H3, Hg by lia. destruct on; [|done]. by rewrite Hp by (done || lia).
  - intros i Hi. rewrite H3 by done. destruct on; btauto.
Qed.

Lemma eqb_past i n : i < n -> true = true -> forall j, n <= j -> (i =? j) = false.
Proof. intros Hi _ j Hj. apply Z.eqb_neq. lia. Qed.

(** What the structural check of the test framework accepts. *)
Lemma structure_ok ix : forall bs total, zlen ix = zlen bs ->
  (forall k, 0 <= k < zlen ix -> entry_ok (at0 ix k) (nth (Z.to_nat k) bs None)) -> structure_total ix bs total = Some (total + sum_ones ix).
Proof.
  induction ix as [|x ix IH]; intros [|b bs] total Hl He; rewrite ?zlen_cons, ?zlen_nil in Hl; cbn [structure_total sum_ones];
    [by rewrite Z.add_0_r|pose proof (zlen_nonneg bs); lia|pose proof (zlen_nonneg ix); lia|].
  assert (Htail : forall total, structure_total ix bs total = Some (total + sum_ones ix)).
  { intros tot. apply IH; [lia|]. intros k Hk. specialize (He (k + 1)). rewrite zlen_cons, at0_cons in He by lia.
    destruct (Z.eqb_spec (k + 1) 0); [lia|]. replace (k + 1 - 1) with k in He by lia.
    replace (Z.to_nat (k + 1)) with (Datatypes.S (Z.to_nat k)) in He by lia. apply He. lia. }
  specialize (He 0). rewrite zlen_cons, at0_cons in He by lia. change (Z.to_nat 0) with O in He. cbn [Z.eqb nth] in He. pose proof (zlen_nonneg ix). destruct (He ltac:(lia)) as [Hb _].
  destruct (Z.eqb_spec (count_ones x) 0) as [E|E]; [rewrite Htail, E; f_equal; lia|]. fold (stored b).
  pose proof (blk_size _ _ Hb). destruct (Z.ltb_spec (zlen (stored b)) (count_ones x)); [lia|].
  destruct (existsb _ _) eqn:Ex; [|rewrite Htail; f_equal; lia]. apply existsb_exists in Ex as (w & Hw & Hne). exfalso.
  apply list_elem_of_In, list_elem_of_lookup in Hw as [n Hn]. rewrite lookup_drop in Hn.
  assert (Hw0 : at0 (stored b) (Z.of_nat (Z.to_nat (count_ones x) + n)) = w) by (unfold at0; by rewrite Nat2Z.id, nth_lookup, Hn).
  rewrite (blk_free _ _ Hb) in Hw0 by lia. by rewrite <- Hw0 in Hne.
Qed.

Lemma check_structure_ok s : inv s -> check_structure s = true.
Proof.
  intros Hs. unfold check_structure. rewrite structure_ok.
  - rewrite (inv_total _ Hs). apply Z.eqb_eq. lia.
  - by rewrite (inv_indices _ Hs), (inv_bits _ Hs).
  - intros k Hk. rewrite (inv_indices _ Hs) in Hk. by apply (inv_blocks _ Hs).
Qed.

(** C17: the sparse set's operations: over any set the constructors and
    operations build, an index or range past the length panics before any
    unchecked read; any other operation answers without a panic or an
    undefined read and is the set operation it names, with the structure kept
    (ranges, blocks grown and shifted, words dropped when they empty, the
    union of a set no longer); and [cardinality] counts the members. *)
Theorem sparse_operations_are_safe_and_exact (s other : t) (i from to : Z) : lawful s -> lawful other -> size other <= size s -> 0 <= i -> 0 <= from ->
  (size s <= i -> get s i = Err Panic /\ get_and_set s i = Err Panic /\ set s i = Err Panic /\ clear s i = Err Panic) /\
  (i < size s -> get s i = Ok (bit s i) /\
    (exists s', get_and_set s i = Ok (bit s i, s') /\ set s i = Ok s' /\ models s' (size s) (fun j => (i =? j) || bit s j)) /\
    (exists s', clear s i = Ok s' /\ models s' (size s) (fun j => negb (i =? j) && bit s j))) /\
  (to <= size s ->
    (exists s', set_range s from to = Ok s' /\ models s' (size s) (fun j => within from (to - 1) j || bit s j)) /\
    (exists s', clear_range s from to = Ok s' /\ models s' (size s) (fun j => negb (within from (to - 1) j) && bit s j))) /\
  (from < to -> size s < to -> set_range s from to = Err Panic /\ clear_range s from to = Err Panic) /\
  (exists s', or s other = Ok s' /\ models s' (size s) (fun j => bit other j || bit s j)) /\
  models (clear_all s) (size s) (fun _ => false) /\
  cardinality s = count (bit s) 0 (Z.to_nat (size s)) /\ check_structure s = true.
Proof.
  intros Hs Ho Hle Hi Hf. assert (Hg := Hs). destruct Hg as [Hinv Hg]. split; [|split; [|split; [|split; [|split; [|split; [|split]]]]]].
  - intros Hge. unfold set, get_and_set, clear, get, check. destruct (Z.leb_spec (size s) i); [done|lia].
  - intros Hlt. rewrite get_ok by done. destruct (Z.leb_spec (size s) i); [lia|]. split; [done|]. split.
    + destruct (get_and_set_ok s i Hinv) as (s' & E & M); [lia|]. exists s'. split; [done|]. split; [unfold set; by rewrite E|].
      apply (marks_models true _ _ _ Hs M). by apply eqb_past.
    + destruct (clear_ok s i Hinv) as (s' & E & M); [lia|]. exists s'. split; [done|]. by apply (marks_models false _ _ _ Hs M).
  - intros Ht. split.
    + destruct (set_range_ok s from to Hinv Hf Ht) as (s' & E & M). exists s'. split; [done|]. apply (marks_models true _ _ _ Hs M).
      intros _ j Hj. unfold within. bool_lia.
    + destruct (clear_range_ok s from to Hinv Hf Ht) as (s' & E & M). exists s'. split; [done|]. by apply (marks_models false _ _ _ Hs M).
  - intros Hft Hgt. unfold set_range, clear_range. destruct (Z.leb_spec to from); [lia|]. destruct (Z.leb_spec to (size s)); [lia|].
    by rewrite andb_false_r.
  - destruct (or_ok s other Hinv (proj1 Ho) Hle) as (s' & E & M). exists s'. split; [done|]. apply (marks_models true _ _ _ Hs M).
    intros _ j Hj. apply Ho. lia.
  - destruct (clear_all_ok s Hinv) as (H1 & H2 & H3). split; [|by split]. by split.
  - by apply cardinality_ok.
  - by apply check_structure_ok.
Qed.

(** The sparse set's searches: [next_set_bit] and its ranged form answer
    the first member from an index, [prev_set_bit] the last at or before one,
    [next_clear_bit_in_range] the first non-member, and none of them faults. *)
Lemma sparse_searches_are_exact (s : t) (start upper_bound : Z) : lawful s -> 0 <= start ->
  (exists r, next_set_bit s start = Ok r /\ first (bit s) start (size s) r) /\
  (upper_bound <= size s -> exists r, next_set_bit_in_range s start upper_bound = Ok r /\ first (bit s) start upper_bound r) /\
  (start < size s -> exists r, prev_set_bit s start = Ok r /\ last (bit s) start r) /\
  (size s <= start -> prev_set_bit s start = Err Panic) /\
  (exists r, next_clear_bit_in_range s start upper_bound = Ok r /\ first (fun i => negb (bit s i)) start (Z.min upper_bound (size s)) r).
Proof.
  intros [Hs _] Hst. split; [by apply next_set_bit_ok|]. split; [intros; by apply next_in_range_ok|]. split; [intros; by apply prev_set_bit_ok|].
  split; [|by apply next_clear_in_range_ok]. intros H. unfold prev_set_bit, check. destruct (Z.leb_spec (size s) start); [done|lia].
Qed.

(** ** A concrete set: two blocks, the second of one word. *)
Lemma new_lawful n : 1 <= n -> exists s, new n = Ok s /\ lawful s /\ size s = n.
Proof. intros Hn. destruct (new_ok n Hn) as (s & E & Hi & Hz & Hb). exists s. split; [done|]. split; [|done]. split; [done|]. intros; apply Hb. Qed.

Lemma or_iter_lawful s docs : lawful s -> Forall (fun d => 0 <= d < size s) docs ->
  exists s', or_iter s docs = Ok s' /\ models s' (size s) (fun i => existsb (fun d => d =? i) docs || bit s i).
Proof.
  intros Hs Hd. destruct (or_iter_ok docs s (proj1 Hs) Hd) as (s' & E & M). exists s'. split; [done|]. apply (marks_models true _ _ _ Hs M).
  intros _ i Hi. destruct (existsb _ docs) eqn:E1; [|done]. apply existsb_exists in E1 as (d & Hin & ->%Z.eqb_eq).
  apply (proj1 (List.Forall_forall _ _) Hd) in Hin. lia.
Qed.

Definition sample : R t := let! s := new 5000 in or_iter s [3; 70; 64; 4100; 4].

Lemma sample_lawful : exists s, sample = Ok s /\ lawful s /\ size s = 5000.
Proof.
  unfold sample. destruct (new_lawful 5000) as (s & E & Hs & Hz); [lia|]. rewrite E. cbn [rbind].
  destruct (or_iter_lawful s [3; 70; 64; 4100; 4] Hs) as (s' & E' & Hs' & Hz' & _); [rewrite Hz; repeat (apply Forall_cons; [lia|]); by apply Forall_nil|].
  exists s'. split; [done|]. split; [done|]. lia.
Qed.

Lemma sparse_operations_are_safe_and_exact_witness :
  exists s, sample = Ok s /\ cardinality s = 5 /\ get s 70 = Ok true /\ get s 5000 = Err Panic /\
    (exists s', clear_range s 64 4101 = Ok s' /\ bit s' 3 = true /\ bit s' 4100 = false).
Proof.
  destruct sample_lawful as (s & E & Hs & Hz). exists s. split; [done|]. assert (E' : sample = Ok s) by done. vm_compute in E'.
  destruct (sparse_operations_are_safe_and_exact s s 5000 64 4101 Hs Hs (Z.le_refl _) ltac:(lia) ltac:(lia)) as (Hpast & _ & Hrange & _).
  split; [injection E' as <-; reflexivity|]. split; [injection E' as <-; reflexivity|]. split; [apply Hpast; lia|].
  destruct Hrange as [_ (s' & Ec & _ & _ & Hb)]; [lia|]. exists s'. split; [done|].
  split; (rewrite Hb by lia); injection E' as <-; reflexivity.
Defined.

Lemma sparse_searches_are_exact_witness :
  exists s, sample = Ok s /\ next_set_bit s 71 = Ok (Some 4100) /\ prev_set_bit s 4099 = Ok (Some 70) /\
    exists r, prev_set_bit s 4099 = Ok r /\ last (bit s) 4099 r.
Proof.
  destruct sample_lawful as (s & E & Hs & Hz). exists s. split; [done|]. assert (E' : sample = Ok s) by done. vm_compute in E'.
  split; [injection E' as <-; reflexivity|]. split; [injection E' as <-; reflexivity|].
  destruct (sparse_searches_are_exact s 4099 4100 Hs ltac:(lia)) as (_ & _ & Hp & _). apply Hp. lia.
Defined.
End SparseSpec.
