(* ===== verification/Bits.v ===== *)
(** * The [Bits] interface ([lucene-util/src/bits.rs])

    Random access to a set of bits, with [apply_mask]: its default over [get],
    and the dense set's word-wise override.  [BitsLaws] is what the trait
    promises its callers; each implementation discharges it. *)
From Stdlib Require Import Sorting.Sorted.
From stdpp Require Import strings.
From S2P Require Import Prelude BitWords FixedBitSet FixedBitSetSpec FixedBitSetAlgebra FixedBitSetRange SparseFixedBitSet SparseFixedBitSetSpec.
Open Scope lucene_scope.

Class Bits (B : Type) : Type := {
  bits_get : B -> Z -> R bool;
  bits_length : B -> Z;
  bits_apply_mask : B -> FixedBitSet.t -> Z -> R FixedBitSet.t;
}.

(** [apply_mask]'s default: the loop from set bit [i]; each round clears a bit
    or leaves it behind, so one per bit of the set is enough. *)
Fixpoint mask_loop (fuel : nat) (get : Z -> R bool) (offset : Z) (bit_set : FixedBitSet.t) (i : option Z) : R FixedBitSet.t :=
  match i with
  | None => Ok bit_set
  | Some b =>
      match fuel with
      | O => Err Panic
      | S fuel =>
          let! alive := get (offset + b) in
          let! bit_set := if negb alive then expect (FixedBitSet.clear bit_set b) else Ok bit_set in
          mask_loop fuel get offset bit_set
            (if FixedBitSet.len bit_set <=? b + 1 then None else FixedBitSet.next_set_bit bit_set (b + 1))
      end
  end.
Definition default_apply_mask (get : Z -> R bool) (bit_set : FixedBitSet.t) (offset : Z) : R FixedBitSet.t :=
  mask_loop (Z.to_nat (FixedBitSet.num_bits bit_set)) get offset bit_set (FixedBitSet.next_set_bit bit_set 0).

(** ** The implementations. *)
Record MatchAllBits : Type := mk_all { all_length : Z }.
Record MatchNoBits : Type := mk_none { none_length : Z }.
Record NotBits (B : Type) : Type := mk_not { negated : B }.
Arguments mk_not {B} _.
Arguments negated {B} _.

#[export] Instance all_bits : Bits MatchAllBits := {
  bits_get _ _ := Ok true;
  bits_length := all_length;
  bits_apply_mask _ := default_apply_mask (fun _ => Ok true);
}.
#[export] Instance none_bits : Bits MatchNoBits := {
  bits_get _ _ := Ok false;
  bits_length := none_length;
  bits_apply_mask _ := default_apply_mask (fun _ => Ok false);
}.
#[export] Instance fixed_bits : Bits FixedBitSet.t := {
  bits_get b i := expect (FixedBitSet.get b i);
  bits_length := FixedBitSet.len;
  bits_apply_mask b bit_set offset :=
    let! r := expect (FixedBitSet.apply_mask b bit_set offset) in
    match r.1 with Ok _ => Ok r.2 | Err _ => Err Panic end;
}.
#[export] Instance sparse_bits : Bits SparseFixedBitSet.t := {
  bits_get := SparseFixedBitSet.get;
  bits_length := SparseFixedBitSet.len;
  bits_apply_mask b := default_apply_mask (SparseFixedBitSet.get b);
}.
Definition negate (r : R bool) : R bool := let! b := r in Ok (negb b).
#[export] Instance not_bits {B} `{Bits B} : Bits (NotBits B) := {
  bits_get b i := negate (bits_get (negated b) i);
  bits_length b := bits_length (negated b);
  bits_apply_mask b := default_apply_mask (fun i => negate (bits_get (negated b) i));
}.

(** ** The contract. *)
Definition masked (bit_set : FixedBitSet.t) (offset length : Z) (member : Z -> bool) (r : R FixedBitSet.t) : Prop :=
  (forall i, 0 <= i -> FixedBitSetSpec.bit bit_set i = true -> offset + i < length) ->
  exists s', r = Ok s' /\
    FixedBitSetSpec.models s' (FixedBitSet.num_bits bit_set) (fun i => FixedBitSetSpec.bit bit_set i && member (offset + i)).

Class BitsLaws (B : Type) `{Bits B} : Type := {
  valid : B -> Prop;
  member : B -> Z -> bool;
  law_length b : valid b -> 0 <= bits_length b;
  law_get b i : valid b -> 0 <= i < bits_length b -> bits_get b i = Ok (member b i);
  law_apply_mask b bit_set offset : valid b -> bits_length b < 2 ^ 63 -> FixedBitSetSpec.inv bit_set -> FixedBitSet.num_bits bit_set < 2 ^ 63 -> 0 <= offset ->
    masked bit_set offset (bits_length b) (member b) (bits_apply_mask b bit_set offset);
}.

(** ** The default is right over any right [get]. *)
Section default.
Import FixedBitSet FixedBitSetSpec.
Context (get : Z -> R bool) (length offset : Z) (member : Z -> bool).
Hypothesis get_ok : forall i, 0 <= i < length -> get i = Ok (member i).
Hypothesis offset_ok : 0 <= offset.

Lemma mask_loop_ok fuel : forall s b, inv s -> 0 <= b -> num_bits s - b <= Z.of_nat fuel ->
  (forall i, 0 <= i -> bit s i = true -> offset + i < length) ->
  forall r, first (bit s) b (num_bits s) r ->
  exists s', mask_loop fuel get offset s r = Ok s' /\ models s' (num_bits s) (fun i => bit s i && ((i <? b) || member (offset + i))).
Proof.
  induction fuel as [|fuel IH]; intros s b Hs Hb Hfuel Hin [x|] Hr; cbn [mask_loop].
  1: (destruct Hr; lia).
  2: destruct Hr as (Hx & Hbit & Hlow).
  1, 3: (exists s; split; [done|]; split; [done|]; split; [done|]; intros i Hi; destruct (Z.ltb_spec i b); [by rewrite andb_true_r|];
    destruct (Z.ltb_spec i (num_bits s)); [by rewrite Hr by lia|by rewrite (inv_ghost s Hs) by lia]).
  specialize (Hin x ltac:(lia) Hbit) as Hxl. rewrite get_ok by lia. cbn [rbind].
  assert (Hnext : exists s1, (if negb (member (offset + x)) then expect (clear s x) else Ok s) = Ok s1 /\
    models s1 (num_bits s) (fun i => bit s i && (negb (i =? x) || member (offset + x)))).
  { destruct (member (offset + x)) eqn:E; cbn [negb].
    - exists s. split; [done|]. split; [done|]. split; [done|]. intros i _. by rewrite orb_true_r, andb_true_r.
    - destruct (single_bit_operations s x Hs ltac:(lia)) as (_ & Hops & _). destruct (Hops ltac:(lia)) as (_ & _ & (s1 & E1 & _ & M) & _).
      exists s1. rewrite E1. split; [done|]. apply (models_ext _ _ _ _ M). intros i. destruct (i =? x); btauto. }
  destruct Hnext as (s1 & -> & I1 & N1 & B1). cbn [rbind]. unfold len. rewrite N1.
  destruct (IH s1 (x + 1)) with (r := if num_bits s <=? x + 1 then None else next_set_bit s1 (x + 1)) as (s' & E & M); [done|lia|rewrite N1; lia| | |].
  - intros i Hi Hbi. apply Hin; [done|]. rewrite B1 in Hbi by done. by apply andb_true_iff in Hbi as [? _].
  - rewrite N1. destruct (Z.leb_spec (num_bits s) (x + 1)); [intros i Hi; lia|]. rewrite <- N1. apply (searches s1 (x + 1) 0 I1); lia.
  - exists s'. split; [done|]. rewrite N1 in M. destruct M as (M1 & M2 & M3). split; [done|]. split; [done|]. intros i Hi. rewrite M3, B1 by done.
    destruct (Z.ltb_spec i (x + 1)), (Z.eqb_spec i x), (Z.ltb_spec i b); try lia; cbn [orb negb andb]; rewrite ?andb_true_r, ?orb_true_r; try done.
    + subst i. done.
    + destruct (Z.ltb_spec i b); [lia|]. rewrite Hlow by lia. done.
Qed.

Lemma default_mask_ok s : inv s -> masked s offset length member (default_apply_mask get s offset).
Proof.
  intros Hs Hin. unfold default_apply_mask. pose proof (inv_len s Hs).
  destruct (mask_loop_ok (Z.to_nat (num_bits s)) s 0 Hs ltac:(lia) ltac:(lia) Hin (next_set_bit s 0)) as (s' & E & M); [apply (searches s 0 0 Hs); lia|].
  exists s'. split; [done|]. destruct M as (M1 & M2 & M3). split; [done|]. split; [done|]. intros i Hi. rewrite M3 by done.
  destruct (Z.ltb_spec i 0); [lia|done].
Qed.
End default.

(** ** Each implementation keeps the contract. *)
#[export] Instance all_laws : BitsLaws MatchAllBits.
Proof.
  refine {| valid := fun b => 0 <= all_length b; member := fun _ _ => true |}; [done|done|].
  intros b s offset Hv _ Hs _ Ho. by apply (default_mask_ok _ _ _ (fun _ => true)).
Defined.

#[export] Instance none_laws : BitsLaws MatchNoBits.
Proof.
  refine {| valid := fun b => 0 <= none_length b; member := fun _ _ => false |}; [done|done|].
  intros b s offset Hv _ Hs _ Ho. by apply (default_mask_ok _ _ _ (fun _ => false)).
Defined.

Lemma fixed_mask_ok (b s : FixedBitSet.t) offset : FixedBitSetSpec.inv b -> FixedBitSet.num_bits b < 2 ^ 63 ->
  FixedBitSetSpec.inv s -> FixedBitSet.num_bits s < 2 ^ 63 -> 0 <= offset ->
  masked s offset (FixedBitSet.len b) (FixedBitSetSpec.bit b) (bits_apply_mask b s offset).
Proof.
  intros Hb Hbl Hs Hsl Ho Hin. destruct (FixedBitSetRange.apply_mask_spec b s offset Hb Hs Ho Hbl Hsl) as (s' & r & E & M & Hr).
  cbn [bits_apply_mask fixed_bits]. rewrite E. cbn [expect rbind fst snd]. exists s'.
  assert (r = Ok tt) as ->.
  { apply Hr. intros i Hi. destruct (FixedBitSetSpec.bit s i) eqn:Ei; [|done]. specialize (Hin i ltac:(lia) Ei). unfold FixedBitSet.len in Hin. lia. }
  split; [done|]. destruct M as (M1 & M2 & M3). split; [done|]. split; [done|]. intros i Hi. rewrite M3 by done.
  destruct (FixedBitSetSpec.bit s i) eqn:Ei; [|done]. specialize (Hin i Hi Ei). unfold FixedBitSet.len in Hin.
  destruct (Z.leb_spec (FixedBitSet.num_bits b - offset) i); [lia|done].
Qed.

#[export] Instance fixed_laws : BitsLaws FixedBitSet.t.
Proof.
  refine {| valid := FixedBitSetSpec.inv; member := FixedBitSetSpec.bit |}.
  - intros b Hb. apply (FixedBitSetSpec.inv_len b Hb).
  - intros b i Hb Hi. cbn [bits_get fixed_bits]. by rewrite FixedBitSetSpec.get_bit.
  - intros b s offset Hb Hbl Hs Hsl Ho. by apply fixed_mask_ok.
Defined.

#[export] Instance sparse_laws : BitsLaws SparseFixedBitSet.t.
Proof.
  refine {| valid := SparseSpec.lawful; member := SparseSpec.bit |}.
  - intros b [Hb _]. pose proof (SparseSpec.inv_size b Hb). cbn. unfold SparseFixedBitSet.len. lia.
  - intros b i [Hb _] Hi. cbn in *. unfold SparseFixedBitSet.len in Hi. rewrite SparseSpec.get_ok by (done || lia).
    destruct (Z.leb_spec (SparseFixedBitSet.size b) i); [lia|done].
  - intros b s offset [Hb _] _ Hs _ Ho. apply default_mask_ok; [|done|done]. intros i Hi. cbn in *. unfold SparseFixedBitSet.len in Hi.
    rewrite SparseSpec.get_ok by (done || lia). destruct (Z.leb_spec (SparseFixedBitSet.size b) i); [lia|done].
Defined.

#[export] Instance not_laws {B} `{BitsLaws B} : BitsLaws (NotBits B).
Proof.
  refine {| valid := fun b => valid (negated b); member := fun b i => negb (member (negated b) i) |}.
  - intros b Hb. exact (law_length (negated b) Hb).
  - intros b i Hb Hi. cbn [bits_get not_bits]. unfold negate. by rewrite (law_get (negated b) i Hb Hi).
  - intros b s offset Hb _ Hs _ Ho. apply (default_mask_ok _ _ _ (fun i => negb (member (negated b) i))); [|done|done].
    intros i Hi. unfold negate. by rewrite (law_get (negated b) i Hb Hi).
Defined.

(** ** Enumerations, a search at a time. *)
Lemma members_search P lo hi r : lo <= hi -> FixedBitSetSpec.first P lo hi r ->
  members P lo (Z.to_nat (hi - lo)) = match r with Some d => d :: members P (d + 1) (Z.to_nat (hi - (d + 1))) | None => [] end.
Proof.
  intros Hle Hf. destruct r as [d|]; [|apply members_false; intros i Hi; apply Hf; lia]. destruct Hf as (Hd & Hp & Hlow).
  replace (Z.to_nat (hi - lo)) with (Z.to_nat (d - lo) + (1 + Z.to_nat (hi - (d + 1))))%nat by lia.
  rewrite members_app, (members_false _ lo) by (intros i Hi; apply Hlow; lia). replace (lo + Z.of_nat (Z.to_nat (d - lo))) with d by lia.
  cbn [app members Nat.add]. by rewrite Hp.
Qed.

(** ** [NotDocIdSetIter]: the documents an ascending iterator skips. *)
Module NotDocIdSet.
Definition NO_MORE_DOCS : Z := 2147483647.
Record NotDocIdSetIter : Type := mk_not_iter { inner : list Z; max_doc : Z; doc : Z; next_skipped_doc : Z }.
Definition not_iter_new (max_doc : Z) (inner : list Z) : NotDocIdSetIter := mk_not_iter inner max_doc (-1) (-1).

Fixpoint inner_advance (target : Z) (inner : list Z) : Z * list Z :=
  match inner with
  | [] => (NO_MORE_DOCS, [])
  | d :: inner => if target <=? d then (d, inner) else inner_advance target inner
  end.
(** The loop of [advance]: every round but the last takes a document of [inner]. *)
Fixpoint advance_loop (inner : list Z) (max_doc doc next_skipped_doc : Z) : NotDocIdSetIter :=
  if max_doc <=? doc then mk_not_iter inner max_doc NO_MORE_DOCS next_skipped_doc
  else if negb (doc =? next_skipped_doc) then mk_not_iter inner max_doc doc next_skipped_doc
  else match inner with
       | [] => let doc := doc + 1 in
               if max_doc <=? doc then mk_not_iter [] max_doc NO_MORE_DOCS NO_MORE_DOCS else mk_not_iter [] max_doc doc NO_MORE_DOCS
       | d :: inner => advance_loop inner max_doc (doc + 1) d
       end.
(** The new state; its [doc] is the answer. *)
Definition not_iter_advance (it : NotDocIdSetIter) (target : Z) : NotDocIdSetIter :=
  let '(skipped, inner) :=
    if next_skipped_doc it <? target then inner_advance target (inner it) else (next_skipped_doc it, inner it) in
  advance_loop inner (max_doc it) target skipped.
Definition not_iter_next_doc (it : NotDocIdSetIter) : NotDocIdSetIter := not_iter_advance it (Z.min (doc it + 1) (2 ^ 31 - 1)).
Definition doc_id_run_end (it : NotDocIdSetIter) : Z := Z.min (next_skipped_doc it) (max_doc it).

Import FixedBitSetSpec.

(** [skipped :: inner] is the part of the ascending [docs] at or past [lo]. *)
Record upcoming (docs : list Z) (lo skipped : Z) (inner : list Z) : Prop := {
  up_sorted : StronglySorted Z.lt inner;
  up_after : Forall (fun d => skipped < d < NO_MORE_DOCS) inner;
  up_least : lo <= skipped <= NO_MORE_DOCS;
  up_members x : lo <= x < NO_MORE_DOCS -> x ∈ docs <-> x = skipped \/ x ∈ inner;
}.

Lemma upcoming_next docs lo d inner : upcoming docs lo lo (d :: inner) -> upcoming docs (lo + 1) d inner.
Proof.
  intros [Hs Ha Hl Hm]. apply StronglySorted_inv in Hs as [Hs Hd]. assert (Hlo := Forall_inv Ha); cbn beta in Hlo; apply Forall_inv_tail in Ha. constructor; [done| |lia|].
  - apply List.Forall_forall. intros x Hx. split; [by apply (proj1 (List.Forall_forall _ _) Hd)|by apply (proj1 (List.Forall_forall _ _) Ha)].
  - intros x Hx. rewrite Hm by lia. rewrite elem_of_cons. split; [intros [->|H]; [lia|done]|tauto].
Qed.

Definition answer (it : NotDocIdSetIter) : option Z := if doc it =? NO_MORE_DOCS then None else Some (doc it).

(** Where the iterator stands: every document it still skips is ahead of it. *)
Definition standing (docs : list Z) (it : NotDocIdSetIter) : Prop :=
  (doc it = -1 /\ next_skipped_doc it = -1 /\ inner it = docs) \/ upcoming docs (doc it) (next_skipped_doc it) (inner it).

Definition skips (docs : list Z) (x : Z) : bool := bool_decide (x ∉ docs).

Lemma advance_loop_ok docs : forall inner lo skipped max, upcoming docs lo skipped inner -> max <= NO_MORE_DOCS ->
  let it := advance_loop inner max lo skipped in
  first (skips docs) lo max (answer it) /\ max_doc it = max /\ (doc it <> NO_MORE_DOCS -> upcoming docs (doc it) (next_skipped_doc it) (NotDocIdSet.inner it)).
Proof.
  assert (Hfirst : forall inner lo skipped max, upcoming docs lo skipped inner -> lo <> skipped -> lo < max -> max <= NO_MORE_DOCS ->
    first (skips docs) lo max (Some lo)).
  { intros inner lo skipped max Hu Hne Hlt Hmax. split; [lia|]. split; [|intros k Hk; lia]. apply bool_decide_eq_true. pose proof (up_least _ _ _ _ Hu).
    intros Hin. apply (up_members _ _ _ _ Hu) in Hin as [|Hin]; [done| |lia]. apply list_elem_of_In, (proj1 (List.Forall_forall _ _) (up_after _ _ _ _ Hu)) in Hin. lia. }
  intros inner0; induction inner0 as [|d inner0 IH]; intros lo skipped max Hu Hmax; cbn [advance_loop].
  all: destruct (Z.leb_spec max lo); [split; [intros k Hk; lia|done]|].
  all: destruct (Z.eqb_spec lo skipped) as [<-|Hne]; cbn [negb].
  2, 4: (cbn; unfold answer; cbn [doc]; destruct (Z.eqb_spec lo NO_MORE_DOCS); [lia|]; split; [by eapply Hfirst|done]).
  - assert (Hu' : upcoming docs (lo + 1) NO_MORE_DOCS []).
    { constructor; [constructor|constructor|lia|]. intros x Hx. rewrite (up_members _ _ _ _ Hu) by lia. split; [intros [->|H']; [lia|by apply not_elem_of_nil in H']|intros [->|H']; [lia|by apply not_elem_of_nil in H']]. }
    assert (Hlo : skips docs lo = false) by (apply bool_decide_eq_false; intros H1; apply H1, (up_members _ _ _ _ Hu); [lia|by left]).
    cbv zeta. destruct (Z.leb_spec max (lo + 1)); cbn; (split; [|done]).
    + intros k Hk. by replace k with lo by lia.
    + unfold answer. cbn [doc]. destruct (Z.eqb_spec (lo + 1) NO_MORE_DOCS); [lia|].
      apply (SparseSpec.first_skip _ _ (lo + 1)); [intros k Hk; by replace k with lo by lia|lia|]. apply (Hfirst [] _ NO_MORE_DOCS); [done|lia..].
  - destruct (IH (lo + 1) d max (upcoming_next _ _ _ _ Hu) Hmax) as (H1 & H2 & H3). split; [|done].
    apply (SparseSpec.first_skip _ _ (lo + 1)); [|lia|done]. intros k Hk. replace k with lo by lia. apply bool_decide_eq_false. intros Hn.
    apply Hn, (up_members _ _ _ _ Hu); [lia|by left].
Qed.

Lemma inner_advance_ok docs target : forall inner, StronglySorted Z.lt inner -> Forall (fun d => d < NO_MORE_DOCS) inner -> target <= NO_MORE_DOCS ->
  (forall x, target <= x < NO_MORE_DOCS -> x ∈ docs <-> x ∈ inner) ->
  upcoming docs target (inner_advance target inner).1 (inner_advance target inner).2.
Proof.
  intros inner0; induction inner0 as [|d inner0 IH]; intros Hs Hb Ht Hm; cbn [inner_advance].
  - constructor; [constructor|constructor|cbn; lia|]. intros x Hx. rewrite Hm by done. cbn [fst snd]. split; [intros H; by apply not_elem_of_nil in H|intros [->|H]; [cbn in Hx; lia|by apply not_elem_of_nil in H]].
  - apply StronglySorted_inv in Hs as [Hs Hd]. assert (Hbd := Forall_inv Hb); cbn beta in Hbd; apply Forall_inv_tail in Hb. destruct (Z.leb_spec target d); cbn [fst snd].
    + constructor; [done| |lia|].
      * apply List.Forall_forall. intros x Hx. split; [by apply (proj1 (List.Forall_forall _ _) Hd)|by apply (proj1 (List.Forall_forall _ _) Hb)].
      * intros x Hx. rewrite Hm by done. by rewrite elem_of_cons.
    + apply IH; [done..|]. intros x Hx. rewrite Hm by done. rewrite elem_of_cons. split; [intros [->|H']; [lia|done]|tauto].
Qed.

Definition ascending (docs : list Z) : Prop := StronglySorted Z.lt docs /\ Forall (fun d => 0 <= d < NO_MORE_DOCS) docs.

Lemma not_iter_advance_ok docs it target : ascending docs -> standing docs it -> doc it < target <= NO_MORE_DOCS -> 0 <= target -> max_doc it <= NO_MORE_DOCS ->
  let it' := not_iter_advance it target in
  first (skips docs) target (max_doc it) (answer it') /\ max_doc it' = max_doc it /\ (doc it' <> NO_MORE_DOCS -> standing docs it').
Proof.
  intros [Hs Hb] Hst Ht H0 Hmax. unfold not_iter_advance.
  assert (Hup : upcoming docs target (if next_skipped_doc it <? target then inner_advance target (inner it) else (next_skipped_doc it, inner it)).1
    (if next_skipped_doc it <? target then inner_advance target (inner it) else (next_skipped_doc it, inner it)).2).
  { destruct Hst as [(E1 & E2 & E3)|Hu].
    - rewrite E2, E3. destruct (Z.ltb_spec (-1) target); [|lia]. apply inner_advance_ok; [done| |lia|done].
      eapply Forall_impl; [|exact Hb]. cbn. lia.
    - pose proof (up_least _ _ _ _ Hu). destruct (Z.ltb_spec (next_skipped_doc it) target).
      + apply inner_advance_ok; [apply Hu| |lia|].
        * eapply Forall_impl; [|apply (up_after _ _ _ _ Hu)]. cbn. lia.
        * intros x Hx. rewrite (up_members _ _ _ _ Hu) by lia. split; [intros [->|H']; [lia|done]|tauto].
      + constructor; cbn; [apply Hu|apply Hu|lia|]. intros x Hx. apply (up_members _ _ _ _ Hu). lia. }
  destruct (if next_skipped_doc it <? target then _ else _) as [skipped rest]. cbn [fst snd] in Hup.
  destruct (advance_loop_ok docs rest target skipped (max_doc it) Hup Hmax) as (H1 & H2 & H3). split; [done|]. split; [done|]. intros Hne. right. by apply H3.
Qed.

(** The documents iteration answers; one round each, and one to end. *)
Fixpoint docs_of (fuel : nat) (it : NotDocIdSetIter) : list Z :=
  match fuel with
  | O => []
  | S fuel =>
      let it := not_iter_next_doc it in
      if doc it =? NO_MORE_DOCS then [] else doc it :: docs_of fuel it
  end.

Lemma docs_of_ok docs fuel : forall it, ascending docs -> standing docs it -> -1 <= doc it -> max_doc it <= NO_MORE_DOCS -> doc it + 1 <= max_doc it ->
  max_doc it - doc it <= Z.of_nat fuel ->
  docs_of fuel it = members (skips docs) (doc it + 1) (Z.to_nat (max_doc it - (doc it + 1))).
Proof.
  induction fuel as [|fuel IH]; intros it Ha Hst H0 Hmax Hle Hfuel; [lia|]. cbn [docs_of]. cbv zeta. unfold not_iter_next_doc.
  change (2 ^ 31 - 1) with NO_MORE_DOCS. rewrite Z.min_l by lia.
  destruct (not_iter_advance_ok docs it (doc it + 1) Ha Hst ltac:(lia) ltac:(lia) Hmax) as (Hf & Hm & Hn).
  set (it' := not_iter_advance it (doc it + 1)) in *. rewrite (members_search _ _ _ _ Hle Hf). unfold answer in *.
  destruct (Z.eqb_spec (doc it') NO_MORE_DOCS) as [E|E]; [done|]. destruct Hf as (Hd & _ & _). f_equal. rewrite IH, Hm; [done|done|by apply Hn|lia..].
Qed.

(** [NotDocIdSet] iterates, in order, over the documents below [max_doc] the
    other set does not hold. *)
Lemma complement_iterates docs max : ascending docs -> 0 <= max <= NO_MORE_DOCS ->
  docs_of (Z.to_nat (max + 1)) (not_iter_new max docs) = members (skips docs) 0 (Z.to_nat max).
Proof.
  intros Ha Hm. rewrite (docs_of_ok docs); cbn; [by rewrite Z.sub_0_r|done|by left|lia..].
Qed.
End NotDocIdSet.
