(* ===== verification/LiveDocs.v ===== *)
(** * Live documents in memory ([lucene-util/src/live_docs.rs])

    [DenseLiveDocs] keeps the live documents' bits, [SparseLiveDocs] the
    deleted ones'.  Both iterate their live and deleted documents: one way bit
    by bit, the other word by word over the complement ([WordBitsIter]).
    Proved, for any set: the two iterations are the two halves of the
    documents, in order, and both representations of the same deletions give
    the same answers. *)
From S2P Require Import Prelude BitWords FixedBitSet FixedBitSetSpec FixedBitSetAlgebra SparseFixedBitSet SparseFixedBitSetSpec Bits.
Open Scope lucene_scope.

Inductive LiveDocsError : Type := DeletedCountOutOfRange (deleted_count max_doc : Z).

Definition check_count (count max_doc : Z) : result LiveDocsError Z :=
  if (count <? 0) || (max_doc <? count) then Err (DeletedCountOutOfRange count max_doc) else Ok (wraps 32 count).

(** ** [WordBitsIter]: the set bits below [n] of the words [word 0], ... *)
Section word_bits.
Context (word : Z -> R Z) (n : Z).

Definition load (w : Z) : R Z :=
  let! v := word w in
  let end_ := n - Z.shiftl w 6 in
  Ok (if end_ <? 64 then Z.land v (shlu 64 1 end_ - 1) else v).
Definition iter_new : R (Z * Z) := if 0 <? n then let! cur := load 0 in Ok (0, cur) else Ok (0, 0).

(** [while self.cur == 0]. *)
Fixpoint skip_words (fuel : nat) (w cur : Z) : R (option (Z * Z)) :=
  match fuel with
  | O => Ok None
  | S fuel =>
      if cur =? 0 then
        let w := w + 1 in
        if div_ceil n 64 <=? w then Ok None else let! cur := load w in skip_words fuel w cur
      else Ok (Some (w, cur))
  end.
Definition iter_next (w cur : Z) : R (option (Z * (Z * Z))) :=
  let! r := skip_words (Z.to_nat (div_ceil n 64) + 1) w cur in
  Ok (match r with
      | None => None
      | Some (w, cur) => Some (wraps 32 (Z.shiftl w 6 + trailing_zeros 64 cur), (w, Z.land cur (cur - 1)))
      end).
Fixpoint iter_all (fuel : nat) (w cur : Z) : R (list Z) :=
  match fuel with
  | O => Ok []
  | S fuel =>
      let! r := iter_next w cur in
      match r with
      | None => Ok []
      | Some (d, st) => let! rest := iter_all fuel st.1 st.2 in Ok (d :: rest)
      end
  end.
Definition word_bits : R (list Z) := let! st := iter_new in iter_all (Z.to_nat n + 1) st.1 st.2.
End word_bits.

(** The other kind of iterator: [next_set_bit] again and again. *)
Fixpoint bits_from (fuel : nat) (next_set_bit : Z -> R (option Z)) (next : option Z) : R (list Z) :=
  match next with
  | None => Ok []
  | Some b =>
      match fuel with
      | O => Ok []
      | S fuel => let! next := next_set_bit (b + 1) in let! rest := bits_from fuel next_set_bit next in Ok (wraps 32 b :: rest)
      end
  end.
Definition set_bits (n : Z) (next_set_bit : Z -> R (option Z)) : R (list Z) :=
  let! next := next_set_bit 0 in bits_from (Z.to_nat n) next_set_bit next.

(** ** The interface, and the two implementations. *)
Class LiveDocs (B : Type) `{Bits B} : Type := {
  live_docs_iter : B -> R (list Z) * Z;
  deleted_docs_iter : B -> R (list Z) * Z;
  deleted_count : B -> Z;
}.

Record DenseLiveDocs : Type := mk_dense { live_docs : FixedBitSet.t; dense_max_doc : Z; dense_deleted : Z }.
Record SparseLiveDocs : Type := mk_sparse { deleted_docs : SparseFixedBitSet.t; sparse_max_doc : Z; sparse_deleted : Z }.

Definition dense_build (live_docs : FixedBitSet.t) (max_doc : Z) (given : option Z) : result LiveDocsError DenseLiveDocs :=
  let count := match given with Some c => c | None => max_doc - FixedBitSet.cardinality live_docs end in
  match check_count count max_doc with
  | Ok deleted => Ok (mk_dense live_docs max_doc deleted)
  | Err e => Err e
  end.
Definition sparse_build (deleted_docs : SparseFixedBitSet.t) (max_doc : Z) (given : option Z) : result LiveDocsError SparseLiveDocs :=
  let count := match given with Some c => c | None => SparseFixedBitSet.cardinality deleted_docs end in
  match check_count count max_doc with
  | Ok deleted => Ok (mk_sparse deleted_docs max_doc deleted)
  | Err e => Err e
  end.

Definition dense_get (b : DenseLiveDocs) (i : Z) : R bool := expect (FixedBitSet.get (live_docs b) i).
Definition sparse_get (b : SparseLiveDocs) (i : Z) : R bool := negate (SparseFixedBitSet.get (deleted_docs b) i).
#[export] Instance dense_bits : Bits DenseLiveDocs := {
  bits_get := dense_get;
  bits_length b := Z.max (dense_max_doc b) 0;
  bits_apply_mask b := default_apply_mask (dense_get b);
}.
#[export] Instance sparse_live_bits : Bits SparseLiveDocs := {
  bits_get := sparse_get;
  bits_length b := Z.max (sparse_max_doc b) 0;
  bits_apply_mask b := default_apply_mask (sparse_get b);
}.

#[export] Instance dense_live_docs : LiveDocs DenseLiveDocs := {
  live_docs_iter b :=
    (set_bits (FixedBitSet.num_bits (live_docs b)) (fun i => Ok (FixedBitSet.next_set_bit (live_docs b) i)), dense_max_doc b - dense_deleted b);
  deleted_docs_iter b :=
    (word_bits (fun w => let! v := index_at (FixedBitSet.words (live_docs b)) w in Ok (notu 64 v)) (bits_length b), dense_deleted b);
  deleted_count := dense_deleted;
}.
#[export] Instance sparse_live_docs : LiveDocs SparseLiveDocs := {
  live_docs_iter b :=
    (word_bits (fun w => let! v := SparseFixedBitSet.word (deleted_docs b) w in Ok (notu 64 v)) (bits_length b), sparse_max_doc b - sparse_deleted b);
  deleted_docs_iter b :=
    (set_bits (SparseFixedBitSet.size (deleted_docs b)) (SparseFixedBitSet.next_set_bit (deleted_docs b)), sparse_deleted b);
  deleted_count := sparse_deleted;
}.

(** ** Word by word. *)
Section word_bits_ok.
Context (word : Z -> R Z) (n : Z) (P : Z -> bool).
Hypothesis n_ok : 0 <= n < 2 ^ 31.
Hypothesis word_ok : forall w, 0 <= w < div_ceil n 64 -> exists v, word w = Ok v /\ in_u 64 v /\ forall i, 0 <= i < 64 -> Z.testbit v i = P (64 * w + i).
Notation Q := (fun x => (x <? n) && P x).
Notation words := (div_ceil n 64).

Lemma words_spec : 0 <= words /\ 64 * (words - 1) < n <= 64 * words \/ (n = 0 /\ words = 0).
Proof. unfold div_ceil. Z.div_mod_to_equations. lia. Qed.

(** [cur] is what is left, from [p] on, of word [w]. *)
Definition at_word (p w cur : Z) : Prop :=
  0 <= w /\ 64 * w <= p <= 64 * w + 64 /\ in_u 64 cur /\ forall i, 0 <= i < 64 -> Z.testbit cur i = (p <=? 64 * w + i) && Q (64 * w + i).

Lemma load_at_word w : 0 <= w < words -> exists cur, load word n w = Ok cur /\ at_word (64 * w) w cur.
Proof.
  intros Hw. destruct (word_ok w Hw) as (v & E & Hu & Hb). unfold load. rewrite E. cbn [rbind]. rewrite Z.shiftl_mul_pow2, Z.mul_comm by lia.
  change (2 ^ 6) with 64. pose proof words_spec as Hn. eexists. split; [done|]. unfold at_word.
  destruct (Z.ltb_spec (n - 64 * w) 64).
  - replace (shlu 64 1 (n - 64 * w) - 1) with (Z.ones (n - 64 * w)).
    2:{ change (shlu 64 1 (n - 64 * w)) with (SparseFixedBitSet.word_bit (n - 64 * w)). rewrite SparseSpec.word_bit_pow by lia. rewrite Z.ones_equiv. lia. }
    split; [lia|]. split; [lia|]. split; [apply in_u_land; [lia|done|rewrite Z.ones_equiv; pose proof (Z.pow_pos_nonneg 2 (n - 64 * w)); lia]|].
    intros i Hi. rewrite Z.land_spec, testbit_ones, Hb by lia.
    destruct (Z.leb_spec (64 * w) (64 * w + i)), (Z.leb_spec 0 i), (Z.ltb_spec i (n - 64 * w)), (Z.ltb_spec (64 * w + i) n); try lia; cbn [andb];
      by rewrite ?andb_true_r, ?andb_false_r.
  - split; [lia|]. split; [lia|]. split; [done|]. intros i Hi. rewrite Hb by lia.
    destruct (Z.leb_spec (64 * w) (64 * w + i)), (Z.ltb_spec (64 * w + i) n); try lia. done.
Qed.

Lemma at_word_bit p w cur x : at_word p w cur -> p <= x < 64 * w + 64 -> Q x = Z.testbit cur (x - 64 * w).
Proof. intros (H0 & Hp & _ & Hb) Hx. rewrite Hb by lia. replace (64 * w + (x - 64 * w)) with x by lia. destruct (Z.leb_spec p x); [done|lia]. Qed.

Lemma skip_words_ok fuel : forall p w cur, at_word p w cur -> w <= words -> words - w < Z.of_nat fuel ->
  exists r, skip_words word n fuel w cur = Ok r /\
    match r with
    | None => forall x, p <= x < n -> P x = false
    | Some (w', cur') => cur' <> 0 /\ w' < words /\ exists p', p <= p' /\ at_word p' w' cur' /\ forall x, p <= x < p' -> Q x = false
    end.
Proof.
  induction fuel as [|fuel IH]; intros p w cur Ha Hw Hfuel; [lia|]. cbn [skip_words]. assert (Ha' := Ha). destruct Ha' as (H0 & Hp & Hu & Hb). pose proof words_spec as Hn.
  destruct (Z.eqb_spec cur 0) as [->|Hne].
  - assert (Hc : forall x, p <= x < 64 * w + 64 -> Q x = false) by (intros x Hx; by rewrite (at_word_bit _ _ _ x Ha Hx), Z.testbit_0_l).
    destruct (Z.leb_spec words (w + 1)).
    + exists None. split; [done|]. intros x Hx. specialize (Hc x ltac:(lia)). cbn in Hc. destruct (Z.ltb_spec x n); [done|lia].
    + destruct (load_at_word (w + 1) ltac:(lia)) as (c & E & Hl). rewrite E. cbn [rbind].
      destruct (IH _ _ _ Hl ltac:(lia) ltac:(lia)) as (r & Er & Hr). exists r. split; [done|]. destruct r as [[w' c']|].
      * destruct Hr as (Hne & Hw' & p' & Hp' & Ha' & Hq). split; [done|]. split; [done|]. exists p'. split; [lia|]. split; [done|]. intros x Hx.
        destruct (Z.lt_ge_cases x (64 * w + 64)); [apply Hc|apply Hq]; lia.
      * intros x Hx. destruct (Z.lt_ge_cases x (64 * w + 64)); [|apply Hr; lia]. specialize (Hc x ltac:(lia)). cbn in Hc. destruct (Z.ltb_spec x n); [done|lia].
  - exists (Some (w, cur)). split; [done|]. split; [done|]. split.
    + destruct (trailing_zeros_spec 64 cur Hu Hne) as (Ht & Htb & _). rewrite Hb in Htb by lia. apply andb_true_iff in Htb as [_ [Hx%Z.ltb_lt _]%andb_true_iff]. lia.
    + exists p. split; [lia|]. split; [done|]. intros; lia.
Qed.

Lemma iter_next_ok p w cur : at_word p w cur -> w <= words ->
  exists r, iter_next word n w cur = Ok r /\
    match r with
    | None => forall x, p <= x < n -> P x = false
    | Some (d, st) => first P p n (Some d) /\ at_word (d + 1) st.1 st.2 /\ st.1 <= words
    end.
Proof.
  intros Ha Hw. unfold iter_next. pose proof words_spec as Hn. assert (H0 : 0 <= w) by apply Ha.
  destruct (skip_words_ok (Z.to_nat words + 1) p w cur Ha Hw) as (r & E & Hr); [lia|]. rewrite E. cbn [rbind]. eexists. split; [done|].
  destruct r as [[w' c']|]; [|done]. destruct Hr as (Hne & Hw' & p' & Hp' & Ha' & Hq). assert (Ha2 := Ha'). destruct Ha2 as (H0' & Hpp & Hu & Hb).
  destruct (trailing_zeros_spec 64 c' Hu Hne) as (Ht & Htb & Hlow). set (j := trailing_zeros 64 c') in *.
  rewrite Z.shiftl_mul_pow2, Z.mul_comm by lia. change (2 ^ 6) with 64.
  assert (Hj := Htb). rewrite Hb in Hj by lia. apply andb_true_iff in Hj as [Hpj%Z.leb_le [Hjn%Z.ltb_lt HPj]%andb_true_iff].
  rewrite wraps_small by (try lia; unfold in_u; change (32 - 1) with 31; lia). cbn [fst snd]. split; [|split; [|lia]].
  - split; [lia|]. split; [done|]. intros x Hx. assert (Hx' : Q x = false); [|cbn in Hx'; destruct (Z.ltb_spec x n); [done|lia]].
    destruct (Z.lt_ge_cases x p'); [apply Hq; lia|]. rewrite (at_word_bit _ _ _ x Ha') by lia. apply Hlow. lia.
  - split; [lia|]. split; [lia|]. split; [apply in_u_land; [lia|done|destruct Hu; lia]|]. intros i Hi. rewrite (clear_lowest c' j i) by (done || lia || apply Hu).
    rewrite Hb by lia. destruct (Z.eqb_spec i j) as [->|].
    + destruct (Z.leb_spec (64 * w' + j + 1) (64 * w' + j)); [lia|]. by rewrite andb_false_r.
    + cbn [negb]. rewrite andb_true_r. destruct (Z.leb_spec p' (64 * w' + i)), (Z.leb_spec (64 * w' + j + 1) (64 * w' + i)); try lia; try done; cbn [andb].
      specialize (Hlow i ltac:(lia)). rewrite Hb in Hlow by lia. destruct (Z.leb_spec p' (64 * w' + i)); [done|lia].
Qed.

Lemma iter_all_ok fuel : forall p w cur, at_word p w cur -> w <= words -> p <= n -> n - p < Z.of_nat fuel ->
  iter_all word n fuel w cur = Ok (members P p (Z.to_nat (n - p))).
Proof.
  induction fuel as [|fuel IH]; intros p w cur Ha Hw Hp Hfuel; [lia|]. cbn [iter_all]. destruct (iter_next_ok p w cur Ha Hw) as ([[d st]|] & E & Hr); rewrite E; cbn [rbind].
  - destruct Hr as (Hf & Ha' & Hw'). rewrite (members_search P p n (Some d) Hp Hf). destruct Hf as (Hd & _). rewrite (IH (d + 1)) by (done || lia). done.
  - rewrite (members_search P p n None Hp Hr). done.
Qed.

Lemma word_bits_ok : word_bits word n = Ok (members P 0 (Z.to_nat n)).
Proof.
  unfold word_bits, iter_new. pose proof words_spec as Hn. destruct (Z.ltb_spec 0 n).
  - destruct (load_at_word 0 ltac:(lia)) as (c & E & Ha). rewrite E. cbn [rbind fst snd]. rewrite (iter_all_ok _ 0) by (done || lia). by rewrite Z.sub_0_r.
  - cbn [rbind fst snd]. rewrite (iter_all_ok _ 0); [by rewrite Z.sub_0_r| |lia|lia|lia]. split; [lia|]. split; [lia|]. split; [by apply in_u_0|].
    intros i Hi. rewrite Z.testbit_0_l. destruct (Z.ltb_spec (64 * 0 + i) n); [lia|]. by rewrite andb_false_r.
Qed.
End word_bits_ok.

(** Search by search. *)
Lemma bits_from_ok P n next fuel : n < 2 ^ 31 -> (forall i, 0 <= i -> exists r, next i = Ok r /\ first P i n r) ->
  forall p r, 0 <= p <= n -> first P p n r -> n - p <= Z.of_nat fuel -> bits_from fuel next r = Ok (members P p (Z.to_nat (n - p))).
Proof.
  intros Hn Hnext. induction fuel as [|fuel IH]; intros p [b|] Hp Hf Hfuel; cbn [bits_from]; rewrite (members_search P p n _ ltac:(lia) Hf); try done; destruct Hf as (Hb & _ & _); [lia|].
  destruct (Hnext (b + 1) ltac:(lia)) as (r & E & Hr). rewrite E. cbn [rbind]. rewrite (IH (b + 1)) by (done || lia). cbn [rbind].
  rewrite wraps_small by (try lia; unfold in_u; change (32 - 1) with 31; lia). done.
Qed.

Lemma set_bits_ok P n next : 0 <= n < 2 ^ 31 -> (forall i, 0 <= i -> exists r, next i = Ok r /\ first P i n r) ->
  set_bits n next = Ok (members P 0 (Z.to_nat n)).
Proof.
  intros Hn Hnext. unfold set_bits. destruct (Hnext 0 ltac:(lia)) as (r & E & Hr). rewrite E. cbn [rbind].
  rewrite (bits_from_ok P n next _ ltac:(lia) Hnext 0) by (done || lia). by rewrite Z.sub_0_r.
Qed.

(** ** The contract, for both. *)
Definition length_of {B} `{Bits B} (b : B) : nat := Z.to_nat (bits_length b).

Class LiveDocsLaws (B : Type) `{BitsLaws B} `{!LiveDocs B} : Type := {
  law_live b : valid b -> live_docs_iter b = (Ok (members (member b) 0 (length_of b)), count (member b) 0 (length_of b));
  law_deleted b : valid b ->
    deleted_docs_iter b = (Ok (members (fun i => negb (member b i)) 0 (length_of b)), count (fun i => negb (member b i)) 0 (length_of b));
  law_count b : valid b -> deleted_count b = count (fun i => negb (member b i)) 0 (length_of b);
}.

Lemma count_negb P lo n : count (fun i => negb (P i)) lo n = Z.of_nat n - count P lo n.
Proof. revert lo. induction n as [|n IH]; intros lo; [done|]. cbn [count]. rewrite IH. destruct (P lo); cbn [negb Z.b2z]; lia. Qed.

(** The bits at hand, with the count [build] takes of them. *)
Record dense_ok (b : DenseLiveDocs) : Prop := {
  d_bits : FixedBitSetSpec.inv (live_docs b);
  d_max : 0 <= dense_max_doc b <= FixedBitSet.num_bits (live_docs b) /\ FixedBitSet.num_bits (live_docs b) < 2 ^ 31;
  d_tail i : dense_max_doc b <= i -> FixedBitSetSpec.bit (live_docs b) i = false;
  d_count : dense_deleted b = dense_max_doc b - FixedBitSet.cardinality (live_docs b);
}.
Record sparse_ok (b : SparseLiveDocs) : Prop := {
  s_bits : SparseSpec.lawful (deleted_docs b);
  s_max : sparse_max_doc b = SparseFixedBitSet.size (deleted_docs b) /\ sparse_max_doc b < 2 ^ 31;
  s_count : sparse_deleted b = SparseFixedBitSet.cardinality (deleted_docs b);
}.

Lemma mask_of_get {B} (get : B -> Z -> R bool) (length : Z) (member : Z -> bool) (b : B) s offset :
  (forall i, 0 <= i < length -> get b i = Ok (member i)) -> FixedBitSetSpec.inv s -> 0 <= offset ->
  masked s offset length member (default_apply_mask (get b) s offset).
Proof. intros Hg Hs Ho. by apply default_mask_ok. Qed.

#[export] Instance dense_bits_laws : BitsLaws DenseLiveDocs.
Proof.
  assert (Hget : forall b, dense_ok b -> forall i, 0 <= i < Z.max (dense_max_doc b) 0 -> dense_get b i = Ok (FixedBitSetSpec.bit (live_docs b) i)).
  { intros b Hb i Hi. pose proof (d_max _ Hb). unfold dense_get. by rewrite FixedBitSetSpec.get_bit by (apply Hb || lia). }
  refine {| valid := dense_ok; member := fun b => FixedBitSetSpec.bit (live_docs b) |}.
  - intros b _. cbn. lia.
  - intros b i Hb Hi. by apply Hget.
  - intros b s offset Hb _ Hs _ Ho. apply (mask_of_get dense_get); [by apply Hget|done|done].
Defined.

#[export] Instance sparse_bits_laws : BitsLaws SparseLiveDocs.
Proof.
  assert (Hget : forall b, sparse_ok b -> forall i, 0 <= i < Z.max (sparse_max_doc b) 0 -> sparse_get b i = Ok (negb (SparseSpec.bit (deleted_docs b) i))).
  { intros b Hb i Hi. destruct (s_bits _ Hb) as [Hs _]. destruct (s_max _ Hb) as [Hm _]. unfold sparse_get, negate. rewrite SparseSpec.get_ok by (done || lia).
    destruct (Z.leb_spec (SparseFixedBitSet.size (deleted_docs b)) i); [lia|done]. }
  refine {| valid := sparse_ok; member := fun b i => negb (SparseSpec.bit (deleted_docs b) i) |}.
  - intros b _. cbn. lia.
  - intros b i Hb Hi. by apply Hget.
  - intros b s offset Hb _ Hs _ Ho. apply (mask_of_get sparse_get _ (fun i => negb (SparseSpec.bit (deleted_docs b) i))); [by apply Hget|done|done].
Defined.

#[export] Instance dense_live_laws : LiveDocsLaws DenseLiveDocs.
Proof.
  assert (Hc : forall b, dense_ok b -> count (FixedBitSetSpec.bit (live_docs b)) 0 (length_of b) = FixedBitSet.cardinality (live_docs b)).
  { intros b Hb. rewrite cardinality_count by apply Hb. pose proof (d_max _ Hb). unfold length_of. cbn [bits_length dense_bits]. symmetry. apply count_widen; [lia|].
    intros i Hi. apply (d_tail _ Hb). lia. }
  assert (Hn : forall b, dense_ok b -> count (fun i => negb (FixedBitSetSpec.bit (live_docs b) i)) 0 (length_of b) = dense_deleted b).
  { intros b Hb. rewrite count_negb, Hc, (d_count _ Hb) by done. unfold length_of. cbn [bits_length dense_bits]. pose proof (d_max _ Hb). lia. }
  constructor; intros b Hb; pose proof (d_max _ Hb) as Hm.
  - cbn [live_docs_iter dense_live_docs member dense_bits_laws]. f_equal; [|rewrite Hc, (d_count _ Hb) by done; lia].
    rewrite (set_bits_ok (FixedBitSetSpec.bit (live_docs b))); [f_equal|lia|].
    + unfold length_of. cbn [bits_length dense_bits]. replace (Z.to_nat (FixedBitSet.num_bits (live_docs b))) with
        (Z.to_nat (Z.max (dense_max_doc b) 0) + Z.to_nat (FixedBitSet.num_bits (live_docs b) - dense_max_doc b))%nat by lia.
      rewrite members_app, (members_false _ (0 + _)), app_nil_r; [done|]. intros i Hi. apply (d_tail _ Hb). lia.
    + intros i Hi. eexists. split; [done|]. apply (searches (live_docs b) i 0 (d_bits _ Hb)); lia.
  - cbn [deleted_docs_iter dense_live_docs member dense_bits_laws]. rewrite Hn by done. f_equal. unfold length_of. cbn [bits_length dense_bits].
    apply word_bits_ok; [lia|]. intros w Hw. assert (Hwz : 0 <= w < zlen (FixedBitSet.words (live_docs b))).
    { rewrite (FixedBitSetSpec.inv_size _ (d_bits _ Hb)). unfold div_ceil in Hw. pose proof (bits2words_index (FixedBitSet.num_bits (live_docs b)) (64 * w)) as Hx.
      rewrite Z.mul_comm, Z.div_mul in Hx by lia. apply Hx. Z.div_mod_to_equations. lia. }
    rewrite SparseSpec.index_ok by done. eexists. split; [done|]. pose proof (at0_range (FixedBitSet.words (live_docs b)) w (FixedBitSetSpec.inv_words _ (d_bits _ Hb))) as Hu.
    split; [by apply in_u_notu|]. intros i Hi. rewrite FixedBitSetSpec.testbit_notu by done. unfold FixedBitSetSpec.bit, wbit.
    by destruct (word_of_unique (64 * w + i) w i) as [-> ->].
  - cbn [deleted_count dense_live_docs member dense_bits_laws]. by rewrite Hn.
Qed.

#[export] Instance sparse_live_laws : LiveDocsLaws SparseLiveDocs.
Proof.
  assert (Hn : forall b, sparse_ok b -> count (fun i => negb (negb (SparseSpec.bit (deleted_docs b) i))) 0 (length_of b) = sparse_deleted b).
  { intros b Hb. destruct (s_max _ Hb) as [Hm _]. rewrite (s_count _ Hb), SparseSpec.cardinality_ok by apply Hb. unfold length_of. cbn [bits_length sparse_live_bits].
    rewrite Hm, Z.max_l by (pose proof (SparseSpec.inv_size _ (proj1 (s_bits _ Hb))); lia). apply count_ext. intros i _. by rewrite negb_involutive. }
  constructor; intros b Hb; destruct (s_max _ Hb) as [Hm H31]; pose proof (SparseSpec.inv_size _ (proj1 (s_bits _ Hb))) as H1; destruct (s_bits _ Hb) as [Hs _].
  - cbn [live_docs_iter sparse_live_docs member sparse_bits_laws]. f_equal.
    + unfold length_of. cbn [bits_length sparse_live_bits]. apply word_bits_ok; [lia|]. intros w Hw. pose proof (SparseSpec.block_count_spec _ H1).
      assert (Hwz : 0 <= w < 64 * SparseFixedBitSet.block_count (SparseFixedBitSet.size (deleted_docs b))) by (unfold div_ceil in Hw; Z.div_mod_to_equations; lia).
      rewrite SparseSpec.word_ok by done. eexists. split; [done|]. split; [apply in_u_notu, SparseSpec.word_u64; done || lia|]. intros i Hi.
      rewrite FixedBitSetSpec.testbit_notu by done. by rewrite SparseSpec.word_bits.
    + pose proof (Hn b Hb) as Hd. rewrite count_negb in Hd. unfold length_of in *. cbn [bits_length sparse_live_bits] in *. lia.
  - cbn [deleted_docs_iter sparse_live_docs member sparse_bits_laws]. rewrite Hn by done. f_equal. unfold length_of. cbn [bits_length sparse_live_bits].
    rewrite (set_bits_ok (SparseSpec.bit (deleted_docs b))); [|lia|intros i Hi; by apply SparseSpec.next_set_bit_ok]. f_equal.
    rewrite Hm, Z.max_l by lia. apply members_ext. intros i _. by rewrite negb_involutive.
  - cbn [deleted_count sparse_live_docs member sparse_bits_laws]. by rewrite Hn.
Qed.

(** Both builds, of the same deletions. *)
Lemma dense_build_ok live max : FixedBitSetSpec.inv live -> 0 <= max <= FixedBitSet.num_bits live -> FixedBitSet.num_bits live < 2 ^ 31 ->
  (forall i, max <= i -> FixedBitSetSpec.bit live i = false) ->
  exists d, dense_build live max None = Ok d /\ dense_ok d /\ live_docs d = live /\ dense_max_doc d = max.
Proof.
  intros Hl Hm Hn Ht. unfold dense_build, check_count. assert (Hc : 0 <= FixedBitSet.cardinality live <= max).
  { rewrite cardinality_count, (count_widen _ (Z.to_nat max)) by (done || lia || (intros; apply Ht; lia)). pose proof (count_range (FixedBitSetSpec.bit live) 0 (Z.to_nat max)). lia. }
  destruct (Z.ltb_spec (max - FixedBitSet.cardinality live) 0); [lia|]. destruct (Z.ltb_spec max (max - FixedBitSet.cardinality live)); [lia|]. cbn [orb].
  eexists. split; [done|]. split; [|done]. constructor; cbn; try done; try lia. apply wraps_small; [lia|]. unfold in_u. change (32 - 1) with 31. lia.
Qed.

Lemma sparse_build_ok deleted : SparseSpec.lawful deleted -> SparseFixedBitSet.size deleted < 2 ^ 31 ->
  exists s, sparse_build deleted (SparseFixedBitSet.size deleted) None = Ok s /\ sparse_ok s /\ deleted_docs s = deleted /\ sparse_max_doc s = SparseFixedBitSet.size deleted.
Proof.
  intros Hl Hn. unfold sparse_build, check_count. pose proof (SparseSpec.inv_size _ (proj1 Hl)).
  assert (Hc : 0 <= SparseFixedBitSet.cardinality deleted <= SparseFixedBitSet.size deleted).
  { rewrite SparseSpec.cardinality_ok by done. pose proof (count_range (SparseSpec.bit deleted) 0 (Z.to_nat (SparseFixedBitSet.size deleted))). lia. }
  destruct (Z.ltb_spec (SparseFixedBitSet.cardinality deleted) 0); [lia|]. destruct (Z.ltb_spec (SparseFixedBitSet.size deleted) (SparseFixedBitSet.cardinality deleted)); [lia|].
  eexists. split; [done|]. split; [|done]. constructor; cbn; try done. apply wraps_small; [lia|]. unfold in_u. change (32 - 1) with 31. lia.
Qed.

(** C18: one set of deletions, two representations: a dense set of the live
    documents and a sparse set of the deleted ones are both accepted, count
    the same deletions, answer [get] alike, and iterate the same live and the
    same deleted documents, each in order, with the same costs: together
    every document below [max_doc] exactly once. *)
Theorem live_docs_representations_agree (live : FixedBitSet.t) (deleted : SparseFixedBitSet.t) (max : Z) :
  FixedBitSetSpec.inv live -> SparseSpec.lawful deleted -> SparseFixedBitSet.size deleted = max ->
  max <= FixedBitSet.num_bits live -> FixedBitSet.num_bits live < 2 ^ 31 -> (forall i, max <= i -> FixedBitSetSpec.bit live i = false) ->
  (forall i, 0 <= i < max -> FixedBitSetSpec.bit live i = negb (SparseSpec.bit deleted i)) ->
  exists d s, dense_build live max None = Ok d /\ sparse_build deleted max None = Ok s /\
    (forall i, 0 <= i < max -> bits_get d i = Ok (FixedBitSetSpec.bit live i) /\ bits_get s i = bits_get d i) /\
    deleted_count s = deleted_count d /\
    live_docs_iter d = (Ok (members (FixedBitSetSpec.bit live) 0 (Z.to_nat max)), max - deleted_count d) /\ live_docs_iter s = live_docs_iter d /\
    deleted_docs_iter d = (Ok (members (fun i => negb (FixedBitSetSpec.bit live i)) 0 (Z.to_nat max)), deleted_count d) /\
    deleted_docs_iter s = deleted_docs_iter d.
Proof.
  intros Hl Hd Hsz Hm Hn Ht He. pose proof (SparseSpec.inv_size _ (proj1 Hd)).
  destruct (dense_build_ok live max Hl ltac:(lia) Hn Ht) as (d & Ed & Hdok & Ld & Md). destruct (sparse_build_ok deleted Hd ltac:(lia)) as (s & Es & Hsok & Ls & Ms).
  rewrite Hsz in Es, Ms. exists d, s. split; [done|]. split; [done|].
  assert (Nd : length_of d = Z.to_nat max) by (unfold length_of; cbn; lia). assert (Ns : length_of s = Z.to_nat max) by (unfold length_of; cbn; lia).
  assert (Hmem : forall i, 0 <= i < max -> member s i = member d i) by (intros i Hi; cbn; by rewrite Ls, Ld, He).
  assert (Hneg : forall i, 0 <= i < max -> negb (member s i) = negb (member d i)) by (intros i Hi; by rewrite Hmem).
  assert (Hsv : valid s) by exact Hsok. assert (Hdv : valid d) by exact Hdok.
  assert (Hlive : live_docs_iter s = live_docs_iter d).
  { rewrite (law_live s Hsv), (law_live d Hdv), Ns, Nd. f_equal; [f_equal; apply members_ext|apply count_ext]; intros; apply Hmem; lia. }
  assert (Hdel : deleted_docs_iter s = deleted_docs_iter d).
  { rewrite (law_deleted s Hsv), (law_deleted d Hdv), Ns, Nd. f_equal; [f_equal; apply members_ext|apply count_ext]; intros; apply Hneg; lia. }
  assert (Hbit : member d = FixedBitSetSpec.bit live) by (cbn; by rewrite Ld).
  split; [|split; [|split; [|split; [done|split; [|done]]]]].
  - intros i Hi. rewrite (law_get s i Hsv), (law_get d i Hdv), Hmem, Hbit by (done || (cbn; lia)). done.
  - rewrite (law_count s Hsv), (law_count d Hdv), Ns, Nd. apply count_ext. intros; apply Hneg; lia.
  - rewrite (law_live d Hdv), (law_count d Hdv), Nd, count_negb, Hbit. f_equal. lia.
  - by rewrite (law_deleted d Hdv), (law_count d Hdv), Nd, Hbit.
Qed.

(** Six documents, 1 and 4 deleted. *)
Lemma live_docs_representations_agree_witness :
  exists deleted d, SparseFixedBitSet.or_iter (SparseFixedBitSet.mk [0] [None] 6 0) [1; 4] = Ok deleted /\
    dense_build (FixedBitSet.mk [0x2d] 6) 6 None = Ok d /\ deleted_docs_iter d = (Ok [1; 4], deleted_count d) /\
    live_docs_iter d = (Ok [0; 2; 3; 5], 6 - deleted_count d).
Proof.
  destruct (SparseSpec.new_lawful 6) as (s0 & E0 & H0 & Z0); [lia|]. destruct (SparseSpec.or_iter_lawful s0 [1; 4] H0) as (del & E & Hl & Hz & Hb).
  { rewrite Z0. repeat (apply Forall_cons; [lia|]). by apply Forall_nil. }
  vm_compute in E0. injection E0 as <-. exists del. set (live := FixedBitSet.mk [0x2d] 6).
  assert (Hlive : FixedBitSetSpec.inv live).
  { constructor; [cbn; lia|repeat (apply Forall_cons; [by vm_compute|]); by apply Forall_nil|reflexivity|]. intros i Hi. cbn in Hi.
    destruct (Z.lt_ge_cases i 64) as [Hlt|Hge]; [|by apply wbit_out]. unfold FixedBitSetSpec.bit, wbit. rewrite (Z.div_small i 64), (Z.mod_small i 64) by lia.
    apply (testbit_above 6); [by vm_compute|done]. }
  destruct (live_docs_representations_agree live del 6 Hlive Hl Hz ltac:(cbn; lia) ltac:(by vm_compute) (FixedBitSetSpec.inv_ghost _ Hlive)) as (d & s & Ed & _ & _ & _ & Ei & _ & Ex & _).
  - intros i Hi. rewrite Hb by lia. assert (i = 0 \/ i = 1 \/ i = 2 \/ i = 3 \/ i = 4 \/ i = 5) as Hc by lia. by repeat destruct Hc as [->|Hc]; try subst i.
  - exists d. split; [exact E|]. split; [exact Ed|]. split; [exact Ex|exact Ei].
Defined.
