(* ===== verification/Lz4.v ===== *)
(** LZ4 blocks ([crates/lucene-codecs/src/lz4.rs]): the decoder over any
    input and its slice fast path, and the compressor with both hash tables.
    A destination buffer is passed and returned; a failing decoder's partial
    output is not kept.  The proofs are in [Lz4Decode.v] and [Lz4Encode.v]. *)
From stdpp Require Import strings.
From S2P Require Import Prelude StoreError ZigZag DataOutput DataInput SliceInput.

Module Lz4.

Definition MIN_MATCH : Z := 4.
Definition LAST_LITERALS : Z := 5.
Definition MAX_DISTANCE : Z := Z.shiftl 1 16.
Definition MEMORY_USAGE : Z := 14.
Definition HASH_LOG_HC : Z := 15.
Definition HASH_TABLE_SIZE_HC : Z := Z.shiftl 1 HASH_LOG_HC.
Definition MAX_ATTEMPTS : Z := 256.
Definition HC_MASK : Z := MAX_DISTANCE - 1.

(** ** Buffers. *)

(** [dest[at..at + xs.len()].copy_from_slice(xs)]. *)
Definition write_at (dest : list byte) (at_ : Z) (xs : list byte) : list byte :=
  take (Z.to_nat at_) dest ++ xs ++ drop (Z.to_nat (at_ + zlen xs)) dest.

(** [buf[from..from + n]]. *)
Definition sub (buf : list byte) (from n : Z) : list byte :=
  take (Z.to_nat n) (drop (Z.to_nat from) buf).

(** [dest.copy_within(from..from + n, to)]. *)
Definition copy_within (dest : list byte) (from n to : Z) : list byte :=
  write_at dest to (sub dest from n).

(** [while written < len { .. }]: each step at least doubles what is written
    or ends the copy; [fuel] is [len]. *)
Fixpoint copy_doubling (fuel : nat) (dest : list byte) (from to len written : Z) : list byte :=
  match fuel with
  | O => dest
  | Datatypes.S k =>
      if written <? len then
        let period := to - from in
        let n := Z.min (period + written) (len - written) in
        copy_doubling k (copy_within dest from n (to + written)) from to len (written + n)
      else dest
  end.

Definition copy_match (dest : list byte) (from to len : Z) : list byte :=
  let period := to - from in
  if len <=? period then copy_within dest from len to
  else if period =? 1 then write_at dest to (replicate (Z.to_nat len) (at0 dest from))
  else copy_doubling (Z.to_nat len) dest from to len 0.

(** ** [decompress]: over any [DataInput]. *)
Section decompress.
Context {R : Type} `{DataInput R}.

(** The loop of [read_length_extension]; every round reads a byte. *)
Fixpoint length_extension_loop (fuel : nat) (len : Z) : M Error R Z :=
  match fuel with
  | O => fail (Corrupted "LZ4 length extension overflows")
  | Datatypes.S k =>
      let* b := read_byte in
      match checked_add len b with
      | None => fail (Corrupted "LZ4 length extension overflows")
      | Some next => if negb (b =? 0xFF) then ret next else length_extension_loop k next
      end
  end.

Definition read_length_extension (base : Z) : M Error R Z :=
  let* r := get_state in length_extension_loop (Datatypes.S (Z.to_nat (remaining r))) base.

(** The literal run of a sequence: the destination and [d_off] after it. *)
Definition sequence_literals (token : Z) (dest : list byte) (d_off : Z) : M Error R (list byte * Z) :=
  let literal_len := Z.shiftr token 4 in
  let* literal_len := (if literal_len =? 0x0F then read_length_extension literal_len else ret literal_len) in
  if negb (literal_len =? 0) then
    match checked_add d_off literal_len with
    | None => fail (Eof d_off)
    | Some end_ =>
        if zlen dest <? end_ then fail (Eof end_)
        else let* run := read_bytes (end_ - d_off) in ret (write_at dest d_off run, end_)
    end
  else ret (dest, d_off).

(** The match of a sequence. *)
Definition sequence_match (token : Z) (dest : list byte) (d_off : Z) : M Error R (list byte * Z) :=
  let* match_dec := read_u16 in
  if match_dec =? 0 then fail (Corrupted "LZ4 match offset 0 is invalid")
  else
    let match_len := Z.land token 0x0F in
    let* match_len := (if match_len =? 0x0F then read_length_extension match_len else ret match_len) in
    match checked_add match_len MIN_MATCH with
    | None => fail (Corrupted "LZ4 match length overflows")
    | Some match_len =>
        if d_off <? match_dec then
          fail (Corrupted "LZ4 match references before the start of the buffer")
        else
          let src_start := d_off - match_dec in
          match checked_add d_off match_len with
          | None => fail (Eof d_off)
          | Some end_ =>
              if zlen dest <? end_ then fail (Eof end_)
              else ret (copy_match dest src_start d_off match_len, end_)
          end
    end.

(** [loop { .. }]: a sequence that does not end the block writes at least
    [MIN_MATCH] bytes below [dest_end]; [fuel] is the space left plus one. *)
Fixpoint decompress_loop (fuel : nat) (dest_end : Z) (dest : list byte) (d_off : Z)
    : M Error R (list byte * Z) :=
  match fuel with
  | O => fail (Corrupted "LZ4 block does not end")
  | Datatypes.S k =>
      let* token := read_byte in
      let* st := sequence_literals token dest d_off in
      let '(dest, d_off) := st in
      if dest_end <=? d_off then ret (dest, d_off)
      else
        let* st := sequence_match token dest d_off in
        let '(dest, d_off) := st in
        if dest_end <=? d_off then ret (dest, d_off) else decompress_loop k dest_end dest d_off
  end.

Definition decompress (decompressed_len : Z) (dest : list byte) (d_off : Z) : M Error R (list byte * Z) :=
  match checked_add d_off decompressed_len with
  | None => fail (Eof d_off)
  | Some dest_end =>
      if zlen dest <? dest_end then fail (Eof dest_end)
      else decompress_loop (Datatypes.S (Z.to_nat decompressed_len)) dest_end dest d_off
  end.
End decompress.

(** ** [decompress_slice]. *)

(** [slice_length_extension]: the length and the new [s]. *)
Fixpoint slice_extension_loop (src : list byte) (fuel : nat) (s len : Z) : result Error (Z * Z) :=
  match fuel with
  | O => Err (Eof s)
  | Datatypes.S k =>
      match zget src s with
      | None => Err (Eof s)
      | Some b =>
          match checked_add len b with
          | None => Err (Corrupted "LZ4 length extension overflows")
          | Some len => if negb (b =? 0xFF) then Ok (len, s + 1) else slice_extension_loop src k (s + 1) len
          end
      end
  end.
Definition slice_length_extension (src : list byte) (s base : Z) : result Error (Z * Z) :=
  slice_extension_loop src (Datatypes.S (length src)) s base.

Definition rbind {A B} (x : result Error A) (k : A -> result Error B) : result Error B :=
  match x with Ok a => k a | Err e => Err e end.
Notation "'let?' x ':=' m 'in' k" := (rbind m (fun x => k))
  (at level 200, x pattern, m at level 100, k at level 200, right associativity).
Definition ok_or {A} (o : option A) (e : Error) : result Error A :=
  match o with Some a => Ok a | None => Err e end.

(** The literal run: [(dest, s, d)] after it. *)
Definition slice_literals (src : list byte) (eof : Z -> Error) (token dest_end : Z)
    (dest : list byte) (s d : Z) : result Error (list byte * Z * Z) :=
  let lit := Z.shiftr token 4 in
  if negb (lit =? 0) then
    if (lit <? 0x0F) && (s + 16 <=? zlen src) && (d + 16 <=? dest_end) then
      Ok (write_at dest d (sub src s 16), s + lit, d + lit)
    else
      let? ls := (if lit =? 0x0F then slice_length_extension src s lit else Ok (lit, s)) in
      let '(lit, s) := ls in
      let? end_ := ok_or (checked_add d lit) (Eof d) in
      if zlen dest <? end_ then Err (Eof end_)
      else
        let? s_end := ok_or (checked_add s lit) (eof s) in
        let? run := ok_or (zslice src s s_end) (eof s) in
        Ok (write_at dest d run, s + lit, d + lit)
  else Ok (dest, s, d).

(** The match: [(dest, s, d)] after it. *)
Definition slice_match (src : list byte) (eof : Z -> Error) (token dest_end : Z)
    (dest : list byte) (s d : Z) : result Error (list byte * Z * Z) :=
  let? dec_bytes := ok_or (zslice src s (s + 2)) (eof s) in
  let dec := from_le dec_bytes in
  let s := s + 2 in
  if dec =? 0 then Err (Corrupted "LZ4 match offset 0 is invalid")
  else if d <? dec then Err (Corrupted "LZ4 match references before the start of the buffer")
  else
    let match_len := Z.land token 0x0F in
    let short := negb (match_len =? 0x0F) in
    let? ls := (if negb short then slice_length_extension src s match_len else Ok (match_len, s)) in
    let '(match_len, s) := ls in
    let? match_len := ok_or (checked_add match_len MIN_MATCH) (Corrupted "LZ4 match length overflows") in
    let from := d - dec in
    if short && (8 <=? dec) && (d + 24 <=? dest_end) then
      let dest := copy_within dest from 8 d in
      let dest := copy_within dest (from + 8) 8 (d + 8) in
      let dest := if 16 <? match_len then copy_within dest (from + 16) 8 (d + 16) else dest in
      Ok (dest, s, d + match_len)
    else
      let? end_ := ok_or (checked_add d match_len) (Eof d) in
      if zlen dest <? end_ then Err (Eof end_)
      else Ok (copy_match dest from d match_len, s, end_).

Fixpoint slice_loop (src : list byte) (eof : Z -> Error) (fuel : nat) (dest_end : Z)
    (dest : list byte) (s d : Z) : result Error (list byte * Z * Z) :=
  match fuel with
  | O => Err (Corrupted "LZ4 block does not end")
  | Datatypes.S k =>
      let? token := ok_or (zget src s) (eof s) in
      let? st := slice_literals src eof token dest_end dest (s + 1) d in
      let '(dest, s, d) := st in
      if dest_end <=? d then Ok (dest, s, d)
      else
        let? st := slice_match src eof token dest_end dest s d in
        let '(dest, s, d) := st in
        if dest_end <=? d then Ok (dest, s, d) else slice_loop src eof k dest_end dest s d
  end.

Definition decompress_slice (decompressed_len : Z) (dest : list byte) (d_off : Z)
    : M Error SliceInput.t (list byte * Z) := fun input =>
  match checked_add d_off decompressed_len with
  | None => (Err (Eof d_off), input)
  | Some dest_end =>
      if zlen dest <? dest_end then (Err (Eof dest_end), input)
      else
        let src := SliceInput.as_slice input in
        let eof s := Eof (saturating_add (SliceInput.position input) s) in
        match slice_loop src eof (Datatypes.S (Z.to_nat decompressed_len)) dest_end dest 0 d_off with
        | Err e => (Err e, input)
        | Ok (dest, s, d) => (let* _ := skip s in ret (dest, d)) input
        end
  end.

(** ** Hashing and match lengths. *)

(** Native-endian in the source, which only compares and hashes the result;
    every offset passed has four bytes after it. *)
Definition read4 (buf : list byte) (i : Z) : Z := from_le (sub buf i 4).
Definition hash (v hash_bits : Z) : Z := Z.shiftr (wrapu 32 (v * 0x9E3779B1)) (32 - hash_bits).

Fixpoint common_tail (fuel : nat) (b : list byte) (o1 o2 max n : Z) : Z :=
  match fuel with
  | O => n
  | Datatypes.S k =>
      if (n <? max) && (at0 b (o1 + n) =? at0 b (o2 + n)) then common_tail k b o1 o2 max (n + 1) else n
  end.

Fixpoint common_words (fuel : nat) (b : list byte) (o1 o2 max n : Z) : Z :=
  match fuel with
  | O => common_tail (Z.to_nat (max - n)) b o1 o2 max n
  | Datatypes.S k =>
      if n + 8 <=? max then
        let x := from_le (sub b (o1 + n) 8) in
        let y := from_le (sub b (o2 + n) 8) in
        if negb (x =? y) then n + trailing_zeros 64 (Z.lxor x y) / 8
        else common_words k b o1 o2 max (n + 8)
      else common_tail (Z.to_nat (max - n)) b o1 o2 max n
  end.

Definition common_bytes (b : list byte) (o1 o2 limit : Z) : Z :=
  let max := Z.min (limit - o1) (limit - o2) in
  common_words (Z.to_nat max) b o1 o2 max 0.

(** ** Sequences. *)

(** [while l >= 0xFF { push(0xFF); l -= 0xFF }; push(l)]. *)
Fixpoint encode_len_loop (fuel : nat) (l : Z) (out : list byte) : list byte :=
  match fuel with
  | O => out
  | Datatypes.S k => if 0xFF <=? l then encode_len_loop k (l - 0xFF) (out ++ [0xFF]) else out ++ [wrapu 8 l]
  end.
Definition encode_len (l : Z) (out : list byte) : list byte := encode_len_loop (Datatypes.S (Z.to_nat l)) l out.

Definition encode_literals (bytes : list byte) (token anchor literal_len : Z) (out : list byte) : list byte :=
  let out := out ++ [token] in
  let out := if 0x0F <=? literal_len then encode_len (literal_len - 0x0F) out else out in
  out ++ sub bytes anchor literal_len.

Definition encode_last_literals (bytes : list byte) (anchor literal_len : Z) (out : list byte) : list byte :=
  let token := shlu 8 (wrapu 8 (Z.min literal_len 0x0F)) 4 in
  encode_literals bytes token anchor literal_len out.

Definition encode_sequence (bytes : list byte) (anchor match_ref match_off match_len : Z) (out : list byte)
    : list byte :=
  let literal_len := match_off - anchor in
  let token := Z.lor (shlu 8 (wrapu 8 (Z.min literal_len 0x0F)) 4)
                     (wrapu 8 (Z.min (match_len - MIN_MATCH) 0x0F)) in
  let out := encode_literals bytes token anchor literal_len out in
  let match_dec := match_off - match_ref in
  let out := out ++ to_le 2 (wrapu 16 match_dec) in
  if MIN_MATCH + 0x0F <=? match_len then encode_len (match_len - 0x0F - MIN_MATCH) out else out.

(** ** [trait HashTable]. *)
Class HashTable (T : Type) : Type := {
  reset : list byte -> Z -> Z -> T -> T;
  init_dictionary : list byte -> Z -> T -> T;
  get : list byte -> Z -> T -> option Z * T;
  previous : list byte -> Z -> T -> option Z * T;
}.

(** [FastCompressionHashTable]. *)
Record Fast : Type := mk_fast { table : list Z; hash_log : Z; bits_per_offset : Z; fbase : Z }.
Definition fast_new : Fast := mk_fast [] 0 0 0.

Definition fast_reset (bytes : list byte) (off len : Z) (t : Fast) : Fast :=
  let '(bits, bits_log) := if Z.max (len - LAST_LITERALS) 0 <? Z.shiftl 1 16 then (16, 4) else (32, 5) in
  let log := MEMORY_USAGE + 3 - bits_log in
  if (zlen (table t) <? Z.shiftl 1 log) || (bits_per_offset t <? bits)
  then mk_fast (replicate (Z.to_nat (Z.shiftl 1 log)) 0) log bits off
  else mk_fast (table t) log (bits_per_offset t) off.

(** [for i in 0..dict_len]. *)
Fixpoint fast_init_loop (n : nat) (i : Z) (bytes : list byte) (t : Fast) : Fast :=
  match n with
  | O => t
  | Datatypes.S k =>
      let h := hash (read4 bytes (fbase t + i)) (hash_log t) in
      fast_init_loop k (i + 1) bytes (mk_fast (set_at (table t) h (wrapu 32 i)) (hash_log t) (bits_per_offset t) (fbase t))
  end.
Definition fast_init_dictionary (bytes : list byte) (dict_len : Z) (t : Fast) : Fast :=
  fast_init_loop (Z.to_nat dict_len) 0 bytes t.

Definition fast_get (bytes : list byte) (off : Z) (t : Fast) : option Z * Fast :=
  let v := read4 bytes off in
  let h := hash v (hash_log t) in
  let prev := at0 (table t) h in
  let t' := mk_fast (set_at (table t) h (wrapu 32 (off - fbase t))) (hash_log t) (bits_per_offset t) (fbase t) in
  let candidate := fbase t + prev in
  if (candidate <? off) && (off - candidate <? MAX_DISTANCE) && (read4 bytes candidate =? v)
  then (Some candidate, t') else (None, t').

#[global] Instance fast_hash_table : HashTable Fast := {|
  reset := fast_reset;
  init_dictionary := fast_init_dictionary;
  get := fast_get;
  previous := fun _ _ t => (None, t);
|}.

(** [HighCompressionHashTable]. *)
Record HC : Type := mk_hc {
  hash_table : list Z;
  chain_table : list Z;
  hbase : Z;
  next : Z;
  end_ : Z;
  attempts : Z;
}.

Definition hc_new : HC :=
  mk_hc (replicate (Z.to_nat HASH_TABLE_SIZE_HC) (-1)) (replicate (Z.to_nat MAX_DISTANCE) 0xFFFF) 0 0 0 0.

Definition add_hash (bytes : list byte) (off : Z) (t : HC) : HC :=
  let h := hash (read4 bytes off) HASH_LOG_HC in
  let prev := at0 (hash_table t) h in
  let delta := off - prev in
  let delta := if (delta <=? 0) || (MAX_DISTANCE <=? delta) then MAX_DISTANCE - 1 else delta in
  mk_hc (set_at (hash_table t) h (wraps 32 off)) (set_at (chain_table t) (Z.land off HC_MASK) (wrapu 16 delta))
        (hbase t) (next t) (end_ t) (attempts t).

Definition hc_reset (bytes : list byte) (off len : Z) (t : HC) : HC :=
  let fill := fun _ : Z => 0xFFFF in
  let '(hash, chain) :=
    if end_ t - hbase t <? zlen (chain_table t) then
      let start_offset := Z.land (hbase t) HC_MASK in
      let end_offset := if end_ t =? 0 then 0 else Z.land (end_ t - 1) HC_MASK + 1 in
      if start_offset <? end_offset then (hash_table t, map_range fill (chain_table t) start_offset end_offset)
      else (hash_table t, map_range fill (map_range fill (chain_table t) 0 end_offset)
                                    start_offset (zlen (chain_table t)))
    else (map (fun _ => -1) (hash_table t), map fill (chain_table t)) in
  mk_hc hash chain off off (off + len) (attempts t).

Fixpoint add_hashes (n : nat) (off : Z) (bytes : list byte) (t : HC) : HC :=
  match n with
  | O => t
  | Datatypes.S k => add_hashes k (off + 1) bytes (add_hash bytes off t)
  end.

Definition set_next (t : HC) (n : Z) : HC :=
  mk_hc (hash_table t) (chain_table t) (hbase t) n (end_ t) (attempts t).
Definition set_attempts (t : HC) (n : Z) : HC :=
  mk_hc (hash_table t) (chain_table t) (hbase t) (next t) (end_ t) n.

Definition hc_init_dictionary (bytes : list byte) (dict_len : Z) (t : HC) : HC :=
  set_next (add_hashes (Z.to_nat dict_len) (hbase t) bytes t) (next t + dict_len).

(** The chain walk: [attempts] stops it after [MAX_ATTEMPTS] rounds. *)
Fixpoint hc_walk (fuel : nat) (bytes : list byte) (v min candidate : Z) (t : HC) : option Z * HC :=
  match fuel with
  | O => (None, t)
  | Datatypes.S k =>
      if (min <=? candidate) && (attempts t <? MAX_ATTEMPTS) then
        if read4 bytes candidate =? v then (Some candidate, t)
        else hc_walk k bytes v min (candidate - at0 (chain_table t) (Z.land candidate HC_MASK))
                     (set_attempts t (attempts t + 1))
      else (None, t)
  end.

Definition hc_get (bytes : list byte) (off : Z) (t : HC) : option Z * HC :=
  let t := if next t <? off then set_next (add_hashes (Z.to_nat (off - next t)) (next t) bytes t) off else t in
  let v := read4 bytes off in
  let h := hash v HASH_LOG_HC in
  let t := set_attempts t 0 in
  let candidate := at0 (hash_table t) h in
  if wraps 32 off <=? candidate then (None, t)
  else
    let min := wraps 32 (Z.max (hbase t) (off + 1 - Z.min MAX_DISTANCE (off + 1))) in
    hc_walk (Datatypes.S (Z.to_nat MAX_ATTEMPTS)) bytes v min candidate t.

Definition hc_previous (bytes : list byte) (off : Z) (t : HC) : option Z * HC :=
  let v := read4 bytes off in
  let candidate := off - at0 (chain_table t) (Z.land off HC_MASK) in
  hc_walk (Datatypes.S (Z.to_nat MAX_ATTEMPTS)) bytes v (hbase t) candidate t.

#[global] Instance hc_hash_table : HashTable HC := {|
  reset := hc_reset;
  init_dictionary := hc_init_dictionary;
  get := hc_get;
  previous := hc_previous;
|}.

(** ** [compress_with_dictionary]. *)
Section compress.
Context {T : Type} `{HashTable T}.

(** [loop { if off >= match_limit { break 'main } .. }]: the match found and
    where, or [None] for [break 'main]. *)
Fixpoint find_match (fuel : nat) (bytes : list byte) (match_limit off : Z) (ht : T) : option (Z * Z) * T :=
  match fuel with
  | O => (None, ht)
  | Datatypes.S k =>
      if match_limit <=? off then (None, ht)
      else match get bytes off ht with
           | (Some r, ht) => (Some (r, off), ht)
           | (None, ht) => find_match k bytes match_limit (off + 1) ht
           end
  end.

(** [while let Some(candidate) = r { .. }]: candidates strictly decrease. *)
Fixpoint better_match (fuel : nat) (bytes : list byte) (off limit min : Z) (r : option Z)
    (match_ref match_len : Z) (ht : T) : Z * Z * T :=
  match fuel, r with
  | Datatypes.S k, Some candidate =>
      if candidate <? min then (match_ref, match_len, ht)
      else
        let candidate_len := MIN_MATCH + common_bytes bytes (candidate + MIN_MATCH) (off + MIN_MATCH) limit in
        let '(match_ref, match_len) :=
          if match_len <? candidate_len then (candidate, candidate_len) else (match_ref, match_len) in
        let '(r, ht) := previous bytes candidate ht in
        better_match k bytes off limit min r match_ref match_len ht
  | _, _ => (match_ref, match_len, ht)
  end.

(** ['main: while off <= limit]: the output and the last anchor; every round
    advances [off]. *)
Fixpoint main_loop (fuel : nat) (bytes : list byte) (dict_off limit match_limit off anchor : Z)
    (out : list byte) (ht : T) : list byte * Z * T :=
  match fuel with
  | O => (out, anchor, ht)
  | Datatypes.S k =>
      if off <=? limit then
        match find_match (Z.to_nat (match_limit - off) + 1) bytes match_limit off ht with
        | (None, ht) => (out, anchor, ht)
        | (Some (match_ref, off), ht) =>
            let match_len := MIN_MATCH + common_bytes bytes (match_ref + MIN_MATCH) (off + MIN_MATCH) limit in
            let min := Z.max dict_off (off + 1 - Z.min MAX_DISTANCE (off + 1)) in
            let '(r, ht) := previous bytes match_ref ht in
            let '(match_ref, match_len, ht) :=
              better_match (Z.to_nat off + 1) bytes off limit min r match_ref match_len ht in
            let out := encode_sequence bytes anchor match_ref off match_len out in
            main_loop k bytes dict_off limit match_limit (off + match_len) (off + match_len) out ht
        end
      else (out, anchor, ht)
  end.

Definition compress_with_dictionary (bytes : list byte) (dict_off dict_len len : Z) (out : list byte) (ht : T)
    : list byte * T :=
  let end_ := dict_off + dict_len + len in
  let off := dict_off + dict_len in
  let anchor := off in
  let '(out, anchor, ht) :=
    if LAST_LITERALS + MIN_MATCH <? len then
      let limit := end_ - LAST_LITERALS in
      let match_limit := limit - MIN_MATCH in
      let ht := reset bytes dict_off (dict_len + len) ht in
      let ht := init_dictionary bytes dict_len ht in
      main_loop (Z.to_nat len) bytes dict_off limit match_limit off anchor out ht
    else (out, anchor, ht) in
  (encode_last_literals bytes anchor (end_ - anchor) out, ht).

Definition compress_into (bytes out : list byte) (ht : T) : list byte * T :=
  compress_with_dictionary bytes 0 0 (zlen bytes) out ht.
End compress.

Definition compress (bytes : list byte) : list byte := fst (compress_into bytes [] fast_new).

End Lz4.
