(* ===== verification/Lz4Decode.v ===== *)
(** The LZ4 decoders ([crates/lucene-codecs/src/lz4.rs]) against the block
    format: overlapping copies are byte by byte, and both [decompress] over
    any lawful input and the slice fast path with its wild copies compute the
    same reference decoder. *)
From stdpp Require Import strings.
From S2P Require Import Prelude StoreError ZigZag DataOutput DataInput SliceInput Wire BitWords Lz4.
Import Lz4.

(** ** Buffer operations, position by position. *)
Lemma zlen_take_exact (l : list Z) n : 0 <= n <= zlen l -> zlen (take (Z.to_nat n) l) = n.
Proof. intros. unfold zlen in *. rewrite length_take. lia. Qed.

Lemma zlen_sub buf a n : 0 <= a -> 0 <= n -> a + n <= zlen buf -> zlen (sub buf a n) = n.
Proof. intros. unfold sub, zlen in *. rewrite length_take, length_drop. lia. Qed.

Lemma at0_sub buf a n k : 0 <= a -> 0 <= k < n -> at0 (sub buf a n) k = at0 buf (a + k).
Proof. intros. unfold sub. rewrite at0_take, at0_drop by lia. done. Qed.

Lemma zlen_write_at dest a xs : 0 <= a -> a + zlen xs <= zlen dest -> zlen (write_at dest a xs) = zlen dest.
Proof. apply zlen_splice. Qed.

Lemma at0_write_at dest a xs k : 0 <= a -> a + zlen xs <= zlen dest -> 0 <= k ->
  at0 (write_at dest a xs) k = if (a <=? k) && (k <? a + zlen xs) then at0 xs (k - a) else at0 dest k.
Proof. apply at0_splice. Qed.

Lemma write_at_nil dest a : 0 <= a -> write_at dest a [] = dest.
Proof. intros. unfold write_at. cbn [app]. rewrite zlen_nil, Z.add_0_r. apply take_drop. Qed.

Lemma zlen_copy_within dest a n b : 0 <= a -> 0 <= n -> a + n <= zlen dest -> 0 <= b -> b + n <= zlen dest ->
  zlen (copy_within dest a n b) = zlen dest.
Proof. intros. unfold copy_within. rewrite zlen_write_at; rewrite ?zlen_sub by lia; lia. Qed.

Lemma at0_copy_within dest a n b k : 0 <= a -> 0 <= n -> a + n <= zlen dest -> 0 <= b -> b + n <= zlen dest -> 0 <= k ->
  at0 (copy_within dest a n b) k = if (b <=? k) && (k <? b + n) then at0 dest (a + (k - b)) else at0 dest k.
Proof.
  intros. unfold copy_within. rewrite at0_write_at by (rewrite ?zlen_sub by lia; lia).
  rewrite zlen_sub by lia. destruct (Z.leb_spec b k), (Z.ltb_spec k (b + n)); try done. cbn [andb].
  by rewrite at0_sub by lia.
Qed.

(** ** Overlapping copies.  [periodic dest res from to n]: [res] is [dest]
    except on [to, to + n), where every byte repeats the one a period
    earlier, itself possibly just written. *)
Definition periodic (dest res : list byte) (from to n : Z) : Prop :=
  zlen res = zlen dest
  /\ (forall k, 0 <= k -> k < to \/ to + n <= k -> at0 res k = at0 dest k)
  /\ (forall k, to <= k < to + n -> at0 res k = at0 res (k - (to - from))).

(** The reference: [for i in 0..n { dest[to + i] = dest[from + i] }]. *)
Fixpoint byte_copy (n : nat) (dest : list byte) (from to : Z) : list byte :=
  match n with
  | O => dest
  | Datatypes.S k => byte_copy k (set_at dest to (at0 dest from)) (from + 1) (to + 1)
  end.

Lemma byte_copy_periodic n dest from to : 0 <= from < to -> to + Z.of_nat n <= zlen dest ->
  periodic dest (byte_copy n dest from to) from to (Z.of_nat n).
Proof.
  revert dest from to. induction n as [|n IH]; intros dest from to Hf Hl; cbn [byte_copy].
  { split; [done|]. split; intros; [done|lia]. }
  destruct (IH (set_at dest to (at0 dest from)) (from + 1) (to + 1)) as (H1 & H2 & H3);
    [lia|rewrite zlen_set_at; lia|]. rewrite zlen_set_at in H1. split; [done|]. split.
  - intros k Hk0 Hk. rewrite H2, at0_set by lia. destruct (Z.eqb_spec k to); [lia|done].
  - intros k Hk. destruct (Z.eq_dec k to) as [->|Hne].
    + rewrite !H2, !at0_set by lia. rewrite Z.eqb_refl.
      destruct (Z.eqb_spec (to - (to - from)) to); [lia|]. f_equal. lia.
    + rewrite H3 by lia. f_equal. lia.
Qed.

(** The bytes of a periodic extension are determined: same below [to], same
    up to [to + n]. *)
Lemma periodic_agree d1 d2 r1 r2 from to n1 n2 : 0 <= from < to -> periodic d1 r1 from to n1 -> periodic d2 r2 from to n2 ->
  (forall k, 0 <= k < to -> at0 d1 k = at0 d2 k) ->
  forall k, 0 <= k < to + Z.min n1 n2 -> at0 r1 k = at0 r2 k.
Proof.
  intros Hf (_ & A1 & B1) (_ & A2 & B2) He k Hk.
  destruct Hk as [Hk0 Hk]. revert Hk. pattern k. apply Zlt_0_ind; [|done]. clear k Hk0.
  intros k IH Hk0 Hk. destruct (Z_lt_dec k to).
  - rewrite A1, A2 by lia. apply He. lia.
  - rewrite B1, B2 by lia. apply IH; lia.
Qed.

Lemma periodic_unique dest r1 r2 from to n : 0 <= from < to ->
  periodic dest r1 from to n -> periodic dest r2 from to n -> r1 = r2.
Proof.
  intros Hf H1 H2. pose proof (periodic_agree _ _ _ _ _ _ _ _ Hf H1 H2 (fun _ _ => eq_refl)) as He.
  destruct H1 as (L1 & A1 & _), H2 as (L2 & A2 & _). apply words_ext; [congruence|].
  intros k Hk. destruct (Z_lt_dec k (to + n)); [apply He; lia|]. rewrite A1, A2 by lia. done.
Qed.

(** Doubling keeps [written] a whole number of periods, so that the source of
    the next step is in phase. *)
Lemma copy_doubling_mod dest0 from to len : 0 <= from < to -> to + len <= zlen dest0 ->
  forall fuel dest written, len - written <= Z.of_nat fuel -> 0 <= written <= len ->
  (written = len \/ written mod (to - from) = 0) -> zlen dest = zlen dest0 ->
  (forall k, 0 <= k -> at0 dest k = if (to <=? k) && (k <? to + written)
                                    then at0 dest0 (from + (k - to) mod (to - from)) else at0 dest0 k) ->
  let res := copy_doubling fuel dest from to len written in
  zlen res = zlen dest0
  /\ forall k, 0 <= k -> at0 res k = if (to <=? k) && (k <? to + len)
                                     then at0 dest0 (from + (k - to) mod (to - from)) else at0 dest0 k.
Proof.
  intros Hf Hl. induction fuel as [|fuel IH]; intros dest written Hfuel Hw Hm Hz Hd; cbn [copy_doubling].
  { replace written with len in * by lia. done. }
  destruct (Z.ltb_spec written len) as [Hlt|Hge]; [|by replace written with len in * by lia].
  destruct Hm as [->|Hm]; [lia|]. set (p := to - from) in *.
  set (n := Z.min (p + written) (len - written)).
  apply IH; [lia|lia| |by rewrite zlen_copy_within by lia|].
  - destruct (Z.le_ge_cases (p + written) (len - written)); [right|left; lia].
    unfold n. rewrite Z.min_l by lia. replace (written + (p + written)) with (written + written + 1 * p) by lia.
    rewrite Z.mod_add, Z.add_mod, Hm by lia. by rewrite Z.mod_0_l by lia.
  - intros k Hk. rewrite at0_copy_within by lia.
    destruct (Z.leb_spec (to + written) k), (Z.ltb_spec k (to + written + n)); cbn [andb];
      [|rewrite Hd by lia; bool_lia..].
    set (j := k - (to + written)). destruct (Z.leb_spec to k); [|lia].
    destruct (Z.ltb_spec k (to + (written + n))); [|lia]. cbn [andb].
    replace ((k - to) mod p) with (j mod p).
    2:{ replace (k - to) with (j + (written / p) * p); [by rewrite Z.mod_add by lia|].
        pose proof (Z.div_mod written p). lia. }
    rewrite Hd by lia. destruct (Z.leb_spec to (from + j)) as [Hj|Hj]; cbn [andb].
    + destruct (Z.ltb_spec (from + j) (to + written)); [|lia]. do 2 f_equal.
      replace (from + j - to) with (j + (-1) * p) by lia. apply Z.mod_add. lia.
    + f_equal. rewrite Z.mod_small; lia.
Qed.

Lemma copy_match_periodic dest from to len : 0 <= from < to -> 0 <= len -> to + len <= zlen dest ->
  periodic dest (copy_match dest from to len) from to len.
Proof.
  intros Hf Hlen Hl. unfold copy_match. destruct (Z.leb_spec len (to - from)) as [Hp|Hp].
  { split; [by rewrite zlen_copy_within by lia|]. split; intros k Hk; [intros Hk2|];
      rewrite !at0_copy_within by lia; bool_lia. cbn [andb]. f_equal. lia. }
  destruct (Z.eqb_spec (to - from) 1) as [He|He].
  { assert (Hz : zlen (replicate (Z.to_nat len) (at0 dest from)) = len) by (unfold zlen; rewrite length_replicate; lia).
    assert (Ha : forall j, 0 <= j < len -> at0 (replicate (Z.to_nat len) (at0 dest from)) j = at0 dest from).
    { intros j Hj. unfold at0 at 1. by rewrite nth_lookup, lookup_replicate_2 by lia. }
    split; [rewrite zlen_write_at; lia|]. split; intros k Hk; [intros Hk2|];
      rewrite !at0_write_at, Hz by lia; bool_lia; cbn [andb]; rewrite ?Ha by lia; [done|].
    f_equal. lia. }
  destruct (copy_doubling_mod dest from to len Hf Hl (Z.to_nat len) dest 0) as [Hz Ha];
    [lia|lia|right; by apply Z.mod_0_l; lia|done|intros; bool_lia|].
  split; [done|]. split; intros k Hk; [intros Hk2|]; rewrite !Ha by lia; [bool_lia|].
  destruct (Z.leb_spec to k), (Z.ltb_spec k (to + len)), (Z.ltb_spec (k - (to - from)) (to + len)); try lia.
  cbn [andb]. destruct (Z.leb_spec to (k - (to - from))); cbn [andb].
  - do 2 f_equal. replace (k - (to - from) - to) with (k - to + (-1) * (to - from)) by lia.
    symmetry. apply Z.mod_add. lia.
  - rewrite Z.mod_small by lia. f_equal. lia.
Qed.

(** [copy_match], whichever of its three strategies it takes (one
    [copy_within], a fill, or doubling what is already written), is the
    byte-by-byte copy the format defines: byte [i] of the match is the byte
    [to - from] positions earlier, even when that byte was itself just
    copied. *)
Lemma copy_match_is_byte_copy (dest : list byte) (from to len : Z) :
  0 <= from < to -> 0 <= len -> to + len <= zlen dest ->
  copy_match dest from to len = byte_copy (Z.to_nat len) dest from to.
Proof.
  intros Hf Hlen Hl. apply (periodic_unique dest _ _ from to len Hf); [by apply copy_match_periodic|].
  rewrite <- (Z2Nat.id len) at 2 by lia. apply byte_copy_periodic; lia.
Qed.

Lemma copy_match_is_byte_copy_witness :
  copy_match [1; 2; 3; 0; 0; 0; 0; 0; 0; 9] 1 3 6 = byte_copy 6 [1; 2; 3; 0; 0; 0; 0; 0; 0; 9] 1 3
  /\ copy_match [1; 2; 3; 0; 0; 0; 0; 0; 0; 9] 1 3 6 = [1; 2; 3; 2; 3; 2; 3; 2; 3; 9].
Proof.
  split; [|by vm_compute]. apply (copy_match_is_byte_copy [1; 2; 3; 0; 0; 0; 0; 0; 0; 9] 1 3 6); by vm_compute.
Defined.

(** ** The block format: a reference decoder over a byte list, every copy byte
    by byte, every failure [None]. *)
Definition P (A : Type) : Type := list byte -> option (A * list byte).
Definition pret {A} (a : A) : P A := fun l => Some (a, l).
Definition pfail {A} : P A := fun _ => None.
Definition pbind {A B} (p : P A) (k : A -> P B) : P B := fun l => match p l with Some (a, l') => k a l' | None => None end.
Definition pbyte : P Z := fun l => match l with [] => None | b :: t => Some (b, t) end.
Definition pbytes (n : Z) : P (list byte) := fun l =>
  if zlen l <? n then None else Some (take (Z.to_nat n) l, drop (Z.to_nat n) l).

(** A length of 15 or more continues in bytes of 255, up to a smaller one. *)
Fixpoint pextension (len : Z) (l : list byte) : option (Z * list byte) :=
  match l with
  | [] => None
  | b :: t => if usize_max <? len + b then None
              else if b =? 255 then pextension (len + b) t else Some (len + b, t)
  end.
Definition plength (nibble : Z) : P Z := if nibble =? 15 then pextension nibble else pret nibble.

Definition pliterals (token : Z) (dest : list byte) (d : Z) : P (list byte * Z) :=
  pbind (plength (Z.shiftr token 4)) (fun lit =>
  if zlen dest <? d + lit then pfail
  else pbind (pbytes lit) (fun run => pret (write_at dest d run, d + lit))).

Definition pmatch (token : Z) (dest : list byte) (d : Z) : P (list byte * Z) :=
  pbind (pbytes 2) (fun bytes =>
  let dec := from_le bytes in
  if dec =? 0 then pfail
  else pbind (plength (Z.land token 15)) (fun len =>
  let len := len + MIN_MATCH in
  if (d <? dec) || (zlen dest <? d + len) then pfail
  else pret (byte_copy (Z.to_nat len) dest (d - dec) d, d + len))).

Fixpoint pblock (fuel : nat) (stop : Z) (dest : list byte) (d : Z) : P (list byte * Z) :=
  match fuel with
  | O => pfail
  | Datatypes.S k =>
      pbind pbyte (fun token =>
      pbind (pliterals token dest d) (fun '(dest, d) =>
      if stop <=? d then pret (dest, d)
      else pbind (pmatch token dest d) (fun '(dest, d) =>
           if stop <=? d then pret (dest, d) else pblock k stop dest d)))
  end.

Lemma pliterals_eq token dest d l : pliterals token dest d l =
  match plength (Z.shiftr token 4) l with
  | None => None
  | Some (lit, l) =>
      if zlen dest <? d + lit then None
      else match pbytes lit l with
           | None => None
           | Some (run, l) => Some ((write_at dest d run, d + lit), l)
           end
  end.
Proof.
  unfold pliterals, pbind. destruct (plength _ l) as [[lit l']|]; [|done].
  by destruct (zlen dest <? d + lit).
Qed.

Lemma pmatch_eq token dest d l : pmatch token dest d l =
  match pbytes 2 l with
  | None => None
  | Some (bytes, l) =>
      if from_le bytes =? 0 then None
      else match plength (Z.land token 15) l with
           | None => None
           | Some (len, l) =>
               if (d <? from_le bytes) || (zlen dest <? d + (len + MIN_MATCH)) then None
               else Some ((byte_copy (Z.to_nat (len + MIN_MATCH)) dest (d - from_le bytes) d, d + (len + MIN_MATCH)), l)
           end
  end.
Proof.
  unfold pmatch, pbind. destruct (pbytes 2 l) as [[bytes l']|]; [|done].
  destruct (from_le bytes =? 0); [done|]. destruct (plength _ l') as [[len l2]|]; [|done].
  by destruct ((d <? from_le bytes) || (zlen dest <? d + (len + MIN_MATCH))).
Qed.

(** The whole of [decompress(input, len, dest, d_off)]. *)
Definition reference_decode (len : Z) (dest : list byte) (d_off : Z) : P (list byte * Z) := fun l =>
  if zlen dest <? d_off + len then None else pblock (Datatypes.S (Z.to_nat len)) (d_off + len) dest d_off l.

(** What the reference returns is in range. *)
Lemma pbytes_Some n l xs l' : 0 <= n -> pbytes n l = Some (xs, l') -> l = xs ++ l' /\ zlen xs = n.
Proof.
  unfold pbytes. intros Hn. destruct (Z.ltb_spec (zlen l) n); [done|]. intros [= <- <-].
  rewrite take_drop. split; [done|]. by apply zlen_take_exact.
Qed.

Lemma pextension_range len l n l' : bytes_ok l -> 0 <= len -> pextension len l = Some (n, l') ->
  len <= n <= usize_max /\ exists xs, l = xs ++ l'.
Proof.
  revert len. induction l as [|b l IH]; intros len Hl Hlen; cbn [pextension]; [done|].
  inversion_clear Hl as [|?? Hb Hl']. destruct Hb as [Hb _]. destruct (Z.ltb_spec usize_max (len + b)); [done|].
  destruct (Z.eqb_spec b 255).
  - intros He. destruct (IH (len + b) Hl' ltac:(lia) He) as (? & xs & ->). split; [lia|]. by exists (b :: xs).
  - intros [= <- <-]. split; [lia|]. by exists [b].
Qed.

Lemma plength_range nib l n l' : bytes_ok l -> 0 <= nib <= 15 -> plength nib l = Some (n, l') ->
  nib <= n <= usize_max /\ exists xs, l = xs ++ l'.
Proof.
  unfold plength. intros Hl Hn. destruct (Z.eqb_spec nib 15); [apply pextension_range; [done|lia]|].
  intros [= <- <-]. split; [unfold usize_max; lia|]. by exists [].
Qed.

Lemma nibbles token : in_u 8 token -> 0 <= Z.shiftr token 4 <= 15 /\ 0 <= Z.land token 15 <= 15.
Proof.
  intros [H0 H1]. change (2 ^ 8) with 256 in H1. split.
  - rewrite Z.shiftr_div_pow2 by lia. change (2 ^ 4) with 16.
    pose proof (Z.div_mod token 16). pose proof (Z.mod_pos_bound token 16). lia.
  - change (Z.land token 15) with (Z.land token (Z.ones 4)). rewrite Z.land_ones by lia.
    pose proof (Z.mod_pos_bound token (2 ^ 4)). lia.
Qed.

Lemma bytes_ok_suffix xs l : bytes_ok (xs ++ l) -> bytes_ok l.
Proof. intros H. by apply (Forall_app (in_u 8)) in H as [_ ?]. Qed.

Lemma zlen_byte_copy n dest from to : 0 <= from < to -> to + Z.of_nat n <= zlen dest ->
  zlen (byte_copy n dest from to) = zlen dest.
Proof. intros. by apply byte_copy_periodic. Qed.

Lemma pliterals_range token dest d l dest' d' l' : bytes_ok l -> in_u 8 token -> 0 <= d -> zlen dest <= usize_max ->
  pliterals token dest d l = Some ((dest', d'), l') ->
  zlen dest' = zlen dest /\ d <= d' <= zlen dest /\ exists xs, l = xs ++ l'.
Proof.
  intros Hl Ht Hd Hz. unfold pliterals, pbind. destruct (nibbles token Ht) as [Hn _].
  destruct (plength _ l) as [[n l1]|] eqn:E1; [|done].
  apply plength_range in E1 as (Hr & xs & ->); [|done|done]. destruct (Z.ltb_spec (zlen dest) (d + n)); [done|].
  destruct (pbytes n l1) as [[run l2]|] eqn:E2; [|done]. apply pbytes_Some in E2 as (-> & <-); [|lia].
  intros [= <- <- <-]. rewrite zlen_write_at by lia. split; [done|]. split; [lia|].
  exists (xs ++ run). by rewrite <- app_assoc.
Qed.

Lemma pmatch_range token dest d l dest' d' l' : bytes_ok l -> in_u 8 token -> 0 <= d -> zlen dest <= usize_max ->
  pmatch token dest d l = Some ((dest', d'), l') ->
  zlen dest' = zlen dest /\ d + 4 <= d' <= zlen dest /\ exists xs, l = xs ++ l'.
Proof.
  intros Hl Ht Hd Hz. unfold pmatch, pbind. destruct (nibbles token Ht) as [_ Hn].
  destruct (pbytes 2 l) as [[ob l1]|] eqn:E1; [|done]. apply pbytes_Some in E1 as (-> & Hob); [|lia].
  pose proof (from_le_range ob) as Hob'. destruct (Forall_app (in_u 8) ob l1) as [[Hbob Hl1] _]; [done|].
  specialize (Hob' Hbob). destruct Hob' as [Hob' _].
  destruct (Z.eqb_spec (from_le ob) 0) as [|Hne]; [done|].
  destruct (plength _ l1) as [[n l2]|] eqn:E2; [|done]. apply plength_range in E2 as (Hr & xs & ->); [|done|done].
  destruct (Z.ltb_spec d (from_le ob)); [done|]. unfold MIN_MATCH in *.
  destruct (Z.ltb_spec (zlen dest) (d + (n + 4))); [done|]. intros [= <- <- <-].
  rewrite zlen_byte_copy by lia. split; [done|]. split; [lia|]. exists (ob ++ xs). by rewrite <- app_assoc.
Qed.

(** ** [decompress] over any lawful input. *)
Section backend.
Context {R : Type} `{DataInputLaws R}.

(** The method returns what the parser returns, consuming what it consumes,
    and fails exactly when it fails. *)
Definition implements {A} (m : M Error R A) (p : P A) : Prop := forall r, wf r ->
  match p (view r) with
  | Some (a, l) => exists r', m r = (Ok a, r') /\ wf r' /\ view r' = l
  | None => is_ok (m r).1 = false
  end.

(** [a] can come out of [p]. *)
Definition outcome {A} (p : P A) (a : A) : Prop := exists l l', bytes_ok l /\ p l = Some (a, l').

Lemma implements_ret {A} (a : A) : implements (ret a) (pret a).
Proof. intros r Hw. by exists r. Qed.

Lemma implements_fail {A} e : implements (@fail Error R A e) pfail.
Proof. intros r Hw. done. Qed.

Lemma implements_bind {A B} (m : M Error R A) (k : A -> M Error R B) p pk :
  implements m p -> (forall a, outcome p a -> implements (k a) (pk a)) -> implements (bind m k) (pbind p pk).
Proof.
  intros Hm Hk r Hw. specialize (Hm r Hw). unfold pbind.
  destruct (p (view r)) as [[a l]|] eqn:E.
  - destruct Hm as (r1 & E1 & Hw1 & <-). rewrite (bind_Ok _ _ _ _ _ E1). apply Hk; [|done].
    exists (view r), (view r1). split; [by apply wf_bytes|done].
  - unfold bind. destruct (m r) as [[a|e] r1]; done.
Qed.

Lemma implements_ext {A} (m m' : M Error R A) p p' : (forall r, m r = m' r) -> (forall l, bytes_ok l -> p l = p' l) ->
  implements m p -> implements m' p'.
Proof. intros Hm Hp Hi r Hw. specialize (Hi r Hw). rewrite <- Hm, <- Hp; [done|by apply wf_bytes]. Qed.

Lemma implements_byte : implements read_byte pbyte.
Proof.
  intros r Hw. unfold pbyte. destruct (view r) as [|b l] eqn:E.
  - destruct (law_read_byte_nil r Hw E) as (e & r' & -> & _). done.
  - by apply law_read_byte.
Qed.

Lemma implements_bytes n : 0 <= n -> implements (read_bytes n) (pbytes n).
Proof.
  intros Hn r Hw. destruct (pbytes n (view r)) as [[xs l]|] eqn:E.
  - apply pbytes_Some in E as [E <-]; [|done]. by apply law_read_bytes.
  - unfold pbytes in E. destruct (Z.ltb_spec (zlen (view r)) n); [|done].
    destruct (law_read_bytes_short r n Hw) as (e & r' & -> & _); done.
Qed.

Lemma length_extension_implements fuel : forall len r, wf r -> zlen (view r) < Z.of_nat fuel ->
  match pextension len (view r) with
  | Some (a, l) => exists r', length_extension_loop fuel len r = (Ok a, r') /\ wf r' /\ view r' = l
  | None => is_ok (length_extension_loop fuel len r).1 = false
  end.
Proof.
  induction fuel as [|fuel IH]; intros len r Hw Hf; [pose proof (zlen_nonneg (view r)); lia|].
  cbn [length_extension_loop]. destruct (view r) as [|b l] eqn:E; cbn [pextension].
  { destruct (law_read_byte_nil r Hw E) as (e & r' & E1 & _). by rewrite (bind_Err _ _ _ _ _ E1). }
  destruct (law_read_byte r b l Hw E) as (r1 & E1 & Hw1 & Hv1). rewrite (bind_Ok _ _ _ _ _ E1).
  unfold checked_add. rewrite zlen_cons in Hf.
  destruct (Z.ltb_spec usize_max (len + b)), (Z.leb_spec (len + b) usize_max); try lia; [done|].
  destruct (Z.eqb_spec b 255); cbn [negb].
  - specialize (IH (len + b) r1 Hw1). rewrite Hv1 in IH. apply IH. lia.
  - unfold ret. eauto.
Qed.

Lemma read_length_extension_implements base : implements (read_length_extension base) (pextension base).
Proof.
  intros r Hw. unfold read_length_extension, bind, get_state.
  apply length_extension_implements; [done|]. rewrite law_remaining by done.
  pose proof (zlen_nonneg (view r)). lia.
Qed.

Lemma read_length_implements nib :
  implements (if nib =? 0x0F then read_length_extension nib else ret nib) (plength nib).
Proof.
  unfold plength. destruct (nib =? 15); [apply read_length_extension_implements|apply implements_ret].
Qed.

Lemma implements_if {A} (c : bool) (m m' : M Error R A) p p' :
  (c = true -> implements m p) -> (c = false -> implements m' p') ->
  implements (if c then m else m') (if c then p else p').
Proof. destruct c; auto. Qed.

Lemma literals_implements token dest d : in_u 8 token -> 0 <= d <= zlen dest -> zlen dest <= usize_max ->
  implements (sequence_literals token dest d) (pliterals token dest d).
Proof.
  intros Ht Hd Hz. apply implements_bind; [apply read_length_implements|].
  intros lit (l & l' & Hl & Hlit). apply plength_range in Hlit as [Hr _]; [|done|by apply nibbles].
  destruct (nibbles token Ht) as [Hn _].
  destruct (Z.eqb_spec lit 0) as [->|Hne]; cbn [negb].
  - rewrite Z.add_0_r. destruct (Z.ltb_spec (zlen dest) d); [lia|].
    apply (implements_ext (ret (dest, d)) _ (pret (dest, d))); [done| |apply implements_ret].
    intros bs _. unfold pbind, pbytes. pose proof (zlen_nonneg bs). destruct (Z.ltb_spec (zlen bs) 0); [lia|].
    unfold pret. cbn [Z.to_nat take drop]. by rewrite write_at_nil by lia.
  - unfold checked_add. destruct (Z.leb_spec (d + lit) usize_max), (Z.ltb_spec (zlen dest) (d + lit)); try lia;
      [apply implements_fail| |apply implements_fail].
    replace (d + lit - d) with lit by lia.
    apply implements_bind; [apply implements_bytes; lia|]. intros run _. apply implements_ret.
Qed.

Lemma copy_match_byte_copy dest from to len : 0 <= from < to -> 0 <= len -> to + len <= zlen dest ->
  copy_match dest from to len = byte_copy (Z.to_nat len) dest from to.
Proof.
  intros Hf Hlen Hl. eapply periodic_unique; [done|by apply copy_match_periodic|].
  rewrite <- (Z2Nat.id len) at 2 by lia. apply byte_copy_periodic; lia.
Qed.

Lemma match_implements token dest d : in_u 8 token -> 0 <= d <= zlen dest -> zlen dest <= usize_max ->
  implements (sequence_match token dest d) (pmatch token dest d).
Proof.
  intros Ht Hd Hz. destruct (nibbles token Ht) as [_ Hn]. unfold sequence_match, pmatch.
  apply (implements_ext
    (let* bytes := read_bytes 2 in
     let match_dec := from_le bytes in
     if match_dec =? 0 then fail (Corrupted "LZ4 match offset 0 is invalid")
     else let* len := (if Z.land token 15 =? 15 then read_length_extension (Z.land token 15) else ret (Z.land token 15)) in
       match checked_add len MIN_MATCH with
       | None => fail (Corrupted "LZ4 match length overflows")
       | Some len =>
          if d <? match_dec then fail (Corrupted "LZ4 match references before the start of the buffer")
          else match checked_add d len with
               | None => fail (Eof d)
               | Some e => if zlen dest <? e then fail (Eof e) else ret (copy_match dest (d - match_dec) d len, e)
               end
       end) _ (pmatch token dest d)).
  { intros r. unfold read_u16, bind, ret. by destruct (read_bytes 2 r) as [[?|?] ?]. }
  { done. }
  apply implements_bind; [apply implements_bytes; lia|]. intros ob (l & l' & Hl & E).
  apply pbytes_Some in E as [-> Hob]; [|lia]. apply (Forall_app (in_u 8)) in Hl as [Hob' _].
  apply from_le_range in Hob'. destruct Hob' as [Hob' _].
  apply implements_if; [intros; apply implements_fail|]. intros Hne%Z.eqb_neq.
  apply implements_bind; [apply read_length_implements|]. intros len (l1 & l2 & Hl1 & Hlen).
  apply plength_range in Hlen as [Hr _]; [|done|done].
  unfold checked_add, MIN_MATCH. destruct (Z.leb_spec (len + 4) usize_max).
  2:{ destruct (Z.ltb_spec (zlen dest) (d + (len + 4))); [|lia]. rewrite orb_true_r. apply implements_fail. }
  destruct (Z.ltb_spec d (from_le ob)); cbn [orb]; [apply implements_fail|].
  destruct (Z.leb_spec (d + (len + 4)) usize_max), (Z.ltb_spec (zlen dest) (d + (len + 4))); try lia;
    [apply implements_fail| |apply implements_fail].
  rewrite copy_match_byte_copy by lia. apply implements_ret.
Qed.

Lemma loop_implements fuel : forall stop dest d, 0 <= d <= zlen dest -> zlen dest <= usize_max ->
  implements (decompress_loop fuel stop dest d) (pblock fuel stop dest d).
Proof.
  induction fuel as [|fuel IH]; intros stop dest d Hd Hz; [apply implements_fail|].
  cbn [decompress_loop pblock]. apply implements_bind; [apply implements_byte|].
  intros token (l & l' & Hl & Ht). destruct l as [|b l]; [done|]. injection Ht as <- <-.
  inversion_clear Hl as [|?? Hb _].
  apply implements_bind; [by apply literals_implements|].
  intros [dest1 d1] (l1 & l1' & Hl1 & H1). apply pliterals_range in H1 as (Hz1 & Hd1 & _); [|done|done|lia|done].
  apply implements_if; intros _; [apply implements_ret|].
  apply implements_bind; [apply match_implements; [done|lia|lia]|].
  intros [dest2 d2] (l2 & l2' & Hl2 & H2). apply pmatch_range in H2 as (Hz2 & Hd2 & _); [|done|done|lia|lia].
  apply implements_if; intros _; [apply implements_ret|]. apply IH; lia.
Qed.

Lemma decompress_implements len dest d : 0 <= d -> 0 <= len -> zlen dest <= usize_max ->
  implements (decompress len dest d) (reference_decode len dest d).
Proof.
  intros Hd Hlen Hz. unfold decompress, reference_decode, checked_add.
  destruct (Z.leb_spec (d + len) usize_max), (Z.ltb_spec (zlen dest) (d + len)); try lia;
    [apply implements_fail| |apply implements_fail].
  apply loop_implements; [lia|done].
Qed.

(** [decompress] is the block format's reference decoder, over every
    lawful [DataInput]: it returns the buffer and end position the reference
    returns and consumes exactly the bytes the reference consumes, and it
    fails on every input the reference rejects (a truncated run, an offset of
    zero or past the start, a run or match past the buffer, an overflowing
    length), never returning a buffer for it. *)
Lemma decompress_is_reference (len : Z) (dest : list byte) (d_off : Z) (r : R) :
  wf r -> 0 <= len -> 0 <= d_off -> zlen dest <= usize_max ->
  match reference_decode len dest d_off (view r) with
  | Some (dest', d', rest) => exists r', decompress len dest d_off r = (Ok (dest', d'), r') /\ wf r' /\ view r' = rest
  | None => is_ok (decompress len dest d_off r).1 = false
  end.
Proof.
  intros Hw Hlen Hd Hz. pose proof (decompress_implements len dest d_off Hd Hlen Hz r Hw) as Hi.
  by destruct (reference_decode len dest d_off (view r)) as [[[? ?] ?]|].
Qed.
End backend.

(** Ten bytes: the literals 1, 2, 3, a match of four at distance 2, three
    more literals. *)
Lemma decompress_is_reference_witness :
  let r := SliceInput.new [0x30; 1; 2; 3; 2; 0; 0x30; 7; 8; 9; 55] in
  wf r /\ exists r', decompress 10 (replicate 10 0) 0 r = (Ok ([1; 2; 3; 2; 3; 2; 3; 7; 8; 9], 10), r')
                     /\ wf r' /\ view r' = [55].
Proof.
  intros r. assert (Hw : wf r) by (apply new_wf; by vm_compute). split; [exact Hw|].
  exact (decompress_is_reference 10 (replicate 10 0) 0 r Hw ltac:(lia) ltac:(lia) ltac:(by vm_compute)).
Defined.

(** ** [decompress_slice]: a wild copy may leave anything between the end of
    its sequence and the end of the block. *)
Section slice.
Context (src : list byte) (eof : Z -> Error).
Hypothesis Hsrc : bytes_ok src.
Hypothesis Hlen : zlen src < usize_max.

Definition agree (stop d : Z) (D1 D2 : list byte) : Prop :=
  zlen D1 = zlen D2 /\ forall k, 0 <= k -> k < d \/ stop <= k -> at0 D1 k = at0 D2 k.

Lemma agree_all stop d D1 D2 : stop <= d -> agree stop d D1 D2 -> D1 = D2.
Proof. intros Hs [Hz Ha]. apply words_ext; [done|]. intros k Hk. apply Ha; lia. Qed.

(** A slice method and a parser of what is left of [src]: same outcome, and
    the new position is where the parser's rest begins. *)
Definition follows {A B} (Q : A -> B -> Prop) (s : Z) (res : result Error (A * Z)) (o : option (B * list byte)) : Prop :=
  match o with
  | Some (b, l) => exists a s', res = Ok (a, s') /\ s <= s' <= zlen src /\ l = drop (Z.to_nat s') src /\ Q a b
  | None => is_ok res = false
  end.

Lemma drop_cons s : 0 <= s -> s < zlen src -> drop (Z.to_nat s) src = at0 src s :: drop (Z.to_nat (s + 1)) src.
Proof.
  intros. rewrite (drop_S src (at0 src s)); [do 2 f_equal; lia|]. apply at0_lookup. lia.
Qed.

Lemma drop_end s : zlen src <= s -> drop (Z.to_nat s) src = [].
Proof. intros. apply drop_ge. unfold zlen in *. lia. Qed.

Lemma zget_at0 s : 0 <= s -> zget src s = if s <? zlen src then Some (at0 src s) else None.
Proof.
  intros. unfold zget. destruct (Z.ltb_spec s 0); [lia|]. destruct (Z.ltb_spec s (zlen src)).
  - apply at0_lookup. lia.
  - apply lookup_ge_None. unfold zlen in *. lia.
Qed.

Lemma pbytes_drop s n : 0 <= s <= zlen src -> 0 <= n ->
  pbytes n (drop (Z.to_nat s) src) = if zlen src <? s + n then None else Some (sub src s n, drop (Z.to_nat (s + n)) src).
Proof.
  intros. unfold pbytes, sub. replace (zlen (drop (Z.to_nat s) src)) with (zlen src - s)
    by (unfold zlen in *; rewrite length_drop; lia).
  destruct (Z.ltb_spec (zlen src - s) n), (Z.ltb_spec (zlen src) (s + n)); try lia; [done|].
  do 2 f_equal. rewrite drop_drop. f_equal. lia.
Qed.

Lemma zslice_sub s n : 0 <= s -> 0 <= n -> zslice src s (s + n) = if zlen src <? s + n then None else Some (sub src s n).
Proof.
  intros. unfold zslice, sub. destruct (Z.leb_spec 0 s), (Z.leb_spec s (s + n)), (Z.leb_spec (s + n) (zlen src)),
    (Z.ltb_spec (zlen src) (s + n)); try lia; [|done]. cbn [andb]. do 3 f_equal. lia.
Qed.

Lemma slice_extension_follows fuel : forall s len, 0 <= s -> zlen src - s < Z.of_nat fuel ->
  follows eq s (slice_extension_loop src fuel s len) (pextension len (drop (Z.to_nat s) src)).
Proof.
  induction fuel as [|fuel IH]; intros s len Hs Hf; cbn [slice_extension_loop].
  { rewrite drop_end by lia. done. }
  rewrite zget_at0 by lia. destruct (Z.ltb_spec s (zlen src)); [|by rewrite drop_end by lia].
  rewrite drop_cons by lia. cbn [pextension]. unfold checked_add.
  destruct (Z.ltb_spec usize_max (len + at0 src s)), (Z.leb_spec (len + at0 src s) usize_max); try lia; [done|].
  destruct (Z.eqb_spec (at0 src s) 255); cbn [negb].
  - specialize (IH (s + 1) (len + at0 src s) ltac:(lia) ltac:(lia)). unfold follows in *.
    destruct (pextension _ _) as [[n l]|]; [|done].
    destruct IH as (a & s' & IH1 & IH2 & IH3 & IH4). exists a, s'. split; [done|]. split; [lia|done].
  - exists (len + at0 src s), (s + 1). split; [done|]. split; [lia|done].
Qed.

Lemma slice_length_follows nib s : 0 <= s <= zlen src ->
  follows eq s (if nib =? 0x0F then slice_length_extension src s nib else Ok (nib, s)) (plength nib (drop (Z.to_nat s) src)).
Proof.
  intros Hs. unfold plength. destruct (nib =? 15).
  - apply slice_extension_follows; [lia|]. unfold zlen in *. lia.
  - exists nib, s. split; [done|]. split; [lia|done].
Qed.

(** A run written over buffers that agree, whatever follows it up to [stop]. *)
Lemma agree_write stop d n D1 D2 x1 x2 : 0 <= d -> 0 <= n -> agree stop d D1 D2 ->
  n <= zlen x1 -> zlen x2 = n -> d + zlen x1 <= zlen D1 -> (zlen x1 = n \/ d + zlen x1 <= stop) ->
  (forall k, 0 <= k < n -> at0 x1 k = at0 x2 k) ->
  agree stop (d + n) (write_at D1 d x1) (write_at D2 d x2).
Proof.
  intros Hd Hn [Hz Ha] H1 H2 Hb Hs Hx. split; [rewrite !zlen_write_at by lia; done|].
  intros k Hk Hk2. rewrite !at0_write_at by lia.
  destruct (Z.leb_spec d k), (Z.ltb_spec k (d + zlen x1)), (Z.ltb_spec k (d + zlen x2)); cbn [andb];
    try lia; try (apply Ha; lia). apply Hx. lia.
Qed.

Lemma slice_literals_follow token stop D1 D2 s d : in_u 8 token -> 0 <= s <= zlen src -> 0 <= d <= zlen D2 ->
  zlen D2 <= usize_max -> stop <= zlen D2 -> agree stop d D1 D2 ->
  match pliterals token D2 d (drop (Z.to_nat s) src) with
  | Some ((D2', d'), l) => exists D1' s', slice_literals src eof token stop D1 s d = Ok (D1', s', d')
      /\ s <= s' <= zlen src /\ l = drop (Z.to_nat s') src /\ agree stop d' D1' D2'
  | None => is_ok (slice_literals src eof token stop D1 s d) = false
  end.
Proof.
  intros Ht Hs Hd Hz Hstop Ha. destruct (nibbles token Ht) as [Hn _]. pose proof (proj1 Ha) as Hzz.
  rewrite pliterals_eq. unfold slice_literals. set (nib := Z.shiftr token 4) in *. cbv zeta.
  destruct (Z.eqb_spec nib 0) as [H0|H0]; cbn [negb].
  { rewrite H0. change (plength 0) with (@pret Z 0). unfold pret. rewrite Z.add_0_r.
    destruct (Z.ltb_spec (zlen D2) d); [lia|]. rewrite pbytes_drop by lia. destruct (Z.ltb_spec (zlen src) (s + 0)); try lia.
    exists D1, s. split; [done|]. split; [lia|]. split; [by rewrite Z.add_0_r|].
    unfold sub. cbn [Z.to_nat take]. by rewrite write_at_nil by lia. }
  destruct ((nib <? 15) && (s + 16 <=? zlen src) && (d + 16 <=? stop)) eqn:Hwild.
  - apply andb_true_iff in Hwild as [[H1%Z.ltb_lt H2%Z.leb_le]%andb_true_iff H3%Z.leb_le].
    unfold plength. destruct (Z.eqb_spec nib 15); [lia|]. unfold pret.
    destruct (Z.ltb_spec (zlen D2) (d + nib)); [lia|]. rewrite pbytes_drop by lia. destruct (Z.ltb_spec (zlen src) (s + nib)); try lia.
    eexists _, (s + nib). split; [done|]. split; [lia|]. split; [done|].
    apply agree_write; rewrite ?zlen_sub by lia; try lia; [done|].
    intros k Hk. by rewrite !at0_sub by lia.
  - pose proof (slice_length_follows nib s Hs) as Hf. unfold follows in Hf.
    destruct (plength nib (drop (Z.to_nat s) src)) as [[lit l]|] eqn:El.
    2:{ by destruct (if nib =? 15 then _ else _). }
    destruct Hf as (lit' & s1 & -> & Hs1 & -> & ->). cbn [rbind].
    apply plength_range in El as [Hr _]; [|by apply Forall_drop|lia].
    unfold checked_add. destruct (Z.leb_spec (d + lit) usize_max); cbn [ok_or rbind].
    2:{ destruct (Z.ltb_spec (zlen D2) (d + lit)); [done|lia]. }
    rewrite Hzz. destruct (Z.ltb_spec (zlen D2) (d + lit)); [done|].
    rewrite pbytes_drop by lia. destruct (Z.leb_spec (s1 + lit) usize_max); cbn [ok_or rbind].
    2:{ destruct (Z.ltb_spec (zlen src) (s1 + lit)); [done|lia]. }
    rewrite zslice_sub by lia. destruct (Z.ltb_spec (zlen src) (s1 + lit)); [done|]. cbn [ok_or rbind].
    eexists _, (s1 + lit). split; [done|]. split; [lia|]. split; [done|].
    apply agree_write; rewrite ?zlen_sub by lia; try lia; done.
Qed.

Lemma agree_periodic stop from d n1 n2 D1 D2 R1 R2 : 0 <= from < d -> agree stop d D1 D2 ->
  periodic D1 R1 from d n1 -> periodic D2 R2 from d n2 -> 0 <= n2 <= n1 -> (n1 = n2 \/ d + n1 <= stop) ->
  agree stop (d + n2) R1 R2.
Proof.
  intros Hf [Hz Ha] P1 P2 Hn Hs.
  assert (Hlow : forall k, 0 <= k < d + Z.min n1 n2 -> at0 R1 k = at0 R2 k).
  { eapply periodic_agree; [done..|]. intros k Hk. apply Ha; lia. }
  destruct P1 as (Z1 & A1 & _), P2 as (Z2 & A2 & _). split; [congruence|].
  intros k Hk Hk2. destruct (Z_lt_dec k (d + n2)); [apply Hlow; lia|].
  rewrite A1, A2 by lia. apply Ha; lia.
Qed.

(** One eight-byte step of a wild copy reads only bytes already final. *)
Lemma periodic_step8 D E from to n : 0 <= from -> from + 8 <= to -> 0 <= n -> to + n + 8 <= zlen D ->
  periodic D E from to n -> periodic D (copy_within E (from + n) 8 (to + n)) from to (n + 8).
Proof.
  intros Hf Hp Hn Hl (Hz & Ha & Hb). split; [by rewrite zlen_copy_within by lia|]. split.
  - intros k Hk Hk2. rewrite at0_copy_within by lia.
    destruct (Z.leb_spec (to + n) k), (Z.ltb_spec k (to + n + 8)); try lia; apply Ha; lia.
  - intros k Hk. rewrite !at0_copy_within by lia.
    destruct (Z.leb_spec (to + n) k), (Z.ltb_spec k (to + n + 8)), (Z.leb_spec (to + n) (k - (to - from)));
      try lia; cbn [andb].
    + f_equal. lia.
    + apply Hb. lia.
Qed.

Lemma periodic_0 D from to : periodic D D from to 0.
Proof. split; [done|]. split; intros; [done|lia]. Qed.

Lemma slice_match_follow token stop D1 D2 s d : in_u 8 token -> 0 <= s <= zlen src -> 0 <= d <= zlen D2 ->
  zlen D2 <= usize_max -> stop <= zlen D2 -> agree stop d D1 D2 ->
  match pmatch token D2 d (drop (Z.to_nat s) src) with
  | Some ((D2', d'), l) => exists D1' s', slice_match src eof token stop D1 s d = Ok (D1', s', d')
      /\ s <= s' <= zlen src /\ l = drop (Z.to_nat s') src /\ agree stop d' D1' D2'
  | None => is_ok (slice_match src eof token stop D1 s d) = false
  end.
Proof.
  intros Ht Hs Hd Hz Hstop Ha. destruct (nibbles token Ht) as [_ Hn]. pose proof (proj1 Ha) as Hzz.
  rewrite pmatch_eq. unfold slice_match. rewrite zslice_sub, pbytes_drop by lia.
  destruct (Z.ltb_spec (zlen src) (s + 2)); [done|]. cbn [ok_or rbind].
  assert (Hdec : 0 <= from_le (sub src s 2)).
  { apply (from_le_range (sub src s 2)). by apply Forall_take, Forall_drop. }
  set (dec := from_le (sub src s 2)) in *. destruct (Z.eqb_spec dec 0); [done|].
  destruct (Z.ltb_spec d dec); cbn [orb]; [by destruct (plength _ _) as [[? ?]|]|].
  set (nib := Z.land token 15) in *. rewrite negb_involutive.
  pose proof (slice_length_follows nib (s + 2) ltac:(lia)) as Hf. unfold follows in Hf.
  destruct (plength nib (drop (Z.to_nat (s + 2)) src)) as [[len l]|] eqn:El.
  2:{ by destruct (if nib =? 15 then _ else _). }
  destruct Hf as (len' & s1 & -> & Hs1 & -> & ->). cbn [rbind].
  pose proof El as Hr. apply plength_range in Hr as [Hr _]; [|by apply Forall_drop|lia].
  unfold checked_add, MIN_MATCH. destruct (Z.leb_spec (len + 4) usize_max); cbn [ok_or rbind].
  2:{ destruct (Z.ltb_spec (zlen D2) (d + (len + 4))); [done|lia]. }
  destruct (negb (nib =? 15) && (8 <=? dec) && (d + 24 <=? stop)) eqn:Hwild.
  - apply andb_true_iff in Hwild as [[Hn15 H8%Z.leb_le]%andb_true_iff H24%Z.leb_le].
    unfold plength in El. apply negb_true_iff in Hn15. rewrite Hn15 in El. injection El as <- _.
    apply Z.eqb_neq in Hn15. destruct (Z.ltb_spec (zlen D2) (d + (nib + 4))); [lia|].
    pose proof (byte_copy_periodic (Z.to_nat (nib + 4)) D2 (d - dec) d ltac:(lia) ltac:(lia)) as P2.
    rewrite Z2Nat.id in P2 by lia. pose proof (periodic_0 D1 (d - dec) d) as P0.
    apply periodic_step8 in P0; [|lia..]. pose proof P0 as P16. apply periodic_step8 in P16; [|lia..].
    pose proof P16 as P24. apply periodic_step8 in P24; [|lia..]. rewrite !Z.add_0_r in *. cbn [Z.add Pos.add] in *.
    eexists _, s1. split; [done|]. split; [lia|]. split; [done|].
    destruct (Z.ltb_spec 16 (nib + 4)); (eapply agree_periodic; [|done|done|exact P2|lia|lia]; lia).
  - rewrite Hzz. destruct (Z.ltb_spec (zlen D2) (d + (len + 4))) as [Hover|Hfit].
    { destruct (Z.leb_spec (d + (len + 4)) usize_max); cbn [ok_or rbind]; [|done].
      by destruct (Z.ltb_spec (zlen D2) (d + (len + 4))); [|lia]. }
    destruct (Z.leb_spec (d + (len + 4)) usize_max); [|lia]. cbn [ok_or rbind].
    destruct (Z.ltb_spec (zlen D2) (d + (len + 4))); [lia|].
    eexists _, s1. split; [done|]. split; [lia|]. split; [done|].
    pose proof (byte_copy_periodic (Z.to_nat (len + 4)) D2 (d - dec) d ltac:(lia) ltac:(lia)) as P2.
    rewrite Z2Nat.id in P2 by lia.
    eapply agree_periodic; [|done|apply copy_match_periodic; lia|exact P2|lia|lia]; lia.
Qed.

Lemma slice_loop_follows fuel : forall stop D1 D2 s d, 0 <= s <= zlen src -> 0 <= d <= zlen D2 ->
  zlen D2 <= usize_max -> stop <= zlen D2 -> agree stop d D1 D2 ->
  match pblock fuel stop D2 d (drop (Z.to_nat s) src) with
  | Some ((D2', d'), l) => exists s', slice_loop src eof fuel stop D1 s d = Ok (D2', s', d')
      /\ s <= s' <= zlen src /\ l = drop (Z.to_nat s') src
  | None => is_ok (slice_loop src eof fuel stop D1 s d) = false
  end.
Proof.
  induction fuel as [|fuel IH]; intros stop D1 D2 s d Hs Hd Hz Hstop Ha; [done|].
  cbn [slice_loop pblock]. unfold pbind. rewrite zget_at0 by lia.
  destruct (Z.ltb_spec s (zlen src)); [|by rewrite drop_end by lia].
  rewrite drop_cons by lia. cbn [pbyte ok_or rbind].
  assert (Ht : in_u 8 (at0 src s)).
  { eapply (Forall_lookup_1 _ _ _ _ Hsrc). apply at0_lookup. lia. }
  set (token := at0 src s) in *. assert (Hs1 : 0 <= s + 1 <= zlen src) by lia.
  pose proof (slice_literals_follow token stop D1 D2 (s + 1) d Ht Hs1 Hd Hz Hstop Ha) as Hlit.
  destruct (pliterals token D2 d _) as [[[D2' d'] l]|] eqn:E1.
  2:{ by destruct (slice_literals _ _ _ _ _ _ _). }
  destruct Hlit as (D1' & s' & -> & Hs' & -> & Ha'). cbn [rbind].
  apply pliterals_range in E1 as (Hz1 & Hd1 & _); [|by apply Forall_drop|done|lia|done].
  destruct (Z.leb_spec stop d').
  { exists s'. rewrite (agree_all _ _ _ _ H0 Ha'). split; [done|]. split; [lia|done]. }
  pose proof (slice_match_follow token stop D1' D2' s' d' Ht ltac:(lia) ltac:(lia) ltac:(lia) ltac:(lia) Ha') as Hm.
  destruct (pmatch token D2' d' _) as [[[D2'' d''] l]|] eqn:E2.
  2:{ by destruct (slice_match _ _ _ _ _ _ _). }
  destruct Hm as (D1'' & s'' & -> & Hs'' & -> & Ha''). cbn [rbind].
  apply pmatch_range in E2 as (Hz2 & Hd2 & _); [|by apply Forall_drop|done|lia|lia].
  destruct (Z.leb_spec stop d'') as [He|].
  { exists s''. rewrite (agree_all _ _ _ _ He Ha''). split; [done|]. split; [lia|done]. }
  specialize (IH stop D1'' D2'' s'' d'' ltac:(lia) ltac:(lia) ltac:(lia) ltac:(lia) Ha'').
  destruct (pblock _ _ _ _ _) as [[[? ?] ?]|]; [|done].
  destruct IH as (s3 & E3 & Hs3 & Hl3). exists s3. split; [done|]. split; [lia|done].
Qed.
End slice.

Lemma decompress_slice_follows len dest d_off (r : SliceInput.t) :
  wf r -> 0 <= len -> 0 <= d_off -> zlen dest <= usize_max ->
  match reference_decode len dest d_off (view r) with
  | Some (dest', d', rest) => exists r', decompress_slice len dest d_off r = (Ok (dest', d'), r') /\ wf r' /\ view r' = rest
  | None => is_ok (decompress_slice len dest d_off r).1 = false
  end.
Proof.
  intros Hw Hlen Hd Hz. unfold reference_decode, decompress_slice, checked_add.
  destruct (Z.leb_spec (d_off + len) usize_max), (Z.ltb_spec (zlen dest) (d_off + len)); try lia; try done.
  assert (Hs : zlen (SliceInput.as_slice r) < usize_max).
  { pose proof (SliceInput.slice_remaining_view r Hw). destruct Hw as ((? & ?) & _ & ?).
    unfold SliceInput.slice_remaining in *. unfold usize_max. lia. }
  pose proof (slice_loop_follows (SliceInput.as_slice r) (fun s => Eof (saturating_add (SliceInput.position r) s))
    (wf_bytes r Hw) Hs (Datatypes.S (Z.to_nat len)) (d_off + len) dest dest 0 d_off) as Hf.
  specialize (Hf ltac:(pose proof (zlen_nonneg (SliceInput.as_slice r)); lia) ltac:(lia) Hz ltac:(lia)).
  specialize (Hf ltac:(split; done)). change (drop (Z.to_nat 0) (SliceInput.as_slice r)) with (view r) in Hf.
  destruct (pblock _ _ _ _ (view r)) as [[[D d'] l]|].
  2:{ by destruct (slice_loop _ _ _ _ _ _ _). }
  destruct Hf as (s' & -> & Hs' & ->).
  destruct (law_skip r (take (Z.to_nat s') (view r)) (drop (Z.to_nat s') (view r)) Hw) as (r' & E & Hw' & Hv').
  { by rewrite take_drop. }
  rewrite zlen_take_exact in E by done. exists r'. by rewrite (bind_Ok _ _ _ _ _ E).
Qed.

(** C38: the slice fast path is [decompress]: over a [SliceInput] the two
    succeed on the same inputs, with the same whole destination buffer (the
    bytes a wild copy scribbles past a sequence are always overwritten before
    the block ends), the same end position and the same bytes left to read;
    the error of a rejected block may differ. *)
Theorem decompress_slice_is_decompress (len : Z) (dest : list byte) (d_off : Z) (r : SliceInput.t) :
  SliceInput.inv r -> 0 <= len -> 0 <= d_off -> zlen dest <= usize_max ->
  match decompress len dest d_off r with
  | (Ok out, r') => exists r'', decompress_slice len dest d_off r = (Ok out, r'')
                                /\ SliceInput.as_slice r'' = SliceInput.as_slice r'
  | (Err _, _) => is_ok (decompress_slice len dest d_off r).1 = false
  end.
Proof.
  intros Hw Hlen Hd Hz. pose proof (decompress_slice_follows len dest d_off r Hw Hlen Hd Hz) as Hs.
  pose proof (decompress_implements len dest d_off Hd Hlen Hz r Hw) as Hg.
  destruct (reference_decode len dest d_off (view r)) as [[[D d'] rest]|].
  - destruct Hs as (r2 & -> & _ & Hv2), Hg as (r1 & -> & _ & Hv1). exists r2. split; [done|]. by transitivity rest.
  - by destruct (decompress len dest d_off r) as [[?|?] ?].
Qed.

(** A wild match (distance 9, length 4) followed by thirty literals. *)
Lemma decompress_slice_is_decompress_witness :
  let block := [0x90; 1; 2; 3; 4; 5; 6; 7; 8; 9; 9; 0; 0xf0; 15] ++ replicate 30 7 in
  let r := SliceInput.new block in
  SliceInput.inv r /\ is_ok (decompress 43 (replicate 43 0) 0 r).1 = true
  /\ exists r'', decompress_slice 43 (replicate 43 0) 0 r = (Ok ([1; 2; 3; 4; 5; 6; 7; 8; 9; 1; 2; 3; 4] ++ replicate 30 7, 43), r'')
                 /\ SliceInput.as_slice r'' = [].
Proof.
  intros block r. assert (Hw : SliceInput.inv r) by (apply new_wf; by vm_compute).
  split; [exact Hw|]. split; [by vm_compute|].
  exact (decompress_slice_is_decompress 43 (replicate 43 0) 0 r Hw ltac:(lia) ltac:(lia) ltac:(by vm_compute)).
Defined.

(** ** Fuel. *)
Section fuel.
Context {R : Type} `{DataInputLaws R}.

Lemma implements_inv {A} (m : M Error R A) p r a r' : implements m p -> wf r -> m r = (Ok a, r') ->
  p (view r) = Some (a, view r') /\ wf r'.
Proof.
  intros Hi Hw E. specialize (Hi r Hw). rewrite E in Hi. destruct (p (view r)) as [[b l]|]; [|done].
  destruct Hi as (r1 & [= <- <-] & ? & <-). done.
Qed.

Lemma loop_fuel f : forall g stop dest d r, wf r -> 0 <= d <= zlen dest -> zlen dest <= usize_max -> stop <= zlen dest ->
  stop - d < Z.of_nat f -> stop - d < Z.of_nat g -> (0 < f)%nat -> (0 < g)%nat ->
  decompress_loop f stop dest d r = decompress_loop g stop dest d r.
Proof.
  induction f as [|f IH]; intros [|g] stop dest d r Hw Hd Hz Hstop Hf Hg Hf0 Hg0; try lia.
  cbn [decompress_loop]. apply bind_ext. intros token r1 E1.
  apply (implements_inv _ _ _ _ _ implements_byte Hw) in E1 as [Ht Hw1].
  assert (in_u 8 token).
  { pose proof (wf_bytes r Hw) as Hb. destruct (view r); [done|]. injection Ht as -> _. by inversion Hb. }
  apply bind_ext. intros [dest1 d1] r2 E2.
  apply (implements_inv _ _ _ _ _ (literals_implements token dest d ltac:(done) ltac:(lia) Hz) Hw1) in E2 as [E2 Hw2].
  apply pliterals_range in E2 as (Hz1 & Hd1 & _); [|by apply wf_bytes|done|lia|done].
  destruct (Z.leb_spec stop d1); [done|]. apply bind_ext. intros [dest2 d2] r3 E3.
  apply (implements_inv _ _ _ _ _ (match_implements token dest1 d1 ltac:(done) ltac:(lia) ltac:(lia)) Hw2) in E3 as [E3 Hw3].
  apply pmatch_range in E3 as (Hz2 & Hd2 & _); [|by apply wf_bytes|done|lia|lia].
  destruct (Z.leb_spec stop d2); [done|]. apply IH; try done; lia.
Qed.

(** The decoder ends: fuel beyond the space left plus one never changes
    what [decompress] does, on any input, so the loop bound chosen is not an
    extra failure. *)
Lemma decompress_terminates (len : Z) (dest : list byte) (d_off : Z) (extra : nat) (r : R) :
  wf r -> 0 <= len -> 0 <= d_off -> d_off + len <= zlen dest -> zlen dest <= usize_max ->
  decompress_loop (Datatypes.S (Z.to_nat len) + extra) (d_off + len) dest d_off r = decompress len dest d_off r.
Proof.
  intros Hw Hlen Hd Hl Hz. unfold decompress, checked_add.
  destruct (Z.leb_spec (d_off + len) usize_max), (Z.ltb_spec (zlen dest) (d_off + len)); try lia.
  apply loop_fuel; try done; lia.
Qed.
End fuel.

Lemma decompress_terminates_witness :
  let r := SliceInput.new [0x30; 1; 2; 3; 2; 0; 0x30; 7; 8; 9; 55] in
  wf r /\ decompress_loop (11 + 100) 10 (replicate 10 0) 0 r = decompress 10 (replicate 10 0) 0 r.
Proof.
  intros r. assert (Hw : wf r) by (apply new_wf; by vm_compute). split; [exact Hw|].
  exact (decompress_terminates 10 (replicate 10 0) 0 100 r Hw ltac:(lia) ltac:(lia) ltac:(by vm_compute) ltac:(by vm_compute)).
Defined.
