(* ===== verification/Lz4Encode.v ===== *)
(** The LZ4 compressor ([crates/lucene-codecs/src/lz4.rs]): match lengths are
    longest common prefixes, both hash tables keep the promise the compressor
    relies on, and what it writes decompresses to what it was given, with or
    without a preset dictionary, for any table that keeps that promise. *)
From stdpp Require Import strings.
From S2P Require Import Prelude StoreError ZigZag DataOutput DataInput SliceInput Wire BitWords Lz4 Lz4Decode.
Import Lz4.

(** ** Match lengths. *)
Lemma from_le_testbit l i j : bytes_ok l -> 0 <= i -> 0 <= j < 8 ->
  Z.testbit (from_le l) (8 * i + j) = Z.testbit (at0 l i) j.
Proof.
  intros Hl. revert i. induction Hl as [|b l Hb Hl IH]; intros i Hi Hj.
  { cbn [from_le]. unfold at0. by rewrite Z.testbit_0_l; destruct (Z.to_nat i); rewrite ?Z.testbit_0_l. }
  cbn [from_le]. rewrite Z.lor_spec, testbit_shiftl. destruct (Z.eq_dec i 0) as [->|Hne].
  - unfold at0. cbn [Z.to_nat nth]. rewrite (Z.testbit_neg_r (from_le l)) by lia.
    by rewrite andb_false_r, orb_false_r.
  - rewrite (testbit_above 8 b) by (done || lia). destruct (Z.leb_spec 0 (8 * i + j)); [|lia]. cbn [andb orb].
    replace (8 * i + j - 8) with (8 * (i - 1) + j) by lia. rewrite IH by lia. f_equal. unfold at0.
    replace (Z.to_nat i) with (Datatypes.S (Z.to_nat (i - 1))) by lia. done.
Qed.

Lemma at0_byte l i : bytes_ok l -> in_u 8 (at0 l i).
Proof.
  intros Hl. destruct (decide (0 <= i < zlen l)) as [Hi|Hi].
  - by apply (Forall_lookup_1 _ _ _ _ Hl (at0_lookup l i Hi)).
  - unfold at0. destruct (Z.ltb_spec i 0).
    + replace (Z.to_nat i) with O by lia. destruct l as [|b l]; [apply in_u_0; lia|]. by inversion Hl.
    + rewrite nth_overflow by (unfold zlen in *; lia). apply in_u_0. lia.
Qed.

Lemma bytes_ok_sub b o n : bytes_ok b -> bytes_ok (sub b o n).
Proof. intros. by apply Forall_take, Forall_drop. Qed.

(** Two eight-byte words that differ first differ in byte [trailing_zeros / 8]. *)
Lemma first_difference l k : bytes_ok l -> bytes_ok k -> zlen l = 8 -> zlen k = 8 -> from_le l <> from_le k ->
  let n := trailing_zeros 64 (Z.lxor (from_le l) (from_le k)) / 8 in
  0 <= n < 8 /\ at0 l n <> at0 k n /\ forall i, 0 <= i < n -> at0 l i = at0 k i.
Proof.
  intros Hl Hk Zl Zk Hne n.
  assert (Hx : in_u 64 (Z.lxor (from_le l) (from_le k))).
  { apply in_u_lxor; [lia| |]; [replace 64 with (8 * zlen l) by lia|replace 64 with (8 * zlen k) by lia];
      by apply from_le_range. }
  destruct (trailing_zeros_spec 64 _ Hx) as (Ht & Hbit & Hlow); [by rewrite Z.lxor_eq_0_iff|].
  set (tz := trailing_zeros 64 _) in *.
  pose proof (Z.div_mod tz 8 ltac:(lia)) as Hdm. pose proof (Z.mod_pos_bound tz 8 ltac:(lia)) as Hm.
  fold n in Hdm. rewrite Z.lxor_spec in Hbit. split; [lia|]. split.
  - intros He. rewrite Hdm, !from_le_testbit, He, xorb_nilpotent in Hbit by (done || lia). done.
  - intros i Hi. apply Z.bits_inj'. intros j Hj. destruct (Z.ltb_spec j 8).
    + specialize (Hlow (8 * i + j) ltac:(lia)). rewrite Z.lxor_spec, !from_le_testbit in Hlow by (done || lia).
      by destruct (Z.testbit (at0 l i) j), (Z.testbit (at0 k i) j).
    + by rewrite !(testbit_above 8) by (lia || by apply at0_byte).
Qed.

(** The length of the longest common prefix of [b[o1..o1+max]] and
    [b[o2..o2+max]]. *)
Definition common_prefix (b : list byte) (o1 o2 max n : Z) : Prop :=
  0 <= n <= max
  /\ (forall i, 0 <= i < n -> at0 b (o1 + i) = at0 b (o2 + i))
  /\ (n = max \/ at0 b (o1 + n) <> at0 b (o2 + n)).

Lemma common_tail_spec fuel b o1 o2 max : forall n, max - n <= Z.of_nat fuel -> 0 <= n <= max ->
  (forall i, 0 <= i < n -> at0 b (o1 + i) = at0 b (o2 + i)) ->
  common_prefix b o1 o2 max (common_tail fuel b o1 o2 max n).
Proof.
  induction fuel as [|fuel IH]; intros n Hf Hn Hi; cbn [common_tail].
  { split; [done|]. split; [done|]. left; lia. }
  destruct (Z.ltb_spec n max); cbn [andb]; [|split; [done|]; split; [done|]; left; lia].
  destruct (Z.eqb_spec (at0 b (o1 + n)) (at0 b (o2 + n))); [|split; [done|]; split; [done|]; by right].
  apply IH; [lia|lia|]. intros i Hi'. destruct (Z.eq_dec i n) as [->|]; [done|apply Hi; lia].
Qed.

Lemma common_words_spec fuel b o1 o2 max : bytes_ok b -> 0 <= o1 -> 0 <= o2 -> o1 + max <= zlen b -> o2 + max <= zlen b ->
  forall n, 0 <= n <= max -> (forall i, 0 <= i < n -> at0 b (o1 + i) = at0 b (o2 + i)) ->
  common_prefix b o1 o2 max (common_words fuel b o1 o2 max n).
Proof.
  intros Hb H1 H2 Hm1 Hm2. induction fuel as [|fuel IH]; intros n Hn Hi; cbn [common_words].
  { apply common_tail_spec; [lia|done|done]. }
  destruct (Z.leb_spec (n + 8) max); [|apply common_tail_spec; [lia|done|done]].
  pose proof (first_difference (sub b (o1 + n) 8) (sub b (o2 + n) 8)) as Hd.
  do 4 (specialize (Hd ltac:(rewrite ?zlen_sub by lia; try done; by apply bytes_ok_sub))).
  destruct (Z.eqb_spec (from_le (sub b (o1 + n) 8)) (from_le (sub b (o2 + n) 8))) as [He|He]; cbn [negb].
  - apply IH; [lia|]. intros i Hi'. destruct (Z_lt_dec i n); [apply Hi; lia|].
    assert (Hs : sub b (o1 + n) 8 = sub b (o2 + n) 8).
    { rewrite <- (to_from_le (sub b (o1 + n) 8)), <- (to_from_le (sub b (o2 + n) 8)) by by apply bytes_ok_sub.
      rewrite He. f_equal. pose proof (zlen_sub b (o1 + n) 8). pose proof (zlen_sub b (o2 + n) 8).
      unfold zlen in *. lia. }
    pose proof (at0_sub b (o1 + n) 8 (i - n)) as E1. pose proof (at0_sub b (o2 + n) 8 (i - n)) as E2.
    rewrite Hs in E1. replace (o1 + i) with (o1 + n + (i - n)) by lia.
    replace (o2 + i) with (o2 + n + (i - n)) by lia. rewrite <- E1, <- E2 by lia. done.
  - destruct (Hd He) as (Hr & Hdiff & Heq). set (m := trailing_zeros _ _ / 8) in *.
    rewrite !at0_sub in Hdiff by lia. split; [lia|]. split.
    + intros i Hi'. destruct (Z_lt_dec i n); [apply Hi; lia|]. specialize (Heq (i - n) ltac:(lia)).
      rewrite !at0_sub in Heq by lia. replace (o1 + i) with (o1 + n + (i - n)) by lia.
      by replace (o2 + i) with (o2 + n + (i - n)) by lia.
    + right. by rewrite !Z.add_assoc.
Qed.

Lemma common_bytes_spec b o1 o2 limit : bytes_ok b -> 0 <= o1 <= limit -> 0 <= o2 <= limit -> limit <= zlen b ->
  common_prefix b o1 o2 (Z.min (limit - o1) (limit - o2)) (common_bytes b o1 o2 limit).
Proof. intros. apply common_words_spec; try done; lia. Qed.

(** [common_bytes] is the length of the longest common prefix of
    [b[o1..limit]] and [b[o2..limit]]: the bytes before it agree, and it stops
    at [limit] or at the first pair that differs, which the word loop finds
    from the trailing zeros of one exclusive-or. *)
Lemma common_bytes_is_longest_prefix (b : list byte) (o1 o2 limit : Z) :
  bytes_ok b -> 0 <= o1 <= limit -> 0 <= o2 <= limit -> limit <= zlen b ->
  let n := common_bytes b o1 o2 limit in
  0 <= n <= limit - Z.max o1 o2
  /\ sub b o1 n = sub b o2 n
  /\ (n = limit - Z.max o1 o2 \/ at0 b (o1 + n) <> at0 b (o2 + n)).
Proof.
  intros Hb H1 H2 Hl n. destruct (common_bytes_spec b o1 o2 limit Hb H1 H2 Hl) as (Hn & Heq & Hmax). fold n in Hn, Heq, Hmax.
  split; [lia|]. split; [|destruct Hmax; [left; lia|by right]].
  apply words_ext; rewrite !zlen_sub by lia; [done|]. intros k Hk. rewrite !at0_sub by lia. by apply Heq.
Qed.

Lemma common_bytes_is_longest_prefix_witness :
  let b := [5; 1; 2; 3; 4; 5; 6; 7; 8; 9; 9; 1; 2; 3; 4; 5; 6; 7; 8; 9; 10] in
  let n := common_bytes b 1 11 21 in
  n = 9 /\ 0 <= n <= 21 - Z.max 1 11 /\ sub b 1 n = sub b 11 n
  /\ (n = 21 - Z.max 1 11 \/ at0 b (1 + n) <> at0 b (11 + n)).
Proof.
  intros b n. split; [by vm_compute|].
  apply (common_bytes_is_longest_prefix b 1 11 21); [by apply bytes_okb_ok|lia|lia|by vm_compute].
Defined.

(** ** What the compressor writes, parsed back. *)
Lemma encode_len_loop_spec fuel : forall l out, 0 <= l < Z.of_nat fuel ->
  exists xs, encode_len_loop fuel l out = out ++ xs /\ bytes_ok xs /\ 255 * zlen xs <= l + 255
    /\ forall base rest, 0 <= base -> base + l <= usize_max -> pextension base (xs ++ rest) = Some (base + l, rest).
Proof.
  induction fuel as [|fuel IH]; intros l out Hl; [lia|]. cbn [encode_len_loop].
  destruct (Z.leb_spec 255 l).
  - destruct (IH (l - 255) (out ++ [255]) ltac:(lia)) as (xs & -> & Hx & Hz & Hp). exists (255 :: xs).
    rewrite <- app_assoc. split; [done|]. split; [by constructor|]. split; [rewrite zlen_cons; lia|].
    intros base rest Hb Hu. cbn [app pextension]. destruct (Z.ltb_spec usize_max (base + 255)); [lia|].
    change (255 =? 255) with true. cbv iota. rewrite Hp by lia. do 2 f_equal. lia.
  - exists [l]. rewrite wrapu_id by (split; [lia|]; change (2 ^ 8) with 256; lia). split; [done|].
    split; [constructor; [split; [lia|]; change (2 ^ 8) with 256; lia|done]|].
    split; [rewrite zlen_cons; change (zlen []) with 0; lia|].
    intros base rest Hb Hu. cbn [app pextension]. destruct (Z.ltb_spec usize_max (base + l)); [lia|].
    by destruct (Z.eqb_spec l 255); [lia|].
Qed.

(** What the extension bytes of a length cost, times 255. *)
Definition field_size (n : Z) : Z := if 0x0F <=? n then n + 240 else 0.

(** A length split between a nibble of the token and extension bytes. *)
Lemma encode_field n out : 0 <= n <= usize_max ->
  exists ext, (if 0x0F <=? n then encode_len (n - 0x0F) out else out) = out ++ ext /\ bytes_ok ext
    /\ 255 * zlen ext <= field_size n
    /\ forall rest, plength (Z.min n 0x0F) (ext ++ rest) = Some (n, rest).
Proof.
  intros Hn. unfold plength, field_size. destruct (Z.leb_spec 15 n).
  - destruct (encode_len_loop_spec (Datatypes.S (Z.to_nat (n - 15))) (n - 15) out) as (xs & E & Hx & Hz & Hp); [lia|].
    exists xs. split; [done|]. split; [done|]. split; [lia|]. intros rest. rewrite Z.min_r by lia. cbn [Z.eqb Pos.eqb].
    rewrite Hp by lia. do 2 f_equal. lia.
  - exists []. split; [by rewrite app_nil_r|]. split; [constructor|]. split; [done|].
    intros rest. rewrite Z.min_l by lia.
    by destruct (Z.eqb_spec n 15); [lia|].
Qed.

Lemma encode_literals_spec bytes token anchor n out : bytes_ok bytes -> in_u 8 token -> 0 <= anchor -> 0 <= n <= usize_max ->
  anchor + n <= zlen bytes -> Z.shiftr token 4 = Z.min n 0x0F ->
  exists xs, encode_literals bytes token anchor n out = out ++ token :: xs /\ bytes_ok xs
    /\ 255 * zlen xs <= 255 * n + field_size n
    /\ forall dest d rest, d + n <= zlen dest ->
         pliterals token dest d (xs ++ rest) = Some ((write_at dest d (sub bytes anchor n), d + n), rest).
Proof.
  intros Hb Ht Ha Hn Hl Htok. unfold encode_literals.
  destruct (encode_field n (out ++ [token]) Hn) as (ext & -> & Hext & Hez & Hp).
  exists (ext ++ sub bytes anchor n). rewrite <- !app_assoc. split; [done|].
  split; [apply bytes_ok_app; [done|by apply bytes_ok_sub]|].
  split; [rewrite zlen_app, zlen_sub by lia; lia|].
  intros dest d rest Hd. rewrite pliterals_eq, Htok, <- app_assoc, Hp.
  destruct (Z.ltb_spec (zlen dest) (d + n)); [lia|]. unfold pbytes.
  pose proof (zlen_sub bytes anchor n ltac:(lia) ltac:(lia) Hl) as Hs. rewrite zlen_app, Hs.
  destruct (Z.ltb_spec (n + zlen rest) n); [pose proof (zlen_nonneg rest); lia|].
  assert (Hnat : Z.to_nat n = length (sub bytes anchor n)) by (unfold zlen in Hs; lia).
  by rewrite Hnat, take_app_length, drop_app_length.
Qed.

Lemma token_high a b : in_u 4 a -> in_u 4 b ->
  let t := Z.lor (shlu 8 (wrapu 8 a) 4) (wrapu 8 b) in
  in_u 8 t /\ Z.shiftr t 4 = a /\ Z.land t 15 = b.
Proof.
  intros Ha Hb t. assert (Ha8 : in_u 8 a) by by apply (in_u_weaken 4).
  assert (Hb8 : in_u 8 b) by by apply (in_u_weaken 4).
  unfold t. rewrite !wrapu_id by done. split; [|split].
  - apply in_u_lor; [lia| |done]. apply wrapu_range. lia.
  - bits_solve.
  - change 15 with (Z.ones 4). bits_solve.
Qed.

(** A block being decoded: the buffer holds [bytes[start..start + n]] at
    [d_off], and [bytes[lo..start]], the dictionary, just before it. *)
Section decoding.
Context (bytes dest0 : list byte) (lo start len d_off : Z).
Hypothesis Hbytes : bytes_ok bytes.
Hypothesis Hlo : 0 <= lo <= start.
Hypothesis Hlen : 0 <= len.
Hypothesis Hend : start + len <= zlen bytes.
Hypothesis Hdest : d_off + len <= zlen dest0.
Hypothesis Husize : zlen dest0 <= usize_max.
Hypothesis Hoff : start - lo <= d_off.
Hypothesis Hdict : forall k, lo <= k < start -> at0 dest0 (d_off - start + k) = at0 bytes k.

Definition filled (n : Z) : list byte := write_at dest0 d_off (sub bytes start n).

Lemma zlen_filled n : 0 <= n <= len -> zlen (filled n) = zlen dest0.
Proof. intros. unfold filled. rewrite zlen_write_at by (rewrite ?zlen_sub by lia; lia). done. Qed.

Lemma at0_filled n k : 0 <= n <= len -> 0 <= k ->
  at0 (filled n) k = if (d_off <=? k) && (k <? d_off + n) then at0 bytes (start + (k - d_off)) else at0 dest0 k.
Proof.
  intros Hn Hk. unfold filled. rewrite at0_write_at by (rewrite ?zlen_sub by lia; lia).
  rewrite zlen_sub by lia. destruct (Z.leb_spec d_off k), (Z.ltb_spec k (d_off + n)); try done. cbn [andb].
  by rewrite at0_sub by lia.
Qed.

(** The window the decoder can refer to. *)
Lemma at0_window n j : 0 <= n <= len -> lo <= j < start + n -> at0 (filled n) (d_off - start + j) = at0 bytes j.
Proof.
  intros Hn Hj. rewrite at0_filled by lia.
  destruct (Z.leb_spec d_off (d_off - start + j)), (Z.ltb_spec (d_off - start + j) (d_off + n)); try lia; cbn [andb].
  - f_equal. lia.
  - apply Hdict. lia.
Qed.

Lemma filled_literals n m : 0 <= n -> 0 <= m -> n + m <= len ->
  write_at (filled n) (d_off + n) (sub bytes (start + n) m) = filled (n + m).
Proof.
  intros Hn Hm Hl. apply words_ext.
  { rewrite zlen_write_at, !zlen_filled by (rewrite ?zlen_sub, ?zlen_filled by lia; lia). done. }
  intros k Hk. rewrite at0_write_at by (rewrite ?zlen_sub, ?zlen_filled by lia; lia).
  rewrite zlen_sub, !at0_filled by lia.
  destruct (Z.leb_spec (d_off + n) k), (Z.ltb_spec k (d_off + n + m)), (Z.leb_spec d_off k),
    (Z.ltb_spec k (d_off + n)), (Z.ltb_spec k (d_off + (n + m))); try lia; cbn [andb]; try done.
  rewrite at0_sub by lia. f_equal. lia.
Qed.

(** A match against bytes equal to the ones it stands for. *)
Lemma filled_match n r m : 0 <= n -> 0 <= m -> n + m <= len -> lo <= r < start + n ->
  (forall i, 0 <= i < m -> at0 bytes (r + i) = at0 bytes (start + n + i)) ->
  byte_copy (Z.to_nat m) (filled n) (d_off - start + r) (d_off + n) = filled (n + m).
Proof.
  intros Hn Hm Hl Hr Heq.
  apply (periodic_unique (filled n) _ _ (d_off - start + r) (d_off + n) m); [lia| |].
  { rewrite <- (Z2Nat.id m) at 2 by lia. apply byte_copy_periodic; rewrite ?zlen_filled; lia. }
  split; [rewrite !zlen_filled by lia; done|]. split.
  - intros k Hk Hk2. rewrite !at0_filled by lia. bool_lia.
  - intros k Hk. replace k with (d_off - start + (k - d_off + start)) by lia.
    replace (d_off - start + (k - d_off + start) - (d_off + n - (d_off - start + r)))
      with (d_off - start + (r + (k - (d_off + n)))) by lia.
    rewrite !at0_window by lia. rewrite Heq by lia. f_equal. lia.
Qed.

(** One sequence, decoded. *)
Lemma sequence_decodes n match_ref match_off m out : 0 <= n -> start + n <= match_off -> MIN_MATCH <= m ->
  match_off + m < start + len -> lo <= match_ref < match_off -> match_off - match_ref < MAX_DISTANCE ->
  (forall i, 0 <= i < m -> at0 bytes (match_ref + i) = at0 bytes (match_off + i)) ->
  exists xs, encode_sequence bytes (start + n) match_ref match_off m out = out ++ xs /\ bytes_ok xs
    /\ 255 * zlen xs <= 256 * (match_off + m - (start + n))
    /\ forall fuel rest, pblock (Datatypes.S fuel) (d_off + len) (filled n) (d_off + n) (xs ++ rest)
         = pblock fuel (d_off + len) (filled (match_off + m - start)) (d_off + (match_off + m - start)) rest.
Proof.
  intros Hn Hoffm Hm Hend' Hr Hdist Heq. unfold encode_sequence, MIN_MATCH in *.
  change MAX_DISTANCE with 65536 in Hdist. set (lit := match_off - (start + n)).
  pose proof (zlen_nonneg dest0) as Hd0. assert (Hlit : 0 <= lit <= usize_max) by lia.
  destruct (token_high (Z.min lit 15) (Z.min (m - 4) 15)) as (Ht & Hhi & Hlow);
    [split; [lia|]; change (2 ^ 4) with 16; lia..|].
  set (token := Z.lor _ _) in *. cbv zeta.
  destruct (encode_literals_spec bytes token (start + n) lit out Hbytes Ht ltac:(lia) Hlit ltac:(lia) Hhi)
    as (xs & -> & Hxs & Hxz & Hp).
  set (dec := match_off - match_ref). assert (Hdec : in_u 16 dec) by (split; [lia|]; change (2 ^ 16) with 65536; lia).
  rewrite wrapu_id by done.
  destruct (encode_field (m - 4) ((out ++ token :: xs) ++ to_le 2 dec)) as (ext & E & Hext & Hez & Hpe); [lia|].
  replace (4 + 15 <=? m) with (15 <=? m - 4) by bool_lia. replace (m - 15 - 4) with (m - 4 - 15) by lia. rewrite E.
  exists (token :: xs ++ to_le 2 dec ++ ext). split; [by rewrite <- !app_assoc|].
  split; [constructor; [done|]; repeat apply bytes_ok_app; try done; apply to_le_ok|].
  split.
  { rewrite zlen_cons, !zlen_app, zlen_to_le. unfold field_size in *.
    destruct (Z.leb_spec 15 lit), (Z.leb_spec 15 (m - 4)); lia. }
  intros fuel rest. cbn [pblock]. unfold pbind at 1. cbn [pbyte app]. unfold pbind at 1.
  rewrite <- !app_assoc, Hp by (rewrite zlen_filled; lia). rewrite filled_literals by lia.
  destruct (Z.leb_spec (d_off + len) (d_off + n + lit)); [lia|]. unfold pbind at 1. rewrite pmatch_eq.
  assert (Hb2 : pbytes 2 (to_le 2 dec ++ ext ++ rest) = Some (to_le 2 dec, ext ++ rest)).
  { unfold pbytes. pose proof (zlen_nonneg (ext ++ rest)).
    destruct (Z.ltb_spec (zlen (to_le 2 dec ++ ext ++ rest)) 2) as [Hlt|]; [|done].
    rewrite zlen_app, zlen_to_le in Hlt. lia. }
  rewrite Hb2, from_to_le_id by done. destruct (Z.eqb_spec dec 0); [lia|].
  rewrite Hlow, Hpe, zlen_filled by lia. destruct (Z.ltb_spec (d_off + n + lit) dec); [lia|]. cbn [orb].
  unfold MIN_MATCH. destruct (Z.ltb_spec (zlen dest0) (d_off + n + lit + (m - 4 + 4))); [lia|].
  replace (m - 4 + 4) with m by lia. replace (d_off + n + lit) with (d_off + (n + lit)) by lia.
  replace (d_off + (n + lit) - dec) with (d_off - start + match_ref) by lia.
  rewrite filled_match; [|lia|lia|lia|lia|].
  2:{ intros i Hi. rewrite Heq by lia. f_equal. lia. }
  replace (d_off + (n + lit) + m) with (d_off + (match_off + m - start)) by lia.
  replace (n + lit + m) with (match_off + m - start) by lia.
  destruct (Z.leb_spec (d_off + len) (d_off + (match_off + m - start))); [lia|done].
Qed.

(** The last literals end the block. *)
Lemma last_literals_decode n out : 0 <= n <= len ->
  exists xs, encode_last_literals bytes (start + n) (len - n) out = out ++ xs /\ bytes_ok xs
    /\ 255 * zlen xs <= 256 * (len - n) + 495
    /\ forall fuel rest, pblock (Datatypes.S fuel) (d_off + len) (filled n) (d_off + n) (xs ++ rest)
         = Some ((filled len, d_off + len), rest).
Proof.
  intros Hn. unfold encode_last_literals. pose proof (zlen_nonneg dest0) as Hd0.
  destruct (token_high (Z.min (len - n) 15) 0) as (Ht & Hhi & _);
    [split; [lia|]; change (2 ^ 4) with 16; lia|split; done|].
  change (wrapu 8 0) with 0 in *. rewrite Z.lor_0_r in *.
  destruct (encode_literals_spec bytes _ (start + n) (len - n) out Hbytes Ht ltac:(lia) ltac:(lia) ltac:(lia) Hhi)
    as (xs & -> & Hxs & Hxz & Hp).
  eexists. split; [done|]. split; [by constructor|].
  split; [rewrite zlen_cons; unfold field_size in *; destruct (Z.leb_spec 15 (len - n)); lia|].
  intros fuel rest. cbn [pblock]. unfold pbind at 1. cbn [pbyte app]. unfold pbind at 1.
  rewrite Hp by (rewrite zlen_filled; lia). rewrite filled_literals by lia.
  replace (d_off + n + (len - n)) with (d_off + len) by lia. replace (n + (len - n)) with len by lia.
  destruct (Z.leb_spec (d_off + len) (d_off + len)); [done|lia].
Qed.
End decoding.

(** ** What the compressor asks of a table.  [idle]: any state between calls,
    stale entries of earlier inputs included; [running bytes base]: between
    [reset bytes base _] and the end of the call.  Every candidate is an
    earlier offset of the run with the same four bytes; [get]'s is within the
    format's reach. *)
Definition verified (bytes : list byte) (base off c : Z) : Prop :=
  base <= c < off /\ read4 bytes c = read4 bytes off.

Class HashTableLaws (T : Type) `{HashTable T} := {
  idle : T -> Prop;
  running : list byte -> Z -> T -> Prop;
  law_reset bytes off len t : idle t -> 0 <= off -> 0 <= len -> off + len <= zlen bytes -> zlen bytes < 2 ^ 31 ->
    running bytes off (reset bytes off len t);
  law_init bytes base dict_len t : running bytes base t -> 0 <= base -> 0 <= dict_len ->
    base + dict_len + 4 <= zlen bytes -> zlen bytes < 2 ^ 31 -> running bytes base (init_dictionary bytes dict_len t);
  law_get bytes base off t r t' : running bytes base t -> 0 <= base <= off -> off + 4 <= zlen bytes -> zlen bytes < 2 ^ 31 ->
    get bytes off t = (r, t') ->
    running bytes base t' /\ (forall c, r = Some c -> verified bytes base off c /\ off - c < MAX_DISTANCE);
  law_previous bytes base off t r t' : running bytes base t -> 0 <= base <= off -> off + 4 <= zlen bytes -> zlen bytes < 2 ^ 31 ->
    previous bytes off t = (r, t') -> running bytes base t' /\ (forall c, r = Some c -> verified bytes base off c);
  law_idle bytes base t : running bytes base t -> idle t;
}.

(** ** The compressor. *)
Section compressor.
Context {T : Type} `{HashTableLaws T} (bytes : list byte) (base limit : Z).
Hypothesis Hbytes : bytes_ok bytes.
Hypothesis Hsize : zlen bytes < 2 ^ 31.
Hypothesis Hbase : 0 <= base.
Hypothesis Hlimit : limit + 4 <= zlen bytes.

(** [m] bytes at [r] repeat at [off], up to [limit]. *)
Definition matches (off r m : Z) : Prop :=
  base <= r < off /\ MIN_MATCH <= m /\ off + m <= limit
  /\ forall i, 0 <= i < m -> at0 bytes (r + i) = at0 bytes (off + i).

Lemma read4_bytes c off i : 0 <= c -> 0 <= off -> c + 4 <= zlen bytes -> off + 4 <= zlen bytes ->
  read4 bytes c = read4 bytes off -> 0 <= i < 4 -> at0 bytes (c + i) = at0 bytes (off + i).
Proof.
  intros Hc Ho Hc4 Ho4 He Hi. unfold read4 in He.
  assert (Hs : sub bytes c 4 = sub bytes off 4).
  { rewrite <- (to_from_le (sub bytes c 4)), <- (to_from_le (sub bytes off 4)) by by apply bytes_ok_sub.
    rewrite He. f_equal. pose proof (zlen_sub bytes c 4). pose proof (zlen_sub bytes off 4). unfold zlen in *. lia. }
  by rewrite <- (at0_sub bytes c 4), <- (at0_sub bytes off 4), Hs by lia.
Qed.

Lemma verified_matches off c : verified bytes base off c -> off + 4 <= limit ->
  matches off c (MIN_MATCH + common_bytes bytes (c + MIN_MATCH) (off + MIN_MATCH) limit).
Proof.
  intros [Hc He] Ho. unfold matches, MIN_MATCH.
  destruct (common_bytes_spec bytes (c + 4) (off + 4) limit) as (Hn & Heq & _); [done|lia..|].
  split; [done|]. split; [lia|]. split; [lia|]. intros i Hi.
  destruct (Z_lt_dec i 4); [apply read4_bytes; try done; lia|].
  replace (c + i) with (c + 4 + (i - 4)) by lia. replace (off + i) with (off + 4 + (i - 4)) by lia.
  apply Heq. lia.
Qed.

Lemma verified_trans off c c' : verified bytes base off c -> verified bytes base c c' -> verified bytes base off c'.
Proof. intros [? E1] [? E2]. split; [lia|congruence]. Qed.

Lemma find_match_spec match_limit fuel : match_limit + MIN_MATCH <= limit ->
  forall off ht res ht', running bytes base ht -> base <= off -> find_match fuel bytes match_limit off ht = (res, ht') ->
  running bytes base ht'
  /\ forall r off', res = Some (r, off') -> verified bytes base off' r /\ off' - r < MAX_DISTANCE /\ off <= off' < match_limit.
Proof.
  unfold MIN_MATCH. intros Hml. induction fuel as [|fuel IH]; intros off ht res ht' Hr Hoff; cbn [find_match].
  { by intros [= <- <-]. }
  destruct (Z.leb_spec match_limit off); [by intros [= <- <-]|].
  destruct (get bytes off ht) as [[c|] ht1] eqn:E; apply (law_get _ base) in E as [Hr1 Hc]; try done; try lia.
  - intros [= <- <-]. split; [done|]. intros ? ? [= <- <-]. destruct (Hc c eq_refl). split; [done|]. split; [done|]. lia.
  - intros Hf. apply IH in Hf as [? Hf]; [|done|lia]. split; [done|]. intros r off' Hres.
    destruct (Hf r off' Hres) as (? & ? & ?). split; [done|]. split; [done|]. lia.
Qed.

Lemma better_match_spec off min : off + 4 <= limit -> base <= off ->
  forall fuel r match_ref match_len ht ref' len' ht', running bytes base ht ->
  (forall c, r = Some c -> verified bytes base off c) ->
  matches off match_ref match_len -> (min <= match_ref \/ off - match_ref < MAX_DISTANCE) -> off - min < MAX_DISTANCE ->
  better_match fuel bytes off limit min r match_ref match_len ht = (ref', len', ht') ->
  running bytes base ht' /\ matches off ref' len' /\ off - ref' < MAX_DISTANCE.
Proof.
  intros Hoff Hb. induction fuel as [|fuel IH]; intros r match_ref match_len ht ref' len' ht' Hr Hc Hm Hd Hmin.
  { cbn [better_match]. intros [= <- <- <-]. split; [done|]. split; [done|]. lia. }
  destruct r as [c|]; cbn [better_match]; [|intros [= <- <- <-]; split; [done|]; split; [done|]; lia].
  destruct (Z.ltb_spec c min); [intros [= <- <- <-]; split; [done|]; split; [done|]; lia|].
  specialize (Hc c eq_refl). pose proof (verified_matches off c Hc Hoff) as Hmc. cbv zeta.
  set (clen := MIN_MATCH + _) in *.
  destruct (previous bytes c ht) as [r1 ht1] eqn:E. destruct Hc as [Hcr Hc4].
  apply (law_previous _ base) in E as [Hr1 Hc1]; [|done|lia|lia|done].
  destruct (match_len <? clen); apply IH; try done; try lia;
    intros c' Hc'; apply (verified_trans _ c); try (by apply Hc1); by split.
Qed.
End compressor.

(** ** The main loop, decoded. *)
Section main.
Context {T : Type} `{HashTableLaws T} (bytes dest0 : list byte) (base start len d_off : Z).
Hypothesis Hbytes : bytes_ok bytes.
Hypothesis Hsize : zlen bytes < 2 ^ 31.
Hypothesis Hlo : 0 <= base <= start.
Hypothesis Hlen : 0 <= len.
Hypothesis Hend : start + len <= zlen bytes.
Hypothesis Hdest : d_off + len <= zlen dest0.
Hypothesis Husize : zlen dest0 <= usize_max.
Hypothesis Hoff : start - base <= d_off.
Hypothesis Hdict : forall k, base <= k < start -> at0 dest0 (d_off - start + k) = at0 bytes k.

Notation decoded := (filled bytes dest0 start d_off).

(** [xs] decodes from [n] bytes to [n'] bytes, however much fuel is left. *)
Definition advances (xs : list byte) (n n' : Z) : Prop := forall f rest, len - n < Z.of_nat f -> exists f',
  len - n' < Z.of_nat f'
  /\ pblock f (d_off + len) (decoded n) (d_off + n) (xs ++ rest) = pblock f' (d_off + len) (decoded n') (d_off + n') rest.

Lemma main_loop_decodes limit fuel : limit + LAST_LITERALS <= start + len ->
  forall n out ht out' anchor' ht', running bytes base ht -> 0 <= n <= len ->
  main_loop fuel bytes base limit (limit - MIN_MATCH) (start + n) (start + n) out ht = (out', anchor', ht') ->
  running bytes base ht' /\ start + n <= anchor' <= start + len
  /\ exists xs, out' = out ++ xs /\ bytes_ok xs /\ 255 * zlen xs <= 256 * (anchor' - start - n) /\ advances xs n (anchor' - start).
Proof.
  unfold LAST_LITERALS. intros Hlim.
  assert (Hstop : forall n out ht, running bytes base ht -> 0 <= n <= len ->
    running bytes base ht /\ start + n <= start + n <= start + len
    /\ exists xs, out = out ++ xs /\ bytes_ok xs /\ 255 * zlen xs <= 256 * (start + n - start - n) /\ advances xs n (start + n - start)).
  { intros n out ht Hr Hn. split; [done|]. split; [lia|]. exists []. rewrite app_nil_r. split; [done|].
    split; [constructor|]. split; [change (zlen []) with 0; lia|]. intros f rest Hf. exists f. replace (start + n - start) with n by lia. done. }
  induction fuel as [|fuel IH]; intros n out ht out' anchor' ht' Hr Hn; cbn [main_loop].
  { intros [= <- <- <-]. by apply Hstop. }
  destruct (Z.leb_spec (start + n) limit); [|intros [= <- <- <-]; by apply Hstop].
  destruct (find_match _ _ _ _ _) as [[[r off]|] ht1] eqn:Ef;
    (eapply (find_match_spec bytes base limit) in Ef as [Hr1 Hf]; [|try done; try lia..]).
  2:{ intros [= <- <- <-]. by apply Hstop. }
  destruct (Hf r off eq_refl) as (Hv & Hnear & Hoff'). cbv zeta. unfold MIN_MATCH in Hoff'.
  pose proof (verified_matches bytes base limit Hbytes ltac:(lia) ltac:(lia) off r Hv ltac:(lia)) as Hm.
  set (mlen := MIN_MATCH + _) in *. set (min := Z.max base _).
  destruct (previous bytes r ht1) as [r2 ht2] eqn:Ep.
  apply (law_previous _ base) in Ep as [Hr2 Hc2]; [|done|destruct Hv; lia|destruct Hv; lia|done].
  destruct (better_match _ _ _ _ _ _ _ _ _) as [[ref2 len2] ht3] eqn:Eb.
  change MAX_DISTANCE with 65536 in *.
  assert (Hc2' : forall c, r2 = Some c -> verified bytes base off c).
  { intros c Hc. by apply (verified_trans _ _ _ r); [|apply Hc2]. }
  eapply (better_match_spec bytes base limit) in Eb as (Hr3 & Hm3 & Hnear3);
    [|done|lia|lia|lia|unfold MIN_MATCH in *; lia|lia|exact Hr2|exact Hc2'|exact Hm|by right|change MAX_DISTANCE with 65536; unfold min; lia].
  change MAX_DISTANCE with 65536 in Hnear3.
  destruct Hm3 as (Hrb & Hm4 & Hml & Heq). unfold MIN_MATCH in Hm4.
  destruct (sequence_decodes bytes dest0 base start len d_off Hbytes Hlo Hend Hdest Husize Hoff Hdict
    n ref2 off len2 out) as (xs & Exs & Hxs & Hxz & Hp); try done; try lia.
  rewrite Exs. replace (off + len2) with (start + (off + len2 - start)) by lia.
  intros Hmain. apply IH in Hmain as (Hr4 & Ha & ys & -> & Hys & Hyz & Hadv); [|done|lia].
  split; [done|]. split; [lia|]. exists (xs ++ ys). rewrite <- app_assoc. split; [done|].
  split; [by apply bytes_ok_app|]. split; [rewrite zlen_app; lia|]. intros [|f] rest Hfuel; [lia|].
  rewrite <- app_assoc, Hp. apply Hadv. lia.
Qed.

(** A whole block. *)
Lemma block_decodes dict_off out ht out' ht' : base = dict_off -> idle ht -> bytes_ok out ->
  compress_with_dictionary bytes dict_off (start - base) len out ht = (out', ht') ->
  idle ht' /\ exists xs, out' = out ++ xs /\ bytes_ok xs
  /\ zlen xs <= len + len / 255 + 2
  /\ forall rest, reference_decode len dest0 d_off (xs ++ rest) = Some ((decoded len, d_off + len), rest).
Proof.
  intros <- Hidle Hout. unfold compress_with_dictionary. cbv zeta.
  replace (base + (start - base)) with (start + 0) by lia.
  destruct (if LAST_LITERALS + MIN_MATCH <? len then _ else _) as [[o1 anchor] ht1] eqn:E.
  assert (Hmain : idle ht1 /\ start + 0 <= anchor <= start + len /\ exists xs, o1 = out ++ xs /\ bytes_ok xs
    /\ 255 * zlen xs <= 256 * (anchor - start - 0) /\ advances xs 0 (anchor - start)).
  { unfold LAST_LITERALS, MIN_MATCH in E. destruct (Z.ltb_spec (5 + 4) len).
    - eapply main_loop_decodes in E as (Hr & Ha & xs & -> & Hx & Hxz & Hadv); [|unfold LAST_LITERALS; lia| |lia].
      + split; [by eapply law_idle|]. split; [done|]. by exists xs.
      + apply law_init; try lia. apply law_reset; try done; lia.
    - injection E as <- <- <-. split; [done|]. split; [lia|]. exists []. rewrite app_nil_r. split; [done|].
      split; [constructor|]. split; [change (zlen []) with 0; lia|]. intros f rest Hf. exists f. by replace (start + 0 - start) with 0 by lia. }
  destruct Hmain as (Hid & Ha & xs & -> & Hx & Hxz & Hadv). intros [= <- <-]. split; [done|].
  destruct (last_literals_decode bytes dest0 base start len d_off Hbytes Hlo Hend Hdest Husize Hoff
    (anchor - start) (out ++ xs) ltac:(lia)) as (ys & Ey & Hy & Hyz & Hp).
  replace (start + (anchor - start)) with anchor in Ey by lia.
  replace (start + 0 + len - anchor) with (len - (anchor - start)) by lia. rewrite Ey.
  exists (xs ++ ys). rewrite <- app_assoc. split; [done|]. split; [by apply bytes_ok_app|].
  split.
  { rewrite zlen_app. pose proof (Z.div_mod len 255 ltac:(lia)). pose proof (Z.mod_pos_bound len 255 ltac:(lia)). lia. }
  intros rest. unfold reference_decode. destruct (Z.ltb_spec (zlen dest0) (d_off + len)); [lia|].
  destruct (Hadv (Datatypes.S (Z.to_nat len)) (ys ++ rest) ltac:(lia)) as (f' & Hf' & E').
  rewrite <- app_assoc. replace (decoded 0) with dest0 in E'.
  2:{ unfold filled. cbn. rewrite write_at_nil; [done|lia]. }
  rewrite Z.add_0_r in E'. rewrite E'. destruct f' as [|f']; [lia|]. apply Hp.
Qed.
End main.

(** ** [FastCompressionHashTable] keeps the promise. *)
Definition fast_idle (t : Fast) : Prop := Forall (in_u 32) (table t).
Definition fast_running (bytes : list byte) (base : Z) (t : Fast) : Prop :=
  fast_idle t /\ fbase t = base /\ 12 <= hash_log t <= 13 /\ Z.shiftl 1 (hash_log t) <= zlen (table t).

(** Every hash addresses a slot. *)
Lemma hash_range v bits : 0 < bits <= 32 -> 0 <= hash v bits < Z.shiftl 1 bits.
Proof.
  intros Hb. unfold hash. pose proof (wrapu_range 32 (v * 0x9E3779B1) ltac:(lia)) as [H0 H1].
  set (x := wrapu 32 _) in *. rewrite Z.shiftr_div_pow2, Z.shiftl_mul_pow2 by lia.
  split; [apply Z.div_pos; lia|]. apply Z.div_lt_upper_bound; [lia|].
  rewrite Z.mul_assoc, Z.mul_1_r, <- Z.pow_add_r by lia. by replace (32 - bits + bits) with 32 by lia.
Qed.

Lemma at0_Forall (Q : Z -> Prop) l i : Forall Q l -> 0 <= i < zlen l -> Q (at0 l i).
Proof. intros Hl Hi. by apply (Forall_lookup_1 _ _ _ _ Hl (at0_lookup l i Hi)). Qed.

Lemma fast_store bytes base t h v : fast_running bytes base t ->
  fast_running bytes base (mk_fast (set_at (table t) h (wrapu 32 v)) (hash_log t) (bits_per_offset t) (fbase t)).
Proof.
  intros (Hi & Hb & Hl & Hz). unfold fast_running. cbn [fbase hash_log table]. rewrite zlen_set_at.
  split; [|done]. apply Forall_insert; [done|]. apply wrapu_range. lia.
Qed.

Lemma fast_reset_running bytes off len t : fast_idle t -> fast_running bytes off (fast_reset bytes off len t).
Proof.
  intros Hi. unfold fast_reset. change (Z.shiftl 1 16) with 65536.
  set (c := Z.max (len - LAST_LITERALS) 0 <? 65536).
  assert (Hc : (if c then (16, 4) else (32, 5)) = (if c then 16 else 32, if c then 4 else 5)) by by destruct c.
  rewrite Hc. cbn iota beta. set (log := MEMORY_USAGE + 3 - (if c then 4 else 5)).
  assert (Hlog : 12 <= log <= 13) by (unfold log, MEMORY_USAGE; destruct c; lia).
  destruct ((zlen (table t) <? Z.shiftl 1 log) || (bits_per_offset t <? (if c then 16 else 32))) eqn:E.
  - split; [apply Forall_replicate, in_u_0; lia|]. cbn [fbase hash_log table]. split; [done|]. split; [done|].
    unfold zlen. rewrite length_replicate. lia.
  - apply orb_false_iff in E as [E%Z.ltb_ge _]. by split.
Qed.

Lemma fast_init_running bytes base n : forall i t, fast_running bytes base t ->
  fast_running bytes base (fast_init_loop n i bytes t).
Proof. induction n as [|n IH]; intros i t Ht; cbn [fast_init_loop]; [done|]. by apply IH, fast_store. Qed.

#[global] Program Instance fast_hash_table_laws : HashTableLaws Fast := {| idle := fast_idle; running := fast_running |}.
Next Obligation. intros. by apply fast_reset_running. Qed.
Next Obligation. intros. by apply fast_init_running. Qed.
Next Obligation.
  intros bytes base off t r t' Ht Hoff Hb Hs. cbn [get fast_hash_table]. unfold fast_get.
    pose proof Ht as (Hi & Hfb & Hlog & Hz).
    pose proof (hash_range (read4 bytes off) (hash_log t) ltac:(lia)) as Hh. set (h := hash _ _) in *.
    destruct (at0_Forall _ _ h Hi ltac:(lia)) as [Hp _]. set (p := at0 (table t) h) in *.
    destruct ((fbase t + p <? off) && (off - (fbase t + p) <? MAX_DISTANCE) && (read4 bytes (fbase t + p) =? read4 bytes off)) eqn:E;
      intros [= <- <-]; (split; [by apply fast_store|]); [|done].
    apply andb_true_iff in E as [[E1%Z.ltb_lt E2%Z.ltb_lt]%andb_true_iff E3%Z.eqb_eq].
    intros c [= <-]. split; [split; [lia|done]|lia].
Qed.
Next Obligation. intros bytes base off t r t' Ht _ _ _ [= <- <-]. by split. Qed.
Next Obligation. intros bytes base t Ht. apply Ht. Qed.

(** ** [HighCompressionHashTable] keeps it too.  Every chain link is at least
    one, so a walk strictly descends. *)
Definition hc_idle (t : HC) : Prop :=
  zlen (hash_table t) = HASH_TABLE_SIZE_HC /\ Forall (in_s 32) (hash_table t)
  /\ zlen (chain_table t) = MAX_DISTANCE /\ Forall (fun delta => 1 <= delta < 65536) (chain_table t)
  /\ 0 <= hbase t <= end_ t /\ 0 <= attempts t.
Definition hc_running (bytes : list byte) (base : Z) (t : HC) : Prop := hc_idle t /\ hbase t = base /\ base <= next t.

Lemma chain_slot off : 0 <= Z.land off HC_MASK < MAX_DISTANCE.
Proof.
  change HC_MASK with (Z.ones 16). rewrite Z.land_ones by lia. apply Z.mod_pos_bound. done.
Qed.

Lemma chain_link t off : hc_idle t -> 1 <= at0 (chain_table t) (Z.land off HC_MASK) < 65536.
Proof.
  intros (_ & _ & Hz & Hc & _). apply (at0_Forall _ _ _ Hc). rewrite Hz. apply chain_slot.
Qed.

Lemma chain_fill l a b : Forall (fun delta => 1 <= delta < 65536) l ->
  Forall (fun delta => 1 <= delta < 65536) (map_range (fun _ => 0xFFFF) l a b).
Proof.
  intros Hl. unfold map_range. apply Forall_app. split; [by apply Forall_take|].
  apply Forall_app. split; [|by apply Forall_drop]. by apply Forall_map, Forall_true.
Qed.

Lemma hc_idle_attempts t a : hc_idle t -> 0 <= a -> hc_idle (set_attempts t a).
Proof. by intros (? & ? & ? & ? & ? & ?). Qed.

Lemma hc_idle_next t n : hc_idle t -> hc_idle (set_next t n).
Proof. done. Qed.

Lemma add_hash_idle bytes off t : hc_idle t -> hc_idle (add_hash bytes off t).
Proof.
  intros (H1 & H2 & H3 & H4 & H5 & H6). unfold add_hash, hc_idle. cbv zeta.
  cbn [hash_table chain_table hbase end_ attempts]. rewrite !zlen_set_at.
  split; [done|]. split; [apply Forall_insert; [done|apply wraps_range; lia]|]. split; [done|].
  split; [|done]. apply Forall_insert; [done|]. change MAX_DISTANCE with 65536.
  set (delta := off - _). set (d := if (delta <=? 0) || (65536 <=? delta) then 65536 - 1 else delta).
  assert (Hd : 1 <= d < 65536).
  { unfold d. destruct (Z.leb_spec delta 0), (Z.leb_spec 65536 delta); cbn [orb]; lia. }
  rewrite wrapu_id; [done|]. split; [lia|]. change (2 ^ 16) with 65536. lia.
Qed.

Lemma add_hashes_idle bytes n : forall off t, hc_idle t -> hc_idle (add_hashes n off bytes t)
  /\ hbase (add_hashes n off bytes t) = hbase t /\ next (add_hashes n off bytes t) = next t.
Proof.
  induction n as [|n IH]; intros off t Ht; cbn [add_hashes]; [done|].
  apply (IH (off + 1) (add_hash bytes off t)). by apply add_hash_idle.
Qed.

Lemma hc_walk_spec fuel bytes v min : forall candidate t r t', hc_idle t -> hc_walk fuel bytes v min candidate t = (r, t') ->
  (exists a, t' = set_attempts t a /\ 0 <= a) /\ forall c, r = Some c -> min <= c <= candidate /\ read4 bytes c = v.
Proof.
  induction fuel as [|fuel IH]; intros candidate t r t' Ht; cbn [hc_walk].
  all: assert (Hsame : exists a : Z, t = set_attempts t a /\ 0 <= a)
    by (exists (attempts t); split; [by destruct t|apply Ht]).
  { by intros [= <- <-]. }
  destruct (Z.leb_spec min candidate); cbn [andb]; [|by intros [= <- <-]].
  destruct (Z.ltb_spec (attempts t) MAX_ATTEMPTS); [|by intros [= <- <-]].
  destruct (Z.eqb_spec (read4 bytes candidate) v); [intros [= <- <-]; split; [done|]; intros c [= <-]; split; [lia|done]|].
  pose proof (chain_link t candidate Ht) as Hl.
  intros E. apply IH in E as [(a & -> & Ha) Hc].
  - split; [by exists a|]. intros c Hr. destruct (Hc c Hr). split; [lia|done].
  - apply hc_idle_attempts; [done|]. destruct Ht as (_ & _ & _ & _ & _ & ?). lia.
Qed.

Lemma hc_reset_running bytes off len t : hc_idle t -> 0 <= off -> 0 <= len -> hc_running bytes off (hc_reset bytes off len t).
Proof.
  intros (H1 & H2 & H3 & H4 & H5 & H6) Hoff Hlen.
  unfold hc_reset. set (hc := if _ <? _ then _ else _).
  assert (Hc : zlen (fst hc) = HASH_TABLE_SIZE_HC /\ Forall (in_s 32) (fst hc) /\ zlen (snd hc) = MAX_DISTANCE
               /\ Forall (fun delta => 1 <= delta < 65536) (snd hc)).
  { unfold hc. clear hc. pose proof (chain_slot (hbase t)) as Ha. pose proof (chain_slot (end_ t - 1)) as Hb.
    set (a := Z.land (hbase t) HC_MASK) in *. set (b := if end_ t =? 0 then 0 else _).
    assert (Hb' : 0 <= b <= MAX_DISTANCE) by (unfold b; destruct (Z.eqb_spec (end_ t) 0); lia).
    destruct (Z.ltb_spec (end_ t - hbase t) (zlen (chain_table t))); [destruct (Z.ltb_spec a b)|];
      cbn [fst snd]; rewrite ?zlen_map, ?zlen_map_range by (rewrite ?zlen_map_range by lia; lia).
    - split; [done|]. split; [done|]. split; [done|]. by apply chain_fill.
    - split; [done|]. split; [done|]. split; [done|]. by apply chain_fill, chain_fill.
    - split; [done|]. split; [by apply Forall_map, Forall_true|]. split; [done|]. by apply Forall_map, Forall_true. }
  destruct hc as [h c]. cbn [fst snd] in Hc. split; [|split; [done|cbn; lia]].
  destruct Hc as (? & ? & ? & ?). repeat split; try done; cbn; lia.
Qed.
#[global] Program Instance hc_hash_table_laws : HashTableLaws HC := {| idle := hc_idle; running := hc_running |}.
Next Obligation. intros. by apply hc_reset_running. Qed.
Next Obligation.
  intros bytes base n t (Ht & Hb & Hn) Hbase Hlen _ _. cbn [init_dictionary hc_hash_table]. unfold hc_init_dictionary.
  destruct (add_hashes_idle bytes (Z.to_nat n) (hbase t) t Ht) as (Hi & Hb' & _).
  split; [|split; [cbn [hbase set_next]; congruence|cbn; lia]]. by apply hc_idle_next.
Qed.
Next Obligation.
  intros bytes base off t r t' (Ht & Hb & Hn) Hoff Hlen Hs. cbn [get hc_hash_table]. unfold hc_get.
  set (t1 := if next t <? off then _ else t).
  assert (Ht1 : hc_idle t1 /\ hbase t1 = base /\ base <= next t1).
  { unfold t1. destruct (Z.ltb_spec (next t) off); [|done].
    destruct (add_hashes_idle bytes (Z.to_nat (off - next t)) (next t) t Ht) as (Hi & Hb' & _).
    split; [|split; [cbn [hbase set_next]; congruence|cbn; lia]]. by apply hc_idle_next. }
  destruct Ht1 as (Hi & Hb1 & Hn1). cbv zeta. cbn [hash_table set_attempts hbase].
  assert (Hi0 : hc_idle (set_attempts t1 0)) by by apply hc_idle_attempts.
  assert (Hw : forall z, 0 <= z < 2 ^ 31 -> wraps 32 z = z).
  { intros z Hz. apply wraps_id; [lia|]. unfold in_s. change (32 - 1) with 31. lia. }
  rewrite (Hw off), Hb1 by lia. set (c0 := at0 (hash_table t1) _).
  destruct (Z.leb_spec off c0); [by intros [= <- <-]|].
  change MAX_DISTANCE with 65536. rewrite Hw by lia. intros E.
  apply hc_walk_spec in E as [(a & -> & Ha) Hc]; [|done]. split.
  - split; [by apply (hc_idle_attempts t1)|done].
  - intros c Hr. destruct (Hc c Hr). split; [split; [lia|done]|lia].
Qed.
Next Obligation.
  intros bytes base off t r t' (Ht & Hb & Hn) Hoff Hlen Hs. cbn [previous hc_hash_table]. unfold hc_previous.
  pose proof (chain_link t off Ht) as Hl. intros E.
  apply hc_walk_spec in E as [(a & -> & Ha) Hc]; [|done]. split.
  - split; [by apply hc_idle_attempts|done].
  - intros c Hr. destruct (Hc c Hr). split; [lia|done].
Qed.
Next Obligation. intros bytes base t Ht. apply Ht. Qed.

Lemma fast_new_idle : fast_idle fast_new.
Proof. constructor. Qed.

Lemma zlen_fill (v n : Z) : 0 <= n -> zlen (replicate (Z.to_nat n) v) = n.
Proof. intros. unfold zlen. rewrite length_replicate. lia. Qed.

Lemma hc_new_idle : hc_idle hc_new.
Proof.
  unfold hc_idle, hc_new. cbn [hash_table chain_table hbase end_ attempts].
  rewrite !zlen_fill by (change HASH_TABLE_SIZE_HC with 32768; change MAX_DISTANCE with 65536; lia).
  split; [reflexivity|]. split; [apply Forall_replicate; by vm_compute|].
  split; [reflexivity|]. split; [apply Forall_replicate; lia|]. lia.
Qed.

(** ** The properties. *)

(** A hash table never lies.  In any state reached during a compression
    run, whatever stale entries earlier inputs left behind, the fast table and
    the chain table only return an earlier offset of the run whose four bytes
    are the ones looked up, [get]'s within the format's 64 KiB reach; they
    address only slots they have, and stay in such a state. *)
Lemma tables_verify_candidates (bytes : list byte) (base off : Z) (fast : Fast) (hc : HC) :
  fast_running bytes base fast -> hc_running bytes base hc ->
  0 <= base <= off -> off + 4 <= zlen bytes -> zlen bytes < 2 ^ 31 ->
  let real limit (r : option Z) := forall c, r = Some c ->
    base <= c < off /\ off - c < limit /\ read4 bytes c = read4 bytes off in
  real MAX_DISTANCE (fast_get bytes off fast).1 /\ fast_running bytes base (fast_get bytes off fast).2
  /\ real MAX_DISTANCE (hc_get bytes off hc).1 /\ hc_running bytes base (hc_get bytes off hc).2
  /\ real (zlen bytes) (hc_previous bytes off hc).1 /\ hc_running bytes base (hc_previous bytes off hc).2
  /\ 0 <= hash (read4 bytes off) (hash_log fast) < zlen (table fast)
  /\ 0 <= hash (read4 bytes off) HASH_LOG_HC < zlen (hash_table hc).
Proof.
  intros Hf Hc Hoff Hl Hs real.
  destruct (fast_get bytes off fast) as [r1 t1] eqn:E1, (hc_get bytes off hc) as [r2 t2] eqn:E2,
    (hc_previous bytes off hc) as [r3 t3] eqn:E3. cbn [fst snd].
  destruct (@law_get Fast _ fast_hash_table_laws bytes base off fast r1 t1 Hf Hoff Hl Hs E1) as [R1 P1].
  destruct (@law_get HC _ hc_hash_table_laws bytes base off hc r2 t2 Hc Hoff Hl Hs E2) as [R2 P2].
  destruct (@law_previous HC _ hc_hash_table_laws bytes base off hc r3 t3 Hc Hoff Hl Hs E3) as [R3 P3].
  split; [intros c Hr; destruct (P1 c Hr) as [[? ?] ?]; done|]. split; [exact R1|].
  split; [intros c Hr; destruct (P2 c Hr) as [[? ?] ?]; done|]. split; [exact R2|].
  split; [intros c Hr; destruct (P3 c Hr) as [? ?]; split; [done|]; split; [lia|done]|]. split; [exact R3|].
  destruct Hf as (_ & _ & Hlog & Hz), Hc as ((Hz2 & _) & _).
  pose proof (hash_range (read4 bytes off) (hash_log fast) ltac:(lia)).
  pose proof (hash_range (read4 bytes off) HASH_LOG_HC ltac:(by unfold HASH_LOG_HC)).
  rewrite Hz2. split; [lia|done].
Qed.

(** C4: what the compressor writes decompresses to what it was given.  For
    every table that keeps its promise, in any state earlier calls left it in,
    [compress_with_dictionary] appends one self-terminating block to [out],
    of at most [len + len / 255 + 2] bytes;
    over any lawful input, at any offset of any buffer that holds the same
    dictionary just before, [decompress] reads exactly that block, writes
    exactly [bytes[dict_off + dict_len..][..len]] there and touches nothing
    else; and the table can be used again. *)
Theorem compress_decompress {T R : Type} `{HashTableLaws T} `{DataInputLaws R}
    (bytes out : list byte) (dict_off dict_len len : Z) (ht : T) (dest : list byte) (d_off : Z) :
  idle ht -> bytes_ok bytes -> bytes_ok out -> 0 <= dict_off -> 0 <= dict_len -> 0 <= len ->
  dict_off + dict_len + len <= zlen bytes -> zlen bytes < 2 ^ 31 ->
  dict_len <= d_off -> d_off + len <= zlen dest -> zlen dest <= usize_max ->
  sub dest (d_off - dict_len) dict_len = sub bytes dict_off dict_len ->
  let '(out', ht') := compress_with_dictionary bytes dict_off dict_len len out ht in
  idle ht' /\ exists block, out' = out ++ block /\ bytes_ok block
  /\ zlen block <= len + len / 255 + 2
  /\ forall (r : R) rest, wf r -> view r = block ++ rest ->
       exists r', decompress len dest d_off r
                  = (Ok (write_at dest d_off (sub bytes (dict_off + dict_len) len), d_off + len), r')
                  /\ wf r' /\ view r' = rest.
Proof.
  intros Hidle Hbytes Hout Hdo Hdl Hlen Hend Hsize Hd Hdest Hus Hdict.
  destruct (compress_with_dictionary bytes dict_off dict_len len out ht) as [out' ht'] eqn:E.
  replace dict_len with (dict_off + dict_len - dict_off) in E by lia.
  eapply (block_decodes bytes dest dict_off (dict_off + dict_len) len d_off) in E
    as (Hid & block & -> & Hb & Hz & Hp); try done; try lia.
  2:{ intros k Hk.
      replace (d_off - (dict_off + dict_len) + k) with (d_off - dict_len + (k - dict_off)) by lia.
      rewrite <- (at0_sub dest _ dict_len), Hdict, at0_sub by lia. f_equal. lia. }
  split; [done|]. exists block. split; [done|]. split; [done|]. split; [done|]. intros r rest Hw Hv.
  pose proof (decompress_implements len dest d_off ltac:(lia) Hlen Hus r Hw) as Hi. by rewrite Hv, Hp in Hi.
Qed.

(** A preset dictionary of eight bytes, and a block that refers to it. *)
Lemma compress_decompress_witness :
  let bytes := [1; 2; 3; 4; 5; 6; 7; 8] ++ [1; 2; 3; 4; 5; 6; 7; 8; 1; 2; 3; 4; 9; 9; 9; 9; 9] in
  let '(out', ht') := compress_with_dictionary bytes 0 8 17 [7] fast_new in
  fast_idle ht' /\ exists block, out' = [7] ++ block /\ bytes_ok block
  /\ zlen block <= 17 + 17 / 255 + 2
  /\ forall (r : SliceInput.t) rest, wf r -> view r = block ++ rest ->
       exists r', decompress 17 ([1; 2; 3; 4; 5; 6; 7; 8] ++ replicate 20 0) 8 r
                  = (Ok (write_at ([1; 2; 3; 4; 5; 6; 7; 8] ++ replicate 20 0) 8 (sub bytes (0 + 8) 17), 8 + 17), r')
                  /\ wf r' /\ view r' = rest.
Proof.
  intros bytes.
  apply (@compress_decompress Fast SliceInput.t _ fast_hash_table_laws _ _ bytes [7] 0 8 17 fast_new
           ([1; 2; 3; 4; 5; 6; 7; 8] ++ replicate 20 0) 8);
    [exact fast_new_idle|by apply bytes_okb_ok|by apply bytes_okb_ok|by vm_compute..].
Defined.

Section one_shot.
Context {T : Type} `{HashTableLaws T}.

Lemma one_shot (bytes : list byte) (ht : T) : idle ht -> bytes_ok bytes -> zlen bytes < 2 ^ 31 ->
  let block := (compress_into bytes [] ht).1 in
  exists r', decompress_slice (zlen bytes) (replicate (Z.to_nat (zlen bytes)) 0) 0 (SliceInput.new block)
             = (Ok (bytes, zlen bytes), r') /\ SliceInput.as_slice r' = [].
Proof.
  intros Hid Hb Hs block. pose proof (zlen_nonneg bytes) as H0z.
  unfold block, compress_into. destruct (compress_with_dictionary bytes 0 0 (zlen bytes) [] ht) as [out' ht'] eqn:E.

  set (dest := replicate (Z.to_nat (zlen bytes)) 0).
  assert (Hd : zlen dest = zlen bytes) by by apply zlen_fill.
  assert (Hus : zlen dest <= usize_max) by (unfold usize_max; lia).
  destruct (block_decodes bytes dest 0 0 (zlen bytes) 0) with (1 := Hb) (dict_off := 0) (out := @nil Z) (ht := ht) (out' := out') (ht' := ht')
    as (_ & xs & -> & Hx & Hz & Hp); try done; try lia; [constructor|].
  cbn [app fst]. assert (Hw : wf (SliceInput.new xs)).
  { apply new_input_inv; [done|]. pose proof (Z.div_mod (zlen bytes) 255). pose proof (Z.mod_pos_bound (zlen bytes) 255). lia. }
  pose proof (decompress_slice_follows (zlen bytes) dest 0 (SliceInput.new xs) Hw H0z ltac:(lia) Hus) as Hf.
  change (view (SliceInput.new xs)) with xs in Hf. specialize (Hp []). rewrite app_nil_r in Hp. rewrite Hp in Hf.
  destruct Hf as (r' & -> & _ & Hv). exists r'. split; [|exact Hv]. rewrite Z.add_0_l. do 3 f_equal.
  apply words_ext; [rewrite (zlen_filled bytes dest 0 0 (zlen bytes) 0); lia|].
  intros k Hk. rewrite (zlen_filled bytes dest 0 0 (zlen bytes) 0) in Hk by lia.
  rewrite (at0_filled bytes dest 0 0 (zlen bytes) 0) by lia.
  destruct (Z.leb_spec 0 k), (Z.ltb_spec k (0 + zlen bytes)); try lia. cbn [andb]. f_equal. lia.
Qed.
End one_shot.

(** One shot, with the compressor's own tables: [compress], and
    [compress_into] with a fast or a chain table in whatever state earlier
    inputs left it, produce a block that the slice decoder turns back into
    exactly the input, reading all of it. *)
Lemma one_shot_round_trip (bytes : list byte) (fast : Fast) (hc : HC) :
  fast_idle fast -> hc_idle hc -> bytes_ok bytes -> zlen bytes < 2 ^ 31 ->
  let restores block := exists r',
    decompress_slice (zlen bytes) (replicate (Z.to_nat (zlen bytes)) 0) 0 (SliceInput.new block)
    = (Ok (bytes, zlen bytes), r') /\ SliceInput.as_slice r' = [] in
  restores (compress bytes) /\ restores (compress_into bytes [] fast).1 /\ restores (compress_into bytes [] hc).1.
Proof.
  intros Hf Hc Hb Hs restores. split; [|split].
  - apply (@one_shot Fast _ fast_hash_table_laws bytes fast_new fast_new_idle Hb Hs).
  - apply (@one_shot Fast _ fast_hash_table_laws bytes fast Hf Hb Hs).
  - apply (@one_shot HC _ hc_hash_table_laws bytes hc Hc Hb Hs).
Qed.

Lemma fast_idleb_ok t : forallb (fun x => (0 <=? x) && (x <? 2 ^ 32)) (table t) = true -> fast_idle t.
Proof.
  unfold fast_idle. induction (table t) as [|x l IH]; cbn [forallb]; [constructor|].
  intros [[H1%Z.leb_le H2%Z.ltb_lt]%andb_true_iff H]%andb_true_iff. constructor; [by split|by apply IH].
Qed.

(** A table that still holds the entries of another input. *)
Lemma one_shot_round_trip_witness :
  let bytes := replicate 12 5 ++ [1; 2; 3; 4; 1; 2; 3; 4] in
  let stale := (compress_into (replicate 15 3 ++ replicate 5 1) [] fast_new).2 in
  fast_idle stale /\ exists r', decompress_slice 20 (replicate 20 0) 0 (SliceInput.new (compress_into bytes [] stale).1)
             = (Ok (bytes, 20), r') /\ SliceInput.as_slice r' = [].
Proof.
  intros bytes stale. assert (Hf : fast_idle stale) by (apply fast_idleb_ok; by vm_compute). split; [exact Hf|].
  exact (proj1 (proj2 (one_shot_round_trip bytes stale hc_new Hf hc_new_idle ltac:(by apply bytes_okb_ok) ltac:(by vm_compute)))).
Defined.

Lemma tables_verify_candidates_witness :
  let bytes := [1; 2; 3; 4; 5; 1; 2; 3; 4; 6] in
  let fast := fast_reset bytes 0 10 fast_new in
  let hc := hc_reset bytes 0 10 hc_new in
  fast_running bytes 0 fast /\ hc_running bytes 0 hc /\ (fast_get bytes 5 fast).1 = Some 0
  /\ forall c, (fast_get bytes 5 fast).1 = Some c -> 0 <= c < 5 /\ 5 - c < MAX_DISTANCE /\ read4 bytes c = read4 bytes 5.
Proof.
  intros bytes fast hc.
  assert (Hf : fast_running bytes 0 fast) by (apply fast_reset_running, fast_new_idle).
  assert (Hc : hc_running bytes 0 hc).
  { apply hc_reset_running; [exact hc_new_idle|lia|lia]. }
  split; [exact Hf|]. split; [exact Hc|]. split; [by vm_compute|].
  exact (proj1 (tables_verify_candidates bytes 0 5 fast hc Hf Hc ltac:(lia) ltac:(by vm_compute) ltac:(by vm_compute))).
Defined.

(** ** Fuel. *)
Section fuel.
Context {T : Type} `{HashTableLaws T} (bytes : list byte) (base limit : Z).
Hypothesis Hbytes : bytes_ok bytes.
Hypothesis Hsize : zlen bytes < 2 ^ 31.
Hypothesis Hbase : 0 <= base.
Hypothesis Hlimit : limit + 4 <= zlen bytes.

Lemma find_match_fuel match_limit f : forall g off ht, match_limit - off < Z.of_nat f -> match_limit - off < Z.of_nat g ->
  (0 < f)%nat -> (0 < g)%nat -> find_match f bytes match_limit off ht = find_match g bytes match_limit off ht.
Proof.
  induction f as [|f IH]; intros [|g] off ht Hf Hg Hf0 Hg0; try lia. cbn [find_match].
  destruct (Z.leb_spec match_limit off); [done|]. destruct (get bytes off ht) as [[c|] ht1]; [done|].
  apply IH; lia.
Qed.

Lemma better_match_fuel off min f : off + 4 <= limit -> base <= off -> 0 <= min -> forall g r match_ref match_len ht,
  running bytes base ht -> (forall c, r = Some c -> verified bytes base off c /\ c < Z.of_nat f /\ c < Z.of_nat g) ->
  better_match f bytes off limit min r match_ref match_len ht = better_match g bytes off limit min r match_ref match_len ht.
Proof.
  intros Hoff Hb Hmin. induction f as [|f IH]; intros g r match_ref match_len ht Hr Hc.
  { destruct r as [c|]; [destruct (Hc c eq_refl) as ((? & _) & ? & _); lia|]. by destruct g. }
  destruct r as [c|]; [|by destruct g]. destruct (Hc c eq_refl) as (Hv & Hcf & Hcg).
  destruct g as [|g]; [destruct Hv; lia|]. cbn [better_match]. destruct (Z.ltb_spec c min); [done|]. cbv zeta.
  destruct (previous bytes c ht) as [r1 ht1] eqn:E. pose proof Hv as [Hcr _].
  apply (law_previous _ base) in E as [Hr1 Hc1]; [|done|lia|lia|done].
  destruct (match_len <? _); apply IH; try done; intros c' Hc'; specialize (Hc1 c' Hc');
    (split; [by apply (verified_trans bytes base off c)|destruct Hc1; lia]).
Qed.

Lemma main_loop_fuel f : forall g off anchor out ht, running bytes base ht -> base <= off ->
  limit - off < Z.of_nat f -> limit - off < Z.of_nat g ->
  main_loop f bytes base limit (limit - MIN_MATCH) off anchor out ht
  = main_loop g bytes base limit (limit - MIN_MATCH) off anchor out ht.
Proof.
  induction f as [|f IH]; intros g off anchor out ht Hr Hb Hf Hg.
  { destruct g; cbn [main_loop]; [done|]. by destruct (Z.leb_spec off limit); [lia|]. }
  destruct g as [|g]; cbn [main_loop]; [by destruct (Z.leb_spec off limit); [lia|]|].
  destruct (Z.leb_spec off limit); [|done].
  destruct (find_match _ _ _ _ _) as [[[r off']|] ht1] eqn:Ef; [|done].
  eapply (find_match_spec bytes base limit) in Ef as [Hr1 Hf1]; [|done|lia|lia|unfold MIN_MATCH; lia|done|done].
  destruct (Hf1 r off' eq_refl) as (Hv & Hnear & Hoff'). unfold MIN_MATCH in Hoff'. cbv zeta.
  pose proof (verified_matches bytes base limit Hbytes ltac:(lia) ltac:(lia) off' r Hv ltac:(lia)) as Hm.
  set (mlen := MIN_MATCH + _) in *. set (min := Z.max base _).
  destruct (previous bytes r ht1) as [r2 ht2] eqn:Ep. pose proof Hv as [Hvr _].
  apply (law_previous _ base) in Ep as [Hr2 Hc2]; [|done|lia|lia|done].
  destruct (better_match _ _ _ _ _ _ _ _ _) as [[ref2 len2] ht3] eqn:Eb.
  assert (Hc2' : forall c, r2 = Some c -> verified bytes base off' c).
  { intros c Hc. by apply (verified_trans _ _ _ r); [|apply Hc2]. }
  eapply (better_match_spec bytes base limit) in Eb as (Hr3 & Hm3 & _);
    [|done|lia|lia|lia|unfold MIN_MATCH in *; lia|lia|exact Hr2|exact Hc2'|exact Hm|by right
     |unfold min; change MAX_DISTANCE with 65536; lia].
  destruct Hm3 as (_ & Hm4 & _). unfold MIN_MATCH in Hm4. apply IH; [done|lia..].
Qed.

(** The compressor ends.  The search for a match, the walk over better
    candidates (which strictly descend) and the main loop (which advances by
    at least a match) each do the same work with any more fuel than the bound
    they are run with, for any table that keeps its promise. *)
Lemma compress_loops_terminate (match_limit off min n anchor : Z) (r : option Z) (match_ref match_len : Z)
    (out : list byte) (ht : T) (extra : nat) :
  running bytes base ht -> base <= off -> off + 4 <= limit -> 0 <= min -> limit < off + n ->
  (forall c, r = Some c -> verified bytes base off c) ->
  find_match (Z.to_nat (match_limit - off) + 1 + extra) bytes match_limit off ht
  = find_match (Z.to_nat (match_limit - off) + 1) bytes match_limit off ht
  /\ better_match (Z.to_nat off + 1 + extra) bytes off limit min r match_ref match_len ht
     = better_match (Z.to_nat off + 1) bytes off limit min r match_ref match_len ht
  /\ main_loop (Z.to_nat n + extra) bytes base limit (limit - MIN_MATCH) off anchor out ht
     = main_loop (Z.to_nat n) bytes base limit (limit - MIN_MATCH) off anchor out ht.
Proof.
  intros Hr Hb Hoff Hmin Hn Hc. split; [apply find_match_fuel; lia|]. split.
  { apply better_match_fuel; try done. intros c Hr'. specialize (Hc c Hr'). split; [done|]. destruct Hc. lia. }
  apply main_loop_fuel; try done; lia.
Qed.
End fuel.

Lemma compress_loops_terminate_witness :
  let bytes := [1; 2; 3; 4; 5; 1; 2; 3; 4; 6; 7; 8; 9; 9; 9; 9; 9] in
  let hc := hc_reset bytes 0 17 hc_new in
  hc_running bytes 0 hc
  /\ main_loop (17 + 5) bytes 0 12 (12 - MIN_MATCH) 0 0 [] hc = main_loop 17 bytes 0 12 (12 - MIN_MATCH) 0 0 [] hc.
Proof.
  intros bytes hc. assert (Hc : hc_running bytes 0 hc) by (apply hc_reset_running; [exact hc_new_idle|lia|lia]).
  split; [exact Hc|].
  assert (Hb : bytes_ok bytes) by by apply bytes_okb_ok.
  refine (proj2 (proj2 (@compress_loops_terminate HC _ hc_hash_table_laws bytes 0 12 Hb _ _ _ 8 0 0 17 0 None 0 4 [] hc 5
    Hc _ _ _ _ _))); try lia; try done; try lia; by vm_compute.
Defined.
