(* ===== verification/SegmentNames.v ===== *)
(** File names ([crates/lucene-util/src/base36.rs] and the naming functions of
    [crates/lucene-store/src/directory.rs]): generations in base 36, the names
    of commit files, and the scan for the last commit.  A Rust string is its
    UTF-8 bytes. *)
From stdpp Require Import strings.
From S2P Require Import Prelude StoreError.

Notation name := (list Z) (only parsing).

(** A string literal's bytes. *)
Definition bytes (s : string) : list byte :=
  map (fun a => Z.of_N (Ascii.N_of_ascii a)) (String.list_ascii_of_string s).

Fixpoint starts_with (prefix s : list byte) : bool :=
  match prefix, s with
  | [], _ => true
  | p :: prefix, c :: s => (p =? c) && starts_with prefix s
  | _ :: _, [] => false
  end.

Definition strip_prefix (prefix s : list byte) : option (list byte) :=
  if starts_with prefix s then Some (drop (length prefix) s) else None.

(** ** [base36]. *)
Definition digit36 (d : Z) : byte := if d <? 10 then 48 + d else 97 + (d - 10).

(** [while n > 0 { buf.push(..); n /= 36 }]: a [u64] has at most 13 digits. *)
Fixpoint base36_loop (fuel : nat) (n : Z) : list byte :=
  match fuel with
  | O => []
  | Datatypes.S k => if 0 <? n then digit36 (n mod 36) :: base36_loop k (n / 36) else []
  end.

Definition to_base36 (n : Z) : list byte :=
  if n =? 0 then bytes "0"
  else let buf := base36_loop 13 (Z.abs n) in
       reverse (if n <? 0 then buf ++ bytes "-" else buf).

(** [char::to_digit(36)]. *)
Definition to_digit36 (c : byte) : option Z :=
  if (48 <=? c) && (c <=? 57) then Some (c - 48)
  else if (97 <=? c) && (c <=? 122) then Some (c - 97 + 10)
  else if (65 <=? c) && (c <=? 90) then Some (c - 65 + 10)
  else None.

Definition i64_checked (z : Z) : option Z := if (- 2 ^ 63 <=? z) && (z <? 2 ^ 63) then Some z else None.

(** The digits of [i64::from_str_radix(s, 36)], added or subtracted. *)
Fixpoint radix36_digits (sign : Z) (s : list byte) (acc : Z) : option Z :=
  match s with
  | [] => Some acc
  | c :: s =>
      match to_digit36 c with
      | None => None
      | Some d =>
          match i64_checked (acc * 36) with
          | None => None
          | Some m => match i64_checked (m + sign * d) with
                      | None => None
                      | Some acc => radix36_digits sign s acc
                      end
          end
      end
  end.

(** [i64::from_str_radix(s, 36).ok()]. *)
Definition from_base36 (s : list byte) : option Z :=
  match s with
  | [] => None
  | c :: rest =>
      if (c =? 43) || (c =? 45) then
        match rest with
        | [] => None
        | _ => radix36_digits (if c =? 45 then -1 else 1) rest 0
        end
      else radix36_digits 1 s 0
  end.

(** ** Names. *)
Definition SEGMENTS_PREFIX : list byte := bytes "segments".
Definition OLD_SEGMENTS_GEN : list byte := bytes "segments.gen".
Definition PENDING_SEGMENTS_PREFIX : list byte := bytes "pending_segments".

(** [format!("{prefix}_{suffix}_{counter}.tmp")]. *)
Definition temp_file_name (prefix suffix : name) (counter : Z) : name :=
  prefix ++ bytes "_" ++ suffix ++ bytes "_" ++ to_base36 (Z.min counter (2 ^ 63 - 1)) ++ bytes ".tmp".

(** [chars.next()]: past one UTF-8 encoded character. *)
Definition next_char (s : list byte) : list byte :=
  match s with
  | [] => []
  | c :: _ => drop (if c <? 0x80 then 1 else if c <? 0xe0 then 2 else if c <? 0xf0 then 3 else 4) s
  end.

Definition generation_from_segments_file_name (file_name : name) : result Error Z :=
  if bool_decide (file_name = OLD_SEGMENTS_GEN) then
    Err (Corrupted "not a valid segment file name since 4.0")
  else if bool_decide (file_name = SEGMENTS_PREFIX) then Ok 0
  else match strip_prefix SEGMENTS_PREFIX file_name with
       | Some rest =>
           match from_base36 (next_char rest) with
           | Some g => Ok g
           | None => Err (Corrupted "fileName is not a segments file")
           end
       | None => Err (Corrupted "fileName is not a segments file")
       end.

Definition is_segments_candidate (file_name : name) : bool :=
  starts_with SEGMENTS_PREFIX file_name && negb (starts_with OLD_SEGMENTS_GEN file_name).

Fixpoint last_commit_loop (files : list name) (generation : Z) : result Error Z :=
  match files with
  | [] => Ok generation
  | f :: files =>
      if is_segments_candidate f then
        match generation_from_segments_file_name f with
        | Ok g => last_commit_loop files (Z.max generation g)
        | Err e => Err e
        end
      else last_commit_loop files generation
  end.
Definition last_commit_generation (files : list name) : result Error Z := last_commit_loop files (-1).

Definition segments_file_name (generation : Z) : option name :=
  if generation =? -1 then None
  else if generation =? 0 then Some SEGMENTS_PREFIX
  else Some (SEGMENTS_PREFIX ++ bytes "_" ++ to_base36 generation).

Definition pending_segments_file_name (generation : Z) : option name :=
  if generation <? 0 then None
  else if generation =? 0 then Some PENDING_SEGMENTS_PREFIX
  else Some (PENDING_SEGMENTS_PREFIX ++ bytes "_" ++ to_base36 generation).

(** ** Base 36, there and back. *)
Lemma to_digit_digit d : 0 <= d < 36 -> to_digit36 (digit36 d) = Some d.
Proof.
  intros. unfold to_digit36, digit36. destruct (Z.ltb_spec d 10).
  - replace ((48 <=? 48 + d) && (48 + d <=? 57)) with true by bool_lia. f_equal. lia.
  - replace ((48 <=? 97 + (d - 10)) && (97 + (d - 10) <=? 57)) with false by bool_lia.
    replace ((97 <=? 97 + (d - 10)) && (97 + (d - 10) <=? 122)) with true by bool_lia. f_equal. lia.
Qed.

Lemma i64_checked_in z : in_s 64 z -> i64_checked z = Some z.
Proof.
  unfold in_s, i64_checked. change (64 - 1) with 63. intros.
  replace ((- 2 ^ 63 <=? z) && (z <? 2 ^ 63)) with true by bool_lia. done.
Qed.

Lemma radix36_app sign s k acc : radix36_digits sign (s ++ k) acc =
  match radix36_digits sign s acc with Some acc => radix36_digits sign k acc | None => None end.
Proof.
  revert acc. induction s as [|c s IH]; intros acc; cbn [app radix36_digits]; [done|].
  destruct (to_digit36 c); [|done]. destruct (i64_checked (acc * 36)); [|done].
  by destruct (i64_checked _).
Qed.

Lemma base36_loop_parse sign fuel : forall n, sign = 1 \/ sign = -1 -> 0 <= n < 36 ^ Z.of_nat fuel -> in_s 64 (sign * n) ->
  radix36_digits sign (reverse (base36_loop fuel n)) 0 = Some (sign * n).
Proof.
  induction fuel as [|fuel IH]; intros n Hs Hn Hr.
  { replace n with 0 by (change (36 ^ Z.of_nat 0) with 1 in Hn; lia). cbn. f_equal. lia. }
  cbn [base36_loop]. destruct (Z.ltb_spec 0 n); [|cbn; f_equal; lia].
  rewrite reverse_cons, radix36_app.
  pose proof (Z.div_mod n 36 ltac:(lia)) as Hd. pose proof (Z.mod_pos_bound n 36 ltac:(lia)) as Hm.
  assert (Hq : 0 <= n / 36 < 36 ^ Z.of_nat fuel).
  { split; [apply Z.div_pos; lia|]. apply Z.div_lt_upper_bound; [lia|].
    rewrite Nat2Z.inj_succ, Z.pow_succ_r in Hn by lia. lia. }
  unfold in_s in *. change (64 - 1) with 63 in *.
  rewrite IH by (try done; destruct Hs as [-> | ->]; lia). cbn [radix36_digits].
  rewrite to_digit_digit, !i64_checked_in by (try done; unfold in_s; change (64 - 1) with 63; destruct Hs as [-> | ->]; lia).
  f_equal. lia.
Qed.

(** The digits of a positive number: at least one, none of them a sign. *)
Lemma digit36_range d : 0 <= d < 36 -> 48 <= digit36 d <= 122 /\ digit36 d <> 95.
Proof. intros. unfold digit36. destruct (Z.ltb_spec d 10); lia. Qed.

Lemma base36_loop_digits fuel n : 0 <= n -> Forall (fun c => 48 <= c <= 122) (base36_loop fuel n).
Proof.
  revert n. induction fuel as [|fuel IH]; intros n Hn; cbn [base36_loop]; [constructor|].
  destruct (Z.ltb_spec 0 n); [|constructor]. pose proof (Z.mod_pos_bound n 36 ltac:(lia)).
  constructor; [by apply digit36_range|]. apply IH. apply Z.div_pos; lia.
Qed.

Lemma from_to_base36 n : in_s 64 n -> from_base36 (to_base36 n) = Some n.
Proof.
  intros Hn. unfold to_base36. destruct (Z.eqb_spec n 0) as [->|Hne]; [done|].
  unfold in_s in Hn. change (64 - 1) with 63 in Hn.
  assert (H13 : 2 ^ 63 < 36 ^ Z.of_nat 13) by done.
  assert (Habs : Z.abs n < 36 ^ Z.of_nat 13) by lia.
  pose proof (base36_loop_digits 13 (Z.abs n) ltac:(lia)) as Hdig.
  assert (Hnil : base36_loop 13 (Z.abs n) <> []).
  { change 13%nat with (Datatypes.S 12). cbn [base36_loop]. destruct (Z.ltb_spec 0 (Z.abs n)); [done|lia]. }
  destruct (Z.ltb_spec n 0).
  - rewrite reverse_app. change (reverse (bytes "-")) with [45]. cbn [app from_base36 Z.eqb Pos.eqb orb].
    pose proof (base36_loop_parse (-1) 13 (Z.abs n)) as Hp.
    destruct (reverse (base36_loop 13 (Z.abs n))) as [|c l] eqn:E.
    + apply (f_equal reverse) in E. rewrite reverse_involutive in E. done.
    + rewrite Hp; [f_equal; lia|by right|lia|unfold in_s; change (64 - 1) with 63; lia].
  - pose proof (base36_loop_parse 1 13 (Z.abs n)) as Hp.
    apply Forall_reverse in Hdig. destruct (reverse (base36_loop 13 (Z.abs n))) as [|c l] eqn:E.
    + apply (f_equal reverse) in E. rewrite reverse_involutive in E. done.
    + inversion_clear Hdig as [|?? Hc _]. unfold from_base36.
      replace ((c =? 43) || (c =? 45)) with false by bool_lia.
      rewrite Hp; [f_equal; lia|by left|lia|unfold in_s; change (64 - 1) with 63; lia].
Qed.

(** ** Prefixes. *)
Lemma starts_with_app p s : starts_with p (p ++ s) = true.
Proof. induction p as [|c p IH]; cbn; [done|]. by rewrite Z.eqb_refl. Qed.

Lemma strip_prefix_app p s : strip_prefix p (p ++ s) = Some s.
Proof. unfold strip_prefix. by rewrite starts_with_app, drop_app_length. Qed.

Lemma segments_name_shape g : g <> -1 -> g <> 0 ->
  segments_file_name g = Some (SEGMENTS_PREFIX ++ bytes "_" ++ to_base36 g).
Proof. intros. unfold segments_file_name. by destruct (Z.eqb_spec g (-1)), (Z.eqb_spec g 0). Qed.

Lemma generation_of_name g : in_s 64 g -> g <> -1 -> g <> 0 ->
  generation_from_segments_file_name (SEGMENTS_PREFIX ++ bytes "_" ++ to_base36 g) = Ok g.
Proof.
  intros Hg H1 H0. unfold generation_from_segments_file_name.
  rewrite bool_decide_eq_false_2.
  2:{ intros E. apply (f_equal (fun l => l !! 8%nat)) in E. done. }
  rewrite bool_decide_eq_false_2.
  2:{ intros E. apply (f_equal length) in E. rewrite !length_app in E. cbn in E. lia. }
  rewrite strip_prefix_app. change (next_char (bytes "_" ++ to_base36 g)) with (to_base36 g).
  by rewrite from_to_base36.
Qed.

Lemma candidate_of_name g : is_segments_candidate (SEGMENTS_PREFIX ++ bytes "_" ++ to_base36 g) = true.
Proof. unfold is_segments_candidate. by rewrite starts_with_app. Qed.

Lemma segments_name_spec g : in_s 64 g -> g <> -1 -> exists n, segments_file_name g = Some n
  /\ generation_from_segments_file_name n = Ok g /\ is_segments_candidate n = true.
Proof.
  intros Hg H1. destruct (Z.eq_dec g 0) as [->|H0]; [by exists SEGMENTS_PREFIX|].
  rewrite segments_name_shape by done. eexists. split; [done|].
  split; [by apply generation_of_name|apply candidate_of_name].
Qed.

Lemma pending_name_hidden g n : pending_segments_file_name g = Some n -> is_segments_candidate n = false.
Proof.
  unfold pending_segments_file_name. destruct (g <? 0); [done|]. destruct (g =? 0); intros [= <-]; done.
Qed.

(** ** The scan for the last commit. *)
Lemma last_commit_app f1 f2 : forall g, last_commit_loop (f1 ++ f2) g =
  match last_commit_loop f1 g with Ok g => last_commit_loop f2 g | Err e => Err e end.
Proof.
  induction f1 as [|f f1 IH]; intros g; cbn [app last_commit_loop]; [done|].
  destruct (is_segments_candidate f); [|done]. by destruct (generation_from_segments_file_name f).
Qed.

Lemma last_commit_mono files : forall g m, last_commit_loop files (Z.max g m) =
  match last_commit_loop files g with Ok g => Ok (Z.max g m) | Err e => Err e end.
Proof.
  induction files as [|f files IH]; intros g m; cbn [last_commit_loop]; [done|].
  destruct (is_segments_candidate f); [|apply IH].
  destruct (generation_from_segments_file_name f) as [g'|]; [|done].
  replace (Z.max (Z.max g m) g') with (Z.max (Z.max g g') m) by lia. apply IH.
Qed.

Lemma last_commit_spec files : forall g0,
  match last_commit_loop files g0 with
  | Ok g => g0 <= g /\ (g = g0 \/ exists f, f ∈ files /\ is_segments_candidate f = true /\ generation_from_segments_file_name f = Ok g)
            /\ forall f, f ∈ files -> is_segments_candidate f = true ->
                 exists g', generation_from_segments_file_name f = Ok g' /\ g' <= g
  | Err e => exists f, f ∈ files /\ is_segments_candidate f = true /\ generation_from_segments_file_name f = Err e
  end.
Proof.
  induction files as [|f files IH]; intros g0; cbn [last_commit_loop].
  { split; [lia|]. split; [by left|]. intros f Hf. by apply not_elem_of_nil in Hf. }
  destruct (is_segments_candidate f) eqn:Ec.
  - destruct (generation_from_segments_file_name f) as [g'|e] eqn:Eg.
    2:{ exists f. split; [apply elem_of_cons; by left|done]. }
    specialize (IH (Z.max g0 g')). destruct (last_commit_loop files (Z.max g0 g')) as [g|e].
    + destruct IH as (Hle & Hex & Hall). split; [lia|]. split.
      * destruct Hex as [->|(f' & Hf' & ?)]; [|right; exists f'; split; [apply elem_of_cons; by right|done]].
        destruct (Z.max_spec g0 g') as [[? ->]|[? ->]]; [|by left].
        right. exists f. split; [apply elem_of_cons; by left|done].
      * intros f' [-> | Hf']%elem_of_cons Hc; [exists g'; split; [done|lia]|by apply Hall].
    + destruct IH as (f' & Hf' & ?). exists f'. split; [apply elem_of_cons; by right|done].
  - specialize (IH g0). destruct (last_commit_loop files g0) as [g|e].
    + destruct IH as (Hle & Hex & Hall). split; [lia|]. split.
      * destruct Hex as [->|(f' & Hf' & ?)]; [by left|]. right. exists f'. split; [apply elem_of_cons; by right|done].
      * intros f' [-> | Hf']%elem_of_cons Hc; [by rewrite Ec in Hc|by apply Hall].
    + destruct IH as (f' & Hf' & ?). exists f'. split; [apply elem_of_cons; by right|done].
Qed.

(** The names of commits.  Every generation but -1 has a commit file name
    that parses back to it; publishing it raises the last commit generation of
    any listing to it (never lowers it), wherever it sorts; the pending name a
    commit is written under first is invisible to that scan; and the scan
    returns the highest generation listed, or fails on a [segments*] name that
    does not parse rather than skipping it. *)
Lemma commit_names (g : Z) (before after : list name) :
  in_s 64 g -> g <> -1 ->
  (exists n, segments_file_name g = Some n
     /\ generation_from_segments_file_name n = Ok g
     /\ forall old, last_commit_generation (before ++ after) = Ok old ->
          last_commit_generation (before ++ n :: after) = Ok (Z.max old g))
  /\ (forall p, pending_segments_file_name g = Some p ->
        last_commit_generation (before ++ p :: after) = last_commit_generation (before ++ after))
  /\ match last_commit_generation before with
     | Ok last => (last = -1 \/ exists f, f ∈ before /\ is_segments_candidate f = true /\ generation_from_segments_file_name f = Ok last)
                  /\ forall f, f ∈ before -> is_segments_candidate f = true ->
                       exists g', generation_from_segments_file_name f = Ok g' /\ g' <= last
     | Err e => exists f, f ∈ before /\ is_segments_candidate f = true /\ generation_from_segments_file_name f = Err e
     end.
Proof.
  intros Hg H1. unfold last_commit_generation. split; [|split].
  - destruct (segments_name_spec g Hg H1) as (n & En & Eg & Ec). exists n. split; [done|]. split; [done|].
    intros old. rewrite !last_commit_app. destruct (last_commit_loop before (-1)) as [g1|]; [|done].
    cbn [last_commit_loop]. rewrite Ec, Eg, last_commit_mono. by intros ->.
  - intros p Hp. rewrite !last_commit_app. destruct (last_commit_loop before (-1)) as [g1|]; [|done].
    cbn [last_commit_loop]. by rewrite (pending_name_hidden g p).
  - pose proof (last_commit_spec before (-1)) as Hs. destruct (last_commit_loop before (-1)); [|done].
    destruct Hs as (_ & ? & ?). done.
Qed.

(** [segments_9] sorts after [segments_a], generation 10. *)
Lemma commit_names_witness :
  exists n, segments_file_name 10 = Some n /\ generation_from_segments_file_name n = Ok 10
    /\ forall old, last_commit_generation ([bytes "_0.si"] ++ [bytes "segments_9"]) = Ok old ->
         last_commit_generation ([bytes "_0.si"] ++ n :: [bytes "segments_9"]) = Ok (Z.max old 10).
Proof.
  exact (proj1 (commit_names 10 [bytes "_0.si"] [bytes "segments_9"] ltac:(by vm_compute) ltac:(lia))).
Defined.
