(* ===== verification/ByteBuffersDirectory.v ===== *)
(** The in-memory directory
    ([crates/lucene-store/src/byte_buffers_directory.rs]): a map from names to
    shared entries.  An entry is an address in a store, because the output
    that will fill it, the directory and every rename share it; a name is
    listed from the moment its output is created and readable once that
    output is closed. *)
From stdpp Require Import gmap strings sorting.
From S2P Require Import Prelude StoreError SegmentNames.

Module ByteBuffersDirectory.

(** [files] is [BTreeMap<String, Arc<FileEntry>>] up to the addresses of the
    entries; [entries] what each [FileEntry]'s [content] holds, [None] until
    its output is closed; [published] the lengths [on_publish] was called
    with, most recent first. *)
Record t : Type := mk {
  files : gmap (list Z) nat;
  entries : gmap nat (option (list byte));
  next_entry : nat;
  temp_counter : Z;
  published : list Z;
}.

(** What [output_for]'s closure captures. *)
Record output : Type := mk_output { file_name : list Z; entry : nat }.

Definition new : t := mk ∅ ∅ 0 0 [].

(** [FileEntry::length]. *)
Definition entry_length (d : t) (e : nat) : Z :=
  match entries d !! e with
  | Some (Some c) => zlen c
  | _ => 0
  end.

(** A [BTreeMap]'s order on its keys. *)
Fixpoint name_le (a b : list Z) : bool :=
  match a, b with
  | [], _ => true
  | _ :: _, [] => false
  | x :: a, y :: b => (x <? y) || ((x =? y) && name_le a b)
  end.
#[global] Instance name_le_dec : RelDecision (fun a b => Is_true (name_le a b)).
Proof. intros a b. apply _. Defined.

Definition file_exists (d : t) (n : name) : bool := bool_decide (is_Some (files d !! n)).

Definition set_files (d : t) (f : gmap (list Z) nat) : t :=
  mk f (entries d) (next_entry d) (temp_counter d) (published d).

Definition remove_entry (n : name) (d : t) : option Z * t :=
  (entry_length d <$> (files d !! n), set_files d (delete n (files d))).

(** A new entry under [n], and the output that will fill it. *)
Definition output_for (n : name) (d : t) : output * t :=
  let e := next_entry d in
  (mk_output n e, mk (<[n := e]> (files d)) (<[e := None]> (entries d)) (Datatypes.S e) (temp_counter d) (published d)).

(** The closure an output runs once, when it is closed. *)
Definition publish (o : output) (bytes : list byte) (d : t) : t :=
  let listed := bool_decide (files d !! file_name o = Some (entry o)) in
  mk (files d) (<[entry o := Some bytes]> (entries d)) (next_entry d) (temp_counter d)
     (if listed then zlen bytes :: published d else published d).

Definition list_all : M Error t (list (list Z)) := fun d =>
  (Ok (merge_sort (fun a b => Is_true (name_le a b)) (map fst (map_to_list (files d)))), d).

Definition open (n : name) : M Error t (list byte) := fun d =>
  match files d !! n with
  | None => (Err (no_such_file "open"), d)
  | Some e =>
      match entries d !! e with
      | Some (Some bytes) => (Ok bytes, d)
      | _ => (Err (Io PermissionDenied "Can't open a file still open for writing"), d)
      end
  end.

Definition file_length (n : name) : M Error t Z := fun d =>
  match files d !! n with
  | Some e => (Ok (entry_length d e), d)
  | None => (Err (no_such_file "file_length"), d)
  end.

Definition create_output (n : name) : M Error t output := fun d =>
  if file_exists d n then (Err (file_already_exists "File already exists"), d)
  else let '(o, d) := output_for n d in (Ok o, d).

(** [loop { fetch_add; .. }]: a name already listed is passed over; [fuel] is
    the number of files plus one. *)
Fixpoint temp_loop (fuel : nat) (prefix suffix : name) : M Error t output := fun d =>
  match fuel with
  | O => (Err (Io Other "no fresh temporary name"), d)
  | Datatypes.S k =>
      let counter := temp_counter d in
      let d := mk (files d) (entries d) (next_entry d) (wrapu 64 (counter + 1)) (published d) in
      let n := temp_file_name prefix suffix counter in
      if file_exists d n then temp_loop k prefix suffix d
      else let '(o, d) := output_for n d in (Ok o, d)
  end.
Definition create_temp_output (prefix suffix : name) : M Error t output := fun d =>
  temp_loop (Datatypes.S (size (files d))) prefix suffix d.

Definition sync (names : list (list Z)) : M Error t unit := ret tt.

Definition rename (source dest : name) : M Error t unit := fun d =>
  if negb (file_exists d source) then (Err (no_such_file "rename"), d)
  else if file_exists d dest then (Err (file_already_exists "rename"), d)
  else match files d !! source with
       | Some e => (Ok tt, set_files d (<[dest := e]> (delete source (files d))))
       | None => (Ok tt, d)
       end.

Definition delete_file (n : name) : M Error t unit := fun d =>
  match files d !! n with
  | Some _ => (Ok tt, set_files d (delete n (files d)))
  | None => (Err (no_such_file "delete_file"), d)
  end.

Definition sync_meta_data : M Error t unit := ret tt.
Definition pending_deletions : M Error t (gset (list Z)) := ret ∅.

(** ** The directory with its open outputs, as a transition system: any
    interleaving of the operations of any number of threads. *)
Record system : Type := mk_system { dir : t; outputs : list output }.

Inductive step : system -> system -> Prop :=
| step_create n o d d' os : create_output n d = (Ok o, d') -> step (mk_system d os) (mk_system d' (o :: os))
| step_temp p s o d d' os : create_temp_output p s d = (Ok o, d') -> step (mk_system d os) (mk_system d' (o :: os))
| step_close o bytes d os1 os2 : step (mk_system d (os1 ++ o :: os2)) (mk_system (publish o bytes d) (os1 ++ os2))
| step_rename a b r d d' os : rename a b d = (r, d') -> step (mk_system d os) (mk_system d' os)
| step_delete n r d d' os : delete_file n d = (r, d') -> step (mk_system d os) (mk_system d' os)
| step_remove n r d d' os : remove_entry n d = (r, d') -> step (mk_system d os) (mk_system d' os).

Definition steps : system -> system -> Prop := rtc step.
Definition reachable (s : system) : Prop := steps (mk_system new []) s.

(** ** What a user sees: the names, and the bytes of the closed ones. *)
Definition view (d : t) : gmap (list Z) (option (list byte)) :=
  (fun e => default None (entries d !! e)) <$> files d.

(** No two names share an entry, and addresses are handed out in order. *)
Definition inv (d : t) : Prop :=
  (forall n m e, files d !! n = Some e -> files d !! m = Some e -> n = m)
  /\ (forall n e, files d !! n = Some e -> (e < next_entry d)%nat)
  /\ (forall e, is_Some (entries d !! e) <-> (e < next_entry d)%nat).

Lemma view_lookup d n : view d !! n = (fun e => default None (entries d !! e)) <$> (files d !! n).
Proof. apply lookup_fmap. Qed.

Lemma file_exists_view d n : file_exists d n = bool_decide (is_Some (view d !! n)).
Proof. unfold file_exists. apply bool_decide_ext. rewrite view_lookup. by rewrite fmap_is_Some. Qed.

Lemma new_directory_inv : inv new.
Proof.
  split; [|split]; cbn.
  - intros n m e Hn. by rewrite lookup_empty in Hn.
  - intros n e Hn. by rewrite lookup_empty in Hn.
  - intros e. rewrite lookup_empty. split; [by intros []|lia].
Qed.

Lemma output_for_spec n d o d' : inv d -> output_for n d = (o, d') ->
  inv d' /\ view d' = <[n := None]> (view d) /\ o = mk_output n (next_entry d) /\ entries d !! entry o = None
  /\ entries d' = <[entry o := None]> (entries d).
Proof.
  intros (Hinj & Hlt & Hdom) [= <- <-].
  assert (Hfresh : entries d !! next_entry d = None).
  { apply eq_None_not_Some. rewrite Hdom. lia. }
  cbn [entry]. split; [|split; [|done]].
  - split; [|split]; cbn [files entries next_entry].
    + intros a b e [(<- & <-)|(Ha & Ha')]%lookup_insert_Some [(<- & He)|(Hb & Hb')]%lookup_insert_Some; try done.
      * apply Hlt in Hb'. lia.
      * subst. apply Hlt in Ha'. lia.
      * by eapply Hinj.
    + intros m e Hm. destruct (decide (m = n)) as [->|Hne].
      * rewrite lookup_insert_eq in Hm. simplify_eq. lia.
      * rewrite lookup_insert_ne in Hm by done. apply Hlt in Hm. lia.
    + intros e. destruct (decide (e = next_entry d)) as [->|Hne].
      * rewrite lookup_insert_eq. split; [lia|eauto].
      * rewrite lookup_insert_ne, Hdom by done. lia.
  - apply map_eq. intros m. rewrite view_lookup. cbn [files entries].
    destruct (decide (m = n)) as [->|Hne].
    + rewrite !lookup_insert_eq. cbn. by rewrite lookup_insert_eq.
    + rewrite !lookup_insert_ne, view_lookup by done. destruct (files d !! m) as [e|] eqn:E; [|done]. cbn.
      rewrite lookup_insert_ne; [done|]. apply Hlt in E. lia.
Qed.

Lemma set_files_inv d f : inv d -> (forall n e, f !! n = Some e -> exists m, files d !! m = Some e) ->
  (forall n m e, f !! n = Some e -> f !! m = Some e -> n = m) -> inv (set_files d f).
Proof.
  intros (_ & Hlt & Hdom) Hf Hinj. split; [done|]. split; [|done]. cbn [files next_entry set_files].
  intros n e Hn. destruct (Hf n e Hn) as (m & Hm). by eapply Hlt.
Qed.

Lemma delete_spec n d : inv d -> inv (set_files d (delete n (files d)))
  /\ view (set_files d (delete n (files d))) = delete n (view d).
Proof.
  intros Hi. split; [apply set_files_inv; [done|..]|].
  - intros m e [_ Hm]%lookup_delete_Some. eauto.
  - intros a b e [_ Ha]%lookup_delete_Some [_ Hb]%lookup_delete_Some. by eapply Hi.
  - unfold view. cbn [files entries set_files]. apply fmap_delete.
Qed.

Lemma rename_spec a b e d : inv d -> files d !! a = Some e -> files d !! b = None ->
  let d' := set_files d (<[b := e]> (delete a (files d))) in
  inv d' /\ view d' = <[b := default None (entries d !! e)]> (delete a (view d)).
Proof.
  intros Hi Ha Hb d'. split; [apply set_files_inv; [done|..]|].
  - intros m e' [(_ & ->)|(_ & [_ Hm]%lookup_delete_Some)]%lookup_insert_Some; eauto.
  - intros x y e' [(<- & <-)|(Hx & [Hxa Hx']%lookup_delete_Some)]%lookup_insert_Some
      [(<- & He)|(Hy & [Hya Hy']%lookup_delete_Some)]%lookup_insert_Some; try done.
    + exfalso. apply Hya. by eapply Hi.
    + subst. exfalso. apply Hxa. by eapply Hi.
    + by eapply Hi.
  - unfold view, d'. cbn [files entries set_files]. by rewrite fmap_insert, fmap_delete.
Qed.

(** Closing an output fills its entry, wherever it is listed now. *)
Lemma publish_spec o bytes d : inv d -> (entry o < next_entry d)%nat ->
  inv (publish o bytes d)
  /\ (forall n, view (publish o bytes d) !! n
        = if decide (files d !! n = Some (entry o)) then Some (Some bytes) else view d !! n).
Proof.
  intros (Hinj & Hlt & Hdom) Ho. split.
  - split; [done|]. split; [done|]. intros e. cbn [publish entries next_entry].
    destruct (decide (e = entry o)) as [->|Hne]; [rewrite lookup_insert_eq; split; eauto|].
    by rewrite lookup_insert_ne.
  - intros n. rewrite !view_lookup. cbn [publish files entries].
    destruct (decide (files d !! n = Some (entry o))) as [->|Hne]; [cbn; by rewrite lookup_insert_eq|].
    destruct (files d !! n) as [e|]; [|done]. cbn. rewrite lookup_insert_ne; [done|]. congruence.
Qed.

(** ** Listing. *)
Lemma name_le_total a b : name_le a b = false -> name_le b a = true.
Proof.
  revert b. induction a as [|x a IH]; intros [|y b]; cbn; try done.
  destruct (Z.ltb_spec x y), (Z.ltb_spec y x), (Z.eqb_spec x y), (Z.eqb_spec y x); cbn; try done; try lia. apply IH.
Qed.

Lemma list_all_spec d : exists l, list_all d = (Ok l, d) /\ NoDup l /\ Sorted (fun a b => Is_true (name_le a b)) l
  /\ forall n, n ∈ l <-> is_Some (view d !! n).
Proof.
  unfold list_all. eexists. split; [done|].
  pose proof (merge_sort_Permutation (fun a b => Is_true (name_le a b)) (map fst (map_to_list (files d)))) as Hp.
  split; [rewrite Hp; apply NoDup_fst_map_to_list|]. split.
  - apply Sorted_merge_sort. intros a b. destruct (name_le a b) eqn:E; [by left|].
    right. by rewrite (name_le_total a b).
  - intros n. rewrite Hp, view_lookup, fmap_is_Some.
    split.
    + intros ([n' e] & -> & Hn%elem_of_map_to_list)%list_elem_of_fmap. eauto.
    + intros (e & He). apply list_elem_of_fmap. exists (n, e). split; [done|]. by apply elem_of_map_to_list.
Qed.

(** ** Temporary names. *)
Lemma temp_name_inj p s c c' : 0 <= c < 2 ^ 63 -> 0 <= c' < 2 ^ 63 -> temp_file_name p s c = temp_file_name p s c' -> c = c'.
Proof.
  intros Hc Hc'. unfold temp_file_name. rewrite !Z.min_l by lia. rewrite !(app_assoc _ _ (bytes ".tmp")), !app_assoc.
  intros E%app_inv_tail. apply app_inv_head in E. apply (f_equal from_base36) in E.
  rewrite !from_to_base36 in E by (unfold in_s; change (64 - 1) with 63; lia). congruence.
Qed.

Definition set_temp (d : t) (c : Z) : t := mk (files d) (entries d) (next_entry d) c (published d).

Lemma temp_loop_spec p s fuel : forall d (X : gset (list Z)), inv d -> 0 <= temp_counter d ->
  temp_counter d + Z.of_nat fuel < 2 ^ 63 ->
  (forall c, temp_counter d <= c < 2 ^ 63 -> is_Some (files d !! temp_file_name p s c) -> temp_file_name p s c ∈ X) ->
  (size X < fuel)%nat ->
  exists c, temp_counter d <= c <= temp_counter d + Z.of_nat (size X)
    /\ files d !! temp_file_name p s c = None
    /\ temp_loop fuel p s d = (Ok (mk_output (temp_file_name p s c) (next_entry d)),
                               (output_for (temp_file_name p s c) (set_temp d (c + 1))).2).
Proof.
  induction fuel as [|fuel IH]; intros d X Hi Hc0 Hc HX Hsz; [lia|]. cbn [temp_loop].
  rewrite wrapu_id by (split; [lia|]; pose proof (Z.pow_lt_mono_r 2 63 64); lia).
  change (mk (files d) (entries d) (next_entry d) (temp_counter d + 1) (published d)) with (set_temp d (temp_counter d + 1)).
  unfold file_exists. cbn [files set_temp]. destruct (files d !! temp_file_name p s (temp_counter d)) as [e|] eqn:E.
  - rewrite bool_decide_eq_true_2 by eauto.
    assert (Hin : temp_file_name p s (temp_counter d) ∈ X) by (apply HX; [lia|eauto]).
    assert (size X <> 0)%nat by (intros ?%size_empty_inv; set_solver).
    destruct (IH (set_temp d (temp_counter d + 1)) (X ∖ {[temp_file_name p s (temp_counter d)]})) as (c & Hcr & Hf & Hl).
    + done.
    + cbn. lia.
    + cbn. lia.
    + cbn [temp_counter files set_temp]. intros c Hcr Hf. apply elem_of_difference. split; [apply HX; [lia|done]|].
      rewrite elem_of_singleton. intros He. apply temp_name_inj in He; lia.
    + rewrite size_difference, size_singleton by set_solver. lia.
    + rewrite size_difference, size_singleton in Hcr by set_solver.
      exists c. cbn [temp_counter files next_entry set_temp] in *. split; [lia|]. split; [done|exact Hl].
  - rewrite bool_decide_eq_false_2 by (intros [? [=]]). exists (temp_counter d). split; [lia|]. split; done.
Qed.

(** The directory implements the abstract one, a map from names to files
    that are empty and unreadable until closed: every operation, on every
    branch, returns what the abstract operation returns and changes only what
    it changes.  Creating over an existing name, opening or renaming or
    deleting a missing one and renaming onto an existing one fail and leave
    the state alone; a rename moves the entry even while its output is open;
    closing fills the entry under whatever name it has by then, and nothing
    when it was deleted. *)
Lemma directory_refines (d : t) (n dest : name) (o : output) (bytes : list byte) :
  inv d -> (entry o < next_entry d)%nat ->
  (exists l, list_all d = (Ok l, d) /\ NoDup l /\ Sorted (fun a b => Is_true (name_le a b)) l
     /\ forall m, m ∈ l <-> is_Some (view d !! m))
  /\ match view d !! n with
     | Some (Some c) => open n d = (Ok c, d) /\ file_length n d = (Ok (zlen c), d)
     | Some None => (exists msg, open n d = (Err (Io PermissionDenied msg), d)) /\ file_length n d = (Ok 0, d)
     | None => (exists msg, open n d = (Err (no_such_file msg), d)) /\ exists msg, file_length n d = (Err (no_such_file msg), d)
     end
  /\ match view d !! n with
     | Some _ => exists msg, create_output n d = (Err (file_already_exists msg), d)
     | None => exists d', create_output n d = (Ok (mk_output n (next_entry d)), d') /\ inv d' /\ view d' = <[n := None]> (view d)
     end
  /\ match view d !! n, view d !! dest with
     | None, _ => exists msg, rename n dest d = (Err (no_such_file msg), d)
     | Some _, Some _ => exists msg, rename n dest d = (Err (file_already_exists msg), d)
     | Some c, None => exists d', rename n dest d = (Ok tt, d') /\ inv d' /\ view d' = <[dest := c]> (delete n (view d))
     end
  /\ match view d !! n with
     | None => exists msg, delete_file n d = (Err (no_such_file msg), d)
     | Some _ => exists d', delete_file n d = (Ok tt, d') /\ inv d' /\ view d' = delete n (view d)
     end
  /\ (inv (publish o bytes d)
      /\ forall m, view (publish o bytes d) !! m
           = if decide (files d !! m = Some (entry o)) then Some (Some bytes) else view d !! m).
Proof.
  intros Hi Ho. split; [apply list_all_spec|]. pose proof (publish_spec o bytes d Hi Ho) as Hp.
  unfold open, file_length, create_output, rename, delete_file, entry_length.
  rewrite !file_exists_view, !view_lookup. destruct (files d !! n) as [e|] eqn:En; cbn [fmap option_fmap option_map].
  - destruct Hi as (Hinj & Hlt & Hdom). assert (He : is_Some (entries d !! e)) by (apply Hdom; by eapply Hlt).
    assert (Hi : inv d) by done.
    destruct He as [c Hc]. rewrite !Hc. cbn [default]. rewrite !bool_decide_eq_true_2 by eauto. cbn [negb].
    split; [destruct c; cbn [id]; eauto|]. split; [destruct c; cbn [id]; eauto|]. split; [|split; [|exact Hp]].
    + destruct (files d !! dest) as [e'|] eqn:Ed; cbn [fmap option_fmap option_map].
      * rewrite bool_decide_eq_true_2 by eauto. destruct c; cbn [id]; eauto.
      * rewrite bool_decide_eq_false_2 by (intros [? [=]]).
        destruct (rename_spec n dest e d Hi En Ed) as [Hi' Hv]. rewrite Hc in Hv. cbn in Hv. destruct c; cbn [id] in *; eauto.
    + destruct (delete_spec n d Hi) as [? ?]. destruct c; cbn [id] in *; eauto.
  - rewrite !bool_decide_eq_false_2 by (intros [? [=]]). cbn [negb].
    split; [eauto|]. split; [|split; [eauto|split; [eauto|exact Hp]]].
    destruct (output_for n d) as [o' d'] eqn:E. pose proof E as E2.
    apply output_for_spec in E2 as (Hi' & Hv & -> & _); [|done]. exists d'. done.
Qed.

(** A file renamed while it is still being written. *)
Lemma directory_refines_witness :
  let d := (rename (bytes "pending") (bytes "segments_1") (create_output (bytes "pending") new).2).2 in
  let o := mk_output (bytes "pending") 0 in
  inv d /\ view (publish o [1; 2] d) !! bytes "segments_1" = Some (Some [1; 2])
  /\ forall m, view (publish o [1; 2] d) !! m = if decide (files d !! m = Some (entry o)) then Some (Some [1; 2]) else view d !! m.
Proof.
  intros d o.
  assert (Hi : inv d).
  { unfold d. destruct (output_for (bytes "pending") new) as [o1 d1] eqn:E.
    destruct (output_for_spec _ _ _ _ new_directory_inv E) as (Hi1 & _).
    replace (create_output (bytes "pending") new).2 with d1 by (injection E as _ <-; by vm_compute).
    injection E as _ <-. apply (rename_spec (bytes "pending") (bytes "segments_1") 0 _ Hi1); by vm_compute. }
  split; [exact Hi|]. split; [by vm_compute|].
  exact (proj2 (proj2 (proj2 (proj2 (proj2 (proj2 (directory_refines d (bytes "pending") (bytes "x") o [1; 2] Hi ltac:(apply Nat.ltb_lt; by vm_compute)))))))).
Defined.

(** [create_temp_output] always finds a fresh name, within one round more
    than there are files, and never clobbers one: the file it creates was not
    listed, every other file is as it was, and the counter moves past the one
    used, so no later call tries it again. *)
Lemma temp_output_is_fresh (d : t) (prefix suffix : name) :
  inv d -> 0 <= temp_counter d -> temp_counter d + Z.of_nat (size (files d)) < 2 ^ 63 - 1 ->
  exists c d', let n := temp_file_name prefix suffix c in
    create_temp_output prefix suffix d = (Ok (mk_output n (next_entry d)), d')
    /\ view d !! n = None /\ view d' = <[n := None]> (view d) /\ inv d'
    /\ temp_counter d <= c /\ temp_counter d' = c + 1.
Proof.
  intros Hi H0 Hc. unfold create_temp_output.
  assert (Hsz : size (dom (files d) : gset (list Z)) = size (files d)) by apply size_dom.
  destruct (temp_loop_spec prefix suffix (Datatypes.S (size (files d))) d (dom (files d)) Hi H0) as (c & Hcr & Hf & Hl).
  { lia. }
  { intros c _ Hs. by apply elem_of_dom. }
  { rewrite Hsz. lia. }
  destruct (output_for (temp_file_name prefix suffix c) (set_temp d (c + 1))) as [o d'] eqn:E. cbn [snd] in Hl.
  exists c, d'. cbv zeta. split; [exact Hl|]. split; [by rewrite view_lookup, Hf|]. pose proof E as E2.
  apply output_for_spec in E2 as (Hi' & Hv & _); [|done].
  split; [done|]. split; [done|]. split; [lia|]. injection E as _ <-. done.
Qed.

Lemma temp_output_is_fresh_witness :
  let d := (create_output (temp_file_name (bytes "_0") (bytes "x") 0) new).2 in
  inv d /\ exists c d', let n := temp_file_name (bytes "_0") (bytes "x") c in
    create_temp_output (bytes "_0") (bytes "x") d = (Ok (mk_output n (next_entry d)), d')
    /\ view d !! n = None /\ view d' = <[n := None]> (view d) /\ inv d'
    /\ temp_counter d <= c /\ temp_counter d' = c + 1.
Proof.
  intros d. assert (Hi : inv d).
  { unfold d. destruct (output_for (temp_file_name (bytes "_0") (bytes "x") 0) new) as [o1 d1] eqn:E.
    destruct (output_for_spec _ _ _ _ new_directory_inv E) as (Hi1 & _).
    replace (create_output _ new).2 with d1 by (injection E as _ <-; by vm_compute). exact Hi1. }
  split; [exact Hi|]. exact (temp_output_is_fresh d (bytes "_0") (bytes "x") Hi ltac:(by vm_compute) ltac:(by vm_compute)).
Defined.

(** ** Reachable systems. *)
Definition system_inv (s : system) : Prop :=
  inv (dir s) /\ NoDup (map entry (outputs s))
  /\ forall e, e ∈ map entry (outputs s) <-> entries (dir s) !! e = Some None.

Lemma elem_of_middle (e : nat) (o : output) os1 os2 :
  e ∈ map entry (os1 ++ o :: os2) <-> e = entry o \/ e ∈ map entry (os1 ++ os2).
Proof. rewrite !map_app. cbn [map]. rewrite !elem_of_app, elem_of_cons. tauto. Qed.

Lemma created_system o d d' os : system_inv (mk_system d os) -> inv d' -> entries d !! entry o = None ->
  entries d' = <[entry o := None]> (entries d) -> system_inv (mk_system d' (o :: os)).
Proof.
  intros (_ & Hnd & Hopen) Hi' Hfresh Hent. cbn [dir outputs] in *. split; [done|]. cbn [dir outputs map]. rewrite Hent. split.
  - apply list.NoDup_cons. split; [|done]. rewrite Hopen. by rewrite Hfresh.
  - intros e. rewrite elem_of_cons, Hopen. destruct (decide (e = entry o)) as [->|Hne].
    + rewrite lookup_insert_eq. tauto.
    + rewrite lookup_insert_ne by done. tauto.
Qed.

Lemma step_inv s s' : step s s' -> system_inv s -> system_inv s'.
Proof.
  destruct 1 as [n o d d' os E|p q o d d' os E|o bytes d os1 os2|a b r d d' os E|n r d d' os E|n r d d' os E]; intros Hs.
  - unfold create_output in E. destruct (file_exists d n); [done|].
    destruct (output_for n d) as [o1 d1] eqn:E1. injection E as <- <-.
    pose proof Hs as (Hi & _). cbn [dir] in Hi. apply output_for_spec in E1 as (? & _ & _ & ? & ?); [|done].
    by eapply created_system.
  - unfold create_temp_output in E. revert E. generalize (Datatypes.S (size (files d))) as fuel. intros fuel.
    revert d Hs. induction fuel as [|fuel IH]; intros d Hs; cbn [temp_loop]; [done|].
    destruct (file_exists _ _); [by apply IH|]. destruct (output_for _ _) as [o1 d1] eqn:E1. intros [= <- <-].
    pose proof Hs as (Hi & _). cbn [dir] in Hi. apply output_for_spec in E1 as (? & _ & _ & ? & ?); [|done].
    by eapply (created_system o1 d).
  - destruct Hs as (Hi & Hnd & Hopen). cbn [dir outputs] in *.
    assert (He : entries d !! entry o = Some None) by (apply Hopen, elem_of_middle; by left).
    assert (Hlt : (entry o < next_entry d)%nat) by (apply Hi; eauto).
    rewrite map_app in Hnd. cbn [map] in Hnd. rewrite <- Permutation_middle in Hnd.
    apply list.NoDup_cons in Hnd as [Hout Hnd]. rewrite <- map_app in Hout, Hnd.
    split; [by apply publish_spec|]. split; [done|]. cbn [dir outputs publish entries].
    intros e. destruct (decide (e = entry o)) as [->|Hne].
    + rewrite lookup_insert_eq. split; [done|]. by intros [= ].
    + rewrite lookup_insert_ne, <- Hopen, elem_of_middle by done. tauto.
  - destruct Hs as (Hi & Hnd & Hopen). unfold rename, file_exists in E.
    destruct (files d !! a) as [e|] eqn:Ea;
      [rewrite bool_decide_eq_true_2 in E by eauto|rewrite bool_decide_eq_false_2 in E by (intros [? [=]]); by injection E as <- <-].
    cbn [negb] in E. destruct (files d !! b) as [e'|] eqn:Eb;
      [rewrite bool_decide_eq_true_2 in E by eauto; by injection E as <- <-|].
    rewrite bool_decide_eq_false_2 in E by (intros [? [=]]). injection E as <- <-.
    split; [by apply (rename_spec a b e d Hi Ea Eb)|done].
  - destruct Hs as (Hi & Hnd & Hopen). unfold delete_file in E.
    destruct (files d !! n); injection E as <- <-; (split; [|done]); [by apply delete_spec|done].
  - destruct Hs as (Hi & Hnd & Hopen). injection E as <- <-. split; [by apply delete_spec|done].
Qed.

Lemma steps_inv s s' : steps s s' -> system_inv s -> system_inv s'.
Proof. induction 1; eauto using step_inv. Qed.

Lemma reachable_inv s : reachable s -> system_inv s.
Proof.
  intros H. apply (steps_inv _ _ H). split; [exact new_directory_inv|]. split; [constructor|].
  intros e. cbn. rewrite lookup_empty. split; [by intros ?%not_elem_of_nil|done].
Qed.

(** A filled entry keeps its bytes. *)
Lemma output_for_kept n d o d' e c : inv d -> output_for n d = (o, d') ->
  entries d !! e = Some (Some c) -> entries d' !! e = Some (Some c).
Proof.
  intros Hi E He. apply output_for_spec in E as (_ & _ & _ & Hf & ->); [|done].
  rewrite lookup_insert_ne; [done|]. intros <-. congruence.
Qed.

Lemma step_kept s s' e c : step s s' -> system_inv s -> entries (dir s) !! e = Some (Some c) ->
  entries (dir s') !! e = Some (Some c).
Proof.
  destruct 1 as [n o d d' os E|p q o d d' os E|o bytes d os1 os2|a b r d d' os E|n r d d' os E|n r d d' os E];
    intros Hs He; cbn [dir] in *.
  - unfold create_output in E. destruct (file_exists d n); [done|].
    destruct (output_for n d) as [o1 d1] eqn:E1. injection E as <- <-.
    eapply output_for_kept; [apply Hs|done|done].
  - unfold create_temp_output in E. revert E. generalize (Datatypes.S (size (files d))) as fuel. intros fuel.
    revert d Hs He. induction fuel as [|fuel IH]; intros d Hs He; cbn [temp_loop]; [done|].
    destruct (file_exists _ _); [by apply IH|]. destruct (output_for _ _) as [o1 d1] eqn:E1. intros [= <- <-].
    eapply output_for_kept; [|done|exact He]. apply Hs.
  - destruct Hs as (_ & _ & Hopen). cbn [dir outputs publish entries] in *.
    rewrite lookup_insert_ne; [done|]. intros <-.
    assert (entries d !! entry o = Some None) by (apply Hopen, elem_of_middle; by left). congruence.
  - unfold rename in E. destruct (negb _), (file_exists d b), (files d !! a); by injection E as <- <-.
  - unfold delete_file in E. by destruct (files d !! n); injection E as <- <-.
  - by injection E as <- <-.
Qed.

(** Files are written exactly once.  In every state any interleaving of
    operations on a fresh directory can reach, no two names share an entry, a
    listed file refuses to be opened exactly while its output is still open
    (whatever it has been renamed to), and once an entry has its bytes no
    later operation changes them, so an input already opened stays valid. *)
Lemma files_are_write_once (s : system) : reachable s ->
  (forall n m e, files (dir s) !! n = Some e -> files (dir s) !! m = Some e -> n = m)
  /\ (forall n e, files (dir s) !! n = Some e ->
        ((exists msg, (open n (dir s)).1 = Err (Io PermissionDenied msg)) <-> exists o, o ∈ outputs s /\ entry o = e)
        /\ ((exists c, (open n (dir s)).1 = Ok c) <-> ~ exists o, o ∈ outputs s /\ entry o = e))
  /\ forall s', steps s s' -> forall e c, entries (dir s) !! e = Some (Some c) -> entries (dir s') !! e = Some (Some c).
Proof.
  intros Hr. pose proof (reachable_inv s Hr) as Hs. split; [apply Hs|]. split.
  - intros n e Hn. destruct Hs as ((Hinj & Hlt & Hdom) & _ & Hopen).
    assert (He : is_Some (entries (dir s) !! e)) by (apply Hdom; by eapply Hlt). destruct He as [c Hc].
    assert (Ho : (exists o, o ∈ outputs s /\ entry o = e) <-> c = None).
    { transitivity (e ∈ map entry (outputs s)); [|rewrite Hopen, Hc; naive_solver].
      rewrite list_elem_of_fmap. naive_solver. }
    rewrite Ho. unfold open. rewrite Hn, Hc. cbn. destruct c; naive_solver.
  - intros s' Hst. clear Hr. induction Hst as [s|s s1 s' Hst _ IH]; [done|].
    intros e c He. apply IH; [by eapply step_inv|by eapply step_kept].
Qed.

(** A file created, renamed while open, and closed. *)
Lemma files_are_write_once_witness :
  exists s, reachable s /\ files (dir s) !! bytes "segments_1" = Some 0%nat
  /\ forall s', steps s s' -> forall e c, entries (dir s) !! e = Some (Some c) -> entries (dir s') !! e = Some (Some c).
Proof.
  set (d1 := (create_output (bytes "pending") new).2).
  set (d2 := (rename (bytes "pending") (bytes "segments_1") d1).2).
  set (o := mk_output (bytes "pending") 0).
  exists (mk_system (publish o [1; 2] d2) []).
  assert (Hr : reachable (mk_system (publish o [1; 2] d2) [])).
  { eapply rtc_l; [by apply (step_create (bytes "pending") o new d1)|].
    eapply rtc_l; [by apply (step_rename (bytes "pending") (bytes "segments_1") (Ok tt) d1 d2)|].
    apply rtc_once. apply (step_close o [1; 2] d2 [] []). }
  split; [exact Hr|]. split; [by vm_compute|]. exact (proj2 (proj2 (files_are_write_once _ Hr))).
Defined.

(** Closing an output whose file was renamed meanwhile fills the file but
    does not report its size: the closure looks its own name up. *)
Lemma renamed_output_is_not_reported :
  let d := (rename (bytes "a") (bytes "b") (create_output (bytes "a") new).2).2 in
  view (publish (mk_output (bytes "a") 0) [1; 2] d) !! bytes "b" = Some (Some [1; 2])
  /\ published (publish (mk_output (bytes "a") 0) [1; 2] d) = [].
Proof. split; by vm_compute. Qed.

End ByteBuffersDirectory.
