(* ===== verification/Lock.v ===== *)
(** Locks ([crates/lucene-store/src/lock.rs]): the single-instance factory as
    a transition system whose steps are the code's atomic accesses, the
    factory that excludes nothing, and the verifying wrapper over any lock and
    any channel. *)
From stdpp Require Import gmap strings.
From S2P Require Import Prelude StoreError SegmentNames.

Module Lock.

(** ** The trait: an object's two methods, and what dropping it runs, over the
    world they act on. *)
Record Lock (W : Type) : Type :=
  mk_lock { ensure_valid : M Error W unit; close : M Error W unit; drop : W -> W }.
Arguments mk_lock {W} _ _ _.
Arguments ensure_valid {W} _.
Arguments close {W} _.
Arguments drop {W} _.

(** [NoLock]. *)
Definition no_lock {W} : Lock W := mk_lock (ret tt) (ret tt) id.
Definition no_lock_obtain {W} (lock_name : name) : M Error W (Lock W) := ret no_lock.

(** ** [SingleInstanceLockFactory]: the shared set of names, and the lock
    objects handed out, by address, with their [closed] flag. *)
Record lock_object : Type := mk_object { lock_name : list Z; closed : bool }.
Record t : Type := mk { locks : gset (list Z); objects : gmap nat lock_object; next_object : nat }.

Definition new : t := mk ∅ ∅ 0.

(** [if locks.insert(name) { Ok(..) } else { Err(..) }]: one critical section. *)
Definition obtain_lock (n : name) : M Error t nat := fun s =>
  if bool_decide (n ∈ locks s) then
    (Err (LockObtainFailed "lock instance already obtained"), s)
  else
    let i := next_object s in
    (Ok i, mk ({[n]} ∪ locks s) (<[i := mk_object n false]> (objects s)) (Datatypes.S i)).

(** [closed.swap(true)]: the flag it had. *)
Definition swap_closed (i : nat) : M Error t bool := fun s =>
  match objects s !! i with
  | Some o => (Ok (closed o), mk (locks s) (<[i := mk_object (lock_name o) true]> (objects s)) (next_object s))
  | None => (Err (Io Other "no such lock object"), s)
  end.

(** [if !locks.remove(name) { return Err(..) }]. *)
Definition remove_name (i : nat) : M Error t unit := fun s =>
  match objects s !! i with
  | Some o =>
      if bool_decide (lock_name o ∈ locks s)
      then (Ok tt, mk (locks s ∖ {[lock_name o]}) (objects s) (next_object s))
      else (Err (AlreadyClosed "Lock was already released"), s)
  | None => (Err (Io Other "no such lock object"), s)
  end.

Definition single_close (i : nat) : M Error t unit :=
  let* was := swap_closed i in
  if (was : bool) then ret tt else remove_name i.

Definition single_ensure_valid (i : nat) : M Error t unit := fun s =>
  match objects s !! i with
  | Some o =>
      if closed o then (Err (AlreadyClosed "Lock instance already released"), s)
      else if bool_decide (lock_name o ∈ locks s) then (Ok tt, s)
      else (Err (AlreadyClosed "Lock instance was invalidated from map"), s)
  | None => (Err (Io Other "no such lock object"), s)
  end.

(** [Drop]: [let _ = self.close()]. *)
Definition drop_lock (i : nat) (s : t) : t := (single_close i s).2.
Definition single_lock (i : nat) : Lock t := mk_lock (single_ensure_valid i) (single_close i) (drop_lock i).

(** ** [VerifyingLockFactory], over any channel: [write_all], [flush] and a
    one-byte [read] that returns nothing at the end of the stream. *)
Definition MSG_LOCK_RELEASED : Z := 0.
Definition MSG_LOCK_ACQUIRED : Z := 1.

Section verifying.
Context {W : Type} (write_all : list byte -> M Error W unit) (flush : M Error W unit) (read : M Error W (option byte)).

Definition verify (message : Z) : M Error W unit :=
  let* _ := write_all [message] in
  let* _ := flush in
  let* reply := read in
  match reply with
  | None => fail (AlreadyClosed "Lock server died because of locking error.")
  | Some b => if negb (b =? message) then fail (Io Other "Protocol violation.") else ret tt
  end.

(** [checked.and(closed)], after both ran. *)
Definition checked_close (lock : Lock W) : M Error W unit := fun w =>
  let '(checked, w) := (let* _ := ensure_valid lock in verify MSG_LOCK_RELEASED) w in
  let '(closed, w) := close lock w in
  (match checked with Ok _ => closed | Err e => Err e end, w).

Definition checked_lock (lock : Lock W) : Lock W :=
  mk_lock (ensure_valid lock) (checked_close lock) (drop lock).

(** A rejected acquire drops the lock it wrapped. *)
Definition verifying_obtain (obtain : M Error W (Lock W)) : M Error W (Lock W) :=
  let* lock := obtain in
  fun w => match verify MSG_LOCK_ACQUIRED w with
           | (Ok _, w) => (Ok (checked_lock lock), w)
           | (Err e, w) => (Err e, drop lock w)
           end.
End verifying.

(** The single-instance factory beside a channel. *)
Definition beside {C A} (m : M Error t A) : M Error (t * C) A := fun '(s, c) =>
  let '(r, s) := m s in (r, (s, c)).
Definition on_channel {C A} (m : M Error C A) : M Error (t * C) A := fun '(s, c) =>
  let '(r, c) := m c in (r, (s, c)).
Definition single_lock_beside {C} (i : nat) : Lock (t * C) :=
  mk_lock (beside (single_ensure_valid i)) (beside (single_close i)) (fun '(s, c) => (drop_lock i s, c)).
Definition single_obtain_beside {C} (n : name) : M Error (t * C) (Lock (t * C)) :=
  let* i := beside (obtain_lock n) in ret (single_lock_beside i).

(** ** Threads.  A close is two atomic steps; [closing] holds the objects whose
    flag is swapped and whose name is not yet removed. *)
Record system : Type := mk_system { factory : t; closing : gset nat }.

Inductive step : system -> system -> Prop :=
| step_obtain n i f f' c : obtain_lock n f = (Ok i, f') -> step (mk_system f c) (mk_system f' c)
| step_swap_first i f f' c : swap_closed i f = (Ok false, f') -> step (mk_system f c) (mk_system f' ({[i]} ∪ c))
| step_swap_again i f f' c : swap_closed i f = (Ok true, f') -> step (mk_system f c) (mk_system f' c)
| step_remove i r f f' c : i ∈ c -> remove_name i f = (r, f') -> step (mk_system f c) (mk_system f' (c ∖ {[i]})).

Definition steps : system -> system -> Prop := rtc step.
Definition reachable (s : system) : Prop := steps (mk_system new ∅) s.

(** An object holds its name from [obtain_lock] until its name is removed. *)
Definition holds (s : system) (i : nat) (n : name) : Prop :=
  exists o, objects (factory s) !! i = Some o /\ lock_name o = n /\ (closed o = false \/ i ∈ closing s).

Definition inv (s : system) : Prop :=
  (forall n, n ∈ locks (factory s) <-> exists i, holds s i n)
  /\ (forall i j n, holds s i n -> holds s j n -> i = j)
  /\ (forall i o, objects (factory s) !! i = Some o -> (i < next_object (factory s))%nat)
  /\ (forall i, i ∈ closing s -> exists o, objects (factory s) !! i = Some o /\ closed o = true).

Lemma new_factory_inv : inv (mk_system new ∅).
Proof.
  unfold inv, holds. cbn. split; [|split; [|split]].
  - intros n. split; [set_solver|]. intros (i & o & Ho & _). by rewrite lookup_empty in Ho.
  - intros i j n (o & Ho & _). by rewrite lookup_empty in Ho.
  - intros i o Ho. by rewrite lookup_empty in Ho.
  - set_solver.
Qed.

(** What holds a name after a step, from what held it before. *)
Lemma holds_obtain f c n i f' : inv (mk_system f c) -> obtain_lock n f = (Ok i, f') ->
  n ∉ locks f /\ i = next_object f /\ locks f' = {[n]} ∪ locks f
  /\ forall j m, holds (mk_system f' c) j m <-> holds (mk_system f c) j m \/ (j = i /\ m = n).
Proof.
  intros (_ & _ & Hlt & Hclos) E. unfold obtain_lock in E. case_bool_decide as Hin; [done|]. injection E as <- <-.
  split; [done|]. split; [done|]. split; [done|]. intros j m. unfold holds. cbn [factory closing objects].
  cbn [factory closing] in *. destruct (decide (j = next_object f)) as [->|Hne].
  - rewrite lookup_insert_eq. split.
    + intros (o & [= <-] & <- & _). by right.
    + intros [(o & Ho & _)|(_ & ->)]; [apply Hlt in Ho; lia|]. eexists. split; [done|]. split; [done|by left].
  - rewrite lookup_insert_ne by done. naive_solver.
Qed.

Lemma holds_swap f c c' i b f' : inv (mk_system f c) -> swap_closed i f = (Ok b, f') ->
  (b = false /\ c' = {[i]} ∪ c \/ b = true /\ c' = c) ->
  locks f' = locks f /\ next_object f' = next_object f
  /\ forall j m, holds (mk_system f' c') j m <-> holds (mk_system f c) j m.
Proof.
  intros _ E Hb. unfold swap_closed in E. destruct (objects f !! i) as [o|] eqn:Eo; [|done]. injection E as <- <-.
  split; [done|]. split; [done|]. intros j m. unfold holds. cbn [factory closing objects].
  destruct (decide (j = i)) as [->|Hne].
  - rewrite lookup_insert_eq, Eo. destruct Hb as [[Hb ->]|[Hb ->]]; split; intros (o' & [= <-] & <- & Hc);
      eexists; (split; [done|]); cbn [lock_name closed] in *; (split; [done|]); try set_solver.
  - rewrite lookup_insert_ne by done. destruct Hb as [[Hb ->]|[Hb ->]]; [|done].
    split; intros (o' & Ho & Hm & Hc); exists o'; (split; [done|]); (split; [done|]); set_solver.
Qed.

Lemma holds_remove f c i r f' : inv (mk_system f c) -> i ∈ c -> remove_name i f = (r, f') ->
  exists n, holds (mk_system f c) i n /\ r = Ok tt /\ f' = mk (locks f ∖ {[n]}) (objects f) (next_object f)
  /\ forall j m, holds (mk_system f' (c ∖ {[i]})) j m <-> holds (mk_system f c) j m /\ j <> i.
Proof.
  intros (Hlocks & Huniq & Hlt & Hclos) Hi E. destruct (Hclos i Hi) as (o & Ho & Hc). cbn [factory] in Ho.
  assert (Hh : holds (mk_system f c) i (lock_name o)) by (exists o; split; [done|]; split; [done|]; by right).
  assert (Hin : lock_name o ∈ locks f) by (apply Hlocks; eauto).
  unfold remove_name in E. rewrite Ho, bool_decide_eq_true_2 in E by done. injection E as <- <-.
  exists (lock_name o). split; [done|]. split; [done|]. split; [done|].
  intros j m. unfold holds. cbn [factory closing objects]. split.
  - intros (o' & Ho' & Hm & Hcl). split.
    + exists o'. split; [done|]. split; [done|]. destruct Hcl as [?|[? _]%elem_of_difference]; [by left|by right].
    + intros ->. rewrite Ho in Ho'. injection Ho' as <-. destruct Hcl as [?|[_ Hn]%elem_of_difference]; [congruence|].
      by apply Hn, elem_of_singleton.
  - intros ((o' & Ho' & Hm & Hcl) & Hne). exists o'. split; [done|]. split; [done|].
    destruct Hcl as [?|?]; [by left|right]. apply elem_of_difference. by rewrite elem_of_singleton.
Qed.

Lemma inv_same_holds f f' c c' : inv (mk_system f c) -> locks f' = locks f ->
  (forall j m, holds (mk_system f' c') j m <-> holds (mk_system f c) j m) ->
  (forall i o, objects f' !! i = Some o -> (i < next_object f')%nat) ->
  (forall i, i ∈ c' -> exists o, objects f' !! i = Some o /\ closed o = true) -> inv (mk_system f' c').
Proof.
  intros (Hlocks & Huniq & _ & _) Hl Hh Hlt Hc. split; [|split; [|split; done]].
  - intros n. cbn [factory] in *. rewrite Hl, Hlocks. by setoid_rewrite Hh.
  - intros i j n Hi%Hh Hj%Hh. by eapply Huniq.
Qed.

Lemma lock_step_inv s s' : step s s' -> inv s -> inv s'.
Proof.
  destruct 1 as [n i f f' c E|i f f' c E|i f f' c E|i r f f' c Hi E]; intros Hinv; pose proof Hinv as (Hlocks & Huniq & Hlt & Hclos);
    cbn [factory closing] in *.
  - pose proof (holds_obtain f c n i f' Hinv E) as (Hnin & -> & Hl & Hh). split; [|split; [|split]]; cbn [factory closing].
    + intros m. rewrite Hl, elem_of_union, elem_of_singleton, Hlocks. setoid_rewrite Hh. naive_solver.
    + intros a b m [Ha|[-> ->]]%Hh [Hb|[-> Hm]]%Hh; try done; [by eapply Huniq|subst|]; exfalso; apply Hnin, Hlocks; eauto.
    + unfold obtain_lock in E. case_bool_decide; [done|]. injection E as <-. cbn [objects next_object].
      intros j o [(-> & _)|(_ & Hj%Hlt)]%lookup_insert_Some; lia.
    + unfold obtain_lock in E. case_bool_decide; [done|]. injection E as <-. cbn [objects].
      intros j (o & Ho & Hcl)%Hclos. exists o. split; [|done]. rewrite lookup_insert_ne; [done|]. intros <-. apply Hlt in Ho. lia.
  - pose proof (holds_swap f c ({[i]} ∪ c) i false f' Hinv E ltac:(by left)) as (Hl & Hn & Hh).
    apply (inv_same_holds f f' c); try done.
    + rewrite Hn. unfold swap_closed in E. destruct (objects f !! i) as [o|] eqn:Eo; [|done]. injection E as _ <-.
      cbn [objects]. intros j o' [(<- & _)|(_ & Hj)]%lookup_insert_Some; by eapply Hlt.
    + unfold swap_closed in E. destruct (objects f !! i) as [o|] eqn:Eo; [|done]. injection E as _ <-. cbn [objects].
      intros j Hj. destruct (decide (j = i)) as [->|Hne]; [rewrite lookup_insert_eq; eauto|].
      rewrite lookup_insert_ne by done. apply Hclos. set_solver.
  - pose proof (holds_swap f c c i true f' Hinv E ltac:(by right)) as (Hl & Hn & Hh).
    apply (inv_same_holds f f' c); try done.
    + rewrite Hn. unfold swap_closed in E. destruct (objects f !! i) as [o|] eqn:Eo; [|done]. injection E as _ <-.
      cbn [objects]. intros j o' [(<- & _)|(_ & Hj)]%lookup_insert_Some; by eapply Hlt.
    + unfold swap_closed in E. destruct (objects f !! i) as [o|] eqn:Eo; [|done]. injection E as _ <-. cbn [objects].
      intros j Hj. destruct (decide (j = i)) as [->|Hne]; [rewrite lookup_insert_eq; eauto|].
      rewrite lookup_insert_ne by done. by apply Hclos.
  - pose proof (holds_remove f c i r f' Hinv Hi E) as (n & Hh & -> & -> & Hh').
    split; [|split; [|split]]; cbn [factory closing locks objects next_object].
    + intros m. rewrite elem_of_difference, elem_of_singleton, Hlocks. setoid_rewrite Hh'. split.
      * intros ((j & Hj) & Hne). exists j. split; [done|]. intros ->. apply Hne.
        destruct Hj as (o1 & ? & <- & _), Hh as (o2 & ? & <- & _). congruence.
      * intros (j & Hj & Hne). split; [eauto|]. intros ->. apply Hne. by eapply Huniq.
    + intros a b m [Ha _]%Hh' [Hb _]%Hh'. by eapply Huniq.
    + done.
    + intros j [Hj _]%elem_of_difference. by apply Hclos.
Qed.

Lemma lock_reachable_inv s : reachable s -> inv s.
Proof.
  intros H. assert (Hg : forall a b, steps a b -> inv a -> inv b) by (induction 1; eauto using lock_step_inv).
  apply (Hg _ _ H), new_factory_inv.
Qed.

(** Locks exclude.  In every state any interleaving of obtaining and
    releasing reaches, two lock objects never hold the same name; a lock is
    obtained exactly when nothing holds its name, and refused with
    [LockObtainFailed] otherwise; a lock not closed is always valid and a
    closed one never; and a release, interleaved with anything, always finds
    its name, so the errors for a lock lost from the map never arise. *)
Lemma locks_exclude (s : system) (n : name) (i : nat) : reachable s ->
  (forall i j m, holds s i m -> holds s j m -> i = j)
  /\ ((exists j f', obtain_lock n (factory s) = (Ok j, f')) <-> forall j, ~ holds s j n)
  /\ ((exists msg, obtain_lock n (factory s) = (Err (LockObtainFailed msg), factory s)) <-> exists j, holds s j n)
  /\ (forall o, objects (factory s) !! i = Some o ->
        if closed o then exists msg, single_ensure_valid i (factory s) = (Err (AlreadyClosed msg), factory s)
        else single_ensure_valid i (factory s) = (Ok tt, factory s))
  /\ (i ∈ closing s -> (remove_name i (factory s)).1 = Ok tt)
  /\ (forall o, objects (factory s) !! i = Some o -> (single_close i (factory s)).1 = Ok tt).
Proof.
  intros Hr. pose proof (lock_reachable_inv s Hr) as Hinv. destruct s as [f c].
  pose proof Hinv as (Hlocks & Huniq & Hlt & Hclos). cbn [factory closing] in *.
  split; [exact Huniq|]. unfold obtain_lock. split; [|split; [|split; [|split]]].
  - case_bool_decide as Hin; split.
    + by intros (j & f' & [=]).
    + intros Hno. apply Hlocks in Hin as (j & Hj). by apply Hno in Hj.
    + intros _ j Hj. apply Hin, Hlocks. eauto.
    + eauto.
  - case_bool_decide as Hin; split.
    + intros _. by apply Hlocks.
    + eauto.
    + by intros (msg & [=]).
    + intros Hj. by apply Hlocks in Hj.
  - intros o Ho. unfold single_ensure_valid. rewrite Ho. destruct (closed o) eqn:Ec; [eauto|].
    rewrite bool_decide_eq_true_2; [done|]. apply Hlocks. exists i, o. split; [done|]. split; [done|]. by left.
  - intros Hi. destruct (remove_name i f) as [r f'] eqn:E.
    by apply (holds_remove f c) in E as (_ & _ & -> & _).
  - intros o Ho. unfold single_close, bind, swap_closed. rewrite Ho. destruct (closed o) eqn:Ec; [done|].
    unfold remove_name. cbn [objects locks lock_name]. rewrite lookup_insert_eq. cbn [lock_name].
    rewrite bool_decide_eq_true_2; [done|]. apply Hlocks. exists i, o. split; [done|]. split; [done|]. by left.
Qed.

(** One lock half released: its flag is set, its name still taken. *)
Lemma locks_exclude_witness :
  exists s, reachable s /\ 0%nat ∈ closing s /\ (remove_name 0 (factory s)).1 = Ok tt.
Proof.
  set (f1 := (obtain_lock (bytes "write.lock") new).2). set (f2 := (swap_closed 0 f1).2).
  assert (Hr : reachable (mk_system f2 ({[0%nat]} ∪ ∅))).
  { eapply rtc_l; [by apply (step_obtain (bytes "write.lock") 0 new f1 ∅)|].
    apply rtc_once. by apply (step_swap_first 0 f1 f2 ∅). }
  exists (mk_system f2 ({[0%nat]} ∪ ∅)). split; [exact Hr|]. assert (Hc : 0%nat ∈ ({[0%nat]} ∪ ∅ : gset nat)) by set_solver.
  split; [exact Hc|].
  exact (proj1 (proj2 (proj2 (proj2 (proj2 (locks_exclude _ (bytes "write.lock") 0 Hr))))) Hc).
Defined.

(** ** The verifying wrapper. *)
Section verified.
Context {C : Type} (write_all : list byte -> M Error C unit) (flush : M Error C unit) (read : M Error C (option byte)).

Definition channel_verify (message : Z) : M Error (t * C) unit :=
  verify (fun b => on_channel (write_all b)) (on_channel flush) (on_channel read) message.

(** Whatever the channel does, the factory is not its business. *)
Lemma verify_keeps message s c : exists r c', channel_verify message (s, c) = (r, (s, c')).
Proof.
  unfold channel_verify, verify, bind, on_channel, ret, fail.
  destruct (write_all [message] c) as [[?|?] c1]; [|eauto].
  destruct (flush c1) as [[?|?] c2]; [|eauto]. destruct (read c2) as [[[b|]|?] c3]; [|eauto|eauto].
  destruct (negb (b =? message)); eauto.
Qed.

(** Releasing an open object removes its name and nothing else. *)
Lemma single_close_releases s i o : reachable (mk_system s ∅) -> objects s !! i = Some o -> closed o = false ->
  single_close i s = (Ok tt, mk (locks s ∖ {[lock_name o]}) (<[i := mk_object (lock_name o) true]> (objects s)) (next_object s))
  /\ lock_name o ∈ locks s.
Proof.
  intros Hr Ho Hc. pose proof (lock_reachable_inv _ Hr) as (Hlocks & _). cbn [factory] in Hlocks.
  assert (Hin : lock_name o ∈ locks s) by (apply Hlocks; exists i, o; split; [done|]; split; [done|]; by left).
  split; [|done]. unfold single_close, bind, swap_closed. rewrite Ho, Hc. unfold remove_name. cbn [objects locks].
  rewrite lookup_insert_eq. cbn [lock_name]. by rewrite bool_decide_eq_true_2.
Qed.

(** The verifying wrapper never leaks a lock.  Closing a wrapped lock
    releases the name whatever the verifier or the channel answers, and
    succeeds exactly when the verifier agreed; and an acquire the verifier
    rejects leaves the name free again. *)
Lemma verifying_never_leaks (s : t) (c : C) (n : name) (i : nat) (o : lock_object) :
  reachable (mk_system s ∅) -> objects s !! i = Some o -> closed o = false -> n ∉ locks s ->
  (exists r c', checked_close (fun b => on_channel (write_all b)) (on_channel flush) (on_channel read) (single_lock_beside i) (s, c)
      = (r, (mk (locks s ∖ {[lock_name o]}) (<[i := mk_object (lock_name o) true]> (objects s)) (next_object s), c'))
     /\ (r = Ok tt <-> (channel_verify MSG_LOCK_RELEASED (s, c)).1 = Ok tt))
  /\ exists r s' c', verifying_obtain (fun b => on_channel (write_all b)) (on_channel flush) (on_channel read)
                       (single_obtain_beside n) (s, c) = (r, (s', c'))
     /\ match r with
        | Ok _ => locks s' = {[n]} ∪ locks s
        | Err _ => locks s' = locks s
        end.
Proof.
  intros Hr Ho Hc Hn. split.
  - destruct (single_close_releases s i o Hr Ho Hc) as [Hclose Hin].
    destruct (verify_keeps MSG_LOCK_RELEASED s c) as (v & c' & Hv). unfold channel_verify in *.
    unfold checked_close, bind at 1. cbn [ensure_valid single_lock_beside beside].
    unfold single_ensure_valid. rewrite Ho, Hc, bool_decide_eq_true_2 by done.
    rewrite Hv. cbn [close single_lock_beside beside]. rewrite Hclose. eexists _, c'. split; [done|].
    cbn [fst]. destruct v as [[]|]; done.
  - set (s1 := mk ({[n]} ∪ locks s) (<[next_object s := mk_object n false]> (objects s)) (Datatypes.S (next_object s))).
    assert (E : obtain_lock n s = (Ok (next_object s), s1)) by (unfold obtain_lock; by rewrite bool_decide_eq_false_2).
    destruct (verify_keeps MSG_LOCK_ACQUIRED s1 c) as (v & c' & Hv). unfold channel_verify in Hv.
    unfold verifying_obtain, single_obtain_beside, bind at 1, bind at 1. cbn [beside]. rewrite E. unfold ret at 1.
    rewrite Hv. destruct v as [[]|e]; [by eexists _, s1, c'|].
    cbn [drop single_lock_beside]. eexists _, _, c'. split; [done|].
    assert (Hr1 : reachable (mk_system s1 ∅)) by (eapply rtc_r; [exact Hr|by apply (step_obtain n (next_object s))]).
    destruct (single_close_releases s1 (next_object s) (mk_object n false) Hr1) as [Hcl _];
      [by apply lookup_insert_eq|done|].
    unfold drop_lock. rewrite Hcl. cbn [locks snd lock_name s1]. set_solver.
Qed.
End verified.

(** A verifier that never answers. *)
Lemma verifying_never_leaks_witness :
  let s := (obtain_lock (bytes "a") new).2 in
  let dead : M Error unit (option byte) := ret None in
  exists r s' c', verifying_obtain (fun b => on_channel (ret tt)) (on_channel (ret tt)) (on_channel dead)
                    (single_obtain_beside (bytes "b")) (s, tt) = (r, (s', c'))
  /\ match r with Ok _ => locks s' = {[bytes "b"]} ∪ locks s | Err _ => locks s' = locks s end.
Proof.
  intros s dead. assert (Hr : reachable (mk_system s ∅)) by (apply rtc_once; by apply (step_obtain (bytes "a") 0 new s ∅)).
  exact (proj2 (verifying_never_leaks (fun _ => ret tt) (ret tt) dead s tt (bytes "b") 0 (mk_object (bytes "a") false)
    Hr ltac:(by vm_compute) ltac:(done) ltac:(by apply (bool_decide_unpack _); vm_compute))).
Defined.

End Lock.
