(* ===== verification/FileDeleter.v ===== *)
(** Reference counts for the files of a directory
    ([crates/lucene-index/src/file_deleter.rs]): a file is deleted when its
    last reference is dropped, commit files first.  The directory is an
    interface; the in-memory directory implements it. *)
From stdpp Require Import gmap strings.
From S2P Require Import Prelude StoreError SegmentNames ByteBuffersDirectory.

(** ** What the deleter asks of a directory. *)
Class Directory (D : Type) : Type := {
  directory_delete_file : name -> M Error D unit;
  directory_names : D -> gset (list Z);
}.

(** A deletion removes the one name, or fails and removes nothing; it says
    the file is missing only when it is. *)
Class DirectoryLaws (D : Type) `{Directory D} : Prop := {
  law_delete n d r d' : directory_delete_file n d = (r, d') ->
    match r with
    | Ok _ => n ∈ directory_names d /\ directory_names d' = directory_names d ∖ {[n]}
    | Err e => directory_names d' = directory_names d /\ (is_no_such_file e = true -> n ∉ directory_names d)
    end;
}.

#[global] Instance byte_buffers_directory : Directory ByteBuffersDirectory.t := {|
  directory_delete_file := ByteBuffersDirectory.delete_file;
  directory_names d := dom (ByteBuffersDirectory.files d);
|}.

#[global] Instance byte_buffers_directory_laws : DirectoryLaws ByteBuffersDirectory.t.
Proof.
  split. intros n d r d'. cbn. unfold ByteBuffersDirectory.delete_file.
  destruct (ByteBuffersDirectory.files d !! n) eqn:E; intros [= <- <-]; cbn.
  - split; [apply elem_of_dom; eauto|apply dom_delete_L].
  - split; [done|]. intros _. by apply not_elem_of_dom.
Qed.

Module FileDeleter.

Inductive MsgType : Type := Ref | File.

(** What a messenger is told, the text by what it interpolates. *)
Inductive text : Type :=
| IncRef (file : list Z) (pre : Z)
| DecRef (file : list Z) (pre : Z)
| RemovingUnreferenced (file : list Z)
| WillDeleteNew (file : list Z)
| NowDelete (files : list (list Z)).

Record RefCount : Type := mk_count { init_done : bool; count : Z }.
Definition default_count : RefCount := mk_count false 0.

Definition inc_count (rc : RefCount) : RefCount := mk_count true (wraps 32 (count rc + 1)).
Definition dec_count (rc : RefCount) : RefCount := mk_count (init_done rc) (wraps 32 (count rc - 1)).

Section deleter.
Context {D : Type} `{Directory D} (windows : bool).

(** [messages] is what the messenger was told, most recent first; [None]
    without one. *)
Record t : Type := mk {
  ref_counts : gmap (list Z) RefCount;
  directory : D;
  messages : option (list (MsgType * text));
}.

Definition new (d : D) (messenger : bool) : t := mk ∅ d (if messenger then Some [] else None).

Definition message (kind : MsgType) (m : text) (s : t) : t :=
  mk (ref_counts s) (directory s) ((fun l => (kind, m) :: l) <$> messages s).
Definition set_counts (s : t) (c : gmap (list Z) RefCount) : t := mk c (directory s) (messages s).

(** [get_mut(..)] or [entry(..).or_default()]. *)
Definition count_of (s : t) (f : name) : RefCount := default default_count (ref_counts s !! f).

Definition inc_ref (f : name) (s : t) : t :=
  let rc := count_of s f in
  message Ref (IncRef f (count rc)) (set_counts s (<[f := inc_count rc]> (ref_counts s))).

Fixpoint inc_ref_all (files : list (list Z)) (s : t) : t :=
  match files with
  | [] => s
  | f :: files => inc_ref_all files (inc_ref f s)
  end.

Definition dec_ref (f : name) (s : t) : bool * t :=
  let rc := count_of s f in
  let rc' := dec_count rc in
  let s := message Ref (DecRef f (count rc)) (set_counts s (<[f := rc']> (ref_counts s))) in
  if count rc' =? 0 then (true, set_counts s (delete f (ref_counts s))) else (false, s).

Definition init_ref_count (f : name) (s : t) : t := set_counts s (<[f := count_of s f]> (ref_counts s)).
Definition ref_count (s : t) (f : name) : Z := match ref_counts s !! f with Some rc => count rc | None => 0 end.
Definition all_files (s : t) : gset (list Z) := dom (ref_counts s).
Definition exists_ (s : t) (f : name) : bool :=
  match ref_counts s !! f with Some rc => 0 <? count rc | None => false end.

(** The map's order is its own; the messages follow it. *)
Fixpoint unrefed_loop (l : list (list Z * RefCount)) (acc : gset (list Z)) (s : t) : gset (list Z) * t :=
  match l with
  | [] => (acc, s)
  | (f, rc) :: l =>
      if count rc =? 0 then unrefed_loop l ({[f]} ∪ acc) (message File (RemovingUnreferenced f) s)
      else unrefed_loop l acc s
  end.
Definition unrefed_files (s : t) : gset (list Z) * t := unrefed_loop (map_to_list (ref_counts s)) ∅ s.

(** [delete]: on Windows a file already gone is not an error. *)
Definition delete_ (f : name) (s : t) : result Error unit * t :=
  let '(r, d) := directory_delete_file f (directory s) in
  let s := mk (ref_counts s) d (messages s) in
  match r with
  | Ok _ => (Ok tt, s)
  | Err e => if is_no_such_file e && windows then (Ok tt, s) else (Err e, s)
  end.

(** [for file in .. { if let Err(e) = self.delete(file) { first.get_or_insert(e); } }]. *)
Fixpoint delete_loop (files : list (list Z)) (first : option Error) (s : t) : option Error * t :=
  match files with
  | [] => (first, s)
  | f :: files =>
      let '(r, s) := delete_ f s in
      let first := match r, first with Err e, None => Some e | _, _ => first end in
      delete_loop files first s
  end.

Definition is_segments (f : name) : bool := starts_with (bytes "segments") f.

Definition delete_all (to_delete : list (list Z)) (s : t) : result Error unit * t :=
  let s := message File (NowDelete to_delete) s in
  let segments := List.filter is_segments to_delete in
  let others := List.filter (fun f => negb (is_segments f)) to_delete in
  match delete_loop segments None s with
  | (Some e, s) => (Err e, s)
  | (None, s) =>
      match delete_loop others None s with
      | (Some e, s) => (Err e, s)
      | (None, s) => (Ok tt, s)
      end
  end.

(** [for file in .. { if self.dec_ref(file) && seen.insert(file) { push } }]. *)
Fixpoint dec_ref_loop (files : list (list Z)) (seen : gset (list Z)) (to_delete : list (list Z)) (s : t)
    : list (list Z) * t :=
  match files with
  | [] => (to_delete, s)
  | f :: files =>
      let '(zero, s) := dec_ref f s in
      if zero && negb (bool_decide (f ∈ seen)) then dec_ref_loop files ({[f]} ∪ seen) (to_delete ++ [f]) s
      else dec_ref_loop files seen to_delete s
  end.
Definition dec_ref_all (files : list (list Z)) (s : t) : result Error unit * t :=
  let '(to_delete, s) := dec_ref_loop files ∅ [] s in delete_all to_delete s.

Fixpoint no_ref_loop (files : list (list Z)) (seen : gset (list Z)) (to_delete : list (list Z)) (s : t)
    : list (list Z) * t :=
  match files with
  | [] => (to_delete, s)
  | f :: files =>
      if negb (exists_ s f) then
        let s := message File (WillDeleteNew f) s in
        if negb (bool_decide (f ∈ seen)) then no_ref_loop files ({[f]} ∪ seen) (to_delete ++ [f]) s
        else no_ref_loop files seen to_delete s
      else no_ref_loop files seen to_delete s
  end.
Definition delete_files_if_no_ref (files : list (list Z)) (s : t) : result Error unit * t :=
  let '(to_delete, s) := no_ref_loop files ∅ [] s in delete_all to_delete s.

Definition force_delete (f : name) (s : t) : result Error unit * t :=
  delete_ f (set_counts s (delete f (ref_counts s))).

Definition delete_file_if_no_ref (f : name) (s : t) : result Error unit * t :=
  if negb (exists_ s f) then delete_ f (message File (WillDeleteNew f) s) else (Ok tt, s).
End deleter.
Arguments t D : clear implicits.

(** ** Counting references. *)
Fixpoint occ (f : name) (l : list (list Z)) : Z :=
  match l with
  | [] => 0
  | g :: l => (if decide (f = g) then 1 else 0) + occ f l
  end.

Lemma occ_nonneg f l : 0 <= occ f l.
Proof. induction l as [|g l IH]; cbn; [lia|]. destruct (decide (f = g)); lia. Qed.

Lemma occ_app f l k : occ f (l ++ k) = occ f l + occ f k.
Proof. induction l as [|g l IH]; cbn; [lia|]. rewrite IH. lia. Qed.

Lemma occ_pos f l : 0 < occ f l <-> f ∈ l.
Proof.
  induction l as [|g l IH]; cbn; [rewrite elem_of_nil; lia|]. rewrite elem_of_cons, <- IH.
  pose proof (occ_nonneg f l). destruct (decide (f = g)); naive_solver lia.
Qed.

Section proofs.
Context {D : Type} `{DirectoryLaws D} (windows : bool).
Implicit Types s : t D.

Notation names s := (directory_names (directory s)).

Lemma count_of_ref s f : count (count_of s f) = ref_count s f.
Proof. unfold count_of, ref_count. by destruct (ref_counts s !! f). Qed.

Lemma wraps_small_32 z : 0 <= z < 2 ^ 31 -> wraps 32 z = z.
Proof. intros. apply wraps_id; [lia|]. unfold in_s. change (32 - 1) with 31. lia. Qed.

Lemma inc_ref_spec s f : 0 <= ref_count s f < 2 ^ 31 - 1 ->
  directory (inc_ref f s) = directory s
  /\ forall g, ref_count (inc_ref f s) g = ref_count s g + (if decide (g = f) then 1 else 0).
Proof.
  intros Hb. split; [done|]. intros g. unfold inc_ref, ref_count at 1. cbn [ref_counts message set_counts].
  destruct (decide (g = f)) as [->|Hne].
  - rewrite lookup_insert_eq. cbn [inc_count count]. rewrite count_of_ref, wraps_small_32 by lia. lia.
  - rewrite lookup_insert_ne by done. unfold ref_count. destruct (ref_counts s !! g); lia.
Qed.

Lemma inc_ref_all_spec files : forall s, (forall g, 0 <= ref_count s g /\ ref_count s g + occ g files < 2 ^ 31) ->
  directory (inc_ref_all files s) = directory s
  /\ forall g, ref_count (inc_ref_all files s) g = ref_count s g + occ g files.
Proof.
  induction files as [|f files IH]; intros s Hb; cbn [inc_ref_all occ].
  { split; [done|]. intros. lia. }
  assert (Hf : 0 <= ref_count s f < 2 ^ 31 - 1).
  { destruct (Hb f) as [? Hc]. cbn [occ] in Hc. rewrite decide_True in Hc by done. pose proof (occ_nonneg f files). lia. }
  destruct (inc_ref_spec s f Hf) as [Hd Hc]. destruct (IH (inc_ref f s)) as [Hd' Hc'].
  - intros g. rewrite Hc. destruct (Hb g) as [? Hg]. cbn [occ] in Hg. destruct (decide (g = f)); lia.
  - split; [congruence|]. intros g. rewrite Hc', Hc. lia.
Qed.

Lemma dec_ref_spec s f : 1 <= ref_count s f < 2 ^ 31 ->
  let '(zero, s') := dec_ref f s in
  directory s' = directory s /\ zero = (ref_count s f =? 1)
  /\ forall g, ref_count s' g = ref_count s g - (if decide (g = f) then 1 else 0).
Proof.
  intros Hb. unfold dec_ref, dec_count. cbn [count]. rewrite !count_of_ref, !wraps_small_32 by lia.
  destruct (Z.eqb_spec (ref_count s f - 1) 0), (Z.eqb_spec (ref_count s f) 1); try lia;
    (split; [done|]; split; [done|]; intros g; unfold ref_count at 1; cbn [ref_counts message set_counts];
     destruct (decide (g = f)) as [->|Hne]).
  - rewrite lookup_delete_eq. lia.
  - rewrite lookup_delete_ne, lookup_insert_ne by done. unfold ref_count. destruct (ref_counts s !! g); lia.
  - rewrite lookup_insert_eq. cbn [count]. lia.
  - rewrite lookup_insert_ne by done. unfold ref_count. destruct (ref_counts s !! g); lia.
Qed.

Lemma dec_ref_loop_spec files : forall seen to_delete s,
  (forall g, 0 <= occ g files <= ref_count s g /\ ref_count s g < 2 ^ 31) ->
  (forall g, g ∈ seen <-> g ∈ to_delete) -> (forall g, g ∈ to_delete -> ref_count s g = 0) -> NoDup to_delete ->
  let '(l, s') := dec_ref_loop files seen to_delete s in
  directory s' = directory s
  /\ (forall g, ref_count s' g = ref_count s g - occ g files)
  /\ NoDup l /\ forall g, g ∈ l <-> g ∈ to_delete \/ (0 < occ g files /\ ref_count s' g = 0).
Proof.
  induction files as [|f files IH]; intros seen del s Hb Hseen Hdel Hnd; cbn [dec_ref_loop occ].
  { split; [done|]. split; [intros; lia|]. split; [done|]. naive_solver lia. }
  assert (Hf : 1 <= ref_count s f < 2 ^ 31).
  { destruct (Hb f) as [Hc ?]. cbn [occ] in Hc. rewrite decide_True in Hc by done. pose proof (occ_nonneg f files). lia. }
  pose proof (dec_ref_spec s f Hf) as Hd. destruct (dec_ref f s) as [zero s1]. destruct Hd as (Hd1 & -> & Hc1).
  assert (Hb1 : forall g, 0 <= occ g files <= ref_count s1 g /\ ref_count s1 g < 2 ^ 31).
  { intros g. rewrite Hc1. destruct (Hb g) as [Hg ?]. cbn [occ] in Hg. pose proof (occ_nonneg g files). destruct (decide (g = f)); lia. }
  assert (Hdel1 : forall g, g ∈ del -> ref_count s1 g = 0).
  { intros g Hg. rewrite Hc1, (Hdel g Hg). destruct (decide (g = f)) as [->|]; [|lia]. apply Hdel in Hg. lia. }
  assert (Hfdel : f ∉ del) by (intros Hg%Hdel; lia).
  destruct (Z.eqb_spec (ref_count s f) 1) as [H1|H1]; cbn [andb].
  - rewrite bool_decide_eq_false_2 by (by rewrite Hseen). cbn [negb].
    specialize (IH ({[f]} ∪ seen) (del ++ [f]) s1 Hb1). destruct (dec_ref_loop files _ _ s1) as [l s2].
    destruct IH as (Hd2 & Hc2 & Hnd2 & Hl).
    + intros g. rewrite elem_of_union, elem_of_singleton, elem_of_app, list_elem_of_singleton, Hseen. tauto.
    + intros g [Hg|Hg]%elem_of_app; [by apply Hdel1|]. apply list_elem_of_singleton in Hg as ->.
      rewrite Hc1, decide_True by done. lia.
    + apply list.NoDup_app. split; [done|]. split; [|apply NoDup_singleton]. intros g Hg ->%list_elem_of_singleton. done.
    + split; [congruence|]. split; [intros g; rewrite Hc2, Hc1; lia|]. split; [done|]. intros g. rewrite Hl.
      rewrite elem_of_app, list_elem_of_singleton. pose proof (occ_nonneg g files). destruct (decide (g = f)) as [->|Hne].
      * split; [|tauto]. intros _. right. split; [lia|]. rewrite Hc2, Hc1, decide_True by done.
        pose proof (Hb1 f) as [Hbf _]. rewrite Hc1, decide_True in Hbf by done. lia.
      * split; [intros [[?|?]|?]; [by left|done|right; naive_solver lia]|intros [?|[? ?]]; [tauto|right; split; [lia|done]]].
  - specialize (IH seen del s1 Hb1 Hseen Hdel1 Hnd). destruct (dec_ref_loop files seen del s1) as [l s2].
    destruct IH as (Hd2 & Hc2 & Hnd2 & Hl).
    split; [congruence|]. split; [intros g; rewrite Hc2, Hc1; lia|]. split; [done|]. intros g. rewrite Hl.
    pose proof (occ_nonneg g files). destruct (decide (g = f)) as [->|Hne]; [|naive_solver lia].
    split; [intros [?|[? ?]]; [by left|right; split; [lia|done]]|]. intros [?|[_ Hz]]; [by left|]. right. split; [|done].
    rewrite Hc2, Hc1, decide_True in Hz by done. lia.
Qed.

Lemma delete_file_spec f s : let '(r, s') := delete_ windows f s in
  ref_counts s' = ref_counts s
  /\ names s' = match r with Ok _ => names s ∖ {[f]} | Err _ => names s end.
Proof.
  unfold delete_. destruct (directory_delete_file f (directory s)) as [r d] eqn:E. apply law_delete in E.
  destruct r as [[]|e]; [by destruct E|]. destruct E as [E Hnf]. destruct (is_no_such_file e && windows) eqn:Ew; [|done].
  apply andb_true_iff in Ew as [Ew _]. specialize (Hnf Ew). split; [done|]. cbn [directory]. set_solver.
Qed.

Lemma delete_loop_spec files : forall first s, let '(o, s') := delete_loop windows files first s in
  ref_counts s' = ref_counts s
  /\ names s ∖ list_to_set files ⊆ names s' /\ names s' ⊆ names s
  /\ (o = None -> first = None /\ names s' = names s ∖ list_to_set files).
Proof.
  induction files as [|f files IH]; intros first s; cbn [delete_loop list_to_set].
  { split; [done|]. split; [set_solver|]. split; [done|]. intros ->. split; [done|]. set_solver. }
  pose proof (delete_file_spec f s) as Hd. destruct (delete_ windows f s) as [r s1]. destruct Hd as [Hc Hn].
  set (first' := match r, first with Err e, None => Some e | _, _ => first end).
  specialize (IH first' s1). destruct (delete_loop windows files first' s1) as [o s2].
  destruct IH as (Hc2 & Hlow & Hup & Hnone). split; [congruence|]. split; [|split].
  - destruct r; rewrite Hn in Hlow; set_solver.
  - destruct r; rewrite Hn in Hup; set_solver.
  - intros Ho. destruct (Hnone Ho) as [Hf' ->]. rewrite Hn. unfold first' in Hf'. destruct r as [u|e].
    + split; [done|]. set_solver.
    + destruct first; done.
Qed.

Lemma in_filter (P : list Z -> bool) l g : g ∈ List.filter P l <-> g ∈ l /\ P g = true.
Proof. by rewrite !list_elem_of_In, filter_In. Qed.

(** Filtering keeps the partition. *)
Lemma partition_set (l : list (list Z)) :
  (list_to_set l : gset (list Z))
  = list_to_set (List.filter is_segments l) ∪ list_to_set (List.filter (fun f => negb (is_segments f)) l).
Proof.
  apply set_eq. intros g. rewrite elem_of_union, !elem_of_list_to_set, !in_filter.
  destruct (is_segments g); cbn; naive_solver.
Qed.

Lemma delete_all_spec l s : let '(r, s') := delete_all windows l s in
  ref_counts s' = ref_counts s
  /\ names s ∖ list_to_set l ⊆ names s' /\ names s' ⊆ names s
  /\ match r with
     | Ok _ => names s' = names s ∖ list_to_set l
     | Err _ => (forall g, is_segments g = false -> g ∈ names s -> g ∈ names s')
                \/ (forall g, g ∈ l -> is_segments g = true -> g ∉ names s')
     end.
Proof.
  unfold delete_all. set (s0 := message File (NowDelete l) s).
  assert (H0' : ref_counts s0 = ref_counts s /\ names s0 = names s) by done. destruct H0' as [Hc0 Hn0].
  rewrite partition_set.
  pose proof (delete_loop_spec (List.filter is_segments l) None s0) as H1.
  destruct (delete_loop windows (List.filter is_segments l) None s0) as [o1 s1].
  destruct H1 as (Hc1 & Hl1 & Hu1 & Hs1). rewrite Hc0 in Hc1. rewrite Hn0 in *. destruct o1 as [e|].
  - split; [done|]. split; [set_solver|]. split; [done|]. left. intros g Hg Hin. apply Hl1.
    apply elem_of_difference. split; [done|]. rewrite elem_of_list_to_set, in_filter. intros [_ Ht]. congruence.
  - destruct (Hs1 eq_refl) as [_ Hn1].
    pose proof (delete_loop_spec (List.filter (fun f => negb (is_segments f)) l) None s1) as H2.
    destruct (delete_loop windows _ None s1) as [o2 s2]. destruct H2 as (Hc2 & Hl2 & Hu2 & Hs2).
    rewrite Hn1 in *. assert (Hcc : ref_counts s2 = ref_counts s) by congruence. destruct o2 as [e|].
    + split; [done|]. split; [set_solver|]. split; [set_solver|]. right. intros g Hg Ht Hin. apply Hu2 in Hin.
      apply elem_of_difference in Hin as [_ Hin]. apply Hin. by rewrite elem_of_list_to_set, in_filter.
    + destruct (Hs2 eq_refl) as [_ ->]. split; [done|]. split; [set_solver|]. split; set_solver.
Qed.

(** [dec_ref_all] drops references and deletes what died, no more.  When
    the references dropped exist, every count falls by the number of times its
    file is listed; the only files deleted are listed ones nothing references
    any more, all of them when it succeeds; and when a deletion fails, either
    no file but a commit file was touched, or every dead commit file is
    already gone, so no commit is left naming files that were deleted. *)
Lemma dec_ref_all_deletes_the_dead (s : t D) (files : list name) :
  (forall g, 0 <= occ g files <= ref_count s g /\ ref_count s g < 2 ^ 31) ->
  let '(r, s') := dec_ref_all windows files s in
  (forall g, ref_count s' g = ref_count s g - occ g files)
  /\ directory_names (directory s') ⊆ directory_names (directory s)
  /\ (forall g, g ∈ directory_names (directory s) -> g ∉ directory_names (directory s') -> 0 < occ g files /\ ref_count s' g = 0)
  /\ match r with
     | Ok _ => forall g, 0 < occ g files -> ref_count s' g = 0 -> g ∉ directory_names (directory s')
     | Err _ =>
         (forall g, is_segments g = false -> g ∈ directory_names (directory s) -> g ∈ directory_names (directory s'))
         \/ (forall g, 0 < occ g files -> ref_count s' g = 0 -> is_segments g = true -> g ∉ directory_names (directory s'))
     end.
Proof.
  intros Hb. unfold dec_ref_all.
  pose proof (dec_ref_loop_spec files ∅ [] s Hb ltac:(set_solver) ltac:(intros g Hg; by apply elem_of_nil in Hg) ltac:(constructor)) as Hd.
  destruct (dec_ref_loop files ∅ [] s) as [l s1]. destruct Hd as (Hd1 & Hc1 & Hnd & Hl).
  pose proof (delete_all_spec l s1) as Ha. destruct (delete_all windows l s1) as [r s2].
  destruct Ha as (Hc2 & Hlow & Hup & Hr). rewrite Hd1 in *.
  assert (Hrc : forall g, ref_count s2 g = ref_count s1 g) by (intros g; unfold ref_count; by rewrite Hc2).
  assert (Hl' : forall g, g ∈ l <-> 0 < occ g files /\ ref_count s2 g = 0).
  { intros g. rewrite Hl, Hrc, elem_of_nil. tauto. }
  split; [intros g; rewrite Hrc; apply Hc1|]. split; [done|]. split.
  - intros g Hg Hng. apply Hl'. destruct (decide (g ∈ l)); [done|]. exfalso. apply Hng, Hlow.
    apply elem_of_difference. split; [done|]. by rewrite elem_of_list_to_set.
  - destruct r as [u|e].
    + intros g Ho Hz. rewrite Hr, elem_of_difference, elem_of_list_to_set, Hl'. tauto.
    + destruct Hr as [Hr|Hr]; [by left|right]. intros g Ho Hz Ht. apply Hr; [by apply Hl'|done].
Qed.
End proofs.

(** Two references to [_0.cfs], one of them dropped with the last one of
    [segments_1]. *)
Lemma dec_ref_all_deletes_the_dead_witness :
  let d0 := (ByteBuffersDirectory.create_output (bytes "segments_1")
               (ByteBuffersDirectory.create_output (bytes "_0.cfs") ByteBuffersDirectory.new).2).2 in
  let files := [bytes "_0.cfs"; bytes "segments_1"] in
  let s := inc_ref (bytes "_0.cfs") (inc_ref_all files (new d0 true)) in
  (forall g, 0 <= occ g files <= ref_count s g /\ ref_count s g < 2 ^ 31)
  /\ forall g, ref_count (dec_ref_all false files s).2 g = ref_count s g - occ g files.
Proof.
  intros d0 files s.
  assert (Hz : forall g, ref_count (new d0 true) g = 0) by (intros g; unfold ref_count; cbn; by rewrite lookup_empty).
  assert (Hocc : forall g, 0 <= occ g files <= 2).
  { intros g. unfold files. cbn [occ]. destruct (decide (g = bytes "_0.cfs")), (decide (g = bytes "segments_1")); lia. }
  destruct (inc_ref_all_spec files (new d0 true)) as [_ Hc1]; [intros g; rewrite Hz; specialize (Hocc g); lia|].
  destruct (inc_ref_spec (inc_ref_all files (new d0 true)) (bytes "_0.cfs")) as [_ Hc2].
  { rewrite Hc1, Hz. specialize (Hocc (bytes "_0.cfs")). lia. }
  assert (Hb : forall g, 0 <= occ g files <= ref_count s g /\ ref_count s g < 2 ^ 31).
  { intros g. unfold s. rewrite Hc2, Hc1, Hz. specialize (Hocc g). destruct (decide (g = bytes "_0.cfs")); lia. }
  split; [exact Hb|]. pose proof (dec_ref_all_deletes_the_dead false s files Hb) as Ht.
  destruct (dec_ref_all false files s) as [r s']. exact (proj1 Ht).
Defined.

(** ** Owners.  Any number of owners take references to sets of files and
    drop them again; others create files and clean up new ones. *)
Section owners.
Context {D : Type} `{DirectoryLaws D} (windows : bool).

Notation names s := (directory_names (directory s)).

Definition references (g : name) (held : list (list (list Z))) : Z := occ g (concat held).

Inductive step : t D * list (list (list Z)) -> t D * list (list (list Z)) -> Prop :=
| step_acquire files s held : (forall g, occ g files + references g held < 2 ^ 31) ->
    step (s, held) (inc_ref_all files s, files :: held)
| step_release files s h1 h2 : step (s, h1 ++ files :: h2) ((dec_ref_all windows files s).2, h1 ++ h2)
| step_init f s held : step (s, held) (init_ref_count f s, held)
| step_unrefed s held : step (s, held) ((unrefed_files s).2, held)
| step_clean_all files s held : step (s, held) ((delete_files_if_no_ref windows files s).2, held)
| step_clean f s held : step (s, held) ((delete_file_if_no_ref windows f s).2, held)
| step_create d s held : names s ⊆ directory_names d -> step (s, held) (mk (ref_counts s) d (messages s), held).

Definition steps := rtc step.
Definition counts_references (x : t D * list (list (list Z))) : Prop :=
  forall g, ref_count x.1 g = references g x.2 /\ references g x.2 < 2 ^ 31.

(** Every file an owner still holds outlives the step. *)
Definition keeps_held (x y : t D * list (list (list Z))) : Prop :=
  forall g, 0 < references g y.2 -> g ∈ names x.1 -> g ∈ names y.1.

Lemma references_middle g files h1 h2 : references g (h1 ++ files :: h2) = occ g files + references g (h1 ++ h2).
Proof. unfold references. rewrite !concat_app. cbn [concat]. rewrite !occ_app. lia. Qed.

Lemma references_nonneg g held : 0 <= references g held.
Proof. apply occ_nonneg. Qed.

(** Cleaning up: only unreferenced files go. *)
Lemma no_ref_loop_spec files : forall seen l (s : t D), let '(l', s') := no_ref_loop files seen l s in
  ref_counts s' = ref_counts s /\ directory s' = directory s
  /\ forall g, g ∈ l' -> g ∈ l \/ ref_count s g <= 0.
Proof.
  induction files as [|f files IH]; intros seen l s; cbn [no_ref_loop]; [naive_solver|].
  destruct (exists_ s f) eqn:Ef; cbn [negb]; [apply IH|].
  assert (Hf : ref_count s f <= 0).
  { unfold exists_ in Ef. unfold ref_count. destruct (ref_counts s !! f); [|lia]. by apply Z.ltb_ge in Ef. }
  set (s1 := message File (WillDeleteNew f) s).
  assert (Hs1 : ref_counts s1 = ref_counts s /\ directory s1 = directory s) by done. destruct Hs1 as [Hc1 Hd1].
  assert (Hr : forall g, ref_count s1 g = ref_count s g) by (intros g; unfold ref_count; by rewrite Hc1).
  destruct (negb (bool_decide (f ∈ seen))).
  - specialize (IH ({[f]} ∪ seen) (l ++ [f]) s1). destruct (no_ref_loop _ _ _ s1) as [l' s'].
    destruct IH as (-> & -> & Hl). split; [done|]. split; [done|]. intros g [Hg|Hg]%Hl.
    + apply elem_of_app in Hg as [Hg|Hg%list_elem_of_singleton]; [by left|subst; by right].
    + rewrite Hr in Hg. by right.
  - specialize (IH seen l s1). destruct (no_ref_loop _ _ _ s1) as [l' s'].
    destruct IH as (-> & -> & Hl). split; [done|]. split; [done|]. intros g [Hg|Hg]%Hl; [by left|rewrite Hr in Hg; by right].
Qed.

Lemma unrefed_loop_spec l : forall acc (s : t D), let '(_, s') := unrefed_loop l acc s in
  ref_counts s' = ref_counts s /\ directory s' = directory s.
Proof.
  induction l as [|[f rc] l IH]; intros acc s; cbn [unrefed_loop]; [done|].
  destruct (count rc =? 0); [|apply IH]. specialize (IH ({[f]} ∪ acc) (message File (RemovingUnreferenced f) s)).
  by destruct (unrefed_loop _ _ _).
Qed.

Lemma same_counts (s s' : t D) held : ref_counts s' = ref_counts s -> counts_references (s, held) -> counts_references (s', held).
Proof. intros Hc Hi g. unfold ref_count. cbn [fst snd]. rewrite Hc. apply Hi. Qed.

Lemma step_sound x y : step x y -> counts_references x -> counts_references y /\ keeps_held x y.
Proof.
  unfold keeps_held.
  destruct 1 as [files s held Hb|files s h1 h2|f s held|s held|files s held|f s held|d s held Hsub]; intros Hi; cbn [fst snd] in *.
  - destruct (inc_ref_all_spec files s) as [Hd Hc].
    { intros g. destruct (Hi g) as [Hg ?]. cbn [fst snd] in Hg. rewrite Hg. specialize (Hb g). pose proof (references_nonneg g held). lia. }
    split; [|by rewrite Hd]. intros g. cbn [fst snd]. destruct (Hi g) as [Hg ?]. cbn [fst snd] in Hg.
    change (files :: held) with ([] ++ files :: held). rewrite (references_middle g files [] held). cbn [app]. rewrite Hc, Hg. specialize (Hb g). lia.
  - assert (Hb : forall g, 0 <= occ g files <= ref_count s g /\ ref_count s g < 2 ^ 31).
    { intros g. destruct (Hi g) as [Hg ?]. cbn [fst snd] in *. rewrite Hg, references_middle in *.
      pose proof (references_nonneg g (h1 ++ h2)). pose proof (occ_nonneg g files). lia. }
    unfold dec_ref_all.
    pose proof (dec_ref_loop_spec files ∅ [] s Hb ltac:(set_solver) ltac:(intros g Hg; by apply elem_of_nil in Hg) ltac:(constructor)) as Hd.
    destruct (dec_ref_loop files ∅ [] s) as [l s1]. destruct Hd as (Hd1 & Hc1 & _ & Hl).
    pose proof (delete_all_spec windows l s1) as Ha. destruct (delete_all windows l s1) as [r s2]. cbn [snd].
    destruct Ha as (Hc2 & Hlow & _ & _). rewrite Hd1 in Hlow.
    assert (Hr : forall g, ref_count s1 g = references g (h1 ++ h2)).
    { intros g. rewrite Hc1. destruct (Hi g) as [Hg ?]. cbn [fst snd] in Hg. rewrite Hg, references_middle. lia. }
    split.
    + intros g. cbn [fst snd]. unfold ref_count. rewrite Hc2. fold (ref_count s1 g). split; [apply Hr|].
      destruct (Hi g) as [_ Hg]. cbn [snd] in Hg. rewrite references_middle in Hg. pose proof (occ_nonneg g files). lia.
    + intros g Hg Hin. apply Hlow, elem_of_difference. split; [done|]. rewrite elem_of_list_to_set, Hl, elem_of_nil.
      intros [?|[_ Hz]]; [done|]. rewrite Hr in Hz. lia.
  - split; [|done]. intros g. destruct (Hi g) as [Hg ?]. cbn [fst snd] in *. split; [|done]. rewrite <- Hg.
    unfold init_ref_count, ref_count. cbn [ref_counts set_counts]. destruct (decide (g = f)) as [->|Hne].
    + rewrite lookup_insert_eq, count_of_ref. done.
    + by rewrite lookup_insert_ne.
  - pose proof (unrefed_loop_spec (map_to_list (ref_counts s)) ∅ s) as Hu. unfold unrefed_files.
    destruct (unrefed_loop _ _ _) as [u s']. destruct Hu as [Hc Hd]. cbn [snd].
    split; [by eapply same_counts|by rewrite Hd].
  - unfold delete_files_if_no_ref. pose proof (no_ref_loop_spec files ∅ [] s) as Hn.
    destruct (no_ref_loop files ∅ [] s) as [l s1]. destruct Hn as (Hc1 & Hd1 & Hl).
    pose proof (delete_all_spec windows l s1) as Ha. destruct (delete_all windows l s1) as [r s2]. cbn [snd].
    destruct Ha as (Hc2 & Hlow & _ & _). rewrite Hd1 in Hlow. split; [eapply same_counts; [|done]; congruence|].
    intros g Hg Hin. apply Hlow, elem_of_difference. split; [done|]. rewrite elem_of_list_to_set.
    intros [?%elem_of_nil|Hz]%Hl; [done|]. destruct (Hi g) as [Hg' _]. cbn [fst snd] in Hg'. lia.
  - unfold delete_file_if_no_ref. destruct (exists_ s f) eqn:Ef; cbn [negb]; [done|].
    pose proof (delete_file_spec windows f (message File (WillDeleteNew f) s)) as Hd.
    destruct (delete_ windows f _) as [r s']. destruct Hd as [Hc Hn]. cbn [snd]. split; [eapply same_counts; [|done]; done|].
    intros g Hg Hin. rewrite Hn. destruct r; [|done]. apply elem_of_difference. split; [done|].
    rewrite elem_of_singleton. intros ->. destruct (Hi f) as [Hf _]. cbn [fst snd] in Hf.
    unfold exists_ in Ef. unfold ref_count in Hf. destruct (ref_counts s !! f); [apply Z.ltb_ge in Ef|]; lia.
  - split; [by eapply same_counts|]. intros g _ Hin. by apply Hsub.
Qed.

(** C37: a file somebody holds is never deleted.  However owners interleave
    taking and dropping references, with others creating files and cleaning
    new ones up, and whatever deletions fail, the count of every file is the
    number of references held on it, and no step of any run removes from the
    directory a file that is still held after it. *)
Theorem held_files_survive (d : D) (messenger : bool) (x y : t D * list (list name)) :
  steps (new d messenger, []) x -> step x y ->
  (forall g, ref_count x.1 g = references g x.2)
  /\ forall g, 0 < references g y.2 -> g ∈ directory_names (directory x.1) -> g ∈ directory_names (directory y.1).
Proof.
  intros Hx Hy. assert (Hi : counts_references x).
  { assert (H0' : counts_references (new d messenger, [])).
    { intros g. unfold ref_count, references. cbn. rewrite lookup_empty. done. }
    revert H0'. induction Hx as [|a b c Hab _ IH]; intros H0'; [done|]. apply (IH Hy), (step_sound a b Hab H0'). }
  split; [apply Hi|]. by apply (step_sound x y Hy Hi).
Qed.
End owners.

(** Two owners of [_0.cfs]; the first lets go. *)
Lemma held_files_survive_witness :
  let d0 := (ByteBuffersDirectory.create_output (bytes "_0.cfs") ByteBuffersDirectory.new).2 in
  let s0 := new d0 true in
  let f := bytes "_0.cfs" in
  let x := (inc_ref_all [f] (inc_ref_all [f] s0), [[f]; [f]]) in
  let y := ((dec_ref_all false [f] x.1).2, [[f]]) in
  steps false (s0, []) x /\ step false x y
  /\ forall g, 0 < references g y.2 -> g ∈ directory_names (directory x.1) -> g ∈ directory_names (directory y.1).
Proof.
  intros d0 s0 f x y.
  assert (Hx : steps false (s0, []) x).
  { eapply rtc_l; [apply (step_acquire false [f] s0 [])|apply rtc_once; apply (step_acquire false [f] (inc_ref_all [f] s0) [[f]])];
      intros g; unfold references; cbn [concat app occ]; destruct (decide (g = f)); lia. }
  assert (Hy : step false x y) by apply (step_release false [f] x.1 [] [[f]]).
  split; [exact Hx|]. split; [exact Hy|]. exact (proj2 (held_files_survive false d0 true x y Hx Hy)).
Defined.

(** A commit file that cannot be deleted stops the rest: nothing else is tried. *)
Lemma failed_commit_deletion_stops {D : Type} `{DirectoryLaws D} (windows : bool) (l : list name) (s : t D) e s1 :
  delete_loop windows (List.filter is_segments l) None (message File (NowDelete l) s) = (Some e, s1) ->
  delete_all windows l s = (Err e, s1).
Proof. unfold delete_all. by intros ->. Qed.

End FileDeleter.
