(* ===== verification/IndexDirectory.v ===== *)
(** * What commits ask of a directory ([lucene-store/src/directory.rs])

    The methods of the [Directory] trait that writing and deleting commits
    use, as an interface: a directory is a state with a view (its names, and
    the bytes of the closed ones) and a law per method.  Every method may
    fail; the laws say what a failure may leave behind, so a theorem over any
    lawful directory also covers a process that stops after any of its calls.
    The in-memory directory implements it. *)
From stdpp Require Import gmap strings.
From S2P Require Import Prelude StoreError SegmentNames ByteBuffersDirectory.

Class IndexDirectory (D O : Type) : Type := {
  directory_list_all : M Error D (list (list Z));
  directory_open : name -> M Error D (list byte);
  directory_create_output : name -> M Error D O;
  (** [write_bytes] of the whole file, then [close]. *)
  directory_close_output : O -> list byte -> M Error D unit;
  directory_sync : list (list Z) -> M Error D unit;
  directory_rename : name -> name -> M Error D unit;
  directory_delete : name -> M Error D unit;
  directory_sync_meta_data : M Error D unit;
}.

(** Two views that differ at most on one name. *)
Definition same_but (n : name) (v v' : gmap (list Z) (option (list byte))) : Prop := forall m, m <> n -> v' !! m = v !! m.

Class IndexDirectoryLaws (D O : Type) `{IndexDirectory D O} : Type := {
  directory_view : D -> gmap (list Z) (option (list byte));
  directory_wf : D -> Prop;
  directory_output : D -> O -> name -> Prop;
  law_list_all d r d' : directory_wf d -> directory_list_all (O := O) d = (r, d') ->
    directory_wf d' /\ directory_view d' = directory_view d /\
    match r with Ok l => forall n, n ∈ l <-> is_Some (directory_view d !! n) | Err _ => True end;
  law_open n d r d' : directory_wf d -> directory_open (O := O) n d = (r, d') ->
    directory_wf d' /\ directory_view d' = directory_view d /\
    match r with Ok b => directory_view d !! n = Some (Some b) | Err _ => True end;
  law_create n d r d' : directory_wf d -> directory_create_output (O := O) n d = (r, d') ->
    directory_wf d' /\ match r with
                       | Ok o => directory_view d' = <[n := None]> (directory_view d) /\ directory_output d' o n
                       | Err _ => same_but n (directory_view d) (directory_view d')
                       end;
  law_close n o b d r d' : directory_wf d -> directory_output d o n -> directory_close_output o b d = (r, d') ->
    directory_wf d' /\ match r with
                       | Ok _ => directory_view d' = <[n := Some b]> (directory_view d)
                       | Err _ => same_but n (directory_view d) (directory_view d')
                       end;
  law_sync l d r d' : directory_wf d -> directory_sync (O := O) l d = (r, d') ->
    directory_wf d' /\ directory_view d' = directory_view d;
  law_sync_meta d r d' : directory_wf d -> directory_sync_meta_data (O := O) d = (r, d') ->
    directory_wf d' /\ directory_view d' = directory_view d;
  law_rename a b d r d' : directory_wf d -> directory_rename (O := O) a b d = (r, d') ->
    directory_wf d' /\ match r with
                       | Ok _ => exists c, directory_view d !! a = Some c /\
                           directory_view d' = <[b := c]> (delete a (directory_view d))
                       | Err _ => directory_view d' = directory_view d
                       end;
  (** A deletion that fails may have removed the file. *)
  law_delete n d r d' : directory_wf d -> directory_delete (O := O) n d = (r, d') ->
    directory_wf d' /\ match r with
                       | Ok _ => directory_view d' = delete n (directory_view d)
                       | Err _ => directory_view d' = directory_view d \/ directory_view d' = delete n (directory_view d)
                       end;
}.

(** ** The in-memory directory. *)
#[global] Instance byte_buffers_index_directory : IndexDirectory ByteBuffersDirectory.t ByteBuffersDirectory.output := {|
  directory_list_all := ByteBuffersDirectory.list_all;
  directory_open := ByteBuffersDirectory.open;
  directory_create_output := ByteBuffersDirectory.create_output;
  directory_close_output o b d := (Ok tt, ByteBuffersDirectory.publish o b d);
  directory_sync := ByteBuffersDirectory.sync;
  directory_rename := ByteBuffersDirectory.rename;
  directory_delete := ByteBuffersDirectory.delete_file;
  directory_sync_meta_data := ByteBuffersDirectory.sync_meta_data;
|}.

Lemma view_insert_publish (d : ByteBuffersDirectory.t) o b n : ByteBuffersDirectory.inv d ->
  ByteBuffersDirectory.files d !! n = Some (ByteBuffersDirectory.entry o) ->
  ByteBuffersDirectory.view (ByteBuffersDirectory.publish o b d) = <[n := Some b]> (ByteBuffersDirectory.view d).
Proof.
  intros Hi Ho. apply map_eq. intros m.
  assert (Hlt : (ByteBuffersDirectory.entry o < ByteBuffersDirectory.next_entry d)%nat) by (by eapply (proj1 (proj2 Hi))).
  rewrite (proj2 (ByteBuffersDirectory.publish_spec o b d Hi Hlt)). destruct (decide (m = n)) as [->|Hne].
  - by rewrite decide_True, lookup_insert_eq.
  - rewrite lookup_insert_ne by done. rewrite decide_False; [done|]. intros Hm. apply Hne. by eapply (proj1 Hi).
Qed.

#[global] Instance byte_buffers_index_directory_laws :
  IndexDirectoryLaws ByteBuffersDirectory.t ByteBuffersDirectory.output.
Proof.
  apply (Build_IndexDirectoryLaws _ _ _ ByteBuffersDirectory.view ByteBuffersDirectory.inv
    (fun d o n => ByteBuffersDirectory.files d !! n = Some (ByteBuffersDirectory.entry o))).
  - intros d r d' Hi E. destruct (ByteBuffersDirectory.list_all_spec d) as (l & El & _ & _ & Hl). cbn in E. rewrite El in E.
    by injection E as <- <-.
  - intros n d r d' Hi E. cbn in E. unfold ByteBuffersDirectory.open in E. 
    destruct (ByteBuffersDirectory.files d !! n) as [e|] eqn:En; [|by injection E as <- <-].
    destruct (ByteBuffersDirectory.entries d !! e) as [[b|]|] eqn:Ee; injection E as <- <-; [|done..].
    split; [done|]. split; [done|]. rewrite ByteBuffersDirectory.view_lookup, En. cbn. by rewrite Ee.
  - intros n d r d' Hi E. cbn in E. unfold ByteBuffersDirectory.create_output in E.
    destruct (ByteBuffersDirectory.file_exists d n); [by injection E as <- <-|].
    destruct (ByteBuffersDirectory.output_for n d) as [o d1] eqn:Eo. injection E as <- <-.
    destruct (ByteBuffersDirectory.output_for_spec n d o d1 Hi Eo) as (Hi' & Hv & Ho & _). split; [done|]. split; [done|].
    injection Eo as <- <-. cbn. by rewrite lookup_insert_eq.
  - intros n o b d r d' Hi Ho E. cbn in E. injection E as <- <-.
    assert (Hlt : (ByteBuffersDirectory.entry o < ByteBuffersDirectory.next_entry d)%nat) by (by eapply (proj1 (proj2 Hi))).
    split; [by apply ByteBuffersDirectory.publish_spec|]. by apply view_insert_publish.
  - intros l d r d' Hi [= <- <-]. done.
  - intros d r d' Hi [= <- <-]. done.
  - intros a b d r d' Hi E. cbn in E. unfold ByteBuffersDirectory.rename in E.
    destruct (ByteBuffersDirectory.file_exists d a) eqn:Ea; cbn [negb] in E; [|by injection E as <- <-].
    destruct (ByteBuffersDirectory.file_exists d b) eqn:Eb; [by injection E as <- <-|].
    unfold ByteBuffersDirectory.file_exists in *. apply bool_decide_eq_true in Ea as [e Ea].
    apply bool_decide_eq_false in Eb. rewrite Ea in E. injection E as <- <-.
    destruct (ByteBuffersDirectory.rename_spec a b e d Hi Ea) as [H1 H2]; [by apply eq_None_not_Some|].
    split; [done|]. eexists. split; [|exact H2]. rewrite ByteBuffersDirectory.view_lookup, Ea. done.
  - intros n d r d' Hi E. cbn in E. unfold ByteBuffersDirectory.delete_file in E.
    destruct (ByteBuffersDirectory.files d !! n); injection E as <- <-; [|by split; [|left]].
    by apply ByteBuffersDirectory.delete_spec.
Defined.
