(* ===== verification/SegmentFile.v ===== *)
(** * Whole files: a header, a body, a footer

    The files of a segment and of a commit are read in one piece: a reader of
    the body, an error type that wraps the store's, then the checksummed
    footer.  The file has what their models share: [?] on a store result, the
    bytes of collections, readers that never touch the buffer, and
    [reads_whole_file]: a body written with its footer is read back. *)
From stdpp Require Import strings.
From S2P Require Import Prelude StoreError ZigZag DataOutput DataInput SliceInput Wire CodecUtil SegmentNames.

(** [?] on a [lucene_store::Result] in a function of another error type:
    [From] wraps the error. *)
Definition from_store {E A} (wrap : StoreError.Error -> E) (m : M StoreError.Error SliceInput.t A) : M E SliceInput.t A := fun s =>
  match m s with
  | (Ok a, s) => (Ok a, s)
  | (Err e, s) => (Err (wrap e), s)
  end.
Definition from_result {E S A} (r : result E A) : M E S A := fun s => (r, s).

(** ** Bytes. *)
Definition strings_bytes (l : list (list byte)) : list byte := count_bytes (zlen l) ++ concat (map string_bytes l).

Lemma write_fold_bytes {A} (f : list byte -> A -> list byte) (enc : A -> list byte) (l : list A) :
  (forall out a, f out a = out ++ enc a) -> forall out, fold_left f l out = out ++ concat (map enc l).
Proof.
  intros Hf. induction l as [|a l IH]; intros out; cbn [fold_left map concat]; [by rewrite app_nil_r|].
  by rewrite IH, Hf, <- app_assoc.
Qed.

Lemma write_set_bytes l out : write_set_of_strings l out = out ++ strings_bytes l.
Proof. exact (writes_set_of_strings (W := list byte) l out). Qed.

Lemma write_pairs_bytes l (out : list byte) :
  write_map_of_strings l out = out ++ (count_bytes (zlen l) ++ concat (map pair_bytes l)).
Proof. exact (writes_map_of_strings (W := list byte) l out). Qed.

Definition count_ok (n : Z) : Prop := 0 <= n < 2 ^ 31.
Definition strings_ok (l : list (list byte)) : Prop := Forall string_ok l /\ count_ok (zlen l).
Definition pairs_ok (l : list (list byte * list byte)) : Prop :=
  Forall (fun kv => string_ok kv.1 /\ string_ok kv.2) l /\ zlen l < 2 ^ 31.

Lemma count_in_s v : count_ok v -> in_s 32 v.
Proof. unfold count_ok, in_s. change (32 - 1) with 31. lia. Qed.

Lemma suffix_length g : zlen (to_base36 g) < 256.
Proof.
  assert (Hl : forall k n, (length (base36_loop k n) <= k)%nat).
  { induction k as [|k IH]; intros n; cbn [base36_loop]; [cbn; lia|]. destruct (0 <? n); cbn [length]; [specialize (IH (n / 36)); lia|lia]. }
  unfold to_base36. destruct (g =? 0); [done|]. specialize (Hl 13%nat (Z.abs g)). unfold zlen. rewrite length_reverse.
  destruct (g <? 0); rewrite ?length_app; cbn [length]; change (length (bytes "-")) with 1%nat; lia.
Qed.

(** ** Reading. *)
Section reading.
Context {E : Type} {wrap : StoreError.Error -> E}.
Notation S := SliceInput.t.

Lemma reads_store {A} (m : M StoreError.Error S A) xs a : reads m xs a -> reads (from_store wrap m) xs a.
Proof.
  intros Hm r bs Hw Hv. destruct (Hm r bs Hw Hv) as (r' & E1 & H). exists r'. unfold from_store. by rewrite E1.
Qed.

Lemma reads_result {A} (m : M E S A) {B} (c : A -> result E B) xs a b :
  reads m xs a -> c a = Ok b -> reads (let* x := m in from_result (c x)) xs b.
Proof. intros Hm Hc. eapply reads_bind_last; [exact Hm|]. intros r bs Hw Hv. exists r. unfold from_result. by rewrite Hc. Qed.

Lemma reads_strings l : strings_ok l -> reads (R := S) read_set_of_strings (strings_bytes l) l.
Proof. intros [H1 [_ H2]]. by apply reads_set_of_strings. Qed.

Lemma reads_skip xs : reads (R := S) (skip (zlen xs)) xs tt.
Proof. intros s bs Hi Hv. by apply law_skip. Qed.

(** [reads_get] for [input.remaining()]. *)
Lemma reads_remaining {A} (k : S -> M E S A) xs a :
  (forall r0, zlen xs <= SliceInput.slice_remaining r0 -> reads (k r0) xs a) -> reads (let* r := get_state in k r) xs a.
Proof. exact (reads_get (R := S) k xs a). Qed.
End reading.

(** ** Reading never touches the buffer. *)
Section keeping.
Context (b : list byte).
Notation at_b := (fun s => SliceInput.buf s = b).
Notation keeps m := (preserves at_b m).

Lemma keeps_read_byte : keeps (read_byte (R := SliceInput.t)).
Proof. intros s Hs. cbn. unfold SliceInput.slice_read_byte. by destruct (zget _ _). Qed.
Lemma keeps_read_bytes n : keeps (read_bytes (R := SliceInput.t) n).
Proof. intros s Hs. cbn. unfold SliceInput.slice_read_bytes. destruct (checked_add _ _); [|done]. by destruct (zslice _ _ _). Qed.
Lemma keeps_take_bytes n : keeps (SliceInput.take_bytes n).
Proof. intros s Hs. unfold SliceInput.take_bytes. by destruct (zslice _ _ _). Qed.
Lemma keeps_seek n : keeps (SliceInput.seek n).
Proof. intros s Hs. unfold SliceInput.seek. by destruct (_ <? _). Qed.
Lemma keeps_lift {A} (f : SliceInput.t -> result StoreError.Error A) : keeps (lift f).
Proof. intros s Hs. done. Qed.

Lemma keeps_varint_loop stop w fuel : forall v x shift, keeps (varint_loop (R := SliceInput.t) stop w fuel v x shift).
Proof.
  induction fuel as [|fuel IH]; intros v x shift; cbn [varint_loop]; repeat apply preserves_if; auto with lucene.
  apply preserves_bind; [apply keeps_read_byte|]. intros. apply IH.
Qed.
Lemma keeps_fast_varint shl width k slow : keeps slow -> keeps (SliceInput.fast_varint shl width k slow).
Proof.
  intros Hslow s Hs. unfold SliceInput.fast_varint. destruct (zslice _ _ _); [|by apply Hslow].
  destruct (SliceInput.window_loop _ _ _ _) as [[v n]|]; [done|by apply Hslow].
Qed.
Lemma keeps_vint : keeps (read_vint (R := SliceInput.t)).
Proof. apply keeps_fast_varint, preserves_bind; [apply keeps_read_byte|]. intros. apply keeps_varint_loop. Qed.
Lemma keeps_vlong : keeps (read_vlong (R := SliceInput.t)).
Proof. apply keeps_fast_varint, preserves_bind; [apply keeps_read_byte|]. intros. apply keeps_varint_loop. Qed.

Ltac keeps := repeat first
  [ apply preserves_ret | apply preserves_fail | apply preserves_get | apply preserves_if
  | apply keeps_read_byte | apply keeps_read_bytes | apply keeps_take_bytes | apply keeps_seek | apply keeps_lift
  | apply keeps_vint | apply keeps_vlong | apply preserves_repeatM
  | apply preserves_bind; [|intros] ].

Lemma keeps_length : keeps (read_length (R := SliceInput.t)).
Proof. unfold read_length, read_length_with. keeps. Qed.
Lemma keeps_string : keeps (read_string (R := SliceInput.t)).
Proof.
  cbn. unfold SliceInput.slice_read_string. apply preserves_bind; [apply keeps_length|]. intros n. keeps.
Qed.
Lemma keeps_set : keeps (read_set_of_strings (R := SliceInput.t)).
Proof. apply preserves_bind; [apply keeps_length|]. intros n. apply preserves_repeatM, keeps_string. Qed.
Lemma keeps_map : keeps (read_map_of_strings (R := SliceInput.t)).
Proof.
  apply preserves_bind; [apply keeps_length|]. intros n. apply preserves_repeatM, preserves_bind; [apply keeps_string|].
  intros k. apply preserves_bind; [apply keeps_string|]. intros. apply preserves_ret.
Qed.
Lemma keeps_be_u32 : keeps (read_be_u32 (R := SliceInput.t)).
Proof. unfold read_be_u32. keeps. Qed.
Lemma keeps_be_u64 : keeps (read_be_u64 (R := SliceInput.t)).
Proof. unfold read_be_u64, read_be_u32. keeps. Qed.
Lemma keeps_be_i32 : keeps (read_be_i32 (R := SliceInput.t)).
Proof. unfold read_be_i32, read_be_u32. keeps. Qed.
Lemma keeps_string_bytes : keeps read_string_bytes.
Proof. unfold read_string_bytes. apply preserves_bind; [apply keeps_length|]. intros n. keeps. Qed.
Lemma keeps_header codec lo hi : keeps (check_header codec lo hi).
Proof.
  unfold check_header, check_header_no_magic, corrupt. apply preserves_bind; [apply keeps_be_u32|]. intros m.
  apply preserves_if; [keeps|]. apply preserves_bind; [apply keeps_string_bytes|]. intros c.
  apply preserves_if; [keeps|]. apply preserves_bind; [apply keeps_be_u32|]. intros v. keeps.
Qed.
Lemma keeps_id id : keeps (check_index_header_id id).
Proof. unfold check_index_header_id, corrupt. keeps. Qed.
Lemma keeps_suffix suffix : keeps (check_index_header_suffix suffix).
Proof. unfold check_index_header_suffix, corrupt. keeps. Qed.

Lemma keeps_index_header codec lo hi id suffix : keeps (check_index_header codec lo hi id suffix).
Proof.
  unfold check_index_header. repeat first [apply keeps_header | apply keeps_id | apply keeps_suffix | progress keeps].
Qed.
Lemma keeps_i32 : keeps (read_i32 (R := SliceInput.t)).
Proof. cbn. unfold SliceInput.slice_read_i32, SliceInput.slice_read_u32_le. keeps. Qed.
Lemma keeps_i64 : keeps (read_i64 (R := SliceInput.t)).
Proof. cbn. unfold SliceInput.slice_read_i64. keeps. Qed.
Lemma keeps_i64s n : keeps (read_i64s (R := SliceInput.t) n).
Proof.
  intros s Hs. cbn. unfold SliceInput.slice_read_i64s, SliceInput.slice_read_words.
  destruct (checked_add _ _); [|done]. by destruct (zslice _ _ _).
Qed.

Lemma keeps_store {E A} (wrap : StoreError.Error -> E) (m : M StoreError.Error SliceInput.t A) : keeps m -> keeps (from_store wrap m).
Proof. intros Hm s Hs. unfold from_store. specialize (Hm s Hs). by destruct (m s) as [[a|e] s']. Qed.
Lemma keeps_check {E A} (r : result E A) : keeps (from_result r).
Proof. by intros s Hs. Qed.
End keeping.

Ltac keeps := repeat first
  [ apply preserves_ret | apply preserves_fail | apply preserves_get | apply preserves_if | apply keeps_check | apply keeps_store
  | apply keeps_read_byte | apply keeps_string | apply keeps_read_bytes | apply keeps_set | apply keeps_map
  | apply keeps_be_i32 | apply keeps_be_u32 | apply keeps_be_u64 | apply keeps_i32 | apply keeps_i64 | apply keeps_i64s
  | apply keeps_vint | apply keeps_vlong | apply keeps_index_header | apply keeps_header | apply keeps_id | apply keeps_suffix
  | apply preserves_repeatM | apply preserves_bind; [|intros] ].

(** ** A whole file. *)
Section whole.
Context {E : Type} (wrap : StoreError.Error -> E) (crc : list byte -> Z).
Hypothesis crc_range : forall l, in_u 32 (crc l).

(** Where a reader of the body leaves the cursor. *)
Lemma reads_to_the_footer {A} (m : M E SliceInput.t A) body tail a :
  reads m body a -> (forall b, preserves (fun s => SliceInput.buf s = b) m) ->
  bytes_ok (body ++ tail) -> zlen (body ++ tail) < 2 ^ 63 ->
  m (SliceInput.new (body ++ tail)) = (Ok a, SliceInput.mk (body ++ tail) (zlen body)).
Proof.
  intros Hm Hk Hok Hl. set (file := body ++ tail) in *.
  assert (Hi : SliceInput.inv (SliceInput.new file)) by by apply new_input_inv.
  destruct (Hm (SliceInput.new file) tail Hi) as (s1 & E1 & Hi1 & Hv1); [apply new_view|]. rewrite E1. f_equal.
  pose proof (Hk file (SliceInput.new file) eq_refl) as Hb. rewrite E1 in Hb. cbn [snd] in Hb.
  destruct s1 as [bf ps]. cbn in Hb. subst bf. f_equal. destruct Hi1 as [[H0 Hle] _]. unfold SliceInput.len in Hle. cbn in H0, Hle.
  assert (Hd : drop (Z.to_nat ps) file = tail) by exact Hv1. apply (f_equal zlen) in Hd.
  assert (Hfl : zlen file = zlen body + zlen tail) by apply zlen_app. unfold zlen in *. rewrite length_drop in Hd. lia.
Qed.

(** A body written with its footer is read back, whatever is done next. *)
Lemma reads_whole_file {A B} (m : M E SliceInput.t A) (k : A -> M E SliceInput.t B) body a :
  reads m body a -> (forall b, preserves (fun s => SliceInput.buf s = b) m) ->
  bytes_ok (write_footer crc body) -> zlen (write_footer crc body) < 2 ^ 63 ->
  exists s, (let* x := m in let* _ := from_store wrap (check_footer crc (zlen (write_footer crc body))) in k x)
    (SliceInput.new (write_footer crc body)) = k a s.
Proof.
  intros Hm Hk. rewrite write_footer_bytes. set (c := crc (body ++ footer_head FOOTER_MAGIC 0)).
  set (tail := footer_head FOOTER_MAGIC 0 ++ to_be 8 c). intros Hok Hl.
  rewrite (bind_Ok _ _ _ _ _ (reads_to_the_footer m body tail a Hm Hk Hok Hl)).
  assert (Hc : in_u 64 c) by (apply (in_u_weaken 32); [lia|apply crc_range]).
  pose proof (check_footer_verdict crc body FOOTER_MAGIC 0 c footer_magic_ok ltac:(split; lia) Hc) as Hv.
  cbn beta zeta in Hv. specialize (Hv Hok Hl).
  rewrite (proj2 (footer_verdict_Ok crc crc_range body FOOTER_MAGIC 0 c c Hc)) in Hv by done.
  fold tail in Hv. unfold from_store, bind. destruct (check_footer crc _ _) as [r s2]. cbn [fst] in Hv. rewrite Hv. by exists s2.
Qed.
End whole.

(** ** What a reader lets through. *)
Definition returns {E S A} (m : M E S A) (Q : A -> Prop) : Prop := forall s a s', m s = (Ok a, s') -> Q a.

Lemma returns_bind {E S A B} (m : M E S A) (k : A -> M E S B) (P : A -> Prop) (Q : B -> Prop) :
  returns m P -> (forall a, P a -> returns (k a) Q) -> returns (bind m k) Q.
Proof. intros Hm Hk s b s' (a & s1 & E1 & E2)%bind_Ok_inv. eapply Hk; [by eapply Hm|exact E2]. Qed.

Lemma returns_any {E S A} (m : M E S A) : returns m (fun _ => True).
Proof. done. Qed.

Lemma returns_repeat {E S A} n (m : M E S A) (P : A -> Prop) : returns m P ->
  returns (repeatM n m) (fun l => Forall P l /\ length l = n).
Proof.
  intros Hm. induction n as [|n IH]; cbn [repeatM]; [by intros s l s' [= <- <-]|].
  apply (returns_bind _ _ P); [done|]. intros a Ha. apply (returns_bind _ _ _ _ IH). intros l [Hl Hn] s k s' [= <- <-].
  cbn [length]. auto.
Qed.

(** The values primitives return. *)
Lemma in_s_shiftr w a : 0 < w -> in_s w a <-> Z.shiftr a (w - 1) = 0 \/ Z.shiftr a (w - 1) = -1.
Proof.
  intros Hw. assert (Hp : 0 < 2 ^ (w - 1)) by (apply Z.pow_pos_nonneg; lia). unfold in_s. rewrite Z.shiftr_div_pow2 by lia.
  pose proof (Z.div_mod a (2 ^ (w - 1)) ltac:(lia)). pose proof (Z.mod_pos_bound a (2 ^ (w - 1)) Hp). split; intros; nia.
Qed.

Lemma in_s_lor w a b : 0 < w -> in_s w a -> in_s w b -> in_s w (Z.lor a b).
Proof.
  intros Hw. rewrite !in_s_shiftr by done. rewrite Z.shiftr_lor.
  intros [-> | ->] [-> | ->]; rewrite ?Z.lor_0_l, ?Z.lor_m1_l, ?Z.lor_m1_r; auto.
Qed.

Lemma shls_in_s w x n : 0 < w -> in_s w (shls w x n).
Proof. intros Hw. by apply wraps_range. Qed.

Section values.
Notation returns := (returns (E := StoreError.Error) (S := SliceInput.t)).

Lemma window_loop_in_s w b : 0 < w -> forall v i, in_s w v -> forall x n,
  SliceInput.window_loop (shls w) b v i = Some (x, n) -> in_s w x.
Proof.
  intros Hw. induction b as [|y b IH]; intros v i Hv x n; cbn [SliceInput.window_loop]; [done|]. cbv zeta.
  assert (Hn : in_s w (Z.lor v (shls w (Z.land y 127) (7 * i)))) by (apply in_s_lor; [done..|by apply shls_in_s]).
  destruct (_ <? _); [by intros [= <- _]|]. by apply IH.
Qed.

Lemma varint_loop_in_s stop w fuel : 0 < w -> forall v b shift, in_s w v ->
  returns (varint_loop (R := SliceInput.t) stop w fuel b v shift) (in_s w).
Proof.
  intros Hw. induction fuel as [|fuel IH]; intros v b shift Hv; cbn [varint_loop];
    (destruct (_ =? 0); [by intros s a s' [= <- _]|]); (destruct (stop shift); [done|]); [done|].
  apply (returns_bind _ _ _ _ (returns_any _)). intros y _. apply IH. apply in_s_lor; [done..|by apply shls_in_s].
Qed.

Lemma returns_vint : returns read_vint (in_s 32).
Proof.
  intros s a s'. cbn. unfold SliceInput.slice_read_vint, SliceInput.fast_varint.
  assert (Hslow : returns (read_vint_loop (R := SliceInput.t)) (in_s 32)).
  { unfold read_vint_loop. apply (returns_bind _ _ _ _ (returns_any _)). intros b _. apply varint_loop_in_s; [lia|].
    change 127 with (Z.ones 7). rewrite Z.land_ones by lia. pose proof (Z.mod_pos_bound b (2 ^ 7) ltac:(lia)).
    unfold in_s. change (2 ^ (32 - 1)) with 2147483648. lia. }
  destruct (zslice _ _ _) as [b|]; [|apply Hslow].
  destruct (SliceInput.window_loop _ _ _ _) as [[v n]|] eqn:Ew; [|apply Hslow]. intros [= <- _].
  eapply (window_loop_in_s 32); [lia| |exact Ew]. unfold in_s. lia.
Qed.

Lemma returns_length : returns (read_length (R := SliceInput.t)) count_ok.
Proof.
  unfold read_length, read_length_with. apply (returns_bind _ _ _ _ returns_vint). intros n Hn.
  destruct (Z.ltb_spec n 0); [done|]. apply (returns_bind _ _ _ _ (returns_any _)). intros r _.
  destruct (_ <? _); [done|]. intros s a s' [= <- _]. unfold in_s in Hn. unfold count_ok. change (2 ^ (32 - 1)) with (2 ^ 31) in Hn. lia.
Qed.

Lemma returns_i32 : returns read_i32 (in_s 32).
Proof. apply (returns_bind _ _ _ _ (returns_any _)). intros v _ s a s' [= <- _]. apply wraps_range; lia. Qed.
Lemma returns_i64 : returns read_i64 (in_s 64).
Proof. apply (returns_bind _ _ _ _ (returns_any _)). intros v _ s a s' [= <- _]. apply wraps_range; lia. Qed.

Lemma returns_i64s n : returns (read_i64s n) (fun l => length l = n /\ Forall (in_s 64) l).
Proof.
  intros s l s'. cbn. unfold SliceInput.slice_read_i64s, SliceInput.slice_read_words.
  destruct (checked_add _ _); [|done]. destruct (zslice _ _ _) as [src|]; [|done]. intros [= <- _]. revert src.
  induction n as [|n IH]; intros src; cbn [SliceInput.chunks_exact]; [done|]. destruct (IH (drop 8 src)) as [H1 H2].
  split; [cbn [length]; by rewrite H1|]. constructor; [by apply wraps_range|done].
Qed.

Lemma returns_string : returns read_string string_ok.
Proof.
  cbn. unfold SliceInput.slice_read_string. apply (returns_bind _ _ _ _ returns_length). intros n Hn.
  apply (returns_bind _ _ (fun b => zlen b = n)).
  - intros s b s'. unfold SliceInput.take_bytes. destruct (zslice _ _ _) as [l|] eqn:E; [|done]. intros [= <- _].
    apply zslice_Some in E as (x & y & _ & H1 & H2). lia.
  - intros b Hb s a s'. unfold from_utf8. destruct (utf8_valid b) eqn:Hu; [|done]. intros [= <- _]. split; [done|].
    unfold count_ok in Hn. lia.
Qed.

Lemma returns_counted {A} (m : M StoreError.Error SliceInput.t A) P : returns m P ->
  returns (let* count := read_length in repeatM (Z.to_nat count) m) (fun l => Forall P l /\ count_ok (zlen l)).
Proof.
  intros Hm. apply (returns_bind _ _ _ _ returns_length). intros n Hn s l s' E. apply (returns_repeat _ _ _ Hm) in E as [H1 H2].
  split; [done|]. unfold zlen. rewrite H2. unfold count_ok in *. lia.
Qed.
Lemma returns_set : returns read_set_of_strings strings_ok.
Proof. apply (returns_counted _ _ returns_string). Qed.
Lemma returns_map : returns read_map_of_strings pairs_ok.
Proof.
  intros s l s' E. eapply (returns_counted _ (fun kv => string_ok kv.1 /\ string_ok kv.2)) in E as [H1 [_ H2]]; [by split|].
  apply (returns_bind _ _ _ _ returns_string). intros k Hk. apply (returns_bind _ _ _ _ returns_string).
  intros v Hv s0 a s1 [= <- _]. done.
Qed.
End values.

Lemma returns_store {E A} (wrap : StoreError.Error -> E) (m : M StoreError.Error SliceInput.t A) P :
  returns m P -> returns (from_store wrap m) P.
Proof. intros Hm s a s' E'. unfold from_store in E'. destruct (m s) as [[x|e] s1] eqn:E1; [|done]. injection E' as <- _. by eapply Hm. Qed.

Lemma returns_ret {E S A} (a : A) (Q : A -> Prop) : Q a -> returns (E := E) (S := S) (ret a) Q.
Proof. intros HQ s x s' [= <- _]. done. Qed.
Lemma returns_fail {E S A} (e : E) (Q : A -> Prop) : returns (S := S) (fail e) Q.
Proof. done. Qed.
