(* ===== verification/LiveDocsFormat.v ===== *)
(** * The live-documents file ([lucene-codecs/src/live_docs.rs])

    A [.liv] file is the header, the bit set's words and the footer.  [parse]
    checks the ghost bits and the number of deletions; [write] writes a dense
    set, [write_bits] anything that is [Bits], 1024 documents at a time.
    Proved: [parse] reads what [write] writes and lets through only sound
    sets; and [write_bits] is [write] on every implementation of the
    interface. *)
From stdpp Require Import strings.
From S2P Require Import Prelude StoreError ZigZag DataOutput DataInput SliceInput Wire CodecUtil SegmentNames SegmentFile.
From S2P Require Import BitWords FixedBitSet FixedBitSetSpec FixedBitSetAlgebra FixedBitSetRange SparseFixedBitSet SparseFixedBitSetSpec Bits.

Module LiveDocsFormat.
Import FixedBitSet.

Definition CODEC_NAME : list byte := bytes "Lucene90LiveDocs".
Definition VERSION_START : Z := 0.
Definition VERSION_CURRENT : Z := 0.

Inductive Error : Type :=
| Store (e : StoreError.Error)
| DelCountMismatch (actual expected : Z)
| GhostBitsSet (max_doc : Z).

(** An error, or a panic: [None]. *)
Notation P := (M (option Error) SliceInput.t).
Notation store := (from_store (fun e => Some (Store e))).
Definition fail_with {A} (e : Error) : P A := fail (Some e).
Definition no_panic {A} (o : option A) : P A := match o with Some a => ret a | None => fail None end.

Definition ghost_bits_set (words : list Z) (max_doc : Z) : bool :=
  match zget words (zlen words - 1) with
  | Some word =>
      let bits_in_last_word := max_doc mod 64 in
      negb (bits_in_last_word =? 0) && negb (Z.shiftr (wrapu 64 word) bits_in_last_word =? 0)
  | None => false
  end.

(** From the header to the set. *)
Definition read_bits (segment_id : list byte) (del_gen max_doc : Z) : P FixedBitSet.t :=
  let* _ := store (check_index_header CODEC_NAME VERSION_START VERSION_CURRENT segment_id (to_base36 del_gen)) in
  let* words := store (read_i64s (R := SliceInput.t) (Z.to_nat (bits2words max_doc))) in
  if ghost_bits_set words max_doc then fail_with (GhostBitsSet max_doc)
  else no_panic (from_words (map (wrapu 64) words) max_doc).

Section format.
Context (crc : list byte -> Z).

Definition parse (buf segment_id : list byte) (del_gen max_doc expected_del_count : Z) : result (option Error) FixedBitSet.t :=
  ((let* live_docs := read_bits segment_id del_gen max_doc in
    let* _ := store (check_footer crc (zlen buf)) in
    let actual_del_count := max_doc - cardinality live_docs in
    if negb (actual_del_count =? expected_del_count) then fail_with (DelCountMismatch actual_del_count expected_del_count)
    else ret live_docs) (SliceInput.new buf)).1.

Definition write (live_docs : FixedBitSet.t) (segment_id : list byte) (del_gen expected_del_count : Z) : result (option Error) (list byte) :=
  match write_index_header CODEC_NAME VERSION_CURRENT segment_id (to_base36 del_gen) [] with
  | None => Err None
  | Some buf =>
      let buf := fold_left (fun buf word => write_i64 (wraps 64 word) buf) (words live_docs) buf in
      let buf := write_footer crc buf in
      if len live_docs <? cardinality live_docs then Err (Some (GhostBitsSet (len live_docs)))
      else
        let actual_del_count := len live_docs - cardinality live_docs in
        if negb (actual_del_count =? expected_del_count) then Err (Some (DelCountMismatch actual_del_count expected_del_count))
        else Ok buf
  end.

Definition BATCH : Z := 1024.

(** The batches of [write_bits]: the scratch set, the live documents counted
    and the buffer; [n] bounds the batches left. *)
Fixpoint write_batches {B} `{Bits B} (n : nat) (live_docs : B) (length offset : Z) (copy : FixedBitSet.t) (live : Z) (buf : list byte) : R (Z * list byte) :=
  match n with
  | O => Ok (live, buf)
  | Datatypes.S n =>
      if offset <? length then
        let num_bits := Z.min BATCH (Z.max 0 (length - offset)) in
        let! copy := expect (set_range copy 0 BATCH) in
        let! copy := expect (clear_range copy num_bits BATCH) in
        let! copy := bits_apply_mask live_docs copy offset in
        let live := saturating_add live (cardinality copy) in
        let buf := fold_left (fun buf word => write_i64 (wraps 64 word) buf) (take (Z.to_nat (bits2words num_bits)) (words copy)) buf in
        write_batches n live_docs length (saturating_add offset BATCH) copy live buf
      else Ok (live, buf)
  end.

Definition write_bits {B} `{Bits B} (live_docs : B) (segment_id : list byte) (del_gen expected_del_count : Z) : result (option Error) (list byte) :=
  match write_index_header CODEC_NAME VERSION_CURRENT segment_id (to_base36 del_gen) [] with
  | None => Err None
  | Some buf =>
      let length := bits_length live_docs in
      match write_batches (Z.to_nat (div_ceil length BATCH)) live_docs length 0 (new BATCH) 0 buf with
      | Err _ => Err None
      | Ok (live, buf) =>
          let buf := write_footer crc buf in
          let actual_del_count := Z.max 0 (length - live) in
          if negb (actual_del_count =? expected_del_count) then Err (Some (DelCountMismatch actual_del_count expected_del_count))
          else Ok buf
      end
  end.
End format.

(** ** The bytes, and reading them back. *)
Definition words_bytes (ws : list Z) : list byte := concat (map (to_le 8) (map (wraps 64) ws)).
Definition body_bytes (id : list byte) (del_gen : Z) (ws : list Z) : list byte :=
  index_header_bytes CODEC_NAME VERSION_CURRENT id (to_base36 del_gen) ++ words_bytes ws.

Lemma write_words_bytes ws buf : fold_left (fun buf word => write_i64 (wraps 64 word) buf) ws buf = buf ++ words_bytes ws.
Proof.
  unfold words_bytes. rewrite map_map. apply (write_fold_bytes (fun buf word => write_i64 (wraps 64 word) buf)). reflexivity.
Qed.

Lemma words_bytes_app a b : words_bytes (a ++ b) = words_bytes a ++ words_bytes b.
Proof. unfold words_bytes. by rewrite !map_app, concat_app. Qed.

Lemma last_word ws : zget ws (zlen ws - 1) = if zlen ws =? 0 then None else Some (at0 ws (zlen ws - 1)).
Proof.
  pose proof (zlen_nonneg ws). destruct (Z.eqb_spec (zlen ws) 0) as [E|E]; [by rewrite E|]. apply SparseSpec.zget_in. lia.
Qed.

(** The ghost bits are checked: set just when a bit past the length is. *)
Lemma ghost_bits_spec ws n : words_ok ws -> 0 <= n -> zlen ws = bits2words n ->
  ghost_bits_set ws n = false <-> forall i, n <= i -> wbit ws i = false.
Proof.
  intros Hw Hn Hl. unfold ghost_bits_set. rewrite last_word. pose proof (bits2words_spec n Hn) as Hb. pose proof (Z.div_mod n 64 ltac:(lia)) as Hd.
  pose proof (Z.mod_pos_bound n 64 ltac:(lia)) as Hm. destruct (Z.eqb_spec (zlen ws) 0) as [E|E].
  { split; [|done]. intros _ i Hi. apply wbit_out. lia. }
  set (k := zlen ws - 1). pose proof (at0_range ws k Hw) as Hu. rewrite wrapu_id by done. destruct (Z.eqb_spec (n mod 64) 0) as [E0|E0]; cbn [negb andb].
  { split; [|done]. intros _ i Hi. apply wbit_out. lia. }
  assert (Hk : n / 64 = k) by lia. rewrite negb_false_iff, Z.eqb_eq. split.
  - intros H0 i Hi. destruct (Z.le_gt_cases (64 * zlen ws) i); [by apply wbit_out|]. unfold wbit.
    pose proof (Z.div_mod i 64 ltac:(lia)). pose proof (Z.mod_pos_bound i 64 ltac:(lia)). replace (i / 64) with k by lia.
    replace (i mod 64) with (i mod 64 - n mod 64 + n mod 64) by lia. rewrite <- Z.shiftr_spec, H0 by lia. apply Z.testbit_0_l.
  - intros Hg. apply Z.bits_inj'. intros r Hr. rewrite Z.shiftr_spec, Z.testbit_0_l by lia. destruct (Z.lt_ge_cases (r + n mod 64) 64); [|by apply (testbit_above 64)].
    specialize (Hg (64 * k + (r + n mod 64)) ltac:(lia)). unfold wbit in Hg. by destruct (word_of_unique (64 * k + (r + n mod 64)) k (r + n mod 64)) as [E1 E2]; [lia|lia|rewrite E1, E2 in Hg].
Qed.

Lemma rewrapped ws : words_ok ws -> map (wrapu 64) (map (wraps 64) ws) = ws.
Proof.
  intros Hw. rewrite map_map. induction Hw as [|w ws H _ IH]; [done|]. cbn [map]. by rewrite IH, wrapu_wraps, wrapu_id.
Qed.

Lemma ghost_bits_wrapped ws n : words_ok ws -> ghost_bits_set (map (wraps 64) ws) n = ghost_bits_set ws n.
Proof.
  intros Hw. unfold ghost_bits_set. rewrite zlen_map. unfold zget. destruct (zlen ws - 1 <? 0); [done|]. rewrite list_lookup_fmap.
  destruct (ws !! _) as [w|] eqn:E; [|done]. cbn. by rewrite wrapu_wraps.
Qed.

(** The set [from_words] gets is sound. *)
Lemma from_words_ok ws n : words_ok ws -> 0 <= n -> zlen ws = bits2words n -> ghost_bits_set ws n = false ->
  from_words ws n = Some (mk ws n) /\ FixedBitSetSpec.inv (mk ws n).
Proof.
  intros Hw Hn Hl Hg. unfold from_words. rewrite Hl, Z.ltb_irrefl. split; [done|]. constructor; cbn; try done. by apply ghost_bits_spec.
Qed.

Lemma liv_codec_is_string : string_ok CODEC_NAME.
Proof. by vm_compute. Qed.

Lemma reads_bits live id gen : FixedBitSetSpec.inv live -> zlen id = ID_LENGTH ->
  reads (R := SliceInput.t) (read_bits id gen (num_bits live)) (body_bytes id gen (words live)) live.
Proof.
  intros Hl Hid. assert (Hw := FixedBitSetSpec.inv_words live Hl). unfold read_bits, body_bytes. eapply reads_bind.
  - apply reads_store, (check_index_header_reads CODEC_NAME VERSION_CURRENT liv_codec_is_string); [by vm_compute|done|by vm_compute].
  - eapply reads_bind_last.
    + apply reads_store. replace (Z.to_nat (bits2words (num_bits live))) with (length (map (wraps 64) (words live))).
      * apply reads_i64s, List.Forall_forall. intros v (w & <- & _)%in_map_iff. by apply wraps_range.
      * rewrite length_map, <- (FixedBitSetSpec.inv_size live Hl). unfold zlen. lia.
    + cbn beta. rewrite ghost_bits_wrapped by done. rewrite (proj2 (ghost_bits_spec _ _ Hw (FixedBitSetSpec.inv_len live Hl) (FixedBitSetSpec.inv_size live Hl)))
        by apply (FixedBitSetSpec.inv_ghost live Hl).
      rewrite rewrapped by done. unfold from_words. rewrite (FixedBitSetSpec.inv_size live Hl), Z.ltb_irrefl. destruct live. apply reads_ret.
Qed.

Lemma keeps_read_bits id gen n b : preserves (fun s => SliceInput.buf s = b) (read_bits id gen n).
Proof. unfold read_bits, fail_with, no_panic. keeps. destruct (from_words _ _); keeps. Qed.

Section files.
Context (crc : list byte -> Z) (crc_range : forall l, in_u 32 (crc l)).

Lemma cardinality_bounds live : FixedBitSetSpec.inv live -> 0 <= cardinality live <= num_bits live.
Proof.
  intros Hl. rewrite cardinality_count by done. pose proof (count_range (FixedBitSetSpec.bit live) 0 (Z.to_nat (num_bits live))).
  pose proof (FixedBitSetSpec.inv_len live Hl). lia.
Qed.

Lemma write_live live id gen expected : FixedBitSetSpec.inv live -> zlen id = ID_LENGTH ->
  write crc live id gen expected =
  if num_bits live - cardinality live =? expected then Ok (write_footer crc (body_bytes id gen (words live)))
  else Err (Some (DelCountMismatch (num_bits live - cardinality live) expected)).
Proof.
  intros Hl Hid. unfold write. rewrite write_index_header_spec; [|by vm_compute|apply suffix_length|done].
  rewrite write_words_bytes. unfold len. pose proof (cardinality_bounds live Hl). destruct (Z.ltb_spec (num_bits live) (cardinality live)); [lia|].
  by destruct (_ =? expected).
Qed.

Lemma parse_live live id gen expected : FixedBitSetSpec.inv live -> zlen id = ID_LENGTH ->
  let file := write_footer crc (body_bytes id gen (words live)) in
  bytes_ok file -> zlen file < 2 ^ 63 ->
  parse crc file id gen (num_bits live) expected =
  if num_bits live - cardinality live =? expected then Ok live else Err (Some (DelCountMismatch (num_bits live - cardinality live) expected)).
Proof.
  intros Hl Hid file Hok Hlen. unfold parse.
  destruct (reads_whole_file (fun e => Some (Store e)) crc crc_range (read_bits id gen (num_bits live))
    (fun live0 => if negb (num_bits live - cardinality live0 =? expected) then fail_with (DelCountMismatch (num_bits live - cardinality live0) expected) else ret live0)
    (body_bytes id gen (words live)) live (reads_bits live id gen Hl Hid) (keeps_read_bits id gen (num_bits live)) Hok Hlen) as [s Es].
  cbv zeta. fold file in Es. rewrite Es. by destruct (_ =? expected).
Qed.
End files.

(** ** What [parse] lets through, and that it does not panic. *)
Definition sound {A} (m : P A) (Q : A -> Prop) : Prop := forall s, match (m s).1 with Ok a => Q a | Err e => e <> None end.

Lemma sound_bind {A B} (m : P A) (k : A -> P B) (R : A -> Prop) (Q : B -> Prop) :
  sound m R -> (forall a, R a -> sound (k a) Q) -> sound (bind m k) Q.
Proof.
  intros Hm Hk s. specialize (Hm s). unfold bind. destruct (m s) as [[a|e] s1]; cbn [fst] in Hm |- *; [by apply Hk|done].
Qed.

Lemma sound_store {A} (m : M StoreError.Error SliceInput.t A) (Q : A -> Prop) : returns m Q -> sound (store m) Q.
Proof. intros Hm s. unfold from_store. specialize (Hm s). destruct (m s) as [[a|e] s1]; [by eapply Hm|done]. Qed.

Lemma unwrapped ws : Forall (in_s 64) ws -> map (wraps 64) (map (wrapu 64) ws) = ws.
Proof. intros Hw. rewrite map_map. induction Hw as [|w l H _ IH]; [done|]. cbn [map]. by rewrite IH, wraps_wrapu, wraps_id. Qed.

Lemma sound_read_bits id gen max_doc : 0 <= max_doc ->
  sound (read_bits id gen max_doc) (fun s => FixedBitSetSpec.inv s /\ num_bits s = max_doc).
Proof.
  intros Hn. unfold read_bits. eapply sound_bind; [apply sound_store, returns_any|]. intros _ _.
  eapply sound_bind; [apply sound_store, returns_i64s|]. intros ws [Hl Hw] s. cbn beta.
  assert (Hws : words_ok (map (wrapu 64) ws)).
  { apply List.Forall_forall. intros v (w & <- & _)%in_map_iff. by apply wrapu_range. }
  assert (Eg0 : ghost_bits_set ws max_doc = ghost_bits_set (map (wrapu 64) ws) max_doc) by (rewrite <- (ghost_bits_wrapped (map (wrapu 64) ws)) by done; by rewrite unwrapped).
  rewrite Eg0.
  destruct (ghost_bits_set (map (wrapu 64) ws) max_doc) eqn:Eg; [done|].
  destruct (from_words_ok (map (wrapu 64) ws) max_doc) as [E Hi]; [done|done| |done|].
  - pose proof (FixedBitSetSpec.bits2words_nonneg max_doc Hn). unfold zlen. rewrite length_map, Hl. lia.
  - by rewrite E.
Qed.

(** ** [write_bits]: a batch at a time is the whole at once. *)
Lemma bits2words_ceil n : 0 <= n -> bits2words n = (n + 63) / 64.
Proof.
  intros Hn. pose proof (FixedBitSetSpec.bits2words_spec n Hn). pose proof (Z.div_mod (n + 63) 64 ltac:(lia)).
  pose proof (Z.mod_pos_bound (n + 63) 64 ltac:(lia)). lia.
Qed.

Section batches.
Context {B : Type} `{BitsLaws B} (bits : B) (live : FixedBitSet.t).
Hypothesis bits_valid : valid bits.
Hypothesis live_inv : FixedBitSetSpec.inv live.
Hypothesis same_length : bits_length bits = num_bits live.
Hypothesis same_bits : forall i, 0 <= i < num_bits live -> member bits i = FixedBitSetSpec.bit live i.
Hypothesis length_small : num_bits live < 2 ^ 62.
Notation n := (num_bits live).

(** One batch copies its bits into the scratch set. *)
Lemma batch_copied copy offset : FixedBitSetSpec.inv copy -> num_bits copy = BATCH -> 0 <= offset < n ->
  let num := Z.min BATCH (Z.max 0 (n - offset)) in
  exists copy', (let! copy := expect (set_range copy 0 BATCH) in let! copy := expect (clear_range copy num BATCH) in bits_apply_mask bits copy offset) = Ok copy' /\
    FixedBitSetSpec.inv copy' /\ num_bits copy' = BATCH /\ forall i, 0 <= i < BATCH -> FixedBitSetSpec.bit copy' i = FixedBitSetSpec.bit live (offset + i).
Proof.
  intros Hc Hn Ho num. unfold BATCH in *. assert (Hnum : num = Z.min 1024 (n - offset)) by lia. clearbody num. destruct (proj2 (proj2 (FixedBitSetSpec.range_operations copy 0 1024 Hc ltac:(lia)))) as ((s1 & E1 & I1 & N1 & B1) & _); [lia|].
  rewrite E1. cbn [expect rbind]. rewrite Hn in N1.
  assert (H2 : exists s2, clear_range s1 num 1024 = Some s2 /\ FixedBitSetSpec.models s2 1024 (fun i => i <? num)).
  { destruct (FixedBitSetSpec.range_operations s1 num 1024 I1 ltac:(lia)) as (Hempty & _ & Hops). destruct (Z.le_gt_cases 1024 num) as [Hge|Hlt].
    - exists s1. split; [by apply Hempty|]. split; [done|]. split; [done|]. intros i Hi. rewrite B1 by done.
      destruct (Z.leb_spec 0 i), (Z.ltb_spec i 1024), (Z.ltb_spec i num); try lia; try done. apply (FixedBitSetSpec.inv_ghost copy Hc). lia.
    - destruct Hops as (_ & (s2 & E2 & I2 & N2 & B2) & _); [lia|]. exists s2. split; [done|]. split; [done|]. split; [lia|]. intros i Hi. rewrite B2, B1 by done.
      destruct (Z.leb_spec num i), (Z.leb_spec 0 i), (Z.ltb_spec i 1024), (Z.ltb_spec i num); try lia; try done. apply (FixedBitSetSpec.inv_ghost copy Hc). lia. }
  destruct H2 as (s2 & E2 & I2 & N2 & B2). rewrite E2. cbn [expect rbind].
  destruct (law_apply_mask bits s2 offset bits_valid ltac:(lia) I2 ltac:(lia) ltac:(lia)) as (s3 & E3 & I3 & N3 & B3).
  { intros i Hi Hb. rewrite B2 in Hb by done. apply Z.ltb_lt in Hb. lia. }
  exists s3. split; [done|]. split; [done|]. split; [lia|]. intros i Hi. rewrite B3, B2 by lia. destruct (Z.ltb_spec i num); cbn [andb].
  - apply same_bits. lia.
  - symmetry. apply (FixedBitSetSpec.inv_ghost live live_inv). lia.
Qed.

(** The words of a batch are those of the set. *)
Lemma batch_words copy k : FixedBitSetSpec.inv copy -> num_bits copy = BATCH -> 0 <= k -> BATCH * k < n ->
  (forall i, 0 <= i < BATCH -> FixedBitSetSpec.bit copy i = FixedBitSetSpec.bit live (BATCH * k + i)) ->
  take (Z.to_nat (bits2words (Z.min BATCH (n - BATCH * k)))) (words copy) ++ drop (Z.to_nat (16 * (k + 1))) (words live) = drop (Z.to_nat (16 * k)) (words live).
Proof.
  unfold BATCH. intros Hc Hn Hk Hlt Hb. set (w := bits2words (Z.min 1024 (n - 1024 * k))).
  assert (Hsz : zlen (words live) = bits2words n) by apply (FixedBitSetSpec.inv_size live live_inv).
  assert (Hcz : zlen (words copy) = 16) by (rewrite (FixedBitSetSpec.inv_size copy Hc), Hn; by vm_compute).
  assert (Hw : w = Z.min 16 (zlen (words live) - 16 * k)).
  { unfold w. rewrite Hsz, !bits2words_ceil by lia. Z.div_mod_to_equations. lia. }
  assert (0 < w) by (rewrite Hw, Hsz, bits2words_ceil by lia; Z.div_mod_to_equations; lia).
  assert (Hd : zlen (drop (Z.to_nat (16 * k)) (words live)) = zlen (words live) - 16 * k) by (unfold zlen in *; rewrite length_drop; lia).
  assert (E : take (Z.to_nat w) (words copy) = take (Z.to_nat w) (drop (Z.to_nat (16 * k)) (words live))).
  { apply words_ext; [rewrite !FixedBitSetSpec.zlen_take; lia|]. intros j Hj. rewrite FixedBitSetSpec.zlen_take in Hj by lia.
    rewrite !at0_take, at0_drop by lia. apply Z.bits_inj'. intros r Hr.
    pose proof (at0_range (words copy) j (FixedBitSetSpec.inv_words copy Hc)). pose proof (at0_range (words live) (16 * k + j) (FixedBitSetSpec.inv_words live live_inv)).
    destruct (Z.lt_ge_cases r 64); [|by rewrite !(testbit_above 64) by done]. specialize (Hb (64 * j + r) ltac:(lia)). unfold FixedBitSetSpec.bit, wbit in Hb.
    destruct (word_of_unique (64 * j + r) j r) as [E1 E2]; [lia|lia|]. destruct (word_of_unique (1024 * k + (64 * j + r)) (16 * k + j) r) as [E3 E4]; [lia|lia|].
    by rewrite E1, E2, E3, E4 in Hb. }
  rewrite E. etrans; [|apply (take_drop (Z.to_nat w))]. f_equal. rewrite drop_drop.
  destruct (Z.le_gt_cases 16 w); [f_equal; lia|]. rewrite !drop_ge; [done| |]; unfold zlen in *; lia.
Qed.

Lemma write_batches_ok fuel : forall k copy c buf, FixedBitSetSpec.inv copy -> num_bits copy = BATCH -> 0 <= k -> 0 <= c <= BATCH * k ->
  n <= BATCH * (k + Z.of_nat fuel) ->
  write_batches fuel bits n (BATCH * k) copy c buf =
  Ok (c + count (FixedBitSetSpec.bit live) (BATCH * k) (Z.to_nat (n - BATCH * k)), buf ++ words_bytes (drop (Z.to_nat (16 * k)) (words live))).
Proof.
  assert (Hdone : forall k c buf, 0 <= k -> n <= BATCH * k ->
    (c + count (FixedBitSetSpec.bit live) (BATCH * k) (Z.to_nat (n - BATCH * k)), buf ++ words_bytes (drop (Z.to_nat (16 * k)) (words live))) = (c, buf)).
  { intros k c buf Hk Hn. replace (Z.to_nat _) with 0%nat by lia. cbn [count]. pose proof (FixedBitSetSpec.inv_size live live_inv) as Hsz.
    pose proof (FixedBitSetSpec.inv_len live live_inv). unfold BATCH in Hn.
    rewrite drop_ge; [cbn; by rewrite app_nil_r, Z.add_0_r|]. rewrite bits2words_ceil in Hsz by done. unfold zlen in Hsz. Z.div_mod_to_equations. lia. }
  induction fuel as [|fuel IH]; intros k copy c buf Hc Hn Hk Hcb Hfuel; cbn [write_batches]; [by rewrite Hdone by lia|].
  destruct (Z.ltb_spec (BATCH * k) n); [|by rewrite Hdone by lia]. unfold BATCH in Hcb, Hfuel |- *; fold BATCH.
  destruct (batch_copied copy (BATCH * k) Hc Hn ltac:(unfold BATCH in *; lia)) as (copy' & E & I1 & N1 & B1). cbv zeta in E.
  destruct (expect (set_range copy 0 BATCH)) as [s1|]; cbn [rbind] in E |- *; [|done].
  destruct (expect (clear_range s1 _ BATCH)) as [s2|]; cbn [rbind] in E |- *; [|done]. rewrite E. cbn [rbind]. rewrite write_words_bytes.
  assert (Hcard : cardinality copy' = count (FixedBitSetSpec.bit live) (BATCH * k) 1024).
  { rewrite cardinality_count, N1 by done. change (Z.to_nat BATCH) with 1024%nat. rewrite (count_ext _ (fun i => FixedBitSetSpec.bit live (i + BATCH * k))), count_shift; [done|].
    intros i Hi. rewrite B1 by (unfold BATCH; lia). f_equal. lia. }
  pose proof (count_range (FixedBitSetSpec.bit live) (BATCH * k) 1024). unfold BATCH in *.
  rewrite !saturating_add_small by lia. replace (1024 * k + 1024) with (1024 * (k + 1)) by lia. rewrite IH by (done || lia). f_equal. f_equal.
  - rewrite Hcard, <- Z.add_assoc. f_equal. replace (1024 * (k + 1)) with (1024 * k + Z.of_nat 1024) by lia. rewrite <- count_app.
    destruct (Z.le_gt_cases 1024 (n - 1024 * k)); [f_equal; lia|]. replace (Z.to_nat (n - (1024 * k + Z.of_nat 1024))) with 0%nat by lia.
    replace (1024 + 0)%nat with (Z.to_nat (n - 1024 * k) + (1024 - Z.to_nat (n - 1024 * k)))%nat by lia.
    rewrite count_app, (count_false _ (1024 * k + _)); [lia|]. intros i Hi. apply (FixedBitSetSpec.inv_ghost live live_inv). lia.
  - rewrite <- app_assoc, <- words_bytes_app. do 2 f_equal. rewrite (Z.max_r 0) by lia. by apply (batch_words copy' k).
Qed.
End batches.

Section laws.
Context (crc : list byte -> Z) (crc_range : forall l, in_u 32 (crc l)).

(** A live-documents file is read back: [write] makes one file of a set,
    whatever deletion count is asked for, and [parse] gets the set from it; a
    wrong count is the same [DelCountMismatch] on both sides. *)
Lemma live_docs_round_trip live id gen : FixedBitSetSpec.inv live -> zlen id = ID_LENGTH ->
  exists file, forall expected,
    let actual := num_bits live - cardinality live in
    write crc live id gen expected = (if actual =? expected then Ok file else Err (Some (DelCountMismatch actual expected))) /\
    (bytes_ok file -> zlen file < 2 ^ 63 ->
     parse crc file id gen (num_bits live) expected = (if actual =? expected then Ok live else Err (Some (DelCountMismatch actual expected)))).
Proof.
  intros Hl Hid. exists (write_footer crc (body_bytes id gen (words live))). intros expected actual.
  split; [by apply write_live|]. intros Hok Hlen. by apply parse_live.
Qed.

(** C20: whatever the bytes, [parse] does not panic, and a set it returns has
    the segment's length, no bit past it, and the deletions expected. *)
Theorem parsed_live_docs_are_sound buf id gen max_doc expected : 0 <= max_doc ->
  match parse crc buf id gen max_doc expected with
  | Ok live => FixedBitSetSpec.inv live /\ num_bits live = max_doc /\ max_doc - cardinality live = expected
  | Err e => e <> None
  end.
Proof.
  intros Hn. unfold parse. set (m := let* live_docs := _ in _).
  assert (Hm : sound m (fun live => FixedBitSetSpec.inv live /\ num_bits live = max_doc /\ max_doc - cardinality live = expected)).
  { eapply sound_bind; [by apply sound_read_bits|]. intros live [Hi Hl].
    eapply sound_bind; [apply sound_store, returns_any|]. intros _ _ s. cbv zeta.
    by destruct (Z.eqb_spec (max_doc - cardinality live) expected). }
  exact (Hm (SliceInput.new buf)).
Qed.
(** C19: [write_bits] writes the bytes [write] writes, and fails as it
    fails, for anything that keeps the [Bits] contract and has the set's bits:
    copying 1024 documents at a time, ghost bits cleared, loses nothing. *)
Theorem write_bits_is_write {B} `{BitsLaws B} (bits : B) live id gen expected :
  valid bits -> FixedBitSetSpec.inv live -> bits_length bits = num_bits live ->
  (forall i, 0 <= i < num_bits live -> member bits i = FixedBitSetSpec.bit live i) ->
  num_bits live < 2 ^ 62 -> zlen id = ID_LENGTH ->
  write_bits crc bits id gen expected = write crc live id gen expected.
Proof.
  intros Hv Hl Hlen Hbits Hsmall Hid. rewrite write_live by done. unfold write_bits. rewrite Hlen. pose proof (FixedBitSetSpec.inv_len live Hl) as Hn.
  rewrite write_index_header_spec; [|by vm_compute|apply suffix_length|done].
  destruct (FixedBitSetSpec.new_inv BATCH ltac:(done)) as (I0 & N0 & _).
  assert (E : write_batches (Z.to_nat (div_ceil (num_bits live) BATCH)) bits (num_bits live) 0 (new BATCH) 0
    (index_header_bytes CODEC_NAME VERSION_CURRENT id (to_base36 gen)) =
    Ok (cardinality live, body_bytes id gen (words live))).
  { change 0 with (BATCH * 0) at 1. rewrite (write_batches_ok bits live) by (done || (unfold BATCH, div_ceil; Z.div_mod_to_equations; lia)).
    rewrite cardinality_count by done. by rewrite Z.mul_0_r, Z.sub_0_r. }
  match goal with |- context [write_bytes ?x []] => change (write_bytes x []) with x end. rewrite E. pose proof (cardinality_bounds live Hl). rewrite Z.max_r by lia. by destruct (_ =? expected).
Qed.
End laws.

(** Six documents, 1 and 4 deleted. *)
Definition sample_live : FixedBitSet.t := mk [0x2d] 6.
Definition sample_deleted : FixedBitSet.t := mk [0x12] 6.

Lemma small_set_inv w : in_u 6 w -> FixedBitSetSpec.inv (mk [w] 6).
Proof.
  intros Hw. constructor; [cbn; lia| |reflexivity|].
  - apply Forall_cons; [apply (in_u_weaken 6); [lia|done]|by apply Forall_nil].
  - intros i Hi. cbn in Hi. destruct (Z.lt_ge_cases i 64) as [Hlt|Hge]; [|by apply wbit_out]. unfold FixedBitSetSpec.bit, wbit.
    rewrite (Z.div_small i 64), (Z.mod_small i 64) by lia. by apply (testbit_above 6).
Qed.

Lemma live_docs_round_trip_witness :
  exists file, write ieee_crc32 sample_live (replicate 16 7) 1 2 = Ok file /\ parse ieee_crc32 file (replicate 16 7) 1 6 2 = Ok sample_live /\
    parse ieee_crc32 file (replicate 16 7) 1 6 0 = Err (Some (DelCountMismatch 2 0)).
Proof.
  destruct (live_docs_round_trip ieee_crc32 ieee_range sample_live (replicate 16 7) 1 (small_set_inv 0x2d ltac:(by vm_compute)) eq_refl) as (file & Hf).
  exists file. destruct (Hf 2) as [Hw Hp]. split; [exact Hw|].
  assert (E : Ok file = write ieee_crc32 sample_live (replicate 16 7) 1 2) by (by rewrite Hw). vm_compute in E. injection E as ->.
  split; [apply Hp|apply (proj2 (Hf 0))]; (by apply bytes_okb_ok) || by vm_compute.
Defined.

Lemma parsed_live_docs_are_sound_witness :
  exists file live, parse ieee_crc32 file (replicate 16 7) 1 6 2 = Ok live /\ FixedBitSetSpec.inv live /\ 6 - cardinality live = 2.
Proof.
  destruct (write ieee_crc32 sample_live (replicate 16 7) 1 2) as [file|e] eqn:Hf; [|vm_compute in Hf; discriminate Hf].
  exists file, sample_live. assert (Hp : parse ieee_crc32 file (replicate 16 7) 1 6 2 = Ok sample_live).
  { assert (E : Ok file = write ieee_crc32 sample_live (replicate 16 7) 1 2) by (by rewrite Hf). vm_compute in E. injection E as ->. by vm_compute. }
  split; [exact Hp|]. pose proof (parsed_live_docs_are_sound ieee_crc32 file (replicate 16 7) 1 6 2 ltac:(lia)) as H. rewrite Hp in H.
  by destruct H as (H1 & _ & H3).
Defined.

Lemma write_bits_is_write_witness :
  write_bits ieee_crc32 (mk_not sample_deleted) (replicate 16 7) 1 2 = write ieee_crc32 sample_live (replicate 16 7) 1 2.
Proof.
  apply (write_bits_is_write ieee_crc32 (mk_not sample_deleted) sample_live).
  - exact (small_set_inv 0x12 ltac:(by vm_compute)).
  - exact (small_set_inv 0x2d ltac:(by vm_compute)).
  - reflexivity.
  - intros i Hi. cbn in Hi. assert (i = 0 \/ i = 1 \/ i = 2 \/ i = 3 \/ i = 4 \/ i = 5) as Hc by lia. by repeat destruct Hc as [->|Hc]; try subst i.
  - reflexivity.
  - reflexivity.
Defined.
End LiveDocsFormat.
