(* ===== verification/CompoundFormat.v ===== *)
(** * Compound files ([lucene-codecs/src/compound_format.rs])

    A segment's files packed into one ([.cfs]) with a table of where each is
    ([.cfe]): [write], [parse_entries], the check of the data file against the
    table, and [open_input].  Proved: what is packed is opened again, each
    sub-file byte for byte; the data file passes the check; a sub-file that
    was not written for the segment, or whose footer is wrong, stops the
    writer; and no table, however corrupt, opens bytes outside the data. *)
From stdpp Require Import strings sorting.
From S2P Require Import Prelude StoreError ZigZag DataOutput DataInput SliceInput Wire CodecUtil SegmentNames SegmentFile.

Module CompoundFormat.

Definition ALIGNMENT_BYTES : Z := 64.
Definition DATA_CODEC : list byte := bytes "Lucene90CompoundData".
Definition ENTRY_CODEC : list byte := bytes "Lucene90CompoundEntries".
Definition VERSION_START : Z := 0.
Definition VERSION_CURRENT : Z := VERSION_START.
(** Of [stored_fields.rs]. *)
Definition DATA_CODEC_ZSTD_PAGED : list byte := bytes "RustZstdPagedStoredFieldsData".
Definition ZSTD_PAGED_PAGE_SIZE : Z := 16384.

Inductive Error : Type :=
| Store (e : StoreError.Error)
| DuplicateEntry (id : list byte)
| WrongLength (expected actual : Z)
| FileNotFound (id : list byte) (names : list (list byte))
| BadSubFileMagic (name : list byte).

Record FileEntry : Type := mk_entry { offset : Z; length : Z }.
Record CompoundEntries : Type := mk_entries { version : Z; entries : list (list byte * FileEntry) }.

Definition get (t : CompoundEntries) (id : list byte) : option FileEntry :=
  snd <$> List.find (fun e => bool_decide (e.1 = id)) (entries t).
Definition names (t : CompoundEntries) : list (list byte) := map fst (entries t).

Notation P := (M Error SliceInput.t).
Notation store := (from_store Store).

Fixpoint read_entries (n : nat) (entries : list (list byte * FileEntry)) : P (list (list byte * FileEntry)) :=
  match n with
  | O => ret entries
  | Datatypes.S n =>
      let* id := store read_string in
      if existsb (fun e => bool_decide (e.1 = id)) entries then fail (DuplicateEntry id)
      else
        let* offset := store read_i64 in
        let* length := store read_i64 in
        read_entries n (entries ++ [(id, mk_entry offset length)])
  end.

(** [pos.next_multiple_of(n)]. *)
Definition next_multiple_of (pos n : Z) : Z := if pos mod n =? 0 then pos else pos + (n - pos mod n).

Definition i64_saturating_add (a b : Z) : Z := Z.max (- 2 ^ 63) (Z.min (2 ^ 63 - 1) (a + b)).
(** [usize::try_from(offset.saturating_add(length)).unwrap_or(usize::MAX)]. *)
Definition extent (e : FileEntry) : Z :=
  let end_ := i64_saturating_add (offset e) (length e) in if 0 <=? end_ then end_ else usize_max.

Definition is_paged (bytes : list byte) : bool :=
  match read_be_u32 (SliceInput.new bytes) with
  | (Ok _, input) => match read_string input with
                     | (Ok codec, _) => bool_decide (codec = DATA_CODEC_ZSTD_PAGED)
                     | (Err _, _) => false
                     end
  | (Err _, _) => false
  end.
Definition entry_start (pos : Z) (bytes : list byte) : Z :=
  let start := next_multiple_of pos ALIGNMENT_BYTES in
  if negb (is_paged bytes) then start
  else
    let page := ZSTD_PAGED_PAGE_SIZE in
    let room := Z.max 0 (page - start mod page) in
    if zlen bytes <=? room then start else next_multiple_of pos page.

(** [cfs.resize(n, 0)]. *)
Definition resize (n : Z) (l : list byte) : list byte := take (Z.to_nat n) l ++ replicate (Z.to_nat (n - zlen l)) 0.

Section format.
Context (crc : list byte -> Z).

Definition parse_entries (buf segment_id : list byte) : result Error CompoundEntries :=
  ((let* header := store (check_index_header ENTRY_CODEC VERSION_START VERSION_CURRENT segment_id []) in
    let* num_entries := store read_vint in
    let* entries := read_entries (Z.to_nat num_entries) [] in
    let* _ := store (check_footer crc (zlen buf)) in
    ret (mk_entries (iversion header) entries)) (SliceInput.new buf)).1.

Definition check_data_header_footer (buf segment_id : list byte) (t : CompoundEntries) : result Error unit :=
  match (store (check_index_header DATA_CODEC (version t) (version t) segment_id []) (SliceInput.new buf)).1 with
  | Err e => Err e
  | Ok _ =>
      match retrieve_checksum buf with
      | Err e => Err (Store e)
      | Ok _ =>
          let max_extent := match map (fun e => extent e.2) (entries t) with
                            | [] => index_header_length DATA_CODEC []
                            | x :: l => fold_left Z.max l x
                            end in
          let expected_length := saturating_add max_extent FOOTER_LENGTH in
          if negb (zlen buf =? expected_length) then Err (WrongLength expected_length (zlen buf)) else Ok tt
      end
  end.

Definition open_input (data : list byte) (t : CompoundEntries) (id : list byte) : result Error SliceInput.t :=
  match get t id with
  | None => Err (FileNotFound id (names t))
  | Some entry =>
      match SliceInput.slice_input (wrapu 64 (offset entry)) (wrapu 64 (length entry)) (SliceInput.new data) with
      | Ok s => Ok s
      | Err e => Err (Store e)
      end
  end.

Definition verify_sub_file (name bytes segment_id : list byte) : result Error unit :=
  ((let* magic := store read_be_u32 in
    if negb (magic =? CODEC_MAGIC) then fail (BadSubFileMagic name)
    else
      let* _ := store read_string in
      let* _ := store read_be_u32 in
      let* _ := store (check_index_header_id segment_id) in
      let* suffix_len := store read_byte in
      let* _ := store (skip suffix_len) in
      if zlen bytes <? FOOTER_LENGTH then fail (Store (Eof (zlen bytes)))
      else
        let* _ := store (SliceInput.seek (zlen bytes - FOOTER_LENGTH)) in
        let* _ := store (check_footer crc (zlen bytes)) in
        ret tt) (SliceInput.new bytes)).1.

(** [sort_by_key] of the length, which is stable. *)
Fixpoint insert_by_length (f : list byte * list byte) (l : list (list byte * list byte)) : list (list byte * list byte) :=
  match l with
  | [] => [f]
  | g :: l => if zlen f.2 <=? zlen g.2 then f :: g :: l else g :: insert_by_length f l
  end.
Definition sort_by_length (l : list (list byte * list byte)) : list (list byte * list byte) := fold_right insert_by_length [] l.

(** The packing loop over the files left. *)
Fixpoint pack (segment_id : list byte) (ordered : list (list byte * list byte)) (cfs cfe : list byte) : result Error (list byte * list byte) :=
  match ordered with
  | [] => Ok (cfs, cfe)
  | (name, bytes) :: ordered =>
      match verify_sub_file name bytes segment_id with
      | Err e => Err e
      | Ok _ =>
          let cfs := resize (entry_start (zlen cfs) bytes) cfs in
          let start_offset := zlen cfs in
          let cfs := cfs ++ bytes in
          let length := zlen cfs - start_offset in
          let cfe := write_i64 length (write_i64 start_offset (write_string name cfe)) in
          pack segment_id ordered cfs cfe
      end
  end.

(** [None]: a header writer panicked. *)
Definition write (segment_id : list byte) (sub_files : list (list byte * list byte)) : option (result Error (list byte * list byte)) :=
  let ordered := sort_by_length sub_files in
  cfs ← write_index_header DATA_CODEC VERSION_CURRENT segment_id [] [];
  cfe ← write_index_header ENTRY_CODEC VERSION_CURRENT segment_id [] [];
  let cfe := write_vint (wraps 32 (zlen ordered)) cfe in
  Some (match pack segment_id ordered cfs cfe with
        | Err e => Err e
        | Ok (cfs, cfe) => Ok (write_footer crc cfs, write_footer crc cfe)
        end).
End format.

(** ** Where the writer puts things. *)
Definition entry_bytes (e : list byte * FileEntry) : list byte := string_bytes e.1 ++ to_le 8 (offset e.2) ++ to_le 8 (length e.2).

Fixpoint layout (pos : Z) (files : list (list byte * list byte)) : list (list byte * FileEntry) :=
  match files with
  | [] => []
  | (n, b) :: files => let start := entry_start pos b in (n, mk_entry start (zlen b)) :: layout (start + zlen b) files
  end.
Fixpoint packed_data (pos : Z) (files : list (list byte * list byte)) : list byte :=
  match files with
  | [] => []
  | (n, b) :: files => let start := entry_start pos b in replicate (Z.to_nat (start - pos)) 0 ++ b ++ packed_data (start + zlen b) files
  end.

Lemma next_multiple_spec pos n : 0 <= pos -> 0 < n -> pos <= next_multiple_of pos n < pos + n /\ next_multiple_of pos n mod n = 0.
Proof.
  intros Hp Hn. unfold next_multiple_of. pose proof (Z.mod_pos_bound pos n Hn) as Hm. destruct (Z.eqb_spec (pos mod n) 0) as [E|E]; [lia|]. split; [lia|].
  replace (pos + (n - pos mod n)) with ((pos / n + 1) * n) by (pose proof (Z.div_mod pos n ltac:(lia)); lia). apply Z.mod_mul. lia.
Qed.

(** A start is past the data before it, and aligned. *)
Lemma entry_start_spec pos b : 0 <= pos -> pos <= entry_start pos b < pos + ZSTD_PAGED_PAGE_SIZE /\ entry_start pos b mod ALIGNMENT_BYTES = 0.
Proof.
  intros Hp. unfold entry_start, ALIGNMENT_BYTES, ZSTD_PAGED_PAGE_SIZE. pose proof (next_multiple_spec pos 64 Hp ltac:(lia)) as [H1 H2].
  destruct (is_paged b); cbn [negb]; [|lia]. destruct (_ <=? _); [lia|]. pose proof (next_multiple_spec pos 16384 Hp ltac:(lia)) as [H3 H4]. split; [lia|].
  set (x := next_multiple_of pos 16384) in *. rewrite (Z.div_mod x 16384), H4 by lia. rewrite Z.add_0_r, Z.mul_comm. change 16384 with (256 * 64).
  rewrite Z.mul_assoc. apply Z.mod_mul. lia.
Qed.

Lemma resize_grows n l : zlen l <= n -> resize n l = l ++ replicate (Z.to_nat (n - zlen l)) 0 /\ zlen (resize n l) = n.
Proof.
  intros H. unfold resize. rewrite take_ge by (unfold zlen in *; lia). split; [done|]. unfold zlen in *. rewrite length_app, length_replicate. lia.
Qed.


(** Every sub-file is sound, or the first that is not stops the writer. *)
Section packing.
Context (crc : list byte -> Z) (segment_id : list byte).
Definition verified (f : list byte * list byte) : Prop := verify_sub_file crc f.1 f.2 segment_id = Ok tt.

Lemma pack_ok files : Forall verified files -> forall cfs cfe,
  pack crc segment_id files cfs cfe = Ok (cfs ++ packed_data (zlen cfs) files, cfe ++ concat (map entry_bytes (layout (zlen cfs) files))).
Proof.
  induction 1 as [|[n b] files Hv _ IH]; intros cfs cfe; cbn [pack packed_data layout map concat]; [by rewrite !app_nil_r|].
  unfold verified in Hv. cbn [fst snd] in Hv. rewrite Hv. cbv zeta. pose proof (entry_start_spec (zlen cfs) b (zlen_nonneg cfs)) as [[Hs _] _].
  destruct (resize_grows _ _ Hs) as [E1 E2]. rewrite E2. rewrite zlen_app, E2. replace (entry_start (zlen cfs) b + zlen b - entry_start (zlen cfs) b) with (zlen b) by lia.
  rewrite IH, zlen_app, E2, E1. do 2 f_equal; [by rewrite <- !app_assoc|].
  rewrite write_string_bytes. unfold write_i64, entry_bytes. cbn [write_bytes VecDataOutput fst snd offset length]. by rewrite <- !app_assoc.
Qed.

Lemma pack_err files n b rest e : Forall verified files -> verify_sub_file crc n b segment_id = Err e -> forall cfs cfe,
  pack crc segment_id (files ++ (n, b) :: rest) cfs cfe = Err e.
Proof.
  intros Hf He. induction Hf as [|[n0 b0] files Hv _ IH]; intros cfs cfe; cbn [app pack]; [by rewrite He|].
  unfold verified in Hv. cbn [fst snd] in Hv. rewrite Hv. apply IH.
Qed.
End packing.

Lemma insert_by_length_perm f l : insert_by_length f l ≡ₚ f :: l.
Proof.
  induction l as [|g l IH]; cbn [insert_by_length]; [done|]. destruct (_ <=? _); [done|]. rewrite IH. apply Permutation_swap.
Qed.
Lemma sort_by_length_perm l : sort_by_length l ≡ₚ l.
Proof. induction l as [|f l IH]; cbn [sort_by_length fold_right]; [done|]. unfold sort_by_length in IH. by rewrite insert_by_length_perm, IH. Qed.

(** ** The table, read back. *)
Lemma reads_entries l : forall acc, NoDup (map fst (acc ++ l)) -> Forall (fun e => string_ok e.1 /\ in_s 64 (offset e.2) /\ in_s 64 (length e.2)) l ->
  reads (R := SliceInput.t) (read_entries (List.length l) acc) (concat (map entry_bytes l)) (acc ++ l).
Proof.
  induction l as [|[n [o k]] l IH]; intros acc Hd Hok; cbn [List.length read_entries map concat]; [rewrite app_nil_r; apply reads_ret|].
  assert (Hx := Forall_inv Hok). apply Forall_inv_tail in Hok. cbn [fst snd offset length] in Hx. destruct Hx as (Hn & Ho & Hk).
  unfold entry_bytes at 1. cbn [fst snd offset length]. rewrite <- app_assoc. eapply reads_bind; [by apply reads_store, reads_string|].
  assert (Hfresh : existsb (fun e => bool_decide (e.1 = n)) acc = false).
  { apply not_true_is_false. intros (e & He & E%bool_decide_eq_true)%existsb_exists. rewrite map_app in Hd. apply list.NoDup_app in Hd as (_ & Hd & _).
    apply (Hd n); [apply list_elem_of_In, in_map_iff; by exists e|cbn; apply elem_of_cons; by left]. }
  rewrite Hfresh. rewrite <- app_assoc. eapply reads_bind; [by apply reads_store, reads_i64|]. eapply reads_bind; [by apply reads_store, reads_i64|].
  replace (acc ++ (n, mk_entry o k) :: l) with ((acc ++ [(n, mk_entry o k)]) ++ l) in * by (by rewrite <- app_assoc). by apply IH.
Qed.

Lemma keeps_entries b n : forall acc, preserves (fun s => SliceInput.buf s = b) (read_entries n acc).
Proof.
  induction n as [|n IH]; intros acc; cbn [read_entries]; [keeps|]. apply preserves_bind; [keeps|]. intros id. apply preserves_if; [keeps|].
  apply preserves_bind; [keeps|]. intros o. apply preserves_bind; [keeps|]. intros k. apply IH.
Qed.

Lemma layout_names pos files : map fst (layout pos files) = map fst files.
Proof. revert pos. induction files as [|[n b] files IH]; intros pos; [done|]. cbn [layout map fst]. by rewrite IH. Qed.

Lemma layout_bounds files : forall pos, 0 <= pos -> Forall (fun e => pos <= offset e.2 /\ 0 <= length e.2 /\ offset e.2 + length e.2 <= pos + zlen (packed_data pos files)) (layout pos files).
Proof.
  induction files as [|[n b] files IH]; intros pos Hp; cbn [layout packed_data]; [constructor|]. pose proof (entry_start_spec pos b Hp) as [[Hs _] _].
  pose proof (zlen_nonneg b). set (start := entry_start pos b) in *. specialize (IH (start + zlen b) ltac:(lia)).
  assert (E : zlen (replicate (Z.to_nat (start - pos)) 0 ++ b ++ packed_data (start + zlen b) files) = start - pos + (zlen b + zlen (packed_data (start + zlen b) files))).
  { rewrite !zlen_app. unfold zlen at 1. rewrite length_replicate, Z2Nat.id by lia. done. }
  rewrite E. pose proof (zlen_nonneg (packed_data (start + zlen b) files)). constructor; [cbn; lia|].
  eapply Forall_impl; [|exact IH]. intros e He. cbn in *. lia.
Qed.

Lemma paged_start pos b : 0 <= pos -> is_paged b = true -> zlen b <= ZSTD_PAGED_PAGE_SIZE ->
  entry_start pos b mod ZSTD_PAGED_PAGE_SIZE + zlen b <= ZSTD_PAGED_PAGE_SIZE.
Proof.
  intros Hp Hpg Hb. unfold entry_start. rewrite Hpg. cbn [negb]. cbv zeta. pose proof (next_multiple_spec pos ZSTD_PAGED_PAGE_SIZE Hp ltac:(done)) as [_ E].
  pose proof (Z.mod_pos_bound (next_multiple_of pos ALIGNMENT_BYTES) ZSTD_PAGED_PAGE_SIZE ltac:(done)). destruct (Z.leb_spec (zlen b) (Z.max 0 (ZSTD_PAGED_PAGE_SIZE - next_multiple_of pos ALIGNMENT_BYTES mod ZSTD_PAGED_PAGE_SIZE))); lia.
Qed.

(** A packed file's bytes, and its entry. *)
Lemma layout_slice files n b : In (n, b) files -> forall pos, 0 <= pos -> exists start before after,
  In (n, mk_entry start (zlen b)) (layout pos files) /\ packed_data pos files = before ++ b ++ after /\ start = pos + zlen before /\ start mod ALIGNMENT_BYTES = 0 /\
  (is_paged b = true -> zlen b <= ZSTD_PAGED_PAGE_SIZE -> start mod ZSTD_PAGED_PAGE_SIZE + zlen b <= ZSTD_PAGED_PAGE_SIZE).
Proof.
  induction files as [|[n0 b0] files IH]; [done|]. intros Hin pos Hp. pose proof (entry_start_spec pos b0 Hp) as [[Hs _] Ha]. cbn [layout packed_data].
  set (start := entry_start pos b0) in *. pose proof (zlen_nonneg b0). assert (Hr : zlen (replicate (Z.to_nat (start - pos)) 0) = start - pos) by (unfold zlen; rewrite length_replicate; lia).
  destruct Hin as [[= -> ->]|Hin].
  - exists start, (replicate (Z.to_nat (start - pos)) 0), (packed_data (start + zlen b) files). split; [by left|]. split; [done|]. split; [lia|]. split; [done|]. intros. by apply paged_start.
  - destruct (IH Hin (start + zlen b0) ltac:(lia)) as (st & before & after & H1 & H2 & H3 & H4).
    exists st, (replicate (Z.to_nat (start - pos)) 0 ++ b0 ++ before), after. split; [by right|]. split; [rewrite H2; by rewrite <- !app_assoc|]. split; [|done].
    rewrite !zlen_app, Hr. lia.
Qed.

Lemma extent_exact e : 0 <= offset e -> 0 <= length e -> offset e + length e < 2 ^ 63 -> extent e = offset e + length e.
Proof. intros. unfold extent, i64_saturating_add. cbv zeta. destruct (Z.leb_spec 0 (Z.max (- 2 ^ 63) (Z.min (2 ^ 63 - 1) (offset e + length e)))); lia. Qed.

(** The last byte of a sub-file is the last byte of the data. *)
Lemma extents_end files : forall pos, 0 <= pos -> pos + zlen (packed_data pos files) < 2 ^ 63 ->
  fold_left Z.max (map (fun e => extent e.2) (layout pos files)) pos = pos + zlen (packed_data pos files).
Proof.
  induction files as [|[n b] files IH]; intros pos Hp Hl; cbn [layout packed_data map fold_left]; [rewrite zlen_nil; lia|].
  pose proof (entry_start_spec pos b Hp) as [[Hs _] _]. set (start := entry_start pos b) in *. pose proof (zlen_nonneg b).
  assert (E : zlen (packed_data pos ((n, b) :: files)) = start - pos + (zlen b + zlen (packed_data (start + zlen b) files))).
  { cbn [packed_data]. fold start. rewrite !zlen_app. unfold zlen at 1. rewrite length_replicate, Z2Nat.id by lia. done. }
  cbn [packed_data] in E, Hl. fold start in E, Hl. rewrite E in Hl |- *. pose proof (zlen_nonneg (packed_data (start + zlen b) files)).
  rewrite extent_exact by (cbn; lia). cbn [snd offset length]. rewrite (Z.max_r pos) by lia. rewrite IH by lia. lia.
Qed.

Lemma find_entry l n e : NoDup (map fst l) -> In (n, e) l -> List.find (fun x : list byte * FileEntry => bool_decide (x.1 = n)) l = Some (n, e).
Proof.
  induction l as [|[n0 e0] l IH]; [done|]. cbn [map fst List.find]. intros [Hn Hd]%list.NoDup_cons [[= -> ->]|Hin].
  - by rewrite bool_decide_eq_true_2.
  - rewrite bool_decide_eq_false_2; [by apply IH|]. intros ->. apply Hn, list_elem_of_In, in_map_iff. by exists (n, e).
Qed.

(** What opens is the entry's bytes, wherever the table came from. *)
Lemma open_spec data t id s : open_input data t id = Ok s <->
  exists e before, get t id = Some e /\ SliceInput.pos s = 0 /\ (exists after, data = before ++ SliceInput.buf s ++ after) /\
    zlen before = wrapu 64 (offset e) /\ zlen (SliceInput.buf s) = wrapu 64 (length e) /\ wrapu 64 (offset e) + wrapu 64 (length e) < 2 ^ 64.
Proof.
  unfold open_input, SliceInput.slice_input, checked_add, SliceInput.new. cbn [SliceInput.buf]. destruct (get t id) as [e|]; [|split; [done|by intros (e & ? & ? & _)]].
  set (o := wrapu 64 (offset e)). set (k := wrapu 64 (length e)). pose proof (wrapu_range 64 (offset e) ltac:(lia)) as Ho. pose proof (wrapu_range 64 (length e) ltac:(lia)) as Hk.
  fold o in Ho. fold k in Hk. unfold usize_max. split.
  - destruct (Z.leb_spec (o + k) (2 ^ 64 - 1)); [|done]. destruct (zslice data o (o + k)) as [b|] eqn:E; [|done]. intros [= <-].
    apply zslice_Some in E as (x & y & -> & Hx & Hb). exists e, x. cbn [SliceInput.pos SliceInput.buf]. split; [done|]. split; [done|]. split; [by exists y|]. split; [done|]. lia.
  - intros (e' & before & [= <-] & Hp & (after & ->) & Hb & Hs & Hsum). fold o in Hb, Hsum. fold k in Hs, Hsum. destruct (Z.leb_spec (o + k) (2 ^ 64 - 1)); [|lia].
    rewrite <- Hb, <- Hs, zslice_mid. destruct s as [b p]. cbn in *. by subst p.
Qed.

(** ** A codec's own file passes the writer's check. *)
Section files.
Context (crc : list byte -> Z).
Hypothesis crc_range : forall l, in_u 32 (crc l).

Lemma step_store {A} (m : M StoreError.Error SliceInput.t A) xs ys a file s :
  reads m xs a -> preserves (fun s => SliceInput.buf s = file) m ->
  SliceInput.inv s -> SliceInput.buf s = file -> view s = xs ++ ys ->
  exists s', store m s = (Ok a, s') /\ SliceInput.inv s' /\ SliceInput.buf s' = file /\ view s' = ys.
Proof.
  intros Hm Hk Hi Hb Hv. destruct (Hm s ys Hi Hv) as (s' & E & Hi' & Hv'). exists s'. unfold from_store. rewrite E. split; [done|]. split; [done|].
  split; [|done]. specialize (Hk s Hb). by rewrite E in Hk.
Qed.

Lemma keeps_skip b n : preserves (fun s => SliceInput.buf s = b) (skip (R := SliceInput.t) n).
Proof. intros s Hs. cbn. unfold SliceInput.slice_skip. by repeat case_match. Qed.

Lemma codec_file_verifies name codec v segment_id suffix body :
  let file := write_footer crc (index_header_bytes codec v segment_id suffix ++ body) in
  string_ok codec -> zlen segment_id = ID_LENGTH -> bytes_ok file -> zlen file < 2 ^ 63 ->
  verified crc segment_id (name, file).
Proof.
  intros file Hc Hid Hok Hl. unfold verified, verify_sub_file. cbn [fst snd]. pose proof (write_footer_bytes crc (index_header_bytes codec v segment_id suffix ++ body)) as E.
  fold file in E. set (payload := index_header_bytes codec v segment_id suffix ++ body) in *. set (c := crc (payload ++ footer_head FOOTER_MAGIC 0)) in *.
  assert (Hi : SliceInput.inv (SliceInput.new file)) by by apply new_input_inv.
  assert (Hlen : zlen file = zlen payload + 16) by (rewrite E; unfold footer_head; rewrite !zlen_app, !zlen_to_be; lia). clearbody file.
  destruct (step_store read_be_u32 (to_be 4 CODEC_MAGIC) (string_bytes codec ++ to_be 4 (wrapu 32 v) ++ segment_id ++ [zlen suffix] ++ suffix ++ body ++ footer_head FOOTER_MAGIC 0 ++ to_be 8 c) CODEC_MAGIC file _ (reads_magic _ codec_magic_ok) (keeps_be_u32 file) Hi eq_refl) as (s1 & E1 & Hi1 & B1 & V1).
  { change (view (SliceInput.new file)) with file. rewrite E. unfold payload, index_header_bytes, header_bytes. by rewrite <- !app_assoc. }
  rewrite (bind_Ok _ _ _ _ _ E1), Z.eqb_refl. cbn [negb].
  destruct (step_store read_string _ _ _ file s1 (reads_string codec Hc) (keeps_string file) Hi1 B1 V1) as (s2 & E2 & Hi2 & B2 & V2). rewrite (bind_Ok _ _ _ _ _ E2).
  destruct (step_store read_be_u32 _ _ _ file s2 (reads_be_u32 (wrapu 32 v) (wrapu_range 32 v ltac:(lia))) (keeps_be_u32 file) Hi2 B2 V2) as (s3 & E3 & Hi3 & B3 & V3). rewrite (bind_Ok _ _ _ _ _ E3).
  destruct (step_store (check_index_header_id segment_id) _ _ _ file s3 (check_id_reads segment_id Hid) (keeps_id file segment_id) Hi3 B3 V3) as (s4 & E4 & Hi4 & B4 & V4). rewrite (bind_Ok _ _ _ _ _ E4).
  destruct (step_store read_byte _ _ _ file s4 (reads_byte (zlen suffix)) (keeps_read_byte file) Hi4 B4 V4) as (s5 & E5 & Hi5 & B5 & V5). rewrite (bind_Ok _ _ _ _ _ E5).
  destruct (step_store (skip (zlen suffix)) _ _ _ file s5 (reads_skip suffix) (keeps_skip file _) Hi5 B5 V5) as (s6 & E6 & _ & B6 & _). rewrite (bind_Ok _ _ _ _ _ E6).
  pose proof (zlen_nonneg payload). unfold FOOTER_LENGTH. destruct (Z.ltb_spec (zlen file) 16); [lia|].
  assert (E7 : store (SliceInput.seek (zlen file - 16)) s6 = (Ok tt, SliceInput.mk file (zlen payload))).
  { unfold from_store, SliceInput.seek, SliceInput.len. rewrite B6. destruct (Z.ltb_spec (zlen file) (zlen file - 16)); [lia|].
    replace (zlen file - 16) with (zlen payload) by lia. done. }
  rewrite (bind_Ok _ _ _ _ _ E7). assert (Hcc : in_u 64 c) by (apply (in_u_weaken 32); [lia|apply crc_range]).
  pose proof (check_footer_verdict crc payload FOOTER_MAGIC 0 c footer_magic_ok ltac:(split; lia) Hcc) as Hv. cbn beta zeta in Hv. rewrite <- E in Hv. specialize (Hv Hok Hl).
  rewrite (proj2 (footer_verdict_Ok crc crc_range payload FOOTER_MAGIC 0 c c Hcc)) in Hv by done.
  unfold bind, from_store. destruct (check_footer crc (zlen file) _) as [r s7]. cbn [fst] in Hv. rewrite Hv. done.
Qed.
End files.

(** ** Writing, then opening. *)
Section round_trip.
Context (crc : list byte -> Z) (segment_id : list byte).
Hypothesis crc_range : forall l, in_u 32 (crc l).
Hypothesis id_length : zlen segment_id = ID_LENGTH.

Definition data_header : list byte := index_header_bytes DATA_CODEC VERSION_CURRENT segment_id [].
Definition entry_header : list byte := index_header_bytes ENTRY_CODEC VERSION_CURRENT segment_id [].
Definition table_of (files : list (list byte * list byte)) : list (list byte * FileEntry) := layout (zlen data_header) (sort_by_length files).
Definition data_body (files : list (list byte * list byte)) : list byte := data_header ++ packed_data (zlen data_header) (sort_by_length files).
Definition entry_body (files : list (list byte * list byte)) : list byte :=
  entry_header ++ count_bytes (zlen files) ++ concat (map entry_bytes (table_of files)).

Lemma data_header_length : zlen data_header = index_header_length DATA_CODEC [].
Proof. unfold data_header, index_header_bytes, header_bytes. rewrite !zlen_app, zlen_to_be, zlen_to_be, id_length. by vm_compute. Qed.

Lemma sort_by_length_zlen files : zlen (sort_by_length files) = zlen files.
Proof. unfold zlen. by rewrite sort_by_length_perm. Qed.

Lemma write_ok files : Forall (verified crc segment_id) files -> zlen files < 2 ^ 31 ->
  write crc segment_id files = Some (Ok (write_footer crc (data_body files), write_footer crc (entry_body files))).
Proof.
  intros Hf Hn. unfold write. cbv zeta. rewrite !write_index_header_spec by (done || by vm_compute). cbn [mbind option_bind write_bytes VecDataOutput app].
  assert (Ev : forall out : list byte, write_vint (wraps 32 (zlen (sort_by_length files))) out = out ++ count_bytes (zlen files)).
  { intros out. rewrite sort_by_length_zlen. exact (writes_vint (W := list byte) _ out). }
  rewrite Ev, pack_ok by (by rewrite sort_by_length_perm). do 3 f_equal. unfold entry_body. by rewrite <- app_assoc.
Qed.

Lemma write_err files front n b rest e : sort_by_length files = front ++ (n, b) :: rest -> Forall (verified crc segment_id) front ->
  verify_sub_file crc n b segment_id = Err e -> write crc segment_id files = Some (Err e).
Proof.
  intros Hs Hf He. unfold write. cbv zeta. rewrite !write_index_header_spec by (done || by vm_compute). cbn [mbind option_bind].
  rewrite Hs. by rewrite (pack_err crc segment_id front n b rest e).
Qed.

Lemma table_bounds files : zlen (data_body files) < 2 ^ 63 ->
  Forall (fun e => 0 <= offset e.2 /\ 0 <= length e.2 /\ offset e.2 + length e.2 <= zlen (data_body files)) (table_of files).
Proof.
  intros Hl. pose proof (zlen_nonneg data_header). unfold data_body in *. rewrite zlen_app in *. pose proof (layout_bounds (sort_by_length files) (zlen data_header) ltac:(lia)) as Hb.
  eapply Forall_impl; [|exact Hb]. intros e He. cbn in *. lia.
Qed.

(** What the body of the entries file says. *)
Definition read_table : P CompoundEntries :=
  let* header := store (check_index_header ENTRY_CODEC VERSION_START VERSION_CURRENT segment_id []) in
  let* num_entries := store read_vint in
  let* entries := read_entries (Z.to_nat num_entries) [] in
  ret (mk_entries (iversion header) entries).

Lemma parse_is_read_table buf :
  parse_entries crc buf segment_id = ((let* t := read_table in let* _ := store (check_footer crc (zlen buf)) in ret t) (SliceInput.new buf)).1.
Proof.
  unfold parse_entries, read_table, bind. destruct (store (check_index_header _ _ _ _ _) _) as [[h|e] s1]; [|done].
  destruct (store read_vint s1) as [[n|e] s2]; [|done]. by destruct (read_entries _ _ s2) as [[l|e] s3].
Qed.

Lemma reads_table files : zlen files < 2 ^ 31 -> NoDup (map fst files) -> Forall (fun f => string_ok f.1) files -> zlen (data_body files) < 2 ^ 63 ->
  reads read_table (entry_body files) (mk_entries VERSION_CURRENT (table_of files)).
Proof.
  intros Hn Hd Hs Hl. pose proof (zlen_nonneg files). unfold read_table, entry_body.
  eapply reads_bind; [apply reads_store, check_index_header_reads; [split; by vm_compute|done|done|by vm_compute]|]. eapply reads_bind.
  { apply reads_store. unfold count_bytes. apply reads_vint, wraps_range. lia. }
  rewrite wraps_id by (unfold in_s; change (32 - 1) with 31; lia).
  assert (Hk : Z.to_nat (zlen files) = List.length (table_of files)).
  { rewrite <- (sort_by_length_zlen files). unfold table_of. rewrite <- (length_map fst), layout_names, length_map. unfold zlen. lia. }
  assert (Hnames : map fst (table_of files) ≡ₚ map fst files) by (unfold table_of; rewrite layout_names, sort_by_length_perm; done).
  eapply reads_map; [rewrite Hk; apply (reads_entries (table_of files) [])|done].
  - cbn [app]. by rewrite Hnames.
  - pose proof (table_bounds files Hl) as Hb. apply List.Forall_forall. intros e He. rewrite List.Forall_forall in Hb. specialize (Hb e He).
    split; [|unfold in_s; change (64 - 1) with 63; lia].
    assert (Hin : In e.1 (map fst files)) by (apply list_elem_of_In; rewrite <- Hnames; apply list_elem_of_In; by apply in_map).
    apply in_map_iff in Hin as (f & <- & Hf). rewrite List.Forall_forall in Hs. by apply Hs.
Qed.

Lemma keeps_table b : preserves (fun s => SliceInput.buf s = b) read_table.
Proof.
  unfold read_table. apply preserves_bind; [keeps|]. intros h. apply preserves_bind; [keeps|]. intros n.
  apply preserves_bind; [apply keeps_entries|]. intros l. keeps.
Qed.

(** The data file against the table. *)
Lemma data_checks files : bytes_ok (write_footer crc (data_body files)) -> zlen (write_footer crc (data_body files)) < 2 ^ 63 ->
  check_data_header_footer (write_footer crc (data_body files)) segment_id (mk_entries VERSION_CURRENT (table_of files)) = Ok tt.
Proof.
  rewrite write_footer_bytes. set (c := crc _). set (tail := footer_head FOOTER_MAGIC 0 ++ to_be 8 c). intros Hok Hl.
  assert (Hcc : in_u 64 c) by (apply (in_u_weaken 32); [lia|apply crc_range]).
  assert (Hi : SliceInput.inv (SliceInput.new (data_body files ++ tail))) by by apply new_input_inv.
  assert (Ht : zlen (data_body files ++ tail) = zlen (data_body files) + 16) by (unfold tail, footer_head; rewrite !zlen_app, !zlen_to_be; lia).
  unfold check_data_header_footer. cbn [version entries].
  assert (Hh : reads (R := SliceInput.t) (check_index_header DATA_CODEC VERSION_CURRENT VERSION_CURRENT segment_id []) data_header (mk_index_header VERSION_CURRENT segment_id []))
    by (apply check_index_header_reads; [split; by vm_compute|done|done|by vm_compute]).
  destruct (Hh (SliceInput.new (data_body files ++ tail)) (packed_data (zlen data_header) (sort_by_length files) ++ tail) Hi) as (s & E & _);
    [change (view (SliceInput.new (data_body files ++ tail))) with (data_body files ++ tail); unfold data_body; by rewrite <- app_assoc|].
  unfold from_store. rewrite E. cbn [fst].
  pose proof (retrieve_checksum_fields (data_body files) FOOTER_MAGIC 0 c footer_magic_ok ltac:(split; lia) Hcc) as Hr. cbv zeta in Hr. fold tail in Hr. rewrite Hr by done. clear Hr.
  rewrite !bool_decide_eq_false_2 by (intros Hx; (by apply Hx) || (apply Hx, high_mask_0; [done|apply crc_range])). rewrite Ht.
  assert (Hb : zlen (data_body files) = zlen data_header + zlen (packed_data (zlen data_header) (sort_by_length files))) by apply zlen_app.
  pose proof (zlen_nonneg data_header). pose proof (extents_end (sort_by_length files) (zlen data_header) ltac:(lia) ltac:(lia)) as Hx. rewrite <- Hb in Hx.
  assert (Hm : match map (fun e => extent e.2) (table_of files) with [] => index_header_length DATA_CODEC [] | x :: l => fold_left Z.max l x end = zlen (data_body files)).
  { rewrite <- Hx. unfold table_of in *. pose proof (table_bounds files ltac:(lia)) as Hbd. unfold table_of in Hbd. rewrite <- data_header_length.
    pose proof (layout_bounds (sort_by_length files) (zlen data_header) ltac:(lia)) as Hlo.
    destruct (layout (zlen data_header) (sort_by_length files)) as [|x l]; [done|]. cbn [map fold_left]. apply Forall_inv in Hbd, Hlo. f_equal. rewrite extent_exact by lia. lia. }
  rewrite Hm. unfold FOOTER_LENGTH. pose proof (zlen_nonneg (data_body files)). rewrite saturating_add_small by lia. by rewrite Z.eqb_refl.
Qed.

Lemma opens_packed files n b tail : NoDup (map fst files) -> In (n, b) files -> zlen (data_body files) < 2 ^ 63 ->
  exists start, get (mk_entries VERSION_CURRENT (table_of files)) n = Some (mk_entry start (zlen b)) /\ start mod ALIGNMENT_BYTES = 0 /\
    (is_paged b = true -> zlen b <= ZSTD_PAGED_PAGE_SIZE -> start mod ZSTD_PAGED_PAGE_SIZE + zlen b <= ZSTD_PAGED_PAGE_SIZE) /\
    open_input (data_body files ++ tail) (mk_entries VERSION_CURRENT (table_of files)) n = Ok (SliceInput.new b).
Proof.
  intros Hd Hin Hl. assert (Hin' : In (n, b) (sort_by_length files)) by (apply list_elem_of_In; rewrite sort_by_length_perm; by apply list_elem_of_In).
  pose proof (zlen_nonneg data_header). destruct (layout_slice _ n b Hin' (zlen data_header) ltac:(lia)) as (start & before & after & Ht & Hp & Hs & Ha & Hpg).
  assert (Hg : get (mk_entries VERSION_CURRENT (table_of files)) n = Some (mk_entry start (zlen b))).
  { unfold get. cbn [entries]. rewrite (find_entry _ n (mk_entry start (zlen b))); [done| |done]. unfold table_of. by rewrite layout_names, sort_by_length_perm. }
  exists start. split; [done|]. split; [done|]. split; [done|]. apply open_spec. exists (mk_entry start (zlen b)), (data_header ++ before). cbn [SliceInput.pos SliceInput.buf SliceInput.new offset length].
  assert (E : data_body files = (data_header ++ before) ++ b ++ after) by (unfold data_body; rewrite Hp; by rewrite <- app_assoc).
  assert (El : zlen (data_body files) = start + (zlen b + zlen after)) by (rewrite E, !zlen_app; lia).
  pose proof (zlen_nonneg before); pose proof (zlen_nonneg b); pose proof (zlen_nonneg after).
  rewrite !(wrapu_id 64) by (split; lia). split; [done|]. split; [done|]. split; [exists (after ++ tail); rewrite E, <- !app_assoc; done|]. rewrite zlen_app. lia.
Qed.

(** C21: sub-files written for a segment, under distinct names, are packed; the
    table read back from the entries file names exactly them, the data file
    passes the check against it, and every sub-file opens, byte for byte, from
    an aligned offset -- a paged one that fits a page, without straddling two. *)
Theorem compound_file_round_trip files :
  Forall (verified crc segment_id) files -> NoDup (map fst files) -> Forall (fun f => string_ok f.1) files -> zlen files < 2 ^ 31 ->
  exists cfs cfe, write crc segment_id files = Some (Ok (cfs, cfe)) /\
    (bytes_ok cfs -> bytes_ok cfe -> zlen cfs < 2 ^ 63 -> zlen cfe < 2 ^ 63 ->
     exists t, parse_entries crc cfe segment_id = Ok t /\ check_data_header_footer cfs segment_id t = Ok tt /\ names t ≡ₚ map fst files /\
       forall n b, In (n, b) files -> exists start, get t n = Some (mk_entry start (zlen b)) /\ start mod ALIGNMENT_BYTES = 0 /\
         (is_paged b = true -> zlen b <= ZSTD_PAGED_PAGE_SIZE -> start mod ZSTD_PAGED_PAGE_SIZE + zlen b <= ZSTD_PAGED_PAGE_SIZE) /\
         open_input cfs t n = Ok (SliceInput.new b)).
Proof.
  intros Hf Hd Hs Hn. eexists _, _. split; [by apply write_ok|]. intros Ho Hoe Hl Hle. exists (mk_entries VERSION_CURRENT (table_of files)).
  assert (Hb : zlen (data_body files) < 2 ^ 63).
  { rewrite write_footer_bytes, zlen_app in Hl. pose proof (zlen_nonneg (footer_head FOOTER_MAGIC 0 ++ to_be 8 (crc (data_body files ++ footer_head FOOTER_MAGIC 0)))). lia. }
  split; [|split; [by apply data_checks|split]].
  - rewrite parse_is_read_table. destruct (reads_whole_file Store crc crc_range read_table ret (entry_body files) (mk_entries VERSION_CURRENT (table_of files))) as (s & E);
      [by apply reads_table|apply keeps_table|done..|]. by rewrite E.
  - unfold names. cbn [entries]. unfold table_of. by rewrite layout_names, sort_by_length_perm.
  - intros n b Hin. rewrite write_footer_bytes. by apply opens_packed.
Qed.

(** The writer stops at the first sub-file, smallest first, that is not the
    segment's own or is damaged, with that file's error, and packs nothing. *)
Lemma bad_sub_file_stops_the_writer files : zlen files < 2 ^ 31 ->
  (Forall (verified crc segment_id) files /\ exists pair, write crc segment_id files = Some (Ok pair)) \/
  exists front n b rest e, sort_by_length files = front ++ (n, b) :: rest /\ Forall (verified crc segment_id) front /\
    verify_sub_file crc n b segment_id = Err e /\ write crc segment_id files = Some (Err e).
Proof.
  intros Hn. assert (Hc : forall l, Forall (verified crc segment_id) l \/ exists front n b rest e, l = front ++ (n, b) :: rest /\ Forall (verified crc segment_id) front /\ verify_sub_file crc n b segment_id = Err e).
  { induction l as [|[n b] l IH]; [left; constructor|]. destruct (verify_sub_file crc n b segment_id) as [[]|e] eqn:E.
    - destruct IH as [IH|(front & n' & b' & rest & e & -> & Hf & He)]; [left; by constructor|]. right. exists ((n, b) :: front), n', b', rest, e. split; [done|]. split; [by constructor|done].
    - right. exists [], n, b, l, e. split; [done|]. split; [constructor|done]. }
  destruct (Hc (sort_by_length files)) as [Hf|(front & n & b & rest & e & Hs & Hf & He)]; [left|right].
  - rewrite sort_by_length_perm in Hf. split; [done|]. eexists. by apply write_ok.
  - exists front, n, b, rest, e. split; [done|]. split; [done|]. split; [done|]. by eapply write_err.
Qed.
End round_trip.

(** Whatever the table says, what opens is a range of the data file. *)
Lemma opened_files_are_inside_the_data data t id s : open_input data t id = Ok s ->
  In id (names t) /\ SliceInput.pos s = 0 /\ exists before after, data = before ++ SliceInput.buf s ++ after.
Proof.
  intros (e & before & Hg & Hp & (after & Hd) & _)%open_spec. split; [|split; [done|by exists before, after]].
  unfold get in Hg. destruct (List.find _ _) as [[n e']|] eqn:E; [|done]. apply List.find_some in E as [Hin Hn%bool_decide_eq_true]. cbn in Hn. subst n.
  unfold names. by apply in_map_iff; exists (id, e').
Qed.

(** ** A segment of two files. *)
Definition sample_id : list byte := replicate 16 7.
Definition sample_sub_file (codec body : list byte) : list byte := write_footer ieee_crc32 (index_header_bytes codec 0 sample_id [] ++ body).
Definition sample_files : list (list byte * list byte) :=
  [(bytes ".fdt", sample_sub_file DATA_CODEC_ZSTD_PAGED (replicate 40 5)); (bytes ".fnm", sample_sub_file (bytes "Fields") [1; 2; 3])].
Definition damaged_files : list (list byte * list byte) := sample_files ++ [(bytes ".si", sample_sub_file (bytes "Segment") [9] ++ [0])].

Lemma sample_verified : Forall (verified ieee_crc32 sample_id) sample_files.
Proof. repeat constructor; by vm_compute. Qed.

Lemma compound_file_round_trip_witness :
  exists cfs cfe t, write ieee_crc32 sample_id sample_files = Some (Ok (cfs, cfe)) /\ parse_entries ieee_crc32 cfe sample_id = Ok t /\
    map (fun e => offset e.2) (entries t) = [64; 128] /\ open_input cfs t (bytes ".fnm") = Ok (SliceInput.new (sample_sub_file (bytes "Fields") [1; 2; 3])).
Proof.
  destruct (compound_file_round_trip ieee_crc32 sample_id ieee_range eq_refl sample_files) as (cfs & cfe & Hw & Hr).
  - exact sample_verified.
  - apply (bool_decide_unpack _). by vm_compute.
  - repeat constructor; by vm_compute.
  - reflexivity.
  - exists cfs, cfe. assert (E : Some (Ok (cfs, cfe)) = write ieee_crc32 sample_id sample_files) by (by rewrite Hw). vm_compute in E. injection E as -> ->.
    destruct Hr as (t & Ht & _ & _ & Ho); [by apply bytes_okb_ok|by apply bytes_okb_ok|by vm_compute..|].
    exists t. split; [exact Hw|]. split; [exact Ht|]. split; [assert (Et : @Ok Error _ t = Ok t) by done; rewrite <- Ht in Et at 1; vm_compute in Et; injection Et as <-; by vm_compute|].
    destruct (Ho (bytes ".fnm") (sample_sub_file (bytes "Fields") [1; 2; 3])) as (start & _ & _ & _ & H); [by right; left|exact H].
Defined.

Lemma bad_sub_file_stops_the_writer_witness :
  exists e, write ieee_crc32 sample_id damaged_files = Some (Err e).
Proof.
  destruct (bad_sub_file_stops_the_writer ieee_crc32 sample_id eq_refl damaged_files ltac:(by vm_compute)) as [[Hf _]|(front & n & b & rest & e & _ & _ & _ & H)]; [|by exists e].
  exfalso. pose proof (Forall_inv (Forall_inv_tail (Forall_inv_tail Hf))) as Hx. vm_compute in Hx. discriminate Hx.
Defined.

Lemma opened_files_are_inside_the_data_witness :
  exists before after, [1; 2; 3; 4] = before ++ [2; 3] ++ after.
Proof.
  destruct (opened_files_are_inside_the_data [1; 2; 3; 4] (mk_entries 0 [([5], mk_entry 1 2)]) [5] (SliceInput.new [2; 3]) eq_refl) as (_ & _ & H). exact H.
Defined.
End CompoundFormat.
