(* ===== verification/FieldInfos.v ===== *)
(** * Field infos ([lucene-codecs/src/field_infos.rs])

    What a segment knows of its fields, the [.fnm] file both generations of it
    are read from, the constructor's checks ([checked], [new]) and the writer.
    Proved: reading what was written is the constructor, errors included;
    whatever bytes are read, the fields are consistent, their names and
    numbers distinct, with at most one soft-deletes and one parent field; and
    such fields can be written and are read back unchanged. *)
From stdpp Require Import strings.
From S2P Require Import Prelude StoreError ZigZag DataOutput DataInput SliceInput Wire CodecUtil SegmentNames SegmentFile.

Module FieldInfos.

Definition CODEC_NAME : list byte := bytes "Lucene94FieldInfos".
Definition LUCENE90_CODEC_NAME : list byte := bytes "Lucene90FieldInfos".
Definition FORMAT_START : Z := 0.
Definition FORMAT_PARENT_FIELD : Z := 1.
Definition FORMAT_DOCVALUE_SKIPPER : Z := 2.
Definition FORMAT_CURRENT : Z := FORMAT_DOCVALUE_SKIPPER.
Definition STORE_TERMVECTOR : Z := 0x1.
Definition OMIT_NORMS : Z := 0x2.
Definition STORE_PAYLOADS : Z := 0x4.
Definition SOFT_DELETES_FIELD : Z := 0x8.
Definition PARENT_FIELD_FIELD : Z := 0x10.
Definition DOCVALUES_SKIPPER : Z := 0x20.

Inductive Error : Type :=
| Store (e : StoreError.Error)
| InvalidFieldNumber (field : list byte) (number : Z)
| UnusedBitsSet (bits : Z)
| ParentFieldBitSetButTooOld (bits : Z)
| DocValuesSkipperBitSetButTooOld (bits : Z)
| InvalidIndexOptions (b : Z)
| InvalidDocValuesType (b : Z)
| InvalidDocValuesSkipIndexType (b : Z)
| InvalidVectorEncoding (b : Z)
| InvalidVectorSimilarityFunction (b : Z)
| Inconsistent (field : list byte) (why : string)
| InvalidFieldInfos (why : string).

Inductive IndexOptions : Type :=
| IndexNone | Docs | DocsAndFreqs | DocsAndFreqsAndPositions | DocsAndFreqsAndPositionsAndOffsets | DocsAndCustomFreqs.
Inductive DocValuesType : Type := DvNone | Numeric | Binary | Sorted | SortedSet | SortedNumeric.
Inductive DocValuesSkipIndexType : Type := SkipNone | SkipRange.
Inductive VectorEncoding : Type := VectorByte | VectorFloat32.
Inductive VectorSimilarityFunction : Type := Euclidean | DotProduct | Cosine | MaximumInnerProduct.

#[export] Instance index_options_dec : EqDecision IndexOptions.
Proof. solve_decision. Defined.
#[export] Instance doc_values_type_dec : EqDecision DocValuesType.
Proof. solve_decision. Defined.

Definition index_options_from_byte (b : Z) : result Error IndexOptions :=
  if b =? 0 then Ok IndexNone else if b =? 1 then Ok Docs else if b =? 2 then Ok DocsAndFreqs
  else if b =? 3 then Ok DocsAndFreqsAndPositions else if b =? 4 then Ok DocsAndFreqsAndPositionsAndOffsets
  else if b =? 5 then Ok DocsAndCustomFreqs else Err (InvalidIndexOptions b).
Definition index_options_to_byte (o : IndexOptions) : Z :=
  match o with
  | IndexNone => 0 | Docs => 1 | DocsAndFreqs => 2 | DocsAndFreqsAndPositions => 3
  | DocsAndFreqsAndPositionsAndOffsets => 4 | DocsAndCustomFreqs => 5
  end.
Definition subsumes_positions (o : IndexOptions) : bool :=
  match o with DocsAndFreqsAndPositions | DocsAndFreqsAndPositionsAndOffsets => true | _ => false end.
Definition subsumes_offsets (o : IndexOptions) : bool :=
  match o with DocsAndFreqsAndPositionsAndOffsets => true | _ => false end.

Definition doc_values_type_from_byte (b : Z) : result Error DocValuesType :=
  if b =? 0 then Ok DvNone else if b =? 1 then Ok Numeric else if b =? 2 then Ok Binary else if b =? 3 then Ok Sorted
  else if b =? 4 then Ok SortedSet else if b =? 5 then Ok SortedNumeric else Err (InvalidDocValuesType b).
Definition doc_values_type_to_byte (t : DocValuesType) : Z :=
  match t with DvNone => 0 | Numeric => 1 | Binary => 2 | Sorted => 3 | SortedSet => 4 | SortedNumeric => 5 end.

Definition skip_index_from_byte (b : Z) : result Error DocValuesSkipIndexType :=
  if b =? 0 then Ok SkipNone else if b =? 1 then Ok SkipRange else Err (InvalidDocValuesSkipIndexType b).
Definition skip_index_to_byte (t : DocValuesSkipIndexType) : Z := match t with SkipNone => 0 | SkipRange => 1 end.
Definition is_compatible_with (s : DocValuesSkipIndexType) (t : DocValuesType) : bool :=
  match s with
  | SkipNone => true
  | SkipRange => match t with Numeric | SortedNumeric | Sorted | SortedSet => true | _ => false end
  end.

Definition vector_encoding_from_byte (b : Z) : result Error VectorEncoding :=
  if b =? 0 then Ok VectorByte else if b =? 1 then Ok VectorFloat32 else Err (InvalidVectorEncoding b).
Definition vector_encoding_to_byte (e : VectorEncoding) : Z := match e with VectorByte => 0 | VectorFloat32 => 1 end.
Definition similarity_from_byte (b : Z) : result Error VectorSimilarityFunction :=
  if b =? 0 then Ok Euclidean else if b =? 1 then Ok DotProduct else if b =? 2 then Ok Cosine
  else if b =? 3 then Ok MaximumInnerProduct else Err (InvalidVectorSimilarityFunction b).
Definition similarity_to_byte (s : VectorSimilarityFunction) : Z :=
  match s with Euclidean => 0 | DotProduct => 1 | Cosine => 2 | MaximumInnerProduct => 3 end.

Record FieldInfo : Type := mk_field {
  name : list byte;
  number : Z;
  store_term_vectors : bool;
  omit_norms : bool;
  store_payloads : bool;
  soft_deletes_field : bool;
  parent_field : bool;
  index_options : IndexOptions;
  doc_values_type : DocValuesType;
  doc_values_skip_index_type : DocValuesSkipIndexType;
  doc_values_gen : Z;
  attributes : list (list byte * list byte);
  point_dimension_count : Z;
  point_index_dimension_count : Z;
  point_num_bytes : Z;
  vector_dimension : Z;
  vector_encoding : VectorEncoding;
  vector_similarity_function : VectorSimilarityFunction;
}.

Definition field_new (name : list byte) (number : Z) : FieldInfo :=
  mk_field name number false false false false false IndexNone DvNone SkipNone (-1) [] 0 0 0 0 VectorFloat32 Euclidean.
Definition with_index_options (f : FieldInfo) (o : IndexOptions) : FieldInfo :=
  mk_field (name f) (number f) (store_term_vectors f) (omit_norms f) (store_payloads f) (soft_deletes_field f) (parent_field f) o (doc_values_type f) (doc_values_skip_index_type f) (doc_values_gen f) (attributes f) (point_dimension_count f) (point_index_dimension_count f) (point_num_bytes f) (vector_dimension f) (vector_encoding f) (vector_similarity_function f).
Definition with_store_term_vectors (f : FieldInfo) (b : bool) : FieldInfo :=
  mk_field (name f) (number f) b (omit_norms f) (store_payloads f) (soft_deletes_field f) (parent_field f) (index_options f) (doc_values_type f) (doc_values_skip_index_type f) (doc_values_gen f) (attributes f) (point_dimension_count f) (point_index_dimension_count f) (point_num_bytes f) (vector_dimension f) (vector_encoding f) (vector_similarity_function f).
Definition with_omit_norms (f : FieldInfo) (b : bool) : FieldInfo :=
  mk_field (name f) (number f) (store_term_vectors f) b (store_payloads f) (soft_deletes_field f) (parent_field f) (index_options f) (doc_values_type f) (doc_values_skip_index_type f) (doc_values_gen f) (attributes f) (point_dimension_count f) (point_index_dimension_count f) (point_num_bytes f) (vector_dimension f) (vector_encoding f) (vector_similarity_function f).
Definition with_store_payloads (f : FieldInfo) (b : bool) : FieldInfo :=
  mk_field (name f) (number f) (store_term_vectors f) (omit_norms f) b (soft_deletes_field f) (parent_field f) (index_options f) (doc_values_type f) (doc_values_skip_index_type f) (doc_values_gen f) (attributes f) (point_dimension_count f) (point_index_dimension_count f) (point_num_bytes f) (vector_dimension f) (vector_encoding f) (vector_similarity_function f).
Definition with_soft_deletes_field (f : FieldInfo) (b : bool) : FieldInfo :=
  mk_field (name f) (number f) (store_term_vectors f) (omit_norms f) (store_payloads f) b (parent_field f) (index_options f) (doc_values_type f) (doc_values_skip_index_type f) (doc_values_gen f) (attributes f) (point_dimension_count f) (point_index_dimension_count f) (point_num_bytes f) (vector_dimension f) (vector_encoding f) (vector_similarity_function f).
Definition with_parent_field (f : FieldInfo) (b : bool) : FieldInfo :=
  mk_field (name f) (number f) (store_term_vectors f) (omit_norms f) (store_payloads f) (soft_deletes_field f) b (index_options f) (doc_values_type f) (doc_values_skip_index_type f) (doc_values_gen f) (attributes f) (point_dimension_count f) (point_index_dimension_count f) (point_num_bytes f) (vector_dimension f) (vector_encoding f) (vector_similarity_function f).
Definition with_doc_values (f : FieldInfo) (t : DocValuesType) (skip : DocValuesSkipIndexType) (gen : Z) : FieldInfo :=
  mk_field (name f) (number f) (store_term_vectors f) (omit_norms f) (store_payloads f) (soft_deletes_field f) (parent_field f) (index_options f) t skip gen (attributes f) (point_dimension_count f) (point_index_dimension_count f) (point_num_bytes f) (vector_dimension f) (vector_encoding f) (vector_similarity_function f).
Definition with_attributes (f : FieldInfo) (a : list (list byte * list byte)) : FieldInfo :=
  mk_field (name f) (number f) (store_term_vectors f) (omit_norms f) (store_payloads f) (soft_deletes_field f) (parent_field f) (index_options f) (doc_values_type f) (doc_values_skip_index_type f) (doc_values_gen f) a (point_dimension_count f) (point_index_dimension_count f) (point_num_bytes f) (vector_dimension f) (vector_encoding f) (vector_similarity_function f).
Definition with_points (f : FieldInfo) (dims : Z) (index_dims : Z) (num_bytes : Z) : FieldInfo :=
  mk_field (name f) (number f) (store_term_vectors f) (omit_norms f) (store_payloads f) (soft_deletes_field f) (parent_field f) (index_options f) (doc_values_type f) (doc_values_skip_index_type f) (doc_values_gen f) (attributes f) dims index_dims num_bytes (vector_dimension f) (vector_encoding f) (vector_similarity_function f).
Definition with_vectors (f : FieldInfo) (dim : Z) (encoding : VectorEncoding) (similarity : VectorSimilarityFunction) : FieldInfo :=
  mk_field (name f) (number f) (store_term_vectors f) (omit_norms f) (store_payloads f) (soft_deletes_field f) (parent_field f) (index_options f) (doc_values_type f) (doc_values_skip_index_type f) (doc_values_gen f) (attributes f) (point_dimension_count f) (point_index_dimension_count f) (point_num_bytes f) dim encoding similarity.

Definition field_check_consistency (f : FieldInfo) : result Error unit :=
  let err why := Err (Inconsistent (name f) why) in
  match (if decide (index_options f = IndexNone) then
           if store_term_vectors f then err "non-indexed field cannot store term vectors"%string
           else if store_payloads f then err "non-indexed field cannot store payloads"%string
           else if omit_norms f then err "non-indexed field cannot omit norms"%string
           else Ok tt
         else if negb (subsumes_positions (index_options f)) && store_payloads f then err "indexed field cannot have payloads without positions"%string
         else Ok tt) with
  | Err e => Err e
  | Ok _ =>
      if negb (is_compatible_with (doc_values_skip_index_type f) (doc_values_type f)) then err "incompatible docValuesSkipIndexType with doc values type"%string
      else if negb (doc_values_gen f =? -1) && bool_decide (doc_values_type f = DvNone) then err "cannot have a docvalues update generation without having docvalues"%string
      else if point_dimension_count f <? 0 then err "pointDimensionCount must be >= 0"%string
      else if point_index_dimension_count f <? 0 then err "pointIndexDimensionCount must be >= 0"%string
      else if point_num_bytes f <? 0 then err "pointNumBytes must be >= 0"%string
      else if negb (point_dimension_count f =? 0) && (point_num_bytes f =? 0) then err "pointNumBytes must be > 0 when pointDimensionCount != 0"%string
      else if negb (point_index_dimension_count f =? 0) && (point_dimension_count f =? 0) then err "pointIndexDimensionCount must be 0 when pointDimensionCount=0"%string
      else if negb (point_num_bytes f =? 0) && (point_dimension_count f =? 0) then err "pointDimensionCount must be > 0 when pointNumBytes != 0"%string
      else if vector_dimension f <? 0 then err "vectorDimension must be >= 0"%string
      else if soft_deletes_field f && parent_field f then err "field can't be used as soft-deletes field and parent document field"%string
      else Ok tt
  end.

Definition checked (f : FieldInfo) : result Error FieldInfo :=
  let f := if decide (index_options f = IndexNone) then with_omit_norms (with_store_payloads (with_store_term_vectors f false) false) false else f in
  match field_check_consistency f with Err e => Err e | Ok _ => Ok f end.

Definition has_prox (fields : list FieldInfo) : bool := existsb (fun f => subsumes_positions (index_options f)) fields.
Definition has_payloads_or_offsets (fields : list FieldInfo) : bool :=
  existsb (fun f => subsumes_offsets (index_options f) || (store_payloads f && subsumes_positions (index_options f))) fields.

(** The checks of one field against those before it. *)
Fixpoint check_previous (f : FieldInfo) (previous : list FieldInfo) : result Error unit :=
  match previous with
  | [] => Ok tt
  | p :: previous =>
      if bool_decide (name p = name f) then Err (InvalidFieldInfos "duplicate field names: {} and {} have: {}")
      else if number p =? number f then Err (InvalidFieldInfos "duplicate field numbers: {} and {} have: {}")
      else check_previous f previous
  end.
(** [soft_deletes] and [parent]: the field of that kind met last. *)
Definition check_only (flag : bool) (found : option (list byte)) (f : FieldInfo) (why : string) : result Error (option (list byte)) :=
  if flag then
    match found with
    | Some existing => if bool_decide (existing <> name f) then Err (InvalidFieldInfos why) else Ok (Some (name f))
    | None => Ok (Some (name f))
    end
  else Ok found.
Fixpoint check_loop (previous fields : list FieldInfo) (soft_deletes parent : option (list byte)) : result Error unit :=
  match fields with
  | [] => Ok tt
  | f :: fields =>
      if number f <? 0 then Err (InvalidFieldInfos "illegal field number: {} for field {}")
      else
        match check_previous f previous with
        | Err e => Err e
        | Ok _ =>
            match check_only (soft_deletes_field f) soft_deletes f "multiple soft-deletes fields [{}, {existing}]" with
            | Err e => Err e
            | Ok soft_deletes =>
                match check_only (parent_field f) parent f "multiple parent fields [{}, {existing}]" with
                | Err e => Err e
                | Ok parent => check_loop (previous ++ [f]) fields soft_deletes parent
                end
            end
        end
  end.
Definition check_consistency (fields : list FieldInfo) : result Error unit := check_loop [] fields None None.

(** [map(FieldInfo::checked).collect()]: the first error. *)
Fixpoint collect_checked (fields : list FieldInfo) : result Error (list FieldInfo) :=
  match fields with
  | [] => Ok []
  | f :: fields =>
      match checked f with
      | Err e => Err e
      | Ok f => match collect_checked fields with Err e => Err e | Ok fields => Ok (f :: fields) end
      end
  end.
Definition new (fields : list FieldInfo) : result Error (list FieldInfo) :=
  match fields with
  | [] => Ok []
  | _ => match collect_checked fields with
         | Err e => Err e
         | Ok fields => match check_consistency fields with Err e => Err e | Ok _ => Ok fields end
         end
  end.

Definition field_by_number (fields : list FieldInfo) (n : Z) : option FieldInfo := List.find (fun f => number f =? n) fields.
Definition field_by_name (fields : list FieldInfo) (s : list byte) : option FieldInfo := List.find (fun f => bool_decide (name f = s)) fields.
Definition soft_deletes_name (fields : list FieldInfo) : option (list byte) := name <$> List.find soft_deletes_field fields.
Definition parent_name (fields : list FieldInfo) : option (list byte) := name <$> List.find parent_field fields.

(** ** The file. *)
Inductive Generation : Type := Lucene90 | Lucene94.

Notation P := (M Error SliceInput.t).
Notation store := (from_store Store).

Definition read_field (lucene90 : bool) (format : Z) : P FieldInfo :=
  let* name := store read_string in
  let* number := store read_vint in
  if number <? 0 then fail (InvalidFieldNumber name number) else
  let* bits := store read_byte in
  let bit mask := negb (Z.land bits mask =? 0) in
  let parent := (FORMAT_PARENT_FIELD <=? format) && bit PARENT_FIELD_FIELD in
  let* _ := (if lucene90 then ret tt
             else if bit 0xC0 then fail (UnusedBitsSet bits)
             else if (format <? FORMAT_PARENT_FIELD) && bit 0xF0 then fail (ParentFieldBitSetButTooOld bits)
             else if (format <? FORMAT_DOCVALUE_SKIPPER) && bit DOCVALUES_SKIPPER then fail (DocValuesSkipperBitSetButTooOld bits)
             else ret tt) in
  let* b := store read_byte in
  let* index_options := from_result (index_options_from_byte b) in
  let* b := store read_byte in
  let* doc_values_type := from_result (doc_values_type_from_byte b) in
  let* skip_index := (if FORMAT_DOCVALUE_SKIPPER <=? format then let* b := store read_byte in from_result (skip_index_from_byte b)
                      else ret SkipNone) in
  let* doc_values_gen := store read_i64 in
  let* attributes := store read_map_of_strings in
  let* point_dimension_count := store read_vint in
  let* points := (if negb (point_dimension_count =? 0) then
                    let* i := store read_vint in let* n := store read_vint in ret (i, n)
                  else ret (point_dimension_count, 0)) in
  let* vector_dimension := store read_vint in
  let* vector_encoding := (if lucene90 then ret VectorFloat32
                           else let* b := store read_byte in from_result (vector_encoding_from_byte b)) in
  let* b := store read_byte in
  let* similarity := from_result (similarity_from_byte b) in
  from_result (checked (mk_field name number (bit STORE_TERMVECTOR) (bit OMIT_NORMS) (bit STORE_PAYLOADS) (bit SOFT_DELETES_FIELD) parent
    index_options doc_values_type skip_index doc_values_gen attributes point_dimension_count points.1 points.2
    vector_dimension vector_encoding similarity)).

Section format.
Context (crc : list byte -> Z).

Definition parse_generation (buf segment_id segment_suffix : list byte) (generation : Generation) : result Error (list FieldInfo) :=
  let lucene90 := match generation with Lucene90 => true | Lucene94 => false end in
  let codec_name := if lucene90 then LUCENE90_CODEC_NAME else CODEC_NAME in
  let format_current := if lucene90 then FORMAT_START else FORMAT_CURRENT in
  match (let* header := store (check_index_header codec_name FORMAT_START format_current segment_id segment_suffix) in
         let* size := store read_vint in
         if size <? 0 then fail (Store (Corrupted "negative field count {size} in .fnm")) else
         let* fields := repeatM (Z.to_nat size) (read_field lucene90 (iversion header)) in
         let* _ := store (check_footer crc (zlen buf)) in
         ret fields) (SliceInput.new buf) with
  | (Err e, _) => Err e
  | (Ok fields, _) => match check_consistency fields with Err e => Err e | Ok _ => Ok fields end
  end.
Definition parse (buf segment_id segment_suffix : list byte) : result Error (list FieldInfo) :=
  let generation := if bool_decide (peek_codec_name buf = Some LUCENE90_CODEC_NAME) then Lucene90 else Lucene94 in
  parse_generation buf segment_id segment_suffix generation.

Definition write_field (out : list byte) (f : FieldInfo) : list byte :=
  let out := write_vint (number f) (write_string (name f) out) in
  let indexed := negb (bool_decide (index_options f = IndexNone)) in
  let bits := 0 in
  let bits := if store_term_vectors f && indexed then Z.lor bits STORE_TERMVECTOR else bits in
  let bits := if omit_norms f && indexed then Z.lor bits OMIT_NORMS else bits in
  let bits := if store_payloads f && indexed then Z.lor bits STORE_PAYLOADS else bits in
  let bits := if soft_deletes_field f then Z.lor bits SOFT_DELETES_FIELD else bits in
  let bits := if parent_field f then Z.lor bits PARENT_FIELD_FIELD else bits in
  let out := write_byte bits out in
  let out := write_byte (index_options_to_byte (index_options f)) out in
  let out := write_byte (doc_values_type_to_byte (doc_values_type f)) out in
  let out := write_byte (skip_index_to_byte (doc_values_skip_index_type f)) out in
  let out := write_map_of_strings (attributes f) (write_i64 (doc_values_gen f) out) in
  let out := write_vint (point_dimension_count f) out in
  let out := if negb (point_dimension_count f =? 0) then write_vint (point_num_bytes f) (write_vint (point_index_dimension_count f) out) else out in
  let out := write_vint (vector_dimension f) out in
  write_byte (similarity_to_byte (vector_similarity_function f)) (write_byte (vector_encoding_to_byte (vector_encoding f)) out).

(** [None]: the header writer panicked. *)
Definition write (fields : list FieldInfo) (segment_id segment_suffix : list byte) : option (list byte) :=
  out ← write_index_header CODEC_NAME FORMAT_CURRENT segment_id segment_suffix [];
  Some (write_footer crc (fold_left write_field fields (write_vint (wraps 32 (zlen fields)) out))).
End format.

(** ** What is written, as bytes. *)
Definition indexed (f : FieldInfo) : bool := negb (bool_decide (index_options f = IndexNone)).
Definition flag_bits (vectors norms payloads soft parent : bool) : Z :=
  (if vectors then 1 else 0) + (if norms then 2 else 0) + (if payloads then 4 else 0) + (if soft then 8 else 0) + (if parent then 16 else 0).
Definition bits_of (f : FieldInfo) : Z :=
  flag_bits (store_term_vectors f && indexed f) (omit_norms f && indexed f) (store_payloads f && indexed f) (soft_deletes_field f) (parent_field f).
Definition vint_bytes (v : Z) : list byte := encode_varint (wrapu 32 v).
Definition pairs_bytes (l : list (list byte * list byte)) : list byte := count_bytes (zlen l) ++ concat (map pair_bytes l).
Definition points_bytes (f : FieldInfo) : list byte :=
  if point_dimension_count f =? 0 then [] else vint_bytes (point_index_dimension_count f) ++ vint_bytes (point_num_bytes f).
Definition field_bytes (f : FieldInfo) : list byte :=
  string_bytes (name f) ++ vint_bytes (number f) ++ [bits_of f] ++ [index_options_to_byte (index_options f)] ++
  [doc_values_type_to_byte (doc_values_type f)] ++ [skip_index_to_byte (doc_values_skip_index_type f)] ++ to_le 8 (doc_values_gen f) ++
  pairs_bytes (attributes f) ++ vint_bytes (point_dimension_count f) ++ points_bytes f ++ vint_bytes (vector_dimension f) ++
  [vector_encoding_to_byte (vector_encoding f)] ++ [similarity_to_byte (vector_similarity_function f)].
Definition body_bytes (fields : list FieldInfo) (segment_id suffix : list byte) : list byte :=
  index_header_bytes CODEC_NAME FORMAT_CURRENT segment_id suffix ++ count_bytes (zlen fields) ++ concat (map field_bytes fields).

Lemma write_field_bytes out f : write_field out f = out ++ field_bytes f.
Proof.
  assert (Hb : forall a b c d e : bool,
    (let bits := 0 in let bits := if a then Z.lor bits STORE_TERMVECTOR else bits in let bits := if b then Z.lor bits OMIT_NORMS else bits in
     let bits := if c then Z.lor bits STORE_PAYLOADS else bits in let bits := if d then Z.lor bits SOFT_DELETES_FIELD else bits in
     if e then Z.lor bits PARENT_FIELD_FIELD else bits) = flag_bits a b c d e) by (by intros [] [] [] [] []).
  unfold write_field. cbv zeta in Hb |- *. rewrite Hb. fold (indexed f). fold (bits_of f). unfold field_bytes, points_bytes, pairs_bytes, vint_bytes, write_i64. cbn [write_byte write_bytes VecDataOutput].
  destruct (point_dimension_count f =? 0); cbn [negb]; rewrite ?write_varint_bytes, ?write_pairs_bytes, ?write_varint_bytes, write_string_bytes;
    rewrite <- !app_assoc; rewrite ?app_nil_l; done.
Qed.

(** ** Reading, errors included. *)
Section answers.
Context {E : Type}.
Notation S := SliceInput.t.

(** What a reader returns on bytes that start with [xs]. *)
Definition answers {A} (m : M E S A) (xs : list byte) (r : result E A) : Prop :=
  match r with
  | Ok a => reads m xs a
  | Err e => forall s bs, SliceInput.inv s -> view s = xs ++ bs -> (m s).1 = Err e
  end.

Lemma answers_bind {A B} (m : M E S A) (k : A -> M E S B) xs ys a r : reads m xs a -> answers (k a) ys r -> answers (bind m k) (xs ++ ys) r.
Proof.
  intros Hm Hk. destruct r as [b|e]; [by eapply reads_bind|]. intros s bs Hi Hv. rewrite <- app_assoc in Hv.
  destruct (Hm s (ys ++ bs) Hi Hv) as (s1 & E1 & Hi1 & Hv1). rewrite (bind_Ok _ _ _ _ _ E1). by apply (Hk s1 bs).
Qed.
Lemma answers_result {A} (r : result E A) : answers (from_result r) [] r.
Proof. destruct r as [a|e]; [apply reads_ret|done]. Qed.
Lemma answers_last {A B} (m : M E S A) (r : A -> result E B) xs a : reads m xs a -> answers (let* x := m in from_result (r x)) xs (r a).
Proof. intros Hm. rewrite <- (app_nil_r xs). eapply answers_bind; [done|apply answers_result]. Qed.

(** The first error of a repeated reader stops it. *)
Lemma answers_repeat {A B} (m : M E S B) (enc : A -> list byte) (dec : A -> result E B) l : Forall (fun a => answers m (enc a) (dec a)) l ->
  answers (repeatM (List.length l) m) (concat (map enc l))
    (foldr (fun a r => match dec a with Err e => Err e | Ok b => match r with Err e => Err e | Ok bs => Ok (b :: bs) end end) (Ok []) l).
Proof.
  induction 1 as [|a l Ha _ IH]; cbn [List.length repeatM map concat foldr]; [apply reads_ret|].
  destruct (dec a) as [b|e]; [|].
  - eapply answers_bind; [exact Ha|]. set (r := foldr _ _ l) in *. destruct r as [bs|e]; [by eapply reads_map|].
    intros s bs' Hi Hv. specialize (IH s bs' Hi Hv). unfold bind. destruct (repeatM _ m s) as [[x|e'] s']; cbn in *; congruence.
  - intros s bs Hi Hv. rewrite <- app_assoc in Hv. specialize (Ha s _ Hi Hv). unfold bind. destruct (m s) as [[x|e'] s']; cbn in *; congruence.
Qed.
End answers.

(** ** One field. *)
(** Within the types of its members, and nothing the file has no room for. *)
Record field_ok (f : FieldInfo) : Prop := {
  ok_name : string_ok (name f);
  ok_number : count_ok (number f);
  ok_gen : in_s 64 (doc_values_gen f);
  ok_attributes : pairs_ok (attributes f);
  ok_dims : in_s 32 (point_dimension_count f) /\ in_s 32 (point_index_dimension_count f) /\ in_s 32 (point_num_bytes f);
  ok_points : point_dimension_count f = 0 -> point_index_dimension_count f = 0 /\ point_num_bytes f = 0;
  ok_vector : in_s 32 (vector_dimension f);
}.

Definition cleared (f : FieldInfo) : FieldInfo := with_omit_norms (with_store_payloads (with_store_term_vectors f false) false) false.
Definition written (f : FieldInfo) : FieldInfo := if decide (index_options f = IndexNone) then cleared f else f.

Lemma checked_written f : checked (written f) = checked f.
Proof. unfold checked, written. destruct (decide (index_options f = IndexNone)) as [E|E]; [|by rewrite decide_False]. by rewrite (decide_True _ _ (P := index_options (cleared f) = IndexNone)). Qed.

Lemma bits_read (a b c d e : bool) : let bits := flag_bits a b c d e in
  negb (Z.land bits STORE_TERMVECTOR =? 0) = a /\ negb (Z.land bits OMIT_NORMS =? 0) = b /\ negb (Z.land bits STORE_PAYLOADS =? 0) = c /\
  negb (Z.land bits SOFT_DELETES_FIELD =? 0) = d /\ negb (Z.land bits PARENT_FIELD_FIELD =? 0) = e /\ negb (Z.land bits 0xC0 =? 0) = false.
Proof. by destruct a, b, c, d, e. Qed.

Lemma reads_int v : in_s 32 v -> reads (R := SliceInput.t) (store read_vint) (vint_bytes v) v.
Proof. intros. by apply reads_store, reads_vint. Qed.
Lemma reads_a_byte b : reads (R := SliceInput.t) (store read_byte) [b] b.
Proof. apply reads_store, reads_byte. Qed.
Lemma reads_from_byte {A} (dec : Z -> result Error A) (b : Z) a : dec b = Ok a ->
  reads (R := SliceInput.t) (let* b := store read_byte in from_result (dec b)) [b] a.
Proof. intros H. eapply reads_result; [apply reads_a_byte|done]. Qed.

(** [answers_bind] for a byte and what it stands for. *)
Lemma answers_byte {A B} (dec : Z -> result Error A) (k : A -> P B) b a xs r : dec b = Ok a -> answers (k a) xs r ->
  answers (let* b := store read_byte in let* x := from_result (dec b) in k x) ([b] ++ xs) r.
Proof.
  intros Hd Hk. eapply answers_bind; [apply reads_a_byte|]. rewrite <- (app_nil_l xs). eapply answers_bind; [|exact Hk].
  rewrite Hd. apply reads_ret.
Qed.

Lemma index_options_byte o : index_options_from_byte (index_options_to_byte o) = Ok o.
Proof. by destruct o. Qed.
Lemma doc_values_byte t : doc_values_type_from_byte (doc_values_type_to_byte t) = Ok t.
Proof. by destruct t. Qed.
Lemma skip_index_byte t : skip_index_from_byte (skip_index_to_byte t) = Ok t.
Proof. by destruct t. Qed.
Lemma encoding_byte e : vector_encoding_from_byte (vector_encoding_to_byte e) = Ok e.
Proof. by destruct e. Qed.
Lemma similarity_byte s : similarity_from_byte (similarity_to_byte s) = Ok s.
Proof. by destruct s. Qed.

Lemma written_fields f : field_ok f ->
  mk_field (name f) (number f) (store_term_vectors f && indexed f) (omit_norms f && indexed f) (store_payloads f && indexed f)
    (soft_deletes_field f) (parent_field f) (index_options f) (doc_values_type f) (doc_values_skip_index_type f) (doc_values_gen f) (attributes f)
    (point_dimension_count f) (point_index_dimension_count f) (point_num_bytes f) (vector_dimension f) (vector_encoding f) (vector_similarity_function f) = written f.
Proof.
  intros _. unfold written, indexed, cleared, with_omit_norms, with_store_payloads, with_store_term_vectors. destruct (decide (index_options f = IndexNone)) as [E|E].
  - rewrite bool_decide_eq_true_2 by done. cbn [negb]. rewrite !andb_false_r. done.
  - rewrite bool_decide_eq_false_2 by done. cbn [negb]. rewrite !andb_true_r. by destruct f.
Qed.

Lemma field_answers f : field_ok f -> answers (read_field false FORMAT_CURRENT) (field_bytes f) (checked f).
Proof.
  intros Hf. destruct Hf as [Hn Hk Hg Ha (Hd1 & Hd2 & Hd3) Hp Hv] eqn:Eok. clear Eok. unfold read_field, field_bytes.
  eapply answers_bind; [by apply reads_store, reads_string|]. eapply answers_bind; [by apply reads_int, count_in_s|].
  destruct (Z.ltb_spec (number f) 0) as [|_]; [unfold count_ok in Hk; lia|]. eapply answers_bind; [apply reads_a_byte|].
  unfold bits_of. destruct (bits_read (store_term_vectors f && indexed f) (omit_norms f && indexed f) (store_payloads f && indexed f) (soft_deletes_field f) (parent_field f)) as (B1 & B2 & B3 & B4 & B5 & B6).
  cbv zeta in B1, B2, B3, B4, B5, B6 |- *. rewrite B1, B2, B3, B4, B5, B6. cbn [andb Z.leb Z.ltb Z.compare FORMAT_PARENT_FIELD FORMAT_CURRENT FORMAT_DOCVALUE_SKIPPER].
  rewrite <- (app_nil_l ([_] ++ _)). eapply answers_bind; [apply reads_ret|]. eapply answers_byte; [apply index_options_byte|]. eapply answers_byte; [apply doc_values_byte|].
  eapply answers_bind; [apply reads_from_byte, skip_index_byte|]. eapply answers_bind; [by apply reads_store, reads_i64|].
  eapply answers_bind; [by apply reads_store, reads_map_of_strings; destruct Ha|]. eapply answers_bind; [by apply reads_int|].
  eapply (answers_bind _ _ _ _ (point_index_dimension_count f, point_num_bytes f)).
  { unfold points_bytes. destruct (Z.eqb_spec (point_dimension_count f) 0) as [E|E]; cbn [negb]; [destruct (Hp E) as [-> ->]; rewrite E; apply reads_ret|].
    eapply reads_bind; [by apply reads_int|]. eapply reads_map; [by apply reads_int|done]. }
  eapply answers_bind; [by apply reads_int|]. eapply answers_bind; [apply reads_from_byte, encoding_byte|].
  rewrite <- (app_nil_r [similarity_to_byte _]). eapply answers_byte; [apply similarity_byte|]. cbn [fst snd]. rewrite written_fields, checked_written by done. apply answers_result.
Qed.

(** ** The whole file. *)
Lemma keeps_field b l v : preserves (fun s => SliceInput.buf s = b) (read_field l v).
Proof. unfold read_field. repeat first [progress keeps | apply preserves_bind; [|intros] | case_match]. Qed.

Lemma new_is_checked fields : new fields = match collect_checked fields with
  | Err e => Err e
  | Ok fields => match check_consistency fields with Err e => Err e | Ok _ => Ok fields end
  end.
Proof. by destruct fields. Qed.
Lemma collect_fold fields :
  foldr (fun f r => match checked f with Err e => Err e | Ok b => match r with Err e => Err e | Ok bs => Ok (b :: bs) end end) (Ok []) fields = collect_checked fields.
Proof. induction fields as [|f fields IH]; [done|]. cbn [foldr collect_checked]. by rewrite IH. Qed.

Definition fields_ok (fields : list FieldInfo) : Prop := Forall field_ok fields /\ zlen fields < 2 ^ 31.

Section file.
Context (crc : list byte -> Z) (segment_id suffix : list byte).
Hypothesis crc_range : forall l, in_u 32 (crc l).
Hypothesis id_length : zlen segment_id = ID_LENGTH.
Hypothesis suffix_ok : string_ok suffix.
Hypothesis suffix_short : zlen suffix < 256.

Definition read_fields : P (list FieldInfo) :=
  let* header := store (check_index_header CODEC_NAME FORMAT_START FORMAT_CURRENT segment_id suffix) in
  let* size := store read_vint in
  if size <? 0 then fail (Store (Corrupted "negative field count {size} in .fnm")) else
  repeatM (Z.to_nat size) (read_field false (iversion header)).

Lemma parse_is_read_fields buf : parse_generation crc buf segment_id suffix Lucene94 =
  match ((let* fields := read_fields in let* _ := store (check_footer crc (zlen buf)) in ret fields) (SliceInput.new buf)).1 with
  | Err e => Err e
  | Ok fields => match check_consistency fields with Err e => Err e | Ok _ => Ok fields end
  end.
Proof.
  unfold parse_generation, read_fields, bind. destruct (store (check_index_header _ _ _ _ _) _) as [[h|e] s1]; [|done].
  destruct (store read_vint s1) as [[n|e] s2]; [|done]. destruct (n <? 0); [done|]. destruct (repeatM _ _ s2) as [[l|e] s3]; [|done].
  destruct (store _ s3) as [[x|e] s4]; done.
Qed.

Lemma answers_fields fields : fields_ok fields -> answers read_fields (body_bytes fields segment_id suffix) (collect_checked fields).
Proof.
  intros [Hf Hn]. pose proof (zlen_nonneg fields). unfold read_fields, body_bytes.
  eapply answers_bind; [apply reads_store, check_index_header_reads; [split; by vm_compute|done|done|by vm_compute]|]. eapply answers_bind.
  { unfold count_bytes. apply reads_store, reads_vint, wraps_range. lia. }
  rewrite wraps_id by (unfold in_s; change (32 - 1) with 31; lia). destruct (Z.ltb_spec (zlen fields) 0); [lia|].
  replace (Z.to_nat (zlen fields)) with (List.length fields) by (unfold zlen; lia). rewrite <- collect_fold. apply (answers_repeat (read_field false FORMAT_CURRENT) field_bytes checked).
  eapply Forall_impl; [|exact Hf]. apply field_answers.
Qed.

Lemma peek_written fields rest : bytes_ok (body_bytes fields segment_id suffix ++ rest) -> zlen (body_bytes fields segment_id suffix ++ rest) < 2 ^ 63 ->
  peek_codec_name (body_bytes fields segment_id suffix ++ rest) = Some CODEC_NAME.
Proof.
  destruct (index_header_round_trip (W := list byte) CODEC_NAME segment_id suffix FORMAT_CURRENT FORMAT_CURRENT FORMAT_CURRENT []) as (hdr & out & Ew & Ec & _ & _ & Hp);
    [split; by vm_compute|done|done|done|by vm_compute|done|].
  rewrite write_index_header_spec in Ew by done. injection Ew as <-. cbn in Ec. subst hdr. unfold body_bytes. rewrite <- app_assoc. apply Hp.
Qed.

Lemma write_fields fields : write crc fields segment_id suffix = Some (write_footer crc (body_bytes fields segment_id suffix)).
Proof.
  unfold write. rewrite write_index_header_spec by done. cbn [mbind option_bind write_bytes VecDataOutput app].
  rewrite (write_fold_bytes write_field field_bytes) by apply write_field_bytes.
  replace (write_vint (wraps 32 (zlen fields)) (index_header_bytes CODEC_NAME FORMAT_CURRENT segment_id suffix)) with (index_header_bytes CODEC_NAME FORMAT_CURRENT segment_id suffix ++ count_bytes (zlen fields)) by (by rewrite write_varint_bytes).
  unfold body_bytes. by rewrite <- app_assoc.
Qed.

(** Reading what was written, errors included. *)
Lemma parse_written_fields fields : fields_ok fields ->
  let file := write_footer crc (body_bytes fields segment_id suffix) in
  bytes_ok file -> zlen file < 2 ^ 63 -> parse crc file segment_id suffix = new fields.
Proof.
  intros Hf file Hok Hl. unfold parse. rewrite bool_decide_eq_false_2; [|unfold file in *; rewrite write_footer_bytes in *; by rewrite peek_written].
  rewrite parse_is_read_fields, new_is_checked. pose proof (answers_fields fields Hf) as Ha. unfold answers in Ha. destruct (collect_checked fields) as [fs|e].
  - destruct (reads_whole_file Store crc crc_range read_fields ret _ fs Ha) as (s & E); [|done|done|unfold file; by rewrite E].
    intros b. unfold read_fields. apply preserves_bind; [keeps|]. intros h. apply preserves_bind; [keeps|]. intros n. apply preserves_if; [keeps|].
    apply preserves_repeatM, keeps_field.
  - assert (Hi : SliceInput.inv (SliceInput.new file)) by by apply new_input_inv.
    specialize (Ha (SliceInput.new file) (footer_head FOOTER_MAGIC 0 ++ to_be 8 (crc (body_bytes fields segment_id suffix ++ footer_head FOOTER_MAGIC 0))) Hi).
    unfold bind. destruct (read_fields _) as [[x|e'] s'] eqn:Er; cbn [fst] in Ha; [|rewrite Ha; [done|apply (write_footer_bytes crc)]].
    exfalso. discriminate Ha. apply (write_footer_bytes crc).
Qed.
End file.

(** ** What the checks let through. *)
Definition consistent (f : FieldInfo) : Prop := field_check_consistency f = Ok tt /\ (index_options f = IndexNone -> store_term_vectors f = false /\ omit_norms f = false /\ store_payloads f = false).

Lemma check_previous_ok f l : check_previous f l = Ok tt <-> Forall (fun p => name p <> name f /\ number p <> number f) l.
Proof.
  induction l as [|p l IH]; cbn [check_previous]; [by split|]. case_bool_decide as Hn; [split; [done|intros H; by destruct (Forall_inv H)]|].
  destruct (Z.eqb_spec (number p) (number f)); [split; [done|intros H; by destruct (Forall_inv H)]|].
  rewrite IH. split; [by constructor|apply Forall_inv_tail].
Qed.

(** Names and numbers distinct, numbers not negative, one field of a kind. *)
Record infos_ok (fields : list FieldInfo) : Prop := {
  distinct_names : NoDup (map name fields);
  distinct_numbers : NoDup (map number fields);
  numbers_positive : Forall (fun f => 0 <= number f) fields;
  one_soft_deletes : (List.length (List.filter soft_deletes_field fields) <= 1)%nat;
  one_parent : (List.length (List.filter parent_field fields) <= 1)%nat;
}.

Definition step_ok (previous : list FieldInfo) (f : FieldInfo) : Prop :=
  0 <= number f /\ Forall (fun p => name p <> name f /\ number p <> number f) previous /\
  (soft_deletes_field f = true -> List.filter soft_deletes_field previous = []) /\ (parent_field f = true -> List.filter parent_field previous = []).

Lemma at_most_one_snoc (flag : FieldInfo -> bool) l f : (List.length (List.filter flag (l ++ [f])) <= 1)%nat <->
  (List.length (List.filter flag l) <= 1)%nat /\ (flag f = true -> List.filter flag l = []).
Proof.
  rewrite List.filter_app, length_app. cbn [List.filter]. destruct (flag f); cbn [List.length]; [|split; [intros; split; [lia|done]|intros [? _]; lia]].
  split; [|intros [_ ->]; [done|cbn; lia]]. intros H. split; [lia|]. intros _. destruct (List.filter flag l); [done|cbn in H; lia].
Qed.
Lemma distinct_snoc {A} (g : FieldInfo -> A) l f : NoDup (map g (l ++ [f])) <-> NoDup (map g l) /\ Forall (fun p => g p <> g f) l.
Proof.
  rewrite map_app, list.NoDup_app. cbn [map]. rewrite List.Forall_forall. split.
  - intros (H1 & H2 & _). split; [done|]. intros p Hp Hpf. apply (H2 (g f)); [apply list_elem_of_In, in_map_iff; by exists p|by left].
  - intros (H1 & H2). split; [done|]. split; [|apply NoDup_singleton]. intros x Hx%list_elem_of_In ->%list_elem_of_singleton.
    apply in_map_iff in Hx as (p & Hp & Hin). by apply (H2 p).
Qed.

Lemma infos_snoc l f : infos_ok (l ++ [f]) <-> infos_ok l /\ step_ok l f.
Proof.
  split.
  - intros [H1 H2 H3 H4 H5]. apply distinct_snoc in H1 as [A1 B1], H2 as [A2 B2]. apply at_most_one_snoc in H4 as [A4 B4], H5 as [A5 B5].
    apply Forall_app in H3 as [A3 B3]. split; [by constructor|]. split; [by apply Forall_inv in B3|]. split; [|done].
    rewrite List.Forall_forall in *. intros p Hp. split; [by apply B1|by apply B2].
  - intros [[H1 H2 H3 H4 H5] (S1 & S2 & S3 & S4)]. assert (S2' := S2). rewrite List.Forall_forall in S2'. constructor.
    + apply distinct_snoc. split; [done|]. apply List.Forall_forall. intros p Hp. by apply S2'.
    + apply distinct_snoc. split; [done|]. apply List.Forall_forall. intros p Hp. by apply S2'.
    + apply Forall_app. split; [done|]. by constructor.
    + by apply at_most_one_snoc.
    + by apply at_most_one_snoc.
Qed.
Lemma infos_prefix a b : infos_ok (a ++ b) -> infos_ok a.
Proof.
  revert a. induction b as [|f b IH]; intros a; [by rewrite app_nil_r|]. intros H. replace (a ++ f :: b) with ((a ++ [f]) ++ b) in H by (by rewrite <- app_assoc).
  apply IH, infos_snoc in H. tauto.
Qed.

(** The field of a kind met last, among those checked. *)
Definition found_is (flag : FieldInfo -> bool) (l : list FieldInfo) (found : option (list byte)) : Prop :=
  match found with
  | Some n => List.filter flag l <> [] /\ In n (map name l)
  | None => List.filter flag l = []
  end.

Lemma check_only_spec flag l found f why : found_is flag l found -> Forall (fun p => name p <> name f) l ->
  if decide (flag f = true -> List.filter flag l = []) then exists found', check_only (flag f) found f why = Ok found' /\ found_is flag (l ++ [f]) found'
  else exists e, check_only (flag f) found f why = Err e.
Proof.
  intros Hf Hn. unfold check_only. case_decide as Hd.
  - destruct (flag f) eqn:Ef.
    + specialize (Hd eq_refl). assert (Hx : found_is flag (l ++ [f]) (Some (name f))).
      { split; [rewrite List.filter_app; cbn [List.filter]; rewrite Ef; by destruct (List.filter flag l)|]. rewrite map_app. apply in_or_app. right. by left. }
      destruct found as [n|]; [by destruct Hf|]. by exists (Some (name f)).
    + exists found. split; [done|]. unfold found_is in *. rewrite List.filter_app. cbn [List.filter]. rewrite Ef, app_nil_r. destruct found; [|done].
      split; [tauto|]. rewrite map_app. apply in_or_app. left. tauto.
  - destruct (flag f) eqn:Ef; [|exfalso; by apply Hd]. destruct found as [n|]; [|exfalso; by apply Hd]. destruct Hf as [_ Hin].
    rewrite bool_decide_eq_true_2; [by eexists|]. intros ->. apply in_map_iff in Hin as (p & Hp & Hin). rewrite List.Forall_forall in Hn. by apply (Hn p).
Qed.

Lemma check_loop_ok l : forall previous soft parent, infos_ok previous -> found_is soft_deletes_field previous soft -> found_is parent_field previous parent ->
  check_loop previous l soft parent = Ok tt <-> infos_ok (previous ++ l).
Proof.
  induction l as [|f l IH]; intros previous soft parent Hi Hs Hp; cbn [check_loop]; [by rewrite app_nil_r|].
  replace (previous ++ f :: l) with ((previous ++ [f]) ++ l) by (by rewrite <- app_assoc).
  assert (Hno : ~ step_ok previous f -> ~ infos_ok ((previous ++ [f]) ++ l)) by (intros H1 H2%infos_prefix%infos_snoc; tauto).
  destruct (Z.ltb_spec (number f) 0) as [Hneg|Hpos]; [split; [done|]; intros H; exfalso; revert H; apply Hno; intros [H _]; lia|].
  destruct (check_previous f previous) as [[]|e] eqn:Ep; [|split; [done|]; intros H; exfalso; revert H; apply Hno; intros (_ & H%check_previous_ok & _); congruence].
  apply check_previous_ok in Ep. assert (Hn : Forall (fun p => name p <> name f) previous) by (eapply Forall_impl; [|exact Ep]; intros p H; apply H).
  pose proof (check_only_spec soft_deletes_field previous soft f "multiple soft-deletes fields [{}, {existing}]" Hs Hn) as H1. case_decide as D1.
  2: { destruct H1 as [e ->]. split; [done|]. intros H; exfalso; revert H; apply Hno; intros (_ & _ & H & _); tauto. }
  destruct H1 as (soft' & -> & Hs'). pose proof (check_only_spec parent_field previous parent f "multiple parent fields [{}, {existing}]" Hp Hn) as H2. case_decide as D2.
  2: { destruct H2 as [e ->]. split; [done|]. intros H; exfalso; revert H; apply Hno; intros (_ & _ & _ & H); tauto. }
  destruct H2 as (parent' & -> & Hp'). apply IH; [|done|done]. apply infos_snoc. split; [done|]. by split.
Qed.

(** The constructor's checks across fields decide exactly this. *)
Lemma check_consistency_decides fields : check_consistency fields = Ok tt <-> infos_ok fields.
Proof. apply (check_loop_ok fields [] None None); [|done|done]. constructor; cbn; (lia || constructor). Qed.

(** ** What reading lets through. *)
(** The members of a field within their types. *)
Record typed (f : FieldInfo) : Prop := {
  ty_name : string_ok (name f);
  ty_number : count_ok (number f);
  ty_gen : in_s 64 (doc_values_gen f);
  ty_attributes : pairs_ok (attributes f);
  ty_dims : in_s 32 (point_dimension_count f) /\ in_s 32 (point_index_dimension_count f) /\ in_s 32 (point_num_bytes f);
  ty_vector : in_s 32 (vector_dimension f);
}.

Lemma checked_sound g f : typed g -> checked g = Ok f -> field_ok f /\ consistent f /\ checked f = Ok f.
Proof.
  intros Ht. rewrite <- checked_written. set (h := written g). assert (Hh : typed h) by (unfold h, written; case_decide; by destruct Ht).
  assert (Hx : index_options h = IndexNone -> store_term_vectors h = false /\ omit_norms h = false /\ store_payloads h = false).
  { unfold h, written. case_decide; [done|]. intros. congruence. }
  assert (Hc : checked h = match field_check_consistency h with Err e => Err e | Ok _ => Ok h end).
  { unfold checked. case_decide as E; [|done]. destruct (Hx E) as (E1 & E2 & E3). replace (with_omit_norms _ false) with h; [done|].
    unfold with_omit_norms, with_store_payloads, with_store_term_vectors. destruct h. cbn in *. by subst. }
  rewrite Hc. destruct (field_check_consistency h) as [[]|e] eqn:Ec; [|done]. intros [= <-]. split; [|split; [by split|done]].
  assert (Hp : point_dimension_count h = 0 -> point_index_dimension_count h = 0 /\ point_num_bytes h = 0).
  { intros E0. revert Ec. unfold field_check_consistency. destruct (if decide _ then _ else _) as [[]|]; [|done]. rewrite E0. rewrite Z.eqb_refl, !andb_true_r.
    destruct (Z.eqb_spec (point_index_dimension_count h) 0), (Z.eqb_spec (point_num_bytes h) 0); cbn [negb andb]; repeat (destruct (_ <? _) || destruct (negb _) || destruct (_ && _)); try done. }
  clearbody h. by destruct Hh.
Qed.

Section accepted.
Notation lets := (returns (E := Error) (S := SliceInput.t)).
Lemma lets_any {A B} (m : P A) (k : A -> P B) (Q : B -> Prop) : (forall a, lets (k a) Q) -> lets (let* x := m in k x) Q.
Proof. intros H. apply (returns_bind _ _ _ _ (returns_any m)). auto. Qed.
Lemma lets_int : lets (store read_vint) (in_s 32).
Proof. apply returns_store, returns_vint. Qed.

Lemma lets_field l v : lets (read_field l v) (fun f => field_ok f /\ consistent f /\ checked f = Ok f).
Proof.
  unfold read_field. apply (returns_bind _ _ _ _ (returns_store Store _ _ returns_string)). intros n Hn.
  apply (returns_bind _ _ _ _ lets_int). intros k Hk. destruct (Z.ltb_spec k 0); [done|]. apply lets_any. intros bits. cbv zeta. do 6 (apply lets_any; intros ?).
  apply (returns_bind _ _ _ _ (returns_store Store _ _ returns_i64)). intros g Hg. apply (returns_bind _ _ _ _ (returns_store Store _ _ returns_map)). intros at_ Ha.
  apply (returns_bind _ _ _ _ lets_int). intros d Hd. apply (returns_bind _ _ (fun p => in_s 32 p.1 /\ in_s 32 p.2)).
  { destruct (negb _); [|by apply returns_ret]. apply (returns_bind _ _ _ _ lets_int). intros i Hi. apply (returns_bind _ _ _ _ lets_int). intros b Hb. by apply returns_ret. }
  intros p [Hp1 Hp2]. apply (returns_bind _ _ _ _ lets_int). intros vd Hvd. do 3 (apply lets_any; intros ?). intros s f s' Er. unfold from_result in Er. injection Er as Er _.
  eapply checked_sound; [|exact Er]. unfold in_s in Hk. change (2 ^ (32 - 1)) with (2 ^ 31) in Hk. constructor; cbn; try done. unfold count_ok. lia.
Qed.
End accepted.

Lemma new_of_checked fields : Forall (fun f => checked f = Ok f) fields -> infos_ok fields -> new fields = Ok fields.
Proof.
  intros Hc Hi. rewrite new_is_checked. replace (collect_checked fields) with (@Ok Error _ fields); [by rewrite (proj2 (check_consistency_decides fields) Hi)|].
  clear Hi. induction Hc as [|f l Hf _ IH]; [done|]. cbn [collect_checked]. by rewrite Hf, <- IH.
Qed.

Lemma parsed_fields crc buf segment_id suffix generation fields : parse_generation crc buf segment_id suffix generation = Ok fields ->
  infos_ok fields /\ Forall (fun f => field_ok f /\ consistent f /\ checked f = Ok f) fields /\ zlen fields < 2 ^ 31.
Proof.
  unfold parse_generation. destruct (bind _ _ _) as [[fs|e] s'] eqn:E; [|done]. intros H.
  assert (Hc : check_consistency fs = Ok tt /\ fs = fields) by (destruct (check_consistency fs) as [[]|]; [|done]; by injection H). destruct Hc as [Hc ->]. clear H.
  split; [by apply check_consistency_decides|].
  apply bind_Ok_inv in E as (h & s1 & _ & E). apply bind_Ok_inv in E as (n & s2 & En & E). destruct (n <? 0); [done|].
  apply bind_Ok_inv in E as (l & s3 & El & E). apply bind_Ok_inv in E as (x & s4 & _ & [= <- _]).
  destruct (returns_repeat _ _ _ (lets_field _ _) _ _ _ El) as [H1 H2]. split; [done|].
  pose proof (lets_int _ _ _ En) as Hn. unfold in_s in Hn. change (2 ^ (32 - 1)) with (2 ^ 31) in Hn. unfold zlen. lia.
Qed.

(** C27: reading a file back is the constructor: for any fields within their
    types ([field_ok]: a number that is not negative, and no index dimensions or
    bytes where there are no point dimensions, which [write] leaves out),
    [parse] of what [write] writes of them returns what [FieldInfos::new]
    returns of them, the coerced fields or the error. *)
Theorem reading_back_is_the_constructor (crc : list byte -> Z) (segment_id suffix : list byte) (fields : list FieldInfo) :
  (forall l, in_u 32 (crc l)) -> zlen segment_id = ID_LENGTH -> string_ok suffix -> zlen suffix < 256 -> fields_ok fields ->
  exists file, write crc fields segment_id suffix = Some file /\
    (bytes_ok file -> zlen file < 2 ^ 63 -> parse crc file segment_id suffix = new fields).
Proof.
  intros Hcrc Hid Hs Hl Hf. exists (write_footer crc (body_bytes fields segment_id suffix)). split; [by apply write_fields|]. intros. by apply parse_written_fields.
Qed.

(** C28: whatever bytes of either generation [parse] accepts, every field is
    consistent and within its types, names and numbers are distinct, one field
    at most is for soft deletes and one at most is the parent; the constructor
    takes them as they are, and so they can be written and read back. *)
Theorem parsed_field_infos_are_consistent (crc : list byte -> Z) (buf segment_id suffix : list byte) (fields : list FieldInfo) :
  (forall l, in_u 32 (crc l)) -> zlen segment_id = ID_LENGTH -> string_ok suffix -> zlen suffix < 256 -> parse crc buf segment_id suffix = Ok fields ->
  infos_ok fields /\ Forall consistent fields /\ fields_ok fields /\ new fields = Ok fields /\
  exists file, write crc fields segment_id suffix = Some file /\ (bytes_ok file -> zlen file < 2 ^ 63 -> parse crc file segment_id suffix = Ok fields).
Proof.
  intros Hcrc Hid Hs Hl (Hi & Hf & Hn)%parsed_fields. assert (Hok : fields_ok fields) by (split; [eapply Forall_impl; [|exact Hf]; intros f H; apply H|done]).
  assert (Hnew : new fields = Ok fields) by (apply new_of_checked; [eapply Forall_impl; [|exact Hf]; intros f H; apply H|done]).
  split; [done|]. split; [eapply Forall_impl; [|exact Hf]; intros f H; apply H|]. split; [done|]. split; [done|].
  exists (write_footer crc (body_bytes fields segment_id suffix)). split; [by apply write_fields|]. intros Hb Hz. rewrite <- Hnew. by apply parse_written_fields.
Qed.

(** ** Concrete fields: flags to coerce, points, a vector, attributes. *)
Definition sample_fields : list FieldInfo :=
  [with_store_term_vectors (field_new (bytes "id") 0) true;
   with_store_payloads (with_index_options (field_new (bytes "body") 1) DocsAndFreqsAndPositions) true;
   with_points (with_doc_values (field_new (bytes "price") 2) SortedNumeric SkipRange 7) 2 1 8;
   with_soft_deletes_field (with_vectors (with_attributes (field_new (bytes "vec") 3) [(bytes "k", bytes "v")]) 4 VectorByte Cosine) true].
Definition doubled_fields : list FieldInfo := [field_new (bytes "id") 0; field_new (bytes "id") 1].

Lemma string_ok_small (s : list byte) : utf8_valid s = true -> (List.length s <= 100)%nat -> string_ok s.
Proof. intros H1 H2. split; [done|]. unfold zlen. lia. Qed.
Lemma pairs_ok_nil : pairs_ok [].
Proof. split; [constructor|by vm_compute]. Qed.

Lemma sample_fields_ok : fields_ok sample_fields /\ fields_ok doubled_fields.
Proof.
  split; (split; [|by vm_compute]); repeat constructor; cbn; try apply pairs_ok_nil; try (apply string_ok_small; [by vm_compute|cbn; lia]); try (unfold in_s, count_ok; lia); try (by vm_compute).
Qed.

Lemma reading_back_is_the_constructor_witness :
  (exists file, write ieee_crc32 sample_fields (replicate 16 7) [] = Some file /\ parse ieee_crc32 file (replicate 16 7) [] = Ok (map written sample_fields)) /\
  exists file e, write ieee_crc32 doubled_fields (replicate 16 7) [] = Some file /\ parse ieee_crc32 file (replicate 16 7) [] = Err (InvalidFieldInfos e).
Proof.
  destruct sample_fields_ok as [Hs Hd]. split.
  - destruct (reading_back_is_the_constructor ieee_crc32 (replicate 16 7) [] sample_fields ieee_range eq_refl) as (file & Hw & Hr); [by split|by vm_compute|done|].
    exists file. split; [exact Hw|]. assert (E : Some file = write ieee_crc32 sample_fields (replicate 16 7) []) by (by rewrite Hw). vm_compute in E. injection E as ->.
    rewrite Hr by ((by apply bytes_okb_ok) || by vm_compute). by vm_compute.
  - destruct (reading_back_is_the_constructor ieee_crc32 (replicate 16 7) [] doubled_fields ieee_range eq_refl) as (file & Hw & Hr); [by split|by vm_compute|done|].
    exists file. eexists. split; [exact Hw|]. assert (E : Some file = write ieee_crc32 doubled_fields (replicate 16 7) []) by (by rewrite Hw). vm_compute in E. injection E as ->.
    rewrite Hr by ((by apply bytes_okb_ok) || by vm_compute). by vm_compute.
Defined.

Lemma parsed_field_infos_are_consistent_witness :
  exists file, write ieee_crc32 sample_fields (replicate 16 7) [] = Some file /\ infos_ok (map written sample_fields) /\ new (map written sample_fields) = Ok (map written sample_fields).
Proof.
  destruct (write ieee_crc32 sample_fields (replicate 16 7) []) as [file|] eqn:Hw; [|vm_compute in Hw; discriminate Hw]. exists file. split; [done|].
  assert (Hp : parse ieee_crc32 file (replicate 16 7) [] = Ok (map written sample_fields)).
  { assert (E : Some file = write ieee_crc32 sample_fields (replicate 16 7) []) by (by rewrite Hw). vm_compute in E. injection E as ->. by vm_compute. }
  destruct (parsed_field_infos_are_consistent ieee_crc32 file (replicate 16 7) [] _ ieee_range eq_refl ltac:(by split) ltac:(by vm_compute) Hp) as (H1 & _ & _ & H2 & _). by split.
Defined.
End FieldInfos.
