(* ===== verification/SegmentInfos.v ===== *)
(** * Commit files ([lucene-index/src/segment_infos.rs])

    [segments_N] names the segments of a commit and where each stands: its
    deletion, field-infos and doc-values generations and the files only the
    commit knows about.  The file has the two records, the generation
    bookkeeping, [SegmentCommitInfo::files], and the format both ways
    ([to_bytes], [parse]).  Proved: what [to_bytes] writes for infos within
    their bounds [parse] reads back, and [parse] rejects what would overflow a
    later commit.  The two phases of a commit are in [Commit.v]. *)
From stdpp Require Import strings.
From S2P Require Import Prelude StoreError ZigZag DataOutput DataInput SliceInput Wire CodecUtil SegmentNames SegmentFile.

Module SegmentInfos.

Inductive Error : Type :=
| Store (e : StoreError.Error)
| InvalidSegmentCount (n : Z)
| InvalidDeletionCount (n : Z) (segment : name)
| InvalidSciIdMarker (b : Z)
| InvalidDocValuesFieldCount (n : Z) (segment : name)
| CreatedVersionAheadOfWriter (created major minor bugfix : Z)
| IllegalVersion (which : string) (value : Z)
| InvalidGeneration (which : string) (value : Z) (segment : name).

#[export] Instance Error_eq_dec : EqDecision Error.
Proof. solve_decision. Defined.

Definition CODEC_NAME : list byte := bytes "segments".
Definition VERSION_74 : Z := 9.
Definition VERSION_86 : Z := 10.
Definition VERSION_CURRENT : Z := VERSION_86.

(** [i64::MAX / 2]. *)
Definition MAX_GENERATION : Z := (2 ^ 63 - 1) / 2.

Definition generation_ok (value : Z) : bool := (-1 <=? value) && (value <=? MAX_GENERATION).
Definition check_generation (which : string) (value : Z) (segment : name) : result Error Z :=
  if generation_ok value then Ok value else Err (InvalidGeneration which value segment).

Record LuceneVersion : Type := mk_version { major : Z; minor : Z; bugfix : Z }.
#[export] Instance LuceneVersion_eq_dec : EqDecision LuceneVersion.
Proof. solve_decision. Defined.

Record SegmentCommitInfo : Type := mk_sci {
  segment_name : name;
  segment_id : list byte;
  codec_name : list byte;
  del_gen : Z;
  del_count : Z;
  field_infos_gen : Z;
  doc_values_gen : Z;
  soft_del_count : Z;
  sci_id : option (list byte);
  field_infos_files : list name;
  dv_update_files : list (Z * list name);
  next_write_del_gen_ : Z;
  next_write_field_infos_gen_ : Z;
  next_write_doc_values_gen_ : Z;
  buffered_deletes_gen : Z;
}.

Record t : Type := mk {
  id : list byte;
  generation : Z;
  format_version : Z;
  lucene_version : LuceneVersion;
  index_created_version_major : Z;
  version : Z;
  counter : Z;
  min_segment_lucene_version : option LuceneVersion;
  segments : list SegmentCommitInfo;
  user_data : list (list byte * list byte);
}.

(** ** Generations.  An explicit [0] derives the next one from the current. *)
Definition derive_next_gen (explicit current_gen : Z) : Z :=
  if negb (explicit =? 0) then explicit else if current_gen =? -1 then 1 else current_gen + 1.

Definition next_write_del_gen (s : SegmentCommitInfo) : Z := derive_next_gen (next_write_del_gen_ s) (del_gen s).
Definition next_write_field_infos_gen (s : SegmentCommitInfo) : Z :=
  derive_next_gen (next_write_field_infos_gen_ s) (field_infos_gen s).
Definition next_write_doc_values_gen (s : SegmentCommitInfo) : Z :=
  derive_next_gen (next_write_doc_values_gen_ s) (doc_values_gen s).

Definition set_next_write_del_gen (v : Z) (s : SegmentCommitInfo) : SegmentCommitInfo :=
  mk_sci (segment_name s) (segment_id s) (codec_name s) (del_gen s) (del_count s) (field_infos_gen s) (doc_values_gen s)
    (soft_del_count s) (sci_id s) (field_infos_files s) (dv_update_files s)
    v (next_write_field_infos_gen_ s) (next_write_doc_values_gen_ s) (buffered_deletes_gen s).
Definition set_next_write_field_infos_gen (v : Z) (s : SegmentCommitInfo) : SegmentCommitInfo :=
  mk_sci (segment_name s) (segment_id s) (codec_name s) (del_gen s) (del_count s) (field_infos_gen s) (doc_values_gen s)
    (soft_del_count s) (sci_id s) (field_infos_files s) (dv_update_files s)
    (next_write_del_gen_ s) v (next_write_doc_values_gen_ s) (buffered_deletes_gen s).
Definition set_next_write_doc_values_gen (v : Z) (s : SegmentCommitInfo) : SegmentCommitInfo :=
  mk_sci (segment_name s) (segment_id s) (codec_name s) (del_gen s) (del_count s) (field_infos_gen s) (doc_values_gen s)
    (soft_del_count s) (sci_id s) (field_infos_files s) (dv_update_files s)
    (next_write_del_gen_ s) (next_write_field_infos_gen_ s) v (buffered_deletes_gen s).

(** [DefaultHasher] over the segment's id and generations, twice, is a
    parameter: its algorithm is unspecified. *)
Section advancing.
Context (digest : list byte -> Z -> Z -> Z -> Z -> list byte).

Definition set_gens (s : SegmentCommitInfo) (dg fg vg : Z) (nd nf nv : Z) (bg : Z) : SegmentCommitInfo :=
  mk_sci (segment_name s) (segment_id s) (codec_name s) dg (del_count s) fg vg
    (soft_del_count s) (sci_id s) (field_infos_files s) (dv_update_files s) nd nf nv bg.

Definition generation_advanced (s : SegmentCommitInfo) : SegmentCommitInfo :=
  mk_sci (segment_name s) (segment_id s) (codec_name s) (del_gen s) (del_count s) (field_infos_gen s) (doc_values_gen s)
    (soft_del_count s)
    (Some (digest (segment_id s) (del_gen s) (field_infos_gen s) (doc_values_gen s) (buffered_deletes_gen s)))
    (field_infos_files s) (dv_update_files s)
    (next_write_del_gen_ s) (next_write_field_infos_gen_ s) (next_write_doc_values_gen_ s) (buffered_deletes_gen s).

Definition advance_del_gen (s : SegmentCommitInfo) : SegmentCommitInfo :=
  let g := next_write_del_gen s in
  generation_advanced (set_gens s g (field_infos_gen s) (doc_values_gen s)
    (g + 1) (next_write_field_infos_gen_ s) (next_write_doc_values_gen_ s) (buffered_deletes_gen s)).

Definition advance_doc_values_gen (s : SegmentCommitInfo) : SegmentCommitInfo :=
  let g := next_write_doc_values_gen s in
  generation_advanced (set_gens s (del_gen s) (field_infos_gen s) g
    (next_write_del_gen_ s) (next_write_field_infos_gen_ s) (g + 1) (buffered_deletes_gen s)).

Definition advance_field_infos_gen (s : SegmentCommitInfo) : SegmentCommitInfo :=
  let g := next_write_field_infos_gen s in
  generation_advanced (set_gens s (del_gen s) g (doc_values_gen s)
    (next_write_del_gen_ s) (g + 1) (next_write_doc_values_gen_ s) (buffered_deletes_gen s)).

Definition set_buffered_deletes_gen (v : Z) (s : SegmentCommitInfo) : SegmentCommitInfo :=
  if buffered_deletes_gen s =? -1 then
    generation_advanced (set_gens s (del_gen s) (field_infos_gen s) (doc_values_gen s)
      (next_write_del_gen_ s) (next_write_field_infos_gen_ s) (next_write_doc_values_gen_ s) v)
  else s.
End advancing.

Definition advance_next_write_field_infos_gen (s : SegmentCommitInfo) : SegmentCommitInfo :=
  set_next_write_field_infos_gen (next_write_field_infos_gen s + 1) s.
Definition advance_next_write_doc_values_gen (s : SegmentCommitInfo) : SegmentCommitInfo :=
  set_next_write_doc_values_gen (next_write_doc_values_gen s + 1) s.

Fixpoint put_field (field_number : Z) (files : list name) (l : list (Z * list name)) : list (Z * list name) :=
  match l with
  | [] => [(field_number, files)]
  | (n, old) :: l => if n =? field_number then (n, files) :: l else (n, old) :: put_field field_number files l
  end.
Definition set_doc_values_updates_files (field_number : Z) (files : list name) (s : SegmentCommitInfo) : SegmentCommitInfo :=
  mk_sci (segment_name s) (segment_id s) (codec_name s) (del_gen s) (del_count s) (field_infos_gen s) (doc_values_gen s)
    (soft_del_count s) (sci_id s) (field_infos_files s) (put_field field_number files (dv_update_files s))
    (next_write_del_gen_ s) (next_write_field_infos_gen_ s) (next_write_doc_values_gen_ s) (buffered_deletes_gen s).

(** ** The files of a segment. *)
(** [deletes::liv_file_name]. *)
Definition liv_file_name (segment_name : name) (del_gen : Z) : name :=
  if del_gen =? 0 then segment_name ++ bytes ".liv"
  else segment_name ++ bytes "_" ++ to_base36 del_gen ++ bytes ".liv".

Definition push_new (files : list name) (n : name) : list name :=
  if bool_decide (n ∈ files) then files else files ++ [n].

Definition files (s : SegmentCommitInfo) (si_files : list name) : list name :=
  let l := fold_left push_new si_files [] in
  let l := if negb (del_gen s =? -1) then push_new l (liv_file_name (segment_name s) (del_gen s)) else l in
  let l := fold_left push_new (field_infos_files s) l in
  fold_left (fun l e => fold_left push_new e.2 l) (dv_update_files s) l.

(** ** Writing. *)
Definition write_vint_version (v : LuceneVersion) (out : list byte) : list byte :=
  write_vint (bugfix v) (write_vint (minor v) (write_vint (major v) out)).

Definition write_dv_field (out : list byte) (e : Z * list name) : list byte :=
  let out := write_be_u32 (wrapu 32 e.1) out in
  let out := write_vint (wraps 32 (zlen e.2)) out in
  fold_left (fun out f => write_string f out) e.2 out.

Definition write_segment (out : list byte) (seg : SegmentCommitInfo) : list byte :=
  let out := write_string (segment_name seg) out in
  let out := write_bytes (segment_id seg) out in
  let out := write_string (codec_name seg) out in
  let out := write_be_u64 (wrapu 64 (del_gen seg)) out in
  let out := write_be_u32 (wrapu 32 (del_count seg)) out in
  let out := write_be_u64 (wrapu 64 (field_infos_gen seg)) out in
  let out := write_be_u64 (wrapu 64 (doc_values_gen seg)) out in
  let out := write_be_u32 (wrapu 32 (soft_del_count seg)) out in
  let out := match sci_id seg with
             | Some i => write_bytes i (write_byte 1 out)
             | None => write_byte 0 out
             end in
  let out := write_set_of_strings (field_infos_files seg) out in
  let out := write_be_u32 (wrapu 32 (zlen (dv_update_files seg))) out in
  fold_left write_dv_field (dv_update_files seg) out.

Section format.
Context (crc : list byte -> Z).

(** [None]: the header writer panicked. *)
Definition to_bytes (si : t) : option (list byte) :=
  match write_index_header CODEC_NAME VERSION_CURRENT (id si) (to_base36 (generation si)) [] with
  | None => None
  | Some out =>
      let out := write_vint_version (lucene_version si) out in
      let out := write_vint (index_created_version_major si) out in
      let out := write_be_u64 (wrapu 64 (version si)) out in
      let out := write_vlong (counter si) out in
      let out := write_be_u32 (wrapu 32 (zlen (segments si))) out in
      let out := match segments si with
                 | [] => out
                 | _ => write_vint_version (default (lucene_version si) (min_segment_lucene_version si)) out
                 end in
      let out := fold_left write_segment (segments si) out in
      let out := write_map_of_strings (user_data si) out in
      Some (write_footer crc out)
  end.

(** ** Reading. *)
Notation P := (M Error SliceInput.t).
Notation store := (from_store Store).

Definition version_component_ok (value : Z) : bool := (0 <=? value) && (value <=? 255).
Definition check_version_component (which : string) (value : Z) : result Error Z :=
  if version_component_ok value then Ok value else Err (IllegalVersion which value).

Definition read_version_component (which : string) : P Z :=
  let* v := store read_vint in from_result (check_version_component which v).
Definition read_vint_version : P LuceneVersion :=
  let* major := read_version_component "major" in
  let* minor := read_version_component "minor" in
  let* bugfix := read_version_component "bugfix" in
  ret (mk_version major minor bugfix).

(** [input.read_be_u64()? as i64], checked. *)
Definition read_generation (which : string) (segment : name) : P Z :=
  let* v := store read_be_u64 in from_result (check_generation which (wraps 64 v) segment).

Definition read_deletions (segment : name) : P Z :=
  let* n := store read_be_i32 in
  if n <? 0 then fail (InvalidDeletionCount n segment) else ret n.

Definition read_sci_id (format : Z) : P (option (list byte)) :=
  if VERSION_74 <? format then
    let* marker := store read_byte in
    if marker =? 0 then ret None
    else if marker =? 1 then let* i := store (read_bytes ID_LENGTH) in ret (Some i)
    else fail (InvalidSciIdMarker marker)
  else ret None.

Definition read_dv_field : P (Z * list name) :=
  let* field_number := store read_be_i32 in
  let* files := store read_set_of_strings in
  ret (field_number, files).

Definition read_segment (format : Z) : P SegmentCommitInfo :=
  let* name := store read_string in
  let* sid := store (read_bytes ID_LENGTH) in
  let* codec := store read_string in
  let* dg := read_generation "delGen" name in
  let* dc := read_deletions name in
  let* fg := read_generation "fieldInfosGen" name in
  let* vg := read_generation "docValuesGen" name in
  let* sc := read_deletions name in
  let* sci := read_sci_id format in
  let* fi := store read_set_of_strings in
  let* num_dv_fields := store read_be_i32 in
  let* input := get_state in
  if (num_dv_fields <? 0) || (SliceInput.slice_remaining input <? num_dv_fields)
  then fail (InvalidDocValuesFieldCount num_dv_fields name)
  else
    let* dv := repeatM (Z.to_nat num_dv_fields) read_dv_field in
    ret (mk_sci name sid codec dg dc fg vg sc sci fi dv 0 0 0 (-1)).

(** Everything before the footer. *)
Definition parse_body (generation : Z) : P t :=
  let* generation := from_result (check_generation "generation" generation []) in
  let suffix := to_base36 generation in
  let* header := store (check_header CODEC_NAME VERSION_74 VERSION_CURRENT) in
  let format := CodecUtil.version header in
  let* i := store (read_bytes ID_LENGTH) in
  let* _ := store (check_index_header_suffix suffix) in
  let* lv := read_vint_version in
  let* created := store read_vint in
  if major lv <? created then fail (CreatedVersionAheadOfWriter created (major lv) (minor lv) (bugfix lv)) else
  let* v := read_generation "version" [] in
  let* c := store read_vlong in
  let* c := from_result (check_generation "counter" c []) in
  let* num_segments := store read_be_i32 in
  if num_segments <? 0 then fail (InvalidSegmentCount num_segments) else
  let* input := get_state in
  if SliceInput.slice_remaining input <? num_segments then fail (InvalidSegmentCount num_segments) else
  let* min_version :=
    if 0 <? num_segments then let* v := read_vint_version in ret (Some v) else ret None in
  let* segs := repeatM (Z.to_nat num_segments) (read_segment format) in
  let* ud := store read_map_of_strings in
  ret (mk i generation format lv created v c min_version segs ud).

Definition parse (buf : list byte) (generation : Z) : result Error t :=
  ((let* si := parse_body generation in
    let* _ := store (check_footer crc (zlen buf)) in
    ret si) (SliceInput.new buf)).1.
End format.

(** ** The bounds a commit must be within to be written. *)
Definition first_error (l : list (result Error Z)) : result Error unit :=
  foldr (fun r k => match r with Ok _ => k | Err e => Err e end) (Ok tt) l.
Definition check_writable_generations (si : t) : result Error unit :=
  first_error ([check_generation "generation" (generation si) []; check_generation "version" (version si) [];
    check_generation "counter" (counter si) []] ++
    concat (map (fun sci => [check_generation "delGen" (del_gen sci) (segment_name sci);
      check_generation "fieldInfosGen" (field_infos_gen sci) (segment_name sci);
      check_generation "docValuesGen" (doc_values_gen sci) (segment_name sci)]) (segments si))).

(** ** What is written, as bytes. *)
Definition version_bytes (v : LuceneVersion) : list byte :=
  encode_varint (wrapu 32 (major v)) ++ encode_varint (wrapu 32 (minor v)) ++ encode_varint (wrapu 32 (bugfix v)).
Definition dv_bytes (e : Z * list name) : list byte := to_be 4 (wrapu 32 e.1) ++ strings_bytes e.2.
Definition sci_id_bytes (i : option (list byte)) : list byte :=
  match i with Some i => [1] ++ i | None => [0] end.
Definition gen_bytes (g : Z) : list byte := to_be 8 (wrapu 64 g).
Definition be_bytes (n : Z) : list byte := to_be 4 (wrapu 32 n).

Definition segment_bytes (s : SegmentCommitInfo) : list byte :=
  string_bytes (segment_name s) ++ segment_id s ++ string_bytes (codec_name s) ++
  gen_bytes (del_gen s) ++ be_bytes (del_count s) ++ gen_bytes (field_infos_gen s) ++ gen_bytes (doc_values_gen s) ++
  be_bytes (soft_del_count s) ++ sci_id_bytes (sci_id s) ++ strings_bytes (field_infos_files s) ++
  be_bytes (zlen (dv_update_files s)) ++ concat (map dv_bytes (dv_update_files s)).

(** The version a commit with segments records for the oldest of them. *)
Definition written_min_version (si : t) : option LuceneVersion :=
  match segments si with [] => None | _ => Some (default (lucene_version si) (min_segment_lucene_version si)) end.

Definition body_bytes (si : t) : list byte :=
  header_bytes CODEC_NAME VERSION_CURRENT ++ id si ++ ([zlen (to_base36 (generation si))] ++ to_base36 (generation si)) ++
  version_bytes (lucene_version si) ++ encode_varint (wrapu 32 (index_created_version_major si)) ++
  gen_bytes (version si) ++ encode_varint (wrapu 64 (counter si)) ++ be_bytes (zlen (segments si)) ++
  match written_min_version si with Some v => version_bytes v | None => [] end ++
  concat (map segment_bytes (segments si)) ++
  (count_bytes (zlen (user_data si)) ++ concat (map pair_bytes (user_data si))).

Lemma write_version_bytes v out : write_vint_version v out = out ++ version_bytes v.
Proof. unfold write_vint_version, version_bytes. by rewrite !write_varint_bytes, <- !app_assoc. Qed.

Lemma write_dv_bytes out e : write_dv_field out e = out ++ dv_bytes e.
Proof.
  unfold write_dv_field, dv_bytes. rewrite (write_fold_bytes _ string_bytes) by (intros; apply write_string_bytes).
  rewrite write_varint_bytes. unfold write_be_u32, strings_bytes, count_bytes. cbn [write_bytes VecDataOutput].
  by rewrite <- !app_assoc.
Qed.

Lemma write_segment_bytes out s : write_segment out s = out ++ segment_bytes s.
Proof.
  unfold write_segment. rewrite (write_fold_bytes _ dv_bytes) by (intros; apply write_dv_bytes).
  rewrite write_set_bytes. unfold write_be_u32, write_be_u64, segment_bytes, gen_bytes, be_bytes.
  cbn [write_bytes write_byte VecDataOutput]. rewrite !write_string_bytes. unfold sci_id_bytes.
  destruct (sci_id s); by rewrite <- !app_assoc.
Qed.

(** ** Reading it back. *)
Definition read_back (s : SegmentCommitInfo) : SegmentCommitInfo :=
  mk_sci (segment_name s) (segment_id s) (codec_name s) (del_gen s) (del_count s) (field_infos_gen s) (doc_values_gen s)
    (soft_del_count s) (sci_id s) (field_infos_files s) (dv_update_files s) 0 0 0 (-1).

Definition version_ok (v : LuceneVersion) : Prop :=
  version_component_ok (major v) && version_component_ok (minor v) && version_component_ok (bugfix v) = true.

(** A segment within the format's bounds. *)
Record segment_ok (s : SegmentCommitInfo) : Prop := {
  ok_name : string_ok (segment_name s);
  ok_id : zlen (segment_id s) = ID_LENGTH;
  ok_codec : string_ok (codec_name s);
  ok_gens : generation_ok (del_gen s) && generation_ok (field_infos_gen s) && generation_ok (doc_values_gen s) = true;
  ok_counts : count_ok (del_count s) /\ count_ok (soft_del_count s);
  ok_sci_id : match sci_id s with Some i => zlen i = ID_LENGTH | None => True end;
  ok_files : strings_ok (field_infos_files s);
  ok_dv : Forall (fun e => in_s 32 e.1 /\ strings_ok e.2) (dv_update_files s) /\ count_ok (zlen (dv_update_files s));
}.

Record infos_ok (si : t) : Prop := {
  ok_infos_id : zlen (id si) = ID_LENGTH;
  ok_infos_gens : generation_ok (generation si) && generation_ok (version si) && generation_ok (counter si) = true;
  ok_version : version_ok (lucene_version si);
  ok_created : in_s 32 (index_created_version_major si) /\ index_created_version_major si <= major (lucene_version si);
  ok_min : match written_min_version si with Some v => version_ok v | None => True end;
  ok_segments : Forall segment_ok (segments si) /\ count_ok (zlen (segments si));
  ok_user_data : Forall (fun kv => string_ok kv.1 /\ string_ok kv.2) (user_data si) /\ zlen (user_data si) < 2 ^ 31;
}.

Section reading.
Notation S := SliceInput.t.

Lemma reads_be_s32 v : in_s 32 v -> reads (R := S) read_be_i32 (be_bytes v) v.
Proof. apply reads_be_i32. Qed.

Lemma reads_component which v : version_component_ok v = true ->
  reads (read_version_component which) (encode_varint (wrapu 32 v)) v.
Proof.
  intros Hv. unfold read_version_component. eapply (reads_result _ (check_version_component which)).
  - apply reads_store, reads_vint. unfold version_component_ok in Hv. apply andb_true_iff in Hv as [H1 H2].
    unfold in_s. change (2 ^ (32 - 1)) with 2147483648. lia.
  - unfold check_version_component. by rewrite Hv.
Qed.

Lemma reads_lucene_version v : version_ok v -> reads read_vint_version (version_bytes v) v.
Proof.
  intros [[H1 H2]%andb_true_iff H3]%andb_true_iff. unfold read_vint_version, version_bytes. destruct v as [a b c]. cbn [major minor bugfix] in *.
  eapply reads_bind; [by apply reads_component|]. eapply reads_bind; [by apply reads_component|].
  eapply reads_bind_last; [by apply reads_component|]. apply reads_ret.
Qed.

Lemma generation_range g : generation_ok g = true -> in_s 64 g.
Proof. intros [H1 H2]%andb_true_iff. change MAX_GENERATION with (2 ^ 62 - 1) in *. unfold in_s. change (64 - 1) with 63. lia. Qed.

Lemma reads_generation which segment g : generation_ok g = true -> reads (read_generation which segment) (gen_bytes g) g.
Proof.
  intros Hg. pose proof (generation_range g Hg) as Hr. unfold read_generation.
  eapply reads_bind_last; [apply reads_store, (reads_be_u64 (wrapu 64 g)), wrapu_range; lia|].
  intros r bs Hw Hv. exists r. unfold from_result, check_generation. by rewrite wraps_wrapu, wraps_id, Hg by (try lia; done).
Qed.

Lemma reads_deletions segment n : count_ok n -> reads (read_deletions segment) (be_bytes n) n.
Proof.
  intros Hn. unfold read_deletions. eapply reads_bind_last; [by apply reads_store, reads_be_s32, count_in_s|].
  destruct (Z.ltb_spec n 0); [unfold count_ok in Hn; lia|]. apply reads_ret.
Qed.

Lemma reads_sci_id i : match i with Some i => zlen i = ID_LENGTH | None => True end ->
  reads (read_sci_id VERSION_CURRENT) (sci_id_bytes i) i.
Proof.
  intros Hi. unfold read_sci_id. change (VERSION_74 <? VERSION_CURRENT) with true. cbv iota. destruct i as [i|].
  - eapply reads_bind; [apply reads_store, reads_byte|]. cbn [Z.eqb]. cbv iota beta.
    eapply reads_bind_last; [by apply reads_store, reads_bytes|]. apply reads_ret.
  - eapply reads_bind_last; [apply reads_store, reads_byte|]. apply reads_ret.
Qed.

Lemma reads_dv_field e : in_s 32 e.1 /\ strings_ok e.2 -> reads read_dv_field (dv_bytes e) e.
Proof.
  intros [H1 H2]. unfold read_dv_field, dv_bytes. eapply reads_bind; [by apply reads_store, reads_be_s32|].
  eapply reads_bind_last; [by apply reads_store, reads_strings|]. destruct e. apply reads_ret.
Qed.

Lemma dv_bytes_pos e : 1 <= zlen (dv_bytes e).
Proof. unfold dv_bytes. rewrite zlen_app, zlen_to_be. pose proof (zlen_nonneg (strings_bytes e.2)). lia. Qed.

Lemma reads_segment s : segment_ok s -> reads (read_segment VERSION_CURRENT) (segment_bytes s) (read_back s).
Proof.
  intros H. destruct (andb_prop _ _ (ok_gens s H)) as [[Hd Hf]%andb_prop Hv].
  unfold read_segment, segment_bytes.
  eapply reads_bind; [apply reads_store, reads_string, H|]. eapply reads_bind; [apply reads_store, reads_bytes; symmetry; apply H|].
  eapply reads_bind; [apply reads_store, reads_string, H|]. eapply reads_bind; [by apply reads_generation|].
  eapply reads_bind; [apply reads_deletions, H|]. eapply reads_bind; [by apply reads_generation|].
  eapply reads_bind; [by apply reads_generation|]. eapply reads_bind; [apply reads_deletions, H|].
  eapply reads_bind; [apply reads_sci_id, H|]. eapply reads_bind; [apply reads_store, reads_strings, H|].
  destruct (ok_dv s H) as [Hdv Hn]. eapply reads_bind; [by apply reads_store, reads_be_s32, count_in_s|].
  apply reads_remaining. intros r0 Hr0. pose proof (concat_length dv_bytes (dv_update_files s) dv_bytes_pos).
  pose proof (zlen_nonneg (dv_update_files s)).
  destruct (Z.ltb_spec (zlen (dv_update_files s)) 0); [lia|]. destruct (Z.ltb_spec (SliceInput.slice_remaining r0) (zlen (dv_update_files s))); [lia|].
  cbn [orb]. cbv iota. unfold zlen at 1. rewrite Nat2Z.id. eapply reads_bind_last; [apply reads_repeat|apply reads_ret].
  eapply Forall_impl; [|exact Hdv]. intros e He. by apply reads_dv_field.
Qed.

Lemma segment_bytes_pos s : 1 <= zlen (segment_bytes s).
Proof.
  unfold segment_bytes. rewrite zlen_app. pose proof (string_bytes_pos (segment_name s)). 
  match goal with |- 1 <= _ + zlen ?x => pose proof (zlen_nonneg x) end. lia.
Qed.

(** What is read back: the format and the session's counters start over. *)
Definition reread (si : t) : t :=
  mk (id si) (generation si) VERSION_CURRENT (lucene_version si) (index_created_version_major si) (version si) (counter si)
    (written_min_version si) (map read_back (segments si)) (user_data si).

Lemma reads_segments l : Forall segment_ok l ->
  reads (repeatM (length l) (read_segment VERSION_CURRENT)) (concat (map segment_bytes l)) (map read_back l).
Proof.
  induction 1 as [|s l Hs _ IH]; cbn [length repeatM map concat]; [apply reads_ret|].
  eapply reads_bind; [by apply reads_segment|]. eapply reads_map; [exact IH|done].
Qed.

Lemma reads_min_version (segs : list SegmentCommitInfo) o :
  match o with Some v => version_ok v | None => True end -> (o = None <-> segs = []) ->
  reads (if 0 <? zlen segs then let* v := read_vint_version in ret (Some v) else ret None)
    match o with Some v => version_bytes v | None => [] end o.
Proof.
  intros Ho Hs. destruct o as [v|].
  - destruct segs as [|s segs]; [discriminate (proj2 Hs eq_refl)|]. rewrite zlen_cons. pose proof (zlen_nonneg segs).
    destruct (Z.ltb_spec 0 (1 + zlen segs)); [|lia]. eapply reads_map; [by apply reads_lucene_version|done].
  - rewrite (proj1 Hs eq_refl). apply reads_ret.
Qed.

Lemma codec_name_ok : string_ok CODEC_NAME.
Proof. by vm_compute. Qed.

Lemma reads_body si : infos_ok si -> reads (parse_body (generation si)) (body_bytes si) (reread si).
Proof.
  intros H. destruct (andb_prop _ _ (ok_infos_gens si H)) as [[Hg Hv]%andb_prop Hc].
  unfold parse_body. rewrite <- (app_nil_l (body_bytes si)).
  eapply reads_bind; [intros r bs Hw Hb; exists r; unfold from_result, check_generation; by rewrite Hg|]. unfold body_bytes.
  eapply reads_bind; [apply reads_store, (check_header_reads CODEC_NAME VERSION_CURRENT codec_name_ok); by vm_compute|].
  eapply reads_bind; [apply reads_store, reads_bytes; symmetry; apply H|].
  eapply reads_bind; [apply reads_store, check_suffix_reads|].
  eapply reads_bind; [apply reads_lucene_version, H|]. destruct (ok_created si H) as [Hcr Hle].
  eapply reads_bind; [by apply reads_store, reads_vint|].
  destruct (Z.ltb_spec (major (lucene_version si)) (index_created_version_major si)); [lia|].
  eapply reads_bind; [by apply reads_generation|]. eapply reads_bind; [by apply reads_store, reads_vlong, generation_range|].
  rewrite <- (app_nil_l (be_bytes _ ++ _)).
  eapply reads_bind; [intros r bs Hw Hb; exists r; unfold from_result, check_generation; by rewrite Hc|].
  destruct (ok_segments si H) as [Hsegs Hn]. destruct (ok_user_data si H) as [Hud Hudn].
  eapply reads_bind; [by apply reads_store, reads_be_s32, count_in_s|].
  destruct (Z.ltb_spec (zlen (segments si)) 0); [unfold count_ok in Hn; lia|].
  apply reads_remaining. intros r0 Hr0. pose proof (concat_length segment_bytes (segments si) segment_bytes_pos) as Hcl.
  rewrite !zlen_app in Hr0. 
  repeat match type of Hr0 with context [zlen ?x] => lazymatch x with segments si => fail | _ => 
    lazymatch goal with _ : 0 <= zlen x |- _ => fail | _ => pose proof (zlen_nonneg x) end end end.
  destruct (Z.ltb_spec (SliceInput.slice_remaining r0) (zlen (segments si))); [lia|].
  eapply reads_bind.
  { apply (reads_min_version (segments si) (written_min_version si)); [apply H|]. unfold written_min_version. by destruct (segments si). }
  eapply reads_bind; [unfold zlen; rewrite Nat2Z.id; by apply reads_segments|].
  eapply reads_map; [by apply reads_store, reads_map_of_strings|done].
Qed.
End reading.

(** ** Reading never touches the buffer. *)
Section keeping.
Context (b : list byte).
Notation keeps m := (preserves (fun s => SliceInput.buf s = b) m).

Lemma keeps_version : keeps read_vint_version.
Proof. unfold read_vint_version, read_version_component. keeps. Qed.

Lemma keeps_segment format : keeps (read_segment format).
Proof. unfold read_segment, read_dv_field, read_sci_id, read_deletions, read_generation. keeps. Qed.

Lemma keeps_body generation : keeps (parse_body generation).
Proof. unfold parse_body, read_generation. repeat first [apply keeps_segment | apply keeps_version | progress keeps]. Qed.
End keeping.

(** ** The round trip. *)
Section round_trip.
Context (crc : list byte -> Z).
Hypothesis crc_range : forall l, in_u 32 (crc l).

Lemma to_bytes_spec si : zlen (id si) = ID_LENGTH -> to_bytes crc si = Some (write_footer crc (body_bytes si)).
Proof.
  intros Hid. unfold to_bytes. rewrite write_index_header_spec; [|by vm_compute|apply suffix_length|done]. f_equal. f_equal.
  rewrite write_map_bytes, (write_fold_bytes _ segment_bytes) by (intros; apply write_segment_bytes).
  assert (H32 : forall v (out : list byte), write_be_u32 v out = out ++ to_be 4 v) by done.
  assert (H64 : forall v (out : list byte), write_be_u64 v out = out ++ to_be 8 v) by done.
  assert (Hw : forall x, write_bytes x ([] : list byte) = x) by done.
  unfold body_bytes, written_min_version, gen_bytes, be_bytes, index_header_bytes. rewrite Hw.
  destruct (segments si) as [|s l]; rewrite ?write_version_bytes, H32, write_varlong_bytes, H64, write_varint_bytes, ?write_version_bytes;
    by rewrite <- ?app_assoc.
Qed.

Lemma parse_to_bytes (si : t) (file : list byte) : infos_ok si ->
  to_bytes crc si = Some file -> bytes_ok file -> zlen file < 2 ^ 63 -> parse crc file (generation si) = Ok (reread si).
Proof.
  intros H Hf Hok Hl. rewrite to_bytes_spec in Hf by apply H. injection Hf as <-. unfold parse.
  destruct (reads_whole_file Store crc crc_range (parse_body (generation si)) ret (body_bytes si) (reread si)
    (reads_body si H) (fun b => keeps_body b (generation si)) Hok Hl) as [s Es]. by rewrite Es.
Qed.

(** C8: a commit within the format's bounds is written without panicking, and
    [parse] of the file reads the same commit back: every field of every
    segment, with the format version set and the session's own counters
    (next generations, buffered deletes) at their start values. *)
Theorem commit_file_round_trip (si : t) : infos_ok si ->
  exists file, to_bytes crc si = Some file /\
    (bytes_ok file -> zlen file < 2 ^ 63 -> parse crc file (generation si) = Ok (reread si)).
Proof.
  intros H. exists (write_footer crc (body_bytes si)). assert (Hf := to_bytes_spec si (ok_infos_id si H)).
  split; [done|]. by apply parse_to_bytes.
Qed.
End round_trip.

(** ** What [parse] lets through. *)
Section accepted.
Lemma returns_generation which segment : returns (read_generation which segment) (fun g => generation_ok g = true).
Proof.
  unfold read_generation. apply (returns_bind _ _ (fun _ => True)); [apply returns_any|]. intros v _ s a s'.
  unfold from_result, check_generation. destruct (generation_ok _) eqn:E; intros [= <- <-]. done.
Qed.

Lemma returns_check which v segment : returns (S := SliceInput.t) (from_result (check_generation which v segment)) (fun g => g = v /\ generation_ok g = true).
Proof. intros s a s'. unfold from_result, check_generation. destruct (generation_ok v) eqn:E; intros [= <- <-]. done. Qed.

Lemma returns_deletions segment : returns (read_deletions segment) (fun n => 0 <= n).
Proof.
  unfold read_deletions. apply (returns_bind _ _ (fun _ => True)); [apply returns_any|]. intros n _ s a s'.
  destruct (Z.ltb_spec n 0); [done|]. by intros [= <- <-].
Qed.

(** A segment no later commit can overflow. *)
Definition steppable (g next : Z) : Prop := -1 <= g <= MAX_GENERATION /\ g < next <= MAX_GENERATION + 1.
Definition bounded (s : SegmentCommitInfo) : Prop :=
  steppable (del_gen s) (next_write_del_gen s) /\ steppable (field_infos_gen s) (next_write_field_infos_gen s) /\
  steppable (doc_values_gen s) (next_write_doc_values_gen s) /\ 0 <= del_count s /\ 0 <= soft_del_count s.

Lemma steppable_derived g : generation_ok g = true -> steppable g (derive_next_gen 0 g).
Proof.
  intros [H1 H2]%andb_true_iff. unfold steppable, derive_next_gen. change MAX_GENERATION with (2 ^ 62 - 1) in *.
  cbn [Z.eqb negb]. destruct (Z.eqb_spec g (-1)); lia.
Qed.

Lemma returns_segment format : returns (read_segment format) bounded.
Proof.
  unfold read_segment. do 3 (apply (returns_bind _ _ _ _ (returns_any _)); intros ? _).
  apply (returns_bind _ _ _ _ (returns_generation _ _)). intros dg Hd. apply (returns_bind _ _ _ _ (returns_deletions _)). intros dc Hdc.
  apply (returns_bind _ _ _ _ (returns_generation _ _)). intros fg Hf. apply (returns_bind _ _ _ _ (returns_generation _ _)). intros vg Hv.
  apply (returns_bind _ _ _ _ (returns_deletions _)). intros sc Hsc.
  do 4 (apply (returns_bind _ _ _ _ (returns_any _)); intros ? _). destruct (_ || _); [by intros ? ? ?|].
  apply (returns_bind _ _ _ _ (returns_any _)). intros dv _ x y z [= <- <-].
  repeat split; cbn; try done; by apply steppable_derived.
Qed.

Lemma generation_between g : generation_ok g = true -> -1 <= g <= MAX_GENERATION.
Proof. intros [H1 H2]%andb_true_iff. lia. Qed.

Lemma returns_body gen : returns (parse_body gen) (fun si =>
  generation si = gen /\ Forall (fun g => -1 <= g <= MAX_GENERATION) [gen; version si; counter si] /\
  Forall bounded (segments si) /\ index_created_version_major si <= major (lucene_version si)).
Proof.
  unfold parse_body. apply (returns_bind _ _ _ _ (returns_check _ _ _)). intros g [-> Hg].
  do 5 (apply (returns_bind _ _ _ _ (returns_any _)); intros ? _).
  match goal with |- returns (if ?c <? ?d then _ else _) _ => destruct (Z.ltb_spec c d); [by intros ? ? ?|] end.
  apply (returns_bind _ _ _ _ (returns_generation _ _)). intros v Hv. apply (returns_bind _ _ _ _ (returns_any _)). intros c _.
  apply (returns_bind _ _ _ _ (returns_check _ _ _)). intros c' [-> Hc]. apply (returns_bind _ _ _ _ (returns_any _)). intros n _.
  destruct (n <? 0); [by intros ? ? ?|]. apply (returns_bind _ _ _ _ (returns_any _)). intros r _.
  destruct (_ <? n); [by intros ? ? ?|]. apply (returns_bind _ _ _ _ (returns_any _)). intros mv _.
  apply (returns_bind _ _ _ _ (returns_repeat _ _ _ (returns_segment _))). intros segs [Hs _].
  apply (returns_bind _ _ _ _ (returns_any _)). intros ud _ x y z [= <- <-]. cbn.
  split; [done|]. split; [repeat constructor; by apply generation_between|]. split; [done|lia].
Qed.

Lemma bounded_writable (si : t) : Forall (fun g => -1 <= g <= MAX_GENERATION) [generation si; version si; counter si] ->
  Forall bounded (segments si) -> check_writable_generations si = Ok tt.
Proof.
  intros Hg Hb. assert (Hok : forall which g seg, -1 <= g <= MAX_GENERATION -> check_generation which g seg = Ok g).
  { intros which g seg H. unfold check_generation, generation_ok. destruct (Z.leb_spec (-1) g), (Z.leb_spec g MAX_GENERATION); (lia || done). }
  destruct (Forall_inv Hg), (Forall_inv (Forall_inv_tail Hg)), (Forall_inv (Forall_inv_tail (Forall_inv_tail Hg))). unfold check_writable_generations. cbn [app first_error foldr].
  rewrite !Hok by done. fold (first_error (concat (map (fun sci => [check_generation "delGen" (del_gen sci) (segment_name sci);
      check_generation "fieldInfosGen" (field_infos_gen sci) (segment_name sci);
      check_generation "docValuesGen" (doc_values_gen sci) (segment_name sci)]) (segments si)))).
  induction Hb as [|s l ((Hd & _) & (Hf & _) & (Hv & _) & _) _ IH]; [done|].
  cbn [map concat app first_error foldr]. rewrite !Hok by done. exact IH.
Qed.

(** C36: a commit [parse] accepts is one the writer can step past: its
    generation, version and counter, and every segment's generations, are
    between [-1] and [MAX_GENERATION], so that it passes the check made before
    a commit is written; the next generation of each kind a segment would use
    is above the current one and at most [MAX_GENERATION + 1], far inside an
    [i64]; no count is negative; and the index was not created by a version
    newer than its writer. *)
Theorem parsed_commits_are_steppable (crc : list byte -> Z) (file : list byte) (gen : Z) (si : t) :
  parse crc file gen = Ok si ->
  generation si = gen /\ Forall (fun g => -1 <= g <= MAX_GENERATION) [gen; version si; counter si] /\
  Forall bounded (segments si) /\ index_created_version_major si <= major (lucene_version si) /\
  check_writable_generations si = Ok tt.
Proof.
  unfold parse. destruct (bind _ _ _) as [r s'] eqn:E. cbn [fst]. intros ->. apply bind_Ok_inv in E as (si' & s1 & E1 & E2).
  apply bind_Ok_inv in E2 as (x & s2 & _ & [= <- _]). apply returns_body in E1 as (<- & H1 & H2 & H3).
  do 4 (split; [done|]). by apply bounded_writable.
Qed.
End accepted.

(** ** A concrete commit: one segment with deletions and updates. *)
Definition sample_segment : SegmentCommitInfo :=
  mk_sci (bytes "_0") (replicate 16 7) (bytes "Lucene104") 3 2 (-1) 1 0 (Some (replicate 16 9)) [bytes "_0_1.fnm"]
    [(4, [bytes "_0_1_Lucene90_0.dvd"])] 0 0 0 5.
Definition sample : t :=
  mk (replicate 16 1) 12 VERSION_CURRENT (mk_version 10 3 0) 10 40 2 None [sample_segment] [(bytes "k", bytes "v")].

Lemma sample_ok : infos_ok sample.
Proof.
  assert (Hs : forall l, forallb (fun s => utf8_valid s && (zlen s <? 2 ^ 31)) l = true -> Forall string_ok l).
  { induction l as [|x l IH]; cbn [forallb]; [done|]. intros [[H1 H2%Z.ltb_lt]%andb_true_iff Hl]%andb_true_iff. constructor; [by split|auto]. }
  assert (Hseg : segment_ok sample_segment).
  { apply Build_segment_ok.
    - split; by vm_compute.
    - by vm_compute.
    - split; by vm_compute.
    - by vm_compute.
    - split; by vm_compute.
    - by vm_compute.
    - split; [by apply Hs|by vm_compute].
    - split; [|by vm_compute]. constructor; [|constructor]. split; [by vm_compute|]. split; [by apply Hs|by vm_compute]. }
  apply Build_infos_ok.
  - by vm_compute.
  - by vm_compute.
  - by vm_compute.
  - split; by vm_compute.
  - by vm_compute.
  - split; [by constructor|by vm_compute].
  - split; [|by vm_compute]. constructor; [|constructor]. split; split; by vm_compute.
Qed.

Lemma commit_file_round_trip_witness :
  exists file, to_bytes ieee_crc32 sample = Some file /\ parse ieee_crc32 file 12 = Ok (reread sample).
Proof.
  destruct (commit_file_round_trip ieee_crc32 ieee_range sample sample_ok) as (file & Hf & Hp). exists file. split; [exact Hf|].
  assert (E : Some file = to_bytes ieee_crc32 sample) by (by rewrite Hf). vm_compute in E. injection E as ->.
  apply Hp; [by apply bytes_okb_ok|by vm_compute].
Defined.

Lemma parsed_commits_are_steppable_witness :
  exists file si, parse ieee_crc32 file 12 = Ok si /\ Forall bounded (segments si).
Proof.
  destruct (to_bytes ieee_crc32 sample) as [file|] eqn:Hf; [|vm_compute in Hf; discriminate]. exists file, (reread sample).
  assert (Hp : parse ieee_crc32 file 12 = Ok (reread sample)).
  { assert (E : Some file = to_bytes ieee_crc32 sample) by (by rewrite Hf). vm_compute in E. injection E as ->. by vm_compute. }
  split; [exact Hp|]. exact (proj1 (proj2 (proj2 (parsed_commits_are_steppable ieee_crc32 file 12 (reread sample) Hp)))).
Defined.
End SegmentInfos.
