(* ===== verification/Search.v ===== *)
(** * Foundations of the scorer tree

    The searching code ([lucene-search/src/exec]) threads mutable scorers
    through fallible loops whose length depends on what the scorers answer.
    [comp E A] is that effect: given fuel, a computation finishes with a
    value, fails with an error of type [E], panics, or runs out of fuel.
    Every loop of a computation is given the same fuel, so a caller supplies
    one number.  [wp m n Q] says that with fuel [n] the computation [m] neither
    panics nor runs out of fuel, and that [Q] holds of its value when it does
    not fail; with an empty error type it is total correctness.

    The file also holds [f32] and [f64] (Rust's IEEE formats as the Standard
    Library's [spec_float]), saturating [i32]/[i64] arithmetic, the stable sort
    and the vector loops the scorers share. *)
From Stdlib Require Export SpecFloat.
From S2P Require Export Prelude.
From stdpp Require Export gmap fin_sets.
#[global] Open Scope Z_scope.
#[global] Open Scope lucene_scope.

(** ** Results of a computation *)
Inductive outcome (E A : Type) : Type :=
| Done (a : A)
| Fail (e : E)
| Panic
| OutOfFuel.
Arguments Done {E A} a.
Arguments Fail {E A} e.
Arguments Panic {E A}.
Arguments OutOfFuel {E A}.

Definition comp (E A : Type) : Type := nat -> outcome E A.

Definition cret {E A} (a : A) : comp E A := fun _ => Done a.
Definition cfail {E A} (e : E) : comp E A := fun _ => Fail e.
Definition cpanic {E A} : comp E A := fun _ => Panic.
Definition cdiverge {E A} : comp E A := fun _ => OutOfFuel.
Definition cbind {E A B} (m : comp E A) (k : A -> comp E B) : comp E B :=
  fun n => match m n with
           | Done a => k a n
           | Fail e => Fail e
           | Panic => Panic
           | OutOfFuel => OutOfFuel
           end.
(** A loop: its body is given the fuel it may consume. *)
Definition cloop {E A} (body : nat -> comp E A) : comp E A := fun n => body n n.

Notation "'let!' x ':=' m 'in' k" := (cbind m (fun x => k))
  (at level 200, x pattern, m at level 100, k at level 200, right associativity)
  : lucene_scope.

Definition wp {E A} (m : comp E A) (n : nat) (Q : A -> Prop) : Prop :=
  match m n with
  | Done a => Q a
  | Fail _ => True
  | Panic | OutOfFuel => False
  end.

(** ** [i32] and [i64] *)
Definition i32_max : Z := 2 ^ 31 - 1.
Definition i64_max : Z := 2 ^ 63 - 1.
Definition sat32 (z : Z) : Z := Z.max (- 2 ^ 31) (Z.min i32_max z).
Definition sat64 (z : Z) : Z := Z.max (- 2 ^ 63) (Z.min i64_max z).

(** ** Floating point.  A [spec_float] is an IEEE datum with one NaN. *)
Definition f32 : Type := spec_float.
Definition f64 : Type := spec_float.

Definition f32_add : f32 -> f32 -> f32 := SFadd 24 128.
Definition f32_mul : f32 -> f32 -> f32 := SFmul 24 128.
Definition f32_div : f32 -> f32 -> f32 := SFdiv 24 128.
Definition f64_add : f64 -> f64 -> f64 := SFadd 53 1024.
Definition f64_mul : f64 -> f64 -> f64 := SFmul 53 1024.

(** [z as f32] for an integer, rounded to nearest even. *)
Definition f32_of_Z (z : Z) : f32 := binary_normalize 24 128 z 0 false.
Definition f64_of_Z (z : Z) : f64 := binary_normalize 53 1024 z 0 false.
(** [x as f32] of an [f64], and [f64::from(x)]. *)
Definition round_to (prec emax : Z) (x : spec_float) : spec_float :=
  match x with
  | S754_finite s m e => binary_round prec emax s m e
  | _ => x
  end.
Definition f32_of_f64 (x : f64) : f32 := round_to 24 128 x.
Definition f64_of_f32 (x : f32) : f64 := round_to 53 1024 x.

(** [f32::total_cmp], the one NaN being positive. *)
Definition total_cmp (a b : f32) : comparison :=
  match a, b with
  | S754_nan, S754_nan => Datatypes.Eq
  | S754_nan, _ => Datatypes.Gt
  | _, S754_nan => Datatypes.Lt
  | S754_zero true, S754_zero false => Datatypes.Lt
  | S754_zero false, S754_zero true => Datatypes.Gt
  | _, _ => match SFcompare a b with Some c => c | None => Datatypes.Eq end
  end.
Definition total_leb (a b : f32) : bool :=
  match total_cmp a b with Datatypes.Gt => false | _ => true end.

(** [Iterator::sum] of floats starts from negative zero. *)
Definition f32_sum (l : list f32) : f32 := fold_left f32_add l (S754_zero true).

(** ** A stable sort ([slice::sort_by] and [sort_by_key]): [x] goes before the
    first element that is not less than it. *)
Section sort_by.
Context {A : Type} (leb : A -> A -> bool).
Fixpoint sort_insert (x : A) (l : list A) : list A :=
  match l with
  | [] => [x]
  | y :: l' => if leb x y then x :: l else y :: sort_insert x l'
  end.
Definition sort_by (l : list A) : list A := foldr sort_insert [] l.
End sort_by.

(** ** Vectors of mutable objects *)
Section vectors.
Context {E : Type}.

(** [f(&mut v[i])]: an index out of bounds panics. *)
Definition with_at {S A} (v : list S) (i : nat) (f : S -> comp E (A * S)) : comp E (A * list S) :=
  match v !! i with
  | Some s => let! (a, s') := f s in cret (a, <[i := s']> v)
  | None => cpanic
  end.

(** A query about [v[i]], every index being in bounds. *)
Definition ask {X A} (v : list X) (i : nat) (f : X -> A) (default : A) : A :=
  match v !! i with Some s => f s | None => default end.

(** What may panic ([None]) as a step of a computation. *)
Definition of_option {A} (o : option A) : comp E A :=
  match o with Some a => cret a | None => cpanic end.

(** [for x in xs { body }] over a state, with [return] or [continue 'outer] as
    [Some]. *)
Fixpoint for_each {X St R} (xs : list X) (body : X -> St -> comp E (option R * St)) (st : St)
  : comp E (option R * St) :=
  match xs with
  | [] => cret (None, st)
  | x :: xs' =>
      let! (r, st') := body x st in
      match r with
      | Some r => cret (Some r, st')
      | None => for_each xs' body st'
      end
  end.

(** [for x in &mut v { body }] with an accumulator. *)
Fixpoint for_mut {X Acc} (body : X -> Acc -> comp E (X * Acc)) (v : list X) (acc : Acc)
  : comp E (list X * Acc) :=
  match v with
  | [] => cret ([], acc)
  | x :: v' =>
      let! (x', acc) := body x acc in
      let! (v'', acc) := for_mut body v' acc in
      cret (x' :: v'', acc)
  end.
End vectors.

(** ** The rules of [wp] *)
Section wp_rules.
Context {E : Type}.

Lemma wp_ret {A} (a : A) n (Q : A -> Prop) : Q a -> wp (@cret E A a) n Q.
Proof. done. Qed.

Lemma wp_bind {A B} (m : comp E A) (k : A -> comp E B) n Q :
  wp m n (fun a => wp (k a) n Q) -> wp (cbind m k) n Q.
Proof. unfold wp, cbind. destruct (m n); auto. Qed.

Lemma wp_mono {A} (m : comp E A) n (P Q : A -> Prop) :
  wp m n P -> (forall a, P a -> Q a) -> wp m n Q.
Proof. unfold wp. destruct (m n); auto. Qed.

(** Running an inner object and putting it back. *)
Lemma wp_inner {A S W} (m : comp E (A * S)) (put : A -> S -> W) n Q R :
  wp m n Q -> (forall a i, Q (a, i) -> R (a, put a i)) ->
  wp (let! (a, i) := m in cret (a, put a i)) n R.
Proof. intros Hm H. apply wp_bind. eapply wp_mono; [exact Hm|]. intros [a i] HQ. by apply H. Qed.

Lemma wp_with_at {S A} (v : list S) i (f : S -> comp E (A * S)) s n Q :
  v !! i = Some s -> wp (f s) n (fun r => Q (r.1, <[i := r.2]> v)) -> wp (with_at v i f) n Q.
Proof.
  intros Hi H. unfold with_at. rewrite Hi. apply wp_bind. eapply wp_mono; [exact H|].
  intros [a s'] HQ. exact HQ.
Qed.

Lemma wp_of_option {A} (o : option A) a n (Q : A -> Prop) :
  o = Some a -> Q a -> wp (@of_option E A o) n Q.
Proof. by intros -> H. Qed.

(** The invariant is indexed by the elements still to visit. *)
Lemma wp_for_each {X St R} (I : list X -> St -> Prop) (body : X -> St -> comp E (option R * St)) n Q :
  (forall x xs st, I (x :: xs) st ->
     wp (body x st) n (fun r => match r.1 with None => I xs r.2 | Some a => Q (Some a, r.2) end)) ->
  (forall st, I [] st -> Q (None, st)) ->
  forall xs st, I xs st -> wp (for_each xs body st) n Q.
Proof.
  intros Hb Hq. induction xs as [|x xs IH]; intros st HI; cbn [for_each].
  - apply wp_ret. auto.
  - apply wp_bind. eapply wp_mono; [by apply Hb|].
    intros [[r|] st'] H; cbn in H |- *; [by apply wp_ret|by apply IH].
Qed.

(** The invariant relates the accumulator to the prefix already visited, old
    and new. *)
Lemma wp_for_mut {X Acc} (I : list X -> list X -> Acc -> Prop)
    (body : X -> Acc -> comp E (X * Acc)) n (v0 : list X) :
  (forall pre x post pre' acc, v0 = pre ++ x :: post -> I pre pre' acc ->
     wp (body x acc) n (fun r => I (pre ++ [x]) (pre' ++ [r.1]) r.2)) ->
  forall acc, I [] [] acc -> wp (for_mut body v0 acc) n (fun r => I v0 r.1 r.2).
Proof.
  intros Hb.
  assert (G : forall post pre pre' acc, v0 = pre ++ post -> I pre pre' acc ->
    wp (for_mut body post acc) n (fun r => I v0 (pre' ++ r.1) r.2)).
  { induction post as [|x post IH]; intros pre pre' acc Hv HI; cbn [for_mut].
    - apply wp_ret. cbn. rewrite app_nil_r in *. by subst.
    - apply wp_bind. eapply wp_mono; [by eapply Hb|]. intros [x' acc'] HI'. cbn in HI'.
      apply wp_bind. eapply wp_mono.
      + eapply (IH (pre ++ [x]) (pre' ++ [x'])); [by rewrite <- app_assoc|done].
      + intros [v'' acc''] H. apply wp_ret. cbn in *. by rewrite <- app_assoc in H. }
  intros acc HI. by apply (G v0 [] [] acc).
Qed.
End wp_rules.

Ltac wp_ret := apply wp_ret; cbn [fst snd].
Ltac wp_bind := apply wp_bind.
Tactic Notation "wp_use" uconstr(H) := eapply wp_mono; [eapply H|].

(** With an error type that has no inhabitant, [wp] is total correctness. *)
Lemma wp_total {A} (m : comp Empty_set A) n (Q : A -> Prop) :
  wp m n Q -> exists a, m n = Done a /\ Q a.
Proof. unfold wp. destruct (m n) as [a|[]| |]; [eauto|done|done]. Qed.

(** ** The sort *)
Section sort_lemmas.
Context {A : Type} (leb : A -> A -> bool).

Lemma sort_insert_perm x l : sort_insert leb x l ≡ₚ x :: l.
Proof.
  induction l as [|y l IH]; cbn; [done|]. destruct (leb x y); [done|].
  rewrite IH. apply Permutation_swap.
Qed.

Lemma sort_by_perm l : sort_by leb l ≡ₚ l.
Proof. induction l as [|x l IH]; cbn; [done|]. rewrite sort_insert_perm. by f_equiv. Qed.

(** The first element of the sorted list is least, and the earliest such. *)
Lemma sort_insert_head x l :
  head (sort_insert leb x l) =
  match head l with Some y => Some (if leb x y then x else y) | None => Some x end.
Proof. destruct l as [|y l]; cbn; [done|]. by destruct (leb x y). Qed.
End sort_lemmas.

(** ** Smaller facts *)
Lemma sat32_id z : in_s 32 z -> sat32 z = z.
Proof. unfold in_s, sat32, i32_max. cbn. lia. Qed.
