(* ===== verification/FloatBits.v ===== *)
(** * Floats as their bits, and Java's total order on them

    A float read from a file or kept in a column is its bits: a NaN keeps its
    payload.  [datum] is the IEEE value a bit pattern of [mw] mantissa and
    [ew] exponent bits stands for, as the Standard Library's [spec_float].
    Proved, for both precisions at once: comparing values, then canonical
    bits, is comparing the sortable integers. *)
From S2P Require Export Search.

Section ieee.
Context (mw ew : Z).
Notation width := (mw + ew + 1).
Notation sign := (2 ^ (mw + ew)).

(** The IEEE interchange format. *)
Definition magnitude_datum (s : bool) (mag : Z) : spec_float :=
  let exp := mag / 2 ^ mw in
  let frac := mag mod 2 ^ mw in
  let emin := 3 - 2 ^ (ew - 1) - (mw + 1) in
  if exp =? 2 ^ ew - 1 then (if frac =? 0 then S754_infinity s else S754_nan)
  else if exp =? 0 then match frac with Zpos m => S754_finite s m emin | _ => S754_zero s end
  else match 2 ^ mw + frac with Zpos m => S754_finite s m (emin + exp - 1) | _ => S754_zero s end.
Definition datum (x : Z) : spec_float :=
  if sign <=? x then magnitude_datum true (x - sign) else magnitude_datum false x.

(** [a < b], and [is_nan]. *)
Definition bits_lt (a b : Z) : bool := SFltb (datum a) (datum b).
Definition bits_nan (x : Z) : bool := match datum x with S754_nan => true | _ => false end.

(** The NaN every other is made into: [0x7fc00000], [0x7ff8000000000000]. *)
Definition quiet_nan : Z := (2 ^ ew - 1) * 2 ^ mw + 2 ^ (mw - 1).
Definition canonical_bits (x : Z) : Z := if bits_nan x then quiet_nan else wraps width x.

(** [Float.compare], [Double.compare]. *)
Definition java_compare (a b : Z) : comparison :=
  if bits_lt a b then Datatypes.Lt else if bits_lt b a then Datatypes.Gt else canonical_bits a ?= canonical_bits b.

(** [bits ^ ((bits >> 31) & 0x7fff_ffff)] at the width. *)
Definition sortable_bits (bits : Z) : Z := Z.lxor bits (Z.land (Z.shiftr bits (width - 1)) (Z.ones (width - 1))).
Definition to_sortable (x : Z) : Z := sortable_bits (canonical_bits x).

Hypothesis mw_pos : 1 <= mw.
Hypothesis ew_pos : 2 <= ew.

Lemma sign_split : sign = 2 ^ ew * 2 ^ mw.
Proof. rewrite <- Z.pow_add_r by lia. f_equal. lia. Qed.
Lemma pow_mw : 2 <= 2 ^ mw /\ 2 ^ mw = 2 * 2 ^ (mw - 1).
Proof. replace mw with (1 + (mw - 1)) at 1 2 by lia. rewrite Z.pow_add_r by lia. change (2 ^ 1) with 2. pose proof (Z.pow_pos_nonneg 2 (mw - 1)). lia. Qed.
Lemma pow_ew : 4 <= 2 ^ ew.
Proof. change 4 with (2 ^ 2). apply Z.pow_le_mono_r; lia. Qed.
Lemma top_split : 2 ^ width = 2 * sign.
Proof. replace width with (1 + (mw + ew)) by lia. rewrite Z.pow_add_r by lia. done. Qed.
Notation infinite := ((2 ^ ew - 1) * 2 ^ mw).

(** A finite magnitude is its mantissa and exponent, in that order of weight. *)
Lemma finite_magnitude s mag : 0 < mag < infinite -> exists m e,
  magnitude_datum s mag = S754_finite s m e /\
  let k := e - (3 - 2 ^ (ew - 1) - (mw + 1)) in
  0 <= k /\ mag = k * 2 ^ mw + Zpos m /\ Zpos m < 2 * 2 ^ mw /\ (2 ^ mw <= Zpos m \/ k = 0).
Proof.
  intros H. pose proof pow_mw as [Hp _]. pose proof pow_ew. unfold magnitude_datum. cbv zeta.
  pose proof (Z.div_mod mag (2 ^ mw) ltac:(lia)) as Hd. pose proof (Z.mod_pos_bound mag (2 ^ mw) ltac:(lia)) as Hr.
  set (q := mag / 2 ^ mw) in *. set (r := mag mod 2 ^ mw) in *. assert (Hq : 0 <= q < 2 ^ ew - 1) by nia.
  destruct (Z.eqb_spec q (2 ^ ew - 1)); [lia|]. destruct (Z.eqb_spec q 0) as [Hq0|Hq0].
  - rewrite Hq0 in Hd. destruct r as [|m|m] eqn:Er; [lia| |lia]. exists m, (3 - 2 ^ (ew - 1) - (mw + 1)). split; [done|]. cbv zeta. lia.
  - destruct (2 ^ mw + r) as [|m|m] eqn:Em; [lia| |lia]. exists m, (3 - 2 ^ (ew - 1) - (mw + 1) + q - 1). split; [done|]. cbv zeta. nia.
Qed.

Lemma zero_magnitude s : magnitude_datum s 0 = S754_zero s.
Proof.
  unfold magnitude_datum. pose proof pow_mw. pose proof pow_ew. rewrite Z.div_0_l, Z.mod_0_l by lia.
  destruct (Z.eqb_spec 0 (2 ^ ew - 1)); [lia|]. done.
Qed.

Lemma infinite_magnitude s : magnitude_datum s infinite = S754_infinity s.
Proof.
  unfold magnitude_datum. pose proof pow_mw. rewrite Z.div_mul, Z.mod_mul by lia. by rewrite !Z.eqb_refl.
Qed.

Lemma nan_magnitude s mag : infinite < mag < sign -> magnitude_datum s mag = S754_nan.
Proof.
  intros H. rewrite sign_split in H. pose proof pow_mw as [Hp _]. unfold magnitude_datum. cbv zeta.
  pose proof (Z.div_mod mag (2 ^ mw) ltac:(lia)) as Hd. pose proof (Z.mod_pos_bound mag (2 ^ mw) ltac:(lia)) as Hr.
  destruct (Z.eqb_spec (mag / 2 ^ mw) (2 ^ ew - 1)) as [E|E]; [|nia]. destruct (Z.eqb_spec (mag mod 2 ^ mw) 0); [nia|done].
Qed.

Lemma magnitude_cases mag : 0 <= mag <= infinite -> mag = 0 \/ 0 < mag < infinite \/ mag = infinite.
Proof. lia. Qed.

Lemma finite_compare s m e m' e' k k' P : 0 < P -> 0 <= k -> 0 <= k' -> e - e' = k - k' ->
  Zpos m < 2 * P -> Zpos m' < 2 * P -> (P <= Zpos m \/ k = 0) -> (P <= Zpos m' \/ k' = 0) ->
  SFcompare (S754_finite s m e) (S754_finite s m' e') =
  Some (if s then k' * P + Zpos m' ?= k * P + Zpos m else k * P + Zpos m ?= k' * P + Zpos m').
Proof.
  intros HP Hk Hk' He Hm Hm' Hn Hn'. unfold SFcompare.
  destruct (Z.compare_spec e e') as [E|E|E].
  - assert (k = k') by lia. subst k'. rewrite !Z.add_compare_mono_l. destruct s; [|done].
    f_equal. cbn. by rewrite (Pos.compare_antisym m m').
  - destruct s; f_equal; symmetry; [apply Z.compare_gt_iff|apply Z.compare_lt_iff]; nia.
  - destruct s; f_equal; symmetry; [apply Z.compare_lt_iff|apply Z.compare_gt_iff]; nia.
Qed.

(** A magnitude with its sign: both zeroes are zero. *)
Definition signed (s : bool) (mag : Z) : Z := if s then - mag else mag.

Lemma magnitude_datum_compare s s' x y : 0 <= x <= infinite -> 0 <= y <= infinite ->
  SFcompare (magnitude_datum s x) (magnitude_datum s' y) = Some (signed s x ?= signed s' y).
Proof.
  intros Hx Hy. pose proof pow_mw as [Hp _]. pose proof pow_ew. assert (Hinf : 0 < infinite) by nia.
  assert (Hlt : forall u v, u < v -> Some Datatypes.Lt = Some (u ?= v)) by (intros; f_equal; symmetry; by apply Z.compare_lt_iff).
  assert (Hgt : forall u v, v < u -> Some Datatypes.Gt = Some (u ?= v)) by (intros; f_equal; symmetry; by apply Z.compare_gt_iff).
  destruct (magnitude_cases x Hx) as [->|[Fx| ->]], (magnitude_cases y Hy) as [->|[Fy| ->]];
    rewrite ?zero_magnitude, ?infinite_magnitude;
    try (destruct (finite_magnitude s x Fx) as (m & e & -> & Hk & Ex & Hm & Hn); cbv zeta in *);
    try (destruct (finite_magnitude s' y Fy) as (m' & e' & -> & Hk' & Ey & Hm' & Hn'); cbv zeta in *);
    try (destruct s, s'; cbn [SFcompare signed]; first [apply Hlt; lia | apply Hgt; lia | f_equal; symmetry; apply Z.compare_eq_iff; lia]).
  destruct s, s'; [|cbn; apply Hlt; lia|cbn; apply Hgt; lia|];
    rewrite (finite_compare _ m e m' e' _ _ (2 ^ mw) ltac:(lia) Hk Hk' ltac:(lia) Hm Hm' Hn Hn'), <- Ex, <- Ey; f_equal; unfold signed.
  by rewrite Z.compare_opp.
Qed.

(** ** Bits as sign and magnitude. *)
Lemma bits_cases x : in_u width x -> exists s mag, 0 <= mag < sign /\ x = (if s : bool then sign + mag else mag) /\
  datum x = magnitude_datum s mag /\ wraps width x = (if s then mag - sign else mag).
Proof.
  intros [H0 H1]. rewrite top_split in H1. assert (Hs : 0 < sign) by (apply Z.pow_pos_nonneg; lia).
  assert (Hw : forall v, wraps width v = (v + sign) mod (2 * sign) - sign).
  { intros v. unfold wraps. rewrite top_split. by replace (width - 1) with (mw + ew) by lia. }
  rewrite Hw. unfold datum. destruct (Z.leb_spec sign x).
  - exists true, (x - sign). split; [lia|]. split; [lia|]. split; [done|].
    replace (x + sign) with (x - sign + 1 * (2 * sign)) by lia. rewrite Z.mod_add, Z.mod_small by lia. lia.
  - exists false, x. split; [lia|]. split; [lia|]. split; [done|]. rewrite Z.mod_small by lia. lia.
Qed.

Lemma sortable_bits_spec s mag : 0 <= mag < sign -> sortable_bits (if s : bool then mag - sign else mag) = (if s then - 1 - mag else mag).
Proof.
  intros H. unfold sortable_bits. replace (width - 1) with (mw + ew) by lia. destruct s.
  - assert (Hs : Z.shiftr (mag - sign) (mw + ew) = -1).
    { rewrite Z.shiftr_div_pow2 by lia. symmetry. apply (Z.div_unique _ _ _ mag); lia. }
    rewrite Hs, Z.land_m1_l. replace (mag - sign) with (Z.lnot (sign - 1 - mag)) by (unfold Z.lnot; lia).
    rewrite <- Z.lnot_lxor_l. assert (Hx : Z.lxor (sign - 1 - mag) (Z.ones (mw + ew)) = mag).
    { replace (sign - 1 - mag) with (Z.ones (mw + ew) - mag) by (rewrite Z.ones_equiv; lia).
      assert (Hb : forall i, mw + ew <= i -> Z.testbit mag i = false) by (intros; apply (testbit_above (mw + ew)); [split; lia|done]).
      rewrite Z.sub_nocarry_ldiff; apply Z.bits_inj'; intros i Hi; rewrite ?Z.lxor_spec, Z.ldiff_spec, ?Z.bits_0;
        destruct (Z.ltb_spec i (mw + ew)); rewrite ?(Z.ones_spec_low _ i), ?(Z.ones_spec_high _ i), ?Hb by lia; by destruct (Z.testbit mag i). }
    rewrite Hx. unfold Z.lnot. lia.
  - rewrite (proj2 (Z.shiftr_eq_0_iff mag (mw + ew))); [by rewrite Z.land_0_l, Z.lxor_0_r|].
    destruct (Z.eq_dec mag 0); [by left|]. right. split; [lia|]. apply Z.log2_lt_pow2; lia.
Qed.
(** ** Comparing is comparing sortable integers. *)
Lemma infinite_lt : 0 < infinite /\ infinite < quiet_nan /\ quiet_nan < sign.
Proof. unfold quiet_nan. rewrite sign_split. pose proof pow_mw as [H1 H2]. pose proof pow_ew. nia. Qed.

Lemma nan_iff s mag : 0 <= mag < sign -> magnitude_datum s mag = S754_nan <-> infinite < mag.
Proof.
  intros H. destruct (Z.le_gt_cases mag infinite) as [Hle|Hgt]; [|split; [done|intros; apply nan_magnitude; lia]].
  split; [|lia]. intros E. exfalso. pose proof infinite_lt. 
  destruct (magnitude_cases mag ltac:(lia)) as [->|[F| ->]].
  - by rewrite zero_magnitude in E.
  - destruct (finite_magnitude s mag F) as (m & e & E1 & _). by rewrite E1 in E.
  - by rewrite infinite_magnitude in E.
Qed.

Lemma canonical_nan s mag : 0 <= mag < sign -> infinite < mag -> forall x, datum x = magnitude_datum s mag -> canonical_bits x = quiet_nan.
Proof. intros H Hn x E. unfold canonical_bits, bits_nan. rewrite E. by rewrite (proj2 (nan_iff s mag H) Hn). Qed.

Lemma canonical_number s mag x : 0 <= mag <= infinite -> datum x = magnitude_datum s mag ->
  canonical_bits x = wraps width x.
Proof.
  intros H E. pose proof infinite_lt. unfold canonical_bits, bits_nan. destruct (datum x) eqn:En; try done.
  symmetry in E. rewrite nan_iff in E by lia. lia.
Qed.

Lemma sortable_quiet : sortable_bits quiet_nan = quiet_nan.
Proof. pose proof infinite_lt. apply (sortable_bits_spec false). lia. Qed.

(** [Float.compare] of any two bit patterns, NaNs included, is the order of
    their sortable integers. *)
Lemma java_compare_sortable a b : in_u width a -> in_u width b -> java_compare a b = (to_sortable a ?= to_sortable b).
Proof.
  intros Ha Hb. pose proof infinite_lt as (Hi & Hq & Hs). unfold java_compare, to_sortable.
  destruct (bits_cases a Ha) as (s & x & Hx & _ & Ea & Wa), (bits_cases b Hb) as (s' & y & Hy & _ & Eb & Wb).
  unfold bits_lt, SFltb. rewrite Ea, Eb.
  destruct (Z.le_gt_cases x infinite) as [Fx|Nx], (Z.le_gt_cases y infinite) as [Fy|Ny].
  - rewrite (canonical_number s x a), (canonical_number s' y b), Wa, Wb, !sortable_bits_spec by (done || lia).
    rewrite !magnitude_datum_compare by lia. unfold signed.
    destruct s, s';
      repeat match goal with |- context [?u ?= ?v] => destruct (Z.compare_spec u v); try lia end; done.
  - rewrite (proj2 (nan_iff s' y Hy) Ny), (canonical_nan s' y Hy Ny b Eb), (canonical_number s x a), Wa, sortable_quiet, sortable_bits_spec by (done || lia).
    replace (SFcompare (magnitude_datum s x) S754_nan) with (@None comparison) by by destruct (magnitude_datum s x).
    cbn [SFcompare]. destruct s; by rewrite !(proj2 (Z.compare_lt_iff _ _)) by lia.
  - rewrite (proj2 (nan_iff s x Hx) Nx), (canonical_nan s x Hx Nx a Ea), (canonical_number s' y b), Wb, sortable_quiet, sortable_bits_spec by (done || lia).
    replace (SFcompare (magnitude_datum s' y) S754_nan) with (@None comparison) by by destruct (magnitude_datum s' y).
    cbn [SFcompare]. destruct s'; by rewrite !(proj2 (Z.compare_gt_iff _ _)) by lia.
  - rewrite (proj2 (nan_iff s x Hx) Nx), (proj2 (nan_iff s' y Hy) Ny), (canonical_nan s x Hx Nx a Ea), (canonical_nan s' y Hy Ny b Eb).
    cbn [SFcompare]. by rewrite !Z.compare_refl.
Qed.

(** ** There and back: every NaN becomes the quiet one. *)
Lemma in_s_width b : in_s width b <-> - sign <= b < sign.
Proof. unfold in_s. by replace (width - 1) with (mw + ew) by lia. Qed.

Lemma sortable_sign b : in_s width b -> sortable_bits b = if b <? 0 then -1 - (b + sign) else b.
Proof.
  rewrite in_s_width. intros H. destruct (Z.ltb_spec b 0) as [Hb|Hb].
  - rewrite <- (sortable_bits_spec true (b + sign)) by lia. f_equal. lia.
  - apply (sortable_bits_spec false). lia.
Qed.

Lemma sortable_in_s b : in_s width b -> in_s width (sortable_bits b).
Proof. intros H. rewrite sortable_sign by done. rewrite in_s_width in *. destruct (Z.ltb_spec b 0); lia. Qed.

Lemma sortable_bits_involutive b : in_s width b -> sortable_bits (sortable_bits b) = b.
Proof.
  intros H. rewrite (sortable_sign (sortable_bits b)) by by apply sortable_in_s. rewrite (sortable_sign b) by done.
  rewrite in_s_width in H. destruct (Z.ltb_spec b 0); [destruct (Z.ltb_spec (-1 - (b + sign)) 0)|destruct (Z.ltb_spec b 0)]; lia.
Qed.

Lemma canonical_in_s x : in_u width x -> in_s width (canonical_bits x).
Proof.
  intros Hx. unfold canonical_bits. destruct (bits_nan x); [|apply wraps_range; lia].
  rewrite in_s_width. pose proof infinite_lt. lia.
Qed.

Lemma canonical_again x : in_u width x -> canonical_bits (wrapu width (canonical_bits x)) = canonical_bits x.
Proof.
  intros Hx. pose proof infinite_lt as (Hi & Hq & Hs). unfold canonical_bits at 2 3. destruct (bits_nan x) eqn:En.
  - assert (Hw : wrapu width quiet_nan = quiet_nan) by (apply Z.mod_small; rewrite top_split; lia). rewrite Hw.
    apply (canonical_nan false quiet_nan); [lia|lia|]. unfold datum. destruct (Z.leb_spec sign quiet_nan); [lia|done].
  - rewrite wrapu_wraps, (wrapu_id width) by (done || lia). unfold canonical_bits. by rewrite En.
Qed.

Lemma to_sortable_in_s x : in_u width x -> in_s width (to_sortable x).
Proof. intros Hx. by apply sortable_in_s, canonical_in_s. Qed.

(** Decoding a sortable integer gives the float back, NaNs made quiet. *)
Lemma from_to_sortable x : in_u width x -> wrapu width (sortable_bits (to_sortable x)) = wrapu width (canonical_bits x).
Proof. intros Hx. unfold to_sortable. by rewrite sortable_bits_involutive by by apply canonical_in_s. Qed.

Lemma to_sortable_again x : in_u width x -> to_sortable (wrapu width (sortable_bits (to_sortable x))) = to_sortable x.
Proof. intros Hx. rewrite from_to_sortable by done. unfold to_sortable. by rewrite canonical_again. Qed.
End ieee.
