(* ===== verification/IndexSort.v ===== *)
(** * Index sorts ([lucene-index/src/segment_info.rs], [index_sorter.rs])

    A segment may be physically sorted by a list of sort fields.  The file has
    what describes one (its provider, missing value, selector), the comparator
    a field resolves to, and the reduction of byte-keyed sorts to ranks.  Every
    consumer (flush, merge, check) compares documents through it.  Proved: the
    comparator is the order of one integer per document, missing values and
    [reverse] included, so it is a total preorder; a column of sortable
    encodings sorts like the raw floats; ranks compare as the terms. *)
From stdpp Require Import strings sorting.
From S2P Require Import Prelude SegmentNames FloatBits.

(** [f32] and [f64] values are kept as their bits. *)
Inductive NumericSortKey : Type :=
| KeyInt (missing : option Z)
| KeyLong (missing : option Z)
| KeyFloat (missing : option Z)
| KeyDouble (missing : option Z).

Inductive StringMissingValue : Type := MissingNone | MissingFirst | MissingLast.
Inductive SortedNumericSelector : Type := NumericMin | NumericMax.
Inductive SortedSetSelector : Type := SetMin | SetMax | SetMiddleMin | SetMiddleMax.

Inductive IndexSortKind : Type :=
| NumericSort (key : NumericSortKey)
| StringSort (missing : StringMissingValue)
| SortedNumericSort (key : NumericSortKey) (selector : SortedNumericSelector)
| SortedSetSort (selector : SortedSetSelector) (missing : StringMissingValue)
| BinarySort (missing : StringMissingValue).

Inductive SortKeyKind : Type := KindInt | KindLong | KindFloat | KindDouble | KindSortableFloat | KindSortableDouble | KindOrdinal.

Record IndexSortField : Type := mk_sort_field { field : list byte; sort_reverse : bool; kind : IndexSortKind }.

#[export] Instance NumericSortKey_eq_dec : EqDecision NumericSortKey.
Proof. solve_decision. Defined.
#[export] Instance StringMissingValue_eq_dec : EqDecision StringMissingValue.
Proof. solve_decision. Defined.
#[export] Instance SortedNumericSelector_eq_dec : EqDecision SortedNumericSelector.
Proof. solve_decision. Defined.
#[export] Instance SortedSetSelector_eq_dec : EqDecision SortedSetSelector.
Proof. solve_decision. Defined.
#[export] Instance IndexSortKind_eq_dec : EqDecision IndexSortKind.
Proof. solve_decision. Defined.
#[export] Instance IndexSortField_eq_dec : EqDecision IndexSortField.
Proof. solve_decision. Defined.

(** [IndexSortField::long]. *)
Definition long (field : list byte) (reverse : bool) (missing : option Z) : IndexSortField :=
  mk_sort_field field reverse (NumericSort (KeyLong missing)).

(** ** Floats and their sortable integers. *)
Definition java_float_compare : Z -> Z -> comparison := java_compare 23 8.
Definition java_double_compare : Z -> Z -> comparison := java_compare 52 11.
Definition canonical_float_bits : Z -> Z := canonical_bits 23 8.
Definition canonical_double_bits : Z -> Z := canonical_bits 52 11.
Definition sortable_float_bits (bits : Z) : Z := Z.lxor bits (Z.land (Z.shiftr bits 31) 0x7fffffff).
Definition sortable_double_bits (bits : Z) : Z := Z.lxor bits (Z.land (Z.shiftr bits 63) 0x7fffffffffffffff).
Definition float_to_sortable_int (v : Z) : Z :=
  sortable_float_bits (if bits_nan 23 8 v then wraps 32 0x7fc00000 else wraps 32 v).
Definition double_to_sortable_long (v : Z) : Z :=
  sortable_double_bits (if bits_nan 52 11 v then wraps 64 0x7ff8000000000000 else wraps 64 v).
Definition sortable_int_to_float (encoded : Z) : Z := wrapu 32 (sortable_float_bits encoded).
Definition sortable_long_to_double (encoded : Z) : Z := wrapu 64 (sortable_double_bits encoded).

(** ** The comparator of a sort field. *)
Definition missing_ord (m : StringMissingValue) : Z :=
  match m with MissingLast => 2 ^ 31 - 1 | MissingNone | MissingFirst => - 2 ^ 31 end.

(** [0.0] is the bits [0]. *)
Definition numeric_key_comparison (key : NumericSortKey) : SortKeyKind * Z :=
  match key with
  | KeyInt m => (KindInt, default 0 m)
  | KeyLong m => (KindLong, default 0 m)
  | KeyFloat m => (KindFloat, wraps 32 (default 0 m))
  | KeyDouble m => (KindDouble, wraps 64 (default 0 m))
  end.
Definition key_comparison (s : IndexSortField) : SortKeyKind * Z :=
  match kind s with
  | NumericSort key => numeric_key_comparison key
  | SortedNumericSort key _ =>
      match key with
      | KeyFloat m => (KindSortableFloat, float_to_sortable_int (default 0 m))
      | KeyDouble m => (KindSortableDouble, double_to_sortable_long (default 0 m))
      | key => numeric_key_comparison key
      end
  | StringSort missing | SortedSetSort _ missing | BinarySort missing => (KindOrdinal, missing_ord missing)
  end.

Record SortKeyComparator : Type := mk_comparator { key_kind : SortKeyKind; sentinel : Z; reverse : bool }.
Definition new_comparator (s : IndexSortField) : SortKeyComparator :=
  let '(k, sentinel) := key_comparison s in mk_comparator k sentinel (sort_reverse s).

Definition compare (c : SortKeyComparator) (a b : option Z) : comparison :=
  let a := default (sentinel c) a in
  let b := default (sentinel c) b in
  let ord := match key_kind c with
             | KindInt | KindOrdinal => wraps 32 a ?= wraps 32 b
             | KindLong => a ?= b
             | KindFloat => java_float_compare (wrapu 32 (wraps 32 a)) (wrapu 32 (wraps 32 b))
             | KindDouble => java_double_compare (wrapu 64 a) (wrapu 64 b)
             | KindSortableFloat => java_float_compare (sortable_int_to_float (wraps 32 a)) (sortable_int_to_float (wraps 32 b))
             | KindSortableDouble => java_double_compare (sortable_long_to_double a) (sortable_long_to_double b)
             end in
  if reverse c then CompOpp ord else ord.

(** ** Byte-keyed sorts. *)
Definition select_sorted_set {A} (values : list A) (selector : SortedSetSelector) : option A :=
  match zlen values with
  | 0 => None
  | n => let last := n - 1 in
         zget values match selector with
                     | SetMin => 0
                     | SetMax => last
                     | SetMiddleMin => last / 2
                     | SetMiddleMax => n / 2
                     end
  end.

(** [<[u8] as Ord>::cmp]. *)
Fixpoint bytes_cmp (a b : list byte) : comparison :=
  match a, b with
  | [], [] => Datatypes.Eq
  | [], _ :: _ => Datatypes.Lt
  | _ :: _, [] => Datatypes.Gt
  | x :: a, y :: b => match x ?= y with Datatypes.Eq => bytes_cmp a b | c => c end
  end.
Definition bytes_le (a b : list byte) : Prop := bytes_cmp a b <> Datatypes.Gt.
#[export] Instance bytes_le_dec : RelDecision bytes_le.
Proof. intros a b. unfold bytes_le. apply _. Defined.

(** [Vec::dedup]: equal neighbours merged. *)
Fixpoint dedup (l : list (list byte)) : list (list byte) :=
  match l with
  | [] => []
  | x :: l => match dedup l with
              | y :: t => if bool_decide (x = y) then y :: t else x :: y :: t
              | [] => [x]
              end
  end.
(** [binary_search(..).unwrap_or_else(|at| at)] of a sorted slice without
    duplicates: the first position whose element is not below. *)
Fixpoint search_position (l : list (list byte)) (v : list byte) : Z :=
  match l with
  | [] => 0
  | x :: l => match bytes_cmp x v with Datatypes.Lt => 1 + search_position l v | _ => 0 end
  end.

Definition distinct_terms (per_source : list (list (option (list byte)))) : list (list byte) :=
  dedup (merge_sort bytes_le (omap id (concat per_source))).
Definition rank_terms (per_source : list (list (option (list byte)))) : list (list (option Z)) :=
  let distinct := distinct_terms per_source in
  map (map (fun v => search_position distinct <$> v)) per_source.

(** ** The order a comparator is. *)
(** The integer a value is compared by, for any value of the column. *)
Definition key_of (k : SortKeyKind) (v : Z) : Z :=
  match k with
  | KindInt | KindOrdinal => wraps 32 v
  | KindLong => v
  | KindFloat => float_to_sortable_int (wrapu 32 v)
  | KindDouble => double_to_sortable_long (wrapu 64 v)
  | KindSortableFloat => float_to_sortable_int (sortable_int_to_float (wraps 32 v))
  | KindSortableDouble => double_to_sortable_long (sortable_long_to_double v)
  end.
Definition sort_rank (c : SortKeyComparator) (v : option Z) : Z :=
  let k := key_of (key_kind c) (default (sentinel c) v) in if reverse c then - k else k.

Lemma sortable_int_eq v : float_to_sortable_int v = to_sortable 23 8 v.
Proof. reflexivity. Qed.
Lemma sortable_long_eq v : double_to_sortable_long v = to_sortable 52 11 v.
Proof. reflexivity. Qed.

Lemma float_compare_keys a b : in_u 32 a -> in_u 32 b ->
  java_float_compare a b = (float_to_sortable_int a ?= float_to_sortable_int b).
Proof. intros Ha Hb. apply (java_compare_sortable 23 8); by try lia. Qed.
Lemma double_compare_keys a b : in_u 64 a -> in_u 64 b ->
  java_double_compare a b = (double_to_sortable_long a ?= double_to_sortable_long b).
Proof. intros Ha Hb. apply (java_compare_sortable 52 11); by try lia. Qed.

Lemma kind_compare k a b :
  match k with
  | KindInt | KindOrdinal => wraps 32 a ?= wraps 32 b
  | KindLong => a ?= b
  | KindFloat => java_float_compare (wrapu 32 (wraps 32 a)) (wrapu 32 (wraps 32 b))
  | KindDouble => java_double_compare (wrapu 64 a) (wrapu 64 b)
  | KindSortableFloat => java_float_compare (sortable_int_to_float (wraps 32 a)) (sortable_int_to_float (wraps 32 b))
  | KindSortableDouble => java_double_compare (sortable_long_to_double a) (sortable_long_to_double b)
  end = (key_of k a ?= key_of k b).
Proof.
  destruct k; cbn [key_of]; try done.
  - rewrite !wrapu_wraps by lia. apply float_compare_keys; apply wrapu_range; lia.
  - apply double_compare_keys; apply wrapu_range; lia.
  - apply float_compare_keys; apply wrapu_range; lia.
  - apply double_compare_keys; apply wrapu_range; lia.
Qed.

Lemma compare_ranks c a b : compare c a b = (sort_rank c a ?= sort_rank c b).
Proof.
  unfold compare, sort_rank. rewrite kind_compare. destruct (reverse c); [|done].
  rewrite Z.compare_opp, Z.compare_antisym. by rewrite CompOpp_involutive.
Qed.

(** A sortable column holds the sortable integer of each float. *)
Lemma sortable_float_key v : in_u 32 v -> key_of KindSortableFloat (float_to_sortable_int v) = key_of KindFloat (wraps 32 v).
Proof.
  intros Hv. cbn [key_of]. rewrite wrapu_wraps, (wrapu_id 32) by (done || lia). rewrite sortable_int_eq.
  rewrite (wraps_id 32) by (done || (apply (to_sortable_in_s 23 8); by try lia)).
  apply (to_sortable_again 23 8); by try lia.
Qed.
Lemma sortable_double_key v : in_u 64 v -> key_of KindSortableDouble (double_to_sortable_long v) = key_of KindDouble (wraps 64 v).
Proof.
  intros Hv. cbn [key_of]. rewrite wrapu_wraps, (wrapu_id 64) by (done || lia). apply (to_sortable_again 52 11); by try lia.
Qed.

(** ** Terms and their ranks. *)
Lemma bytes_cmp_refl a : bytes_cmp a a = Datatypes.Eq.
Proof. induction a as [|x a IH]; cbn; [done|]. by rewrite Z.compare_refl. Qed.

Lemma bytes_cmp_eq a b : bytes_cmp a b = Datatypes.Eq -> a = b.
Proof.
  revert b. induction a as [|x a IH]; intros [|y b]; cbn; try done. destruct (Z.compare_spec x y) as [->| |]; try done.
  intros H. f_equal. by apply IH.
Qed.

Lemma bytes_cmp_antisym a b : bytes_cmp b a = CompOpp (bytes_cmp a b).
Proof.
  revert b. induction a as [|x a IH]; intros [|y b]; cbn; try done. rewrite (Z.compare_antisym x y).
  destruct (x ?= y); cbn; [apply IH|done|done].
Qed.

Lemma bytes_cmp_trans a b c : bytes_cmp a b = Datatypes.Lt -> bytes_cmp b c = Datatypes.Lt -> bytes_cmp a c = Datatypes.Lt.
Proof.
  revert b c. induction a as [|x a IH]; intros [|y b] [|z c]; cbn; try done.
  destruct (Z.compare_spec x y), (Z.compare_spec y z), (Z.compare_spec x z); try done; try lia. eauto.
Qed.

#[export] Instance bytes_le_total : Total bytes_le.
Proof. intros a b. unfold bytes_le. rewrite (bytes_cmp_antisym a b). destruct (bytes_cmp a b); cbn; [by left|by left|by right]. Qed.
#[export] Instance bytes_le_trans : Transitive bytes_le.
Proof.
  intros a b c. unfold bytes_le. intros H1 H2. destruct (bytes_cmp a b) eqn:E1; [apply bytes_cmp_eq in E1; by subst| |done].
  destruct (bytes_cmp b c) eqn:E2; [apply bytes_cmp_eq in E2; subst; by rewrite E1| |done]. by rewrite (bytes_cmp_trans a b c).
Qed.

Lemma dedup_elem l v : v ∈ dedup l <-> v ∈ l.
Proof.
  induction l as [|x l IH]; cbn [dedup]; [done|]. destruct (dedup l) as [|y t].
  - set_solver.
  - case_bool_decide as E; [subst y|]; set_solver.
Qed.

(** On a sorted list positions grow with the terms in it. *)
Lemma search_position_range l v : 0 <= search_position l v <= zlen l.
Proof.
  induction l as [|x l IH]; [done|]. cbn [search_position]. rewrite zlen_cons. destruct (bytes_cmp x v); lia.
Qed.

Lemma search_position_below l v : v ∈ l -> StronglySorted bytes_le l -> search_position l v < zlen l.
Proof.
  induction l as [|x l IH]; intros Hin Hs; [by apply not_elem_of_nil in Hin|]. cbn [search_position]. rewrite zlen_cons.
  pose proof (zlen_nonneg l). inversion Hs; subst. apply elem_of_cons in Hin as [->|Hin]; [rewrite bytes_cmp_refl; lia|].
  destruct (bytes_cmp x v); [lia| |lia]. specialize (IH Hin ltac:(done)). lia.
Qed.

Lemma search_position_lt l v w : StronglySorted bytes_le l -> v ∈ l -> bytes_cmp v w = Datatypes.Lt ->
  search_position l v < search_position l w.
Proof.
  induction l as [|x l IH]; intros Hs Hin Hlt; [by apply not_elem_of_nil in Hin|]. cbn [search_position].
  pose proof (search_position_range l w). inversion Hs as [|? ? Hs' Hall]; subst.
  destruct (bytes_cmp x v) eqn:Exv.
  - apply bytes_cmp_eq in Exv. subst x. rewrite Hlt. lia.
  - rewrite (bytes_cmp_trans x v w) by done. apply elem_of_cons in Hin as [->|Hin]; [by rewrite bytes_cmp_refl in Exv|].
    specialize (IH Hs' Hin Hlt). lia.
  - exfalso. apply elem_of_cons in Hin as [->|Hin]; [by rewrite bytes_cmp_refl in Exv|].
    rewrite list.Forall_forall in Hall. by apply (Hall v Hin).
Qed.

Lemma search_position_compare l v w : StronglySorted bytes_le l -> v ∈ l -> w ∈ l ->
  (search_position l v ?= search_position l w) = bytes_cmp v w.
Proof.
  intros Hs Hv Hw. destruct (bytes_cmp v w) eqn:E.
  - apply bytes_cmp_eq in E as ->. apply Z.compare_refl.
  - apply Z.compare_lt_iff. by apply search_position_lt.
  - apply Z.compare_gt_iff. apply search_position_lt; [done..|]. by rewrite bytes_cmp_antisym, E.
Qed.

Lemma dedup_sorted l : StronglySorted bytes_le l -> StronglySorted bytes_le (dedup l).
Proof.
  induction l as [|x l IH]; intros Hs; [constructor|]. inversion Hs as [|? ? Hs' Hall]; subst. specialize (IH Hs'). cbn [dedup].
  assert (Hx : Forall (bytes_le x) (dedup l)).
  { apply list.Forall_forall. intros y Hy%(proj1 (dedup_elem _ _)). by apply (proj1 (list.Forall_forall _ _) Hall). }
  destruct (dedup l) as [|y t]; [by repeat constructor|]. case_bool_decide; [done|]. by constructor.
Qed.

Lemma distinct_terms_sorted per_source : StronglySorted bytes_le (distinct_terms per_source).
Proof. apply dedup_sorted, StronglySorted_merge_sort; [apply _|]. intros a b. apply bytes_le_total. Qed.

Lemma distinct_terms_elem per_source v : v ∈ distinct_terms per_source <-> exists source, source ∈ per_source /\ Some v ∈ source.
Proof.
  unfold distinct_terms. rewrite dedup_elem, merge_sort_Permutation, list_elem_of_omap.
  split; [intros (o & (s & H1 & H2)%list_elem_of_In%in_concat & Ho); exists s|intros (s & H1 & H2); exists (Some v)].
  - cbn in Ho. subst o. by rewrite !list_elem_of_In.
  - split; [|done]. apply list_elem_of_In, in_concat. exists s. by rewrite <- !list_elem_of_In.
Qed.

(** The value of document [doc] of source [source]. *)
Definition doc_value {A} (per_source : list (list A)) (source doc : nat) : option A := per_source !! source ≫= fun l => l !! doc.

Lemma rank_of per_source i j v : doc_value per_source i j = Some v ->
  doc_value (rank_terms per_source) i j = Some (search_position (distinct_terms per_source) <$> v) /\
  (forall t, v = Some t -> t ∈ distinct_terms per_source).
Proof.
  unfold doc_value, rank_terms. intros H. apply bind_Some in H as (l & H1 & H2). split.
  - rewrite list_lookup_fmap, H1. cbn. by rewrite list_lookup_fmap, H2.
  - intros t ->. apply distinct_terms_elem. exists l. split; by eapply list_elem_of_lookup_2.
Qed.

(** How a byte-keyed sort orders terms, before [reverse]. *)
Definition term_compare (m : StringMissingValue) (a b : option (list byte)) : comparison :=
  match a, b with
  | Some x, Some y => bytes_cmp x y
  | None, None => Datatypes.Eq
  | None, Some _ => if decide (m = MissingLast) then Datatypes.Gt else Datatypes.Lt
  | Some _, None => if decide (m = MissingLast) then Datatypes.Lt else Datatypes.Gt
  end.
Definition term_missing (k : IndexSortKind) : option StringMissingValue :=
  match k with StringSort m | SortedSetSort _ m | BinarySort m => Some m | _ => None end.

Lemma position_in_s D t : t ∈ D -> StronglySorted bytes_le D -> zlen D < 2 ^ 31 ->
  wraps 32 (search_position D t) = search_position D t /\ 0 <= search_position D t < 2 ^ 31 - 1.
Proof.
  intros Hin Hs Hl. pose proof (search_position_below D t Hin Hs). pose proof (search_position_range D t).
  split; [|lia]. apply wraps_id; [lia|]. unfold in_s. change (32 - 1) with 31. lia.
Qed.

(** C32: ranking the terms of any number of segments together preserves every
    comparison: for each byte-keyed sort the comparator over the ranks orders
    two documents, of the same or of different segments, as their terms'
    bytes, a missing value first or last as the sort says, and reversed when
    the sort is. *)
Theorem ranks_compare_as_terms (per_source : list (list (option (list byte)))) (s : IndexSortField) (m : StringMissingValue)
    (i j i' j' : nat) (v v' : option (list byte)) :
  term_missing (kind s) = Some m -> zlen (distinct_terms per_source) < 2 ^ 31 ->
  doc_value per_source i j = Some v -> doc_value per_source i' j' = Some v' ->
  exists r r', doc_value (rank_terms per_source) i j = Some r /\ doc_value (rank_terms per_source) i' j' = Some r' /\
    compare (new_comparator s) r r' = (if sort_reverse s then CompOpp (term_compare m v v') else term_compare m v v').
Proof.
  intros Hm Hl Hv Hv'. apply rank_of in Hv as [Hr Ht], Hv' as [Hr' Ht']. eexists _, _. split; [exact Hr|]. split; [exact Hr'|].
  pose proof (distinct_terms_sorted per_source) as Hs. set (D := distinct_terms per_source) in *.
  assert (Hc : new_comparator s = mk_comparator KindOrdinal (missing_ord m) (sort_reverse s)).
  { unfold new_comparator, key_comparison. destruct (kind s); cbn in Hm |- *; congruence. }
  rewrite Hc. unfold compare. cbn [key_kind sentinel reverse].
  assert (Hmin : wraps 32 (missing_ord m) = missing_ord m) by by destruct m. 
  assert (Hlow : forall r, 0 <= r < 2 ^ 31 - 1 -> (missing_ord m ?= r) = if decide (m = MissingLast) then Datatypes.Gt else Datatypes.Lt).
  { intros r H. destruct m; cbn [missing_ord]; case_decide; try done; [apply Z.compare_lt_iff|apply Z.compare_lt_iff|apply Z.compare_gt_iff]; lia. }
  enough (E : (wraps 32 (default (missing_ord m) (search_position D <$> v)) ?= wraps 32 (default (missing_ord m) (search_position D <$> v')))
    = term_compare m v v') by by rewrite E.
  destruct v as [t|], v' as [t'|]; cbn [fmap option_fmap option_map default term_compare]; unfold id.
  - destruct (position_in_s D t (Ht t eq_refl) Hs Hl) as [-> _], (position_in_s D t' (Ht' t' eq_refl) Hs Hl) as [-> _].
    apply search_position_compare; auto.
  - destruct (position_in_s D t (Ht t eq_refl) Hs Hl) as [-> Hb]. rewrite Hmin, Z.compare_antisym, (Hlow _ Hb). by destruct (decide _).
  - destruct (position_in_s D t' (Ht' t' eq_refl) Hs Hl) as [-> Hb]. by rewrite Hmin, (Hlow _ Hb).
  - by rewrite Z.compare_refl.
Qed.

Definition two_segments : list (list (option (list byte))) :=
  [[Some (bytes "pear"); None; Some (bytes "fig")]; [Some (bytes "pear"); Some (bytes "apple")]].

Lemma ranks_compare_as_terms_witness :
  rank_terms two_segments = [[Some 2; None; Some 1]; [Some 2; Some 0]] /\
  exists r r', doc_value (rank_terms two_segments) 0 1 = Some r /\ doc_value (rank_terms two_segments) 1 1 = Some r' /\
    compare (new_comparator (mk_sort_field (bytes "f") true (BinarySort MissingLast))) r r' = Datatypes.Lt.
Proof.
  split; [by vm_compute|].
  exact (ranks_compare_as_terms two_segments (mk_sort_field (bytes "f") true (BinarySort MissingLast)) MissingLast 0 1 1 1
    None (Some (bytes "apple")) eq_refl ltac:(by vm_compute) eq_refl eq_refl).
Defined.

(** A sort field's comparator is the order of one integer per document
    ([sort_rank]: the key as the field's type compares it, a missing value's
    being its sentinel's, negated when the sort is reversed): for every field
    type, NaN and signed zero included, it is a total preorder. *)
Lemma comparator_is_an_order (c : SortKeyComparator) :
  (forall a b, compare c a b = (sort_rank c a ?= sort_rank c b)) /\
  sort_rank c None = sort_rank c (Some (sentinel c)) /\
  (forall a, compare c a a = Datatypes.Eq) /\ (forall a b, compare c b a = CompOpp (compare c a b)) /\
  (forall a b d, compare c a b <> Datatypes.Gt -> compare c b d <> Datatypes.Gt -> compare c a d <> Datatypes.Gt).
Proof.
  split; [apply compare_ranks|]. split; [done|].
  split; [intros; rewrite compare_ranks; apply Z.compare_refl|].
  split; [intros; rewrite !compare_ranks; apply Z.compare_antisym|].
  intros a b d. rewrite !compare_ranks, !Z.compare_le_iff. lia.
Qed.

(** A multi-valued float column, which holds sortable integers, sorts as the
    single-valued one, which holds raw bits. *)
Lemma multi_valued_floats_sort_alike f rev sel (m a b : option Z) :
  (forall x, m = Some x \/ a = Some x \/ b = Some x -> in_u 32 x) ->
  compare (new_comparator (mk_sort_field f rev (SortedNumericSort (KeyFloat m) sel))) (float_to_sortable_int <$> a) (float_to_sortable_int <$> b) =
  compare (new_comparator (mk_sort_field f rev (NumericSort (KeyFloat m)))) (wraps 32 <$> a) (wraps 32 <$> b).
Proof.
  intros H. rewrite !compare_ranks.
  assert (E : forall o, (forall x, o = Some x -> in_u 32 x) ->
    sort_rank (new_comparator (mk_sort_field f rev (SortedNumericSort (KeyFloat m) sel))) (float_to_sortable_int <$> o) =
    sort_rank (new_comparator (mk_sort_field f rev (NumericSort (KeyFloat m)))) (wraps 32 <$> o)).
  { intros o Ho. unfold sort_rank. cbn [new_comparator key_comparison kind numeric_key_comparison key_kind sentinel reverse sort_reverse].
    assert (Hd : forall p : option Z, (forall x, p = Some x -> in_u 32 x) ->
      key_of KindSortableFloat (default (float_to_sortable_int (default 0 m)) (float_to_sortable_int <$> p)) =
      key_of KindFloat (default (wraps 32 (default 0 m)) (wraps 32 <$> p))).
    { intros [x|] Hp; cbn [fmap option_fmap option_map default]; unfold id; apply sortable_float_key; [by apply Hp|].
      destruct m as [x|]; [apply H; by left|done]. }
    by rewrite Hd. }
  rewrite !E; [done|intros x ->; apply H; auto|intros x ->; apply H; auto].
Qed.
