(* ===== verification/Codecs.v ===== *)
(** * Codec dispatch ([lucene-codecs/src/codecs.rs])

    A segment's codec is known by the name [segments_N] records: the table of
    built-in codecs, the ones that only rename a delegate, and the registry a
    process adds to ([register]).  Proved: [for_name] after any registrations
    answers the last one of a name, and a built-in name for ever the built-in
    codec. *)
From stdpp Require Import strings.
From S2P Require Import Prelude SegmentNames.

Inductive SegmentInfoFormat : Type := Lucene90 | Lucene99.
Inductive FieldInfosFormat : Type := Fields90 | Fields94.

Record CodecFormats : Type := mk_codec {
  codec : list byte;
  segment_info : SegmentInfoFormat;
  field_infos : FieldInfosFormat;
  default_postings : list byte;
  default_knn_vectors : list byte;
  extra_files : list (list byte);
}.
#[export] Instance SegmentInfoFormat_eq_dec : EqDecision SegmentInfoFormat.
Proof. solve_decision. Defined.
#[export] Instance FieldInfosFormat_eq_dec : EqDecision FieldInfosFormat.
Proof. solve_decision. Defined.
#[export] Instance CodecFormats_eq_dec : EqDecision CodecFormats.
Proof. solve_decision. Defined.

Definition CODECS : list CodecFormats :=
  [ mk_codec (bytes "Lucene90") Lucene90 Fields90 (bytes "Lucene90") (bytes "Lucene90HnswVectorsFormat") [];
    mk_codec (bytes "Lucene91") Lucene90 Fields90 (bytes "Lucene90") (bytes "Lucene91HnswVectorsFormat") [];
    mk_codec (bytes "Lucene92") Lucene90 Fields90 (bytes "Lucene90") (bytes "lucene92HnswVectorsFormat") [];
    mk_codec (bytes "Lucene94") Lucene90 Fields94 (bytes "Lucene90") (bytes "Lucene94HnswVectorsFormat") [];
    mk_codec (bytes "Lucene95") Lucene90 Fields94 (bytes "Lucene90") (bytes "Lucene95HnswVectorsFormat") [];
    mk_codec (bytes "Lucene99") Lucene99 Fields94 (bytes "Lucene99") (bytes "Lucene99HnswVectorsFormat") [];
    mk_codec (bytes "Lucene912") Lucene99 Fields94 (bytes "Lucene912") (bytes "Lucene99HnswVectorsFormat") [];
    mk_codec (bytes "Lucene100") Lucene99 Fields94 (bytes "Lucene912") (bytes "Lucene99HnswVectorsFormat") [];
    mk_codec (bytes "Lucene101") Lucene99 Fields94 (bytes "Lucene101") (bytes "Lucene99HnswVectorsFormat") [];
    mk_codec (bytes "Lucene103") Lucene99 Fields94 (bytes "Lucene103") (bytes "Lucene99HnswVectorsFormat") [];
    mk_codec (bytes "Lucene104") Lucene99 Fields94 (bytes "Lucene104") (bytes "Lucene99HnswVectorsFormat") [] ].

Definition ZSTD_CODEC : list byte := bytes "ZSTD104".
Definition ZSTD_NO_DICT_CODEC : list byte := bytes "ZSTDNODICT104".
Definition ZSTD_PAGED_CODEC : list byte := bytes "LuceneRustZstdPaged104".

Definition OPENSEARCH_ZSTD_CODECS : list (list byte * list byte) :=
  map (fun e => (bytes e.1, bytes e.2))
    [ ("Lucene95CustomCodec", "Lucene95"); ("ZSTD", "Lucene95"); ("ZSTDNODICT", "Lucene95"); ("ZSTD99", "Lucene99");
      ("ZSTDNODICT99", "Lucene99"); ("ZSTD912", "Lucene912"); ("ZSTDNODICT912", "Lucene912"); ("ZSTD101", "Lucene101");
      ("ZSTDNODICT101", "Lucene101"); ("ZSTD103", "Lucene103"); ("ZSTDNODICT103", "Lucene103") ]%string
  ++ [(ZSTD_CODEC, bytes "Lucene104"); (ZSTD_NO_DICT_CODEC, bytes "Lucene104")].
Definition OPENSEARCH_KNN_CODECS : list (list byte * list byte) :=
  map (fun e => (bytes e.1, bytes e.2))
    [ ("KNN910Codec", "Lucene91"); ("KNN920Codec", "Lucene92"); ("KNN940Codec", "Lucene94"); ("KNN950Codec", "Lucene95");
      ("KNN990Codec", "Lucene99"); ("KNN9120Codec", "Lucene912"); ("KNN10010Codec", "Lucene101"); ("KNN1030Codec", "Lucene103");
      ("KNN1040Codec", "Lucene104") ]%string.
Definition RUST_CODECS : list (list byte * list byte) := [(ZSTD_PAGED_CODEC, bytes "Lucene104")].

Definition renamed (f : CodecFormats) (n : list byte) : CodecFormats :=
  mk_codec n (segment_info f) (field_infos f) (default_postings f) (default_knn_vectors f) (extra_files f).

(** [iter().find(|c| c.name == name)]. *)
Fixpoint find_codec (n : list byte) (l : list CodecFormats) : option CodecFormats :=
  match l with
  | [] => None
  | c :: l => if bool_decide (codec c = n) then Some c else find_codec n l
  end.

Definition OPENSEARCH : list CodecFormats :=
  omap (fun e => (fun c => renamed c e.1) <$> find_codec e.2 CODECS) (OPENSEARCH_ZSTD_CODECS ++ OPENSEARCH_KNN_CODECS ++ RUST_CODECS).
Definition built_in : list CodecFormats := CODECS ++ OPENSEARCH.

(** [register], a step on the registry. *)
Definition register (formats : CodecFormats) (registered : list CodecFormats) : list CodecFormats :=
  if bool_decide (codec formats ∈ map codec built_in) then registered
  else if bool_decide (formats ∈ registered) then registered
  else List.filter (fun c => bool_decide (codec c <> codec formats)) registered ++ [formats].

Definition for_name (registered : list CodecFormats) (n : list byte) : option CodecFormats :=
  match find_codec n built_in with
  | Some c => Some c
  | None => find_codec n registered
  end.

(** ** The registry names each codec once. *)
Definition one_per_name (l : list CodecFormats) : Prop := forall c d, c ∈ l -> d ∈ l -> codec c = codec d -> c = d.

Lemma find_codec_Some n l c : find_codec n l = Some c -> c ∈ l /\ codec c = n.
Proof.
  induction l as [|d l IH]; cbn [find_codec]; [done|]. case_bool_decide.
  - intros [= <-]. split; [left|done].
  - intros [H1 H2]%IH. split; [by right|done].
Qed.

Lemma find_codec_elem l c : one_per_name l -> c ∈ l -> find_codec (codec c) l = Some c.
Proof.
  intros Hl Hc. induction l as [|d l IH]; [by apply not_elem_of_nil in Hc|]. cbn [find_codec]. case_bool_decide as E.
  - f_equal. apply Hl; [left|done|done].
  - apply elem_of_cons in Hc as [->|Hc]; [done|]. apply IH; [|done]. intros x y Hx Hy. apply Hl; by right.
Qed.

Lemma find_codec_None n l : find_codec n l = None <-> n ∉ map codec l.
Proof.
  induction l as [|d l IH]; cbn [find_codec map]; [split; [intros _; apply not_elem_of_nil|done]|].
  case_bool_decide as E; rewrite not_elem_of_cons; [split; [done|]; intros [H _]; congruence|].
  rewrite IH. split; [intros; split; [congruence|done]|tauto].
Qed.

Lemma register_one_per_name f l : one_per_name l -> one_per_name (register f l).
Proof.
  intros Hl. unfold register. do 2 (case_bool_decide; [done|]). intros c d Hc Hd E.
  rewrite !elem_of_app, !list_elem_of_In, !filter_In, !bool_decide_eq_true, <- !list_elem_of_In in Hc, Hd.
  destruct Hc as [[Hc Hnc]|Hc], Hd as [[Hd Hnd]|Hd]; [by apply Hl|..];
    rewrite ?list_elem_of_In in Hc, Hd; cbn in Hc, Hd; destruct_or?; subst; done || congruence.
Qed.

Lemma find_codec_app n l k : find_codec n (l ++ k) = match find_codec n l with Some c => Some c | None => find_codec n k end.
Proof. induction l as [|d l IH]; cbn [app find_codec]; [done|]. by case_bool_decide. Qed.

Lemma find_codec_without n m l :
  find_codec n (List.filter (fun c => bool_decide (codec c <> m)) l) = if bool_decide (n = m) then None else find_codec n l.
Proof.
  induction l as [|d l IH]; cbn [List.filter find_codec]; [by case_bool_decide|].
  destruct (decide (codec d = m)) as [Hd|Hd];
    [rewrite (bool_decide_eq_false_2 (codec d <> m)) by tauto|rewrite (bool_decide_eq_true_2 (codec d <> m)) by done];
    cbn [find_codec]; rewrite IH; repeat case_bool_decide; try done; congruence.
Qed.

(** What a registration changes. *)
Lemma for_name_register f l n : one_per_name l ->
  for_name (register f l) n =
  if bool_decide (n = codec f /\ codec f ∉ map codec built_in) then Some f else for_name l n.
Proof.
  intros Hl. unfold register, for_name. case_bool_decide as Hb.
  - rewrite bool_decide_eq_false_2 by (intros [_ H]; done). done.
  - case_bool_decide as Hf.
    + case_bool_decide as Hn; [|done]. destruct Hn as [-> _]. rewrite (proj2 (find_codec_None _ _) Hb). by apply find_codec_elem.
    + destruct (find_codec n built_in) as [c|] eqn:Ec.
      * rewrite bool_decide_eq_false_2; [done|]. intros [-> H]. apply find_codec_None in H. congruence.
      * rewrite find_codec_app, find_codec_without. case_bool_decide as Hn.
        -- subst n. cbn [find_codec]. rewrite bool_decide_eq_true_2 by done. by rewrite bool_decide_eq_true_2.
        -- rewrite (bool_decide_eq_false_2 (n = codec f /\ _)) by tauto. destruct (find_codec n l); [done|].
           cbn [find_codec]. rewrite bool_decide_eq_false_2; [done|congruence].
Qed.

(** The last registration of a name, if any. *)
Fixpoint last_registered (n : list byte) (fs : list CodecFormats) : option CodecFormats :=
  match fs with
  | [] => None
  | f :: fs => match last_registered n fs with
               | Some g => Some g
               | None => if bool_decide (codec f = n) then Some f else None
               end
  end.

(** Whatever a process registers, in whatever order, [for_name] answers a
    built-in name with the built-in codec, and any other with the last
    registration under it. *)
Lemma for_name_after_registrations (fs : list CodecFormats) (n : list byte) :
  for_name (fold_left (fun l f => register f l) fs []) n =
  match find_codec n built_in with Some c => Some c | None => last_registered n fs end.
Proof.
  assert (H : forall fs l, one_per_name l -> for_name (fold_left (fun l f => register f l) fs l) n =
    match find_codec n built_in with Some c => Some c | None => match last_registered n fs with Some g => Some g | None => find_codec n l end end).
  { clear fs. induction fs as [|f fs IH]; intros l Hl; cbn [fold_left last_registered]; [done|].
    rewrite IH by by apply register_one_per_name. pose proof (for_name_register f l n Hl) as E. unfold for_name in E.
    destruct (find_codec n built_in) as [c|] eqn:Ec; [done|]. destruct (last_registered n fs); [done|]. rewrite E.
    repeat case_bool_decide; try done; destruct_and?; subst; try done.
    exfalso. match goal with H : ~ (_ /\ _) |- _ => apply H end. split; [done|]. by apply find_codec_None. }
  rewrite H; [destruct (last_registered n fs); done|]. intros c d Hc. by apply not_elem_of_nil in Hc.
Qed.

(** Every delegate of the renamed codecs is in the table. *)
Lemma opensearch_complete : length OPENSEARCH = length (OPENSEARCH_ZSTD_CODECS ++ OPENSEARCH_KNN_CODECS ++ RUST_CODECS).
Proof. by vm_compute. Qed.
