(* ===== verification/SegmentInfo.v ===== *)
(** * Segment descriptors ([lucene-index/src/segment_info.rs])

    A segment's [.si] holds its version, document count, diagnostics, files,
    attributes and index sort.  The file has the format both ways: [write],
    and [parse_with_format] for both generations the codecs read, told apart
    by the segment's codec ([parse_for_codec], [codecs.rs]).  Proved: what
    [write] writes is read back; and whatever [parse] accepts is within the
    format's bounds, so it can be written again. *)
From stdpp Require Import strings.
From S2P Require Import Prelude StoreError ZigZag DataOutput DataInput SliceInput Wire CodecUtil SegmentNames SegmentFile.
From S2P Require Import SegmentInfos FloatBits IndexSort Codecs.

Module SegmentInfo.

Definition CODEC_NAME : list byte := bytes "Lucene90SegmentInfo".
Definition VERSION_START : Z := 0.
Definition VERSION_CURRENT : Z := 0.

Inductive Error : Type :=
| Store (e : StoreError.Error)
| InvalidDocCount (n : Z)
| IllegalHasMinVersion (b : Z)
| InvalidSortFieldCount (n : Z)
| UnknownSortFieldProvider (provider : list byte)
| UnknownSortFieldType (type : list byte)
| UnknownSortSelector (provider : list byte) (selector : Z)
| UnsupportedSortField (field : list byte) (type : list byte)
| IllegalVersion (which : string) (value : Z)
| UnknownCodec (codec_name : list byte).

Notation LuceneVersion := SegmentInfos.LuceneVersion.

Record t : Type := mk {
  id : list byte;
  version : LuceneVersion;
  min_version : option LuceneVersion;
  doc_count : Z;
  is_compound_file : bool;
  has_blocks : bool;
  diagnostics : list (list byte * list byte);
  files : list name;
  attributes : list (list byte * list byte);
  index_sort : option (list IndexSortField);
}.

(** ** The index sort, provider by provider. *)
Definition PROVIDER_SORT_FIELD : list byte := bytes "SortField".
Definition PROVIDER_SORTED_NUMERIC : list byte := bytes "SortedNumericSortField".
Definition PROVIDER_SORTED_SET : list byte := bytes "SortedSetSortField".
Definition PROVIDER_BINARY : list byte := bytes "BinarySortField".

Definition TYPE_INT : list byte := bytes "INT".
Definition TYPE_LONG : list byte := bytes "LONG".
Definition TYPE_FLOAT : list byte := bytes "FLOAT".
Definition TYPE_DOUBLE : list byte := bytes "DOUBLE".
Definition TYPE_STRING : list byte := bytes "STRING".
Definition TYPES_NOT_SORTABLE_ON_DISK : list (list byte) :=
  map bytes ["SCORE"; "DOC"; "CUSTOM"; "STRING_VAL"; "REWRITEABLE"]%string.

Definition type_name (key : NumericSortKey) : list byte :=
  match key with
  | KeyInt _ => TYPE_INT
  | KeyLong _ => TYPE_LONG
  | KeyFloat _ => TYPE_FLOAT
  | KeyDouble _ => TYPE_DOUBLE
  end.

Notation P := (M Error SliceInput.t).
Notation store := (from_store Store).
Notation read_i32 := (store (read_i32 (R := SliceInput.t))).
Notation read_i64 := (store (read_i64 (R := SliceInput.t))).
Notation read_string := (store (read_string (R := SliceInput.t))).

Definition read_reverse : P bool := let* v := read_i32 in ret (v =? 1).

Definition known_type (name : list byte) : bool :=
  bool_decide (name ∈ [TYPE_INT; TYPE_LONG; TYPE_FLOAT; TYPE_DOUBLE; TYPE_STRING] ++ TYPES_NOT_SORTABLE_ON_DISK).
Definition read_type : P (list byte) :=
  let* name := read_string in
  if known_type name then ret name else fail (UnknownSortFieldType name).

Definition read_missing (m : P Z) (has_missing : bool) : P (option Z) :=
  if has_missing then let* v := m in ret (Some v) else ret None.

Definition read_numeric_key (field type_name : list byte) : P NumericSortKey :=
  let* v := read_i32 in
  let has_missing := v =? 1 in
  if bool_decide (type_name = TYPE_INT) then
    let* m := read_missing read_i32 has_missing in ret (KeyInt m)
  else if bool_decide (type_name = TYPE_LONG) then
    let* m := read_missing read_i64 has_missing in ret (KeyLong m)
  else if bool_decide (type_name = TYPE_FLOAT) then
    let* m := read_missing (let* e := read_i32 in ret (sortable_int_to_float e)) has_missing in ret (KeyFloat m)
  else if bool_decide (type_name = TYPE_DOUBLE) then
    let* m := read_missing (let* e := read_i64 in ret (sortable_long_to_double e)) has_missing in ret (KeyDouble m)
  else fail (UnsupportedSortField field type_name).

Definition read_plain_sort_field : P IndexSortField :=
  let* field := read_string in
  let* type_name := read_type in
  let* reverse := read_reverse in
  let* kind :=
    if bool_decide (type_name = TYPE_STRING) then
      let* has_missing := read_i32 in
      if has_missing =? 1 then
        let* first := read_i32 in
        ret (StringSort (if first =? 1 then MissingFirst else MissingLast))
      else ret (StringSort MissingNone)
    else let* key := read_numeric_key field type_name in ret (NumericSort key) in
  ret (mk_sort_field field reverse kind).

Definition read_sorted_numeric_selector : P SortedNumericSelector :=
  let* v := read_i32 in
  if v =? 0 then ret NumericMin else if v =? 1 then ret NumericMax
  else fail (UnknownSortSelector PROVIDER_SORTED_NUMERIC v).
Definition read_sorted_set_selector : P SortedSetSelector :=
  let* v := read_i32 in
  if v =? 0 then ret SetMin else if v =? 1 then ret SetMax
  else if v =? 2 then ret SetMiddleMin else if v =? 3 then ret SetMiddleMax
  else fail (UnknownSortSelector PROVIDER_SORTED_SET v).
Definition read_string_missing_marker : P StringMissingValue :=
  let* v := read_i32 in
  ret (if v =? 1 then MissingFirst else if v =? 2 then MissingLast else MissingNone).

Definition read_sorted_numeric_sort_field : P IndexSortField :=
  let* field := read_string in
  let* type_name := read_type in
  let* reverse := read_reverse in
  let* selector := read_sorted_numeric_selector in
  let* key := read_numeric_key field type_name in
  ret (mk_sort_field field reverse (SortedNumericSort key selector)).
Definition read_sorted_set_sort_field : P IndexSortField :=
  let* field := read_string in
  let* reverse := read_reverse in
  let* selector := read_sorted_set_selector in
  let* missing := read_string_missing_marker in
  ret (mk_sort_field field reverse (SortedSetSort selector missing)).
Definition read_binary_sort_field : P IndexSortField :=
  let* field := read_string in
  let* reverse := read_reverse in
  let* missing := read_string_missing_marker in
  ret (mk_sort_field field reverse (BinarySort missing)).

Definition read_sort_field_provider (provider : list byte) : P IndexSortField :=
  if bool_decide (provider = PROVIDER_SORT_FIELD) then read_plain_sort_field
  else if bool_decide (provider = PROVIDER_SORTED_NUMERIC) then read_sorted_numeric_sort_field
  else if bool_decide (provider = PROVIDER_SORTED_SET) then read_sorted_set_sort_field
  else if bool_decide (provider = PROVIDER_BINARY) then read_binary_sort_field
  else fail (UnknownSortFieldProvider provider).
Definition read_sort_field : P IndexSortField :=
  let* provider := read_string in read_sort_field_provider provider.

Definition read_index_sort : P (option (list IndexSortField)) :=
  let* n := store read_vint in
  if n <? 0 then fail (InvalidSortFieldCount n) else
  let* input := get_state in
  if SliceInput.slice_remaining input <? n then fail (InvalidSortFieldCount n) else
  if n =? 0 then ret None else
  let* fields := repeatM (Z.to_nat n) read_sort_field in
  ret (Some fields).
Definition parse_index_sort (buf : list byte) : result Error (option (list IndexSortField)) :=
  (read_index_sort (SliceInput.new buf)).1.

Definition write_numeric_missing (key : NumericSortKey) (out : list byte) : list byte :=
  match key with
  | KeyInt (Some v) => write_i32 v (write_i32 1 out)
  | KeyLong (Some v) => write_i64 v (write_i32 1 out)
  | KeyFloat (Some v) => write_i32 (float_to_sortable_int v) (write_i32 1 out)
  | KeyDouble (Some v) => write_i64 (double_to_sortable_long v) (write_i32 1 out)
  | KeyInt None | KeyLong None | KeyFloat None | KeyDouble None => write_i32 0 out
  end.
Definition write_string_missing_marker (m : StringMissingValue) (out : list byte) : list byte :=
  write_i32 match m with MissingFirst => 1 | MissingLast => 2 | MissingNone => 0 end out.

Definition sort_field_provider (sf : IndexSortField) : list byte :=
  match kind sf with
  | NumericSort _ | StringSort _ => PROVIDER_SORT_FIELD
  | SortedNumericSort _ _ => PROVIDER_SORTED_NUMERIC
  | SortedSetSort _ _ => PROVIDER_SORTED_SET
  | BinarySort _ => PROVIDER_BINARY
  end.
Definition write_sort_field_value (sf : IndexSortField) (out : list byte) : list byte :=
  let reverse := if sort_reverse sf then 1 else 0 in
  match kind sf with
  | NumericSort key =>
      write_numeric_missing key (write_i32 reverse (write_string (type_name key) (write_string (field sf) out)))
  | StringSort missing =>
      let out := write_i32 reverse (write_string TYPE_STRING (write_string (field sf) out)) in
      match missing with
      | MissingNone => write_i32 0 out
      | MissingFirst => write_i32 1 (write_i32 1 out)
      | MissingLast => write_i32 0 (write_i32 1 out)
      end
  | SortedNumericSort key selector =>
      let out := write_i32 reverse (write_string (type_name key) (write_string (field sf) out)) in
      write_numeric_missing key (write_i32 match selector with NumericMin => 0 | NumericMax => 1 end out)
  | SortedSetSort selector missing =>
      let out := write_i32 reverse (write_string (field sf) out) in
      write_string_missing_marker missing
        (write_i32 match selector with SetMin => 0 | SetMax => 1 | SetMiddleMin => 2 | SetMiddleMax => 3 end out)
  | BinarySort missing => write_string_missing_marker missing (write_i32 reverse (write_string (field sf) out))
  end.
Definition write_sort_field (out : list byte) (sf : IndexSortField) : list byte :=
  write_sort_field_value sf (write_string (sort_field_provider sf) out).

(** ** The descriptor. *)
Definition check_version_component (which : string) (value : Z) : result Error Z :=
  if SegmentInfos.version_component_ok value then Ok value else Err (IllegalVersion which value).
Definition read_component (which : string) : P Z := let* v := read_i32 in from_result (check_version_component which v).
Definition read_version : P LuceneVersion :=
  let* major := read_component "major" in
  let* minor := read_component "minor" in
  let* bugfix := read_component "bugfix" in
  ret (SegmentInfos.mk_version major minor bugfix).
Definition write_version (v : LuceneVersion) (out : list byte) : list byte :=
  write_i32 (SegmentInfos.bugfix v) (write_i32 (SegmentInfos.minor v) (write_i32 (SegmentInfos.major v) out)).

Definition yes_no (flag : bool) : byte := if flag then 1 else 0xff.

Definition read_min_version : P (option LuceneVersion) :=
  let* has_min_version := store read_byte in
  if has_min_version =? 0 then ret None
  else if has_min_version =? 1 then let* v := read_version in ret (Some v)
  else fail (IllegalHasMinVersion has_min_version).

(** Everything between the header and the footer. *)
Definition read_descriptor (segment_id : list byte) (format : SegmentInfoFormat) : P t :=
  let* version := read_version in
  let* min_version := read_min_version in
  let* doc_count := read_i32 in
  if doc_count <? 0 then fail (InvalidDocCount doc_count) else
  let* compound := store read_byte in
  let* has_blocks := match format with
                     | Lucene90 => ret false
                     | Lucene99 => let* b := store read_byte in ret (b =? 1)
                     end in
  let* diagnostics := store read_map_of_strings in
  let* files := store read_set_of_strings in
  let* attributes := store read_map_of_strings in
  let* index_sort := read_index_sort in
  ret (mk segment_id version min_version doc_count (compound =? 1) has_blocks diagnostics files attributes index_sort).

Section format.
Context (crc : list byte -> Z).

Definition parse_with_format (buf segment_id : list byte) (format : SegmentInfoFormat) : result Error t :=
  ((let* si := (let* _ := store (check_index_header CODEC_NAME VERSION_START VERSION_CURRENT segment_id []) in
                read_descriptor segment_id format) in
    let* _ := store (check_footer crc (zlen buf)) in
    ret si) (SliceInput.new buf)).1.
Definition parse (buf segment_id : list byte) : result Error t := parse_with_format buf segment_id Lucene99.

Definition parse_for_codec (registered : list CodecFormats) (buf segment_id codec_name : list byte) : result Error t :=
  match for_name registered codec_name with
  | None => Err (UnknownCodec codec_name)
  | Some codec => parse_with_format buf segment_id (segment_info codec)
  end.

(** [None]: the header writer panicked. *)
Definition write (si : t) (segment_suffix : list byte) : option (list byte) :=
  match write_index_header CODEC_NAME VERSION_CURRENT (id si) segment_suffix [] with
  | None => None
  | Some out =>
      let out := write_version (version si) out in
      let out := match min_version si with
                 | Some mv => write_version mv (write_byte 1 out)
                 | None => write_byte 0 out
                 end in
      let out := write_i32 (doc_count si) out in
      let out := write_byte (yes_no (is_compound_file si)) out in
      let out := write_byte (yes_no (has_blocks si)) out in
      let out := write_map_of_strings (diagnostics si) out in
      let out := write_set_of_strings (files si) out in
      let out := write_map_of_strings (attributes si) out in
      let out := match index_sort si with
                 | Some fields => fold_left write_sort_field fields (write_vint (wraps 32 (zlen fields)) out)
                 | None => write_vint 0 out
                 end in
      Some (write_footer crc out)
  end.
End format.

(** ** What is written, as bytes. *)
Definition i32_bytes (v : Z) : list byte := to_le 4 v.
Definition i64_bytes (v : Z) : list byte := to_le 8 v.
Definition missing_bytes (key : NumericSortKey) : list byte :=
  match key with
  | KeyInt (Some v) => i32_bytes 1 ++ i32_bytes v
  | KeyLong (Some v) => i32_bytes 1 ++ i64_bytes v
  | KeyFloat (Some v) => i32_bytes 1 ++ i32_bytes (float_to_sortable_int v)
  | KeyDouble (Some v) => i32_bytes 1 ++ i64_bytes (double_to_sortable_long v)
  | _ => i32_bytes 0
  end.
Definition marker (m : StringMissingValue) : Z := match m with MissingFirst => 1 | MissingLast => 2 | MissingNone => 0 end.
Definition string_missing_bytes (m : StringMissingValue) : list byte :=
  match m with
  | MissingNone => i32_bytes 0
  | MissingFirst => i32_bytes 1 ++ i32_bytes 1
  | MissingLast => i32_bytes 1 ++ i32_bytes 0
  end.
Definition numeric_selector (s : SortedNumericSelector) : Z := match s with NumericMin => 0 | NumericMax => 1 end.
Definition set_selector (s : SortedSetSelector) : Z := match s with SetMin => 0 | SetMax => 1 | SetMiddleMin => 2 | SetMiddleMax => 3 end.
Definition reverse_bytes (r : bool) : list byte := i32_bytes (if r then 1 else 0).

Definition sort_value_bytes (sf : IndexSortField) : list byte :=
  string_bytes (field sf) ++
  match kind sf with
  | NumericSort key => string_bytes (type_name key) ++ reverse_bytes (sort_reverse sf) ++ missing_bytes key
  | StringSort m => string_bytes TYPE_STRING ++ reverse_bytes (sort_reverse sf) ++ string_missing_bytes m
  | SortedNumericSort key selector =>
      string_bytes (type_name key) ++ reverse_bytes (sort_reverse sf) ++ i32_bytes (numeric_selector selector) ++ missing_bytes key
  | SortedSetSort selector m => reverse_bytes (sort_reverse sf) ++ i32_bytes (set_selector selector) ++ i32_bytes (marker m)
  | BinarySort m => reverse_bytes (sort_reverse sf) ++ i32_bytes (marker m)
  end.
Definition sort_field_bytes (sf : IndexSortField) : list byte := string_bytes (sort_field_provider sf) ++ sort_value_bytes sf.
Definition version_bytes (v : LuceneVersion) : list byte :=
  i32_bytes (SegmentInfos.major v) ++ i32_bytes (SegmentInfos.minor v) ++ i32_bytes (SegmentInfos.bugfix v).
Definition pairs_bytes (l : list (list byte * list byte)) : list byte := count_bytes (zlen l) ++ concat (map pair_bytes l).
Definition index_sort_bytes (s : option (list IndexSortField)) : list byte :=
  match s with
  | Some fields => count_bytes (zlen fields) ++ concat (map sort_field_bytes fields)
  | None => count_bytes 0
  end.
Definition descriptor_bytes (si : t) : list byte :=
  version_bytes (version si) ++
  match min_version si with Some v => [1] ++ version_bytes v | None => [0] end ++
  i32_bytes (doc_count si) ++ [yes_no (is_compound_file si)] ++ [yes_no (has_blocks si)] ++
  pairs_bytes (diagnostics si) ++ strings_bytes (files si) ++ pairs_bytes (attributes si) ++ index_sort_bytes (index_sort si).

Lemma write_i32_bytes v (out : list byte) : write_i32 v out = out ++ i32_bytes v.
Proof. reflexivity. Qed.
Lemma write_i64_bytes v (out : list byte) : write_i64 v out = out ++ i64_bytes v.
Proof. reflexivity. Qed.
Lemma write_vint_bytes v (out : list byte) : write_vint v out = out ++ encode_varint (wrapu 32 v).
Proof. apply write_varint_bytes. Qed.
#[local] Hint Rewrite write_i32_bytes write_i64_bytes write_string_bytes write_set_bytes write_pairs_bytes write_vint_bytes : wire.

Lemma write_missing_bytes key out : write_numeric_missing key out = out ++ missing_bytes key.
Proof. destruct key as [[]|[]|[]|[]]; unfold write_numeric_missing, missing_bytes; autorewrite with wire; by rewrite <- ?app_assoc. Qed.

Lemma write_sort_bytes out sf : write_sort_field out sf = out ++ sort_field_bytes sf.
Proof.
  unfold write_sort_field, write_sort_field_value, sort_field_bytes, sort_value_bytes, write_string_missing_marker, reverse_bytes.
  destruct sf as [f r [key|m|key s|s m|m]]; cbn [kind field sort_reverse]; rewrite ?write_missing_bytes; autorewrite with wire;
    try destruct m; cbn [string_missing_bytes marker]; autorewrite with wire; by rewrite <- !app_assoc.
Qed.

Lemma write_lucene_version_bytes v out : write_version v out = out ++ version_bytes v.
Proof. unfold write_version, version_bytes. autorewrite with wire. by rewrite <- !app_assoc. Qed.

(** ** Reading it back: a NaN among the missing values becomes the quiet one. *)
Definition canonical_key (key : NumericSortKey) : NumericSortKey :=
  match key with
  | KeyFloat m => KeyFloat ((fun v => wrapu 32 (canonical_float_bits v)) <$> m)
  | KeyDouble m => KeyDouble ((fun v => wrapu 64 (canonical_double_bits v)) <$> m)
  | key => key
  end.
Definition canonical_sort (sf : IndexSortField) : IndexSortField :=
  mk_sort_field (field sf) (sort_reverse sf)
    match kind sf with
    | NumericSort key => NumericSort (canonical_key key)
    | SortedNumericSort key s => SortedNumericSort (canonical_key key) s
    | k => k
    end.
Definition reread (si : t) : t :=
  mk (id si) (version si) (min_version si) (doc_count si) (is_compound_file si) (has_blocks si) (diagnostics si) (files si)
    (attributes si) (fmap (M := option) (map canonical_sort) (index_sort si)).

Definition key_ok (key : NumericSortKey) : Prop :=
  match key with
  | KeyInt (Some v) => in_s 32 v
  | KeyLong (Some v) => in_s 64 v
  | KeyFloat (Some v) => in_u 32 v
  | KeyDouble (Some v) => in_u 64 v
  | _ => True
  end.
Definition sort_ok (sf : IndexSortField) : Prop :=
  string_ok (field sf) /\ match kind sf with NumericSort key | SortedNumericSort key _ => key_ok key | _ => True end.
(** [numSortFields] is a count, and [Some] is never empty. *)
Definition index_sort_ok (s : option (list IndexSortField)) : Prop :=
  match s with Some l => Forall sort_ok l /\ 0 < zlen l < 2 ^ 31 | None => True end.

(** A descriptor within the format's bounds. *)
Record info_ok (si : t) : Prop := {
  ok_id : zlen (id si) = ID_LENGTH;
  ok_version : SegmentInfos.version_ok (version si);
  ok_min_version : match min_version si with Some v => SegmentInfos.version_ok v | None => True end;
  ok_doc_count : count_ok (doc_count si);
  ok_diagnostics : pairs_ok (diagnostics si);
  ok_files : strings_ok (files si);
  ok_attributes : pairs_ok (attributes si);
  ok_index_sort : index_sort_ok (index_sort si);
}.

Section reading.
Notation S := SliceInput.t.

Lemma reads_le32 v : in_s 32 v -> reads (R := S) read_i32 (i32_bytes v) v.
Proof. intros H. by apply reads_store, reads_i32. Qed.
Lemma reads_le64 v : in_s 64 v -> reads (R := S) read_i64 (i64_bytes v) v.
Proof. intros H. by apply reads_store, reads_i64. Qed.
Lemma reads_str s : string_ok s -> reads (R := S) read_string (string_bytes s) s.
Proof. intros H. by apply reads_store, reads_string. Qed.
Lemma small_in_s v : 0 <= v < 256 -> in_s 32 v.
Proof. unfold in_s. change (2 ^ (32 - 1)) with 2147483648. lia. Qed.
#[local] Hint Resolve reads_le32 reads_le64 reads_str : reading.
#[local] Hint Extern 1 (in_s 32 _) => apply small_in_s; lia : reading.

Lemma reads_reverse r : reads read_reverse (reverse_bytes r) r.
Proof.
  unfold read_reverse, reverse_bytes. eapply reads_bind_last; [apply reads_le32, small_in_s; by destruct r|].
  destruct r; apply reads_ret.
Qed.

Lemma type_name_known key : string_ok (type_name key) /\ known_type (type_name key) = true.
Proof. by destruct key. Qed.

Lemma reads_type s : string_ok s -> known_type s = true -> reads read_type (string_bytes s) s.
Proof. intros Hs Hk. unfold read_type. eapply reads_bind_last; [by apply reads_str|]. rewrite Hk. apply reads_ret. Qed.

Lemma reads_missing (m : P Z) (enc : Z -> list byte) (o : option Z) (f : Z -> Z) :
  (forall v, o = Some v -> reads m (enc v) (f v)) ->
  reads (let* v := read_i32 in read_missing m (v =? 1)) (match o with Some v => i32_bytes 1 ++ enc v | None => i32_bytes 0 end) (f <$> o).
Proof.
  intros Hm. destruct o as [v|].
  - eapply reads_bind; [by apply reads_le32, small_in_s|]. cbn [Z.eqb read_missing]. eapply reads_map; [by apply Hm|done].
  - eapply reads_bind_last; [by apply reads_le32, small_in_s|]. apply reads_ret.
Qed.

Lemma numeric_key_dispatch f key : read_numeric_key f (type_name key) =
  let* v := read_i32 in
  match key with
  | KeyInt _ => let* m := read_missing read_i32 (v =? 1) in ret (KeyInt m)
  | KeyLong _ => let* m := read_missing read_i64 (v =? 1) in ret (KeyLong m)
  | KeyFloat _ => let* m := read_missing (let* e := read_i32 in ret (sortable_int_to_float e)) (v =? 1) in ret (KeyFloat m)
  | KeyDouble _ => let* m := read_missing (let* e := read_i64 in ret (sortable_long_to_double e)) (v =? 1) in ret (KeyDouble m)
  end.
Proof. by destruct key. Qed.

Lemma reads_float v : in_u 32 v ->
  reads (let* e := read_i32 in ret (sortable_int_to_float e)) (i32_bytes (float_to_sortable_int v)) (wrapu 32 (canonical_float_bits v)).
Proof.
  intros Hv. eapply reads_map; [apply reads_le32, (to_sortable_in_s 23 8); by try lia|]. apply (from_to_sortable 23 8); by try lia.
Qed.
Lemma reads_double v : in_u 64 v ->
  reads (let* e := read_i64 in ret (sortable_long_to_double e)) (i64_bytes (double_to_sortable_long v)) (wrapu 64 (canonical_double_bits v)).
Proof.
  intros Hv. eapply reads_map; [apply reads_le64, (to_sortable_in_s 52 11); by try lia|]. apply (from_to_sortable 52 11); by try lia.
Qed.
#[local] Hint Resolve reads_float reads_double reads_reverse : reading.

Lemma reads_numeric_key f key : key_ok key -> reads (read_numeric_key f (type_name key)) (missing_bytes key) (canonical_key key).
Proof.
  intros Hk. rewrite numeric_key_dispatch. destruct key as [[v|]|[v|]|[v|]|[v|]]; cbn [missing_bytes canonical_key fmap option_fmap option_map];
    first [eapply reads_bind; [by apply reads_le32, small_in_s|]; cbn [Z.eqb read_missing];
           eapply reads_map; [eapply reads_map; [solve [auto with reading]|reflexivity]|reflexivity]
          |eapply reads_bind_last; [by apply reads_le32, small_in_s|]; apply reads_ret].
Qed.

Lemma reads_numeric_selector s : reads read_sorted_numeric_selector (i32_bytes (numeric_selector s)) s.
Proof.
  unfold read_sorted_numeric_selector. eapply reads_bind_last; [apply reads_le32, small_in_s; by destruct s|]. destruct s; apply reads_ret.
Qed.
Lemma reads_set_selector s : reads read_sorted_set_selector (i32_bytes (set_selector s)) s.
Proof.
  unfold read_sorted_set_selector. eapply reads_bind_last; [apply reads_le32, small_in_s; by destruct s|]. destruct s; apply reads_ret.
Qed.
Lemma reads_marker m : reads read_string_missing_marker (i32_bytes (marker m)) m.
Proof.
  unfold read_string_missing_marker. eapply reads_bind_last; [apply reads_le32, small_in_s; by destruct m|]. destruct m; apply reads_ret.
Qed.
#[local] Hint Resolve reads_numeric_selector reads_set_selector reads_marker reads_numeric_key : reading.

Lemma reads_plain sf : sort_ok sf ->
  match kind sf with
  | NumericSort key => reads read_plain_sort_field
      (string_bytes (field sf) ++ string_bytes (type_name key) ++ reverse_bytes (sort_reverse sf) ++ missing_bytes key) (canonical_sort sf)
  | StringSort m => reads read_plain_sort_field
      (string_bytes (field sf) ++ string_bytes TYPE_STRING ++ reverse_bytes (sort_reverse sf) ++ string_missing_bytes m) sf
  | _ => True
  end.
Proof.
  intros [Hf Hk]. destruct sf as [f r [key|m| | |]]; cbn [kind field sort_reverse canonical_sort] in *; try done.
  - unfold read_plain_sort_field. eapply reads_bind; [by apply reads_str|].
    destruct (type_name_known key) as [H1 H2]. eapply reads_bind; [by apply reads_type|].
    eapply reads_bind; [apply reads_reverse|]. rewrite bool_decide_false by by destruct key.
    eapply reads_map; [eapply reads_map; [by apply reads_numeric_key|reflexivity]|reflexivity].
  - unfold read_plain_sort_field. eapply reads_bind; [by apply reads_str|].
    eapply reads_bind; [by apply reads_type|]. eapply reads_bind; [apply reads_reverse|].
    rewrite bool_decide_true by done. destruct m; cbn [string_missing_bytes];
      (eapply reads_map; [|reflexivity]); first [eapply reads_bind_last; [by apply reads_le32, small_in_s|]; apply reads_ret
        |eapply reads_bind; [by apply reads_le32, small_in_s|]; cbn [Z.eqb]; eapply reads_map; [by apply reads_le32, small_in_s|reflexivity]].
Qed.

Lemma reads_sort_field sf : sort_ok sf -> reads read_sort_field (sort_field_bytes sf) (canonical_sort sf).
Proof.
  intros Hs. pose proof (reads_plain sf Hs) as Hp. destruct Hs as [Hf Hk]. unfold read_sort_field, sort_field_bytes.
  eapply reads_bind; [apply reads_str; by destruct (kind sf) eqn:E; unfold sort_field_provider; rewrite E|].
  unfold sort_value_bytes, sort_field_provider. destruct sf as [f r [key|m|key s|s m|m]]; cbn [kind field sort_reverse canonical_sort] in *.
  - exact Hp.
  - exact Hp.
  - change (read_sort_field_provider PROVIDER_SORTED_NUMERIC) with read_sorted_numeric_sort_field. unfold read_sorted_numeric_sort_field.
    eapply reads_bind; [by apply reads_str|]. destruct (type_name_known key) as [H1 H2]. eapply reads_bind; [by apply reads_type|].
    eapply reads_bind; [apply reads_reverse|]. eapply reads_bind; [apply reads_numeric_selector|].
    eapply reads_map; [by apply reads_numeric_key|done].
  - change (read_sort_field_provider PROVIDER_SORTED_SET) with read_sorted_set_sort_field. unfold read_sorted_set_sort_field.
    eapply reads_bind; [by apply reads_str|]. eapply reads_bind; [apply reads_reverse|]. eapply reads_bind; [apply reads_set_selector|].
    eapply reads_map; [by apply reads_marker|done].
  - change (read_sort_field_provider PROVIDER_BINARY) with read_binary_sort_field. unfold read_binary_sort_field.
    eapply reads_bind; [by apply reads_str|]. eapply reads_bind; [apply reads_reverse|].
    eapply reads_map; [by apply reads_marker|done].
Qed.

Lemma sort_field_bytes_pos sf : 1 <= zlen (sort_field_bytes sf).
Proof.
  unfold sort_field_bytes. rewrite zlen_app. pose proof (string_bytes_pos (sort_field_provider sf)).
  pose proof (zlen_nonneg (sort_value_bytes sf)). lia.
Qed.

Lemma reads_sort_fields l : Forall sort_ok l ->
  reads (repeatM (length l) read_sort_field) (concat (map sort_field_bytes l)) (map canonical_sort l).
Proof.
  induction 1 as [|sf l Hs _ IH]; cbn [length repeatM map concat]; [apply reads_ret|].
  eapply reads_bind; [by apply reads_sort_field|]. eapply reads_map; [exact IH|done].
Qed.

Lemma reads_index_sort s : index_sort_ok s -> reads read_index_sort (index_sort_bytes s) (map canonical_sort <$> s).
Proof.
  intros Hs. unfold read_index_sort. destruct s as [l|]; cbn [index_sort_bytes].
  - destruct Hs as [Hl Hn]. assert (Hi : in_s 32 (zlen l)) by (unfold in_s; change (32 - 1) with 31; lia).
    unfold count_bytes. rewrite wraps_id by (done || lia). eapply reads_bind; [by apply reads_store, reads_vint|].
    destruct (Z.ltb_spec (zlen l) 0); [lia|]. apply reads_remaining. intros r0 Hr0.
    pose proof (Wire.concat_length sort_field_bytes l sort_field_bytes_pos).
    destruct (Z.ltb_spec (SliceInput.slice_remaining r0) (zlen l)); [lia|]. destruct (Z.eqb_spec (zlen l) 0); [lia|].
    unfold zlen. rewrite Nat2Z.id. eapply reads_map; [by apply reads_sort_fields|done].
  - eapply reads_bind_last; [by apply reads_store, (reads_vint 0), small_in_s|]. cbn [Z.ltb Z.compare].
    apply reads_remaining. intros r0 Hr0. destruct (Z.ltb_spec (SliceInput.slice_remaining r0) 0); [rewrite zlen_nil in Hr0; lia|]. apply reads_ret.
Qed.

Lemma reads_si_component which v : SegmentInfos.version_component_ok v = true -> reads (read_component which) (i32_bytes v) v.
Proof.
  intros Hv. unfold read_component. eapply (reads_result _ (check_version_component which)).
  - apply reads_le32, small_in_s. unfold SegmentInfos.version_component_ok in Hv. lia.
  - unfold check_version_component. by rewrite Hv.
Qed.

Lemma reads_si_version v : SegmentInfos.version_ok v -> reads read_version (version_bytes v) v.
Proof.
  intros [[H1 H2]%andb_true_iff H3]%andb_true_iff. unfold read_version, version_bytes. destruct v as [a b c]. cbn [SegmentInfos.major SegmentInfos.minor SegmentInfos.bugfix] in *.
  eapply reads_bind; [by apply reads_si_component|]. eapply reads_bind; [by apply reads_si_component|].
  eapply reads_map; [by apply reads_si_component|done].
Qed.

Lemma reads_pairs l : pairs_ok l -> reads (R := S) (store read_map_of_strings) (pairs_bytes l) l.
Proof. intros [H1 H2]. by apply reads_store, reads_map_of_strings. Qed.

Lemma reads_flag b : reads (R := S) (store read_byte) [yes_no b] (yes_no b).
Proof. apply reads_store, reads_byte. Qed.

Lemma reads_si_min_version o : match o with Some v => SegmentInfos.version_ok v | None => True end ->
  reads read_min_version match o with Some v => [1] ++ version_bytes v | None => [0] end o.
Proof.
  intros Ho. unfold read_min_version. destruct o as [v|].
  - eapply reads_bind; [apply reads_store, reads_byte|]. cbn [Z.eqb]. eapply reads_map; [by apply reads_si_version|done].
  - eapply reads_bind_last; [apply reads_store, reads_byte|]. apply reads_ret.
Qed.

Lemma reads_descriptor si : info_ok si -> reads (read_descriptor (id si) Lucene99) (descriptor_bytes si) (reread si).
Proof.
  intros H. unfold read_descriptor, descriptor_bytes. eapply reads_bind; [apply reads_si_version, H|].
  eapply reads_bind; [apply reads_si_min_version, H|]. pose proof (ok_doc_count si H) as Hd.
  eapply reads_bind; [by apply reads_le32, count_in_s|]. destruct (Z.ltb_spec (doc_count si) 0); [unfold count_ok in Hd; lia|].
  eapply reads_bind; [apply reads_flag|]. eapply reads_bind; [eapply reads_map; [apply reads_flag|reflexivity]|].
  eapply reads_bind; [apply reads_pairs, H|]. eapply reads_bind; [apply reads_store, reads_strings, H|].
  eapply reads_bind; [apply reads_pairs, H|]. eapply reads_map; [apply reads_index_sort, H|].
  unfold reread. f_equal; [by destruct (is_compound_file si)|by destruct (has_blocks si)].
Qed.
End reading.

(** ** Reading never touches the buffer. *)
Section keeping.
Context (b : list byte).
Notation keeps m := (preserves (fun s => SliceInput.buf s = b) m).

Lemma keeps_missing m h : keeps m -> keeps (read_missing m h).
Proof. intros Hm. unfold read_missing. destruct h; keeps. exact Hm. Qed.
Lemma keeps_numeric_key f ty : keeps (read_numeric_key f ty).
Proof. unfold read_numeric_key. repeat first [apply keeps_missing | progress keeps]. Qed.
Lemma keeps_sort_field : keeps read_sort_field.
Proof.
  unfold read_sort_field, read_sort_field_provider, read_plain_sort_field, read_sorted_numeric_sort_field, read_sorted_set_sort_field,
    read_binary_sort_field, read_type, read_reverse, read_sorted_numeric_selector, read_sorted_set_selector, read_string_missing_marker.
  repeat first [apply keeps_numeric_key | progress keeps].
Qed.
Lemma keeps_si_version : keeps read_version.
Proof. unfold read_version, read_component. keeps. Qed.
Lemma keeps_descriptor i format : keeps (read_descriptor i format).
Proof.
  unfold read_descriptor, read_min_version, read_index_sort.
  repeat first [apply keeps_si_version | apply keeps_sort_field | progress keeps]. destruct format; keeps.
Qed.
End keeping.

(** ** The round trip. *)
Section round_trip.
Context (crc : list byte -> Z).
Hypothesis crc_range : forall l, in_u 32 (crc l).

Definition body_bytes (si : t) (suffix : list byte) : list byte :=
  index_header_bytes CODEC_NAME VERSION_CURRENT (id si) suffix ++ descriptor_bytes si.

Lemma write_info_spec si suffix : zlen (id si) = ID_LENGTH -> zlen suffix < 256 ->
  write crc si suffix = Some (write_footer crc (body_bytes si suffix)).
Proof.
  intros Hid Hs. unfold write. rewrite write_index_header_spec by (done || by vm_compute). f_equal. f_equal.
  unfold body_bytes, descriptor_bytes, index_sort_bytes, pairs_bytes.
  assert (Hw : forall x, write_bytes x ([] : list byte) = x) by done. rewrite Hw.
  assert (Hb : forall x (out : list byte), write_byte x out = out ++ [x]) by done.
  destruct (index_sort si) as [l|], (min_version si) as [v|];
    rewrite ?(write_fold_bytes _ sort_field_bytes) by (intros; apply write_sort_bytes);
    rewrite ?Hb, ?write_lucene_version_bytes; autorewrite with wire;
    rewrite ?Hb, ?write_lucene_version_bytes; by rewrite <- ?app_assoc.
Qed.

Lemma codec_is_string : string_ok CODEC_NAME.
Proof. by vm_compute. Qed.

Lemma parse_written (si : t) : info_ok si ->
  exists file, write crc si [] = Some file /\
    (bytes_ok file -> zlen file < 2 ^ 63 -> parse crc file (id si) = Ok (reread si)).
Proof.
  intros H. exists (write_footer crc (body_bytes si [])). split; [by apply write_info_spec; [apply H|]|].
  intros Hok Hl. unfold parse, parse_with_format.
  destruct (reads_whole_file Store crc crc_range
    (let* _ := store (check_index_header CODEC_NAME VERSION_START VERSION_CURRENT (id si) []) in read_descriptor (id si) Lucene99)
    ret (body_bytes si []) (reread si)) as [s Es]; [| |done|done|by rewrite Es].
  - eapply reads_bind; [|by apply reads_descriptor].
    apply reads_store, (check_index_header_reads CODEC_NAME VERSION_CURRENT codec_is_string); [by vm_compute|apply H|by vm_compute].
  - intros b. apply preserves_bind; [apply keeps_store, keeps_index_header|intros; apply keeps_descriptor].
Qed.

(** C16: a descriptor within the format's bounds is written without panicking
    and read back: every field, and every field of the index sort with its
    provider, selector, direction and missing value (a NaN missing value
    becomes the quiet NaN, as Java writes it). *)
Theorem segment_info_round_trip (si : t) : info_ok si ->
  exists file, write crc si [] = Some file /\
    (bytes_ok file -> zlen file < 2 ^ 63 -> parse crc file (id si) = Ok (reread si)).
Proof. apply parse_written. Qed.
End round_trip.

(** ** What [parse] lets through. *)
Section accepted.
Notation lets m Q := (returns (E := Error) (S := SliceInput.t) m Q).

Lemma lets_i32 : lets read_i32 (in_s 32).
Proof. apply returns_store, returns_i32. Qed.
Lemma lets_i64 : lets read_i64 (in_s 64).
Proof. apply returns_store, returns_i64. Qed.
Lemma lets_string : lets read_string string_ok.
Proof. apply returns_store, returns_string. Qed.
Lemma any {A B} (m : P A) (k : A -> P B) (Q : B -> Prop) : (forall a, lets (k a) Q) -> lets (bind m k) Q.
Proof. intros Hk. apply (returns_bind _ _ _ _ (returns_any _)). auto. Qed.

Lemma lets_missing m h (Q : Z -> Prop) : lets m Q -> lets (read_missing m h) (fun o => forall v, o = Some v -> Q v).
Proof.
  intros Hm. unfold read_missing. destruct h; [|by apply returns_ret].
  apply (returns_bind _ _ _ _ Hm). intros v Hv. apply returns_ret. by intros ? [= <-].
Qed.

Lemma lets_float : lets (let* e := read_i32 in ret (sortable_int_to_float e)) (in_u 32).
Proof. apply any. intros e. apply returns_ret. by apply wrapu_range. Qed.
Lemma lets_double : lets (let* e := read_i64 in ret (sortable_long_to_double e)) (in_u 64).
Proof. apply any. intros e. apply returns_ret. by apply wrapu_range. Qed.

Lemma lets_numeric_key f ty : lets (read_numeric_key f ty) key_ok.
Proof.
  unfold read_numeric_key. apply any. intros v. cbv zeta.
  repeat (case_bool_decide; [eapply returns_bind; [apply lets_missing;
    first [apply lets_i32 | apply lets_i64 | apply lets_float | apply lets_double]|]; intros [x|] Hx; apply returns_ret; cbn; auto|]).
  done.
Qed.

Lemma lets_type : lets read_type string_ok.
Proof. unfold read_type. apply (returns_bind _ _ _ _ lets_string). intros s Hs. destruct (known_type s); [by apply returns_ret|done]. Qed.

Lemma lets_sort_field : lets read_sort_field sort_ok.
Proof.
  unfold read_sort_field. apply any. intros p. unfold read_sort_field_provider.
  repeat (case_bool_decide; [|]); [..|done].
  - apply (returns_bind _ _ _ _ lets_string). intros f Hf. apply any. intros ty. apply any. intros r.
    eapply (returns_bind _ _ (fun k => match k with NumericSort key | SortedNumericSort key _ => key_ok key | _ => True end)).
    + case_bool_decide.
      * apply any. intros h. destruct (h =? 1); [|by apply returns_ret]. apply any. intros x. by apply returns_ret.
      * apply (returns_bind _ _ _ _ (lets_numeric_key _ _)). intros k Hk. by apply returns_ret.
    + intros k Hk. apply returns_ret. by split.
  - apply (returns_bind _ _ _ _ lets_string). intros f Hf. do 3 (apply any; intros ?).
    apply (returns_bind _ _ _ _ (lets_numeric_key _ _)). intros k Hk. apply returns_ret. by split.
  - apply (returns_bind _ _ _ _ lets_string). intros f Hf. do 3 (apply any; intros ?). apply returns_ret. by split.
  - apply (returns_bind _ _ _ _ lets_string). intros f Hf. do 2 (apply any; intros ?). apply returns_ret. by split.
Qed.

Lemma lets_index_sort : lets read_index_sort index_sort_ok.
Proof.
  unfold read_index_sort. apply (returns_bind _ _ _ _ (returns_store Store _ _ returns_vint)). intros n Hn.
  destruct (Z.ltb_spec n 0); [done|]. apply any. intros r. destruct (_ <? n); [done|].
  destruct (Z.eqb_spec n 0); [by apply returns_ret|].
  apply (returns_bind _ _ _ _ (returns_repeat _ _ _ lets_sort_field)). intros l [Hl Hlen]. apply returns_ret.
  unfold in_s in Hn. change (2 ^ (32 - 1)) with (2 ^ 31) in Hn. split; [done|]. unfold zlen. lia.
Qed.

Lemma lets_version : lets read_version SegmentInfos.version_ok.
Proof.
  assert (Hc : forall w, lets (read_component w) (fun v => SegmentInfos.version_component_ok v = true)).
  { intros w. unfold read_component. apply any. intros v s a s'. unfold from_result, check_version_component.
    destruct (SegmentInfos.version_component_ok v) eqn:E; [|done]. by intros [= <- _]. }
  unfold read_version. apply (returns_bind _ _ _ _ (Hc _)). intros a Ha. apply (returns_bind _ _ _ _ (Hc _)). intros b Hb.
  apply (returns_bind _ _ _ _ (Hc _)). intros c Hcc. apply returns_ret. unfold SegmentInfos.version_ok. cbn. by rewrite Ha, Hb, Hcc.
Qed.

Lemma lets_descriptor i format : zlen i = ID_LENGTH -> lets (read_descriptor i format) (fun si => id si = i /\ info_ok si).
Proof.
  intros Hi. unfold read_descriptor. apply (returns_bind _ _ _ _ lets_version). intros v Hv.
  apply (returns_bind _ _ (fun o => match o with Some v => SegmentInfos.version_ok v | None => True end)).
  { unfold read_min_version. apply any. intros b. destruct (b =? 0); [by apply returns_ret|]. destruct (b =? 1); [|done].
    apply (returns_bind _ _ _ _ lets_version). intros w Hw. by apply returns_ret. }
  intros mv Hmv. apply (returns_bind _ _ _ _ lets_i32). intros n Hn. destruct (Z.ltb_spec n 0); [done|]. do 2 (apply any; intros ?).
  apply (returns_bind _ _ _ _ (returns_store Store _ _ returns_map)). intros d Hd.
  apply (returns_bind _ _ _ _ (returns_store Store _ _ returns_set)). intros f Hf.
  apply (returns_bind _ _ _ _ (returns_store Store _ _ returns_map)). intros at_ Ha.
  apply (returns_bind _ _ _ _ lets_index_sort). intros s Hs. apply returns_ret. split; [done|].
  unfold in_s in Hn. change (2 ^ (32 - 1)) with (2 ^ 31) in Hn. constructor; cbn; try done. unfold count_ok. lia.
Qed.

(** Whatever bytes either generation's [parse] accepts, the descriptor is
    within the format's bounds: version components are single bytes, the count
    of documents is not negative, every string is UTF-8, the index sort is
    absent or not empty, and each missing value is of its type.  So it can be
    written again in the current format and read back. *)
Lemma parsed_infos_are_well_formed (crc : list byte -> Z) (buf i : list byte) (format : SegmentInfoFormat) (si : t) :
  (forall l, in_u 32 (crc l)) -> zlen i = ID_LENGTH -> parse_with_format crc buf i format = Ok si ->
  id si = i /\ info_ok si /\
  exists file, write crc si [] = Some file /\ (bytes_ok file -> zlen file < 2 ^ 63 -> parse crc file i = Ok (reread si)).
Proof.
  intros Hcrc Hi. unfold parse_with_format. destruct (bind _ _ _) as [r s'] eqn:E. cbn [fst]. intros ->.
  apply bind_Ok_inv in E as (si' & s1 & E1 & E2). apply bind_Ok_inv in E2 as (x & s2 & _ & [= <- _]).
  apply bind_Ok_inv in E1 as (h & s3 & _ & E1). destruct (lets_descriptor i format Hi _ _ _ E1) as [Hid Hok].
  split; [done|]. split; [done|]. rewrite <- Hid. by apply parse_written.
Qed.
End accepted.

(** ** A concrete descriptor. *)
Definition sample : t :=
  mk (replicate 16 7) (SegmentInfos.mk_version 10 5 0) (Some (SegmentInfos.mk_version 9 12 1)) 42 true false
    [(bytes "source", bytes "flush")] [bytes "_0.cfs"; bytes "_0.cfe"; bytes "_0.si"] []
    (Some [mk_sort_field (bytes "price") true (SortedNumericSort (KeyFloat (Some 0xffc00001)) NumericMax);
           mk_sort_field (bytes "name") false (StringSort MissingLast)]).

Definition string_okb (s : list byte) : bool := utf8_valid s && (zlen s <? 2 ^ 31).
Lemma string_ok_check s : string_okb s = true -> string_ok s.
Proof. unfold string_okb. intros [H1 H2%Z.ltb_lt]%andb_true_iff. by split. Qed.

Lemma sample_info_ok : info_ok sample.
Proof.
  constructor; unfold sample; cbn [id version min_version doc_count diagnostics files attributes index_sort].
  - by vm_compute.
  - by vm_compute.
  - by vm_compute.
  - unfold count_ok. lia.
  - split; [|by vm_compute]. constructor; [split; by apply string_ok_check|constructor].
  - split; [|by vm_compute]. repeat (constructor; [by apply string_ok_check|]). constructor.
  - split; [constructor|by vm_compute].
  - split; [|by vm_compute]. repeat constructor; try (by apply string_ok_check); cbn; unfold in_u; lia.
Qed.

Lemma segment_info_round_trip_witness :
  exists file, write ieee_crc32 sample [] = Some file /\ parse ieee_crc32 file (replicate 16 7) = Ok (reread sample).
Proof.
  destruct (segment_info_round_trip ieee_crc32 ieee_range sample sample_info_ok) as (file & Hf & Hp). exists file. split; [exact Hf|].
  assert (E : Some file = write ieee_crc32 sample []) by (by rewrite Hf). vm_compute in E. injection E as ->.
  apply Hp; [by apply bytes_okb_ok|by vm_compute].
Defined.

Lemma parsed_infos_are_well_formed_witness :
  exists buf si, parse_with_format ieee_crc32 buf (replicate 16 7) Lucene99 = Ok si /\ info_ok si /\ doc_count si = 42.
Proof.
  destruct (write ieee_crc32 sample []) as [buf|] eqn:Hf; [|vm_compute in Hf; discriminate Hf]. exists buf, (reread sample).
  assert (Hp : parse_with_format ieee_crc32 buf (replicate 16 7) Lucene99 = Ok (reread sample)).
  { assert (E : Some buf = write ieee_crc32 sample []) by (by rewrite Hf). vm_compute in E. injection E as ->. by vm_compute. }
  split; [exact Hp|].
  split; [exact (proj1 (proj2 (parsed_infos_are_well_formed ieee_crc32 buf (replicate 16 7) Lucene99 (reread sample) ieee_range eq_refl Hp)))|done].
Defined.
End SegmentInfo.
