(* ===== verification/Commit.v ===== *)
(** * Publishing and reading a commit
    ([lucene-index/src/segment_infos.rs], [lucene-store/src/directory.rs])

    A commit is written to [pending_segments_N], synced, and renamed to
    [segments_N]: [write_pending], [finish_pending], [rollback_pending], and
    [read_latest], over any lawful directory.  Proved: whatever call fails, or
    is the last the process makes, no other file is touched and
    [segments_N] is absent or whole; and over the in-memory directory a
    published commit is the one read back. *)
From stdpp Require Import gmap strings.
From S2P Require Import Prelude StoreError SliceInput CodecUtil SegmentNames ByteBuffersDirectory IndexDirectory.
From S2P Require Import SegmentInfos.

Module Commit.
Import SegmentInfos.

Section commit.
Context {D O : Type} `{IndexDirectory D O} (crc : list byte -> Z).
Notation C := (M SegmentInfos.Error D).

(** [?] on a directory's result. *)
Definition io {A} (m : M StoreError.Error D A) : C A := fun d =>
  match m d with
  | (Ok a, d) => (Ok a, d)
  | (Err e, d) => (Err (Store e), d)
  end.

(** [let _ = ..]. *)
Definition ignore {A} (m : M StoreError.Error D A) : C unit := fun d => (Ok tt, (m d).2).

(** [if let Err(e) = m { cleanup; return Err(e) }]. *)
Definition or_else {A} (m : M StoreError.Error D A) (cleanup : C unit) : C A := fun d =>
  match m d with
  | (Ok a, d) => (Ok a, d)
  | (Err e, d) => (Err (Store e), (cleanup d).2)
  end.

Definition invalid_generation {A} : C A :=
  fail (Store (Corrupted "invalid generation for a segments_N file name")).
Definition pending_segments_name (si : t) : C name :=
  match pending_segments_file_name (generation si) with Some n => ret n | None => invalid_generation end.
Definition final_segments_name (si : t) : C name :=
  match segments_file_name (generation si) with Some n => ret n | None => invalid_generation end.

(** [None]: serializing panicked. *)
Definition write_pending (si : t) : option (C name) :=
  match check_writable_generations si with
  | Err e => Some (fail e)
  | Ok _ =>
      match pending_segments_file_name (generation si) with
      | None => Some invalid_generation
      | Some pending_name =>
          match to_bytes crc si with
          | None => None
          | Some file => Some (
              let* _ := io (directory_sync_meta_data (O := O)) in
              let* output := io (directory_create_output pending_name) in
              let* _ := or_else (directory_close_output output file) (ignore (directory_delete (O := O) pending_name)) in
              let* _ := or_else (directory_sync (O := O) [pending_name]) (ignore (directory_delete (O := O) pending_name)) in
              ret pending_name)
          end
      end
  end.

Definition finish_pending (si : t) : C name :=
  let* pending_name := pending_segments_name si in
  let* file_name := final_segments_name si in
  let* _ := io (directory_rename (O := O) pending_name file_name) in
  let* _ := or_else (directory_sync_meta_data (O := O))
              (fun d => match directory_rename (O := O) file_name pending_name d with
                        | (Ok _, d) => (Ok tt, d)
                        | (Err _, d) => ignore (directory_delete (O := O) file_name) d
                        end) in
  ret file_name.

Definition rollback_pending (si : t) : C unit :=
  match pending_segments_file_name (generation si) with
  | Some pending_name => ignore (directory_delete (O := O) pending_name)
  | None => ret tt
  end.

Definition write (si : t) : option (C name) :=
  match write_pending si with
  | None => None
  | Some pending => Some (let* _ := pending in finish_pending si)
  end.

(** [directory::open_commit_file] and [read_latest_commit]. *)
Definition open_commit_file (generation : Z) : M StoreError.Error D (list byte) :=
  match segments_file_name generation with
  | None => fail (Corrupted "no segments_N commit file found")
  | Some n => directory_open (O := O) n
  end.
Definition read_latest_commit : M StoreError.Error D (Z * list byte) :=
  let* files := directory_list_all (O := O) in
  match last_commit_generation files with
  | Err e => fail e
  | Ok generation => let* b := open_commit_file generation in ret (generation, b)
  end.

Definition read_latest : C t :=
  let* commit := io read_latest_commit in
  fun d => (parse crc commit.2 commit.1, d).
End commit.

(** ** Two phases, whatever fails. *)
Section atomic.
Context {D O : Type} `{IndexDirectoryLaws D O} (crc : list byte -> Z).
Notation C := (M SegmentInfos.Error D).
Notation view := directory_view.
Notation wf := directory_wf.

Lemma io_inv {A} (m : M StoreError.Error D A) d r d' : io m d = (r, d') ->
  exists r0, m d = (r0, d') /\ match r0 with Ok a => r = Ok a | Err e => r = Err (Store e) end.
Proof. unfold io. destruct (m d) as [[a|e] d1]; intros [= <- <-]; eexists; (split; [done|]); done. Qed.

Lemma or_else_inv {A} (m : M StoreError.Error D A) c d r d' : or_else m c d = (r, d') ->
  (exists a, m d = (Ok a, d') /\ r = Ok a) \/ exists e d1, m d = (Err e, d1) /\ r = Err (Store e) /\ d' = (c d1).2.
Proof. unfold or_else. destruct (m d) as [[a|e] d1]; intros [= <- <-]; eauto 10. Qed.

Lemma same_but_refl (n : list Z) (v : gmap (list Z) (option (list byte))) : same_but n v v.
Proof. by intros m. Qed.
Lemma same_but_trans (n : list Z) (v1 v2 v3 : gmap (list Z) (option (list byte))) : same_but n v1 v2 -> same_but n v2 v3 -> same_but n v1 v3.
Proof. intros H1 H2 m Hm. by rewrite H2, H1. Qed.
Lemma same_but_insert (n : list Z) (c : option (list byte)) (v : gmap (list Z) (option (list byte))) : same_but n v (<[n := c]> v).
Proof. intros m Hm. by apply lookup_insert_ne. Qed.
Lemma same_but_delete (n : list Z) (v : gmap (list Z) (option (list byte))) : same_but n v (delete n v).
Proof. intros m Hm. by apply lookup_delete_ne. Qed.
#[local] Hint Resolve same_but_refl same_but_insert same_but_delete : lucene.

Lemma ignore_delete n d : wf d -> let d' := (ignore (directory_delete (O := O) n) d).2 in wf d' /\ same_but n (view d) (view d').
Proof.
  intros Hw. unfold ignore. cbn [snd]. destruct (directory_delete n d) as [r d1] eqn:E. destruct (law_delete _ _ _ _ Hw E) as [Hw1 Hr].
  split; [done|]. cbn [snd]. destruct r as [u|e]; [rewrite Hr|destruct Hr as [-> | ->]]; auto with lucene.
Qed.

Lemma write_pending_spec si m p file d r d' : pending_segments_file_name (generation si) = Some p ->
  write_pending (O := O) crc si = Some m -> to_bytes crc si = Some file -> wf d -> m d = (r, d') ->
  wf d' /\ match r with
           | Ok n => n = p /\ view d' = <[p := Some file]> (view d)
           | Err _ => same_but p (view d) (view d')
           end.
Proof.
  intros Hp Hm Hf Hw E. unfold write_pending in Hm. rewrite Hp, Hf in Hm.
  destruct (check_writable_generations si); injection Hm as <-; [|by injection E as <- <-].
  unfold bind at 1 in E. destruct (io (directory_sync_meta_data (O := O)) d) as [r1 d1] eqn:E1.
  apply io_inv in E1 as (r0 & E1 & Hr1). apply law_sync_meta in E1 as [Hw1 Hv1]; [|done]. rewrite <- Hv1. clear Hv1.
  destruct r0; subst r1; [|by injection E as <- <-].
  unfold bind at 1 in E. destruct (io (directory_create_output p) d1) as [r2 d2] eqn:E2.
  apply io_inv in E2 as (r0 & E2 & Hr2). apply law_create in E2 as [Hw2 H2]; [|done].
  destruct r0 as [o|e]; subst r2; [|by injection E as <- <-]. destruct H2 as [Hv2 Ho].
  assert (H12 : same_but p (view d1) (view d2)) by (rewrite Hv2; auto with lucene).
  unfold bind at 1 in E. destruct (or_else _ _ d2) as [r3 d3] eqn:E3.
  apply or_else_inv in E3 as [(u & E3 & ->)|(e & dx & E3 & -> & ->)]; destruct (law_close _ _ _ _ _ _ Hw2 Ho E3) as [Hw3 H3].
  - unfold bind at 1 in E. destruct (or_else _ _ d3) as [r4 d4] eqn:E4.
    apply or_else_inv in E4 as [(u' & E4 & ->)|(e & dx & E4 & -> & ->)]; destruct (law_sync _ _ _ _ Hw3 E4) as [Hw4 H4].
    + injection E as <- <-. split; [done|]. split; [done|]. by rewrite H4, H3, Hv2, insert_insert_eq.
    + injection E as <- <-. destruct (ignore_delete p dx Hw4) as [Hw5 H5]. split; [done|].
      eapply same_but_trans; [|exact H5]. rewrite H4, H3. eapply same_but_trans; [exact H12|]. auto with lucene.
  - injection E as <- <-. destruct (ignore_delete p dx Hw3) as [Hw5 H5]. split; [done|].
    eapply same_but_trans; [|exact H5]. by eapply same_but_trans.
Qed.

(** What a commit may leave behind. *)
Definition only_names (p n : name) (v v' : gmap (list Z) (option (list byte))) : Prop :=
  forall m, m <> p -> m <> n -> v' !! m = v !! m.

Lemma finish_pending_spec si p n file d r d' : pending_segments_file_name (generation si) = Some p ->
  segments_file_name (generation si) = Some n -> p <> n -> wf d -> view d !! p = Some (Some file) -> view d !! n = None ->
  finish_pending (O := O) si d = (r, d') ->
  wf d' /\ match r with
           | Ok n' => n' = n /\ view d' = <[n := Some file]> (delete p (view d))
           | Err _ => only_names p n (view d) (view d') /\ (view d' !! n = None \/ view d' !! n = Some (Some file))
           end.
Proof.
  intros Hp Hn Hne Hw Hvp Hvn E. unfold finish_pending, pending_segments_name, final_segments_name in E. rewrite Hp, Hn in E.
  unfold bind at 1, ret at 1 in E. unfold bind at 1, ret at 1 in E. unfold bind at 1 in E.
  destruct (io (directory_rename p n) d) as [r1 d1] eqn:E1. apply io_inv in E1 as (r0 & E1 & Hr1).
  apply law_rename in E1 as [Hw1 H1]; [|done]. destruct r0; subst r1; [|injection E as <- <-; rewrite H1; split; [done|split; [done|by left]]].
  destruct H1 as (c & Hc & Hv1). rewrite Hvp in Hc. injection Hc as <-.
  assert (Ho1 : only_names p n (view d) (view d1)).
  { intros m Hm1 Hm2. rewrite Hv1, lookup_insert_ne, lookup_delete_ne; done. }
  assert (Hn1 : view d1 !! n = Some (Some file)) by (by rewrite Hv1, lookup_insert_eq).
  unfold bind at 1 in E. destruct (or_else _ _ d1) as [r2 d2] eqn:E2.
  apply or_else_inv in E2 as [(u & E2 & ->)|(e & dx & E2 & -> & ->)]; apply law_sync_meta in E2 as [Hw2 Hv2]; [|done| |done].
  - injection E as <- <-. split; [done|]. split; [done|]. by rewrite Hv2.
  - injection E as <- <-. destruct (directory_rename n p dx) as [r3 d3] eqn:E3. apply law_rename in E3 as [Hw3 H3]; [|done].
    destruct r3 as [u|e0]; cbn [snd].
    + destruct H3 as (c & _ & Hv3). split; [done|]. split.
      * intros m Hm1 Hm2. rewrite Hv3, lookup_insert_ne, lookup_delete_ne, Hv2 by done. by apply Ho1.
      * left. rewrite Hv3, lookup_insert_ne by done. by rewrite lookup_delete_eq.
    + unfold ignore. destruct (directory_delete n d3) as [r4 d4] eqn:E4. apply law_delete in E4 as [Hw4 H4]; [|done].
      cbn [snd]. split; [done|]. assert (Hd : view d4 = view d1 \/ view d4 = delete n (view d1)).
      { rewrite H3, Hv2 in H4. destruct r4; [by right|exact H4]. }
      split.
      * intros m Hm1 Hm2. destruct Hd as [-> | ->]; [by apply Ho1|]. rewrite lookup_delete_ne by done. by apply Ho1.
      * destruct Hd as [-> | ->]; [by right|left]. by rewrite lookup_delete_eq.
Qed.

Lemma pending_is_not_final g p n : pending_segments_file_name g = Some p -> segments_file_name g = Some n -> p <> n.
Proof.
  unfold pending_segments_file_name, segments_file_name.
  destruct (g <? 0); [done|]. destruct (Z.eqb_spec g 0) as [->|]; [by intros [= <-] [= <-]|].
  destruct (g =? -1); [done|]. by intros [= <-] [= <-].
Qed.

Lemma write_spec si file p n d d' m r : to_bytes crc si = Some file ->
  pending_segments_file_name (generation si) = Some p -> segments_file_name (generation si) = Some n ->
  wf d -> view d !! n = None -> write (O := O) crc si = Some m -> m d = (r, d') ->
  only_names p n (view d) (view d') /\
  match r with
  | Ok n' => n' = n /\ view d' = <[n := Some file]> (delete p (view d))
  | Err _ => view d' !! n = None \/ view d' !! n = Some (Some file)
  end.
Proof.
  intros Hf Hp Hn Hw Hnew Hm E. pose proof (pending_is_not_final _ _ _ Hp Hn) as Hne.
  unfold write in Hm. destruct (write_pending crc si) as [wp|] eqn:Ewp; [|done]. injection Hm as <-.
  unfold bind at 1 in E. destruct (wp d) as [r1 d1] eqn:E1.
  destruct (write_pending_spec si _ p file d r1 d1 Hp Ewp Hf Hw E1) as [Hw1 H1]. destruct r1 as [p'|e].
  - destruct H1 as [-> Hv1]. apply (finish_pending_spec si p n file) in E as [_ H2]; try done.
    2:{ by rewrite Hv1, lookup_insert_eq. } 2:{ by rewrite Hv1, lookup_insert_ne. }
    rewrite Hv1 in H2. destruct r as [n'|e].
    + destruct H2 as [-> Hv2]. rewrite delete_insert_eq in Hv2.
      split; [|by split]. intros x Hx Hy. by rewrite Hv2, lookup_insert_ne, lookup_delete_ne.
    + destruct H2 as [H2 H3]. split; [|done]. intros x Hx Hy. rewrite H2, lookup_insert_ne; done.
  - injection E as <- <-. split; [|left]; [intros x Hx _|]; rewrite H1; done.
Qed.
End atomic.

Section claims.
Context {D O : Type} `{IndexDirectoryLaws D O} (crc : list byte -> Z).
Hypothesis crc_range : forall l, in_u 32 (crc l).
Notation view := directory_view.

(** C2: a commit is published at once or not at all.  Over any lawful
    directory, whatever call of [write] fails (or is the last one made), no
    file but the two names of the commit changes; on success [segments_N] is a
    file [parse] reads the commit back from; otherwise it is absent, or whole
    (when it could neither be renamed back nor deleted). *)
Theorem commit_is_atomic (si : t) (file : list byte) (p n : name) (d d' : D) (m : M SegmentInfos.Error D name) r :
  infos_ok si -> to_bytes crc si = Some file -> bytes_ok file -> zlen file < 2 ^ 63 ->
  pending_segments_file_name (generation si) = Some p -> segments_file_name (generation si) = Some n ->
  directory_wf d -> view d !! n = None -> write (O := O) crc si = Some m -> m d = (r, d') ->
  only_names p n (view d) (view d') /\ parse crc file (generation si) = Ok (reread si) /\
  match r with
  | Ok n' => n' = n /\ view d' = <[n := Some file]> (delete p (view d))
  | Err _ => view d' !! n = None \/ view d' !! n = Some (Some file)
  end.
Proof.
  intros Hok Hf Hb Hl Hp Hn Hw Hnew Hm E.
  destruct (write_spec crc si file p n d d' m r Hf Hp Hn Hw Hnew Hm E) as [H1 H2].
  split; [exact H1|]. split; [by eapply parse_to_bytes|exact H2].
Qed.
End claims.

(** ** Reading the latest commit back, in memory. *)
Lemma last_commit_of (l : list name) n g : segments_file_name g = Some n -> in_s 64 g -> n ∈ l ->
  (forall f, f ∈ l -> is_segments_candidate f = true -> exists g', generation_from_segments_file_name f = Ok g' /\ g' <= g) ->
  -1 < g -> last_commit_generation l = Ok g.
Proof.
  intros Hn Hg Hin Hall Hpos. destruct (segments_name_spec g Hg ltac:(lia)) as (n' & Hn' & Hgen & Hcand).
  assert (n' = n) as -> by congruence. unfold last_commit_generation. pose proof (last_commit_spec l (-1)) as Hs.
  destruct (last_commit_loop l (-1)) as [g1|e].
  - destruct Hs as (_ & Hex & Hmax). f_equal. destruct (Hmax n Hin Hcand) as (g2 & Hg2 & Hle). rewrite Hgen in Hg2. injection Hg2 as <-.
    destruct Hex as [->|(f & Hf & Hc & Hgf)]; [lia|]. destruct (Hall f Hf Hc) as (g2 & Hg2 & Hle2). rewrite Hgf in Hg2. injection Hg2 as <-. lia.
  - destruct Hs as (f & Hf & Hc & Hgf). destruct (Hall f Hf Hc) as (g2 & Hg2 & _). congruence.
Qed.

Section in_memory.
Context (crc : list byte -> Z).
Hypothesis crc_range : forall l, in_u 32 (crc l).
Implicit Types d : ByteBuffersDirectory.t.

(** The commit files of [d] are all of generations below [g]. *)
Definition commits_below (g : Z) d : Prop :=
  forall f, is_Some (ByteBuffersDirectory.view d !! f) -> is_segments_candidate f = true ->
    exists g', generation_from_segments_file_name f = Ok g' /\ g' < g.

Lemma final_name_fresh g n d : segments_file_name g = Some n -> in_s 64 g -> -1 < g -> commits_below g d -> ByteBuffersDirectory.view d !! n = None.
Proof.
  intros Hn Hg Hpos Hb. destruct (segments_name_spec g Hg ltac:(lia)) as (n' & Hn' & Hgen & Hcand). assert (n' = n) as -> by congruence.
  apply eq_None_not_Some. intros Hs. destruct (Hb n Hs Hcand) as (g' & Hg' & Hlt). rewrite Hgen in Hg'. injection Hg' as <-. lia.
Qed.

Lemma in_memory_write_Ok si file p n d : infos_ok si -> to_bytes crc si = Some file ->
  pending_segments_file_name (generation si) = Some p -> segments_file_name (generation si) = Some n ->
  ByteBuffersDirectory.inv d -> ByteBuffersDirectory.view d !! p = None -> ByteBuffersDirectory.view d !! n = None ->
  exists m d', write crc si = Some m /\ m d = (Ok n, d').
Proof.
  intros Hok Hf Hp Hn Hi Hvp Hvn. pose proof (pending_is_not_final _ _ _ Hp Hn) as Hne.
  assert (Hfile : forall x, ByteBuffersDirectory.view d !! x = None -> ByteBuffersDirectory.file_exists d x = false).
  { intros x Hx. rewrite ByteBuffersDirectory.file_exists_view, Hx. by apply bool_decide_eq_false_2, is_Some_None. }
  unfold write, write_pending. rewrite Hp, Hf.
  assert (Hc : check_writable_generations si = Ok tt).
  { unfold check_writable_generations. destruct (andb_prop _ _ (ok_infos_gens si Hok)) as [[H1 H2]%andb_prop H3].
    unfold check_generation. rewrite H1, H2, H3. cbn [app first_error foldr]. destruct (ok_segments si Hok) as [Hs _].
    induction Hs as [|s l Hs _ IH]; [done|]. destruct (andb_prop _ _ (ok_gens s Hs)) as [[G1 G2]%andb_prop G3].
    cbn [map concat app foldr]. by rewrite G1, G2, G3. }
  rewrite Hc. destruct (ByteBuffersDirectory.output_for p d) as [o d1] eqn:Eo.
  assert (Ecr : directory_create_output (O := ByteBuffersDirectory.output) p d = (Ok o, d1)).
  { cbn. unfold ByteBuffersDirectory.create_output. by rewrite Hfile, Eo. }
  destruct (@law_create _ _ _ byte_buffers_index_directory_laws p d (Ok o) d1 Hi Ecr) as [Hi1 [Hv1 Ho]].
  destruct (@law_close _ _ _ byte_buffers_index_directory_laws p o file d1 (Ok tt) _ Hi1 Ho eq_refl) as [Hi2 Hv2]. cbn [directory_view directory_wf byte_buffers_index_directory_laws] in *.
  set (d2 := ByteBuffersDirectory.publish o file d1) in *.
  assert (Ern : exists d3, directory_rename (O := ByteBuffersDirectory.output) p n d2 = (Ok tt, d3)).
  { cbn. unfold ByteBuffersDirectory.rename. rewrite !ByteBuffersDirectory.file_exists_view, Hv2, Hv1.
    rewrite lookup_insert_eq, !lookup_insert_ne, Hvn by done. rewrite bool_decide_eq_true_2 by eauto.
    rewrite bool_decide_eq_false_2 by (by intros [? ?]). cbn [negb]. destruct (ByteBuffersDirectory.files d2 !! p); eauto. }
  destruct Ern as [d3 Ern]. eexists _, d3. split; [done|].
  assert (Hio : forall A (m : M StoreError.Error ByteBuffersDirectory.t A) x a y, m x = (Ok a, y) -> io m x = (Ok a, y)) by (intros A m x a y E; unfold io; by rewrite E).
  assert (Hor : forall A (m : M StoreError.Error ByteBuffersDirectory.t A) c x a y, m x = (Ok a, y) -> or_else m c x = (Ok a, y)) by (intros A m c x a y E; unfold or_else; by rewrite E).
  erewrite bind_Ok; [|erewrite bind_Ok; [|apply Hio; reflexivity]; erewrite bind_Ok; [|apply Hio, Ecr];
    erewrite bind_Ok; [|apply Hor; reflexivity]; erewrite bind_Ok; [reflexivity|apply Hor; reflexivity]].
  unfold finish_pending, pending_segments_name, final_segments_name. rewrite Hp, Hn.
  erewrite bind_Ok; [|reflexivity]. erewrite bind_Ok; [|reflexivity]. erewrite bind_Ok; [|apply Hio, Ern].
  by erewrite bind_Ok; [|apply Hor; reflexivity].
Qed.

Lemma open_view d n b : ByteBuffersDirectory.view d !! n = Some (Some b) -> ByteBuffersDirectory.open n d = (Ok b, d).
Proof.
  rewrite ByteBuffersDirectory.view_lookup. unfold ByteBuffersDirectory.open.
  destruct (ByteBuffersDirectory.files d !! n) as [e|]; [|done]. cbn.
  destruct (ByteBuffersDirectory.entries d !! e) as [[c|]|]; cbn; intros [= ->]. done.
Qed.

Lemma read_latest_of d g n file : segments_file_name g = Some n -> in_s 64 g -> -1 < g ->
  ByteBuffersDirectory.view d !! n = Some (Some file) -> commits_below (g + 1) d ->
  read_latest (O := ByteBuffersDirectory.output) crc d = (parse crc file g, d).
Proof.
  intros Hn Hg Hpos Hv Hb. unfold read_latest, read_latest_commit, io.
  destruct (ByteBuffersDirectory.list_all_spec d) as (l & El & _ & _ & Hl).
  assert (Hlast : last_commit_generation l = Ok g).
  { apply (last_commit_of l n); try done; [apply Hl; eauto|]. intros f Hf Hc. apply Hl in Hf.
    destruct (Hb f Hf Hc) as (g' & Hg' & Hlt). exists g'. split; [done|lia]. }
  unfold bind at 1 2. cbn [directory_list_all byte_buffers_index_directory]. rewrite El, Hlast.
  unfold bind, open_commit_file. rewrite Hn. cbn [directory_open byte_buffers_index_directory]. by rewrite (open_view d n file Hv).
Qed.

(** What was committed last is what is opened next.  In the in-memory
    directory, writing a commit of a generation above every commit listed
    succeeds, and [read_latest] then finds it and reads the same commit back. *)
Lemma published_commit_is_the_latest (si : t) (file : list byte) (p n : name) d :
  infos_ok si -> to_bytes crc si = Some file -> bytes_ok file -> zlen file < 2 ^ 63 -> 0 <= generation si ->
  pending_segments_file_name (generation si) = Some p -> segments_file_name (generation si) = Some n ->
  ByteBuffersDirectory.inv d -> ByteBuffersDirectory.view d !! p = None -> commits_below (generation si) d ->
  exists m d', write crc si = Some m /\ m d = (Ok n, d') /\ read_latest crc d' = (Ok (reread si), d').
Proof.
  intros Hok Hf Hb Hl Hg0 Hp Hn Hi Hvp Hbelow.
  assert (Hg : in_s 64 (generation si)).
  { apply generation_range. by destruct (andb_prop _ _ (ok_infos_gens si Hok)) as [[H1 H2]%andb_prop H3]. }
  assert (Hvn := final_name_fresh _ n d Hn Hg ltac:(lia) Hbelow).
  destruct (in_memory_write_Ok si file p n d Hok Hf Hp Hn Hi Hvp Hvn) as (m & d' & Hm & E). exists m, d'. split; [done|]. split; [done|].
  destruct (@write_spec _ _ _ byte_buffers_index_directory_laws crc si file p n d d' m (Ok n) Hf Hp Hn Hi Hvn Hm E) as (_ & Hv).
  destruct Hv as [_ Hv]. cbn [directory_view byte_buffers_index_directory_laws] in Hv.
  rewrite (read_latest_of d' (generation si) n file); [|done|done|lia| |].
  - f_equal. by eapply parse_to_bytes.
  - by rewrite Hv, lookup_insert_eq.
  - intros f Hs Hc. destruct (decide (f = n)) as [->|Hne].
    + destruct (segments_name_spec _ Hg ltac:(lia)) as (n' & Hn' & Hgen & _). assert (n' = n) as -> by congruence.
      exists (generation si). split; [done|lia].
    + rewrite Hv, lookup_insert_ne in Hs by done. destruct (Hbelow f) as (g' & Hg' & Hlt); [|done|exists g'; split; [done|lia]].
      destruct (decide (f = p)) as [->|Hfp]; [by rewrite lookup_delete_eq in Hs; destruct Hs|by rewrite lookup_delete_ne in Hs].
Qed.
End in_memory.

(** ** The sample commit, published in an empty directory. *)
Lemma published_commit_is_the_latest_witness :
  exists m d', write ieee_crc32 sample = Some m /\ m ByteBuffersDirectory.new = (Ok (bytes "segments_c"), d') /\
    read_latest ieee_crc32 d' = (Ok (reread sample), d').
Proof.
  destruct (to_bytes ieee_crc32 sample) as [file|] eqn:Hf; [|vm_compute in Hf; discriminate].
  assert (E : Some file = to_bytes ieee_crc32 sample) by (by rewrite Hf). vm_compute in E. injection E as E.
  assert (Hb : bytes_ok file) by (rewrite E; by apply bytes_okb_ok). assert (Hl : zlen file < 2 ^ 63) by (rewrite E; by vm_compute).
  apply (published_commit_is_the_latest ieee_crc32 ieee_range sample file (bytes "pending_segments_c") (bytes "segments_c")
    ByteBuffersDirectory.new sample_ok Hf Hb Hl).
  - by vm_compute.
  - by vm_compute.
  - by vm_compute.
  - apply ByteBuffersDirectory.new_directory_inv.
  - done.
  - intros f [c Hc]. by rewrite ByteBuffersDirectory.view_lookup in Hc.
Defined.

Lemma commit_is_atomic_witness :
  exists m d', write ieee_crc32 sample = Some m /\ m ByteBuffersDirectory.new = (Ok (bytes "segments_c"), d') /\
    exists file, ByteBuffersDirectory.view d' !! bytes "segments_c" = Some (Some file) /\ parse ieee_crc32 file 12 = Ok (reread sample).
Proof.
  destruct (to_bytes ieee_crc32 sample) as [file|] eqn:Hf; [|vm_compute in Hf; discriminate].
  assert (E : Some file = to_bytes ieee_crc32 sample) by (by rewrite Hf). vm_compute in E. injection E as E.
  assert (Hb : bytes_ok file) by (rewrite E; by apply bytes_okb_ok). assert (Hl : zlen file < 2 ^ 63) by (rewrite E; by vm_compute).
  assert (Hp : pending_segments_file_name (generation sample) = Some (bytes "pending_segments_c")) by (by vm_compute).
  assert (Hn : segments_file_name (generation sample) = Some (bytes "segments_c")) by (by vm_compute).
  destruct (in_memory_write_Ok ieee_crc32 sample file (bytes "pending_segments_c") (bytes "segments_c") ByteBuffersDirectory.new
    sample_ok Hf Hp Hn ByteBuffersDirectory.new_directory_inv eq_refl eq_refl) as (m & d' & Hm & Ed).
  exists m, d'. split; [exact Hm|]. split; [exact Ed|]. exists file.
  destruct (@commit_is_atomic _ _ _ byte_buffers_index_directory_laws ieee_crc32 ieee_range sample file (bytes "pending_segments_c") (bytes "segments_c")
    ByteBuffersDirectory.new d' m (Ok (bytes "segments_c")) sample_ok Hf Hb Hl Hp Hn ByteBuffersDirectory.new_directory_inv eq_refl Hm Ed)
    as (_ & Hpar & _ & Hv). split; [|exact Hpar]. cbn [directory_view byte_buffers_index_directory_laws] in Hv. rewrite Hv. apply lookup_insert_eq.
Defined.
End Commit.
