(* ===== verification/DeletionPolicy.v ===== *)
(** * Deletion policies ([lucene-index/src/deletion_policy.rs])

    A policy is told the live commits, oldest first, when a writer opens and
    after every commit, and marks the ones it no longer wants.
    [IndexDeletionPolicy] is the trait; a policy's state is behind a lock, so
    a call is one step on it.  [SnapshotDeletionPolicy] wraps any policy and
    keeps the commits that are pinned; [PersistentSnapshotDeletionPolicy] also
    writes the pins to the directory.  Proved: which commits each policy
    marks; that pins are counted and a pinned commit is never marked; that the
    pins written are the pins loaded. *)
From stdpp Require Import gmap strings sorting.
From S2P Require Import Prelude StoreError ZigZag DataOutput DataInput SliceInput Wire CodecUtil SegmentNames ByteBuffersDirectory IndexDirectory.

Module DeletionPolicy.

Inductive Error : Type :=
| Store (e : StoreError.Error)
| IllegalArgument (msg : string)
| IllegalState (msg : string).

Record IndexCommit : Type := mk_commit {
  generation : Z;
  segments_file_name : name;
  file_names : list name;
  segment_count : Z;
  user_data : list (list byte * list byte);
  deleted : bool;
}.
#[export] Instance IndexCommit_eq_dec : EqDecision IndexCommit.
Proof. solve_decision. Defined.

(** [IndexCommit::new] and [delete]. *)
Definition new_commit (generation : Z) (segments_file_name : name) (file_names : list name) (segment_count : Z)
    (user_data : list (list byte * list byte)) : IndexCommit :=
  mk_commit generation segments_file_name file_names segment_count user_data false.
Definition delete_commit (c : IndexCommit) : IndexCommit :=
  mk_commit (generation c) (segments_file_name c) (file_names c) (segment_count c) (user_data c) true.

(** The trait: both calls may change the policy and mark commits. *)
Notation policy_call P := (M Error (P * list IndexCommit) unit).
Class IndexDeletionPolicy (P : Type) : Type := {
  on_init : policy_call P;
  on_commit : policy_call P;
}.

(** The commits are a slice: a call hands back as many as it was given. *)
Class IndexDeletionPolicyLaws (P : Type) `{IndexDeletionPolicy P} : Prop := {
  law_length (init : bool) p l r p' l' : (if init then on_init else on_commit) (p, l) = (r, (p', l')) -> length l' = length l;
}.

(** [for commit in &mut commits[..n] { commit.delete() }]. *)
Definition delete_first (n : nat) (commits : list IndexCommit) : list IndexCommit :=
  map delete_commit (take n commits) ++ drop n commits.

(** *** [KeepOnlyLastCommitDeletionPolicy], [NoDeletionPolicy],
    [KeepLastNCommitsDeletionPolicy]. *)
Inductive KeepOnlyLastCommit : Type := keep_only_last_commit.
Definition keep_last_call : policy_call KeepOnlyLastCommit := fun '(p, commits) =>
  (Ok tt, (p, delete_first (length commits - 1) commits)).
#[global] Instance keep_only_last_policy : IndexDeletionPolicy KeepOnlyLastCommit :=
  {| on_init := keep_last_call; on_commit := keep_last_call |}.

Inductive NoDeletion : Type := no_deletion.
#[global] Instance no_deletion_policy : IndexDeletionPolicy NoDeletion := {| on_init := ret tt; on_commit := ret tt |}.

Record KeepLastNCommits : Type := mk_keep_last_n { num_commits_to_keep : nat }.
Definition keep_last_n_new (num_commits_to_keep : Z) : result Error KeepLastNCommits :=
  if num_commits_to_keep <=? 0 then Err (IllegalArgument "number of recent commits to keep must be positive")
  else Ok (mk_keep_last_n (Z.to_nat num_commits_to_keep)).
Definition keep_last_n_call : policy_call KeepLastNCommits := fun '(p, commits) =>
  (Ok tt, (p, delete_first (length commits - num_commits_to_keep p) commits)).
#[global] Instance keep_last_n_policy : IndexDeletionPolicy KeepLastNCommits :=
  {| on_init := keep_last_n_call; on_commit := keep_last_n_call |}.

(** ** Snapshots. *)
Record SnapshotState : Type := mk_snapshots {
  ref_counts : gmap Z Z;
  index_commits : gmap Z IndexCommit;
  last_commit : option IndexCommit;
  init_called : bool;
}.
Definition no_snapshots : SnapshotState := mk_snapshots ∅ ∅ None false.

Definition i32_saturating_add (a b : Z) : Z := Z.max (- 2 ^ 31) (Z.min (2 ^ 31 - 1) (a + b)).

Definition snapshot_inc_ref (commit : IndexCommit) (s : SnapshotState) : SnapshotState :=
  let gen := generation commit in
  let '(count, held) :=
    match ref_counts s !! gen with
    | None => (0, <[gen := commit]> (index_commits s))
    | Some c => (c, index_commits s)
    end in
  mk_snapshots (<[gen := i32_saturating_add count 1]> (ref_counts s)) held (last_commit s) (init_called s).

Definition release_locked (gen : Z) : M Error SnapshotState unit := fun s =>
  if negb (init_called s) then (Err (IllegalState "this instance is not being used by IndexWriter"), s)
  else match ref_counts s !! gen with
       | None => (Err (IllegalArgument "commit gen is not currently snapshotted"), s)
       | Some count =>
           let count := i32_saturating_add count (-1) in
           if count =? 0
           then (Ok tt, mk_snapshots (delete gen (ref_counts s)) (delete gen (index_commits s)) (last_commit s) (init_called s))
           else (Ok tt, mk_snapshots (<[gen := count]> (ref_counts s)) (index_commits s) (last_commit s) (init_called s))
       end.

(** [snapshot], [release_gen], [release]. *)
Definition snapshot : M Error SnapshotState IndexCommit := fun s =>
  if negb (init_called s) then (Err (IllegalState "this instance is not being used by IndexWriter"), s)
  else match last_commit s with
       | None => (Err (IllegalState "No index commit to snapshot"), s)
       | Some last => (Ok last, snapshot_inc_ref last s)
       end.
Definition release_gen (gen : Z) : M Error SnapshotState unit := release_locked gen.
Definition release (commit : IndexCommit) : M Error SnapshotState unit := release_gen (generation commit).

(** [snapshots], [snapshot_count], [index_commit]. *)
Definition older (a b : IndexCommit) : Prop := generation a <= generation b.
#[export] Instance older_dec : RelDecision older.
Proof. intros a b. unfold older. apply _. Defined.
Definition snapshots (s : SnapshotState) : list IndexCommit :=
  merge_sort older (map snd (map_to_list (index_commits s))).
Definition snapshot_count (s : SnapshotState) : Z :=
  fold_left i32_saturating_add (map snd (map_to_list (ref_counts s))) 0.
Definition index_commit (gen : Z) (s : SnapshotState) : option IndexCommit := index_commits s !! gen.

(** [for (commit, decided) in commits.iter_mut().zip(&wrapped)]. *)
Fixpoint carry_back (pinned : gmap Z Z) (commits wrapped : list IndexCommit) : list IndexCommit :=
  match commits, wrapped with
  | c :: commits, decided :: wrapped =>
      (if deleted decided && negb (bool_decide (is_Some (pinned !! generation c))) then delete_commit c else c)
        :: carry_back pinned commits wrapped
  | _, _ => commits
  end.

Section snapshot_policy.
Context {P : Type} `{IndexDeletionPolicy P}.

Record SnapshotDeletionPolicy : Type := mk_snapshot_policy { primary : P; state : SnapshotState }.
Definition snapshot_policy_new (p : P) : SnapshotDeletionPolicy := mk_snapshot_policy p no_snapshots.

Definition run_primary (s : SnapshotState) (init : bool) : policy_call P := fun '(p, commits) =>
  match (if init then on_init else on_commit) (p, commits) with
  | (Err e, (p, _)) => (Err e, (p, commits))
  | (Ok _, (p, wrapped)) => (Ok tt, (p, carry_back (ref_counts s) commits wrapped))
  end.

Definition set_last (s : SnapshotState) (last : option IndexCommit) : SnapshotState :=
  mk_snapshots (ref_counts s) (index_commits s) last (init_called s).

Definition remember (s : SnapshotState) (c : IndexCommit) : SnapshotState :=
  match ref_counts s !! generation c with
  | Some _ => mk_snapshots (ref_counts s) (<[generation c := c]> (index_commits s)) (last_commit s) (init_called s)
  | None => s
  end.

Definition snapshot_on_init : policy_call SnapshotDeletionPolicy := fun '(sp, commits) =>
  let s := state sp in
  let s := mk_snapshots (ref_counts s) (index_commits s) (last_commit s) true in
  match run_primary s true (primary sp, commits) with
  | (Err e, (p, commits)) => (Err e, (mk_snapshot_policy p s, commits))
  | (Ok _, (p, commits)) =>
      let s := fold_left remember commits s in
      let s := match list.last commits with Some c => set_last s (Some c) | None => s end in
      (Ok tt, (mk_snapshot_policy p s, commits))
  end.

Definition snapshot_on_commit : policy_call SnapshotDeletionPolicy := fun '(sp, commits) =>
  let s := state sp in
  match run_primary s false (primary sp, commits) with
  | (Err e, (p, commits)) => (Err e, (mk_snapshot_policy p s, commits))
  | (Ok _, (p, commits)) => (Ok tt, (mk_snapshot_policy p (set_last s (list.last commits)), commits))
  end.

#[global] Instance snapshot_policy : IndexDeletionPolicy SnapshotDeletionPolicy :=
  {| on_init := snapshot_on_init; on_commit := snapshot_on_commit |}.
End snapshot_policy.
Arguments SnapshotDeletionPolicy P : clear implicits.

(** ** Persistent snapshots. *)
(** [i64]'s decimal text, and [str::parse::<i64>]. *)
Fixpoint decimal_loop (fuel : nat) (n : Z) : list byte :=
  match fuel with
  | O => []
  | Datatypes.S k => if n <? 10 then [48 + n] else decimal_loop k (n / 10) ++ [48 + n mod 10]
  end.
Definition to_decimal (n : Z) : list byte := if n <? 0 then 45 :: decimal_loop 19 (- n) else decimal_loop 19 n.

Fixpoint decimal_digits (sign : Z) (s : list byte) (acc : Z) : option Z :=
  match s with
  | [] => Some acc
  | c :: s =>
      if (48 <=? c) && (c <=? 57) then
        m ← i64_checked (acc * 10); acc ← i64_checked (m + sign * (c - 48)); decimal_digits sign s acc
      else None
  end.
Definition parse_i64 (s : list byte) : option Z :=
  match s with
  | [] => None
  | c :: rest =>
      if (c =? 43) || (c =? 45) then
        match rest with [] => None | _ => decimal_digits (if c =? 45 then -1 else 1) rest 0 end
      else decimal_digits 1 s 0
  end.

Inductive OpenMode : Type := Create | Append | CreateOrAppend.
#[export] Instance OpenMode_eq_dec : EqDecision OpenMode.
Proof. solve_decision. Defined.

Definition SNAPSHOTS_PREFIX : list byte := bytes "snapshots_".
Definition CODEC_NAME : list byte := bytes "snapshots".
Definition VERSION_START : Z := 0.
Definition VERSION_CURRENT : Z := VERSION_START.
Definition snapshots_file_name (gen : Z) : name := SNAPSHOTS_PREFIX ++ to_decimal gen.

(** [sort_unstable] on pairs: by generation, then count. *)
Definition pair_le (a b : Z * Z) : Prop := a.1 < b.1 \/ (a.1 = b.1 /\ a.2 <= b.2).
#[export] Instance pair_le_dec : RelDecision pair_le.
Proof. intros a b. unfold pair_le. apply _. Defined.
Definition ref_counts_sorted (s : SnapshotState) : list (Z * Z) := merge_sort pair_le (map_to_list (ref_counts s)).

Definition snapshots_file (s : SnapshotState) : list byte :=
  let out := write_header CODEC_NAME VERSION_CURRENT [] in
  let entries := ref_counts_sorted s in
  let out := write_vint (Z.min (zlen entries) (2 ^ 31 - 1)) out in
  fold_left (fun out e => write_vint e.2 (write_vlong e.1 out)) entries out.

Fixpoint read_entries (n : nat) (m : gmap Z Z) : M (StoreError.Error * gmap Z Z) SliceInput.t (gmap Z Z) := fun s =>
  match n with
  | O => (Ok m, s)
  | Datatypes.S n =>
      match (let* commit_gen := read_vlong in let* ref_count := read_vint in ret (commit_gen, ref_count)) s with
      | (Ok (g, c), s) => read_entries n (<[g := c]> m) s
      | (Err e, s) => (Err (e, m), s)
      end
  end.

(** [read_snapshots_file] on the file's bytes: what it has put in the map by
    the time it returns, and whether it failed. *)
Definition read_snapshots (file : list byte) : option StoreError.Error * gmap Z Z :=
  match (let* _ := check_header CODEC_NAME VERSION_START VERSION_START in read_vint) (SliceInput.new file) with
  | (Err e, _) => (Some e, ∅)
  | (Ok count, s) =>
      match (read_entries (Z.to_nat (Z.max count 0)) ∅ s).1 with
      | Ok m => (None, m)
      | Err (e, m) => (Some e, m)
      end
  end.

Section persistent.
Context {P D O : Type} `{IndexDeletionPolicy P} `{IndexDirectory D O}.

(** The policy and the directory it writes to. *)
Record Persistent : Type := mk_persistent { inner : SnapshotDeletionPolicy P; next_write_gen : Z }.
Notation C := (M Error (Persistent * D)).

Definition set_inner (i : SnapshotDeletionPolicy P) (p : Persistent) : Persistent := mk_persistent i (next_write_gen p).
Definition inner_state (p : Persistent) : SnapshotState := state (inner p).
Definition with_state (s : SnapshotState) (p : Persistent) : Persistent :=
  set_inner (mk_snapshot_policy (primary (inner p)) s) p.

Definition on_dir {A} (m : M StoreError.Error D A) : C A := fun '(p, d) =>
  match m d with
  | (Ok a, d) => (Ok a, (p, d))
  | (Err e, d) => (Err (Store e), (p, d))
  end.
Definition on_state {A} (m : M Error SnapshotState A) : C A := fun '(p, d) =>
  let '(r, s) := m (inner_state p) in (r, (with_state s p, d)).
Definition try_delete (n : name) : C unit := fun '(p, d) => (Ok tt, (p, (directory_delete (O := O) n d).2)).

Definition last_save_file (p : Persistent) : option name :=
  if next_write_gen p =? 0 then None else Some (snapshots_file_name (next_write_gen p - 1)).

Definition saturating_sub1 (g : Z) : Z := Z.max (- 2 ^ 63) (g - 1).
Definition saturating_add1 (g : Z) : Z := Z.min (2 ^ 63 - 1) (g + 1).

(** The closure [written]. *)
Definition write_file (n : name) (file : list byte) : M StoreError.Error D unit :=
  let* out := directory_create_output n in directory_close_output out file.

Definition persist : C unit := fun '(p, d) =>
  let gen := next_write_gen p in
  let file_name := snapshots_file_name gen in
  match write_file file_name (snapshots_file (inner_state p)) d with
  | (Err e, d) => (Err (Store e), (p, (directory_delete (O := O) file_name d).2))
  | (Ok _, d) =>
      match directory_sync (O := O) [file_name] d with
      | (Err e, d) => (Err (Store e), (p, d))
      | (Ok _, d) =>
          let d := if 0 <? gen then (directory_delete (O := O) (snapshots_file_name (saturating_sub1 gen)) d).2 else d in
          (Ok tt, (mk_persistent (inner p) (saturating_add1 gen), d))
      end
  end.

(** [snapshot], [release], [release_gen]. *)
Definition persistent_snapshot : C IndexCommit :=
  let* commit := on_state snapshot in
  fun s => match persist s with
           | (Ok _, s) => (Ok commit, s)
           | (Err e, s) => (Err e, (on_state (release commit) s).2)
           end.
Definition persistent_release (commit : IndexCommit) : C unit :=
  let* _ := on_state (release commit) in
  fun s => match persist s with
           | (Ok _, s) => (Ok tt, s)
           | (Err e, (p, d)) => (Err e, (with_state (snapshot_inc_ref commit (inner_state p)) p, d))
           end.
Definition persistent_release_gen (gen : Z) : C unit :=
  let* _ := on_state (release_gen gen) in persist.

Fixpoint clear_loop (files : list name) : C unit :=
  match files with
  | [] => ret tt
  | f :: files =>
      if starts_with SNAPSHOTS_PREFIX f
      then let* _ := on_dir (directory_delete (O := O) f) in clear_loop files
      else clear_loop files
  end.
Definition clear_prior_snapshots : C unit :=
  let* files := on_dir (directory_list_all (O := O)) in clear_loop files.

(** One listed file: [gen_loaded], [first_error], [snapshot_files]. *)
Definition load_state : Type := Z * option Error * list name.
Fixpoint load_loop (files : list name) (l : load_state) : C load_state :=
  match files with
  | [] => ret l
  | file :: files =>
      match strip_prefix SNAPSHOTS_PREFIX file with
      | None => load_loop files l
      | Some suffix =>
          match parse_i64 suffix with
          | None => fail (IllegalArgument "unparsable snapshots file name")
          | Some gen =>
              let '(gen_loaded, first_error, snapshot_files) := l in
              if (gen_loaded =? -1) || (gen_loaded <? gen) then
                fun '(p, d) =>
                  let '(r, d) := directory_open (O := O) file d in
                  let '(e, m) := match r with Err e => (Some e, ∅) | Ok b => read_snapshots b end in
                  let first_error := match first_error with Some _ => first_error | None => Store <$> e end in
                  let s := inner_state p in
                  let p := with_state (mk_snapshots m (index_commits s) (last_commit s) (init_called s)) p in
                  load_loop files (gen, first_error, snapshot_files ++ [file]) (p, d)
              else load_loop files l
          end
      end
  end.

Fixpoint delete_others (current : name) (files : list name) : C unit :=
  match files with
  | [] => ret tt
  | f :: files =>
      if bool_decide (f = current) then delete_others current files
      else let* _ := try_delete f in delete_others current files
  end.

Definition load_prior_snapshots : C unit :=
  let* files := on_dir (directory_list_all (O := O)) in
  let* l := load_loop files (-1, None, []) in
  let '(gen_loaded, first_error, snapshot_files) := l in
  if gen_loaded =? -1 then match first_error with Some e => fail e | None => ret tt end
  else
    let* _ := if Nat.ltb 1 (length snapshot_files) then delete_others (snapshots_file_name gen_loaded) snapshot_files else ret tt in
    fun '(p, d) => (Ok tt, (mk_persistent (inner p) (saturating_add1 gen_loaded), d)).

(** [PersistentSnapshotDeletionPolicy::new]. *)
Definition persistent_new (p : P) (mode : OpenMode) : M Error D Persistent := fun d =>
  let build :=
    let* _ := if bool_decide (mode = Create) then clear_prior_snapshots else ret tt in
    let* _ := load_prior_snapshots in
    fun '(p, d) =>
      if bool_decide (mode = Append) && (next_write_gen p =? 0)
      then (Err (IllegalState "no snapshots stored in this directory"), (p, d)) else (Ok tt, (p, d)) in
  match build (mk_persistent (snapshot_policy_new p) 0, d) with
  | (Ok _, (p, d)) => (Ok p, d)
  | (Err e, (_, d)) => (Err e, d)
  end.

#[global] Instance persistent_policy : IndexDeletionPolicy Persistent := {|
  on_init '(p, commits) := let '(r, (i, commits)) := on_init (inner p, commits) in (r, (set_inner i p, commits));
  on_commit '(p, commits) := let '(r, (i, commits)) := on_commit (inner p, commits) in (r, (set_inner i p, commits));
|}.
End persistent.
Arguments Persistent P : clear implicits.

(** ** Which commits a policy marks. *)
Lemma delete_first_lookup n l i : delete_first n l !! i = (fun c => if Nat.ltb i n then delete_commit c else c) <$> l !! i.
Proof.
  unfold delete_first. destruct (Nat.ltb_spec i n) as [Hi|Hi].
  - destruct (decide (i < length l)%nat) as [Hl|Hl].
    + rewrite lookup_app_l by (rewrite length_map, length_take; lia). rewrite list_lookup_fmap, lookup_take_lt by done. done.
    + rewrite lookup_app_r by (rewrite length_map, length_take; lia). rewrite lookup_drop, (lookup_ge_None_2 l i) by lia.
      rewrite length_map, length_take. rewrite lookup_ge_None_2 by lia. done.
  - destruct (decide (n <= length l)%nat) as [Hl|Hl].
    + rewrite lookup_app_r by (rewrite length_map, length_take; lia). rewrite lookup_drop, length_map, length_take.
      replace (n + (i - n `min` length l))%nat with i by lia. by destruct (l !! i).
    + rewrite (lookup_ge_None_2 l i) by lia. rewrite lookup_ge_None_2; [done|]. rewrite length_app, length_map, length_take, length_drop. lia.
Qed.

Lemma delete_first_length n l : length (delete_first n l) = length l.
Proof. unfold delete_first. rewrite length_app, length_map, length_take, length_drop. lia. Qed.

#[global] Instance keep_only_last_laws : IndexDeletionPolicyLaws KeepOnlyLastCommit.
Proof. split. intros [] p l r p' l' [= <- <- <-]; apply delete_first_length. Qed.
#[global] Instance no_deletion_laws : IndexDeletionPolicyLaws NoDeletion.
Proof. split. by intros [] p l r p' l' [= <- <- <-]. Qed.
#[global] Instance keep_last_n_laws : IndexDeletionPolicyLaws KeepLastNCommits.
Proof. split. intros [] p l r p' l' [= <- <- <-]; apply delete_first_length. Qed.

(** [KeepLastNCommitsDeletionPolicy] is refused for a number that is not
    positive; otherwise it never fails, marks every commit but the newest
    [n], changes nothing else, and never marks the newest;
    [KeepOnlyLastCommitDeletionPolicy] is the same with one, and
    [NoDeletionPolicy] marks none. *)
Lemma policies_keep_the_newest (n : Z) (commits : list IndexCommit) :
  match keep_last_n_new n with
  | Err e => n <= 0 /\ e = IllegalArgument "number of recent commits to keep must be positive"
  | Ok p => 1 <= n /\ exists commits', on_commit (p, commits) = (Ok tt, (p, commits')) /\ on_init (p, commits) = (Ok tt, (p, commits')) /\
      (forall i, commits' !! i =
         (fun c => if Z.of_nat i <? zlen commits - n then delete_commit c else c) <$> commits !! i)
  end
  /\ (exists commits', on_commit (keep_only_last_commit, commits) = (Ok tt, (keep_only_last_commit, commits')) /\
       forall i, commits' !! i = (fun c => if Z.of_nat i <? zlen commits - 1 then delete_commit c else c) <$> commits !! i)
  /\ on_commit (no_deletion, commits) = (Ok tt, (no_deletion, commits)).
Proof.
  assert (Hd : forall k i, delete_first (length commits - Z.to_nat k) commits !! i =
    (fun c => if Z.of_nat i <? zlen commits - Z.max 0 k then delete_commit c else c) <$> commits !! i).
  { intros k i. rewrite delete_first_lookup. destruct (commits !! i); [|done]. cbn [fmap option_fmap option_map]. f_equal. unfold zlen.
    destruct (Nat.ltb_spec i (length commits - Z.to_nat k)), (Z.ltb_spec (Z.of_nat i) (Z.of_nat (length commits) - Z.max 0 k)); done || lia. }
  split; [|split; [|done]].
  - unfold keep_last_n_new. destruct (Z.leb_spec n 0); [done|]. split; [lia|]. eexists. split; [done|]. split; [done|].
    intros i. etransitivity; [exact (Hd n i)|]. by rewrite Z.max_r by lia.
  - eexists. split; [done|]. intros i. exact (Hd 1 i).
Qed.

(** ** Pins. *)
Lemma carry_back_lookup pinned l : forall w i c, l !! i = Some c ->
  exists c', carry_back pinned l w !! i = Some c' /\
    (c' = c \/ c' = delete_commit c /\ pinned !! generation c = None /\ exists d, w !! i = Some d /\ deleted d = true).
Proof.
  induction l as [|x l IH]; intros w i c Hi; [done|]. destruct w as [|d w]; [by exists c; split; [|left]|]. destruct i as [|i]; cbn in *.
  - injection Hi as ->. eexists. split; [done|]. destruct (deleted d) eqn:Ed; cbn [andb]; [|by left].
    case_bool_decide as Hp; cbn [negb]; [by left|]. right. split; [done|]. split; [by apply eq_None_not_Some|eauto].
  - by apply IH.
Qed.

Lemma carry_back_length pinned l : forall w, length (carry_back pinned l w) = length l.
Proof. induction l as [|c l IH]; intros [|d w]; cbn; [done..|]. by rewrite IH. Qed.

Lemma run_primary_length {P} `{IndexDeletionPolicy P} s init p l r p' l' :
  run_primary (P := P) s init (p, l) = (r, (p', l')) -> length l' = length l.
Proof.
  unfold run_primary. destruct ((if init then on_init else on_commit) (p, l)) as [[u|e] [p1 w]]; intros [= <- <- <-]; [|done].
  apply carry_back_length.
Qed.

(** Whatever the primary policy does, the snapshot policy keeps to the slice. *)
#[global] Instance snapshot_policy_laws {P} `{IndexDeletionPolicy P} : IndexDeletionPolicyLaws (SnapshotDeletionPolicy P).
Proof.
  split. intros [] sp l r sp' l' E; cbn [on_init on_commit snapshot_policy] in E.
  - unfold snapshot_on_init in E. destruct (run_primary _ true (primary sp, l)) as [[u|e] [p1 l1]] eqn:Er; injection E as <- <- <-;
      exact (run_primary_length _ _ _ _ _ _ _ Er).
  - unfold snapshot_on_commit in E. destruct (run_primary _ false (primary sp, l)) as [[u|e] [p1 l1]] eqn:Er; injection E as <- <- <-;
      exact (run_primary_length _ _ _ _ _ _ _ Er).
Qed.
#[global] Instance persistent_policy_laws {P} `{IndexDeletionPolicy P} : IndexDeletionPolicyLaws (Persistent P).
Proof.
  split. intros init p l r p' l' E.
  assert (Hi : exists i, (if init then on_init else on_commit) (inner p, l) = (r, (i, l'))).
  { destruct init; cbn [on_init on_commit persistent_policy] in E; [destruct (on_init _) as [r1 [i l1]]|destruct (on_commit _) as [r1 [i l1]]];
      injection E as <- <- <-; by exists i. }
  destruct Hi as [i Hi]. exact (law_length init _ _ _ _ _ Hi).
Qed.

Section pinning.
Context {P : Type} `{IndexDeletionPolicy P}.
Implicit Types sp : SnapshotDeletionPolicy P.

Definition pins sp : gmap Z Z := ref_counts (state sp).

Lemma remember_counts l : forall s, ref_counts (fold_left remember l s) = ref_counts s.
Proof.
  induction l as [|c l IH]; intros s; cbn [fold_left]; [done|]. rewrite IH. unfold remember. by destruct (ref_counts s !! generation c).
Qed.

Lemma run_primary_kept s init p l r p' l' : run_primary s init (p, l) = (r, (p', l')) ->
  forall i c, l !! i = Some c -> is_Some (ref_counts s !! generation c) -> l' !! i = Some c.
Proof.
  unfold run_primary. intros E i c Hi Hpin.
  destruct ((if init then on_init else on_commit) (p, l)) as [[u|e] [p1 w]]; injection E as <- <- <-; [|done].
  destruct (carry_back_lookup (ref_counts s) l w i c Hi) as (c' & Hc' & [->|(-> & Hn & _)]); [done|]. rewrite Hn in Hpin. by destruct Hpin.
Qed.

Lemma policy_call_kept (init : bool) sp l r sp' l' : (if init then on_init else on_commit) (sp, l) = (r, (sp', l')) ->
  pins sp' = pins sp /\ forall i c, l !! i = Some c -> is_Some (pins sp !! generation c) -> l' !! i = Some c.
Proof.
  unfold pins. intros E. destruct init; cbn [on_init on_commit snapshot_policy] in E.
  - unfold snapshot_on_init in E. destruct (run_primary _ true (primary sp, l)) as [[u|e] [p1 l1]] eqn:Er; injection E as <- <- <-;
      pose proof (run_primary_kept _ _ _ _ _ _ _ Er) as Hk; cbn [ref_counts] in Hk; [|done]. cbn [state].
    split; [|done]. destruct (list.last l1); unfold set_last; cbn [ref_counts]; by rewrite remember_counts.
  - unfold snapshot_on_commit in E. destruct (run_primary _ false (primary sp, l)) as [[u|e] [p1 l1]] eqn:Er; injection E as <- <- <-;
      pose proof (run_primary_kept _ _ _ _ _ _ _ Er) as Hk; done.
Qed.

(** What the users of the policy do, and the pins they hold: the
    generations, with repetition.  A snapshot or release that fails leaves
    both as they were ([snapshot_failed], [release_failed]). *)
Inductive pin_step : SnapshotDeletionPolicy P * list Z -> SnapshotDeletionPolicy P * list Z -> Prop :=
| pin_call (init : bool) sp l r sp' l' held :
    (if init then on_init else on_commit) (sp, l) = (r, (sp', l')) -> pin_step (sp, held) (sp', held)
| pin_snapshot sp c s' held : snapshot (state sp) = (Ok c, s') -> zlen held < 2 ^ 31 - 1 ->
    pin_step (sp, held) (mk_snapshot_policy (primary sp) s', generation c :: held)
| pin_release sp g s' h1 h2 : release_gen g (state sp) = (Ok tt, s') ->
    pin_step (sp, h1 ++ g :: h2) (mk_snapshot_policy (primary sp) s', h1 ++ h2).

Lemma snapshot_failed s e s' : snapshot s = (Err e, s') -> s' = s.
Proof. unfold snapshot. destruct (negb _); [by intros [= _ <-]|]. destruct (last_commit s); [done|by intros [= _ <-]]. Qed.

Lemma release_failed g s e s' : release_gen g s = (Err e, s') -> s' = s.
Proof.
  unfold release_gen, release_locked. destruct (negb _); [by intros [= _ <-]|]. destruct (ref_counts s !! g); [|by intros [= _ <-]].
  by destruct (_ =? 0).
Qed.

Fixpoint times (g : Z) (l : list Z) : Z := match l with [] => 0 | x :: l => (if decide (x = g) then 1 else 0) + times g l end.
Lemma times_app g l k : times g (l ++ k) = times g l + times g k.
Proof. induction l as [|x l IH]; cbn; [done|]. rewrite IH. lia. Qed.
Lemma times_range g l : 0 <= times g l <= zlen l.
Proof. induction l as [|x l IH]; cbn [times]; rewrite ?zlen_cons; [done|]. destruct (decide (x = g)); lia. Qed.

(** The counts are the pins held. *)
Definition counted (c : gmap Z Z) (held : list Z) : Prop :=
  forall g, c !! g = if decide (times g held = 0) then None else Some (times g held).

Lemma pin_step_counted x y : pin_step x y -> counted (pins x.1) x.2 -> zlen x.2 < 2 ^ 31 -> counted (pins y.1) y.2 /\ zlen y.2 < 2 ^ 31.
Proof.
  destruct 1 as [init sp l r sp' l' held E|sp c s' held E Hlt|sp g s' h1 h2 E]; cbn [fst snd]; intros Hc Hl.
  - destruct (policy_call_kept init sp l r sp' l' E) as [-> _]. done.
  - split; [|rewrite zlen_cons; lia]. unfold snapshot in E. destruct (negb _); [done|]. destruct (last_commit (state sp)) as [last|]; [|done].
    injection E as -> <-. intros g. unfold pins, snapshot_inc_ref. cbn [state times]. specialize (Hc (generation c)) as Hcc.
    pose proof (times_range (generation c) held). unfold pins in Hcc.
    destruct (ref_counts (state sp) !! generation c) as [k|] eqn:Ek; cbn [ref_counts];
      destruct (decide (times (generation c) held = 0)) as [Hz|Hz]; try discriminate.
    + injection Hcc as ->. destruct (decide (generation c = g)) as [<-|Hne].
      * rewrite lookup_insert_eq, decide_False by lia. f_equal. unfold i32_saturating_add. lia.
      * rewrite lookup_insert_ne by done. rewrite Z.add_0_l. exact (Hc g).
    + destruct (decide (generation c = g)) as [<-|Hne].
      * rewrite lookup_insert_eq, decide_False by lia. f_equal. unfold i32_saturating_add. lia.
      * rewrite lookup_insert_ne by done. rewrite Z.add_0_l. exact (Hc g).
  - unfold zlen in *. rewrite !length_app in *. cbn [length] in Hl. split; [|lia].
    unfold release_gen, release_locked in E. destruct (negb _); [done|]. specialize (Hc g) as Hg. unfold pins in Hg.
    rewrite times_app in Hg. cbn [times] in Hg. rewrite (decide_True (P := g = g)) in Hg by done.
    pose proof (times_range g h1). pose proof (times_range g h2). rewrite decide_False in Hg by lia. rewrite Hg in E.
    assert (Hsat : i32_saturating_add (times g h1 + (1 + times g h2)) (-1) = times g h1 + times g h2) by (unfold i32_saturating_add, zlen in *; lia).
    rewrite Hsat in E. intros x. specialize (Hc x) as Hx. rewrite times_app in Hx |- *. cbn [times] in Hx. unfold pins in *.
    destruct (Z.eqb_spec (times g h1 + times g h2) 0) as [Hz|Hz]; injection E as <-; cbn [state ref_counts].
    + destruct (decide (g = x)) as [->|Hne]; [by rewrite lookup_delete_eq, decide_True|]. rewrite lookup_delete_ne by done.
      rewrite Hx. by rewrite Z.add_0_l.
    + destruct (decide (g = x)) as [->|Hne]; [by rewrite lookup_insert_eq, decide_False|]. rewrite lookup_insert_ne by done.
      rewrite Hx. by rewrite Z.add_0_l.
Qed.

(** C12: a snapshot protects its commit.  However snapshots, releases and the
    writer's calls interleave, over whatever primary policy: the count of a
    generation is the number of snapshots of it not yet released, a release
    succeeds exactly when there is one (a policy no writer uses refuses), and a
    call of the policy hands every commit with a pinned generation back
    exactly as it came, whatever the primary policy decided. *)
Theorem snapshots_protect_their_commits (p : P) sp (held : list Z) (init : bool) l r sp' l' :
  rtc pin_step (snapshot_policy_new p, []) (sp, held) ->
  (if init then on_init else on_commit) (sp, l) = (r, (sp', l')) ->
  (forall g, ref_counts (state sp) !! g = if decide (times g held = 0) then None else Some (times g held)) /\
  (forall g, is_ok (release_gen g (state sp)).1 = init_called (state sp) && bool_decide (0 < times g held)) /\
  (forall i c, l !! i = Some c -> generation c ∈ held -> l' !! i = Some c).
Proof.
  intros Hs E. assert (Hc : counted (pins sp) held /\ zlen held < 2 ^ 31).
  { assert (H0 : forall x y, rtc pin_step x y -> counted (pins x.1) x.2 /\ zlen x.2 < 2 ^ 31 -> counted (pins y.1) y.2 /\ zlen y.2 < 2 ^ 31).
    { induction 1 as [|x y z Hxy _ IH]; [done|]. intros [H1 H2]. by apply IH, (pin_step_counted x y). }
    apply (H0 _ _ Hs). split; [|done]. intros g. done. }
  destruct Hc as [Hc Hl]. split; [exact Hc|]. split.
  - intros g. unfold release_gen, release_locked. destruct (init_called (state sp)); cbn [negb andb]; [|done].
    rewrite (Hc g : ref_counts (state sp) !! g = _). pose proof (times_range g held). destruct (decide (times g held = 0)) as [->|Hz]; [done|].
    rewrite bool_decide_eq_true_2 by lia. by destruct (_ =? 0).
  - intros i c Hi Hin. apply (proj2 (policy_call_kept init sp l r sp' l' E) i c Hi).
    rewrite (Hc (generation c)). rewrite decide_False; [eauto|]. clear -Hin. induction held as [|x held IH]; [by apply elem_of_nil in Hin|].
    cbn [times]. pose proof (times_range (generation c) held). apply elem_of_cons in Hin as [<-|Hin]; [rewrite decide_True by done; lia|].
    specialize (IH Hin). destruct (decide (x = generation c)); lia.
Qed.
End pinning.

(** ** The snapshots file. *)
Definition entry_bytes (e : Z * Z) : list byte := encode_varint (wrapu 64 e.1) ++ encode_varint (wrapu 32 e.2).

(** Pins the format can hold. *)
Record storable (c : gmap Z Z) : Prop := {
  storable_entries : map_Forall (fun g n => in_s 64 g /\ in_s 32 n) c;
  storable_size : Z.of_nat (size c) < 2 ^ 31;
}.

Lemma sorted_entries s : ref_counts_sorted s ≡ₚ map_to_list (ref_counts s).
Proof. apply merge_sort_Permutation. Qed.

Lemma sorted_length s : zlen (ref_counts_sorted s) = Z.of_nat (size (ref_counts s)).
Proof. unfold zlen. by rewrite (Permutation_length (sorted_entries s)), length_map_to_list. Qed.

Lemma snapshots_codec_ok : string_ok CODEC_NAME.
Proof. by vm_compute. Qed.

Lemma snapshots_file_bytes s : storable (ref_counts s) ->
  snapshots_file s = header_bytes CODEC_NAME VERSION_CURRENT ++ encode_varint (wrapu 32 (zlen (ref_counts_sorted s))) ++
    concat (map entry_bytes (ref_counts_sorted s)).
Proof.
  intros Hs. unfold snapshots_file. pose proof (storable_size _ Hs) as Hz. rewrite sorted_length, Z.min_l by lia.
  assert (Hf : forall l (out : list byte), fold_left (fun out e => write_vint e.2 (write_vlong e.1 out)) l out = out ++ concat (map entry_bytes l)).
  { induction l as [|e l IH]; intros out; cbn [fold_left map concat]; [by rewrite app_nil_r|]. rewrite IH.
    rewrite write_varint_bytes, write_varlong_bytes.
    unfold entry_bytes. by rewrite <- !app_assoc. }
  rewrite Hf. rewrite write_varint_bytes. rewrite <- app_assoc. f_equal.
Qed.

Lemma read_entries_spec l : forall m s bs, Forall (fun e => in_s 64 e.1 /\ in_s 32 e.2) l -> SliceInput.inv s ->
  SliceInput.as_slice s = concat (map entry_bytes l) ++ bs ->
  (read_entries (length l) m s).1 = Ok (fold_left (fun m e => <[e.1 := e.2]> m) l m).
Proof.
  induction l as [|e l IH]; intros m s bs Hl Hi Hv; cbn [length read_entries fold_left]; [done|].
  inversion Hl as [|? ? [H1 H2] Hl']; subst. cbn [map concat] in Hv. rewrite <- app_assoc in Hv.
  assert (Hr : reads (let* commit_gen := read_vlong in let* ref_count := read_vint in ret (commit_gen, ref_count)) (entry_bytes e) e).
  { unfold entry_bytes. eapply reads_bind; [by apply reads_vlong|]. eapply reads_map; [by apply reads_vint|]. by destruct e. }
  destruct (Hr s _ Hi Hv) as (s1 & E1 & Hi1 & Hv1). rewrite E1. destruct e as [g n]. by eapply IH.
Qed.

Lemma insert_all_map (l : list (Z * Z)) : NoDup l.*1 -> forall m : gmap Z Z,
  fold_left (fun m e => <[e.1 := e.2]> m) l m = list_to_map l ∪ m.
Proof.
  induction l as [|[g n] l IH]; intros Hnd m; cbn; [by rewrite map_empty_union|]. inversion Hnd as [|? ? Hni Hnd']; subst.
  rewrite IH by done. cbn. rewrite <- insert_union_l, insert_union_r; [done|]. by apply not_elem_of_list_to_map_1.
Qed.

Lemma read_snapshots_back s : storable (ref_counts s) -> bytes_ok (snapshots_file s) -> zlen (snapshots_file s) < 2 ^ 63 ->
  read_snapshots (snapshots_file s) = (None, ref_counts s).
Proof.
  intros Hs Hok Hl. assert (Hi : SliceInput.inv (SliceInput.new (snapshots_file s))) by by apply new_input_inv.
  pose proof (new_view (snapshots_file s)) as Hv. rewrite (snapshots_file_bytes s Hs) in Hv at 2. unfold read_snapshots.
  assert (Hn : zlen (ref_counts_sorted s) < 2 ^ 31) by (rewrite sorted_length; apply Hs).
  assert (Hr : reads (let* _ := check_header CODEC_NAME VERSION_START VERSION_START in read_vint)
    (header_bytes CODEC_NAME VERSION_CURRENT ++ encode_varint (wrapu 32 (zlen (ref_counts_sorted s)))) (zlen (ref_counts_sorted s))).
  { eapply reads_bind; [apply (check_header_reads CODEC_NAME VERSION_CURRENT snapshots_codec_ok); by vm_compute|].
    apply reads_vint. pose proof (zlen_nonneg (ref_counts_sorted s)). unfold in_s. change (32 - 1) with 31. lia. }
  rewrite app_assoc in Hv. destruct (Hr _ _ Hi Hv) as (s1 & E1 & Hi1 & Hv1). rewrite E1. rewrite Z.max_l by apply zlen_nonneg.
  unfold zlen. rewrite Nat2Z.id. rewrite <- (app_nil_r (concat _)) in Hv1.
  rewrite (read_entries_spec _ ∅ s1 []); [|..|exact Hi1|exact Hv1].
  - rewrite insert_all_map.
    + rewrite map_union_empty. f_equal. rewrite (list_to_map_proper _ (map_to_list (ref_counts s))).
      * apply list_to_map_to_list.
      * rewrite (sorted_entries s). apply NoDup_fst_map_to_list.
      * apply sorted_entries.
    + rewrite (sorted_entries s). apply NoDup_fst_map_to_list.
  - rewrite (sorted_entries s). apply Forall_forall. intros [g n] Hin%list_elem_of_In%elem_of_map_to_list. by apply (storable_entries _ Hs g n).
Qed.

(** ** Decimal, there and back. *)
Lemma decimal_digits_app s1 : forall s2 acc, 
  decimal_digits 1 (s1 ++ s2) acc = match decimal_digits 1 s1 acc with Some a => decimal_digits 1 s2 a | None => None end.
Proof.
  induction s1 as [|c s1 IH]; intros s2 acc; cbn [app decimal_digits]; [done|].
  destruct ((48 <=? c) && (c <=? 57)); [|done]. destruct (i64_checked (acc * 10)) as [m|]; [|done]. cbn [mbind option_bind].
  destruct (i64_checked (m + 1 * (c - 48))); [|done]. apply IH.
Qed.

Lemma decimal_digit d acc : 0 <= d <= 9 -> 0 <= acc -> acc * 10 + d < 2 ^ 63 -> decimal_digits 1 [48 + d] acc = Some (acc * 10 + d).
Proof.
  intros Hd Ha Hb. cbn [decimal_digits]. replace ((48 <=? 48 + d) && (48 + d <=? 57)) with true by bool_lia.
  unfold i64_checked. destruct (Z.leb_spec (- 2 ^ 63) (acc * 10)), (Z.ltb_spec (acc * 10) (2 ^ 63)); try lia. cbn [andb mbind option_bind].
  replace (acc * 10 + 1 * (48 + d - 48)) with (acc * 10 + d) by lia.
  destruct (Z.leb_spec (- 2 ^ 63) (acc * 10 + d)), (Z.ltb_spec (acc * 10 + d) (2 ^ 63)); try lia. done.
Qed.

Lemma decimal_loop_digits k : forall n, 0 <= n < 2 ^ 63 -> n < 10 ^ Z.of_nat k -> (0 < k)%nat ->
  decimal_digits 1 (decimal_loop k n) 0 = Some n /\ exists c rest, decimal_loop k n = c :: rest /\ 48 <= c <= 57.
Proof.
  induction k as [|k IH]; intros n Hn Hk Hpos; [lia|]. cbn [decimal_loop]. destruct (Z.ltb_spec n 10).
  - split; [by rewrite decimal_digit by lia|]. exists (48 + n), []. split; [done|lia].
  - assert (Hdiv := Z_div_mod_eq_full n 10). assert (Hmod := Z.mod_pos_bound n 10 ltac:(lia)).
    rewrite Nat2Z.inj_succ, Z.pow_succ_r in Hk by lia.
    destruct k as [|k]; [change (10 ^ Z.of_nat 0) with 1 in Hk; lia|].
    destruct (IH (n / 10)) as [H1 (c & rest & E & Hc)]; [lia|lia|lia|]. split.
    + rewrite decimal_digits_app, H1, decimal_digit by lia. f_equal. lia.
    + exists c, (rest ++ [48 + n mod 10]). by rewrite E.
Qed.

Lemma parse_to_decimal g : 0 <= g < 2 ^ 63 -> parse_i64 (to_decimal g) = Some g.
Proof.
  intros Hg. unfold to_decimal. destruct (Z.ltb_spec g 0); [lia|].
  destruct (decimal_loop_digits 19 g Hg) as [H1 (c & rest & E & Hc)]; [change (10 ^ Z.of_nat 19) with 10000000000000000000; lia|lia|].
  unfold parse_i64. rewrite E. rewrite <- E. destruct (Z.eqb_spec c 43), (Z.eqb_spec c 45); try lia. done.
Qed.

(** ** Restarting. *)
Section restart.
Context {P : Type} `{IndexDeletionPolicy P}.
Notation BD := ByteBuffersDirectory.t.
Notation BO := ByteBuffersDirectory.output.
Notation view := ByteBuffersDirectory.view.

Lemma load_loop_skip l1 l2 st (x : Persistent P * BD) : Forall (fun f => strip_prefix SNAPSHOTS_PREFIX f = None) l1 ->
  load_loop (O := BO) (l1 ++ l2) st x = load_loop (O := BO) l2 st x.
Proof. induction 1 as [|f l1 Hf _ IH]; cbn [app load_loop]; [done|]. by rewrite Hf. Qed.

Lemma snapshots_name_parts g : strip_prefix SNAPSHOTS_PREFIX (snapshots_file_name g) = Some (to_decimal g).
Proof. apply strip_prefix_app. Qed.

Lemma snapshots_name_inj g h : 0 <= g < 2 ^ 63 -> 0 <= h < 2 ^ 63 -> snapshots_file_name g = snapshots_file_name h -> g = h.
Proof.
  intros Hg Hh E%(f_equal (strip_prefix SNAPSHOTS_PREFIX)). rewrite !snapshots_name_parts in E. injection E as E.
  apply (f_equal parse_i64) in E. rewrite !parse_to_decimal in E by done. congruence.
Qed.

#[local] Opaque snapshots_file_name SNAPSHOTS_PREFIX.

(** No snapshots file but the one of generation [g] (none, for [-1]). *)
Definition only_snapshots (g : Z) (d : BD) : Prop :=
  forall f, is_Some (view d !! f) -> strip_prefix SNAPSHOTS_PREFIX f <> None -> 0 <= g /\ f = snapshots_file_name g.

Lemma load_only g file m (d : BD) q : 0 <= g < 2 ^ 63 - 1 -> only_snapshots g d -> view d !! snapshots_file_name g = Some (Some file) ->
  read_snapshots file = (None, m) ->
  load_prior_snapshots (P := P) (O := BO) (mk_persistent (snapshot_policy_new q) 0, d) =
    (Ok tt, (mk_persistent (mk_snapshot_policy q (mk_snapshots m ∅ None false)) (g + 1), d)).
Proof.
  intros Hg Honly Hfile Hread. destruct (ByteBuffersDirectory.list_all_spec d) as (l & El & Hnd & _ & Hl).
  assert (Hin : snapshots_file_name g ∈ l) by (apply Hl; eauto). apply list_elem_of_split in Hin as (l1 & l2 & ->).
  assert (Hskip : forall f, f ∈ l1 \/ f ∈ l2 -> strip_prefix SNAPSHOTS_PREFIX f = None).
  { intros f Hf. destruct (strip_prefix SNAPSHOTS_PREFIX f) eqn:Ef; [|done]. exfalso.
    assert (E : f = snapshots_file_name g) by (apply Honly; [apply Hl; set_solver|congruence]). subst f.
    apply list.NoDup_app in Hnd as (_ & Hd & Hnd). apply list.NoDup_cons in Hnd as [Hn2 _]. destruct Hf as [Hf|Hf]; [|done].
    by apply (Hd _ Hf), elem_of_cons; left. }
  unfold load_prior_snapshots. unfold bind at 1, on_dir. cbn [directory_list_all byte_buffers_index_directory]. rewrite El.
  unfold bind at 1. rewrite load_loop_skip by (apply Forall_forall; intros f Hf%list_elem_of_In; apply Hskip; by left).
  cbn [load_loop]. rewrite snapshots_name_parts, parse_to_decimal by lia. cbn [Z.eqb orb directory_open byte_buffers_index_directory].
  assert (Eo : ByteBuffersDirectory.open (snapshots_file_name g) d = (Ok file, d)).
  { rewrite ByteBuffersDirectory.view_lookup in Hfile. unfold ByteBuffersDirectory.open.
    destruct (ByteBuffersDirectory.files d !! snapshots_file_name g) as [e|]; [|done]. cbn in Hfile.
    destruct (ByteBuffersDirectory.entries d !! e) as [[c|]|]; cbn in Hfile; [by injection Hfile as ->|done..]. }
  cbn [Pos.eqb]. rewrite orb_true_l, Eo, Hread. cbn [app fmap option_fmap option_map].
  rewrite <- (app_nil_r l2), load_loop_skip by (apply Forall_forall; intros f Hf%list_elem_of_In; apply Hskip; by right).
  cbn [load_loop ret length Nat.ltb Nat.leb]. unfold bind, ret. destruct (Z.eqb_spec g (-1)); [lia|].
  unfold saturating_add1. by rewrite Z.min_r by lia.
Qed.

Lemma persist_in_memory (p : Persistent P) (d : BD) : ByteBuffersDirectory.inv d ->
  view d !! snapshots_file_name (next_write_gen p) = None ->
  exists d', persist (O := BO) (p, d) = (Ok tt, (mk_persistent (inner p) (saturating_add1 (next_write_gen p)), d')) /\
    ByteBuffersDirectory.inv d' /\
    view d' = let v := <[snapshots_file_name (next_write_gen p) := Some (snapshots_file (inner_state p))]> (view d) in
              if 0 <? next_write_gen p then delete (snapshots_file_name (next_write_gen p - 1)) v else v.
Proof.
  intros Hi Hnew. unfold persist. cbv zeta. set (g := next_write_gen p) in *. set (n := snapshots_file_name g) in *.
  set (file := snapshots_file (inner_state p)). clearbody n file.
  destruct (ByteBuffersDirectory.output_for n d) as [o d1] eqn:Eo.
  assert (Ecr : directory_create_output (O := BO) n d = (Ok o, d1)).
  { cbn. unfold ByteBuffersDirectory.create_output. rewrite ByteBuffersDirectory.file_exists_view.
    rewrite bool_decide_eq_false_2 by (rewrite Hnew; by apply is_Some_None). by rewrite Eo. }
  destruct (@law_create _ _ _ byte_buffers_index_directory_laws n d (Ok o) d1 Hi Ecr) as [Hi1 [Hv1 Ho]].
  destruct (@law_close _ _ _ byte_buffers_index_directory_laws n o file d1 (Ok tt) _ Hi1 Ho eq_refl) as [Hi2 Hv2].
  cbn [directory_view directory_wf byte_buffers_index_directory_laws] in *. set (d2 := ByteBuffersDirectory.publish o file d1) in *.
  assert (Ew : write_file (O := BO) n file d = (Ok tt, d2)) by (unfold write_file; erewrite bind_Ok; [|exact Ecr]; done).
  rewrite Ew. cbn [directory_sync byte_buffers_index_directory]. unfold ByteBuffersDirectory.sync, ret.
  assert (Hv : view d2 = <[n := Some file]> (view d)) by (by rewrite Hv2, Hv1, insert_insert_eq).
  destruct (Z.ltb_spec 0 g); [|by exists d2].
  assert (Hs : saturating_sub1 g = g - 1) by (unfold saturating_sub1; lia). rewrite Hs.
  destruct (directory_delete (snapshots_file_name (g - 1)) d2) as [r d3] eqn:E3. exists d3. split; [done|].
  destruct (@law_delete _ _ _ byte_buffers_index_directory_laws _ d2 r d3 Hi2 E3) as [Hi3 Hr]. split; [done|].
  cbn [directory_view byte_buffers_index_directory_laws] in Hr. rewrite Hv in Hr. destruct r; [done|]. cbn in E3.
  unfold ByteBuffersDirectory.delete_file in E3. destruct (ByteBuffersDirectory.files d2 !! _) eqn:Ef; [done|]. injection E3 as _ <-.
  rewrite Hv. symmetry. apply delete_id. rewrite <- Hv, ByteBuffersDirectory.view_lookup, Ef. done.
Qed.

(** C13: pins survive a restart.  In the in-memory directory, persisting pins
    the format can hold succeeds, and a policy built over the directory
    afterwards (unless asked to discard them) has exactly those counts and
    goes on with the next file; the file before is gone. *)
Theorem snapshots_survive_restart (p : Persistent P) (d : BD) (q : P) (mode : OpenMode) :
  ByteBuffersDirectory.inv d -> 0 <= next_write_gen p < 2 ^ 63 - 1 -> only_snapshots (next_write_gen p - 1) d ->
  storable (ref_counts (inner_state p)) -> bytes_ok (snapshots_file (inner_state p)) -> zlen (snapshots_file (inner_state p)) < 2 ^ 63 ->
  mode <> Create ->
  exists d', persist (O := BO) (p, d) = (Ok tt, (mk_persistent (inner p) (next_write_gen p + 1), d')) /\
    only_snapshots (next_write_gen p) d' /\
    exists p', persistent_new (O := BO) q mode d' = (Ok p', d') /\
      ref_counts (inner_state p') = ref_counts (inner_state p) /\ next_write_gen p' = next_write_gen p + 1.
Proof.
  intros Hi Hg Honly Hs Hok Hl Hmode. set (g := next_write_gen p) in *. set (n := snapshots_file_name g).
  set (file := snapshots_file (inner_state p)) in *.
  assert (Hnew : view d !! n = None).
  { apply eq_None_not_Some. intros Hn. destruct (Honly n Hn) as [H0 E]; [unfold n; by rewrite snapshots_name_parts|].
    apply snapshots_name_inj in E; lia. }
  destruct (persist_in_memory p d Hi Hnew) as (d' & E & Hi' & Hv'). fold g n file in E, Hv'.
  exists d'. split; [unfold saturating_add1 in E; by rewrite Z.min_r in E by lia|].
  assert (Honly' : only_snapshots g d').
  { intros f Hf Hp. split; [lia|]. rewrite Hv' in Hf. destruct (decide (f = n)); [done|]. exfalso.
    destruct (0 <? g) eqn:E0.
    - destruct (decide (f = snapshots_file_name (g - 1))) as [->|Hne]; [by rewrite lookup_delete_eq in Hf; destruct Hf|].
      rewrite lookup_delete_ne, lookup_insert_ne in Hf by done. by destruct (Honly f Hf Hp).
    - rewrite lookup_insert_ne in Hf by done. destruct (Honly f Hf Hp). apply Z.ltb_ge in E0. lia. }
  split; [done|].
  assert (Hfile : view d' !! n = Some (Some file)).
  { rewrite Hv'. destruct (0 <? g) eqn:E0; [|by rewrite lookup_insert_eq]. apply Z.ltb_lt in E0.
    rewrite lookup_delete_ne, lookup_insert_eq; [done|]. intros En. apply snapshots_name_inj in En; lia. }
  pose proof (load_only g file _ d' q Hg Honly' Hfile (read_snapshots_back _ Hs Hok Hl)) as Hload.
  exists (mk_persistent (mk_snapshot_policy q (mk_snapshots (ref_counts (inner_state p)) ∅ None false)) (g + 1)).
  split; [|done]. unfold persistent_new. rewrite bool_decide_eq_false_2 by done.
  erewrite bind_Ok; [|reflexivity]. erewrite bind_Ok; [|exact Hload]. cbn [next_write_gen].
  destruct (Z.eqb_spec (g + 1) 0); [lia|]. by rewrite andb_false_r.
Qed.
End restart.

(** ** Witnesses. *)
Definition sample_commit (g : Z) : IndexCommit := new_commit g (bytes "segments_" ++ to_decimal g) [] 0 [].

(** The writer opens on commit 1, which is then pinned; the third commit
    would have deleted it. *)
Definition opened : SnapshotDeletionPolicy KeepOnlyLastCommit :=
  (on_init (snapshot_policy_new keep_only_last_commit, [sample_commit 1])).2.1.
Definition pinned : SnapshotDeletionPolicy KeepOnlyLastCommit :=
  mk_snapshot_policy (primary opened) (snapshot_inc_ref (sample_commit 1) (state opened)).
Definition after_pin : SnapshotDeletionPolicy KeepOnlyLastCommit * list IndexCommit :=
  (on_commit (pinned, map sample_commit [1; 2; 3])).2.

Lemma pinned_reachable : rtc pin_step (snapshot_policy_new keep_only_last_commit, []) (pinned, [1]).
Proof.
  apply (rtc_l _ _ (opened, [])); [by apply (pin_call true _ [sample_commit 1] (Ok tt) _ [sample_commit 1])|].
  apply rtc_once. by apply (pin_snapshot opened (sample_commit 1)).
Qed.

Lemma snapshots_protect_their_commits_witness :
  ref_counts (state pinned) !! 1 = Some 1 /\ after_pin.2 !! 0%nat = Some (sample_commit 1) /\
  after_pin.2 !! 1%nat = Some (delete_commit (sample_commit 2)).
Proof.
  assert (E : on_commit (pinned, map sample_commit [1; 2; 3]) = (Ok tt, (after_pin.1, after_pin.2))) by done.
  destruct (snapshots_protect_their_commits keep_only_last_commit pinned [1] false _ _ _ _ pinned_reachable E) as (H1 & _ & H3).
  split; [exact (H1 1)|]. split; [apply H3; [done|by left]|done].
Defined.

(** A pin written to an empty directory. *)
Definition sample_pins : SnapshotState := mk_snapshots {[1 := 2]} ∅ None true.
Definition to_persist : Persistent KeepOnlyLastCommit := mk_persistent (mk_snapshot_policy keep_only_last_commit sample_pins) 0.

Lemma snapshots_survive_restart_witness :
  exists d' p', persist (O := ByteBuffersDirectory.output) (to_persist, ByteBuffersDirectory.new) =
      (Ok tt, (mk_persistent (inner to_persist) 1, d')) /\
    persistent_new (O := ByteBuffersDirectory.output) keep_only_last_commit Append d' = (Ok p', d') /\
    ref_counts (inner_state p') = {[1 := 2]}.
Proof.
  destruct (snapshots_survive_restart to_persist ByteBuffersDirectory.new keep_only_last_commit Append)
    as (d' & Ep & _ & p' & En & Hr & _).
  - apply ByteBuffersDirectory.new_directory_inv.
  - done.
  - intros f [c Hc]. by rewrite ByteBuffersDirectory.view_lookup in Hc.
  - split; [|done]. by apply map_Forall_singleton.
  - apply bytes_okb_ok. by vm_compute.
  - by vm_compute.
  - done.
  - by exists d', p'.
Defined.
End DeletionPolicy.
