(* ===== verification/IndexFileDeleter.v ===== *)
(** * The index file deleter ([lucene-index/src/index_file_deleter.rs])

    Counts, for every index file, the live commits, the writer's current view
    and the holders that name it, and deletes a file when its last reference
    goes: [IndexFileDeleter] and its operations, over any directory and any
    deletion policy; the names it recognises; and [inflate_gens], which steps
    a commit's counters past everything on disk.  What a segment's [.si]
    lists is the parameter [read_si], which [SegmentListing.v] defines.  The
    laws are in [IndexFileDeleterSpec.v], the ones of [inflate_gens] in
    [InflateGens.v]. *)
From stdpp Require Import gmap strings sorting.
From S2P Require Import Prelude StoreError SegmentNames ByteBuffersDirectory IndexDirectory SegmentInfos DeletionPolicy.

Module IndexFileDeleter.

(** ** Strings. *)
Definition ends_with (suffix s : list byte) : bool := starts_with (reverse suffix) (reverse s).
Fixpoint contains (needle s : list byte) : bool :=
  starts_with needle s || match s with [] => false | _ :: s => contains needle s end.
Fixpoint take_while (P : byte -> bool) (s : list byte) : list byte :=
  match s with
  | [] => []
  | c :: s => if P c then c :: take_while P s else []
  end.
Fixpoint split_on (sep : byte) (s : list byte) : list (list byte) :=
  match s with
  | [] => [[]]
  | c :: s =>
      if c =? sep then [] :: split_on sep s
      else match split_on sep s with p :: ps => (c :: p) :: ps | [] => [[c]] end
  end.
(** [s[..s.rfind(c)]], or [s]. *)
Definition before_last (c : byte) (s : list byte) : list byte :=
  match drop (length (take_while (fun x => negb (x =? c)) (reverse s))) (reverse s) with
  | [] => s
  | _ :: r => reverse r
  end.
Definition to_ascii_lowercase (s : list byte) : list byte :=
  map (fun c => if (65 <=? c) && (c <=? 90) then c + 32 else c) s.

(** ** The names the deleter touches. *)
(** ['\n', '\r', '\u{0085}', '\u{2028}', '\u{2029}'], encoded. *)
Definition line_terminators : list (list byte) := [[10]; [13]; [194; 133]; [226; 128; 168]; [226; 128; 169]].

Definition base_char (c : byte) : bool := ((97 <=? c) && (c <=? 122)) || ((48 <=? c) && (c <=? 57)).

Definition is_index_file_name (n : name) : bool :=
  if ends_with (bytes "write.lock") n then false
  else if starts_with (bytes "segments") n || starts_with (bytes "pending_segments") n then true
  else if existsb (fun c => contains c n) line_terminators then false
  else match strip_prefix (bytes "_") n with
       | None => false
       | Some rest =>
           let base_len := length (take_while base_char rest) in
           if Nat.eqb base_len 0 then false
           else match drop base_len rest with
                | [] => false
                | c :: tail => (c =? 46) || ((c =? 95) && bool_decide (46 ∈ tail))
                end
       end.

Definition is_segments_file_name (n : name) : bool :=
  starts_with (bytes "segments") n && negb (bool_decide (n = bytes "segments.gen")).

Definition usable_generation (parsed : option Z) : option Z :=
  match parsed with
  | Some g => if (0 <=? g) && (g <? SegmentInfos.MAX_GENERATION) then Some g else None
  | None => None
  end.

Definition parse_generation (file_name : name) : Z :=
  match strip_prefix (bytes "_") (before_last 46 file_name) with
  | None => 0
  | Some rest =>
      let parts := split_on 95 rest in
      if Nat.eqb (length parts) 2 || Nat.eqb (length parts) 4
      then default 0 (usable_generation (from_base36 (nth 1 parts [])))
      else 0
  end.

(** [is_char_boundary(1)]. *)
Definition boundary_at_one (n : name) : bool :=
  match n with
  | [] => false
  | [_] => true
  | _ :: c :: _ => negb ((128 <=? c) && (c <? 192))
  end.
Definition parse_segment_name (file_name : name) : name :=
  if boundary_at_one file_name
  then take (1 + length (take_while (fun c => negb ((c =? 95) || (c =? 46))) (drop 1 file_name))) file_name
  else file_name.

Definition to_option {E A} (r : result E A) : option A := match r with Ok a => Some a | Err _ => None end.

(** ** [inflate_gens]. *)
Record maxima : Type := mk_maxima {
  max_segment_gen : Z;
  max_segment_name : Z;
  max_per_segment_gen : gmap (list Z) Z;
}.

Definition raise (m : Z) (o : option Z) : Z := match o with Some g => Z.max m g | None => m end.

Definition scan_file (m : maxima) (file_name : name) : maxima :=
  if is_segments_file_name file_name then
    mk_maxima (raise (max_segment_gen m) (usable_generation (to_option (generation_from_segments_file_name file_name))))
      (max_segment_name m) (max_per_segment_gen m)
  else match strip_prefix (bytes "pending_segments") file_name with
  | Some rest =>
      mk_maxima (raise (max_segment_gen m) (usable_generation (to_option (generation_from_segments_file_name (bytes "segments" ++ rest)))))
        (max_segment_name m) (max_per_segment_gen m)
  | None =>
      if is_index_file_name file_name then
        if ends_with (bytes ".tmp") (to_ascii_lowercase file_name) then m
        else
          let segment_name := parse_segment_name file_name in
          let n := match strip_prefix (bytes "_") segment_name with Some r => from_base36 r | None => None end in
          mk_maxima (max_segment_gen m) (raise (max_segment_name m) (usable_generation n))
            (<[segment_name := Z.max (default 0 (max_per_segment_gen m !! segment_name)) (parse_generation file_name)]>
               (max_per_segment_gen m))
      else m
  end.

Definition scan (files : list name) : maxima := fold_left scan_file files (mk_maxima (- 2 ^ 63) (- 2 ^ 63) ∅).

Definition inflate_segment (gens : gmap (list Z) Z) (sci : SegmentInfos.SegmentCommitInfo) : SegmentInfos.SegmentCommitInfo :=
  let next := default 0 (gens !! SegmentInfos.segment_name sci) + 1 in
  let sci := if SegmentInfos.next_write_del_gen sci <? next then SegmentInfos.set_next_write_del_gen next sci else sci in
  let sci := if SegmentInfos.next_write_field_infos_gen sci <? next
             then SegmentInfos.set_next_write_field_infos_gen next sci else sci in
  if SegmentInfos.next_write_doc_values_gen sci <? next then SegmentInfos.set_next_write_doc_values_gen next sci else sci.

Definition inflate_gens (files : list name) (infos : SegmentInfos.t) : SegmentInfos.t :=
  let m := scan files in
  SegmentInfos.mk (SegmentInfos.id infos) (Z.max (SegmentInfos.generation infos) (max_segment_gen m))
    (SegmentInfos.format_version infos) (SegmentInfos.lucene_version infos) (SegmentInfos.index_created_version_major infos)
    (SegmentInfos.version infos) (Z.max (SegmentInfos.counter infos) (max_segment_name m + 1))
    (SegmentInfos.min_segment_lucene_version infos)
    (map (inflate_segment (max_per_segment_gen m)) (SegmentInfos.segments infos)) (SegmentInfos.user_data infos).

(** ** The deleter. *)
Inductive DeletionPolicy : Type := KeepOnlyLastCommit | KeepAll.
#[export] Instance DeletionPolicy_eq_dec : EqDecision DeletionPolicy.
Proof. solve_decision. Defined.

Record CommitPoint : Type := mk_point {
  cp_generation : Z;
  cp_segments_file_name : name;
  cp_files : list name;
  cp_segment_count : Z;
  cp_user_data : list (list byte * list byte);
}.

(** [sort_by_key], stable. *)
Fixpoint insert_point (c : CommitPoint) (l : list CommitPoint) : list CommitPoint :=
  match l with
  | [] => [c]
  | x :: l => if cp_generation c <=? cp_generation x then c :: x :: l else x :: insert_point c l
  end.
Definition sort_points (l : list CommitPoint) : list CommitPoint := foldr insert_point [] l.

Definition sort_names (l : list name) : list name := merge_sort (fun a b => Is_true (ByteBuffersDirectory.name_le a b)) l.

Inductive Error (SE : Type) : Type :=
| Store (e : StoreError.Error)
| SegmentInfo (e : SE)
| SegmentInfosError (e : SegmentInfos.Error)
| Policy (e : DeletionPolicy.Error)
| UnreferencedCommitFile (n : name).
Arguments Store {SE} _.
Arguments SegmentInfo {SE} _.
Arguments SegmentInfosError {SE} _.
Arguments Policy {SE} _.
Arguments UnreferencedCommitFile {SE} _.

Definition with_self_listing (segment_name : name) (files : list name) : list name :=
  let n := segment_name ++ bytes ".si" in if bool_decide (n ∈ files) then files else files ++ [n].

Section deleter.
Context {D O P SE : Type} `{IndexDirectory D O} `{DeletionPolicy.IndexDeletionPolicy P}.
Context (crc : list byte -> Z).
(** [.si] bytes, segment name, id and codec to the files it lists:
    [parse_simpletext] or [parse_for_codec]. *)
Context (read_si : list byte -> name -> list byte -> list byte -> result SE (list name)).

Record t : Type := mk {
  directory : D;
  policy : DeletionPolicy;
  custom : option P;
  ref_counts : gmap (list Z) Z;
  commits : list CommitPoint;
  last_files : list name;
  si_files : gmap (list Z) (list byte * list name);
  synced : gset (list Z);
}.
Notation F := (M (Error SE) t).

(** What deleting and counting change. *)
Definition set_tracked (d : D) (c : gmap (list Z) Z) (y : gset (list Z)) (s : t) : t :=
  mk d (policy s) (custom s) c (commits s) (last_files s) (si_files s) y.
Definition set_counts (c : gmap (list Z) Z) (s : t) : t := set_tracked (directory s) c (synced s) s.
Definition set_commits (l : list CommitPoint) (s : t) : t :=
  mk (directory s) (policy s) (custom s) (ref_counts s) l (last_files s) (si_files s) (synced s).
Definition set_last_files (l : list name) (s : t) : t :=
  mk (directory s) (policy s) (custom s) (ref_counts s) (commits s) l (si_files s) (synced s).
Definition set_si_files (m : gmap (list Z) (list byte * list name)) (s : t) : t :=
  mk (directory s) (policy s) (custom s) (ref_counts s) (commits s) (last_files s) m (synced s).
Definition set_custom (p : option P) (s : t) : t :=
  mk (directory s) (policy s) p (ref_counts s) (commits s) (last_files s) (si_files s) (synced s).
Definition set_builtin (p : DeletionPolicy) (s : t) : t :=
  mk (directory s) p (custom s) (ref_counts s) (commits s) (last_files s) (si_files s) (synced s).

(** [?] on a directory's result. *)
Definition on_dir {A} (m : M StoreError.Error D A) : F A := fun s =>
  match m (directory s) with
  | (Ok a, d) => (Ok a, set_tracked d (ref_counts s) (synced s) s)
  | (Err e, d) => (Err (Store e), set_tracked d (ref_counts s) (synced s) s)
  end.
Definition lift {E A} (wrap : E -> Error SE) (r : result E A) : F A := fun s =>
  match r with Ok a => (Ok a, s) | Err e => (Err (wrap e), s) end.

Definition ref_count (s : t) (n : name) : Z := default 0 (ref_counts s !! n).
Definition exists_ (s : t) (n : name) : bool := 0 <? ref_count s n.
Definition commit_generations (s : t) : list Z := map cp_generation (commits s).
Definition commit_file_names (s : t) : list name := map cp_segments_file_name (commits s).
Definition is_synced (s : t) (n : name) : bool := bool_decide (n ∈ synced s).

(** *** Deleting. *)
Fixpoint delete_pass (segments_pass : bool) (names : list name) (first : option (Error SE)) (s : t) : option (Error SE) * t :=
  match names with
  | [] => (first, s)
  | n :: names =>
      if Bool.eqb (is_segments_file_name n) segments_pass then
        let '(r, d) := directory_delete (O := O) n (directory s) in
        let s := set_tracked d (delete n (ref_counts s)) (synced s ∖ {[n]}) s in
        delete_pass segments_pass names (match r, first with Err e, None => Some (Store e) | _, _ => first end) s
      else delete_pass segments_pass names first s
  end.
Definition delete_files (names : list name) : F unit := fun s =>
  match delete_pass true names None s with
  | (Some e, s) => (Err e, s)
  | (None, s) =>
      match delete_pass false names None s with
      | (Some e, s) => (Err e, s)
      | (None, s) => (Ok tt, s)
      end
  end.

(** *** Counting. *)
Definition u32_saturating_add1 (n : Z) : Z := Z.min (2 ^ 32 - 1) (n + 1).
Definition u32_saturating_sub1 (n : Z) : Z := Z.max 0 (n - 1).

Fixpoint inc_ref_all (files : list name) (s : t) : t :=
  match files with
  | [] => s
  | n :: files => inc_ref_all files (set_counts (<[n := u32_saturating_add1 (ref_count s n)]> (ref_counts s)) s)
  end.

Fixpoint dec_loop (files : list name) (to_delete : list name) (s : t) : list name * t :=
  match files with
  | [] => (to_delete, s)
  | n :: files =>
      match ref_counts s !! n with
      | None => dec_loop files to_delete s
      | Some count =>
          let count := u32_saturating_sub1 count in
          if count =? 0 then dec_loop files (to_delete ++ [n]) (set_counts (delete n (ref_counts s)) s)
          else dec_loop files to_delete (set_counts (<[n := count]> (ref_counts s)) s)
      end
  end.
Definition dec_ref_all (files : list name) : F unit := fun s =>
  let '(to_delete, s) := dec_loop files [] s in delete_files to_delete s.

Definition unrefed_files (s : t) : list name :=
  sort_names (map fst (List.filter (fun e => e.2 =? 0) (map_to_list (ref_counts s)))).

(** *** The files of a commit. *)
Definition segment_info_files (sci : SegmentInfos.SegmentCommitInfo) : M (Error SE) D (list name) := fun d =>
  match directory_open (O := O) (SegmentInfos.segment_name sci ++ bytes ".si") d with
  | (Err e, d) => (Err (Store e), d)
  | (Ok b, d) =>
      match read_si b (SegmentInfos.segment_name sci) (SegmentInfos.segment_id sci) (SegmentInfos.codec_name sci) with
      | Err e => (Err (SegmentInfo e), d)
      | Ok files => (Ok (with_self_listing (SegmentInfos.segment_name sci) files), d)
      end
  end.

Definition put_si_files (sci : SegmentInfos.SegmentCommitInfo) (files : list name) (s : t) : t :=
  set_si_files (<[SegmentInfos.segment_name sci := (SegmentInfos.segment_id sci, files)]> (si_files s)) s.

Definition cached (s : t) (sci : SegmentInfos.SegmentCommitInfo) : bool :=
  match si_files s !! SegmentInfos.segment_name sci with
  | Some (i, _) => bool_decide (i = SegmentInfos.segment_id sci)
  | None => false
  end.
Definition ensure_si_files (sci : SegmentInfos.SegmentCommitInfo) : F unit := fun s =>
  if cached s sci then (Ok tt, s)
  else match segment_info_files sci (directory s) with
       | (Err e, d) => (Err e, set_tracked d (ref_counts s) (synced s) s)
       | (Ok files, d) => (Ok tt, put_si_files sci files (set_tracked d (ref_counts s) (synced s) s))
       end.
(** [.get(..).expect("just ensured above")]. *)
Definition ensured_files (s : t) (sci : SegmentInfos.SegmentCommitInfo) : list name :=
  SegmentInfos.files sci (match si_files s !! SegmentInfos.segment_name sci with Some (_, f) => f | None => [] end).

Fixpoint ensure_all (l : list SegmentInfos.SegmentCommitInfo) : F unit :=
  match l with
  | [] => ret tt
  | sci :: l => let* _ := ensure_si_files sci in ensure_all l
  end.

Definition commit_files (infos : SegmentInfos.t) (include_segments_file : bool) : F (list name) :=
  let out := if include_segments_file
             then match segments_file_name (SegmentInfos.generation infos) with Some n => [n] | None => [] end
             else [] in
  let* _ := ensure_all (SegmentInfos.segments infos) in
  fun s => (Ok (fold_left (fun out sci => fold_left SegmentInfos.push_new (ensured_files s sci) out)
                  (SegmentInfos.segments infos) out), s).

Definition record_segment_files (sci : SegmentInfos.SegmentCommitInfo) (files : list name) (s : t) : t :=
  put_si_files sci (with_self_listing (SegmentInfos.segment_name sci) files) s.
Definition forget_segment_files (s : t) : t := set_si_files ∅ s.

Definition forget_dead_segments (s : t) : t :=
  let referenced : gset (list Z) := list_to_set (map (fun e => parse_segment_name e.1) (map_to_list (ref_counts s))) in
  set_si_files (filter (fun e => e.1 ∈ referenced) (si_files s)) s.

(** *** Policies. *)
Definition index_commits (s : t) : list DeletionPolicy.IndexCommit :=
  map (fun c => DeletionPolicy.new_commit (cp_generation c) (cp_segments_file_name c) (cp_files c) (cp_segment_count c)
                  (cp_user_data c)) (commits s).

Fixpoint release_commits (doomed : list CommitPoint) : F unit :=
  match doomed with
  | [] => ret tt
  | c :: doomed => let* _ := dec_ref_all (cp_files c) in release_commits doomed
  end.

(** [commits.into_iter().zip(&list)]. *)
Definition decided (commits : list CommitPoint) (l : list DeletionPolicy.IndexCommit) (dead : bool) : list CommitPoint :=
  map fst (List.filter (fun e => Bool.eqb (DeletionPolicy.deleted e.2) dead) (List.combine commits l)).

Definition apply_policy (init : bool) : F unit := fun s =>
  match custom s with
  | Some p =>
      match (if init then DeletionPolicy.on_init else DeletionPolicy.on_commit) (p, index_commits s) with
      | (Err e, (p, _)) => (Err (Policy e), set_custom (Some p) s)
      | (Ok _, (p, l)) =>
          release_commits (decided (commits s) l true)
            (set_commits (decided (commits s) l false) (set_custom (Some p) s))
      end
  | None =>
      if bool_decide (policy s = KeepAll) || Nat.ltb (length (commits s)) 2 then (Ok tt, s)
      else let keep_from := (length (commits s) - 1)%nat in
           release_commits (take keep_from (commits s)) (set_commits (drop keep_from (commits s)) s)
  end.

(** *** Operations. *)
Definition point_of (infos : SegmentInfos.t) (segments_file_name : name) (files : list name) : CommitPoint :=
  mk_point (SegmentInfos.generation infos) segments_file_name files (zlen (SegmentInfos.segments infos)) (SegmentInfos.user_data infos).

Definition forget : F unit := fun s => (Ok tt, forget_dead_segments s).

Definition checkpoint (infos : SegmentInfos.t) (is_commit : bool) : F unit :=
  let* files := commit_files infos is_commit in
  let* _ := fun s => (Ok tt, inc_ref_all files s) in
  let* _ :=
    if is_commit then
      let* _ := fun s =>
        let n := default (bytes "segments") (segments_file_name (SegmentInfos.generation infos)) in
        (Ok tt, set_commits (sort_points (commits s ++ [point_of infos n files])) s) in
      apply_policy false
    else
      let* _ := fun s => dec_ref_all (last_files s) (set_last_files [] s) in
      fun s => (Ok tt, set_last_files files s) in
  forget.

Definition set_policy (p : DeletionPolicy) : F unit := fun s => apply_policy false (set_custom None (set_builtin p s)).
Definition set_custom_policy (p : P) : F unit := fun s =>
  let s := set_custom (Some p) s in
  match commits s with [] => (Ok tt, s) | _ => apply_policy false s end.
Definition revisit_policy : F unit := fun s =>
  match commits s with [] => (Ok tt, s) | _ => (let* _ := apply_policy false in forget) s end.

Definition drop_commits (generations : list Z) : F unit := fun s =>
  let newest := cp_generation <$> list.last (commits s) in
  let doomed c := negb (bool_decide (Some (cp_generation c) = newest)) && bool_decide (cp_generation c ∈ generations) in
  (let* _ := release_commits (List.filter doomed (commits s)) in forget)
    (set_commits (List.filter (fun c => negb (doomed c)) (commits s)) s).

Definition refresh : F unit :=
  let* files := on_dir (directory_list_all (O := O)) in
  fun s => delete_files (List.filter (fun n => is_index_file_name n && negb (exists_ s n)) files) s.

Definition delete_new_files (files : list name) : F unit :=
  let* _ := fun s => delete_files (List.filter (fun n => negb (exists_ s n)) files) s in forget.

Definition sync_commit_files (infos : SegmentInfos.t) : F unit :=
  let* files := commit_files infos false in
  fun s =>
    match List.filter (fun n => negb (is_synced s n)) files with
    | [] => (Ok tt, s)
    | to_sync =>
        (let* _ := on_dir (directory_sync (O := O) (sort_names to_sync)) in
         fun s => (Ok tt, set_tracked (directory s) (ref_counts s) (synced s ∪ list_to_set to_sync) s)) s
    end.

Fixpoint hold_loop (segments : list SegmentInfos.SegmentCommitInfo) (held : list name) : F (list name) :=
  match segments with
  | [] => ret held
  | sci :: segments => let* _ := ensure_si_files sci in fun s => hold_loop segments (held ++ ensured_files s sci) s
  end.
Definition hold_segment_files (segments : list SegmentInfos.SegmentCommitInfo) : F (list name) :=
  let* held := hold_loop segments [] in fun s => (Ok held, inc_ref_all held s).
Definition hold_files (files : list name) (s : t) : t := inc_ref_all files s.
Definition release_files (files : list name) : F unit := let* _ := dec_ref_all files in forget.

(** *** Opening. *)
Definition load_commit (file_name : name) : F unit :=
  let* generation := lift Store (generation_from_segments_file_name file_name) in
  let* b := on_dir (directory_open (O := O) file_name) in
  let* sis := lift SegmentInfosError (SegmentInfos.parse crc b generation) in
  let* files := commit_files sis true in
  fun s =>
    let s := inc_ref_all files s in
    let s := set_tracked (directory s) (ref_counts s) (synced s ∪ list_to_set files) s in
    (Ok tt, set_commits (commits s ++ [mk_point generation file_name files (zlen (SegmentInfos.segments sis)) (SegmentInfos.user_data sis)]) s).

Definition note_file (file_name : name) (s : t) : t :=
  match ref_counts s !! file_name with Some _ => s | None => set_counts (<[file_name := 0]> (ref_counts s)) s end.

Fixpoint load_files (files : list name) : F unit :=
  match files with
  | [] => ret tt
  | n :: files =>
      if is_index_file_name n then
        let* _ := fun s => (Ok tt, note_file n s) in
        let* _ := if is_segments_file_name n then load_commit n else ret tt in
        load_files files
      else load_files files
  end.

Fixpoint check_unrefed (names : list name) : F unit :=
  match names with
  | [] => ret tt
  | n :: names => if is_segments_file_name n then fail (UnreferencedCommitFile n) else check_unrefed names
  end.

Definition opening (current : SegmentInfos.t) : F unit :=
  let* files := on_dir (directory_list_all (O := O)) in
  let* _ := load_files files in
  let* _ := fun s => (Ok tt, set_commits (sort_points (commits s)) s) in
  let* _ := fun s => let unrefed := unrefed_files s in (let* _ := check_unrefed unrefed in delete_files unrefed) s in
  let* _ := checkpoint current false in
  apply_policy true.

(** The deleter is handed out only when opening succeeds. *)
Definition fresh (d : D) (p : DeletionPolicy) (c : option P) : t := mk d p c ∅ [] [] ∅ ∅.
Definition open_inner (d : D) (current : SegmentInfos.t) (p : DeletionPolicy) (c : option P) : result (Error SE) unit * t :=
  opening current (fresh d p c).
Definition open (d : D) (current : SegmentInfos.t) (p : DeletionPolicy) : result (Error SE) unit * t := open_inner d current p None.
Definition open_with_policy (d : D) (current : SegmentInfos.t) (p : P) : result (Error SE) unit * t :=
  open_inner d current KeepOnlyLastCommit (Some p).

(** ** Without a deleter. *)
Definition segment_files (sci : SegmentInfos.SegmentCommitInfo) : M (Error SE) D (list name) :=
  let* si := segment_info_files sci in ret (SegmentInfos.files sci si).
Fixpoint segments_files (l : list SegmentInfos.SegmentCommitInfo) (out : list name) : M (Error SE) D (list name) :=
  match l with
  | [] => ret out
  | sci :: l => let* f := segment_files sci in segments_files l (fold_left SegmentInfos.push_new f out)
  end.
Definition files_of_infos (infos : SegmentInfos.t) (include_segments_file : bool) : M (Error SE) D (list name) :=
  segments_files (SegmentInfos.segments infos)
    (if include_segments_file
     then match segments_file_name (SegmentInfos.generation infos) with Some n => [n] | None => [] end
     else []).
End deleter.
Arguments t D P : clear implicits.
End IndexFileDeleter.
