(* ===== verification/SegmentListing.v ===== *)
(** * What a segment's [.si] lists ([lucene-index/src/index_file_deleter.rs])

    [segment_info_files] opens a segment's descriptor and takes the files it
    lists.  [IndexFileDeleter.v] leaves the parsing to a reader; this is the
    one the code passes, built from [SegmentInfo.v] and [Codecs.v], with the
    SimpleText descriptor's text parser left a parameter.  Proved: the files
    found are the ones the descriptor was written with. *)
From stdpp Require Import gmap strings.
From S2P Require Import Prelude StoreError CodecUtil SegmentNames SegmentFile IndexDirectory ByteBuffersDirectory SegmentInfos Codecs SegmentInfo.
From S2P Require Import DeletionPolicy IndexFileDeleter.

Module SegmentListing.

Section reader.
Context (crc : list byte -> Z) (registered : list CodecFormats).
(** [parse_simpletext(&bytes, &segment_name, &segment_id)?.files]. *)
Context (simpletext_files : list byte -> name -> list byte -> result SegmentInfo.Error (list name)).

Definition read_si (b : list byte) (segment_name : name) (segment_id codec_name : list byte) : result SegmentInfo.Error (list name) :=
  if bool_decide (codec_name = bytes "SimpleText") then simpletext_files b segment_name segment_id
  else match SegmentInfo.parse_for_codec crc registered b segment_id codec_name with
       | Ok si => Ok (SegmentInfo.files si)
       | Err e => Err e
       end.

Context {D O : Type} `{IndexDirectoryLaws D O}.
Hypothesis crc_range : forall l, in_u 32 (crc l).

(** Over any lawful directory: for a segment whose codec is a current one,
    built in or registered, and whose descriptor in the directory is what
    [write] wrote, the deleter finds exactly the files written in it, and the
    descriptor itself, or fails as the directory does; nothing in the
    directory changes. *)
Lemma listed_files_are_the_written_ones (d d' : D) (sci : SegmentInfos.SegmentCommitInfo) (si : SegmentInfo.t) (c : CodecFormats)
    (file : list byte) (r : result (IndexFileDeleter.Error SegmentInfo.Error) (list name)) :
  directory_wf d -> directory_view d !! (SegmentInfos.segment_name sci ++ bytes ".si") = Some (Some file) ->
  SegmentInfo.info_ok si -> SegmentInfo.write crc si [] = Some file -> bytes_ok file -> zlen file < 2 ^ 63 ->
  SegmentInfo.id si = SegmentInfos.segment_id sci ->
  SegmentInfos.codec_name sci <> bytes "SimpleText" -> for_name registered (SegmentInfos.codec_name sci) = Some c -> segment_info c = Lucene99 ->
  IndexFileDeleter.segment_info_files (O := O) read_si sci d = (r, d') ->
  directory_view d' = directory_view d /\
  match r with
  | Ok l => l = IndexFileDeleter.with_self_listing (SegmentInfos.segment_name sci) (SegmentInfo.files si)
  | Err e => exists e', e = IndexFileDeleter.Store e'
  end.
Proof.
  intros Hwf Hv Hok Hw Hb Hl Hid Hst Hc H99. unfold IndexFileDeleter.segment_info_files.
  destruct (directory_open _ d) as [[b|e] d1] eqn:Eo; destruct (law_open _ _ _ _ Hwf Eo) as (_ & Hv1 & Hr).
  - rewrite Hv in Hr. injection Hr as ->. unfold read_si. rewrite bool_decide_eq_false_2 by done.
    unfold SegmentInfo.parse_for_codec. rewrite Hc, H99, <- Hid.
    destruct (SegmentInfo.parse_written crc crc_range si Hok) as (f & Hf & Hp). rewrite Hw in Hf. injection Hf as <-.
    specialize (Hp Hb Hl). unfold SegmentInfo.parse in Hp. rewrite Hp. by intros [= <- <-].
  - intros [= <- <-]. eauto.
Qed.
End reader.

Definition listed_segment : SegmentInfos.SegmentCommitInfo :=
  SegmentInfos.mk_sci (bytes "_0") (replicate 16 7) (bytes "Lucene104") (-1) 0 (-1) (-1) 0 None [] [] 0 0 0 (-1).

(** A directory holding only the descriptor. *)
Definition one_file (b : list byte) : ByteBuffersDirectory.t :=
  ByteBuffersDirectory.mk {[ bytes "_0.si" := 0%nat ]} {[ 0%nat := Some b ]} 1 0 [].

Lemma one_file_inv b : ByteBuffersDirectory.inv (one_file b).
Proof.
  split; [|split].
  - intros n m e. cbn. by intros [<- _]%lookup_singleton_Some [<- _]%lookup_singleton_Some.
  - intros n e. cbn. intros [_ <-]%lookup_singleton_Some. lia.
  - intros e. cbn. split; [intros [x [<- _]%lookup_singleton_Some]; lia|]. intros He. assert (e = 0%nat) as -> by lia.
    rewrite lookup_singleton_eq. by eexists.
Qed.

Lemma listed_files_are_the_written_ones_witness :
  exists file d', SegmentInfo.write ieee_crc32 SegmentInfo.sample [] = Some file /\
    directory_view (O := ByteBuffersDirectory.output) d' = directory_view (O := ByteBuffersDirectory.output) (one_file file) /\
    IndexFileDeleter.segment_info_files (O := ByteBuffersDirectory.output) (read_si ieee_crc32 [] (fun _ _ _ => Ok [])) listed_segment (one_file file)
      = (Ok [bytes "_0.cfs"; bytes "_0.cfe"; bytes "_0.si"], d').
Proof.
  destruct (SegmentInfo.write ieee_crc32 SegmentInfo.sample []) as [file|] eqn:Hf; [|vm_compute in Hf; discriminate Hf].
  assert (E : Some file = SegmentInfo.write ieee_crc32 SegmentInfo.sample []) by (by rewrite Hf). vm_compute in E.
  assert (Hb : bytes_ok file /\ zlen file < 2 ^ 63) by (injection E as ->; split; [by apply bytes_okb_ok|by vm_compute]).
  assert (Er : IndexFileDeleter.segment_info_files (O := ByteBuffersDirectory.output) (read_si ieee_crc32 [] (fun _ _ _ => Ok [])) listed_segment (one_file file)
      = (Ok [bytes "_0.cfs"; bytes "_0.cfe"; bytes "_0.si"], one_file file)) by (injection E as ->; by vm_compute).
  clear E. destruct Hb as [Hb Hl]. exists file, (one_file file). split; [done|]. split; [|exact Er].
  assert (Hc : for_name [] (bytes "Lucene104") = Some (mk_codec (bytes "Lucene104") Lucene99 Fields94 (bytes "Lucene104") (bytes "Lucene99HnswVectorsFormat") []))
    by by vm_compute.
  assert (Hv : directory_view (O := ByteBuffersDirectory.output) (one_file file) !! (SegmentInfos.segment_name listed_segment ++ bytes ".si") = Some (Some file))
    by (cbn [directory_view byte_buffers_index_directory_laws]; rewrite ByteBuffersDirectory.view_lookup; done).
  exact (proj1 (listed_files_are_the_written_ones ieee_crc32 [] (fun _ _ _ => Ok []) ieee_range (one_file file) (one_file file)
    listed_segment SegmentInfo.sample _ file _ (one_file_inv file) Hv SegmentInfo.sample_info_ok Hf Hb Hl eq_refl
    ltac:(intros Hx; vm_compute in Hx; discriminate Hx) Hc eq_refl Er)).
Defined.
End SegmentListing.
