(* ===== verification/InflateGens.v ===== *)
(** * Stepping past what is on disk

    [IndexFileDeleter::inflate_gens] ([IndexFileDeleter.v]): after a crash
    the directory holds files the last commit does not know.  Whatever its
    listing is, the counters it leaves are such that no name the next commit,
    the next segment or the next update of a segment uses is in it. *)
From stdpp Require Import gmap strings.
From S2P Require Import Prelude StoreError SegmentNames SegmentInfos IndexFileDeleter.

Module InflateGens.
Import IndexFileDeleter.

(** ** Names made of words. *)
Definition word_char (c : byte) : bool :=
  ((48 <=? c) && (c <=? 57)) || ((65 <=? c) && (c <=? 90)) || ((97 <=? c) && (c <=? 122)).
Definition word (w : list byte) : Prop := Forall (fun c => word_char c = true) w.
Definition base (w : list byte) : Prop := Forall (fun c => base_char c = true) w.

Lemma base_word_char c : base_char c = true -> word_char c = true.
Proof. unfold base_char, word_char. bool_lia. Qed.
Lemma base_word w : base w -> word w.
Proof. intros Hb. eapply list.Forall_impl; [exact Hb|]. apply base_word_char. Qed.

Lemma word_not c w : word w -> word_char c = false -> c ∉ w.
Proof. unfold word. intros Hw Hc Hin. rewrite Forall_forall in Hw. apply list_elem_of_In, Hw in Hin. congruence. Qed.

Lemma to_base36_base g : 0 <= g -> base (to_base36 g) /\ to_base36 g <> [].
Proof.
  intros Hg. unfold to_base36. destruct (Z.eqb_spec g 0); [split; [by repeat constructor|done]|]. destruct (Z.ltb_spec g 0); [lia|].
  assert (Hl : forall k n, 0 <= n -> base (base36_loop k n)).
  { induction k as [|k IH]; intros n' Hn; cbn [base36_loop]; [constructor|]. destruct (Z.ltb_spec 0 n'); [|constructor].
    constructor; [|apply IH, Z.div_pos; lia]. pose proof (Z.mod_pos_bound n' 36 ltac:(lia)) as Hm. unfold base_char, digit36.
    destruct (Z.ltb_spec (n' mod 36) 10); bool_lia. }
  split; [apply Forall_reverse, Hl; lia|]. change 13%nat with (Datatypes.S 12). cbn [base36_loop]. destruct (Z.ltb_spec 0 (Z.abs g)); [|lia].
  rewrite reverse_cons. intros E. by apply app_eq_nil in E as [_ [=]].
Qed.

Lemma take_while_stop P w c t : Forall (fun x => P x = true) w -> P c = false -> take_while P (w ++ c :: t) = w.
Proof. induction 1 as [|x w Hx _ IH]; intros Hc; cbn; [by rewrite Hc|]. by rewrite Hx, IH. Qed.
Lemma take_while_all P w : Forall (fun x => P x = true) w -> take_while P w = w.
Proof. induction 1 as [|x w Hx _ IH]; cbn; [done|]. by rewrite Hx, IH. Qed.

Lemma split_on_none sep w : sep ∉ w -> split_on sep w = [w].
Proof.
  induction w as [|c w IH]; intros Hn; cbn; [done|]. apply not_elem_of_cons in Hn as [Hc Hn]. destruct (Z.eqb_spec c sep); [congruence|].
  by rewrite IH.
Qed.
Lemma split_on_app sep w t : sep ∉ w -> split_on sep (w ++ sep :: t) = w :: split_on sep t.
Proof.
  induction w as [|c w IH]; intros Hn; cbn; [by rewrite Z.eqb_refl|]. apply not_elem_of_cons in Hn as [Hc Hn].
  destruct (Z.eqb_spec c sep); [congruence|]. by rewrite IH.
Qed.

Lemma before_last_app sep w t : sep ∉ t -> before_last sep (w ++ sep :: t) = w.
Proof.
  intros Hn. unfold before_last. rewrite reverse_app, reverse_cons, <- app_assoc. cbn [app].
  rewrite take_while_stop; [|apply Forall_forall; intros x Hx%list_elem_of_In; rewrite elem_of_reverse in Hx; apply negb_true_iff, Z.eqb_neq; congruence|
    by rewrite Z.eqb_refl].
  rewrite drop_app_length. by rewrite reverse_involutive.
Qed.

Lemma starts_with_in needle s : starts_with needle s = true -> forall c, c ∈ needle -> c ∈ s.
Proof.
  revert s. induction needle as [|x needle IH]; intros [|y s]; cbn; try done; [by intros _ c ?%elem_of_nil..|].
  intros [->%Z.eqb_eq Hs]%andb_true_iff c [->|Hc]%elem_of_cons; [by left|]. right. by eapply IH.
Qed.
Lemma contains_in needle s : contains needle s = true -> forall c, c ∈ needle -> c ∈ s.
Proof.
  induction s as [|y s IH]; cbn [contains]; intros Hc c Hin.
  - apply orb_true_iff in Hc as [Hc|Hc]; [|done]. by eapply starts_with_in.
  - apply orb_true_iff in Hc as [Hc|Hc]; [by eapply starts_with_in|]. right. by apply IH.
Qed.

(** ** The files an update of a segment writes: [_<seg>_<gen>.<ext>], and
    [_<seg>_<gen>_<format>_<n>.<ext>] for doc values. *)
Inductive update_ext : list byte -> Prop :=
| ext_liv : update_ext (bytes "liv")
| ext_fnm : update_ext (bytes "fnm")
| ext_dvd : update_ext (bytes "dvd")
| ext_dvm : update_ext (bytes "dvm").
Inductive update_suffix : list byte -> Prop :=
| no_suffix : update_suffix []
| format_suffix a b : word a -> word b -> update_suffix (95 :: a ++ 95 :: b).

Definition update_file (body : list byte) (gen : Z) (suffix ext : list byte) : name :=
  95 :: body ++ 95 :: to_base36 gen ++ suffix ++ 46 :: ext.

Lemma update_ext_word ext : update_ext ext -> word ext.
Proof. destruct 1; by repeat constructor. Qed.

Lemma liv_update_file body gen : gen <> 0 -> SegmentInfos.liv_file_name (95 :: body) gen = update_file body gen [] (bytes "liv").
Proof. intros Hg. unfold SegmentInfos.liv_file_name. destruct (Z.eqb_spec gen 0); [done|]. by cbn. Qed.

(** Every character is a word character, [_] or [.]. *)
Definition plain (c : byte) : Prop := word_char c = true \/ c = 95 \/ c = 46.
Lemma word_plain w : word w -> Forall plain w.
Proof. intros Hw. eapply list.Forall_impl; [exact Hw|]. by left. Qed.
Lemma update_suffix_plain suffix : update_suffix suffix -> Forall plain suffix.
Proof.
  intros [|a b Ha Hb]; [constructor|]. constructor; [by right; left|]. apply Forall_app. split; [by apply word_plain|].
  constructor; [by right; left|]. by apply word_plain.
Qed.

Section name.
Context (body suffix ext : list byte) (gen : Z).
Context (Hbody : base body) (Hne : body <> []) (Hsuf : update_suffix suffix) (Hext : update_ext ext) (Hgen : 0 <= gen).
Notation f := (update_file body gen suffix ext).

Lemma update_plain : Forall plain f.
Proof.
  unfold update_file. constructor; [by right; left|]. apply Forall_app. split; [by apply word_plain, base_word|].
  constructor; [by right; left|]. apply Forall_app. split; [apply word_plain, base_word, to_base36_base, Hgen|].
  apply Forall_app. split; [by apply update_suffix_plain|]. constructor; [by right; right|]. by apply word_plain, update_ext_word.
Qed.

Lemma update_ends p : p <> 118 -> p <> 109 -> p <> 100 -> forall w g, Forall (fun c => g c = c) ext -> 
  ends_with (w ++ [p]) (map g f) = false.
Proof.
  intros H1 H2 H3 w g Hg. unfold ends_with, update_file. rewrite !app_comm_cons, !app_assoc, map_app, !reverse_app, reverse_singleton.
  cbn [map]. rewrite (map_ext_Forall g id) by done. rewrite map_id, reverse_cons, <- app_assoc. clear Hg.
  destruct Hext; cbn; apply andb_false_intro1, Z.eqb_neq; assumption.
Qed.

Lemma update_no_terminator : existsb (fun c => contains c f) line_terminators = false.
Proof.
  assert (Hc : forall c t, word_char c = false -> c <> 95 -> c <> 46 -> contains (c :: t) f = false).
  { intros c t Hw H95 H46. destruct (contains (c :: t) f) eqn:E; [|done]. exfalso. pose proof (contains_in _ _ E c ltac:(by left)) as Hin.
    pose proof update_plain as Hp. rewrite Forall_forall in Hp. apply list_elem_of_In, Hp in Hin. destruct Hin as [?|[?|?]]; congruence. }
  unfold line_terminators. cbn [existsb]. by rewrite !Hc.
Qed.

Lemma update_is_index : is_index_file_name f = true.
Proof.
  unfold is_index_file_name.
  assert (Hl : ends_with (bytes "write.lock") f = false).
  { rewrite <- (map_id f). apply (update_ends 107 ltac:(done) ltac:(done) ltac:(done) (bytes "write.loc") id). by apply Forall_forall. }
  rewrite Hl, update_no_terminator. unfold update_file. cbn [bytes starts_with]. change (starts_with (bytes "segments") (95 :: ?x)) with false.
  change (starts_with (bytes "pending_segments") (95 :: ?x)) with false. cbn [orb].
  change (strip_prefix (bytes "_") (95 :: ?x)) with (Some x). cbv iota beta.
  rewrite take_while_stop by done. destruct (Nat.eqb_spec (length body) 0) as [E|_]; [by apply length_zero_iff_nil in E|].
  rewrite drop_app_length. cbn [Z.eqb Pos.eqb orb andb]. apply bool_decide_eq_true. rewrite !elem_of_app, elem_of_cons. tauto.
Qed.

Lemma update_not_tmp : ends_with (bytes ".tmp") (to_ascii_lowercase f) = false.
Proof.
  apply (update_ends 112 ltac:(done) ltac:(done) ltac:(done) (bytes ".tm")). destruct Hext; by repeat constructor.
Qed.

Lemma no_underscore w : word w -> 95 ∉ w.
Proof. intros Hw. by apply (word_not 95). Qed.
Lemma no_dot w : word w -> 46 ∉ w.
Proof. intros Hw. by apply (word_not 46). Qed.

Lemma update_segment_name : parse_segment_name f = 95 :: body.
Proof.
  assert (Hb : boundary_at_one f = true).
  { unfold update_file. destruct body as [|c t]; [done|]. cbn. inversion_clear Hbody as [|?? Hc _]. apply negb_true_iff. unfold base_char in Hc. bool_lia. }
  unfold parse_segment_name. rewrite Hb.
  assert (Hd : drop 1 f = body ++ 95 :: to_base36 gen ++ suffix ++ 46 :: ext) by done. rewrite Hd, take_while_stop.
  - unfold update_file. cbn [Nat.add take]. f_equal. by rewrite take_app_length.
  - eapply list.Forall_impl; [exact Hbody|]. intros c Hc. apply base_word_char in Hc. unfold word_char in Hc. bool_lia.
  - done.
Qed.

Lemma update_generation : gen < SegmentInfos.MAX_GENERATION -> parse_generation f = gen.
Proof.
  intros Hmax. unfold parse_generation, update_file. destruct (to_base36_base gen Hgen) as [Hg Hgn].
  rewrite !app_comm_cons, !app_assoc, before_last_app; [|by apply no_dot, update_ext_word].
  rewrite <- !app_assoc. cbn [app]. change (strip_prefix (bytes "_") (95 :: ?x)) with (Some x). cbv iota beta.
  rewrite split_on_app by (by apply no_underscore, base_word).
  assert (Hu : usable_generation (from_base36 (to_base36 gen)) = Some gen).
  { rewrite from_to_base36; [|split; [lia|]].
    - unfold usable_generation. replace ((0 <=? gen) && (gen <? SegmentInfos.MAX_GENERATION)) with true by bool_lia. done.
    - eapply Z.lt_trans; [exact Hmax|]. by vm_compute. }
  destruct Hsuf as [|a b Ha Hb].
  - rewrite app_nil_r, split_on_none by (by apply no_underscore, base_word). cbn [length Nat.eqb orb nth]. by rewrite Hu.
  - rewrite split_on_app by (by apply no_underscore, base_word). rewrite split_on_app by (by apply no_underscore).
    rewrite split_on_none by (by apply no_underscore). cbn [length Nat.eqb orb nth]. by rewrite Hu.
Qed.
End name.

(** ** What a scan has seen. *)
Notation gens m := (max_per_segment_gen m).
Definition seen_at_least (m m' : maxima) : Prop :=
  max_segment_gen m <= max_segment_gen m' /\ max_segment_name m <= max_segment_name m' /\
  forall n, default 0 (gens m !! n) <= default 0 (gens m' !! n).

Lemma raise_ge m o : m <= raise m o /\ forall g, o = Some g -> g <= raise m o.
Proof. destruct o as [g|]; cbn; [split; [lia|]; intros g' [= ->]; lia|split; [lia|done]]. Qed.

Lemma scan_file_grows m n : seen_at_least m (scan_file m n).
Proof.
  unfold scan_file. destruct (is_segments_file_name n); [|destruct (strip_prefix _ n); [|destruct (is_index_file_name n); [destruct (ends_with _ _)|]]];
    (split; [|split]); cbn; try done; try apply (proj1 (raise_ge _ _)).
  intros k. destruct (decide (k = parse_segment_name n)) as [->|]; [rewrite lookup_insert_eq; cbn; lia|by rewrite lookup_insert_ne].
Qed.

Lemma seen_trans m1 m2 m3 : seen_at_least m1 m2 -> seen_at_least m2 m3 -> seen_at_least m1 m3.
Proof. intros (H1 & H2 & H3) (K1 & K2 & K3). split; [lia|]. split; [lia|]. intros n. specialize (H3 n). specialize (K3 n). lia. Qed.

Lemma scan_grows files : forall m, seen_at_least m (fold_left scan_file files m).
Proof.
  induction files as [|n files IH]; intros m; cbn [fold_left]; [split; [done|]; split; [done|]; done|].
  eapply seen_trans; [apply scan_file_grows|apply IH].
Qed.

Lemma scan_includes files n : n ∈ files -> exists m, seen_at_least (scan_file m n) (scan files).
Proof.
  unfold scan. generalize (mk_maxima (- 2 ^ 63) (- 2 ^ 63) ∅). induction files as [|x files IH]; intros m Hn; [by apply elem_of_nil in Hn|].
  apply elem_of_cons in Hn as [->|Hn]; cbn [fold_left]; [exists m; apply scan_grows|by apply IH].
Qed.

(** ** Which names a listing rules out. *)
Lemma usable_ok g : 0 <= g < SegmentInfos.MAX_GENERATION -> usable_generation (Some g) = Some g.
Proof. intros Hg. unfold usable_generation. by replace ((0 <=? g) && (g <? SegmentInfos.MAX_GENERATION)) with true by bool_lia. Qed.
Lemma max_generation_s64 g : 0 <= g < SegmentInfos.MAX_GENERATION -> in_s 64 g.
Proof. intros Hg. split; [lia|]. eapply Z.lt_trans; [apply Hg|]. by vm_compute. Qed.

Lemma commit_name_seen files g n : 0 <= g < SegmentInfos.MAX_GENERATION -> segments_file_name g = Some n \/ pending_segments_file_name g = Some n ->
  n ∈ files -> g <= max_segment_gen (scan files).
Proof.
  intros Hg Hn Hin. destruct (scan_includes files n Hin) as (m & Hs & _). etransitivity; [|exact Hs].
  destruct (segments_name_spec g (max_generation_s64 g Hg)) as (sn & Esn & Hgen & Hcand); [lia|].
  assert (Hu : usable_generation (to_option (generation_from_segments_file_name sn)) = Some g) by (rewrite Hgen; by apply usable_ok).
  destruct Hn as [Hn|Hn].
  - rewrite Esn in Hn. injection Hn as ->. unfold scan_file.
    replace (is_segments_file_name n) with true; [by apply raise_ge|]. symmetry. unfold is_segments_candidate in Hcand.
    apply andb_true_iff in Hcand as [H1 H2]. apply andb_true_iff. split; [exact H1|]. rewrite bool_decide_eq_false_2; [done|]. by intros ->.
  - assert (En : exists rest, n = bytes "pending_segments" ++ rest /\ sn = bytes "segments" ++ rest).
    { unfold pending_segments_file_name in Hn. unfold segments_file_name in Esn. destruct (Z.ltb_spec g 0); [lia|].
      destruct (Z.eqb_spec g (-1)); [lia|]. destruct (g =? 0); injection Hn as <-; injection Esn as <-; [by exists []|].
      by exists (bytes "_" ++ to_base36 g). }
    destruct En as (rest & -> & ->). unfold scan_file. change (is_segments_file_name (bytes "pending_segments" ++ rest)) with false.
    cbv iota. rewrite strip_prefix_app. by apply raise_ge.
Qed.

Lemma segment_name_seen files f c : 0 <= c < SegmentInfos.MAX_GENERATION -> f ∈ files -> is_segments_file_name f = false ->
  strip_prefix (bytes "pending_segments") f = None -> is_index_file_name f = true -> ends_with (bytes ".tmp") (to_ascii_lowercase f) = false ->
  parse_segment_name f = bytes "_" ++ to_base36 c -> c <= max_segment_name (scan files).
Proof.
  intros Hc Hin H1 H2 H3 H4 Hn. destruct (scan_includes files f Hin) as (m & _ & Hs & _). etransitivity; [|exact Hs].
  unfold scan_file. rewrite H1, H2, H3, H4, Hn. cbn [max_segment_name]. rewrite strip_prefix_app, from_to_base36 by by apply max_generation_s64.
  rewrite usable_ok by done. by apply raise_ge.
Qed.

Lemma update_file_seen files body gen suffix ext : base body -> body <> [] -> update_suffix suffix -> update_ext ext ->
  0 <= gen < SegmentInfos.MAX_GENERATION -> update_file body gen suffix ext ∈ files -> gen <= default 0 (gens (scan files) !! (95 :: body)).
Proof.
  intros Hb Hne Hs Hx Hg Hin. destruct (scan_includes files _ Hin) as (m & _ & _ & Hseen). etransitivity; [|apply Hseen].
  unfold scan_file. change (is_segments_file_name (update_file body gen suffix ext)) with false. cbv iota.
  change (strip_prefix (bytes "pending_segments") (update_file body gen suffix ext)) with (@None (list byte)). cbv iota.
  rewrite update_is_index, update_not_tmp, update_segment_name, update_generation by (done || lia). cbn [max_per_segment_gen].
  rewrite lookup_insert_eq. cbn. lia.
Qed.

(** ** What inflating does to a segment. *)
Import SegmentInfos.
Lemma derive_set v g : v <> 0 -> derive_next_gen v g = v.
Proof. intros Hv. unfold derive_next_gen. by destruct (Z.eqb_spec v 0). Qed.

(** Each of the three comparisons touches its own counter. *)
Lemma raise_gen (next : Z) (set : Z -> SegmentCommitInfo -> SegmentCommitInfo) (get : SegmentCommitInfo -> Z) sci : next <> 0 ->
  (exists g, get (set next sci) = derive_next_gen next g) ->
  get (if get sci <? next then set next sci else sci) = Z.max (get sci) next.
Proof. intros Hn [g Hs]. rewrite derive_set in Hs by done. destruct (Z.ltb_spec (get sci) next); [rewrite Hs|]; lia. Qed.

Lemma inflate_segment_spec m sci : 0 <= default 0 (m !! segment_name sci) ->
  let next := default 0 (m !! segment_name sci) + 1 in let sci' := inflate_segment m sci in
  segment_name sci' = segment_name sci /\
  next_write_del_gen sci' = Z.max (next_write_del_gen sci) next /\
  next_write_field_infos_gen sci' = Z.max (next_write_field_infos_gen sci) next /\
  next_write_doc_values_gen sci' = Z.max (next_write_doc_values_gen sci) next.
Proof.
  intros H0 next sci'. unfold sci', inflate_segment. fold next. assert (Hn : next <> 0) by lia. clearbody next. clear H0 sci'.
  set (s1 := if next_write_del_gen sci <? next then _ else _).
  set (s2 := if next_write_field_infos_gen s1 <? next then _ else _).
  set (s3 := if next_write_doc_values_gen s2 <? next then _ else _).
  assert (H1 : segment_name s1 = segment_name sci /\ next_write_field_infos_gen s1 = next_write_field_infos_gen sci /\
    next_write_doc_values_gen s1 = next_write_doc_values_gen sci) by (unfold s1; by destruct (next_write_del_gen sci <? next)).
  assert (H2 : segment_name s2 = segment_name s1 /\ next_write_del_gen s2 = next_write_del_gen s1 /\
    next_write_doc_values_gen s2 = next_write_doc_values_gen s1) by (unfold s2; by destruct (next_write_field_infos_gen s1 <? next)).
  assert (H3 : segment_name s3 = segment_name s2 /\ next_write_del_gen s3 = next_write_del_gen s2 /\
    next_write_field_infos_gen s3 = next_write_field_infos_gen s2) by (unfold s3; by destruct (next_write_doc_values_gen s2 <? next)).
  destruct H1 as (N1 & F1 & V1), H2 as (N2 & D2 & V2), H3 as (N3 & D3 & F3). rewrite N3, N2, N1, D3, D2, F3, <- F1, <- V1, <- V2.
  split; [done|]. split; [|split].
  - apply (raise_gen next set_next_write_del_gen next_write_del_gen); [done|by eexists].
  - apply (raise_gen next set_next_write_field_infos_gen next_write_field_infos_gen); [done|by eexists].
  - apply (raise_gen next set_next_write_doc_values_gen next_write_doc_values_gen); [done|by eexists].
Qed.

(** C9: nothing on disk is in the way.  After [inflate_gens] over a listing,
    no counter is lower than before, and for generations below the format's
    bound: the name of no later commit, pending or published, is in the
    listing; no index file listed belongs to a segment with a name still to be
    given; and no [.liv], field-infos or doc-values file an update of a
    segment of the commit is still to write is listed. *)
Theorem inflated_generations_are_fresh (files : list name) (infos : t) :
  let infos' := inflate_gens files infos in
  (forall g n, generation infos' < g < MAX_GENERATION -> 0 <= g ->
     segments_file_name g = Some n \/ pending_segments_file_name g = Some n -> n ∉ files) /\
  (forall c f, counter infos' <= c < MAX_GENERATION -> 0 <= c -> f ∈ files -> is_segments_file_name f = false ->
     strip_prefix (bytes "pending_segments") f = None -> is_index_file_name f = true ->
     ends_with (bytes ".tmp") (to_ascii_lowercase f) = false -> parse_segment_name f <> bytes "_" ++ to_base36 c) /\
  (forall sci body gen suffix ext, sci ∈ segments infos' -> segment_name sci = 95 :: body -> base body -> body <> [] ->
     update_suffix suffix -> update_ext ext -> 0 <= gen < MAX_GENERATION ->
     next_write_del_gen sci <= gen \/ next_write_field_infos_gen sci <= gen \/ next_write_doc_values_gen sci <= gen ->
     update_file body gen suffix ext ∉ files) /\
  generation infos <= generation infos' /\ counter infos <= counter infos' /\
  Forall2 (fun old new => segment_name new = segment_name old /\ next_write_del_gen old <= next_write_del_gen new /\
    next_write_field_infos_gen old <= next_write_field_infos_gen new /\ next_write_doc_values_gen old <= next_write_doc_values_gen new)
    (segments infos) (segments infos').
Proof.
  intros infos'. assert (H0 : forall n, 0 <= default 0 (gens (scan files) !! n)).
  { intros n. destruct (scan_grows files (mk_maxima (- 2 ^ 63) (- 2 ^ 63) ∅)) as (_ & _ & Hg). exact (Hg n). }
  unfold infos', inflate_gens. cbn [generation counter segments]. split; [|split; [|split; [|split; [lia|split; [lia|]]]]].
  - intros g n Hg Hg0 Hn Hin. pose proof (commit_name_seen files g n ltac:(lia) Hn Hin). lia.
  - intros c f Hc Hc0 Hin H1 H2 H3 H4 Hn. pose proof (segment_name_seen files f c ltac:(lia) Hin H1 H2 H3 H4 Hn). lia.
  - intros sci body gen suffix ext Hsci Hname Hb Hne Hs Hx Hg Hle Hin. apply list_elem_of_In, in_map_iff in Hsci as (old & <- & _).
    destruct (inflate_segment_spec (gens (scan files)) old (H0 _)) as (N & D & F & V). rewrite N in Hname. rewrite D, F, V, Hname in Hle.
    pose proof (update_file_seen files body gen suffix ext Hb Hne Hs Hx Hg Hin). lia.
  - clear infos'. induction (segments infos) as [|old l IH]; cbn [map]; constructor; [|exact IH].
    destruct (inflate_segment_spec (gens (scan files)) old (H0 _)) as (N & D & F & V). rewrite N, D, F, V. split; [done|]. lia.
Qed.

(** A crash left the pending commit after the sample one, a segment and two
    live-docs files behind. *)
Definition left_behind : list name := [bytes "_0_7.liv"; bytes "_k.si"; bytes "pending_segments_d"; bytes "segments_c"].

Definition inflated_segment : SegmentCommitInfo := inflate_segment (gens (scan left_behind)) sample_segment.

Lemma inflated_generations_are_fresh_witness :
  bytes "segments_e" ∉ left_behind /\ parse_segment_name (bytes "_k.si") <> bytes "_" ++ to_base36 21 /\
  update_file (bytes "0") 8 [] (bytes "liv") ∉ left_behind /\ next_write_del_gen inflated_segment = 8.
Proof.
  destruct (inflated_generations_are_fresh left_behind sample) as (H1 & H2 & H3 & _). split; [|split; [|split]].
  - apply (H1 14); [split; by vm_compute|done|left; by vm_compute].
  - apply (H2 21 (bytes "_k.si")); [split; by vm_compute|done|right; by left|by vm_compute..].
  - apply (H3 inflated_segment (bytes "0") 8 [] (bytes "liv")); [by left|by vm_compute|by repeat constructor|done|constructor|constructor|
      split; by vm_compute|left; by vm_compute].
  - by vm_compute.
Defined.
End InflateGens.
