(* ===== verification/IndexFileDeleterSpec.v ===== *)
(** * The index file deleter: what it counts and what it deletes

    Laws of [IndexFileDeleter.v], over any lawful directory, whatever call
    fails: the counts are the references of the live commits, the current
    view and the holders; a step deletes exactly what lost its last
    reference; and a commit file that is still there after a step has lost
    none of its files. *)
From stdpp Require Import gmap strings sorting.
From S2P Require Import Prelude StoreError CodecUtil SegmentNames ByteBuffersDirectory FileDeleter IndexDirectory SegmentInfos DeletionPolicy.
From S2P Require Import IndexFileDeleter.

Module IndexFileDeleterSpec.
Import IndexFileDeleter.
Notation occ := FileDeleter.occ.
Notation seg := is_segments_file_name.

(** Membership in lists put together from lists. *)
Ltac in_lists := repeat first [rewrite elem_of_app | rewrite elem_of_cons | rewrite elem_of_nil]; tauto.

Section spec.
Context {D O P SE : Type} `{IndexDirectoryLaws D O} `{DeletionPolicy.IndexDeletionPolicyLaws P}.
Context (crc : list byte -> Z) (read_si : list byte -> name -> list byte -> list byte -> result SE (list name)).
Implicit Types s : t D P.
Notation view s := (directory_view (directory s)).
Notation wf s := (directory_wf (directory s)).
Notation F := (M (Error SE) (t D P)).

(** A step that only deletes, counts and syncs. *)
Definition tracked s s' : Prop := exists d c y, s' = set_tracked d c y s.

Lemma tracked_refl s : tracked s s.
Proof. exists (directory s), (ref_counts s), (synced s). by destruct s. Qed.
Lemma tracked_trans s1 s2 s3 : tracked s1 s2 -> tracked s2 s3 -> tracked s1 s3.
Proof. intros (d1 & c1 & y1 & ->) (d2 & c2 & y2 & ->). by exists d2, c2, y2. Qed.

(** ** Deleting. *)
Lemma delete_pass_spec b names : forall first s, wf s -> let '(o, s') := delete_pass (SE := SE) (O := O) b names first s in
  tracked s s' /\ wf s' /\
  (forall f, ref_counts s' !! f = if decide (f ∈ names /\ seg f = b) then None else ref_counts s !! f) /\
  (forall f, view s' !! f = view s !! f \/ view s' !! f = None /\ f ∈ names /\ seg f = b) /\
  (o = None -> first = None /\ forall f, f ∈ names -> seg f = b -> view s' !! f = None).
Proof.
  induction names as [|n names IH]; intros first s Hw; cbn [delete_pass].
  { split; [apply tracked_refl|]. split; [done|]. split; [|split; [by left|]].
    - intros f. rewrite decide_False; [done|]. by intros [?%elem_of_nil _].
    - intros ->. split; [done|]. by intros f ?%elem_of_nil. }
  destruct (Bool.eqb (seg n) b) eqn:Eb.
  - apply eqb_prop in Eb. destruct (directory_delete n (directory s)) as [r d] eqn:Ed.
    destruct (law_delete _ _ _ _ Hw Ed) as [Hw1 Hr].
    set (s1 := set_tracked d (delete n (ref_counts s)) (synced s ∖ {[n]}) s).
    set (first1 := match r, first with Err e, None => Some (Store e) | _, _ => first end).
    specialize (IH first1 s1 Hw1). destruct (delete_pass b names first1 s1) as [o s'].
    destruct IH as (Ht & Hw' & Hc & Hv & Ho).
    assert (Hv1 : forall f, view s1 !! f = view s !! f \/ view s1 !! f = None /\ f = n).
    { intros f. unfold s1. cbn [directory set_tracked]. destruct (decide (f = n)) as [->|Hne].
      - destruct r; [rewrite Hr, lookup_delete_eq; by right|]. destruct Hr as [-> | ->]; [by left|]. rewrite lookup_delete_eq. by right.
      - left. destruct r; [by rewrite Hr, lookup_delete_ne|]. destruct Hr as [-> | ->]; [done|by rewrite lookup_delete_ne]. }
    split; [|split; [done|split; [|split]]].
    + apply (tracked_trans _ s1); [by eexists _, _, _|done].
    + intros f. rewrite Hc. unfold s1. cbn [ref_counts set_tracked]. destruct (decide (f = n)) as [->|Hne].
      * rewrite (decide_True (P := n ∈ n :: names /\ _)) by (split; [by left|done]). rewrite lookup_delete_eq. by destruct (decide _).
      * rewrite lookup_delete_ne by done. apply decide_ext. rewrite elem_of_cons. naive_solver.
    + intros f. destruct (Hv f) as [Hf|(Hf & Hin & Hs)]; [|right; rewrite elem_of_cons; naive_solver].
      rewrite Hf. destruct (Hv1 f) as [?|[? ->]]; [by left|]. right. rewrite elem_of_cons. naive_solver.
    + intros Hn. destruct (Ho Hn) as [Hf1 Hall]. unfold first1 in Hf1. destruct r as [u|e]; [|by destruct first]. split; [done|].
      intros f [->|Hin]%elem_of_cons Hs; [|by apply Hall]. destruct (Hv n) as [->|[-> _]]; [|done].
      unfold s1. cbn [directory set_tracked]. by rewrite Hr, lookup_delete_eq.
  - apply eqb_false_iff in Eb. specialize (IH first s Hw). destruct (delete_pass b names first s) as [o s'].
    destruct IH as (Ht & Hw' & Hc & Hv & Ho). split; [done|]. split; [done|]. split; [|split].
    + intros f. rewrite Hc. apply decide_ext. rewrite elem_of_cons. naive_solver.
    + intros f. destruct (Hv f) as [?|(? & ? & ?)]; [by left|]. right. rewrite elem_of_cons. naive_solver.
    + intros Hn. destruct (Ho Hn) as [? Hall]. split; [done|]. intros f [->|Hin]%elem_of_cons Hs; [done|by apply Hall].
Qed.

(** Commit files go first, and nothing else goes unless they all went. *)
Lemma delete_files_spec names s r s' : wf s -> delete_files (SE := SE) (O := O) names s = (r, s') ->
  tracked s s' /\ wf s' /\
  (forall f, ref_count s' f = ref_count s f \/ f ∈ names /\ ref_count s' f = 0) /\
  (forall f, view s' !! f = view s !! f \/ view s' !! f = None /\ f ∈ names) /\
  (forall f, view s' !! f <> view s !! f -> seg f = false -> forall n, n ∈ names -> seg n = true -> view s' !! n = None) /\
  (is_ok r = true -> forall f, f ∈ names -> view s' !! f = None).
Proof.
  intros Hw. unfold delete_files. pose proof (delete_pass_spec true names None s Hw) as HP1.
  destruct (delete_pass true names None s) as [o1 s1]. destruct HP1 as (Ht1 & Hw1 & Hc1 & Hv1 & Ho1).
  assert (Hcount : forall (c c' : gmap (list Z) Z) f b, c' !! f = (if decide (f ∈ names /\ seg f = b) then None else c !! f) ->
    default 0 (c' !! f) = default 0 (c !! f) \/ f ∈ names /\ default 0 (c' !! f) = 0).
  { intros c c' f b ->. destruct (decide _) as [[? _]|]; [by right|by left]. }
  destruct o1 as [e|].
  { intros [= <- <-]. split; [done|]. split; [done|]. split; [intros f; by eapply Hcount|]. split; [|split; [|done]].
    - intros f. destruct (Hv1 f) as [?|(? & ? & ?)]; [by left|by right].
    - intros f Hf Hs. destruct (Hv1 f) as [?|(_ & _ & Hs')]; [done|congruence]. }
  pose proof (delete_pass_spec false names None s1 Hw1) as HP2. destruct (delete_pass false names None s1) as [o2 s2].
  destruct HP2 as (Ht2 & Hw2 & Hc2 & Hv2 & Ho2). destruct (Ho1 eq_refl) as [_ Hgone].
  assert (Hgone2 : forall n, n ∈ names -> seg n = true -> view s2 !! n = None).
  { intros n Hn Hs. destruct (Hv2 n) as [->|[-> _]]; [by apply Hgone|done]. }
  assert (Hall : tracked s s2 /\ wf s2 /\ (forall f, ref_count s2 f = ref_count s f \/ f ∈ names /\ ref_count s2 f = 0) /\
    (forall f, view s2 !! f = view s !! f \/ view s2 !! f = None /\ f ∈ names) /\
    (forall f, view s2 !! f <> view s !! f -> seg f = false -> forall n, n ∈ names -> seg n = true -> view s2 !! n = None)).
  { split; [by eapply tracked_trans|]. split; [done|]. split; [|split].
    - intros f. unfold ref_count. destruct (Hcount _ _ f _ (Hc2 f)) as [->|?]; [|by right]. by eapply Hcount.
    - intros f. destruct (Hv2 f) as [->|(-> & ? & _)]; [|by right]. destruct (Hv1 f) as [?|(? & ? & _)]; [by left|by right].
    - intros f _ _ n Hn Hs. by apply Hgone2. }
  destruct o2 as [e|]; intros [= <- <-]; (split; [apply Hall|]); (split; [apply Hall|]); (split; [apply Hall|]);
    (split; [apply Hall|]); (split; [apply Hall|]); [done|].
  intros _ f Hf. destruct (seg f) eqn:Es; [by apply Hgone2|]. by apply (proj2 (Ho2 eq_refl)).
Qed.

(** ** References.  [total f G] is how often the lists of [G] name [f]. *)
Fixpoint total (f : name) (G : list (list name)) : Z :=
  match G with [] => 0 | L :: G => occ f L + total f G end.

Lemma total_nonneg f G : 0 <= total f G.
Proof. induction G as [|L G IH]; cbn; [done|]. pose proof (FileDeleter.occ_nonneg f L). lia. Qed.
Lemma total_app f G K : total f (G ++ K) = total f G + total f K.
Proof. induction G as [|L G IH]; cbn; [done|]. lia. Qed.
#[local] Instance total_perm f : Proper (Permutation ==> eq) (total f).
Proof. induction 1; cbn; lia. Qed.
Lemma total_pos f G : 0 < total f G <-> exists L, L ∈ G /\ f ∈ L.
Proof.
  induction G as [|L G IH]; cbn; [split; [lia|intros (L & HL & _); by apply elem_of_nil in HL]|].
  pose proof (FileDeleter.occ_nonneg f L). pose proof (total_nonneg f G). split.
  - intros Ht. destruct (decide (0 < occ f L)) as [HL|HL].
    + exists L. split; [by left|]. by apply FileDeleter.occ_pos.
    + destruct (proj1 IH) as (L' & ? & ?); [lia|]. exists L'. split; [by right|done].
  - intros (L' & [->|HL]%elem_of_cons & Hf); [apply FileDeleter.occ_pos in Hf; lia|]. assert (0 < total f G) by (apply IH; eauto). lia.
Qed.
Lemma total_in f G L : L ∈ G -> f ∈ L -> 0 < total f G.
Proof. intros. apply total_pos. eauto. Qed.

(** The counts are the references. *)
Definition counts s (G : list (list name)) : Prop := forall f, ref_count s f = total f G.

(** Lists that name a commit file agree, and name no other. *)
Record closed (G : list (list name)) : Prop := {
  closed_agree L1 L2 n : L1 ∈ G -> L2 ∈ G -> n ∈ L1 -> n ∈ L2 -> seg n = true -> L1 ⊆ L2;
  closed_one L n m : L ∈ G -> n ∈ L -> m ∈ L -> seg n = true -> seg m = true -> n = m;
}.
Lemma closed_sub G G' : (forall L, L ∈ G' -> L ∈ G) -> closed G -> closed G'.
Proof. intros Hs [Ha Ho]. split; [intros; by eapply Ha; eauto|intros; by eapply Ho; eauto]. Qed.

(** What a step that drops references [G] down to [G'] does: nothing still
    referenced goes; if it succeeds, all that lost its last reference is
    gone; and a commit file that stays keeps its files. *)
Record effect s (G : list (list name)) s' (G' : list (list name)) (ok : bool) : Prop := {
  eff_wf : wf s';
  eff_counts : counts s' G';
  eff_le f : total f G' <= total f G;
  eff_del f : view s' !! f = view s !! f \/ view s' !! f = None /\ total f G' = 0;
  eff_reclaim : ok = true -> forall f, 0 < total f G -> total f G' = 0 -> view s' !! f = None;
  eff_whole : closed G -> forall L n, L ∈ G -> n ∈ L -> seg n = true -> is_Some (view s' !! n) -> forall f, f ∈ L -> view s' !! f = view s !! f;
}.

Lemma effect_none s s' G ok : wf s' -> counts s' G -> view s' = view s -> effect s G s' G ok.
Proof. intros Hw Hc Hv. split; [done|done|done|intros; left; by rewrite Hv|intros; lia|intros; by rewrite Hv]. Qed.

Lemma effect_trans s G s1 G1 s2 G2 ok : (forall L, L ∈ G1 -> L ∈ G) ->
  effect s G s1 G1 true -> effect s1 G1 s2 G2 ok -> effect s G s2 G2 ok.
Proof.
  intros Hsub [Hw1 Hc1 Hl1 Hd1 Hr1 Hwh1] [Hw2 Hc2 Hl2 Hd2 Hr2 Hwh2]. split; [done|done|..].
  - intros f. specialize (Hl1 f). specialize (Hl2 f). lia.
  - intros f. destruct (Hd2 f) as [->|?]; [|by right]. destruct (Hd1 f) as [?|[? Hz]]; [by left|]. right. split; [done|].
    specialize (Hl2 f). pose proof (total_nonneg f G2). lia.
  - intros Hok f Hp Hz. destruct (decide (total f G1 = 0)) as [Hz1|Hz1].
    + destruct (Hd2 f) as [->|[? _]]; [by apply Hr1|done].
    + apply Hr2; [done| |done]. pose proof (total_nonneg f G1). lia.
  - intros Hcl L n HL Hn Hs Hv f Hf.
    assert (Hv1 : is_Some (view s1 !! n)) by (destruct (Hd2 n) as [<-|[Hnone _]]; [done|rewrite Hnone in Hv; by destruct Hv]).
    rewrite <- (Hwh1 Hcl L n HL Hn Hs Hv1 f Hf).
    assert (Ht : total n G1 <> 0).
    { intros Hz. rewrite Hr1 in Hv1; [by destruct Hv1|done| |done]. by eapply total_in. }
    destruct (proj1 (total_pos n G1)) as (L1 & HL1 & Hn1); [pose proof (total_nonneg n G1); lia|].
    eapply Hwh2; [by eapply closed_sub|exact HL1|exact Hn1|done|done|].
    eapply (closed_agree _ Hcl L L1 n); auto.
Qed.

Lemma effect_from s0 s G s' G' ok : view s = view s0 -> effect s G s' G' ok -> effect s0 G s' G' ok.
Proof. intros Hv [Hw Hc Hl Hd Hr Hwh]. rewrite Hv in *. by split. Qed.
Lemma effect_to s G s1 s' G' ok : wf s' -> ref_counts s' = ref_counts s1 -> view s' = view s1 -> effect s G s1 G' ok -> effect s G s' G' ok.
Proof.
  intros Hw' Hc' Hv [Hw Hc Hl Hd Hr Hwh]. split; [done|..]; rewrite ?Hv; try done. intros f. unfold ref_count. rewrite Hc'. apply Hc.
Qed.
Lemma effect_perm s G1 G2 s' G1' G2' ok : G1 ≡ₚ G2 -> (forall f, total f G1' = total f G2') -> effect s G1 s' G1' ok -> effect s G2 s' G2' ok.
Proof.
  intros HG HG' [Hw Hc Hl Hd Hr Hwh]. split; [done|..].
  - intros f. by rewrite Hc.
  - intros f. by rewrite <- HG', <- HG.
  - intros f. rewrite <- HG'. apply Hd.
  - intros Hok f. rewrite <- HG', <- HG. by apply Hr.
  - intros Hcl L n HL. rewrite <- HG in HL. apply Hwh; [|done]. eapply closed_sub; [|exact Hcl]. intros L' HL'. by rewrite <- HG.
Qed.

(** *** Dropping a list of references. *)
Lemma dec_loop_spec files : forall del s (k : name -> Z), (forall f, ref_count s f = occ f files + k f) -> (forall f, 0 <= k f) ->
  let '(l, s') := dec_loop files del s in
  (exists c, s' = set_counts c s) /\ (forall f, ref_count s' f = k f) /\ (forall f, f ∈ l <-> f ∈ del \/ 0 < occ f files /\ k f = 0).
Proof.
  induction files as [|n files IH]; intros del s k Hc Hk; cbn [dec_loop].
  { split; [exists (ref_counts s); by destruct s|]. split; [intros f; by rewrite Hc|]. intros f. cbn. naive_solver lia. }
  pose proof (Hc n) as Hn. cbn [FileDeleter.occ] in Hn. rewrite decide_True in Hn by done.
  pose proof (FileDeleter.occ_nonneg n files). specialize (Hk n) as Hkn. unfold ref_count in Hn.
  destruct (ref_counts s !! n) as [c|] eqn:Ec; cbn [from_option id] in Hn; [|lia].
  unfold u32_saturating_sub1. rewrite Z.max_r by lia.
  assert (Hstep : forall c', (forall f, default 0 (c' !! f) = occ f files + k f) -> forall del',
    let '(l, s') := dec_loop files del' (set_counts c' s) in
    (exists c, s' = set_counts c s) /\ (forall f, ref_count s' f = k f) /\ (forall f, f ∈ l <-> f ∈ del' \/ 0 < occ f files /\ k f = 0)).
  { intros c' Hc' del'. specialize (IH del' (set_counts c' s) k Hc' Hk). destruct (dec_loop files del' (set_counts c' s)) as [l s'].
    destruct IH as ((c2 & ->) & Hc2 & Hl). split; [by exists c2|]. done. }
  destruct (Z.eqb_spec (c - 1) 0) as [Hz|Hz].
  - specialize (Hstep (delete n (ref_counts s))). lapply Hstep.
    + intros Hs. specialize (Hs (del ++ [n])). destruct (dec_loop _ _ _) as [l s']. destruct Hs as (? & ? & Hl). split; [done|]. split; [done|].
      intros f. rewrite Hl, elem_of_app, list_elem_of_singleton. cbn [FileDeleter.occ]. pose proof (FileDeleter.occ_nonneg f files).
      destruct (decide (f = n)) as [->|]; naive_solver lia.
    + intros f. specialize (Hc f). cbn [FileDeleter.occ] in Hc. unfold ref_count in Hc. destruct (decide (f = n)) as [->|].
      * rewrite lookup_delete_eq. cbn. lia.
      * rewrite lookup_delete_ne by done. lia.
  - specialize (Hstep (<[n := c - 1]> (ref_counts s))). lapply Hstep.
    + intros Hs. specialize (Hs del). destruct (dec_loop _ _ _) as [l s']. destruct Hs as (? & ? & Hl). split; [done|]. split; [done|].
      intros f. rewrite Hl. cbn [FileDeleter.occ]. pose proof (FileDeleter.occ_nonneg f files).
      destruct (decide (f = n)) as [->|]; naive_solver lia.
    + intros f. specialize (Hc f). cbn [FileDeleter.occ] in Hc. unfold ref_count in Hc. destruct (decide (f = n)) as [->|].
      * rewrite lookup_insert_eq. cbn. lia.
      * rewrite lookup_insert_ne by done. lia.
Qed.

Lemma dec_ref_all_effect L G s r s' : wf s -> counts s (L :: G) -> dec_ref_all (SE := SE) (O := O) L s = (r, s') ->
  tracked s s' /\ effect s (L :: G) s' G (is_ok r).
Proof.
  intros Hw Hc. unfold dec_ref_all. pose proof (dec_loop_spec L [] s (fun f => total f G) Hc (fun f => total_nonneg f G)) as Hd.
  destruct (dec_loop L [] s) as [del s1]. destruct Hd as ((c & ->) & Hc1 & Hdel). intros E.
  assert (Hdel' : forall f, f ∈ del <-> f ∈ L /\ total f G = 0).
  { intros f. rewrite Hdel, elem_of_nil, FileDeleter.occ_pos. tauto. }
  destruct (delete_files_spec del (set_counts c s) r s' Hw E) as (Ht & Hw' & Hc' & Hv & Hord & Hok).
  split; [eapply tracked_trans; [by eexists _, _, _|exact Ht]|]. split; [done|..].
  - intros f. destruct (Hc' f) as [->|[Hf ->]]; [apply Hc1|]. apply Hdel' in Hf as [_ ->]. done.
  - intros f. cbn. pose proof (FileDeleter.occ_nonneg f L). lia.
  - intros f. destruct (Hv f) as [?|[? Hf]]; [by left|]. right. split; [done|]. by apply Hdel'.
  - intros Ho f Hp Hz. apply Hok; [done|]. apply Hdel'. split; [|done]. apply FileDeleter.occ_pos. cbn in Hp. lia.
  - intros Hcl L' n HL' Hn Hs Hsome f Hf. destruct (decide (view s' !! f = view s !! f)) as [|Hne]; [done|]. exfalso.
    destruct (Hv f) as [?|[Hnone Hfd]]; [done|]. apply Hdel' in Hfd as [HfL Hz].
    assert (HLL : L' = L).
    { apply elem_of_cons in HL' as [->|HL']; [done|]. pose proof (total_in f G L' HL' Hf). lia. }
    subst L'. destruct (seg f) eqn:Es.
    { rewrite (closed_one _ Hcl L n f HL' Hn Hf Hs Es), Hnone in Hsome. by destruct Hsome. }
    assert (Hnd : n ∈ del).
    { apply Hdel'. split; [done|]. destruct (decide (total n G = 0)) as [|Hnz]; [done|]. exfalso.
      destruct (proj1 (total_pos n G)) as (L2 & HL2 & Hn2); [pose proof (total_nonneg n G); lia|].
      assert (Hf2 : f ∈ L2) by (eapply (closed_agree _ Hcl L L2 n); [done|by right|done..]).
      pose proof (total_in f G L2 HL2 Hf2). lia. }
    rewrite (Hord f Hne Es n Hnd Hs) in Hsome. by destruct Hsome.
Qed.

(** *** Taking a list of references. *)
Lemma inc_all_spec files : forall G s, counts s G -> (forall f, ref_count s f + occ f files < 2 ^ 32) ->
  (exists c, inc_ref_all files s = set_counts c s) /\ counts (inc_ref_all files s) (files :: G).
Proof.
  induction files as [|n files IH]; intros G s Hc Hr; cbn [inc_ref_all].
  { split; [exists (ref_counts s); by destruct s|]. intros f. rewrite Hc. cbn. lia. }
  set (s1 := set_counts (<[n := u32_saturating_add1 (ref_count s n)]> (ref_counts s)) s).
  assert (Hc1 : forall f, ref_count s1 f = ref_count s f + (if decide (f = n) then 1 else 0)).
  { intros f. unfold ref_count at 1, s1. cbn [ref_counts set_counts set_tracked]. destruct (decide (f = n)) as [->|].
    - rewrite lookup_insert_eq. cbn. specialize (Hr n). cbn [FileDeleter.occ] in Hr. rewrite decide_True in Hr by done.
      pose proof (FileDeleter.occ_nonneg n files). unfold u32_saturating_add1. lia.
    - rewrite lookup_insert_ne by done. unfold ref_count. lia. }
  destruct (IH ([n] :: G) s1) as [[c ->] Hc2].
  - intros f. rewrite Hc1, Hc. cbn. lia.
  - intros f. rewrite Hc1. specialize (Hr f). cbn [FileDeleter.occ] in Hr. lia.
  - split; [by exists c|]. intros f. rewrite Hc2. cbn. lia.
Qed.

(** A step that only fills the cache of [.si] listings. *)
Record quiet s s' : Prop := {
  q_wf : wf s';
  q_view : view s' = view s;
  q_counts : ref_counts s' = ref_counts s;
  q_commits : commits s' = commits s;
  q_last : last_files s' = last_files s;
}.
Lemma quiet_refl s : wf s -> quiet s s.
Proof. by split. Qed.
Lemma quiet_trans s1 s2 s3 : quiet s1 s2 -> quiet s2 s3 -> quiet s1 s3.
Proof. intros [] []. split; congruence. Qed.

Lemma ensure_quiet sci s r s' : wf s -> ensure_si_files (O := O) read_si sci s = (r, s') -> quiet s s'.
Proof.
  intros Hw. unfold ensure_si_files. destruct (cached s sci); [intros [= _ <-]; by apply quiet_refl|].
  unfold segment_info_files. destruct (directory_open _ (directory s)) as [o d] eqn:Eo.
  destruct (law_open _ _ _ _ Hw Eo) as (Hw' & Hv & _).
  destruct o as [b|e]; [destruct (read_si _ _ _ _)|]; intros [= _ <-]; by split.
Qed.

Lemma ensure_all_quiet l : forall s r s', wf s -> ensure_all (O := O) read_si l s = (r, s') -> quiet s s'.
Proof.
  induction l as [|sci l IH]; intros s r s' Hw; cbn [ensure_all]; [intros [= _ <-]; by apply quiet_refl|].
  unfold bind at 1. destruct (ensure_si_files read_si sci s) as [[u|e] s1] eqn:E1; apply ensure_quiet in E1; [|done| |done].
  - intros E. eapply quiet_trans; [exact E1|]. eapply IH; [apply E1|exact E].
  - by intros [= _ <-].
Qed.

Lemma push_new_NoDup l n : NoDup l -> NoDup (SegmentInfos.push_new l n).
Proof.
  intros Hl. unfold SegmentInfos.push_new. case_bool_decide as Hn; [done|]. apply list.NoDup_app. split; [done|].
  split; [|apply NoDup_singleton]. by intros x Hx ->%list_elem_of_singleton.
Qed.
Lemma push_all_NoDup k : forall l, NoDup l -> NoDup (fold_left SegmentInfos.push_new k l).
Proof. induction k as [|n k IH]; intros l Hl; cbn; [done|]. by apply IH, push_new_NoDup. Qed.
Lemma occ_NoDup f l : NoDup l -> occ f l <= 1.
Proof.
  induction 1 as [|x l Hx _ IH]; cbn; [done|]. destruct (decide (f = x)) as [->|]; [|lia].
  destruct (decide (0 < occ x l)) as [Hp|]; [by apply FileDeleter.occ_pos in Hp|lia].
Qed.

Lemma commit_files_spec infos b s r s' : wf s -> commit_files (O := O) read_si infos b s = (r, s') ->
  quiet s s' /\ match r with Ok l => forall f, occ f l <= 1 | Err _ => True end.
Proof.
  intros Hw. unfold commit_files. unfold bind at 1. destruct (ensure_all _ _ s) as [[u|e] s1] eqn:E1;
    apply ensure_all_quiet in E1; [|done| |done]; intros [= <- <-]; (split; [done|]); [|done].
  intros f. apply occ_NoDup.
  match goal with |- NoDup (fold_left _ _ ?init) => assert (Hi : NoDup init) end.
  { destruct b; [|constructor]. destruct (segments_file_name _); [apply NoDup_singleton|constructor]. }
  revert Hi. generalize (SegmentInfos.segments infos). intros l. match goal with |- NoDup ?init -> _ => generalize init end.
  induction l as [|sci l IH]; intros out Hout; cbn [fold_left]; [done|]. apply IH. by apply push_all_NoDup.
Qed.

(** *** Dropping commits. *)
Notation cps l := (map cp_files l).

Lemma release_commits_effect doomed : forall G s r s', wf s -> counts s (cps doomed ++ G) ->
  release_commits (SE := SE) (O := O) doomed s = (r, s') ->
  tracked s s' /\ exists rest, (is_ok r = true -> rest = []) /\ (forall c, c ∈ rest -> c ∈ doomed) /\
    effect s (cps doomed ++ G) s' (cps rest ++ G) (is_ok r).
Proof.
  induction doomed as [|c doomed IH]; intros G s r s' Hw Hc; cbn [release_commits].
  { intros [= <- <-]. split; [apply tracked_refl|]. exists []. split; [done|]. split; [done|]. by apply effect_none. }
  unfold bind at 1. destruct (dec_ref_all (cp_files c) s) as [[u|e] s1] eqn:E1.
  - destruct (dec_ref_all_effect _ (cps doomed ++ G) _ _ _ Hw Hc E1) as [Ht1 He1]. intros E.
    destruct (IH G s1 r s' (eff_wf _ _ _ _ _ He1) (eff_counts _ _ _ _ _ He1) E) as (Ht & rest & Hrest & Hsub & He).
    split; [by eapply tracked_trans|]. exists rest. split; [done|]. split; [intros x Hx; right; by apply Hsub|]. eapply effect_trans; [|exact He1|exact He].
    intros L HL. by right.
  - intros [= <- <-]. destruct (dec_ref_all_effect _ (cps doomed ++ G) _ _ _ Hw Hc E1) as [Ht1 He1].
    split; [done|]. exists doomed. split; [done|]. split; [intros x Hx; by right|done].
Qed.

Lemma sort_points_perm l : sort_points l ≡ₚ l.
Proof.
  unfold sort_points. induction l as [|c l IH]; cbn; [done|]. rewrite <- IH at 2. generalize (foldr insert_point [] l). clear IH.
  intros k. induction k as [|x k IH]; cbn; [done|]. destruct (cp_generation c <=? cp_generation x); [done|]. rewrite IH. constructor.
Qed.

Lemma decided_perm (l : list CommitPoint) k : length k = length l -> decided l k true ++ decided l k false ≡ₚ l.
Proof.
  unfold decided. revert k. induction l as [|c l IH]; intros [|d k] Hl; try done. cbn. injection Hl as Hl.
  destruct (DeletionPolicy.deleted d); cbn; [by rewrite IH|]. rewrite <- Permutation_middle. by rewrite IH.
Qed.

(** Some commits go; the references of some may be left behind. *)
Definition drops s G (r : result (Error SE) unit) s' : Prop :=
  last_files s' = last_files s /\ exists lost, (is_ok r = true -> lost = []) /\
    (forall L, L ∈ cps (commits s') ++ lost -> L ∈ cps (commits s)) /\
    effect s (cps (commits s) ++ G) s' (cps (commits s') ++ lost ++ G) (is_ok r).

(** Commits [dead] leave the list, then their references go. *)
Lemma drop_effect dead alive G s s1 r s' : commits s ≡ₚ dead ++ alive -> commits s1 = alive -> last_files s1 = last_files s ->
  wf s1 -> view s1 = view s -> ref_counts s1 = ref_counts s -> counts s (cps (commits s) ++ G) ->
  release_commits (SE := SE) (O := O) dead s1 = (r, s') ->
  drops s G r s'.
Proof.
  intros Hp Ha Hl Hw1 Hv1 Hr1 Hc E.
  assert (Hperm : cps (commits s) ++ G ≡ₚ cps dead ++ cps alive ++ G) by by rewrite Hp, map_app, <- app_assoc.
  assert (Hc1 : counts s1 (cps dead ++ cps alive ++ G)).
  { intros f. rewrite <- Hperm, <- Hc. unfold ref_count. by rewrite Hr1. }
  destruct (release_commits_effect dead (cps alive ++ G) s1 r s' Hw1 Hc1 E) as ((d & c & y & ->) & rest & Hrest & Hsub & He).
  split; [done|]. exists (cps rest). split; [intros Hok; by rewrite (Hrest Hok)|]. split.
  { intros L. cbn [commits set_tracked]. rewrite Ha, Hp, map_app, !elem_of_app. intros [HL|HL]; [by right|]. left.
    apply list_elem_of_In, in_map_iff in HL as (x & <- & Hx). apply list_elem_of_In, in_map. apply list_elem_of_In, Hsub. by apply list_elem_of_In. }
  eapply (effect_from _ s1); [exact Hv1|]. eapply effect_perm; [symmetry; exact Hperm| |exact He].
  intros f. cbn [commits set_tracked]. rewrite Ha, !total_app. lia.
Qed.

Lemma apply_policy_effect init G s r s' : wf s -> counts s (cps (commits s) ++ G) -> apply_policy (SE := SE) (O := O) init s = (r, s') ->
  drops s G r s'.
Proof.
  intros Hw Hc. unfold apply_policy.
  assert (Hnone : forall s1, s1 = s \/ (exists p, s1 = set_custom p s) -> forall r, drops s G r s1).
  { intros s1 Hs1 r1. split; [by destruct Hs1 as [->|[p ->]]|]. exists []. split; [done|]. rewrite app_nil_r. cbn [app].
    destruct Hs1 as [->|[p ->]]; (split; [done|by apply effect_none]). }
  destruct (custom s) as [p|].
  - destruct ((if init then DeletionPolicy.on_init else DeletionPolicy.on_commit) (p, index_commits s)) as [[u|e] [p1 l1]] eqn:Ep.
    + assert (Hl1 : length l1 = length (commits s)).
      { rewrite (DeletionPolicy.law_length init _ _ _ _ _ Ep). apply length_map. }
      apply (drop_effect _ (decided (commits s) l1 false)); try done. symmetry. by apply decided_perm.
    + intros [= <- <-]. apply Hnone. eauto.
  - destruct (_ || _); [intros [= <- <-]; apply Hnone; by left|].
    apply (drop_effect _ (drop (length (commits s) - 1) (commits s))); try done. by rewrite take_drop.
Qed.

(** ** One operation. *)
Definition refs s (held leaked : list (list name)) : list (list name) := cps (commits s) ++ last_files s :: held ++ leaked.

Definition within (G' G : list (list name)) : Prop := forall L, L ∈ G' -> L = [] \/ L ∈ G.

Lemma within_sub G' G : (forall L, L ∈ G' -> L ∈ G) -> within G' G.
Proof. intros Hs L HL. right. auto. Qed.

Definition performs s (held new : list (list name)) (ok : bool) s' (held' : list (list name)) : Prop :=
  forall leaked, wf s -> counts s (refs s held leaked) ->
    exists leaked', (ok = true -> leaked' = leaked) /\ within (refs s' held' leaked') (new ++ refs s held leaked) /\
      effect s (new ++ refs s held leaked) s' (refs s' held' leaked') ok.

(** No count is within [k] of saturating. *)
Definition room s (k : Z) : Prop := forall f, ref_count s f + k < 2 ^ 32.

Definition taken {E} (r : result E (list name)) : list (list name) := match r with Ok l => [l] | Err _ => [] end.

Lemma forget_effect s0 G s s' G' ok : effect s0 G s G' ok -> s' = forget_dead_segments s -> effect s0 G s' G' ok.
Proof. intros He ->. eapply (effect_to _ _ s); [|done|done|exact He]. exact (eff_wf _ _ _ _ _ He). Qed.

Lemma quiet_counts s s1 held leaked : quiet s s1 -> counts s (refs s held leaked) -> counts s1 (refs s1 held leaked) /\ refs s1 held leaked = refs s held leaked.
Proof.
  intros Hq Hc. assert (E : refs s1 held leaked = refs s held leaked) by (unfold refs; by rewrite (q_commits _ _ Hq), (q_last _ _ Hq)).
  split; [|done]. rewrite E. intros f. rewrite <- Hc. unfold ref_count. by rewrite (q_counts _ _ Hq).
Qed.

Lemma performs_quiet s held s' ok : (wf s -> quiet s s') -> performs s held [] ok s' held.
Proof.
  intros Hq leaked Hw Hc. specialize (Hq Hw). exists leaked. split; [done|].
  destruct (quiet_counts s s' held leaked Hq Hc) as [Hc' E]. cbn [app]. rewrite <- E. split; [by apply within_sub|]. apply effect_none; [apply Hq|done|apply Hq].
Qed.

Lemma checkpoint_performs infos b s r s' held : room s 1 -> checkpoint (O := O) read_si infos b s = (r, s') ->
  performs s held (taken (commit_files (O := O) read_si infos b s).1) (is_ok r) s' held.
Proof.
  intros Hroom E. intros leaked Hw Hc. unfold checkpoint in E. unfold bind at 1 in E.
  destruct (commit_files read_si infos b s) as [[files|e] s1] eqn:E1; destruct (commit_files_spec infos b s _ s1 Hw E1) as [Hq Hocc];
    destruct (quiet_counts s s1 held leaked Hq Hc) as [Hc1 Er].
  2: { injection E as <- <-. apply (performs_quiet s held s1 false); [done|done|done]. }
  cbn [fst taken]. unfold bind at 1 in E.
  destruct (inc_all_spec files (refs s1 held leaked) s1 Hc1) as [[c Ei] Hc2].
  { intros f. specialize (Hocc f). specialize (Hroom f). unfold ref_count in *. rewrite (q_counts _ _ Hq). lia. }
  set (s2 := inc_ref_all files s1) in *. rewrite Er in Hc2.
  assert (Hw2 : wf s2) by (rewrite Ei; apply Hq). assert (Hv2 : view s2 = view s) by (rewrite Ei; apply Hq).
  assert (Hcm : commits s2 = commits s) by (rewrite Ei; apply Hq). assert (Hlf : last_files s2 = last_files s) by (rewrite Ei; apply Hq).
  clearbody s2. clear Ei c. destruct b.
  - unfold bind at 1 in E. unfold bind at 1 in E. set (cp := point_of _ _ _) in E.
    set (s3 := set_commits (sort_points (commits s2 ++ [cp])) s2) in E.
    assert (Hp3 : cps (commits s3) ++ last_files s :: held ++ leaked ≡ₚ files :: refs s held leaked).
    { unfold s3, refs. cbn [commits set_commits]. rewrite sort_points_perm, map_app, Hcm, <- app_assoc. cbn [map app cp_files point_of cp].
      by rewrite <- Permutation_middle. }
    assert (Hc3 : counts s3 (cps (commits s3) ++ last_files s :: held ++ leaked)).
    { intros f. rewrite Hp3. apply Hc2. }
    destruct (apply_policy false s3) as [[u|e] s4] eqn:E4; injection E as <- <-;
      destruct (apply_policy_effect false _ s3 _ s4 Hw2 Hc3 E4) as (Hl4 & lost & Hlost & Hsub & He); cbn [is_ok] in *;
      (exists (lost ++ leaked)); (split; [try done; intros _; by rewrite Hlost|]);
      (assert (Hin : within (refs s4 held (lost ++ leaked)) ([files] ++ refs s held leaked));
       [apply within_sub; intros L HL; cbn [app]; rewrite <- Hp3; unfold refs in HL; rewrite Hl4 in HL; change (last_files s3) with (last_files s2) in HL;
        rewrite Hlf, !elem_of_app, elem_of_cons, !elem_of_app in HL; specialize (Hsub L);
        rewrite elem_of_app in Hsub; rewrite !elem_of_app, elem_of_cons, elem_of_app; tauto|split; [exact Hin|]]).
    + eapply forget_effect; [|reflexivity]. eapply (effect_from _ s3); [exact Hv2|]. eapply effect_perm; [exact Hp3| |exact He].
      intros f. unfold refs. cbn [commits last_files forget_dead_segments set_si_files]. rewrite Hl4. unfold s3. cbn [last_files set_commits].
      rewrite Hlf. rewrite !total_app. cbn [total]. rewrite !total_app. lia.
    + eapply (effect_from _ s3); [exact Hv2|]. eapply effect_perm; [exact Hp3| |exact He].
      intros f. unfold refs. rewrite Hl4. unfold s3. cbn [last_files set_commits]. rewrite Hlf, !total_app. cbn [total]. rewrite !total_app. lia.
  - unfold bind at 1 in E. unfold bind at 1 in E. set (s3 := set_last_files [] s2) in E.
    assert (Hp3 : last_files s2 :: files :: cps (commits s) ++ held ++ leaked ≡ₚ files :: refs s held leaked).
    { unfold refs. rewrite Hlf. rewrite <- Permutation_middle. constructor. }
    assert (Hc3 : counts s3 (last_files s2 :: files :: cps (commits s) ++ held ++ leaked)).
    { intros f. rewrite Hp3. apply Hc2. }
    destruct (dec_ref_all (last_files s2) s3) as [[u|e] s4] eqn:E4; injection E as <- <-;
      destruct (dec_ref_all_effect _ _ s3 _ s4 Hw2 Hc3 E4) as ((d & c & y & ->) & He); cbn [is_ok] in *.
    + exists leaked. split; [done|]. split.
      { apply within_sub. intros L. unfold refs. cbn. rewrite Hcm. in_lists. }
      eapply forget_effect; [|reflexivity]. eapply (effect_to _ _ (set_tracked d c y s3)); [apply (eff_wf _ _ _ _ _ He)|reflexivity|reflexivity|]. eapply (effect_from _ s3); [exact Hv2|].
      eapply effect_perm; [exact Hp3| |exact He]. intros f. unfold refs. cbn. rewrite Hcm, !total_app. cbn. rewrite !total_app. lia.
    + exists (files :: leaked). split; [done|]. split.
      { intros L. unfold refs. cbn. rewrite Hcm. in_lists. }
      eapply (effect_from _ s3); [exact Hv2|].
      eapply effect_perm; [exact Hp3| |exact He]. intros f. unfold refs. cbn. rewrite Hcm, !total_app. cbn. rewrite !total_app. cbn. lia.
Qed.

(** Commits and policies: what drops commits only. *)
Lemma performs_dropping s held (r : result (Error SE) unit) s' :
  (forall G, wf s -> counts s (cps (commits s) ++ G) -> drops s G r s') -> performs s held [] (is_ok r) s' held.
Proof.
  intros Hd leaked Hw Hc. destruct (Hd _ Hw Hc) as (Hl & lost & Hlost & Hsub & He). exists (lost ++ leaked).
  split; [intros Hok; by rewrite Hlost|]. split.
  { apply within_sub. intros L. specialize (Hsub L). revert Hsub. unfold refs. cbn [app].
    rewrite Hl. in_lists. }
  eapply effect_perm; [reflexivity| |exact He]. intros f. unfold refs. rewrite Hl, !total_app. cbn [total]. rewrite !total_app. lia.
Qed.

Lemma performs_then_forget s held new (m : F unit) r s' :
  (forall r s', m s = (r, s') -> performs s held new (is_ok r) s' held) ->
  (let* _ := m in forget) s = (r, s') -> performs s held new (is_ok r) s' held.
Proof.
  intros Hm. unfold bind. destruct (m s) as [[u|e] s1]; intros [= <- <-]; [|by apply Hm].
  intros leaked Hw Hc. destruct (Hm _ _ eq_refl leaked Hw Hc) as (leaked' & Hok & Hsub & He). exists leaked'. split; [done|]. split; [done|].
  by eapply forget_effect.
Qed.

Lemma apply_policy_performs s s1 held r s' : commits s1 = commits s -> last_files s1 = last_files s -> ref_counts s1 = ref_counts s ->
  directory s1 = directory s -> apply_policy (SE := SE) (O := O) false s1 = (r, s') -> performs s held [] (is_ok r) s' held.
Proof.
  intros Hcm Hl Hr Hd E. apply performs_dropping. intros G Hw Hc.
  destruct (apply_policy_effect false G s1 r s') as (Hl' & lost & Hlost & Hsub & He); [by rewrite Hd| |done|].
  { intros f. rewrite Hcm, <- Hc. unfold ref_count. by rewrite Hr. }
  split; [congruence|]. exists lost. split; [done|]. rewrite Hcm in Hsub, He. split; [done|]. eapply effect_from; [|exact He]. by rewrite Hd.
Qed.

Lemma set_policy_performs p s held r s' : set_policy (SE := SE) (O := O) p s = (r, s') -> performs s held [] (is_ok r) s' held.
Proof. intros E. by apply (apply_policy_performs s (set_custom None (set_builtin p s))). Qed.

Lemma set_custom_policy_performs p s held r s' : set_custom_policy (SE := SE) (O := O) p s = (r, s') -> performs s held [] (is_ok r) s' held.
Proof.
  unfold set_custom_policy. cbn [commits set_custom]. destruct (commits s) eqn:Ec.
  - intros [= <- <-]. by apply (performs_quiet s held _ true).
  - intros E. by apply (apply_policy_performs s (set_custom (Some p) s)).
Qed.

Lemma revisit_policy_performs s held r s' : revisit_policy (SE := SE) (O := O) s = (r, s') -> performs s held [] (is_ok r) s' held.
Proof.
  unfold revisit_policy. destruct (commits s) eqn:Ec.
  - intros [= <- <-]. apply (performs_quiet s held s true), quiet_refl.
  - apply performs_then_forget. intros r1 s1 E. by apply (apply_policy_performs s s held r1 s1).
Qed.

Lemma partition_perm {A} (p : A -> bool) l : List.filter p l ++ List.filter (fun x => negb (p x)) l ≡ₚ l.
Proof.
  induction l as [|x l IH]; cbn; [done|]. destruct (p x); cbn; [by rewrite IH|]. rewrite <- Permutation_middle. by rewrite IH.
Qed.

Lemma drop_commits_performs gens s held r s' : drop_commits (SE := SE) (O := O) gens s = (r, s') -> performs s held [] (is_ok r) s' held.
Proof.
  unfold drop_commits. set (doomed := fun c => _ && _). unfold bind.
  destruct (release_commits (List.filter doomed (commits s)) _) as [r1 s1] eqn:E1.
  assert (Hp : performs s held [] (is_ok r1) s1 held).
  { apply performs_dropping. intros G Hw Hc.
    apply (drop_effect _ (List.filter (fun c => negb (doomed c)) (commits s)) G s _ r1 s1) in E1; try done. symmetry. apply partition_perm. }
  destruct r1 as [u|e]; intros [= <- <-]; [|done]. intros leaked Hw Hc. destruct (Hp leaked Hw Hc) as (leaked' & Hok & Hsub & He).
  exists leaked'. split; [done|]. split; [done|]. by eapply forget_effect.
Qed.

(** Sweeps: files nothing references. *)
Lemma delete_unreferenced_performs names s held r s' : (forall f, f ∈ names -> exists_ s f = false) ->
  delete_files (SE := SE) (O := O) names s = (r, s') -> performs s held [] (is_ok r) s' held.
Proof.
  intros Hex E leaked Hw Hc.
  assert (Hz : forall f, f ∈ names -> ref_count s f = 0).
  { intros f Hf. apply Hex in Hf. unfold exists_ in Hf. pose proof (total_nonneg f (refs s held leaked)). rewrite <- Hc in *. lia. }
  destruct (delete_files_spec names s r s' Hw E) as ((d & c & y & ->) & Hw' & Hc' & Hv & _).
  exists leaked. split; [done|]. split; [by apply within_sub|]. cbn [app]. change (refs (set_tracked d c y s) held leaked) with (refs s held leaked).
  assert (Hkeep : forall f, f ∈ names -> total f (refs s held leaked) = 0) by (intros f Hf; rewrite <- Hc; by apply Hz).
  split; [done|..].
  - intros f. rewrite <- Hc. destruct (Hc' f) as [->|[Hf ->]]; [done|]. by rewrite Hz.
  - done.
  - intros f. destruct (Hv f) as [?|[? Hf]]; [by left|]. right. auto.
  - intros _ f ? ?. lia.
  - intros _ L n HL _ _ _ f Hf. destruct (Hv f) as [?|[_ Hn]]; [done|]. pose proof (total_in f _ L HL Hf). rewrite Hkeep in *; [lia|done].
Qed.

Lemma refresh_performs s held r s' : refresh (SE := SE) (O := O) s = (r, s') -> performs s held [] (is_ok r) s' held.
Proof.
  intros E leaked Hw Hc. unfold refresh, bind at 1, on_dir in E. destruct (directory_list_all (directory s)) as [o d] eqn:El.
  destruct (law_list_all _ _ _ Hw El) as (Hw1 & Hv1 & _).
  set (s1 := set_tracked d (ref_counts s) (synced s) s) in E. destruct o as [files|e].
  - destruct (fun Hz => delete_unreferenced_performs _ s1 held r s' Hz E leaked Hw1 Hc) as (l' & ? & ? & He).
    { intros f Hf. apply list_elem_of_In, filter_In in Hf as [_ Hf]. apply andb_true_iff in Hf as [_ Hf]. by apply negb_true_iff in Hf. }
    exists l'. split; [done|]. split; [done|]. by eapply (effect_from _ s1).
  - injection E as <- <-. exists leaked. split; [done|]. split; [by apply within_sub|]. by apply effect_none.
Qed.

Lemma delete_new_files_performs files s held r s' : delete_new_files (SE := SE) (O := O) files s = (r, s') -> performs s held [] (is_ok r) s' held.
Proof.
  apply performs_then_forget. intros r1 s1. apply delete_unreferenced_performs.
  intros f Hf. apply list_elem_of_In, filter_In in Hf as [_ Hf]. by apply negb_true_iff in Hf.
Qed.

(** Holders. *)
Lemma hold_files_performs files s held : room s (zlen files) -> performs s held [files] true (hold_files files s) (files :: held).
Proof.
  intros Hroom leaked Hw Hc. unfold hold_files. destruct (inc_all_spec files (refs s held leaked) s Hc) as [[c E] Hc1].
  { intros f. specialize (Hroom f). pose proof (FileDeleter.occ_nonneg f files). enough (occ f files <= zlen files) by lia.
    clear. induction files as [|x l IH]; cbn; [done|]. rewrite zlen_cons. destruct (decide (f = x)); lia. }
  exists leaked. split; [done|]. split.
  { apply within_sub. intros L. rewrite E. unfold refs. cbn. in_lists. }
  assert (Hp : forall f, total f (files :: refs s held leaked) = total f (refs (inc_ref_all files s) (files :: held) leaked)).
  { intros f. rewrite E. unfold refs. cbn. rewrite !total_app. cbn. rewrite !total_app. lia. }
  eapply effect_perm; [reflexivity|exact Hp|]. apply effect_none; [by rewrite E|done|by rewrite E].
Qed.

Lemma hold_loop_quiet segs : forall acc s r s', wf s -> hold_loop (O := O) read_si segs acc s = (r, s') -> quiet s s'.
Proof.
  induction segs as [|sci segs IH]; intros acc s r s' Hw; cbn [hold_loop]; [intros [= _ <-]; by apply quiet_refl|].
  unfold bind at 1. destruct (ensure_si_files read_si sci s) as [[u|e] s1] eqn:E1; apply ensure_quiet in E1; [|done| |done].
  - intros E. eapply quiet_trans; [exact E1|]. eapply IH; [apply E1|exact E].
  - by intros [= _ <-].
Qed.

Lemma hold_segment_files_performs segs s held r s' : hold_segment_files (O := O) read_si segs s = (r, s') ->
  room s match r with Ok l => zlen l | Err _ => 0 end -> performs s held (taken r) (is_ok r) s' (taken r ++ held).
Proof.
  unfold hold_segment_files, bind. intros E Hroom leaked Hw Hc. destruct (hold_loop read_si segs [] s) as [[l|e] s1] eqn:E1;
    injection E as <- <-; apply hold_loop_quiet in E1; [|done| |done].
  - destruct (quiet_counts s s1 held leaked E1 Hc) as [Hc1 Er]. cbn [taken app is_ok].
    destruct (hold_files_performs l s1 held) with (leaked := leaked) as (l' & Hok & Hsub & He); [|apply E1|done|].
    { intros f. specialize (Hroom f). unfold ref_count in *. by rewrite (q_counts _ _ E1). }
    exists l'. split; [done|]. rewrite <- Er. split; [done|]. eapply effect_from; [|exact He]. apply E1.
  - by apply (performs_quiet s held s1 false).
Qed.

Lemma release_files_performs files s h1 h2 r s' : release_files (SE := SE) (O := O) files s = (r, s') ->
  performs s (h1 ++ files :: h2) [] (is_ok r) s' (h1 ++ h2).
Proof.
  unfold release_files, bind. intros E leaked Hw Hc.
  assert (Hp : refs s (h1 ++ files :: h2) leaked ≡ₚ files :: refs s (h1 ++ h2) leaked).
  { unfold refs. rewrite <- (Permutation_middle h1 h2 files). cbn [app]. rewrite (perm_swap files (last_files s)).
    by rewrite <- Permutation_middle. }
  destruct (dec_ref_all files s) as [o s1] eqn:E1. destruct (dec_ref_all_effect files (refs s (h1 ++ h2) leaked) s o s1) as [(d & c & y & ->) He];
    [done| |done|].
  { intros f. by rewrite <- Hp. }
  exists leaked. split; [done|]. split.
  { apply within_sub. intros L. cbn [app]. rewrite Hp. replace (refs s' (h1 ++ h2) leaked) with (refs s (h1 ++ h2) leaked) by (by destruct o; injection E as <- <-).
    by right. }
  cbn [app]. eapply effect_perm; [symmetry; exact Hp|reflexivity|].
  destruct o as [u|e]; injection E as <- <-; [|done]. by eapply forget_effect.
Qed.

(** Syncing and the cache. *)
Lemma sync_commit_files_performs infos s held r s' : sync_commit_files (O := O) read_si infos s = (r, s') -> performs s held [] (is_ok r) s' held.
Proof.
  intros E. apply performs_quiet. intros Hw. unfold sync_commit_files, bind at 1 in E.
  destruct (commit_files read_si infos false s) as [[files|e] s1] eqn:E1; destruct (commit_files_spec _ _ _ _ _ Hw E1) as [Hq _];
    [|by injection E as _ <-].
  destruct (List.filter _ files) as [|n l]; [by injection E as _ <-|]. unfold bind, on_dir in E.
  destruct (directory_sync _ (directory s1)) as [o d] eqn:Es. destruct (law_sync _ _ _ _ (q_wf _ _ Hq) Es) as [Hw2 Hv2].
  eapply quiet_trans; [exact Hq|]. destruct o; injection E as _ <-; by split.
Qed.

(** ** Opening. *)
Record loading s s' (k : Z) : Prop := {
  ld_wf : wf s';
  ld_view : view s' = view s;
  ld_last : last_files s' = last_files s;
  ld_counts : counts s (cps (commits s)) -> counts s' (cps (commits s'));
  ld_room f : ref_count s' f <= ref_count s f + k;
}.
Lemma loading_refl s : wf s -> loading s s 0.
Proof. intros Hw. split; [done..|]. intros f. lia. Qed.
Lemma loading_trans s1 s2 s3 j k m : m = j + k -> loading s1 s2 j -> loading s2 s3 k -> loading s1 s3 m.
Proof.
  intros -> [? ? ? ? Hr1] [? ? ? ? Hr2]. split; [done|congruence|congruence|auto|]. intros f. specialize (Hr1 f). specialize (Hr2 f). lia.
Qed.
Lemma loading_le s s' j k : j <= k -> loading s s' j -> loading s s' k.
Proof. intros Hjk [? ? ? ? Hr]. split; try done. intros f. specialize (Hr f). lia. Qed.
Lemma quiet_loading s s' : quiet s s' -> loading s s' 0.
Proof.
  intros [Hw Hv Hr Hcm Hl]. assert (Hrc : forall f, ref_count s' f = ref_count s f) by (intros f; unfold ref_count; by rewrite Hr).
  split; [done..| |]; [intros Hc f; by rewrite Hrc, Hc, Hcm|intros f; rewrite Hrc; lia].
Qed.

Lemma on_dir_loading {A} (m : M StoreError.Error D A) s r s' : wf s ->
  (forall r d, m (directory s) = (r, d) -> directory_wf d /\ directory_view d = view s) -> on_dir (SE := SE) m s = (r, s') -> loading s s' 0.
Proof.
  intros Hw Hm. unfold on_dir. destruct (m (directory s)) as [[a|e] d] eqn:E; destruct (Hm _ _ eq_refl); intros [= _ <-];
    (split; [done..|]); intros f; unfold ref_count; cbn; lia.
Qed.

Lemma note_file_loading n s : wf s -> loading s (note_file n s) 0.
Proof.
  intros Hw. unfold note_file. destruct (ref_counts s !! n) eqn:En; [by apply loading_refl|].
  assert (Hrc : forall f, ref_count (set_counts (<[n := 0]> (ref_counts s)) s) f = ref_count s f).
  { intros f. unfold ref_count. cbn. destruct (decide (f = n)) as [->|]; [by rewrite lookup_insert_eq, En|by rewrite lookup_insert_ne]. }
  split; [done..| |]; [intros Hc f; by rewrite Hrc, Hc|intros f; rewrite Hrc; lia].
Qed.

Lemma load_commit_loading n s r s' : wf s -> counts s (cps (commits s)) -> room s 1 -> load_commit (O := O) crc read_si n s = (r, s') -> loading s s' 1.
Proof.
  intros Hw Hc Hroom. unfold load_commit. unfold bind at 1, lift. destruct (generation_from_segments_file_name n) as [g|e];
    [|intros [= _ <-]; apply (loading_le _ _ 0); [lia|by apply loading_refl]].
  unfold bind at 1. destruct (on_dir (directory_open n) s) as [r1 s1] eqn:E1.
  assert (H1' : loading s s1 0).
  { eapply on_dir_loading; [done| |exact E1]. intros r0 d0 E0. destruct (law_open _ _ _ _ Hw E0) as (? & ? & _). done. }
  destruct r1 as [b|e]; [|intros [= _ <-]; by apply (loading_le _ _ 0)].
  unfold bind at 1. destruct (SegmentInfos.parse crc b g) as [sis|e]; [|intros [= _ <-]; by apply (loading_le _ _ 0)].
  unfold bind at 1. destruct (commit_files read_si sis true s1) as [r2 s2] eqn:E2.
  destruct (commit_files_spec _ _ _ _ _ (ld_wf _ _ _ H1') E2) as [Hq Hocc].
  assert (H2' : loading s s2 0) by (eapply loading_trans; [|exact H1'|by apply quiet_loading]; lia).
  destruct r2 as [files|e]; [|intros [= _ <-]; by apply (loading_le _ _ 0)].
  destruct (inc_all_spec files (cps (commits s2)) s2) as [[c Ei] Hc2].
  { by apply H2'. }
  { intros f. specialize (Hocc f). specialize (Hroom f). pose proof (ld_room _ _ _ H2' f). lia. }
  rewrite Ei in Hc2 |- *. intros [= _ <-]. split; [apply H2'..| |].
  - intros _ f. cbn. rewrite map_app, total_app. cbn. transitivity (ref_count (set_counts c s2) f); [done|]. rewrite Hc2. cbn. lia.
  - intros f. pose proof (ld_room _ _ _ H2' f) as Hf. specialize (Hc2 f). cbn in Hc2. specialize (Hocc f).
    pose proof (ld_counts _ _ _ H2' Hc f). transitivity (ref_count (set_counts c s2) f); [done|]. rewrite Hc2. lia.
Qed.

Lemma load_files_loading files : forall s r s', wf s -> counts s (cps (commits s)) -> room s (zlen files) ->
  load_files (O := O) crc read_si files s = (r, s') -> loading s s' (zlen files).
Proof.
  induction files as [|n files IH]; intros s r s' Hw Hc Hroom; cbn [load_files]; [intros [= _ <-]; by apply loading_refl|].
  rewrite zlen_cons in *. pose proof (zlen_nonneg files) as Hz.
  assert (Hgo : forall s1 j, 0 <= j <= 1 -> loading s s1 j -> load_files (O := O) crc read_si files s1 = (r, s') -> loading s s' (1 + zlen files)).
  { intros s1 j Hj Hl E. apply (loading_le _ _ (j + zlen files)); [lia|]. eapply loading_trans; [reflexivity|exact Hl|].
    apply (IH s1 r s'); [apply Hl|by apply Hl| |done]. intros f. pose proof (ld_room _ _ _ Hl f). specialize (Hroom f). lia. }
  destruct (is_index_file_name n); [|intros E; apply (Hgo s 0); [lia|by apply loading_refl|done]].
  unfold bind at 1. pose proof (note_file_loading n s Hw) as Hn. unfold bind at 1. destruct (seg n).
  - destruct (load_commit crc read_si n (note_file n s)) as [r1 s1] eqn:E1.
    assert (H1' : loading s s1 1).
    { eapply loading_trans; [|exact Hn|eapply (load_commit_loading n); [apply Hn|by apply Hn| |exact E1]]; [lia|].
      intros f. pose proof (ld_room _ _ _ Hn f). specialize (Hroom f). lia. }
    destruct r1 as [u|e]; [apply (Hgo s1 1); [lia|done]|]. intros [= _ <-]. by apply (loading_le _ _ 1); [lia|].
  - cbn. apply (Hgo _ 0); [lia|done].
Qed.

Lemma unrefed_zero s f : f ∈ unrefed_files s -> exists_ s f = false.
Proof.
  unfold unrefed_files, sort_names. rewrite merge_sort_Permutation. intros Hf%list_elem_of_In. apply in_map_iff in Hf as ([g k] & <- & Hf).
  apply filter_In in Hf as [Hf Hk]. cbn in *. apply list_elem_of_In, elem_of_map_to_list in Hf. apply Z.eqb_eq in Hk as ->.
  unfold exists_, ref_count. by rewrite Hf.
Qed.

Lemma check_unrefed_state l s r s' : check_unrefed (D := D) (P := P) (SE := SE) l s = (r, s') -> s' = s.
Proof. induction l as [|n l IH]; cbn; [by intros [= _ <-]|]. destruct (seg n); [by intros [= _ <-]|done]. Qed.

Lemma sweep_performs s held r s' :
  (let* _ := check_unrefed (SE := SE) (unrefed_files s) in delete_files (O := O) (unrefed_files s)) s = (r, s') -> performs s held [] (is_ok r) s' held.
Proof.
  unfold bind. destruct (check_unrefed _ s) as [[u|e] s1] eqn:E1; apply check_unrefed_state in E1 as ->.
  - apply delete_unreferenced_performs, unrefed_zero.
  - intros [= <- <-]. apply (performs_quiet s held s false), quiet_refl.
Qed.

(** What [opening] does once the commits on disk are loaded. *)
Definition settle (current : SegmentInfos.t) : F unit :=
  let* _ := fun s => let unrefed := unrefed_files s in (let* _ := check_unrefed unrefed in delete_files (O := O) unrefed) s in
  let* _ := checkpoint (O := O) read_si current false in
  apply_policy (O := O) true.

Lemma opening_inv current s r s' : wf s -> counts s (cps (commits s)) -> last_files s = [] ->
  (forall l d, directory_list_all (O := O) (directory s) = (Ok l, d) -> room s (zlen l + 1)) ->
  opening (O := O) crc read_si current s = (r, s') ->
  ((exists e, r = Err e) /\ view s' = view s) \/
  exists files s0 s1, on_dir (SE := SE) (directory_list_all (O := O)) s = (Ok files, s0) /\ load_files (O := O) crc read_si files s0 = (Ok tt, s1) /\
    settle current (set_commits (sort_points (commits s1)) s1) = (r, s') /\ view s1 = view s /\
    wf s1 /\ counts s1 (cps (commits s1)) /\ last_files s1 = [] /\ room s1 1.
Proof.
  intros Hw Hc Hl Hroom. unfold opening. unfold bind at 1. destruct (on_dir directory_list_all s) as [r0 s0] eqn:E0.
  assert (H0' : loading s s0 0).
  { eapply on_dir_loading; [done| |exact E0]. intros r1 d1 E1. destruct (law_list_all _ _ _ Hw E1) as (? & ? & _). done. }
  destruct r0 as [files|e]; [|intros [= <- <-]; left; split; [by eexists|apply H0']].
  assert (Hr0 : room s (zlen files + 1)).
  { unfold on_dir in E0. destruct (directory_list_all (directory s)) as [[l|e] d] eqn:El; [|done]. injection E0 as -> <-. by eapply Hroom. }
  unfold bind at 1. destruct (load_files crc read_si files s0) as [r1 s1] eqn:E1.
  assert (H1' : loading s s1 (zlen files)).
  { eapply loading_trans; [|exact H0'|eapply load_files_loading; [apply H0'|by apply H0'| |exact E1]]; [lia|].
    intros f. pose proof (ld_room _ _ _ H0' f). specialize (Hr0 f). lia. }
  destruct r1 as [[]|e]; [|intros [= <- <-]; left; split; [by eexists|apply H1']].
  unfold bind at 1. intros E. right. exists files, s0, s1. split; [done|]. split; [done|]. split; [exact E|].
  split; [apply H1'|]. split; [apply H1'|]. split; [by apply H1'|]. split; [by rewrite (ld_last _ _ _ H1')|].
  intros f. pose proof (ld_room _ _ _ H1' f). specialize (Hr0 f). lia.
Qed.

Lemma sorted_refs s : counts s (cps (commits s)) -> last_files s = [] ->
  let s1 := set_commits (sort_points (commits s)) s in counts s1 (refs s1 [] []) /\ forall L, L ∈ cps (commits s1) <-> L ∈ cps (commits s).
Proof.
  intros Hc Hl s1. split.
  - intros f. transitivity (ref_count s f); [done|]. rewrite Hc. unfold refs, s1. cbn [commits set_commits last_files].
    rewrite Hl, sort_points_perm, total_app. cbn. lia.
  - intros L. unfold s1. cbn [commits set_commits]. by rewrite sort_points_perm.
Qed.

Lemma closed_within G' G : within G' G -> closed G -> closed G'.
Proof.
  intros Hw [Ha Ho].
  assert (Hin : forall L n, L ∈ G' -> n ∈ L -> L ∈ G) by (intros L n HL Hn; destruct (Hw L HL) as [->|]; [by apply elem_of_nil in Hn|done]).
  split; [intros L1 L2 n HL1 HL2 Hn1 Hn2; apply (Ha L1 L2 n); eauto|intros L n m HL Hn Hm; apply (Ho L n m); eauto].
Qed.
Lemma closed_plain new G : (forall L f, L ∈ new -> f ∈ L -> seg f = false) -> closed G -> closed (new ++ G).
Proof.
  intros Hp [Ha Ho].
  assert (Hin : forall L n, L ∈ new ++ G -> n ∈ L -> seg n = true -> L ∈ G).
  { intros L n [HL|HL]%elem_of_app Hn Hs; [by rewrite (Hp L n HL Hn) in Hs|done]. }
  split; [intros L1 L2 n HL1 HL2 Hn1 Hn2 Hs; apply (Ha L1 L2 n); eauto|intros L n m HL Hn Hm Hsn Hsm; apply (Ho L n m); eauto].
Qed.

Lemma delete_pass_tracked b names : forall o s, tracked s (delete_pass (SE := SE) (O := O) b names o s).2.
Proof.
  induction names as [|n names IH]; intros o s; cbn [delete_pass]; [apply tracked_refl|]. destruct (Bool.eqb _ _); [|apply IH].
  destruct (directory_delete n (directory s)) as [r d]. eapply tracked_trans; [|apply IH]. by eexists _, _, _.
Qed.
Lemma delete_files_tracked names s r s' : delete_files (SE := SE) (O := O) names s = (r, s') -> tracked s s'.
Proof.
  unfold delete_files. pose proof (delete_pass_tracked true names None s) as Ht1. destruct (delete_pass true names None s) as [[e|] s1]; [by intros [= _ <-]|].
  pose proof (delete_pass_tracked false names None s1) as Ht2. destruct (delete_pass false names None s1) as [[e|] s2]; intros [= _ <-];
    by eapply tracked_trans.
Qed.
Lemma dec_ref_all_tracked L s r s' : dec_ref_all (SE := SE) (O := O) L s = (r, s') -> tracked s s'.
Proof.
  unfold dec_ref_all.
  assert (Hd : forall del s, exists c, (dec_loop L del s).2 = set_counts c s).
  { clear s. induction L as [|n L IH]; intros del s; cbn [dec_loop]; [exists (ref_counts s); by destruct s|].
    destruct (ref_counts s !! n); [|apply IH].
    destruct (_ =? 0); [destruct (IH (del ++ [n]) (set_counts (delete n (ref_counts s)) s)) as [c ->]|
      destruct (IH del (set_counts (<[n := u32_saturating_sub1 z]> (ref_counts s)) s)) as [c ->]]; by exists c. }
  destruct (Hd [] s) as [c Ec]. destruct (dec_loop L [] s) as [del s1]. cbn in Ec. subst s1. intros E%delete_files_tracked.
  eapply tracked_trans; [by eexists _, _, _|exact E].
Qed.
Lemma release_commits_tracked l : forall s r s', release_commits (SE := SE) (O := O) l s = (r, s') -> tracked s s'.
Proof.
  induction l as [|c l IH]; intros s r s'; cbn [release_commits]; [intros [= _ <-]; apply tracked_refl|]. unfold bind at 1.
  destruct (dec_ref_all (cp_files c) s) as [[u|e] s1] eqn:E1; apply dec_ref_all_tracked in E1; [|by intros [= _ <-]].
  intros E%IH. by eapply tracked_trans.
Qed.
Lemma inc_ref_all_tracked l : forall s, tracked s (inc_ref_all l s).
Proof.
  induction l as [|x l IH]; intros s; cbn; [apply tracked_refl|]. eapply tracked_trans; [|apply IH]. by eexists _, _, _.
Qed.

(** The checkpoint that protects the incoming infos leaves the commits. *)
Lemma checkpoint_view_frame infos s u s' : wf s -> checkpoint (O := O) read_si infos false s = (Ok u, s') ->
  commits s' = commits s /\ taken (commit_files (O := O) read_si infos false s).1 = [last_files s'].
Proof.
  intros Hw. unfold checkpoint, bind. destruct (commit_files read_si infos false s) as [[files|e] s1] eqn:E1; [|done].
  destruct (commit_files_spec _ _ _ _ _ Hw E1) as [Hq _].
  destruct (inc_ref_all_tracked files s1) as (d1 & c1 & y1 & ->). destruct (dec_ref_all (last_files _) _) as [[u1|e] s2] eqn:E2; [|done].
  apply dec_ref_all_tracked in E2 as (d & c2 & y & ->). intros [= _ <-]. cbn. split; [apply Hq|done].
Qed.

Lemma sweep_tracked s r s' :
  (let* _ := check_unrefed (SE := SE) (unrefed_files s) in delete_files (O := O) (unrefed_files s)) s = (r, s') -> tracked s s'.
Proof.
  unfold bind. destruct (check_unrefed _ s) as [[u|e] s1] eqn:E1; apply check_unrefed_state in E1 as ->.
  - apply delete_files_tracked.
  - intros [= _ <-]. apply tracked_refl.
Qed.

(** Loaded commits stay whole while the deleter settles. *)
Lemma settle_spec current s r s' : wf s -> counts s (refs s [] []) -> room s 1 -> last_files s = [] -> settle current s = (r, s') ->
  (is_ok r = true -> wf s' /\ counts s' (refs s' [] [])) /\
  ((forall s2 files s3, commit_files (O := O) read_si current false s2 = (Ok files, s3) -> forall f, f ∈ files -> seg f = false) ->
   closed (cps (commits s)) -> forall L n, L ∈ cps (commits s) -> n ∈ L -> seg n = true -> is_Some (view s' !! n) ->
   forall f, f ∈ L -> view s' !! f = view s !! f).
Proof.
  intros Hw Hc Hroom Hlast. unfold settle. unfold bind at 1. destruct ((let* _ := check_unrefed _ in delete_files _) s) as [r1 s1] eqn:E1.
  destruct (sweep_performs s [] r1 s1 E1 [] Hw Hc) as (lk & Hok & _ & He). cbn [app] in He.
  destruct (sweep_tracked s r1 s1 E1) as (d & c & y & Es1).
  assert (Er1 : refs s1 [] [] = refs s [] []) by by rewrite Es1.
  assert (Hcl0 : closed (cps (commits s)) -> closed (refs s [] [])).
  { apply closed_within. unfold refs. rewrite Hlast. intros L. cbn. in_lists. }
  assert (Hin0 : forall L, L ∈ cps (commits s) -> L ∈ refs s [] []) by (intros L; unfold refs; in_lists).
  destruct r1 as [u|e].
  2: { intros [= <- <-]. split; [done|]. intros _ Hcl L n HL. apply (eff_whole _ _ _ _ _ He (Hcl0 Hcl)); auto. }
  cbn [is_ok] in He. rewrite (Hok eq_refl), Er1 in He.
  assert (Hkeep : forall L f, L ∈ cps (commits s) -> f ∈ L -> view s1 !! f = view s !! f).
  { intros L f HL Hf. destruct (eff_del _ _ _ _ _ He f) as [?|[_ Hz]]; [done|]. pose proof (total_in f _ L (Hin0 L HL) Hf). lia. }
  unfold bind at 1. destruct (checkpoint read_si current false s1) as [r2 s2] eqn:E2.
  assert (Hroom1 : room s1 1).
  { intros f. rewrite (eff_counts _ _ _ _ _ He f). specialize (Hroom f). by rewrite Hc in Hroom. }
  assert (Hc1 : counts s1 (refs s1 [] [])) by (rewrite Er1; apply He).
  destruct (checkpoint_performs current false s1 r2 s2 [] Hroom1 E2 [] (eff_wf _ _ _ _ _ He) Hc1) as (lk2 & Hok2 & _ & He2).
  rewrite Er1 in He2. set (new := taken _) in He2.
  assert (Hcl1 : (forall s2 files s3, commit_files (O := O) read_si current false s2 = (Ok files, s3) -> forall f, f ∈ files -> seg f = false) ->
    closed (cps (commits s)) -> closed (new ++ refs s [] [])).
  { intros Hns Hcl. apply closed_plain; [|by apply Hcl0]. unfold new. intros L f HL Hf.
    destruct (commit_files read_si current false s1) as [[l|e] s3] eqn:E3; cbn in HL; [|by apply elem_of_nil in HL].
    apply list_elem_of_singleton in HL as ->. by eapply Hns. }
  assert (Hfin : forall r3 s3 G3, effect s1 (new ++ refs s [] []) s3 G3 r3 ->
    (forall s2 files s3, commit_files (O := O) read_si current false s2 = (Ok files, s3) -> forall f, f ∈ files -> seg f = false) ->
    closed (cps (commits s)) -> forall L n, L ∈ cps (commits s) -> n ∈ L -> seg n = true -> is_Some (view s3 !! n) ->
    forall f, f ∈ L -> view s3 !! f = view s !! f).
  { intros r3 s3 G3 He3 Hns Hcl L n HL Hn Hs Hv f Hf. rewrite <- (Hkeep L f HL Hf).
    apply (eff_whole _ _ _ _ _ He3 (Hcl1 Hns Hcl) L n); [apply elem_of_app; right; auto|done..]. }
  destruct r2 as [u2|e]; [|intros [= <- <-]; split; [done|by apply (Hfin _ _ _ He2)]].
  cbn [is_ok] in He2. rewrite (Hok2 eq_refl) in He2. intros E3.
  destruct (checkpoint_view_frame current s1 u2 s2 (eff_wf _ _ _ _ _ He) E2) as [Hcm2 Hnew2]. fold new in Hnew2.
  destruct (performs_dropping s2 [] r s') with (leaked := @nil (list name)) as (lk3 & Hok3 & _ & He3); [|apply He2|apply He2|].
  { intros G Hw2 Hc2. by apply (apply_policy_effect true). }
  cbn [app] in He3. split; [intros Hr; rewrite (Hok3 Hr) in He3; split; apply He3|].
  eapply Hfin, effect_trans; [|exact He2|exact He3]. intros K. unfold refs. rewrite Hcm2, Hnew2, Es1. cbn. in_lists.
Qed.

(** ** The deleter in use.  [op h s held new ok s' held']: one operation,
    whether it lets its caller choose the policy or the commits to drop, the
    lists of references it takes, and whether it succeeded; [held] are the
    lists holders have taken and not released. *)
Inductive op : bool -> t D P -> list (list name) -> list (list name) -> bool -> t D P -> list (list name) -> Prop :=
| op_checkpoint infos b s held r s' : room s 1 -> checkpoint (O := O) read_si infos b s = (r, s') ->
    op false s held (taken (commit_files (O := O) read_si infos b s).1) (is_ok r) s' held
| op_set_policy p s held r s' : set_policy (SE := SE) (O := O) p s = (r, s') -> op true s held [] (is_ok r) s' held
| op_set_custom_policy p s held r s' : set_custom_policy (SE := SE) (O := O) p s = (r, s') -> op true s held [] (is_ok r) s' held
| op_revisit_policy s held r s' : revisit_policy (SE := SE) (O := O) s = (r, s') -> op false s held [] (is_ok r) s' held
| op_drop_commits gens s held r s' : drop_commits (SE := SE) (O := O) gens s = (r, s') -> op true s held [] (is_ok r) s' held
| op_refresh s held r s' : refresh (SE := SE) (O := O) s = (r, s') -> op false s held [] (is_ok r) s' held
| op_delete_new_files l s held r s' : delete_new_files (SE := SE) (O := O) l s = (r, s') -> op false s held [] (is_ok r) s' held
| op_sync_commit_files infos s held r s' : sync_commit_files (O := O) read_si infos s = (r, s') -> op false s held [] (is_ok r) s' held
| op_record_segment_files sci l s held : op false s held [] true (record_segment_files sci l s) held
| op_forget_segment_files s held : op false s held [] true (forget_segment_files s) held
| op_hold_segment_files segs s held r s' : hold_segment_files (O := O) read_si segs s = (r, s') ->
    room s match r with Ok l => zlen l | Err _ => 0 end -> op false s held (taken r) (is_ok r) s' (taken r ++ held)
| op_hold_files l s held : room s (zlen l) -> op false s held [l] true (hold_files l s) (l :: held)
| op_release_files l s h1 h2 r s' : release_files (SE := SE) (O := O) l s = (r, s') -> op false s (h1 ++ l :: h2) [] (is_ok r) s' (h1 ++ h2).

Lemma op_performs h s held new ok s' held' : op h s held new ok s' held' -> performs s held new ok s' held'.
Proof.
  destruct 1.
  - by eapply checkpoint_performs.
  - by eapply set_policy_performs.
  - by eapply set_custom_policy_performs.
  - by eapply revisit_policy_performs.
  - by eapply drop_commits_performs.
  - by eapply refresh_performs.
  - by eapply delete_new_files_performs.
  - by eapply sync_commit_files_performs.
  - by apply performs_quiet.
  - by apply performs_quiet.
  - by eapply hold_segment_files_performs.
  - by apply hold_files_performs.
  - by eapply release_files_performs.
Qed.

(** A deleter that was opened and used, while others write to the directory
    and work the policy: [clean], that no operation has failed; [hist], the
    lists of references taken so far. *)
Inductive reachable : bool -> list (list name) -> t D P -> list (list name) -> Prop :=
| reach_open d current p c s : directory_wf d -> (forall l d', directory_list_all (O := O) d = (Ok l, d') -> zlen l + 1 < 2 ^ 32) ->
    open_inner (O := O) crc read_si d current p c = (Ok tt, s) -> reachable true (refs s [] []) s []
| reach_op clean hist h s held new ok s' held' : reachable clean hist s held -> op h s held new ok s' held' ->
    reachable (clean && ok) (new ++ hist) s' held'
| reach_other clean hist s held d c : reachable clean hist s held -> directory_wf d ->
    reachable clean hist (mk d (policy s) c (ref_counts s) (commits s) (last_files s) (si_files s) (synced s)) held.

Lemma fresh_room d p c (l : list name) : zlen l + 1 < 2 ^ 32 -> room (fresh d p c) (zlen l + 1).
Proof. intros Hl f. unfold ref_count, fresh. cbn [ref_counts]. rewrite lookup_empty. cbn [from_option]. lia. Qed.

Lemma deleter_inv clean hist s held : reachable clean hist s held -> wf s /\ exists leaked,
  (clean = true -> leaked = []) /\ counts s (refs s held leaked) /\ within (refs s held leaked) hist.
Proof.
  induction 1 as [d current p c s Hw Hroom E|clean hist h s held new ok s' held' _ (Hw & leaked & Hcl & Hc & Hin) Hop|clean hist s held d c _ (Hw & leaked & Hcl & Hc & Hin) Hd].
  - unfold open_inner in E. apply opening_inv in E; [|done..|intros l d' El; apply fresh_room; by eapply Hroom].
    destruct E as [[[e [=]] _]|(files & s0 & s1 & _ & _ & E & _ & Hw1 & Hc1 & Hl1 & Hr1)].
    destruct (sorted_refs s1 Hc1 Hl1) as [Hc2 _].
    destruct (settle_spec current (set_commits (sort_points (commits s1)) s1) _ s Hw1 Hc2 Hr1 Hl1 E) as [Hok _]. destruct (Hok eq_refl) as [Hws Hcs]. split; [done|].
    exists []. split; [done|]. split; [done|]. by apply within_sub.
  - destruct (op_performs _ _ _ _ _ _ _ Hop leaked Hw Hc) as (leaked' & Hok & Hsub & He). split; [apply He|].
    exists leaked'. split; [intros [Hcl' Ho]%andb_true_iff; by rewrite Hok, Hcl|]. split; [apply He|].
    intros L HL. destruct (Hsub L HL) as [?|[HL'|HL']%elem_of_app]; [by left|right; apply elem_of_app; by left|].
    destruct (Hin L HL') as [?|?]; [by left|right; apply elem_of_app; by right].
  - split; [done|]. by exists leaked.
Qed.

(** How many of the live commits, the current view and the holders' lists
    name [f]. *)
Definition references s held (f : name) : Z := total f (refs s held []).

Lemma references_leaked s held leaked f : total f (refs s held leaked) = references s held f + total f leaked.
Proof. unfold references, refs. rewrite !total_app. cbn. rewrite !total_app. cbn. lia. Qed.

(** C14: the counts are the references.  At any time a file's count is at
    least the number of live commits, current view and holders' lists that
    name it, and exactly that number as long as no operation has failed. *)
Theorem counts_are_references clean hist s held : reachable clean hist s held -> forall f,
  references s held f <= ref_count s f /\ (clean = true -> ref_count s f = references s held f).
Proof.
  intros Hr f. destruct (deleter_inv _ _ _ _ Hr) as (_ & leaked & Hcl & Hc & _). rewrite Hc, references_leaked.
  pose proof (total_nonneg f leaked). split; [lia|]. intros Hclean. rewrite (Hcl Hclean). cbn. lia.
Qed.

(** C6: only garbage is collected, and all of it.  Whatever an operation of
    the deleter does and whichever calls to the directory fail, a file it
    changes is gone and referenced by nothing that is left; and if the
    operation succeeds, no file remains that it left without a reference. *)
Theorem only_unreferenced_files_are_deleted clean hist h s held new ok s' held' :
  reachable clean hist s held -> op h s held new ok s' held' -> forall f,
  (view s' !! f <> view s !! f -> view s' !! f = None /\ references s' held' f = 0 /\ ref_count s' f = 0) /\
  (ok = true -> 0 < ref_count s f -> ref_count s' f = 0 -> view s' !! f = None).
Proof.
  intros Hr Hop f. destruct (deleter_inv _ _ _ _ Hr) as (Hw & leaked & _ & Hc & _).
  destruct (op_performs _ _ _ _ _ _ _ Hop leaked Hw Hc) as (leaked' & _ & _ & [Hw' Hc' Hle Hdel Hrec _]). split.
  - intros Hne. destruct (Hdel f) as [?|[Hn Hz]]; [done|]. split; [done|]. split; [|by rewrite Hc'].
    rewrite references_leaked in Hz. pose proof (total_nonneg f leaked'). pose proof (total_nonneg f (refs s' held' [])). unfold references in *. lia.
  - intros Hok Hp Hz. apply Hrec; [done| |by rewrite <- Hc']. rewrite total_app, <- Hc. pose proof (total_nonneg f new). lia.
Qed.

(** C1: a commit file that stands is whole.  When the lists of references
    taken so far agree on the commit files they name, an operation that fails
    or is cut short anywhere leaves, of every live commit, of the view and
    of every held list, either all its files untouched or its commit file
    gone. *)
Theorem standing_commits_keep_their_files clean hist h s held new ok s' held' L n :
  reachable clean hist s held -> op h s held new ok s' held' -> closed (new ++ hist) ->
  L ∈ new ++ refs s held [] -> n ∈ L -> seg n = true -> is_Some (view s' !! n) ->
  forall f, f ∈ L -> view s' !! f = view s !! f.
Proof.
  intros Hr Hop Hcl HL Hn Hs Hv. destruct (deleter_inv _ _ _ _ Hr) as (Hw & leaked & _ & Hc & Hin).
  destruct (op_performs _ _ _ _ _ _ _ Hop leaked Hw Hc) as (leaked' & _ & _ & He).
  apply (eff_whole _ _ _ _ _ He) with n; try done.
  - eapply closed_within; [|exact Hcl]. intros K [HK|HK]%elem_of_app; [right; apply elem_of_app; by left|].
    destruct (Hin K HK) as [?|?]; [by left|right; apply elem_of_app; by right].
  - revert HL. unfold refs. in_lists.
Qed.

(** Opening keeps the commits it found.  Opening a deleter over a
    directory, whatever fails, leaves of every commit it loaded all the files
    or no commit file, as long as the files of the infos it is opened for are
    not commit files and the commits found agree on theirs. *)
Lemma opening_keeps_standing_commits (d : D) current p c r s' files s0 s1 cp :
  directory_wf d -> (forall l d', directory_list_all (O := O) d = (Ok l, d') -> zlen l + 1 < 2 ^ 32) ->
  on_dir (SE := SE) (directory_list_all (O := O)) (fresh d p c) = (Ok files, s0) -> load_files (O := O) crc read_si files s0 = (Ok tt, s1) ->
  (forall s2 l s3, commit_files (O := O) read_si current false s2 = (Ok l, s3) -> forall f, f ∈ l -> seg f = false) ->
  closed (cps (commits s1)) -> cp ∈ commits s1 ->
  open_inner (O := O) crc read_si d current p c = (r, s') ->
  forall n, n ∈ cp_files cp -> seg n = true -> is_Some (view s' !! n) -> forall f, f ∈ cp_files cp -> view s' !! f = directory_view d !! f.
Proof.
  intros Hw Hroom E0 E1 Hns Hcl Hcp E n Hn Hs Hv f Hf. unfold open_inner in E.
  apply opening_inv in E; [|done..|intros l d' El; apply fresh_room; by eapply Hroom].
  destruct E as [[_ ->]|(files' & s0' & s1' & E0' & E1' & E & Hv1 & Hw1 & Hc1 & Hl1 & Hr1)]; [done|].
  rewrite E0 in E0'. injection E0' as <- <-. rewrite E1 in E1'. injection E1' as <-.
  destruct (sorted_refs s1 Hc1 Hl1) as [Hc2 Hin2]. destruct (settle_spec current (set_commits (sort_points (commits s1)) s1) _ s' Hw1 Hc2 Hr1 Hl1 E) as [_ Hwh].
  rewrite (Hwh Hns) with (L := cp_files cp) (n := n); try done.
  - cbn. by rewrite Hv1.
  - eapply closed_sub; [|exact Hcl]. intros L HL. by apply Hin2.
  - apply Hin2, list_elem_of_In, in_map, list_elem_of_In. done.
Qed.
End spec.

(** ** Two commits in the in-memory directory: the second replaces the
    first. *)
Section sample.
Notation BD := ByteBuffersDirectory.t.
Notation BO := ByteBuffersDirectory.output.
Notation SD := (t BD DeletionPolicy.KeepOnlyLastCommit).

Definition sample_read_si (b : list byte) (n sid codec : list byte) : result unit (list name) := Ok [n ++ bytes ".cfs"].
Definition add_file (n : name) (d : BD) : BD :=
  let '(o, d) := ByteBuffersDirectory.output_for n d in ByteBuffersDirectory.publish o [0] d.
Definition sample_segment (n : name) : SegmentInfos.SegmentCommitInfo :=
  SegmentInfos.mk_sci n (replicate 16 0) (bytes "Lucene103") (-1) 0 (-1) (-1) 0 None [] [] 0 0 0 (-1).
Definition sample_infos (g : Z) (names : list name) : SegmentInfos.t :=
  SegmentInfos.mk (replicate 16 1) g 10 (SegmentInfos.mk_version 10 3 0) 10 1 1 None (map sample_segment names) [].

Definition opened : SD := (open_inner (SE := unit) (O := BO) (fun _ => 0) sample_read_si ByteBuffersDirectory.new (sample_infos 0 []) KeepOnlyLastCommit None).2.
Definition on_disk (d : BD) (s : SD) : SD :=
  mk d (policy s) (custom s) (ref_counts s) (commits s) (last_files s) (si_files s) (synced s).
Definition publish_commit (g : Z) (seg : name) (commit : name) (s : SD) : SD :=
  (checkpoint (O := BO) sample_read_si (sample_infos g [seg]) true
     (on_disk (add_file commit (add_file (seg ++ bytes ".cfs") (add_file (seg ++ bytes ".si") (directory s)))) s)).2.
Definition first_commit : SD := publish_commit 1 (bytes "_0") (bytes "segments_1") opened.
Definition before_second : SD :=
  on_disk (add_file (bytes "segments_2") (add_file (bytes "_1.cfs") (add_file (bytes "_1.si") (directory first_commit)))) first_commit.
Definition second_commit : SD := (checkpoint (O := BO) sample_read_si (sample_infos 2 [bytes "_1"]) true before_second).2.

Definition files_1 : list name := [bytes "segments_1"; bytes "_0.cfs"; bytes "_0.si"].
Definition files_2 : list name := [bytes "segments_2"; bytes "_1.cfs"; bytes "_1.si"].

Lemma add_file_inv n d : ByteBuffersDirectory.inv d -> ByteBuffersDirectory.inv (add_file n d).
Proof.
  intros Hi. unfold add_file. destruct (ByteBuffersDirectory.output_for n d) as [o d1] eqn:Eo.
  destruct (ByteBuffersDirectory.output_for_spec n d o d1 Hi Eo) as (Hi1 & _ & _ & _ & He).
  apply ByteBuffersDirectory.publish_spec; [done|]. apply Hi1. rewrite He, lookup_insert_eq. eauto.
Qed.

Lemma room_check {D P} (s : t D P) k : k < 2 ^ 32 -> forallb (fun e => e.2 + k <? 2 ^ 32) (map_to_list (ref_counts s)) = true -> room s k.
Proof.
  intros Hk Hall f. unfold ref_count. destruct (ref_counts s !! f) as [c|] eqn:E; [|done].
  apply elem_of_map_to_list, list_elem_of_In in E. rewrite forallb_forall in Hall. specialize (Hall _ E). cbn in *. lia.
Qed.

Lemma add_files_inv ns d : ByteBuffersDirectory.inv d -> ByteBuffersDirectory.inv (foldr add_file d ns).
Proof. intros Hi. induction ns as [|n ns IH]; cbn; [done|by apply add_file_inv]. Qed.

Notation sample_reachable := (reachable (SE := unit) (O := BO) (fun _ => 0) sample_read_si).
Notation sample_op := (op (SE := unit) (O := BO) sample_read_si).

Lemma opened_reachable : sample_reachable true [[]] opened [].
Proof.
  change [[]] with (refs opened [] []). apply (reach_open _ _ ByteBuffersDirectory.new (sample_infos 0 []) KeepOnlyLastCommit None).
  - apply ByteBuffersDirectory.new_directory_inv.
  - intros l d' [= <- <-]. by vm_compute.
  - by vm_compute.
Qed.

Lemma first_reachable : sample_reachable true [files_1; []] first_commit [].
Proof.
  set (s := on_disk (foldr add_file (directory opened) [bytes "segments_1"; bytes "_0.cfs"; bytes "_0.si"]) opened).
  apply (reach_op _ _ true [[]] false s [] [files_1] true first_commit []).
  - apply reach_other; [apply opened_reachable|]. apply add_files_inv. apply (deleter_inv _ _ _ _ _ _ opened_reachable).
  - assert (E : checkpoint (O := BO) sample_read_si (sample_infos 1 [bytes "_0"]) true s = (Ok tt, first_commit)) by by vm_compute.
    assert (Hr : room s 1) by (apply room_check; by vm_compute).
    pose proof (op_checkpoint sample_read_si (sample_infos 1 [bytes "_0"]) true s [] _ _ Hr E) as Hop. exact Hop.
Qed.

Lemma before_second_reachable : sample_reachable true [files_1; []] before_second [].
Proof.
  apply reach_other; [apply first_reachable|]. apply (add_files_inv [bytes "segments_2"; bytes "_1.cfs"; bytes "_1.si"]).
  apply (deleter_inv _ _ _ _ _ _ first_reachable).
Qed.

Lemma second_op : sample_op false before_second [] [files_2] true second_commit [].
Proof.
  assert (E : checkpoint (O := BO) sample_read_si (sample_infos 2 [bytes "_1"]) true before_second = (Ok tt, second_commit)) by by vm_compute.
  assert (Hr : room before_second 1) by (apply room_check; by vm_compute).
  exact (op_checkpoint sample_read_si (sample_infos 2 [bytes "_1"]) true before_second [] _ _ Hr E).
Qed.

Lemma counts_are_references_witness :
  ref_count before_second (bytes "_0.si") = references before_second [] (bytes "_0.si") /\ references before_second [] (bytes "_0.si") = 1.
Proof.
  destruct (counts_are_references _ _ _ _ _ _ before_second_reachable (bytes "_0.si")) as [_ Hc]. split; [by apply Hc|by vm_compute].
Defined.

Lemma only_unreferenced_files_are_deleted_witness :
  directory_view (directory second_commit) !! bytes "_0.cfs" = None /\
  directory_view (directory second_commit) !! bytes "_1.cfs" = directory_view (directory before_second) !! bytes "_1.cfs".
Proof.
  pose proof (only_unreferenced_files_are_deleted _ _ _ _ _ _ _ _ _ _ _ before_second_reachable second_op) as Hall. split.
  - by apply (Hall (bytes "_0.cfs")); vm_compute.
  - destruct (decide (directory_view (directory second_commit) !! bytes "_1.cfs" = directory_view (directory before_second) !! bytes "_1.cfs"))
      as [|Hne]; [done|]. destruct (Hall (bytes "_1.cfs")) as [Hd _]. destruct (Hd Hne) as (_ & Hz & _). exfalso. vm_compute in Hz. discriminate Hz.
Defined.

(** A check of [closed] on given lists. *)
Definition closed_check (G : list (list name)) : bool :=
  forallb (fun L1 => forallb (fun n => negb (seg n) ||
    (forallb (fun m => negb (seg m) || bool_decide (n = m)) L1 &&
     forallb (fun L2 => negb (bool_decide (n ∈ L2)) || forallb (fun x => bool_decide (x ∈ L2)) L1) G)) L1) G.
Lemma closed_check_ok G : closed_check G = true -> closed G.
Proof.
  intros Hc. unfold closed_check in Hc. rewrite forallb_forall in Hc.
  assert (Hn : forall L1 n, L1 ∈ G -> n ∈ L1 -> seg n = true ->
    forallb (fun m => negb (seg m) || bool_decide (n = m)) L1 = true /\
    forallb (fun L2 => negb (bool_decide (n ∈ L2)) || forallb (fun x => bool_decide (x ∈ L2)) L1) G = true).
  { intros L1 n HL%list_elem_of_In Hin%list_elem_of_In Hs. specialize (Hc L1 HL). rewrite forallb_forall in Hc. specialize (Hc n Hin).
    rewrite Hs in Hc. by apply andb_true_iff in Hc. }
  split.
  - intros L1 L2 n H1 H2 Hn1 Hn2 Hs x Hx. destruct (Hn L1 n H1 Hn1 Hs) as [_ Ha]. rewrite forallb_forall in Ha. specialize (Ha L2 (proj1 (list_elem_of_In _ _) H2)).
    rewrite (bool_decide_eq_true_2 (n ∈ L2)) in Ha by done. cbn in Ha. rewrite forallb_forall in Ha.
    by apply (bool_decide_eq_true_1 _ (Ha x (proj1 (list_elem_of_In _ _) Hx))).
  - intros L n m HL Hn1 Hm Hs Hsm. destruct (Hn L n HL Hn1 Hs) as [Ho _]. rewrite forallb_forall in Ho. specialize (Ho m (proj1 (list_elem_of_In _ _) Hm)).
    rewrite Hsm in Ho. by apply bool_decide_eq_true_1 in Ho.
Qed.

Lemma standing_commits_keep_their_files_witness :
  is_Some (directory_view (directory second_commit) !! bytes "segments_2") /\
  forall f, f ∈ files_2 -> directory_view (directory second_commit) !! f = directory_view (directory before_second) !! f.
Proof.
  assert (Hv : is_Some (directory_view (directory second_commit) !! bytes "segments_2")).
  { exists (Some [0]). change (ByteBuffersDirectory.view (directory second_commit) !! bytes "segments_2" = Some (Some [0])). by vm_compute. }
  split; [exact Hv|].
  apply (standing_commits_keep_their_files _ _ _ _ _ _ _ _ _ _ _ files_2 (bytes "segments_2") before_second_reachable second_op);
    [apply closed_check_ok; by vm_compute|by left|by left|done|exact Hv].
Defined.

(** Opening over a directory with one commit and the files of a segment no
    commit names. *)
Definition put_file (n : name) (b : list byte) (d : BD) : BD :=
  let '(o, d) := ByteBuffersDirectory.output_for n d in ByteBuffersDirectory.publish o b d.
Definition commit_bytes : list byte := Eval vm_compute in default [] (SegmentInfos.to_bytes ieee_crc32 SegmentInfos.sample).
Definition found_directory : BD :=
  put_file (bytes "segments_c") commit_bytes (foldr add_file ByteBuffersDirectory.new [bytes "_0.si"; bytes "_0.cfs"; bytes "_9.si"]).
Definition listed : SD :=
  (on_dir (SE := unit) (directory_list_all (O := BO)) (fresh found_directory KeepOnlyLastCommit None)).2.
Definition found_names : list name := Eval vm_compute in
  match (ByteBuffersDirectory.list_all found_directory).1 with Ok l => l | Err _ => [] end.
Definition loaded : SD := (load_files (SE := unit) (O := BO) ieee_crc32 sample_read_si found_names listed).2.
Definition loaded_point : CommitPoint := Eval vm_compute in hd (mk_point 0 [] [] 0 []) (commits loaded).
Definition opened_over : result (Error unit) unit * SD :=
  open_inner (SE := unit) (O := BO) ieee_crc32 sample_read_si found_directory (sample_infos 0 []) KeepOnlyLastCommit None.

Lemma found_directory_inv : ByteBuffersDirectory.inv found_directory.
Proof.
  assert (Hi : ByteBuffersDirectory.inv (foldr add_file ByteBuffersDirectory.new [bytes "_0.si"; bytes "_0.cfs"; bytes "_9.si"]))
    by apply add_files_inv, ByteBuffersDirectory.new_directory_inv.
  unfold found_directory, put_file. destruct (ByteBuffersDirectory.output_for _ _) as [o d1] eqn:Eo.
  destruct (ByteBuffersDirectory.output_for_spec _ _ o d1 Hi Eo) as (Hi1 & _ & _ & _ & He).
  apply ByteBuffersDirectory.publish_spec; [done|]. apply Hi1. rewrite He, lookup_insert_eq. eauto.
Qed.

Lemma opened_over_eq : open_inner (SE := unit) (O := BO) ieee_crc32 sample_read_si found_directory (sample_infos 0 []) KeepOnlyLastCommit None
  = (opened_over.1, opened_over.2).
Proof. unfold opened_over. by destruct (open_inner _ _ _ _ _ _). Qed.
Lemma no_segments (s2 : SD) (l : list name) (s3 : SD) :
  commit_files (O := BO) sample_read_si (sample_infos 0 []) false s2 = (Ok l, s3) -> forall f, f ∈ l -> seg f = false.
Proof. unfold commit_files, bind. cbn. intros E. injection E as <- _. by intros f ?%elem_of_nil. Qed.
#[local] Opaque found_directory listed loaded opened_over.

Lemma opening_keeps_standing_commits_witness :
  is_ok opened_over.1 = true /\ ByteBuffersDirectory.view (directory opened_over.2) !! bytes "_9.si" = None /\
  ByteBuffersDirectory.view (directory opened_over.2) !! bytes "_0.si" = ByteBuffersDirectory.view found_directory !! bytes "_0.si".
Proof.
  split; [by vm_compute|]. split; [by vm_compute|].
  assert (Ec : commits loaded = [loaded_point]) by (vm_compute; reflexivity).
  assert (Hclosed : closed (map cp_files (commits loaded))) by (apply closed_check_ok; by vm_compute).
  assert (Hroom : forall l' d', directory_list_all (O := BO) found_directory = (Ok l', d') -> zlen l' + 1 < 2 ^ 32).
  { intros l' d' E. apply (f_equal (fun x => match x.1 with Ok l => zlen l | Err _ => 0 end)) in E. cbv beta iota in E. cbn [fst] in E. rewrite <- E. by vm_compute. }
  assert (Hl : on_dir (SE := unit) (directory_list_all (O := BO)) (fresh found_directory KeepOnlyLastCommit None) = (Ok found_names, listed)) by by vm_compute.
  assert (Hld : load_files (SE := unit) (O := BO) ieee_crc32 sample_read_si found_names listed = (Ok tt, loaded)) by (vm_compute; reflexivity).
  assert (Hin : loaded_point ∈ commits loaded) by (rewrite Ec; by left).
  pose proof (opening_keeps_standing_commits ieee_crc32 sample_read_si found_directory (sample_infos 0 []) KeepOnlyLastCommit None
    opened_over.1 opened_over.2 found_names listed loaded loaded_point found_directory_inv Hroom Hl Hld no_segments Hclosed Hin opened_over_eq (bytes "segments_c")) as Hall.
  apply Hall.
  - apply (bool_decide_eq_true_1 (_ ∈ _)). by vm_compute.
  - done.
  - exists (Some commit_bytes). by vm_compute.
  - apply (bool_decide_eq_true_1 (_ ∈ _)). by vm_compute.
Defined.
End sample.
End IndexFileDeleterSpec.
