(* ===== verification/DeleterSnapshots.v ===== *)
(** * Snapshots and the index file deleter

    [IndexFileDeleter.v] under a [SnapshotDeletionPolicy]
    ([DeletionPolicy.v]): whatever the primary policy wants and whichever
    call fails, a pinned commit stays live, and its files stay on disk. *)
From stdpp Require Import gmap strings sorting.
From S2P Require Import Prelude StoreError SegmentNames ByteBuffersDirectory IndexDirectory SegmentInfos DeletionPolicy.
From S2P Require Import IndexFileDeleter IndexFileDeleterSpec.

Module DeleterSnapshots.
Import IndexFileDeleter IndexFileDeleterSpec.

Section pinned.
Context {D O Q SE : Type} `{IndexDirectoryLaws D O} `{DeletionPolicy.IndexDeletionPolicyLaws Q}.
Context (crc : list byte -> Z) (read_si : list byte -> name -> list byte -> list byte -> result SE (list name)).
Notation P := (DeletionPolicy.SnapshotDeletionPolicy Q).
Implicit Types s : t D P.

Definition pins s : gmap Z Z :=
  match custom s with Some sp => DeletionPolicy.ref_counts (DeletionPolicy.state sp) | None => ∅ end.

(** The commits and the policy are left alone. *)
Definition frame s s' : Prop := commits s' = commits s /\ custom s' = custom s.

Lemma frame_refl s : frame s s.
Proof. done. Qed.
Lemma frame_trans s1 s2 s3 : frame s1 s2 -> frame s2 s3 -> frame s1 s3.
Proof. intros [] []. split; congruence. Qed.
Lemma tracked_frame s s' : tracked s s' -> frame s s'.
Proof. by intros (d & c & y & ->). Qed.
#[local] Hint Resolve frame_refl tracked_frame : lucene.

Lemma ensure_frame sci s r s' : ensure_si_files (O := O) read_si sci s = (r, s') -> frame s s'.
Proof.
  unfold ensure_si_files. destruct (cached s sci); [by intros [= _ <-]|].
  destruct (segment_info_files read_si sci (directory s)) as [[f|e] d]; by intros [= _ <-].
Qed.
Lemma ensure_all_frame l : forall s r s', ensure_all (O := O) read_si l s = (r, s') -> frame s s'.
Proof.
  induction l as [|sci l IH]; intros s r s'; cbn [ensure_all]; [by intros [= _ <-]|]. unfold bind at 1.
  destruct (ensure_si_files read_si sci s) as [[u|e] s1] eqn:E1; apply ensure_frame in E1; [|by intros [= _ <-]].
  intros E%IH. by eapply frame_trans.
Qed.
Lemma commit_files_frame infos b s r s' : commit_files (O := O) read_si infos b s = (r, s') -> frame s s'.
Proof.
  unfold commit_files. unfold bind at 1. destruct (ensure_all _ _ s) as [[u|e] s1] eqn:E1; apply ensure_all_frame in E1; by intros [= _ <-].
Qed.
Lemma hold_loop_frame segs : forall acc s r s', hold_loop (O := O) read_si segs acc s = (r, s') -> frame s s'.
Proof.
  induction segs as [|sci l IH]; intros acc s r s'; cbn [hold_loop]; [by intros [= _ <-]|]. unfold bind at 1.
  destruct (ensure_si_files read_si sci s) as [[u|e] s1] eqn:E1; apply ensure_frame in E1; [|by intros [= _ <-]].
  intros E%IH. by eapply frame_trans.
Qed.

(** ** A pinned commit is not dropped. *)
Definition keeps s s' : Prop := pins s' = pins s /\ forall c, c ∈ commits s -> is_Some (pins s !! cp_generation c) -> c ∈ commits s'.

Lemma frame_keeps s s' : frame s s' -> keeps s s'.
Proof. intros [Hc Hp]. unfold keeps, pins. by rewrite Hc, Hp. Qed.

Lemma decided_kept (l : list CommitPoint) k c i : l !! i = Some c ->
  (exists d, k !! i = Some d /\ DeletionPolicy.deleted d = false) -> c ∈ decided l k false.
Proof.
  unfold decided. revert k i. induction l as [|x l IH]; intros [|d k] [|i] Hi (d' & Hd & Hdel); try done; cbn in *.
  - injection Hi as ->. injection Hd as ->. rewrite Hdel. cbn. by left.
  - assert (Hin : c ∈ map fst (List.filter (fun e => Bool.eqb (DeletionPolicy.deleted e.2) false) (List.combine l k))) by (eapply IH; eauto).
    destruct (Bool.eqb _ _); [by right|done].
Qed.

Lemma unpinned_keeps s s' : custom s = None -> custom s' = None -> keeps s s'.
Proof. intros Hs Hs'. unfold keeps, pins. rewrite Hs, Hs'. split; [done|]. intros c _ Hp. rewrite lookup_empty in Hp. by destruct Hp. Qed.

Lemma apply_policy_keeps init s r s' : apply_policy (SE := SE) (O := O) init s = (r, s') -> keeps s s'.
Proof.
  unfold apply_policy. destruct (custom s) as [sp|] eqn:Hsp.
  2: { destruct (_ || _); [by intros [= _ <-]; apply unpinned_keeps|]. intros (d & c & y & ->)%release_commits_tracked. by apply unpinned_keeps. }
  destruct ((if init then DeletionPolicy.on_init else DeletionPolicy.on_commit) (sp, index_commits s)) as [o [sp1 l1]] eqn:Ep.
  destruct (DeletionPolicy.policy_call_kept init sp _ _ _ _ Ep) as [Hpins Hkept].
  assert (Hps : pins s = DeletionPolicy.pins sp) by (unfold pins; by rewrite Hsp).
  destruct o as [u|e].
  2: { intros [= _ <-]. unfold keeps. rewrite Hps. by split. }
  intros (d & c & y & ->)%release_commits_tracked. unfold keeps. rewrite Hps. split; [exact Hpins|]. cbn [commits set_tracked set_commits].
  intros cp Hcp Hpin. apply list_elem_of_lookup in Hcp as [i Hi]. eapply decided_kept; [exact Hi|].
  exists (DeletionPolicy.new_commit (cp_generation cp) (cp_segments_file_name cp) (cp_files cp) (cp_segment_count cp) (cp_user_data cp)).
  split; [|done]. apply Hkept; [|done]. unfold index_commits. by rewrite list_lookup_fmap, Hi.
Qed.

Lemma keeps_trans s1 s2 s3 : keeps s1 s2 -> keeps s2 s3 -> keeps s1 s3.
Proof. intros [Hp1 Hk1] [Hp2 Hk2]. split; [congruence|]. intros c Hc Hpin. apply Hk2; [auto|]. by rewrite Hp1. Qed.
Lemma forget_keeps s1 s2 : keeps s1 s2 -> keeps s1 (forget_dead_segments s2).
Proof. intros Hk. eapply keeps_trans; [exact Hk|]. by apply frame_keeps. Qed.

Lemma checkpoint_keeps infos b s r s' : checkpoint (O := O) read_si infos b s = (r, s') -> keeps s s'.
Proof.
  unfold checkpoint. unfold bind at 1. destruct (commit_files read_si infos b s) as [[files|e] s1] eqn:E1; apply commit_files_frame, frame_keeps in E1;
    [|by intros [= _ <-]]. unfold bind at 1. intros E. eapply keeps_trans; [exact E1|]. clear s E1.
  eapply keeps_trans; [apply frame_keeps, tracked_frame, (inc_ref_all_tracked files)|]. revert E. generalize (inc_ref_all files s1). clear s1. intros s.
  destruct b; unfold bind at 1; unfold bind at 1.
  - set (s2 := set_commits _ s). destruct (apply_policy false s2) as [o s3] eqn:E3. apply apply_policy_keeps in E3.
    assert (H23 : keeps s s3).
    { eapply keeps_trans; [|exact E3]. split; [done|]. intros c Hc _. unfold s2. cbn [commits set_commits].
      rewrite sort_points_perm. apply elem_of_app. by left. }
    destruct o; intros [= _ <-]; [by apply forget_keeps|done].
  - destruct (dec_ref_all (last_files s) (set_last_files [] s)) as [[u|e] s2] eqn:E2;
      apply dec_ref_all_tracked, tracked_frame, frame_keeps in E2; intros [= _ <-]; [apply forget_keeps|]; exact E2.
Qed.

(** Every operation that does not let its caller choose. *)
Lemma op_keeps s held new ok s' held' : op (SE := SE) (O := O) read_si false s held new ok s' held' -> keeps s s'.
Proof.
  inversion 1; subst; try by apply frame_keeps.
  - by eapply checkpoint_keeps.
  - match goal with E : revisit_policy _ = _ |- _ => rename E into Hrun end. unfold revisit_policy in Hrun.
    destruct (commits s) eqn:Ec; [injection Hrun as _ <-; by apply frame_keeps|].
    unfold bind in Hrun. destruct (apply_policy false s) as [[u|e] s1] eqn:E1; apply apply_policy_keeps in E1; injection Hrun as _ <-; [by apply forget_keeps|done].
  - match goal with E : refresh _ = _ |- _ => rename E into Hrun end. unfold refresh, bind, on_dir in Hrun.
    destruct (directory_list_all (directory s)) as [[l|e] d]; [|injection Hrun as _ <-; by apply frame_keeps].
    apply delete_files_tracked, tracked_frame in Hrun. by apply frame_keeps.
  - match goal with E : delete_new_files _ _ = _ |- _ => rename E into Hrun end. unfold delete_new_files, bind in Hrun.
    destruct (delete_files _ s) as [[u|e] s1] eqn:E1; apply delete_files_tracked, tracked_frame, frame_keeps in E1; injection Hrun as _ <-;
      [by apply forget_keeps|done].
  - match goal with E : sync_commit_files _ _ _ = _ |- _ => rename E into Hrun end. unfold sync_commit_files, bind at 1 in Hrun.
    destruct (commit_files read_si infos false s) as [[files|e] s1] eqn:E1; apply commit_files_frame, frame_keeps in E1; [|by injection Hrun as _ <-].
    eapply keeps_trans; [exact E1|]. destruct (List.filter _ files); [injection Hrun as _ <-; by apply frame_keeps|].
    unfold bind, on_dir in Hrun. destruct (directory_sync _ (directory s1)) as [[u|e] d]; injection Hrun as _ <-; by apply frame_keeps.
  - match goal with E : hold_segment_files _ _ _ = _ |- _ => rename E into Hrun end. unfold hold_segment_files, bind in Hrun.
    destruct (hold_loop read_si segs [] s) as [[l|e] s1] eqn:E1; apply hold_loop_frame, frame_keeps in E1; injection Hrun as _ <-; [|done].
    eapply keeps_trans; [exact E1|]. apply frame_keeps, tracked_frame, inc_ref_all_tracked.
  - apply frame_keeps, tracked_frame, inc_ref_all_tracked.
  - match goal with E : release_files _ _ = _ |- _ => rename E into Hrun end. unfold release_files, bind in Hrun.
    destruct (dec_ref_all l s) as [[u|e] s1] eqn:E1; apply dec_ref_all_tracked, tracked_frame, frame_keeps in E1; injection Hrun as _ <-;
      [by apply forget_keeps|done].
Qed.

(** C5: a pinned commit stays, files and all.  Under a snapshot policy over
    any primary policy, an operation of the deleter that does not itself
    change the policy or drop commits leaves every live commit with a pinned
    generation live, with all its files as they were, and all the pins,
    whether it succeeds or fails. *)
Theorem pinned_commits_stay clean hist s held new ok s' held' (c : CommitPoint) :
  reachable (SE := SE) (O := O) crc read_si clean hist s held -> op (SE := SE) (O := O) read_si false s held new ok s' held' ->
  c ∈ commits s -> is_Some (pins s !! cp_generation c) ->
  pins s' = pins s /\ c ∈ commits s' /\ forall f, f ∈ cp_files c -> directory_view (directory s') !! f = directory_view (directory s) !! f.
Proof.
  intros Hr Hop Hc Hpin. destruct (op_keeps _ _ _ _ _ _ Hop) as [Hp Hk]. specialize (Hk c Hc Hpin).
  split; [done|]. split; [done|]. intros f Hf. destruct (deleter_inv _ _ _ _ _ _ Hr) as (Hw & leaked & _ & Hcn & _).
  destruct (op_performs crc read_si _ _ _ _ _ _ _ Hop leaked Hw Hcn) as (leaked' & _ & _ & He). destruct (eff_del _ _ _ _ _ He f) as [?|[_ Hz]]; [done|].
  pose proof (total_in f (refs s' held' leaked') (cp_files c)) as Ht. assert (0 < 0); [|lia]. rewrite <- Hz at 2. apply Ht; [|done].
  unfold refs. apply elem_of_app. left. by apply list_elem_of_In, in_map, list_elem_of_In.
Qed.
End pinned.

(** ** A commit pinned before the next one is published. *)
Section sample.
Notation BD := ByteBuffersDirectory.t.
Notation BO := ByteBuffersDirectory.output.
Notation SP := (DeletionPolicy.SnapshotDeletionPolicy DeletionPolicy.KeepOnlyLastCommit).
Notation SD := (t BD SP).
Notation crc := (fun _ : list byte => 0).

Definition with_disk (d : BD) (c : option SP) (s : SD) : SD :=
  mk d (policy s) c (ref_counts s) (commits s) (last_files s) (si_files s) (synced s).
Definition write_segment (g : Z) (s : SD) : BD :=
  foldr add_file (directory s) [bytes "segments_" ++ to_base36 g; bytes "_" ++ to_base36 g ++ bytes ".cfs"; bytes "_" ++ to_base36 g ++ bytes ".si"].
Definition commit_of (g : Z) : SegmentInfos.t := sample_infos g [bytes "_" ++ to_base36 g].
Definition commit (g : Z) (s : SD) : result (Error unit) unit * SD := checkpoint (SE := unit) (O := BO) sample_read_si (commit_of g) true s.

Definition start : SD :=
  (open_with_policy (SE := unit) (O := BO) crc sample_read_si ByteBuffersDirectory.new (sample_infos 0 [])
     (DeletionPolicy.snapshot_policy_new DeletionPolicy.keep_only_last_commit)).2.
Definition with_first : SD := with_disk (write_segment 1 start) (custom start) start.
Definition one : SD := (commit 1 with_first).2.
(** [snapshot()]. *)
Definition pin (sp : SP) : SP :=
  DeletionPolicy.mk_snapshot_policy (DeletionPolicy.primary sp) (DeletionPolicy.snapshot (DeletionPolicy.state sp)).2.
Definition one_pinned : SD := with_disk (write_segment 2 one) (pin <$> custom one) one.
Definition two : SD := (commit 2 one_pinned).2.

Definition first_point : CommitPoint := mk_point 1 (bytes "segments_1") [bytes "segments_1"; bytes "_1.cfs"; bytes "_1.si"] 1 [].

Notation sample_reachable := (reachable (SE := unit) (O := BO) crc sample_read_si).

Lemma start_reachable : sample_reachable true (refs start [] []) start [].
Proof.
  apply (reach_open _ _ ByteBuffersDirectory.new (sample_infos 0 []) KeepOnlyLastCommit
    (Some (DeletionPolicy.snapshot_policy_new DeletionPolicy.keep_only_last_commit))).
  - apply ByteBuffersDirectory.new_directory_inv.
  - intros l d' [= <- <-]. by vm_compute.
  - by vm_compute.
Qed.

Lemma commit_op g s : (commit g s).1 = Ok tt -> forallb (fun e => e.2 + 1 <? 2 ^ 32) (map_to_list (ref_counts s)) = true ->
  op (SE := unit) (O := BO) sample_read_si false s [] (taken (commit_files (SE := unit) (O := BO) sample_read_si (commit_of g) true s).1) true (commit g s).2 [].
Proof.
  intros Ho Hr. pose proof (op_checkpoint (SE := unit) (O := BO) sample_read_si (commit_of g) true s [] (commit g s).1 (commit g s).2) as Hop.
  rewrite Ho in Hop. apply Hop; [by apply room_check|]. rewrite <- Ho. apply surjective_pairing.
Qed.

Lemma one_pinned_reachable : exists hist, sample_reachable true hist one_pinned [].
Proof.
  assert (H1 : sample_reachable true (refs start [] []) with_first []).
  { apply reach_other; [apply start_reachable|]. apply add_files_inv. apply (deleter_inv _ _ _ _ _ _ start_reachable). }
  assert (H2 : exists hist, sample_reachable true hist one []).
  { eexists. eapply (reach_op _ _ true); [exact H1|]. apply (commit_op 1); by vm_compute. }
  destruct H2 as [hist H2]. exists hist. apply reach_other; [exact H2|]. apply add_files_inv. apply (deleter_inv _ _ _ _ _ _ H2).
Qed.

(** The primary policy would have dropped commit 1. *)
Lemma pinned_commits_stay_witness :
  (commit 2 one_pinned).1 = Ok tt /\ first_point ∈ commits two /\
  directory_view (directory two) !! bytes "_1.cfs" = directory_view (directory one_pinned) !! bytes "_1.cfs".
Proof.
  assert (Ho : (commit 2 one_pinned).1 = Ok tt) by (vm_compute; reflexivity). split; [exact Ho|].
  destruct one_pinned_reachable as [hist Hr].
  assert (Hop : op (SE := unit) (O := BO) sample_read_si false one_pinned [] _ true two []) by (apply commit_op; vm_compute; reflexivity).
  assert (Hc : commits one_pinned = [first_point]) by (vm_compute; reflexivity).
  assert (Hp : pins one_pinned !! 1 = Some 1) by (vm_compute; reflexivity).
  destruct (pinned_commits_stay crc sample_read_si true hist one_pinned [] _ true two [] first_point Hr Hop) as (_ & Hin & Hv).
  - rewrite Hc. by left.
  - exists 1. exact Hp.
  - split; [exact Hin|]. apply Hv. by right; left.
Defined.
End sample.
End DeleterSnapshots.
