(* ===== verification/Float32.v ===== *)
(** * [f32] as an ordered type, and as its bits

    [total_cmp] is a total order on the data of [Search.v]'s [f32]: it is the
    lexicographic order of [rank_key].  On scores that are neither NaN nor
    negative zero it is also what [<], [==] and [<=] say.  [to_bits] and
    [from_bits] are the IEEE encoding of single precision, [next_up] and
    [next_down] the neighbours. *)
From S2P Require Export Search.

(** ** The order *)
Definition lex3 (a b : Z * Z * Z) : comparison :=
  match Z.compare a.1.1 b.1.1 with
  | Datatypes.Eq => match Z.compare a.1.2 b.1.2 with
          | Datatypes.Eq => Z.compare a.2 b.2
          | c => c
          end
  | c => c
  end.

Definition rank_key (f : f32) : Z * Z * Z :=
  match f with
  | S754_infinity true => (0, 0, 0)
  | S754_finite true m e => (1, - e, - Zpos m)
  | S754_zero true => (2, 0, 0)
  | S754_zero false => (3, 0, 0)
  | S754_finite false m e => (4, e, Zpos m)
  | S754_infinity false => (5, 0, 0)
  | S754_nan => (6, 0, 0)
  end.

(** Neither NaN nor negative zero. *)
Definition plain (f : f32) : bool :=
  match f with S754_nan | S754_zero true => false | _ => true end.

(** ** The bits of a single *)
Definition sign_bit : Z := 2 ^ 31.
Definition magnitude (f : f32) : Z :=
  match f with
  | S754_zero _ => 0
  | S754_finite _ m e => (e + 149) * 2 ^ 23 + Zpos m
  | S754_infinity _ => 255 * 2 ^ 23
  | S754_nan => 255 * 2 ^ 23 + 2 ^ 22
  end.
Definition negative (f : f32) : bool :=
  match f with S754_zero s | S754_infinity s | S754_finite s _ _ => s | S754_nan => false end.
(** [f32::to_bits], as an [i32]; a NaN is the one [canonical_score] makes. *)
Definition to_bits (f : f32) : Z := if negative f then magnitude f - sign_bit else magnitude f.

(** [f32::from_bits] of the [i32]'s bits. *)
Definition from_bits (b : Z) : f32 :=
  let s := b <? 0 in
  let mag := if s then b + sign_bit else b in
  let exp := mag / 2 ^ 23 in
  let frac := mag mod 2 ^ 23 in
  if exp =? 255 then (if frac =? 0 then S754_infinity s else S754_nan)
  else if exp =? 0 then match frac with Zpos m => S754_finite s m (-149) | _ => S754_zero s end
  else match 2 ^ 23 + frac with Zpos m => S754_finite s m (exp - 150) | _ => S754_zero s end.

(** [f32::next_up] and [f32::next_down], a step of the bits. *)
Definition next_up (f : f32) : f32 :=
  match f with
  | S754_nan | S754_infinity false => f
  | S754_zero _ => from_bits 1
  | _ => from_bits (if negative f then to_bits f - 1 else to_bits f + 1)
  end.
Definition next_down (f : f32) : f32 :=
  match f with
  | S754_nan | S754_infinity true => f
  | S754_zero _ => from_bits (1 - sign_bit)
  | _ => from_bits (if negative f then to_bits f + 1 else to_bits f - 1)
  end.

(** The data that single precision has. *)
Definition is_f32 (f : f32) : Prop :=
  match f with
  | S754_finite _ m e => -149 <= e <= 104 /\ Zpos m < 2 ^ 24 /\ (2 ^ 23 <= Zpos m \/ e = -149)
  | _ => True
  end.

Definition is_f32b (f : f32) : bool :=
  match f with
  | S754_finite _ m e =>
      (-149 <=? e) && (e <=? 104) && (Zpos m <? 2 ^ 24) && ((2 ^ 23 <=? Zpos m) || (e =? -149))
  | _ => true
  end.
Lemma is_f32_check f : is_f32b f = true -> is_f32 f.
Proof. destruct f as [|  | |s m e]; cbn; try done. lia. Qed.

(** ** [lex3] orders *)
Lemma lex3_eq a b : lex3 a b = Datatypes.Eq <-> a = b.
Proof.
  destruct a as [[a1 a2] a3], b as [[b1 b2] b3]. unfold lex3. cbn [fst snd].
  destruct (Z.compare_spec a1 b1), (Z.compare_spec a2 b2), (Z.compare_spec a3 b3); subst;
    split; intros He; try done; injection He; lia.
Qed.

Lemma lex3_antisym a b : lex3 b a = CompOpp (lex3 a b).
Proof.
  unfold lex3. rewrite (Z.compare_antisym a.1.1 b.1.1). destruct (a.1.1 ?= b.1.1); cbn; [|done|done].
  rewrite (Z.compare_antisym a.1.2 b.1.2). destruct (a.1.2 ?= b.1.2); cbn; [|done|done].
  apply Z.compare_antisym.
Qed.

Lemma lex3_lt_trans a b c : lex3 a b = Datatypes.Lt -> lex3 b c = Datatypes.Lt -> lex3 a c = Datatypes.Lt.
Proof.
  destruct a as [[a1 a2] a3], b as [[b1 b2] b3], c as [[c1 c2] c3]. unfold lex3. cbn [fst snd].
  destruct (Z.compare_spec a1 b1), (Z.compare_spec b1 c1), (Z.compare_spec a1 c1); try done; try lia; subst;
    destruct (Z.compare_spec a2 b2), (Z.compare_spec b2 c2), (Z.compare_spec a2 c2); try done; try lia; subst;
    destruct (Z.compare_spec a3 b3), (Z.compare_spec b3 c3), (Z.compare_spec a3 c3); try done; lia.
Qed.

Lemma rank_key_inj f g : rank_key f = rank_key g -> f = g.
Proof. destruct f as [[]|[]| |[] ? ?], g as [[]|[]| |[] ? ?]; cbn; intros H; first [congruence|injection H; intros; f_equal; lia]. Qed.

Lemma total_cmp_key f g : total_cmp f g = lex3 (rank_key f) (rank_key g).
Proof.
  destruct f as [[]|[]| |[] m e], g as [[]|[]| |[] m' e']; try done; unfold total_cmp, lex3; cbn.
  rewrite Z.compare_opp, (Z.compare_antisym e e'). by destruct (e ?= e').
Qed.

Lemma total_cmp_eq f g : total_cmp f g = Datatypes.Eq <-> f = g.
Proof. rewrite total_cmp_key, lex3_eq. split; [apply rank_key_inj|by intros ->]. Qed.

Lemma total_cmp_antisym f g : total_cmp g f = CompOpp (total_cmp f g).
Proof. rewrite !total_cmp_key. apply lex3_antisym. Qed.

Lemma total_cmp_lt_trans f g h : total_cmp f g = Datatypes.Lt -> total_cmp g h = Datatypes.Lt -> total_cmp f h = Datatypes.Lt.
Proof. rewrite !total_cmp_key. apply lex3_lt_trans. Qed.

(** On plain scores the comparisons are the order. *)
Lemma plain_compare f g : plain f = true -> plain g = true -> SFcompare f g = Some (total_cmp f g).
Proof. destruct f as [[]|[]| |[] m e], g as [[]|[]| |[] m' e']; done. Qed.

Lemma plain_lt f g : plain f = true -> plain g = true ->
  SFltb f g = match total_cmp f g with Datatypes.Lt => true | _ => false end.
Proof. intros Hf Hg. unfold SFltb. by rewrite (plain_compare f g Hf Hg). Qed.

Lemma plain_eq f g : plain f = true -> plain g = true ->
  SFeqb f g = match total_cmp f g with Datatypes.Eq => true | _ => false end.
Proof. intros Hf Hg. unfold SFeqb. by rewrite (plain_compare f g Hf Hg). Qed.

(** ** The encoding *)
Lemma magnitude_range f : is_f32 f -> 0 <= magnitude f < sign_bit.
Proof. unfold sign_bit. destruct f as [[]|[]| |s m e]; cbn; lia. Qed.

Lemma to_bits_in_s f : is_f32 f -> in_s 32 (to_bits f).
Proof.
  intros Hf. pose proof (magnitude_range f Hf). unfold to_bits, in_s, sign_bit in *.
  change (2 ^ (32 - 1)) with (2 ^ 31). destruct (negative f); lia.
Qed.

Lemma from_magnitude (s : bool) mag :
  0 <= mag < sign_bit -> from_bits (if s then mag - sign_bit else mag) =
  (let exp := mag / 2 ^ 23 in let frac := mag mod 2 ^ 23 in
   if exp =? 255 then (if frac =? 0 then S754_infinity s else S754_nan)
   else if exp =? 0 then match frac with Zpos m => S754_finite s m (-149) | _ => S754_zero s end
   else match 2 ^ 23 + frac with Zpos m => S754_finite s m (exp - 150) | _ => S754_zero s end).
Proof.
  intros H. unfold from_bits. destruct s.
  - destruct (Z.ltb_spec (mag - sign_bit) 0); [|lia]. by rewrite Z.sub_add.
  - by destruct (Z.ltb_spec mag 0); [lia|].
Qed.

Lemma from_to_bits f : is_f32 f -> from_bits (to_bits f) = f.
Proof.
  intros Hf. pose proof (magnitude_range f Hf) as Hm. unfold to_bits. rewrite from_magnitude by done.
  destruct f as [s|s| |s m e]; [done|done|done|]. cbn [magnitude negative] in *. destruct Hf as (He & Hm24 & Hn).
  cbv zeta. destruct (Z.leb_spec (2 ^ 23) (Zpos m)) as [Hbig|Hsmall].
  - assert (Hd : ((e + 149) * 2 ^ 23 + Zpos m) / 2 ^ 23 = e + 150 /\ ((e + 149) * 2 ^ 23 + Zpos m) mod 2 ^ 23 = Zpos m - 2 ^ 23).
    { split; symmetry; [apply (Z.div_unique _ _ _ (Zpos m - 2 ^ 23))|apply (Z.mod_unique _ _ (e + 150))]; lia. }
    destruct Hd as [-> ->]. destruct (Z.eqb_spec (e + 150) 255); [lia|]. destruct (Z.eqb_spec (e + 150) 0); [lia|].
    replace (2 ^ 23 + (Zpos m - 2 ^ 23)) with (Zpos m) by lia. f_equal. lia.
  - destruct Hn as [Hn| ->]; [lia|]. change (-149 + 149) with 0. rewrite Z.mul_0_l, Z.add_0_l.
    rewrite Z.div_small, Z.mod_small by lia. done.
Qed.

(** Within one sign the magnitudes are ordered as the floats. *)
Lemma magnitude_compare m e m' e' :
  is_f32 (S754_finite false m e) -> is_f32 (S754_finite false m' e') ->
  ((e + 149) * 2 ^ 23 + Zpos m ?= (e' + 149) * 2 ^ 23 + Zpos m') =
  lex3 (4, e, Zpos m) (4, e', Zpos m').
Proof.
  cbn. intros (He & Hm & Hn) (He' & Hm' & Hn'). unfold lex3. cbn [fst snd].
  destruct (Z.compare_spec e e') as [->|Hlt|Hgt].
  - by rewrite Z.add_compare_mono_l.
  - apply Z.compare_lt_iff. lia.
  - apply Z.compare_gt_iff. lia.
Qed.

Lemma div_mod_23 q r : 0 <= r < 2 ^ 23 -> (q * 2 ^ 23 + r) / 2 ^ 23 = q /\ (q * 2 ^ 23 + r) mod 2 ^ 23 = r.
Proof. intros H. split; symmetry; [apply (Z.div_unique _ _ _ r)|apply (Z.mod_unique _ _ q)]; lia. Qed.

(** The bits of a datum, and that it is one: no NaN has other bits. *)
Lemma to_from_magnitude (s : bool) mag :
  0 <= mag <= 255 * 2 ^ 23 ->
  let f := from_bits (if s then mag - sign_bit else mag) in
  is_f32 f /\ negative f = s /\ magnitude f = mag /\ plain f = negb (s && (mag =? 0)).
Proof.
  intros H f. unfold f. rewrite from_magnitude by (unfold sign_bit; lia). cbv zeta. clear f.
  pose proof (Z.div_mod mag (2 ^ 23) ltac:(lia)) as Hdm. pose proof (Z.mod_pos_bound mag (2 ^ 23) ltac:(lia)) as Hr.
  set (q := mag / 2 ^ 23) in *. set (r := mag mod 2 ^ 23) in *.
  destruct (Z.eqb_spec q 255) as [Hq|Hq].
  { assert (Hr0 : r = 0) by lia. rewrite Hr0. cbn [Z.eqb is_f32 negative magnitude plain]. split; [done|].
    split; [done|]. split; [lia|]. destruct (Z.eqb_spec mag 0); [lia|]. by rewrite andb_false_r. }
  destruct (Z.eqb_spec q 0) as [Hq0|Hq0].
  - destruct r as [|m|m] eqn:Er; [|..|lia].
    + assert (mag = 0) as -> by lia. cbn. split; [done|]. split; [done|]. split; [done|]. by destruct s.
    + cbn [is_f32 negative magnitude plain]. split; [lia|]. split; [done|]. split; [lia|].
      destruct (Z.eqb_spec mag 0); [lia|]. by rewrite andb_false_r.
  - destruct (2 ^ 23 + r) as [|m|m] eqn:Em; [lia| |lia]. cbn [is_f32 negative magnitude plain]. split; [lia|]. split; [done|]. split; [lia|].
    destruct (Z.eqb_spec mag 0); [lia|]. by rewrite andb_false_r.
Qed.

(** ** Rounding gives single-precision data *)
Lemma digits2_log2 m : Zpos (digits2_pos m) = Z.log2 (Zpos m) + 1.
Proof.
  assert (Hd : forall p, 2 ^ (Zpos (digits2_pos p) - 1) <= Zpos p < 2 ^ Zpos (digits2_pos p)).
  { induction p as [p IH|p IH|]; [| |done]; cbn [digits2_pos]; rewrite Pos2Z.inj_succ;
      replace (Z.succ (Zpos (digits2_pos p)) - 1) with (Zpos (digits2_pos p) - 1 + 1) by lia;
      rewrite Z.pow_add_r, Z.pow_succ_r by lia; lia. }
  rewrite (Z.log2_unique (Zpos m) (Zpos (digits2_pos m) - 1)); [lia|lia|]. specialize (Hd m).
  replace (Z.succ (Zpos (digits2_pos m) - 1)) with (Zpos (digits2_pos m)) by lia. done.
Qed.

Lemma shr_1_m r : 0 <= shr_m r -> shr_m (shr_1 r) = shr_m r / 2.
Proof.
  destruct r as [[|p|p] r s]; cbn; intros H; [done| |lia].
  destruct p as [p|p|]; cbn [shr_m]; [|by rewrite (Pos2Z.inj_xO p), Z.mul_comm, Z.div_mul|done].
  apply (Z.div_unique _ _ _ 1); lia.
Qed.

Lemma shr_iter_m p : forall r, 0 <= shr_m r -> shr_m (SpecFloat.iter_pos shr_1 p r) = shr_m r / 2 ^ Zpos p.
Proof.
  assert (Hpos : forall (r : shr_record) k, 0 <= shr_m r -> 0 <= k -> 0 <= shr_m r / 2 ^ k) by (intros; apply Z.div_pos; [done|by apply Z.pow_pos_nonneg]).
  induction p as [p IH|p IH|]; intros r Hr; cbn [SpecFloat.iter_pos].
  - assert (H1 : 0 <= shr_m (shr_1 r)) by (rewrite shr_1_m by done; by apply (Hpos r 1)).
    rewrite !IH by (rewrite ?IH by done; auto using Pos2Z.is_nonneg). rewrite shr_1_m by done. change (shr_m r / 2) with (shr_m r / 2 ^ 1).
    rewrite !Z.div_div by (lia || (apply Z.pow_pos_nonneg; lia) || (apply Z.pow_nonzero; lia)). f_equal.
    rewrite <- !Z.pow_add_r by lia. f_equal. lia.
  - rewrite !IH by (rewrite ?IH by done; auto using Pos2Z.is_nonneg). rewrite Z.div_div by (apply Z.pow_nonzero || apply Z.pow_pos_nonneg; lia).
    rewrite <- Z.pow_add_r by lia. do 2 f_equal. lia.
  - rewrite shr_1_m by done. done.
Qed.

(** The shift of [shr_fexp]: none when the exponent is high enough. *)
Lemma shr_fexp_spec m e l : 0 <= m ->
  let n := fexp 24 128 (Zdigits2 m + e) - e in
  let '(r, e') := shr_fexp 24 128 m e l in shr_m r = m / 2 ^ Z.max 0 n /\ e' = e + Z.max 0 n.
Proof.
  intros Hm n. unfold shr_fexp. fold n.
  assert (Hr : shr_m (shr_record_of_loc m l) = m) by by destruct l as [|[]].
  destruct n as [|p|p] eqn:En; cbn [shr].
  - rewrite Hr, Z.div_1_r. split; [done|]. lia.
  - rewrite shr_iter_m by (by rewrite Hr). rewrite Hr. done.
  - rewrite Hr. replace (Z.max 0 (Z.neg p)) with 0 by lia. rewrite Z.div_1_r. split; [done|]. lia.
Qed.

Lemma rounded_up m l : round_nearest_even m l = m \/ round_nearest_even m l = m + 1.
Proof. destruct l as [|[]]; cbn; [auto..|]. destruct (Z.even m); auto. all: auto. Qed.

Lemma Zdigits2_bounds m : 0 < m -> 2 ^ (Zdigits2 m - 1) <= m < 2 ^ Zdigits2 m.
Proof.
  intros Hm. destruct m as [|p|p]; [lia| |lia]. cbn [Zdigits2]. rewrite digits2_log2. pose proof (Z.log2_spec (Zpos p) Hm).
  rewrite Z.add_simpl_r. change (Z.log2 (Z.pos p) + 1) with (Z.succ (Z.log2 (Z.pos p))). done.
Qed.

(** The second shift, after rounding: at most one, when the mantissa fills. *)
Lemma rounded_datum s m e : 0 <= m <= 2 ^ 24 -> -149 <= e -> (2 ^ 23 <= m \/ e = -149) ->
  is_f32 (let '(r, e') := shr_fexp 24 128 m e loc_Exact in
          match shr_m r with
          | Z0 => S754_zero s
          | Zpos p => if e' <=? 128 - 24 then S754_finite s p e' else S754_infinity s
          | _ => S754_nan
          end).
Proof.
  intros Hm He Hn. pose proof (shr_fexp_spec m e loc_Exact ltac:(lia)) as Hs. cbv zeta in Hs.
  destruct (shr_fexp 24 128 m e loc_Exact) as [r e']. destruct Hs as [-> ->].
  assert (H : fexp 24 128 (Zdigits2 m + e) - e <= 0 \/ (m = 2 ^ 24 /\ fexp 24 128 (Zdigits2 m + e) - e = 1)).
  { unfold fexp, emin. destruct (Z.eq_dec m 0) as [->|Hm0]; [cbn; lia|]. pose proof (Zdigits2_bounds m ltac:(lia)) as Hd.
    destruct (Z.eq_dec m (2 ^ 24)) as [->|Hne]; [right; split; [done|]; change (Zdigits2 (2 ^ 24)) with 25; lia|left].
    assert (Zdigits2 m <= 24); [|lia]. destruct (Z.le_gt_cases (Zdigits2 m) 24); [done|].
    assert (2 ^ 24 <= 2 ^ (Zdigits2 m - 1)) by (apply Z.pow_le_mono_r; lia). lia. }
  destruct H as [H|[-> H]].
  - rewrite Z.max_l, Z.div_1_r, Z.add_0_r by lia. destruct m as [|p|p]; [done| |lia].
    destruct (Z.leb_spec e (128 - 24)); cbn; [|done]. destruct (Z.eq_dec (Zpos p) (2 ^ 24)) as [Ep|]; [|lia].
    exfalso. rewrite Ep in H. unfold fexp, emin in H. change (Zdigits2 (2 ^ 24)) with 25 in H. lia.
  - rewrite H. change (2 ^ 24 / 2 ^ Z.max 0 1) with (Zpos 8388608). change (Z.max 0 1) with 1.
    destruct (Z.leb_spec (e + 1) (128 - 24)); [|done]. split; [lia|]. split; [done|by left].
Qed.

Lemma binary_round_f32 s m e : is_f32 (binary_round 24 128 s m e).
Proof.
  unfold binary_round, binary_round_aux. rewrite digits2_log2. change (Z.log2 (Z.pos m) + 1) with (Z.log2 (Zpos m) + 1).
  set (F := fexp 24 128 (Z.log2 (Zpos m) + 1 + e)).
  assert (Ha : let '(mz, ez) := shl_align m e F in ez <= F /\ Zdigits2 (Zpos mz) + ez = Z.log2 (Zpos m) + 1 + e).
  { unfold shl_align. destruct (F - e) as [|d|d] eqn:Ed; cbn [Zdigits2]; rewrite ?digits2_log2; [lia|lia|]. split; [lia|].
    assert (E : Zpos (Pos.iter xO m d) = Zpos m * 2 ^ Zpos d).
    { rewrite <- Z.shiftl_mul_pow2 by lia. unfold Z.shiftl. clear Ed. induction d as [|d IH] using Pos.peano_ind; [done|]. by rewrite !Pos.iter_succ, Pos2Z.inj_xO, IH. }
    match goal with |- Z.log2 ?x + _ + _ = _ => replace x with (Zpos m * 2 ^ Zpos d) by (symmetry; exact E) end.
    rewrite Z.log2_mul_pow2 by lia. lia. }
  destruct (shl_align m e F) as [mz ez]. destruct Ha as [Hez Hdig].
  pose proof (shr_fexp_spec (Zpos mz) ez loc_Exact ltac:(lia)) as Hs. cbv zeta in Hs. rewrite Hdig in Hs. fold F in Hs.
  destruct (shr_fexp 24 128 (Zpos mz) ez loc_Exact) as [r e1]. destruct Hs as [Hr ->]. rewrite Z.max_r in * by lia.
  pose proof (Zdigits2_bounds (Zpos mz) ltac:(lia)) as Hb. set (D := Zdigits2 (Zpos mz)) in *.
  assert (HF : F = Z.max (D + ez - 24) (-149)) by (unfold F, fexp, emin; lia).
  assert (Hm1 : 0 <= shr_m r < 2 ^ 24 /\ (2 ^ 23 <= shr_m r \/ F = -149)).
  { rewrite Hr. assert (0 < 2 ^ (F - ez)) by (apply Z.pow_pos_nonneg; lia). split; [split; [apply Z.div_pos; lia|]|].
    - apply Z.div_lt_upper_bound; [done|]. rewrite <- Z.pow_add_r by lia. assert (2 ^ D <= 2 ^ (F - ez + 24)) by (apply Z.pow_le_mono_r; lia). lia.
    - destruct (Z.eq_dec F (-149)); [by right|left]. apply Z.div_le_lower_bound; [done|]. rewrite <- Z.pow_add_r by lia.
      replace (F - ez + 23) with (D - 1) by lia. lia. }
  destruct (rounded_up (shr_m r) (loc_of_shr_record r)) as [E|E]; rewrite E; apply (rounded_datum s); lia.
Qed.

Lemma f32_of_f64_datum x : is_f32 (f32_of_f64 x).
Proof. destruct x; try done. apply binary_round_f32. Qed.
