(* ===== verification/DirectMonotonic.v ===== *)
(** * Monotonic sequences in packed blocks ([lucene-codecs/src/direct_monotonic.rs])

    A block keeps a minimum, an [f32] slope and the bit-packed differences
    from the line.  [get] reads one value, [Reader] and [fill] read many; the
    outer [option] of those two is an unchecked load, as in
    [PackedLongs.v].  [write] is given whether the build checks
    [debug_assert!].  Proved: both are [get], errors included; whatever
    integers [write] takes (sorted ones in a build that checks, any ones in a
    release build), and however the slope rounds, they are read back; and [floor_index] is the search it says it is. *)
From stdpp Require Import strings sorting.
From S2P Require Import Prelude StoreError DataOutput DataInput SliceInput Wire CodecUtil SegmentFile BitWords PackedLongs DirectReader Float32.

Module DirectMonotonic.

Definition MIN_BLOCK_SHIFT : Z := 2.
Definition MAX_BLOCK_SHIFT : Z := 22.

Record Block : Type := mk_block { block_min : Z; block_offset : Z; block_avg : f32; block_bpv : Z }.
Record Meta : Type := mk_meta { block_shift : Z; blocks : list Block }.

(** [x as i64] of an [f32]: towards zero, saturating, NaN is 0. *)
Definition f32_to_i64 (x : f32) : Z :=
  match x with
  | S754_nan | S754_zero _ => 0
  | S754_infinity s => if s then - 2 ^ 63 else i64_max
  | S754_finite s m e =>
      let a := if 0 <=? e then Zpos m * 2 ^ e else Zpos m / 2 ^ (- e) in
      sat64 (if s then - a else a)
  end.

(** [min.wrapping_add((avg * i as f32) as i64).wrapping_add(delta)]. *)
Definition estimate (avg : f32) (i : Z) : Z := f32_to_i64 (f32_mul avg (f32_of_Z i)).
Definition on_line (b : Block) (i delta : Z) : Z := wraps 64 (wraps 64 (block_min b + estimate (block_avg b) i) + delta).

(** [data.get(offset..)], and [usize::try_from(offset).ok()] before it. *)
Definition slice_from (data : list byte) (offset : Z) : option (list byte) :=
  if offset <=? zlen data then Some (drop (Z.to_nat offset) data) else None.
Definition try_usize (v : Z) : option Z := if 0 <=? v then Some v else None.

Section load.
Context {R : Type} `{DataInput R}.

Definition load_block : M Error R Block :=
  let* min := read_i64 in
  let* avg := read_i32 in
  let* offset := read_i64 in
  let* bpv := read_byte in
  if negb (bpv =? 0) && negb (is_supported_bits bpv)
  then fail (Corrupted "DirectMonotonic block has unsupported bitsPerValue: {bpv}")
  else ret (mk_block min offset (from_bits avg) bpv).

Definition num_blocks (num_values block_shift : Z) : Z :=
  let n := Z.shiftr num_values block_shift in
  if Z.shiftl n block_shift <? num_values then n + 1 else n.

Definition load_meta (num_values block_shift : Z) : M Error R Meta :=
  if MAX_BLOCK_SHIFT <? block_shift then fail (Corrupted "DirectMonotonic blockShift must be at most {MAX_BLOCK_SHIFT}, got {block_shift}")
  else if num_values <? 0 then fail (Corrupted "DirectMonotonic numValues must be non-negative, got {num_values}")
  else
    let* blocks := repeatM (Z.to_nat (num_blocks num_values block_shift)) load_block in
    ret (mk_meta block_shift blocks).
End load.

(** ** Reading. *)
Definition fast_packed_get (data : list byte) (offset bpv index : Z) : option Z :=
  if negb (is_supported_bits bpv) then None
  else
    offset ← try_usize offset;
    index ← try_usize index;
    bit ← checked_mul64 index bpv;
    byte ← (if offset + Z.shiftr bit 3 <? 2 ^ 64 then Some (offset + Z.shiftr bit 3) else None);
    word ← load 8 data byte;
    let shift := Z.land bit 7 in
    let n := Z.max 0 (64 - bpv) in
    mask ← (if n <? 64 then Some (Z.shiftr (2 ^ 64 - 1) n) else None);
    Some (wraps 64 (Z.land (Z.shiftr word shift) mask)).

Definition block_mask (m : Meta) : Z := Z.shiftl 1 (block_shift m) - 1.

(** [blocks.get(i)], the bound checked first. *)
Definition block_at {A} (l : list A) (i : Z) : option A := if i <? zlen l then zget l i else None.

Definition get (data : list byte) (m : Meta) (index : Z) : result Error Z :=
  let block_index := Z.land index (block_mask m) in
  match block_at (blocks m) (wrapu 64 (Z.shiftr index (block_shift m))) with
  | None => Err (Eof 0)
  | Some block =>
      let delta :=
        if block_bpv block =? 0 then Ok 0
        else match fast_packed_get data (block_offset block) (block_bpv block) block_index with
             | Some v => Ok v
             | None =>
                 match slice_from data (wrapu 64 (block_offset block)) with
                 | None => Err (Eof 0)
                 | Some slice => DirectReader.get slice (block_bpv block) block_index
                 end
             end in
      match delta with
      | Err e => Err e
      | Ok delta => Ok (on_line block block_index delta)
      end
  end.

Record ResolvedBlock : Type := mk_resolved { resolved_min : Z; resolved_avg : f32; zero : bool; packed : option PackedLongs }.
Record Reader : Type := mk_reader { data : list byte; meta : Meta; resolved : list ResolvedBlock }.

Definition resolve (data : list byte) (b : Block) : option PackedLongs :=
  o ← try_usize (block_offset b); slice ← slice_from data o; packed_new slice (block_bpv b).
Definition reader_new (data : list byte) (m : Meta) : Reader :=
  mk_reader data m (map (fun b => mk_resolved (block_min b) (block_avg b) (block_bpv b =? 0) (resolve data b)) (blocks m)).

Definition reader_get (r : Reader) (index : Z) : option (result Error Z) :=
  let shift := block_shift (meta r) in
  match (b ← try_usize (Z.shiftr index shift); block_at (resolved r) b) with
  | None => Some (get (data r) (meta r) index)
  | Some block =>
      let block_index := Z.land index (block_mask (meta r)) in
      let value delta := Ok (wraps 64 (wraps 64 (resolved_min block + estimate (resolved_avg block) block_index) + delta)) in
      if zero block then Some (value 0)
      else
        found ← (match packed block with Some p => packed_get p (wrapu 64 block_index) | None => Some None end);
        Some (match found with Some v => value (wraps 64 v) | None => get (data r) (meta r) index end)
  end.

(** What the packed run of [fill] could not reach: slots [k] and later. *)
Fixpoint fill_tail (data : list byte) (b : Block) (block_index k : Z) (slots : list Z) : result Error (list Z) :=
  match slots with
  | [] => Ok []
  | _ :: slots =>
      match (o ← try_usize (block_offset b); slice_from data o) with
      | None => Err (Eof 0)
      | Some slice =>
          match DirectReader.get slice (block_bpv b) (block_index + k) with
          | Err e => Err e
          | Ok v => match fill_tail data b block_index (k + 1) slots with Err e => Err e | Ok l => Ok (v :: l) end
          end
      end
  end.
Fixpoint add_line (b : Block) (i : Z) (deltas : list Z) : list Z :=
  match deltas with
  | [] => []
  | d :: deltas => on_line b i d :: add_line b (i + 1) deltas
  end.

(** One block's share of [out]. *)
Definition fill_run (data : list byte) (b : Block) (block_index : Z) (run : list Z) : option (result Error (list Z)) :=
  decoded ← (if block_bpv b =? 0 then Some (zlen run, replicate (length run) 0)
             else if is_supported_bits (block_bpv b) then
               match resolve data b with Some p => decode_range p (wrapu 64 block_index) run | None => Some (0, run) end
             else Some (0, run));
  Some (match fill_tail data b block_index decoded.1 (drop (Z.to_nat decoded.1) decoded.2) with
        | Err e => Err e
        | Ok rest => Ok (add_line b block_index (take (Z.to_nat decoded.1) decoded.2 ++ rest))
        end).

(** The loop of [fill] over the slots of [out] from [i] on; a round fills at
    least one. *)
Fixpoint fill_loop (fuel : nat) (data : list byte) (m : Meta) (from i : Z) (out : list Z) : option (result Error (list Z)) :=
  match out, fuel with
  | [], _ => Some (Ok [])
  | _, O => None
  | _, Datatypes.S fuel =>
      let index := from + i in
      if 2 ^ 63 <=? index then Some (Err (Eof 0))
      else if index <? 0 then Some (Err (Eof 0))
      else
        match block_at (blocks m) (Z.shiftr index (block_shift m)) with
        | None => Some (Err (Eof 0))
        | Some block =>
            let block_index := Z.land index (block_mask m) in
            let n := Z.min (zlen out) (block_mask m - block_index + 1) in
            run ← fill_run data block block_index (take (Z.to_nat n) out);
            match run with
            | Err e => Some (Err e)
            | Ok run =>
                rest ← fill_loop fuel data m from (i + n) (drop (Z.to_nat n) out);
                Some (match rest with Err e => Err e | Ok l => Ok (run ++ l) end)
            end
        end
  end.
Definition fill (data : list byte) (m : Meta) (from : Z) (out : list Z) : option (result Error (list Z)) :=
  fill_loop (length out) data m from 0 out.

(** The binary search; 64 rounds halve any range of [i64] away. *)
Fixpoint floor_loop (fuel : nat) (data : list byte) (m : Meta) (key lo hi best : Z) : option (result Error Z) :=
  match fuel with
  | O => None
  | Datatypes.S fuel =>
      if lo <=? hi then
        let mid := lo + (hi - lo) / 2 in
        match get data m mid with
        | Err e => Some (Err e)
        | Ok v => if v <=? key then floor_loop fuel data m key (mid + 1) hi mid
                  else floor_loop fuel data m key lo (mid - 1) best
        end
      else Some (Ok best)
  end.
Definition floor_index (data : list byte) (m : Meta) (from to key : Z) : option (result Error Z) :=
  if from <? 0 then Some (Err (Corrupted "DirectMonotonic floor_index needs a non-negative lower bound, got {from}"))
  else if to <=? from then Some (Ok from)
  else floor_loop 65 data m key from (to - 1) from.

(** ** Writing. *)
Definition average_increment (chunk : list Z) : f32 :=
  f32_of_f64 (if zlen chunk <=? 1 then f64_of_Z 0
              else SFdiv 53 1024 (f64_of_Z (wraps 64 (List.last chunk 0 - List.hd 0 chunk))) (f64_of_Z (zlen chunk - 1))).
Definition least (l : list Z) : Z := match l with [] => 0 | x :: l => fold_left Z.min l x end.
Fixpoint off_line (avg : f32) (i : Z) (chunk : list Z) : list Z :=
  match chunk with
  | [] => []
  | v :: chunk => wraps 64 (v - estimate avg i) :: off_line avg (i + 1) chunk
  end.

(** [chunk.windows(2).all(|w| w[0] <= w[1])]. *)
Fixpoint ascending (chunk : list Z) : bool :=
  match chunk with
  | v :: (w :: _) as rest => (v <=? w) && ascending rest
  | _ => true
  end.

(** One chunk, after the metadata and the data written; [None]: the assertion
    that it is sorted fails, in a build with [debug_assertions]. *)
Definition write_block (debug_assertions : bool) (st : list byte * list byte) (chunk : list Z) : option (list byte * list byte) :=
  if debug_assertions && negb (ascending chunk) then None
  else
    let '(meta, data) := st in
    let avg_inc := average_increment chunk in
    let deltas := off_line avg_inc 0 chunk in
    let min := least deltas in
    let deltas := map (fun d => wraps 64 (d - min)) deltas in
    let max_delta := fold_left Z.lor deltas 0 in
    let meta := write_i64 (zlen data) (write_i32 (to_bits avg_inc) (write_i64 min meta)) in
    if max_delta =? 0 then Some (meta ++ [0], data)
    else
      let bits_per_value := unsigned_bits_required max_delta in
      Some (meta ++ [bits_per_value],
            data ++ DirectReader.encode deltas bits_per_value ++ replicate (Z.to_nat (padding_bytes_needed bits_per_value)) 0).

Fixpoint write_blocks (debug_assertions : bool) (st : list byte * list byte) (cs : list (list Z)) : option (list byte * list byte) :=
  match cs with
  | [] => Some st
  | c :: cs => st ← write_block debug_assertions st c; write_blocks debug_assertions st cs
  end.

(** [None]: an assertion fails, on the shift or on the order. *)
Definition write (debug_assertions : bool) (values : list Z) (block_shift : Z) : option (list byte * list byte) :=
  if (MIN_BLOCK_SHIFT <=? block_shift) && (block_shift <=? MAX_BLOCK_SHIFT)
  then write_blocks debug_assertions ([], []) (chunks (Z.to_nat (Z.shiftl 1 block_shift)) values)
  else None.

(** ** Reading one value. *)
Lemma is_supported_all b : is_supported_bits b = true <-> supported b.
Proof.
  destruct (Z.lt_ge_cases b 0) as [Hneg|Hb]; [|destruct (Z.lt_ge_cases b 256); [by apply is_supported|]].
  - split; [|intros H; by pose proof (supported_widths b H); lia]. unfold is_supported_bits. destruct (Z.eqb_spec b 64); [lia|].
    intros H. apply andb_true_iff in H as [_ H]. replace b with (- - b) in H by lia. rewrite Z.shiftr_opp_r in H.
    change 1 with (Z.ones 1) in H. rewrite Z.land_ones in H by lia. rewrite Z.shiftl_mul_pow2 in H by lia.
    replace (- b) with (Z.succ (- b - 1)) in H by lia. rewrite Z.pow_succ_r in H by lia. change (2 ^ 1) with 2 in H.
    replace (SUPPORTED_BITS_MASK * (2 * 2 ^ (- b - 1))) with (SUPPORTED_BITS_MASK * 2 ^ (- b - 1) * 2) in H by lia. by rewrite Z.mod_mul in H.
  - split; [|intros Hs; pose proof (supported_widths b Hs); lia]. unfold is_supported_bits.
    destruct (Z.eqb_spec b 64); [lia|]. by destruct (Z.ltb_spec b 64); [lia|].
Qed.

Definition block_ok (b : Block) : Prop := (block_bpv b = 0 \/ supported (block_bpv b)) /\ in_s 64 (block_offset b).
Record meta_ok (m : Meta) : Prop := {
  ok_shift : 0 <= block_shift m <= MAX_BLOCK_SHIFT;
  ok_blocks : Forall block_ok (blocks m);
  ok_length : zlen (blocks m) < 2 ^ 63;
}.

(** What [get] adds to the line. *)
Definition delta_at (data : list byte) (b : Block) (i : Z) : result Error Z :=
  if block_bpv b =? 0 then Ok 0
  else match (o ← try_usize (block_offset b); slice_from data o) with
       | None => Err (Eof 0)
       | Some slice => DirectReader.get slice (block_bpv b) i
       end.
Definition value_at (data : list byte) (b : Block) (i : Z) : result Error Z :=
  match delta_at data b i with Err e => Err e | Ok d => Ok (on_line b i d) end.

Lemma zslice_drop {A} (l : list A) o a b : 0 <= o <= zlen l -> 0 <= a -> a <= b -> zslice (drop (Z.to_nat o) l) a b = zslice l (o + a) (o + b).
Proof.
  intros Ho Ha Hb. unfold zslice. assert (Hd : zlen (drop (Z.to_nat o) l) = zlen l - o) by (unfold zlen in *; rewrite length_drop; lia). rewrite Hd.
  destruct (Z.leb_spec 0 a), (Z.leb_spec a b), (Z.leb_spec 0 (o + a)), (Z.leb_spec (o + a) (o + b)); try lia. cbn [andb].
  destruct (Z.leb_spec b (zlen l - o)), (Z.leb_spec (o + b) (zlen l)); try lia; [|done].
  rewrite drop_drop. do 2 f_equal; [lia|f_equal; lia].
Qed.

Lemma load_drop n l o k : 0 <= n -> 0 <= o <= zlen l -> 0 <= k -> load n (drop (Z.to_nat o) l) k = load n l (o + k).
Proof. intros Hn Ho Hk. unfold load. rewrite zslice_drop by lia. by rewrite Z.add_assoc. Qed.

Lemma fast_packed_get_ok l o b i v : bytes_ok l -> 0 <= i < 2 ^ 63 -> fast_packed_get l o b i = Some v ->
  exists s, (o ← try_usize o; slice_from l o) = Some s /\ DirectReader.get s b i = Ok v.
Proof.
  intros Hl Hi. unfold fast_packed_get. destruct (is_supported_bits b) eqn:Es; [|done]. apply is_supported_all in Es. cbn [negb].
  destruct (supported_widths b Es) as [Hb Hw]. unfold try_usize, checked_mul64. destruct (Z.leb_spec 0 o); cbn [mbind option_bind]; [|done].
  destruct (Z.leb_spec 0 i); cbn [mbind option_bind]; [|lia]. destruct (Z.ltb_spec (i * b) (2 ^ 64)); cbn [mbind option_bind]; [|done].
  rewrite (Z.shiftr_div_pow2 (i * b) 3) by lia. change (2 ^ 3) with 8. change 7 with (Z.ones 3). rewrite Z.land_ones by lia. change (2 ^ 3) with 8.
  destruct (Z.ltb_spec (o + i * b / 8) (2 ^ 64)); cbn [mbind option_bind]; [|done].
  destruct (load 8 l (o + i * b / 8)) as [w|] eqn:E; cbn [mbind option_bind]; [|done].
  destruct (Z.ltb_spec (Z.max 0 (64 - b)) 64); cbn [mbind option_bind]; [|done]. intros [= <-].
  pose proof (load_bound _ _ _ _ E) as [Hlb Hub]. assert (Hq : 0 <= i * b / 8) by (apply Z.div_pos; nia). unfold slice_from.
  destruct (Z.leb_spec o (zlen l)); [|lia]. eexists. split; [done|]. rewrite <- load_drop in E by lia.
  rewrite (chunk_value (drop (Z.to_nat o) l) b i 8 w); [|by apply Forall_drop|done| |done|lia| |done].
  - unfold width_mask. by destruct (Z.ltb_spec (Z.max 0 (64 - b)) 64); [|lia].
  - unfold in_u. lia.
  - pose proof (narrow (i * b) b Hb Hw ltac:(by eexists)). lia.
Qed.

Lemma block_index_range m i : meta_ok m -> 0 <= Z.land i (block_mask m) < 2 ^ 22 /\ Z.land i (block_mask m) = i mod 2 ^ block_shift m /\
  block_mask m = 2 ^ block_shift m - 1.
Proof.
  intros [Hs _ _]. unfold MAX_BLOCK_SHIFT in Hs. unfold block_mask. rewrite Z.shiftl_mul_pow2, Z.mul_1_l by lia.
  assert (E : 2 ^ block_shift m - 1 = Z.ones (block_shift m)) by (rewrite Z.ones_equiv; lia). rewrite E, Z.land_ones by lia. rewrite <- E.
  split; [|done].
  pose proof (Z.mod_pos_bound i (2 ^ block_shift m) ltac:(apply Z.pow_pos_nonneg; lia)).
  assert (2 ^ block_shift m <= 2 ^ 22) by (apply Z.pow_le_mono_r; lia). lia.
Qed.

Lemma get_value data m i : bytes_ok data -> zlen data < 2 ^ 63 -> meta_ok m -> in_s 64 i ->
  get data m i = if i <? 0 then Err (Eof 0)
                 else match block_at (blocks m) (Z.shiftr i (block_shift m)) with
                      | None => Err (Eof 0)
                      | Some b => value_at data b (Z.land i (block_mask m))
                      end.
Proof.
  intros Hd Hlen Hm Hi. destruct (block_index_range m i Hm) as [Hx _]. destruct Hm as [Hs Hb Hn]. unfold MAX_BLOCK_SHIFT in Hs.
  assert (Hsh : (0 <= i -> 0 <= Z.shiftr i (block_shift m) <= i) /\ (i < 0 -> i <= Z.shiftr i (block_shift m) < 0)).
  { rewrite Z.shiftr_div_pow2 by lia. assert (1 <= 2 ^ block_shift m) by (pose proof (Z.pow_pos_nonneg 2 (block_shift m)); lia).
    split; intros; [split; [apply Z.div_pos; lia|apply Z.div_le_upper_bound; nia]|]. split; [apply Z.div_le_lower_bound; nia|apply Z.div_lt_upper_bound; lia]. }
  unfold in_s in Hi. change (2 ^ (64 - 1)) with (2 ^ 63) in Hi. unfold get. destruct (Z.ltb_spec i 0) as [Hneg|Hpos].
  - assert (E : wrapu 64 (Z.shiftr i (block_shift m)) = Z.shiftr i (block_shift m) + 2 ^ 64).
    { unfold wrapu. symmetry. apply (Z.mod_unique _ _ (-1)); lia. }
    unfold block_at at 1. rewrite E. by destruct (Z.ltb_spec (Z.shiftr i (block_shift m) + 2 ^ 64) (zlen (blocks m))); [lia|].
  - rewrite (wrapu_id 64) by (unfold in_u; lia). destruct (block_at _ _) as [b|] eqn:Eb; [|done].
    assert (Hok : block_ok b).
    { unfold block_at in Eb. destruct (_ <? _); [|done]. apply zget_Some in Eb as [_ Eb]. by apply (proj1 (Forall_lookup _ _) Hb _ _ Eb). }
    destruct Hok as [_ Ho]. unfold value_at, delta_at. destruct (block_bpv b =? 0); [done|].
    destruct (fast_packed_get _ _ _ _) as [v|] eqn:Ef.
    + destruct (fast_packed_get_ok _ _ _ (Z.land i (block_mask m)) _ Hd ltac:(lia) Ef) as (s & -> & ->). done.
    + unfold try_usize, slice_from. unfold in_s in Ho. change (2 ^ (64 - 1)) with (2 ^ 63) in Ho. destruct (Z.leb_spec 0 (block_offset b)); cbn [mbind option_bind].
      * rewrite (wrapu_id 64) by (unfold in_u; lia). by destruct (_ <=? _).
      * destruct (Z.leb_spec (wrapu 64 (block_offset b)) (zlen data)); [|done].
        assert (wrapu 64 (block_offset b) = block_offset b + 2 ^ 64) by (unfold wrapu; symmetry; apply (Z.mod_unique _ _ (-1)); lia). lia.
Qed.

(** ** Reading many. *)
Lemma packed_value_get s b p i : bytes_ok s -> zlen s < 2 ^ 60 -> supported b -> packed_new s b = Some p -> 0 <= i < fast_limit p ->
  DirectReader.get s b i = Ok (wraps 64 (bit_slice s b i)).
Proof.
  intros Hs Hlen Hb Ep Hi. destruct (supported_widths b Hb) as [Hbr _]. destruct (packed_new_spec s b Hs Hlen ltac:(lia) p Ep) as (Hp & El & Eb & _).
  destruct (fast_fits p Hp i Hi) as (H1 & H2 & H3). rewrite El, Eb in *.
  assert (Hu : in_u 64 i) by (unfold in_u; nia). rewrite get_spec by done. cbv zeta. unfold bit_position, mul64. rewrite (wrapu_id 64 i), (wrapu_id 64 (i * b)) by done.
  pose proof (Z.div_mod (i * b) 8 ltac:(lia)). by destruct (Z.leb_spec (i * b + b) (8 * zlen s)); [|lia].
Qed.

Lemma sliced data o s : bytes_ok data -> zlen data < 2 ^ 60 -> (o ← try_usize o; slice_from data o) = Some s -> bytes_ok s /\ zlen s < 2 ^ 60.
Proof.
  intros Hd Hl. unfold try_usize, slice_from. destruct (0 <=? o); cbn [mbind option_bind]; [|done]. destruct (_ <=? _); [|done]. intros [= <-].
  split; [by apply Forall_drop|]. unfold zlen in *. rewrite length_drop. lia.
Qed.

(** The packed reader a block resolves to reads the block's deltas. *)
Lemma resolve_ok data b p : bytes_ok data -> zlen data < 2 ^ 60 -> supported (block_bpv b) -> resolve data b = Some p ->
  packed_ok p /\ forall i, 0 <= i < fast_limit p -> delta_at data b i = Ok (wraps 64 (bit_slice (bytes p) (bits p) i)).
Proof.
  intros Hd Hl Hs Hr. destruct (supported_widths _ Hs) as [Hb _]. unfold resolve in Hr. unfold delta_at.
  destruct (try_usize (block_offset b)) as [o|] eqn:Eo; cbn [mbind option_bind] in *; [|done].
  destruct (slice_from data o) as [s|] eqn:E; cbn [mbind option_bind] in *; [|done].
  destruct (sliced data (block_offset b) s Hd Hl) as [Hsb Hsl]; [by rewrite Eo|].
  destruct (packed_new_spec s (block_bpv b) Hsb Hsl ltac:(lia) p Hr) as (Hp & El & Eb & _). split; [done|]. intros i Hi.
  destruct (Z.eqb_spec (block_bpv b) 0); [lia|]. rewrite El, Eb. by eapply packed_value_get.
Qed.

Lemma block_at_map {A B} (f : A -> B) l i : block_at (map f l) i = f <$> block_at l i.
Proof. unfold block_at. rewrite zlen_map. destruct (_ <? _); [|done]. unfold zget. destruct (_ <? _); [done|]. apply list_lookup_fmap. Qed.

Lemma block_at_ok m i b : meta_ok m -> block_at (blocks m) i = Some b -> block_ok b.
Proof.
  intros Hm. unfold block_at. destruct (_ <? _); [|done]. intros [_ E]%zget_Some. by apply (proj1 (Forall_lookup _ _) (ok_blocks m Hm) _ _ E).
Qed.

Lemma reader_get_ok bs m i : bytes_ok bs -> zlen bs < 2 ^ 60 -> meta_ok m -> in_s 64 i ->
  reader_get (reader_new bs m) i = Some (get bs m i).
Proof.
  intros Hd Hl Hm Hi. unfold reader_get, reader_new. cbn [resolved meta data]. destruct (block_index_range m i Hm) as [Hx _].
  unfold try_usize at 1. destruct (Z.leb_spec 0 (Z.shiftr i (block_shift m))) as [H0|H0]; cbn [mbind option_bind]; [|done].
  apply Z.shiftr_nonneg in H0. rewrite block_at_map. destruct (block_at (blocks m) _) as [b|] eqn:Eb; cbn [fmap option_fmap option_map]; [|done].
  cbn [zero packed resolved_min resolved_avg]. fold (on_line b (Z.land i (block_mask m)) 0). pose proof (block_at_ok m _ b Hm Eb) as [Hb _].
  assert (Hg : get bs m i = value_at bs b (Z.land i (block_mask m))).
  { rewrite get_value by (done || lia). destruct (Z.ltb_spec i 0); [lia|]. by rewrite Eb. }
  unfold value_at, delta_at in Hg. destruct (Z.eqb_spec (block_bpv b) 0) as [Ez|Ez]; [by rewrite Hg|]. destruct Hb as [Hb|Hb]; [lia|].
  destruct (resolve bs b) as [p|] eqn:Er; cbn [mbind option_bind]; [|done]. destruct (resolve_ok bs b p Hd Hl Hb Er) as [Hp Hv].
  rewrite (wrapu_id 64) by (unfold in_u; lia). rewrite packed_get_ok by (done || lia). cbn [mbind option_bind].
  destruct (Z.ltb_spec (Z.land i (block_mask m)) (fast_limit p)); [|done]. specialize (Hv (Z.land i (block_mask m)) ltac:(lia)).
  unfold delta_at in Hv. destruct (Z.eqb_spec (block_bpv b) 0); [lia|]. rewrite Hv in Hg. by rewrite Hg.
Qed.

(** The values at [i], [i + 1], ..., or the first error. *)
Fixpoint collect (f : Z -> result Error Z) (i : Z) (n : nat) : result Error (list Z) :=
  match n with
  | O => Ok []
  | Datatypes.S n => match f i with
                     | Err e => Err e
                     | Ok v => match collect f (i + 1) n with Err e => Err e | Ok l => Ok (v :: l) end
                     end
  end.

Lemma collect_ext f g i n : (forall k, i <= k < i + Z.of_nat n -> f k = g k) -> collect f i n = collect g i n.
Proof.
  revert i. induction n as [|n IH]; intros i H; [done|]. cbn [collect]. rewrite H by lia. destruct (g i); [|done]. by rewrite IH by (intros; apply H; lia).
Qed.

Lemma collect_app f i n m : collect f i (n + m) =
  match collect f i n with Err e => Err e | Ok l => match collect f (i + Z.of_nat n) m with Err e => Err e | Ok k => Ok (l ++ k) end end.
Proof.
  revert i. induction n as [|n IH]; intros i; cbn [collect Nat.add].
  - rewrite Z.add_0_r. by destruct (collect f i m).
  - destruct (f i); [|done]. rewrite IH. destruct (collect f (i + 1) n); [|done]. replace (i + 1 + Z.of_nat n) with (i + Z.of_nat (Datatypes.S n)) by lia.
    by destruct (collect f _ m).
Qed.

Lemma collect_shift f d i n : collect (fun k => f (k + d)) i n = collect f (i + d) n.
Proof. revert i. induction n as [|n IH]; intros i; [done|]. cbn [collect]. rewrite IH. do 3 f_equal. by replace (i + 1 + d) with (i + d + 1) by lia. Qed.

Lemma add_line_app b l : forall i k, add_line b i (l ++ k) = add_line b i l ++ add_line b (i + zlen l) k.
Proof.
  induction l as [|d l IH]; intros i k; cbn [app add_line]; [by rewrite zlen_nil, Z.add_0_r|]. rewrite IH, zlen_cons. do 3 f_equal. lia.
Qed.

Lemma collect_values data b n : forall i, collect (value_at data b) i n =
  match collect (delta_at data b) i n with Err e => Err e | Ok l => Ok (add_line b i l) end.
Proof.
  induction n as [|n IH]; intros i; [done|]. cbn [collect]. unfold value_at at 1. destruct (delta_at data b i); [|done]. rewrite IH.
  by destruct (collect (delta_at data b) (i + 1) n).
Qed.

Lemma fill_tail_collect data b i slots : block_bpv b <> 0 -> forall k,
  fill_tail data b i k slots = collect (delta_at data b) (i + k) (length slots).
Proof.
  intros Hb. induction slots as [|x slots IH]; intros k; [done|]. cbn [fill_tail collect length]. unfold delta_at at 1.
  destruct (Z.eqb_spec (block_bpv b) 0); [done|]. destruct (try_usize _ ≫= _); [|done]. destruct (DirectReader.get _ _ _); [|done].
  rewrite IH. by replace (i + (k + 1)) with (i + k + 1) by lia.
Qed.

Lemma collect_packed data b p i n : (forall j, 0 <= j < fast_limit p -> delta_at data b j = Ok (wraps 64 (bit_slice (bytes p) (bits p) j))) ->
  0 <= i -> i + Z.of_nat n <= Z.max i (fast_limit p) -> collect (delta_at data b) i n = Ok (values p i n).
Proof.
  intros Hv. revert i. induction n as [|n IH]; intros i Hi Hn; [done|]. cbn [collect values]. rewrite Hv by lia. by rewrite IH by lia.
Qed.

Lemma collect_zero data b n : block_bpv b = 0 -> forall i, collect (delta_at data b) i n = Ok (replicate n 0).
Proof. intros Hb. induction n as [|n IH]; intros i; [done|]. cbn [collect replicate]. unfold delta_at at 1. by rewrite Hb, IH. Qed.

Lemma fill_run_ok data b i run : bytes_ok data -> zlen data < 2 ^ 60 -> block_ok b -> 0 <= i < 2 ^ 22 ->
  fill_run data b i run = Some (collect (value_at data b) i (length run)).
Proof.
  intros Hd Hl [Hb _] Hi. unfold fill_run. pose proof (zlen_nonneg run) as Hz. rewrite collect_values.
  destruct (Z.eqb_spec (block_bpv b) 0) as [E|E]; cbn [mbind option_bind fst snd].
  - rewrite drop_ge, take_ge by (rewrite ?length_replicate; unfold zlen; lia). cbn [fill_tail]. by rewrite app_nil_r, collect_zero.
  - destruct Hb as [Hb|Hb]; [done|]. rewrite (proj2 (is_supported_all _) Hb). rewrite (wrapu_id 64) by (unfold in_u; lia).
    destruct (resolve data b) as [p|] eqn:Er; cbn [mbind option_bind fst snd].
    + destruct (resolve_ok data b p Hd Hl Hb Er) as [Hp Hv]. rewrite decode_range_ok by (done || lia). cbv zeta.
      set (n := Z.max 0 (Z.min (zlen run) (fast_limit p - i))). assert (Hni : i + n <= Z.max i (fast_limit p)) by lia. cbn [mbind option_bind fst snd]. rewrite take_app_length', drop_app_length' by (by rewrite values_length).
      rewrite fill_tail_collect by done. assert (Hn : (Z.to_nat n <= length run)%nat) by (unfold zlen in *; lia).
      replace (length run) with (Z.to_nat n + length (drop (Z.to_nat n) run))%nat by (rewrite length_drop; lia).
      rewrite collect_app, (collect_packed data b p i (Z.to_nat n)) by (done || lia). rewrite Z2Nat.id by lia. by destruct (collect _ _ _).
    + rewrite fill_tail_collect by done. cbn [Z.to_nat drop take app]. rewrite Z.add_0_r. done.
Qed.

(** An index and those after it in its block. *)
Lemma same_block m i k : meta_ok m -> 0 <= i -> 0 <= k <= block_mask m - Z.land i (block_mask m) ->
  Z.shiftr (i + k) (block_shift m) = Z.shiftr i (block_shift m) /\ Z.land (i + k) (block_mask m) = Z.land i (block_mask m) + k.
Proof.
  intros Hm Hi Hk. destruct (block_index_range m i Hm) as (_ & E1 & E2). destruct (block_index_range m (i + k) Hm) as (_ & E3 & _).
  destruct Hm as [Hs _ _]. rewrite E3. rewrite E1, E2 in *. rewrite !Z.shiftr_div_pow2 by lia. set (w := 2 ^ block_shift m) in *.
  assert (Hw : 0 < w) by (apply Z.pow_pos_nonneg; lia). pose proof (Z.div_mod i w ltac:(lia)). pose proof (Z.mod_pos_bound i w Hw).
  split; symmetry; [apply (Z.div_unique _ _ _ (i mod w + k)); lia|apply (Z.mod_unique _ _ (i / w)); lia].
Qed.

(** [get], with the overflow of an index that is not an [i64]. *)
Definition get_from (data : list byte) (m : Meta) (index : Z) : result Error Z :=
  if 2 ^ 63 <=? index then Err (Eof 0) else get data m index.

Lemma get_in_block data m i k b : bytes_ok data -> zlen data < 2 ^ 63 -> meta_ok m -> 0 <= i < 2 ^ 63 -> 0 <= k <= block_mask m - Z.land i (block_mask m) ->
  block_at (blocks m) (Z.shiftr i (block_shift m)) = Some b -> get_from data m (i + k) = value_at data b (Z.land i (block_mask m) + k).
Proof.
  intros Hd Hl Hm Hi Hk Eb. destruct (same_block m i k Hm ltac:(lia) Hk) as [E1 E2]. destruct (block_index_range m i Hm) as (_ & E3 & E4).
  assert (i + k < 2 ^ 63).
  { pose proof (ok_shift m Hm) as Hs. unfold MAX_BLOCK_SHIFT in Hs. rewrite E3, E4 in Hk. set (w := 2 ^ block_shift m) in *.
    assert (0 < w) by (apply Z.pow_pos_nonneg; lia). pose proof (Z.div_mod i w ltac:(lia)).
    assert (E : 2 ^ 63 = w * 2 ^ (63 - block_shift m)) by (unfold w; rewrite <- Z.pow_add_r by lia; f_equal; lia).
    assert (i / w < 2 ^ (63 - block_shift m)) by (apply Z.div_lt_upper_bound; lia). nia. }
  unfold get_from. destruct (Z.leb_spec (2 ^ 63) (i + k)); [lia|]. rewrite get_value by (done || (unfold in_s; change (2 ^ (64 - 1)) with (2 ^ 63); lia)).
  destruct (Z.ltb_spec (i + k) 0); [lia|]. by rewrite E1, Eb, E2.
Qed.

Lemma fill_loop_ok data m from : bytes_ok data -> zlen data < 2 ^ 60 -> meta_ok m -> in_s 64 from -> forall fuel i out,
  0 <= i -> (length out <= fuel)%nat -> fill_loop fuel data m from i out = Some (collect (get_from data m) (from + i) (length out)).
Proof.
  intros Hd Hl Hm Hf. unfold in_s in Hf. change (2 ^ (64 - 1)) with (2 ^ 63) in Hf. induction fuel as [|fuel IH]; intros i out Hi Hlen;
    (destruct out as [|x out]; [done|]); [cbn [length] in Hlen; lia|]. cbn [fill_loop]. set (slots := x :: out) in *. set (ix := from + i).
  assert (Hfirst : forall e, get_from data m ix = Err e -> collect (get_from data m) ix (length slots) = Err e).
  { intros e He. unfold slots. cbn [length collect]. by rewrite He. }
  destruct (Z.leb_spec (2 ^ 63) ix) as [Hbig|Hbig].
  { f_equal. symmetry. apply Hfirst. unfold get_from. by destruct (Z.leb_spec (2 ^ 63) ix); [|lia]. }
  assert (Hget : get_from data m ix = if ix <? 0 then Err (Eof 0)
                 else match block_at (blocks m) (Z.shiftr ix (block_shift m)) with
                      | None => Err (Eof 0) | Some b => value_at data b (Z.land ix (block_mask m)) end).
  { unfold get_from. destruct (Z.leb_spec (2 ^ 63) ix); [lia|]. apply get_value; try done; [lia|]. unfold in_s. change (2 ^ (64 - 1)) with (2 ^ 63). lia. }
  destruct (Z.ltb_spec ix 0); [f_equal; symmetry; by apply Hfirst|].
  destruct (block_at (blocks m) (Z.shiftr ix (block_shift m))) as [b|] eqn:Eb; [|f_equal; symmetry; by apply Hfirst]. clear Hget Hfirst.
  destruct (block_index_range m ix Hm) as (Hx & E1 & E2). pose proof (Z.mod_pos_bound ix (2 ^ block_shift m) ltac:(pose proof (ok_shift m Hm); apply Z.pow_pos_nonneg; lia)).
  set (bi := Z.land ix (block_mask m)) in *. set (n := Z.min (zlen slots) (block_mask m - bi + 1)).
  assert (Hz : 1 <= zlen slots) by (unfold slots; rewrite zlen_cons; pose proof (zlen_nonneg out); lia).
  assert (Hn : 1 <= n <= zlen slots) by lia.
  assert (Hnn : length (take (Z.to_nat n) slots) = Z.to_nat n) by (rewrite length_take; unfold zlen in Hn; lia).
  rewrite fill_run_ok, Hnn by (done || by eapply block_at_ok). cbn [mbind option_bind].
  assert (Hrun : collect (value_at data b) bi (Z.to_nat n) = collect (get_from data m) ix (Z.to_nat n)).
  { rewrite <- (Z.add_0_l bi), <- (Z.add_0_l ix), <- !collect_shift. apply collect_ext. intros k Hk. rewrite !(Z.add_comm k).
    symmetry. eapply get_in_block; try done; lia. }
  rewrite Hrun. replace (length slots) with (Z.to_nat n + length (drop (Z.to_nat n) slots))%nat by (rewrite length_drop; unfold zlen in Hn; lia).
  rewrite collect_app. destruct (collect (get_from data m) ix (Z.to_nat n)) as [l|e]; [|done].
  rewrite IH; [|lia|rewrite length_drop; unfold slots in *; cbn [length] in *; lia]. cbn [mbind option_bind].
  unfold ix. rewrite Z2Nat.id, Z.add_assoc by lia. by destruct (collect _ (from + i + n) _).
Qed.

(** C31: the readers of many values: over any bytes and any metadata whose
    widths [load_meta] lets through, [Reader] answers every index, and [fill]
    every window, exactly as [get] does index by index, the first error
    included, without an unchecked load outside the data. *)
Theorem monotonic_readers_are_get (data : list byte) (m : Meta) (index : Z) (out : list Z) :
  bytes_ok data -> zlen data < 2 ^ 60 -> meta_ok m -> in_s 64 index ->
  reader_get (reader_new data m) index = Some (get data m index) /\
  fill data m index out = Some (collect (get_from data m) index (length out)).
Proof.
  intros Hd Hl Hm Hi. split; [by apply reader_get_ok|]. unfold fill. rewrite fill_loop_ok by (done || lia). by rewrite Z.add_0_r.
Qed.

(** ** The chunks of the writer. *)
Lemma chunks_fuel_lookup n : (0 < n)%nat -> forall fuel l q, (length l <= fuel)%nat ->
  chunks_fuel fuel n l !! q = if decide (q * n < length l)%nat then Some (take n (drop (q * n) l)) else None.
Proof.
  intros Hn. induction fuel as [|fuel IH]; intros l q Hl.
  - destruct l; [|cbn in Hl; lia]. cbn [chunks_fuel]. rewrite lookup_nil. by case_decide; [cbn in *; lia|].
  - destruct l as [|x l]; [cbn [chunks_fuel]; rewrite lookup_nil; by case_decide; [cbn in *; lia|]|].
    cbn [chunks_fuel]. destruct q as [|q]; cbn [lookup list_lookup].
    + rewrite Nat.mul_0_l, drop_0. by case_decide; [|cbn in *; lia].
    + change (list_lookup q (chunks_fuel fuel n (drop n (x :: l)))) with (chunks_fuel fuel n (drop n (x :: l)) !! q).
      rewrite IH by (rewrite length_drop; cbn [length] in *; lia). rewrite drop_drop, length_drop.
      replace (Datatypes.S q * n)%nat with (n + q * n)%nat by lia. by repeat case_decide; try lia.
Qed.

Lemma chunks_lookup n l q : (0 < n)%nat -> chunks n l !! q = if decide (q * n < length l)%nat then Some (take n (drop (q * n) l)) else None.
Proof. intros Hn. by apply chunks_fuel_lookup. Qed.

Lemma chunks_value n l i v : (0 < n)%nat -> l !! i = Some v -> exists c, chunks n l !! (i / n)%nat = Some c /\ c !! (i mod n)%nat = Some v.
Proof.
  intros Hn E. pose proof (lookup_lt_Some _ _ _ E) as Hi. pose proof (Nat.div_mod_eq i n) as Hd. pose proof (Nat.mod_upper_bound i n ltac:(lia)) as Hm.
  rewrite chunks_lookup by done. exists (take n (drop (i / n * n) l)). case_decide; [|lia]. split; [done|].
  rewrite lookup_take_lt by done. rewrite lookup_drop. by replace (i / n * n + i mod n)%nat with i by lia.
Qed.

Lemma chunks_nonempty n l c : (0 < n)%nat -> c ∈ chunks n l -> c <> [] /\ (length c <= n)%nat.
Proof.
  intros Hn [q E]%list_elem_of_lookup. rewrite chunks_lookup in E by done. case_decide; [|done]. injection E as <-.
  rewrite length_take, length_drop. split; [|lia]. intros E%(f_equal length). rewrite length_take, length_drop in E. cbn in E. lia.
Qed.

Lemma chunks_count n l : (0 < n)%nat -> Z.of_nat (length (chunks n l)) = div_ceil (zlen l) (Z.of_nat n).
Proof.
  intros Hn. set (k := length (chunks n l)).
  assert (H1 : forall q, (q < k)%nat <-> (q * n < length l)%nat).
  { intros q. pose proof (chunks_lookup n l q Hn) as E. split; intros H.
    - destruct (lookup_lt_is_Some_2 (chunks n l) q H) as [c Ec]. rewrite Ec in E. by case_decide.
    - case_decide; [|done]. by apply lookup_lt_Some in E. }
  unfold div_ceil, zlen. destruct (decide (length l = 0)%nat) as [E|E].
  - assert (k = 0%nat) as -> by (destruct k as [|k]; [done|]; pose proof (proj1 (H1 0%nat) ltac:(lia)); lia). rewrite E. cbn. by rewrite Z.div_small by lia.
  - assert (Hk : (0 < k)%nat) by (apply H1; lia). pose proof (proj1 (H1 (k - 1)%nat) ltac:(lia)) as H2.
    assert (H3 : (length l <= k * n)%nat) by (destruct (Nat.le_gt_cases (length l) (k * n)); [done|]; pose proof (proj2 (H1 k) ltac:(lia)); lia).
    apply (Z.div_unique _ _ _ (Z.of_nat (length l) + Z.of_nat n - 1 - Z.of_nat n * Z.of_nat k)); nia.
Qed.

Lemma num_blocks_count n shift : 0 <= n -> 0 <= shift -> num_blocks n shift = div_ceil n (2 ^ shift).
Proof.
  intros Hn Hs. unfold num_blocks, div_ceil. rewrite Z.shiftr_div_pow2, Z.shiftl_mul_pow2 by done. set (w := 2 ^ shift).
  assert (0 < w) by (apply Z.pow_pos_nonneg; lia). pose proof (Z.div_mod n w ltac:(lia)). pose proof (Z.mod_pos_bound n w ltac:(lia)).
  destruct (Z.ltb_spec (n / w * w) n).
  - apply (Z.div_unique _ _ _ (n mod w - 1)); lia.
  - apply (Z.div_unique _ _ _ (w - 1)); lia.
Qed.

(** ** What a chunk is written as. *)
Definition chunk_least (c : list Z) : Z := least (off_line (average_increment c) 0 c).
Definition chunk_deltas (c : list Z) : list Z := map (fun d => wraps 64 (d - chunk_least c)) (off_line (average_increment c) 0 c).
Definition chunk_max (c : list Z) : Z := fold_left Z.lor (chunk_deltas c) 0.
Definition chunk_width (c : list Z) : Z := if chunk_max c =? 0 then 0 else unsigned_bits_required (chunk_max c).
Definition chunk_data (c : list Z) : list byte :=
  if chunk_max c =? 0 then []
  else DirectReader.encode (chunk_deltas c) (chunk_width c) ++ replicate (Z.to_nat (padding_bytes_needed (chunk_width c))) 0.
Definition chunk_block (offset : Z) (c : list Z) : Block := mk_block (chunk_least c) offset (average_increment c) (chunk_width c).
Definition block_bytes (b : Block) : list byte :=
  to_le 8 (block_min b) ++ to_le 4 (to_bits (block_avg b)) ++ to_le 8 (block_offset b) ++ [block_bpv b].
Fixpoint chunk_blocks (offset : Z) (cs : list (list Z)) : list Block :=
  match cs with
  | [] => []
  | c :: cs => chunk_block offset c :: chunk_blocks (offset + zlen (chunk_data c)) cs
  end.

Lemma write_block_bytes debug me da c : write_block debug (me, da) c =
  if debug && negb (ascending c) then None else Some (me ++ block_bytes (chunk_block (zlen da) c), da ++ chunk_data c).
Proof.
  unfold write_block. destruct (debug && negb (ascending c)); [done|].
  fold (chunk_least c). fold (chunk_deltas c). fold (chunk_max c). unfold block_bytes, chunk_block. cbn [block_min block_avg block_offset block_bpv].
  unfold chunk_data, chunk_width. destruct (chunk_max c =? 0).
  - rewrite app_nil_r. do 2 f_equal. unfold write_i64, write_i32. cbn [write_bytes VecDataOutput]. by rewrite <- !app_assoc.
  - do 2 f_equal. unfold write_i64, write_i32. cbn [write_bytes VecDataOutput]. by rewrite <- !app_assoc.
Qed.

Lemma write_chunks_bytes debug cs : forall me da, write_blocks debug (me, da) cs =
  if debug && negb (forallb ascending cs) then None
  else Some (me ++ concat (map block_bytes (chunk_blocks (zlen da) cs)), da ++ concat (map chunk_data cs)).
Proof.
  induction cs as [|c cs IH]; intros me da; cbn [write_blocks chunk_blocks map concat forallb]; [by rewrite andb_false_r, !app_nil_r|].
  rewrite write_block_bytes. destruct debug, (ascending c); cbn [andb negb mbind option_bind]; try done.
  all: rewrite IH, zlen_app; cbn [andb]; rewrite <- ?app_assoc; done.
Qed.

(** Chunks of a sorted sequence are sorted. *)
Lemma sorted_ascending c : Sorted.StronglySorted Z.le c -> ascending c = true.
Proof.
  induction 1 as [|v [|w c] H IH Hv]; [done..|]. cbn [ascending]. apply andb_true_iff. split; [|exact IH].
  apply Forall_inv in Hv. lia.
Qed.

Lemma sorted_chunks n vs : (0 < n)%nat -> Sorted.StronglySorted Z.le vs -> forallb ascending (chunks n vs) = true.
Proof.
  intros Hn Hs. apply forallb_forall. intros c Hc%list_elem_of_In. apply sorted_ascending.
  assert (H : exists l k, vs = l ++ c ++ k).
  { rewrite <- (chunks_concat n vs Hn). apply list_elem_of_split in Hc as (l & k & ->).
    exists (concat l), (concat k). by rewrite concat_app. }
  destruct H as (l & k & ->). by apply StronglySorted_app_1_r, StronglySorted_app_1_l in Hs.
Qed.

(** ** The deltas of a chunk fit the width it is given. *)
Lemma lor_above a b : 0 <= a -> 0 <= b -> a <= Z.lor a b.
Proof.
  intros Ha Hb. assert (E : Z.lor a b = a + Z.ldiff b a).
  { rewrite Z.add_nocarry_lxor; apply Z.bits_inj'; intros i Hi; rewrite ?Z.lor_spec, ?Z.lxor_spec, ?Z.land_spec, ?Z.ldiff_spec, ?Z.testbit_0_l;
      by destruct (Z.testbit a i), (Z.testbit b i). }
  assert (0 <= Z.ldiff b a) by (apply Z.ldiff_nonneg; lia). lia.
Qed.


Lemma fold_lor_absorbs l : forall a, Z.lor (fold_left Z.lor l a) a = fold_left Z.lor l a /\
  forall d, In d l -> Z.lor (fold_left Z.lor l a) d = fold_left Z.lor l a.
Proof.
  induction l as [|x l IH]; intros a; cbn [fold_left]; [split; [by rewrite Z.lor_diag|done]|]. destruct (IH (Z.lor a x)) as [H1 H2].
  assert (Hsub : forall y, Z.lor (Z.lor a x) y = Z.lor a x -> Z.lor (fold_left Z.lor l (Z.lor a x)) y = fold_left Z.lor l (Z.lor a x)).
  { intros y Hy. rewrite <- H1, <- Z.lor_assoc, Hy. done. }
  split; [|intros d [<-|Hd]; [|by apply H2]]; apply Hsub; rewrite <- Z.lor_assoc.
  - by rewrite (Z.lor_comm x a), Z.lor_assoc, Z.lor_diag.
  - by rewrite Z.lor_diag.
Qed.

Lemma chunk_max_bounds c d : In d (chunk_deltas c) -> in_s 64 d -> wrapu 64 d <= wrapu 64 (chunk_max c) /\ (chunk_max c = 0 -> d = 0).
Proof.
  intros Hd Hs. pose proof (proj2 (fold_lor_absorbs (chunk_deltas c) 0) d Hd) as E. fold (chunk_max c) in E. split.
  - rewrite <- E, <- wrapu_lor, Z.lor_comm by lia. apply lor_above; apply (wrapu_range 64); lia.
  - intros E0. rewrite E0, Z.lor_0_l in E. done.
Qed.

Lemma off_line_lookup avg c : forall k i, off_line avg k c !! i = (fun v => wraps 64 (v - estimate avg (k + Z.of_nat i))) <$> c !! i.
Proof.
  induction c as [|v c IH]; intros k i; [done|]. destruct i as [|i]; cbn [off_line lookup list_lookup fmap option_fmap option_map]; [by rewrite Z.add_0_r|].
  change (list_lookup i (off_line avg (k + 1) c)) with (off_line avg (k + 1) c !! i). rewrite IH.
  change (list_lookup i c) with (c !! i). by replace (k + 1 + Z.of_nat i) with (k + Z.of_nat (Datatypes.S i)) by lia.
Qed.

Lemma off_line_length avg c : forall k, length (off_line avg k c) = length c.
Proof. induction c as [|v c IH]; intros k; cbn; [done|]. by rewrite IH. Qed.

(** The line gives the value back, whatever wrapped. *)
Lemma chunk_delta c i v off : c !! i = Some v -> in_s 64 v ->
  exists d, chunk_deltas c !! i = Some d /\ in_s 64 d /\ on_line (chunk_block off c) (Z.of_nat i) d = v.
Proof.
  intros E Hv. unfold chunk_deltas. rewrite list_lookup_fmap, off_line_lookup, E. cbn [fmap option_fmap option_map]. eexists. split; [done|].
  split; [apply wraps_range; lia|]. unfold on_line, chunk_block. cbn [block_min block_avg]. rewrite Z.add_0_l. set (est := estimate _ _).
  destruct (wraps_off 64 (chunk_least c + est) ltac:(lia)) as [k1 ->]. destruct (wraps_off 64 (v - est) ltac:(lia)) as [k2 ->].
  match goal with |- context [wraps 64 (?x - chunk_least c)] => destruct (wraps_off 64 (x - chunk_least c) ltac:(lia)) as [k3 ->] end.
  transitivity (wraps 64 (v + (k1 + k2 + k3) * 2 ^ 64)); [f_equal; lia|]. rewrite wraps_multiple by lia. by apply wraps_id.
Qed.

Lemma chunk_deltas_length c : length (chunk_deltas c) = length c.
Proof. unfold chunk_deltas. by rewrite length_map, off_line_length. Qed.

Lemma chunk_width_ok c : chunk_width c = 0 \/ supported (chunk_width c).
Proof. unfold chunk_width. destruct (_ =? 0); [by left|right]. apply unsigned_bits_least. Qed.

(** A chunk's value in the whole data. *)
Lemma chunk_value_read c before after i v : c !! i = Some v -> in_s 64 v -> zlen c < 2 ^ 56 -> bytes_ok after ->
  value_at (before ++ chunk_data c ++ after) (chunk_block (zlen before) c) (Z.of_nat i) = Ok v.
Proof.
  intros E Hv Hlen Ha. destruct (chunk_delta c i v (zlen before) E Hv) as (d & Ed & Hd & Eline).
  destruct (chunk_max_bounds c d (proj1 (list_elem_of_In _ _) (list_elem_of_lookup_2 _ _ _ Ed)) Hd) as [Hmax H0]. unfold value_at.
  assert (Hdelta : delta_at (before ++ chunk_data c ++ after) (chunk_block (zlen before) c) (Z.of_nat i) = Ok d); [|by rewrite Hdelta, Eline].
  unfold delta_at, chunk_block, chunk_data, chunk_width. cbn [block_bpv block_offset]. destruct (Z.eqb_spec (chunk_max c) 0) as [Ez|Ez].
  - cbn [Z.eqb]. by rewrite H0.
  - pose proof (unsigned_bits_least (chunk_max c)) as [Hb _]. destruct (supported_widths _ Hb) as [Hbr _].
    destruct (Z.eqb_spec (unsigned_bits_required (chunk_max c)) 0); [lia|]. unfold try_usize, slice_from. pose proof (zlen_nonneg before).
    destruct (Z.leb_spec 0 (zlen before)); [|lia]. cbn [mbind option_bind]. rewrite zlen_app. pose proof (zlen_nonneg (chunk_data c)).
    match goal with |- context [_ <=? _ + zlen ?l] => pose proof (zlen_nonneg l); destruct (Z.leb_spec (zlen before) (zlen before + zlen l)); [|lia] end.
    rewrite (drop_app_length' before) by (unfold zlen; lia). rewrite <- app_assoc. apply encoded_value; [|unfold zlen in *; by rewrite chunk_deltas_length|done..].
    apply Forall_app. split; [|done]. apply Forall_replicate. unfold in_u. lia.
Qed.

(** ** The metadata, read back. *)
Lemma chunk_blocks_lookup cs : forall off q c, cs !! q = Some c ->
  chunk_blocks off cs !! q = Some (chunk_block (off + zlen (concat (map chunk_data (take q cs)))) c).
Proof.
  induction cs as [|x cs IH]; intros off q c E; [done|]. destruct q as [|q]; cbn [chunk_blocks lookup list_lookup] in *.
  - injection E as ->. cbn. by rewrite Z.add_0_r.
  - change (list_lookup q (chunk_blocks (off + zlen (chunk_data x)) cs)) with (chunk_blocks (off + zlen (chunk_data x)) cs !! q).
    rewrite (IH _ q c E). cbn [take map concat]. rewrite zlen_app. by rewrite Z.add_assoc.
Qed.

Lemma chunk_blocks_length cs : forall off, length (chunk_blocks off cs) = length cs.
Proof. induction cs as [|c cs IH]; intros off; cbn; [done|]. by rewrite IH. Qed.

Lemma fold_min_in l : forall a, fold_left Z.min l a = a \/ In (fold_left Z.min l a) l.
Proof.
  induction l as [|x l IH]; intros a; cbn [fold_left]; [by left|]. destruct (IH (Z.min a x)) as [E|Hin]; [|by right; right]. rewrite E.
  destruct (Z.min_spec a x) as [[_ ->]|[_ ->]]; [by left|by right; left].
Qed.

Lemma off_line_in_s avg c : forall k, Forall (in_s 64) (off_line avg k c).
Proof. induction c as [|v c IH]; intros k; cbn [off_line]; [constructor|]. constructor; [apply wraps_range; lia|apply IH]. Qed.

Lemma chunk_least_in_s c : in_s 64 (chunk_least c).
Proof.
  unfold chunk_least. pose proof (off_line_in_s (average_increment c) c 0) as H.
  destruct (off_line _ 0 c) as [|x l]; [unfold in_s; cbn; lia|]. cbn [least]. destruct (fold_min_in l x) as [->|Hin]; [by apply (Forall_inv H)|].
  by apply (proj1 (List.Forall_forall _ _) (Forall_inv_tail H)).
Qed.

Section meta.
Context {R : Type} `{DataInputLaws R}.

Lemma reads_block b : in_s 64 (block_min b) -> is_f32 (block_avg b) -> block_ok b -> reads (R := R) load_block (block_bytes b) b.
Proof.
  intros Hm Ha [Hw Ho]. unfold load_block, block_bytes. eapply reads_bind; [by apply reads_i64|]. eapply reads_bind; [by apply reads_i32, to_bits_in_s|].
  eapply reads_bind; [by apply reads_i64|]. eapply reads_bind_last; [apply reads_byte|]. rewrite from_to_bits by done.
  destruct (Z.eqb_spec (block_bpv b) 0); [|destruct Hw as [Hw|Hw]; [done|]; rewrite (proj2 (is_supported_all _) Hw)]; destruct b; apply reads_ret.
Qed.

Lemma reads_blocks cs off : 0 <= off -> off + zlen (concat (map chunk_data cs)) < 2 ^ 63 ->
  reads (R := R) (repeatM (length cs) load_block) (concat (map block_bytes (chunk_blocks off cs))) (chunk_blocks off cs) /\
  Forall block_ok (chunk_blocks off cs).
Proof.
  intros Ho Hl. assert (Hok : Forall (fun b => in_s 64 (block_min b) /\ is_f32 (block_avg b) /\ block_ok b) (chunk_blocks off cs)).
  { revert off Ho Hl. induction cs as [|c cs IH]; intros off Ho Hl; cbn [chunk_blocks]; [constructor|]. cbn [map concat] in Hl. rewrite zlen_app in Hl.
    pose proof (zlen_nonneg (chunk_data c)). pose proof (zlen_nonneg (concat (map chunk_data cs))). constructor; [|apply IH; lia].
    cbn. split; [apply chunk_least_in_s|]. split; [apply f32_of_f64_datum|]. split; [apply chunk_width_ok|]. unfold in_s. change (2 ^ (64 - 1)) with (2 ^ 63). cbn [block_offset chunk_block]. lia. }
  split; [|eapply Forall_impl; [exact Hok|]; by intros b (_ & _ & Hb)]. rewrite <- (chunk_blocks_length cs off). apply reads_repeat.
  eapply Forall_impl; [exact Hok|]. intros b (H1 & H2 & H3). by apply reads_block.
Qed.
End meta.

Lemma padding_small b : supported b -> 0 <= padding_bytes_needed b <= 3.
Proof.
  assert (H : forallb (fun b => (0 <=? padding_bytes_needed b) && (padding_bytes_needed b <=? 3)) SUPPORTED_BITS = true) by reflexivity.
  rewrite forallb_forall in H. intros Hb. specialize (H b Hb). lia.
Qed.

(** A chunk takes at most eleven bytes a value. *)
Lemma chunk_data_size c : c <> [] -> zlen (chunk_data c) <= 11 * zlen c.
Proof.
  intros Hc. assert (1 <= zlen c) by (destruct c; [done|]; rewrite zlen_cons; pose proof (zlen_nonneg c); lia).
  unfold chunk_data, chunk_width. destruct (chunk_max c =? 0); [rewrite zlen_nil; lia|]. pose proof (unsigned_bits_least (chunk_max c)) as [Hb _].
  set (b := unsigned_bits_required (chunk_max c)) in *. destruct (supported_widths b Hb) as [Hw _]. destruct (encode_spec b (chunk_deltas c) ltac:(lia)) as (_ & El & _).
  pose proof (padding_small b Hb) as Hp.
  rewrite zlen_app, El. unfold zlen at 2. rewrite length_replicate, Z2Nat.id by lia. unfold zlen at 1. rewrite chunk_deltas_length. fold (zlen c). unfold div_ceil.
  assert ((zlen c * b + 8 - 1) / 8 < 8 * zlen c + 1) by (apply Z.div_lt_upper_bound; nia). lia.
Qed.

Lemma chunks_data_size cs : (forall c, c ∈ cs -> c <> []) -> zlen (concat (map chunk_data cs)) <= 11 * zlen (concat cs).
Proof.
  induction cs as [|c cs IH]; intros Hne; cbn [map concat]; [done|]. rewrite !zlen_app. pose proof (chunk_data_size c (Hne c ltac:(apply elem_of_cons; by left))).
  specialize (IH ltac:(intros d Hd; apply Hne, elem_of_cons; by right)). lia.
Qed.

Lemma chunk_data_bytes c : bytes_ok (chunk_data c).
Proof.
  unfold chunk_data, chunk_width. destruct (chunk_max c =? 0); [constructor|]. pose proof (unsigned_bits_least (chunk_max c)) as [Hb _].
  destruct (supported_widths _ Hb) as [Hw _]. apply Forall_app. split; [by apply encode_spec; lia|]. apply Forall_replicate. unfold in_u. lia.
Qed.

Lemma chunk_split cs q (c : list Z) : cs !! q = Some c ->
  concat (map chunk_data cs) = concat (map chunk_data (take q cs)) ++ chunk_data c ++ concat (map chunk_data (drop (Datatypes.S q) cs)).
Proof.
  intros E. rewrite <- (take_drop_middle cs q c E) at 1. rewrite map_app, concat_app. done.
Qed.

(** C22: a monotonic sequence round-trips: for any sorted [i64] values, and in
    a build without [debug_assertions] for any [i64] values at all, and any
    block shift the writer takes, no assertion fails, the metadata written is
    read back by any lawful input, with sound blocks, and [get] answers every
    value at its index, however the slope of a block rounds and whatever
    wraps. *)
Theorem monotonic_round_trip {R} `{DataInputLaws R} (debug : bool) (vs : list Z) (shift : Z) :
  debug = false \/ Sorted.StronglySorted Z.le vs ->
  Forall (in_s 64) vs -> zlen vs < 2 ^ 56 -> MIN_BLOCK_SHIFT <= shift <= MAX_BLOCK_SHIFT ->
  exists me da m, write debug vs shift = Some (me, da) /\ reads (R := R) (load_meta (zlen vs) shift) me m /\ meta_ok m /\
    bytes_ok da /\ zlen da < 2 ^ 60 /\ forall i v, vs !! i = Some v -> get da m (Z.of_nat i) = Ok v.
Proof.
  intros Hdebug Hv Hlen Hs. unfold MIN_BLOCK_SHIFT, MAX_BLOCK_SHIFT in Hs. set (n := Z.to_nat (2 ^ shift)). set (cs := chunks n vs).
  assert (Hw : 0 < 2 ^ shift) by (apply Z.pow_pos_nonneg; lia). assert (Hn : (0 < n)%nat) by lia. assert (Hnz : Z.of_nat n = 2 ^ shift) by lia.
  set (da := concat (map chunk_data cs)). set (m := mk_meta shift (chunk_blocks 0 cs)).
  assert (Hda : zlen da < 2 ^ 60).
  { pose proof (chunks_data_size cs (fun c Hc => proj1 (chunks_nonempty n vs c Hn Hc))) as Hsz. unfold cs in Hsz at 2. rewrite chunks_concat in Hsz by done. fold da in Hsz.
    change (2 ^ 60) with 1152921504606846976. change (2 ^ 56) with 72057594037927936 in Hlen. lia. }
  assert (Hok : bytes_ok da) by (apply Forall_concat, Forall_map, List.Forall_forall; intros c _; apply chunk_data_bytes).
  destruct (reads_blocks (R := R) cs 0 ltac:(lia)) as [Hreads Hblocks]; [fold da; lia|].
  assert (Hcount : length cs = Z.to_nat (num_blocks (zlen vs) shift)).
  { rewrite num_blocks_count by (try apply zlen_nonneg; lia). rewrite <- Hnz, <- chunks_count by done. unfold cs. lia. }
  assert (Hm : meta_ok m).
  { constructor; cbn [block_shift blocks m]; [unfold MAX_BLOCK_SHIFT; lia|done|]. unfold zlen. rewrite chunk_blocks_length. unfold cs. rewrite chunks_count by done.
    unfold div_ceil. assert ((zlen vs + Z.of_nat n - 1) / Z.of_nat n < zlen vs + 1) by (pose proof (zlen_nonneg vs); apply Z.div_lt_upper_bound; nia). lia. }
  exists (concat (map block_bytes (chunk_blocks 0 cs))), da, m. split; [|split; [|split; [done|split; [done|split; [done|]]]]].
  - unfold write, MIN_BLOCK_SHIFT, MAX_BLOCK_SHIFT. destruct (Z.leb_spec 2 shift), (Z.leb_spec shift 22); try lia. cbn [andb].
    rewrite Z.shiftl_1_l. fold n cs. rewrite write_chunks_bytes. unfold cs.
    by destruct Hdebug as [->|Hsort]; [|rewrite sorted_chunks, andb_false_r by done].
  - unfold load_meta, MAX_BLOCK_SHIFT. destruct (Z.ltb_spec 22 shift); [lia|]. destruct (Z.ltb_spec (zlen vs) 0); [pose proof (zlen_nonneg vs); lia|].
    rewrite <- Hcount. eapply reads_map; [exact Hreads|done].
  - intros i v E. destruct (chunks_value n vs i v Hn E) as (c & Ec & Ev). fold cs in Ec. pose proof (lookup_lt_Some _ _ _ E) as Hi. unfold zlen in Hlen.
    assert (Hi64 : in_s 64 (Z.of_nat i)) by (unfold in_s; change (2 ^ (64 - 1)) with (2 ^ 63); lia).
    rewrite (get_value da m _ Hok ltac:(lia) Hm Hi64). destruct (Z.ltb_spec (Z.of_nat i) 0); [lia|].
    destruct (block_index_range m (Z.of_nat i) Hm) as (_ & -> & _). cbn [block_shift m blocks].
    rewrite Z.shiftr_div_pow2, <- Hnz, <- Nat2Z.inj_div, <- Nat2Z.inj_mod by lia.
    assert (Eb : block_at (chunk_blocks 0 cs) (Z.of_nat (i / n)) = Some (chunk_block (0 + zlen (concat (map chunk_data (take (i / n)%nat cs)))) c)).
    { unfold block_at. pose proof (lookup_lt_Some _ _ _ Ec). unfold zlen at 1. rewrite chunk_blocks_length.
      destruct (Z.ltb_spec (Z.of_nat (i / n)) (Z.of_nat (length cs))); [|lia]. apply zget_Some. rewrite Nat2Z.id. split; [lia|]. by apply chunk_blocks_lookup. }
    rewrite Eb, Z.add_0_l. unfold da. rewrite (chunk_split cs _ c Ec). apply chunk_value_read; [done| | |].
    + by apply (proj1 (Forall_lookup _ _) Hv i v E).
    + pose proof (proj2 (chunks_nonempty n vs c Hn (list_elem_of_lookup_2 _ _ _ Ec))). assert (2 ^ shift <= 2 ^ 22) by (apply Z.pow_le_mono_r; lia). unfold zlen. lia.
    + apply Forall_concat, Forall_map, List.Forall_forall. intros d _. apply chunk_data_bytes.
Qed.

(** ** [load_meta] lets through only sound metadata. *)
Lemma load_block_ok : returns (load_block (R := SliceInput.t)) block_ok.
Proof.
  unfold load_block. eapply returns_bind; [apply returns_any|]. intros mn _. eapply returns_bind; [apply returns_any|]. intros avg _.
  eapply returns_bind; [apply returns_i64|]. intros off Ho. eapply returns_bind; [apply returns_any|]. intros bpv _.
  destruct (Z.eqb_spec bpv 0); cbn [negb andb]; [apply returns_ret; split; [by left|done]|].
  destruct (is_supported_bits bpv) eqn:E; [|apply returns_fail]. apply returns_ret. split; [right; by apply is_supported_all|done].
Qed.

Lemma load_meta_ok n shift : 0 <= shift -> n < 2 ^ 62 -> returns (load_meta (R := SliceInput.t) n shift) meta_ok.
Proof.
  intros Hs Hn. unfold load_meta. destruct (Z.ltb_spec MAX_BLOCK_SHIFT shift); [apply returns_fail|].
  destruct (Z.ltb_spec n 0); [apply returns_fail|]. eapply returns_bind; [apply returns_repeat, load_block_ok|]. intros bs [Hb Hl].
  apply returns_ret. constructor; cbn [block_shift blocks]; [lia|done|]. unfold zlen. rewrite Hl, num_blocks_count by lia. unfold div_ceil.
  assert (0 < 2 ^ shift) by (apply Z.pow_pos_nonneg; lia). assert ((n + 2 ^ shift - 1) / 2 ^ shift < n + 1) by (apply Z.div_lt_upper_bound; nia). lia.
Qed.

(** ** The search. *)
Section search.
Context (data : list byte) (m : Meta) (f : Z -> Z) (key from to : Z).
Hypothesis in_range : forall i, from <= i < to -> get data m i = Ok (f i).
Hypothesis monotonic : forall i j, from <= i -> i <= j -> j < to -> f i <= f j.

Lemma floor_loop_ok fuel : forall lo hi best, from <= lo -> lo <= hi + 1 -> hi < to -> hi - lo + 1 < 2 ^ (Z.of_nat fuel - 1) -> (0 < fuel)%nat ->
  (forall j, hi < j < to -> key < f j) -> (lo = from /\ best = from \/ best = lo - 1 /\ from <= best /\ f best <= key) ->
  exists r, floor_loop fuel data m key lo hi best = Some (Ok r) /\ from <= r /\ (r < to \/ r = from) /\ (forall j, r < j < to -> key < f j) /\ (r = from \/ f r <= key).
Proof.
  induction fuel as [|fuel IH]; intros lo hi best Hlo Hhi Hto Hf Hpos Habove Hbest; [lia|]. cbn [floor_loop].
  replace (Z.of_nat (Datatypes.S fuel) - 1) with (Z.of_nat fuel) in Hf by lia. destruct (Z.leb_spec lo hi) as [Hle|Hgt].
  - pose proof (Z.div_mod (hi - lo) 2 ltac:(lia)). pose proof (Z.mod_pos_bound (hi - lo) 2 ltac:(lia)). set (mid := lo + (hi - lo) / 2) in *.
    assert (Hmid : lo <= mid <= hi) by lia. rewrite in_range by lia.
    assert (Hfuel : (0 < fuel)%nat) by (destruct fuel; [change (2 ^ Z.of_nat 0) with 1 in Hf; lia|lia]).
    assert (Hp : 2 ^ Z.of_nat fuel = 2 * 2 ^ (Z.of_nat fuel - 1)) by (rewrite <- Z.pow_succ_r by lia; f_equal; lia).
    destruct (Z.leb_spec (f mid) key).
    + apply IH; try done; lia.
    + apply IH; try done; try lia. intros j Hj. pose proof (monotonic mid j ltac:(lia) ltac:(lia) ltac:(lia)). lia.
  - exists best. split; [done|]. destruct Hbest as [[-> ->]|(-> & Hfb & Hk)].
    + split; [lia|]. split; [by right|]. split; [intros j Hj; apply Habove; lia|by left].
    + split; [done|]. split; [left; lia|]. split; [intros j Hj; apply Habove; lia|by right].
Qed.
End search.

(** [floor_index] over a range where [get] answers and does not decrease:
    the search ends, at the largest index whose value is at most the key, or
    at the lower bound when there is none. *)
Lemma floor_index_is_the_search (data : list byte) (m : Meta) (f : Z -> Z) (key from to : Z) :
  0 <= from -> to < 2 ^ 63 -> (forall i, from <= i < to -> get data m i = Ok (f i)) ->
  (forall i j, from <= i -> i <= j -> j < to -> f i <= f j) ->
  exists r, floor_index data m from to key = Some (Ok r) /\ from <= r /\ (r < to \/ r = from) /\
    (forall j, r < j < to -> key < f j) /\ (r = from \/ f r <= key).
Proof.
  intros Hf Ht Hr Hm. unfold floor_index. destruct (Z.ltb_spec from 0); [lia|]. destruct (Z.leb_spec to from).
  - exists from. split; [done|]. split; [lia|]. split; [by right|]. split; [lia|by left].
  - apply (floor_loop_ok data m f key from to Hr Hm); lia.
Qed.

(** Ten values in blocks of four. *)
Definition ten : list Z := [0; 10; 21; 29; 40; 55; 61; 1000; 1001; 5000].
Definition ten_meta : Meta := mk_meta 2 (chunk_blocks 0 (chunks 4 ten)).
Definition ten_data : list byte := [36; 107; 162; 19; 0; 176; 38; 0].

Lemma monotonic_round_trip_witness :
  exists me m, write true ten 2 = Some (me, ten_data) /\ reads (R := SliceInput.t) (load_meta 10 2) me m /\ get ten_data m 9 = Ok 5000.
Proof.
  assert (Hv : Forall (in_s 64) ten) by (repeat (constructor; [split; [discriminate|reflexivity]|]); constructor).
  assert (Hs : Sorted.StronglySorted Z.le ten) by (unfold ten; repeat (constructor; [|repeat (constructor; [discriminate|]); constructor]); constructor).
  destruct (monotonic_round_trip (R := SliceInput.t) true ten 2 (or_intror Hs) Hv eq_refl ltac:(split; discriminate)) as (me & da & m & E & Hr & _ & _ & _ & Hg).
  exists me, m. assert (E' : write true ten 2 = Some (me, da)) by exact E. vm_compute in E'. injection E' as <- <-. split; [reflexivity|]. split; [exact Hr|].
  exact (Hg 9%nat 5000 eq_refl).
Defined.

(** In a build that checks, a chunk out of order is refused. *)
Lemma unsorted_chunk_panics : write true [5; 3] 2 = None /\ write false [5; 3] 2 <> None.
Proof. split; [reflexivity|by vm_compute]. Qed.

Definition block_okb (b : Block) : bool :=
  ((block_bpv b =? 0) || is_supported_bits (block_bpv b)) && (- 2 ^ 63 <=? block_offset b) && (block_offset b <? 2 ^ 63).
Lemma blocks_check bs : forallb block_okb bs = true -> Forall block_ok bs.
Proof.
  rewrite forallb_forall. intros H. apply List.Forall_forall. intros b Hb. apply H in Hb. unfold block_okb in Hb. unfold block_ok, in_s. change (2 ^ (64 - 1)) with (2 ^ 63).
  apply andb_true_iff in Hb as [[Hb H1]%andb_true_iff H2]. split; [|lia]. apply orb_true_iff in Hb as [Hb|Hb]; [left; lia|right; by apply is_supported_all].
Qed.

Lemma ten_meta_ok : meta_ok ten_meta.
Proof. constructor; [by vm_compute|apply blocks_check; by vm_compute|by vm_compute]. Qed.

Lemma monotonic_readers_are_get_witness :
  reader_get (reader_new ten_data ten_meta) 9 = Some (get ten_data ten_meta 9) /\ get ten_data ten_meta 9 = Ok 5000 /\
  fill ten_data ten_meta 1 [7; 7; 7; 7] = Some (Ok [10; 21; 29; 40]).
Proof.
  assert (Hd : bytes_ok ten_data) by (by apply bytes_okb_ok). assert (Hl : zlen ten_data < 2 ^ 60) by (by vm_compute).
  assert (H9 : in_s 64 9) by (by vm_compute). assert (H1 : in_s 64 1) by (by vm_compute). split; [|split; [by vm_compute|]].
  - exact (proj1 (monotonic_readers_are_get ten_data ten_meta 9 [] Hd Hl ten_meta_ok H9)).
  - rewrite (proj2 (monotonic_readers_are_get ten_data ten_meta 1 [7; 7; 7; 7] Hd Hl ten_meta_ok H1)). by vm_compute.
Defined.

Lemma floor_index_is_the_search_witness :
  exists r, floor_index ten_data ten_meta 0 10 61 = Some (Ok r) /\ (forall j, r < j < 10 -> 61 < default 0 (zget ten j)).
Proof.
  destruct (floor_index_is_the_search ten_data ten_meta (fun i => default 0 (zget ten i)) 61 0 10) as (r & E & _ & _ & H & _); [done|done| | |].
  - intros i Hi. assert (i = 0 \/ i = 1 \/ i = 2 \/ i = 3 \/ i = 4 \/ i = 5 \/ i = 6 \/ i = 7 \/ i = 8 \/ i = 9) as Hc by lia.
    repeat destruct Hc as [->|Hc]; subst; by vm_compute.
  - intros i j H0 Hij Hj. assert (i = 0 \/ i = 1 \/ i = 2 \/ i = 3 \/ i = 4 \/ i = 5 \/ i = 6 \/ i = 7 \/ i = 8 \/ i = 9) as Hi by lia.
    assert (j = 0 \/ j = 1 \/ j = 2 \/ j = 3 \/ j = 4 \/ j = 5 \/ j = 6 \/ j = 7 \/ j = 8 \/ j = 9) as Hc by lia.
    repeat destruct Hi as [->|Hi]; subst; repeat destruct Hc as [->|Hc]; subst; try lia; by vm_compute.
  - exists r. split; [exact E|exact H].
Defined.
End DirectMonotonic.
