(* ===== verification/IndexedDisi.v ===== *)
(** * Sparse sets of documents on disk ([lucene-codecs/src/indexed_disi.rs])

    Documents in blocks of 65,536, each kept as a list of its low halves, as a
    bit set with an optional table of ranks, or as nothing when it is full; a
    sentinel block; a table of jumps.  The file has the writer, the cursor
    ([DisiCursor], a forward-only search for a document and its ordinal), and
    the reader of the whole set ([or_into_words], the same walk into a bit
    set, and [rank_of], a binary search, are not here).  A cursor step is a
    computation over the cursor, which keeps what it changed when it fails;
    [Panic] is an index out of bounds or an assertion, [OutOfFuel] a loop that
    did not end. *)
From stdpp Require Import strings.
From S2P Require Import Prelude StoreError DataOutput DataInput SliceInput Wire CodecUtil SegmentFile BitWords FixedBitSetSpec.

Module IndexedDisi.

Definition MAX_ARRAY_LENGTH : Z := Z.shiftl 1 12 - 1.
Definition BLOCK_SIZE : Z := 65536.
Definition DENSE_BLOCK_LONGS : Z := BLOCK_SIZE / 64.
Definition NO_RANK : Z := 0xff.
Definition NO_MORE_DOCS : Z := 2 ^ 31 - 1.

Inductive Fault : Type := Panic | OutOfFuel | Failed (e : Error).

Definition read_u16_at (data : list byte) (pos : Z) : result Error Z :=
  match zslice data pos (pos + 2) with Some b => Ok (from_le b) | None => Err (Eof pos) end.
Definition read_i32_at (data : list byte) (pos : Z) : result Error Z :=
  match zslice data pos (pos + 4) with Some b => Ok (wraps 32 (from_le b)) | None => Err (Eof pos) end.

Definition dense_rank_bytes (dense_rank_power : Z) : result Error Z :=
  if dense_rank_power =? NO_RANK then Ok 0
  else if negb ((7 <=? dense_rank_power) && (dense_rank_power <=? 15))
  then Err (Corrupted "IndexedDISI denseRankPower must be 7-15 or 0xFF (none), got {dense_rank_power}")
  else Ok (Z.shiftr DENSE_BLOCK_LONGS (dense_rank_power - 7)).

(** ** The cursor. *)
Inductive Method : Type := Sparse | Dense | All.

Record t : Type := mk {
  data : list byte;
  jump_table : list byte;
  jump_table_entry_count : Z;
  dense_rank_power : Z;
  block : Z;
  block_end : Z;
  method : Method;
  index : Z;
  next_block_index : Z;
  doc : Z;
  exists_ : bool;
  next_exist_doc_in_block : Z;
  sparse_docs : list byte;
  sparse_pos : Z;
  dense_rank : list byte;
  dense_bitmap : list byte;
  word : Z;
  word_index : Z;
  number_of_ones : Z;
  dense_origo_index : Z;
  gap : Z;
}.

Definition at_start (data jump_table : list byte) (jump_table_entry_count dense_rank_power : Z) : t :=
  mk data jump_table jump_table_entry_count dense_rank_power (-1) 0 Sparse (-1) (-1) (-1) false (-1) [] 0 [] [] 0 (-1) 0 0 0.

Definition new (data : list byte) (dense_rank_power jump_table_entry_count : Z) : t :=
  let jump_bytes := Z.max 0 jump_table_entry_count * 8 in
  let '(blocks, jump_table) :=
    if (jump_bytes <=? zlen data) && (0 <? jump_bytes)
    then (take (Z.to_nat (zlen data - jump_bytes)) data, drop (Z.to_nat (zlen data - jump_bytes)) data)
    else (data, []) in
  at_start blocks jump_table jump_table_entry_count dense_rank_power.

Definition reset (c : t) : t := at_start (data c) (jump_table c) (jump_table_entry_count c) (dense_rank_power c).
Definition doc_id (c : t) : Z := doc c.

(** Assignments to the fields. *)
Definition set_doc (doc : Z) (c : t) : t :=
  mk (data c) (jump_table c) (jump_table_entry_count c) (dense_rank_power c) (block c) (block_end c) (method c) (index c) (next_block_index c) doc (exists_ c) (next_exist_doc_in_block c) (sparse_docs c) (sparse_pos c) (dense_rank c) (dense_bitmap c) (word c) (word_index c) (number_of_ones c) (dense_origo_index c) (gap c).
Definition set_index (index : Z) (c : t) : t :=
  mk (data c) (jump_table c) (jump_table_entry_count c) (dense_rank_power c) (block c) (block_end c) (method c) index (next_block_index c) (doc c) (exists_ c) (next_exist_doc_in_block c) (sparse_docs c) (sparse_pos c) (dense_rank c) (dense_bitmap c) (word c) (word_index c) (number_of_ones c) (dense_origo_index c) (gap c).
Definition set_jump (next_block_index : Z) (block_end : Z) (c : t) : t :=
  mk (data c) (jump_table c) (jump_table_entry_count c) (dense_rank_power c) (block c) block_end (method c) (index c) next_block_index (doc c) (exists_ c) (next_exist_doc_in_block c) (sparse_docs c) (sparse_pos c) (dense_rank c) (dense_bitmap c) (word c) (word_index c) (number_of_ones c) (dense_origo_index c) (gap c).
Definition set_block (block : Z) (c : t) : t :=
  mk (data c) (jump_table c) (jump_table_entry_count c) (dense_rank_power c) block (block_end c) (method c) (next_block_index c) (next_block_index c) (doc c) (exists_ c) (next_exist_doc_in_block c) (sparse_docs c) (sparse_pos c) (dense_rank c) (dense_bitmap c) (word c) (word_index c) (number_of_ones c) (dense_origo_index c) (gap c).
Definition set_next_block_index (next_block_index : Z) (c : t) : t :=
  mk (data c) (jump_table c) (jump_table_entry_count c) (dense_rank_power c) (block c) (block_end c) (method c) (index c) next_block_index (doc c) (exists_ c) (next_exist_doc_in_block c) (sparse_docs c) (sparse_pos c) (dense_rank c) (dense_bitmap c) (word c) (word_index c) (number_of_ones c) (dense_origo_index c) (gap c).
Definition set_method (method : Method) (block_end : Z) (c : t) : t :=
  mk (data c) (jump_table c) (jump_table_entry_count c) (dense_rank_power c) (block c) block_end method (index c) (next_block_index c) (doc c) (exists_ c) (next_exist_doc_in_block c) (sparse_docs c) (sparse_pos c) (dense_rank c) (dense_bitmap c) (word c) (word_index c) (number_of_ones c) (dense_origo_index c) (gap c).
Definition set_sparse_docs (sparse_docs : list byte) (c : t) : t :=
  mk (data c) (jump_table c) (jump_table_entry_count c) (dense_rank_power c) (block c) (block_end c) (method c) (index c) (next_block_index c) (doc c) (exists_ c) (-1) sparse_docs 0 (dense_rank c) (dense_bitmap c) (word c) (word_index c) (number_of_ones c) (dense_origo_index c) (gap c).
Definition set_gap (c : t) : t :=
  mk (data c) (jump_table c) (jump_table_entry_count c) (dense_rank_power c) (block c) (block_end c) (method c) (index c) (next_block_index c) (doc c) (exists_ c) (next_exist_doc_in_block c) (sparse_docs c) (sparse_pos c) (dense_rank c) (dense_bitmap c) (word c) (word_index c) (number_of_ones c) (dense_origo_index c) (block c - index c - 1).
Definition set_dense_rank (dense_rank : list byte) (c : t) : t :=
  mk (data c) (jump_table c) (jump_table_entry_count c) (dense_rank_power c) (block c) (block_end c) (method c) (index c) (next_block_index c) (doc c) (exists_ c) (next_exist_doc_in_block c) (sparse_docs c) (sparse_pos c) dense_rank (dense_bitmap c) (word c) (word_index c) (number_of_ones c) (dense_origo_index c) (gap c).
Definition set_dense_bitmap (dense_bitmap : list byte) (c : t) : t :=
  mk (data c) (jump_table c) (jump_table_entry_count c) (dense_rank_power c) (block c) (block_end c) (method c) (index c) (next_block_index c) (doc c) (exists_ c) (next_exist_doc_in_block c) (sparse_docs c) (sparse_pos c) (dense_rank c) dense_bitmap 0 (-1) (index c + 1) (index c + 1) (gap c).
Definition set_word (word : Z) (word_index : Z) (number_of_ones : Z) (c : t) : t :=
  mk (data c) (jump_table c) (jump_table_entry_count c) (dense_rank_power c) (block c) (block_end c) (method c) (index c) (next_block_index c) (doc c) (exists_ c) (next_exist_doc_in_block c) (sparse_docs c) (sparse_pos c) (dense_rank c) (dense_bitmap c) word word_index number_of_ones (dense_origo_index c) (gap c).
Definition set_sparse (index : Z) (exists_ : bool) (next_exist_doc_in_block : Z) (sparse_pos : Z) (c : t) : t :=
  mk (data c) (jump_table c) (jump_table_entry_count c) (dense_rank_power c) (block c) (block_end c) (method c) index (next_block_index c) (doc c) exists_ next_exist_doc_in_block (sparse_docs c) sparse_pos (dense_rank c) (dense_bitmap c) (word c) (word_index c) (number_of_ones c) (dense_origo_index c) (gap c).

Notation C := (M Fault t).
Definition modify (f : t -> t) : C unit := fun c => (Ok tt, f c).
Definition try_ {A} (r : result Error A) : C A := fun c => (match r with Ok a => Ok a | Err e => Err (Failed e) end, c).
Definition panicking {A} (o : option A) : C A := fun c => (match o with Some a => Ok a | None => Err Panic end, c).

Definition slice (from to : Z) : C (list byte) := fun c =>
  (match zslice (data c) from to with Some b => Ok b | None => Err (Failed (Eof from)) end, c).

Definition read_block_header : C unit :=
  let* c := get_state in
  let pos := block_end c in
  let* block_index := try_ (read_u16_at (data c) pos) in
  let* n := try_ (read_u16_at (data c) (pos + 2)) in
  let num_values := 1 + n in
  let payload := pos + 4 in
  let* _ := modify (set_block (shls 32 block_index 16)) in
  let* c := get_state in
  let* next := try_ (let v := index c + num_values in
                     if v <? 2 ^ 63 then Ok v else Err (Corrupted "IndexedDISI block ordinals overflow i64")) in
  let* _ := modify (set_next_block_index next) in
  if num_values <=? MAX_ARRAY_LENGTH then
    let* _ := modify (set_method Sparse (payload + num_values * 2)) in
    let* docs := slice payload (payload + num_values * 2) in
    modify (set_sparse_docs docs)
  else if num_values =? BLOCK_SIZE then
    let* _ := modify (set_method All payload) in
    modify set_gap
  else
    let* c := get_state in
    let* _ := modify (set_method Dense (block_end c)) in
    let* rank_len := try_ (dense_rank_bytes (dense_rank_power c)) in
    let bitmap_start := payload + rank_len in
    let* _ := modify (set_method Dense (bitmap_start + DENSE_BLOCK_LONGS * 8)) in
    let* rank := slice payload bitmap_start in
    let* _ := modify (set_dense_rank rank) in
    let* bitmap := slice bitmap_start (bitmap_start + DENSE_BLOCK_LONGS * 8) in
    modify (set_dense_bitmap bitmap).

(** A header is four bytes, so the walk reads at most as many as there are
    bytes. *)
Fixpoint walk (fuel : nat) (target_block : Z) : C unit :=
  match fuel with
  | O => fail OutOfFuel
  | Datatypes.S fuel =>
      let* _ := read_block_header in
      let* c := get_state in
      if target_block <=? block c then ret tt else walk fuel target_block
  end.

Definition advance_block (target_block : Z) : C unit :=
  let* c := get_state in
  let block_index := Z.shiftr target_block 16 in
  if negb (Nat.eqb (length (jump_table c)) 0) && (Z.shiftr (block c) 16 + 2 <=? block_index) then
    let in_range := wrapu 64 (if block_index <? jump_table_entry_count c then block_index else jump_table_entry_count c - 1) in
    let entry := in_range * 8 in
    let* index := try_ (read_i32_at (jump_table c) entry) in
    let* offset := try_ (read_i32_at (jump_table c) (entry + 4)) in
    let* c := get_state in
    let* _ := modify (set_jump (index - 1) (block_end c)) in
    let* block_end := try_ (if 0 <=? offset then Ok offset else Err (Corrupted "IndexedDISI jump-table offset is negative: {offset}")) in
    let* _ := modify (set_jump (index - 1) block_end) in
    read_block_header
  else walk (Datatypes.S (length (data c))) target_block.

(** The scan of a sparse block: the bytes left from [sparse_pos]. *)
Fixpoint sparse_loop (fuel : nat) (target_in_block : Z) : C bool :=
  let* c := get_state in
  if (index c <? next_block_index c) && (sparse_pos c + 2 <=? zlen (sparse_docs c)) then
    match fuel with
    | O => fail OutOfFuel
    | Datatypes.S fuel =>
        let* b := panicking (zslice (sparse_docs c) (sparse_pos c) (sparse_pos c + 2)) in
        let d := from_le b in
        if target_in_block <=? d then
          if negb (d =? target_in_block) then
            let* _ := modify (set_sparse (index c) false d (sparse_pos c)) in ret false
          else let* _ := modify (set_sparse (index c + 1) true d (sparse_pos c + 2)) in ret true
        else
          let* _ := modify (set_sparse (index c + 1) (exists_ c) (next_exist_doc_in_block c) (sparse_pos c + 2)) in
          sparse_loop fuel target_in_block
    end
  else
    let* _ := modify (set_sparse (index c) false (next_exist_doc_in_block c) (sparse_pos c)) in ret false.

(** As a release build runs it: [debug_assert!(!self.exists)] of the first arm
    is off. *)
Definition sparse_advance_exact (target : Z) : C bool :=
  let* c := get_state in
  let target_in_block := Z.land target 0xffff in
  if target_in_block <? next_exist_doc_in_block c then ret false
  else if target =? doc c then ret (exists_ c)
  else sparse_loop (length (sparse_docs c)) target_in_block.

Definition rank_skip (target_in_block : Z) : C unit :=
  let* c := get_state in
  let rank_index := Z.shiftr target_in_block (dense_rank_power c) in
  let entry := Z.shiftl rank_index 1 in
  let* hi := panicking (zget (dense_rank c) entry) in
  let* lo := panicking (zget (dense_rank c) (entry + 1)) in
  let rank := Z.lor (Z.shiftl hi 8) lo in
  let rank_aligned_word_index := Z.shiftr (Z.shiftl rank_index (dense_rank_power c)) 6 in
  let at_ := rank_aligned_word_index * 8 in
  let* b := panicking (zslice (dense_bitmap c) at_ (at_ + 8)) in
  let rank_word := from_le b in
  modify (set_word rank_word rank_aligned_word_index (dense_origo_index c + rank + count_ones rank_word)).

(** The bitmap words of a run, the last one and how many bits they set. *)
Fixpoint run_words (n : nat) (b : list byte) (last ones : Z) : Z * Z :=
  match n with
  | O => (last, ones)
  | Datatypes.S n => let w := from_le (take 8 b) in run_words n (drop 8 b) w (ones + count_ones w)
  end.

Definition dense_advance_exact (target : Z) : C bool :=
  let* c := get_state in
  let target_in_block := Z.land target 0xffff in
  let target_word_index := Z.shiftr target_in_block 6 in
  let* _ := (if negb (Nat.eqb (length (dense_rank c)) 0) && (Z.shiftl 1 (dense_rank_power c - 6) <=? target_word_index - word_index c)
             then rank_skip target_in_block else ret tt) in
  let* c := get_state in
  let from := wrapu 64 (word_index c + 1) * 8 in
  let to := (target_word_index + 1) * 8 in
  let* _ := (if from <? to then
               let* b := panicking (zslice (dense_bitmap c) from to) in
               let '(last, ones) := run_words (length b / 8) b (word c) 0 in
               modify (set_word last (word_index c) (number_of_ones c + ones))
             else ret tt) in
  let* c := get_state in
  let* _ := modify (set_word (word c) target_word_index (number_of_ones c)) in
  let left_bits := Z.shiftr (word c) (Z.land target_in_block 63) in
  let* _ := modify (set_index (number_of_ones c - count_ones left_bits)) in
  ret (negb (Z.land left_bits 1 =? 0)).

Definition advance_exact_within_block (target : Z) : C bool :=
  let* c := get_state in
  match method c with
  | All => let* _ := modify (set_index (target - gap c)) in ret true
  | Sparse => sparse_advance_exact target
  | Dense => dense_advance_exact target
  end.

(** [found.then_some(self.index as usize)]. *)
Definition then_index (found : bool) : C (option Z) :=
  let* c := get_state in ret (if found then Some (wrapu 64 (index c)) else None).
(** [doc & !0xFFFF]. *)
Definition block_of (doc : Z) : Z := Z.ldiff doc 0xffff.

Definition advance_exact (d : Z) : C (option Z) :=
  let* c := get_state in
  if d <? 0 then fail Panic
  else if d <? doc c then fail Panic
  else if d =? NO_MORE_DOCS then let* _ := modify (set_doc d) in ret None
  else
    let target_block := block_of d in
    let* _ := (if block c <? target_block then advance_block target_block else ret tt) in
    let* c := get_state in
    let* found := (if block c =? target_block then advance_exact_within_block d else ret false) in
    let* _ := modify (set_doc d) in
    then_index found.

Definition advance_exact_in_block (d : Z) : C (option (option Z)) :=
  let* c := get_state in
  if (d <? doc c) || (d =? NO_MORE_DOCS) || negb (block_of d =? block c) then ret None
  else
    let* found := advance_exact_within_block d in
    let* _ := modify (set_doc d) in
    let* r := then_index found in
    ret (Some r).

(** The words of a window of [n] words from [start], and the ordinal of its
    first document; [None] is the method's own [Ok(None)]. *)
Definition window_bits (start : Z) (n : nat) : C (option (list Z * Z)) :=
  let words := Z.of_nat n in
  let* c := get_state in
  let end_ := start + words * 64 in
  if (2 ^ 31 <=? words) || (2 ^ 31 <=? words * 64) || (2 ^ 31 <=? end_) then ret None
  else if (words =? 0) || (start <? 0) || negb (Z.land start 63 =? 0) || (start <? doc c) then ret None
  else
    let b := block_of start in
    if negb (block_of (end_ - 1) =? b) then ret None
    else
      let* _ := advance_exact start in
      let* c := get_state in
      if negb (block c =? b) then ret (Some (replicate n 0, index c + 1))
      else match method c with
           | All => ret (Some (replicate n (2 ^ 64 - 1), index c))
           | Dense =>
               let first_word := Z.shiftr (Z.land start 0xffff) 6 in
               let* bytes := panicking (zslice (dense_bitmap c) (first_word * 8) ((first_word + words) * 8)) in
               ret (Some (SliceInput.chunks_exact 8 from_le n bytes, index c))
           | Sparse => ret None
           end.

(** ** The whole set. *)
Notation D := (M Fault SliceInput.t).
Notation input := (from_store Failed).

Definition check_doc (limit first end_ last : Z) : D unit :=
  if (first <=? last) || (limit <=? end_)
  then fail (Failed (Corrupted "IndexedDISI documents {first}..={end} after document {last} in a segment of {max_doc}: out of order or past the segment"))
  else ret tt.

(** The documents of a sparse block; [None] in the end is the sentinel. *)
Fixpoint sparse_docs_of (n : nat) (block limit last : Z) (docs : list Z) : D (list Z * option Z) :=
  match n with
  | O => ret (docs, Some last)
  | Datatypes.S n =>
      let* low := input read_u16 in
      let d := Z.lor (Z.shiftl block 16) low in
      if d =? 2 ^ 31 - 1 then ret (docs, None)
      else
        let* _ := check_doc limit d d last in
        sparse_docs_of n block limit d (docs ++ [d])
  end.
(** The set bits of a word, lowest first. *)
Fixpoint bits_of (fuel : nat) (at_ w : Z) : option (list Z) :=
  if w =? 0 then Some []
  else match fuel with
       | O => None
       | Datatypes.S fuel => l ← bits_of fuel at_ (Z.land w (w - 1)); Some (at_ + trailing_zeros 64 w :: l)
       end.
Fixpoint dense_docs_of (n : nat) (base limit word_idx last : Z) (docs : list Z) : D (list Z * Z) :=
  match n with
  | O => ret (docs, last)
  | Datatypes.S n =>
      let* w := input read_i64 in
      let word := wrapu 64 w in
      if word =? 0 then dense_docs_of n base limit (word_idx + 1) last docs
      else
        let at_ := base + word_idx * 64 in
        let end_ := at_ + 63 - leading_zeros 64 word in
        let* _ := check_doc limit (at_ + trailing_zeros 64 word) end_ last in
        let* l := (fun s => (match bits_of 64 at_ word with Some l => Ok l | None => Err OutOfFuel end, s)) in
        dense_docs_of n base limit (word_idx + 1) end_ (docs ++ l)
  end.

Fixpoint decode_loop (fuel : nat) (dense_rank_power limit last : Z) (docs : list Z) : D (list Z) :=
  match fuel with
  | O => fail OutOfFuel
  | Datatypes.S fuel =>
      let* block := input read_u16 in
      let* n := input read_u16 in
      let num_values := 1 + n in
      if num_values <=? MAX_ARRAY_LENGTH then
        let* r := sparse_docs_of (Z.to_nat num_values) block limit last docs in
        match r with
        | (docs, None) => ret docs
        | (docs, Some last) => decode_loop fuel dense_rank_power limit last docs
        end
      else if num_values =? BLOCK_SIZE then
        let base := Z.shiftl block 16 in
        let end_ := base + BLOCK_SIZE - 1 in
        let* _ := check_doc limit base end_ last in
        decode_loop fuel dense_rank_power limit end_ (docs ++ map (fun k => base + Z.of_nat k) (seq 0 (Z.to_nat BLOCK_SIZE)))
      else
        let* skipped := (fun s => (match dense_rank_bytes dense_rank_power with Ok n => Ok n | Err e => Err (Failed e) end, s)) in
        let* _ := input (skip skipped) in
        let base := Z.shiftl block 16 in
        let* r := dense_docs_of (Z.to_nat DENSE_BLOCK_LONGS) base limit 0 last docs in
        decode_loop fuel dense_rank_power limit r.2 r.1
  end.
Definition decode_doc_ids_below (data : list byte) (dense_rank_power max_doc : Z) : result Fault (list Z) :=
  (decode_loop (Datatypes.S (length data)) dense_rank_power max_doc (-1) [] (SliceInput.new data)).1.
Definition decode_doc_ids (data : list byte) (dense_rank_power : Z) : result Fault (list Z) :=
  decode_doc_ids_below data dense_rank_power (2 ^ 31 - 1).

(** ** The writer. *)
(** The documents below [block_end], and the rest. *)
Fixpoint split_block (block_end : Z) (ids : list Z) : list Z * list Z :=
  match ids with
  | [] => ([], [])
  | d :: rest => if d <? block_end then let '(a, b) := split_block block_end rest in (d :: a, b) else ([], ids)
  end.

Definition create_rank_step (longs_per_rank rank_index_shift : Z) (st : option (list byte * Z * Z)) (w : Z) : option (list byte * Z * Z) :=
  '(rank, word, bit_count) ← st;
  rank ← (if Z.land word (longs_per_rank - 1) =? 0 then
            let k := Z.shiftr word rank_index_shift in
            if k + 1 <? zlen rank then Some (set_at (set_at rank k (wrapu 8 (Z.shiftr bit_count 8))) (k + 1) (Z.land bit_count 0xff)) else None
          else Some rank);
  Some (rank, word + 1, bit_count + count_ones w).
Definition create_rank (words : list Z) (dense_rank_power : Z) : option (list byte) :=
  let longs_per_rank := Z.shiftl 1 (dense_rank_power - 6) in
  let rank_index_shift := dense_rank_power - 7 in
  let rank := replicate (Z.to_nat (Z.shiftr DENSE_BLOCK_LONGS rank_index_shift)) 0 in
  st ← fold_left (create_rank_step longs_per_rank rank_index_shift) words (Some (rank, 0, 0));
  Some st.1.1.

(** [None]: the offset does not fit. *)
Definition add_jumps (jumps : list (Z * Z)) (offset index start_block end_block : Z) : option (list (Z * Z)) :=
  if offset <? 2 ^ 31 then Some (jumps ++ replicate (Z.to_nat (end_block - start_block)) (index, offset)) else None.

Definition dense_words (block_base : Z) (docs : list Z) : list Z :=
  fold_left (fun ws d => let rel := d - block_base in set_at ws (rel / 64) (Z.lor (at0 ws (rel / 64)) (shlu 64 1 (rel mod 64))))
    docs (replicate (Z.to_nat DENSE_BLOCK_LONGS) 0).

Definition write_block (dense_rank_power block : Z) (docs : list Z) (out : list byte) : option (list byte) :=
  let block_base := Z.shiftl block 16 in
  let count := zlen docs in
  let out := out ++ to_le 2 block ++ to_le 2 (wrapu 16 (count - 1)) in
  if count <=? MAX_ARRAY_LENGTH then Some (fold_left (fun out d => write_i16 (wraps 16 (wrapu 16 (d - block_base))) out) docs out)
  else if count =? BLOCK_SIZE then Some out
  else
    let words := dense_words block_base docs in
    out ← (if negb (dense_rank_power =? NO_RANK) then rank ← create_rank words dense_rank_power; Some (out ++ rank) else Some out);
    Some (fold_left (fun out w => write_i64 (wraps 64 w) out) words out).

(** The blocks still to write; each takes at least one document. *)
Fixpoint write_loop (fuel : nat) (dense_rank_power : Z) (ids : list Z) (out : list byte) (jumps : list (Z * Z)) (last_block total_cardinality : Z) :
    option (list byte * list (Z * Z) * Z * Z) :=
  match ids, fuel with
  | [], _ => Some (out, jumps, last_block, total_cardinality)
  | _, O => None
  | doc :: _, Datatypes.S fuel =>
      let block := wrapu 16 (Z.shiftr doc 16) in
      let block_end := Z.shiftl block 16 + BLOCK_SIZE in
      let '(block_docs, rest) := split_block block_end ids in
      jumps ← add_jumps jumps (zlen out) total_cardinality last_block (block + 1);
      out ← write_block dense_rank_power block block_docs out;
      write_loop fuel dense_rank_power rest out jumps (block + 1) (total_cardinality + zlen block_docs)
  end.

Fixpoint ascending (l : list Z) : bool :=
  match l with
  | x :: (y :: _) as tl => (x <? y) && ascending tl
  | _ => true
  end.

(** [None]: an assertion fails, or a panic. *)
Definition write_with_dense_rank_power (doc_ids : list Z) (dense_rank_power : Z) : option (list byte * Z) :=
  if negb ((dense_rank_power =? NO_RANK) || ((7 <=? dense_rank_power) && (dense_rank_power <=? 15))) then None
  else if negb (ascending doc_ids) then None
  else if bool_decide (List.last (map Some doc_ids) None = Some (2 ^ 31 - 1)) then None
  else if negb match doc_ids with [] => true | d :: _ => 0 <=? d end then None
  else
    '(out, jumps, last_block, total_cardinality) ← write_loop (length doc_ids) dense_rank_power doc_ids [] [] 0 0;
    jumps ← add_jumps jumps (zlen out) total_cardinality last_block (last_block + 1);
    let sentinel_block := wrapu 16 (Z.shiftr (2 ^ 31 - 1) 16) in
    let out := write_i16 (wraps 16 (wrapu 16 (Z.land (2 ^ 31 - 1) 0xffff))) (out ++ to_le 2 sentinel_block ++ to_le 2 0) in
    let block_count := if last_block + 1 =? 2 then 0 else last_block + 1 in
    let out := fold_left (fun out j => write_i32 j.2 (write_i32 j.1 out)) (take (Z.to_nat block_count) jumps) out in
    Some (out, wraps 16 block_count).
Definition write (doc_ids : list Z) : option (list byte * Z) := write_with_dense_rank_power doc_ids NO_RANK.
End IndexedDisi.
