(* ===== verification/IndexedDisiSpec.v ===== *)
(** * Sparse sets of documents: what the cursor answers

    A region that [write_with_dense_rank_power] wrote is a sequence of blocks
    ([block]: its number and the low halves of its documents) and the
    sentinel's; a cursor over it stands before the blocks not read yet and
    inside the one it read last. *)
From stdpp Require Import strings.
From Stdlib Require Import Sorting.Sorted.
From S2P Require Import Prelude StoreError DataOutput DataInput SliceInput Wire CodecUtil SegmentFile BitWords FixedBitSet FixedBitSetSpec IndexedDisi.

Module IndexedDisiSpec.
Import IndexedDisi.

(** ** Low halves, as a list and as a set. *)
Definition within (lows : list Z) (i : Z) : bool := bool_decide (i ∈ lows).

Record lows_ok (lows : list Z) : Prop := {
  lows_sorted : StronglySorted Z.lt lows;
  lows_range : Forall (fun i => 0 <= i < BLOCK_SIZE) lows;
  lows_some : lows <> [];
}.

Lemma sorted_members lows : StronglySorted Z.lt lows -> forall lo n, Forall (fun i => lo <= i < lo + Z.of_nat n) lows -> lows = members (within lows) lo n.
Proof.
  intros Hs lo n. revert lows Hs lo. induction n as [|n IH]; intros lows Hs lo Hr.
  - destruct lows as [|x lows]; [done|]. apply Forall_inv in Hr. lia.
  - cbn [members]. destruct lows as [|x lows]; [cbn [within app]; apply (IH []); constructor|].
    assert (Hx := Forall_inv Hr). cbn beta in Hx. apply StronglySorted_inv in Hs as [Hs Hlt]. rewrite List.Forall_forall in Hlt. assert (Hrt := Forall_inv_tail Hr). rewrite List.Forall_forall in Hrt.
    destruct (Z.eq_dec lo x) as [<-|Hne].
    + unfold within at 1. rewrite bool_decide_eq_true_2 by (by left). cbn [app]. f_equal.
      rewrite (members_ext _ (within lows)).
      * apply IH; [done|]. apply List.Forall_forall. intros i Hi. specialize (Hlt i Hi). specialize (Hrt i Hi). lia.
      * intros i Hi. unfold within. apply bool_decide_ext. rewrite elem_of_cons. split; [intros [->|]; [lia|done]|by right].
    + unfold within at 1. rewrite bool_decide_eq_false_2.
      * cbn [app]. apply IH; [by constructor; [|apply List.Forall_forall]|]. apply List.Forall_forall. intros i [<-|Hi]; [lia|]. specialize (Hlt i Hi). specialize (Hrt i Hi). lia.
      * intros [->|Hi]%elem_of_cons; [done|]. apply list_elem_of_In in Hi. specialize (Hlt lo Hi). lia.
Qed.

Lemma members_lookup P n : forall lo k i, members P lo n !! k = Some i <-> lo <= i < lo + Z.of_nat n /\ P i = true /\ Z.of_nat k = count P lo (Z.to_nat (i - lo)).
Proof.
  induction n as [|n IH]; intros lo k i; cbn [members]; [rewrite lookup_nil; split; [done|lia]|].
  assert (Hc : forall i, lo < i -> count P lo (Z.to_nat (i - lo)) = Z.b2z (P lo) + count P (lo + 1) (Z.to_nat (i - (lo + 1)))).
  { intros j Hj. replace (Z.to_nat (j - lo)) with (Datatypes.S (Z.to_nat (j - (lo + 1)))) by lia. done. }
  assert (H0 : count P lo (Z.to_nat (lo - lo)) = 0) by (by rewrite Z.sub_diag).
  destruct (P lo) eqn:E; cbn [app]; [destruct k as [|k]; cbn [lookup list_lookup]|].
  - split; [intros [= <-]; split; [lia|]; split; [done|]; by rewrite H0|]. intros (Hi & HP & Hk). destruct (Z.eq_dec i lo) as [->|]; [done|].
    rewrite Hc in Hk by lia. pose proof (count_range P (lo + 1) (Z.to_nat (i - (lo + 1)))). cbn [Z.b2z] in Hk. lia.
  - etransitivity; [apply IH|]. split.
    + intros (Hi & HP & Hk). split; [lia|]. split; [done|]. rewrite Hc by lia. cbn [Z.b2z]. lia.
    + intros (Hi & HP & Hk). destruct (Z.eq_dec i lo) as [->|]; [lia|]. rewrite Hc in Hk by lia. cbn [Z.b2z] in Hk. split; [lia|]. split; [done|lia].
  - rewrite IH. split.
    + intros (Hi & HP & Hk). split; [lia|]. split; [done|]. rewrite Hc by lia. cbn [Z.b2z]. lia.
    + intros (Hi & HP & Hk). destruct (Z.eq_dec i lo) as [->|]; [congruence|]. rewrite Hc in Hk by lia. cbn [Z.b2z] in Hk. split; [lia|]. split; [done|lia].
Qed.

(** How many low halves are below one. *)
Definition below (lows : list Z) (i : Z) : Z := count (within lows) 0 (Z.to_nat i).
Lemma below_eq lows i : below lows i = count (within lows) 0 (Z.to_nat i).
Proof. reflexivity. Qed.

Lemma lows_members lows : lows_ok lows -> lows = members (within lows) 0 (Z.to_nat BLOCK_SIZE).
Proof.
  intros [Hs Hr _]. apply sorted_members; [done|]. eapply Forall_impl; [|exact Hr]. cbn beta. intros j Hj. rewrite Z2Nat.id by done. lia.
Qed.
Lemma lows_lookup lows k i : lows_ok lows -> 0 <= i < BLOCK_SIZE -> lows !! k = Some i <-> within lows i = true /\ Z.of_nat k = below lows i.
Proof.
  intros Hl Hi. rewrite (lows_members lows Hl) at 1. rewrite members_lookup. unfold below. rewrite Z.sub_0_r, Z2Nat.id by done.
  split; [tauto|]. intros [H1 H2]. split; [lia|]. by split.
Qed.

Lemma lows_count lows : lows_ok lows -> zlen lows = below lows BLOCK_SIZE /\ 0 < zlen lows <= BLOCK_SIZE.
Proof.
  intros Hl. assert (E : zlen lows = below lows BLOCK_SIZE) by (rewrite (lows_members lows Hl) at 1; rewrite below_eq; apply members_length).
  split; [exact E|]. assert (H : below lows BLOCK_SIZE <= BLOCK_SIZE) by (rewrite below_eq; pose proof (count_range (within lows) 0 (Z.to_nat BLOCK_SIZE)) as H; rewrite (Z2Nat.id BLOCK_SIZE) in H by (unfold BLOCK_SIZE; lia); apply H).
  rewrite E. split; [|exact H]. rewrite <- E. destruct Hl as [_ _ Hn]. clear E H. unfold zlen. destruct lows; [done|]. cbn [length]. lia.
Qed.

Lemma count_whole P lo n : count P lo n = Z.of_nat n -> forall i, lo <= i < lo + Z.of_nat n -> P i = true.
Proof.
  revert lo. induction n as [|n IH]; intros lo H i Hi; [lia|]. cbn [count] in H. pose proof (count_range P (lo + 1) n).
  destruct (P lo) eqn:E; cbn [Z.b2z] in H; [|lia]. destruct (Z.eq_dec i lo) as [->|]; [done|]. apply (IH (lo + 1)); lia.
Qed.
Lemma count_true P lo n : (forall i, lo <= i < lo + Z.of_nat n -> P i = true) -> count P lo n = Z.of_nat n.
Proof.
  revert lo. induction n as [|n IH]; intros lo H; [done|]. cbn [count]. rewrite (H lo) by lia. rewrite IH; [cbn [Z.b2z]; lia|]. intros. apply H. lia.
Qed.

(** A full block. *)
Lemma full_block lows : lows_ok lows -> zlen lows = BLOCK_SIZE -> forall i, 0 <= i < BLOCK_SIZE -> within lows i = true /\ below lows i = i.
Proof.
  intros Hl Hf. destruct (lows_count lows Hl) as [E _]. rewrite Hf in E. rewrite below_eq in E. symmetry in E.
  assert (Hn : Z.of_nat (Z.to_nat BLOCK_SIZE) = BLOCK_SIZE) by (apply Z2Nat.id; unfold BLOCK_SIZE; lia). revert E Hn. generalize (Z.to_nat BLOCK_SIZE) as n. intros n E Hn.
  assert (Hall : forall i, 0 <= i < BLOCK_SIZE -> within lows i = true).
  { intros i Hi. apply (count_whole _ 0 n); [by rewrite Hn|lia]. }
  intros i Hi. split; [by apply Hall|]. unfold below. rewrite count_true by (intros; apply Hall; lia). lia.
Qed.

(** ** The bit set of a dense block. *)
Definition words_of (lows : list Z) : list Z := dense_words 0 lows.

Lemma dense_words_base base lows : dense_words base (map (Z.add base) lows) = words_of lows.
Proof.
  unfold words_of, dense_words. generalize (replicate (Z.to_nat DENSE_BLOCK_LONGS) 0). induction lows as [|x lows IH]; intros ws; [done|].
  cbn [map fold_left]. replace (base + x - base) with (x - 0) by lia. apply IH.
Qed.

Lemma or_bit ws rel i : words_ok ws -> 0 <= rel < 64 * zlen ws -> 0 <= i ->
  let ws' := set_at ws (rel / 64) (Z.lor (at0 ws (rel / 64)) (shlu 64 1 (rel mod 64))) in
  words_ok ws' /\ zlen ws' = zlen ws /\ wbit ws' i = wbit ws i || (i =? rel).
Proof.
  intros Hw Hr Hi. cbv zeta. replace (shlu 64 1 (rel mod 64)) with (FixedBitSet.bit_mask rel) by (unfold FixedBitSet.bit_mask; by rewrite land_63).
  assert (Hq : 0 <= rel / 64 < zlen ws) by (word_of rel q r; lia). destruct (set_mask_word rel (at0 ws (rel / 64)) (at0_range _ _ Hw)) as [Hok Hbit].
  split; [by apply words_ok_set|]. split; [apply zlen_set_at|]. rewrite wbit_set by done. pose proof (Z.mod_pos_bound i 64 ltac:(lia)) as Hm. rewrite Hbit by done.
  unfold wbit. pose proof (Z.div_mod i 64 ltac:(lia)). pose proof (Z.div_mod rel 64 ltac:(lia)).
  destruct (Z.eqb_spec (i / 64) (rel / 64)) as [E|E]; [rewrite <- E; destruct (Z.eqb_spec (i mod 64) (rel mod 64)), (Z.eqb_spec i rel); try lia; by rewrite ?orb_true_r, ?orb_false_r|].
  destruct (Z.eqb_spec i rel); [subst; done|]. by rewrite orb_false_r.
Qed.

Lemma words_of_spec lows : Forall (fun i => 0 <= i < BLOCK_SIZE) lows ->
  words_ok (words_of lows) /\ zlen (words_of lows) = DENSE_BLOCK_LONGS /\ forall i, 0 <= i -> wbit (words_of lows) i = within lows i.
Proof.
  unfold words_of, dense_words. intros Hr.
  assert (Hgen : forall ws, words_ok ws -> zlen ws = DENSE_BLOCK_LONGS ->
    let ws' := fold_left (fun ws d => let rel := d - 0 in set_at ws (rel / 64) (Z.lor (at0 ws (rel / 64)) (shlu 64 1 (rel mod 64)))) lows ws in
    words_ok ws' /\ zlen ws' = DENSE_BLOCK_LONGS /\ forall i, 0 <= i -> wbit ws' i = wbit ws i || within lows i).
  { induction Hr as [|x lows Hx _ IH]; intros ws Hw Hl; cbn [fold_left]; [split; [done|]; split; [done|]; intros i Hi; unfold within; rewrite bool_decide_eq_false_2 by apply not_elem_of_nil; by rewrite orb_false_r|].
    rewrite Z.sub_0_r. assert (Hxr : 0 <= x < 64 * zlen ws) by (cbn beta in Hx; rewrite Hl; change DENSE_BLOCK_LONGS with 1024; unfold BLOCK_SIZE in Hx; lia).
    destruct (or_bit ws x 0 Hw Hxr ltac:(lia)) as (H1 & H2 & _). destruct (IH _ H1 ltac:(by rewrite H2)) as (A & B & Cc). split; [exact A|]. split; [exact B|].
    intros i Hi. rewrite Cc by done. destruct (or_bit ws x i Hw Hxr Hi) as (_ & _ & H3). rewrite H3. rewrite <- orb_assoc. f_equal. unfold within.
    destruct (Z.eqb_spec i x) as [->|Hne]; cbn [orb]; [symmetry; apply bool_decide_eq_true_2; by left|]. apply bool_decide_ext. rewrite elem_of_cons. split; [by right|]. by intros [|]. }
  destruct (Hgen (replicate (Z.to_nat DENSE_BLOCK_LONGS) 0)) as (A & B & Cc).
  - apply Forall_replicate. split; [lia|by vm_compute].
  - unfold zlen. rewrite length_replicate. by vm_compute.
  - split; [exact A|]. split; [exact B|]. intros i Hi. rewrite Cc by done. unfold wbit at 1, at0. rewrite nth_lookup. destruct (_ !! _) as [x|] eqn:E; [apply lookup_replicate in E as [-> _]|]; cbn [default from_option id]; by rewrite Z.testbit_0_l.
Qed.

(** ** The rank table. *)
Definition power_ok (p : Z) : Prop := p = NO_RANK \/ 7 <= p <= 15.

(** Entry [e]: the bits set before word [e * longs], high byte first. *)
Definition entry_at (words rank : list Z) (longs e : Z) : Prop :=
  let c := count (wbit words) 0 (Z.to_nat (64 * (e * longs))) in
  zget rank (2 * e) = Some (wrapu 8 (Z.shiftr c 8)) /\ zget rank (2 * e + 1) = Some (Z.land c 0xff).

Lemma zget_set_at {A} (l : list A) i v k : 0 <= i < zlen l -> zget (set_at l i v) k = if k =? i then Some v else zget l k.
Proof.
  intros Hi. unfold zget, set_at. destruct (Z.ltb_spec k 0); [destruct (Z.eqb_spec k i); [lia|done]|].
  destruct (Z.eqb_spec k i) as [->|]; [apply list_lookup_insert_eq; unfold zlen in Hi; lia|]. apply list_lookup_insert_ne. lia.
Qed.

Section rank.
Context (p half entries : Z) (words : list Z).
Hypothesis half_pos : 0 < half.
Hypothesis table : entries * half = 512.
Hypothesis words_are_ok : words_ok words.
Hypothesis words_length : zlen words = 1024.
Hypothesis shift_is : forall w, 0 <= w -> Z.shiftr w (p - 7) = w / half.
Hypothesis mask_is : forall w, 0 <= w -> Z.land w (2 * half - 1) = w mod (2 * half).

Lemma rank_step pre w post rank : words = pre ++ w :: post -> zlen rank = 2 * entries ->
  (forall e, 0 <= e -> e * (2 * half) < zlen pre -> entry_at words rank (2 * half) e) ->
  exists rank', create_rank_step (2 * half) (p - 7) (Some (rank, zlen pre, count (wbit words) 0 (Z.to_nat (64 * zlen pre)))) w =
      Some (rank', zlen (pre ++ [w]), count (wbit words) 0 (Z.to_nat (64 * zlen (pre ++ [w])))) /\
    zlen rank' = 2 * entries /\ forall e, 0 <= e -> e * (2 * half) < zlen (pre ++ [w]) -> entry_at words rank' (2 * half) e.
Proof.
  intros E Hr He. pose proof (zlen_nonneg pre) as Hpre. pose proof (zlen_nonneg post). assert (Hlt : zlen pre < 1024) by (rewrite <- words_length, E, zlen_app, zlen_cons; lia).
  assert (Hw : at0 words (zlen pre) = w) by (rewrite E; unfold at0; replace (Z.to_nat (zlen pre)) with (length pre) by (unfold zlen; lia); apply nth_middle).
  assert (Hc : count (wbit words) 0 (Z.to_nat (64 * zlen (pre ++ [w]))) = count (wbit words) 0 (Z.to_nat (64 * zlen pre)) + count_ones w).
  { rewrite zlen_app. change (zlen [w]) with 1. replace (Z.to_nat (64 * (zlen pre + 1))) with (Z.to_nat (64 * zlen pre) + 64)%nat by lia.
    rewrite count_app. f_equal. rewrite Z.add_0_l, Z2Nat.id by lia. rewrite <- Hw. apply count_word; [by apply at0_range|].
    intros i Hi. unfold wbit. destruct (word_of_unique (64 * zlen pre + i) (zlen pre) i Hi eq_refl) as [-> ->]. done. }
  assert (Hn : zlen (pre ++ [w]) = zlen pre + 1) by (rewrite zlen_app; done).
  unfold create_rank_step. cbn [mbind option_bind]. rewrite mask_is by lia. rewrite Hc. pose proof (Z.div_mod (zlen pre) (2 * half) ltac:(lia)) as Hdm.
  pose proof (Z.mod_pos_bound (zlen pre) (2 * half) ltac:(lia)) as Hmb. set (e0 := zlen pre / (2 * half)) in *.
  destruct (Z.eqb_spec (zlen pre mod (2 * half)) 0) as [E0|E0].
  - assert (Hk : Z.shiftr (zlen pre) (p - 7) = 2 * e0) by (rewrite shift_is by lia; symmetry; apply (Z.div_unique _ _ _ 0); lia).
    assert (He0 : 0 <= e0 < entries) by nia. rewrite Hk. destruct (Z.ltb_spec (2 * e0 + 1) (zlen rank)); [|lia]. eexists. rewrite Hn. split; [reflexivity|]. split; [by rewrite !zlen_set_at|].
    intros e Hpos Hlast. unfold entry_at. cbv zeta. rewrite !zget_set_at by (rewrite ?zlen_set_at; lia).
    destruct (Z.eq_dec e e0) as [->|Hne].
    + destruct (Z.eqb_spec (2 * e0) (2 * e0 + 1)); [lia|]. rewrite !Z.eqb_refl. replace (e0 * (2 * half)) with (zlen pre) by lia. done.
    + destruct (Z.eqb_spec (2 * e) (2 * e0 + 1)), (Z.eqb_spec (2 * e) (2 * e0)), (Z.eqb_spec (2 * e + 1) (2 * e0 + 1)), (Z.eqb_spec (2 * e + 1) (2 * e0)); try lia.
      apply He; [done|]. nia.
  - eexists. rewrite Hn. split; [reflexivity|]. split; [done|]. intros e Hpos Hlast. apply He; [done|].
    destruct (Z.eq_dec (e * (2 * half)) (zlen pre)) as [Eq|]; [|lia]. exfalso. apply E0. rewrite <- Eq. apply Z.mod_mul. lia.
Qed.

Lemma rank_fold post : forall pre rank, words = pre ++ post -> zlen rank = 2 * entries ->
  (forall e, 0 <= e -> e * (2 * half) < zlen pre -> entry_at words rank (2 * half) e) ->
  exists rank' n c, fold_left (create_rank_step (2 * half) (p - 7)) post (Some (rank, zlen pre, count (wbit words) 0 (Z.to_nat (64 * zlen pre)))) = Some (rank', n, c) /\
    zlen rank' = 2 * entries /\ forall e, 0 <= e < entries -> entry_at words rank' (2 * half) e.
Proof.
  induction post as [|w post IH]; intros pre rank E Hr He.
  - cbn [fold_left]. eexists _, _, _. split; [reflexivity|]. split; [done|]. intros e Hlt. apply He; [lia|]. rewrite app_nil_r in E. rewrite <- E, words_length. nia.
  - cbn [fold_left]. destruct (rank_step pre w post rank E Hr He) as (rank' & -> & Hr' & He'). apply IH; [by rewrite <- app_assoc|done|done].
Qed.
End rank.

Lemma create_rank_spec p words : 7 <= p <= 15 -> words_ok words -> zlen words = DENSE_BLOCK_LONGS ->
  exists rank, create_rank words p = Some rank /\ dense_rank_bytes p = Ok (zlen rank) /\ 0 < zlen rank /\
    forall e, 0 <= e < zlen rank / 2 -> entry_at words rank (2 ^ (p - 6)) e.
Proof.
  intros Hp Hw Hl. set (half := 2 ^ (p - 7)). set (entries := 2 ^ (16 - p)).
  assert (Hh : 0 < half) by (apply Z.pow_pos_nonneg; lia). assert (Hen : 0 < entries) by (apply Z.pow_pos_nonneg; lia).
  assert (Ht : entries * half = 512) by (unfold entries, half; rewrite <- Z.pow_add_r by lia; by replace (16 - p + (p - 7)) with 9 by lia).
  assert (Hlongs : Z.shiftl 1 (p - 6) = 2 * half) by (rewrite Z.shiftl_1_l; unfold half; rewrite <- Z.pow_succ_r by lia; f_equal; lia).
  assert (Hs : forall w, 0 <= w -> Z.shiftr w (p - 7) = w / half) by (intros; by rewrite Z.shiftr_div_pow2 by lia).
  assert (Hm : forall w, 0 <= w -> Z.land w (2 * half - 1) = w mod (2 * half)).
  { intros w _. replace (2 * half) with (2 ^ (p - 6)) by (rewrite <- Hlongs; by rewrite Z.shiftl_1_l).
    replace (2 ^ (p - 6) - 1) with (Z.ones (p - 6)) by (rewrite Z.ones_equiv; lia). by rewrite Z.land_ones by lia. }
  assert (Hz : Z.shiftr DENSE_BLOCK_LONGS (p - 7) = 2 * entries).
  { rewrite Hs by done. change DENSE_BLOCK_LONGS with 1024. symmetry. apply (Z.div_unique _ _ _ 0); lia. }
  destruct (rank_fold p half entries words Hh Ht Hw Hl Hs Hm words [] (replicate (Z.to_nat (2 * entries)) 0)) as (rank & n & c & E & Hr & He); [done| | |].
  - unfold zlen. rewrite length_replicate. lia.
  - intros e He1 He2. change (zlen []) with 0 in He2. nia.
  - exists rank. unfold create_rank, dense_rank_bytes. rewrite Hlongs, Hz. change (zlen []) with 0 in E. change (count (wbit words) 0 (Z.to_nat (64 * 0))) with 0 in E. rewrite E. cbn [mbind option_bind fst].
    split; [done|]. unfold NO_RANK. destruct (Z.eqb_spec p 0xff); [lia|]. destruct (Z.leb_spec 7 p), (Z.leb_spec p 15); try lia. cbn [andb negb].
    rewrite Hr. split; [done|]. split; [lia|]. intros e Hlt. rewrite Z.mul_comm, Z.div_mul in Hlt by lia.
    replace (2 ^ (p - 6)) with (2 * half) by (rewrite <- Hlongs; by rewrite Z.shiftl_1_l). by apply He.
Qed.

(** ** A block's bytes. *)
Definition block : Type := Z * list Z.
Definition rank_bytes (p : Z) (lows : list Z) : list byte := if p =? NO_RANK then [] else default [] (create_rank (words_of lows) p).
Definition payload (p : Z) (lows : list Z) : list byte :=
  if zlen lows <=? MAX_ARRAY_LENGTH then concat (map (to_le 2) lows)
  else if zlen lows =? BLOCK_SIZE then [] else rank_bytes p lows ++ concat (map (to_le 8) (words_of lows)).
Definition block_bytes (p : Z) (b : block) : list byte := to_le 2 b.1 ++ to_le 2 (zlen b.2 - 1) ++ payload p b.2.
Definition block_docs (b : block) : list Z := map (Z.add (Z.shiftl b.1 16)) b.2.
Definition block_ok (b : block) : Prop := 0 <= b.1 < 2 ^ 15 /\ lows_ok b.2.

Lemma to_le_congr n z z' : z mod 2 ^ (8 * Z.of_nat n) = z' mod 2 ^ (8 * Z.of_nat n) -> to_le n z = to_le n z'.
Proof.
  intros H. rewrite <- (to_from_le (to_le n z)) by apply to_le_ok. rewrite <- (to_from_le (to_le n z')) by apply to_le_ok.
  rewrite !from_to_le, H. pose proof (zlen_to_le n z) as H1. pose proof (zlen_to_le n z') as H2. unfold zlen in *. f_equal. lia.
Qed.
Lemma to_le_wraps n z : (0 < n)%nat -> to_le n (wraps (8 * Z.of_nat n) z) = to_le n z.
Proof. intros Hn. apply to_le_congr. change (?a mod 2 ^ ?w) with (wrapu w a). apply wrapu_wraps. lia. Qed.

Lemma zlen_concat_le n l : zlen (concat (map (to_le n) l)) = Z.of_nat n * zlen l.
Proof. induction l as [|x l IH]; cbn [map concat]; [unfold zlen; cbn [length]; lia|]. rewrite zlen_app, zlen_to_le, IH, zlen_cons. lia. Qed.

Lemma rank_bytes_spec p lows : power_ok p -> lows_ok lows -> dense_rank_bytes p = Ok (zlen (rank_bytes p lows)) /\
  (p <> NO_RANK -> create_rank (words_of lows) p = Some (rank_bytes p lows) /\ 0 < zlen (rank_bytes p lows) /\
     forall e, 0 <= e < zlen (rank_bytes p lows) / 2 -> entry_at (words_of lows) (rank_bytes p lows) (2 ^ (p - 6)) e).
Proof.
  intros Hp Hl. destruct (words_of_spec lows (lows_range lows Hl)) as (Hw & Hn & _). unfold rank_bytes. destruct Hp as [->|Hp]; [split; [done|by intros []]|].
  unfold NO_RANK. destruct (Z.eqb_spec p 0xff); [lia|]. destruct (create_rank_spec p (words_of lows) Hp Hw Hn) as (rank & E & Hb & Hpos & He). rewrite E. cbn [default from_option id].
  split; [done|]. by intros _.
Qed.

Lemma write_block_spec p blk lows out : power_ok p -> lows_ok lows ->
  write_block p blk (block_docs (blk, lows)) out = Some (out ++ block_bytes p (blk, lows)).
Proof.
  intros Hp Hl. destruct (lows_count lows Hl) as [_ Hc]. unfold write_block, block_bytes, payload. cbn [fst snd].
  assert (Hz : zlen (block_docs (blk, lows)) = zlen lows) by (unfold block_docs, zlen; by rewrite length_map). rewrite Hz.
  replace (to_le 2 (wrapu 16 (zlen lows - 1))) with (to_le 2 (zlen lows - 1)) by (f_equal; rewrite wrapu_id; [done|unfold BLOCK_SIZE in Hc; split; lia]).
  destruct (zlen lows <=? MAX_ARRAY_LENGTH).
  - f_equal. rewrite <- ?app_assoc. rewrite (write_fold_bytes _ (fun d => to_le 2 (d - Z.shiftl blk 16))).
    + rewrite <- ?app_assoc. do 3 f_equal. unfold block_docs. cbn [fst snd]. rewrite map_map. f_equal. apply map_ext. intros x. f_equal. lia.
    + intros o d. unfold write_i16. cbn [write_bytes VecDataOutput]. f_equal. rewrite (to_le_wraps 2) by lia. apply to_le_congr. change (?a mod 2 ^ _) with (wrapu 16 a). unfold wrapu. apply Z.mod_mod. lia.
  - destruct (zlen lows =? BLOCK_SIZE); [by rewrite app_nil_r|]. unfold block_docs. cbn [fst snd]. rewrite dense_words_base.
    assert (Hws : forall o, fold_left (fun out w => write_i64 (wraps 64 w) out) (words_of lows) o = o ++ concat (map (to_le 8) (words_of lows))).
    { apply write_fold_bytes. intros o w. unfold write_i64. cbn [write_bytes VecDataOutput]. f_equal. by rewrite (to_le_wraps 8) by lia. }
    destruct (rank_bytes_spec p lows Hp Hl) as [_ Hr]. destruct (Z.eqb_spec p NO_RANK) as [Ep|Ep]; cbn [negb mbind option_bind].
    + rewrite Hws. unfold rank_bytes. rewrite Ep, Z.eqb_refl. cbn [app]. by rewrite <- ?app_assoc.
    + destruct (Hr Ep) as (-> & _). cbn [mbind option_bind]. rewrite Hws. by rewrite <- ?app_assoc.
Qed.

(** ** The writer's loop. *)
Definition card (bl : list block) : Z := zlen (concat (map block_docs bl)).
Definition bytes_of (p : Z) (bl : list block) : list byte := concat (map (block_bytes p) bl).
Definition end_block (last : Z) (bl : list block) : Z := fold_left (fun _ b => b.1 + 1) bl last.
Fixpoint jumps_of (p last ord off : Z) (bl : list block) : list (Z * Z) :=
  match bl with
  | [] => []
  | b :: bl => replicate (Z.to_nat (b.1 + 1 - last)) (ord, off) ++ jumps_of p (b.1 + 1) (ord + zlen b.2) (off + zlen (block_bytes p b)) bl
  end.
(** Numbers ascend, from [last] on. *)
Fixpoint ascend (last : Z) (bl : list block) : Prop :=
  match bl with
  | [] => True
  | b :: bl => last <= b.1 /\ ascend (b.1 + 1) bl
  end.

Lemma card_cons b bl : card (b :: bl) = zlen b.2 + card bl.
Proof. unfold card. cbn [map concat]. rewrite zlen_app. f_equal. unfold block_docs, zlen. by rewrite length_map. Qed.
Lemma card_nonneg bl : 0 <= card bl.
Proof. apply zlen_nonneg. Qed.
Lemma card_app a b : card (a ++ b) = card a + card b.
Proof. unfold card. by rewrite map_app, concat_app, zlen_app. Qed.
Lemma bytes_of_cons p b bl : bytes_of p (b :: bl) = block_bytes p b ++ bytes_of p bl.
Proof. done. Qed.
Lemma bytes_of_app p a b : bytes_of p (a ++ b) = bytes_of p a ++ bytes_of p b.
Proof. unfold bytes_of. by rewrite map_app, concat_app. Qed.

Lemma rank_bytes_size p lows : power_ok p -> lows_ok lows -> zlen (rank_bytes p lows) <= 1024.
Proof.
  intros Hp Hl. destruct (rank_bytes_spec p lows Hp Hl) as [E _]. unfold dense_rank_bytes in E. destruct (p =? NO_RANK); [injection E as E; lia|].
  destruct (negb _); [done|]. injection E as E. rewrite <- E. destruct Hp as [->|Hp]; [by vm_compute|]. rewrite Z.shiftr_div_pow2 by lia. change DENSE_BLOCK_LONGS with 1024.
  assert (0 < 2 ^ (p - 7)) by (apply Z.pow_pos_nonneg; lia). apply Z.div_le_upper_bound; nia.
Qed.

Lemma block_size p b : power_ok p -> block_ok b -> 4 <= zlen (block_bytes p b) <= 9220.
Proof.
  intros Hp [_ Hl]. unfold block_bytes, payload. rewrite !zlen_app, !zlen_to_le. destruct (lows_count b.2 Hl) as [_ Hc].
  pose proof (rank_bytes_size p b.2 Hp Hl). pose proof (zlen_nonneg (rank_bytes p b.2)). destruct (words_of_spec b.2 (lows_range _ Hl)) as (_ & Hn & _).
  destruct (Z.leb_spec (zlen b.2) MAX_ARRAY_LENGTH) as [Hm|]; [rewrite zlen_concat_le; change MAX_ARRAY_LENGTH with 4095 in Hm; lia|].
  destruct (_ =? _); [rewrite zlen_nil; lia|]. rewrite zlen_app, zlen_concat_le, Hn. change DENSE_BLOCK_LONGS with 1024. lia.
Qed.

Lemma split_block_spec be ids : let '(a, b) := split_block be ids in ids = a ++ b /\ Forall (fun d => d < be) a /\ (forall d l, b = d :: l -> be <= d).
Proof.
  induction ids as [|d ids IH]; cbn [split_block]; [split; [done|]; split; [constructor|done]|].
  destruct (Z.ltb_spec d be); [|split; [done|]; split; [constructor|]; by intros d' l [= <- _]].
  destruct (split_block be ids) as [a b]. destruct IH as (-> & Ha & Hb). split; [done|]. split; [by constructor|done].
Qed.

Lemma sorted_app_inv (a b : list Z) : StronglySorted Z.lt (a ++ b) -> StronglySorted Z.lt a /\ StronglySorted Z.lt b /\ forall x y, In x a -> In y b -> x < y.
Proof.
  induction a as [|x a IH]; cbn [app]; intros Hs; [split; [constructor|]; split; [done|]; by intros|].
  apply StronglySorted_inv in Hs as [Hs Hx]. destruct (IH Hs) as (H1 & H2 & H3). rewrite List.Forall_forall in Hx. split; [constructor; [done|]; apply List.Forall_forall; intros y Hy; apply Hx, in_or_app; by left|].
  split; [done|]. intros u v [<-|Hu] Hv; [apply Hx, in_or_app; by right|by apply H3].
Qed.
Lemma sorted_shift c (l : list Z) : StronglySorted Z.lt l -> StronglySorted Z.lt (map (fun d => d - c) l).
Proof.
  induction 1 as [|x l Hs IH Hx]; cbn [map]; constructor; [done|]. apply List.Forall_forall. intros y (z & <- & Hz)%in_map_iff. rewrite List.Forall_forall in Hx. specialize (Hx z Hz). lia.
Qed.

(** The first block of what is left. *)
Lemma first_block d ids : StronglySorted Z.lt (d :: ids) -> Forall (fun d => 0 <= d < 2 ^ 31) (d :: ids) ->
  let blk := wrapu 16 (Z.shiftr d 16) in
  exists lows rest, split_block (Z.shiftl blk 16 + BLOCK_SIZE) (d :: ids) = (block_docs (blk, lows), rest) /\ block_ok (blk, lows) /\
    d :: ids = block_docs (blk, lows) ++ rest /\ Forall (fun x => Z.shiftl (blk + 1) 16 <= x) rest /\ (List.length rest <= List.length ids)%nat.
Proof.
  intros Hs Hr blk. assert (Hd := Forall_inv Hr). cbn beta in Hd.
  assert (Hb : blk = d / 65536 /\ 0 <= blk < 2 ^ 15).
  { unfold blk. rewrite Z.shiftr_div_pow2 by lia. change (2 ^ 16) with 65536. assert (0 <= d / 65536 < 2 ^ 15) by (split; [apply Z.div_pos; lia|apply Z.div_lt_upper_bound; lia]).
    rewrite wrapu_id by (split; lia). done. }
  destruct Hb as [Hb Hbr]. assert (Hsh : forall k, 0 <= k -> Z.shiftl k 16 = k * 65536) by (intros; rewrite Z.shiftl_mul_pow2 by lia; lia).
  pose proof (split_block_spec (Z.shiftl blk 16 + BLOCK_SIZE) (d :: ids)) as Hsp. destruct (split_block _ (d :: ids)) as [a b] eqn:E. destruct Hsp as (Eab & Ha & Hbe).
  pose proof (Z.div_mod d 65536 ltac:(lia)). pose proof (Z.mod_pos_bound d 65536 ltac:(lia)). unfold BLOCK_SIZE in *. rewrite Hsh in * by lia.
  assert (Ha1 : exists a', a = d :: a').
  { destruct a as [|x a']; [|injection Eab as -> _; by eexists]. cbn in Eab. specialize (Hbe d ids ltac:(by symmetry)). lia. }
  rewrite Eab in Hs, Hr. destruct (sorted_app_inv _ _ Hs) as (Hsa & Hsb & Hlt). apply Forall_app in Hr as [Hra Hrb].
  exists (map (fun x => x - blk * 65536) a), b. assert (Edocs : block_docs (blk, map (fun x => x - blk * 65536) a) = a).
  { unfold block_docs. cbn [fst snd]. rewrite map_map, Hsh by lia. rewrite <- (map_id a) at 2. apply map_ext. intros. lia. }
  rewrite Edocs. destruct Ha1 as [a' ->]. assert (Hda : forall x, In x (d :: a') -> d <= x).
  { intros x [<-|Hx]; [lia|]. apply StronglySorted_inv in Hsa as [_ Hx2]. rewrite List.Forall_forall in Hx2. specialize (Hx2 x Hx). lia. }
  split; [done|]. split; [|split; [done|split]].
  - split; [done|]. cbn [snd]. constructor; [by apply sorted_shift| |done].
    apply List.Forall_forall. intros y (x & <- & Hx)%in_map_iff. rewrite List.Forall_forall in Ha. specialize (Ha x Hx). specialize (Hda x Hx). unfold BLOCK_SIZE. lia.
  - destruct b as [|y b']; [constructor|]. specialize (Hbe y b' eq_refl). apply List.Forall_forall. intros x [<-|Hx]; [rewrite ?Hsh by lia; lia|].
    apply StronglySorted_inv in Hsb as [_ Hx2]. rewrite List.Forall_forall in Hx2. specialize (Hx2 x Hx). rewrite ?Hsh by lia. lia.
  - injection Eab as Eab. rewrite Eab, length_app. lia.
Qed.

Lemma write_loop_spec p : power_ok p -> forall fuel ids out jumps last ord, (List.length ids <= fuel)%nat ->
  StronglySorted Z.lt ids -> Forall (fun d => Z.shiftl last 16 <= d < 2 ^ 31) ids -> 0 <= last <= 2 ^ 15 -> zlen out <= 9220 * last ->
  exists bl, Forall block_ok bl /\ ascend last bl /\ concat (map block_docs bl) = ids /\ end_block last bl <= 2 ^ 15 /\ zlen (out ++ bytes_of p bl) <= 9220 * end_block last bl /\
    write_loop fuel p ids out jumps last ord = Some (out ++ bytes_of p bl, jumps ++ jumps_of p last ord (zlen out) bl, end_block last bl, ord + card bl).
Proof.
  intros Hp. induction fuel as [|fuel IH]; intros ids out jumps last ord Hf Hs Hr Hlast Hout.
  all: assert (Hnil : ids = [] -> exists bl, Forall block_ok bl /\ ascend last bl /\ concat (map block_docs bl) = ids /\ end_block last bl <= 2 ^ 15 /\ zlen (out ++ bytes_of p bl) <= 9220 * end_block last bl /\
      Some (out, jumps, last, ord) = Some (out ++ bytes_of p bl, jumps ++ jumps_of p last ord (zlen out) bl, end_block last bl, ord + card bl)).
  1, 3: intros ->; exists []; change (bytes_of p []) with (@nil byte); cbn [jumps_of end_block fold_left map concat ascend]; rewrite !app_nil_r; change (card []) with 0; rewrite Z.add_0_r.
  1, 2: repeat (split; [first [done | lia | constructor]|]); done.
  { destruct ids; [by apply Hnil|cbn in Hf; lia]. }
  destruct ids as [|d ids]; [by apply Hnil|]. clear Hnil.
  assert (Hr0 : Forall (fun d => 0 <= d < 2 ^ 31) (d :: ids)).
  { eapply Forall_impl; [|exact Hr]. cbn beta. intros x Hx. rewrite Z.shiftl_mul_pow2 in Hx by lia. lia. }
  destruct (first_block d ids Hs Hr0) as (lows & rest & E & Hb & Eids & Hrest & Hlen). cbn [write_loop]. set (blk := wrapu 16 (Z.shiftr d 16)) in *. rewrite E.
  assert (Hlb : last <= blk).
  { destruct Hb as [Hb1 Hb2]. cbn [fst snd] in *. destruct lows as [|low lows]; [by destruct (lows_some _ Hb2)|]. injection Eids as Ed _. assert (Hd := Forall_inv Hr). assert (Hlow := Forall_inv (lows_range _ Hb2)). cbn beta in *.
    unfold BLOCK_SIZE in Hlow. rewrite !Z.shiftl_mul_pow2 in * by lia. cbn [fst] in Ed. lia. }
  destruct Hb as [Hb1 Hb2] eqn:Hbe. cbn [fst snd] in Hb1, Hb2. clear Hbe. unfold add_jumps at 1. destruct (Z.ltb_spec (zlen out) (2 ^ 31)); [|lia]. cbn [mbind option_bind].
  rewrite (write_block_spec p blk lows out Hp Hb2). cbn [mbind option_bind]. pose proof (block_size p (blk, lows) Hp (conj Hb1 Hb2)) as Hsz.
  assert (Hs' : StronglySorted Z.lt rest) by (rewrite Eids in Hs; apply sorted_app_inv in Hs; tauto).
  assert (Hr' : Forall (fun d => Z.shiftl (blk + 1) 16 <= d < 2 ^ 31) rest).
  { rewrite Eids in Hr. apply Forall_app in Hr as [_ Hr]. rewrite List.Forall_forall in *. intros x Hx. split; [by apply Hrest|by apply Hr]. }
  destruct (IH rest (out ++ block_bytes p (blk, lows)) (jumps ++ replicate (Z.to_nat (blk + 1 - last)) (ord, zlen out)) (blk + 1) (ord + zlen (block_docs (blk, lows)))) as (bl & A1 & A2 & A3 & A4 & A5 & ->);
    [cbn in Hf; lia|done|done|lia|rewrite zlen_app; lia|].
  exists ((blk, lows) :: bl). assert (Ec : zlen (block_docs (blk, lows)) = zlen lows) by (unfold block_docs, zlen; by rewrite length_map).
  split; [constructor; [by split|done]|]. split; [by split|]. split; [cbn [map concat]; by rewrite A3, Eids|]. cbn [end_block fold_left fst]. fold (end_block (blk + 1) bl). split; [done|].
  rewrite bytes_of_cons, app_assoc. split; [done|]. do 2 f_equal; [f_equal|].
  - f_equal. cbn [jumps_of fst snd]. by rewrite <- app_assoc, Ec, zlen_app.
  - rewrite card_cons, Ec. cbn [snd]. lia.
Qed.

(** The sentinel's block, and the whole region. *)
Definition sentinel : block := (0x7fff, [0xffff]).
Definition table_bytes (jumps : list (Z * Z)) : list byte := concat (map (fun j => to_le 4 j.1 ++ to_le 4 j.2) jumps).
Definition table_of (p : Z) (bl : list block) : list (Z * Z) :=
  let n := end_block 0 bl + 1 in
  if n =? 2 then [] else jumps_of p 0 0 0 bl ++ [(card bl, zlen (bytes_of p bl))].

Lemma jumps_length p bl : forall last ord off, ascend last bl -> zlen (jumps_of p last ord off bl) = end_block last bl - last.
Proof.
  induction bl as [|b bl IH]; intros last ord off Ha; cbn [jumps_of end_block fold_left]; [unfold zlen; cbn; lia|]. destruct Ha as [Ha1 Ha2].
  rewrite zlen_app, IH by done. unfold end_block at 1. unfold zlen. rewrite length_replicate. fold (end_block (b.1 + 1) bl). lia.
Qed.
Lemma end_block_le last bl : ascend last bl -> last <= end_block last bl.
Proof. intros Ha. pose proof (jumps_length NO_RANK bl last 0 0 Ha) as H. pose proof (zlen_nonneg (jumps_of NO_RANK last 0 0 bl)). lia. Qed.

Lemma table_few p bl : ascend 0 bl -> end_block 0 bl <= 2 ^ 15 -> zlen (table_of p bl) <= 2 ^ 15 + 1.
Proof. intros Ha He. unfold table_of. cbv zeta. destruct (_ =? 2); [unfold zlen; cbn [List.length]; lia|]. rewrite zlen_app, jumps_length by done. unfold zlen. cbn [List.length]. lia. Qed.

Lemma ascending_sorted l : ascending l = true <-> StronglySorted Z.lt l.
Proof.
  split.
  - induction l as [|x l IH]; [constructor|]. destruct l as [|y l]; [constructor; constructor|]. cbn [ascending]. intros [Hxy%Z.ltb_lt H]%andb_true_iff. specialize (IH H).
    constructor; [done|]. constructor; [done|]. apply StronglySorted_inv in IH as [_ IH]. eapply Forall_impl; [|exact IH]. cbn beta. lia.
  - induction 1 as [|x l Hs IH Hx]; [done|]. destruct l as [|y l]; [done|]. cbn [ascending]. apply andb_true_iff. split; [apply Z.ltb_lt; by apply Forall_inv in Hx|done].
Qed.

Definition docs_ok (ids : list Z) : Prop := StronglySorted Z.lt ids /\ Forall (fun d => 0 <= d < NO_MORE_DOCS) ids.

Lemma write_is_the_blocks p ids : power_ok p -> docs_ok ids -> exists bl,
  Forall block_ok bl /\ ascend 0 bl /\ concat (map block_docs bl) = ids /\ end_block 0 bl <= 2 ^ 15 /\ zlen (bytes_of p bl) <= 9220 * 2 ^ 15 /\
  write_with_dense_rank_power ids p = Some (bytes_of p (bl ++ [sentinel]) ++ table_bytes (table_of p bl), wraps 16 (zlen (table_of p bl))).
Proof.
  intros Hp [Hs Hr]. destruct (write_loop_spec p Hp (length ids) ids [] [] 0 0) as (bl & A1 & A2 & A3 & A4 & A5 & A6); [lia|done| |lia|unfold zlen; cbn; lia|].
  { eapply Forall_impl; [|exact Hr]. cbn beta. unfold NO_MORE_DOCS. rewrite Z.shiftl_0_l. lia. }
  cbn [app] in A5, A6. change (zlen []) with 0 in A6. pose proof (end_block_le 0 bl A2) as Hend. exists bl. split; [done|]. split; [done|]. split; [done|]. split; [done|]. split; [lia|].
  unfold write_with_dense_rank_power. assert (E1 : (p =? NO_RANK) || (7 <=? p) && (p <=? 15) = true) by (destruct Hp as [->|Hp]; [done|]; unfold NO_RANK; bool_lia). rewrite E1. cbn [negb].
  rewrite (proj2 (ascending_sorted ids) Hs). cbn [negb]. rewrite bool_decide_eq_false_2.
  2: { intros E. destruct (exists_last (l := ids)) as (l & x & ->); [by intros ->|]. rewrite map_app in E; cbn [map] in E; rewrite List.last_last in E. injection E as ->. apply Forall_app in Hr as [_ Hr]. apply Forall_inv in Hr. unfold NO_MORE_DOCS in Hr. lia. }
  assert (E2 : match ids with [] => true | d :: _ => 0 <=? d end = true) by (destruct ids; [done|]; apply Forall_inv in Hr; bool_lia). rewrite E2. cbn [negb].
  rewrite A6. cbn [mbind option_bind]. unfold add_jumps. destruct (Z.ltb_spec (zlen (bytes_of p bl)) (2 ^ 31)); [|lia]. cbn [mbind option_bind].
  replace (end_block 0 bl + 1 - end_block 0 bl) with 1 by lia. change (Z.to_nat 1) with 1%nat. cbn [replicate].
  rewrite (write_fold_bytes _ (fun j => to_le 4 j.1 ++ to_le 4 j.2)) by (intros o j; unfold write_i32; cbn [write_bytes VecDataOutput]; by rewrite <- ?app_assoc).
  unfold table_of. cbv zeta. pose proof (jumps_length p bl 0 0 0 A2) as Hj. assert (Hz : zlen (jumps_of p 0 0 0 bl ++ [(card bl, zlen (bytes_of p bl))]) = end_block 0 bl + 1) by (rewrite zlen_app, Hj; change (zlen [(card bl, zlen (bytes_of p bl))]) with 1; lia).
  assert (Esent : write_i16 (wraps 16 (wrapu 16 (Z.land (2 ^ 31 - 1) 65535))) (bytes_of p bl ++ to_le 2 (wrapu 16 (Z.shiftr (2 ^ 31 - 1) 16)) ++ to_le 2 0) = bytes_of p (bl ++ [sentinel])).
  { rewrite bytes_of_app. unfold write_i16. cbn [write_bytes VecDataOutput]. rewrite <- app_assoc. f_equal. }
  rewrite Esent. rewrite Z.add_0_l. destruct (Z.eqb_spec (end_block 0 bl + 1) 2); [cbn [Z.to_nat take map concat]; done|].
  rewrite Hz. assert (Hl : Z.of_nat (List.length (jumps_of p 0 0 0 bl ++ [(card bl, zlen (bytes_of p bl))])) = end_block 0 bl + 1) by exact Hz.
  rewrite take_ge by lia. done.
Qed.

(** ** The jump table. *)
Definition starts_at (k : Z) (post : list block) : Prop := match post with [] => True | b :: _ => k <= b.1 end.

Lemma jumps_lookup p bl : forall last ord off k, ascend last bl -> last <= k <= end_block last bl ->
  exists pre post, bl = pre ++ post /\ Forall (fun b : block => b.1 < k) pre /\ starts_at k post /\
    (jumps_of p last ord off bl ++ [(ord + card bl, off + zlen (bytes_of p bl))]) !! Z.to_nat (k - last) = Some (ord + card pre, off + zlen (bytes_of p pre)).
Proof.
  induction bl as [|b bl IH]; intros last ord off k Ha Hk.
  - cbn in Hk. assert (k = last) as -> by lia. exists [], []. split; [done|]. split; [constructor|]. split; [done|]. by rewrite Z.sub_diag.
  - destruct Ha as [Hb Ha]. cbn [jumps_of]. set (n := Z.to_nat (b.1 + 1 - last)). destruct (Z.leb_spec k b.1) as [Hkb|Hkb].
    + exists [], (b :: bl). split; [done|]. split; [constructor|]. split; [done|]. change (card []) with 0. change (zlen (bytes_of p [])) with 0. rewrite !Z.add_0_r.
      rewrite <- app_assoc, lookup_app_l by (rewrite length_replicate; unfold n; lia). apply lookup_replicate_2. unfold n. lia.
    + cbn [end_block fold_left] in Hk. fold (end_block (b.1 + 1) bl) in Hk.
      destruct (IH (b.1 + 1) (ord + zlen b.2) (off + zlen (block_bytes p b)) k Ha ltac:(lia)) as (pre & post & -> & Hpre & Hpost & E).
      exists (b :: pre), post. split; [done|]. split; [by constructor|]. split; [done|]. rewrite <- app_assoc, lookup_app_r by (rewrite length_replicate; unfold n; lia).
      rewrite length_replicate. replace (Z.to_nat (k - last) - n)%nat with (Z.to_nat (k - (b.1 + 1))) by (unfold n; lia).
      rewrite !card_cons, !bytes_of_cons, !zlen_app, !Z.add_assoc. exact E.
Qed.

Lemma table_size l : zlen (table_bytes l) = 8 * zlen l.
Proof. induction l as [|x l IH]; [done|]. unfold table_bytes in *. cbn [map concat]. rewrite !zlen_app, !zlen_to_le, IH, zlen_cons. lia. Qed.
Lemma read_table jumps k j : jumps !! k = Some j -> in_s 32 j.1 -> in_s 32 j.2 ->
  read_i32_at (table_bytes jumps) (Z.of_nat k * 8) = Ok j.1 /\ read_i32_at (table_bytes jumps) (Z.of_nat k * 8 + 4) = Ok j.2.
Proof.
  intros Hj H1 H2. rewrite <- (take_drop_middle jumps k j Hj). pose proof (lookup_lt_Some _ _ _ Hj) as Hlt.
  assert (Hk : zlen (table_bytes (take k jumps)) = Z.of_nat k * 8) by (rewrite table_size; unfold zlen; rewrite length_take; lia).
  assert (E : table_bytes (take k jumps ++ j :: drop (Datatypes.S k) jumps) = table_bytes (take k jumps) ++ to_le 4 j.1 ++ to_le 4 j.2 ++ table_bytes (drop (Datatypes.S k) jumps)).
  { unfold table_bytes. rewrite map_app, concat_app. cbn [map concat]. by rewrite <- !app_assoc. }
  rewrite E. unfold read_i32_at. rewrite <- Hk. split.
  - pose proof (zslice_mid (table_bytes (take k jumps)) (to_le 4 j.1) (to_le 4 j.2 ++ table_bytes (drop (Datatypes.S k) jumps))) as Hs. rewrite zlen_to_le in Hs. change (Z.of_nat 4) with 4 in Hs.
    rewrite Hs, from_to_le. change (_ mod 2 ^ (8 * Z.of_nat 4)) with (wrapu 32 j.1). by rewrite wraps_wrapu, wraps_id by (done || lia).
  - pose proof (zslice_mid (table_bytes (take k jumps) ++ to_le 4 j.1) (to_le 4 j.2) (table_bytes (drop (Datatypes.S k) jumps))) as Hs. rewrite zlen_app, !zlen_to_le in Hs. change (Z.of_nat 4) with 4 in Hs.
    rewrite <- app_assoc in Hs. rewrite Hs, from_to_le. change (_ mod 2 ^ (8 * Z.of_nat 4)) with (wrapu 32 j.2). by rewrite wraps_wrapu, wraps_id by (done || lia).
Qed.

Lemma read_u16_mid pre v post : in_u 16 v -> read_u16_at (pre ++ to_le 2 v ++ post) (zlen pre) = Ok v.
Proof.
  intros Hv. unfold read_u16_at. pose proof (zslice_mid pre (to_le 2 v) post) as Hs. rewrite zlen_to_le in Hs. change (Z.of_nat 2) with 2 in Hs. rewrite Hs. by rewrite from_to_le_id.
Qed.

(** ** Inside a block. *)
(** What a step leaves alone. *)
Record frame (c c' : t) : Prop := {
  fr_data : data c' = data c;
  fr_table : jump_table c' = jump_table c;
  fr_count : jump_table_entry_count c' = jump_table_entry_count c;
  fr_power : dense_rank_power c' = dense_rank_power c;
  fr_block : IndexedDisi.block c' = IndexedDisi.block c;
  fr_end : block_end c' = block_end c;
  fr_next : next_block_index c' = next_block_index c;
  fr_doc : doc c' = doc c;
  fr_method : method c' = method c;
}.
Lemma cursor_frame_refl c : frame c c.
Proof. by constructor. Qed.
Lemma cursor_frame_trans a b c : frame a b -> frame b c -> frame a c.
Proof. intros [] []. constructor; congruence. Qed.

(** The low halves read so far are those at most [seen]. *)
Record sparse_at (c : t) (lows : list Z) (ord seen k : Z) : Prop := {
  sp_docs : sparse_docs c = concat (map (to_le 2) lows);
  sp_pos : sparse_pos c = 2 * k;
  sp_k : 0 <= k <= zlen lows;
  sp_index : index c = ord - 1 + k;
  sp_next : next_block_index c = ord - 1 + zlen lows;
  sp_before : forall j x, lows !! j = Some x -> Z.of_nat j < k -> x <= seen;
  sp_after : forall j x, lows !! j = Some x -> k <= Z.of_nat j -> seen < x;
  sp_exist : next_exist_doc_in_block c <= seen \/ (0 <= seen /\ within lows seen = false /\ lows !! Z.to_nat k = Some (next_exist_doc_in_block c));
  sp_exists : 0 <= seen -> exists_ c = within lows seen;
}.

Record dense_at (c : t) (lows : list Z) (ord seen : Z) : Prop := {
  de_rank : dense_rank c = rank_bytes (dense_rank_power c) lows;
  de_bitmap : dense_bitmap c = concat (map (to_le 8) (words_of lows));
  de_index : -1 <= word_index c <= seen / 64;
  de_word : word c = if word_index c =? -1 then 0 else at0 (words_of lows) (word_index c);
  de_ones : number_of_ones c = ord + count (wbit (words_of lows)) 0 (Z.to_nat (64 * (word_index c + 1)));
  de_origo : dense_origo_index c = ord;
}.

Definition in_block (c : t) (lows : list Z) (ord seen : Z) : Prop :=
  match method c with
  | All => zlen lows = BLOCK_SIZE /\ gap c = IndexedDisi.block c - ord
  | Sparse => exists k, sparse_at c lows ord seen k
  | Dense => dense_at c lows ord seen
  end.

Lemma sorted_nth lows : StronglySorted Z.lt lows -> forall i j x y, lows !! i = Some x -> lows !! j = Some y -> (i < j)%nat -> x < y.
Proof.
  induction 1 as [|z lows Hs IH Hz]; intros i j x y Hi Hj Hij; [done|]. destruct j as [|j]; [lia|]. cbn in Hj. destruct i as [|i]; cbn in Hi.
  - injection Hi as ->. rewrite List.Forall_forall in Hz. apply Hz, list_elem_of_In, list_elem_of_lookup. by exists j.
  - eapply IH; [exact Hi|exact Hj|lia].
Qed.

Lemma sparse_read lows k x : Forall (fun i => 0 <= i < BLOCK_SIZE) lows -> lows !! k = Some x ->
  exists b, zslice (concat (map (to_le 2) lows)) (2 * Z.of_nat k) (2 * Z.of_nat k + 2) = Some b /\ from_le b = x.
Proof.
  intros Hr Hk. assert (Hx : 0 <= x < BLOCK_SIZE) by (rewrite List.Forall_forall in Hr; apply Hr, list_elem_of_In, list_elem_of_lookup; by exists k).
  pose proof (lookup_lt_Some _ _ _ Hk) as Hlt. exists (to_le 2 x). split; [|apply from_to_le_id; unfold BLOCK_SIZE in Hx; split; lia].
  rewrite <- (take_drop_middle lows k x Hk) at 1. rewrite map_app, concat_app. cbn [map concat].
  pose proof (zslice_mid (concat (map (to_le 2) (take k lows))) (to_le 2 x) (concat (map (to_le 2) (drop (Datatypes.S k) lows)))) as Hs.
  rewrite zlen_to_le, zlen_concat_le in Hs. unfold zlen in Hs. rewrite length_take in Hs. replace (Z.of_nat (k `min` length lows)) with (Z.of_nat k) in Hs by lia. exact Hs.
Qed.

Lemma within_lookup lows i : within lows i = true <-> exists j, lows !! j = Some i.
Proof. unfold within. by rewrite bool_decide_eq_true, list_elem_of_lookup. Qed.
Lemma not_within lows i : (forall j x, lows !! j = Some x -> x <> i) -> within lows i = false.
Proof. intros H. apply not_true_is_false. intros (j & Hj)%within_lookup. by apply (H j i). Qed.

(** Where the loop stands: past the low halves below [low]. *)
Record sparse_loop_at (c : t) (lows : list Z) (ord low k : Z) : Prop := {
  sl_docs : sparse_docs c = concat (map (to_le 2) lows);
  sl_pos : sparse_pos c = 2 * k;
  sl_k : 0 <= k <= zlen lows;
  sl_index : index c = ord - 1 + k;
  sl_next : next_block_index c = ord - 1 + zlen lows;
  sl_exist : next_exist_doc_in_block c <= low;
  sl_before : forall j x, lows !! j = Some x -> Z.of_nat j < k -> x < low;
}.

Lemma sparse_exhausted c lows ord low fuel : sparse_loop_at c lows ord low (zlen lows) -> exists c',
  sparse_loop fuel low c = (Ok (within lows low), c') /\ frame c c' /\ sparse_at c' lows ord low (zlen lows) /\ within lows low = false.
Proof.
  intros [Hd Hp Hk Hi Hn He Hb]. assert (Hw : within lows low = false).
  { apply not_within. intros j x Hj ->. assert (Hx : low < low) by (apply (Hb j low Hj); apply lookup_lt_Some in Hj; unfold zlen; lia). lia. }
  exists (set_sparse (index c) false (next_exist_doc_in_block c) (sparse_pos c) c). rewrite Hw. split; [|split; [by constructor|split; [|done]]].
  - destruct fuel; cbn [sparse_loop]; unfold bind, get_state, modify, ret; (destruct (Z.ltb_spec (index c) (next_block_index c)); [lia|done]).
  - constructor; cbn; try done; [|intros j x Hj; apply lookup_lt_Some in Hj; unfold zlen; lia|by left].
    intros j x Hj Hjk. specialize (Hb j x Hj Hjk). lia.
Qed.

Lemma sparse_scan lows ord low : lows_ok lows -> 0 <= low < BLOCK_SIZE -> forall fuel c k, sparse_loop_at c lows ord low k -> zlen lows - k <= Z.of_nat fuel ->
  exists c' k', sparse_loop fuel low c = (Ok (within lows low), c') /\ frame c c' /\ sparse_at c' lows ord low k' /\ (within lows low = true -> index c' = ord + below lows low).
Proof.
  intros Hl Hlow. induction fuel as [|fuel IH]; intros c k Hs Hf.
  all: destruct (Z.eq_dec k (zlen lows)) as [->|Hkn];
    [match goal with |- context [sparse_loop ?f _ _] => destruct (sparse_exhausted c lows ord low f Hs) as (c' & E & H1 & H2 & H3) end; exists c', (zlen lows); split; [exact E|]; split; [done|]; split; [done|congruence]|].
  { destruct Hs as [_ _ Hk _ _ _ _]. lia. }
  destruct Hs as [Hd Hp Hk Hi Hn He Hb]. cbn [sparse_loop]. unfold bind, get_state, modify, ret.
  assert (Hz : zlen (sparse_docs c) = 2 * zlen lows) by (rewrite Hd, zlen_concat_le; lia).
  destruct (Z.ltb_spec (index c) (next_block_index c)); [|lia]. destruct (Z.leb_spec (sparse_pos c + 2) (zlen (sparse_docs c))); [|lia]. cbn [andb].
  destruct (lookup_lt_is_Some_2 lows (Z.to_nat k)) as [x Hx]; [unfold zlen in *; lia|].
  destruct (sparse_read lows (Z.to_nat k) x (lows_range _ Hl) Hx) as (b & Eb & Ex). rewrite Z2Nat.id in Eb by lia.
  unfold panicking. rewrite Hd, Hp, Eb, Ex. destruct (Z.leb_spec low x) as [Hle|Hgt].
  - destruct (Z.eqb_spec x low) as [->|Hne]; cbn [negb].
    + assert (Hw : within lows low = true) by (apply within_lookup; by exists (Z.to_nat k)). rewrite Hw. eexists _, (k + 1). split; [reflexivity|].
      destruct (proj1 (lows_lookup lows (Z.to_nat k) low Hl Hlow) Hx) as [_ Hbel]. rewrite Z2Nat.id in Hbel by lia.
      split; [by constructor|]. split; [|cbn; lia]. constructor; cbn; try done; [lia|unfold zlen in *; apply lookup_lt_Some in Hx; lia|lia| |  |by left].
      * intros j y Hj Hjk. destruct (Z.eq_dec (Z.of_nat j) k) as [<-|]; [rewrite Nat2Z.id in Hx; rewrite Hj in Hx; injection Hx as ->; lia|]. specialize (Hb j y Hj ltac:(lia)). lia.
      * intros j y Hj Hjk. apply (sorted_nth lows (lows_sorted _ Hl) (Z.to_nat k) j low y Hx Hj). lia.
    + assert (Hw : within lows low = false).
      { apply not_within. intros j y Hj ->. destruct (Z.lt_trichotomy (Z.of_nat j) k) as [Hlt|[<-|Hgt']]; [specialize (Hb j low Hj Hlt); lia| |].
        - rewrite Nat2Z.id in Hx. congruence.
        - pose proof (sorted_nth lows (lows_sorted _ Hl) (Z.to_nat k) j x low Hx Hj ltac:(lia)). lia. }
      rewrite Hw. eexists _, k. split; [reflexivity|]. split; [by constructor|]. split; [|done]. constructor; cbn; try done.
      * intros j y Hj Hjk. specialize (Hb j y Hj Hjk). lia.
      * intros j y Hj Hjk. destruct (Z.eq_dec (Z.of_nat j) k) as [<-|]; [rewrite Nat2Z.id in Hx; rewrite Hj in Hx; injection Hx as ->; lia|].
        pose proof (sorted_nth lows (lows_sorted _ Hl) (Z.to_nat k) j x y Hx Hj ltac:(lia)). lia.
      * right. split; [lia|]. by split.
  - destruct (IH (set_sparse (index c + 1) (exists_ c) (next_exist_doc_in_block c) (2 * k + 2) c) (k + 1)) as (c' & k' & E & Hfr & Hs & Hix); [constructor; cbn; try done; try lia| |].
    + intros j y Hj Hjk. destruct (Z.eq_dec (Z.of_nat j) k) as [<-|]; [rewrite Nat2Z.id in Hx; rewrite Hj in Hx; injection Hx as ->; lia|]. apply (Hb j y Hj). lia.
    + lia.
    + exists c', k'. split; [exact E|]. split; [|by split]. eapply cursor_frame_trans; [|exact Hfr]. by constructor.
Qed.

Lemma land_low d : Z.land d 0xffff = d mod 65536.
Proof. change 0xffff with (Z.ones 16). by rewrite Z.land_ones. Qed.


(** The scan of a sparse block, from where the last one stopped. *)
Lemma sparse_lookup c lows ord seen k target : lows_ok lows -> sparse_at c lows ord seen k -> -1 <= seen -> seen <= target mod 65536 ->
  (target = doc c <-> 0 <= seen /\ target mod 65536 = seen) ->
  exists c' k', sparse_advance_exact target c = (Ok (within lows (target mod 65536)), c') /\ frame c c' /\ sparse_at c' lows ord (target mod 65536) k' /\
    (within lows (target mod 65536) = true -> index c' = ord + below lows (target mod 65536)).
Proof.
  intros Hl Hs Hseen Hge Hdoc. pose proof (Z.mod_pos_bound target 65536 ltac:(lia)) as Hm. unfold sparse_advance_exact, bind, get_state. rewrite land_low.
  set (low := target mod 65536) in *. destruct Hs as [S1 S2 S3 S4 S5 S6 S7 S8 S9].
  destruct (Z.ltb_spec low (next_exist_doc_in_block c)) as [Hover|Hn].
  - destruct S8 as [S8|(S8 & S10 & S11)]; [lia|]. assert (Hafter : forall j x, lows !! j = Some x -> k <= Z.of_nat j -> low < x).
    { intros j x Hj Hjk. destruct (Z.eq_dec (Z.of_nat j) k) as [<-|]; [rewrite Nat2Z.id in S11; rewrite Hj in S11; injection S11 as ->; done|].
      pose proof (sorted_nth lows (lows_sorted _ Hl) (Z.to_nat k) j _ x S11 Hj ltac:(lia)). lia. }
    assert (Hw : within lows low = false).
    { destruct (Z.eq_dec seen low) as [<-|]; [done|]. apply not_within. intros j x Hj ->. destruct (Z.lt_ge_cases (Z.of_nat j) k) as [Hjk|Hjk]; [specialize (S6 j low Hj Hjk); lia|specialize (Hafter j low Hj Hjk); lia]. }
    exists c, k. rewrite Hw. split; [done|]. split; [apply cursor_frame_refl|]. split; [|done]. constructor; try done.
    + intros j x Hj Hjk. specialize (S6 j x Hj Hjk). lia.
    + right. split; [lia|]. by split.
    + intros _. rewrite Hw, <- S10. by apply S9.
  - destruct (Z.eqb_spec target (doc c)) as [Ed|Ed].
    + destruct (proj1 Hdoc Ed) as [H0 Heq]. exists c, k. unfold ret. rewrite (S9 H0), Heq. split; [done|]. split; [apply cursor_frame_refl|]. split; [by constructor|].
      intros (j & Hj)%within_lookup. destruct (proj1 (lows_lookup lows j seen Hl ltac:(unfold BLOCK_SIZE; lia)) Hj) as [_ <-]. rewrite S4.
      assert (Hjk : Z.of_nat j < k) by (destruct (Z.lt_ge_cases (Z.of_nat j) k); [done|]; specialize (S7 j seen Hj ltac:(done)); lia).
      destruct (Z.eq_dec (Z.of_nat j + 1) k) as [|Hne]; [lia|]. destruct (lookup_lt_is_Some_2 lows (Z.to_nat (k - 1))) as [x Hx]; [unfold zlen in *; lia|].
      pose proof (sorted_nth lows (lows_sorted _ Hl) j (Z.to_nat (k - 1)) seen x Hj Hx ltac:(lia)). specialize (S6 _ x Hx ltac:(lia)). lia.
    + assert (Hlt : seen < low) by (destruct (Z.eq_dec seen low); [exfalso; apply Ed, Hdoc; lia|lia]).
      apply sparse_scan with (k := k); [done|unfold BLOCK_SIZE; lia| |].
      * constructor; try done. intros j x Hj Hjk. specialize (S6 j x Hj Hjk). lia.
      * pose proof (zlen_concat_le 2 lows) as Hz. rewrite <- S1 in Hz. unfold zlen in *. lia.
Qed.

(** ** A dense block. *)
Lemma word_slice ws a n : 0 <= a -> 0 <= n -> a + n <= zlen ws ->
  zslice (concat (map (to_le 8) ws)) (a * 8) ((a + n) * 8) = Some (concat (map (to_le 8) (take (Z.to_nat n) (drop (Z.to_nat a) ws)))).
Proof.
  intros Ha Hn Hl. assert (E : ws = take (Z.to_nat a) ws ++ take (Z.to_nat n) (drop (Z.to_nat a) ws) ++ drop (Z.to_nat n) (drop (Z.to_nat a) ws)) by (by rewrite !take_drop).
  rewrite E at 1. rewrite !map_app, !concat_app.
  pose proof (zslice_mid (concat (map (to_le 8) (take (Z.to_nat a) ws))) (concat (map (to_le 8) (take (Z.to_nat n) (drop (Z.to_nat a) ws)))) (concat (map (to_le 8) (drop (Z.to_nat n) (drop (Z.to_nat a) ws))))) as Hs.
  rewrite !zlen_concat_le in Hs. unfold zlen in Hs at 1 2 3. unfold zlen in Hl. rewrite !length_take, length_drop in Hs.
  replace (Z.of_nat 8 * Z.of_nat (Z.to_nat a `min` length ws)) with (a * 8) in Hs by lia.
  replace (a * 8 + Z.of_nat 8 * Z.of_nat (Z.to_nat n `min` (length ws - Z.to_nat a))) with ((a + n) * 8) in Hs by lia. exact Hs.
Qed.

Lemma word_read ws i : words_ok ws -> 0 <= i < zlen ws -> exists b, zslice (concat (map (to_le 8) ws)) (i * 8) (i * 8 + 8) = Some b /\ from_le b = at0 ws i.
Proof.
  intros Hw Hi. exists (to_le 8 (at0 ws i)). split; [|apply from_to_le_id; by apply at0_range].
  replace (i * 8 + 8) with ((i + 1) * 8) by lia. rewrite word_slice by lia. do 2 f_equal. change (Z.to_nat 1) with 1%nat.
  rewrite (drop_S _ (at0 ws i)) by (by apply at0_lookup). cbn [take map concat]. by rewrite app_nil_r.
Qed.

Fixpoint ones_in (ws : list Z) : Z := match ws with [] => 0 | w :: ws => count_ones w + ones_in ws end.

Lemma last_default {A} (x : A) l a b : List.last (x :: l) a = List.last (x :: l) b.
Proof. revert x. induction l as [|y l IH]; intros x; [done|]. apply (IH y). Qed.

Lemma run_words_spec ws : words_ok ws -> forall last ones, run_words (List.length ws) (concat (map (to_le 8) ws)) last ones = (List.last ws last, ones + ones_in ws).
Proof.
  induction 1 as [|w ws Hw _ IH]; intros last ones; cbn [List.length run_words map concat ones_in]; [by rewrite Z.add_0_r|].
  pose proof (zlen_to_le 8 w) as Hz. rewrite take_app_length' , drop_app_length' by (unfold zlen in Hz; lia). rewrite from_to_le_id by done.
  rewrite IH. f_equal; [|lia]. destruct ws as [|x ws]; [done|]. apply (last_default x ws w last).
Qed.

Lemma ones_in_count ws n : words_ok ws -> forall a, 0 <= a -> a + Z.of_nat n <= zlen ws -> ones_in (take n (drop (Z.to_nat a) ws)) = count (wbit ws) (64 * a) (64 * n).
Proof.
  intros Hw. induction n as [|n IH]; intros a Ha Hl; [by rewrite Nat.mul_0_r|].
  rewrite (drop_S _ (at0 ws a)) by (apply at0_lookup; lia). cbn [take ones_in]. replace (64 * Datatypes.S n)%nat with (64 + 64 * n)%nat by lia. rewrite count_app. f_equal.
  - symmetry. apply count_word; [by apply at0_range|]. intros i Hi. unfold wbit. by destruct (word_of_unique (64 * a + i) a i Hi eq_refl) as [-> ->].
  - replace (Datatypes.S (Z.to_nat a)) with (Z.to_nat (a + 1)) by lia. rewrite IH by lia. f_equal. lia.
Qed.

Lemma last_taken_word ws a n : 0 <= a -> (0 < n)%nat -> a + Z.of_nat n <= zlen ws -> forall d, List.last (take n (drop (Z.to_nat a) ws)) d = at0 ws (a + Z.of_nat n - 1).
Proof.
  intros Ha Hn. revert a Ha Hn. induction n as [|n IH]; intros a Ha Hn Hl d; [lia|].
  rewrite (drop_S _ (at0 ws a)) by (apply at0_lookup; lia). cbn [take]. replace (Datatypes.S (Z.to_nat a)) with (Z.to_nat (a + 1)) by lia.
  destruct n as [|n]; [cbn [take List.last]; f_equal; lia|]. specialize (IH (a + 1) ltac:(lia) ltac:(lia) ltac:(lia) (at0 ws a)).
  replace (a + Z.of_nat (Datatypes.S (Datatypes.S n)) - 1) with (a + 1 + Z.of_nat (Datatypes.S n) - 1) by lia. rewrite <- IH.
  destruct (take (Datatypes.S n) (drop (Z.to_nat (a + 1)) ws)) as [|x l] eqn:E; [|].
  - apply (f_equal (@List.length Z)) in E. rewrite length_take, length_drop in E. change (List.length []) with 0%nat in E. unfold zlen in Hl. lia.
  - change (List.last (at0 ws a :: x :: l) d) with (List.last (x :: l) d). apply last_default.
Qed.

Lemma ones_above w r : in_u 64 w -> 0 <= r < 64 -> count_ones (Z.shiftr w r) = count (Z.testbit w) r (64 - Z.to_nat r).
Proof.
  intros Hw Hr. rewrite (count_ones_count (64 - Z.to_nat r)).
  - replace (count (Z.testbit w) r (64 - Z.to_nat r)) with (count (Z.testbit w) (0 + r) (64 - Z.to_nat r)) by (by rewrite Z.add_0_l). rewrite <- count_shift. apply count_ext. intros i Hi. apply Z.shiftr_spec. lia.
  - replace (Z.of_nat (64 - Z.to_nat r)) with (64 - r) by lia. destruct Hw as [H1 H2]. split; [by apply Z.shiftr_nonneg|].
    rewrite Z.shiftr_div_pow2 by lia. apply Z.div_lt_upper_bound; [apply Z.pow_pos_nonneg; lia|]. rewrite <- Z.pow_add_r by lia. by replace (r + (64 - r)) with 64 by lia.
Qed.

Lemma two_bytes c : in_u 16 c -> Z.lor (Z.shiftl (wrapu 8 (Z.shiftr c 8)) 8) (Z.land c 0xff) = c.
Proof.
  intros Hc. change 0xff with (Z.ones 8). apply Z.bits_inj'. intros i Hi. rewrite Z.lor_spec, Z.land_spec, testbit_ones by lia.
  destruct (Z.ltb_spec i 8) as [H|H].
  - rewrite Z.shiftl_spec_low by lia. replace (0 <=? i) with true by bool_lia. by rewrite ?andb_true_r.
  - rewrite Z.shiftl_spec, testbit_wrapu, Z.shiftr_spec by lia. replace (i - 8 + 8) with i by lia. destruct (Z.ltb_spec (i - 8) 8); cbn [andb].
    + replace (0 <=? i) with true by bool_lia. cbn [andb]. by rewrite andb_false_r, orb_false_r.
    + rewrite (testbit_above 16 c i Hc) by lia. done.
Qed.

Section dense.
Context (lows : list Z) (ord : Z).
Hypothesis Hl : lows_ok lows.
Notation words := (words_of lows).

Lemma words_facts : words_ok words /\ zlen words = 1024 /\ forall i, 0 <= i -> wbit words i = within lows i.
Proof. apply (words_of_spec lows), lows_range, Hl. Qed.

Lemma ones_below n : 0 <= n -> count (wbit words) 0 (Z.to_nat n) = below lows n.
Proof. intros Hn. rewrite below_eq. apply count_ext. intros i Hi. apply words_facts. lia. Qed.

(** The rank table read: as if every word up to its boundary had been. *)
Lemma rank_skip_spec c seen low : power_ok (dense_rank_power c) -> dense_at c lows ord seen -> 0 <= low < BLOCK_SIZE -> dense_rank c <> [] ->
  exists c', rank_skip low c = (Ok tt, c') /\ frame c c' /\ dense_at c' lows ord low.
Proof.
  intros Hp [D1 D2 D3 D4 D5 D6] Hlow Hne. set (p := dense_rank_power c) in *. destruct words_facts as (Hw & Hn & _).
  destruct (rank_bytes_spec p lows Hp Hl) as [Eb Hr]. destruct Hp as [Hp|Hp].
  { exfalso. apply Hne. rewrite D1, Hp. done. }
  destruct Hr as (_ & _ & He); [unfold NO_RANK; lia|]. rewrite <- D1 in He, Eb.
  assert (Hz : zlen (dense_rank c) = 2 * 2 ^ (16 - p)).
  { unfold dense_rank_bytes, NO_RANK in Eb. destruct (Z.eqb_spec p 0xff); [lia|]. destruct (Z.leb_spec 7 p), (Z.leb_spec p 15); try lia. cbn [andb negb] in Eb. injection Eb as <-.
    rewrite Z.shiftr_div_pow2 by lia. change DENSE_BLOCK_LONGS with (2 ^ 10). rewrite <- Z.pow_sub_r by lia. rewrite <- Z.pow_succ_r by lia. f_equal. lia. }
  set (e := low / 2 ^ p). assert (Hpp : 0 < 2 ^ p) by (apply Z.pow_pos_nonneg; lia). assert (Hq : 2 ^ p = 64 * 2 ^ (p - 6)) by (change 64 with (2 ^ 6); rewrite <- Z.pow_add_r by lia; f_equal; lia).
  assert (Hfull : 2 ^ (16 - p) * 2 ^ p = BLOCK_SIZE) by (rewrite <- Z.pow_add_r by lia; replace (16 - p + p) with 16 by lia; done).
  assert (Hel : e * 2 ^ p <= low) by (unfold e; pose proof (Z.mul_div_le low (2 ^ p) Hpp); lia).
  assert (He0 : 0 <= e < 2 ^ (16 - p)) by (split; [apply Z.div_pos; lia|apply Z.div_lt_upper_bound; lia]).
  destruct (He e) as [Hhi Hlo]; [rewrite Hz, Z.mul_comm, Z.div_mul by lia; done|]. set (a := e * 2 ^ (p - 6)) in *.
  assert (Ha : 0 <= a /\ 64 * a <= low) by (unfold a; split; [assert (0 < 2 ^ (p - 6)) by (apply Z.pow_pos_nonneg; lia); nia|lia]).
  assert (Ha2 : a <= low / 64) by (apply Z.div_le_lower_bound; lia). assert (Ha3 : 0 <= a < 1024) by (unfold BLOCK_SIZE in Hlow; lia).
  unfold rank_skip, bind, get_state, panicking, modify. fold p. rewrite (Z.shiftr_div_pow2 low p) by lia. fold e. rewrite (Z.shiftl_mul_pow2 e 1) by lia. change (2 ^ 1) with 2. rewrite (Z.mul_comm e 2), Hhi, Hlo.
  rewrite (Z.shiftl_mul_pow2 e p) by lia. rewrite shiftr_6. replace (e * 2 ^ p / 64) with a by (unfold a; apply (Z.div_unique _ _ _ 0); lia).
  destruct (word_read words a Hw ltac:(lia)) as (b & Eb2 & Ew). rewrite D2, Eb2, Ew. eexists. split; [reflexivity|]. split; [by constructor|].
  constructor; cbn; try done; [lia| |].
  - destruct (Z.eqb_spec a (-1)); [lia|done].
  - rewrite D6, two_bytes.
    + replace (Z.to_nat (64 * (a + 1))) with (Z.to_nat (64 * a) + 64)%nat by lia. rewrite count_app. rewrite Z.add_0_l, Z2Nat.id by lia.
      rewrite (count_word (wbit words) (at0 words a) a); [lia|by apply at0_range|]. intros i Hi. unfold wbit. by destruct (word_of_unique (64 * a + i) a i Hi eq_refl) as [-> ->].
    + pose proof (count_range (wbit words) 0 (Z.to_nat (64 * a))). unfold BLOCK_SIZE in Hlow. split; lia.
Qed.

(** The words up to the target's, however far the last one read. *)
Lemma run_to c seen tw : dense_at c lows ord seen -> word_index c <= tw < 1024 -> 0 <= tw ->
  let from := wrapu 64 (word_index c + 1) * 8 in let to := (tw + 1) * 8 in
  exists c', (if from <? to then
                let* b := panicking (zslice (dense_bitmap c) from to) in
                let '(last, ones) := run_words (List.length b / 8) b (word c) 0 in
                modify (set_word last (word_index c) (number_of_ones c + ones))
              else ret tt) c = (Ok tt, c') /\ frame c c' /\
    dense_rank c' = dense_rank c /\ dense_bitmap c' = dense_bitmap c /\ dense_origo_index c' = dense_origo_index c /\
    word c' = at0 words tw /\ number_of_ones c' = ord + below lows (64 * (tw + 1)).
Proof.
  intros [D1 D2 D3 D4 D5 D6] Htw H0. destruct words_facts as (Hw & Hn & _). cbv zeta. set (wi := word_index c) in *. rewrite wrapu_id by (split; lia).
  destruct (Z.ltb_spec ((wi + 1) * 8) ((tw + 1) * 8)) as [Hlt|Hge].
  - unfold bind, panicking, modify. rewrite D2. replace ((tw + 1) * 8) with (((wi + 1) + (tw - wi)) * 8) by lia. rewrite word_slice by lia.
    set (ws := take (Z.to_nat (tw - wi)) (drop (Z.to_nat (wi + 1)) words)).
    assert (Hws : words_ok ws) by by apply Forall_take, Forall_drop. assert (Hlen : (List.length (concat (map (to_le 8) ws)) / 8 = List.length ws)%nat).
    { pose proof (zlen_concat_le 8 ws) as Hz. unfold zlen in Hz. replace (List.length (concat (map (to_le 8) ws))) with (List.length ws * 8)%nat by lia. apply Nat.div_mul. lia. }
    rewrite Hlen, run_words_spec by done. unfold ws. rewrite last_taken_word by lia. rewrite ones_in_count by (done || lia). eexists. split; [reflexivity|]. split; [by constructor|].
    split; [done|]. split; [done|]. split; [done|]. cbn [word number_of_ones set_word]. split; [f_equal; lia|]. rewrite D5, Z.add_0_l.
    rewrite <- ones_below by lia. replace (Z.to_nat (64 * (tw + 1))) with (Z.to_nat (64 * (wi + 1)) + 64 * Z.to_nat (tw - wi))%nat by lia. rewrite count_app, Z.add_0_l, Z2Nat.id by lia. lia.
  - assert (wi = tw) as E by lia. exists c. split; [done|]. split; [apply cursor_frame_refl|]. do 3 (split; [done|]). fold wi in D4, D5. rewrite E in D4, D5.
    split; [destruct (Z.eqb_spec tw (-1)); [lia|done]|]. rewrite D5. f_equal. apply ones_below. lia.
Qed.
End dense.

Lemma dense_lookup c lows ord seen target : lows_ok lows -> power_ok (dense_rank_power c) -> dense_at c lows ord seen -> seen <= target mod 65536 ->
  exists c', dense_advance_exact target c = (Ok (within lows (target mod 65536)), c') /\ frame c c' /\ dense_at c' lows ord (target mod 65536) /\
    index c' = ord + below lows (target mod 65536).
Proof.
  intros Hl Hp Hd Hge. pose proof (Z.mod_pos_bound target 65536 ltac:(lia)) as Hm. unfold dense_advance_exact. rewrite land_low. set (low := target mod 65536) in *.
  rewrite shiftr_6. set (tw := low / 64). assert (Hdm : low = 64 * tw + low mod 64) by (apply Z.div_mod; lia). pose proof (Z.mod_pos_bound low 64 ltac:(lia)). assert (Htw : 0 <= tw < 1024) by lia.
  assert (Hd0 : dense_at c lows ord low). { destruct Hd as [D1 D2 D3 D4 D5 D6]. constructor; try done. assert (seen / 64 <= low / 64) by (apply Z.div_le_mono; lia). lia. }
  assert (H1 : exists c1, (if negb (Nat.eqb (List.length (dense_rank c)) 0) && (Z.shiftl 1 (dense_rank_power c - 6) <=? tw - word_index c) then rank_skip low else ret tt) c = (Ok tt, c1) /\ frame c c1 /\ dense_at c1 lows ord low).
  { destruct (Nat.eqb_spec (List.length (dense_rank c)) 0) as [E|E]; cbn [negb andb]; [by exists c|]. destruct (_ <=? _); [|by exists c].
    apply (rank_skip_spec lows ord Hl c seen low); [done|done|unfold BLOCK_SIZE; lia|]. intros Hx. apply E. by rewrite Hx. }
  destruct H1 as (c1 & E1 & F1 & D1). unfold bind at 1, get_state at 1. rewrite (bind_Ok _ _ _ _ _ E1). unfold bind at 1, get_state at 1.
  destruct (run_to lows ord Hl c1 low tw D1) as (c2 & E2 & F2 & R1 & R2 & R3 & Ew & Eo); [destruct D1 as [_ _ D3 _ _ _]; fold tw in D3; lia|lia|].
  cbv zeta in E2. cbv zeta. rewrite (bind_Ok _ _ _ _ _ E2). unfold bind, get_state, modify, ret. destruct (words_facts lows Hl) as (Hw & Hn & Hwithin).
  rewrite land_63, Ew. set (r := low mod 64). assert (Hr : 0 <= r < 64) by (apply Z.mod_pos_bound; lia). assert (Hlow : low = 64 * tw + r) by (unfold tw, r; apply Z.div_mod; lia).
  assert (Hbit : negb (Z.land (Z.shiftr (at0 (words_of lows) tw) r) 1 =? 0) = within lows low).
  { rewrite land_1_testbit, Z.shiftr_spec by lia. rewrite <- Hwithin by lia. unfold wbit. by rewrite Z.add_0_l. }
  rewrite Hbit. eexists. split; [reflexivity|]. split; [|split].
  - eapply cursor_frame_trans; [exact F1|]. eapply cursor_frame_trans; [exact F2|]. by constructor.
  - destruct D1 as [A1 A2 A3 A4 A5 A6], F2. constructor; cbn [dense_rank dense_bitmap dense_rank_power word_index word number_of_ones dense_origo_index set_word set_index]; try congruence; [fold tw; lia| |].
    + destruct (Z.eqb_spec tw (-1)); [lia|done].
    + rewrite Eo. f_equal. symmetry. by apply ones_below; [|lia].
  - cbn [index set_index number_of_ones set_word]. rewrite Eo. rewrite ones_above by (try apply at0_range; done).
    assert (Hc : below lows (64 * (tw + 1)) = below lows low + count (Z.testbit (at0 (words_of lows) tw)) r (64 - Z.to_nat r)).
    { rewrite <- !(ones_below lows Hl) by lia. replace (Z.to_nat (64 * (tw + 1))) with (Z.to_nat low + (64 - Z.to_nat r))%nat by lia. rewrite count_app. f_equal.
      rewrite Z.add_0_l, Z2Nat.id by lia. replace low with (r + 64 * tw) at 1 by lia. rewrite <- count_shift. apply count_ext. intros i Hi. unfold wbit.
      by destruct (word_of_unique (i + 64 * tw) tw i ltac:(lia) ltac:(lia)) as [-> ->]. }
    rewrite Hc. lia.
Qed.

(** ** Any block. *)
Lemma block_lookup c lows ord seen target : lows_ok lows -> power_ok (dense_rank_power c) -> in_block c lows ord seen -> -1 <= seen <= target mod 65536 ->
  (target = doc c <-> 0 <= seen /\ target mod 65536 = seen) -> IndexedDisi.block c = target - target mod 65536 ->
  exists c', advance_exact_within_block target c = (Ok (within lows (target mod 65536)), c') /\ frame c c' /\ in_block c' lows ord (target mod 65536) /\
    (within lows (target mod 65536) = true \/ method c <> Sparse -> index c' = ord + below lows (target mod 65536)).
Proof.
  intros Hl Hp Hi Hs Hdoc Hb. pose proof (Z.mod_pos_bound target 65536 ltac:(lia)) as Hm. unfold advance_exact_within_block, bind, get_state. unfold in_block in *. destruct (method c) eqn:E.
  - destruct Hi as [k Hi]. destruct (sparse_lookup c lows ord seen k target Hl Hi ltac:(lia) ltac:(lia) Hdoc) as (c' & k' & E1 & F & Hi' & Hx). exists c'.
    split; [done|]. split; [done|]. rewrite (fr_method _ _ F), E. split; [by exists k'|]. intros [H|H]; [by apply Hx|done].
  - destruct (dense_lookup c lows ord seen target Hl Hp Hi ltac:(lia)) as (c' & E1 & F & Hi' & Hx). exists c'.
    split; [done|]. split; [done|]. rewrite (fr_method _ _ F), E. by split.
  - destruct Hi as [Hf Hg]. destruct (full_block lows Hl Hf (target mod 65536)) as [W B]; [unfold BLOCK_SIZE; lia|]. rewrite W.
    eexists. split; [reflexivity|]. split; [by constructor|]. cbn. rewrite E. split; [by split|]. intros _. rewrite Hg, B, Hb. lia.
Qed.

(** ** What a search is for: the document's position in the list. *)
Fixpoint ordinal (ids : list Z) (d : Z) : option Z :=
  match ids with
  | [] => None
  | x :: ids => if x =? d then Some 0 else Z.add 1 <$> ordinal ids d
  end.

Lemma ordinal_skip l l' d : Forall (fun x => x <> d) l -> ordinal (l ++ l') d = Z.add (zlen l) <$> ordinal l' d.
Proof.
  induction 1 as [|x l Hx _ IH]; cbn [app ordinal]; [by destruct (ordinal l' d)|]. destruct (Z.eqb_spec x d); [done|]. rewrite IH, zlen_cons. destruct (ordinal l' d); cbn; [f_equal; lia|done].
Qed.
Lemma ordinal_absent l d : Forall (fun x => x <> d) l -> ordinal l d = None.
Proof. intros H. rewrite <- (app_nil_r l), ordinal_skip by done. done. Qed.

Lemma block_docs_numbers b : block_ok b -> Forall (fun d => d / 65536 = b.1 /\ within b.2 (d mod 65536) = true) (block_docs b).
Proof.
  intros [Hb Hl]. unfold block_docs. apply Forall_map. rewrite Z.shiftl_mul_pow2 by lia. pose proof (lows_range _ Hl) as Hr. rewrite List.Forall_forall in *. intros i Hi. specialize (Hr i Hi). unfold BLOCK_SIZE in Hr.
  unfold compose. replace (b.1 * 2 ^ 16 + i) with (i + b.1 * 65536) by lia. rewrite Z.div_add, Z.mod_add, Z.div_small, Z.mod_small by lia. split; [lia|]. apply bool_decide_eq_true. by apply list_elem_of_In.
Qed.

(** A block of the document's number decides. *)
Lemma ordinal_block b l' d : block_ok b -> d / 65536 = b.1 -> within b.2 (d mod 65536) = true -> ordinal (block_docs b ++ l') d = Some (below b.2 (d mod 65536)).
Proof.
  intros [Hb Hl] Hd [j Hj]%within_lookup. pose proof (Z.mod_pos_bound d 65536 ltac:(lia)) as Hm. destruct (proj1 (lows_lookup b.2 j (d mod 65536) Hl ltac:(unfold BLOCK_SIZE; lia)) Hj) as [_ <-].
  unfold block_docs. rewrite <- (take_drop_middle _ _ _ Hj), map_app. cbn [map]. rewrite <- app_assoc. cbn [app]. rewrite ordinal_skip.
  - cbn [ordinal]. rewrite Z.shiftl_mul_pow2 by lia. destruct (Z.eqb_spec (b.1 * 2 ^ 16 + d mod 65536) d); [|pose proof (Z.div_mod d 65536 ltac:(lia)); lia].
    cbn. f_equal. apply lookup_lt_Some in Hj. unfold zlen. rewrite length_map, length_take. lia.
  - apply Forall_map. rewrite List.Forall_forall. intros x [i Hi]%list_elem_of_In%list_elem_of_lookup. unfold compose. rewrite Z.shiftl_mul_pow2 by lia.
    apply lookup_take_Some in Hi as [Hi Hij]. pose proof (sorted_nth _ (lows_sorted _ Hl) i j _ _ Hi Hj Hij). pose proof (Z.div_mod d 65536 ltac:(lia)). lia.
Qed.

Lemma other_numbers l d : Forall block_ok l -> Forall (fun b : block => b.1 <> d / 65536) l -> Forall (fun x => x <> d) (concat (map block_docs l)).
Proof.
  induction 1 as [|b l Hb _ IH]; intros Hn; [constructor|]. apply Forall_cons_1 in Hn as [Hn Hl]. cbn [map concat]. apply Forall_app. split; [|by apply IH].
  eapply Forall_impl; [|apply block_docs_numbers, Hb]. cbn beta. intros x [Hx _] ->. done.
Qed.

(** ** A region and the cursors over it. *)
Lemma full_cases bl done b rest : bl ++ [sentinel] = done ++ b :: rest -> (rest = [] /\ b = sentinel /\ done = bl) \/ (exists rest0, rest = rest0 ++ [sentinel] /\ bl = done ++ b :: rest0).
Proof.
  intros E. destruct rest as [|x rest] using rev_ind; [left|right; clear IHrest].
  - apply app_inj_tail in E as [-> ->]. done.
  - exists rest. change (done ++ b :: rest ++ [x]) with (done ++ (b :: rest) ++ [x]) in E. rewrite app_assoc in E. apply app_inj_tail in E as [-> <-]. done.
Qed.

Section region.
Context (p : Z) (bl : list block) (tail : list byte).
Hypothesis Hp : power_ok p.
Hypothesis blocks_ok : Forall block_ok bl.
Hypothesis blocks_ascend : ascend 0 bl.
Hypothesis blocks_few : end_block 0 bl <= 2 ^ 15.
Hypothesis bytes_few : zlen (bytes_of p bl) <= 9220 * 2 ^ 15.
Notation full := (bl ++ [sentinel]).
Notation ids := (concat (map block_docs bl)).
Hypothesis docs_below : Forall (fun d => 0 <= d < NO_MORE_DOCS) ids.

Lemma sentinel_ok : block_ok sentinel.
Proof. split; [by vm_compute|]. cbn [sentinel snd]. constructor; [by constructor; [constructor|]| |done]. constructor; [by vm_compute|constructor]. Qed.
Lemma full_ok : Forall block_ok full.
Proof. apply Forall_app. split; [done|]. constructor; [apply sentinel_ok|constructor]. Qed.

Lemma card_bound l : Forall block_ok l -> forall last, ascend last l -> card l <= BLOCK_SIZE * (end_block last l - last).
Proof.
  induction 1 as [|b l Hb _ IH]; intros last Ha; [change (card []) with 0; cbn [end_block fold_left]; lia|]. destruct Ha as [H1 H2]. rewrite card_cons. cbn [end_block fold_left]. fold (end_block (b.1 + 1) l).
  specialize (IH _ H2). destruct (lows_count b.2 (proj2 Hb)) as [_ Hc]. unfold BLOCK_SIZE in *. lia.
Qed.
Lemma card_few : card bl <= 2 ^ 31.
Proof. pose proof (card_bound bl blocks_ok 0 blocks_ascend) as H. unfold BLOCK_SIZE in H. lia. Qed.

Lemma numbers_below l : forall last, ascend last l -> Forall (fun b : block => last <= b.1 < end_block last l) l.
Proof.
  induction l as [|b l IH]; intros last Ha; [constructor|]. destruct Ha as [H1 H2]. cbn [end_block fold_left]. fold (end_block (b.1 + 1) l). pose proof (end_block_le _ _ H2).
  constructor; [lia|]. eapply Forall_impl; [|apply (IH _ H2)]. cbn beta. lia.
Qed.
Lemma ascend_after a b r : forall last, ascend last (a ++ b :: r) -> Forall (fun x : block => b.1 < x.1) r.
Proof.
  induction a as [|x a IH]; intros last; cbn [app ascend].
  - intros [_ H]. eapply Forall_impl; [|apply numbers_below, H]. cbn beta. lia.
  - intros [_ H]. by eapply IH.
Qed.

Definition table_ok (c : t) : Prop := jump_table c = [] \/
  (jump_table c = table_bytes (table_of p bl) /\ jump_table_entry_count c = zlen (table_of p bl) /\ 0 < zlen (table_of p bl) < 2 ^ 15).
Record over (c : t) : Prop := {
  ov_data : data c = bytes_of p full ++ tail;
  ov_power : dense_rank_power c = p;
  ov_table : table_ok c;
}.
(** What the next header read finds. *)
Definition before (c : t) (done : list block) : Prop := block_end c = zlen (bytes_of p done) /\ next_block_index c = card done - 1.

Lemma frame_over c c' : frame c c' -> over c -> over c'.
Proof. intros [] [H1 H2 H3]. constructor; [congruence|congruence|]. unfold table_ok in *. by rewrite fr_table0, fr_count0. Qed.
Lemma frame_before c c' done : frame c c' -> before c done -> before c' done.
Proof. intros [] [H1 H2]. split; congruence. Qed.

(** How a block of so many documents is kept. *)
Definition method_of (lows : list Z) : Method := if zlen lows <=? MAX_ARRAY_LENGTH then Sparse else if zlen lows =? BLOCK_SIZE then All else Dense.

(** The bytes of the block a cursor is before. *)
Lemma block_reads c done b rest : over c -> before c done -> full = done ++ b :: rest -> let n := zlen (bytes_of p done) in
  block_ok b /\ card done + zlen b.2 <= 2 ^ 31 + 1 /\ read_u16_at (data c) n = Ok b.1 /\ read_u16_at (data c) (n + 2) = Ok (zlen b.2 - 1) /\
  (forall x y z, payload p b.2 = x ++ y ++ z -> zslice (data c) (n + 4 + zlen x) (n + 4 + zlen x + zlen y) = Some y) /\
  zlen (bytes_of p (done ++ [b])) = n + 4 + zlen (payload p b.2).
Proof.
  intros [O1 O2 O3] [B1 B2] E n. assert (Hb : block_ok b) by (pose proof full_ok as Hf; rewrite E in Hf; apply Forall_app in Hf as [_ Hf]; by apply Forall_inv in Hf).
  split; [done|]. destruct Hb as [Hn Hl]. destruct (lows_count _ Hl) as [_ Hc]. unfold BLOCK_SIZE in Hc.
  assert (Hd : data c = bytes_of p done ++ to_le 2 b.1 ++ to_le 2 (zlen b.2 - 1) ++ payload p b.2 ++ bytes_of p rest ++ tail).
  { rewrite O1, E, bytes_of_app, bytes_of_cons. unfold block_bytes. by rewrite <- !app_assoc. }
  rewrite Hd. split; [|split; [apply read_u16_mid; split; lia|split; [|split]]].
  - assert (card full = card bl + 1) by (rewrite card_app; done). pose proof card_few. rewrite E, card_app, card_cons in *. pose proof (card_nonneg rest). lia.
  - rewrite app_assoc. replace (n + 2) with (zlen (bytes_of p done ++ to_le 2 b.1)) by (rewrite zlen_app, zlen_to_le; lia). apply read_u16_mid. split; lia.
  - intros x y z ->. rewrite <- !app_assoc. pose proof (zslice_mid (bytes_of p done ++ to_le 2 b.1 ++ to_le 2 (zlen b.2 - 1) ++ x) y (z ++ bytes_of p rest ++ tail)) as Hz.
    rewrite !zlen_app, !zlen_to_le in Hz. fold n in Hz. rewrite <- !app_assoc in Hz. replace (n + (Z.of_nat 2 + (Z.of_nat 2 + zlen x))) with (n + 4 + zlen x) in Hz by lia. exact Hz.
  - rewrite bytes_of_app, zlen_app, bytes_of_cons. fold n. unfold block_bytes. change (bytes_of p []) with (@nil byte). rewrite app_nil_r, !zlen_app, !zlen_to_le. lia.
Qed.

(** A header, and the block's bytes checked once. *)
Lemma read_header c done b rest : over c -> before c done -> full = done ++ b :: rest -> exists c',
  read_block_header c = (Ok tt, c') /\ over c' /\ before c' (done ++ [b]) /\ IndexedDisi.block c' = b.1 * 65536 /\ in_block c' b.2 (card done) (-1) /\
  doc c' = doc c /\ index c' = card done - 1 /\ method c' = method_of b.2.
Proof.
  unfold method_of. intros Ho Hbef E. destruct (block_reads c done b rest Ho Hbef E) as ([Hn Hl] & Hcard & R1 & R2 & Hs & Hend). destruct Ho as [O1 O2 O3], Hbef as [B1 B2]. set (n := zlen (bytes_of p done)) in *.
  pose proof (card_nonneg done). destruct (lows_count _ Hl) as [_ Hc]. rewrite <- B1 in R1, R2.
  assert (Hsh : shls 32 b.1 16 = b.1 * 65536).
  { unfold shls. rewrite Z.mod_small by lia. rewrite Z.shiftl_mul_pow2 by lia. apply wraps_id; [lia|]. unfold in_s. change (32 - 1) with 31. lia. }
  assert (Hcd : card (done ++ [b]) = card done + zlen b.2) by (rewrite card_app, card_cons; change (card []) with 0; lia).
  unfold read_block_header, bind, get_state, try_, modify. rewrite R1. cbn [data block_end set_block]. rewrite R2. rewrite Hsh. cbn [index set_block]. rewrite B2.
  destruct (Z.ltb_spec (card done - 1 + (1 + (zlen b.2 - 1))) (2 ^ 63)); [|lia]. replace (1 + (zlen b.2 - 1)) with (zlen b.2) by lia.
  unfold payload in Hs, Hend. destruct (Z.leb_spec (zlen b.2) MAX_ARRAY_LENGTH) as [Hm|Hm].
  - rewrite zlen_concat_le in Hend. specialize (Hs [] (concat (map (to_le 2) b.2)) [] ltac:(by rewrite app_nil_r)). rewrite zlen_nil, Z.add_0_r, zlen_concat_le in Hs.
    unfold slice. cbn [data set_method set_next_block_index set_block]. rewrite B1. replace (n + 4 + zlen b.2 * 2) with (n + 4 + Z.of_nat 2 * zlen b.2) by lia. rewrite Hs.
    eexists. split; [reflexivity|]. split; [by constructor|]. split; [split; cbn; lia|]. split; [done|]. split; [|split; [done|split; [cbn; lia|done]]].
    cbn [in_block method set_sparse_docs set_method]. unfold in_block. cbn [method set_sparse_docs set_method]. exists 0. constructor; cbn [sparse_docs sparse_pos index next_block_index next_exist_doc_in_block exists_ set_sparse_docs set_method set_next_block_index set_block]; try done; try lia.
    + intros j x Hj _. pose proof (lows_range _ Hl) as Hr. rewrite List.Forall_forall in Hr. specialize (Hr x (proj1 (list_elem_of_In _ _) (proj2 (list_elem_of_lookup _ _) (ex_intro _ j Hj)))). lia.
  - destruct (Z.eqb_spec (zlen b.2) BLOCK_SIZE) as [Ef|Ef].
    + eexists. split; [reflexivity|]. change (zlen (@nil byte)) with 0 in Hend. split; [by constructor|]. split; [split; cbn; lia|]. split; [done|]. split; [|split; [done|split; [cbn; lia|done]]].
      unfold in_block. cbn. split; [done|]. lia.
    + destruct (rank_bytes_spec p b.2 Hp Hl) as [Er _]. rewrite zlen_app in Hend. assert (H1 := Hs [] _ _ eq_refl). assert (H2 := Hs (rank_bytes p b.2) (concat (map (to_le 8) (words_of b.2))) [] ltac:(by rewrite app_nil_r)).
      rewrite zlen_nil, Z.add_0_r in H1. destruct (words_facts b.2 Hl) as (_ & Hw & _). rewrite zlen_concat_le, Hw in H2, Hend. 
      cbn [dense_rank_power set_method set_next_block_index set_block]. rewrite O2, Er. unfold slice. cbn [data set_method set_next_block_index set_block set_dense_rank]. rewrite B1, H1.
      cbn [data set_method set_next_block_index set_block set_dense_rank]. change (DENSE_BLOCK_LONGS * 8) with (Z.of_nat 8 * 1024). rewrite H2.
      eexists. split; [reflexivity|]. split; [by constructor|]. split; [split; cbn [block_end next_block_index set_method set_next_block_index set_block set_dense_rank set_dense_bitmap]; lia|].
      split; [done|]. split; [|split; [done|split; [cbn; lia|done]]].
      unfold in_block. cbn [method set_method set_dense_rank set_dense_bitmap].
      constructor; cbn [dense_rank dense_rank_power dense_bitmap word word_index number_of_ones dense_origo_index index set_dense_bitmap set_dense_rank set_method set_next_block_index set_block]; try done; [by rewrite O2| |lia].
      change (Z.to_nat (64 * (-1 + 1))) with 0%nat. cbn [count]. lia.
Qed.

(** In block [b], past the blocks [done]; [seen] is the last low half asked. *)
Record standing (c : t) (done : list block) (b : block) (seen : Z) : Prop := {
  st_over : over c;
  st_before : before c (done ++ [b]);
  st_block : IndexedDisi.block c = b.1 * 65536;
  st_in : in_block c b.2 (card done) seen;
  st_method : method c = method_of b.2;
}.

Lemma walk_spec k : k <= 0x7fff -> forall rest fuel c done, over c -> before c done -> full = done ++ rest -> Exists (fun b : block => k <= b.1) rest ->
  (List.length rest <= fuel)%nat -> exists c' pre b post,
    walk fuel (k * 65536) c = (Ok tt, c') /\ rest = pre ++ b :: post /\ Forall (fun x : block => x.1 < k) pre /\ k <= b.1 /\
    standing c' (done ++ pre) b (-1) /\ doc c' = doc c /\ index c' = card (done ++ pre) - 1.
Proof.
  intros Hk. induction rest as [|b rest IH]; intros fuel c done Ho Hb E He Hf; [by apply Exists_nil in He|]. destruct fuel as [|fuel]; [cbn in Hf; lia|].
  destruct (read_header c done b rest Ho Hb E) as (c1 & E1 & O1 & B1 & K1 & I1 & D1 & X1 & M1). cbn [walk]. rewrite (bind_Ok _ _ _ _ _ E1). unfold bind, get_state. rewrite K1.
  destruct (Z.leb_spec (k * 65536) (b.1 * 65536)) as [Hle|Hlt].
  - exists c1, [], b, rest. rewrite app_nil_r. do 4 (split; [done || constructor || lia|]). split; [by constructor|]. done.
  - apply Exists_cons in He as [He|He]; [lia|]. destruct (IH fuel c1 (done ++ [b]) O1 B1) as (c' & pre & b' & post & E2 & -> & H1 & H2 & H3 & H4 & H5); [by rewrite <- app_assoc|done|cbn in Hf; lia|].
    exists c', (b :: pre), b', post. rewrite <- app_assoc in H3, H5. split; [exact E2|]. split; [done|]. split; [constructor; [lia|done]|]. split; [done|]. split; [done|]. split; [congruence|done].
Qed.

Lemma sentinel_last k rest done : k <= 0x7fff -> full = done ++ rest -> Forall (fun x : block => x.1 < k) done -> Exists (fun b : block => k <= b.1) rest.
Proof.
  intros Hk E Hd. destruct rest as [|b rest _] using rev_ind.
  - rewrite app_nil_r in E. rewrite <- E in Hd. apply Forall_app in Hd as [_ Hd]. apply Forall_inv in Hd. cbn [sentinel fst] in Hd. lia.
  - rewrite app_assoc in E. apply app_inj_tail in E as [_ <-]. apply Exists_app. right. by constructor.
Qed.

Lemma full_length : (List.length full <= List.length (bytes_of p full))%nat.
Proof.
  pose proof full_ok as H. revert H. generalize full. induction l as [|b l IH]; intros H; [done|]. apply Forall_cons_1 in H as [Hb H]. rewrite bytes_of_cons, length_app.
  pose proof (block_size p b Hp Hb) as [Hz _]. unfold zlen in Hz. specialize (IH H). cbn [List.length]. lia.
Qed.

(** A jump of the table lands on the first block that can hold the target. *)
Lemma jump_entry k : 0 <= k <= 0x7fff -> 0 < zlen (table_of p bl) < 2 ^ 15 ->
  let n := zlen (table_of p bl) in let j := if k <? n then k else n - 1 in
  exists pre b post, full = pre ++ b :: post /\ Forall (fun x : block => x.1 < k) pre /\ k <= b.1 /\ 0 <= j < n /\
    read_i32_at (table_bytes (table_of p bl)) (j * 8) = Ok (card pre) /\ read_i32_at (table_bytes (table_of p bl)) (j * 8 + 4) = Ok (zlen (bytes_of p pre)).
Proof.
  intros Hk Hn n j. pose proof (jumps_length p bl 0 0 0 blocks_ascend) as Hjl. pose proof (end_block_le 0 bl blocks_ascend) as Hge.
  assert (En : table_of p bl = jumps_of p 0 0 0 bl ++ [(0 + card bl, 0 + zlen (bytes_of p bl))] /\ n = end_block 0 bl + 1).
  { unfold n. unfold table_of in *. cbv zeta in *. destruct (Z.eqb_spec (end_block 0 bl + 1) 2); [change (zlen (@nil (Z * Z))) with 0 in Hn; lia|]. split; [done|]. rewrite zlen_app, Hjl. change (zlen [(card bl, zlen (bytes_of p bl))]) with 1. lia. }
  destruct En as [Et En]. assert (Hj : 0 <= j <= end_block 0 bl) by (unfold j; destruct (Z.ltb_spec k n); lia).
  destruct (jumps_lookup p bl 0 0 0 j blocks_ascend Hj) as (pre & post & Ebl & Hpre & Hpost & El). rewrite <- Et, Z.sub_0_r, !Z.add_0_l in El.
  assert (Hjk : j <= k) by (unfold j; destruct (Z.ltb_spec k n); lia).
  assert (Hcard : 0 <= card pre < 2 ^ 31 /\ 0 <= zlen (bytes_of p pre) < 2 ^ 31).
  { pose proof (card_bound bl blocks_ok 0 blocks_ascend) as H1. rewrite Ebl, card_app in H1. pose proof (card_nonneg post). pose proof (card_nonneg pre). rewrite <- Ebl in H1. unfold BLOCK_SIZE in H1. fold n in Hn.
    pose proof bytes_few as H3. rewrite Ebl, bytes_of_app, zlen_app in H3. pose proof (zlen_nonneg (bytes_of p post)). pose proof (zlen_nonneg (bytes_of p pre)). lia. }
  destruct (read_table _ _ _ El) as [R1 R2]; [unfold in_s; cbn [fst]; change (32 - 1) with 31; lia|unfold in_s; cbn [snd]; change (32 - 1) with 31; lia|].
  cbn [fst snd] in R1, R2. rewrite Z2Nat.id in R1, R2 by lia.
  assert (Hp2 : Forall (fun x : block => x.1 < k) pre) by (eapply Forall_impl; [|exact Hpre]; cbn beta; lia).
  destruct post as [|b post].
  - exists pre, sentinel, []. rewrite app_nil_r in Ebl. cbn [sentinel fst]. split; [by rewrite <- Ebl|]. split; [done|]. split; [lia|]. split; [lia|]. done.
  - exists pre, b, (post ++ [sentinel]). split; [by rewrite Ebl, <- app_assoc|]. split; [done|]. split; [|split; [lia|done]].
    cbn [starts_at] in Hpost. unfold j in *. destruct (Z.ltb_spec k n); [done|].
    assert (Hb : Forall (fun x : block => 0 <= x.1 < end_block 0 bl) (pre ++ b :: post)) by (rewrite <- Ebl; exact (numbers_below bl 0 blocks_ascend)). apply Forall_app in Hb as [_ Hb]. apply Forall_inv in Hb. lia.
Qed.

Lemma advance_block_spec k c done rest : 0 <= k <= 0x7fff -> over c -> before c done -> full = done ++ rest -> Forall (fun x : block => x.1 < k) done -> exists c' done' b post,
  advance_block (k * 65536) c = (Ok tt, c') /\ full = done' ++ b :: post /\ Forall (fun x : block => x.1 < k) done' /\ k <= b.1 /\
  standing c' done' b (-1) /\ doc c' = doc c /\ index c' = card done' - 1.
Proof.
  intros Hk Ho Hb E Hd. unfold advance_block. unfold bind at 1, get_state at 1. rewrite (Z.shiftr_div_pow2 (k * 65536) 16) by lia. change (2 ^ 16) with 65536. rewrite Z.div_mul by lia.
  destruct (negb (Nat.eqb (List.length (jump_table c)) 0) && (Z.shiftr (IndexedDisi.block c) 16 + 2 <=? k)) eqn:Ej.
  - destruct Ho as [O1 O2 O3]. apply andb_true_iff in Ej as [Ej _]. destruct O3 as [O3|(T1 & T2 & T3)]; [by rewrite O3 in Ej|].
    destruct (jump_entry k Hk T3) as (pre & b & post & Ef & Hpre & Hkb & Hjr & R1 & R2). cbv zeta. rewrite T2.
    rewrite wrapu_id by (split; lia). unfold bind at 1, try_ at 1. rewrite T1, R1. unfold bind at 1, try_ at 1. rewrite R2. unfold bind at 1, get_state at 1. unfold bind at 1, modify at 1. unfold bind at 1, try_ at 1.
    destruct (Z.leb_spec 0 (zlen (bytes_of p pre))); [|pose proof (zlen_nonneg (bytes_of p pre)); lia]. unfold bind at 1, modify at 1.
    match goal with |- context [read_block_header ?c1] => destruct (read_header c1 pre b post) as (c' & E1 & H1 & H2 & H3 & H4 & H5 & H6 & H7) end.
    + constructor; [exact O1|exact O2|]. right. cbn. done.
    + split; cbn; lia.
    + done.
    + exists c', pre, b, post. split; [exact E1|]. split; [done|]. split; [done|]. split; [done|]. split; [by constructor|]. split; [exact H5|done].
  - destruct (walk_spec k ltac:(lia) rest (Datatypes.S (List.length (data c))) c done Ho Hb E) as (c' & pre & b & post & E1 & -> & H1 & H2 & H3 & H4 & H5).
    + apply (sentinel_last k rest done); [lia|exact E|exact Hd].
    + pose proof full_length as Hl. rewrite E, length_app in Hl. destruct Ho as [O1 _ _]. rewrite O1, E, length_app. lia.
    + exists c', (done ++ pre), b, post. split; [exact E1|]. split; [by rewrite <- app_assoc|]. split; [by apply Forall_app|]. done.
Qed.

Lemma ordinal_here done b rest d : full = done ++ b :: rest -> Forall (fun x : block => x.1 < d / 65536) done -> d / 65536 <= b.1 -> d < NO_MORE_DOCS ->
  ordinal ids d = if (b.1 =? d / 65536) && within b.2 (d mod 65536) then Some (card done + below b.2 (d mod 65536)) else None.
Proof.
  intros E Hd Hb Hlt. pose proof full_ok as Hf. rewrite E in Hf. apply Forall_app in Hf as [Hdone Hf]. apply Forall_cons_1 in Hf as [Hbok Hrest].
  assert (Hno : Forall (fun x => x <> d) (concat (map block_docs done))) by (apply other_numbers; [done|]; eapply Forall_impl; [|exact Hd]; cbn beta; lia).
  destruct (full_cases bl done b rest E) as [(-> & -> & ->)|(rest0 & -> & Ebl)].
  - rewrite ordinal_absent by done. destruct ((sentinel.1 =? d / 65536) && _) eqn:Ew; [|done]. apply andb_true_iff in Ew as [Ek%Z.eqb_eq Ew]. apply bool_decide_eq_true in Ew.
    cbn [sentinel fst snd] in *. apply list_elem_of_singleton in Ew. pose proof (Z.div_mod d 65536 ltac:(lia)). unfold NO_MORE_DOCS in Hlt. lia.
  - assert (Eids : ids = concat (map block_docs done) ++ block_docs b ++ concat (map block_docs rest0)) by (rewrite Ebl, map_app, concat_app; done).
    rewrite Eids, ordinal_skip by done. fold (card done). apply Forall_app in Hrest as [Hrest _].
    assert (Hafter : Forall (fun x : block => b.1 < x.1) rest0) by (apply (ascend_after done b rest0 0); by rewrite <- Ebl).
    destruct ((b.1 =? d / 65536) && within b.2 (d mod 65536)) eqn:Ew.
    + apply andb_true_iff in Ew as [Ek%Z.eqb_eq Ew]. by rewrite ordinal_block.
    + rewrite ordinal_absent; [done|]. apply Forall_app. split.
      * rewrite List.Forall_forall. intros x Hx ->. pose proof (block_docs_numbers b Hbok) as Hn. rewrite List.Forall_forall in Hn. destruct (Hn d Hx) as [H1 H2]. rewrite H1, Z.eqb_refl, H2 in Ew. done.
      * apply other_numbers; [done|]. eapply Forall_impl; [|exact Hafter]. cbn beta. lia.
Qed.

(** The block a cursor at a document stands in: the first whose number is at
    least the document's. *)
Record placed (c : t) (d : Z) (done : list block) (b : block) (rest : list block) : Prop := {
  pl_full : full = done ++ b :: rest;
  pl_before : Forall (fun x : block => x.1 < d / 65536) done;
  pl_number : d / 65536 <= b.1;
  pl_standing : standing c done b (Z.max (-1) (d - b.1 * 65536));
  pl_index : d / 65536 < b.1 -> index c = card done - 1;
}.
Definition fresh (c : t) : Prop := IndexedDisi.block c = -1 /\ before c [] /\ doc c = -1 /\ index c = -1.
Definition at_doc (c : t) : Prop := over c /\
  (doc c = NO_MORE_DOCS \/ fresh c \/ (0 <= doc c < NO_MORE_DOCS /\ exists done b rest, placed c (doc c) done b rest)).

Lemma block_of_eq d : block_of d = d / 65536 * 65536.
Proof. unfold block_of. change 0xffff with (Z.ones 16). rewrite Z.ldiff_ones_r by lia. rewrite Z.shiftl_mul_pow2, Z.shiftr_div_pow2 by lia. done. Qed.

Lemma low_of d k : d / 65536 = k -> d mod 65536 = d - k * 65536.
Proof. intros <-. pose proof (Z.div_mod d 65536 ltac:(lia)). lia. Qed.

(** Bringing the cursor to a document's block. *)
Lemma reach c d : at_doc c -> 0 <= d < NO_MORE_DOCS -> doc c <= d -> exists c1 done b rest seen,
  (if IndexedDisi.block c <? block_of d then advance_block (block_of d) else ret tt) c = (Ok tt, c1) /\ full = done ++ b :: rest /\
  Forall (fun x : block => x.1 < d / 65536) done /\ d / 65536 <= b.1 /\ standing c1 done b seen /\ doc c1 = doc c /\
  seen = Z.max (-1) (doc c - b.1 * 65536) /\ (d / 65536 < b.1 -> index c1 = card done - 1).
Proof.
  intros [Ho Hc] Hd Hge. rewrite block_of_eq. set (k := d / 65536). assert (Hk : 0 <= k <= 0x7fff) by (unfold NO_MORE_DOCS in Hd; subst k; split; [apply Z.div_pos; lia|]; apply Z.lt_succ_r, Z.div_lt_upper_bound; lia).
  assert (Hkd : k * 65536 <= d) by (unfold k; clear -Hge; pose proof (Z.mul_div_le d 65536 ltac:(lia)); lia). assert (Hdk : doc c / 65536 <= k) by (apply Z.div_le_mono; [done|exact Hge]); pose proof (Z.div_mod (doc c) 65536 ltac:(lia)); pose proof (Z.mod_pos_bound (doc c) 65536 ltac:(lia)).
  assert (Hadv : forall done rest, before c done -> full = done ++ rest -> Forall (fun x : block => x.1 < k) done -> doc c < k * 65536 -> exists c1 done' b post seen,
    advance_block (k * 65536) c = (Ok tt, c1) /\ full = done' ++ b :: post /\ Forall (fun x : block => x.1 < k) done' /\ k <= b.1 /\ standing c1 done' b seen /\ doc c1 = doc c /\
    seen = Z.max (-1) (doc c - b.1 * 65536) /\ (k < b.1 -> index c1 = card done' - 1)).
  { intros done rest Hb E Hdone Hlt. destruct (advance_block_spec k c done rest Hk Ho Hb E Hdone) as (c1 & done' & b & post & E1 & E2 & H1 & H2 & H3 & H4 & H5).
    exists c1, done', b, post, (-1). do 6 (split; [done|]). split; [lia|]. by intros _. }
  destruct Hc as [Hc|[(F1 & F2 & F3 & F4)|(Hr & done & b & rest & [P1 P2 P3 P4 P5])]]; [lia| |].
  - rewrite F1. destruct (Z.ltb_spec (-1) (k * 65536)); [|lia]. apply (Hadv [] full); [done|done|constructor|lia].
  - rewrite (st_block _ _ _ _ P4). assert (Hdone : Forall (fun x : block => x.1 < k) done) by (eapply Forall_impl; [|exact P2]; cbn beta; lia). destruct (Z.ltb_spec (b.1 * 65536) (k * 65536)) as [Hlt|Hle].
    + apply (Hadv (done ++ [b]) rest); [apply P4|by rewrite <- app_assoc|apply Forall_app; split; [done|constructor; [lia|constructor]]|lia].
    + exists c, done, b, rest, (Z.max (-1) (doc c - b.1 * 65536)). do 3 (split; [done|]). split; [lia|]. split; [done|]. split; [done|]. split; [done|]. intros Hlt. apply P5. lia.
Qed.

Lemma standing_doc c done b seen d : standing c done b seen -> standing (set_doc d c) done b seen.
Proof.
  intros [[O1 O2 O3] [B1 B2] K I M]. constructor; [by constructor|by split|done| |done]. unfold in_block in *. cbn [method set_doc]. destruct (method c); [|by destruct I|done].
  destruct I as [k [S1 S2 S3 S4 S5 S6 S7 S8 S9]]. exists k. by constructor.
Qed.

Lemma below_bound lows i : 0 <= i < BLOCK_SIZE -> 0 <= below lows i < BLOCK_SIZE.
Proof. intros Hi. rewrite below_eq. pose proof (count_range (within lows) 0 (Z.to_nat i)). lia. Qed.

Lemma advance_places c d : at_doc c -> 0 <= d < NO_MORE_DOCS -> doc c <= d -> exists c' done b rest,
  advance_exact d c = (Ok (ordinal ids d), c') /\ doc c' = d /\ placed c' d done b rest /\
  (b.1 = d / 65536 -> method c' <> Sparse -> index c' = card done + below b.2 (d mod 65536)).
Proof.
  intros Hc Hd Hge. destruct (reach c d Hc Hd Hge) as (c1 & done & b & rest & seen & E1 & Ef & H1 & H2 & H3 & H4 & H5 & H6).
  pose proof (Z.mod_pos_bound d 65536 ltac:(lia)) as Hm. pose proof (Z.div_mod d 65536 ltac:(lia)) as Hdm. set (k := d / 65536) in *. set (low := d mod 65536) in *.
  assert (Hl : lows_ok b.2) by (pose proof full_ok as Hf; rewrite Ef in Hf; apply Forall_app in Hf as [_ Hf]; apply Forall_inv in Hf; apply Hf).
  unfold advance_exact. unfold bind at 1, get_state at 1. destruct (Z.ltb_spec d 0); [lia|]. destruct (Z.ltb_spec d (doc c)); [lia|]. destruct (Z.eqb_spec d NO_MORE_DOCS); [lia|].
  cbv zeta. rewrite (bind_Ok _ _ _ _ _ E1). unfold bind at 1, get_state at 1. rewrite (st_block _ _ _ _ H3), block_of_eq. fold k.
  rewrite (ordinal_here done b rest d Ef H1 H2 ltac:(lia)). fold k low. destruct (Z.eqb_spec b.1 k) as [Ek|Ek].
  - rewrite Ek, Z.eqb_refl. cbn [andb]. destruct H3 as [O B K I M].
    destruct (block_lookup c1 b.2 (card done) seen d Hl) as (c2 & E2 & F & I2 & X2); [destruct O as [_ -> _]; exact Hp|exact I|fold low; lia|fold low; rewrite H4, H5, Ek; lia|fold low; rewrite K, Ek; lia|].
    fold low in E2, I2, X2. rewrite (bind_Ok _ _ _ _ _ E2). unfold bind, modify, then_index, get_state, ret. cbn [index set_doc].
    assert (Hst : standing (set_doc d c2) done b (Z.max (-1) (d - b.1 * 65536))).
    { apply standing_doc. replace (Z.max (-1) (d - b.1 * 65536)) with low by lia. constructor; [by apply (frame_over c1)|by apply (frame_before c1)|destruct F; congruence|done|destruct F; congruence]. }
    exists (set_doc d c2), done, b, rest. split; [|split; [done|split]].
    + destruct (within b.2 low) eqn:Ew; [|done]. unfold bind. cbn [index set_doc]. rewrite X2 by (by left). do 3 f_equal. apply wrapu_id. pose proof (below_bound b.2 low ltac:(unfold BLOCK_SIZE; lia)). pose proof card_few. pose proof (card_nonneg done).
      assert (card full = card bl + 1) by (rewrite card_app; done). rewrite Ef, card_app, card_cons in *. pose proof (card_nonneg rest). pose proof (zlen_nonneg b.2). unfold BLOCK_SIZE in *. split; lia.
    + constructor; [done|done|done|done|]. fold k. lia.
    + intros _ Hmeth. cbn [method index set_doc] in *. apply X2. right. by rewrite <- (fr_method _ _ F).
  - destruct (Z.eqb_spec (b.1 * 65536) (k * 65536)); [lia|]. unfold bind, modify, then_index, get_state, ret. cbn [index set_doc andb].
    exists (set_doc d c1), done, b, rest. split; [done|]. split; [done|]. split; [|by intros ?].
    constructor; [done|done|done| |].
    + replace (Z.max (-1) (d - b.1 * 65536)) with seen by lia. by apply standing_doc.
    + intros Hlt. by apply H6.
Qed.

Lemma advance_spec c d : at_doc c -> 0 <= d <= NO_MORE_DOCS -> doc c <= d -> exists c',
  advance_exact d c = (Ok (ordinal ids d), c') /\ at_doc c' /\ doc c' = d.
Proof.
  intros Hc Hd Hge. destruct (Z.eq_dec d NO_MORE_DOCS) as [->|Hne].
  - exists (set_doc NO_MORE_DOCS c). split; [|split; [|done]].
    + unfold advance_exact, bind, get_state, modify, ret. destruct (Z.ltb_spec NO_MORE_DOCS (doc c)); [lia|]. cbn -[ordinal concat]. rewrite ordinal_absent; [done|].
      eapply Forall_impl; [|exact docs_below]. cbn beta. lia.
    + split; [|by left]. destruct Hc as [[O1 O2 O3] _]. by constructor.
  - destruct (advance_places c d Hc ltac:(lia) Hge) as (c' & done & b & rest & E & Hdoc & Hpl & _). exists c'. split; [done|]. split; [|done]. split; [apply (pl_standing _ _ _ _ _ Hpl)|].
    right. right. rewrite Hdoc. split; [lia|]. by exists done, b, rest.
Qed.

(** A cursor just made. *)
Lemma new_at_doc c : over c -> fresh c -> at_doc c.
Proof. intros Ho Hf. split; [done|]. by right; left. Qed.
End region.

Lemma new_splits bytes table p n : 0 < n -> zlen table = 8 * n -> new (bytes ++ table) p n = at_start bytes table n p.
Proof.
  intros Hn Hz. unfold new. rewrite Z.max_r by lia. rewrite zlen_app. pose proof (zlen_nonneg bytes). destruct (Z.leb_spec (n * 8) (zlen bytes + zlen table)); [|lia].
  destruct (Z.ltb_spec 0 (n * 8)); [|lia]. cbn [andb]. replace (Z.to_nat (zlen bytes + zlen table - n * 8)) with (List.length bytes) by (unfold zlen in *; lia). by rewrite take_app_length, drop_app_length.
Qed.
Lemma new_whole bytes p n : n <= 0 -> new bytes p n = at_start bytes [] n p.
Proof. intros Hn. unfold new. rewrite Z.max_l by lia. cbn [Z.mul Z.ltb Z.compare]. by rewrite andb_false_r. Qed.

Lemma new_doc region p count : doc (new region p count) = -1.
Proof. unfold new. by destruct (_ && _). Qed.
Lemma fresh_start bytes table n p q : fresh q (at_start bytes table n p).
Proof. done. Qed.

(** A fresh cursor over what the writer wrote. *)
Lemma written_cursor p doc_ids region count : power_ok p -> docs_ok doc_ids -> write_with_dense_rank_power doc_ids p = Some (region, count) -> exists bl tail,
  Forall block_ok bl /\ ascend 0 bl /\ end_block 0 bl <= 2 ^ 15 /\ zlen (bytes_of p bl) <= 9220 * 2 ^ 15 /\ concat (map block_docs bl) = doc_ids /\ at_doc p bl tail (new region p count).
Proof.
  intros Hp Hd E. destruct (write_is_the_blocks p doc_ids Hp Hd) as (bl & A1 & A2 & A3 & A4 & A5 & A6). rewrite A6 in E. injection E as <- <-.
  pose proof (table_size (table_of p bl)) as Hz. pose proof (zlen_nonneg (table_of p bl)) as H0.
  pose proof (table_few p bl A2 A4) as Ht.
  destruct (Z.lt_ge_cases (zlen (table_of p bl)) (2 ^ 15)) as [Hlt|Hge].
  - rewrite wraps_id by (unfold in_s; change (16 - 1) with 15; lia). destruct (Z.eq_dec (zlen (table_of p bl)) 0) as [E0|E0].
    + exists bl, (table_bytes (table_of p bl)). do 5 (split; [done|]). rewrite new_whole by lia. apply new_at_doc; [|apply fresh_start]. constructor; [done|done|by left].
    + exists bl, []. do 5 (split; [done|]). rewrite new_splits by lia. apply new_at_doc; [|apply fresh_start]. constructor; [cbn [data at_start]; by rewrite app_nil_r|done|right]. cbn [jump_table jump_table_entry_count at_start]. split; [done|]. split; [done|lia].
  - exists bl, (table_bytes (table_of p bl)). do 5 (split; [done|]). rewrite new_whole; [apply new_at_doc; [constructor; [done|done|by left]|apply fresh_start]|].
    assert (zlen (table_of p bl) = 2 ^ 15 \/ zlen (table_of p bl) = 2 ^ 15 + 1) as [-> | ->] by lia; by vm_compute.
Qed.

(** The way without a header to read answers what the full one does. *)
Lemma in_block_is_advance d c r c' : 0 <= d -> advance_exact_in_block d c = (Ok (Some r), c') -> advance_exact d c = (Ok r, c').
Proof.
  intros H0. unfold advance_exact_in_block, advance_exact, bind, get_state, modify, then_index, ret, fail. destruct (Z.ltb_spec d 0); [lia|].
  destruct (Z.ltb_spec d (doc c)); cbn [orb]; [done|]. destruct (d =? NO_MORE_DOCS); cbn [orb]; [done|]. cbv zeta. destruct (Z.eqb_spec (block_of d) (IndexedDisi.block c)) as [E|]; cbn [negb]; [|done].
  rewrite E, Z.ltb_irrefl, Z.eqb_refl. by destruct (advance_exact_within_block d c) as [[found|e] c1]; intros [= <- <-].
Qed.

(** ** A forward walk over a set. *)
Fixpoint advance_all (ds : list Z) : C (list (option Z)) :=
  match ds with
  | [] => ret []
  | d :: ds =>
      let* r := advance_exact d in
      let* l := advance_all ds in
      ret (r :: l)
  end.

Lemma walk_answers p bl tail : power_ok p -> Forall block_ok bl -> ascend 0 bl -> end_block 0 bl <= 2 ^ 15 -> zlen (bytes_of p bl) <= 9220 * 2 ^ 15 ->
  Forall (fun d => 0 <= d < NO_MORE_DOCS) (concat (map block_docs bl)) -> forall ds c, at_doc p bl tail c -> StronglySorted Z.le ds -> Forall (fun d => doc c <= d /\ 0 <= d <= NO_MORE_DOCS) ds ->
  exists c', advance_all ds c = (Ok (map (ordinal (concat (map block_docs bl))) ds), c') /\ at_doc p bl tail c' /\ doc c' = List.last ds (doc c).
Proof.
  intros Hp A1 A2 A3 A4 A5. induction ds as [|d ds IH]; intros c Hc Hs Hr; [by exists c|]. apply StronglySorted_inv in Hs as [Hs Hd]. apply Forall_cons_1 in Hr as [[Hge Hd0] Hr].
  destruct (advance_spec p bl tail Hp A1 A2 A3 A4 A5 c d Hc Hd0 Hge) as (c1 & E1 & C1 & D1). destruct (IH c1 C1 Hs) as (c' & E2 & C2 & D2).
  - rewrite D1. rewrite List.Forall_forall in *. intros x Hx. split; [by apply Hd|by apply (Hr x Hx)].
  - exists c'. split; [cbn [advance_all map]; rewrite (bind_Ok _ _ _ _ _ E1), (bind_Ok _ _ _ _ _ E2); done|]. split; [done|]. rewrite D2, D1. destruct ds as [|z ds]; [done|exact (last_default z ds _ _)].
Qed.

(** C23: The writer takes every ascending list of documents, and a cursor over
    what it wrote, asked for documents in any ascending order, with or
    without a rank table and a jump table, answers each with the document's
    position in the list, and [None] for a document that is not in it. *)
Theorem written_sets_are_searched p doc_ids : power_ok p -> docs_ok doc_ids -> exists region count,
  write_with_dense_rank_power doc_ids p = Some (region, count) /\
  forall ds, StronglySorted Z.le ds -> Forall (fun d => 0 <= d <= NO_MORE_DOCS) ds -> (advance_all ds (new region p count)).1 = Ok (map (ordinal doc_ids) ds).
Proof.
  intros Hp Hd. destruct (write_is_the_blocks p doc_ids Hp Hd) as (bl0 & _ & _ & _ & _ & _ & E). eexists _, _. split; [exact E|]. intros ds Hs Hr.
  destruct (written_cursor p doc_ids _ _ Hp Hd E) as (bl & tail & A1 & A2 & A3 & A4 & A5 & Hc).
  destruct (walk_answers p bl tail Hp A1 A2 A3 A4 ltac:(rewrite A5; apply Hd) ds _ Hc Hs) as (c' & E2 & _ & _); [|by rewrite E2, A5].
  eapply Forall_impl; [|exact Hr]. cbn beta. intros d Hd0. rewrite new_doc. lia.
Qed.

Lemma two_documents_ok : docs_ok [3; 200000].
Proof. split; repeat constructor; done. Qed.

Example written_sets_are_searched_witness : exists region count,
  write_with_dense_rank_power [3; 200000] 9 = Some (region, count) /\ (advance_all [3; 4; 70000; 200000] (new region 9 count)).1 = Ok [Some 0; None; None; Some 1].
Proof.
  destruct (written_sets_are_searched 9 [3; 200000]) as (region & count & E & H); [right; lia|apply two_documents_ok|]. exists region, count. split; [exact E|].
  refine (H [3; 4; 70000; 200000] _ _); repeat constructor; lia || done.
Defined.
End IndexedDisiSpec.
