(* ===== verification/IndexedDisiWindows.v ===== *)
(** * Sparse sets of documents: windows of words

    [window_bits] answers a run of 64-document words at once: the words are
    the set's bits, and the ordinal it gives is that of the first of them. *)
From stdpp Require Import strings.
From Stdlib Require Import Sorting.Sorted.
From S2P Require Import Prelude StoreError DataOutput DataInput SliceInput Wire CodecUtil SegmentFile BitWords FixedBitSet FixedBitSetSpec IndexedDisi IndexedDisiSpec.

Module IndexedDisiWindows.
Import IndexedDisi IndexedDisiSpec.

(** How many documents are below one, and in one's block. *)
Definition rank (doc_ids : list Z) (d : Z) : Z := zlen (filter (fun x => x < d) doc_ids).
Definition in_block_of (doc_ids : list Z) (d : Z) : Z := zlen (filter (fun x => x / 65536 = d / 65536) doc_ids).

Lemma filter_every {A} (P : A -> Prop) `{forall x, Decision (P x)} l : Forall P l -> filter P l = l.
Proof. induction 1 as [|x l Hx _ IH]; [done|]. by rewrite filter_cons_True, IH. Qed.
Lemma filter_none {A} (P : A -> Prop) `{forall x, Decision (P x)} l : Forall (fun x => ~ P x) l -> filter P l = [].
Proof. induction 1 as [|x l Hx _ IH]; [done|]. by rewrite filter_cons_False, IH. Qed.

Lemma block_numbers l (P : Z -> Prop) : Forall block_ok l -> Forall (fun b : block => P b.1) l -> Forall (fun x => P (x / 65536)) (concat (map block_docs l)).
Proof.
  induction 1 as [|b l Hb _ IH]; intros Hn; [constructor|]. apply Forall_cons_1 in Hn as [Hn Hl]. cbn [map concat]. apply Forall_app. split; [|by apply IH].
  eapply Forall_impl; [|apply block_docs_numbers, Hb]. cbn beta. by intros x [-> _].
Qed.

(** The documents of a block below one of them. *)
Lemma below_filter b d : block_ok b -> d / 65536 = b.1 -> zlen (filter (fun x => x < d) (block_docs b)) = below b.2 (d mod 65536).
Proof.
  intros [Hb Hl] Hd. pose proof (Z.mod_pos_bound d 65536 ltac:(lia)) as Hm. pose proof (Z.div_mod d 65536 ltac:(lia)) as Hdm. unfold block_docs. rewrite Z.shiftl_mul_pow2 by lia.
  rewrite (lows_members b.2 Hl) at 1. set (low := d mod 65536) in *.
  replace (Z.to_nat BLOCK_SIZE) with (Z.to_nat low + Z.to_nat (BLOCK_SIZE - low))%nat by (unfold BLOCK_SIZE; lia).
  rewrite members_app, map_app, list.filter_app, filter_every, filter_none, app_nil_r.
  - rewrite below_eq. unfold zlen. rewrite length_map. apply members_length.
  - apply Forall_map, Forall_forall. intros i [Hi _]%list_elem_of_In%members_spec. unfold compose. lia.
  - apply Forall_map, Forall_forall. intros i [Hi _]%list_elem_of_In%members_spec. unfold compose. lia.
Qed.

Lemma ids_at bl done b rest k : Forall block_ok bl -> ascend 0 bl -> bl ++ [sentinel] = done ++ b :: rest -> Forall (fun x : block => x.1 < k) done -> k <= b.1 -> k < 0x7fff ->
  exists after, concat (map block_docs bl) = concat (map block_docs done) ++ (if b.1 =? k then block_docs b else []) ++ after /\ Forall (fun x => k < x / 65536) after /\ Forall block_ok done /\ block_ok b.
Proof.
  intros Hok Ha E Hd Hb Hk. pose proof (full_ok bl Hok) as Hf. rewrite E in Hf. apply Forall_app in Hf as [Hdone Hf]. apply Forall_cons_1 in Hf as [Hbok Hrest].
  destruct (full_cases bl done b rest E) as [(-> & -> & ->)|(rest0 & -> & Ebl)].
  - cbn [sentinel fst]. destruct (Z.eqb_spec 0x7fff k); [lia|]. exists []. cbn [app]. by rewrite app_nil_r.
  - assert (Hafter : Forall (fun x : block => b.1 < x.1) rest0) by (apply (ascend_after done b rest0 0); by rewrite <- Ebl). apply Forall_app in Hrest as [Hrest _].
    assert (Eids : concat (map block_docs bl) = concat (map block_docs done) ++ block_docs b ++ concat (map block_docs rest0)) by (rewrite Ebl, map_app, concat_app; done). rewrite Eids.
    destruct (Z.eqb_spec b.1 k) as [Ek|Ek].
    + exists (concat (map block_docs rest0)). split; [done|]. split; [|done]. apply (block_numbers rest0 (fun n => k < n) Hrest). eapply Forall_impl; [|exact Hafter]. cbn beta. lia.
    + exists (block_docs b ++ concat (map block_docs rest0)). split; [done|]. split; [|done]. apply (block_numbers (b :: rest0) (fun n => k < n)); [by constructor|]. constructor; [lia|]. eapply Forall_impl; [|exact Hafter]. cbn beta. lia.
Qed.

Lemma block_docs_mem b x : block_ok b -> x / 65536 = b.1 -> x ∈ block_docs b <-> within b.2 (x mod 65536) = true.
Proof.
  intros [Hb Hl] Hx. pose proof (Z.div_mod x 65536 ltac:(lia)) as Hdm. unfold within. rewrite bool_decide_eq_true. unfold block_docs. rewrite Z.shiftl_mul_pow2 by lia. rewrite list_elem_of_fmap. split.
  - intros (y & -> & Hy). by replace ((b.1 * 2 ^ 16 + y) mod 65536) with y by lia.
  - intros Hy. exists (x mod 65536). split; [lia|done].
Qed.

(** What the block a cursor reached says of the set. *)
Lemma block_facts bl done b rest d : Forall block_ok bl -> ascend 0 bl -> bl ++ [sentinel] = done ++ b :: rest -> Forall (fun x : block => x.1 < d / 65536) done -> d / 65536 <= b.1 -> d / 65536 < 0x7fff ->
  let ids := concat (map block_docs bl) in
  rank ids d = card done + (if b.1 =? d / 65536 then below b.2 (d mod 65536) else 0) /\
  in_block_of ids d = (if b.1 =? d / 65536 then zlen b.2 else 0) /\
  forall x, x / 65536 = d / 65536 -> bool_decide (x ∈ ids) = (b.1 =? d / 65536) && within b.2 (x mod 65536).
Proof.
  intros Hok Ha E Hd Hb Hk ids. destruct (ids_at bl done b rest _ Hok Ha E Hd Hb Hk) as (after & Eids & Hafter & Hdone & Hbok). fold ids in Eids.
  pose proof (block_numbers done (fun n => n < d / 65536) Hdone Hd) as Hbefore. set (here := if b.1 =? d / 65536 then block_docs b else []) in *.
  assert (Hhere : Forall (fun x => x / 65536 = d / 65536) here).
  { unfold here. destruct (Z.eqb_spec b.1 (d / 65536)) as [<-|]; [|constructor]. eapply Forall_impl; [|apply block_docs_numbers, Hbok]. cbn beta. tauto. }
  split; [|split].
  - unfold rank. rewrite Eids, !list.filter_app, !zlen_app, filter_every, (filter_none _ after).
    + change (zlen (@nil Z)) with 0. rewrite Z.add_0_r. unfold card. f_equal. unfold here. destruct (Z.eqb_spec b.1 (d / 65536)) as [Ek|]; [|done]. by apply below_filter.
    + eapply Forall_impl; [|exact Hafter]. cbn beta. intros x Hx Hlt. pose proof (Z.div_le_mono x d 65536 ltac:(lia) ltac:(lia)). lia.
    + eapply Forall_impl; [|exact Hbefore]. cbn beta. intros x Hx. destruct (Z.lt_ge_cases x d) as [|Hge]; [done|]. pose proof (Z.div_le_mono d x 65536 ltac:(lia) Hge). lia.
  - unfold in_block_of. rewrite Eids, !list.filter_app, filter_none, (filter_none _ after), (filter_every _ here), app_nil_r by
      (first [exact Hhere | eapply Forall_impl; [|first [exact Hafter|exact Hbefore]]; cbn beta; lia]).
    cbn [app]. unfold here. destruct (b.1 =? d / 65536); [|done]. unfold block_docs, zlen. by rewrite length_map.
  - intros x Hx. apply eq_true_iff_eq. rewrite bool_decide_eq_true, andb_true_iff, Z.eqb_eq, Eids, !elem_of_app. unfold here. rewrite List.Forall_forall in Hbefore, Hafter. split.
    + intros [H|[H|H]]; [apply list_elem_of_In, Hbefore in H; lia| |apply list_elem_of_In, Hafter in H; lia]. destruct (Z.eqb_spec b.1 (d / 65536)) as [Ek|]; [|by apply elem_of_nil in H].
      split; [done|]. apply block_docs_mem; [done|lia|done].
    + intros [Ek Hw]. right. left. rewrite Ek, Z.eqb_refl. apply block_docs_mem; [done|lia|done].
Qed.

Lemma words_back ws : words_ok ws -> SliceInput.chunks_exact 8 from_le (List.length ws) (concat (map (to_le 8) ws)) = ws.
Proof.
  induction 1 as [|w ws Hw _ IH]; [done|]. cbn [map concat List.length SliceInput.chunks_exact]. pose proof (zlen_to_le 8 w) as Hz. unfold zlen in Hz.
  rewrite take_app_length', drop_app_length' by lia. by rewrite IH, from_to_le_id.
Qed.

(** A window that can be answered in one piece, from a cursor at [doc]; the
    last block shares its number with the sentinel. *)
Record window_fits (doc start : Z) (n : nat) : Prop := {
  wf_some : (0 < n)%nat;
  wf_start : 0 <= start;
  wf_aligned : start mod 64 = 0;
  wf_forward : doc <= start;
  wf_block : (start + 64 * Z.of_nat n - 1) / 65536 = start / 65536;
  wf_last : start / 65536 < 0x7fff;
}.

(** The words are the set's. *)
Definition window_of (doc_ids : list Z) (start : Z) (n : nat) (ws : list Z) : Prop :=
  words_ok ws /\ List.length ws = n /\ forall i, 0 <= i < 64 * Z.of_nat n -> wbit ws i = bool_decide (start + i ∈ doc_ids).

Lemma constant_window ids start n w b : in_u 64 w -> (forall i, 0 <= i < 64 -> Z.testbit w i = b) ->
  (forall i, 0 <= i < 64 * Z.of_nat n -> bool_decide (start + i ∈ ids) = b) -> window_of ids start n (replicate n w).
Proof.
  intros Hw Hb Hm. split; [|split; [apply length_replicate|]].
  - apply List.Forall_forall. intros x Hx%list_elem_of_In%elem_of_replicate. by destruct Hx as [-> _].
  - intros i Hi. rewrite Hm by done. unfold wbit. assert (E : at0 (replicate n w) (i / 64) = w).
    { unfold at0. rewrite nth_lookup, lookup_replicate_2; [done|]. pose proof (Z.div_pos i 64 ltac:(lia)). pose proof (Z.div_lt_upper_bound i 64 (Z.of_nat n)). lia. }
    rewrite E. apply Hb, Z.mod_pos_bound. lia.
Qed.

Lemma window_in_block start n i : (start + 64 * Z.of_nat n - 1) / 65536 = start / 65536 -> 0 <= i < 64 * Z.of_nat n ->
  (start + i) / 65536 = start / 65536 /\ (start + i) mod 65536 = start mod 65536 + i.
Proof.
  intros Hb Hi. pose proof (Z.div_le_mono start (start + i) 65536 ltac:(lia) ltac:(lia)). pose proof (Z.div_le_mono (start + i) (start + 64 * Z.of_nat n - 1) 65536 ltac:(lia) ltac:(lia)).
  assert (E : (start + i) / 65536 = start / 65536) by (rewrite Hb in *; lia). split; [done|]. pose proof (Z.div_mod start 65536 ltac:(lia)). pose proof (Z.div_mod (start + i) 65536 ltac:(lia)). lia.
Qed.

Lemma dense_window lows start n ids : lows_ok lows -> (0 < n)%nat -> start mod 64 = 0 -> (start + 64 * Z.of_nat n - 1) / 65536 = start / 65536 ->
  (forall x, x / 65536 = start / 65536 -> bool_decide (x ∈ ids) = within lows (x mod 65536)) ->
  let a := Z.shiftr (Z.land start 0xffff) 6 in
  exists bytes, zslice (concat (map (to_le 8) (words_of lows))) (a * 8) ((a + Z.of_nat n) * 8) = Some bytes /\ window_of ids start n (SliceInput.chunks_exact 8 from_le n bytes).
Proof.
  intros Hl Hn Ha Hb Hm a. destruct (words_facts lows Hl) as (Hw & Hz & Hbits). pose proof (Z.mod_pos_bound start 65536 ltac:(lia)) as H1. pose proof (Z.div_mod start 65536 ltac:(lia)) as H2.
  assert (Ea : a = (start mod 65536) / 64) by (unfold a; by rewrite land_low, shiftr_6). 
  assert (E64 : start mod 65536 = 64 * a).
  { pose proof (Z.div_mod start 64 ltac:(lia)). pose proof (Z.div_mod (start mod 65536) 64 ltac:(lia)) as H4. pose proof (Z.mod_pos_bound (start mod 65536) 64 ltac:(lia)). rewrite <- Ea in H4. clear -H H0 H2 H4 Ha. lia. }
  destruct (window_in_block start n (64 * Z.of_nat n - 1) ltac:(rewrite <- Hb; f_equal; lia) ltac:(lia)) as [_ Hend].
  pose proof (Z.mod_pos_bound (start + (64 * Z.of_nat n - 1)) 65536 ltac:(lia)). assert (Hfit : 0 <= a /\ a + Z.of_nat n <= 1024) by (clearbody a; lia). rewrite word_slice by lia.
  set (ws := take (Z.to_nat (Z.of_nat n)) (drop (Z.to_nat a) (words_of lows))). assert (Hlen : List.length ws = n) by (unfold ws; rewrite length_take, length_drop; unfold zlen in Hz; lia).
  assert (Hws : words_ok ws) by by apply Forall_take, Forall_drop. eexists. split; [reflexivity|]. pose proof (words_back ws Hws) as Eb. rewrite Hlen in Eb. rewrite Eb. split; [done|]. split; [done|].
  intros i Hi. destruct (window_in_block start n i Hb Hi) as [Hdiv Hmod]. rewrite Hm, Hmod, E64, <- Hbits by (done || lia). unfold wbit, ws.
  pose proof (Z.div_mod i 64 ltac:(lia)). pose proof (Z.mod_pos_bound i 64 ltac:(lia)). rewrite at0_take by lia. rewrite at0_drop by lia.
  by destruct (word_of_unique (64 * a + i) (a + i / 64) (i mod 64)) as [-> ->]; [lia|lia|].
Qed.

Section window.
Context (p : Z) (bl : list block) (tail : list byte).
Hypothesis Hp : power_ok p.
Hypothesis blocks_ok : Forall block_ok bl.
Hypothesis blocks_ascend : ascend 0 bl.
Hypothesis blocks_few : end_block 0 bl <= 2 ^ 15.
Hypothesis bytes_few : zlen (bytes_of p bl) <= 9220 * 2 ^ 15.
Hypothesis docs_below : Forall (fun d => 0 <= d < NO_MORE_DOCS) (concat (map block_docs bl)).
Notation ids := (concat (map block_docs bl)).

(** The method's checks let it through. *)
Lemma window_runs c start n : window_fits (doc c) start n -> window_bits start n c =
  (let* _ := advance_exact start in
   let* c := get_state in
   if negb (IndexedDisi.block c =? block_of start) then ret (Some (replicate n 0, index c + 1))
   else match method c with
        | All => ret (Some (replicate n (2 ^ 64 - 1), index c))
        | Dense =>
            let first_word := Z.shiftr (Z.land start 0xffff) 6 in
            let* bytes := panicking (zslice (dense_bitmap c) (first_word * 8) ((first_word + Z.of_nat n) * 8)) in
            ret (Some (SliceInput.chunks_exact 8 from_le n bytes, index c))
        | Sparse => ret None
        end) c.
Proof.
  intros [W1 W2 W3 W4 W5 W6]. unfold window_bits. cbv zeta. unfold bind at 1, get_state at 1. rewrite !block_of_eq, land_63, W3.
  replace ((start + Z.of_nat n * 64 - 1) / 65536) with (start / 65536) by (rewrite <- W5; f_equal; lia). rewrite Z.eqb_refl. cbn [negb].
  pose proof (Z.div_mod (start + 64 * Z.of_nat n - 1) 65536 ltac:(lia)). pose proof (Z.mod_pos_bound (start + 64 * Z.of_nat n - 1) 65536 ltac:(lia)).
  assert (start + 64 * Z.of_nat n < 2 ^ 31) by lia.
  destruct (Z.leb_spec (2 ^ 31) (Z.of_nat n)); [lia|]. destruct (Z.leb_spec (2 ^ 31) (Z.of_nat n * 64)); [lia|]. destruct (Z.leb_spec (2 ^ 31) (start + Z.of_nat n * 64)); [lia|].
  destruct (Z.eqb_spec (Z.of_nat n) 0); [lia|]. destruct (Z.ltb_spec start 0); [lia|]. destruct (Z.ltb_spec start (doc c)); [lia|]. cbn [orb]. by rewrite Z.eqb_refl.
Qed.

Lemma window_spec c start n : at_doc p bl tail c -> window_fits (doc c) start n -> exists r c', window_bits start n c = (Ok r, c') /\ at_doc p bl tail c' /\ doc c' = start /\
  if (0 <? in_block_of ids start) && (in_block_of ids start <=? MAX_ARRAY_LENGTH) then r = None
  else exists ws, r = Some (ws, rank ids start) /\ window_of ids start n ws.
Proof.
  intros Hc Hw. rewrite window_runs by done. destruct Hw as [W1 W2 W3 W4 W5 W6].
  assert (Hs : 0 <= start < NO_MORE_DOCS) by (pose proof (Z.div_mod start 65536 ltac:(lia)); pose proof (Z.mod_pos_bound start 65536 ltac:(lia)); unfold NO_MORE_DOCS; lia).
  destruct (advance_places p bl tail Hp blocks_ok blocks_ascend blocks_few bytes_few c start Hc Hs W4) as (c' & done & b & rest & E1 & D1 & Hpl & X1).
  assert (Hc' : at_doc p bl tail c') by (split; [apply Hpl|]; right; right; rewrite D1; split; [done|by exists done, b, rest]).
  rewrite (bind_Ok _ _ _ _ _ E1). unfold bind at 1, get_state at 1. destruct Hpl as [P1 P2 P3 [S1 S2 S3 S4 S5] P5].
  destruct (block_facts bl done b rest start blocks_ok blocks_ascend P1 P2 P3 W6) as (F1 & F2 & F3). rewrite F1, F2, S3, block_of_eq.
  assert (Hl : lows_ok b.2) by (pose proof (full_ok bl blocks_ok) as Hf; rewrite P1 in Hf; apply Forall_app in Hf as [_ Hf]; apply Forall_inv in Hf; apply Hf).
  destruct (lows_count _ Hl) as [_ Hn]. assert (Hword : forall i, 0 <= i < 64 * Z.of_nat n -> bool_decide (start + i ∈ ids) = (b.1 =? start / 65536) && within b.2 ((start + i) mod 65536)).
  { intros i Hi. apply F3. by apply window_in_block with n. }
  destruct (Z.eqb_spec b.1 (start / 65536)) as [Ek|Ek].
  - rewrite Ek, Z.eqb_refl. cbn [negb]. specialize (X1 Ek). destruct (Z.ltb_spec 0 (zlen b.2)); [|lia]. cbn [andb]. unfold in_block in S4. rewrite S5 in X1, S4 |- *. unfold method_of in *.
    destruct (Z.leb_spec (zlen b.2) MAX_ARRAY_LENGTH); [by exists None, c'|]. destruct (Z.eqb_spec (zlen b.2) BLOCK_SIZE) as [Ef|Ef]; rewrite X1 by done.
    + eexists _, c'. split; [reflexivity|]. split; [done|]. split; [done|]. eexists. split; [reflexivity|]. apply (constant_window _ _ _ _ true); [split; lia| |].
      * intros i Hi. change (2 ^ 64 - 1) with (Z.ones 64). rewrite testbit_ones by lia. bool_lia.
      * intros i Hi. rewrite Hword by done. cbn [andb]. apply full_block; [done|done|]. apply Z.mod_pos_bound. unfold BLOCK_SIZE. lia.
    + destruct (dense_window b.2 start n ids Hl W1 W3 W5) as (bytes & Eb & Hwin); [intros x Hx; by rewrite (F3 x Hx)|]. destruct S4 as [_ S4 _ _ _ _]. cbv zeta in Eb, Hwin.
      unfold bind, panicking. rewrite S4, Eb. eexists _, c'. split; [reflexivity|]. split; [done|]. split; [done|]. eexists. by split.
  - destruct (Z.eqb_spec (b.1 * 65536) (start / 65536 * 65536)); [lia|]. cbn [negb andb Z.ltb Z.compare]. eexists _, c'. split; [reflexivity|]. split; [done|]. split; [done|].
    rewrite P5 by lia. eexists. split; [do 2 f_equal; lia|]. apply (constant_window _ _ _ _ false); [split; lia|by intros; apply Z.testbit_0_l|done].
Qed.
End window.

(** C25: On what the writer wrote, after any forward walk, a window of 64-bit
    words that is aligned, inside one block below the last and not behind
    the walk is answered with the set's bits and the number of documents
    before it, unless its block has from 1 to 4,095 documents: such a block
    is not kept as words, and the answer is [None]. *)
Theorem windows_are_the_set p doc_ids : power_ok p -> docs_ok doc_ids -> exists region count,
  write_with_dense_rank_power doc_ids p = Some (region, count) /\
  forall ds start n, StronglySorted Z.le ds -> Forall (fun d => 0 <= d <= NO_MORE_DOCS) ds -> window_fits (List.last ds (-1)) start n ->
    exists r, ((let* _ := advance_all ds in window_bits start n) (new region p count)).1 = Ok r /\
      if (0 <? in_block_of doc_ids start) && (in_block_of doc_ids start <=? MAX_ARRAY_LENGTH) then r = None
      else exists ws, r = Some (ws, rank doc_ids start) /\ window_of doc_ids start n ws.
Proof.
  intros Hp Hd. destruct (write_is_the_blocks p doc_ids Hp Hd) as (bl0 & _ & _ & _ & _ & _ & E). eexists _, _. split; [exact E|]. intros ds start n Hs Hr Hw.
  destruct (written_cursor p doc_ids _ _ Hp Hd E) as (bl & tail & A1 & A2 & A3 & A4 & A5 & Hc). assert (A6 : Forall (fun d => 0 <= d < NO_MORE_DOCS) (concat (map block_docs bl))) by (rewrite A5; apply Hd).
  destruct (walk_answers p bl tail Hp A1 A2 A3 A4 A6 ds _ Hc Hs) as (c1 & E1 & C1 & D1).
  - eapply Forall_impl; [|exact Hr]. cbn beta. intros d Hd0. rewrite new_doc. lia.
  - rewrite new_doc in D1. rewrite <- D1 in Hw. destruct (window_spec p bl tail Hp A1 A2 A3 A4 c1 start n C1 Hw) as (r & c' & E2 & _ & _ & H). rewrite A5 in H.
    exists r. split; [by rewrite (bind_Ok _ _ _ _ _ E1), E2|exact H].
Qed.

Example windows_are_the_set_witness : exists region count,
  write_with_dense_rank_power [3; 200000] 9 = Some (region, count) /\
  exists r, ((let* _ := advance_all [3] in window_bits 65536 2) (new region 9 count)).1 = Ok r /\ exists ws, r = Some (ws, 1) /\ window_of [3; 200000] 65536 2 ws.
Proof.
  destruct (windows_are_the_set 9 [3; 200000]) as (region & count & E & H); [right; lia|apply two_documents_ok|]. exists region, count. split; [exact E|].
  destruct (H [3] 65536 2%nat) as (r & Er & Hr); [by repeat constructor|by repeat constructor|constructor; (lia || done)|]. exists r. split; [exact Er|exact Hr].
Defined.
End IndexedDisiWindows.
