(* ===== verification/IndexedDisiSafety.v ===== *)
(** * Sparse sets of documents: any bytes

    Whatever the region's bytes, rank power and table size, a forward walk
    ends, and with an answer or an error: no index is out of bounds.  The
    first error is where the guarantee stops: asking again can panic. *)
From stdpp Require Import strings.
From Stdlib Require Import Sorting.Sorted.
From S2P Require Import Prelude StoreError DataOutput DataInput SliceInput Wire CodecUtil SegmentFile BitWords FixedBitSet FixedBitSetSpec IndexedDisi IndexedDisiSpec.

Module IndexedDisiSafety.
Import IndexedDisi IndexedDisiSpec.

(** An answer and [J], or an error of the data. *)
Definition ends {A} (r : result Fault A * t) (J : A -> t -> Prop) : Prop :=
  match r with (Ok a, c) => J a c | (Err (Failed _), _) => True | _ => False end.

Lemma ends_bind {A B} (m : C A) (k : A -> C B) c J K : ends (m c) J -> (forall a c', J a c' -> ends (k a c') K) -> ends (bind m k c) K.
Proof. intros Hm Hk. unfold bind. destruct (m c) as [[a|[]] c']; try done. by apply Hk. Qed.
Lemma ends_weaken {A} (r : result Fault A * t) (J K : A -> t -> Prop) : ends r J -> (forall a c, J a c -> K a c) -> ends r K.
Proof. intros Hr Hk. destruct r as [[a|[]] c]; try done. by apply Hk. Qed.

(** What the current block's bytes were checked for. *)
Definition checked (c : t) : Prop :=
  match method c with
  | All => True
  | Sparse => 0 <= sparse_pos c
  | Dense => zlen (dense_bitmap c) = 8192 /\ dense_rank_bytes (dense_rank_power c) = Ok (zlen (dense_rank c)) /\ -1 <= word_index c
  end.
Record sound (c : t) : Prop := { so_end : 0 <= block_end c; so_checked : checked c }.


Lemma zslice_size {A} (l : list A) a b s : zslice l a b = Some s -> zlen s = b - a /\ 0 <= a /\ a <= b <= zlen l.
Proof. intros (x & y & -> & <- & <-)%zslice_Some. pose proof (zlen_nonneg x). pose proof (zlen_nonneg s). pose proof (zlen_nonneg y). rewrite !zlen_app. lia. Qed.

(** ** Reading a header. *)
Lemma header_ends c : 0 <= block_end c ->
  ends (read_block_header c) (fun _ c' => sound c' /\ doc c' = doc c /\ data c' = data c /\ block_end c + 4 <= block_end c' /\ block_end c + 4 <= zlen (data c)).
Proof.
  intros H0. unfold read_block_header, bind, get_state, try_, modify, slice. unfold read_u16_at.
  destruct (zslice (data c) (block_end c) (block_end c + 2)) as [b1|]; [|done]. cbn [data block_end set_block].
  destruct (zslice (data c) (block_end c + 2) (block_end c + 2 + 2)) as [b2|] eqn:E2; [|done]. apply zslice_size in E2 as (_ & _ & E2).
  destruct (_ <? 2 ^ 63); [|done]. set (n := 1 + from_le b2). destruct (Z.leb_spec n MAX_ARRAY_LENGTH) as [Hn|Hn].
  - cbn [data set_method set_next_block_index set_block]. destruct (zslice _ _ _) eqn:E3; [|done]. apply zslice_size in E3 as (Hz & _ & E3).
    split; [constructor; cbn; lia|]. split; [done|]. split; [done|]. cbn [block_end set_sparse_docs set_method]. lia.
  - destruct (Z.eqb_spec n BLOCK_SIZE).
    + split; [constructor; cbn; [lia|done]|]. split; [done|]. split; [done|]. cbn. lia.
    + cbn [dense_rank_power set_method set_next_block_index set_block]. destruct (dense_rank_bytes (dense_rank_power c)) as [r|] eqn:Er; [|done].
      cbn [data set_method set_next_block_index set_block set_dense_rank]. destruct (zslice _ _ _) as [rank|] eqn:E3; [|done]. cbn [data set_method set_next_block_index set_block set_dense_rank].
      destruct (zslice (data c) (block_end c + 4 + r) _) as [bitmap|] eqn:E4; [|done]. apply zslice_size in E3 as (Z3 & _ & E3). apply zslice_size in E4 as (Z4 & _ & E4). change (DENSE_BLOCK_LONGS * 8) with 8192 in *.
      split; [|split; [done|split; [done|cbn [block_end set_dense_bitmap set_dense_rank set_method]; change (DENSE_BLOCK_LONGS * 8) with 8192; lia]]].
      constructor; [cbn [block_end set_dense_bitmap set_dense_rank set_method]; change (DENSE_BLOCK_LONGS * 8) with 8192; lia|]. unfold checked. cbn [method set_dense_bitmap set_dense_rank set_method dense_bitmap dense_rank dense_rank_power word_index set_next_block_index set_block].
      split; [lia|]. split; [|lia]. rewrite Er. f_equal. lia.
Qed.

Lemma walk_ends target fuel : forall c, 0 <= block_end c -> zlen (data c) - block_end c < Z.of_nat fuel -> (0 < fuel)%nat -> ends (walk fuel target c) (fun _ c' => sound c' /\ doc c' = doc c).
Proof.
  induction fuel as [|fuel IH]; intros c H0 Hf Hp; [lia|]. cbn [walk]. eapply ends_bind; [by apply header_ends|]. cbn beta. intros _ c1 (S1 & D1 & A1 & B1 & B2). unfold bind, get_state.
  destruct (target <=? IndexedDisi.block c1); [done|]. rewrite <- D1. apply IH; [apply S1|rewrite A1; lia|lia].
Qed.

Lemma advance_block_ends target c : 0 <= block_end c -> ends (advance_block target c) (fun _ c' => sound c' /\ doc c' = doc c).
Proof.
  intros H0. unfold advance_block. unfold bind at 1, get_state at 1. destruct (_ && _).
  - unfold bind, try_, get_state, modify. destruct (read_i32_at _ _) as [i|]; [|done]. destruct (read_i32_at _ _) as [o|]; [|done]. destruct (Z.leb_spec 0 o); [|done].
    eapply ends_weaken; [by apply header_ends|]. cbn beta. intros _ c' (S1 & D1 & _). by split.
  - apply walk_ends; [done|unfold zlen; lia|lia].
Qed.

(** ** Inside a block. *)
Lemma sparse_loop_ends low fuel : forall c, sound c -> method c = Sparse -> zlen (sparse_docs c) - sparse_pos c <= Z.of_nat fuel -> ends (sparse_loop fuel low c) (fun _ c' => sound c').
Proof.
  assert (Hset : forall c i e x pos, sound c -> method c = Sparse -> 0 <= pos -> sound (set_sparse i e x pos c)) by (intros c i e x pos [S1 S2] Hm Hpos; constructor; [done|]; unfold checked in *; cbn [method set_sparse]; by rewrite Hm).
  induction fuel as [|fuel IH]; intros c Hs Hm Hf; pose proof Hs as [S1 S2]; unfold checked in S2; rewrite Hm in S2; cbn [sparse_loop]; unfold bind, get_state, modify, panicking, ret.
  - destruct (Z.leb_spec (sparse_pos c + 2) (zlen (sparse_docs c))); [lia|]. rewrite andb_false_r. cbn. by apply Hset.
  - destruct ((index c <? next_block_index c) && _) eqn:E; [|by apply Hset]. apply andb_true_iff in E as [_ E%Z.leb_le].
    destruct (zslice_total (sparse_docs c) (sparse_pos c) (sparse_pos c + 2)) as (b & -> & _); [lia|lia|lia|].
    destruct (low <=? from_le b); [destruct (negb _); apply Hset; (done || lia)|]. apply IH; [apply Hset; (done || lia)|done|cbn [sparse_docs sparse_pos set_sparse]; lia].
Qed.

Lemma rank_skip_ends low c : sound c -> method c = Dense -> 0 <= low < 65536 -> dense_rank c <> [] ->
  ends (rank_skip low c) (fun _ c' => sound c' /\ method c' = Dense).
Proof.
  intros [S1 S2] Hm Hlow Hne. unfold checked in S2. rewrite Hm in S2. destruct S2 as (Hb & Hr & Hw). set (p := dense_rank_power c) in *.
  assert (Hz : 7 <= p <= 15 /\ zlen (dense_rank c) = 2 * 2 ^ (16 - p)).
  { unfold dense_rank_bytes in Hr. destruct (p =? NO_RANK); [injection Hr as E; destruct (dense_rank c); [done|rewrite zlen_cons in E; pose proof (zlen_nonneg l); lia]|].
    destruct (Z.leb_spec 7 p), (Z.leb_spec p 15); try done. cbn [andb negb] in Hr. injection Hr as <-. split; [lia|].
    rewrite Z.shiftr_div_pow2 by lia. change DENSE_BLOCK_LONGS with (2 ^ 10). rewrite <- Z.pow_sub_r by lia. rewrite <- Z.pow_succ_r by lia. f_equal. lia. }
  destruct Hz as [Hp Hz]. unfold rank_skip, bind, get_state, panicking, modify. fold p. rewrite (Z.shiftr_div_pow2 low p), (Z.shiftl_mul_pow2 _ 1), (Z.shiftl_mul_pow2 _ p), shiftr_6 by lia.
  set (e := low / 2 ^ p). assert (Hpp : 0 < 2 ^ p) by (apply Z.pow_pos_nonneg; lia). assert (Hfull : 2 ^ (16 - p) * 2 ^ p = 65536) by (rewrite <- Z.pow_add_r by lia; replace (16 - p + p) with 16 by lia; done).
  assert (He : 0 <= e < 2 ^ (16 - p)) by (split; [apply Z.div_pos; lia|apply Z.div_lt_upper_bound; lia]). assert (Hel : 0 <= e * 2 ^ p <= low) by (unfold e; pose proof (Z.mul_div_le low (2 ^ p) Hpp); split; [apply Z.mul_nonneg_nonneg; lia|lia]).
  assert (Hget : forall i, 0 <= i < zlen (dense_rank c) -> exists x, zget (dense_rank c) i = Some x).
  { intros i Hi. unfold zget. destruct (Z.ltb_spec i 0); [lia|]. apply lookup_lt_is_Some_2. unfold zlen in Hi. lia. }
  change (2 ^ 1) with 2. destruct (Hget (e * 2)) as [hi ->]; [lia|]. destruct (Hget (e * 2 + 1)) as [lo ->]; [lia|].
  pose proof (Z.div_pos (e * 2 ^ p) 64 ltac:(lia) ltac:(lia)). assert (e * 2 ^ p / 64 < 1024) by (apply Z.div_lt_upper_bound; lia).
  destruct (zslice_total (dense_bitmap c) (e * 2 ^ p / 64 * 8) (e * 2 ^ p / 64 * 8 + 8)) as (w & -> & _); [lia|lia|lia|].
  split; [|done]. constructor; [done|]. unfold checked. cbn [method set_word dense_bitmap dense_rank dense_rank_power word_index]. rewrite Hm. split; [done|]. split; [done|lia].
Qed.

Lemma dense_ends target c : sound c -> method c = Dense -> ends (dense_advance_exact target c) (fun _ c' => sound c').
Proof.
  intros Hs Hm. unfold dense_advance_exact. rewrite land_low, shiftr_6. pose proof (Z.mod_pos_bound target 65536 ltac:(lia)) as Hlow. set (low := target mod 65536) in *.
  assert (Htw : 0 <= low / 64 < 1024) by (split; [apply Z.div_pos; lia|apply Z.div_lt_upper_bound; lia]). unfold bind at 1, get_state at 1.
  apply ends_bind with (J := fun _ c' => sound c' /\ method c' = Dense).
  - destruct (Nat.eqb_spec (List.length (dense_rank c)) 0) as [|Hne]; cbn [negb andb]; [done|]. destruct (_ <=? _); [|done]. apply rank_skip_ends; [done|done|done|]. intros E. by rewrite E in Hne.
  - intros _ c1 [[S1 S2] M1]. unfold checked in S2. rewrite M1 in S2. destruct S2 as (Hb & Hr & Hw). unfold bind at 1, get_state at 1. apply ends_bind with (J := fun _ c' => sound c' /\ method c' = Dense).
    + assert (Hset : forall w n, sound (set_word w (word_index c1) n c1) /\ method (set_word w (word_index c1) n c1) = Dense) by (intros w n; split; [constructor; [done|]; unfold checked; cbn [method set_word]; by rewrite M1|done]).
      destruct (Z.ltb_spec (wrapu 64 (word_index c1 + 1) * 8) ((low / 64 + 1) * 8)) as [Hlt|]; [|split; [constructor; [done|]; unfold checked; by rewrite M1|done]].
      unfold bind, panicking, modify. pose proof (wrapu_range 64 (word_index c1 + 1)) as Hwr. destruct (zslice_total (dense_bitmap c1) (wrapu 64 (word_index c1 + 1) * 8) ((low / 64 + 1) * 8)) as (b & -> & _); [destruct Hwr; lia|lia|lia|].
      destruct (run_words _ _ _ _) as [last ones]. apply Hset.
    + intros _ c2 [[S3 S4] M2]. unfold bind, get_state, modify, ret. unfold checked in S4. rewrite M2 in S4. destruct S4 as (Hb2 & Hr2 & Hw2).
      constructor; [done|]. unfold checked. cbn [method set_index set_word dense_bitmap dense_rank dense_rank_power word_index]. rewrite M2. split; [done|]. split; [done|lia].
Qed.

Lemma within_ends target c : sound c -> ends (advance_exact_within_block target c) (fun _ c' => sound c').
Proof.
  intros Hs. unfold advance_exact_within_block. unfold bind at 1, get_state at 1. destruct (method c) eqn:Hm.
  - unfold sparse_advance_exact. unfold bind at 1, get_state at 1. destruct (_ <? _); [done|]. destruct (_ =? _); [done|]. apply sparse_loop_ends; [done|done|]. destruct Hs as [_ S2]. unfold checked in S2. rewrite Hm in S2. unfold zlen. lia.
  - by apply dense_ends.
  - destruct Hs as [S1 S2]. unfold checked in S2. constructor; [done|]. unfold checked. cbn. by rewrite Hm.
Qed.

(** ** A forward walk. *)
Lemma advance_ends c d : sound c -> 0 <= d -> doc c <= d -> ends (advance_exact d c) (fun _ c' => sound c' /\ doc c' = d).
Proof.
  intros Hs H0 Hd. assert (Hdoc : forall c, sound c -> sound (set_doc d c)) by (intros x [S1 S2]; by constructor).
  unfold advance_exact. unfold bind at 1, get_state at 1. destruct (Z.ltb_spec d 0); [lia|]. destruct (Z.ltb_spec d (doc c)); [lia|].
  destruct (d =? NO_MORE_DOCS); [split; [by apply Hdoc|done]|]. cbv zeta. apply ends_bind with (J := fun _ c' => sound c').
  - destruct (_ <? _); [|done]. eapply ends_weaken; [apply advance_block_ends, Hs|]. by intros _ c' [S1 _].
  - intros _ c1 S1. unfold bind at 1, get_state at 1. apply ends_bind with (J := fun _ c' => sound c').
    + destruct (_ =? _); [by apply within_ends|done].
    + intros found c2 S2. unfold bind, modify, then_index, get_state, ret. split; [by apply Hdoc|done].
Qed.

Lemma advance_all_ends ds : forall c, sound c -> StronglySorted Z.le ds -> Forall (fun d => 0 <= d /\ doc c <= d) ds -> ends (advance_all ds c) (fun l _ => List.length l = List.length ds).
Proof.
  induction ds as [|d ds IH]; intros c Hs Hso Hr; [done|]. apply StronglySorted_inv in Hso as [Hso Hd]. apply Forall_cons_1 in Hr as [[H0 Hge] Hr]. cbn [advance_all].
  eapply ends_bind; [by apply advance_ends|]. cbn beta. intros r c1 [S1 D1]. eapply ends_bind; [apply IH; [done|done|]|].
  - rewrite D1. rewrite List.Forall_forall in *. intros x Hx. split; [apply (Hr x Hx)|by apply Hd].
  - cbn beta. intros l c2 Hl. cbn. by rewrite Hl.
Qed.

(** C24: Whatever bytes the region holds and whatever its metadata says of
    the rank power and the size of the jump table, a cursor asked for
    documents in ascending order ends with one answer per document or with
    an error: it neither indexes out of bounds nor runs on. *)
Theorem any_region_is_searched_or_refused region dense_rank_power count ds : StronglySorted Z.le ds -> Forall (fun d => 0 <= d) ds ->
  match (advance_all ds (new region dense_rank_power count)).1 with
  | Ok l => List.length l = List.length ds
  | Err (Failed _) => True
  | Err _ => False
  end.
Proof.
  intros Hs Hr. assert (H : ends (advance_all ds (new region dense_rank_power count)) (fun l _ => List.length l = List.length ds)).
  - apply advance_all_ends; [unfold new; destruct (_ && _); by constructor|done|]. eapply Forall_impl; [|exact Hr]. cbn beta. intros d Hd. rewrite new_doc. lia.
  - unfold ends in H. by destruct (advance_all _ _) as [[l|[]] c].
Qed.

Example any_region_is_searched_or_refused_witness :
  match (advance_all [0; 70000] (new [0; 0; 0; 32; 1; 2] 9 3)).1 with Ok l => List.length l = 2%nat | Err (Failed _) => True | Err _ => False end.
Proof. apply (any_region_is_searched_or_refused [0; 0; 0; 32; 1; 2] 9 3 [0; 70000]); repeat constructor; lia. Defined.

(** The header of a dense block is read before its bitmap, and keeps the
    block's number when the bitmap is cut short; the document asked again is
    looked up in a bitmap that is not there. *)
Example a_retry_after_an_error_panics :
  let c := new [0; 0; 0; 32] NO_RANK 0 in
  (advance_exact 5 c).1 = Err (Failed (Eof 4)) /\ (advance_exact 5 (advance_exact 5 c).2).1 = Err Panic.
Proof. by vm_compute. Qed.
End IndexedDisiSafety.
