(* ===== verification/Scorer.v ===== *)
(** * The scorer interface ([lucene-search/src/exec/mod.rs])

    [Scorer] is the trait of the scorer tree: [next_doc] and [advance] move an
    approximation, [matches] confirms its current document, [score] scores a
    confirmed one.  [ScorerView] says what a state stands for: the documents
    of its approximation and, among them, those that match; [ScorerLaws] is the
    contract every scorer owes.  The file proves what clients of the contract
    rely on: the exact iterator ([exact_next], [exact_advance], [confirm]), the
    batch of hits ([docs_and_scores_one_by_one]) and the cut ([Below]). *)
From S2P Require Export Search.
From S2P Require Import FixedBitSet.

Definition NO_MORE_DOCS : Z := i32_max.
Definition NEXT_DOCS_BATCH : nat := 64.

(** [pub(crate) enum Mode]. *)
Inductive Mode := TopScores | Complete | NoScores.
Definition needs_scores (m : Mode) : bool := match m with NoScores => false | _ => true end.
#[export] Instance Mode_eq_dec : EqDecision Mode.
Proof. solve_decision. Defined.

(** [pub(crate) trait Scorer].  The shortcuts of the bulk scorers (runs,
    constant bits, batches) are a class of their own in [BulkScore.v]. *)
Class Scorer (E S : Type) := {
  doc_id : S -> Z;
  next_doc : S -> comp E (Z * S);
  advance : S -> Z -> comp E (Z * S);
  cost : S -> Z;
  two_phase : S -> bool;
  matches : S -> comp E (bool * S);
  match_cost : S -> f32;
  score : S -> comp E (f32 * S);
  advance_shallow : S -> Z -> comp E (Z * S);
  max_score : S -> Z -> comp E (f32 * S);
  set_min_competitive_score : S -> f32 -> comp E S;
  advance_exact_cheap : S -> Z -> option bool * S;
  contains : S -> Z -> option bool;
}.

(** Instances are found from the type of the scorer. *)
#[global] Hint Mode Scorer - ! : typeclass_instances.

(** The trait's provided methods. *)
Module Defaults.
Definition two_phase {S} (s : S) : bool := false.
Definition matches {E S} (s : S) : comp E (bool * S) := cret (true, s).
Definition match_cost {S} (s : S) : f32 := f32_of_Z 0.
Definition advance_shallow {E S} (s : S) (target : Z) : comp E (Z * S) := cret (NO_MORE_DOCS, s).
Definition set_min_competitive_score {E S} (s : S) (min : f32) : comp E S := cret s.
Definition advance_exact_cheap {S} (s : S) (target : Z) : option bool * S := (None, s).
Definition contains {S} (s : S) (doc : Z) : option bool := None.
End Defaults.

(** ** The exact iterator *)
Section exact.
Context {E S : Type} `{Sc : Scorer E S}.

(** [while doc != NO_MORE_DOCS && !s.matches()? { doc = s.next_doc()? }] *)
Fixpoint confirm_loop (n : nat) (s : S) (doc : Z) : comp E (Z * S) :=
  match n with
  | O => cdiverge
  | Datatypes.S n =>
      if doc =? NO_MORE_DOCS then cret (doc, s)
      else let! (m, s) := matches s in
           if m then cret (doc, s)
           else let! (doc, s) := next_doc s in confirm_loop n s doc
  end.

Definition confirm (s : S) (doc : Z) : comp E (Z * S) :=
  if two_phase s then cloop (fun n => confirm_loop n s doc) else cret (doc, s).

Definition exact_advance (s : S) (target : Z) : comp E (Z * S) :=
  let! (doc, s) := advance s target in confirm s doc.

Definition exact_next (s : S) : comp E (Z * S) :=
  let! (doc, s) := next_doc s in confirm s doc.

Definition live (live_docs : option FixedBitSet.t) (doc : Z) : bool :=
  match live_docs with None => true | Some l => FixedBitSet.get_doc l doc end.

(** [docs_and_scores_one_by_one]: the documents and scores it fills. *)
Fixpoint batch_loop (n : nat) (s : S) (up_to : Z) (live_docs : option FixedBitSet.t)
    (docs : list Z) (scores : list f32) (doc : Z) : comp E (list Z * list f32 * S) :=
  match n with
  | O => cdiverge
  | Datatypes.S n =>
      if (doc <? up_to) && (Nat.ltb (length docs) NEXT_DOCS_BATCH) then
        let! (docs, scores, s) :=
          if live live_docs doc
          then let! (v, s) := score s in cret (docs ++ [doc], scores ++ [v], s)
          else cret (docs, scores, s) in
        let! (doc, s) := next_doc s in
        let! (doc, s) := confirm s doc in
        batch_loop n s up_to live_docs docs scores doc
      else cret (docs, scores, s)
  end.

Definition docs_and_scores_one_by_one (s : S) (up_to : Z) (live_docs : option FixedBitSet.t)
  : comp E (list Z * list f32 * S) :=
  cloop (fun n => batch_loop n s up_to live_docs [] [] (doc_id s)).
End exact.

(** ** [Below]: a scorer cut at [end] *)
Record Below (S : Type) := mk_Below { below_inner : S; below_end : Z; below_done : bool }.
Arguments mk_Below {S} _ _ _.
Arguments below_inner {S} _.
Arguments below_end {S} _.
Arguments below_done {S} _.

Section below_ops.
Context {E S : Type} `{Sc : Scorer E S}.
Definition below_new (inner : S) (end_ : Z) : Below S := mk_Below inner end_ false.

Definition clip (b : Below S) (doc : Z) : Z * Below S :=
  if below_end b <=? doc
  then (NO_MORE_DOCS, mk_Below (below_inner b) (below_end b) true)
  else (doc, b).

Definition below_next_doc (b : Below S) : comp E (Z * Below S) :=
  if below_done b then cret (NO_MORE_DOCS, b)
  else let! (d, i) := next_doc (below_inner b) in
       cret (clip (mk_Below i (below_end b) (below_done b)) d).

Definition below_advance (b : Below S) (target : Z) : comp E (Z * Below S) :=
  if below_done b || (below_end b <=? target)
  then cret (NO_MORE_DOCS, mk_Below (below_inner b) (below_end b) true)
  else let! (d, i) := advance (below_inner b) target in
       cret (clip (mk_Below i (below_end b) (below_done b)) d).

Definition below_with {A} (b : Below S) (f : S -> comp E (A * S)) : comp E (A * Below S) :=
  let! (a, i) := f (below_inner b) in cret (a, mk_Below i (below_end b) (below_done b)).

#[export] Instance below_scorer : Scorer E (Below S) := {
  doc_id b := if below_done b then NO_MORE_DOCS else doc_id (below_inner b);
  next_doc := below_next_doc;
  advance := below_advance;
  cost b := cost (below_inner b);
  two_phase b := two_phase (below_inner b);
  matches b := below_with b matches;
  match_cost b := match_cost (below_inner b);
  score b := below_with b score;
  advance_shallow b t := below_with b (fun i => advance_shallow i t);
  max_score b u := below_with b (fun i => max_score i u);
  set_min_competitive_score b m :=
    let! i := set_min_competitive_score (below_inner b) m in
    cret (mk_Below i (below_end b) (below_done b));
  advance_exact_cheap := Defaults.advance_exact_cheap;
  contains b d := match contains (below_inner b) d with
                  | Some m => Some (m && (d <? below_end b))
                  | None => None
                  end;
}.
End below_ops.

(** ** What a scorer promises

    [approx s] and [accept s] are fixed for the scorer's lifetime: the
    operations move its position only.  [confirmed s] says that the current
    document is known to match, because [matches] said so or because the
    scorer has no second phase; only then may [score] be called.  [gives s d v]:
    [v] is a score the scorer may answer on [d], fixed for its lifetime too.
    [need s] is fuel that suffices for any one operation. *)
Class ScorerView (S : Type) := {
  good : S -> Prop;
  approx : S -> gset Z;
  accept : S -> gset Z;
  confirmed : S -> Prop;
  need : S -> nat;
  gives : S -> Z -> f32 -> Prop;
}.

#[global] Hint Mode ScorerView ! : typeclass_instances.

(** [d] is the first document of [A] at or after [t], [NO_MORE_DOCS] if none. *)
Definition first_at (A : gset Z) (t d : Z) : Prop :=
  t <= d /\ (d = NO_MORE_DOCS \/ d ∈ A) /\ forall x, x ∈ A -> t <= x -> d <= x.

(** How many documents of [A] are at or after [t]. *)
Definition count_from (A : gset Z) (t : Z) : nat := size (filter (fun x => t <= x) A).

(** The documents of [A] in [[lo, hi)], ascending. *)
Definition docs_in (A : gset Z) (lo hi : Z) : list Z := filter (.∈ A) (seqZ lo (hi - lo)).

Section view.
Context {E S : Type} `{Sc : Scorer E S} `{V : ScorerView S}.
Implicit Types (s : S) (v : list S).

Definition same (s s' : S) : Prop :=
  approx s' = approx s /\ accept s' = accept s /\ two_phase s' = two_phase s /\ need s' = need s /\ gives s' = gives s.
Definition stays (s s' : S) : Prop :=
  good s' /\ same s s' /\ doc_id s' = doc_id s /\ (confirmed s -> confirmed s').
Definition lands (s : S) (t : Z) (r : Z * S) : Prop :=
  good r.2 /\ same s r.2 /\ doc_id r.2 = r.1 /\ first_at (approx s) t r.1.
Definition lands_exact (s : S) (t : Z) (r : Z * S) : Prop :=
  good r.2 /\ same s r.2 /\ doc_id r.2 = r.1 /\ first_at (accept s) t r.1 /\
  (r.1 <> NO_MORE_DOCS -> confirmed r.2).
(** [matches] says whether the current document matches. *)
Definition answers (s : S) (r : bool * S) : Prop :=
  good r.2 /\ same s r.2 /\ doc_id r.2 = doc_id s /\ r.1 = bool_decide (doc_id s ∈ accept s) /\
  (r.1 = true -> confirmed r.2).
(** A step that reads or scores: the position stays. *)
Definition holds {A} (s : S) (r : A * S) : Prop := stays s r.2.
(** A step that scores the current document. *)
Definition gives_score (s : S) (r : f32 * S) : Prop := holds s r /\ gives s (doc_id s) r.1.
(** Not moved past a document at or after [t] it stands for. *)
Definition not_passed (s : S) (t : Z) : Prop :=
  forall x, x ∈ approx s -> t <= x -> doc_id s <= x.
(** Fuel for the exact iterator. *)
Definition exact_need (s : S) : nat := need s + size (approx s) + 2.
End view.

Class ScorerLaws (E S : Type) {Sc : Scorer E S} {V : ScorerView S} : Prop := {
  accept_approx (s : S) : good s -> accept s ⊆ approx s;
  approx_range (s : S) d : good s -> d ∈ approx s -> 0 <= d < NO_MORE_DOCS;
  doc_id_ok (s : S) : good s -> doc_id s = -1 \/ doc_id s = NO_MORE_DOCS \/ doc_id s ∈ approx s;
  one_phase (s : S) : good s -> two_phase s = false -> accept s = approx s;
  next_doc_ok n (s : S) : good s -> doc_id s < NO_MORE_DOCS -> (need s <= n)%nat ->
    wp (next_doc s) n (lands s (doc_id s + 1));
  advance_ok n (s : S) t : good s -> doc_id s < t -> t <= NO_MORE_DOCS -> (need s <= n)%nat ->
    wp (advance s t) n (lands s t);
  matches_ok n (s : S) : good s -> doc_id s ∈ approx s -> (need s <= n)%nat ->
    wp (matches s) n (answers s);
  one_phase_confirmed (s : S) : good s -> two_phase s = false -> doc_id s ∈ approx s -> confirmed s;
  score_ok n (s : S) : good s -> doc_id s ∈ accept s -> confirmed s -> (need s <= n)%nat ->
    wp (score s) n (gives_score s);
  shallow_ok n (s : S) t : good s -> 0 <= t -> (need s <= n)%nat -> wp (advance_shallow s t) n (holds s);
  max_score_ok n (s : S) t : good s -> (need s <= n)%nat -> wp (max_score s t) n (holds s);
  exact_cheap_ok (s : S) t : good s -> doc_id s < t -> t < NO_MORE_DOCS ->
    match advance_exact_cheap s t with
    | (Some true, s') => lands s t (t, s')
    | (Some false, s') => stays s s' /\ t ∉ approx s
    | (None, s') => stays s s'
    end;
  contains_ok (s : S) d b : good s -> 0 <= d < NO_MORE_DOCS -> contains s d = Some b ->
    b = bool_decide (d ∈ approx s);
}.

(** ** Facts of documents and positions *)
Lemma no_more_pos : 0 < NO_MORE_DOCS.
Proof. done. Qed.
#[global] Opaque NO_MORE_DOCS.

Lemma first_at_unique A t d d' :
  (forall x, x ∈ A -> x < NO_MORE_DOCS) -> first_at A t d -> first_at A t d' -> d = d'.
Proof.
  intros HA (H1 & [->|H2] & H3) (H4 & [->|H5] & H6); try done.
  - specialize (H3 _ H5 H4). specialize (HA _ H5). lia.
  - specialize (H6 _ H2 H1). specialize (HA _ H2). lia.
  - specialize (H3 _ H5 H4). specialize (H6 _ H2 H1). lia.
Qed.

Lemma first_at_here A t : t ∈ A -> first_at A t t.
Proof. intros H. split; [lia|]. split; [by right|]. intros; lia. Qed.

Lemma first_at_end A t :
  (forall x, x ∈ A -> x < NO_MORE_DOCS) -> NO_MORE_DOCS <= t -> first_at A NO_MORE_DOCS NO_MORE_DOCS.
Proof. intros HA Ht. split; [lia|]. split; [by left|]. intros x Hx. specialize (HA _ Hx). lia. Qed.

(** A later stop of a subset is a stop of the subset, when nothing of it lies between. *)
Lemma first_at_skip A B t d r :
  B ⊆ A -> first_at A t d -> first_at B d r -> first_at B t r.
Proof.
  intros HB (H1 & _ & H3) (H4 & H5 & H6). split; [lia|]. split; [done|].
  intros x Hx Ht. apply H6; [done|]. apply H3; [set_solver|done].
Qed.

Lemma first_at_step B t r : t ∉ B -> first_at B (t + 1) r -> first_at B t r.
Proof.
  intros Ht (H1 & H2 & H3). split; [lia|]. split; [done|]. intros x Hx Hle.
  destruct (decide (x = t)) as [->|]; [done|]. apply H3; [done|lia].
Qed.

Lemma first_at_le A t d : first_at A t d -> t <= d.
Proof. by intros []. Qed.

Lemma count_from_lt A t d : t ∈ A -> t < d -> (count_from A d < count_from A t)%nat.
Proof.
  intros Ht Hlt. apply subset_size. split; [set_solver by lia|].
  intros H. specialize (H t). rewrite !elem_of_filter in H.
  destruct H as [H _]; [split; [lia|done]|lia].
Qed.

Lemma count_from_le A t : (count_from A t <= size A)%nat.
Proof. apply subseteq_size. set_solver. Qed.

Lemma count_from_mono A t d : t <= d -> (count_from A d <= count_from A t)%nat.
Proof. intros H. apply subseteq_size. intros x. rewrite !elem_of_filter. intros []; split; [lia|done]. Qed.

Lemma elem_of_docs_in A lo hi x : x ∈ docs_in A lo hi <-> x ∈ A /\ lo <= x < hi.
Proof. unfold docs_in. rewrite list_elem_of_filter, elem_of_seqZ. intuition lia. Qed.

Lemma docs_in_nil A lo hi : hi <= lo -> docs_in A lo hi = [].
Proof. intros H. unfold docs_in. by rewrite seqZ_nil by lia. Qed.

Lemma docs_in_step A lo mid hi :
  lo <= mid -> mid <= hi -> docs_in A lo hi = docs_in A lo mid ++ docs_in A mid hi.
Proof.
  intros H1 H2. unfold docs_in. rewrite <- filter_app. f_equal.
  replace (hi - lo) with ((mid - lo) + (hi - mid)) by lia.
  rewrite seqZ_app by lia. do 2 f_equal. lia.
Qed.

Lemma docs_in_none A lo hi : (forall x, x ∈ A -> lo <= x -> hi <= x) -> docs_in A lo hi = [].
Proof.
  intros H. destruct (docs_in A lo hi) as [|x l] eqn:Ex; [done|].
  assert (Hx : x ∈ docs_in A lo hi) by (rewrite Ex; left).
  apply elem_of_docs_in in Hx as [Hx Hr]. specialize (H x Hx). lia.
Qed.

Lemma docs_in_one A x : x ∈ A -> docs_in A x (x + 1) = [x].
Proof.
  intros H. unfold docs_in. rewrite Z.add_simpl_l, seqZ_cons by lia.
  rewrite filter_cons_True by done. by rewrite seqZ_nil.
Qed.

(** ** The exact iterator over any lawful scorer *)
Section exact_laws.
Context {E S : Type} `{L : ScorerLaws E S}.
Implicit Types (s : S) (v : list S).

Lemma same_refl s : same s s.
Proof. done. Qed.

Lemma same_trans s1 s2 s3 : same s1 s2 -> same s2 s3 -> same s1 s3.
Proof. unfold same. intros (-> & -> & -> & -> & ->) (-> & -> & -> & -> & ->). done. Qed.

Lemma not_passed_later s t t' : not_passed s t -> t <= t' -> not_passed s t'.
Proof. intros Hp Hle x Hx Hd. apply Hp; [done|lia]. Qed.

Lemma approx_below s x : good s -> x ∈ approx s -> x < NO_MORE_DOCS.
Proof. intros Hg Hx. destruct (approx_range s x Hg Hx). lia. Qed.

Lemma accept_below s x : good s -> x ∈ accept s -> x < NO_MORE_DOCS.
Proof. intros Hg Hx. apply (approx_below s); [done|]. by apply accept_approx. Qed.

Lemma doc_id_range s : good s -> -1 <= doc_id s <= NO_MORE_DOCS.
Proof.
  intros Hg. pose proof no_more_pos. destruct (doc_id_ok s Hg) as [->|[->|H1]]; [lia|lia|].
  pose proof (approx_range s _ Hg H1). lia.
Qed.

Lemma doc_id_positioned s : good s -> 0 <= doc_id s < NO_MORE_DOCS -> doc_id s ∈ approx s.
Proof. intros Hg H. destruct (doc_id_ok s Hg) as [|[]]; [lia|lia|done]. Qed.

Lemma lands_exact_here s :
  good s -> doc_id s = NO_MORE_DOCS \/ doc_id s ∈ accept s /\ confirmed s ->
  lands_exact s (doc_id s) (doc_id s, s).
Proof.
  intros Hg Hd. split; [done|]. split; [done|]. split; [done|]. cbn [fst snd].
  split; [|intros Hne; by destruct Hd as [|[]]]. split; [lia|].
  split; [by destruct Hd as [|[]]; [left|right]|]. intros x Hx Hle. destruct Hd as [Hd|]; [|lia].
  pose proof (accept_below s x Hg Hx). lia.
Qed.

Lemma confirm_loop_ok n k s :
  good s -> doc_id s = NO_MORE_DOCS \/ doc_id s ∈ approx s -> (need s <= n)%nat ->
  (count_from (approx s) (doc_id s) + 1 < k)%nat ->
  wp (confirm_loop k s (doc_id s)) n (lands_exact s (doc_id s)).
Proof.
  revert s. induction k as [|k IH]; intros s Hg Hd Hn Hk; [lia|]. cbn [confirm_loop].
  destruct (Z.eqb_spec (doc_id s) NO_MORE_DOCS) as [He|Hne].
  { wp_ret. apply lands_exact_here; [done|by left]. }
  destruct Hd as [|Hd]; [done|]. wp_bind. wp_use matches_ok; [done..|].
  intros [b s1] (Hg1 & Hs1 & Hd1 & Hb & Hcf). cbn [fst snd] in *. subst b.
  case_bool_decide as Hacc.
  { wp_ret. rewrite <- Hd1. assert (Hacc1 : doc_id s1 ∈ accept s1).
    { destruct Hs1 as (_ & -> & _). by rewrite Hd1. }
    destruct (lands_exact_here s1 Hg1 (or_intror (conj Hacc1 (Hcf eq_refl)))) as (? & _ & ? & Hf & ?).
    split; [done|]. split; [done|]. split; [done|]. split; [by destruct Hs1 as (_ & <- & _)|done]. }
  assert (Hap : approx s1 = approx s) by apply Hs1.
  assert (Hac : accept s1 = accept s) by apply Hs1.
  assert (Hne1 : need s1 = need s) by apply Hs1.
  wp_bind. wp_use next_doc_ok; [done| |lia|].
  { pose proof (approx_below s _ Hg Hd). lia. }
  intros [d s2] (Hg2 & Hs2 & Hd2 & Hf). cbn [fst snd] in *. rewrite Hd1, Hap in Hf.
  assert (Hap2 : approx s2 = approx s) by (destruct Hs2; congruence).
  assert (Hac2 : accept s2 = accept s) by (destruct Hs2 as (? & ? & ?); congruence).
  rewrite <- Hd2 in *.
  wp_use IH; [done|rewrite Hap2; apply Hf|destruct Hs2 as (? & ? & ? & ? & _); lia| |].
  { rewrite Hap2. pose proof (count_from_lt _ _ (doc_id s2) Hd ltac:(destruct Hf; lia)). lia. }
  intros [r s3] (Hg3 & Hs3 & Hd3 & Hf3 & Hc3). cbn [fst snd] in *.
  split; [done|]. split; [exact (same_trans _ _ _ (same_trans _ _ _ Hs1 Hs2) Hs3)|]. split; [done|].
  split; [|done]. rewrite Hac2 in Hf3. apply first_at_step; [done|].
  eapply first_at_skip; [by apply accept_approx|exact Hf|exact Hf3].
Qed.

Lemma confirm_ok n s :
  good s -> doc_id s = NO_MORE_DOCS \/ doc_id s ∈ approx s -> (exact_need s <= n)%nat ->
  wp (confirm s (doc_id s)) n (lands_exact s (doc_id s)).
Proof.
  intros Hg Hd Hn. unfold confirm, exact_need in *. destruct (two_phase s) eqn:E2.
  - unfold cloop. apply (confirm_loop_ok n n s); [done|done|lia|].
    pose proof (count_from_le (approx s) (doc_id s)). lia.
  - wp_ret. apply lands_exact_here; [done|]. destruct Hd as [|Hd]; [by left|right].
    rewrite one_phase by done. split; [done|]. by apply one_phase_confirmed.
Qed.

Lemma exact_need_same s s' : same s s' -> exact_need s' = exact_need s.
Proof. unfold exact_need. by intros (-> & _ & _ & -> & _). Qed.

Lemma confirm_lands n s t r :
  good s -> lands s t r -> (exact_need s <= n)%nat ->
  wp (confirm r.2 r.1) n (lands_exact s t).
Proof.
  intros Hg (Hg1 & Hs1 & Hd1 & Hf) Hn. rewrite <- Hd1 in *.
  wp_use confirm_ok; [done|rewrite (proj1 Hs1); apply Hf|by rewrite (exact_need_same s)|].
  intros [d s2] (Hg2 & Hs2 & Hd2 & Hf2 & Hc2). cbn [fst snd] in *.
  split; [done|]. split; [by eapply same_trans|]. split; [done|]. split; [|done].
  destruct Hs1 as (Ha1 & Hc1 & _). rewrite Hc1 in Hf2.
  eapply first_at_skip; [by apply accept_approx|exact Hf|exact Hf2].
Qed.

Lemma exact_next_ok n s :
  good s -> doc_id s < NO_MORE_DOCS -> (exact_need s <= n)%nat ->
  wp (exact_next s) n (lands_exact s (doc_id s + 1)).
Proof.
  intros Hg Hd Hn. unfold exact_next. wp_bind.
  wp_use next_doc_ok; [done|done|unfold exact_need in Hn; lia|]. intros [d s1] Hl.
  apply (confirm_lands n s _ (d, s1)); done.
Qed.

Lemma exact_advance_ok n s t :
  good s -> doc_id s < t -> t <= NO_MORE_DOCS -> (exact_need s <= n)%nat ->
  wp (exact_advance s t) n (lands_exact s t).
Proof.
  intros Hg Hd Ht Hn. unfold exact_advance. wp_bind.
  wp_use advance_ok; [done|done|done|unfold exact_need in Hn; lia|]. intros [d s1] Hl.
  apply (confirm_lands n s _ (d, s1)); done.
Qed.
End exact_laws.

(** ** The batch of hits *)
Section batch.
Context {E S : Type} `{L : ScorerLaws E S}.
Implicit Types (s : S) (v : list S).

(** The hits of [A] in [[lo, hi)] that are live. *)
Definition hits (live_docs : option FixedBitSet.t) (A : gset Z) (lo hi : Z) : list Z :=
  filter (fun x => live live_docs x) (docs_in A lo hi).

Lemma hits_step live_docs A lo d d' hi :
  lo <= d -> d ∈ A -> d < hi -> first_at A (d + 1) d' ->
  hits live_docs A lo (Z.min d' hi) =
  hits live_docs A lo d ++ (if live live_docs d then [d] else []).
Proof.
  intros H1 H2 H3 (H4 & _ & H5). unfold hits.
  rewrite (docs_in_step A lo d) by lia. rewrite (docs_in_step A d (d + 1)) by lia.
  rewrite (docs_in_none A (d + 1)) by (intros x Hx Hle; specialize (H5 x Hx Hle); lia).
  rewrite docs_in_one, app_nil_r, filter_app by done. f_equal. unfold filter. cbn.
  by destruct (live live_docs d).
Qed.

(** What has been collected when the scorer has reached [doc]. *)
Definition collected (s0 : S) (up_to : Z) (live_docs : option FixedBitSet.t)
    (docs : list Z) (scores : list f32) (s : S) : Prop :=
  good s /\ same s0 s /\ doc_id s0 <= doc_id s /\
  (doc_id s = NO_MORE_DOCS \/ doc_id s ∈ accept s0 /\ confirmed s) /\
  docs = hits live_docs (accept s0) (doc_id s0) (Z.min (doc_id s) up_to) /\
  Forall2 (gives s0) docs scores /\ (length docs <= NEXT_DOCS_BATCH)%nat /\
  forall x, x ∈ accept s0 -> doc_id s0 <= x -> up_to <= x -> doc_id s <= x.

Lemma batch_step n s0 up_to live_docs docs scores s :
  collected s0 up_to live_docs docs scores s -> (exact_need s0 <= n)%nat ->
  doc_id s < up_to -> doc_id s < NO_MORE_DOCS -> (length docs < NEXT_DOCS_BATCH)%nat ->
  wp (if live live_docs (doc_id s)
      then let! (v, s1) := score s in cret (docs ++ [doc_id s], scores ++ [v], s1)
      else cret (docs, scores, s)) n
     (fun r => stays s r.2 /\ Forall2 (gives s0) r.1.1 r.1.2 /\
               (length r.1.1 <= NEXT_DOCS_BATCH)%nat /\
               r.1.1 = docs ++ (if live live_docs (doc_id s) then [doc_id s] else [])).
Proof.
  intros (Hg & Hs & Hle & Hd & Hdocs & Hlen & _ & _) Hn Hu Hm Hb.
  destruct Hd as [Hd|[Hd Hcf]]; [lia|].
  assert (Hd' : doc_id s ∈ accept s) by (by rewrite (proj1 (proj2 Hs))).
  destruct (live live_docs (doc_id s)).
  - wp_bind. wp_use score_ok; [done|done|done|destruct Hs as (_ & _ & _ & -> & _); unfold exact_need in Hn; lia|].
    intros [v s1] [Hst Hv]. wp_ret. cbn [fst snd] in *. rewrite length_app. cbn.
    split; [exact Hst|]. split; [|split; [lia|done]]. apply Forall2_app; [done|]. constructor; [|constructor].
    by rewrite <- (proj2 (proj2 (proj2 (proj2 Hs)))).
  - wp_ret. rewrite app_nil_r. split; [by split_and!|]. split; [done|]. split; [lia|done].
Qed.

Lemma batch_loop_ok n k s0 up_to live_docs docs scores s :
  collected s0 up_to live_docs docs scores s -> (exact_need s0 <= n)%nat ->
  good s0 -> (count_from (accept s0) (doc_id s) < k)%nat -> up_to <= NO_MORE_DOCS ->
  wp (batch_loop k s up_to live_docs docs scores (doc_id s)) n
     (fun r => collected s0 up_to live_docs r.1.1 r.1.2 r.2 /\
               (doc_id r.2 < up_to -> length r.1.1 = NEXT_DOCS_BATCH)).
Proof.
  intros HI Hn Hg0 Hk Hup. revert docs scores s HI Hk.
  induction k as [|k IH]; intros docs scores s HI Hk; [lia|]. cbn [batch_loop].
  destruct (Z.ltb_spec (doc_id s) up_to) as [Hu|]; cbn [andb];
    [|wp_ret; split; [done|]; intros; lia].
  destruct (Nat.ltb_spec (length docs) NEXT_DOCS_BATCH) as [Hb|Hb];
    [|wp_ret; split; [done|]; destruct HI as (_ & _ & _ & _ & _ & _ & ? & _); intros; lia].
  wp_bind. wp_use batch_step; [done|done|done|lia|done|].
  intros [[docs1 scores1] s1] (Hst & Hl1 & Hb1 & Hd1). cbn [fst snd] in *.
  destruct HI as (Hg & Hs & Hle & Hd & Hdocs & _ & _ & _). destruct Hst as (Hg1 & Hs1 & Hp1 & _).
  destruct Hd as [|[Hd _]]; [lia|].
  pose proof (same_trans _ _ _ Hs Hs1) as Hs01.
  wp_bind. wp_use next_doc_ok; [done|lia| |].
  { destruct Hs01 as (_ & _ & _ & -> & _). unfold exact_need in Hn. lia. }
  intros [d2 s2] Hl2. wp_bind. wp_use (confirm_lands n s1 _ (d2, s2)); [done|exact Hl2| |].
  { by rewrite (exact_need_same _ _ Hs01). }
  intros [d3 s3] (Hg3 & Hs3 & Hd3 & Hf3 & Hc3). cbn [fst snd] in *.
  assert (Hacc : accept s1 = accept s0) by apply Hs01. rewrite Hp1, Hacc in Hf3.
  rewrite <- Hd3 in *. apply IH.
  - pose proof (first_at_le _ _ _ Hf3).
    split; [done|]. split; [by eapply same_trans|]. split; [lia|].
    split; [destruct (decide (doc_id s3 = NO_MORE_DOCS)); [by left|right; split; [by destruct Hf3 as (_ & [|] & _)|by apply Hc3]]|].
    split.
    { subst docs1 docs. replace (Z.min (doc_id s) up_to) with (doc_id s) by lia. symmetry. by apply hits_step. }
    split; [done|]. split; [done|]. intros x Hx _ Hup'. destruct Hf3 as (_ & _ & Hf3). apply Hf3; [done|lia].
  - pose proof (count_from_lt (accept s0) (doc_id s) (doc_id s3) Hd).
    pose proof (first_at_le _ _ _ Hf3). lia.
Qed.
(** Positioned on a match (or at the end), the batch is the live matches from
    there on, as many as fit or as there are below [up_to]. *)
Lemma batch_ok n s up_to live_docs :
  good s -> doc_id s = NO_MORE_DOCS \/ doc_id s ∈ accept s /\ confirmed s -> up_to <= NO_MORE_DOCS ->
  (exact_need s <= n)%nat ->
  wp (docs_and_scores_one_by_one s up_to live_docs) n
     (fun r => collected s up_to live_docs r.1.1 r.1.2 r.2 /\
               (doc_id r.2 < up_to -> length r.1.1 = NEXT_DOCS_BATCH)).
Proof.
  intros Hg Hd Hu Hn. unfold docs_and_scores_one_by_one, cloop. apply (batch_loop_ok n n s).
  - split; [done|]. split; [done|]. split; [lia|]. split; [done|]. unfold hits.
    rewrite docs_in_nil by lia. split; [done|]. split; [constructor|]. split; [cbn; lia|]. by intros x _ Hx _.
  - done.
  - done.
  - unfold exact_need in Hn. pose proof (count_from_le (accept s) (doc_id s)).
    pose proof (subseteq_size _ _ (accept_approx s Hg)). lia.
  - done.
Qed.
End batch.

(** ** [Below] is a scorer of the documents under its end *)
Section below_laws.
Context {E S : Type} `{L : ScorerLaws E S}.
Implicit Types (b : Below S) (i : S).

Definition under (end_ : Z) (A : gset Z) : gset Z := filter (fun x => x < end_) A.

#[export] Instance below_view : ScorerView (Below S) := {
  good b := good (below_inner b) /\ below_end b <= NO_MORE_DOCS /\
            (below_done b = false ->
             doc_id (below_inner b) = -1 \/ doc_id (below_inner b) = NO_MORE_DOCS \/
             doc_id (below_inner b) < below_end b);
  approx b := under (below_end b) (approx (below_inner b));
  accept b := under (below_end b) (accept (below_inner b));
  confirmed b := confirmed (below_inner b);
  need b := need (below_inner b);
  gives b := gives (below_inner b);
}.

Lemma under_sub end_ A : under end_ A ⊆ A.
Proof. set_solver. Qed.

Lemma first_at_under end_ A t d :
  end_ <= NO_MORE_DOCS -> d < end_ -> first_at A t d -> first_at (under end_ A) t d.
Proof.
  intros He Hd (H1 & H2 & H3). split; [done|]. split; [|set_solver].
  destruct H2; [lia|right]. by apply elem_of_filter.
Qed.

Lemma first_at_under_end end_ A t d :
  end_ <= d -> t <= NO_MORE_DOCS -> first_at A t d -> first_at (under end_ A) t NO_MORE_DOCS.
Proof.
  intros He Ht (H1 & H2 & H3). split; [done|]. split; [by left|].
  intros x [Hx1 Hx2]%elem_of_filter Hx3. specialize (H3 x Hx2 Hx3). lia.
Qed.

Lemma below_same b i done : same (below_inner b) i -> same b (mk_Below i (below_end b) done).
Proof. unfold same. cbn. by intros (-> & -> & -> & -> & ->). Qed.

Lemma clip_lands b t d i :
  good b -> t <= NO_MORE_DOCS -> below_done b = false -> lands (below_inner b) t (d, i) ->
  lands b t (clip (mk_Below i (below_end b) (below_done b)) d).
Proof.
  intros (Hg & He & _) Ht Hdone (Hg1 & Hs1 & Hd1 & Hf). cbn [fst snd] in *. unfold clip. cbn.
  destruct (Z.leb_spec (below_end b) d) as [Hle|Hlt].
  - split; [by split_and!|]. split; [by apply below_same|]. split; [done|].
    by eapply first_at_under_end.
  - split; [split_and!; [done|done|]; intros _; cbn; rewrite Hd1; lia|].
    split; [by apply below_same|]. cbn [fst snd]. cbn. rewrite Hdone. split; [done|].
    by apply first_at_under.
Qed.

Lemma below_with_ok {A} b (f : S -> comp E (A * S)) n (Q : A * S -> Prop) :
  good b -> wp (f (below_inner b)) n Q -> (forall r, Q r -> holds (below_inner b) r) ->
  wp (below_with b f) n (fun r => holds b r /\ exists i, Q (r.1, i)).
Proof.
  intros (Hg & He & Hd) H HQ. unfold below_with. wp_bind. wp_use H.
  intros [a i] Hr. destruct (HQ _ Hr) as (Hg1 & Hs1 & Hd1 & Hc1). wp_ret. cbn [fst snd] in *.
  split; [|by exists i]. split_and!.
  - cbn. split_and!; [done|done|]. by rewrite Hd1.
  - by apply below_same.
  - cbn. by rewrite Hd1.
  - done.
Qed.

#[export] Instance below_laws : ScorerLaws E (Below S).
Proof.
  split.
  - intros b (Hg & _). cbn. unfold under. intros x. rewrite !elem_of_filter.
    intros []; split; [done|]. by apply accept_approx.
  - intros b d (Hg & _). cbn. unfold under. rewrite elem_of_filter. intros []. by apply (approx_range (below_inner b)).
  - intros b (Hg & He & Hd). cbn. destruct (below_done b); [by right; left|].
    destruct (doc_id_ok _ Hg) as [?|[?|Ha]]; [by left|by right; left|].
    destruct (Hd eq_refl) as [?|[?|Hlt]]; [by left|by right; left|]. right; right.
    by apply elem_of_filter.
  - intros b (Hg & _). cbn. intros H. by rewrite one_phase.
  - intros n b HG Hd Hn. cbn in Hd, Hn |- *. unfold below_next_doc. destruct (below_done b) eqn:Ed; [lia|].
    wp_bind. wp_use next_doc_ok; [apply HG|done|done|]. intros [d i] Hl. wp_ret.
    assert (Ht : doc_id (below_inner b) + 1 <= NO_MORE_DOCS) by lia.
    pose proof (clip_lands b _ d i HG Ht Ed Hl) as H. by rewrite Ed in H.
  - intros n b t HG Hd Ht Hn. cbn in Hd, Hn |- *. unfold below_advance.
    destruct (below_done b) eqn:Ed; cbn [orb]; [lia|].
    destruct (Z.leb_spec (below_end b) t) as [Hle|Hlt].
    + wp_ret. destruct HG as (Hg & He & _). split; [by split_and!|].
      split; [by apply below_same|]. split; [done|]. cbn. split; [done|]. split; [by left|].
      intros x [Hx _]%elem_of_filter. lia.
    + wp_bind. wp_use advance_ok; [apply HG|done|done|done|]. intros [d i] Hl. wp_ret.
      pose proof (clip_lands b t d i HG Ht Ed Hl) as H. by rewrite Ed in H.
  - intros n b HG Hd Hn. cbn in Hd, Hn |- *. pose proof HG as (Hg & _).
    apply elem_of_filter in Hd as [Hlt Hd]. destruct (below_done b) eqn:Ed.
    { pose proof (approx_below _ _ Hg Hd). lia. }
    unfold below_with. wp_bind. wp_use matches_ok; [done|done|done|].
    intros [a i] (Hg1 & Hs1 & Hd1 & Ha & Hc1). cbn [fst snd] in *. wp_ret. split_and!.
    + cbn. destruct HG as (_ & He & HH). split_and!; [done|done|by rewrite Hd1].
    + by apply below_same.
    + cbn. by rewrite Hd1, Ed.
    + subst a. cbn. rewrite Ed. apply bool_decide_ext. unfold under. rewrite elem_of_filter. tauto.
    + done.
  - intros b HG Ht Hd. cbn in *. apply elem_of_filter in Hd as [_ Hd].
    apply one_phase_confirmed; [apply HG|done|]. destruct (below_done b); [|done].
    pose proof (approx_below _ _ (proj1 HG) Hd). lia.
  - intros n b HG Hd Hc Hn. cbn in Hd, Hn |- *. apply elem_of_filter in Hd as [Hlt Hd].
    destruct (below_done b) eqn:Ed.
    { pose proof (accept_below _ _ (proj1 HG) Hd). lia. }
    wp_use (below_with_ok b score n _ HG); [by apply score_ok; [apply HG|..]|by intros r []|].
    intros r [H1 (i & _ & H2)]. split; [done|]. cbn. by rewrite Ed.
  - intros n b t HG Ht Hn. wp_use (below_with_ok b (fun i => advance_shallow i t) n _ HG); [by apply shallow_ok; [apply HG|..]|done|].
    by intros r [].
  - intros n b t HG Hn. wp_use (below_with_ok b (fun i => max_score i t) n _ HG); [by apply max_score_ok; [apply HG|..]|done|].
    by intros r [].
  - intros b t HG Hd Ht. done.
  - intros b d m HG Hd. cbn. destruct (contains (below_inner b) d) as [x|] eqn:Ec; [|done].
    intros [= <-]. apply contains_ok in Ec as ->; [|apply HG|done]. unfold under.
    apply Bool.eq_iff_eq_true. rewrite andb_true_iff, Z.ltb_lt, !bool_decide_eq_true, elem_of_filter. tauto.
Qed.
End below_laws.

(** ** Vectors of scorers: the children of a compound scorer *)

(** The [double] sum of scores, as a [float]. *)
Definition add_score (sum : f64) (x : f32) : f64 := f64_add sum (f64_of_f32 x).
Definition sum_of (xs : list f32) : f32 := f32_of_f64 (fold_left add_score xs (f64_of_Z 0)).

(** [x] is a score the [i]-th child may answer on [d]. *)
Definition gives_at (gs : list (Z -> f32 -> Prop)) (d : Z) (i : nat) (x : f32) : Prop := exists g, gs !! i = Some g /\ g d x.

(** The positions a property holds at, with what is there. *)
Lemma filter_positions {A} (P : A -> bool) (l : list A) :
  Forall2 (fun i a => l !! i = Some a) (List.filter (fun i => ask l i P false) (seq 0 (length l))) (List.filter P l).
Proof.
  induction l as [|a l IH] using rev_ind; [constructor|]. rewrite length_app, Nat.add_1_r, seq_S, !List.filter_app. cbn.
  apply Forall2_app.
  - rewrite (filter_ext_in _ (fun i => ask l i P false)).
    + eapply Forall2_impl; [exact IH|]. intros i x Hx. by apply lookup_app_l_Some.
    + intros i Hi%in_seq. unfold ask. by rewrite lookup_app_l by lia.
  - unfold ask. rewrite lookup_app_r, Nat.sub_diag by lia. cbn. destruct (P a); [|constructor]. constructor; [|constructor].
    by rewrite lookup_app_r, Nat.sub_diag by lia.
Qed.

Lemma filter_all {A} (P : A -> Prop) `{forall x, Decision (P x)} l : Forall P l -> filter P l = l.
Proof. induction 1 as [|x l Hx Hl IH]; [done|]. by rewrite filter_cons_True, IH. Qed.

Lemma filter_decided {A} (Q : A -> Prop) `{forall x, Decision (Q x)} (l : list A) :
  List.filter (fun x => bool_decide (Q x)) l = filter Q l.
Proof. induction l as [|x l IH]; [done|]. cbn [List.filter]. rewrite filter_cons, IH. by repeat case_decide || case_bool_decide. Qed.

Lemma filter_perm {A} (P : A -> bool) (l l' : list A) : l ≡ₚ l' -> List.filter P l ≡ₚ List.filter P l'.
Proof.
  induction 1 as [|x l l' _ IH|x y l|]; cbn; [done| | |by etransitivity].
  - destruct (P x); [by constructor|done].
  - destruct (P x), (P y); [constructor|done..].
Qed.

Lemma gives_at_lookup {S} `{ScorerView S} (l : list S) d is_ ss xs :
  Forall2 (fun i s => l !! i = Some s) is_ ss -> Forall2 (gives_at (map gives l) d) is_ xs ->
  Forall2 (fun s x => gives s d x) ss xs.
Proof.
  intros H1. revert xs. induction H1 as [|i s is_ ss Hi H1 IH]; intros xs H2; inversion H2; subst; constructor; [|auto].
  destruct H4 as (g & Hg & Hx). change (map gives l) with (gives <$> l) in Hg. rewrite list_lookup_fmap, Hi in Hg.
  by injection Hg as <-.
Qed.

Section scorer_vectors.
Context {E S : Type} `{Sc : Scorer E S} `{V : ScorerView S}.
Implicit Types (s : S) (v : list S).

Definition all_same (v0 v : list S) : Prop := Forall2 same v0 v.
Definition total_need (v : list S) : nat := sum_list_with need v.

Lemma all_same_refl v : all_same v v.
Proof. by apply Forall_Forall2_diag, Forall_true. Qed.

Lemma all_same_insert v0 v i s s' :
  all_same v0 v -> v !! i = Some s -> same s s' -> all_same v0 (<[i := s']> v).
Proof.
  intros H Hi (Ha & Hc & Ht & Hn & Hv).
  assert (Hl : length v0 = length v) by (eapply Forall2_length; exact H).
  destruct (lookup_lt v0 i) as [s0 Hs0]; [rewrite Hl; by eapply lookup_lt_Some|].
  rewrite <- (list_insert_id v0 i s0) by done. apply Forall2_insert; [done|].
  eapply Forall2_lookup_lr in H as (A1 & A2 & A3 & A4 & A5); [|done|done]. unfold same. split_and!; congruence.
Qed.

Lemma all_same_trans v0 v1 v2 : all_same v0 v1 -> all_same v1 v2 -> all_same v0 v2.
Proof.
  intros H1. revert v2. induction H1 as [|x y l k Hxy H IH]; intros v2 H2; inversion H2; subst; [constructor|].
  constructor; [|by apply IH]. unfold same in *. split_and!; intuition congruence.
Qed.

Lemma all_same_map {B} (f : S -> B) v0 v :
  (forall s s', same s s' -> f s' = f s) -> all_same v0 v -> map f v = map f v0.
Proof. intros Hf. induction 1 as [|x y l k Hxy H IH]; cbn; [done|]. f_equal; auto. Qed.

Lemma all_same_approx v0 v : all_same v0 v -> map approx v = map approx v0.
Proof. apply all_same_map. by intros s s' (-> & _). Qed.
Lemma all_same_accept v0 v : all_same v0 v -> map accept v = map accept v0.
Proof. apply all_same_map. by intros s s' (_ & -> & _). Qed.
Lemma all_same_two v0 v : all_same v0 v -> map two_phase v = map two_phase v0.
Proof. apply all_same_map. by intros s s' (_ & _ & -> & _). Qed.
Lemma all_same_gives v0 v : all_same v0 v -> map gives v = map gives v0.
Proof. apply all_same_map. by intros s s' (_ & _ & _ & _ & ->). Qed.

Lemma all_same_need v0 v : all_same v0 v -> total_need v = total_need v0.
Proof.
  unfold total_need. induction 1 as [|x y l k (_ & _ & _ & Hn & _) H IH]; cbn; [done|]. by rewrite Hn, IH.
Qed.

Lemma all_same_lookup v0 v i s : all_same v0 v -> v !! i = Some s -> exists s0, v0 !! i = Some s0 /\ same s0 s.
Proof.
  intros H Hi. eapply Forall2_lookup_r in H as (s0 & H1 & H2); [|done]. eauto.
Qed.

Lemma all_same_length v0 v : all_same v0 v -> length v0 = length v.
Proof. apply Forall2_length. Qed.

Lemma need_le v i s : v !! i = Some s -> (need s <= total_need v)%nat.
Proof.
  revert i. induction v as [|x v IH]; intros [|i]; cbn; [done|done| |].
  - intros [= ->]. lia.
  - intros Hi. specialize (IH i Hi). unfold total_need in IH. lia.
Qed.

(** The same scorers at the same positions, and what was confirmed still is. *)
Definition placed (v0 v : list S) : Prop :=
  Forall good v /\ all_same v0 v /\ map doc_id v = map doc_id v0.
Definition still (v0 v : list S) : Prop :=
  placed v0 v /\ Forall2 (fun s0 s => confirmed s0 -> confirmed s) v0 v.

Lemma placed_refl v : Forall good v -> placed v v.
Proof. intros H. split; [done|]. split; [apply all_same_refl|done]. Qed.

Lemma still_refl v : Forall good v -> still v v.
Proof. intros H. split; [by apply placed_refl|]. by apply Forall_Forall2_diag, Forall_true. Qed.

Lemma placed_lookup v0 v i s : placed v0 v -> v !! i = Some s ->
  good s /\ exists s0, v0 !! i = Some s0 /\ same s0 s /\ doc_id s = doc_id s0.
Proof.
  intros (Hg & Hs & Hd) Hi. rewrite Forall_lookup in Hg. split; [eauto|].
  destruct (all_same_lookup _ _ _ _ Hs Hi) as (s0 & H0 & Hss). exists s0. split_and!; [done|done|].
  assert (H : map doc_id v !! i = map doc_id v0 !! i) by (by rewrite Hd).
  rewrite !list_lookup_fmap, Hi, H0 in H. by injection H.
Qed.

Lemma placed_lookup_fw v0 v i s0 : placed v0 v -> v0 !! i = Some s0 ->
  exists s, v !! i = Some s /\ good s /\ same s0 s /\ doc_id s = doc_id s0.
Proof.
  intros Hp Hi. destruct (lookup_lt v i) as [s Hs].
  { destruct Hp as (_ & Hs & _). rewrite <- (all_same_length _ _ Hs). by eapply lookup_lt_Some. }
  destruct (placed_lookup _ _ _ _ Hp Hs) as (Hg & s1 & H1 & H2 & H3).
  rewrite Hi in H1. injection H1 as <-. eauto.
Qed.

Lemma placed_insert v0 v i s s' :
  placed v0 v -> v !! i = Some s -> good s' -> same s s' -> doc_id s' = doc_id s ->
  placed v0 (<[i := s']> v).
Proof.
  intros (Hg & Hs & Hd) Hi Hg' Hs' Hd'. split; [by apply Forall_insert|].
  split; [by eapply all_same_insert|]. rewrite <- Hd. apply list_eq. intros j.
  rewrite !list_lookup_fmap. destruct (decide (i = j)) as [->|Hne].
  - rewrite list_lookup_insert_eq by (by eapply lookup_lt_Some). rewrite Hi. cbn. by rewrite Hd'.
  - by rewrite list_lookup_insert_ne.
Qed.

Lemma still_confirmed v0 v i s0 s :
  still v0 v -> v0 !! i = Some s0 -> v !! i = Some s -> confirmed s0 -> confirmed s.
Proof. intros [_ H] H0 Hi. eapply Forall2_lookup_lr in H; [|done|done]. done. Qed.

Lemma still_insert v0 v i s s' :
  still v0 v -> v !! i = Some s -> stays s s' -> still v0 (<[i := s']> v).
Proof.
  intros Hst Hi (Hg' & Hs' & Hd' & Hc'). pose proof Hst as [Hp Hc].
  destruct (placed_lookup _ _ _ _ Hp Hi) as (_ & s0 & H0 & _).
  split; [by eapply placed_insert|]. rewrite <- (list_insert_id v0 i s0) by done.
  apply Forall2_insert; [done|]. intros H. by eapply Hc', still_confirmed.
Qed.

(** A scorer not yet positioned. *)
Definition fresh (s : S) : Prop := good s /\ doc_id s = -1.

(** The scores of the clauses that match [d], in some order. *)
Definition scores_of (l : list S) (d : Z) (xs : list f32) : Prop :=
  exists l', l' ≡ₚ filter (fun s => d ∈ accept s) l /\ Forall2 (fun s x => gives s d x) l' xs.
End scorer_vectors.
