(* ===== verification/Collector.v ===== *)
(** * Collectors ([lucene-search/src/collector.rs])

    The trait [ScoringCollector] with its defaults and the contract its bulk
    methods owe the document-at-a-time one ([CollectorLaws]), the ranking
    order of hits, their encoding in one [i64] ([doc_score_encoder]) and the
    bar leaves share ([MaxScoreAccumulator]).  A method returns [None] where
    the code would panic.  Proved: the encoding is lossless and its integer
    order is the ranking order; the shared bar never lets a leaf skip a hit
    that could enter the results.  [LeafCollector] moves a collector into a
    segment's documents. *)
From Stdlib Require Import Sorting.Sorted.
From S2P Require Export Scorer Float32.

Definition u64_max : Z := 2 ^ 64 - 1.

Module ScoreMode.
Inductive t := Complete | CompleteNoScores | TopScores | TopDocs | TopDocsWithScores.
Definition needs_scores (m : t) : bool :=
  match m with Complete | TopScores | TopDocsWithScores => true | _ => false end.
Definition is_exhaustive (m : t) : bool :=
  match m with Complete | CompleteNoScores => true | _ => false end.
End ScoreMode.

Inductive TotalHitsRelation := EqualTo | GreaterThanOrEqualTo.

(** ** [pub trait ScoringCollector] *)
Class ScoringCollector (C : Type) := {
  collect : C -> Z -> f32 -> option C;
  min_competitive : C -> option (option f32);
  score_mode : C -> ScoreMode.t;
  pruning_threshold : C -> option (option f32);
  constant_score_hits_needed : C -> option Z;
  count_losing_hits : C -> Z -> f32 -> option (bool * C);
  add_hits : C -> Z -> bool * C;
  collect_many : C -> list Z -> list f32 -> Z -> option (nat * C);
  collect_range : C -> Z -> Z -> f32 -> option C;
}.
#[global] Hint Mode ScoringCollector ! : typeclass_instances.

(** [collect] for each hit in turn. *)
Fixpoint each {C} (f : C -> Z -> f32 -> option C) (c : C) (l : list (Z * f32)) : option C :=
  match l with
  | [] => Some c
  | (d, s) :: l => c ← f c d s; each f c l
  end.

(** The trait's provided methods. *)
Module CollectorDefaults.
Definition pruning_threshold {C} (mode : C -> ScoreMode.t) (min : C -> option (option f32)) (c : C)
  : option (option f32) :=
  if ScoreMode.is_exhaustive (mode c) then Some None else min c.
Definition count_losing_hits {C} (c : C) (n : Z) (score : f32) : option (bool * C) := Some (false, c).
Definition add_hits {C} (c : C) (n : Z) : bool * C := (false, c).
Definition collect_range {C} (collect : C -> Z -> f32 -> option C) (c : C) (min max : Z) (score : f32) : option C :=
  each collect c (map (fun doc => (doc, score)) (seqZ min (max - min))).
End CollectorDefaults.

Definition collect_each {C} `{ScoringCollector C} : C -> list (Z * f32) -> option C := each collect.

(** What a collector promises a bulk scorer: nothing panics, and the bulk
    methods are [collect] for each document. *)
Class CollectorLaws (C : Type) {SC : ScoringCollector C} := {
  valid : C -> Prop;
  collect_safe c d s : valid c -> exists c', collect c d s = Some c' /\ valid c';
  collect_many_ok c docs scores base : valid c -> Sorted.StronglySorted Z.lt docs -> length scores = length docs ->
    exists k c', collect_many c docs scores base = Some (k, c') /\ (k <= length docs)%nat /\
      collect_each c (zip (map (Z.add base) (take k docs)) (take k scores)) = Some c';
  add_hits_ok c n c' : valid c -> add_hits c n = (true, c') ->
    forall l, zlen l = n -> collect_each c l = Some c';
  add_hits_same c n m : valid c -> (add_hits c n).1 = (add_hits c m).1;
  add_hits_no c n c' : valid c -> add_hits c n = (false, c') -> c' = c;
  collect_range_ok c lo hi s : valid c -> 0 <= lo -> hi <= NO_MORE_DOCS ->
    collect_range c lo hi s = collect_each c (map (fun d => (d, s)) (seqZ lo (hi - lo)));
}.
#[global] Hint Mode CollectorLaws ! - : typeclass_instances.

(** ** Hits and their order *)
Record ScoreDoc := mk_ScoreDoc { sd_doc : Z; sd_score : f32 }.

(** [Gt] when [a] ranks ahead of [b]. *)
Definition rank_order (a b : ScoreDoc) : comparison :=
  match total_cmp (sd_score a) (sd_score b) with
  | Datatypes.Eq => sd_doc b ?= sd_doc a
  | other => other
  end.

(** A [f32] has one NaN here, the positive one [canonical_score] makes. *)
Definition canonical_score (score : f32) : f32 := score.

(** ** [doc_score_encoder] *)
Definition sortable_float_bits (bits : Z) : Z := Z.lxor bits (Z.land (Z.shiftr bits 31) 0x7fffffff).

Definition encode (doc_id : Z) (score : f32) : Z :=
  let sortable := sortable_float_bits (to_bits (canonical_score score)) in
  Z.lor (Z.shiftl sortable 32) (Z.land (wraps 32 (i32_max - doc_id)) 0xffffffff).

Definition to_score (code : Z) : f32 := from_bits (sortable_float_bits (wraps 32 (Z.shiftr code 32))).
Definition doc_of_code (code : Z) : Z := wraps 32 (i32_max - wraps 32 code).

(** ** [MaxScoreAccumulator]: the one atomic *)
Definition acc_new : Z := - 2 ^ 63.
Definition accumulate (acc : Z) (doc_id : Z) (score : f32) : Z := Z.max acc (encode doc_id score).
Definition threshold_for (acc : Z) (doc_base : Z) : option f32 :=
  if acc =? - 2 ^ 63 then None
  else
    let score := to_score acc in
    Some (if doc_of_code acc <=? doc_base then score else next_down score).

(** ** [LeafCollector] *)
Record LeafCollector (C : Type) := mk_Leaf { leaf_inner : C; leaf_base : Z }.
Arguments mk_Leaf {C} _ _.
Arguments leaf_inner {C} _.
Arguments leaf_base {C} _.

Section leaf.
Context {C : Type} `{SC : ScoringCollector C}.
Definition leaf_put (l : LeafCollector C) (c : C) : LeafCollector C := mk_Leaf c (leaf_base l).

#[export] Instance leaf_collector : ScoringCollector (LeafCollector C) := {
  collect l d s := c ← collect (leaf_inner l) (leaf_base l + d) s; Some (leaf_put l c);
  min_competitive l := min_competitive (leaf_inner l);
  score_mode l := score_mode (leaf_inner l);
  pruning_threshold l := pruning_threshold (leaf_inner l);
  constant_score_hits_needed l := constant_score_hits_needed (leaf_inner l);
  count_losing_hits l n s := '(b, c) ← count_losing_hits (leaf_inner l) n s; Some (b, leaf_put l c);
  add_hits l n := let '(b, c) := add_hits (leaf_inner l) n in (b, leaf_put l c);
  collect_many l docs scores base :=
    '(k, c) ← collect_many (leaf_inner l) docs scores (sat32 (leaf_base l + base)); Some (k, leaf_put l c);
  collect_range l min max s :=
    c ← collect_range (leaf_inner l) (leaf_base l + min) (leaf_base l + max) s; Some (leaf_put l c);
}.
End leaf.

(** ** The order of hits *)
Lemma rank_order_antisym a b : rank_order b a = CompOpp (rank_order a b).
Proof.
  unfold rank_order. rewrite (total_cmp_antisym (sd_score a) (sd_score b)).
  destruct (total_cmp (sd_score a) (sd_score b)); cbn; [|done|done]. apply Z.compare_antisym.
Qed.

Lemma rank_order_eq a b : rank_order a b = Datatypes.Eq <-> a = b.
Proof.
  destruct a as [d s], b as [d' s']. unfold rank_order. cbn.
  destruct (total_cmp s s') eqn:Ec; [|split; [done|intros [= -> ->]]..].
  - apply total_cmp_eq in Ec as ->. rewrite Z.compare_eq_iff. split; [by intros ->|by intros [=]].
  - by rewrite (proj2 (total_cmp_eq s' s') eq_refl) in Ec.
  - by rewrite (proj2 (total_cmp_eq s' s') eq_refl) in Ec.
Qed.

Lemma rank_order_lt_trans a b c :
  rank_order a b = Datatypes.Lt -> rank_order b c = Datatypes.Lt -> rank_order a c = Datatypes.Lt.
Proof.
  unfold rank_order. destruct (total_cmp (sd_score a) (sd_score b)) eqn:E1; [|intros _|done];
    (destruct (total_cmp (sd_score b) (sd_score c)) eqn:E2; [|intros H|done]).
  - apply total_cmp_eq in E1 as ->. rewrite E2, !Z.compare_lt_iff. lia.
  - apply total_cmp_eq in E1 as ->. by rewrite E2.
  - apply total_cmp_eq in E2 as <-. by rewrite E1.
  - by rewrite (total_cmp_lt_trans _ _ _ E1 E2).
Qed.

(** ** The encoding *)
Lemma land_ones_32 z : Z.land z 0xffffffff = z mod 2 ^ 32.
Proof. change 0xffffffff with (Z.ones 32). by rewrite Z.land_ones. Qed.

Lemma lxor_ones c : 0 <= c < 2 ^ 31 -> Z.lxor c (Z.ones 31) = Z.ones 31 - c.
Proof.
  intros H. assert (Hl : Z.land (Z.ones 31) (Z.lnot c) = Z.lxor c (Z.ones 31)).
  { rewrite <- Z.ldiff_land. apply Z.ldiff_ones_l_low; [lia|].
    destruct (decide (c = 0)) as [->|]; [done|]. apply Z.log2_lt_pow2; lia. }
  rewrite <- (Z.sub_2landn_lxor (Z.ones 31) c), Hl, (Z.lxor_comm (Z.ones 31)). lia.
Qed.

Lemma sortable_spec b : in_s 32 b -> sortable_float_bits b = if b <? 0 then - 1 - (b + sign_bit) else b.
Proof.
  intros [Hlo Hhi]. unfold sortable_float_bits, sign_bit. change (2 ^ (32 - 1)) with (2 ^ 31) in *.
  rewrite Z.shiftr_div_pow2 by done. destruct (Z.ltb_spec b 0) as [Hn|Hn].
  - replace (b / 2 ^ 31) with (-1) by (apply (Z.div_unique _ _ _ (b + 2 ^ 31)); lia).
    change (Z.land (-1) 0x7fffffff) with (Z.ones 31).
    replace b with (Z.lnot (- 1 - b)) at 1 by (unfold Z.lnot; lia).
    rewrite <- Z.lnot_lxor_l, lxor_ones by lia. unfold Z.lnot. change (Z.ones 31) with (2 ^ 31 - 1). lia.
  - rewrite Z.div_small by lia. by rewrite Z.lxor_0_r.
Qed.

Lemma sortable_bits f : is_f32 f ->
  sortable_float_bits (to_bits f) = if negative f then - 1 - magnitude f else magnitude f.
Proof.
  intros Hf. rewrite sortable_spec by (by apply to_bits_in_s). pose proof (magnitude_range f Hf) as Hm.
  unfold to_bits, sign_bit in *. destruct (negative f).
  - destruct (Z.ltb_spec (magnitude f - 2 ^ 31) 0); lia.
  - destruct (Z.ltb_spec (magnitude f) 0); lia.
Qed.

Lemma sortable_range b : in_s 32 b -> in_s 32 (sortable_float_bits b).
Proof.
  intros Hb. rewrite sortable_spec by done. unfold in_s, sign_bit in *. change (2 ^ (32 - 1)) with (2 ^ 31) in *.
  destruct (Z.ltb_spec b 0); lia.
Qed.

Lemma sortable_involutive b : in_s 32 b -> sortable_float_bits (sortable_float_bits b) = b.
Proof.
  intros Hb. rewrite (sortable_spec (sortable_float_bits b)) by (by apply sortable_range).
  rewrite !(sortable_spec b) by done. unfold in_s, sign_bit in *. change (2 ^ (32 - 1)) with (2 ^ 31) in *.
  destruct (Z.ltb_spec b 0); [destruct (Z.ltb_spec (- 1 - (b + 2 ^ 31)) 0)|destruct (Z.ltb_spec b 0)]; lia.
Qed.

(** The sortable bits are ordered as the scores. *)
Lemma sortable_compare f g : is_f32 f -> is_f32 g ->
  (sortable_float_bits (to_bits f) ?= sortable_float_bits (to_bits g)) = total_cmp f g.
Proof.
  intros Hf Hg. rewrite !sortable_bits, total_cmp_key by done.
  pose proof (magnitude_range f Hf) as Hmf. pose proof (magnitude_range g Hg) as Hmg. unfold sign_bit in *.
  destruct f as [[]|[]| |[] m e], g as [[]|[]| |[] m' e'];
    cbn [negative magnitude rank_key is_f32] in *; try done;
    try (change (lex3 _ _) with Datatypes.Lt; apply Z.compare_lt_iff; lia);
    try (change (lex3 _ _) with Datatypes.Gt; apply Z.compare_gt_iff; lia).
  - rewrite <- Z.add_opp_r, <- (Z.add_opp_r (-1) ((e' + 149) * _ + _)), Z.add_compare_mono_l, Z.compare_opp.
    rewrite (magnitude_compare m' e' m e) by done. unfold lex3. cbn.
    rewrite (Z.compare_opp e), (Z.compare_opp (Zpos m)). by destruct (e' ?= e).
  - by apply magnitude_compare.
Qed.

Lemma encode_sum d s : is_f32 s -> in_s 32 d ->
  encode d s = sortable_float_bits (to_bits s) * 2 ^ 32 + (i32_max - d).
Proof.
  intros Hs [Hlo Hhi]. unfold encode, canonical_score. rewrite land_ones_32.
  change (2 ^ (32 - 1)) with (2 ^ 31) in *. unfold i32_max.
  assert (Hw : wraps 32 (2 ^ 31 - 1 - d) mod 2 ^ 32 = 2 ^ 31 - 1 - d).
  { change (wrapu 32 (wraps 32 (2 ^ 31 - 1 - d)) = 2 ^ 31 - 1 - d). rewrite wrapu_wraps by done.
    apply wrapu_id. unfold in_u. lia. }
  rewrite Hw, <- Z.shiftl_mul_pow2 by done. apply lor_disjoint_add.
  apply Z.bits_inj'. intros i Hi. rewrite Z.land_spec, Z.bits_0. destruct (Z.ltb_spec i 32).
  - by rewrite Z.shiftl_spec_low.
  - rewrite (testbit_above 32 (2 ^ 31 - 1 - d)) by (lia || (unfold in_u; lia)). by rewrite andb_false_r.
Qed.

Lemma digits_compare a r a' r' :
  0 <= r < 2 ^ 32 -> 0 <= r' < 2 ^ 32 ->
  (a * 2 ^ 32 + r ?= a' * 2 ^ 32 + r') = match a ?= a' with Datatypes.Eq => r ?= r' | c => c end.
Proof.
  intros Hr Hr'. destruct (Z.compare_spec a a') as [->|Hlt|Hgt].
  - by rewrite Z.add_compare_mono_l.
  - apply Z.compare_lt_iff. lia.
  - apply Z.compare_gt_iff. lia.
Qed.

Lemma encode_compare d s d' s' : is_f32 s -> is_f32 s' -> in_s 32 d -> in_s 32 d' ->
  (encode d s ?= encode d' s') = rank_order (mk_ScoreDoc d s) (mk_ScoreDoc d' s').
Proof.
  intros Hs Hs' Hd Hd'. rewrite !encode_sum by done. pose proof Hd as [H1 H2]. pose proof Hd' as [H3 H4].
  change (2 ^ (32 - 1)) with (2 ^ 31) in *. rewrite digits_compare by (unfold i32_max; lia).
  rewrite sortable_compare by done. unfold rank_order. cbn. destruct (total_cmp s s'); [|done|done].
  rewrite <- (Z.add_opp_r _ d), <- (Z.add_opp_r _ d'), Z.add_compare_mono_l. apply Z.compare_opp.
Qed.

Lemma encode_high d s : is_f32 s -> in_s 32 d ->
  Z.shiftr (encode d s) 32 = sortable_float_bits (to_bits s) /\ wraps 32 (encode d s) = wraps 32 (i32_max - d).
Proof.
  intros Hs Hd. rewrite encode_sum by done. pose proof Hd as [H1 H2]. change (2 ^ (32 - 1)) with (2 ^ 31) in *. split.
  - rewrite Z.shiftr_div_pow2 by done. symmetry. apply (Z.div_unique _ _ _ (i32_max - d)); unfold i32_max; lia.
  - unfold wraps. f_equal. rewrite <- Z.add_assoc, Z.add_comm. apply Z.mod_add. done.
Qed.

Lemma to_score_encode d s : is_f32 s -> in_s 32 d -> to_score (encode d s) = s.
Proof.
  intros Hs Hd. unfold to_score. destruct (encode_high d s Hs Hd) as [-> _].
  pose proof (to_bits_in_s s Hs) as Hb. rewrite wraps_id by (done || by apply sortable_range).
  by rewrite sortable_involutive, from_to_bits.
Qed.

Lemma doc_of_encode d s : is_f32 s -> in_s 32 d -> doc_of_code (encode d s) = d.
Proof.
  intros Hs Hd. unfold doc_of_code. destruct (encode_high d s Hs Hd) as [_ ->].
  transitivity (wraps 32 d); [|by apply wraps_id]. unfold wraps at 1 3. unfold wraps. f_equal.
  replace (i32_max - ((i32_max - d + 2 ^ (32 - 1)) mod 2 ^ 32 - 2 ^ (32 - 1)) + 2 ^ (32 - 1))
    with (i32_max + 2 ^ 32 - (i32_max - d + 2 ^ (32 - 1)) mod 2 ^ 32) by (change (2 ^ (32 - 1)) with (2 ^ 31); lia).
  rewrite Zminus_mod_idemp_r. f_equal. change (2 ^ (32 - 1)) with (2 ^ 31). lia.
Qed.

Lemma code_range d s : is_f32 s -> in_s 32 d -> - 2 ^ 63 < encode d s < 2 ^ 63.
Proof.
  intros Hs Hd. rewrite encode_sum, sortable_bits by done. pose proof Hd as [H1 H2]. change (2 ^ (32 - 1)) with (2 ^ 31) in *.
  assert (Hm : 0 <= magnitude s <= 255 * 2 ^ 23 + 2 ^ 22) by (destruct s as [[]|[]| |[] m e]; cbn in *; lia).
  unfold i32_max. destruct (negative s); lia.
Qed.

(** [DocScoreEncoder] packs a hit into an [i64] without loss, and the
    integer order of the codes is the ranking order: higher score first, and
    the lower document on a tie. *)
Lemma encoding_is_the_ranking (d d' : Z) (s s' : f32)
    (Hs : is_f32 s) (Hs' : is_f32 s') (Hd : in_s 32 d) (Hd' : in_s 32 d') :
  in_s 64 (encode d s) /\ to_score (encode d s) = s /\ doc_of_code (encode d s) = d /\
  (encode d s ?= encode d' s') = rank_order (mk_ScoreDoc d s) (mk_ScoreDoc d' s').
Proof.
  split; [|by split_and!; [apply to_score_encode|apply doc_of_encode|apply encode_compare]].
  pose proof (code_range d s Hs Hd). unfold in_s. change (2 ^ (64 - 1)) with (2 ^ 63). lia.
Qed.

Lemma encoding_is_the_ranking_witness :
  let s := f32_div (f32_of_Z 1) (f32_of_Z 3) in
  to_score (encode 7 s) = s /\ (encode 7 s ?= encode 9 s) = Datatypes.Gt.
Proof.
  intros s. assert (Hs : is_f32 s) by (by apply is_f32_check; vm_compute).
  destruct (encoding_is_the_ranking 7 9 s s Hs Hs) as (_ & H1 & _ & H2); [by unfold in_s; lia|by unfold in_s; lia|].
  split; [exact H1|]. rewrite H2. by vm_compute.
Defined.

(** ** The shared bar *)
Lemma next_down_below f : is_f32 f -> plain f = true -> f <> S754_infinity true ->
  is_f32 (next_down f) /\ plain (next_down f) = true /\ total_cmp (next_down f) f = Datatypes.Lt.
Proof.
  intros Hf Hp Hi.
  assert (Hgo : forall (s : bool) mag, 0 <= mag <= 255 * 2 ^ 23 -> (s = true -> mag <> 0) ->
    next_down f = from_bits (if s then mag - sign_bit else mag) ->
    (if s then - 1 - mag else mag) < (if negative f then - 1 - magnitude f else magnitude f) ->
    is_f32 (next_down f) /\ plain (next_down f) = true /\ total_cmp (next_down f) f = Datatypes.Lt).
  { intros s mag Hm Hn He Hlt. destruct (to_from_magnitude s mag Hm) as (H1 & H2 & H3 & H4).
    rewrite He. split; [done|]. split.
    - rewrite H4. destruct s; [|done]. cbn. destruct (Z.eqb_spec mag 0); [by destruct (Hn eq_refl)|done].
    - rewrite <- sortable_compare by done. apply Z.compare_lt_iff. rewrite !sortable_bits by done. by rewrite H2, H3. }
  destruct f as [[]|[]| |[] m e]; try done.
  - by apply (Hgo true 1).
  - by apply (Hgo false (255 * 2 ^ 23 - 1)).
  - pose proof (magnitude_range _ Hf) as Hm. unfold sign_bit in Hm. cbn in Hf, Hm.
    apply (Hgo true ((e + 149) * 2 ^ 23 + Zpos m + 1)); [lia|lia| |cbn; lia].
    unfold next_down, to_bits. cbn [negative magnitude]. f_equal. lia.
  - cbn in Hf. apply (Hgo false ((e + 149) * 2 ^ 23 + Zpos m - 1)); [lia|done|done|cbn; lia].
Qed.

Definition accumulated (hits : list ScoreDoc) : Z :=
  fold_left (fun acc h => accumulate acc (sd_doc h) (sd_score h)) hits acc_new.

Definition a_hit (h : ScoreDoc) : Prop :=
  is_f32 (sd_score h) /\ plain (sd_score h) = true /\ sd_score h <> S754_infinity true /\ in_s 32 (sd_doc h).

Lemma accumulated_best hits : Forall a_hit hits ->
  (hits = [] /\ accumulated hits = acc_new) \/
  exists h, h ∈ hits /\ accumulated hits = encode (sd_doc h) (sd_score h).
Proof.
  induction hits as [|h hits IH] using rev_ind; [by left|]. intros [Hh H1]%Forall_app. right.
  unfold accumulated. rewrite fold_left_app. cbn. fold (accumulated hits). unfold accumulate.
  rewrite Forall_singleton in H1. destruct H1 as (Hf & _ & _ & Hd). pose proof (code_range _ _ Hf Hd).
  destruct (IH Hh) as [[-> ->]|(b & Hb & ->)].
  - exists h. split; [by left|]. unfold acc_new. lia.
  - destruct (Z.max_spec (encode (sd_doc b) (sd_score b)) (encode (sd_doc h) (sd_score h))) as [[_ ->]|[_ ->]].
    + exists h. split; [set_solver|done].
    + exists b. split; [set_solver|done].
Qed.

(** The bar the leaves share is safe: for hits accumulated by any leaves,
    a document of the leaf that starts at [doc_base], scoring at most the
    published threshold, is outranked by (or is) a hit already accumulated;
    there is no threshold before the first hit. *)
Lemma shared_bar_is_safe (hits : list ScoreDoc) (doc_base : Z) (h : ScoreDoc)
    (Hhits : Forall a_hit hits) (Hh : a_hit h) (Hbase : doc_base <= sd_doc h) :
  match threshold_for (accumulated hits) doc_base with
  | None => hits = []
  | Some t => SFleb (sd_score h) t = true -> exists b, b ∈ hits /\ rank_order b h <> Datatypes.Lt
  end.
Proof.
  destruct (accumulated_best hits Hhits) as [[-> ->]|(b & Hb & He)]; [done|]. rewrite He.
  rewrite Forall_forall in Hhits. destruct (Hhits b Hb) as (Hf & Hp & Hi & Hd). destruct Hh as (Hf' & Hp' & Hi' & Hd').
  unfold threshold_for. pose proof (code_range _ _ Hf Hd). destruct (Z.eqb_spec (encode (sd_doc b) (sd_score b)) (- 2 ^ 63)); [lia|].
  rewrite to_score_encode, doc_of_encode by done. destruct (next_down_below _ Hf Hp Hi) as (_ & Hpn & Hlt).
  destruct (Z.leb_spec (sd_doc b) doc_base) as [Hle|Hgt].
  - unfold SFleb. rewrite plain_compare by done. intros Hs. exists b. split; [done|]. unfold rank_order.
    rewrite (total_cmp_antisym (sd_score h)). destruct (total_cmp (sd_score h) (sd_score b)); [|done|done].
    cbn. rewrite Z.compare_lt_iff. lia.
  - unfold SFleb. rewrite plain_compare by done. intros Hs. exists b. split; [done|]. unfold rank_order.
    rewrite (total_cmp_antisym (sd_score h)).
    assert (Hhb : total_cmp (sd_score h) (sd_score b) = Datatypes.Lt).
    { destruct (total_cmp (sd_score h) (next_down (sd_score b))) eqn:Ec; [|by eapply total_cmp_lt_trans|done].
      apply total_cmp_eq in Ec. by rewrite Ec. }
    by rewrite Hhb.
Qed.

Lemma shared_bar_is_safe_witness :
  let b := mk_ScoreDoc 40 (f32_of_Z 2) in let h := mk_ScoreDoc 12 (f32_of_Z 1) in
  threshold_for (accumulated [b]) 10 = Some (next_down (f32_of_Z 2)) /\ exists b', b' ∈ [b] /\ rank_order b' h <> Datatypes.Lt.
Proof.
  intros b h.
  assert (Hb : a_hit b) by (split_and!; [by apply is_f32_check; vm_compute|by vm_compute|by vm_compute|unfold in_s; cbn; lia]).
  assert (Hh : a_hit h) by (split_and!; [by apply is_f32_check; vm_compute|by vm_compute|by vm_compute|unfold in_s; cbn; lia]).
  assert (Ht : threshold_for (accumulated [b]) 10 = Some (next_down (f32_of_Z 2))) by (by vm_compute).
  split; [exact Ht|].
  assert (Hl : Forall a_hit [b]) by (by repeat constructor).
  assert (Hd : 10 <= sd_doc h) by (unfold h; simpl; lia).
  pose proof (shared_bar_is_safe [b] 10 h Hl Hh Hd) as H. rewrite Ht in H. apply H. by vm_compute.
Defined.
