(* ===== verification/Leaf.v ===== *)
(** * Leaf scorers and single-child wrappers ([lucene-search/src/exec/leaf.rs])

    [AllDocs], [DocList], [ConstantScorer] and [ZeroScorer], with the
    documents each stands for.  [TermScorer] reads postings through
    [bulk_scorer.rs] and is not modelled. *)
From Stdlib Require Import Sorting.Sorted.
From S2P Require Export Scorer.

(** ** [AllDocs]: every document in [[0, max_doc)] *)
Record AllDocs := mk_AllDocs { all_doc : Z; all_max_doc : Z }.

Section all_docs.
Context {E : Type}.
Definition all_new (max_doc : Z) : AllDocs := mk_AllDocs (-1) max_doc.

Definition all_advance (s : AllDocs) (target : Z) : comp E (Z * AllDocs) :=
  let doc := if all_max_doc s <=? target then NO_MORE_DOCS else target in
  cret (doc, mk_AllDocs doc (all_max_doc s)).

#[export] Instance all_scorer : Scorer E AllDocs := {
  doc_id := all_doc;
  next_doc s := all_advance s (sat32 (all_doc s + 1));
  advance := all_advance;
  cost := all_max_doc;
  two_phase := Defaults.two_phase;
  matches := Defaults.matches;
  match_cost := Defaults.match_cost;
  score s := cret (f32_of_Z 0, s);
  advance_shallow := Defaults.advance_shallow;
  max_score s _ := cret (f32_of_Z 0, s);
  set_min_competitive_score := Defaults.set_min_competitive_score;
  advance_exact_cheap := Defaults.advance_exact_cheap;
  contains s doc := Some ((0 <=? doc) && (doc <? all_max_doc s));
}.
End all_docs.

(** ** [DocList]: a clause resolved up front *)
Record DocList := mk_DocList {
  dl_docs : list Z;
  dl_scores : list f32;
  dl_max : f32;
  dl_at : Z;
}.

(** [f32::max]. *)
Definition f32_max (a b : f32) : f32 :=
  match a, b with
  | S754_nan, _ => b
  | _, S754_nan => a
  | _, _ => if SFltb a b then b else a
  end.

(** [slice::partition_point] of a partitioned slice. *)
Fixpoint partition_point {A} (p : A -> bool) (l : list A) : nat :=
  match l with
  | x :: l' => if p x then Datatypes.S (partition_point p l') else O
  | [] => O
  end.

Section doc_list.
Context {E : Type}.
Definition dl_new (docs : list Z) (scores : list f32) : DocList :=
  mk_DocList docs scores (fold_left f32_max scores (f32_of_Z 0)) (-1).

Definition dl_current (s : DocList) : Z :=
  if dl_at s <? 0 then -1
  else match zget (dl_docs s) (dl_at s) with Some d => d | None => NO_MORE_DOCS end.

Definition dl_move (s : DocList) (at_ : Z) : Z * DocList :=
  let s := mk_DocList (dl_docs s) (dl_scores s) (dl_max s) at_ in (dl_current s, s).

Definition dl_next_doc (s : DocList) : comp E (Z * DocList) :=
  cret (dl_move s (sat64 (dl_at s + 1))).

Definition dl_advance (s : DocList) (target : Z) : comp E (Z * DocList) :=
  let from := Z.max 0 (sat64 (dl_at s + 1)) in
  let rest := drop (Z.to_nat from) (dl_docs s) in
  let skip := partition_point (fun d => d <? target) rest in
  cret (dl_move s (sat64 (from + Z.of_nat skip))).

Definition dl_score (s : DocList) : f32 :=
  if dl_at s <? 0 then f32_of_Z 0
  else match zget (dl_scores s) (dl_at s) with Some v => v | None => f32_of_Z 0 end.

#[export] Instance dl_scorer : Scorer E DocList := {
  doc_id := dl_current;
  next_doc := dl_next_doc;
  advance := dl_advance;
  cost s := Z.min (zlen (dl_docs s)) i64_max;
  two_phase := Defaults.two_phase;
  matches := Defaults.matches;
  match_cost := Defaults.match_cost;
  score s := cret (dl_score s, s);
  advance_shallow := Defaults.advance_shallow;
  max_score s _ := cret (dl_max s, s);
  set_min_competitive_score := Defaults.set_min_competitive_score;
  advance_exact_cheap := Defaults.advance_exact_cheap;
  contains := Defaults.contains;
}.
End doc_list.

(** ** [ConstantScorer]: the wrapped scorer's matches, each scoring [score] *)
Record ConstantScorer (S : Type) := mk_Constant {
  const_inner : S;
  const_score : f32;
  const_top_scores : bool;
  const_emptied : bool;
  const_doc : Z;
}.
Arguments mk_Constant {S} _ _ _ _ _.
Arguments const_inner {S} _.
Arguments const_score {S} _.
Arguments const_top_scores {S} _.
Arguments const_emptied {S} _.
Arguments const_doc {S} _.

Section constant.
Context {E S : Type} `{Sc : Scorer E S}.
Definition const_new (inner : S) (score : f32) (top_scores : bool) : ConstantScorer S :=
  mk_Constant inner score top_scores false (doc_id inner).

Definition const_put (c : ConstantScorer S) (i : S) (doc : Z) : ConstantScorer S :=
  mk_Constant i (const_score c) (const_top_scores c) (const_emptied c) doc.

Definition const_move (c : ConstantScorer S) (f : S -> comp E (Z * S)) : comp E (Z * ConstantScorer S) :=
  if const_emptied c then cret (NO_MORE_DOCS, const_put c (const_inner c) NO_MORE_DOCS)
  else let! (d, i) := f (const_inner c) in cret (d, const_put c i d).

Definition const_set_min (c : ConstantScorer S) (min : f32) : ConstantScorer S :=
  if const_top_scores c && SFltb (const_score c) min
  then mk_Constant (const_inner c) (const_score c) (const_top_scores c) true (const_doc c)
  else c.

#[export] Instance const_scorer : Scorer E (ConstantScorer S) := {
  doc_id := const_doc;
  next_doc c := const_move c next_doc;
  advance c t := const_move c (fun i => advance i t);
  cost c := cost (const_inner c);
  two_phase c := two_phase (const_inner c);
  matches c := let! (m, i) := matches (const_inner c) in cret (m, const_put c i (const_doc c));
  match_cost c := match_cost (const_inner c);
  score c := cret (const_score c, c);
  advance_shallow := Defaults.advance_shallow;
  max_score c _ := cret (const_score c, c);
  set_min_competitive_score c min := cret (const_set_min c min);
  advance_exact_cheap := Defaults.advance_exact_cheap;
  contains c d := if const_emptied c then None else contains (const_inner c) d;
}.
End constant.

(** ** [ZeroScorer]: a lone filter clause, scoring [0] *)
Record ZeroScorer (S : Type) := Zero { zero_inner : S }.
Arguments Zero {S} _.
Arguments zero_inner {S} _.

Section zero.
Context {E S : Type} `{Sc : Scorer E S}.
Definition zero_with {A} (z : ZeroScorer S) (f : S -> comp E (A * S)) : comp E (A * ZeroScorer S) :=
  let! (a, i) := f (zero_inner z) in cret (a, Zero i).

#[export] Instance zero_scorer : Scorer E (ZeroScorer S) := {
  doc_id z := doc_id (zero_inner z);
  next_doc z := zero_with z next_doc;
  advance z t := zero_with z (fun i => advance i t);
  cost z := cost (zero_inner z);
  two_phase z := two_phase (zero_inner z);
  matches z := zero_with z matches;
  match_cost z := match_cost (zero_inner z);
  score z := cret (f32_of_Z 0, z);
  advance_shallow z t := zero_with z (fun i => advance_shallow i t);
  max_score z _ := cret (f32_of_Z 0, z);
  set_min_competitive_score := Defaults.set_min_competitive_score;
  advance_exact_cheap := Defaults.advance_exact_cheap;
  contains z d := contains (zero_inner z) d;
}.
End zero.

(** ** Laws *)
Lemma answers_refl {E S} `{Scorer E S} `{ScorerView S} (s : S) :
  good s -> doc_id s ∈ accept s -> confirmed s -> answers s (true, s).
Proof. intros Hg Ha Hc. split; [done|]. split; [done|]. split; [done|]. by rewrite bool_decide_true. Qed.

Lemma holds_refl {E S A} `{Scorer E S} `{ScorerView S} (s : S) (a : A) : good s -> holds s (a, s).
Proof. intros Hg. split; [done|]. split; [done|]. by split. Qed.

Lemma gives_refl {E S} `{Scorer E S} `{ScorerView S} (s : S) (v : f32) :
  good s -> gives s (doc_id s) v -> gives_score s (v, s).
Proof. intros Hg Hv. split; [by apply holds_refl|done]. Qed.

Section all_laws.
Context {E : Type}.
Implicit Types (s : AllDocs).

#[export] Instance all_view : ScorerView AllDocs := {
  good s := all_max_doc s <= NO_MORE_DOCS /\
            (all_doc s = -1 \/ all_doc s = NO_MORE_DOCS \/ 0 <= all_doc s < all_max_doc s);
  approx s := list_to_set (seqZ 0 (all_max_doc s));
  accept s := list_to_set (seqZ 0 (all_max_doc s));
  confirmed s := True;
  need s := O;
  gives _ _ v := v = f32_of_Z 0;
}.

Lemma all_approx_elem s x : x ∈ approx s <-> 0 <= x < all_max_doc s.
Proof. cbn. rewrite elem_of_list_to_set, elem_of_seqZ. lia. Qed.

Lemma all_advance_lands n (s : AllDocs) t :
  good s -> 0 <= t -> t <= NO_MORE_DOCS -> wp (@all_advance E s t) n (lands (E:=E) s t).
Proof.
  intros (Hm & _) H0 Ht. unfold all_advance. wp_ret.
  destruct (Z.leb_spec (all_max_doc s) t); (split; [split; cbn; [done|lia]|]);
    (split; [done|]); (split; [done|]); cbn [fst].
  - split; [lia|]. split; [by left|]. intros x Hx%all_approx_elem Hle. lia.
  - apply first_at_here. apply all_approx_elem. lia.
Qed.

#[export] Instance all_laws : ScorerLaws E AllDocs.
Proof.
  split.
  - done.
  - intros s d Hg Hd%all_approx_elem. destruct Hg. lia.
  - intros s (Hm & [?|[?|?]]); [by left|by right; left|]. right; right. by apply all_approx_elem.
  - done.
  - intros n s Hg Hd Hn. cbn [doc_id next_doc all_scorer] in *.
    assert (-1 <= all_doc s) by (destruct Hg as (_ & [|[]]); pose proof no_more_pos; lia).
    rewrite sat32_id.
    + apply all_advance_lands; [done|lia|lia].
    + unfold in_s. change NO_MORE_DOCS with (2 ^ 31 - 1) in Hd. lia.
  - intros n s t Hg Hd Ht Hn. apply all_advance_lands; [done| |done]. cbn [doc_id all_scorer] in Hd.
    destruct Hg as (_ & [|[]]); pose proof no_more_pos; lia.
  - intros n s Hg Hd Hn. by apply (answers_refl s).
  - done.
  - intros n s Hg Hd Hc Hn. by apply gives_refl.
  - intros n s t Hg Ht Hn. by apply (holds_refl s).
  - intros n s t Hg Hn. by apply (holds_refl s).
  - intros s t Hg Hd Ht. by apply (holds_refl s 0).
  - intros s d b Hg Hd [= <-]. apply Bool.eq_iff_eq_true.
    rewrite bool_decide_eq_true, all_approx_elem, andb_true_iff, Z.leb_le, Z.ltb_lt. lia.
Qed.
End all_laws.

Section dl_laws.
Context {E : Type}.
Implicit Types (s : DocList).

Definition doc_set (docs : list Z) : gset Z := list_to_set docs.

#[export] Instance dl_view : ScorerView DocList := {
  good s := StronglySorted Z.lt (dl_docs s) /\ Forall (fun d => 0 <= d < NO_MORE_DOCS) (dl_docs s) /\
            -1 <= dl_at s <= i64_max /\ zlen (dl_docs s) <= i64_max;
  approx s := doc_set (dl_docs s);
  accept s := doc_set (dl_docs s);
  confirmed s := True;
  need s := O;
  gives s d v := exists k, dl_docs s !! k = Some d /\ v = default (f32_of_Z 0) (dl_scores s !! k);
}.

(** The index [k] splits a sorted list at [t]. *)
Definition splits (docs : list Z) (t : Z) (k : nat) : Prop :=
  (forall j x, (j < k)%nat -> docs !! j = Some x -> x < t) /\
  (forall x, docs !! k = Some x -> t <= x).

Lemma sorted_lookup docs i j x y :
  StronglySorted Z.lt docs -> (i < j)%nat -> docs !! i = Some x -> docs !! j = Some y -> x < y.
Proof.
  intros Hs. revert i j. induction Hs as [|z l Hs IH Hall]; intros i j Hij; [done|].
  destruct i as [|i], j as [|j]; cbn; try lia; [|by apply IH; lia].
  intros [= ->] Hj. rewrite Forall_lookup in Hall. by eapply Hall.
Qed.

Lemma splits_first docs t k :
  StronglySorted Z.lt docs -> splits docs t k -> t <= NO_MORE_DOCS ->
  first_at (doc_set docs) t (match docs !! k with Some d => d | None => NO_MORE_DOCS end).
Proof.
  intros Hs [H1 H2] Ht. unfold doc_set. destruct (docs !! k) as [d|] eqn:Hk.
  - split; [by apply H2|]. split; [right; rewrite elem_of_list_to_set; by eapply list_elem_of_lookup_2|].
    intros x Hx Hle. apply elem_of_list_to_set, list_elem_of_lookup in Hx as [j Hj].
    destruct (decide (j < k)%nat) as [Hlt|Hge]; [specialize (H1 j x Hlt Hj); lia|].
    destruct (decide (j = k)) as [->|]; [rewrite Hk in Hj; injection Hj; lia|].
    apply Z.lt_le_incl. eapply (sorted_lookup docs k j); [done|lia|done|done].
  - split; [done|]. split; [by left|].
    intros x Hx Hle. apply elem_of_list_to_set, list_elem_of_lookup in Hx as [j Hj].
    apply lookup_ge_None in Hk. pose proof (lookup_lt_Some _ _ _ Hj).
    specialize (H1 j x ltac:(lia) Hj). lia.
Qed.

Lemma dl_current_in s :
  0 <= dl_at s ->
  dl_current s = match dl_docs s !! Z.to_nat (dl_at s) with Some d => d | None => NO_MORE_DOCS end.
Proof. intros H. unfold dl_current, zget. by destruct (Z.ltb_spec (dl_at s) 0); [lia|]. Qed.

Lemma dl_move_lands n s k t :
  good s -> splits (dl_docs s) t k -> t <= NO_MORE_DOCS -> Z.of_nat k <= zlen (dl_docs s) ->
  wp (@cret E _ (dl_move s (Z.of_nat k))) n (lands (E:=E) s t).
Proof.
  intros (Hs & Hf & Ha & Hl) Hk Ht Hkl. wp_ret. split; [split_and!; [done|done|cbn; lia|cbn; lia|done]|].
  split; [done|]. split; [done|]. unfold dl_move. cbn [fst].
  rewrite dl_current_in by (cbn; lia). cbn [dl_docs dl_at]. rewrite Nat2Z.id. by apply splits_first.
Qed.

(** Everything up to the current document is below the next target. *)
Lemma dl_before s j x t :
  good s -> dl_current s < t -> Z.of_nat j <= dl_at s -> dl_docs s !! j = Some x -> t <= NO_MORE_DOCS -> x < t.
Proof.
  intros (Hs & Hf & Ha & Hl) Hd Hj Hx Ht. rewrite dl_current_in in Hd by lia.
  destruct (dl_docs s !! Z.to_nat (dl_at s)) as [d|] eqn:Ed; [|lia].
  destruct (decide (j = Z.to_nat (dl_at s))) as [->|]; [rewrite Ed in Hx; injection Hx; lia|].
  pose proof (sorted_lookup _ j (Z.to_nat (dl_at s)) x d Hs ltac:(lia) Hx Ed). lia.
Qed.

Lemma dl_at_short s : good s -> dl_current s < NO_MORE_DOCS -> dl_at s < zlen (dl_docs s).
Proof.
  intros (Hs & Hf & Ha & Hl) Hd. pose proof (zlen_nonneg (dl_docs s)).
  destruct (decide (dl_at s < 0)); [lia|]. rewrite dl_current_in in Hd by lia.
  destruct (dl_docs s !! Z.to_nat (dl_at s)) eqn:E0; [|lia].
  apply lookup_lt_Some in E0. unfold zlen. lia.
Qed.

Lemma partition_point_spec (p : Z -> bool) l :
  (partition_point p l <= length l)%nat /\
  (forall j x, (j < partition_point p l)%nat -> l !! j = Some x -> p x = true) /\
  (forall x, l !! partition_point p l = Some x -> p x = false).
Proof.
  induction l as [|y l (IH1 & IH2 & IH3)]; cbn; [split_and!; [lia|intros; lia|done]|].
  destruct (p y) eqn:Ep; cbn.
  - split_and!; [lia| |done]. intros [|j] x Hj; cbn; [by intros [= <-]|]. apply IH2. lia.
  - split_and!; [lia|intros; lia|]. by intros x [= <-].
Qed.

Lemma dl_next_splits s :
  good s -> dl_current s < NO_MORE_DOCS ->
  splits (dl_docs s) (dl_current s + 1) (Z.to_nat (dl_at s + 1)).
Proof.
  intros Hg Hd. pose proof Hg as (Hs & Hf & Ha & Hl). split.
  - intros j x Hj Hx. apply (dl_before s j); [done|lia|lia|done|lia].
  - intros x Hx. rewrite Forall_lookup in Hf. specialize (Hf _ _ Hx).
    destruct (decide (dl_at s < 0)) as [Hn|Hn].
    { unfold dl_current. destruct (Z.ltb_spec (dl_at s) 0); lia. }
    rewrite dl_current_in in Hd |- * by lia.
    destruct (dl_docs s !! Z.to_nat (dl_at s)) as [d|] eqn:Ed; [|lia].
    pose proof (sorted_lookup (dl_docs s) (Z.to_nat (dl_at s)) (Z.to_nat (dl_at s + 1)) d x Hs ltac:(lia) Ed Hx). lia.
Qed.

Lemma dl_advance_splits s t :
  good s -> dl_current s < t -> t <= NO_MORE_DOCS ->
  let from := Z.to_nat (dl_at s + 1) in
  splits (dl_docs s) t (from + partition_point (fun d => d <? t) (drop from (dl_docs s))).
Proof.
  intros Hg Hd Ht from. pose proof Hg as (Hs & Hf & Ha & Hl).
  destruct (partition_point_spec (fun d => d <? t) (drop from (dl_docs s))) as (_ & P2 & P3). split.
  - intros j x Hj Hx. destruct (decide (j < from)%nat).
    + apply (dl_before s j); [done|done|lia|done|done].
    + apply Z.ltb_lt, (P2 (j - from)%nat); [lia|]. rewrite lookup_drop. rewrite <- Hx. f_equal. lia.
  - intros x Hx. apply Z.ltb_ge, P3. by rewrite lookup_drop.
Qed.

Lemma dl_next_lands n s :
  good s -> dl_current s < NO_MORE_DOCS -> wp (@dl_next_doc E s) n (lands (E:=E) s (dl_current s + 1)).
Proof.
  intros Hg Hd. pose proof (dl_at_short s Hg Hd) as Hat. pose proof Hg as (Hs & Hf & Ha & Hl).
  unfold dl_next_doc. replace (sat64 (dl_at s + 1)) with (Z.of_nat (Z.to_nat (dl_at s + 1))).
  - apply dl_move_lands; [done|by apply dl_next_splits|lia|lia].
  - unfold sat64, i64_max in *. lia.
Qed.

Lemma dl_advance_lands n s t :
  good s -> dl_current s < t -> t <= NO_MORE_DOCS -> wp (@dl_advance E s t) n (lands (E:=E) s t).
Proof.
  intros Hg Hd Ht. pose proof (dl_at_short s Hg ltac:(lia)) as Hat.
  pose proof Hg as (Hs & Hf & Ha & Hl). unfold dl_advance.
  replace (Z.max 0 (sat64 (dl_at s + 1))) with (dl_at s + 1) by (unfold sat64, i64_max in *; lia).
  pose proof (dl_advance_splits s t Hg Hd Ht) as Hsp. cbn zeta in Hsp.
  destruct (partition_point_spec (fun d => d <? t) (drop (Z.to_nat (dl_at s + 1)) (dl_docs s)))
    as (Hp & _). rewrite length_drop in Hp.
  set (k := partition_point _ _) in *. assert (Hk : dl_at s + 1 + Z.of_nat k <= zlen (dl_docs s)).
  { unfold zlen in *. lia. }
  replace (sat64 (dl_at s + 1 + Z.of_nat k)) with (Z.of_nat (Z.to_nat (dl_at s + 1) + k))
    by (unfold sat64, i64_max in *; lia).
  apply dl_move_lands; [done|done|done|lia].
Qed.

Lemma dl_gives s : good s -> dl_current s ∈ doc_set (dl_docs s) -> gives s (dl_current s) (dl_score s).
Proof.
  intros (_ & Hf & Ha & _) Hd. unfold doc_set in Hd. rewrite elem_of_list_to_set in Hd. rewrite Forall_forall in Hf.
  specialize (Hf _ Hd). unfold dl_current, dl_score, zget in *. destruct (Z.ltb_spec (dl_at s) 0); [lia|].
  destruct (dl_docs s !! Z.to_nat (dl_at s)) as [d|] eqn:E0; [|lia]. exists (Z.to_nat (dl_at s)). split; [done|].
  by destruct (dl_scores s !! _).
Qed.

#[export] Instance dl_laws : ScorerLaws E DocList.
Proof.
  split.
  - done.
  - intros s d (Hs & Hf & _) Hd. cbn in Hd. unfold doc_set in Hd. rewrite elem_of_list_to_set in Hd.
    rewrite Forall_forall in Hf. by apply Hf.
  - intros s Hg. cbn. destruct (decide (dl_at s < 0)).
    { left. unfold dl_current. by destruct (Z.ltb_spec (dl_at s) 0); [|lia]. }
    rewrite dl_current_in by lia. destruct (dl_docs s !! _) eqn:E0; [|by right; left].
    right; right. unfold doc_set. rewrite elem_of_list_to_set. by eapply list_elem_of_lookup_2.
  - done.
  - intros n s Hg Hd _. by apply dl_next_lands.
  - intros n s t Hg Hd Ht _. by apply dl_advance_lands.
  - intros n s Hg Hd Hn. by apply (answers_refl s).
  - done.
  - intros n s Hg Hd Hc Hn. apply gives_refl; [done|by apply dl_gives].
  - intros n s t Hg Ht Hn. by apply (holds_refl s).
  - intros n s t Hg Hn. by apply (holds_refl s).
  - intros s t Hg Hd Ht. by apply (holds_refl s 0).
  - done.
Qed.
End dl_laws.

Section constant_laws.
Context {E S : Type} `{L : ScorerLaws E S}.
Implicit Types (c : ConstantScorer S).

(** Before a threshold empties it. *)
#[export] Instance const_view : ScorerView (ConstantScorer S) := {
  good c := good (const_inner c) /\ const_emptied c = false /\ const_doc c = doc_id (const_inner c);
  approx c := approx (const_inner c);
  accept c := accept (const_inner c);
  confirmed c := confirmed (const_inner c);
  need c := need (const_inner c);
  gives c _ v := v = const_score c;
}.

Lemma const_same c i d : same (const_inner c) i -> same c (const_put c i d).
Proof. intros (H1 & H2 & H3 & H4 & _). by split_and!. Qed.

Lemma const_move_lands c (f : S -> comp E (Z * S)) t n :
  good c -> wp (f (const_inner c)) n (lands (const_inner c) t) -> wp (const_move c f) n (lands c t).
Proof.
  intros (Hg & He & Hd) H. unfold const_move. rewrite He.
  apply (wp_inner _ (fun d i => const_put c i d) _ _ _ H). intros d i (Hg1 & Hs1 & Hd1 & Hf1).
  split; [by split|]. split; [by apply const_same|]. by split.
Qed.

#[export] Instance const_laws : ScorerLaws E (ConstantScorer S).
Proof.
  split.
  - intros c (Hg & _). by apply (accept_approx (const_inner c)).
  - intros c d (Hg & _). by apply (approx_range (const_inner c)).
  - intros c (Hg & _ & Hd). cbn. rewrite Hd. by apply doc_id_ok.
  - intros c (Hg & _). by apply (one_phase (const_inner c)).
  - intros n c HG Hd Hn. pose proof HG as (Hg & _ & He). cbn in *. apply const_move_lands; [done|].
    rewrite He in *. by apply next_doc_ok.
  - intros n c t HG Hd Ht Hn. pose proof HG as (Hg & _ & He). cbn in *. apply const_move_lands; [done|].
    rewrite He in *. by apply advance_ok.
  - intros n c (Hg & He & Hd) Hp Hn. cbn in *. rewrite Hd in *.
    apply (wp_inner _ (fun m i => const_put c i (doc_id (const_inner c)))
             _ (answers (const_inner c))).
    + by apply matches_ok.
    + intros a i (Hg1 & Hs1 & Hd1 & Ha & Hc1). cbn [fst snd] in *.
      split; [split_and!; [done|done|cbn; by rewrite Hd1]|]. split; [by apply const_same|].
      split; [cbn; by rewrite Hd|]. split; [cbn; by rewrite Hd|done].
  - intros c (Hg & _ & Hd) Ht Hin. cbn in *. rewrite Hd in Hin. by apply one_phase_confirmed.
  - intros n c HG Hd Hc Hn. by apply gives_refl.
  - intros n c t HG Ht Hn. by apply (holds_refl c).
  - intros n c t HG Hn. by apply (holds_refl c).
  - intros c t HG Hd Ht. by apply (holds_refl c 0).
  - intros c d b (Hg & He & _) Hd. cbn. rewrite He. by apply contains_ok.
Qed.
End constant_laws.

Section zero_laws.
Context {E S : Type} `{L : ScorerLaws E S}.

#[export] Instance zero_view : ScorerView (ZeroScorer S) := {
  good z := good (zero_inner z);
  approx z := approx (zero_inner z);
  accept z := accept (zero_inner z);
  confirmed z := confirmed (zero_inner z);
  need z := need (zero_inner z);
  gives _ _ v := v = f32_of_Z 0;
}.

Lemma zero_same (z : ZeroScorer S) i : same (zero_inner z) i -> same z (Zero i).
Proof. intros (H1 & H2 & H3 & H4 & _). by split_and!. Qed.

Lemma zero_with_ok {A} (z : ZeroScorer S) (f : S -> comp E (A * S)) n (Q : A * S -> Prop)
    (R : A * ZeroScorer S -> Prop) :
  wp (f (zero_inner z)) n Q -> (forall a i, Q (a, i) -> R (a, Zero i)) -> wp (zero_with z f) n R.
Proof. intros H HR. exact (wp_inner _ (fun _ i => Zero i) n Q R H HR). Qed.

#[export] Instance zero_laws : ScorerLaws E (ZeroScorer S).
Proof.
  split.
  - intros z. apply (accept_approx (zero_inner z)).
  - intros z d. apply (approx_range (zero_inner z)).
  - intros z. apply (doc_id_ok (zero_inner z)).
  - intros z. apply (one_phase (zero_inner z)).
  - intros n z Hg Hd Hn. eapply zero_with_ok; [by apply (next_doc_ok n (zero_inner z))|].
    intros a i (H1 & H2 & H3). split; [done|]. by split; [apply zero_same|].
  - intros n z t Hg Hd Ht Hn. eapply zero_with_ok; [by apply (advance_ok n (zero_inner z))|].
    intros a i (H1 & H2 & H3). split; [done|]. by split; [apply zero_same|].
  - intros n z Hg Hd Hn. eapply zero_with_ok; [by apply (matches_ok n (zero_inner z))|].
    intros a i (H1 & H2 & H3). split; [done|]. by split; [apply zero_same|].
  - intros z. apply (one_phase_confirmed (zero_inner z)).
  - intros n z Hg Hd Hc Hn. by apply gives_refl.
  - intros n z t Hg Ht Hn. eapply zero_with_ok; [by apply (shallow_ok n (zero_inner z))|].
    intros a i (H1 & H2 & H3). split; [done|]. by split; [apply zero_same|].
  - intros n z t Hg Hn. by apply (holds_refl z).
  - intros z t Hg Hd Ht. by apply (holds_refl z 0).
  - intros z d b. apply (contains_ok (zero_inner z)).
Qed.
End zero_laws.
