(* ===== verification/Conjunction.v ===== *)
(** * [ConjunctionScorer] ([lucene-search/src/exec/conjunction.rs])

    Every required scorer must match.  The cheapest scorer leads; the others
    are advanced to agree with it ([leap]) or, when they have random access
    and do not score, asked about its document ([bits]).  The scorer is proved
    to stand for the intersection of its children over any lawful children, and
    to score the sum of the scoring ones.
    [LegConjunctionScorer] and [BlockMaxConjunctionScorer] are not modelled. *)
From S2P Require Export Scorer.

Record ConjunctionScorer (S : Type) := mk_Conj {
  scorers : list S;
  scoring : list nat;
  conj_two_phase : list nat;
  conj_match_cost : f32;
  leap : list nat;
  bits : list nat;
}.
Arguments mk_Conj {S} _ _ _ _ _ _.
Arguments scorers {S} _.
Arguments scoring {S} _.
Arguments conj_two_phase {S} _.
Arguments conj_match_cost {S} _.
Arguments leap {S} _.
Arguments bits {S} _.

Section conj_ops.
Context {E S : Type} `{Sc : Scorer E S}.

(** The cheapest first; the indices of the two-phase ones by match cost; the
    ones past the lead split by how they are checked. *)
Definition conj_new (required scoring : list S) : ConjunctionScorer S :=
  let all := map (fun s => (s, false)) required ++ map (fun s => (s, true)) scoring in
  let all := sort_by (fun a b => cost a.1 <=? cost b.1) all in
  let v := map fst all in
  let scoring_idx := List.filter (fun i => ask all i snd false) (seq 0 (length all)) in
  let mc i := ask v i match_cost (f32_of_Z 0) in
  let two := sort_by (fun a b => total_leb (mc a) (mc b))
               (List.filter (fun i => ask v i two_phase false) (seq 0 (length v))) in
  let is_bits i :=
    negb (bool_decide (i ∈ scoring_idx)) && negb (ask v i two_phase false) &&
    match ask v i (fun s => contains s 0) None with Some _ => true | None => false end in
  let rest := seq 1 (length v - 1) in
  mk_Conj v scoring_idx two (f32_sum (map mc two))
    (List.filter (fun i => negb (is_bits i)) rest) (List.filter is_bits rest).

Definition with_scorers (c : ConjunctionScorer S) (v : list S) : ConjunctionScorer S :=
  mk_Conj v (scoring c) (conj_two_phase c) (conj_match_cost c) (leap c) (bits c).

(** A child behind [doc] advances to it; when it overshoots, the lead advances
    to where it landed and the search starts over from there. *)
Definition leap_step (doc : Z) (k : nat) (v : list S) : comp E (option Z * list S) :=
  match v !! k with
  | None => cpanic
  | Some other =>
      if doc_id other <? doc then
        let! (next, v) := with_at v k (fun s => advance s doc) in
        if doc <? next then
          let! (doc, v) := with_at v 0 (fun s => advance s next) in cret (Some doc, v)
        else cret (None, v)
      else cret (None, v)
  end.

Definition bits_step (doc : Z) (k : nat) (v : list S) : comp E (option Z * list S) :=
  match v !! k with
  | None => cpanic
  | Some other =>
      match contains other doc with
      | Some true => cret (None, v)
      | Some false => let! (doc, v) := with_at v 0 next_doc in cret (Some doc, v)
      | None => leap_step doc k v
      end
  end.

Fixpoint do_next_loop (n : nat) (leap bits : list nat) (v : list S) (doc : Z)
  : comp E (Z * list S) :=
  match n with
  | O => cdiverge
  | Datatypes.S n =>
      if doc =? NO_MORE_DOCS then cret (doc, v)
      else
        let! (r, v) := for_each leap (leap_step doc) v in
        match r with
        | Some doc => do_next_loop n leap bits v doc
        | None =>
            let! (r, v) := for_each bits (bits_step doc) v in
            match r with
            | Some doc => do_next_loop n leap bits v doc
            | None => cret (doc, v)
            end
        end
  end.

Definition conj_do_next (c : ConjunctionScorer S) (v : list S) (doc : Z)
  : comp E (Z * ConjunctionScorer S) :=
  let! (doc, v) := cloop (fun n => do_next_loop n (leap c) (bits c) v doc) in
  cret (doc, with_scorers c v).

Definition conj_next_doc (c : ConjunctionScorer S) : comp E (Z * ConjunctionScorer S) :=
  let! (doc, v) := with_at (scorers c) 0 next_doc in conj_do_next c v doc.

Definition conj_advance (c : ConjunctionScorer S) (target : Z) : comp E (Z * ConjunctionScorer S) :=
  let! (doc, v) := with_at (scorers c) 0 (fun s => advance s target) in conj_do_next c v doc.

Definition conj_matches (c : ConjunctionScorer S) : comp E (bool * ConjunctionScorer S) :=
  let! (r, v) := for_each (conj_two_phase c)
    (fun i v => let! (m, v) := with_at v i matches in
                cret (if m then None else Some false, v)) (scorers c) in
  cret (match r with Some b => b | None => true end, with_scorers c v).

(** The [double] sum of the scoring children's scores. *)
Definition conj_score (c : ConjunctionScorer S) : comp E (f32 * ConjunctionScorer S) :=
  let! (r, (sum, v)) := for_each (R := f32) (scoring c)
    (fun i '(sum, v) => let! (x, v) := with_at v i score in
                        cret (None, (f64_add sum (f64_of_f32 x), v)))
    (f64_of_Z 0, scorers c) in
  cret (f32_of_f64 sum, with_scorers c v).

Definition conj_advance_shallow (c : ConjunctionScorer S) (target : Z) : comp E (Z * ConjunctionScorer S) :=
  match scoring c with
  | [only] => let! (d, v) := with_at (scorers c) only (fun s => advance_shallow s target) in
              cret (d, with_scorers c v)
  | _ =>
      let! (r, v) := for_each (R := Z) (scoring c)
        (fun i v => let! (_, v) := with_at v i (fun s => advance_shallow s target) in cret (None, v))
        (scorers c) in
      cret (NO_MORE_DOCS, with_scorers c v)
  end.

Definition conj_max_score (c : ConjunctionScorer S) (up_to : Z) : comp E (f32 * ConjunctionScorer S) :=
  let! (r, (sum, v)) := for_each (R := f32) (scoring c)
    (fun i '(sum, v) =>
       if ask v i doc_id 0 <=? up_to then
         let! (x, v) := with_at v i (fun s => max_score s up_to) in
         cret (None, (f64_add sum (f64_of_f32 x), v))
       else cret (None, (sum, v)))
    (f64_of_Z 0, scorers c) in
  cret (f32_of_f64 sum, with_scorers c v).

Definition conj_set_min (c : ConjunctionScorer S) (min : f32) : comp E (ConjunctionScorer S) :=
  match scoring c with
  | [only] =>
      let! (_, v) := with_at (scorers c) only
        (fun s => let! s := set_min_competitive_score s min in cret (tt, s)) in
      cret (with_scorers c v)
  | _ => cret c
  end.

#[export] Instance conj_scorer : Scorer E (ConjunctionScorer S) := {
  doc_id c := ask (scorers c) 0 doc_id (-1);
  next_doc := conj_next_doc;
  advance := conj_advance;
  cost c := ask (scorers c) 0 cost 0;
  two_phase c := match conj_two_phase c with [] => false | _ => true end;
  matches := conj_matches;
  match_cost := conj_match_cost;
  score := conj_score;
  advance_shallow := conj_advance_shallow;
  max_score := conj_max_score;
  set_min_competitive_score := conj_set_min;
  advance_exact_cheap := Defaults.advance_exact_cheap;
  contains := Defaults.contains;
}.
End conj_ops.

(** ** The documents of a conjunction *)
Definition meet (l : list (gset Z)) : gset Z :=
  match l with [] => ∅ | A :: l => foldr (fun B C => B ∩ C) A l end.

Lemma elem_of_meet l x : x ∈ meet l <-> l <> [] /\ forall A, A ∈ l -> x ∈ A.
Proof.
  destruct l as [|A l]; cbn; [set_solver|].
  assert (G : x ∈ foldr (fun B C => B ∩ C) A l <-> x ∈ A /\ forall B, B ∈ l -> x ∈ B).
  { induction l as [|B l IH]; cbn; [set_solver|]. rewrite elem_of_intersection, IH. set_solver. }
  rewrite G. split; [intros [H1 H2]|intros [_ H]].
  - split; [done|]. intros B [->|HB]%elem_of_cons; auto.
  - split; [apply H; left|]. intros B HB. apply H. by right.
Qed.

Lemma meet_perm_sub l k : l ≡ₚ k -> meet l ⊆ meet k.
Proof.
  intros H x. rewrite !elem_of_meet. intros [Hn Hx]. split.
  - intros ->. by apply Hn, Permutation_nil.
  - intros A HA. apply Hx. by rewrite H.
Qed.

Lemma meet_perm l k : l ≡ₚ k -> meet l = meet k.
Proof. intros H. apply set_eq. split; by apply meet_perm_sub. Qed.

Section conj_laws.
Context {E S : Type} `{L : ScorerLaws E S}.
Implicit Types (s l : S) (v w : list S) (c : ConjunctionScorer S).

Definition lead_approx (v : list S) : gset Z := ask v 0 approx ∅.
Definition common (v : list S) : gset Z := meet (map approx v).

(** The children while the lead is on [doc]: none is ahead of it. *)
Definition vec_at (v0 v : list S) (doc : Z) : Prop :=
  Forall good v /\ all_same v0 v /\ (exists l, v !! O = Some l /\ doc_id l = doc) /\
  forall i s, v !! i = Some s -> doc_id s <= doc.

(** The lead moved past [doc] to [doc'] without missing a common document. *)
Definition restart (v0 v : list S) (doc doc' : Z) : Prop :=
  vec_at v0 v doc' /\ doc < doc' /\ (doc' = NO_MORE_DOCS \/ doc' ∈ lead_approx v0) /\
  forall x, x ∈ common v0 -> doc <= x -> doc' <= x.

Lemma common_lookup v i s x : v !! i = Some s -> x ∈ common v -> x ∈ approx s.
Proof.
  intros Hi [_ H]%elem_of_meet. apply H. apply list_elem_of_fmap. exists s. split; [done|].
  by eapply list_elem_of_lookup_2.
Qed.

Lemma vec_need v0 v doc i s n :
  vec_at v0 v doc -> (total_need v0 <= n)%nat -> v !! i = Some s -> (need s <= n)%nat.
Proof.
  intros (_ & Hs & _) Hn Hi. pose proof (need_le v i s Hi). rewrite (all_same_need _ _ Hs) in H. lia.
Qed.

Lemma vec_good v0 v doc i s : vec_at v0 v doc -> v !! i = Some s -> good s.
Proof. intros (Hg & _) Hi. rewrite Forall_lookup in Hg. eauto. Qed.

Lemma vec_approx v0 v doc i s x :
  vec_at v0 v doc -> v !! i = Some s -> x ∈ common v0 -> x ∈ approx s.
Proof.
  intros (_ & Hs & _) Hi Hx. destruct (all_same_lookup _ _ _ _ Hs Hi) as (s0 & H0 & -> & _).
  by eapply common_lookup.
Qed.

(** Putting back a child that moved, up to the lead's document. *)
Lemma vec_insert v0 v doc k s s' :
  vec_at v0 v doc -> v !! k = Some s -> good s' -> same s s' -> (k <> O)%nat -> doc_id s' <= doc ->
  vec_at v0 (<[k := s']> v) doc.
Proof.
  intros (Hg & Hs & (l & Hl & Hd) & Hle) Hk Hg' Hs' Hk0 Hd'. split; [|split; [|split]].
  - by apply Forall_insert.
  - by eapply all_same_insert.
  - exists l. rewrite list_lookup_insert_ne by done. done.
  - intros i t Hi. apply list_lookup_insert_Some in Hi as [(<- & <- & _)|(_ & Hi)]; [done|eauto].
Qed.

(** Putting back the lead once it moved on. *)
Lemma vec_insert_lead v0 v doc l doc' l' :
  Forall good v -> all_same v0 v -> v !! O = Some l -> (forall i s, v !! i = Some s -> doc_id s <= doc) ->
  good l' -> same l l' -> doc_id l' = doc' -> doc <= doc' ->
  vec_at v0 (<[O := l']> v) doc'.
Proof.
  intros Hg Hs Hl Hle Hg' Hs' Hd Hdd. split; [|split; [|split]].
  - by apply Forall_insert.
  - by eapply all_same_insert.
  - exists l'. rewrite list_lookup_insert_eq by (by eapply lookup_lt_Some). done.
  - intros i t Hi. apply list_lookup_insert_Some in Hi as [(_ & <- & _)|(_ & Hi)]; [lia|].
    specialize (Hle _ _ Hi). lia.
Qed.

Lemma lead_same v0 v l : all_same v0 v -> v !! O = Some l -> approx l = lead_approx v0.
Proof.
  intros Hs Hl. destruct (all_same_lookup _ _ _ _ Hs Hl) as (l0 & H0 & Ha & _).
  unfold lead_approx, ask. by rewrite H0.
Qed.

(** The lead advances to [t], past its document [doc]. *)
Lemma lead_advance_ok n v0 v doc t :
  vec_at v0 v doc -> (total_need v0 <= n)%nat -> doc < t -> t <= NO_MORE_DOCS ->
  (forall x, x ∈ common v0 -> doc <= x -> t <= x) ->
  forall v1, Forall good v1 -> all_same v0 v1 -> v1 !! O = v !! O ->
  (forall i s, v1 !! i = Some s -> doc_id s <= t) ->
  wp (with_at v1 0 (fun s => advance s t)) n (fun r => restart v0 r.2 doc r.1).
Proof.
  intros Hv Hn Hdt Ht Hx v1 Hg1 Hs1 H01 Hle1. destruct (Hv) as (_ & _ & (l & Hl & Hd) & _).
  pose proof (vec_good _ _ _ _ _ Hv Hl) as Hgl. pose proof (vec_need _ _ _ _ _ n Hv Hn Hl) as Hnl.
  eapply wp_with_at; [by rewrite H01|]. wp_use advance_ok; [done|by rewrite Hd|done|done|].
  intros [d l'] (Hg' & Hs' & Hd' & Hf). cbn [fst snd] in *.
  assert (Hla : approx l = lead_approx v0) by (eapply lead_same; [exact Hs1|by rewrite H01]).
  rewrite Hla in Hf. pose proof (first_at_le _ _ _ Hf). split; [|split; [lia|split]].
  - eapply (vec_insert_lead v0 v1 t l); try done. by rewrite H01.
  - apply Hf.
  - intros x Hxc Hle. destruct Hf as (_ & _ & Hf). apply Hf; [|by apply Hx].
    rewrite <- Hla. by eapply vec_approx.
Qed.

(** The child [k] is on [doc], the others did not move. *)
Definition agreed (v v' : list S) (doc : Z) (k : nat) : Prop :=
  (exists s, v' !! k = Some s /\ doc_id s = doc) /\
  forall i, (i <> k)%nat -> v' !! i = v !! i.

Lemma leap_step_ok n v0 v doc k :
  vec_at v0 v doc -> (total_need v0 <= n)%nat -> (0 < k < length v)%nat ->
  0 <= doc < NO_MORE_DOCS ->
  wp (leap_step doc k v) n (fun r => match r.1 with
    | None => vec_at v0 r.2 doc /\ agreed v r.2 doc k
    | Some doc' => restart v0 r.2 doc doc'
    end).
Proof.
  intros Hv Hn Hk Hd. unfold leap_step. destruct (lookup_lt v k) as [s Hs]; [lia|]. rewrite Hs.
  pose proof (vec_good _ _ _ _ _ Hv Hs) as Hgs. pose proof (vec_need _ _ _ _ _ n Hv Hn Hs) as Hns.
  destruct (Z.ltb_spec (doc_id s) doc) as [Hlt|Hge].
  2:{ wp_ret. split; [done|]. split; [|done]. exists s. split; [done|].
      destruct Hv as (_ & _ & _ & Hle). specialize (Hle _ _ Hs). lia. }
  wp_bind. eapply wp_with_at; [done|]. wp_use advance_ok; [done|done|lia|done|].
  intros [next s'] (Hg' & Hs' & Hd' & Hf). cbn [fst snd] in *.
  pose proof (first_at_le _ _ _ Hf) as Hle'. destruct (Z.ltb_spec doc next) as [Hnx|Hnx].
  - wp_bind. assert (Hnm : next <= NO_MORE_DOCS).
    { rewrite <- Hd'. apply doc_id_range. done. }
    pose proof Hv as (Hg & Hsm & _ & Hle).
    wp_use (lead_advance_ok n v0 v doc next Hv Hn); [lia|done| | | | | |].
    + intros x Hx Hxle. destruct Hf as (_ & _ & Hf). apply Hf; [by eapply vec_approx|done].
    + by apply Forall_insert.
    + by eapply all_same_insert.
    + by rewrite list_lookup_insert_ne by lia.
    + intros i t Hi. apply list_lookup_insert_Some in Hi as [(_ & <- & _)|(_ & Hi)]; [lia|].
      specialize (Hle _ _ Hi). lia.
    + intros [doc' v'] Hr. by wp_ret.
  - wp_ret. assert (next = doc) by lia. split.
    + eapply vec_insert; [done|done|done|done|lia|lia].
    + split; [exists s'; rewrite list_lookup_insert_eq by lia; split; [done|lia]|].
      intros i Hi. by rewrite list_lookup_insert_ne by done.
Qed.

(** What the loops over the non-leading children establish. *)
Lemma leap_loop_ok n v0 doc lp v :
  NoDup lp -> Forall (fun k => 0 < k < length v0)%nat lp -> (total_need v0 <= n)%nat ->
  0 <= doc < NO_MORE_DOCS -> vec_at v0 v doc ->
  wp (for_each lp (leap_step doc) v) n (fun r => match r.1 with
    | None => vec_at v0 r.2 doc /\ forall k, k ∈ lp -> exists s, r.2 !! k = Some s /\ doc_id s = doc
    | Some doc' => restart v0 r.2 doc doc'
    end).
Proof.
  intros Hnd Hlp Hn Hd Hv.
  apply (wp_for_each (fun rest w => exists pre, lp = pre ++ rest /\ vec_at v0 w doc /\
           forall k, k ∈ pre -> exists s, w !! k = Some s /\ doc_id s = doc)).
  - intros k rest w (pre & -> & Hw & Hp).
    apply Forall_app in Hlp as [_ [Hk _]%Forall_cons].
    assert (Hl : length v0 = length w) by (destruct Hw as (_ & Hw & _); by eapply all_same_length).
    wp_use leap_step_ok; [done|done|lia|done|].
    intros [[doc'|] w'] Hr; cbn [fst snd] in *; [done|]. destruct Hr as [Hw' [Hk' Ho]].
    exists (pre ++ [k]). split; [by rewrite <- app_assoc|]. split; [done|].
    intros j [Hj|Hj%list_elem_of_singleton]%elem_of_app; [|by subst].
    rewrite Ho; [by apply Hp|]. intros ->. apply NoDup_app in Hnd as (_ & Hnd & _).
    apply (Hnd k Hj). left.
  - intros w (pre & -> & Hw & Hp). rewrite app_nil_r. done.
  - exists []. split; [done|]. split; [done|]. intros k Hk. by apply not_elem_of_nil in Hk.
Qed.

Lemma bits_step_ok n v0 v doc k :
  vec_at v0 v doc -> (total_need v0 <= n)%nat -> (0 < k < length v)%nat ->
  0 <= doc < NO_MORE_DOCS -> doc ∈ lead_approx v0 ->
  wp (bits_step doc k v) n (fun r => match r.1 with
    | None => vec_at v0 r.2 doc /\ (forall i, (i <> k)%nat -> r.2 !! i = v !! i) /\
              exists s, v !! k = Some s /\ doc ∈ approx s
    | Some doc' => restart v0 r.2 doc doc'
    end).
Proof.
  intros Hv Hn Hk Hd Hda. unfold bits_step. destruct (lookup_lt v k) as [s Hs]; [lia|]. rewrite Hs.
  pose proof (vec_good _ _ _ _ _ Hv Hs) as Hgs.
  destruct (contains s doc) as [[]|] eqn:Hc.
  - wp_ret. split; [done|]. split; [done|]. exists s. split; [done|].
    apply contains_ok in Hc; [|done|done]. symmetry in Hc. by apply bool_decide_eq_true_1 in Hc.
  - apply contains_ok in Hc; [|done|done]. symmetry in Hc.
    apply bool_decide_eq_false_1 in Hc. pose proof Hv as (Hg & Hsm & (l & Hl & Hdl) & Hle).
    wp_bind. eapply wp_with_at; [done|].
    wp_use next_doc_ok; [by eapply vec_good|lia|by eapply vec_need|].
    intros [d l'] (Hg' & Hs' & Hd' & Hf). wp_ret. cbn [fst snd] in *. rewrite Hdl in Hf.
    rewrite (lead_same v0 v l) in Hf by done. pose proof (first_at_le _ _ _ Hf).
    split; [|split; [lia|split]].
    + by eapply (vec_insert_lead v0 v doc l); [..|lia].
    + apply Hf.
    + intros x Hx Hxle. destruct Hf as (_ & _ & Hf). apply Hf.
      * rewrite <- (lead_same v0 v l) by done. by eapply vec_approx.
      * assert (x <> doc); [|lia]. intros ->. apply Hc. by eapply vec_approx.
  - wp_use leap_step_ok; [done|done|done|done|].
    intros [[doc'|] w'] Hr; cbn [fst snd] in *; [done|]. destruct Hr as [Hw' [(s' & Hs' & Hd') Ho]].
    split; [done|]. split; [done|]. exists s. split; [done|].
    pose proof (vec_good _ _ _ _ _ Hw' Hs') as Hg'.
    destruct Hv as (_ & Hsm & _), Hw' as (_ & Hsm' & _).
    destruct (all_same_lookup _ _ _ _ Hsm Hs) as (s0 & H0 & -> & _).
    destruct (all_same_lookup _ _ _ _ Hsm' Hs') as (s1 & H1 & Ha & _).
    rewrite H0 in H1. injection H1 as <-. rewrite <- Ha, <- Hd'. apply doc_id_positioned; [done|lia].
Qed.

Lemma bits_loop_ok n v0 doc bs v :
  NoDup bs -> Forall (fun k => 0 < k < length v0)%nat bs -> (total_need v0 <= n)%nat ->
  0 <= doc < NO_MORE_DOCS -> doc ∈ lead_approx v0 -> vec_at v0 v doc ->
  wp (for_each bs (bits_step doc) v) n (fun r => match r.1 with
    | None => vec_at v0 r.2 doc /\ (forall k, k ∉ bs -> r.2 !! k = v !! k) /\
              forall k s, k ∈ bs -> v0 !! k = Some s -> doc ∈ approx s
    | Some doc' => restart v0 r.2 doc doc'
    end).
Proof.
  intros Hnd Hbs Hn Hd Hda Hv.
  apply (wp_for_each (fun rest w => exists pre, bs = pre ++ rest /\ vec_at v0 w doc /\
           (forall k, k ∉ pre -> w !! k = v !! k) /\
           forall k s, k ∈ pre -> v0 !! k = Some s -> doc ∈ approx s)).
  - intros k rest w (pre & -> & Hw & Ho & Hp).
    apply Forall_app in Hbs as [_ [Hk _]%Forall_cons]. pose proof Hw as (_ & Hsm & _).
    assert (Hl : length v0 = length w) by (by eapply all_same_length).
    wp_use bits_step_ok; [done|done|lia|done|done|].
    intros [[doc'|] w'] Hr; cbn [fst snd] in *; [done|]. destruct Hr as (Hw' & Ho' & s & Hs & Hds).
    exists (pre ++ [k]). split; [by rewrite <- app_assoc|]. split; [done|]. split.
    + intros j Hj. rewrite elem_of_app, list_elem_of_singleton in Hj. rewrite Ho' by tauto.
      apply Ho. tauto.
    + intros j t [Hj|Hj%list_elem_of_singleton]%elem_of_app Ht; [by eapply Hp|subst j].
      destruct (all_same_lookup _ _ _ _ Hsm Hs) as (s0 & H0 & Ha & _).
      rewrite Ht in H0. injection H0 as ->. by rewrite <- Ha.
  - intros w (pre & -> & Hw & Ho & Hp). rewrite app_nil_r. done.
  - exists []. split; [done|]. split; [done|]. split; [done|].
    intros k s Hk. by apply not_elem_of_nil in Hk.
Qed.

(** The indices past the lead are split between [leap] and [bits]. *)
Definition covers (v : list S) (lp bs : list nat) : Prop := lp ++ bs ≡ₚ seq 1 (length v - 1).

Lemma covers_bounds v lp bs : covers v lp bs ->
  NoDup lp /\ NoDup bs /\ Forall (fun k => 0 < k < length v)%nat lp /\
  Forall (fun k => 0 < k < length v)%nat bs /\
  (forall k, k ∈ lp -> k ∉ bs) /\
  forall k, (k < length v)%nat -> k = O \/ k ∈ lp \/ k ∈ bs.
Proof.
  unfold covers. intros H. assert (Hnd : NoDup (lp ++ bs)) by (rewrite H; apply NoDup_seq).
  assert (Hin : forall k, k ∈ lp ++ bs -> (0 < k < length v)%nat).
  { intros k Hk. rewrite H, elem_of_seq in Hk. lia. }
  apply NoDup_app in Hnd as (H1 & H2 & H3).
  split_and!; [done|done| | |done|].
  - apply Forall_forall. intros k Hk. apply Hin. set_solver.
  - apply Forall_forall. intros k Hk. apply Hin. set_solver.
  - intros k Hk. destruct k as [|k]; [by left|right]. rewrite <- elem_of_app, H, elem_of_seq. lia.
Qed.

(** Where the search stops: on a common document every child that was advanced
    is on, or at the end. *)
Definition settled (v0 v : list S) (lp : list nat) (doc : Z) : Prop :=
  vec_at v0 v doc /\
  (doc = NO_MORE_DOCS \/
   doc ∈ common v0 /\ forall k, k ∈ lp -> exists s, v !! k = Some s /\ doc_id s = doc).

Lemma agree_settled v0 v v' doc lp bs :
  covers v0 lp bs -> 0 <= doc < NO_MORE_DOCS -> doc ∈ lead_approx v0 ->
  vec_at v0 v doc -> (forall k, k ∈ lp -> exists s, v !! k = Some s /\ doc_id s = doc) ->
  vec_at v0 v' doc -> (forall k, k ∉ bs -> v' !! k = v !! k) ->
  (forall k s, k ∈ bs -> v0 !! k = Some s -> doc ∈ approx s) ->
  settled v0 v' lp doc.
Proof.
  intros Hc Hd Hda Hv Hlp Hv' Ho Hbs. destruct (covers_bounds _ _ _ Hc) as (_ & _ & _ & _ & Hdis & Hcov).
  split; [done|]. right. split.
  - apply elem_of_meet. pose proof Hv as (Hg & Hsm & (l & Hl & _) & _). split.
    + intros He. apply map_eq_nil in He. subst v0. apply all_same_length in Hsm.
      by destruct v.
    + intros A (s & -> & (k & Hk)%list_elem_of_lookup)%list_elem_of_fmap.
      pose proof (lookup_lt_Some _ _ _ Hk) as Hkl.
      destruct (Hcov k Hkl) as [->|[Hin|Hin]]; [|
        |by eapply Hbs].
      * unfold lead_approx, ask in Hda. by rewrite Hk in Hda.
      * destruct (Hlp k Hin) as (t & Ht & Hdt).
        destruct (all_same_lookup _ _ _ _ Hsm Ht) as (s0 & H0 & Ha & _).
        rewrite Hk in H0. injection H0 as <-. rewrite <- Ha, <- Hdt.
        apply doc_id_positioned; [exact (vec_good _ _ _ _ _ Hv Ht)|lia].
  - intros k Hk. rewrite Ho by auto. by apply Hlp.
Qed.

Lemma do_next_loop_ok n k v0 lp bs v doc :
  covers v0 lp bs -> (total_need v0 <= n)%nat -> vec_at v0 v doc -> 0 <= doc ->
  doc = NO_MORE_DOCS \/ doc ∈ lead_approx v0 -> (count_from (lead_approx v0) doc + 1 < k)%nat ->
  wp (do_next_loop k lp bs v doc) n
     (fun r => settled v0 r.2 lp r.1 /\ doc <= r.1 /\ forall x, x ∈ common v0 -> doc <= x -> r.1 <= x).
Proof.
  intros Hc Hn. pose proof (covers_bounds _ _ _ Hc) as (Hn1 & Hn2 & Hb1 & Hb2 & _).
  revert v doc. induction k as [|k IH]; intros v doc Hv H0 Hda Hk; [lia|]. cbn [do_next_loop].
  destruct (Z.eqb_spec doc NO_MORE_DOCS) as [->|Hne].
  { wp_ret. split; [by split; [|left]|]. split; [lia|done]. }
  destruct Hda as [|Hda]; [done|].
  assert (Hd : 0 <= doc < NO_MORE_DOCS).
  { split; [done|]. destruct Hv as (Hg & _ & (l & Hl & <-) & _). rewrite Forall_lookup in Hg.
    pose proof (doc_id_range l (Hg _ _ Hl)). lia. }
  assert (Hrec : forall w doc', restart v0 w doc doc' ->
    wp (do_next_loop k lp bs w doc') n (fun r => settled v0 r.2 lp r.1 /\ doc <= r.1 /\
        forall x, x ∈ common v0 -> doc <= x -> r.1 <= x)).
  { intros w doc' (Hw & Hlt & Hin & Hx).
    pose proof (count_from_lt _ _ _ Hda Hlt).
    wp_use IH; [done|lia|done|lia|].
    intros [r w'] (Hst & Hle & Hlow). cbn [fst snd] in *. split; [done|]. split; [lia|].
    intros x Hxc Hxd. apply Hlow; [done|]. by apply Hx. }
  wp_bind. wp_use leap_loop_ok; [done..|].
  intros [[doc'|] w] Hr; cbn [fst snd] in *; [by apply Hrec|]. destruct Hr as [Hw Hlp].
  wp_bind. wp_use bits_loop_ok; [done..|].
  intros [[doc'|] w'] Hr; cbn [fst snd] in *; [by apply Hrec|]. destruct Hr as (Hw' & Ho & Hbs).
  wp_ret. split; [exact (agree_settled v0 w w' doc lp bs Hc Hd Hda Hw Hlp Hw' Ho Hbs)|]. split; [lia|done].
Qed.

(** ** The conjunction as a scorer *)
Definition two_indices (v : list S) : list nat :=
  List.filter (fun i => ask v i two_phase false) (seq 0 (length v)).

(** What the constructor arranges and no operation changes. *)
Definition conj_shape (c : ConjunctionScorer S) (v : list S) : Prop :=
  v <> [] /\ covers v (leap c) (bits c) /\ conj_two_phase c ≡ₚ two_indices v /\
  Forall (fun i => (i < length v)%nat) (scoring c) /\
  (forall i, i ∈ bits c -> i ∉ scoring c /\ ask v i two_phase false = false).

#[export] Instance conj_view : ScorerView (ConjunctionScorer S) := {
  good c := conj_shape c (scorers c) /\
    (Forall fresh (scorers c) \/ exists doc, 0 <= doc /\ settled (scorers c) (scorers c) (leap c) doc);
  approx c := common (scorers c);
  accept c := meet (map accept (scorers c));
  confirmed c := forall i s, i ∈ scoring c -> scorers c !! i = Some s -> confirmed s;
  need c := (total_need (scorers c) + size (lead_approx (scorers c)) + 3)%nat;
  gives c d x := exists xs, Forall2 (gives_at (map gives (scorers c)) d) (scoring c) xs /\ x = sum_of xs;
}.

Lemma conj_shape_same c v v' : all_same v v' -> conj_shape c v -> conj_shape (with_scorers c v') v'.
Proof.
  intros Hs (H1 & H2 & H3 & H4 & H5). pose proof (all_same_length _ _ Hs) as Hl.
  assert (Hask : forall i, ask v' i two_phase false = ask v i two_phase false).
  { intros i. unfold ask. destruct (v' !! i) as [s|] eqn:E1.
    - by destruct (all_same_lookup _ _ _ _ Hs E1) as (s0 & -> & _ & _ & -> & _ & _).
    - apply lookup_ge_None in E1. rewrite <- Hl in E1. by apply lookup_ge_None in E1 as ->. }
  split_and!.
  - by destruct v, v'.
  - unfold covers in *. cbn. by rewrite <- Hl.
  - cbn. rewrite H3. unfold two_indices. rewrite <- Hl.
    by rewrite (List.filter_ext _ _ Hask (seq 0 (length v))).
  - cbn. by rewrite <- Hl.
  - cbn. intros i Hi. rewrite Hask. by apply H5.
Qed.

Lemma conj_same c v' : all_same (scorers c) v' -> same c (with_scorers c v').
Proof.
  intros Hs. unfold same. cbn. unfold common, lead_approx, total_need.
  rewrite (all_same_approx _ _ Hs), (all_same_accept _ _ Hs), (all_same_gives _ _ Hs).
  fold (total_need v'). fold (total_need (scorers c)). rewrite (all_same_need _ _ Hs).
  split_and!; try done. do 3 f_equal. destruct Hs as [|x y l k (Hxy & _) _]; [done|exact Hxy].
Qed.

Lemma settled_same v0 v lp doc : all_same v0 v -> settled v0 v lp doc -> settled v v lp doc.
Proof.
  intros Hs ((Hg & _ & Hl & Hle) & Hd). split.
  - split; [done|]. split; [apply all_same_refl|]. done.
  - unfold common. by rewrite (all_same_approx _ _ Hs).
Qed.

Lemma vec_doc v0 v doc : vec_at v0 v doc -> ask v O doc_id (-1) = doc.
Proof. intros (_ & _ & (l & Hl & <-) & _). unfold ask. by rewrite Hl. Qed.

(** The children of a good conjunction are at the lead's document at most. *)
Lemma conj_vec c : good c -> exists l, scorers c !! O = Some l /\ doc_id c = doc_id l /\
  vec_at (scorers c) (scorers c) (doc_id c).
Proof.
  intros ((Hne & _) & Hp). destruct (scorers c) as [|l v] eqn:Ev; [done|]. exists l. cbn. rewrite Ev. cbn.
  split; [done|]. split; [done|]. destruct Hp as [Hf|(doc & _ & (Hv & _))].
  - rewrite Forall_forall in Hf. split; [apply Forall_forall; intros s Hs; by apply Hf|].
    split; [apply all_same_refl|]. split; [by exists l|].
    intros i s Hs%list_elem_of_lookup_2. destruct (Hf s Hs) as (_ & ->).
    destruct (Hf l ltac:(left)) as (_ & ->). lia.
  - pose proof (vec_doc _ _ _ Hv) as Hd. cbn in Hd. by rewrite Hd.
Qed.

Lemma conj_do_next_ok n c v doc t :
  good c -> (need c <= n)%nat -> vec_at (scorers c) v doc -> 0 <= doc -> t <= doc ->
  doc = NO_MORE_DOCS \/ doc ∈ lead_approx (scorers c) ->
  (forall x, x ∈ common (scorers c) -> t <= x -> doc <= x) ->
  wp (conj_do_next c v doc) n (lands c t).
Proof.
  intros (Hsh & _) Hn Hv H0 Ht Hda Hx. pose proof Hsh as (_ & Hc & _).
  cbn [need conj_view] in Hn. unfold conj_do_next, cloop. wp_bind.
  pose proof (count_from_le (lead_approx (scorers c)) doc).
  wp_use (do_next_loop_ok n n (scorers c) (leap c) (bits c)); [done|lia|done|done|done|lia|].
  intros [d v'] (Hst & Hle & Hlow). wp_ret. cbn [fst snd] in *.
  pose proof Hst as ((_ & Hsm & _) & Hd). pose proof (vec_doc _ _ _ (proj1 Hst)) as Hdoc.
  split; [|split; [|split]].
  - split; [by eapply conj_shape_same|]. right. exists d. cbn. split; [lia|]. by eapply settled_same.
  - by apply conj_same.
  - done.
  - cbn. split; [lia|]. split; [destruct Hd as [|[? _]]; [by left|by right]|].
    intros x Hxc Hxt. apply Hlow; [done|]. by apply Hx.
Qed.

Lemma settled_placed v0 v lp doc : placed v0 v -> settled v0 v0 lp doc -> settled v v lp doc.
Proof.
  intros Hp ((Hg & _ & (l & Hl & Hd) & Hle) & Hdoc). pose proof Hp as (Hg' & Hs & _).
  split; [split; [done|split; [apply all_same_refl|split]]|].
  - destruct (placed_lookup_fw _ _ _ _ Hp Hl) as (l' & Hl' & _ & _ & Hd'). exists l'. by rewrite Hd'.
  - intros i s Hi. destruct (placed_lookup _ _ _ _ Hp Hi) as (_ & s0 & H0 & _ & H1).
    rewrite H1. by eapply Hle.
  - destruct Hdoc as [|[Hc Hk]]; [by left|right]. unfold common in *. rewrite (all_same_approx _ _ Hs).
    split; [done|]. intros k Hin. destruct (Hk k Hin) as (s0 & H0 & H1).
    destruct (placed_lookup_fw _ _ _ _ Hp H0) as (s & Hs1 & _ & _ & Hs2). exists s. by rewrite Hs2.
Qed.

Lemma conj_placed c w :
  good c -> placed (scorers c) w ->
  good (with_scorers c w) /\ same c (with_scorers c w) /\ doc_id (with_scorers c w) = doc_id c.
Proof.
  intros [Hsh Hp] Hpl. pose proof Hpl as (Hg & Hs & Hd). split; [split|split].
  - by eapply conj_shape_same.
  - cbn. destruct Hp as [Hf|(doc & H0 & Hset)]; [left|right; exists doc; split; [done|by eapply settled_placed]].
    rewrite Forall_lookup in *. intros i s Hi.
    destruct (placed_lookup _ _ _ _ Hpl Hi) as (Hgs & s0 & H0 & _ & H2).
    split; [done|]. rewrite H2. by eapply Hf.
  - by apply conj_same.
  - cbn. unfold with_scorers. cbn. destruct w as [|x w], (scorers c) as [|y v]; try done.
    unfold ask. cbn. cbn in Hd. by injection Hd.
Qed.

Lemma conj_still c v : good c -> still (scorers c) v -> stays c (with_scorers c v).
Proof.
  intros HG Hst. pose proof Hst as (Hp & _).
  destruct (conj_placed c v HG Hp) as (H1 & H2 & H3). split_and!; [done..|].
  intros Hcf i s Hi Hs'. destruct (placed_lookup _ _ _ _ Hp Hs') as (_ & s0 & H0 & _).
  eapply still_confirmed; [exact Hst|exact H0|exact Hs'|]. by eapply Hcf.
Qed.

(** Where a positioned conjunction's children are. *)
Lemma conj_on c i s :
  good c -> doc_id c ∈ approx c -> scorers c !! i = Some s -> i ∉ bits c ->
  good s /\ doc_id s = doc_id c.
Proof.
  intros HG Hd Hi Hnb. destruct (conj_vec c HG) as (l & Hl & Hdl & Hv). pose proof HG as [Hsh Hp].
  pose proof (vec_good _ _ _ _ _ Hv Hi) as Hgs. split; [done|].
  destruct Hp as [Hf|(doc & H0 & Hset)].
  { exfalso. rewrite Forall_lookup in Hf. destruct (Hf _ _ Hl) as (Hgl & Hml).
    rewrite Hdl in Hd. pose proof (common_lookup _ _ _ _ Hl Hd) as Hin.
    pose proof (approx_range l _ Hgl Hin). lia. }
  pose proof Hset as (Hv' & Hdoc). pose proof (vec_doc _ _ _ Hv') as He.
  change (ask (scorers c) 0 doc_id (-1)) with (doc_id c) in He. subst doc.
  destruct Hdoc as [Hnm|[_ Hk]].
  { pose proof (common_lookup _ _ _ _ Hl Hd). pose proof (vec_good _ _ _ _ _ Hv Hl) as Hgl.
    pose proof (approx_range l _ Hgl H). lia. }
  destruct Hsh as (_ & Hc & _). destruct (covers_bounds _ _ _ Hc) as (_ & _ & _ & _ & _ & Hcov).
  destruct (Hcov i (lookup_lt_Some _ _ _ Hi)) as [->|[Hin|]]; [congruence| |done].
  destruct (Hk i Hin) as (s' & Hs' & <-). congruence.
Qed.

Lemma two_indices_elem v i : i ∈ two_indices v <-> exists s, v !! i = Some s /\ two_phase s = true.
Proof.
  unfold two_indices. rewrite list_elem_of_In, filter_In, <- list_elem_of_In, elem_of_seq. unfold ask. split.
  - intros [Hi Ht]. destruct (v !! i) as [s|]; [by exists s|done].
  - intros (s & Hs & Ht). rewrite Hs. split; [|done]. apply lookup_lt_Some in Hs. lia.
Qed.

Lemma two_phase_not_bits c i : conj_shape c (scorers c) -> i ∈ conj_two_phase c ->
  exists s, scorers c !! i = Some s /\ two_phase s = true /\ i ∉ bits c.
Proof.
  intros (_ & _ & H3 & _ & H5) Hi. rewrite H3 in Hi. apply two_indices_elem in Hi as (s & Hs & Ht).
  exists s. split; [done|]. split; [done|]. intros Hb. destruct (H5 i Hb) as (_ & Hf).
  unfold ask in Hf. rewrite Hs in Hf. congruence.
Qed.

Lemma conj_accept_elem c d :
  conj_shape c (scorers c) -> Forall good (scorers c) -> d ∈ approx c ->
  d ∈ accept c <-> forall i s, i ∈ conj_two_phase c -> scorers c !! i = Some s -> d ∈ accept s.
Proof.
  intros Hsh Hg Hd. pose proof Hsh as (_ & _ & H3 & _). cbn. rewrite elem_of_meet. split.
  - intros [_ H] i s Hi Hs. apply H. apply list_elem_of_fmap. exists s. split; [done|].
    by eapply list_elem_of_lookup_2.
  - intros H. apply elem_of_meet in Hd as [Hne Hd]. split; [by destruct (scorers c)|].
    intros A (s & -> & (i & Hi)%list_elem_of_lookup)%list_elem_of_fmap.
    destruct (two_phase s) eqn:E2.
    + apply (H i s); [|done]. rewrite H3. apply two_indices_elem. eauto.
    + rewrite Forall_lookup in Hg. rewrite one_phase; [|eauto|done]. apply Hd.
      apply list_elem_of_fmap. exists s. split; [done|]. by eapply list_elem_of_lookup_2.
Qed.

(** One call on a child that stays where it is. *)
Lemma still_step {A} n v0 v i (f : S -> comp E (A * S)) (P : A -> Prop) s0 :
  still v0 v -> v0 !! i = Some s0 ->
  (forall s, good s -> same s0 s -> doc_id s = doc_id s0 -> (confirmed s0 -> confirmed s) ->
     wp (f s) n (fun r => stays s r.2 /\ P r.1)) ->
  wp (with_at v i f) n (fun r => still v0 r.2 /\ P r.1).
Proof.
  intros Hst Hi Hf. pose proof Hst as [Hp _].
  destruct (placed_lookup_fw _ _ _ _ Hp Hi) as (s & Hs & Hg & Hsm & Hd).
  eapply wp_with_at; [done|]. wp_use Hf; [done|done|done|by eapply still_confirmed|].
  intros [a s'] [Hst' HP]. cbn in *. split; [by eapply still_insert|done].
Qed.

Lemma conj_good_children c : good c -> Forall good (scorers c).
Proof. intros HG. by destruct (conj_vec c HG) as (l & _ & _ & Hg & _). Qed.

Lemma conj_child_need n c i s :
  (need c <= n)%nat -> scorers c !! i = Some s -> (need s <= n)%nat.
Proof. intros Hn Hi. cbn in Hn. pose proof (need_le _ _ _ Hi). lia. Qed.

(** Confirming one two-phase child. *)
Lemma matches_step n c i w :
  good c -> doc_id c ∈ approx c -> (need c <= n)%nat -> i ∈ conj_two_phase c -> placed (scorers c) w ->
  wp (with_at w i matches) n (fun r => exists s y, scorers c !! i = Some s /\
    r.1 = bool_decide (doc_id c ∈ accept s) /\ r.2 = <[i := y]> w /\ placed (scorers c) r.2 /\
    (r.1 = true -> confirmed y)).
Proof.
  intros HG Hd Hn Hin Hp. pose proof HG as [Hsh _].
  destruct (two_phase_not_bits c i Hsh Hin) as (s & Hs & _ & Hnb).
  destruct (conj_on c i s HG Hd Hs Hnb) as [Hg Hds].
  destruct (placed_lookup_fw _ _ _ _ Hp Hs) as (x & Hx & Hgx & (Ha & Hc & _ & Hne & _) & Hdx).
  eapply wp_with_at; [done|]. wp_use matches_ok; [done| |rewrite Hne; by eapply conj_child_need|].
  { rewrite Ha, Hdx, Hds. by eapply common_lookup. }
  intros [b y] (Hgy & Hsy & Hdy & Hb & Hcy). cbn [fst snd] in *. exists s, y.
  rewrite Hc, Hdx, Hds in Hb. split_and!; try done. by eapply placed_insert.
Qed.

(** All two-phase children confirmed: the scoring ones are. *)
Lemma all_confirmed c w :
  good c -> doc_id c ∈ approx c -> placed (scorers c) w ->
  (forall i s, i ∈ conj_two_phase c -> w !! i = Some s -> confirmed s) ->
  forall i s, i ∈ scoring c -> w !! i = Some s -> confirmed s.
Proof.
  intros HG Hd Hp Hcf i s Hi Hs. pose proof HG as [(_ & _ & H3 & _ & H5) _].
  destruct (placed_lookup _ _ _ _ Hp Hs) as (Hg & s0 & H0 & (Ha & _ & Ht & _) & Hds).
  destruct (two_phase s) eqn:E2.
  - eapply Hcf; [|done]. rewrite H3. apply two_indices_elem. exists s0. split; [done|congruence].
  - apply one_phase_confirmed; [done|done|].
    destruct (conj_on c i s0 HG Hd H0) as [_ Hd0]; [intros Hb; by destruct (H5 i Hb)|].
    rewrite Hds, Hd0, Ha. by eapply common_lookup.
Qed.

Lemma conj_matches_ok n c :
  good c -> doc_id c ∈ approx c -> (need c <= n)%nat -> wp (conj_matches c) n (answers c).
Proof.
  intros HG Hd Hn. pose proof HG as [Hsh _]. pose proof (conj_good_children c HG) as Hgs.
  pose proof (conj_accept_elem c _ Hsh Hgs Hd) as Hacc. unfold conj_matches. wp_bind.
  wp_use (wp_for_each (fun rest w => exists pre, conj_two_phase c = pre ++ rest /\
      placed (scorers c) w /\ (forall i s, i ∈ pre -> w !! i = Some s -> confirmed s) /\
      forall i s, i ∈ pre -> scorers c !! i = Some s -> doc_id c ∈ accept s) _ n
    (fun r => placed (scorers c) r.2 /\ match r.1 with
      | None => doc_id c ∈ accept c /\ forall i s, i ∈ conj_two_phase c -> r.2 !! i = Some s -> confirmed s
      | Some b => b = false /\ doc_id c ∉ accept c end)).
  - intros i rest w (pre & Hpre & Hp & Hcf & Hac).
    assert (Hin : i ∈ conj_two_phase c) by (rewrite Hpre; set_solver). wp_bind.
    wp_use (matches_step n c i w); [done..|].
    intros [b w'] (s & y & Hs & Hb & Hw & Hp' & Hcy). cbn [fst snd] in *. subst w'. wp_ret.
    destruct b; symmetry in Hb; [apply bool_decide_eq_true_1 in Hb|apply bool_decide_eq_false_1 in Hb].
    + exists (pre ++ [i]). split; [by rewrite <- app_assoc|]. split; [done|]. split.
      * intros j t Hj [(<- & <- & _)|(Hne & Hj')]%list_lookup_insert_Some; [by apply Hcy|].
        apply elem_of_app in Hj as [Hj|Hj%list_elem_of_singleton]; [by eapply Hcf|congruence].
      * intros j t [Hj|Hj%list_elem_of_singleton]%elem_of_app Ht'; [by eapply Hac|congruence].
    + split; [done|]. split; [done|]. intros H. apply Hb. by eapply Hacc.
  - intros w (pre & Hpre & Hp & Hcf & Hac). rewrite app_nil_r in Hpre. subst pre. split; [done|].
    split; [by apply Hacc|done].
  - exists []. split; [done|]. split; [by apply placed_refl|].
    split; intros i s Hi; by apply not_elem_of_nil in Hi.
  - intros [r w] [Hp Hr]. wp_ret. cbn [fst snd] in *.
    destruct (conj_placed c w HG Hp) as (H1 & H2 & H3). split_and!; try done.
    + destruct r as [b|]; [destruct Hr as [-> Hr]; by rewrite bool_decide_false|].
      by rewrite bool_decide_true by apply Hr.
    + cbn [fst snd]. intros Ht. destruct r as [b|]; [destruct Hr; congruence|]. destruct Hr as [_ Hr].
      exact (all_confirmed c w HG Hd Hp Hr).
Qed.

(** A loop over the scoring children that leaves them in place; [J] relates
    what it accumulated to the children visited. *)
Lemma scoring_loop_ok {St} (J : list nat -> St -> Prop) n c (body : nat -> St * list S -> comp E (option f32 * (St * list S))) a :
  good c -> J [] a ->
  (forall i s b w pre, i ∈ scoring c -> scorers c !! i = Some s -> i ∉ bits c -> still (scorers c) w -> J pre b ->
     wp (body i (b, w)) n (fun r => r.1 = None /\ still (scorers c) r.2.2 /\ J (pre ++ [i]) r.2.1)) ->
  wp (for_each (scoring c) body (a, scorers c)) n (fun r => still (scorers c) r.2.2 /\ J (scoring c) r.2.1).
Proof.
  intros HG Ha Hb. pose proof HG as [(_ & _ & _ & H4 & H5) _].
  apply (wp_for_each (fun rest st => exists pre, scoring c = pre ++ rest /\ still (scorers c) st.2 /\ J pre st.1)).
  - intros i rest [b w] (pre & Hpre & Hst & HJ). assert (Hin : i ∈ scoring c) by (rewrite Hpre; set_solver).
    rewrite Forall_forall in H4. destruct (lookup_lt (scorers c) i (H4 i Hin)) as [s Hs].
    wp_use (Hb i s b w pre Hin Hs); [intros Hbi; by destruct (H5 i Hbi)|done|done|].
    intros [r st] (Hr & Hst' & HJ'). cbn in *. subst r. exists (pre ++ [i]). by rewrite <- app_assoc.
  - intros st (pre & Hpre & Hst & HJ). rewrite app_nil_r in Hpre. by subst pre.
  - exists []. split; [done|]. split; [|done]. apply still_refl. by apply conj_good_children.
Qed.

Lemma conj_score_ok n c :
  good c -> doc_id c ∈ accept c -> confirmed c -> (need c <= n)%nat -> wp (conj_score c) n (gives_score c).
Proof.
  intros HG Hd Hcf Hn. pose proof HG as [Hsh _]. pose proof (conj_good_children c HG) as Hgs.
  assert (Hda : doc_id c ∈ approx c).
  { cbn in *. apply elem_of_meet in Hd as [Hne Hd]. apply elem_of_meet. split.
    - destruct (scorers c); [|done]. by destruct Hne.
    - intros A (s & -> & Hs)%list_elem_of_fmap. rewrite Forall_forall in Hgs.
      apply accept_approx; [by apply Hgs|]. apply Hd. apply list_elem_of_fmap. eauto. }
  unfold conj_score. wp_bind.
  wp_use (scoring_loop_ok (fun pre sum => exists xs, Forall2 (gives_at (map gives (scorers c)) (doc_id c)) pre xs /\
    sum = fold_left add_score xs (f64_of_Z 0))); [done|by exists []| |].
  - intros i s b w pre Hin Hs Hnb Hst (xs & Hxs & ->). destruct (conj_on c i s HG Hda Hs Hnb) as [Hg Hds]. wp_bind.
    wp_use (still_step n _ _ i score (gives s (doc_id s)) s Hst Hs).
    + intros s' Hg' Hsm Hds' Hcs. pose proof Hsm as (Ha & Hc & _ & Hne & Hv).
      wp_use score_ok; [done| |by eapply Hcs, Hcf|rewrite Hne; by eapply conj_child_need|].
      * rewrite Hc, Hds', Hds. cbn in Hd. apply elem_of_meet in Hd as [_ Hd]. apply Hd.
        apply list_elem_of_fmap. exists s. split; [done|]. by eapply list_elem_of_lookup_2.
      * intros r [Hh Hx]. split; [exact Hh|]. by rewrite <- Hv, <- Hds'.
    + intros [x w'] [Hst' Hx]. apply wp_ret. split; [done|]. split; [done|]. exists (xs ++ [x]). split; [|by rewrite fold_left_app].
      apply Forall2_app; [done|]. constructor; [|constructor]. exists (gives s). split; [|by rewrite <- Hds].
      change (map gives (scorers c)) with (gives <$> scorers c). by rewrite list_lookup_fmap, Hs.
  - intros [r [sum v]] [Hst (xs & Hxs & Hsum)]. cbn [fst snd] in *. subst sum. wp_ret.
    split; [by apply conj_still|]. by exists xs.
Qed.

Lemma conj_max_score_ok n c t : good c -> (need c <= n)%nat -> wp (conj_max_score c t) n (holds c).
Proof.
  intros HG Hn. unfold conj_max_score. wp_bind. wp_use (scoring_loop_ok (fun _ _ => True)); [done|done| |].
  - intros i s b w _ Hin Hs Hnb Hst _. destruct (ask w i doc_id 0 <=? t); [|by wp_ret]. wp_bind.
    wp_use (still_step n _ _ i (fun s => max_score s t) (fun _ => True) s Hst Hs).
    + intros s' Hg' Hsm Hds' _. wp_use max_score_ok; [done| |by intros r Hh].
      destruct Hsm as (_ & _ & _ & -> & _). by eapply conj_child_need.
    + intros [x w'] [Hst' _]. by wp_ret.
  - intros [r [sum v]] [Hst _]. wp_ret. by apply conj_still.
Qed.

Lemma conj_shallow_ok n c t : good c -> 0 <= t -> (need c <= n)%nat -> wp (conj_advance_shallow c t) n (holds c).
Proof.
  intros HG Ht Hn. pose proof HG as [(_ & _ & _ & H4 & _) _]. rewrite Forall_forall in H4.
  assert (Hone : forall i w, i ∈ scoring c -> still (scorers c) w ->
    wp (with_at w i (fun s => advance_shallow s t)) n (fun r => still (scorers c) r.2 /\ True)).
  { intros i w Hi Hst. destruct (lookup_lt (scorers c) i (H4 i Hi)) as [s Hs].
    apply (still_step n _ _ i _ (fun _ => True) s Hst Hs). intros s' Hg' Hsm Hds' _.
    wp_use shallow_ok; [done|done| |by intros r Hh].
    destruct Hsm as (_ & _ & _ & -> & _). by eapply conj_child_need. }
  assert (Hall : wp (let! (r, v) := for_each (R := Z) (scoring c)
        (fun i v => let! (_, v) := with_at v i (fun s => advance_shallow s t) in cret (None, v))
        (scorers c) in cret (NO_MORE_DOCS, with_scorers c v)) n (holds c)).
  { wp_bind. wp_use (wp_for_each (fun rest w => rest ⊆ scoring c /\ still (scorers c) w) _ n
      (fun r => still (scorers c) r.2)).
    - intros i rest w [Hsub Hst]. wp_bind. wp_use Hone; [apply Hsub; left|done|].
      intros [d w'] [Hst' _]. wp_ret. split; [intros j Hj; apply Hsub; by right|done].
    - by intros w [_ Hst].
    - split; [done|]. apply still_refl. by apply conj_good_children.
    - intros [r v] Hst. wp_ret. by apply conj_still. }
  unfold conj_advance_shallow. destruct (scoring c) as [|only [|]] eqn:Es; [exact Hall| |exact Hall].
  wp_bind. wp_use Hone; [left|apply still_refl; by apply conj_good_children|].
  intros [d v] [Hst _]. wp_ret. by apply conj_still.
Qed.

(** The lead moves, then the others are made to agree. *)
Lemma conj_move_ok n c t (f : S -> comp E (Z * S)) :
  good c -> (need c <= n)%nat -> doc_id c < t ->
  (forall l, good l -> doc_id l = doc_id c -> (need l <= n)%nat -> wp (f l) n (lands l t)) ->
  wp (let! (doc, v) := with_at (scorers c) 0 f in conj_do_next c v doc) n (lands c t).
Proof.
  intros HG Hn Ht Hf. destruct (conj_vec c HG) as (l & Hl & Hdl & Hv).
  pose proof (vec_good _ _ _ _ _ Hv Hl) as Hgl. pose proof Hv as (Hgs & Hsm & _ & Hle).
  wp_bind. eapply wp_with_at; [done|]. wp_use Hf; [done|done|by eapply conj_child_need|].
  intros [d l'] (Hg' & Hs' & Hd' & Hfa). cbn [fst snd] in *. pose proof (first_at_le _ _ _ Hfa).
  pose proof (doc_id_range l Hgl). rewrite (lead_same (scorers c) (scorers c) l Hsm Hl) in Hfa.
  apply conj_do_next_ok; [done|done| |lia|lia|apply Hfa|].
  - by eapply (vec_insert_lead _ _ (doc_id c) l); [..|lia].
  - intros x Hx Hxt. apply Hfa; [|done]. rewrite <- (lead_same (scorers c) (scorers c) l Hsm Hl).
    by eapply vec_approx.
Qed.

#[export] Instance conj_laws : ScorerLaws E (ConjunctionScorer S).
Proof.
  split.
  - intros c HG x Hx. pose proof (conj_good_children c HG) as Hg. cbn in *.
    apply elem_of_meet in Hx as [Hne Hx]. apply elem_of_meet. split; [by destruct (scorers c)|].
    intros A (s & -> & Hs)%list_elem_of_fmap. rewrite Forall_forall in Hg.
    apply accept_approx; [by apply Hg|]. apply Hx. apply list_elem_of_fmap. eauto.
  - intros c d HG Hd. destruct (conj_vec c HG) as (l & Hl & _ & Hv).
    apply (approx_range l); [by eapply vec_good|by eapply common_lookup].
  - intros c HG. destruct (conj_vec c HG) as (l & Hl & Hdl & Hv). destruct HG as [Hsh Hp].
    destruct Hp as [Hf|(doc & H0 & Hset)].
    + left. rewrite Hdl. rewrite Forall_lookup in Hf. by destruct (Hf _ _ Hl).
    + right. pose proof (vec_doc _ _ _ (proj1 Hset)) as He.
      change (ask (scorers c) 0 doc_id (-1)) with (doc_id c) in He. subst doc.
      destruct Hset as [_ [|[? _]]]; [by left|by right].
  - intros c HG Ht. pose proof (conj_good_children c HG) as Hg. pose proof HG as [Hsh _].
    apply set_eq. intros x. assert (Hsub : x ∈ accept c -> x ∈ approx c).
    { cbn. intros [Hne Hx]%elem_of_meet. apply elem_of_meet. split; [by destruct (scorers c)|].
      intros A (s & -> & Hs)%list_elem_of_fmap. rewrite Forall_forall in Hg.
      apply accept_approx; [by apply Hg|]. apply Hx. apply list_elem_of_fmap. eauto. }
    split; [done|]. intros Hx. apply conj_accept_elem; [done|done|done|].
    cbn in Ht. destruct (conj_two_phase c); [|done]. intros i s Hi. by apply not_elem_of_nil in Hi.
  - intros n c HG Hd Hn. apply conj_move_ok; [done|done|lia|]. intros l Hl Hdl Hnl.
    rewrite <- Hdl. apply next_doc_ok; [done|by rewrite Hdl|done].
  - intros n c t HG Hd Ht Hn. apply (conj_move_ok n c t (fun s => advance s t)); [done|done|done|].
    intros l Hl Hdl Hnl. apply advance_ok; [done|by rewrite Hdl|done|done].
  - intros n c HG Hd Hn. by apply conj_matches_ok.
  - intros c HG Ht Hd i s Hi Hs. eapply (all_confirmed c (scorers c)); [done|done| | |done|done].
    + by apply placed_refl, conj_good_children.
    + intros j t Hj. cbn in Ht. destruct (conj_two_phase c); [|done]. by apply not_elem_of_nil in Hj.
  - intros n c HG Hd Hc Hn. by apply conj_score_ok.
  - intros n c t HG Ht Hn. by apply conj_shallow_ok.
  - intros n c t HG Hn. by apply conj_max_score_ok.
  - intros c t HG Hd Ht. by split_and!.
  - done.
Qed.

(** ** The constructor *)
Definition conj_children (required scoring : list S) : list S :=
  map fst (sort_by (fun a b => cost a.1 <=? cost b.1)
    (map (fun s => (s, false)) required ++ map (fun s => (s, true)) scoring)).

Lemma conj_children_perm required scoring : conj_children required scoring ≡ₚ required ++ scoring.
Proof.
  unfold conj_children. rewrite sort_by_perm, map_app, !map_map. cbn. by rewrite !map_id.
Qed.

Lemma filter_split_perm {A} (f : A -> bool) (l : list A) :
  List.filter (fun i => negb (f i)) l ++ List.filter f l ≡ₚ l.
Proof.
  induction l as [|x l IH]; cbn; [done|]. destruct (f x); cbn.
  - rewrite <- Permutation_middle. by rewrite IH.
  - by rewrite IH.
Qed.

Lemma conj_new_good required scoring :
  required ++ scoring <> [] -> Forall fresh (required ++ scoring) -> good (conj_new required scoring).
Proof.
  intros Hne Hf. set (v := conj_children required scoring).
  assert (Hv : scorers (conj_new required scoring) = v) by done.
  split; [|left; rewrite Hv; unfold v; by rewrite (conj_children_perm required scoring)].
  rewrite Hv. split_and!.
  - intros He. pose proof (conj_children_perm required scoring) as Hp. fold v in Hp. rewrite He in Hp.
    by apply Permutation_nil in Hp.
  - apply filter_split_perm.
  - apply sort_by_perm.
  - apply Forall_forall. intros i Hi. cbn in Hi.
    rewrite list_elem_of_In, filter_In, <- list_elem_of_In, elem_of_seq in Hi.
    unfold v, conj_children. rewrite length_map. lia.
  - cbn. intros i Hi. rewrite list_elem_of_In, filter_In in Hi. destruct Hi as [_ Hi].
    apply andb_prop in Hi as [Hi _]. apply andb_prop in Hi as [H1 H2].
    split; [by apply negb_true_iff, bool_decide_eq_false in H1|].
    unfold v, conj_children. by destruct (ask _ i two_phase false).
Qed.

Lemma conj_new_approx required scoring :
  approx (conj_new required scoring) = meet (map approx (required ++ scoring)).
Proof. cbn. unfold common. apply meet_perm. by rewrite (conj_children_perm required scoring). Qed.

Lemma conj_new_accept required scoring :
  accept (conj_new required scoring) = meet (map accept (required ++ scoring)).
Proof. cbn. apply meet_perm. by rewrite (conj_children_perm required scoring). Qed.

(** The score: of the scoring clauses, added in the order of their costs. *)
Lemma conj_new_gives (required scoring : list S) d x :
  gives (conj_new required scoring) d x ->
  exists (ss : list S) xs, ss ≡ₚ scoring /\ Forall2 (fun s y => gives s d y) ss xs /\ x = sum_of xs.
Proof.
  set (all := sort_by (fun a b : S * bool => cost a.1 <=? cost b.1)
    (map (fun s => (s, false)) required ++ map (fun s => (s, true)) scoring)).
  assert (Hp : List.filter snd all ≡ₚ map (fun s => (s, true)) scoring).
  { unfold all. transitivity (List.filter snd (map (fun s => (s, false)) required ++ map (fun s : S => (s, true)) scoring)).
    - apply filter_perm, sort_by_perm.
    - rewrite List.filter_app. clear. induction required as [|r l IH]; [|exact IH]. cbn.
      induction scoring as [|r l IH]; cbn; [done|]. by rewrite IH. }
  intros (xs & Hxs & ->). exists (map fst (List.filter snd all)), xs. split; [|split; [|done]].
  - rewrite Hp, map_map. cbn. by rewrite map_id.
  - eapply gives_at_lookup; [|exact Hxs]. change (scorers (conj_new required scoring)) with (map fst all).
    apply Forall2_fmap_r. eapply Forall2_impl; [apply (filter_positions snd all)|]. intros i a Ha. cbn.
    change (map fst all) with (fst <$> all). by rewrite list_lookup_fmap, Ha.
Qed.

Lemma conj_new_fresh required scoring :
  required ++ scoring <> [] -> Forall fresh (required ++ scoring) -> fresh (conj_new required scoring).
Proof.
  intros Hne Hf. pose proof (conj_new_good _ _ Hne Hf) as HG. split; [done|].
  destruct (conj_vec _ HG) as (l & Hl & -> & _). cbn in Hl.
  rewrite <- (conj_children_perm required scoring), Forall_lookup in Hf. by destruct (Hf _ _ Hl).
Qed.
End conj_laws.
