(* ===== verification/Req.v ===== *)
(** * [ReqExclScorer] and [ReqOptSumScorer] ([lucene-search/src/exec/req.rs])

    A required scorer minus an excluded one, and a required scorer with an
    optional one that only adds to the score.  Both are proved over any lawful
    clauses; a threshold published to [ReqOptSumScorer], which makes it skip
    blocks, is outside the laws (its code is modelled all the same). *)
From S2P Require Export Scorer.

Definition ADVANCE_COST : f32 := f32_of_Z 10.

(** ** [ReqExclScorer] *)
Record ReqExclScorer (R X : Type) := mk_ReqExcl {
  rx_req : R;
  rx_excl : X;
  rx_match_cost : f32;
  rx_req_first : bool;
}.
Arguments mk_ReqExcl {R X} _ _ _ _.
Arguments rx_req {R X} _.
Arguments rx_excl {R X} _.
Arguments rx_match_cost {R X} _.
Arguments rx_req_first {R X} _.

Section req_excl.
Context {E R X : Type} `{ScR : Scorer E R} `{ScX : Scorer E X}.

Definition rx_new (req : R) (excl : X) : ReqExclScorer R X :=
  let mc := f32_of_Z 2 in
  let mc := if two_phase req then f32_add mc (match_cost req) else mc in
  let excl_mc := f32_add ADVANCE_COST (if two_phase excl then match_cost excl else f32_of_Z 0) in
  let ratio :=
    if cost req <=? 0 then f32_of_Z 1
    else if cost excl <=? 0 then f32_of_Z 0
    else f32_div (f32_of_Z (Z.min (cost req) (cost excl))) (f32_of_Z (cost req)) in
  mk_ReqExcl req excl (f32_add mc (f32_mul ratio excl_mc))
    (negb (two_phase req) || (two_phase excl && SFleb (match_cost req) (match_cost excl))).

Definition rx_put (c : ReqExclScorer R X) (req : R) (excl : X) : ReqExclScorer R X :=
  mk_ReqExcl req excl (rx_match_cost c) (rx_req_first c).

Definition rx_req_with {A} (c : ReqExclScorer R X) (f : R -> comp E (A * R)) : comp E (A * ReqExclScorer R X) :=
  let! (a, req) := f (rx_req c) in cret (a, rx_put c req (rx_excl c)).

(** [matches] once the excluded clause is known to be on the document or not. *)
Definition rx_decide (c : ReqExclScorer R X) (on_doc : bool) : comp E (bool * ReqExclScorer R X) :=
  if negb on_doc then rx_req_with c matches
  else if rx_req_first c then
    let! (m, req) := matches (rx_req c) in
    if negb m then cret (false, rx_put c req (rx_excl c))
    else let! (x, excl) := matches (rx_excl c) in cret (negb x, rx_put c req excl)
  else
    let! (x, excl) := matches (rx_excl c) in
    if x then cret (false, rx_put c (rx_req c) excl)
    else let! (m, req) := matches (rx_req c) in cret (m, rx_put c req excl).

Definition rx_matches (c : ReqExclScorer R X) : comp E (bool * ReqExclScorer R X) :=
  let doc := doc_id (rx_req c) in
  let excl_doc := doc_id (rx_excl c) in
  if excl_doc <? doc then
    match advance_exact_cheap (rx_excl c) doc with
    | (Some true, excl) => rx_decide (rx_put c (rx_req c) excl) true
    | (Some false, excl) => rx_req_with (rx_put c (rx_req c) excl) matches
    | (None, excl) =>
        let! (excl_doc, excl) := advance excl doc in
        rx_decide (rx_put c (rx_req c) excl) (excl_doc =? doc)
    end
  else rx_decide c (excl_doc =? doc).

#[export] Instance rx_scorer : Scorer E (ReqExclScorer R X) := {
  doc_id c := doc_id (rx_req c);
  next_doc c := rx_req_with c next_doc;
  advance c t := rx_req_with c (fun r => advance r t);
  cost c := cost (rx_req c);
  two_phase _ := true;
  matches := rx_matches;
  match_cost := rx_match_cost;
  score c := rx_req_with c score;
  advance_shallow c t := rx_req_with c (fun r => advance_shallow r t);
  max_score c u := rx_req_with c (fun r => max_score r u);
  set_min_competitive_score c min :=
    let! req := set_min_competitive_score (rx_req c) min in cret (rx_put c req (rx_excl c));
  advance_exact_cheap := Defaults.advance_exact_cheap;
  contains := Defaults.contains;
}.
End req_excl.

(** ** [ReqOptSumScorer] *)
Record ReqOptSumScorer (R O : Type) := mk_ReqOpt {
  ro_req : R;
  ro_opt : O;
  ro_top_scores : bool;
  ro_min_score : f32;
  ro_req_max_score : f32;
  ro_opt_is_required : bool;
  ro_up_to : Z;
  ro_block_max : f32;
}.
Arguments mk_ReqOpt {R O} _ _ _ _ _ _ _ _.
Arguments ro_req {R O} _.
Arguments ro_opt {R O} _.
Arguments ro_top_scores {R O} _.
Arguments ro_min_score {R O} _.
Arguments ro_req_max_score {R O} _.
Arguments ro_opt_is_required {R O} _.
Arguments ro_up_to {R O} _.
Arguments ro_block_max {R O} _.

Section req_opt.
Context {E R O : Type} `{ScR : Scorer E R} `{ScO : Scorer E O}.
Notation t := (ReqOptSumScorer R O).

Definition ro_new (req : R) (opt : O) (top_scores : bool) : comp E t :=
  if top_scores then
    let! (_, req) := advance_shallow req 0 in
    let! (_, opt) := advance_shallow opt 0 in
    let! (m, req) := max_score req NO_MORE_DOCS in
    cret (mk_ReqOpt req opt top_scores (f32_of_Z 0) m false (-1) (f32_of_Z 0))
  else
    cret (mk_ReqOpt req opt top_scores (f32_of_Z 0) (S754_infinity false) false (-1) (f32_of_Z 0)).

Definition ro_put (c : t) (req : R) (opt : O) : t :=
  mk_ReqOpt req opt (ro_top_scores c) (ro_min_score c) (ro_req_max_score c)
    (ro_opt_is_required c) (ro_up_to c) (ro_block_max c).

Definition ro_req_with {A} (c : t) (f : R -> comp E (A * R)) : comp E (A * t) :=
  let! (a, req) := f (ro_req c) in cret (a, ro_put c req (ro_opt c)).
Definition ro_opt_with {A} (c : t) (f : O -> comp E (A * O)) : comp E (A * t) :=
  let! (a, opt) := f (ro_opt c) in cret (a, ro_put c (ro_req c) opt).

Definition ro_advance_shallow (c : t) (target : Z) : comp E (Z * t) :=
  let! (up_to, c) := ro_req_with c (fun r => advance_shallow r target) in
  let opt_doc := doc_id (ro_opt c) in
  if opt_doc <=? target then
    let! (u, c) := ro_opt_with c (fun o => advance_shallow o target) in cret (Z.min up_to u, c)
  else if negb (opt_doc =? NO_MORE_DOCS) then cret (Z.min up_to (opt_doc - 1), c)
  else cret (up_to, c).

Definition ro_max_score (c : t) (up_to : Z) : comp E (f32 * t) :=
  let! (max, c) := ro_req_with c (fun r => max_score r up_to) in
  if doc_id (ro_opt c) <=? up_to then
    let! (m, c) := ro_opt_with c (fun o => max_score o up_to) in cret (f32_add max m, c)
  else cret (max, c).

Definition ro_move_to_next_block (c : t) (target : Z) : comp E t :=
  let! (up_to, c) := ro_advance_shallow c target in
  let! (req_block_max, c) := ro_req_with c (fun r => max_score r up_to) in
  let! (block_max, c) := ro_max_score c up_to in
  cret (mk_ReqOpt (ro_req c) (ro_opt c) (ro_top_scores c) (ro_min_score c) (ro_req_max_score c)
          (SFltb req_block_max (ro_min_score c)) up_to block_max).

Fixpoint ro_impacts_loop (n : nat) (c : t) (target : Z) : comp E (Z * t) :=
  match n with
  | 0%nat => cdiverge
  | Datatypes.S n =>
      if SFleb (ro_min_score c) (ro_block_max c) then cret (target, c)
      else if ro_up_to c =? NO_MORE_DOCS then cret (NO_MORE_DOCS, c)
      else
        let target := sat32 (ro_up_to c + 1) in
        let! c := ro_move_to_next_block c target in ro_impacts_loop n c target
  end.

Definition ro_advance_impacts (c : t) (target : Z) : comp E (Z * t) :=
  let! c := if ro_up_to c <? target then ro_move_to_next_block c target else cret c in
  cloop (fun n => ro_impacts_loop n c target).

(** The inner loop over candidate blocks: [inl] continues the outer loop. *)
Fixpoint ro_opt_loop (n : nat) (c : t) (req_doc upper_bound : Z) : comp E ((Z + Z) * t) :=
  match n with
  | 0%nat => cdiverge
  | Datatypes.S n =>
      let! (opt_doc, c) :=
        if doc_id (ro_opt c) <? req_doc then ro_opt_with c (fun o => advance o req_doc)
        else cret (doc_id (ro_opt c), c) in
      if upper_bound <? opt_doc then cret (inl (sat32 (upper_bound + 1)), c)
      else
        let agree req_doc c :=
          if (req_doc =? NO_MORE_DOCS) || (opt_doc =? req_doc) then cret (inr req_doc, c)
          else ro_opt_loop n c req_doc upper_bound in
        if negb (opt_doc =? req_doc) then
          let! (req_doc, c) := ro_req_with c (fun r => advance r opt_doc) in
          if upper_bound <? req_doc then cret (inl req_doc, c) else agree req_doc c
        else agree req_doc c
  end.

Fixpoint ro_internal_loop (n : nat) (c : t) (req_doc : Z) : comp E (Z * t) :=
  match n with
  | 0%nat => cdiverge
  | Datatypes.S n =>
      let! (req_doc, c) :=
        if negb (SFeqb (ro_min_score c) (f32_of_Z 0)) then ro_advance_impacts c req_doc
        else cret (req_doc, c) in
      let! (req_doc, c) :=
        if doc_id (ro_req c) <? req_doc then ro_req_with c (fun r => advance r req_doc)
        else cret (req_doc, c) in
      if (req_doc =? NO_MORE_DOCS) || negb (ro_opt_is_required c) then cret (req_doc, c)
      else
        let upper_bound :=
          if SFltb (ro_req_max_score c) (ro_min_score c) then NO_MORE_DOCS else ro_up_to c in
        if upper_bound <? req_doc then ro_internal_loop n c req_doc
        else
          let! (r, c) := cloop (fun k => ro_opt_loop k c req_doc upper_bound) in
          match r with
          | inl req_doc => ro_internal_loop n c req_doc
          | inr req_doc => cret (req_doc, c)
          end
  end.

Definition ro_advance_internal (c : t) (target : Z) : comp E (Z * t) :=
  if target =? NO_MORE_DOCS then
    let! (_, c) := ro_req_with c (fun r => advance r target) in cret (NO_MORE_DOCS, c)
  else cloop (fun n => ro_internal_loop n c target).

Definition ro_next_doc (c : t) : comp E (Z * t) :=
  if ro_top_scores c then ro_advance_internal c (sat32 (doc_id (ro_req c) + 1))
  else ro_req_with c next_doc.

Definition ro_advance (c : t) (target : Z) : comp E (Z * t) :=
  if ro_top_scores c then ro_advance_internal c target
  else ro_req_with c (fun r => advance r target).

(** [if !self.opt.matches()? { self.opt.next_doc()?; }] *)
Definition ro_verify_opt (c : t) : comp E (bool * t) :=
  let! (m, c) := ro_opt_with c matches in
  if m then cret (true, c)
  else let! (_, c) := ro_opt_with c next_doc in cret (false, c).

Definition ro_matches (c : t) : comp E (bool * t) :=
  let! (m, c) := if two_phase (ro_req c) then ro_req_with c matches else cret (true, c) in
  if negb m then cret (false, c)
  else if two_phase (ro_opt c) then
    let doc := doc_id (ro_req c) in
    if ro_opt_is_required c then
      let! c :=
        if negb (doc_id (ro_opt c) =? doc) && (doc_id (ro_opt c) <? doc)
        then let! (_, c) := ro_opt_with c (fun o => advance o doc) in cret c
        else cret c in
      if negb (doc_id (ro_opt c) =? doc) then cret (false, c) else ro_verify_opt c
    else if doc_id (ro_opt c) =? doc then
      let! (_, c) := ro_verify_opt c in cret (true, c)
    else cret (true, c)
  else cret (true, c).

Definition ro_match_cost (c : t) : f32 :=
  let cost := f32_of_Z 1 in
  let cost := if two_phase (ro_req c) then f32_add cost (match_cost (ro_req c)) else cost in
  if two_phase (ro_opt c) then f32_add cost (match_cost (ro_opt c)) else cost.

(** The optional clause, behind the document, is brought to it. *)
Definition ro_catch_up (c : t) (cur : Z) : comp E (Z * t) :=
  let opt_doc := doc_id (ro_opt c) in
  if opt_doc <? cur then
    let! (opt_doc, c) := ro_opt_with c (fun o => advance o cur) in
    if two_phase (ro_opt c) && (opt_doc =? cur) then
      let! (m, c) := ro_opt_with c matches in
      if negb m then ro_opt_with c next_doc else cret (opt_doc, c)
    else cret (opt_doc, c)
  else cret (opt_doc, c).

Definition ro_score (c : t) : comp E (f32 * t) :=
  let cur := doc_id (ro_req c) in
  let! (sc, c) := ro_req_with c score in
  let! (opt_doc, c) := ro_catch_up c cur in
  if opt_doc =? cur then
    let! (o, c) := ro_opt_with c score in cret (f32_add sc o, c)
  else cret (sc, c).

Definition ro_set_min (c : t) (min : f32) : comp E t :=
  let required := ro_opt_is_required c || SFltb (ro_req_max_score c) min in
  let! (_, c) :=
    if SFltb (ro_req_max_score c) min && SFeqb (ro_req_max_score c) (f32_of_Z 0)
    then ro_opt_with c (fun o => let! o := set_min_competitive_score o min in cret (tt, o))
    else cret (tt, c) in
  cret (mk_ReqOpt (ro_req c) (ro_opt c) (ro_top_scores c) min (ro_req_max_score c) required
          (ro_up_to c) (ro_block_max c)).

#[export] Instance ro_scorer : Scorer E t := {
  doc_id c := doc_id (ro_req c);
  next_doc := ro_next_doc;
  advance := ro_advance;
  cost c := cost (ro_req c);
  two_phase c := two_phase (ro_req c) || two_phase (ro_opt c);
  matches := ro_matches;
  match_cost := ro_match_cost;
  score := ro_score;
  advance_shallow := ro_advance_shallow;
  max_score := ro_max_score;
  set_min_competitive_score := ro_set_min;
  advance_exact_cheap := Defaults.advance_exact_cheap;
  contains := Defaults.contains;
}.
End req_opt.

(** ** Laws of the exclusion *)
Section rx_laws.
Context {E R X : Type} `{LR : ScorerLaws E R} `{LX : ScorerLaws E X}.
Implicit Types (c : ReqExclScorer R X) (req : R) (excl : X).

#[export] Instance rx_view : ScorerView (ReqExclScorer R X) := {
  good c := good (rx_req c) /\ good (rx_excl c) /\ not_passed (rx_excl c) (doc_id (rx_req c));
  approx c := approx (rx_req c);
  accept c := accept (rx_req c) ∖ accept (rx_excl c);
  confirmed c := confirmed (rx_req c);
  need c := (need (rx_req c) + need (rx_excl c))%nat;
  gives c := gives (rx_req c);
}.

Lemma rx_same c0 c req excl :
  same (rx_req c0) req -> same (rx_excl c0) excl -> same c0 (rx_put c req excl).
Proof.
  intros (A1 & A2 & _ & A4 & A5) (_ & B2 & _ & B4 & _). split; [exact A1|]. split; [cbn; by rewrite A2, B2|].
  split; [done|]. split; [cbn; by rewrite A4, B4|exact A5].
Qed.

Lemma rx_move_ok n c t (f : R -> comp E (Z * R)) :
  good c -> doc_id c < t -> wp (f (rx_req c)) n (lands (rx_req c) t) -> wp (rx_req_with c f) n (lands c t).
Proof.
  intros (Hr & Hx & Hp) Ht H. unfold rx_req_with.
  apply (wp_inner _ (fun a r => rx_put c r (rx_excl c)) _ _ _ H). intros d r (Hg & Hs & Hd & Hf).
  cbn [fst snd] in *. pose proof (first_at_le _ _ _ Hf). cbn in Ht.
  split; [|split; [by apply rx_same|by split]]. split_and!; [done|done|].
  eapply not_passed_later; [done|]. cbn. rewrite Hd. lia.
Qed.

Lemma rx_stays c r : good c -> stays (rx_req c) r -> stays c (rx_put c r (rx_excl c)).
Proof.
  intros (Hr & Hx & Hp) (Hg & Hs & Hd & Hc). split_and!; [split_and!; [done|done|cbn; by rewrite Hd]|by apply rx_same|done|done].
Qed.

Lemma rx_stay_ok {A} n c (f : R -> comp E (A * R)) :
  good c -> wp (f (rx_req c)) n (holds (rx_req c)) -> wp (rx_req_with c f) n (holds c).
Proof.
  intros HG H. unfold rx_req_with.
  apply (wp_inner _ (fun a r => rx_put c r (rx_excl c)) _ _ _ H). intros a r Hst. by apply rx_stays.
Qed.

(** The state while [matches] decides: the required clause is on [doc]. *)
Definition rx_on (c0 c : ReqExclScorer R X) : Prop :=
  good c /\ same c0 c /\ doc_id c = doc_id c0 /\ same (rx_req c0) (rx_req c) /\ same (rx_excl c0) (rx_excl c).

Lemma rx_req_matches n c0 c :
  rx_on c0 c -> doc_id c0 ∈ approx c0 -> (need c0 <= n)%nat ->
  wp (matches (rx_req c)) n (fun r => rx_on c0 (rx_put c r.2 (rx_excl c)) /\
    r.1 = bool_decide (doc_id c0 ∈ accept (rx_req c0)) /\ (r.1 = true -> confirmed r.2)).
Proof.
  intros ((Hr & Hx & Hp) & Hs & Hd & Hsr & Hsx) Hda Hn. pose proof Hsr as (Ha & Hc & _ & Hne & _). cbn in *.
  wp_use matches_ok; [done|by rewrite Ha, Hd|lia|].
  intros [b r] (Hg & Hs' & Hd' & Hb & Hcf). cbn [fst snd] in *. rewrite Hc, Hd in Hb.
  split; [|by split]. assert (Hsr' : same (rx_req c0) r) by (by eapply same_trans).
  split_and!; [split_and!; [done|done|cbn; by rewrite Hd']|by apply rx_same|cbn; congruence|done|done].
Qed.

Lemma rx_excl_matches n c0 c :
  rx_on c0 c -> doc_id (rx_excl c) = doc_id c0 -> doc_id c0 ∈ approx c0 -> (need c0 <= n)%nat ->
  wp (matches (rx_excl c)) n (fun r => rx_on c0 (rx_put c (rx_req c) r.2) /\
    r.1 = bool_decide (doc_id c0 ∈ accept (rx_excl c0))).
Proof.
  intros ((Hr & Hx & Hp) & Hs & Hd & Hsr & Hsx) Hdx Hda Hn. pose proof Hsx as (Ha & Hc & _ & Hne & _). cbn in *.
  wp_use matches_ok; [done| |lia|].
  { apply doc_id_positioned; [done|]. rewrite Hdx. rewrite <- (proj1 Hsr) in Hda.
    by apply (approx_range (rx_req c)). }
  intros [b x] (Hg & Hs' & Hd' & Hb & _). cbn [fst snd] in *. rewrite Hb, Hc, Hdx. split; [|done].
  assert (Hsx' : same (rx_excl c0) x) by (by eapply same_trans).
  split_and!; [split_and!; [done|done|]|by apply rx_same|done|done|done].
  cbn. unfold not_passed in *. destruct Hs' as (-> & _). by rewrite Hd'.
Qed.

Lemma rx_on_answers c0 c b :
  rx_on c0 c -> b = bool_decide (doc_id c0 ∈ accept c0) -> (b = true -> confirmed (rx_req c)) ->
  answers c0 (b, c).
Proof. intros (Hg & Hs & Hd & _) Hb Hc. by split_and!. Qed.

Lemma rx_decide_ok n c0 c (on_doc : bool) :
  rx_on c0 c -> doc_id c0 ∈ approx c0 -> (need c0 <= n)%nat ->
  (if on_doc then doc_id (rx_excl c) = doc_id c0 else doc_id c0 ∉ accept (rx_excl c0)) ->
  wp (rx_decide c on_doc) n (answers c0).
Proof.
  intros Hon Hda Hn Hx. unfold rx_decide, rx_req_with. destruct on_doc; cbn [negb].
  - destruct (rx_req_first c); wp_bind.
    + wp_use (rx_req_matches n c0 c); [done..|]. intros [m r] (Hon' & Hm & Hcf). cbn [fst snd] in *. subst m.
      case_bool_decide as Hr; cbn [negb].
      * wp_bind. wp_use (rx_excl_matches n c0 (rx_put c r (rx_excl c)) Hon' Hx); [done..|].
        intros [x X'] [Hon2 Hxm]. wp_ret. cbn [fst snd] in *. apply rx_on_answers; [exact Hon2| |intros _; by apply Hcf].
        subst x. cbn. rewrite <- bool_decide_not. apply bool_decide_ext. set_solver.
      * wp_ret. apply rx_on_answers; [done| |done]. rewrite bool_decide_false; [done|]. cbn. set_solver.
    + wp_use (rx_excl_matches n c0 c); [done..|]. intros [x X'] [Hon' Hxm]. cbn [fst snd] in *. subst x.
      case_bool_decide as Hr.
      * wp_ret. apply rx_on_answers; [done| |done]. rewrite bool_decide_false; [done|]. cbn. set_solver.
      * wp_bind. wp_use (rx_req_matches n c0 (rx_put c (rx_req c) X') Hon'); [done..|].
        intros [m r] (Hon2 & Hm & Hcf). wp_ret. cbn [fst snd] in *. apply rx_on_answers; [exact Hon2| |done].
        subst m. apply bool_decide_ext. cbn. set_solver.
  - wp_bind. wp_use (rx_req_matches n c0 c); [done..|]. intros [m r] (Hon' & Hm & Hcf). wp_ret.
    cbn [fst snd] in *. apply rx_on_answers; [done| |done]. subst m. apply bool_decide_ext. cbn. set_solver.
Qed.

(** The excluded clause moved: it is on [e], its first document at or after [doc]. *)
Lemma rx_put_excl c excl :
  good c -> good excl -> same (rx_excl c) excl ->
  not_passed excl (doc_id (rx_req c)) -> rx_on c (rx_put c (rx_req c) excl).
Proof. intros (Hr & _ & _) Hg Hs Hp. split_and!; try done. by apply rx_same. Qed.

Lemma rx_matches_ok n c :
  good c -> doc_id c ∈ approx c -> (need c <= n)%nat -> wp (rx_matches c) n (answers c).
Proof.
  intros HG Hda Hn. pose proof HG as (Hr & Hx & Hp). unfold rx_matches.
  pose proof (approx_range (rx_req c) _ Hr Hda) as Hrng. cbn in Hrng.
  assert (Hself : rx_on c c) by done. cbn in Hn.
  assert (Hland : forall d excl, lands (rx_excl c) (doc_id (rx_req c)) (d, excl) ->
    wp (rx_decide (rx_put c (rx_req c) excl) (d =? doc_id (rx_req c))) n (answers c)).
  { intros d excl (Hg' & Hs' & Hd' & Hf). cbn [fst snd] in *.
    apply rx_decide_ok; [|done|done|].
    - apply rx_put_excl; [done|done|done|]. intros x Hxa Hle. rewrite Hd'. apply Hf; [|done].
      by rewrite <- (proj1 Hs').
    - destruct (Z.eqb_spec d (doc_id (rx_req c))) as [He|Hne]; [by cbn; rewrite Hd'|].
      intros Hacc%(accept_approx _ Hx). destruct Hf as (H1 & _ & H3). specialize (H3 _ Hacc). cbn in H3. lia. }
  destruct (Z.ltb_spec (doc_id (rx_excl c)) (doc_id (rx_req c))) as [Hlt|Hge].
  - pose proof (exact_cheap_ok (rx_excl c) (doc_id (rx_req c)) Hx Hlt ltac:(lia)) as Hch.
    destruct (advance_exact_cheap (rx_excl c) (doc_id (rx_req c))) as [[[]|] excl].
    + specialize (Hland _ _ Hch). by rewrite Z.eqb_refl in Hland.
    + destruct Hch as [(Hg' & Hs' & Hd' & _) Hni].
      change (rx_req_with (rx_put c (rx_req c) excl) matches) with (rx_decide (rx_put c (rx_req c) excl) false).
      apply rx_decide_ok; [|done|done|].
      * apply rx_put_excl; [done|done|done|]. unfold not_passed in *. destruct Hs' as (-> & _). by rewrite Hd'.
      * intros Hacc%(accept_approx _ Hx). done.
    + destruct Hch as (Hg' & Hs' & Hd' & _). wp_bind.
      wp_use advance_ok; [done|by rewrite Hd'|lia|destruct Hs' as (_ & _ & _ & -> & _); lia|].
      intros [d excl'] (Hg2 & Hs2 & Hd2 & Hf). cbn [fst snd] in *.
      apply (Hland d excl'). split; [done|]. split; [by eapply same_trans|]. split; [done|].
      cbn [fst]. by rewrite <- (proj1 Hs').
  - apply rx_decide_ok; [done|done|done|].
    destruct (Z.eqb_spec (doc_id (rx_excl c)) (doc_id (rx_req c))) as [He|Hne]; [done|].
    intros Hacc%(accept_approx _ Hx). specialize (Hp _ Hacc). cbn in Hp. lia.
Qed.

#[export] Instance rx_laws : ScorerLaws E (ReqExclScorer R X).
Proof.
  split.
  - intros c (Hr & _). cbn. pose proof (accept_approx (rx_req c) Hr). set_solver.
  - intros c d (Hr & _). by apply (approx_range (rx_req c)).
  - intros c (Hr & _). by apply (doc_id_ok (rx_req c)).
  - done.
  - intros n c HG Hd Hn. cbn in Hn. apply rx_move_ok; [done|cbn; lia|].
    apply (next_doc_ok n (rx_req c)); [apply HG|done|lia].
  - intros n c t HG Hd Ht Hn. cbn in Hn. apply (rx_move_ok n c t (fun r => advance r t)); [done|done|].
    apply (advance_ok n (rx_req c)); [apply HG|done|done|lia].
  - intros n c HG Hd Hn. by apply rx_matches_ok.
  - done.
  - intros n c HG Hd Hc Hn. cbn in Hd, Hn.
    apply (wp_inner _ (fun a r => rx_put c r (rx_excl c)) n (gives_score (rx_req c))).
    + apply score_ok; [apply HG|set_solver|done|lia].
    + intros v r [Hst Hv]. split; [by apply rx_stays|exact Hv].
  - intros n c t HG Ht Hn. cbn in Hn. apply rx_stay_ok; [done|]. apply shallow_ok; [apply HG|done|lia].
  - intros n c t HG Hn. cbn in Hn. apply rx_stay_ok; [done|]. apply max_score_ok; [apply HG|lia].
  - intros c t HG Hd Ht. by split_and!.
  - done.
Qed.

Lemma rx_new_fresh req excl : fresh req -> fresh excl -> fresh (rx_new req excl).
Proof.
  intros [Hr Hdr] [Hx Hdx]. split; [split_and!; [done|done|]|done].
  intros x Hxa Hle. cbn. pose proof (approx_range (rx_excl (rx_new req excl)) x Hx Hxa). cbn in *. lia.
Qed.
End rx_laws.

(** ** Laws of the optional sum, until a threshold is published *)
Section ro_laws.
Context {E R O : Type} `{LR : ScorerLaws E R} `{LO : ScorerLaws E O}.
Implicit Types (c : ReqOptSumScorer R O) (req : R) (opt : O).

(** The optional clause has not passed a match of its own from the required
    clause's document on. *)
Definition opt_due req opt : Prop := forall x, x ∈ accept opt -> doc_id req <= x -> doc_id opt <= x.

#[export] Instance ro_view : ScorerView (ReqOptSumScorer R O) := {
  good c := good (ro_req c) /\ good (ro_opt c) /\ ro_min_score c = f32_of_Z 0 /\
            ro_opt_is_required c = false /\ opt_due (ro_req c) (ro_opt c);
  approx c := approx (ro_req c);
  accept c := accept (ro_req c);
  confirmed c := confirmed (ro_req c) /\ (doc_id (ro_opt c) = doc_id (ro_req c) ->
                 doc_id (ro_opt c) ∈ accept (ro_opt c) /\ confirmed (ro_opt c));
  need c := (need (ro_req c) + need (ro_opt c) + 1)%nat;
  gives c d v := exists x, gives (ro_req c) d x /\
    if decide (d ∈ accept (ro_opt c)) then exists y, gives (ro_opt c) d y /\ v = f32_add x y else v = x;
}.

(** The optional clause may move as it likes: the scorer stays, and what was
    said of the required clause still holds. *)
Definition ro_keeps (c c' : ReqOptSumScorer R O) : Prop :=
  good c' /\ same c c' /\ doc_id c' = doc_id c /\ same (ro_req c) (ro_req c') /\
  same (ro_opt c) (ro_opt c').

Lemma ro_same c req opt : same (ro_req c) req -> same (ro_opt c) opt -> same c (ro_put c req opt).
Proof.
  intros (A1 & A2 & A3 & A4 & A5) (_ & B2 & B3 & B4 & B5). split; [exact A1|]. split; [exact A2|].
  split; [cbn; by rewrite A3, B3|]. split; [cbn; by rewrite A4, B4|cbn; by rewrite A5, B2, B5].
Qed.

Lemma ro_keeps_refl c : good c -> ro_keeps c c.
Proof. intros HG. by split_and!. Qed.

Lemma ro_keeps_trans c1 c2 c3 : ro_keeps c1 c2 -> ro_keeps c2 c3 -> ro_keeps c1 c3.
Proof.
  intros (_ & S1 & D1 & R1 & O1) (G & S2 & D2 & R2 & O2).
  split_and!; [done|by eapply same_trans|congruence|by eapply same_trans|by eapply same_trans].
Qed.

Lemma ro_keeps_need c c' n : ro_keeps c c' -> (need c <= n)%nat -> (need c' <= n)%nat.
Proof. by intros (_ & (_ & _ & _ & -> & _) & _). Qed.

Lemma ro_opt_ok {A} n c (f : O -> comp E (A * O)) (Q : A -> O -> Prop) :
  good c -> wp (f (ro_opt c)) n (fun r => good r.2 /\ same (ro_opt c) r.2 /\ opt_due (ro_req c) r.2 /\ Q r.1 r.2) ->
  wp (ro_opt_with c f) n (fun r => ro_keeps c r.2 /\ ro_req r.2 = ro_req c /\ Q r.1 (ro_opt r.2)).
Proof.
  intros (Hr & Ho & Hm & Hq & _) H. unfold ro_opt_with. wp_bind. wp_use H.
  intros [a o] (Hg & Hs & Hdue & HQ). wp_ret. cbn [fst snd] in *. split; [|by split].
  split_and!; try done. by apply ro_same.
Qed.

Lemma opt_due_stays req opt opt' : opt_due req opt -> same opt opt' -> doc_id opt' = doc_id opt -> opt_due req opt'.
Proof. unfold opt_due. intros H (_ & -> & _) ->. exact H. Qed.

Lemma opt_due_lands req opt t r : opt_due req opt -> good opt -> t <= doc_id req \/ t = doc_id opt + 1 /\ doc_id opt ∉ accept opt ->
  lands opt t r -> opt_due req r.2.
Proof.
  intros H Hg Ht (_ & Hs & Hd & Hf) x Hx Hle. rewrite (proj1 (proj2 Hs)) in Hx. rewrite Hd. apply Hf; [by apply accept_approx|].
  specialize (H x Hx Hle). destruct Ht as [|[-> Hn]]; [lia|]. destruct (decide (x = doc_id opt)) as [->|]; [done|lia].
Qed.

Lemma ro_req_ok {A} n c (f : R -> comp E (A * R)) (Q : A -> R -> Prop) :
  good c ->
  wp (f (ro_req c)) n (fun r => good r.2 /\ same (ro_req c) r.2 /\ doc_id r.2 = doc_id (ro_req c) /\
                                Q r.1 r.2) ->
  wp (ro_req_with c f) n (fun r => ro_keeps c r.2 /\ ro_opt r.2 = ro_opt c /\ Q r.1 (ro_req r.2)).
Proof.
  intros (Hr & Ho & Hm & Hq & Hdue) H. unfold ro_req_with. wp_bind. wp_use H.
  intros [a r] (Hg & Hs & Hd & HQ). wp_ret. cbn [fst snd] in *. split; [|by split].
  split_and!; try done; [|by apply ro_same]. cbn. split_and!; try done. intros x Hx Hle. apply Hdue; [done|]. lia.
Qed.

Lemma ro_move_ok n c t (f : R -> comp E (Z * R)) :
  good c -> doc_id c < t -> wp (f (ro_req c)) n (lands (ro_req c) t) -> wp (ro_req_with c f) n (lands c t).
Proof.
  intros (Hr & Ho & Hm & Hq & Hdue) Ht H. unfold ro_req_with. wp_bind. wp_use H.
  intros [d r] (Hg & Hs & Hd & Hf). wp_ret. cbn [fst snd] in *. cbn in Ht. pose proof (first_at_le _ _ _ Hf).
  split; [split_and!; try done; intros x Hx Hle; apply Hdue; [done|cbn in Hle; lia]|]. split; [by apply ro_same|]. by split.
Qed.

Lemma ro_keeps_stays c c' :
  ro_keeps c c' -> (confirmed c -> confirmed c') -> stays c c'.
Proof. intros (Hg & Hs & Hd & _) Hc. by split_and!. Qed.

(** No threshold: the approximation is the required clause's. *)
Lemma ro_internal_ok n c t :
  good c -> doc_id c < t -> t <= NO_MORE_DOCS -> (need c <= n)%nat ->
  wp (ro_advance_internal c t) n (lands c t).
Proof.
  intros HG Hd Ht Hn. pose proof HG as (Hr & Ho & Hm & Hq & _). cbn in Hd, Hn. unfold ro_advance_internal.
  assert (Hmv : wp (ro_req_with c (fun r => advance r t)) n (lands c t)).
  { apply (ro_move_ok n c t (fun r => advance r t)); [done|done|]. apply advance_ok; [done|done|done|lia]. }
  destruct (Z.eqb_spec t NO_MORE_DOCS) as [->|Hne].
  - wp_bind. wp_use Hmv. intros [d c'] (Hg & Hs & Hd' & Hf). wp_ret. cbn [fst snd] in *.
    assert (d = NO_MORE_DOCS) as ->; [|by split_and!].
    pose proof (first_at_le _ _ _ Hf). pose proof (doc_id_range (ro_req c') ltac:(apply Hg)).
    cbn in Hd'. lia.
  - destruct n as [|n]; [lia|].
    change (wp (ro_internal_loop (Datatypes.S n) c t) (Datatypes.S n) (lands c t)). cbn [ro_internal_loop]. rewrite Hm. wp_bind.
    change (negb (SFeqb (f32_of_Z 0) (f32_of_Z 0))) with false. wp_ret.
    destruct (Z.ltb_spec (doc_id (ro_req c)) t) as [_|]; [|lia].
    wp_bind. wp_use Hmv. intros [d c'] Hl.
    assert (Hq' : ro_opt_is_required c' = false) by apply (proj1 Hl).
    rewrite Hq', orb_true_r. by wp_ret.
Qed.

Lemma ro_verify_ok n c :
  good c -> doc_id (ro_opt c) ∈ approx (ro_opt c) -> (need c <= n)%nat ->
  wp (ro_verify_opt c) n (fun r => ro_keeps c r.2 /\ ro_req r.2 = ro_req c /\
    (doc_id (ro_opt r.2) = doc_id (ro_opt c) ->
     doc_id (ro_opt c) ∈ accept (ro_opt c) /\ confirmed (ro_opt r.2))).
Proof.
  intros HG Hd Hn. pose proof HG as (Hr & Ho & _ & _ & Hdue). unfold ro_verify_opt. wp_bind.
  wp_use (ro_opt_ok n c matches (fun b o => doc_id o = doc_id (ro_opt c) /\
            b = bool_decide (doc_id (ro_opt c) ∈ accept (ro_opt c)) /\ (b = true -> confirmed o)) HG).
  { cbn in Hn. wp_use matches_ok; [done|done|lia|]. intros [b o] (H1 & H2 & H3 & H4 & H5).
    split_and!; try done. by eapply opt_due_stays. }
  intros [b c1] (Hk1 & Hr1 & Hd1 & Hb & Hc1). cbn [fst snd] in *. destruct b.
  - wp_ret. split; [done|]. split; [done|]. intros _. split; [by eapply bool_decide_eq_true_1|auto].
  - wp_bind. pose proof (ro_keeps_need _ _ n Hk1 Hn) as Hn1. pose proof Hk1 as (HG1 & _ & _ & _ & Hso).
    symmetry in Hb. apply bool_decide_eq_false in Hb.
    wp_use (ro_opt_ok n c1 next_doc (fun d o => doc_id (ro_opt c) < doc_id o) HG1).
    { cbn in Hn1. wp_use next_doc_ok; [apply HG1| |lia|].
      - rewrite Hd1. exact (approx_below _ _ Ho Hd).
      - intros [d o] Hl. pose proof Hl as (H1 & H2 & H3 & H4). cbn [fst snd] in *. split; [done|]. split; [done|]. split.
        + eapply (opt_due_lands _ _ _ (d, o)); [apply HG1|apply HG1| |exact Hl]. right. split; [done|].
          rewrite (proj1 (proj2 Hso)), Hd1. done.
        + pose proof (first_at_le _ _ _ H4). lia. }
    intros [d c2] (Hk2 & Hr2 & Hlt). wp_ret. cbn [fst snd] in *.
    split; [by eapply ro_keeps_trans|]. split; [congruence|]. lia.
Qed.

(** The required clause's own confirmation. *)
Lemma ro_req_matches n c :
  good c -> doc_id c ∈ approx c -> (need c <= n)%nat ->
  wp (if two_phase (ro_req c) then ro_req_with c matches else cret (true, c)) n
     (fun r => ro_keeps c r.2 /\ ro_opt r.2 = ro_opt c /\
       r.1 = bool_decide (doc_id c ∈ accept c) /\ (r.1 = true -> confirmed (ro_req r.2))).
Proof.
  intros HG Hda Hn. pose proof HG as (Hr & Ho & _ & Hq & _). cbn in Hda, Hn. destruct (two_phase (ro_req c)) eqn:E2.
  - wp_use (ro_req_ok n c matches
      (fun b r => b = bool_decide (doc_id c ∈ accept c) /\ (b = true -> confirmed r)) HG).
    + wp_use matches_ok; [done|done|lia|]. intros [b r] H. exact H.
    + intros [b c'] H. exact H.
  - wp_ret. split; [by apply ro_keeps_refl|]. split; [done|]. cbn. rewrite one_phase by done.
    rewrite bool_decide_true by done. split; [done|]. intros _. by apply one_phase_confirmed.
Qed.

(** A one-phase optional clause on a document has confirmed it. *)
Lemma ro_one_phase_opt c :
  good c -> two_phase (ro_opt c) = false -> 0 <= doc_id (ro_opt c) < NO_MORE_DOCS ->
  doc_id (ro_opt c) ∈ accept (ro_opt c) /\ confirmed (ro_opt c).
Proof.
  intros (_ & Ho & _) Ht Hd. pose proof (doc_id_positioned _ Ho Hd). rewrite one_phase by done.
  split; [done|by apply one_phase_confirmed].
Qed.

Lemma ro_matches_ok n c :
  good c -> doc_id c ∈ approx c -> (need c <= n)%nat -> wp (ro_matches c) n (answers c).
Proof.
  intros HG Hda Hn. pose proof HG as (Hr & Ho & _ & Hq & _).
  pose proof (approx_range (ro_req c) _ Hr Hda) as Hrng. unfold ro_matches. wp_bind.
  wp_use (ro_req_matches n c HG Hda Hn). intros [m c1] (Hk1 & Ho1 & Hm & Hcf). cbn [fst snd] in *.
  pose proof Hk1 as (HG1 & Hs1 & Hd1 & Hsr1 & Hso1). destruct m; cbn [negb].
  2:{ wp_ret. by split_and!. }
  pose proof HG1 as (Hr1 & Ho1g & _ & Hq1 & _).
  assert (Hend : forall c2, ro_keeps c c2 -> confirmed (ro_req c2) ->
    (doc_id (ro_opt c2) = doc_id (ro_req c2) -> doc_id (ro_opt c2) ∈ accept (ro_opt c2) /\ confirmed (ro_opt c2)) ->
    answers c (true, c2)).
  { intros c2 (HG2 & Hs2 & Hd2 & _) H1 H2. by split_and!. }
  cbn in Hd1. destruct (two_phase (ro_opt c1)) eqn:E2; rewrite ?Hq1.
  - destruct (Z.eqb_spec (doc_id (ro_opt c1)) (doc_id (ro_req c1))) as [He|Hne].
    + assert (Hin : doc_id (ro_opt c1) ∈ approx (ro_opt c1)).
      { apply doc_id_positioned; [done|]. rewrite He, Hd1. exact Hrng. }
      wp_bind. wp_use (ro_verify_ok n c1 HG1 Hin); [by eapply ro_keeps_need|].
      intros [b c2] (Hk2 & Hr2 & Hv). wp_ret. cbn [fst snd] in *. apply Hend.
      * by eapply ro_keeps_trans.
      * rewrite Hr2. auto.
      * rewrite Hr2. intros He2. destruct Hv as [Hv1 Hv2]; [congruence|]. split; [|done].
        destruct Hk2 as (_ & _ & _ & _ & (_ & -> & _)). congruence.
    + wp_ret. apply Hend; [done|auto|done].
  - wp_ret. apply Hend; [done|auto|]. intros He. apply ro_one_phase_opt; [done|done|].
    rewrite He, Hd1. exact Hrng.
Qed.

(** The optional clause reaches the document; if it is on it, it matches it. *)
Lemma ro_catch_up_ok n c :
  good c -> confirmed c -> doc_id c ∈ approx c -> (need c <= n)%nat ->
  wp (ro_catch_up c (doc_id (ro_req c))) n (fun r => ro_keeps c r.2 /\ ro_req r.2 = ro_req c /\
    r.1 = doc_id (ro_opt r.2) /\ doc_id (ro_req c) <= r.1 /\
    (r.1 = doc_id (ro_req c) -> doc_id (ro_opt r.2) ∈ accept (ro_opt r.2) /\ confirmed (ro_opt r.2))).
Proof.
  intros HG [_ Hcf] Hda Hn. pose proof HG as (Hr & Ho & _).
  pose proof (approx_range (ro_req c) _ Hr Hda) as Hrng. cbn in Hrng. unfold ro_catch_up.
  destruct (Z.ltb_spec (doc_id (ro_opt c)) (doc_id (ro_req c))) as [Hlt|Hge].
  2:{ wp_ret. split; [by apply ro_keeps_refl|]. split_and!; try done. }
  wp_bind. cbn in Hn.
  wp_use (ro_opt_ok n c (fun o => advance o (doc_id (ro_req c))) (fun d o => doc_id o = d /\ doc_id (ro_req c) <= d) HG).
  { wp_use advance_ok; [done|done|lia|lia|]. intros [d o] Hl. pose proof Hl as (H1 & H2 & H3 & H4). split; [done|]. split; [done|].
    split; [|split; [done|by eapply first_at_le]]. eapply (opt_due_lands _ _ _ (d, o)); [apply HG|done| |exact Hl]. left. lia. }
  intros [d c1] (Hk1 & Hr1 & Hd1 & Hge). cbn [fst snd] in *. pose proof Hk1 as (HG1 & _).
  assert (Hn1 : (need c1 <= n)%nat) by (eapply ro_keeps_need; [exact Hk1|cbn; lia]).
  destruct (two_phase (ro_opt c1)) eqn:E2; cbn [andb].
  - destruct (Z.eqb_spec d (doc_id (ro_req c))) as [He|Hne].
    + assert (Hin : doc_id (ro_opt c1) ∈ approx (ro_opt c1)).
      { apply doc_id_positioned; [apply HG1|]. rewrite Hd1, He. exact Hrng. }
      wp_bind.
      wp_use (ro_opt_ok n c1 matches (fun b o => doc_id o = d /\
               b = bool_decide (d ∈ accept (ro_opt c1)) /\ (b = true -> confirmed o)) HG1).
      { cbn in Hn1. wp_use matches_ok; [apply HG1|done|lia|].
        intros [b o] (H1 & H2 & H3 & H4 & H5). cbn [fst snd] in *.
        assert (opt_due (ro_req c1) o) by (eapply opt_due_stays; [apply HG1|done|done]). rewrite Hd1 in *. by split_and!. }
      intros [b c2] (Hk2 & Hr2 & Hd2 & Hb & Hc2). cbn [fst snd] in *. pose proof Hk2 as (HG2 & _ & _ & _ & Hso2).
      destruct b; cbn [negb].
      * wp_ret. split; [by eapply ro_keeps_trans|]. split; [congruence|]. split; [done|]. split; [done|]. intros _.
        split; [|auto]. rewrite Hd2. destruct Hso2 as (_ & -> & _). by eapply bool_decide_eq_true_1.
      * pose proof (ro_keeps_need _ _ n Hk2 Hn1) as Hn2. cbn in Hn2.
        wp_use (ro_opt_ok n c2 next_doc (fun e o => doc_id o = e /\ d < e) HG2).
        { wp_use next_doc_ok; [apply HG2|lia|lia|].
          intros [e o] Hl. pose proof Hl as (H1 & H2 & H3 & H4). cbn [fst snd] in *. pose proof (first_at_le _ _ _ H4).
          split_and!; [done|done| |done|lia]. eapply (opt_due_lands _ _ _ (e, o)); [apply HG2|apply HG2| |exact Hl].
          right. split; [done|]. symmetry in Hb. apply bool_decide_eq_false in Hb. by rewrite Hd2, (proj1 (proj2 Hso2)). }
        intros [e c3] (Hk3 & Hr3 & Hd3 & Hlt3). cbn [fst snd] in *.
        split; [by eapply ro_keeps_trans; [eapply ro_keeps_trans|]|]. split; [congruence|].
        split; [done|]. split; lia.
    + wp_ret. split; [done|]. split; [done|]. split; [done|]. split; [done|]. congruence.
  - wp_ret. split; [done|]. split; [done|]. split; [done|]. split; [done|]. intros He.
    apply ro_one_phase_opt; [done|done|]. rewrite Hd1, He. exact Hrng.
Qed.

Lemma ro_score_ok n c :
  good c -> doc_id c ∈ accept c -> confirmed c -> (need c <= n)%nat -> wp (ro_score c) n (gives_score c).
Proof.
  intros HG Hd Hcf Hn. pose proof HG as (Hr & Ho & _). pose proof Hcf as [Hcr _].
  assert (Hda : doc_id c ∈ approx c) by (by apply (accept_approx (ro_req c))).
  unfold ro_score. wp_bind. cbn in Hn.
  wp_use (ro_req_ok n c score (fun v r => confirmed r /\ gives (ro_req c) (doc_id c) v) HG).
  { wp_use score_ok; [done|done|done|lia|]. intros [v r] [(H1 & H2 & H3 & H4) H5]. split_and!; auto. }
  intros [v c1] (Hk1 & Ho1 & Hc1 & Hv1). cbn [fst snd] in *. pose proof Hk1 as (HG1 & Hs1 & Hd1 & _).
  assert (Hcf1 : confirmed c1).
  { split; [done|]. cbn in Hd1. rewrite Ho1, Hd1. apply Hcf. }
  assert (Hn1 : (need c1 <= n)%nat) by (eapply ro_keeps_need; [exact Hk1|cbn; lia]).
  cbn in Hd1. rewrite <- Hd1. wp_bind. wp_use (ro_catch_up_ok n c1 HG1 Hcf1); [|done|].
  { change (doc_id c1 ∈ approx c1). rewrite (proj1 Hs1). change (doc_id c1) with (doc_id (ro_req c1)).
    by rewrite Hd1. }
  intros [d c2] (Hk2 & Hr2 & Hd2 & Hge & Hv). cbn [fst snd] in *. pose proof Hk2 as (HG2 & _).
  assert (Hk02 : ro_keeps c c2) by (by eapply ro_keeps_trans).
  assert (Hstay : forall c3, ro_keeps c c3 -> confirmed (ro_req c3) ->
    (doc_id (ro_opt c3) = doc_id (ro_req c3) ->
     doc_id (ro_opt c3) ∈ accept (ro_opt c3) /\ confirmed (ro_opt c3)) -> stays c c3).
  { intros c3 H1 H2 H3. apply ro_keeps_stays; [done|]. intros _. by split. }
  assert (Hopt : accept (ro_opt c2) = accept (ro_opt c) /\ gives (ro_opt c2) = gives (ro_opt c)).
  { destruct Hk02 as (_ & _ & _ & _ & (_ & -> & _ & _ & ->)). done. }
  change (doc_id c) with (doc_id (ro_req c)) in Hv1.
  destruct (Z.eqb_spec d (doc_id (ro_req c1))) as [He|Hne].
  - destruct (Hv He) as [Ha2 Hc2]. wp_bind. pose proof (ro_keeps_need _ _ n Hk2 Hn1) as Hn2. cbn in Hn2.
    wp_use (ro_opt_ok n c2 score (fun y o => doc_id o = d /\ confirmed o /\ gives (ro_opt c2) (doc_id (ro_opt c2)) y) HG2).
    { wp_use score_ok; [apply HG2|done|done|lia|]. intros [x o] [(H1 & H2 & H3 & H4) H5]. cbn [fst snd] in *.
      split_and!; [done|done|by eapply opt_due_stays; [apply HG2|..]|congruence|auto|done]. }
    intros [x c3] (Hk3 & Hr3 & Hd3 & Hc3 & Hx). apply wp_ret. cbn [fst snd] in *. split.
    2:{ exists v. split; [exact Hv1|]. change (doc_id c) with (doc_id (ro_req c)). rewrite <- Hd2, He, Hd1 in Ha2, Hx.
        destruct Hopt as [E1 E2]. rewrite E1 in Ha2. rewrite E2 in Hx. rewrite decide_True by done. by exists x. }
    apply (Hstay c3).
    + by eapply ro_keeps_trans.
    + by rewrite Hr3, Hr2.
    + intros _. split; [|done]. rewrite Hd3, Hd2. destruct Hk3 as (_ & _ & _ & _ & (_ & -> & _)). done.
  - apply wp_ret. split; [apply (Hstay c2); [done|by rewrite Hr2|]; intros He; exfalso; apply Hne; by rewrite Hd2, He, Hr2|].
    exists v. split; [exact Hv1|]. change (doc_id c) with (doc_id (ro_req c)). destruct (decide _) as [Hin|]; [|done].
    exfalso. rewrite <- (proj1 Hopt), <- Hd1, <- Hr2 in Hin. destruct HG2 as (_ & _ & _ & _ & Hdue).
    specialize (Hdue _ Hin ltac:(lia)). rewrite <- Hd2, Hr2 in Hdue. lia.
Qed.

(** A call that leaves the required, or the optional, clause where it is. *)
Lemma ro_req_stays {A} n c (f : R -> comp E (A * R)) :
  good c -> wp (f (ro_req c)) n (holds (ro_req c)) ->
  wp (ro_req_with c f) n (fun r => ro_keeps c r.2 /\ holds c r).
Proof.
  intros HG H. wp_use (ro_req_ok n c f (fun _ r => confirmed (ro_req c) -> confirmed r) HG).
  - wp_use H. intros [a r] (H1 & H2 & H3 & H4). by split_and!.
  - intros [a c'] (Hk & Ho & Hc). cbn [fst snd] in *. split; [done|].
    apply (ro_keeps_stays c c'); [done|].
    intros [H1 H2]. split; [auto|]. rewrite Ho. destruct Hk as (_ & _ & Hd & _). cbn in Hd. by rewrite Hd.
Qed.

Lemma ro_opt_stays {A} n c (f : O -> comp E (A * O)) :
  good c -> wp (f (ro_opt c)) n (holds (ro_opt c)) ->
  wp (ro_opt_with c f) n (fun r => ro_keeps c r.2 /\ holds c r).
Proof.
  intros HG H. wp_use (ro_opt_ok n c f (fun _ o => doc_id o = doc_id (ro_opt c) /\
    (confirmed (ro_opt c) -> confirmed o)) HG).
  - wp_use H. intros [a r] (H1 & H2 & H3 & H4). split_and!; try done. by eapply opt_due_stays; [apply HG|..].
  - intros [a c'] (Hk & Hr & Hd & Hc). cbn [fst snd] in *. split; [done|].
    apply (ro_keeps_stays c c'); [done|].
    intros [H1 H2]. split; [by rewrite Hr|]. rewrite Hr, Hd. intros He. destruct (H2 He) as [H3 H4].
    split; [|auto]. destruct Hk as (_ & _ & _ & _ & (_ & -> & _)). done.
Qed.

Lemma stays_trans c1 c2 c3 : stays c1 c2 -> stays c2 c3 -> stays c1 c3.
Proof.
  intros (_ & S1 & D1 & C1) (G & S2 & D2 & C2). split_and!; [done|by eapply same_trans|congruence|auto].
Qed.

Lemma stays_refl c : good c -> stays c c.
Proof. intros HG. by split_and!. Qed.

Lemma ro_shallow_ok n c t : good c -> 0 <= t -> (need c <= n)%nat -> wp (ro_advance_shallow c t) n (holds c).
Proof.
  intros HG Ht Hn. unfold ro_advance_shallow. wp_bind. cbn in Hn.
  wp_use (ro_req_stays n c (fun r => advance_shallow r t) HG); [apply shallow_ok; [apply HG|done|lia]|].
  intros [u c1] (Hk1 & Hh1). cbn [fst snd] in *. pose proof Hk1 as (HG1 & (_ & _ & _ & Hn1 & _) & _). cbn in Hn1.
  destruct (doc_id (ro_opt c1) <=? t); [|destruct (negb _); by wp_ret].
  wp_bind. wp_use (ro_opt_stays n c1 (fun o => advance_shallow o t) HG1); [apply shallow_ok; [apply HG1|done|lia]|].
  intros [u' c2] (Hk2 & Hh2). wp_ret. by eapply stays_trans.
Qed.

Lemma ro_max_score_ok n c t : good c -> (need c <= n)%nat -> wp (ro_max_score c t) n (holds c).
Proof.
  intros HG Hn. unfold ro_max_score. wp_bind. cbn in Hn.
  wp_use (ro_req_stays n c (fun r => max_score r t) HG); [apply max_score_ok; [apply HG|lia]|].
  intros [u c1] (Hk1 & Hh1). cbn [fst snd] in *. pose proof Hk1 as (HG1 & (_ & _ & _ & Hn1 & _) & _). cbn in Hn1.
  destruct (doc_id (ro_opt c1) <=? t); [|by wp_ret].
  wp_bind. wp_use (ro_opt_stays n c1 (fun o => max_score o t) HG1); [apply max_score_ok; [apply HG1|lia]|].
  intros [u' c2] (Hk2 & Hh2). wp_ret. by eapply stays_trans.
Qed.

#[export] Instance ro_laws : ScorerLaws E (ReqOptSumScorer R O).
Proof.
  split.
  - intros c (Hr & _). by apply (accept_approx (ro_req c)).
  - intros c d (Hr & _). by apply (approx_range (ro_req c)).
  - intros c (Hr & _). by apply (doc_id_ok (ro_req c)).
  - intros c (Hr & _) Ht. cbn in Ht. apply orb_false_iff in Ht as [Ht _]. by apply (one_phase (ro_req c)).
  - intros n c HG Hd Hn. cbn [next_doc ro_scorer]. unfold ro_next_doc. destruct (ro_top_scores c).
    + pose proof (doc_id_range (ro_req c) ltac:(apply HG)). cbn in Hd. rewrite sat32_id.
      * apply ro_internal_ok; [done|cbn; lia|cbn; lia|done].
      * assert (NO_MORE_DOCS = 2 ^ 31 - 1) by done. unfold in_s. lia.
    + cbn in Hn. apply ro_move_ok; [done|cbn; lia|]. apply (next_doc_ok n (ro_req c)); [apply HG|done|lia].
  - intros n c t HG Hd Ht Hn. cbn [advance ro_scorer]. unfold ro_advance. destruct (ro_top_scores c).
    + by apply ro_internal_ok.
    + cbn in Hn. apply (ro_move_ok n c t (fun r => advance r t)); [done|done|].
      apply (advance_ok n (ro_req c)); [apply HG|done|done|lia].
  - intros n c HG Hd Hn. by apply ro_matches_ok.
  - intros c HG Ht Hd. cbn in Ht. apply orb_false_iff in Ht as [H1 H2]. cbn in Hd.
    pose proof (approx_range (ro_req c) _ ltac:(apply HG) Hd) as Hrng.
    split; [apply one_phase_confirmed; [apply HG|done|done]|]. intros He.
    apply ro_one_phase_opt; [done|done|]. by rewrite He.
  - intros n c HG Hd Hc Hn. by apply ro_score_ok.
  - intros n c t HG Ht Hn. by apply ro_shallow_ok.
  - intros n c t HG Hn. by apply ro_max_score_ok.
  - intros c t HG Hd Ht. by apply stays_refl.
  - done.
Qed.

Lemma ro_new_ok n req opt top :
  fresh req -> fresh opt -> (need req + need opt <= n)%nat ->
  wp (ro_new req opt top) n (fun c => fresh c /\ approx c = approx req /\ accept c = accept req /\
    need c = (need req + need opt + 1)%nat /\
    forall d v, gives c d v <-> exists x, gives req d x /\
      if decide (d ∈ accept opt) then exists y, gives opt d y /\ v = f32_add x y else v = x).
Proof.
  intros [Hr Hdr] [Ho Hdo] Hn.
  assert (Hdue : forall r o, good o -> doc_id o = -1 -> opt_due r o).
  { intros r o Hg Hd x Hx _. apply accept_approx, approx_range in Hx; [lia|done|done]. } unfold ro_new. destruct top.
  - wp_bind. wp_use shallow_ok; [done|done|lia|]. intros [u r1] (Hr1 & (A1 & B1 & _ & N1 & G1) & D1 & _).
    cbn [fst snd] in *. wp_bind. wp_use shallow_ok; [done|done|lia|].
    intros [u' o1] (Ho1 & (A2 & B2 & _ & N2 & G2) & D2 & _). cbn [fst snd] in *. wp_bind.
    wp_use max_score_ok; [done|lia|]. intros [m r2] (Hr2 & (A3 & B3 & _ & N3 & G3) & D3 & _). wp_ret.
    cbn [snd] in *. split; [split; [split_and!; try done; cbn; apply Hdue; [done|congruence]|cbn; congruence]|]. cbn.
    split_and!; [congruence|congruence|lia|]. intros d v. by rewrite G3, G1, G2, B2.
  - wp_ret. split; [split; [|done]; split_and!; try done; by apply Hdue|]. by split_and!.
Qed.
End ro_laws.
