(* ===== verification/HeapTheory.v ===== *)
(** * Array heaps

    The repository has several priority queues over arrays: binary and ternary,
    moving the displaced element by swaps or leaving a hole.  This file has
    what their sift loops share, for any arity and any total preorder: the
    heap order up to one displaced position ([hole]), the step that moves the
    displacement up or down, and the fact that both only permute. *)
From S2P Require Export Prelude.

Definition swap {A} (l : list A) (i j : nat) : list A :=
  match l !! i, l !! j with
  | Some x, Some y => <[i := y]> (<[j := x]> l)
  | _, _ => l
  end.

Lemma length_swap {A} (l : list A) i j : length (swap l i j) = length l.
Proof. unfold swap. destruct (l !! i), (l !! j); rewrite ?length_insert; done. Qed.

Lemma lookup_swap {A} (l : list A) i j x y k :
  l !! i = Some x -> l !! j = Some y ->
  swap l i j !! k = if decide (k = i) then Some y else if decide (k = j) then Some x else l !! k.
Proof.
  intros Hi Hj. unfold swap. rewrite Hi, Hj. repeat case_decide; subst.
  - rewrite list_lookup_insert_eq; [done|]. rewrite length_insert. by eapply lookup_lt_Some.
  - rewrite list_lookup_insert_ne, list_lookup_insert_eq by (done || by eapply lookup_lt_Some). done.
  - by rewrite !list_lookup_insert_ne.
Qed.

Lemma insert_perm {A} (l : list A) i x y : l !! i = Some x -> y :: l ≡ₚ x :: <[i := y]> l.
Proof.
  revert i. induction l as [|z l IH]; intros [|i] Hi; cbn in *; [done|done| |].
  - injection Hi as ->. apply Permutation_swap.
  - etrans; [apply Permutation_swap|]. etrans; [apply Permutation_skip, (IH i Hi)|apply Permutation_swap].
Qed.

Lemma swap_perm {A} (l : list A) i j : swap l i j ≡ₚ l.
Proof.
  unfold swap. destruct (l !! i) as [x|] eqn:Hi, (l !! j) as [y|] eqn:Hj; try done.
  destruct (decide (i = j)) as [->|Hne].
  - rewrite Hi in Hj. injection Hj as <-. rewrite (list_insert_id l j x Hi). by rewrite list_insert_id.
  - apply (Permutation_cons_inv (a := x)).
    rewrite <- (insert_perm (<[j := x]> l) i x y) by (by rewrite list_lookup_insert_ne).
    symmetry. by apply insert_perm.
Qed.

(** Leaving a hole at [i] and moving it to [j] is a swap of the array with the
    hole filled. *)
Lemma hole_is_swap {A} (l : list A) i j v y :
  i <> j -> (i < length l)%nat -> l !! j = Some y ->
  <[j := v]> (<[i := y]> l) = swap (<[i := v]> l) i j.
Proof.
  intros Hne Hi Hj. apply list_eq. intros k.
  rewrite (lookup_swap _ i j v y) by
    (rewrite ?list_lookup_insert_eq, ?list_lookup_insert_ne by done; done).
  destruct (decide (k = i)) as [->|Hki]; [|destruct (decide (k = j)) as [->|Hkj]].
  - by rewrite list_lookup_insert_ne, list_lookup_insert_eq by lia.
  - rewrite list_lookup_insert_eq; [done|]. rewrite length_insert. by eapply lookup_lt_Some.
  - by rewrite !list_lookup_insert_ne.
Qed.

Section heap.
Context {A : Type} (le : A -> A -> Prop) (arity : nat).
Context (le_refl : forall x, le x x) (le_trans : forall x y z, le x y -> le y z -> le x z).
Context (arity_pos : (0 < arity)%nat).

(** Positions are from 0; the children of [i] are [arity * i + 1] and the
    [arity - 1] after it. *)
Definition parent (i : nat) : nat := ((i - 1) / arity)%nat.
Definition child (i c : nat) : Prop := (0 < c)%nat /\ parent c = i.

Lemma parent_lt i : (0 < i)%nat -> (parent i < i)%nat.
Proof. intros H. unfold parent. apply Nat.Div0.div_lt_upper_bound; nia. Qed.

Lemma child_iff i c : child i c <-> (arity * i + 1 <= c <= arity * i + arity)%nat.
Proof.
  unfold child, parent. split.
  - intros [H1 H2]. pose proof (Nat.div_mod_eq (c - 1) arity). pose proof (Nat.mod_upper_bound (c - 1) arity).
    rewrite H2 in *. lia.
  - intros [H1 H2]. split; [lia|]. symmetry. apply (Nat.div_unique _ _ _ (c - 1 - arity * i)); lia.
Qed.

(** [x] at [i] is no greater than [y] at [j], when both are there. *)
Definition edge (l : list A) (i j : nat) : Prop :=
  forall x y, l !! i = Some x -> l !! j = Some y -> le x y.

Definition heap (l : list A) : Prop := forall c, (0 < c)%nat -> edge l (parent c) c.

(** Ordered but for what touches [i], whose children are above its parent. *)
Definition hole (l : list A) (i : nat) : Prop :=
  (forall c, (0 < c)%nat -> c <> i -> parent c <> i -> edge l (parent c) c) /\
  ((0 < i)%nat -> forall c, child i c -> edge l (parent i) c).
Definition above_ok (l : list A) (i : nat) : Prop := (0 < i)%nat -> edge l (parent i) i.
Definition below_ok (l : list A) (i : nat) : Prop := forall c, child i c -> edge l i c.

Lemma hole_filled l i : hole l i -> above_ok l i -> below_ok l i -> heap l.
Proof.
  intros [H _] Ha Hb c Hc. destruct (decide (c = i)) as [->|]; [by apply Ha|].
  destruct (decide (parent c = i)) as [He|]; [|by apply H].
  rewrite He. by apply Hb.
Qed.

Lemma heap_hole l i : heap l -> hole l i.
Proof.
  intros H. split; [intros c Hc _ _; by apply H|]. intros Hi c [Hc Hp] x y Hx Hy.
  destruct (l !! i) as [z|] eqn:Hz.
  - eapply le_trans; [by eapply (H i Hi)|]. eapply (H c Hc); [by rewrite Hp|done].
  - apply lookup_ge_None in Hz. pose proof (parent_lt c Hc). apply lookup_lt_Some in Hy. lia.
Qed.

(** The displaced element is no greater than its parent: they change places. *)
Lemma sift_up l i x p :
  (0 < i)%nat -> hole l i -> below_ok l i -> l !! i = Some x -> l !! parent i = Some p -> le x p ->
  hole (swap l i (parent i)) (parent i) /\ below_ok (swap l i (parent i)) (parent i).
Proof.
  intros Hi [Hh Hg] Hb Hx Hp Hle. pose proof (parent_lt i Hi) as Hlt.
  assert (Hlk := lookup_swap l i (parent i) x p). set (q := parent i) in *.
  assert (Hsib : forall c, child q c -> c <> i -> forall y, l !! c = Some y -> le p y).
  { intros c [Hc Hpc] Hne y Hy. eapply (Hh c Hc Hne); [lia|rewrite Hpc; exact Hp|done]. }
  assert (Hup : (0 < q)%nat -> forall g, l !! parent q = Some g -> le g p).
  { intros Hq g Hg'. pose proof (parent_lt q Hq). eapply (Hh q Hq); [lia|lia|done|done]. }
  split; [split|].
  - intros c Hc Hcq Hpcq. intros a b. rewrite !(Hlk _ Hx Hp).
    destruct (decide (c = i)) as [->|Hci]; [done|].
    rewrite (decide_False (P := c = q)) by done. destruct (decide (parent c = i)) as [Hpi|Hpi].
    + intros [= <-] Hb'. eapply (Hg Hi c); [by split|done|done].
    + rewrite (decide_False (P := parent c = q)) by done. by apply Hh.
  - intros Hq c [Hc Hpc]. pose proof (parent_lt q Hq) as Hpq. intros a b. rewrite !(Hlk _ Hx Hp).
    rewrite (decide_False (P := parent q = i)), (decide_False (P := parent q = q)) by lia.
    intros Ha Hb'. destruct (decide (c = i)) as [->|Hci]; [injection Hb' as <-; by apply Hup|].
    pose proof (parent_lt c Hc). rewrite (decide_False (P := c = q)) in Hb' by lia.
    eapply le_trans; [by apply Hup|]. by eapply (Hsib c).
  - intros c [Hc Hpc] a b. pose proof (parent_lt c Hc). rewrite !(Hlk _ Hx Hp).
    rewrite (decide_False (P := q = i)), (decide_True (P := q = q)) by (done || lia). intros [= <-].
    destruct (decide (c = i)) as [->|Hci]; [by intros [= <-]|].
    rewrite (decide_False (P := c = q)) by lia. intros Hb'.
    eapply le_trans; [exact Hle|]. by eapply (Hsib c).
Qed.

(** The displaced element is no less than its least child: they change places. *)
Lemma sift_down l i c x y :
  hole l i -> above_ok l i -> child i c -> l !! i = Some x -> l !! c = Some y -> le y x ->
  (forall c' z, child i c' -> l !! c' = Some z -> le y z) ->
  hole (swap l i c) c /\ above_ok (swap l i c) c.
Proof.
  intros [Hh Hg] Ha [Hc Hpc] Hx Hy Hle Hmin. pose proof (parent_lt c Hc) as Hlt.
  assert (Hlk := lookup_swap l i c x y). split; [split|].
  - intros k Hk Hkc Hpkc. intros a b. rewrite !(Hlk _ Hx Hy).
    rewrite (decide_False (P := k = c)), (decide_False (P := parent k = c)) by done.
    destruct (decide (k = i)) as [->|Hki].
    + pose proof (parent_lt i Hk). rewrite (decide_False (P := parent i = i)) by lia.
      intros Ha' [= <-]. eapply (Hg Hk c); [by split|done|done].
    + destruct (decide (parent k = i)) as [Hpi|]; [|by apply Hh].
      intros [= <-] Hb. eapply (Hmin k); [by split|done].
  - intros _ k [Hk Hpk] a b. pose proof (parent_lt k Hk). rewrite Hpc, !(Hlk _ Hx Hy).
    rewrite (decide_True (P := i = i)), (decide_False (P := k = i)), (decide_False (P := k = c)) by (done || lia).
    intros [= <-] Hb. eapply (Hh k Hk); [lia|lia|by rewrite Hpk|done].
  - intros _ a b. rewrite Hpc, !(Hlk _ Hx Hy).
    rewrite (decide_True (P := i = i)), (decide_False (P := c = i)), (decide_True (P := c = c)) by (done || lia).
    by intros [= <-] [= <-].
Qed.

(** The root is least. *)
Lemma heap_root l r i x : heap l -> l !! O = Some r -> l !! i = Some x -> le r x.
Proof.
  intros H Hr. revert x. induction i as [i IH] using lt_wf_ind. intros x Hx.
  destruct (decide (i = O)) as [->|Hi]; [assert (x = r) as -> by congruence; apply le_refl|].
  pose proof (parent_lt i ltac:(lia)) as Hlt. destruct (l !! parent i) as [p|] eqn:Hp.
  - eapply le_trans; [by eapply IH|]. by eapply (H i ltac:(lia)).
  - apply lookup_ge_None in Hp. apply lookup_lt_Some in Hx. lia.
Qed.

Lemma heap_app l k : heap (l ++ k) -> heap l.
Proof.
  intros H c Hc x y Hx Hy. apply (H c Hc); by apply lookup_app_l_Some.
Qed.

(** Appending an element displaces only it. *)
Lemma heap_snoc l x : heap l -> hole (l ++ [x]) (length l) /\ below_ok (l ++ [x]) (length l).
Proof.
  intros H.
  assert (Hno : forall c, child (length l) c -> (l ++ [x]) !! c = None).
  { intros c [Hc Hp]. apply lookup_ge_None. pose proof (parent_lt c Hc). rewrite length_app. cbn. lia. }
  split; [split|].
  - intros c Hc Hcl _ a b Ha Hb. pose proof (parent_lt c Hc).
    assert (Hcs : (c < length (l ++ [x]))%nat) by (by eapply lookup_lt_Some).
    rewrite length_app in Hcs. cbn in Hcs. rewrite lookup_app_l in Ha, Hb by lia. by apply (H c Hc).
  - intros _ c Hch a b _ Hb. rewrite (Hno c Hch) in Hb. done.
  - intros c Hch a b _ Hb. rewrite (Hno c Hch) in Hb. done.
Qed.

(** Replacing the root displaces only it. *)
Lemma heap_root_hole l x : heap l -> hole (<[O := x]> l) O.
Proof.
  intros H. split; [|lia]. intros c Hc Hc0 Hp0 a b. rewrite !list_lookup_insert_ne by done.
  by apply (H c Hc).
Qed.
End heap.
