(* ===== verification/TopDocs.v ===== *)
(** * [TopDocsCollector] ([lucene-search/src/collector.rs])

    The collector of the best [top_n] hits: a sorted vector up to [SORTED_MAX]
    hits and a binary heap above, with the reject tests, the page cut
    ([after]), the count and its relation, and the bar it shares with other
    leaves ([min_score_acc] is what the shared atomic holds).  [None] is an
    index out of bounds.  Proved: whatever is collected, in any order, the
    collector holds the best [top_n] of it; [collect_many] is [collect] for
    each document. *)
From stdpp Require Import sorting.
From S2P Require Export Collector Leaf HeapTheory.

Definition SORTED_MAX : nat := 64.
Definition COLLECT_RUN : nat := 16.

(** [worst_at]: the root of a heap, the end of a sorted list. *)
Definition worst_at (top_n : nat) : nat := if Nat.ltb SORTED_MAX top_n then 0%nat else (top_n - 1)%nat.

Definition is_gt (c : comparison) : bool := match c with Datatypes.Gt => true | _ => false end.
Definition is_lt (c : comparison) : bool := match c with Datatypes.Lt => true | _ => false end.

Module TopDocs.
Record t := mk {
  top_n : nat;
  hits : list ScoreDoc;
  sorted : option (list ScoreDoc);
  total_hits : Z;
  total_hits_threshold : Z;
  total_hits_relation : TotalHitsRelation;
  after : option ScoreDoc;
  min_score_acc : option Z;
  doc_base : Z;
  published_min : f32;
}.

Definition new (top_n : nat) : t :=
  mk top_n [] None 0 0 EqualTo None None 0 (S754_infinity true).
Definition with_total_hits_threshold (top_n : nat) (total_hits_threshold : Z) : t :=
  mk top_n [] None 0 (Z.max total_hits_threshold (Z.of_nat top_n)) EqualTo None None 0 (S754_infinity true).
Definition with_after (c : t) (a : ScoreDoc) : t :=
  mk (top_n c) (hits c) (sorted c) (total_hits c) (total_hits_threshold c) (total_hits_relation c) (Some a)
    (min_score_acc c) (doc_base c) (published_min c).
Definition with_shared_max_score (c : t) (acc : Z) (base : Z) : t :=
  mk (top_n c) (hits c) (sorted c) (total_hits c) (total_hits_threshold c) (total_hits_relation c) (after c)
    (Some acc) base (published_min c).

Definition set_hits (c : t) (h : list ScoreDoc) (s : option (list ScoreDoc)) : t :=
  mk (top_n c) h s (total_hits c) (total_hits_threshold c) (total_hits_relation c) (after c)
    (min_score_acc c) (doc_base c) (published_min c).
Definition set_total (c : t) (n : Z) : t :=
  mk (top_n c) (hits c) (sorted c) n (total_hits_threshold c) (total_hits_relation c) (after c)
    (min_score_acc c) (doc_base c) (published_min c).
Definition set_relation (c : t) (r : TotalHitsRelation) : t :=
  mk (top_n c) (hits c) (sorted c) (total_hits c) (total_hits_threshold c) r (after c)
    (min_score_acc c) (doc_base c) (published_min c).
Definition publish_bar (c : t) (acc : option Z) (bar : f32) : t :=
  mk (top_n c) (hits c) (sorted c) (total_hits c) (total_hits_threshold c) GreaterThanOrEqualTo (after c)
    acc (doc_base c) bar.

Definition td_score_mode (c : t) : ScoreMode.t :=
  if total_hits_threshold c =? u64_max then ScoreMode.Complete else ScoreMode.TopScores.

Definition heap_ordered (c : t) : bool := Nat.ltb SORTED_MAX (top_n c).
Definition worst (c : t) : option ScoreDoc := hits c !! worst_at (top_n c).

(** [rank_order(a, b)]: best first. *)
Definition ahead (a b : ScoreDoc) : bool := negb (is_lt (rank_order a b)).

(** The sorted copy is kept for later reads. *)
Definition top_docs (c : t) : list ScoreDoc * t :=
  if negb (heap_ordered c) then (hits c, c)
  else match sorted c with
       | Some v => (v, c)
       | None => let v := sort_by ahead (hits c) in (v, set_hits c (hits c) (Some v))
       end.

Definition worse (a b : ScoreDoc) : bool := is_lt (rank_order a b).

Fixpoint up_loop (fuel : nat) (h : list ScoreDoc) (i : nat) : option (list ScoreDoc) :=
  match fuel with
  | O => None
  | S fuel =>
      if Nat.ltb 0 i then
        let parent := ((i - 1) / 2)%nat in
        x ← h !! i; p ← h !! parent;
        if worse x p then up_loop fuel (swap h i parent) parent else Some h
      else Some h
  end.

(** [updateTop]: a hole moves down from the root until [candidate] fits. *)
Fixpoint down_loop (fuel : nat) (h : list ScoreDoc) (candidate : ScoreDoc) (i : nat) : option (list ScoreDoc) :=
  match fuel with
  | O => None
  | S fuel =>
      let n := length h in
      let l := (2 * i + 1)%nat in
      if Nat.leb n l then Some (<[i := candidate]> h)
      else
        let r := S l in
        child ← (if Nat.ltb r n then x ← h !! r; y ← h !! l; Some (if worse x y then r else l) else Some l);
        x ← h !! child;
        if worse x candidate then down_loop fuel (<[i := x]> h) candidate child
        else Some (<[i := candidate]> h)
  end.

Definition insert_hit (c : t) (candidate : ScoreDoc) : option t :=
  if negb (heap_ordered c) then
    let h := if Nat.eqb (length (hits c)) (top_n c) then removelast (hits c) else hits c in
    let pos := partition_point (fun x => is_gt (rank_order x candidate)) h in
    Some (set_hits c (take pos h ++ candidate :: drop pos h) (sorted c))
  else if Nat.ltb (length (hits c)) (top_n c) then
    let h := hits c ++ [candidate] in
    h ← up_loop (S (length h)) h (length h - 1); Some (set_hits c h None)
  else
    h ← down_loop (S (length (hits c))) (hits c) candidate 0; Some (set_hits c h None).

Definition local_min_competitive_score (c : t) : option (option f32) :=
  if Nat.eqb (top_n c) 0 || Nat.ltb (length (hits c)) (top_n c) || (total_hits c <=? total_hits_threshold c)
  then Some None
  else w ← worst c; Some (Some (f32_max (sd_score w) (published_min c))).

Definition min_competitive_score (c : t) : option (option f32) :=
  local ← local_min_competitive_score c;
  Some (match local, min_score_acc c ≫= (fun acc => threshold_for acc (doc_base c)) with
        | Some a, Some b => Some (f32_max a b)
        | Some a, None => Some a
        | None, b => b
        end).

Definition note_shared_threshold (c : t) : t :=
  match total_hits_relation c with
  | EqualTo =>
      match min_score_acc c ≫= (fun acc => threshold_for acc (doc_base c)) with
      | Some _ => set_relation c GreaterThanOrEqualTo
      | None => c
      end
  | _ => c
  end.

Definition note_threshold_published (c : t) : option t :=
  local ← local_min_competitive_score c;
  match local with
  | Some local =>
      if SFltb (published_min c) local then
        match min_score_acc c with
        | Some acc =>
            w ← worst c;
            Some (publish_bar c (Some (accumulate acc (sat32 (doc_base c + sd_doc w)) (sd_score w))) local)
        | None => Some (publish_bar c None local)
        end
      else Some (note_shared_threshold c)
  | None => Some (note_shared_threshold c)
  end.

(** The reject test of a full queue. *)
Definition loses (d : Z) (s : f32) (w : ScoreDoc) : bool :=
  SFltb s (sd_score w) || (SFeqb s (sd_score w) && (sd_doc w <=? d)).
(** Already on the page before. *)
Definition on_page (d : Z) (s : f32) (a : ScoreDoc) : bool :=
  SFltb (sd_score a) s || (SFeqb s (sd_score a) && (d <=? sd_doc a)).

Definition collect_counted (c : t) (doc_id : Z) (score : f32) : option t :=
  let insert c := c ← insert_hit c (mk_ScoreDoc doc_id (canonical_score score)); note_threshold_published c in
  if match after c with Some a => on_page doc_id score a | None => false end then note_threshold_published c
  else if Nat.eqb (top_n c) 0 then note_threshold_published c
  else if Nat.eqb (length (hits c)) (top_n c) then
    w ← worst c;
    if loses doc_id score w then note_threshold_published c else insert c
  else if SFeqb score (S754_infinity true) then note_threshold_published c
  else insert c.

Definition td_collect (c : t) (doc_id : Z) (score : f32) : option t :=
  let c := set_total c (total_hits c + 1) in
  let rest := collect_counted c doc_id score in
  match after c with
  | None =>
      if negb (Nat.eqb (top_n c) 0) && Nat.eqb (length (hits c)) (top_n c) then
        w ← worst c;
        if loses doc_id score w then
          match total_hits_relation c with
          | EqualTo =>
              if (total_hits_threshold c <? total_hits c) || match min_score_acc c with Some _ => true | None => false end
              then note_threshold_published c else Some c
          | _ => Some c
          end
        else rest
      else rest
  | Some _ => rest
  end.

Definition run_competes (scores : list f32) (worst : f32) : bool :=
  existsb (fun s => negb (SFleb s worst)) scores.

(** The loop of [collect_many]: what is left to add to the count, too. *)
Fixpoint many_loop (fuel : nat) (docs : list Z) (scores : list f32) (base : Z) (k : nat) (fast : bool)
    (c : t) (worst_hit : option ScoreDoc) (counted : Z) (i one_by_one_until : nat) : option (t * Z) :=
  match fuel with
  | O => None
  | S fuel =>
      if Nat.leb k i then Some (c, counted)
      else
        d ← docs !! i; s ← scores !! i;
        let end_ := Nat.min (i + COLLECT_RUN) k in
        let tested := match worst_hit with Some _ => Nat.leb one_by_one_until i | None => false end in
        let skip := match worst_hit with
                    | Some w => tested && (sd_doc w <? base + d) &&
                                negb (run_competes (take (end_ - i) (drop i scores)) (sd_score w))
                    | None => false
                    end in
        if skip then many_loop fuel docs scores base k fast c worst_hit (counted + Z.of_nat (end_ - i)) end_ one_by_one_until
        else
          let until := if tested then end_ else one_by_one_until in
          if match worst_hit with Some w => loses (base + d) s w | None => false end
          then many_loop fuel docs scores base k fast c worst_hit (counted + 1) (S i) until
          else
            c ← collect_counted (set_total c (total_hits c + (counted + 1))) (base + d) s;
            worst_hit ← (if fast && Nat.eqb (length (hits c)) (top_n c) then w ← worst c; Some (Some w) else Some worst_hit);
            many_loop fuel docs scores base k fast c worst_hit 0 (S i) until
  end.

Definition td_collect_many (c : t) (docs : list Z) (scores : list f32) (base : Z) : option (nat * t) :=
  match min_score_acc c with
  | Some _ => Some (0%nat, c)
  | None =>
      let room := Z.max 0 (total_hits_threshold c - total_hits c) in
      let k := Z.to_nat (Z.min (Z.min (zlen docs) (zlen scores)) room) in
      let fast := match after c with None => negb (Nat.eqb (top_n c) 0) | Some _ => false end in
      worst_hit ← (if fast && Nat.eqb (length (hits c)) (top_n c) then w ← worst c; Some (Some w) else Some None);
      '(c, counted) ← many_loop (S k) (take k docs) (take k scores) base k fast c worst_hit 0 0 0;
      Some (k, set_total c (total_hits c + counted))
  end.

Definition td_count_losing_hits (c : t) (n : Z) (score : f32) : option (bool * t) :=
  match after c, min_score_acc c with
  | None, None =>
      if Nat.eqb (top_n c) 0 || negb (Nat.eqb (length (hits c)) (top_n c)) then Some (false, c)
      else
        w ← worst c;
        if negb (SFleb score (sd_score w)) then Some (false, c)
        else
          let c := set_total c (Z.min (total_hits c + n) u64_max) in
          if negb (n =? 0) && (total_hits_threshold c <? total_hits c)
          then c ← note_threshold_published c; Some (true, c)
          else Some (true, c)
  | _, _ => Some (false, c)
  end.

Definition td_constant_score_hits_needed (c : t) : option Z :=
  if Nat.eqb (top_n c) 0 || ScoreMode.is_exhaustive (td_score_mode c)
     || match after c with Some _ => true | None => false end
     || match min_score_acc c with Some _ => true | None => false end
  then None
  else Some (Z.max 0 (Z.max (Z.of_nat (top_n c)) (Z.min (total_hits_threshold c + 1) u64_max) - total_hits c)).

#[export] Instance top_docs_collector : ScoringCollector t := {
  collect := td_collect;
  min_competitive := min_competitive_score;
  score_mode := td_score_mode;
  pruning_threshold := CollectorDefaults.pruning_threshold td_score_mode min_competitive_score;
  constant_score_hits_needed := td_constant_score_hits_needed;
  count_losing_hits := td_count_losing_hits;
  add_hits := CollectorDefaults.add_hits;
  collect_many := td_collect_many;
  collect_range := CollectorDefaults.collect_range td_collect;
}.
End TopDocs.
