(* ===== verification/TopDocsSpec.v ===== *)
(** * What [TopDocsCollector] holds

    The best [top_n] of what was collected ([top_docs_are_the_best]), in both
    representations, whatever the order of collection, the page cut and the
    shared bar; and [collect_many] is [collect] for each document. *)
From stdpp Require Import sorting.
From S2P Require Export TopDocs.
Import TopDocs.

(** ** Sorted lists of a total order *)
Section sort_theory.
Context {A : Type} (leb : A -> A -> bool).
Context (leb_total : forall x y, leb x y = true \/ leb y x = true).
Context (leb_trans : forall x y z, leb x y = true -> leb y z = true -> leb x z = true).
Context (leb_antisym : forall x y, leb x y = true -> leb y x = true -> x = y).

Notation in_order := (Sorted.StronglySorted (fun x y => leb x y = true)).

Lemma sort_insert_sorted x l : in_order l -> in_order (sort_insert leb x l).
Proof.
  induction l as [|y l IH]; intros Hl; cbn; [by repeat constructor|]. inversion Hl as [|? ? Hs Hy]; subst.
  destruct (leb x y) eqn:Ex.
  - constructor; [done|]. constructor; [done|]. eapply Forall_impl, Hy. intros z Hz. by eapply leb_trans.
  - constructor; [by apply IH|]. apply Forall_forall. intros z Hz%list_elem_of_In. rewrite sort_insert_perm in Hz.
    apply elem_of_cons in Hz as [->|Hz]; [by destruct (leb_total x y); [congruence|]|].
    rewrite Forall_forall in Hy. by apply Hy, list_elem_of_In.
Qed.

Lemma sort_by_sorted l : in_order (sort_by leb l).
Proof. induction l as [|x l IH]; cbn; [constructor|]. by apply sort_insert_sorted. Qed.

Lemma sorted_unique l k : in_order l -> in_order k -> l ≡ₚ k -> l = k.
Proof. apply StronglySorted_unique. intros x y. apply leb_antisym. Qed.

Lemma sort_by_perm_eq l k : l ≡ₚ k -> sort_by leb l = sort_by leb k.
Proof. intros Hp. apply sorted_unique; [apply sort_by_sorted..|]. by rewrite !sort_by_perm. Qed.

Lemma sort_by_id l : in_order l -> sort_by leb l = l.
Proof. intros Hl. apply sorted_unique; [apply sort_by_sorted|done|apply sort_by_perm]. Qed.

(** Only the first [n] decide where an element enters the first [n]. *)
Lemma take_sort_insert n x l : take n (sort_insert leb x l) = take n (sort_insert leb x (take n l)).
Proof.
  revert n. induction l as [|y l IH]; intros [|n]; cbn; [done|done|done|]. destruct (leb x y); cbn.
  - f_equal. destruct n; cbn; [done|]. f_equal. rewrite take_take. f_equal. lia.
  - f_equal. apply IH.
Qed.

Lemma sort_insert_last x l : Forall (fun y => leb x y = false) l -> sort_insert leb x l = l ++ [x].
Proof. induction 1 as [|y l Hy Hl IH]; cbn; [done|]. by rewrite Hy, IH. Qed.

(** An element that is no better than the last of a full list stays out. *)
Lemma insert_rejected l w x : in_order (l ++ [w]) -> leb w x = true ->
  take (length (l ++ [w])) (sort_insert leb x (l ++ [w])) = l ++ [w].
Proof.
  intros Hl Hw. assert (Hx : in_order ((l ++ [w]) ++ [x])).
  { apply StronglySorted_app_2; [|done|by repeat constructor]. intros y z Hy ->%list_elem_of_singleton.
    apply elem_of_app in Hy as [Hy| ->%list_elem_of_singleton]; [|done]. eapply leb_trans; [|exact Hw].
    apply (StronglySorted_app_1_elem_of (fun x y => leb x y = true) l [w]); [done|done|by left]. }
  rewrite (sorted_unique (sort_insert leb x (l ++ [w])) ((l ++ [w]) ++ [x])); [|by apply sort_insert_sorted|done|].
  - by rewrite take_app_length.
  - rewrite sort_insert_perm. apply Permutation_cons_append.
Qed.

(** A better one enters, and the last leaves. *)
Lemma insert_evicts l w x : leb x w = true ->
  take (length (l ++ [w])) (sort_insert leb x (l ++ [w])) = sort_insert leb x l.
Proof.
  intros Hx. induction l as [|y l IH]; cbn; [by rewrite Hx|]. destruct (leb x y) eqn:Ex; cbn.
  - f_equal. rewrite length_app, Nat.add_1_r. cbn. f_equal. apply take_app_length.
  - f_equal. exact IH.
Qed.
End sort_theory.

(** ** The order [ahead] *)
Lemma ahead_total a b : ahead a b = true \/ ahead b a = true.
Proof. unfold ahead. rewrite (rank_order_antisym a b). destruct (rank_order a b); cbn; auto. Qed.

Lemma ahead_antisym a b : ahead a b = true -> ahead b a = true -> a = b.
Proof.
  unfold ahead. rewrite (rank_order_antisym a b). destruct (rank_order a b) eqn:E; cbn; try done.
  intros _ _. by apply rank_order_eq.
Qed.

Lemma ahead_iff a b : ahead a b = true <-> a = b \/ rank_order b a = Datatypes.Lt.
Proof.
  unfold ahead. rewrite (rank_order_antisym a b). destruct (rank_order a b) eqn:E; cbn.
  - split; [left; by apply rank_order_eq|done].
  - split; [done|]. intros [->|]; [|done]. by rewrite (proj2 (rank_order_eq b b) eq_refl) in E.
  - split; [by right|done].
Qed.

Lemma ahead_trans a b c : ahead a b = true -> ahead b c = true -> ahead a c = true.
Proof.
  rewrite !ahead_iff. intros [->|H1] [->|H2]; [by left|by right|by right|right]. by eapply rank_order_lt_trans.
Qed.

Definition best_first : list ScoreDoc -> Prop := Sorted.StronglySorted (fun x y => ahead x y = true).

Lemma ahead_gt x y : is_gt (rank_order y x) = negb (ahead x y).
Proof. unfold ahead. rewrite (rank_order_antisym y x). by destruct (rank_order y x). Qed.

(** The vector's insertion point is the sort's. *)
Lemma insert_at_point x l :
  let pos := partition_point (fun y => is_gt (rank_order y x)) l in
  take pos l ++ x :: drop pos l = sort_insert ahead x l.
Proof.
  induction l as [|y l IH]; cbn; [done|]. rewrite ahead_gt. destruct (ahead x y); cbn; [done|]. f_equal. exact IH.
Qed.

(** ** The heap: the worst hit at the root *)
Definition below (a b : ScoreDoc) : Prop := ahead b a = true.

Lemma below_refl a : below a a.
Proof. apply ahead_iff. by left. Qed.
Lemma below_trans a b c : below a b -> below b c -> below a c.
Proof. intros H1 H2. by eapply ahead_trans. Qed.
Lemma binary_positive : (0 < 2)%nat.
Proof. lia. Qed.

Lemma worse_spec a b : if worse a b then below a b else below b a.
Proof.
  unfold worse, below, ahead. rewrite (rank_order_antisym a b). by destruct (rank_order a b).
Qed.

Lemma td_up_ok fuel : forall h i,
  (i < length h)%nat -> (i < fuel)%nat -> hole below 2 h i -> below_ok below 2 h i ->
  exists h', up_loop fuel h i = Some h' /\ heap below 2 h' /\ h' ≡ₚ h.
Proof.
  induction fuel as [|fuel IH]; intros h i Hi Hf Hh Hb; [lia|].
  assert (Hfill : above_ok below 2 h i -> exists h', Some h = Some h' /\ heap below 2 h' /\ h' ≡ₚ h).
  { intros Ha. exists h. split; [done|]. split; [|done]. by eapply hole_filled. }
  cbn [up_loop]. destruct (Nat.ltb_spec 0 i) as [H0|H0]; [|apply Hfill; intros ?; lia].
  pose proof (parent_lt 2 binary_positive i H0) as Hpl. change ((i - 1) / 2)%nat with (parent 2 i).
  destruct (lookup_lt h i Hi) as [x Hx]. destruct (lookup_lt h (parent 2 i)) as [p Hp]; [lia|].
  rewrite Hx, Hp. cbn [mbind option_bind]. pose proof (worse_spec x p) as Hw. destruct (worse x p).
  - destruct (sift_up below 2 below_trans binary_positive h i x p) as [Hh' Hb']; [done..|].
    destruct (IH (swap h i (parent 2 i)) (parent 2 i)) as (h' & H1 & H2 & H3); [rewrite length_swap; lia|lia|done|done|].
    exists h'. split; [done|]. split; [done|]. rewrite H3. apply swap_perm.
  - apply Hfill. intros _ a b. rewrite Hx, Hp. by intros [= <-] [= <-].
Qed.

(** The worse child of [i], on the left when they are equal. *)
Lemma worst_child h i y :
  h !! (2 * i + 1)%nat = Some y ->
  exists c z, (if Nat.ltb (S (2 * i + 1)) (length h)
       then x ← h !! S (2 * i + 1); y ← h !! (2 * i + 1)%nat;
            Some (if worse x y then S (2 * i + 1) else (2 * i + 1)%nat)
       else Some (2 * i + 1)%nat) = Some c /\
    h !! c = Some z /\ child 2 i c /\ forall c' z', child 2 i c' -> h !! c' = Some z' -> below z z'.
Proof.
  intros Hy. assert (Hch : forall c, child 2 i c <-> c = (2 * i + 1)%nat \/ c = S (2 * i + 1)).
  { intros c. rewrite (child_iff 2 binary_positive). lia. }
  destruct (Nat.ltb_spec (S (2 * i + 1)) (length h)) as [Hr|Hr].
  - destruct (lookup_lt h (S (2 * i + 1)) Hr) as [x Hx]. rewrite Hx, Hy. cbn [mbind option_bind].
    pose proof (worse_spec x y) as Hw. destruct (worse x y).
    + exists (S (2 * i + 1)), x. split; [done|]. split; [done|]. split; [apply Hch; by right|].
      intros c' z' [->| ->]%Hch Hz; [assert (z' = y) as -> by congruence; done|assert (z' = x) as -> by congruence; apply below_refl].
    + exists (2 * i + 1)%nat, y. split; [done|]. split; [done|]. split; [apply Hch; by left|].
      intros c' z' [->| ->]%Hch Hz; [assert (z' = y) as -> by congruence; apply below_refl|assert (z' = x) as -> by congruence; done].
  - exists (2 * i + 1)%nat, y. split; [done|]. split; [done|]. split; [apply Hch; by left|].
    intros c' z' [->| ->]%Hch Hz; [assert (z' = y) as -> by congruence; apply below_refl|]. apply lookup_lt_Some in Hz. lia.
Qed.

(** The loop leaves a hole at [i]; [<[i := v]> h] is the heap with it filled. *)
Lemma td_down_ok fuel v : forall h i,
  (i < length h)%nat -> (length h < fuel + i)%nat ->
  hole below 2 (<[i := v]> h) i -> above_ok below 2 (<[i := v]> h) i ->
  exists h', down_loop fuel h v i = Some h' /\ heap below 2 h' /\ h' ≡ₚ <[i := v]> h.
Proof.
  induction fuel as [|fuel IH]; intros h i Hi Hf Hh Ha; [lia|].
  assert (Hx : <[i := v]> h !! i = Some v) by (by rewrite list_lookup_insert_eq).
  assert (Hfill : below_ok below 2 (<[i := v]> h) i -> exists h',
    Some (<[i := v]> h) = Some h' /\ heap below 2 h' /\ h' ≡ₚ <[i := v]> h).
  { intros Hb. exists (<[i := v]> h). split; [done|]. split; [|done]. by eapply hole_filled. }
  cbn [down_loop]. destruct (Nat.leb_spec (length h) (2 * i + 1)) as [Hno|Hyes].
  { apply Hfill. intros c Hc a b _ Hb. apply (child_iff 2 binary_positive) in Hc. apply lookup_lt_Some in Hb.
    rewrite length_insert in Hb. lia. }
  destruct (lookup_lt h (2 * i + 1) Hyes) as [y Hy].
  destruct (worst_child h i y Hy) as (c & z & -> & Hz & Hch & Hmin). cbn [mbind option_bind]. rewrite Hz. cbn [mbind option_bind].
  pose proof (parent_lt 2 binary_positive c (proj1 Hch)) as Hlt. rewrite (proj2 Hch) in Hlt. pose proof (lookup_lt_Some _ _ _ Hz) as Hcl.
  assert (Hkids : forall c' z', child 2 i c' -> <[i := v]> h !! c' = Some z' -> below z z').
  { intros c' z' Hc' Hz'. pose proof (parent_lt 2 binary_positive c' (proj1 Hc')) as Hl'. rewrite (proj2 Hc') in Hl'.
    rewrite list_lookup_insert_ne in Hz' by lia. by eapply Hmin. }
  pose proof (worse_spec z v) as Hw. destruct (worse z v).
  - destruct (sift_down below 2 binary_positive (<[i := v]> h) i c v z) as [Hh' Ha'];
      [done|done|done|done|by rewrite list_lookup_insert_ne by lia|done|done|].
    rewrite <- (hole_is_swap h i c v z) in Hh', Ha' by (done || lia).
    destruct (IH (<[i := z]> h) c) as (h' & H1 & H2 & H3); [by rewrite length_insert|rewrite length_insert; lia|done|done|].
    exists h'. split; [done|]. split; [done|]. rewrite H3, (hole_is_swap h i c v z) by (done || lia). apply swap_perm.
  - apply Hfill. intros c' Hc' a b. rewrite Hx. intros [= <-] Hb. eapply below_trans; [exact Hw|by eapply Hkids].
Qed.

(** ** The invariant *)
(** The best [top_n] of [kept], in the order the collector keeps them. *)
Definition holds_best (c : t) (kept : list ScoreDoc) : Prop :=
  let best := take (top_n c) (sort_by ahead kept) in
  hits c ≡ₚ best /\
  (if heap_ordered c then heap below 2 (hits c) else hits c = best) /\
  match sorted c with Some v => heap_ordered c = true -> v = best | None => True end.

Lemma sorted_best l : best_first (sort_by ahead l).
Proof. apply sort_by_sorted; [apply ahead_total|apply ahead_trans]. Qed.

Lemma take_best_first n l : best_first l -> best_first (take n l).
Proof. intros H. rewrite <- (take_drop n l) in H. by apply StronglySorted_app_1_l in H. Qed.

Lemma holds_length c kept : holds_best c kept -> (length (hits c) <= top_n c)%nat.
Proof. intros [Hp _]. rewrite Hp, length_take. lia. Qed.

Lemma sort_length (l : list ScoreDoc) : length (sort_by ahead l) = length l.
Proof. by rewrite (sort_by_perm ahead l). Qed.

(** The worst hit of a full queue is the last of the best. *)
Lemma full_worst c kept :
  holds_best c kept -> (0 < top_n c)%nat -> length (hits c) = top_n c ->
  exists init w, take (top_n c) (sort_by ahead kept) = init ++ [w] /\ worst c = Some w /\
    (heap_ordered c = true -> exists rest, hits c = w :: rest /\ rest ≡ₚ init).
Proof.
  intros (Hp & Hh & _) Hn Hf. set (best := take _ _) in *.
  assert (Hlb : length best = top_n c) by (by rewrite <- Hp).
  destruct (exists_last (l := best)) as (init & w & He); [intros H; rewrite H in Hlb; cbn in Hlb; lia|].
  exists init, w. split; [done|]. unfold worst, worst_at, heap_ordered in *.
  destruct (Nat.ltb SORTED_MAX (top_n c)).
  - destruct (hits c) as [|r rest] eqn:Er; [cbn in Hf; lia|]. cbn [lookup list_lookup].
    assert (r = w) as ->.
    { assert (Hw : w ∈ r :: rest) by (rewrite Hp, He; set_solver).
      apply list_elem_of_lookup in Hw as [k Hk].
      pose proof (heap_root below 2 below_refl below_trans binary_positive _ r k w Hh eq_refl Hk) as Hrw.
      assert (Hr : r ∈ init ++ [w]) by (rewrite <- He, <- Hp; by left).
      apply elem_of_app in Hr as [Hr| ->%list_elem_of_singleton]; [|done].
      apply ahead_antisym; [|exact Hrw].
      assert (Hs : best_first (init ++ [w])) by (rewrite <- He; apply take_best_first, sorted_best).
      by apply (StronglySorted_app_1_elem_of (fun x y => ahead x y = true) init [w] r w Hs Hr); left. }
    split; [done|]. intros _. exists rest. split; [done|]. apply (Permutation_cons_inv (a := w)).
    rewrite Hp, He. symmetry. apply Permutation_cons_append.
  - rewrite Hh, He. split; [|done]. assert (Hl : top_n c = S (length init)) by (rewrite <- Hlb, He, length_app; cbn; lia).
    rewrite Hl, lookup_app_r by lia. by replace (S (length init) - 1 - length init)%nat with O by lia.
Qed.

Lemma best_short c kept : holds_best c kept -> (length (hits c) < top_n c)%nat ->
  take (top_n c) (sort_by ahead kept) = sort_by ahead kept.
Proof.
  intros (Hp & _) Hl. apply take_ge. assert (H : length (take (top_n c) (sort_by ahead kept)) = length (hits c)) by (by rewrite <- Hp).
  rewrite length_take in H. lia.
Qed.

Lemma best_insert c kept x init w :
  take (top_n c) (sort_by ahead kept) = init ++ [w] -> length (init ++ [w]) = top_n c -> ahead x w = true ->
  take (top_n c) (sort_by ahead (x :: kept)) = sort_insert ahead x init.
Proof.
  intros He Hl Hx. cbn [sort_by foldr]. change (foldr (sort_insert ahead) [] kept) with (sort_by ahead kept).
  rewrite take_sort_insert, He, <- Hl. by apply insert_evicts.
Qed.

Lemma holds_best_put c kept h v :
  h ≡ₚ take (top_n c) (sort_by ahead kept) ->
  (if heap_ordered c then heap below 2 h else h = take (top_n c) (sort_by ahead kept)) ->
  match v with Some v => heap_ordered c = true -> v = take (top_n c) (sort_by ahead kept) | None => True end ->
  holds_best (set_hits c h v) kept.
Proof. intros H1 H2 H3. exact (conj H1 (conj H2 H3)). Qed.

(** Entering: there is room, or the hit outranks the worst. *)
Definition competes (c : t) (x : ScoreDoc) : Prop :=
  (length (hits c) < top_n c)%nat \/
  length (hits c) = top_n c /\ (0 < top_n c)%nat /\ exists w, worst c = Some w /\ ahead x w = true.

Lemma insert_vec_ok c kept x :
  heap_ordered c = false -> holds_best c kept -> competes c x ->
  exists c', insert_hit c x = Some c' /\ holds_best c' (x :: kept) /\ c' = set_hits c (hits c') (sorted c').
Proof.
  intros Hv Hb Hc. unfold insert_hit. rewrite Hv. cbn [negb]. eexists. split; [done|]. split; [|done].
  rewrite insert_at_point. pose proof Hb as (Hp & Hh & _). rewrite Hv in Hh.
  assert (He : sort_insert ahead x (if Nat.eqb (length (hits c)) (top_n c) then removelast (hits c) else hits c)
               = take (top_n c) (sort_by ahead (x :: kept))).
  { destruct Hc as [Hc|(Hf & H0 & w & Hw & Hx)].
    - destruct (Nat.eqb_spec (length (hits c)) (top_n c)); [lia|].
      rewrite Hh, (best_short c kept Hb Hc). cbn [sort_by foldr]. change (foldr (sort_insert ahead) [] kept) with (sort_by ahead kept).
      symmetry. apply take_ge. rewrite sort_insert_perm. cbn.
      rewrite <- (best_short c kept Hb Hc), <- Hh. lia.
    - destruct (Nat.eqb_spec (length (hits c)) (top_n c)); [|done].
      destruct (full_worst c kept Hb H0 Hf) as (init & w' & He & Hw' & _). assert (w' = w) as -> by congruence.
      assert (Hl : length (init ++ [w]) = top_n c) by (by rewrite <- He, <- Hp).
      rewrite (best_insert c kept x init w He Hl Hx), Hh, He. by rewrite removelast_last. }
  rewrite He. apply holds_best_put; rewrite ?Hv; [done|done|]. by destruct (sorted c).
Qed.

(** The heap with one more hit, and with its root replaced. *)
Lemma heap_enter c x :
  heap_ordered c = true -> heap below 2 (hits c) -> (length (hits c) < top_n c)%nat ->
  exists h, insert_hit c x = Some (set_hits c h None) /\ heap below 2 h /\ h ≡ₚ x :: hits c.
Proof.
  intros Hv Hh Hl. unfold insert_hit. rewrite Hv. cbn [negb]. destruct (Nat.ltb_spec (length (hits c)) (top_n c)); [|lia].
  destruct (heap_snoc below 2 binary_positive (hits c) x Hh) as [H1 H2]. rewrite length_app. cbn [length].
  replace (length (hits c) + 1 - 1)%nat with (length (hits c)) by lia.
  destruct (td_up_ok (S (length (hits c) + 1)) (hits c ++ [x]) (length (hits c))) as (h & -> & H3 & H4);
    [rewrite length_app; cbn; lia|lia|done|done|]. exists h. split; [done|]. split; [done|].
  rewrite H4. symmetry. apply Permutation_cons_append.
Qed.

Lemma heap_replace c x r rest :
  heap_ordered c = true -> heap below 2 (hits c) -> length (hits c) = top_n c -> hits c = r :: rest ->
  exists h, insert_hit c x = Some (set_hits c h None) /\ heap below 2 h /\ h ≡ₚ x :: rest.
Proof.
  intros Hv Hh Hl Hr. unfold insert_hit. rewrite Hv. cbn [negb]. destruct (Nat.ltb_spec (length (hits c)) (top_n c)); [lia|].
  destruct (td_down_ok (S (length (hits c))) x (hits c) 0) as (h & -> & H3 & H4);
    [rewrite Hr; cbn; lia|lia|by apply (heap_root_hole below 2 binary_positive)|intros ?; lia|].
  exists h. split; [done|]. split; [done|]. by rewrite H4, Hr.
Qed.

Lemma insert_heap_ok c kept x :
  heap_ordered c = true -> holds_best c kept -> competes c x ->
  exists c', insert_hit c x = Some c' /\ holds_best c' (x :: kept) /\ c' = set_hits c (hits c') (sorted c').
Proof.
  intros Hv Hb Hc. pose proof Hb as (Hp & Hh & _). rewrite Hv in Hh.
  assert (Hput : forall h', heap below 2 h' -> h' ≡ₚ take (top_n c) (sort_by ahead (x :: kept)) ->
    holds_best (set_hits c h' None) (x :: kept)).
  { intros h' H1 H2. apply holds_best_put; [done|by rewrite Hv|done]. }
  destruct Hc as [Hc|(Hf & H0 & w & Hw & Hx)].
  - destruct (heap_enter c x Hv Hh Hc) as (h & -> & H1 & H2). eexists. split; [done|]. split; [|done].
    apply Hput; [done|]. cbn [sort_by foldr]. change (foldr (sort_insert ahead) [] kept) with (sort_by ahead kept).
    assert (Hs : x :: hits c ≡ₚ sort_insert ahead x (sort_by ahead kept)).
    { by rewrite sort_insert_perm, <- (best_short c kept Hb Hc), <- Hp. }
    rewrite take_ge; [by rewrite H2|]. rewrite <- Hs. cbn. lia.
  - destruct (full_worst c kept Hb H0 Hf) as (init & w' & He & Hw' & Hr). assert (w' = w) as -> by congruence.
    destruct (Hr Hv) as (rest & Hrest & Hperm). destruct (heap_replace c x w rest Hv Hh Hf Hrest) as (h & -> & H1 & H2).
    assert (Hl : length (init ++ [w]) = top_n c) by (by rewrite <- He, <- Hp).
    eexists. split; [done|]. split; [|done]. apply Hput; [done|].
    by rewrite H2, (best_insert c kept x init w He Hl Hx), sort_insert_perm, Hperm.
Qed.

Lemma insert_hit_ok c kept x :
  holds_best c kept -> competes c x ->
  exists c', insert_hit c x = Some c' /\ holds_best c' (x :: kept) /\ c' = set_hits c (hits c') (sorted c').
Proof. destruct (heap_ordered c) eqn:Hv; [by apply insert_heap_ok|by apply insert_vec_ok]. Qed.

(** A hit that loses to the worst changes nothing. *)
Lemma rejected_best c kept x w :
  holds_best c kept -> (0 < top_n c)%nat -> length (hits c) = top_n c -> worst c = Some w -> ahead w x = true ->
  holds_best c (x :: kept).
Proof.
  intros Hb H0 Hf Hw Hx. destruct (full_worst c kept Hb H0 Hf) as (init & w' & He & Hw' & _). assert (w' = w) as -> by congruence.
  destruct Hb as (Hp & Hh & Hs). assert (Hl : length (init ++ [w]) = top_n c) by (by rewrite <- He, <- Hp).
  assert (Heq : take (top_n c) (sort_by ahead (x :: kept)) = take (top_n c) (sort_by ahead kept)).
  { cbn [sort_by foldr]. change (foldr (sort_insert ahead) [] kept) with (sort_by ahead kept).
    rewrite take_sort_insert, He, <- Hl. apply insert_rejected; [apply ahead_total|apply ahead_trans|apply ahead_antisym| |done].
    rewrite <- He. apply take_best_first, sorted_best. }
  unfold holds_best. rewrite Heq. by split.
Qed.

(** ** Nothing panics *)
(** What every operation keeps, whatever the scores. *)
Definition td_valid (c : t) : Prop :=
  (length (hits c) <= top_n c)%nat /\ (heap_ordered c = true -> heap below 2 (hits c)).

Lemma holds_valid c kept : holds_best c kept -> td_valid c.
Proof.
  intros Hb. split; [by eapply holds_length|]. destruct Hb as (_ & Hh & _). intros Hv. by rewrite Hv in Hh.
Qed.

Lemma worst_some c : (0 < top_n c)%nat -> length (hits c) = top_n c -> exists w, worst c = Some w.
Proof. intros H0 Hl. apply lookup_lt. unfold worst_at. destruct (Nat.ltb SORTED_MAX (top_n c)); lia. Qed.

Lemma insert_total c x : td_valid c -> (0 < top_n c)%nat ->
  exists c', insert_hit c x = Some c' /\ td_valid c' /\ c' = set_hits c (hits c') (sorted c').
Proof.
  intros [Hl Hh] H0. destruct (heap_ordered c) eqn:Hv.
  - specialize (Hh eq_refl).
    assert (Hput : forall h, heap below 2 h -> (length h <= top_n c)%nat -> td_valid (set_hits c h None)) by (by intros h H1 H2; split).
    destruct (decide (length (hits c) < top_n c)%nat) as [Hlt|Hge].
    + destruct (heap_enter c x Hv Hh Hlt) as (h & -> & H1 & H2). eexists. split; [done|]. split; [|done].
      apply Hput; [done|]. rewrite H2. cbn. lia.
    + destruct (hits c) as [|r rest] eqn:Er; [cbn in Hge; lia|]. rewrite <- Er in Hh, Hl, Hge.
      destruct (heap_replace c x r rest Hv Hh ltac:(lia) Er) as (h & -> & H1 & H2). eexists. split; [done|]. split; [|done].
      apply Hput; [done|]. rewrite H2. rewrite Er in Hl. done.
  - unfold insert_hit. rewrite Hv. cbn [negb]. eexists. split; [done|]. split; [|done]. split.
    + cbn. rewrite insert_at_point, sort_insert_perm. cbn. destruct (Nat.eqb_spec (length (hits c)) (top_n c)).
      * destruct (hits c) as [|r rest] eqn:Er using rev_ind; [cbn; lia|]. rewrite removelast_last. rewrite length_app in *. cbn in *. lia.
      * lia.
    + intros H. change (heap_ordered c = true) in H. congruence.
Qed.

(** Noting a threshold moves the shared bar, the relation and the bar only. *)
Definition same_hits (c c' : t) : Prop :=
  top_n c' = top_n c /\ hits c' = hits c /\ sorted c' = sorted c /\ total_hits c' = total_hits c /\
  total_hits_threshold c' = total_hits_threshold c /\ after c' = after c.

Lemma same_hits_best c c' kept : same_hits c c' -> holds_best c kept -> holds_best c' kept.
Proof. unfold holds_best, heap_ordered. by intros (-> & -> & -> & _). Qed.

Lemma same_hits_valid c c' : same_hits c c' -> td_valid c -> td_valid c'.
Proof. unfold td_valid, heap_ordered. by intros (-> & -> & _). Qed.

Lemma note_shared_same c : same_hits c (note_shared_threshold c).
Proof. unfold note_shared_threshold. destruct (total_hits_relation c); [|done]. by destruct (_ ≫= _). Qed.

Lemma local_min_total c : td_valid c -> exists m, local_min_competitive_score c = Some m.
Proof.
  intros [Hl _]. unfold local_min_competitive_score. destruct (Nat.eqb_spec (top_n c) 0); [by eexists|].
  destruct (Nat.ltb_spec (length (hits c)) (top_n c)); [by eexists|]. destruct (_ <=? _); [by eexists|]. cbn [orb].
  destruct (worst_some c) as [w ->]; [lia|lia|]. by eexists.
Qed.

Lemma note_ok c : td_valid c -> exists c', note_threshold_published c = Some c' /\ same_hits c c'.
Proof.
  intros Hv. unfold note_threshold_published. destruct (local_min_total c Hv) as [m Hm]. pose proof Hm as Hm'.
  unfold local_min_competitive_score in Hm'. rewrite Hm. cbn [mbind option_bind].
  destruct m as [m|]; [|eexists; split; [done|apply note_shared_same]].
  destruct (SFltb (published_min c) m); [|eexists; split; [done|apply note_shared_same]].
  destruct (min_score_acc c); [|by eexists].
  destruct (Nat.eqb (top_n c) 0 || _ || _); [done|]. destruct (worst c) as [w|]; [|done]. by eexists.
Qed.

(** ** One hit *)
Definition minus_infinity : f32 := S754_infinity true.
(** What the collector keeps for its queue: not [-inf], not on the page before. *)
Definition wanted (a : option ScoreDoc) (d : Z) (s : f32) : bool :=
  negb (SFeqb s minus_infinity) && match a with Some a => negb (on_page d s a) | None => true end.
Definition rankable (h : ScoreDoc) : Prop := plain (sd_score h) = true /\ SFeqb (sd_score h) minus_infinity = false.

(** What no collecting changes. *)
Definition same_setup (c c' : t) : Prop :=
  top_n c' = top_n c /\ total_hits_threshold c' = total_hits_threshold c /\ after c' = after c.

Lemma loses_ahead d s w : plain s = true -> plain (sd_score w) = true -> loses d s w = ahead w (mk_ScoreDoc d s).
Proof.
  intros Hs Hw. unfold loses, ahead, rank_order. cbn. rewrite plain_lt, plain_eq, (total_cmp_antisym s) by done.
  destruct (total_cmp s (sd_score w)) eqn:E; cbn; [|done|done]. rewrite Z.compare_antisym.
  destruct (Z.compare_spec (sd_doc w) d); cbn; lia.
Qed.

Lemma lowest_loses d s w : SFeqb s minus_infinity = true -> rankable w -> loses d s w = true.
Proof.
  intros Hs [Hp Hi]. destruct s as [[]|[]| |[] m e]; try done.
  unfold loses. destruct (sd_score w) as [[]|[]| |[] m e]; done.
Qed.

Lemma not_page_rank d s a : plain s = true -> plain (sd_score a) = true ->
  negb (on_page d s a) = is_lt (rank_order (mk_ScoreDoc d s) a).
Proof.
  intros Hs Ha. unfold on_page, rank_order. cbn. rewrite plain_lt, plain_eq, (total_cmp_antisym s) by done.
  destruct (total_cmp s (sd_score a)); cbn; [|done|done]. destruct (Z.compare_spec (sd_doc a) d); cbn; lia.
Qed.

Lemma best_empty c kept kept' : top_n c = O -> holds_best c kept -> holds_best c kept'.
Proof. unfold holds_best. intros ->. done. Qed.

Lemma worst_rankable c kept w :
  holds_best c kept -> (0 < top_n c)%nat -> length (hits c) = top_n c -> worst c = Some w -> Forall rankable kept -> rankable w.
Proof.
  intros Hb H0 Hf Hw Hk. destruct (full_worst c kept Hb H0 Hf) as (init & w' & He & Hw' & _). assert (w' = w) as -> by congruence.
  assert (Hall : Forall rankable (init ++ [w])) by (rewrite <- He; apply Forall_take; by rewrite sort_by_perm).
  apply Forall_app in Hall as [_ Hall]. by rewrite Forall_singleton in Hall.
Qed.

Lemma noted c c1 kept : holds_best c1 kept -> same_hits c c1 ->
  exists c', note_threshold_published c1 = Some c' /\ holds_best c' kept /\ same_setup c c' /\ total_hits c' = total_hits c.
Proof.
  intros Hb (S1 & S2 & S3 & S4 & S5 & S6). destruct (note_ok c1 (holds_valid c1 kept Hb)) as (c' & -> & Hs).
  exists c'. split; [done|]. split; [by eapply same_hits_best|]. destruct Hs as (T1 & T2 & T3 & T4 & T5 & T6).
  split; [split_and!; congruence|congruence].
Qed.

Lemma collect_counted_best c kept d s :
  holds_best c kept -> Forall rankable kept -> plain s = true ->
  exists c', collect_counted c d s = Some c' /\
    holds_best c' (if wanted (after c) d s then mk_ScoreDoc d s :: kept else kept) /\
    same_setup c c' /\ total_hits c' = total_hits c.
Proof.
  intros Hb Hk Hp. unfold collect_counted. change (S754_infinity true) with minus_infinity. set (x := mk_ScoreDoc d (canonical_score s)).
  assert (Hw : wanted (after c) d s = negb (SFeqb s minus_infinity) &&
    negb (match after c with Some a => on_page d s a | None => false end)) by (unfold wanted; by destruct (after c)).
  assert (Hins : competes c x -> exists c', (c1 ← insert_hit c x; note_threshold_published c1) = Some c' /\
    holds_best c' (x :: kept) /\ same_setup c c' /\ total_hits c' = total_hits c).
  { intros Hc. destruct (insert_hit_ok c kept x Hb Hc) as (c1 & -> & Hb1 & He). cbn [mbind option_bind].
    destruct (note_ok c1 (holds_valid c1 _ Hb1)) as (c' & -> & Hs). exists c'. split; [done|]. split; [by eapply same_hits_best|].
    destruct Hs as (T1 & T2 & T3 & T4 & T5 & T6). rewrite He in T1, T4, T5, T6. by split. }
  rewrite Hw. destruct (match after c with Some a => on_page d s a | None => false end).
  { rewrite andb_false_r. by apply noted. }
  rewrite andb_true_r. destruct (Nat.eqb_spec (top_n c) 0) as [H0|H0].
  { apply noted; [|done]. by eapply best_empty. }
  destruct (Nat.eqb_spec (length (hits c)) (top_n c)) as [Hf|Hf].
  - destruct (worst_some c ltac:(lia) Hf) as [w Hwst]. rewrite Hwst. cbn [mbind option_bind].
    pose proof (worst_rankable c kept w Hb ltac:(lia) Hf Hwst Hk) as Hr. destruct (SFeqb s minus_infinity) eqn:Ei; cbn [negb].
    + rewrite (lowest_loses d s w Ei Hr). by apply noted.
    + destruct (loses d s w) eqn:El.
      * apply noted; [|done]. rewrite (loses_ahead d s w Hp (proj1 Hr)) in El. by apply (rejected_best c kept x w); [|lia|..].
      * apply Hins. right. split; [done|]. split; [lia|]. exists w. split; [done|]. rewrite (loses_ahead d s w Hp (proj1 Hr)) in El.
        destruct (ahead_total x w); [done|]. unfold x, canonical_score in *. congruence.
  - destruct (SFeqb s minus_infinity) eqn:Ei; cbn [negb]; [by apply noted|]. apply Hins. left.
    pose proof (holds_length c kept Hb). lia.
Qed.

Lemma collect_best c kept d s :
  holds_best c kept -> Forall rankable kept -> plain s = true ->
  exists c', td_collect c d s = Some c' /\
    holds_best c' (if wanted (after c) d s then mk_ScoreDoc d s :: kept else kept) /\
    same_setup c c' /\ total_hits c' = total_hits c + 1.
Proof.
  intros Hb Hk Hp. set (c1 := set_total c (total_hits c + 1)). assert (Hb1 : holds_best c1 kept) by exact Hb.
  pose proof (collect_counted_best c1 kept d s Hb1 Hk Hp) as Hrest. change (after c1) with (after c) in Hrest.
  unfold td_collect. fold c1. change (after c1) with (after c). destruct (after c) as [a|] eqn:Ea; [exact Hrest|].
  destruct (negb (Nat.eqb (top_n c1) 0) && Nat.eqb (length (hits c1)) (top_n c1)) eqn:Ef; [|exact Hrest].
  apply andb_prop in Ef as [H0%negb_true_iff Hf%Nat.eqb_eq]. apply Nat.eqb_neq in H0.
  destruct (worst_some c1 ltac:(lia) Hf) as [w Hwst]. rewrite Hwst. cbn [mbind option_bind].
  destruct (loses d s w) eqn:El; [|exact Hrest].
  pose proof (worst_rankable c1 kept w Hb1 ltac:(lia) Hf Hwst Hk) as Hr. rewrite (loses_ahead d s w Hp (proj1 Hr)) in El.
  assert (Hb2 : holds_best c1 (if wanted None d s then mk_ScoreDoc d s :: kept else kept)).
  { destruct (wanted None d s); [|done]. by apply (rejected_best c1 kept _ w); [|lia|..]. }
  assert (Hstay : exists c', Some c1 = Some c' /\ holds_best c' (if wanted None d s then mk_ScoreDoc d s :: kept else kept) /\
    same_setup c c' /\ total_hits c' = total_hits c + 1) by (by exists c1).
  destruct (total_hits_relation c1); [|exact Hstay]. destruct (_ || _); [|exact Hstay]. by apply (noted c1 c1).
Qed.

(** ** A stream of hits *)
Definition as_hit (p : Z * f32) : ScoreDoc := mk_ScoreDoc p.1 p.2.
Definition candidates (a : option ScoreDoc) (l : list (Z * f32)) : list ScoreDoc :=
  map as_hit (List.filter (fun p => wanted a p.1 p.2) l).

Lemma each_best l : forall c kept,
  holds_best c kept -> Forall rankable kept -> Forall (fun p => plain p.2 = true) l ->
  exists c', each td_collect c l = Some c' /\ holds_best c' (rev (candidates (after c) l) ++ kept) /\
    same_setup c c' /\ total_hits c' = total_hits c + zlen l.
Proof.
  induction l as [|[d s] l IH]; intros c kept Hb Hk Hl; [exists c; split; [done|]; split; [done|]; split; [done|rewrite zlen_nil; lia]|].
  inversion Hl as [|? ? Hp Hl']; subst. cbn [fst snd] in Hp. cbn [each].
  destruct (collect_best c kept d s Hb Hk Hp) as (c1 & -> & Hb1 & (S1 & S2 & S3) & Ht). cbn [mbind option_bind].
  destruct (IH c1 (if wanted (after c) d s then mk_ScoreDoc d s :: kept else kept)) as (c' & Hc' & Hb' & (T1 & T2 & T3) & Ht').
  - exact Hb1.
  - destruct (wanted (after c) d s) eqn:Ew; [|done]. constructor; [|done]. split; [done|].
    unfold wanted in Ew. cbn. by destruct (SFeqb s minus_infinity).
  - done.
  - exists c'. split; [done|]. split; [|split; [split_and!; congruence|rewrite zlen_cons; lia]].
    rewrite S3 in Hb'. unfold candidates in *. cbn [List.filter fst snd map]. destruct (wanted (after c) d s); [|done].
    cbn [map rev]. by rewrite <- app_assoc.
Qed.

(** *** Below the count threshold, with no shared bar *)
Definition quiet (c : t) : Prop := min_score_acc c = None /\ total_hits c <= total_hits_threshold c.

Lemma note_quiet c : quiet c -> note_threshold_published c = Some c.
Proof.
  intros [Ha Ht]. unfold note_threshold_published, local_min_competitive_score.
  rewrite (proj2 (Z.leb_le _ _) Ht), orb_true_r. cbn [mbind option_bind]. unfold note_shared_threshold. rewrite Ha. cbn.
  by destruct (total_hits_relation c).
Qed.

Lemma insert_frame c x c' : insert_hit c x = Some c' -> c' = set_hits c (hits c') (sorted c').
Proof.
  unfold insert_hit. destruct (negb (heap_ordered c)); [by intros [= <-]|].
  destruct (Nat.ltb (length (hits c)) (top_n c)); [destruct (up_loop _ _ _)|destruct (down_loop _ _ _ _)]; cbn; intros [= <-]; done.
Qed.

Lemma counted_quiet c d s c' :
  quiet c -> collect_counted c d s = Some c' -> c' = set_hits c (hits c') (sorted c').
Proof.
  intros Hq. unfold collect_counted. set (x := mk_ScoreDoc d (canonical_score s)). rewrite !(note_quiet c Hq).
  assert (Hself : Some c = Some c' -> c' = set_hits c (hits c') (sorted c')) by (intros [= <-]; by destruct c).
  assert (Hins : (c1 ← insert_hit c x; note_threshold_published c1) = Some c' -> c' = set_hits c (hits c') (sorted c')).
  { destruct (insert_hit c x) as [c1|] eqn:Ei; cbn [mbind option_bind]; [|done]. apply insert_frame in Ei.
    rewrite note_quiet by (rewrite Ei; exact Hq). by intros [= <-]. }
  destruct (match after c with Some a => _ | None => _ end); [done|]. destruct (Nat.eqb (top_n c) 0); [done|].
  destruct (Nat.eqb (length (hits c)) (top_n c)).
  - destruct (worst c) as [w|]; cbn [mbind option_bind]; [|done]. by destruct (loses d s w).
  - by destruct (SFeqb s (S754_infinity true)).
Qed.

(** There the fast path is what [collect_counted] does. *)
Lemma collect_quiet c d s :
  quiet (set_total c (total_hits c + 1)) -> td_collect c d s = collect_counted (set_total c (total_hits c + 1)) d s.
Proof.
  intros Hq. unfold td_collect. set (c1 := set_total c (total_hits c + 1)) in *. change (after c1) with (after c).
  destruct (after c) as [a|] eqn:Ea; [done|].
  destruct (negb (Nat.eqb (top_n c1) 0) && Nat.eqb (length (hits c1)) (top_n c1)) eqn:Ef; [|done].
  apply andb_prop in Ef as [H0%negb_true_iff Hf]. destruct (worst c1) as [w|] eqn:Ew; cbn [mbind option_bind].
  - destruct (loses d s w) eqn:El; [|done]. unfold collect_counted. change (after c1) with (after c).
    rewrite Ea, H0, Hf, Ew. cbn [mbind option_bind]. rewrite El, (note_quiet c1 Hq). destruct Hq as [Ha Ht]. rewrite Ha.
    rewrite (proj2 (Z.ltb_ge _ _) Ht). cbn [orb]. by destruct (total_hits_relation c1).
  - unfold collect_counted. change (after c1) with (after c). by rewrite Ea, H0, Hf, Ew.
Qed.

Lemma collect_stays_quiet c d s c' :
  quiet (set_total c (total_hits c + 1)) -> td_collect c d s = Some c' ->
  c' = set_hits (set_total c (total_hits c + 1)) (hits c') (sorted c').
Proof. intros Hq. rewrite (collect_quiet c d s Hq). by apply counted_quiet. Qed.

Lemma each_quiet l : forall c c',
  min_score_acc c = None -> total_hits c + zlen l <= total_hits_threshold c -> each td_collect c l = Some c' ->
  total_hits_relation c' = total_hits_relation c.
Proof.
  induction l as [|[d s] l IH]; intros c c' Ha Ht; cbn [each]; [by intros [= ->]|]. rewrite zlen_cons in Ht.
  pose proof (zlen_nonneg l). destruct (td_collect c d s) as [c1|] eqn:Ec; cbn [mbind option_bind]; [|done].
  apply collect_stays_quiet in Ec; [|split; [done|cbn; lia]]. intros H'.
  apply IH in H'; [|by rewrite Ec|rewrite Ec; cbn; lia]. by rewrite H', Ec.
Qed.

Lemma top_docs_ok (n : nat) (threshold : Z) (a : option ScoreDoc) (shared : option (Z * Z)) (l : list (Z * f32))
    (Hl : Forall (fun p => plain p.2 = true) l)
    (Ha : match a with Some a => plain (sd_score a) = true | None => True end) :
  let c := with_total_hits_threshold n threshold in
  let c := match a with Some a => with_after c a | None => c end in
  let c := match shared with Some (acc, base) => with_shared_max_score c acc base | None => c end in
  exists c', collect_each c l = Some c' /\
    (top_docs c').1 = take n (sort_by ahead (map as_hit (List.filter
       (fun p => negb (SFeqb p.2 minus_infinity) && match a with Some a => is_lt (rank_order (as_hit p) a) | None => true end) l))) /\
    total_hits c' = zlen l /\
    (shared = None -> zlen l <= Z.max threshold (Z.of_nat n) -> total_hits_relation c' = EqualTo).
Proof.
  intros c0 c1 c. assert (Hb : holds_best c []).
  { unfold holds_best. assert (Hh : hits c = [] /\ sorted c = None) by (unfold c, c1, c0; by destruct a, shared as [[]|]).
    destruct Hh as [-> ->]. cbn [sort_by foldr]. rewrite take_nil. split; [done|]. split; [|done].
    destruct (heap_ordered c); [|done]. intros k Hk x y Hx. done. }
  assert (Hc : after c = a /\ top_n c = n /\ total_hits c = 0 /\ total_hits_threshold c = Z.max threshold (Z.of_nat n) /\
    total_hits_relation c = EqualTo /\ (shared = None -> min_score_acc c = None)).
  { unfold c, c1, c0. by destruct a, shared as [[]|]. }
  destruct Hc as (Hca & Hcn & Hct & Hcth & Hcr & Hcs).
  destruct (each_best l c [] Hb) as (c' & He & Hb' & (S1 & S2 & S3) & Ht); [constructor|done|].
  exists c'. split; [exact He|]. split; [|split; [lia|]].
  - rewrite app_nil_r, Hca in Hb'. destruct Hb' as (Hp & Hh & Hs). rewrite S1, Hcn in *.
    assert (Hcand : candidates a l = map as_hit (List.filter
       (fun p => negb (SFeqb p.2 minus_infinity) && match a with Some a => is_lt (rank_order (as_hit p) a) | None => true end) l)).
    { unfold candidates. f_equal. apply filter_ext_in. intros [d s] Hin. rewrite Forall_forall in Hl. specialize (Hl _ Hin).
      unfold wanted, as_hit. cbn [fst snd]. f_equal. destruct a as [a|]; [|done]. by apply not_page_rank. }
    rewrite <- Hcand. assert (Hbest : sort_by ahead (candidates a l) = sort_by ahead (rev (candidates a l))).
    { apply sort_by_perm_eq; [apply ahead_total|apply ahead_trans|apply ahead_antisym|]. apply Permutation_rev. }
    rewrite Hbest. unfold top_docs. destruct (heap_ordered c') eqn:Ev; cbn [negb]; [|exact Hh].
    destruct (sorted c') as [v|]; [by apply Hs|]. cbn [fst].
    rewrite (sort_by_perm_eq ahead ahead_total ahead_trans ahead_antisym _ _ Hp).
    apply sort_by_id; [apply ahead_total|apply ahead_trans|apply ahead_antisym|]. apply take_best_first, sorted_best.
  - intros Hsh Hle. rewrite <- Hcr. eapply each_quiet; [by apply Hcs| |exact He]. lia.
Qed.

(** C7: whatever hits with plain scores (no NaN, no [-0.0]) a search feeds the
    collector, in whatever order, it never panics and answers the best [top_n] of those that rank below
    [after] (never a [-inf] score), best first: higher score first, lower
    document on a tie.  It counts every hit, and the count stays exact
    ([EqualTo]) up to the threshold when no bar is shared. *)
Theorem top_docs_are_the_best (n : nat) (threshold : Z) (a : option ScoreDoc) (shared : option (Z * Z)) (l : list (Z * f32))
    (Hl : Forall (fun p => plain p.2 = true) l)
    (Ha : match a with Some a => plain (sd_score a) = true | None => True end) :
  let c := with_total_hits_threshold n threshold in
  let c := match a with Some a => with_after c a | None => c end in
  let c := match shared with Some (acc, base) => with_shared_max_score c acc base | None => c end in
  exists c', collect_each c l = Some c' /\
    (top_docs c').1 = take n (sort_by ahead (map as_hit (List.filter
       (fun p => negb (SFeqb p.2 minus_infinity) && match a with Some a => is_lt (rank_order (as_hit p) a) | None => true end) l))) /\
    total_hits c' = zlen l /\
    (shared = None -> zlen l <= Z.max threshold (Z.of_nat n) -> total_hits_relation c' = EqualTo).
Proof. exact (top_docs_ok n threshold a shared l Hl Ha). Qed.

Lemma top_docs_are_the_best_witness :
  let one := f32_of_Z 1 in let two := f32_of_Z 2 in
  let l := [(3, one); (4, two); (9, two); (11, one); (12, minus_infinity)] in
  exists c', collect_each (with_after (with_total_hits_threshold 2 10) (mk_ScoreDoc 4 two)) l = Some c' /\
    (top_docs c').1 = [mk_ScoreDoc 9 two; mk_ScoreDoc 3 one] /\ total_hits c' = 5 /\ total_hits_relation c' = EqualTo.
Proof.
  intros one two l.
  destruct (top_docs_are_the_best 2 10 (Some (mk_ScoreDoc 4 two)) None l) as (c' & H1 & H2 & H3 & H4);
    [repeat constructor|done|].
  exists c'. split; [exact H1|]. split; [rewrite H2; by vm_compute|]. split; [exact H3|]. apply H4; [done|by vm_compute].
Defined.

(** ** [collect_many] *)
Lemma not_above_loses d s w : SFleb s (sd_score w) = true -> sd_doc w <= d -> loses d s w = true.
Proof.
  unfold SFleb, loses, SFltb, SFeqb. intros Hs Hd. destruct (SFcompare s (sd_score w)) as [[]|]; try done.
  by rewrite (proj2 (Z.leb_le _ _) Hd).
Qed.

(** What [collect_many] holds back: the hits that lose, as a count. *)
Definition owing (c : t) (counted : Z) : t := set_total c (total_hits c + counted).

Definition reject_ready (c : t) (w : ScoreDoc) : Prop :=
  after c = None /\ top_n c <> O /\ length (hits c) = top_n c /\ worst c = Some w.

Lemma losing_hit c counted w d s :
  reject_ready c w -> min_score_acc c = None -> total_hits c + counted + 1 <= total_hits_threshold c ->
  loses d s w = true -> td_collect (owing c counted) d s = Some (owing c (counted + 1)).
Proof.
  intros (Ha & H0 & Hf & Hw) Hm Ht Hl. unfold td_collect, owing.
  set (c1 := set_total (set_total c (total_hits c + counted)) _).
  assert (He : c1 = set_total c (total_hits c + (counted + 1))) by (unfold c1; cbn; f_equal; lia).
  rewrite He. clear c1 He. cbn [after set_total top_n hits total_hits total_hits_relation total_hits_threshold min_score_acc].
  rewrite Ha, (proj2 (Nat.eqb_neq _ _) H0), (proj2 (Nat.eqb_eq _ _) Hf). cbn [negb andb].
  change (worst (set_total c (total_hits c + (counted + 1)))) with (worst c). rewrite Hw. cbn [mbind option_bind]. rewrite Hl, Hm.
  rewrite (proj2 (Z.ltb_ge _ _)) by lia. cbn [orb]. by destruct (total_hits_relation c).
Qed.

Lemma losing_run c w l : forall counted,
  reject_ready c w -> min_score_acc c = None -> total_hits c + counted + zlen l <= total_hits_threshold c ->
  Forall (fun p => loses p.1 p.2 w = true) l -> each td_collect (owing c counted) l = Some (owing c (counted + zlen l)).
Proof.
  induction l as [|[d s] l IH]; intros counted Hr Hm Ht Hl; cbn [each]; [by rewrite zlen_nil, Z.add_0_r|].
  rewrite zlen_cons in Ht. pose proof (zlen_nonneg l). inversion Hl; subst. rewrite (losing_hit c counted w d s) by (done || lia). cbn [mbind option_bind].
  rewrite IH by (done || lia). rewrite zlen_cons. do 2 f_equal. lia.
Qed.

Lemma each_app {C} (f : C -> Z -> f32 -> option C) l k : forall c, each f c (l ++ k) = c' ← each f c l; each f c' k.
Proof.
  induction l as [|[d s] l IH]; intros c; cbn; [done|]. destruct (f c d s); cbn; [apply IH|done].
Qed.

(** What the worst hit the loop keeps is. *)
Definition tracks (c : t) (fast : bool) (w : option ScoreDoc) : Prop :=
  w = if fast && Nat.eqb (length (hits c)) (top_n c) then worst c else None.
Definition fast_of (c : t) : bool := match after c with None => negb (Nat.eqb (top_n c) 0) | Some _ => false end.

Lemma tracks_ready c w : tracks c (fast_of c) (Some w) -> reject_ready c w.
Proof.
  unfold tracks, fast_of, reject_ready. destruct (after c); [done|]. destruct (Nat.eqb_spec (top_n c) 0); [done|]. cbn [negb andb].
  by destruct (Nat.eqb_spec (length (hits c)) (top_n c)).
Qed.

Definition pairs (base : Z) (docs : list Z) (scores : list f32) : list (Z * f32) := zip (map (Z.add base) docs) scores.

Lemma pairs_drop base docs scores i d s :
  docs !! i = Some d -> scores !! i = Some s ->
  pairs base (drop i docs) (drop i scores) = (base + d, s) :: pairs base (drop (S i) docs) (drop (S i) scores).
Proof. intros Hd Hs. unfold pairs. by rewrite (drop_S docs d i Hd), (drop_S scores s i Hs). Qed.

Lemma pairs_split base docs scores i j :
  (i <= j)%nat -> length docs = length scores ->
  pairs base (drop i docs) (drop i scores) =
  pairs base (take (j - i) (drop i docs)) (take (j - i) (drop i scores)) ++ pairs base (drop j docs) (drop j scores).
Proof.
  intros Hij Hl. unfold pairs. rewrite <- (zip_with_app pair).
  - rewrite <- map_app. f_equal; [f_equal|].
    + replace (drop j docs) with (drop (j - i) (drop i docs)) by (rewrite drop_drop; f_equal; lia). by rewrite take_drop.
    + replace (drop j scores) with (drop (j - i) (drop i scores)) by (rewrite drop_drop; f_equal; lia). by rewrite take_drop.
  - rewrite length_map, !length_take, !length_drop. lia.
Qed.

(** A run that [run_competes] rejects loses hit by hit. *)
Lemma run_loses base docs scores w n d :
  Sorted.StronglySorted Z.lt docs -> docs !! O = Some d -> sd_doc w < base + d ->
  run_competes (take n scores) (sd_score w) = false ->
  Forall (fun p => loses p.1 p.2 w = true) (pairs base (take n docs) (take n scores)).
Proof.
  intros Hs H0 Hd Hr. apply Forall_lookup_2. intros k [d' s'] Hk.
  unfold pairs in Hk. apply lookup_zip_with_Some in Hk as (x & y & [= -> ->] & Hx & Hy).
  rewrite list_lookup_fmap in Hx. destruct (take n docs !! k) as [dk|] eqn:Ek; [|done]. injection Hx as <-. cbn [fst snd].
  apply not_above_loses.
  - destruct (SFleb y (sd_score w)) eqn:El; [done|]. unfold run_competes in Hr.
    assert (He : existsb (fun s => negb (SFleb s (sd_score w))) (take n scores) = true); [|congruence].
    apply existsb_exists. exists y. split; [by eapply list_elem_of_In, list_elem_of_lookup_2|by rewrite El].
  - apply lookup_take_Some in Ek as [Ek _]. destruct k as [|k]; [assert (dk = d) as -> by congruence; lia|].
    pose proof (sorted_lookup docs 0 (S k) d dk Hs ltac:(lia) H0 Ek). lia.
Qed.

Lemma counted_facts c d s c1 :
  quiet c -> collect_counted c d s = Some c1 ->
  after c1 = after c /\ top_n c1 = top_n c /\ min_score_acc c1 = None /\ total_hits c1 = total_hits c /\
  total_hits_threshold c1 = total_hits_threshold c.
Proof. intros Hq He. pose proof (proj1 Hq). apply counted_quiet in He; [|done]. by rewrite He. Qed.

Lemma collect_total c d s : td_valid c -> exists c', collect_counted c d s = Some c' /\ td_valid c'.
Proof.
  intros Hv. unfold collect_counted. set (x := mk_ScoreDoc d (canonical_score s)).
  assert (Hn : exists c', note_threshold_published c = Some c' /\ td_valid c').
  { destruct (note_ok c Hv) as (c' & Hc & Hs). exists c'. split; [done|]. by eapply same_hits_valid. }
  assert (Hins : (0 < top_n c)%nat -> exists c', (c1 ← insert_hit c x; note_threshold_published c1) = Some c' /\ td_valid c').
  { intros H0. destruct (insert_total c x Hv H0) as (c1 & -> & Hv1 & _). cbn [mbind option_bind].
    destruct (note_ok c1 Hv1) as (c' & Hc & Hs). exists c'. split; [done|]. by eapply same_hits_valid. }
  destruct (match after c with Some a => _ | None => _ end); [done|]. destruct (Nat.eqb_spec (top_n c) 0); [done|].
  destruct (Nat.eqb_spec (length (hits c)) (top_n c)) as [Hf|].
  - destruct (worst_some c ltac:(lia) Hf) as [w ->]. cbn [mbind option_bind]. destruct (loses d s w); [done|apply Hins; lia].
  - destruct (SFeqb s (S754_infinity true)); [done|apply Hins; lia].
Qed.

Lemma sorted_drop_here (l : list Z) n : Sorted.StronglySorted Z.lt l -> Sorted.StronglySorted Z.lt (drop n l).
Proof. intros H. rewrite <- (take_drop n l) in H. by apply StronglySorted_app_1_r in H. Qed.

(** A full queue stays full. *)
Lemma insert_full c x c' :
  td_valid c -> (0 < top_n c)%nat -> length (hits c) = top_n c -> insert_hit c x = Some c' -> length (hits c') = top_n c.
Proof.
  intros [_ Hh] H0 Hf. destruct (hits c) as [|r rest] eqn:Er; [cbn in Hf; lia|]. rewrite <- Er in *.
  destruct (heap_ordered c) eqn:Hv.
  - destruct (heap_replace c x r rest Hv (Hh eq_refl) Hf Er) as (h & -> & _ & Hp). intros [= <-]. cbn.
    rewrite Hp, <- Hf, Er. done.
  - unfold insert_hit. rewrite Hv, (proj2 (Nat.eqb_eq _ _) Hf). cbn [negb]. intros [= <-]. cbn [hits set_hits].
    rewrite insert_at_point, sort_insert_perm. cbn [length]. rewrite <- Hf.
    destruct (exists_last (l := hits c)) as (init & w & ->); [by rewrite Er|]. rewrite removelast_last, length_app. cbn. lia.
Qed.

Lemma full_stays c d s c1 :
  td_valid c -> quiet c -> collect_counted c d s = Some c1 -> length (hits c) = top_n c -> length (hits c1) = top_n c1.
Proof.
  intros Hv Hq Hc Hf. unfold collect_counted in Hc. set (x := mk_ScoreDoc d (canonical_score s)) in *. rewrite !(note_quiet c Hq) in Hc.
  assert (Hself : Some c = Some c1 -> length (hits c1) = top_n c1) by (by intros [= <-]).
  destruct (match after c with Some a => _ | None => _ end); [auto|]. destruct (Nat.eqb_spec (top_n c) 0) as [|H0]; [auto|].
  rewrite (proj2 (Nat.eqb_eq _ _) Hf) in Hc. destruct (worst c) as [w|]; cbn [mbind option_bind] in Hc; [|done].
  destruct (loses d s w); [auto|]. destruct (insert_hit c x) as [c2|] eqn:Ei; cbn [mbind option_bind] in Hc; [|done].
  pose proof (insert_full c x c2 Hv ltac:(lia) Hf Ei) as Hl. apply insert_frame in Ei.
  assert (Hq2 : quiet c2) by (rewrite Ei; exact Hq). rewrite (note_quiet c2 Hq2) in Hc. injection Hc as <-. rewrite Hl, Ei. done.
Qed.

Lemma many_loop_ok fuel docs scores base k : forall c w counted i until,
  length docs = k -> length scores = k -> Sorted.StronglySorted Z.lt docs ->
  td_valid c -> min_score_acc c = None -> tracks c (fast_of c) w -> 0 <= counted ->
  total_hits c + counted + Z.of_nat (k - i) <= total_hits_threshold c -> (i <= k)%nat -> (k - i < fuel)%nat ->
  exists c' counted', many_loop fuel docs scores base k (fast_of c) c w counted i until = Some (c', counted') /\
    each td_collect (owing c counted) (pairs base (drop i docs) (drop i scores)) = Some (owing c' counted').
Proof.
  induction fuel as [|fuel IH]; intros c w counted i until Hkd Hks Hs Hv Hm Hw H0 Ht Hi Hf; [lia|].
  cbn [many_loop]. destruct (Nat.leb_spec k i) as [Hki|Hki].
  { exists c, counted. split; [done|]. by rewrite drop_ge by lia. }
  destruct (lookup_lt docs i) as [d Hd]; [lia|]. destruct (lookup_lt scores i) as [s Hsc]; [lia|].
  rewrite Hd, Hsc. cbn [mbind option_bind]. set (end_ := Nat.min (i + COLLECT_RUN) k).
  assert (Hend : (i < end_ <= k)%nat) by (unfold end_, COLLECT_RUN; lia).
  assert (Hcount : 0 <= counted) by done.
  destruct (match w with Some w => _ | None => false end) eqn:Eskip.
  - destruct w as [w|]; [|done]. rewrite !andb_true_iff, Z.ltb_lt, negb_true_iff in Eskip. destruct Eskip as [[_ Hdoc] Hrun].
    pose proof (tracks_ready c w Hw) as Hready.
    destruct (IH c (Some w) (counted + Z.of_nat (end_ - i)) end_ until) as (c' & counted' & -> & He); [done|done|done|done|done|done|lia|lia|lia|lia|].
    exists c', counted'. split; [done|]. rewrite (pairs_split base docs scores i end_) by lia. rewrite each_app.
    assert (Hlen : zlen (pairs base (take (end_ - i) (drop i docs)) (take (end_ - i) (drop i scores))) = Z.of_nat (end_ - i)).
    { unfold zlen, pairs. rewrite length_zip_with, length_map, !length_take, !length_drop. lia. }
    rewrite (losing_run c w); [rewrite Hlen; exact He|done|done|rewrite Hlen; lia|].
    apply (run_loses base _ _ w _ d); [by apply sorted_drop_here|by rewrite lookup_drop, Nat.add_0_r|done|done].
  - set (until' := if (match w with Some _ => Nat.leb until i | None => false end) then end_ else until). rewrite (pairs_drop base docs scores i d s Hd Hsc). cbn [each].
    destruct (match w with Some w => loses (base + d) s w | None => false end) eqn:Elose.
    + destruct w as [w|]; [|done]. pose proof (tracks_ready c w Hw) as Hready.
      rewrite (losing_hit c counted w) by (done || lia). cbn [mbind option_bind]. apply IH; done || lia.
    + assert (Hq : quiet (set_total c (total_hits c + (counted + 1)))) by (split; [done|cbn; lia]).
      assert (Ho : set_total (owing c counted) (total_hits (owing c counted) + 1) = set_total c (total_hits c + (counted + 1))).
      { unfold owing. cbn. f_equal. lia. }
      rewrite (collect_quiet (owing c counted)) by (by rewrite Ho). rewrite Ho.
      assert (Hv' : td_valid (set_total c (total_hits c + (counted + 1)))) by done.
      destruct (collect_total _ (base + d) s Hv') as (c1 & Hc1 & Hv1). rewrite Hc1. cbn [mbind option_bind].
      destruct (counted_facts _ _ _ _ Hq Hc1) as (A1 & A2 & A3 & A4 & A5). cbn in A1, A2, A4, A5.
      assert (Hfast : fast_of c1 = fast_of c) by (unfold fast_of; by rewrite A1, A2).
      assert (Hnext : exists w1, (if fast_of c && Nat.eqb (length (hits c1)) (top_n c1) then w ← worst c1; Some (Some w) else Some w) = Some w1 /\
        tracks c1 (fast_of c1) w1).
      { rewrite Hfast. unfold tracks. destruct (fast_of c) eqn:Ef; cbn [andb]; [|exists w; split; [done|]; by unfold tracks in Hw].
        destruct (Nat.eqb_spec (length (hits c1)) (top_n c1)) as [Hfull|Hnot].
        - destruct (worst_some c1) as [w1 Hw1]; [|done|].
          + rewrite A2. unfold fast_of in Ef. destruct (after c); [done|]. destruct (Nat.eqb_spec (top_n c) 0); [done|lia].
          + rewrite Hw1. by exists (Some w1).
        - exists w. split; [done|]. unfold tracks in Hw. cbn [andb] in Hw. destruct (Nat.eqb_spec (length (hits c)) (top_n c)) as [Hc|]; [|done].
          exfalso. apply Hnot. exact (full_stays _ _ _ _ Hv' Hq Hc1 Hc). }
      destruct Hnext as (w1 & -> & Hw1). cbn [mbind option_bind]. rewrite <- Hfast.
      destruct (IH c1 w1 0 (S i) until') as (c' & counted' & -> & He); [done|done|done|done|done|done|lia|lia|lia|lia|].
      exists c', counted'. split; [done|]. rewrite <- He. f_equal. unfold owing. rewrite Z.add_0_r. by destruct c1.
Qed.

Lemma td_collect_total c d s : td_valid c -> exists c', td_collect c d s = Some c' /\ td_valid c'.
Proof.
  intros Hv. unfold td_collect. set (c1 := set_total c (total_hits c + 1)). assert (Hv1 : td_valid c1) by exact Hv.
  pose proof (collect_total c1 d s Hv1) as Hrest. destruct (after c1); [exact Hrest|].
  destruct (Nat.eqb_spec (top_n c1) 0); [exact Hrest|]. destruct (Nat.eqb_spec (length (hits c1)) (top_n c1)) as [Hf|]; [|exact Hrest].
  cbn [negb andb]. destruct (worst_some c1 ltac:(lia) Hf) as [w ->]. cbn [mbind option_bind]. destruct (loses d s w); [|exact Hrest].
  assert (Hself : exists c', Some c1 = Some c' /\ td_valid c') by eauto.
  destruct (total_hits_relation c1); [|exact Hself]. destruct (_ || _); [|exact Hself].
  destruct (note_ok c1 Hv1) as (c' & Hc & Hs). exists c'. split; [done|]. by eapply same_hits_valid.
Qed.

Lemma collect_many_spec c docs scores base :
  td_valid c -> Sorted.StronglySorted Z.lt docs -> length scores = length docs ->
  exists k c', td_collect_many c docs scores base = Some (k, c') /\
    Z.of_nat k = match min_score_acc c with
                 | Some _ => 0
                 | None => Z.min (zlen docs) (Z.max 0 (total_hits_threshold c - total_hits c))
                 end /\
    each td_collect c (pairs base (take k docs) (take k scores)) = Some c'.
Proof.
  intros Hv Hs Hlen. unfold td_collect_many. destruct (min_score_acc c) as [acc|] eqn:Ea.
  { exists O, c. by split_and!. }
  assert (Hz : zlen scores = zlen docs) by (unfold zlen; by rewrite Hlen). rewrite Hz, Z.min_id.
  set (room := Z.max 0 (total_hits_threshold c - total_hits c)). set (k := Z.to_nat (Z.min (zlen docs) room)).
  pose proof (zlen_nonneg docs) as Hnn. assert (Hk : Z.of_nat k = Z.min (zlen docs) room) by (unfold k, room; lia).
  assert (Hkl : (k <= length docs)%nat) by (unfold zlen in *; lia).
  assert (Hw : exists w, (if fast_of c && Nat.eqb (length (hits c)) (top_n c) then w ← worst c; Some (Some w) else Some None) = Some w /\
    tracks c (fast_of c) w).
  { unfold tracks. destruct (fast_of c) eqn:Ef; cbn [andb]; [|by eexists].
    destruct (Nat.eqb_spec (length (hits c)) (top_n c)) as [Hfull|]; [|by eexists].
    destruct (worst_some c) as [w ->]; [|done|by eexists].
    unfold fast_of in Ef. destruct (after c); [done|]. destruct (Nat.eqb_spec (top_n c) 0); [done|lia]. }
  destruct Hw as (w & Hw & Htr). unfold fast_of in Hw at 1. rewrite Hw. cbn [mbind option_bind]. fold (fast_of c).
  destruct (decide (k = O)) as [->|Hk0].
  { exists O, c. cbn [many_loop Nat.leb mbind option_bind]. split; [|by split]. rewrite Z.add_0_r. by destruct c. }
  destruct (many_loop_ok (S k) (take k docs) (take k scores) base k c w 0 0 0) as (c' & counted & Hm & He);
    [rewrite length_take; lia|rewrite length_take; lia| |done|done|done|lia|unfold room in *; lia|lia|lia|].
  { rewrite <- (take_drop k docs) in Hs. by apply StronglySorted_app_1_l in Hs. }
  rewrite Hm. cbn [mbind option_bind]. eexists k, _. split; [done|]. split; [done|].
  rewrite !drop_0 in He. etransitivity; [|exact He]. f_equal. unfold owing. rewrite Z.add_0_r. by destruct c.
Qed.

#[export] Instance top_docs_laws : CollectorLaws t.
Proof.
  apply (Build_CollectorLaws _ _ td_valid).
  - intros c d s Hv. by apply td_collect_total.
  - intros c docs scores base Hv Hs Hl. destruct (collect_many_spec c docs scores base Hv Hs Hl) as (k & c' & H1 & H2 & H3).
    exists k, c'. split; [done|]. split; [|exact H3].
    destruct (min_score_acc c); unfold zlen in H2; lia.
  - done.
  - done.
  - by intros c n c' _ [= ->].
  - done.
Defined.

(** [collect_many] is [collect], document by document, over the prefix it
    says it took: the same final state (hits, count, relation, bar), although
    it rejects runs of sixteen at once and counts the losers late.  The prefix
    is all that the count threshold leaves room for, and nothing when a bar is
    shared.  It never panics. *)
Lemma collect_many_is_collect (c : t) (docs : list Z) (scores : list f32) (base : Z)
    (Hc : td_valid c) (Hdocs : Sorted.StronglySorted Z.lt docs) (Hlen : length scores = length docs) :
  exists k c', collect_many c docs scores base = Some (k, c') /\
    Z.of_nat k = match min_score_acc c with
                 | Some _ => 0
                 | None => Z.min (zlen docs) (Z.max 0 (total_hits_threshold c - total_hits c))
                 end /\
    collect_each c (zip (map (Z.add base) (take k docs)) (take k scores)) = Some c'.
Proof. exact (collect_many_spec c docs scores base Hc Hdocs Hlen). Qed.

Lemma collect_many_is_collect_witness :
  let one := f32_of_Z 1 in
  let c := with_total_hits_threshold 1 40 in
  td_valid c /\ exists k c', collect_many c (seqZ 0 30) (replicate 30 one) 5 = Some (k, c') /\ k = 30%nat /\
    collect_each c (zip (map (Z.add 5) (take k (seqZ 0 30))) (take k (replicate 30 one))) = Some c'.
Proof.
  intros one c. assert (Hc : td_valid c) by (split; [vm_compute; lia|done]). split; [exact Hc|].
  assert (Hs : Sorted.StronglySorted Z.lt (seqZ 0 30)).
  { unfold seqZ. cbn. repeat constructor. }
  destruct (collect_many_is_collect c (seqZ 0 30) (replicate 30 one) 5 Hc Hs) as (k & c' & H1 & H2 & H3); [done|].
  exists k, c'. split; [exact H1|]. split; [|exact H3]. cbn in H2. unfold zlen in H2. rewrite length_seqZ in H2. lia.
Defined.
