(* ===== verification/TernaryLongHeap.v ===== *)
(** * [TernaryLongHeap] ([lucene-util/src/ternary_long_heap.rs])

    The 1-based, arity-3 min-heap of [i64]: [None] is a panic.  Proved: the
    heap invariant under every operation, that no operation panics where its
    callers use it, that popping drains in ascending order, and that
    [insert_with_overflow] keeps the largest elements it was given. *)
From Stdlib Require Import Sorting.Sorted.
From S2P Require Export HeapTheory.

Record t := mk { initial_capacity : nat; heap_of : list Z; size_of : nat }.

Definition ARITY : nat := 3.

Definition new (initial_capacity : nat) : option t :=
  if Nat.leb 1 initial_capacity
  then Some (mk initial_capacity (replicate (initial_capacity + 1) 0) 0) else None.

Definition size (h : t) : nat := size_of h.
Definition clear (h : t) : t := mk (initial_capacity h) (heap_of h) 0.
Definition top (h : t) : option Z := heap_of h !! 1%nat.
Definition get (h : t) (i : nat) : option Z := heap_of h !! i.

(** [heap[i] = v]. *)
Definition write (heap : list Z) (i : nat) (v : Z) : option (list Z) :=
  if Nat.ltb i (length heap) then Some (<[i := v]> heap) else None.

Fixpoint up_loop (fuel : nat) (heap : list Z) (value : Z) (i : nat) : option (list Z) :=
  match fuel with
  | O => None
  | S fuel =>
      if Nat.ltb 1 i then
        let parent := ((i - 2) / ARITY + 1)%nat in
        parent_val ← heap !! parent;
        if parent_val <=? value then write heap i value
        else heap ← write heap i parent_val; up_loop fuel heap value parent
      else write heap i value
  end.

Definition up_heap (heap : list Z) (i : nat) : option (list Z) :=
  value ← heap !! i; up_loop (S i) heap value i.

(** The scan of the later siblings: the first least one. *)
Fixpoint best_of (vs : list Z) (at_ : nat) (best : nat) (best_val : Z) : nat * Z :=
  match vs with
  | [] => (best, best_val)
  | v :: vs => if v <? best_val then best_of vs (S at_) at_ v else best_of vs (S at_) best best_val
  end.

Fixpoint down_loop (fuel : nat) (heap : list Z) (value : Z) (i size : nat) : option (list Z) :=
  match fuel with
  | O => None
  | S fuel =>
      let first_child := (ARITY * (i - 1) + 2)%nat in
      if Nat.ltb size first_child then write heap i value
      else
        let last_child := Nat.min (first_child + ARITY - 1) size in
        first ← heap !! first_child;
        if Nat.ltb last_child (length heap) then
          let siblings := take (last_child - first_child) (drop (S first_child) heap) in
          let '(best, best_val) := best_of siblings (S first_child) first_child first in
          if value <=? best_val then write heap i value
          else heap ← write heap i best_val; down_loop fuel heap value best size
        else None
  end.

Definition down_heap (heap : list Z) (i size : nat) : option (list Z) :=
  if Nat.eqb size 0 then Some heap
  else value ← heap !! i; down_loop (S size) heap value i size.

(** [Vec::resize(n, 0)] to a larger length. *)
Definition resize (heap : list Z) (n : nat) : list Z := take n heap ++ replicate (n - length heap) 0.

Definition push (h : t) (element : Z) : option t :=
  let size := S (size_of h) in
  let heap :=
    if Nat.eqb size (length (heap_of h))
    then resize (heap_of h) (Z.to_nat (div_ceil (Z.of_nat size * 3) 2) + 1) else heap_of h in
  heap ← write heap size element;
  heap ← up_heap heap size;
  Some (mk (initial_capacity h) heap size).

Definition insert_with_overflow (h : t) (value : Z) : option (bool * t) :=
  if Nat.leb (initial_capacity h) (size_of h) then
    first ← heap_of h !! 1%nat;
    if value <? first then Some (false, h)
    else
      heap ← write (heap_of h) 1 value;
      heap ← down_heap heap 1 (size_of h);
      Some (true, mk (initial_capacity h) heap (size_of h))
  else h ← push h value; Some (true, h).

Definition pop (h : t) : option (Z * t) :=
  if Nat.ltb 0 (size_of h) then
    result ← heap_of h !! 1%nat;
    last ← heap_of h !! size_of h;
    heap ← write (heap_of h) 1 last;
    let size := (size_of h - 1)%nat in
    heap ← down_heap heap 1 size;
    Some (result, mk (initial_capacity h) heap size)
  else None.

(** The elements in heap-array order, [get(1)..=get(size)]. *)
Definition elems (h : t) : list Z := take (size_of h) (drop 1 (heap_of h)).

(** Inserting a stream, and draining. *)
Fixpoint insert_all (h : t) (l : list Z) : option t :=
  match l with
  | [] => Some h
  | v :: l => '(_, h) ← insert_with_overflow h v; insert_all h l
  end.
Fixpoint drain (n : nat) (h : t) : option (list Z) :=
  match n with
  | O => Some []
  | S n => '(v, h) ← pop h; l ← drain n h; Some (v :: l)
  end.

(** ** The invariant *)
Definition heap3 : list Z -> Prop := heap Z.le ARITY.

Definition inv (h : t) : Prop :=
  (1 <= initial_capacity h)%nat /\ (size_of h < length (heap_of h))%nat /\ heap3 (elems h).

(** The array is the unused slot, the elements and the slack. *)
Lemma layout h : inv h -> exists h0 slack, heap_of h = h0 :: elems h ++ slack /\ length (elems h) = size_of h.
Proof.
  intros (_ & Hs & _). unfold elems. destruct (heap_of h) as [|h0 a]; cbn in *; [lia|].
  exists h0, (drop (size_of h) a). rewrite drop_0, take_drop. split; [done|]. rewrite length_take. lia.
Qed.

Lemma layout_lookup (h0 : Z) es slack i : (i < length es)%nat -> (h0 :: es ++ slack) !! S i = es !! i.
Proof. intros H. change ((es ++ slack) !! i = es !! i). by rewrite lookup_app_l. Qed.

Lemma layout_write h0 es slack i v :
  (i < length es)%nat -> write (h0 :: es ++ slack) (S i) v = Some (h0 :: <[i := v]> es ++ slack).
Proof.
  intros H. unfold write. destruct (Nat.ltb_spec (S i) (length (h0 :: es ++ slack))) as [_|Hc].
  - change (Some (h0 :: <[i := v]> (es ++ slack)) = Some (h0 :: <[i := v]> es ++ slack)).
    by rewrite insert_app_l.
  - cbn in Hc. rewrite length_app in Hc. lia.
Qed.

Lemma arity3_pos : (0 < ARITY)%nat.
Proof. unfold ARITY. lia. Qed.

Lemma parent3 i : (0 < i)%nat -> ((S i - 2) / ARITY + 1)%nat = S (parent ARITY i).
Proof. intros H. unfold parent. replace (S i - 2)%nat with (i - 1)%nat by lia. lia. Qed.

(** The loop leaves a hole at [i]; [<[i := value]> hs] is the heap with it filled. *)
Lemma heap_up_loop_ok fuel h0 hs slack value i :
  (i < length hs)%nat -> (i < fuel)%nat ->
  hole Z.le ARITY (<[i := value]> hs) i -> below_ok Z.le ARITY (<[i := value]> hs) i ->
  exists es, up_loop fuel (h0 :: hs ++ slack) value (S i) = Some (h0 :: es ++ slack) /\
    heap3 es /\ es ≡ₚ <[i := value]> hs.
Proof.
  revert hs i. induction fuel as [|fuel IH]; intros hs i Hi Hf Hh Hb; [lia|].
  assert (Hx : <[i := value]> hs !! i = Some value) by (by rewrite list_lookup_insert_eq).
  assert (Hfill : above_ok Z.le ARITY (<[i := value]> hs) i -> exists es,
    write (h0 :: hs ++ slack) (S i) value = Some (h0 :: es ++ slack) /\ heap3 es /\ es ≡ₚ <[i := value]> hs).
  { intros Ha. exists (<[i := value]> hs). split; [by apply layout_write|]. split; [|done].
    by eapply hole_filled. }
  cbn [up_loop]. destruct (Nat.ltb_spec 1 (S i)) as [H1|H1]; [|apply Hfill; intros ?; lia].
  pose proof (parent_lt ARITY arity3_pos i ltac:(lia)) as Hpl.
  rewrite parent3, layout_lookup by lia. destruct (lookup_lt hs (parent ARITY i)) as [p Hp]; [lia|].
  rewrite Hp. cbn. destruct (Z.leb_spec p value) as [Hle|Hlt].
  - apply Hfill. intros _ a b. rewrite list_lookup_insert_ne, Hx, Hp by lia. by intros [= <-] [= <-].
  - rewrite layout_write by done. cbn.
    destruct (sift_up Z.le ARITY Z.le_trans arity3_pos (<[i := value]> hs) i value p)
      as [Hh' Hb']; [lia|done|done|done|by rewrite list_lookup_insert_ne by lia|lia|].
    rewrite <- (hole_is_swap hs i (parent ARITY i) value p) in Hh', Hb' by (done || lia).
    destruct (IH (<[i := p]> hs) (parent ARITY i)) as (es & H2 & H3 & H4);
      [rewrite length_insert; lia|lia|done|done|].
    exists es. split; [done|]. split; [done|]. rewrite H4.
    rewrite (hole_is_swap hs i (parent ARITY i) value p) by (done || lia). apply swap_perm.
Qed.

Lemma heap_up_ok h0 es slack i :
  (i < length es)%nat -> hole Z.le ARITY es i -> below_ok Z.le ARITY es i ->
  exists es', up_heap (h0 :: es ++ slack) (S i) = Some (h0 :: es' ++ slack) /\ heap3 es' /\ es' ≡ₚ es.
Proof.
  intros Hi Hh Hb. unfold up_heap. rewrite layout_lookup by done.
  destruct (lookup_lt es i Hi) as [v Hv]. rewrite Hv. cbn [mbind option_bind].
  rewrite <- (list_insert_id es i v Hv) in Hh, Hb.
  destruct (heap_up_loop_ok (S (S i)) h0 es slack v i) as (es' & H1 & H2 & H3); [done|lia|done|done|].
  exists es'. split; [done|]. split; [done|]. by rewrite (list_insert_id es i v Hv) in H3.
Qed.

Lemma best_of_spec vs at_ best bv :
  let r := best_of vs at_ best bv in
  r.2 <= bv /\ (forall x, x ∈ vs -> r.2 <= x) /\
  (r = (best, bv) \/ exists k, r.1 = (at_ + k)%nat /\ vs !! k = Some r.2).
Proof.
  revert at_ best bv. induction vs as [|v vs IH]; intros at_ best bv; cbn.
  - split; [lia|]. split; [intros x Hx; by apply not_elem_of_nil in Hx|by left].
  - destruct (Z.ltb_spec v bv) as [Hlt|Hge].
    + destruct (IH (S at_) at_ v) as (H1 & H2 & H3). split; [lia|]. split.
      * intros x [->|Hx]%elem_of_cons; [done|auto].
      * right. destruct H3 as [->|(k & H4 & H5)]; [exists O; cbn; split; [lia|done]|].
        exists (S k). split; [lia|done].
    + destruct (IH (S at_) best bv) as (H1 & H2 & H3). split; [lia|]. split.
      * intros x [->|Hx]%elem_of_cons; [lia|auto].
      * destruct H3 as [->|(k & H4 & H5)]; [by left|right]. exists (S k). split; [lia|done].
Qed.

(** The scan finds the least child. *)
Lemma best_child h0 hs slack i first :
  let c0 := (ARITY * i + 1)%nat in
  let last := Nat.min (S c0 + ARITY - 1) (length hs) in
  (c0 < length hs)%nat -> hs !! c0 = Some first ->
  exists c y, best_of (take (last - S c0) (drop (S (S c0)) (h0 :: hs ++ slack))) (S (S c0)) (S c0) first = (S c, y) /\
    hs !! c = Some y /\ child ARITY i c /\
    forall c' z, child ARITY i c' -> hs !! c' = Some z -> y <= z.
Proof.
  intros c0 last Hc0 Hf.
  assert (Hlk : forall k, (k < last - S c0)%nat ->
    take (last - S c0) (drop (S (S c0)) (h0 :: hs ++ slack)) !! k = hs !! (S c0 + k)%nat).
  { intros k Hk. rewrite lookup_take_lt, lookup_drop by done.
    change (S (S c0) + k)%nat with (S (S c0 + k)). apply layout_lookup. lia. }
  destruct (best_of_spec (take (last - S c0) (drop (S (S c0)) (h0 :: hs ++ slack))) (S (S c0)) (S c0) first)
    as (H1 & H2 & H3).
  destruct (best_of _ _ _ _) as [b y]. cbn [fst snd] in *.
  assert (Hmin : forall c' z, child ARITY i c' -> hs !! c' = Some z -> y <= z).
  { intros c' z Hch Hz. apply (child_iff ARITY arity3_pos) in Hch. pose proof (lookup_lt_Some _ _ _ Hz).
    destruct (decide (c' = c0)) as [->|Hne]; [assert (z = first) as -> by congruence; done|].
    apply H2. apply (list_elem_of_lookup_2 _ (c' - S c0)). unfold ARITY in *. rewrite Hlk by lia.
    rewrite <- Hz. f_equal. lia. }
  destruct H3 as [[= -> ->]|(k & -> & Hk)].
  - exists c0, first. split; [done|]. split; [done|]. split; [|done].
    apply (child_iff ARITY arity3_pos). unfold c0, ARITY. lia.
  - pose proof (lookup_lt_Some _ _ _ Hk) as Hkl. rewrite length_take in Hkl. rewrite Hlk in Hk by lia.
    exists (S c0 + k)%nat, y. split; [done|]. split; [done|]. split; [|done].
    apply (child_iff ARITY arity3_pos). unfold last, c0, ARITY in *. lia.
Qed.

Lemma heap_down_loop_ok fuel h0 hs slack value i :
  (i < length hs)%nat -> (length hs < fuel + i)%nat ->
  hole Z.le ARITY (<[i := value]> hs) i -> above_ok Z.le ARITY (<[i := value]> hs) i ->
  exists es, down_loop fuel (h0 :: hs ++ slack) value (S i) (length hs) = Some (h0 :: es ++ slack) /\
    heap3 es /\ es ≡ₚ <[i := value]> hs.
Proof.
  revert hs i. induction fuel as [|fuel IH]; intros hs i Hi Hf Hh Ha; [lia|].
  assert (Hx : <[i := value]> hs !! i = Some value) by (by rewrite list_lookup_insert_eq).
  assert (Hfill : below_ok Z.le ARITY (<[i := value]> hs) i -> exists es,
    write (h0 :: hs ++ slack) (S i) value = Some (h0 :: es ++ slack) /\ heap3 es /\ es ≡ₚ <[i := value]> hs).
  { intros Hb. exists (<[i := value]> hs). split; [by apply layout_write|]. split; [|done].
    by eapply hole_filled. }
  cbn [down_loop]. replace (ARITY * (S i - 1) + 2)%nat with (S (ARITY * i + 1)) by (unfold ARITY; lia).
  destruct (Nat.ltb_spec (length hs) (S (ARITY * i + 1))) as [Hno|Hyes].
  { apply Hfill. intros c Hc a b _ Hb. apply (child_iff ARITY arity3_pos) in Hc.
    apply lookup_lt_Some in Hb. rewrite length_insert in Hb. unfold ARITY in *. lia. }
  rewrite layout_lookup by lia. destruct (lookup_lt hs (ARITY * i + 1)) as [first Hfirst]; [lia|].
  rewrite Hfirst. cbn [mbind option_bind]. set (last := Nat.min _ _).
  destruct (Nat.ltb_spec last (length (h0 :: hs ++ slack))) as [_|Hc];
    [|cbn in Hc; rewrite length_app in Hc; unfold last in Hc; lia].
  destruct (best_child h0 hs slack i first) as (c & y & Hb & Hy & Hch & Hmin); [lia|done|].
  fold last in Hb. rewrite Hb. pose proof Hch as [Hc0 Hpc].
  pose proof (parent_lt ARITY arity3_pos c Hc0) as Hlt. rewrite Hpc in Hlt.
  pose proof (lookup_lt_Some _ _ _ Hy) as Hcl.
  destruct (Z.leb_spec value y) as [Hle|Hgt].
  - apply Hfill. intros c' Hc' a b. rewrite Hx. intros [= <-] Hb'.
    destruct Hc' as [Hc'0 Hc'p]. pose proof (parent_lt ARITY arity3_pos c' Hc'0).
    rewrite list_lookup_insert_ne in Hb' by lia. etrans; [exact Hle|]. by eapply (Hmin c'); [split|].
  - rewrite layout_write by done. cbn [mbind option_bind].
    assert (Hyc : <[i := value]> hs !! c = Some y) by (by rewrite list_lookup_insert_ne by lia).
    destruct (sift_down Z.le ARITY arity3_pos (<[i := value]> hs) i c value y) as [Hh' Ha'];
      [done|done|done|done|done|lia| |].
    { intros c' z Hc' Hz. pose proof Hc' as [Hc'0 Hc'p]. pose proof (parent_lt ARITY arity3_pos c' Hc'0).
      rewrite list_lookup_insert_ne in Hz by lia. by eapply Hmin. }
    rewrite <- (hole_is_swap hs i c value y) in Hh', Ha' by (done || lia).
    destruct (IH (<[i := y]> hs) c) as (es & H2 & H3 & H4);
      [by rewrite length_insert|rewrite length_insert; lia|done|done|].
    rewrite length_insert in H2. exists es. split; [done|]. split; [done|]. rewrite H4.
    rewrite (hole_is_swap hs i c value y) by (done || lia). apply swap_perm.
Qed.

(** Sifting the root down. *)
Lemma down_heap_root h0 es slack :
  hole Z.le ARITY es 0 ->
  exists es', down_heap (h0 :: es ++ slack) 1 (length es) = Some (h0 :: es' ++ slack) /\
    heap3 es' /\ es' ≡ₚ es.
Proof.
  intros Hh. unfold down_heap. destruct es as [|v es].
  - exists []. split; [done|]. split; [|done]. intros c Hc x y Hx. done.
  - destruct (heap_down_loop_ok (S (length (v :: es))) h0 (v :: es) slack v 0) as (es' & H1 & H2 & H3);
      [cbn; lia|lia|done|intros ?; lia|]. by exists es'.
Qed.

(** ** The operations *)
Lemma elems_mk c h0 es slack : elems (mk c (h0 :: es ++ slack) (length es)) = es.
Proof. unfold elems. cbn. by rewrite drop_0, take_app_length. Qed.

Lemma inv_mk c h0 es slack : (1 <= c)%nat -> heap3 es -> inv (mk c (h0 :: es ++ slack) (length es)).
Proof.
  intros Hc Hh. split; [done|]. split; [cbn; rewrite length_app; lia|]. by rewrite elems_mk.
Qed.

Lemma heap_new_inv c h : new c = Some h -> inv h /\ elems h = [] /\ initial_capacity h = c.
Proof.
  unfold new. destruct (Nat.leb_spec 1 c); [|done]. intros [= <-]. split; [|by split].
  split; [done|]. split; [cbn; rewrite length_replicate; lia|]. intros k Hk x y Hx. done.
Qed.

(** The room [push] makes: the element's slot and the slack past it. *)
Lemma push_room h0 es slack v :
  exists slack',
    write (if Nat.eqb (S (length es)) (length (h0 :: es ++ slack))
           then resize (h0 :: es ++ slack) (Z.to_nat (div_ceil (Z.of_nat (S (length es)) * 3) 2) + 1)
           else h0 :: es ++ slack) (S (length es)) v
    = Some (h0 :: (es ++ [v]) ++ slack').
Proof.
  assert (Hw : forall z k, write (h0 :: es ++ z :: k) (S (length es)) v = Some (h0 :: (es ++ [v]) ++ k)).
  { intros z k. unfold write. destruct (Nat.ltb_spec (S (length es)) (length (h0 :: es ++ z :: k))) as [_|Hc].
    - change (Some (h0 :: <[length es := v]> (es ++ z :: k)) = Some (h0 :: (es ++ [v]) ++ k)).
      rewrite <- (Nat.add_0_r (length es)), insert_app_r. cbn. by rewrite <- app_assoc.
    - cbn in Hc. rewrite length_app in Hc. cbn in Hc. lia. }
  destruct (Nat.eqb_spec (S (length es)) (length (h0 :: es ++ slack))) as [He|Hne].
  - cbn in He. rewrite length_app in He. destruct slack as [|]; [|cbn in He; lia].
    rewrite app_nil_r. unfold resize. set (n := (_ + 1)%nat).
    assert (Hn : (S (S (length es)) <= n)%nat).
    { unfold n, div_ceil. pose proof (Z.div_mod (Z.of_nat (S (length es)) * 3 + 2 - 1) 2 ltac:(lia)).
      pose proof (Z.mod_pos_bound (Z.of_nat (S (length es)) * 3 + 2 - 1) 2 ltac:(lia)). lia. }
    rewrite take_ge by (cbn; lia). replace (n - length (h0 :: es))%nat with (S (n - S (S (length es))))%nat by (cbn; lia).
    exists (replicate (n - S (S (length es))) 0). cbn [replicate]. apply (Hw 0).
  - destruct slack as [|z slack]; [cbn in Hne; rewrite length_app in Hne; cbn in Hne; lia|].
    exists slack. apply Hw.
Qed.

Lemma heap_push_ok h v :
  inv h -> exists h', push h v = Some h' /\ inv h' /\ elems h' ≡ₚ v :: elems h /\
    initial_capacity h' = initial_capacity h.
Proof.
  intros Hi. destruct (layout h Hi) as (h0 & slack & Hl & Hs). pose proof Hi as (Hc & _ & Hh).
  unfold push. rewrite Hl, <- Hs. destruct (push_room h0 (elems h) slack v) as (slack' & ->).
  cbn [mbind option_bind]. destruct (heap_snoc Z.le ARITY arity3_pos (elems h) v Hh) as [H1 H2].
  destruct (heap_up_ok h0 (elems h ++ [v]) slack' (length (elems h))) as (es & He & Hes & Hp);
    [rewrite length_app; cbn; lia|done|done|].
  rewrite He. cbn [mbind option_bind].
  assert (Hlen : S (length (elems h)) = length es).
  { rewrite Hp, length_app. cbn. lia. }
  exists (mk (initial_capacity h) (h0 :: es ++ slack') (S (length (elems h)))). split; [done|].
  rewrite Hlen. split; [by apply inv_mk|]. split; [|done]. rewrite elems_mk, Hp. by rewrite Permutation_app_comm.
Qed.

Lemma root_least es r x : heap3 es -> es !! O = Some r -> x ∈ es -> r <= x.
Proof.
  intros Hh Hr (i & Hi)%list_elem_of_lookup.
  exact (heap_root Z.le ARITY Z.le_refl Z.le_trans arity3_pos es r i x Hh Hr Hi).
Qed.

Lemma heap_pop_ok h :
  inv h -> elems h <> [] ->
  exists r h', pop h = Some (r, h') /\ inv h' /\ r :: elems h' ≡ₚ elems h /\
    (forall x, x ∈ elems h -> r <= x) /\ initial_capacity h' = initial_capacity h.
Proof.
  intros Hi Hne. destruct (layout h Hi) as (h0 & slack & Hl & Hs). pose proof Hi as (Hc & _ & Hh).
  destruct (elems h) as [|r rest] eqn:Ees; [done|]. unfold pop. rewrite <- Hs.
  destruct (Nat.ltb_spec 0 (length (r :: rest))) as [_|]; [|cbn in *; lia].
  rewrite Hl, !layout_lookup by (cbn; lia). cbn [lookup list_lookup mbind option_bind].
  destruct (exists_last (l := r :: rest)) as (init & last & Hlast); [done|].
  assert (Hlen : length (r :: rest) = S (length init)) by (rewrite Hlast, length_app; cbn; lia).
  rewrite Hlen. rewrite layout_lookup by (rewrite Hlen; lia).
  rewrite Hlast, lookup_app_r, Nat.sub_diag by lia. cbn [lookup list_lookup mbind option_bind].
  change 1%nat with (S O) at 1. rewrite layout_write by (rewrite length_app; cbn; lia). cbn [mbind option_bind].
  replace (S (length init) - 1)%nat with (length init) by lia.
  assert (Hmin : forall x, x ∈ r :: rest -> r <= x) by (intros x Hx; by apply (root_least (r :: rest))).
  destruct init as [|r' init].
  - injection Hlast as <- ->. exists r, (mk (initial_capacity h) (h0 :: [] ++ r :: slack) 0). split; [done|].
    split; [apply (inv_mk (initial_capacity h) h0 [] (r :: slack) Hc); intros c Hc' x y Hx; done|].
    split; [done|]. by split.
  - injection Hlast as <- Hlast. change (<[O := last]> ((r :: init) ++ [last])) with ((last :: init) ++ [last]).
    rewrite <- app_assoc.
    assert (Hhi : heap3 (r :: init)).
    { apply (heap_app Z.le ARITY (r :: init) [last]). rewrite Hlast in Hh. exact Hh. }
    pose proof (heap_root_hole Z.le ARITY arity3_pos (r :: init) last Hhi) as Hhole.
    change (<[O := last]> (r :: init)) with (last :: init) in Hhole.
    destruct (down_heap_root h0 (last :: init) ([last] ++ slack) Hhole) as (es & He & Hes & Hp).
    change (length (r :: init)) with (length (last :: init)). rewrite He. cbn [mbind option_bind].
    assert (Hle : length (last :: init) = length es) by (by rewrite Hp).
    exists r, (mk (initial_capacity h) (h0 :: es ++ [last] ++ slack) (length (last :: init))). split; [done|].
    rewrite Hle. split; [by apply inv_mk|]. rewrite elems_mk. rewrite Hlast in Hmin. split; [|by split].
    rewrite Hp. cbn [app]. f_equiv. symmetry. apply Permutation_app_comm.
Qed.

(** [insert_with_overflow]: while there is room the value is added; once full
    the least of the elements and the value is dropped. *)
Definition kept (h h' : t) (v : Z) (added : bool) : Prop :=
  if Nat.leb (initial_capacity h) (length (elems h)) then
    exists dropped, dropped :: elems h' ≡ₚ v :: elems h /\ (forall x, x ∈ v :: elems h -> dropped <= x) /\
      (added = false -> dropped = v)
  else elems h' ≡ₚ v :: elems h.

Lemma heap_insert_ok h v :
  inv h -> exists added h', insert_with_overflow h v = Some (added, h') /\ inv h' /\
    initial_capacity h' = initial_capacity h /\ kept h h' v added.
Proof.
  intros Hi. destruct (layout h Hi) as (h0 & slack & Hl & Hs). pose proof Hi as (Hc & _ & Hh).
  unfold insert_with_overflow, kept. rewrite <- Hs.
  destruct (Nat.leb_spec (initial_capacity h) (length (elems h))) as [Hfull|Hroom].
  2:{ destruct (heap_push_ok h v Hi) as (h' & -> & H1 & H2 & H3). exists true, h'. by split_and!. }
  destruct (elems h) as [|r rest] eqn:Ees; [cbn in Hfull; lia|].
  rewrite Hl, layout_lookup by (cbn; lia). cbn [lookup list_lookup mbind option_bind].
  assert (Hmin : forall x, x ∈ r :: rest -> r <= x) by (intros x Hx; by apply (root_least (r :: rest))).
  destruct (Z.ltb_spec v r) as [Hlt|Hge].
  - exists false, h. split; [done|]. split; [done|]. split; [done|]. rewrite Ees. exists v.
    split; [done|]. split; [|done]. intros x [->|Hx]%elem_of_cons; [lia|]. specialize (Hmin x Hx). lia.
  - change 1%nat with (S O) at 1. rewrite layout_write by (cbn; lia). cbn [mbind option_bind].
    pose proof (heap_root_hole Z.le ARITY arity3_pos (r :: rest) v Hh) as Hhole.
    change (<[O := v]> (r :: rest)) with (v :: rest) in *.
    change (length (r :: rest)) with (length (v :: rest)).
    destruct (down_heap_root h0 (v :: rest) slack Hhole) as (es & He & Hes & Hp). rewrite He. cbn [mbind option_bind].
    assert (Hle : length (v :: rest) = length es) by (by rewrite Hp).
    exists true, (mk (initial_capacity h) (h0 :: es ++ slack) (length (v :: rest))). split; [done|].
    rewrite Hle. split; [by apply inv_mk|]. split; [done|]. rewrite elems_mk. exists r.
    split; [by rewrite Hp, Permutation_swap|]. split; [|done].
    intros x [->|Hx]%elem_of_cons; [lia|auto].
Qed.

(** A full heap never goes below its least element again. *)
Definition above (b : Z) (l : list Z) : Prop := forall x, x ∈ l -> b <= x.

Lemma kept_above h h' v added b :
  (initial_capacity h <= length (elems h))%nat -> kept h h' v added -> above b (elems h) -> above b (elems h').
Proof.
  unfold kept. destruct (Nat.leb_spec (initial_capacity h) (length (elems h))); [|lia].
  intros _ (d & Hd & Hleast & _) Hb. destruct (decide (b <= v)) as [Hle|Hgt].
  - intros x Hx. assert (Hin : x ∈ v :: elems h) by (rewrite <- Hd; by right).
    apply elem_of_cons in Hin as [->|Hin]; [done|by apply Hb].
  - assert (d = v) as ->.
    { assert (Hin : d ∈ v :: elems h) by (rewrite <- Hd; by left).
      apply elem_of_cons in Hin as [|Hin]; [done|]. specialize (Hb d Hin).
      specialize (Hleast v ltac:(by left)). lia. }
    apply Permutation_cons_inv in Hd. intros x Hx. apply Hb. by rewrite <- Hd.
Qed.

Lemma insert_all_above l : forall h h' b,
  inv h -> (initial_capacity h <= length (elems h))%nat -> insert_all h l = Some h' ->
  above b (elems h) -> above b (elems h').
Proof.
  induction l as [|v l IH]; intros h h' b Hi Hf; cbn [insert_all]; [by intros [= <-]|].
  destruct (heap_insert_ok h v Hi) as (added & h1 & -> & Hi1 & Hc & Hk). cbn [mbind option_bind].
  intros Hins Hb. apply (IH h1 h' b Hi1); [|done|by eapply kept_above].
  unfold kept in Hk. destruct (Nat.leb_spec (initial_capacity h) (length (elems h))); [|lia].
  destruct Hk as (d & Hd & _). apply Permutation_length in Hd. cbn in Hd. lia.
Qed.

(** What a stream leaves: every value is kept or below everything kept. *)
Lemma insert_all_ok l : forall h,
  inv h -> (length (elems h) <= initial_capacity h)%nat ->
  exists h' rejected, insert_all h l = Some h' /\ inv h' /\ elems h' ++ rejected ≡ₚ l ++ elems h /\
    (forall x, x ∈ rejected -> above x (elems h')) /\
    length (elems h') = Nat.min (initial_capacity h) (length (elems h) + length l).
Proof.
  induction l as [|v l IH]; intros h Hi Hl; cbn [insert_all].
  - exists h, []. split; [done|]. split; [done|]. rewrite app_nil_r. split; [done|].
    split; [intros x Hx; by apply not_elem_of_nil in Hx|cbn; lia].
  - destruct (heap_insert_ok h v Hi) as (added & h1 & -> & Hi1 & Hc & Hk). cbn [mbind option_bind].
    unfold kept in Hk. destruct (Nat.leb_spec (initial_capacity h) (length (elems h))) as [Hfull|Hroom].
    + destruct Hk as (d & Hd & Hleast & _). pose proof (Permutation_length Hd) as Hlen. cbn in Hlen.
      destruct (IH h1 Hi1) as (h' & rej & H1 & H2 & H3 & H4 & H5); [lia|].
      exists h', (d :: rej). split; [done|]. split; [done|]. split; [|split; [|cbn; lia]].
      * rewrite <- Permutation_middle, H3, (Permutation_middle l), Hd. by rewrite <- Permutation_middle.
      * intros x [->|Hx]%elem_of_cons; [|by apply H4].
        apply (insert_all_above l h1 h' d Hi1); [lia|done|].
        intros y Hy. apply Hleast. rewrite <- Hd. by right.
    + pose proof (Permutation_length Hk) as Hlen. cbn in Hlen.
      destruct (IH h1 Hi1) as (h' & rej & H1 & H2 & H3 & H4 & H5); [lia|].
      exists h', rej. split; [done|]. split; [done|]. split; [|split; [done|cbn; lia]].
      rewrite H3, Hk. by rewrite <- Permutation_middle.
Qed.

Lemma heap_drain_ok n : forall h,
  inv h -> length (elems h) = n ->
  exists out, drain n h = Some out /\ StronglySorted Z.le out /\ out ≡ₚ elems h.
Proof.
  induction n as [|n IH]; intros h Hi Hn; cbn [drain].
  - exists []. split; [done|]. split; [constructor|]. by destruct (elems h).
  - destruct (heap_pop_ok h Hi) as (r & h' & -> & Hi' & Hp & Hmin & _); [by destruct (elems h)|].
    cbn [mbind option_bind]. pose proof (Permutation_length Hp) as Hlen. cbn in Hlen.
    destruct (IH h' Hi') as (out & -> & Hs & Ho); [lia|]. exists (r :: out). split; [done|].
    split; [|by rewrite Ho]. constructor; [done|]. apply Forall_forall. intros x Hx.
    apply Hmin. rewrite <- Hp, <- Ho. right. by apply list_elem_of_In.
Qed.

(** C33: a heap of capacity [k] fed a stream through [insert_with_overflow]
    never panics and then pops, in ascending order, exactly the [k] largest
    values of the stream (with multiplicity; all of them when there are
    fewer): what it does not pop is a rest of the stream that is below
    everything popped. *)
Theorem heap_keeps_the_largest (k : nat) (l : list Z) (Hk : (1 <= k)%nat) :
  exists h0 h out rejected,
    new k = Some h0 /\ insert_all h0 l = Some h /\ drain (size h) h = Some out /\
    StronglySorted Z.le out /\ out ++ rejected ≡ₚ l /\ length out = Nat.min k (length l) /\
    (forall x y, x ∈ rejected -> y ∈ out -> x <= y).
Proof.
  destruct (new k) as [h0|] eqn:Hnew; [|unfold new in Hnew; destruct (Nat.leb_spec 1 k); [done|lia]].
  destruct (heap_new_inv k h0 Hnew) as (Hi & He & Hc).
  destruct (insert_all_ok l h0 Hi) as (h & rej & Hins & Hi' & Hp & Hr & Hlen); [rewrite He; cbn; lia|].
  destruct (layout h Hi') as (_ & _ & _ & Hs).
  destruct (heap_drain_ok (size h) h Hi' Hs) as (out & Hd & Hsort & Ho).
  exists h0, h, out, rej. split; [done|]. split; [done|]. split; [done|]. split; [done|].
  rewrite Ho, Hp, He, app_nil_r. split; [done|]. split; [rewrite Hlen, He, Hc; cbn; lia|].
  intros x y Hx Hy. rewrite Ho in Hy. by apply (Hr x Hx).
Qed.
Lemma heap_keeps_the_largest_witness :
  (1 <= 3)%nat /\ exists h0 h out rejected,
    new 3 = Some h0 /\ insert_all h0 [1; 2; 3; 0; 9] = Some h /\ drain (size h) h = Some out /\
    StronglySorted Z.le out /\ out ++ rejected ≡ₚ [1; 2; 3; 0; 9] /\ length out = 3%nat /\
    (forall x y, x ∈ rejected -> y ∈ out -> x <= y).
Proof. split; [lia|]. apply (heap_keeps_the_largest 3 [1; 2; 3; 0; 9]). lia. Defined.
