(* ===== verification/DisiQueue.v ===== *)
(** * [DisiQueue] ([lucene-search/src/exec/disjunction.rs])

    The binary min-heap of sub-scorer indices ordered by the sub-scorers'
    documents ([docs !! i] is [disis[i].doc]), or, for a few members, an
    unordered list that is scanned.  [None] is an index out of bounds.
    Proved: pushing and restoring the top keep the heap; the top is a least
    member; [top_list] is exactly the members on the top's document. *)
From stdpp Require Import sorting.
From S2P Require Export HeapTheory.

Record DisiQueue := mk_queue { members : list nat; linear : bool }.

Definition LINEAR_MAX : nat := 8.

Definition with_capacity (n : nat) : DisiQueue := mk_queue [] false.
Definition for_disjunction (n : nat) : DisiQueue := mk_queue [] (Nat.leb n LINEAR_MAX).

(** [disis[heap[k]].doc]. *)
Definition doc_at (docs : list Z) (heap : list nat) (k : nat) : option Z :=
  i ← heap !! k; docs !! i.

Fixpoint scan_from (docs : list Z) (best : nat) (rest : list nat) : option nat :=
  match rest with
  | [] => Some best
  | i :: rest =>
      d ← docs !! i; b ← docs !! best;
      scan_from docs (if d <? b then i else best) rest
  end.
Definition scan_min (q : DisiQueue) (docs : list Z) : option nat :=
  match members q with [] => None | b :: rest => scan_from docs b rest end.

(** [top_of]: [None] inside is an empty queue. *)
Definition top_of (q : DisiQueue) (docs : list Z) : option (option nat) :=
  if linear q && negb (Nat.eqb (length (members q)) 0)
  then i ← scan_min q docs; Some (Some i)
  else Some (head (members q)).

Fixpoint up_loop (fuel : nat) (docs : list Z) (heap : list nat) (at_ : nat) : option (list nat) :=
  match fuel with
  | O => None
  | S fuel =>
      if Nat.ltb 0 at_ then
        let parent := ((at_ - 1) / 2)%nat in
        d ← doc_at docs heap at_; p ← doc_at docs heap parent;
        if p <=? d then Some heap else up_loop fuel docs (swap heap at_ parent) parent
      else Some heap
  end.

Definition push (q : DisiQueue) (docs : list Z) (i : nat) : option DisiQueue :=
  let heap := members q ++ [i] in
  if linear q then Some (mk_queue heap true)
  else heap ← up_loop (length heap) docs heap (length heap - 1); Some (mk_queue heap false).

Fixpoint down_loop (fuel : nat) (docs : list Z) (heap : list nat) (at_ : nat) : option (list nat) :=
  match fuel with
  | O => None
  | S fuel =>
      let n := length heap in
      let left := (2 * at_ + 1)%nat in
      if Nat.leb n left then Some heap
      else
        let right := S left in
        child ← (if Nat.ltb right n
                 then r ← doc_at docs heap right; l ← doc_at docs heap left;
                      Some (if r <? l then right else left)
                 else Some left);
        c ← doc_at docs heap child; a ← doc_at docs heap at_;
        if a <=? c then Some heap else down_loop fuel docs (swap heap at_ child) child
  end.

Definition down_heap (q : DisiQueue) (docs : list Z) : option DisiQueue :=
  heap ← down_loop (S (length (members q))) docs (members q) 0; Some (mk_queue heap (linear q)).

(** [Vec::pop] takes the last member. *)
Definition pop (q : DisiQueue) (docs : list Z) : option (option nat * DisiQueue) :=
  match rev (members q) with
  | [] => Some (None, q)
  | last :: init =>
      match rev init with
      | [] => Some (Some last, mk_queue [] (linear q))
      | top :: rest =>
          q ← down_heap (mk_queue (last :: rest) (linear q)) docs; Some (Some top, q)
      end
  end.

Definition update_top (q : DisiQueue) (docs : list Z) : option (nat * DisiQueue) :=
  if linear q then i ← scan_min q docs; Some (i, q)
  else q ← down_heap q docs; i ← head (members q); Some (i, q).

Definition replace_top (q : DisiQueue) (docs : list Z) (i : nat) : option (nat * DisiQueue) :=
  match members q with
  | [] => None
  | _ :: rest => update_top (mk_queue (i :: rest) (linear q)) docs
  end.

(** The positions, breadth first, whose members are on [doc]. *)
Fixpoint list_loop (fuel : nat) (docs : list Z) (heap : list nat) (doc : Z) (out : list nat) (k : nat)
  : option (list nat) :=
  match fuel with
  | O => None
  | S fuel =>
      match out !! k with
      | None => Some out
      | Some at_ =>
          let on c := Nat.ltb c (length heap) && bool_decide (doc_at docs heap c = Some doc) in
          list_loop fuel docs heap doc
            (out ++ List.filter on [2 * at_ + 1; 2 * at_ + 2]%nat) (S k)
      end
  end.

Definition top_list (q : DisiQueue) (docs : list Z) : option (list nat) :=
  if linear q then
    top ← top_of q docs;
    match top with
    | None => Some []
    | Some top =>
        doc ← docs !! top;
        Some (List.filter (fun i => bool_decide (docs !! i = Some doc)) (members q))
    end
  else
    match members q with
    | [] => Some []
    | top :: _ =>
        doc ← docs !! top;
        out ← list_loop (S (length (members q))) docs (members q) doc [O] O;
        mapM (fun at_ => members q !! at_) out
    end.

(** ** The order of the heap *)
Definition key (docs : list Z) (i : nat) : Z := default 0 (docs !! i).
Definition by_doc (docs : list Z) (i j : nat) : Prop := key docs i <= key docs j.
Definition heaped (docs : list Z) : list nat -> Prop := heap (by_doc docs) 2.
Definition in_docs (docs : list Z) (h : list nat) : Prop := Forall (fun i => (i < length docs)%nat) h.

Lemma by_doc_refl docs i : by_doc docs i i.
Proof. unfold by_doc. lia. Qed.
Lemma by_doc_trans docs i j k : by_doc docs i j -> by_doc docs j k -> by_doc docs i k.
Proof. unfold by_doc. lia. Qed.
Lemma two_pos : (0 < 2)%nat.
Proof. lia. Qed.

Lemma key_lookup docs i : (i < length docs)%nat -> docs !! i = Some (key docs i).
Proof. intros H. unfold key. destruct (lookup_lt docs i H) as [d ->]. done. Qed.

Lemma in_docs_lookup docs h k i : in_docs docs h -> h !! k = Some i -> docs !! i = Some (key docs i).
Proof. intros H Hk. apply key_lookup. unfold in_docs in H. rewrite Forall_lookup in H. eauto. Qed.

Lemma doc_at_key docs h k i : in_docs docs h -> h !! k = Some i -> doc_at docs h k = Some (key docs i).
Proof. intros H Hk. unfold doc_at. rewrite Hk. cbn. by eapply in_docs_lookup. Qed.

Lemma in_docs_perm docs h h' : h ≡ₚ h' -> in_docs docs h -> in_docs docs h'.
Proof. unfold in_docs. by intros ->. Qed.

Lemma in_docs_swap docs h i j : in_docs docs h -> in_docs docs (swap h i j).
Proof. apply in_docs_perm. symmetry. apply swap_perm. Qed.

(** ** Scanning *)
Lemma scan_from_ok docs rest : forall best,
  in_docs docs (best :: rest) ->
  exists i, scan_from docs best rest = Some i /\ i ∈ best :: rest /\
    forall j, j ∈ best :: rest -> by_doc docs i j.
Proof.
  induction rest as [|x rest IH]; intros best Hd; cbn [scan_from].
  - exists best. split; [done|]. split; [by left|]. intros j ->%list_elem_of_singleton. apply by_doc_refl.
  - rewrite (in_docs_lookup docs (best :: x :: rest) 1 x), (in_docs_lookup docs (best :: x :: rest) 0 best) by done.
    cbn [mbind option_bind]. inversion Hd as [|? ? Hb Hd1]; subst. inversion Hd1 as [|? ? Hx Hd2]; subst.
    set (b := if _ <? _ then x else best).
    assert (Hbb : b = x \/ b = best) by (unfold b; destruct (_ <? _); auto).
    assert (Hbx : by_doc docs b x /\ by_doc docs b best).
    { unfold b, by_doc. destruct (Z.ltb_spec (key docs x) (key docs best)); lia. }
    destruct (IH b) as (i & Hi & Hin & Hmin); [constructor; [by destruct Hbb as [->| ->]|done]|].
    exists i. split; [done|]. split.
    + apply elem_of_cons in Hin as [->|Hin]; [|by do 2 right].
      destruct Hbb as [->| ->]; [right; by left|by left].
    + intros j Hj. assert (Hib : by_doc docs i b) by (apply Hmin; by left).
      apply elem_of_cons in Hj as [->|Hj]; [exact (by_doc_trans docs i b best Hib (proj2 Hbx))|].
      apply elem_of_cons in Hj as [->|Hj]; [exact (by_doc_trans docs i b x Hib (proj1 Hbx))|].
      apply Hmin. by right.
Qed.

(** ** The sift loops *)
Lemma parent2 i : ((i - 1) / 2)%nat = parent 2 i.
Proof. done. Qed.

Lemma queue_up_ok docs fuel : forall h i,
  (i < length h)%nat -> (i < fuel)%nat -> in_docs docs h ->
  hole (by_doc docs) 2 h i -> below_ok (by_doc docs) 2 h i ->
  exists h', up_loop fuel docs h i = Some h' /\ heaped docs h' /\ h' ≡ₚ h.
Proof.
  induction fuel as [|fuel IH]; intros h i Hi Hf Hd Hh Hb; [lia|].
  assert (Hfill : above_ok (by_doc docs) 2 h i -> exists h', Some h = Some h' /\ heaped docs h' /\ h' ≡ₚ h).
  { intros Ha. exists h. split; [done|]. split; [|done]. by eapply hole_filled. }
  cbn [up_loop]. destruct (Nat.ltb_spec 0 i) as [H0|H0]; [|apply Hfill; intros ?; lia].
  pose proof (parent_lt 2 two_pos i H0) as Hpl. rewrite parent2.
  destruct (lookup_lt h i Hi) as [x Hx]. destruct (lookup_lt h (parent 2 i)) as [p Hp]; [lia|].
  rewrite (doc_at_key docs h i x), (doc_at_key docs h (parent 2 i) p) by done. cbn [mbind option_bind].
  destruct (Z.leb_spec (key docs p) (key docs x)) as [Hle|Hlt].
  - apply Hfill. intros _ a b. rewrite Hx, Hp. by intros [= <-] [= <-].
  - destruct (sift_up (by_doc docs) 2 (by_doc_trans docs) two_pos h i x p) as [Hh' Hb'];
      [done|done|done|done|done|unfold by_doc; lia|].
    destruct (IH (swap h i (parent 2 i)) (parent 2 i)) as (h' & H1 & H2 & H3);
      [rewrite length_swap; lia|lia|by apply in_docs_swap|done|done|].
    exists h'. split; [done|]. split; [done|]. rewrite H3. apply swap_perm.
Qed.

(** The lesser child of [at], on the left when they are equal. *)
Lemma lesser_child docs h at_ l :
  in_docs docs h -> h !! (2 * at_ + 1)%nat = Some l ->
  exists c y,
    (if Nat.ltb (S (2 * at_ + 1)) (length h)
     then r ← doc_at docs h (S (2 * at_ + 1)); l ← doc_at docs h (2 * at_ + 1);
          Some (if r <? l then S (2 * at_ + 1) else (2 * at_ + 1)%nat)
     else Some (2 * at_ + 1)%nat) = Some c /\
    h !! c = Some y /\ child 2 at_ c /\
    forall c' z, child 2 at_ c' -> h !! c' = Some z -> by_doc docs y z.
Proof.
  intros Hd Hl. set (left := (2 * at_ + 1)%nat) in *.
  assert (Hch : forall c, child 2 at_ c <-> c = left \/ c = S left).
  { intros c. rewrite (child_iff 2 two_pos). unfold left. lia. }
  destruct (Nat.ltb_spec (S left) (length h)) as [Hr|Hr].
  - destruct (lookup_lt h (S left) Hr) as [r Hrr].
    rewrite (doc_at_key docs h (S left) r), (doc_at_key docs h left l) by done. cbn [mbind option_bind].
    destruct (Z.ltb_spec (key docs r) (key docs l)) as [Hlt|Hge].
    + exists (S left), r. split; [done|]. split; [done|]. split; [apply Hch; by right|].
      intros c' z [->| ->]%Hch Hz; unfold by_doc;
        [assert (z = l) as -> by congruence|assert (z = r) as -> by congruence]; lia.
    + exists left, l. split; [done|]. split; [done|]. split; [apply Hch; by left|].
      intros c' z [->| ->]%Hch Hz; unfold by_doc;
        [assert (z = l) as -> by congruence|assert (z = r) as -> by congruence]; lia.
  - exists left, l. split; [done|]. split; [done|]. split; [apply Hch; by left|].
    intros c' z [->| ->]%Hch Hz; [assert (z = l) as -> by congruence; apply by_doc_refl|].
    apply lookup_lt_Some in Hz. lia.
Qed.

Lemma queue_down_loop_ok docs fuel : forall h i,
  (i < length h)%nat -> (length h <= fuel + i)%nat -> in_docs docs h ->
  hole (by_doc docs) 2 h i -> above_ok (by_doc docs) 2 h i ->
  exists h', down_loop fuel docs h i = Some h' /\ heaped docs h' /\ h' ≡ₚ h.
Proof.
  induction fuel as [|fuel IH]; intros h i Hi Hf Hd Hh Ha; [lia|].
  assert (Hfill : below_ok (by_doc docs) 2 h i -> exists h', Some h = Some h' /\ heaped docs h' /\ h' ≡ₚ h).
  { intros Hb. exists h. split; [done|]. split; [|done]. by eapply hole_filled. }
  cbn [down_loop]. destruct (Nat.leb_spec (length h) (2 * i + 1)) as [Hno|Hyes].
  { apply Hfill. intros c Hc a b _ Hb. apply (child_iff 2 two_pos) in Hc. apply lookup_lt_Some in Hb. lia. }
  destruct (lookup_lt h (2 * i + 1) Hyes) as [l Hl]. destruct (lookup_lt h i Hi) as [x Hx].
  destruct (lesser_child docs h i l Hd Hl) as (c & y & -> & Hy & Hch & Hmin). cbn [mbind option_bind].
  rewrite (doc_at_key docs h c y), (doc_at_key docs h i x) by done. cbn [mbind option_bind].
  pose proof (parent_lt 2 two_pos c (proj1 Hch)) as Hlt. rewrite (proj2 Hch) in Hlt.
  destruct (Z.leb_spec (key docs x) (key docs y)) as [Hle|Hgt].
  - apply Hfill. intros c' Hc' a b. rewrite Hx. intros [= <-] Hb.
    eapply by_doc_trans; [exact Hle|by eapply Hmin].
  - destruct (sift_down (by_doc docs) 2 two_pos h i c x y) as [Hh' Ha'];
      [done|done|done|done|done|unfold by_doc; lia|done|].
    destruct (IH (swap h i c) c) as (h' & H1 & H2 & H3);
      [rewrite length_swap; by eapply lookup_lt_Some|rewrite length_swap; lia|by apply in_docs_swap|done|done|].
    exists h'. split; [done|]. split; [done|]. rewrite H3. apply swap_perm.
Qed.

(** ** The operations.  [queue_ok] is what a queue over [docs] keeps. *)
Definition queue_ok (q : DisiQueue) (docs : list Z) : Prop :=
  in_docs docs (members q) /\ (linear q = false -> heaped docs (members q)).

Lemma queue_new n docs : queue_ok (for_disjunction n) docs /\ queue_ok (with_capacity n) docs.
Proof. split; (split; [constructor|]); intros _ c Hc x y Hx; done. Qed.

Lemma queue_push_ok q docs i :
  queue_ok q docs -> (i < length docs)%nat ->
  exists q', push q docs i = Some q' /\ queue_ok q' docs /\ members q' ≡ₚ i :: members q /\ linear q' = linear q.
Proof.
  intros [Hd Hh] Hi. unfold push.
  assert (Hd' : in_docs docs (members q ++ [i])) by (apply Forall_app; split; [done|by repeat constructor]).
  destruct (linear q).
  - eexists. split; [done|]. split; [by split|]. split; [|done]. cbn. symmetry. apply Permutation_cons_append.
  - destruct (heap_snoc (by_doc docs) 2 two_pos (members q) i (Hh eq_refl)) as [H1 H2].
    rewrite length_app. cbn [length]. replace (length (members q) + 1 - 1)%nat with (length (members q)) by lia.
    destruct (queue_up_ok docs (length (members q) + 1) (members q ++ [i]) (length (members q)))
      as (h & -> & H3 & H4); [rewrite length_app; cbn; lia|lia|done|done|done|].
    exists (mk_queue h false). split; [done|]. split; [|split; [|done]].
    + split; [|done]. by eapply in_docs_perm.
    + cbn. rewrite H4. symmetry. apply Permutation_cons_append.
Qed.

(** Ordered but for the root: what the queue is after its top moved. *)
Definition top_moved (q : DisiQueue) (docs : list Z) : Prop :=
  in_docs docs (members q) /\ (linear q = false -> hole (by_doc docs) 2 (members q) O).

Lemma queue_ok_moved q docs : queue_ok q docs -> top_moved q docs.
Proof.
  intros [Hd Hh]. split; [done|]. intros Hl.
  exact (heap_hole (by_doc docs) 2 (by_doc_trans docs) two_pos _ _ (Hh Hl)).
Qed.

(** Only the member at the root has a new document. *)
Lemma moved_top docs docs' top rest lin :
  queue_ok (mk_queue (top :: rest) lin) docs -> NoDup (top :: rest) -> length docs' = length docs ->
  (forall i, i <> top -> docs' !! i = docs !! i) -> top_moved (mk_queue (top :: rest) lin) docs'.
Proof.
  intros [Hd Hh] Hnd Hlen Heq. split; [unfold in_docs; by rewrite Hlen|]. intros Hl. specialize (Hh Hl).
  split; [|lia]. intros c Hc Hc0 Hp0 x y Hx Hy. unfold by_doc, key.
  assert (Hne : forall k z, k <> O -> (top :: rest) !! k = Some z -> z <> top).
  { intros k z Hk Hz ->. apply Hk. by eapply NoDup_lookup. }
  rewrite (Heq x (Hne _ x Hp0 Hx)), (Heq y (Hne _ y Hc0 Hy)). exact (Hh c Hc x y Hx Hy).
Qed.

Lemma queue_down_ok q docs :
  top_moved q docs -> linear q = false ->
  exists q', down_heap q docs = Some q' /\ queue_ok q' docs /\ members q' ≡ₚ members q /\ linear q' = false.
Proof.
  intros [Hd Hh] Hl. unfold down_heap. destruct (members q) as [|top rest] eqn:Em.
  - exists (mk_queue [] (linear q)). split; [done|]. split; [|done]. split; [constructor|].
    intros _ c Hc x y Hx. done.
  - destruct (queue_down_loop_ok docs (S (length (top :: rest))) (top :: rest) 0) as (h & -> & H1 & H2);
      [cbn; lia|lia|done|by apply Hh|intros ?; lia|].
    exists (mk_queue h (linear q)). split; [done|]. split; [|done]. split; [by eapply in_docs_perm|done].
Qed.

(** A least member. *)
Definition least (q : DisiQueue) (docs : list Z) (top : nat) : Prop :=
  top ∈ members q /\ forall j, j ∈ members q -> by_doc docs top j.

Lemma scan_min_ok q docs :
  in_docs docs (members q) -> members q <> [] -> exists i, scan_min q docs = Some i /\ least q docs i.
Proof.
  intros Hd Hne. unfold scan_min, least. destruct (members q) as [|b rest] eqn:Em; [done|].
  destruct (scan_from_ok docs rest b Hd) as (i & H1 & H2 & H3). by exists i.
Qed.

Lemma head_least q docs :
  queue_ok q docs -> linear q = false -> members q <> [] ->
  exists top rest, members q = top :: rest /\ least q docs top.
Proof.
  intros [Hd Hh] Hl Hne. unfold least. destruct (members q) as [|top rest] eqn:Em; [done|].
  exists top, rest. split; [done|]. split; [by left|]. intros j (k & Hk)%list_elem_of_lookup.
  exact (heap_root (by_doc docs) 2 (by_doc_refl docs) (by_doc_trans docs) two_pos (top :: rest) top k j
    (Hh Hl) eq_refl Hk).
Qed.

Lemma queue_update_top_ok q docs :
  top_moved q docs -> members q <> [] ->
  exists top q', update_top q docs = Some (top, q') /\ queue_ok q' docs /\
    members q' ≡ₚ members q /\ linear q' = linear q /\ least q' docs top /\
    (linear q = false -> head (members q') = Some top).
Proof.
  intros Hm Hne. unfold update_top. destruct (linear q) eqn:El.
  - destruct (scan_min_ok q docs (proj1 Hm) Hne) as (i & -> & Hi). exists i, q. split; [done|].
    split; [split; [apply Hm|congruence]|]. by split_and!.
  - destruct (queue_down_ok q docs Hm El) as (q' & -> & Hq & Hp & Hl). cbn [mbind option_bind].
    destruct (head_least q' docs Hq Hl) as (top & rest & Ht & Hleast).
    { intros Hn. rewrite Hn in Hp. symmetry in Hp. by apply Permutation_nil_r in Hp. }
    exists top, q'. rewrite Ht at 1. split; [done|]. split; [done|]. split; [done|]. split; [congruence|].
    split; [done|]. by rewrite Ht.
Qed.

Lemma queue_top_of_ok q docs :
  queue_ok q docs -> members q <> [] -> exists top, top_of q docs = Some (Some top) /\ least q docs top /\
    (linear q = false -> head (members q) = Some top).
Proof.
  intros Hq Hne. unfold top_of. destruct (linear q) eqn:El; cbn [andb].
  - destruct (members q) as [|m ms] eqn:Em; [done|]. cbn [length Nat.eqb negb]. rewrite <- Em in *.
    destruct (scan_min_ok q docs (proj1 Hq) Hne) as (i & -> & Hi). by exists i.
  - destruct (head_least q docs Hq El Hne) as (top & rest & Ht & Hl). exists top. rewrite Ht. by split_and!.
Qed.

Lemma queue_replace_top_ok q docs i :
  queue_ok q docs -> members q <> [] -> (i < length docs)%nat ->
  exists top q' old rest, members q = old :: rest /\ replace_top q docs i = Some (top, q') /\
    queue_ok q' docs /\ members q' ≡ₚ i :: rest /\ least q' docs top.
Proof.
  intros [Hd Hh] Hne Hi. unfold replace_top. destruct (members q) as [|old rest] eqn:Em; [done|].
  destruct (queue_update_top_ok (mk_queue (i :: rest) (linear q)) docs) as (top & q' & -> & H1 & H2 & _ & H4 & _); [|done|].
  - split; [inversion Hd; by constructor|]. intros Hl.
    exact (heap_root_hole (by_doc docs) 2 two_pos (old :: rest) i (Hh Hl)).
  - by exists top, q', old, rest.
Qed.

Lemma queue_pop_ok q docs :
  queue_ok q docs -> linear q = false -> members q <> [] ->
  exists top q', pop q docs = Some (Some top, q') /\ queue_ok q' docs /\ top :: members q' ≡ₚ members q /\
    least q docs top /\ linear q' = false.
Proof.
  intros Hq Hl Hne. destruct (head_least q docs Hq Hl Hne) as (top & rest & Ht & Hleast).
  pose proof Hq as [Hd Hh]. specialize (Hh Hl). unfold pop. rewrite Ht in *.
  destruct (exists_last (l := top :: rest)) as (init & last & Hlast); [done|].
  rewrite Hlast, rev_app_distr. cbn [rev app]. rewrite rev_involutive. destruct init as [|t init].
  - injection Hlast as -> ->. exists last, (mk_queue [] (linear q)). split; [done|].
    split; [split; [constructor|intros _ c Hc x y Hx; done]|]. by split_and!.
  - injection Hlast as <- Hrest.
    assert (Hm : top_moved (mk_queue (last :: init) (linear q)) docs).
    { split.
      - apply (in_docs_perm docs (init ++ [last])); [apply Permutation_app_comm|].
        rewrite <- Hrest. by inversion Hd.
      - intros _. rewrite Hrest in Hh. apply (heap_app (by_doc docs) 2 (top :: init) [last]) in Hh.
        exact (heap_root_hole (by_doc docs) 2 two_pos (top :: init) last Hh). }
    destruct (queue_down_ok _ docs Hm Hl) as (q' & -> & H1 & H2 & H3). exists top, q'. split; [done|].
    split; [done|]. split; [|done]. rewrite H2. cbn. f_equiv. apply Permutation_cons_append.
Qed.

(** ** [top_list] *)
Lemma sorted_lt_nodup (l : list nat) : StronglySorted lt l -> NoDup l.
Proof.
  induction 1 as [|x l Hs IH Hf]; constructor; [|done]. rewrite Forall_forall in Hf.
  intros Hin. apply list_elem_of_In, Hf in Hin. lia.
Qed.

Lemma sorted_lt_lookup (l : list nat) i j a b :
  StronglySorted lt l -> l !! i = Some a -> l !! j = Some b -> (i < j)%nat -> (a < b)%nat.
Proof.
  intros Hs. revert i j. induction Hs as [|x l Hs IH Hf]; intros i j Hi Hj Hlt; [done|].
  destruct j as [|j]; [lia|]. destruct i as [|i].
  - injection Hi as <-. rewrite Forall_lookup in Hf. by eapply Hf.
  - by eapply (IH i j); [..|lia].
Qed.

Lemma nodup_bounded (l : list nat) n : NoDup l -> Forall (fun i => i < n)%nat l -> (length l <= n)%nat.
Proof.
  intros Hnd Hf. rewrite <- (length_seq n 0). apply submseteq_length, NoDup_submseteq; [done|].
  intros x Hx. rewrite Forall_forall in Hf. apply elem_of_seq. apply list_elem_of_In, Hf in Hx. lia.
Qed.

Section top_list.
Context (docs : list Z) (h : list nat) (doc : Z).
Definition on_doc (c : nat) : bool := Nat.ltb c (length h) && bool_decide (doc_at docs h c = Some doc).

Lemma on_doc_iff c : on_doc c = true <-> doc_at docs h c = Some doc.
Proof.
  unfold on_doc. rewrite andb_true_iff, Nat.ltb_lt, bool_decide_eq_true. split; [by intros []|].
  intros H. split; [|done]. unfold doc_at in H. destruct (h !! c) eqn:E; [by eapply lookup_lt_Some|done].
Qed.

(** [out] is ascending; what it holds at [k] has its children past [out]. *)
Definition listing (out : list nat) (k : nat) : Prop :=
  StronglySorted lt out /\ Forall (fun c => on_doc c = true) out /\ (k <= length out)%nat /\
  (forall at_ c, out !! k = Some at_ -> c ∈ out -> (c < 2 * at_ + 1)%nat) /\
  (forall j at_ c, (j < k)%nat -> out !! j = Some at_ -> child 2 at_ c -> on_doc c = true -> c ∈ out).

Lemma listing_length out k : listing out k -> (length out <= length h)%nat.
Proof.
  intros (Hs & Hon & _). apply nodup_bounded; [by apply sorted_lt_nodup|].
  eapply Forall_impl, Hon. intros c. unfold on_doc. rewrite andb_true_iff, Nat.ltb_lt. by intros [].
Qed.

Lemma children_sorted at_ : StronglySorted lt (List.filter on_doc [2 * at_ + 1; 2 * at_ + 2]%nat).
Proof. cbn [List.filter]. destruct (on_doc _), (on_doc _); repeat constructor; lia. Qed.

Lemma elem_of_children at_ c :
  c ∈ List.filter on_doc [2 * at_ + 1; 2 * at_ + 2]%nat <-> child 2 at_ c /\ on_doc c = true.
Proof.
  rewrite list_elem_of_In, filter_In, (child_iff 2 two_pos). cbn. intuition lia.
Qed.

Lemma listing_step out k at_ :
  listing out k -> out !! k = Some at_ ->
  listing (out ++ List.filter on_doc [2 * at_ + 1; 2 * at_ + 2]%nat) (S k).
Proof.
  intros (Hs & Hon & Hk & Hnext & Hdone) Hat. pose proof (lookup_lt_Some _ _ _ Hat) as Hkl.
  assert (Hall : forall c, c ∈ out ++ List.filter on_doc [2 * at_ + 1; 2 * at_ + 2]%nat -> (c <= 2 * at_ + 2)%nat).
  { intros c [Hc|[Hc _]%elem_of_children]%elem_of_app; [specialize (Hnext at_ c Hat Hc); lia|].
    apply (child_iff 2 two_pos) in Hc. lia. }
  assert (Hs' : StronglySorted lt (out ++ List.filter on_doc [2 * at_ + 1; 2 * at_ + 2]%nat)).
  { apply StronglySorted_app_2; [|done|apply children_sorted]. intros x y Hx [Hy _]%elem_of_children.
    specialize (Hnext at_ x Hat Hx). apply (child_iff 2 two_pos) in Hy. lia. }
  split; [done|]. split; [|split; [|split]].
  - apply Forall_app. split; [done|]. apply Forall_forall. by intros c [_ Hc]%list_elem_of_In%elem_of_children.
  - rewrite length_app. lia.
  - intros b c Hb Hc. specialize (Hall c Hc).
    assert (at_ < b)%nat; [|lia]. eapply (sorted_lt_lookup _ k (S k)); [exact Hs'| |exact Hb|lia].
    by apply lookup_app_l_Some.
  - intros j b c Hj Hb Hc Hcon. apply elem_of_app. destruct (decide (j = k)) as [->|].
    + rewrite lookup_app_l in Hb by done. assert (b = at_) as -> by congruence.
      right. by apply elem_of_children.
    + left. rewrite lookup_app_l in Hb by lia. apply (Hdone j b c); [lia|done..].
Qed.

Lemma list_loop_ok fuel : forall out k,
  listing out k -> (length h < fuel + k)%nat ->
  exists out', list_loop fuel docs h doc out k = Some out' /\ listing out' (length out') /\
    exists r, out' = out ++ r.
Proof.
  induction fuel as [|fuel IH]; intros out k Hl Hf.
  { pose proof (listing_length _ _ Hl). destruct Hl as (_ & _ & Hk & _). lia. }
  cbn [list_loop]. destruct (out !! k) as [at_|] eqn:Hat.
  - destruct (IH (out ++ List.filter on_doc [2 * at_ + 1; 2 * at_ + 2]%nat) (S k)) as (out' & H1 & H2 & r & H3);
      [by apply listing_step|lia|].
    exists out'. split; [exact H1|]. split; [done|]. eexists. rewrite H3, <- app_assoc. done.
  - exists out. split; [done|]. apply lookup_ge_None in Hat.
    assert (k = length out) as <- by (destruct Hl as (_ & _ & Hk & _); lia).
    split; [done|]. exists []. by rewrite app_nil_r.
Qed.

(** All the positions on [doc], when the root's document is [doc]. *)
Lemma listing_complete out r :
  in_docs docs h -> heaped docs h -> on_doc O = true -> listing out (length out) -> out = O :: r ->
  forall c, c ∈ out <-> on_doc c = true.
Proof.
  intros Hd Hh H0 (Hs & Hon & _ & _ & Hdone) Hout c. split.
  { rewrite Forall_forall in Hon. intros Hc%list_elem_of_In. auto. }
  induction c as [c IH] using lt_wf_ind. intros Hc. destruct (decide (c = O)) as [->|Hne].
  { rewrite Hout. by left. }
  pose proof (parent_lt 2 two_pos c ltac:(lia)) as Hlt.
  pose proof Hc as Hcd. rewrite on_doc_iff in Hcd. unfold doc_at in Hcd.
  destruct (h !! c) as [x|] eqn:Hx; [|done]. pose proof (lookup_lt_Some _ _ _ Hx) as Hcl.
  destruct (lookup_lt h (parent 2 c)) as [p Hp]; [lia|]. cbn in Hcd.
  rewrite (in_docs_lookup docs h c x) in Hcd by done. injection Hcd as Hcd.
  apply on_doc_iff in H0. unfold doc_at in H0. destruct (h !! O) as [r0|] eqn:Hr0; [|done]. cbn in H0.
  rewrite (in_docs_lookup docs h 0 r0) in H0 by done. injection H0 as H0.
  assert (Hpon : on_doc (parent 2 c) = true).
  { apply on_doc_iff. rewrite (doc_at_key docs h _ p) by done. f_equal.
    pose proof (Hh c ltac:(lia) p x Hp Hx).
    pose proof (heap_root (by_doc docs) 2 (by_doc_refl docs) (by_doc_trans docs) two_pos h r0 _ p Hh Hr0 Hp).
    unfold by_doc in *. lia. }
  destruct (list_elem_of_lookup_1 _ _ (IH _ Hlt Hpon)) as [j Hj].
  apply (Hdone j (parent 2 c) c); [by eapply lookup_lt_Some|done| |done]. split; [lia|done].
Qed.
End top_list.

Lemma mapM_positions (h out : list nat) :
  NoDup h -> NoDup out -> Forall (fun c => c < length h)%nat out ->
  exists l, mapM (fun at_ => h !! at_) out = Some l /\ NoDup l /\
    forall i, i ∈ l <-> exists c, c ∈ out /\ h !! c = Some i.
Proof.
  intros Hnd. induction 1 as [|c out Hc Hout IH]; intros Hf; cbn.
  - exists []. split; [done|]. split; [constructor|]. intros i. rewrite elem_of_nil. split; [done|].
    intros (c & Hc & _). by apply not_elem_of_nil in Hc.
  - inversion Hf as [|? ? Hc1 Hf1]; subst. destruct (IH Hf1) as (l & Hl & Hndl & Hel).
    destruct (lookup_lt h c Hc1) as [i Hi]. rewrite Hi. cbn. rewrite Hl. cbn. exists (i :: l). split; [done|].
    split.
    + constructor; [|done]. intros (c' & Hc' & Hi')%Hel. apply Hc.
      by rewrite (NoDup_lookup h c c' i Hnd Hi Hi').
    + intros j. rewrite elem_of_cons, Hel. split.
      * intros [->|(c' & H1 & H2)]; [exists c; split; [by left|done]|exists c'; split; [by right|done]].
      * intros (c' & [->|H1]%elem_of_cons & H2); [left; congruence|right; by exists c'].
Qed.

Lemma top_list_ok q docs :
  queue_ok q docs -> NoDup (members q) ->
  exists l, top_list q docs = Some l /\ NoDup l /\
    forall top, least q docs top -> forall i, i ∈ l <-> i ∈ members q /\ key docs i = key docs top.
Proof.
  intros Hq Hnd. pose proof Hq as [Hd Hh]. unfold top_list. destruct (linear q) eqn:El.
  - destruct (decide (members q = [])) as [He|Hne].
    + unfold top_of. rewrite He, andb_false_r. exists []. split; [done|]. split; [constructor|].
      intros top [Ht _]. rewrite He in Ht. by apply not_elem_of_nil in Ht.
    + destruct (queue_top_of_ok q docs Hq Hne) as (top & -> & Hl & _). cbn [mbind option_bind].
      assert (Hk : forall i, i ∈ members q -> docs !! i = Some (key docs i)).
      { intros i [k Hk]%list_elem_of_lookup. by eapply in_docs_lookup. }
      rewrite (Hk top (proj1 Hl)). cbn [mbind option_bind]. eexists. split; [done|].
      split; [by apply NoDup_ListNoDup, List.NoDup_filter, NoDup_ListNoDup|].
      intros top' [Ht' Hl'] i. rewrite list_elem_of_In, filter_In, <- list_elem_of_In, bool_decide_eq_true.
      assert (Heq : key docs top' = key docs top).
      { destruct Hl as [Ht Hl]. specialize (Hl _ Ht'). specialize (Hl' _ Ht). unfold by_doc in *. lia. }
      rewrite Heq. split; intros [Hi H]; (split; [done|]); rewrite (Hk i Hi) in *; congruence.
  - specialize (Hh eq_refl). destruct (members q) as [|top rest] eqn:Em.
    + exists []. split; [done|]. split; [constructor|].
      intros t [Ht _]. rewrite Em in Ht. by apply not_elem_of_nil in Ht.
    + rewrite (in_docs_lookup docs (top :: rest) 0 top) by done. cbn [mbind option_bind].
      set (h := top :: rest) in *. set (doc := key docs top).
      assert (H0 : on_doc docs h doc O = true).
      { apply on_doc_iff. by apply (doc_at_key docs h 0 top). }
      assert (Hlist : listing docs h doc [O] O).
      { split; [repeat constructor|]. split; [by repeat constructor|]. split; [cbn; lia|].
        split; [|intros; lia]. intros a c [= <-] ->%list_elem_of_singleton. lia. }
      destruct (list_loop_ok docs h doc (S (length h)) [O] O Hlist) as (out & Hout & Hl & r & Hr); [lia|].
      rewrite Hout. cbn [mbind option_bind].
      pose proof (listing_complete docs h doc out r Hd Hh H0 Hl Hr) as Hcomp.
      destruct (mapM_positions h out) as (l & Hm & Hndl & Hel).
      * done.
      * apply sorted_lt_nodup, Hl.
      * apply Forall_forall. intros c Hc%list_elem_of_In%Hcomp. unfold on_doc in Hc.
        rewrite andb_true_iff, Nat.ltb_lt in Hc. apply Hc.
      * exists l. split; [exact Hm|]. split; [done|]. intros t [Ht Hleast] i. rewrite Em in *.
        assert (Hkt : key docs t = doc).
        { pose proof (Hleast top ltac:(by left)). apply list_elem_of_lookup in Ht as [k Hk].
          pose proof (heap_root (by_doc docs) 2 (by_doc_refl docs) (by_doc_trans docs) two_pos h top k t Hh eq_refl Hk).
          unfold by_doc in *. unfold doc. lia. }
        rewrite Hel, Hkt. split.
        -- intros (c & Hc%Hcomp%on_doc_iff & Hi). rewrite (doc_at_key docs h c i) in Hc by done.
           split; [by eapply list_elem_of_lookup_2|congruence].
        -- intros [[c Hc]%list_elem_of_lookup Hk]. exists c. split; [|done]. apply Hcomp, on_doc_iff.
           rewrite (doc_at_key docs h c i) by done. by rewrite Hk.
Qed.
