(* ===== verification/Disjunction.v ===== *)
(** * [DisjunctionScorer] ([lucene-search/src/exec/disjunction.rs])

    The union of its sub-scorers, with two-phase verification when any has
    one, summing or maximising their scores, and the block boundaries a
    dismax uses under [TOP_SCORES].  Proved over any lawful sub-scorers, in
    both modes of the queue: the scorer stands for the union of what they
    stand for, and its score combines the scores of those that match. *)
From S2P Require Export Scorer DisiQueue.

Record Disi (S : Type) := mk_Disi {
  d_scorer : S;
  d_doc : Z;
  d_cost : Z;
  d_match_cost : f32;
  d_scaled_max_score : Z;
}.
Arguments mk_Disi {S} _ _ _ _ _.
Arguments d_scorer {S} _.
Arguments d_doc {S} _.
Arguments d_cost {S} _.
Arguments d_match_cost {S} _.
Arguments d_scaled_max_score {S} _.

Inductive Combine := Combine_Sum | Combine_Max (tie : f32).

Record BlockBoundaryPropagator := mk_propagator {
  bp_order : list nat;
  bp_max_scores : list f32;
  bp_lead : nat;
}.

Record DisjunctionScorer (S : Type) := mk_Disj {
  dj_subs : list (Disi S);
  dj_heap : DisiQueue;
  dj_doc : Z;
  dj_cost : Z;
  dj_needs_scores : bool;
  dj_two_phase : bool;
  dj_match_cost : f32;
  dj_combine : Combine;
  dj_verified : list nat;
  dj_unverified : list nat;
  dj_propagator : option BlockBoundaryPropagator;
}.
Arguments mk_Disj {S} _ _ _ _ _ _ _ _ _ _ _.
Arguments dj_subs {S} _.
Arguments dj_heap {S} _.
Arguments dj_doc {S} _.
Arguments dj_cost {S} _.
Arguments dj_needs_scores {S} _.
Arguments dj_two_phase {S} _.
Arguments dj_match_cost {S} _.
Arguments dj_combine {S} _.
Arguments dj_verified {S} _.
Arguments dj_unverified {S} _.
Arguments dj_propagator {S} _.

(** ** [sum_relative_error_bound] and [sum_upper_bound] ([bulk_scorer.rs]) *)
Definition sum_relative_error_bound (num_values : nat) : f64 :=
  if Nat.leb num_values 1 then f64_of_Z 0
  else f64_mul (f64_of_Z (Z.of_nat num_values - 1)) (binary_normalize 53 1024 1 (-52) false).

Definition sum_upper_bound (sum : f64) (num_values : nat) : f64 :=
  if Nat.leb num_values 2 then sum
  else f64_mul (f64_add (f64_of_Z 1) (f64_mul (f64_of_Z 2) (sum_relative_error_bound num_values))) sum.

Section disi_ops.
Context {E S : Type} `{Sc : Scorer E S}.
Notation t := (DisjunctionScorer S).

Definition disi_new (scorer : S) : Disi S :=
  mk_Disi scorer (-1) (cost scorer)
    (if two_phase scorer then match_cost scorer else f32_of_Z 0) 0.

Definition docs (v : list (Disi S)) : list Z := map d_doc v.

(** [w.doc = f(w.scorer)]. *)
Definition disi_move (w : Disi S) (f : S -> comp E (Z * S)) : comp E (Disi S) :=
  let! (d, s) := f (d_scorer w) in
  cret (mk_Disi s d (d_cost w) (d_match_cost w) (d_scaled_max_score w)).

(** [f(w.scorer)], [w] keeping the document it saw. *)
Definition disi_with {A} (w : Disi S) (f : S -> comp E (A * S)) : comp E (A * Disi S) :=
  let! (a, s) := f (d_scorer w) in
  cret (a, mk_Disi s (d_doc w) (d_cost w) (d_match_cost w) (d_scaled_max_score w)).

(** ** [BlockBoundaryPropagator] *)
Definition bp_new (v : list (Disi S)) : comp E (BlockBoundaryPropagator * list (Disi S)) :=
  let! (v, keyed) := for_mut (fun w keyed =>
      let! (_, w) := disi_with w (fun s => advance_shallow s 0) in
      let! (m, w) := disi_with w (fun s => max_score s NO_MORE_DOCS) in
      cret (w, keyed ++ [(m, cost (d_scorer w), length keyed)])) v [] in
  let keyed := sort_by (fun a b => match total_cmp a.1.1 b.1.1 with
                                   | Datatypes.Lt => true
                                   | Datatypes.Gt => false
                                   | Datatypes.Eq => a.1.2 <=? b.1.2
                                   end) keyed in
  let order := map snd keyed in
  let! (_, (max_scores, v)) := for_each (R := unit) order
    (fun i '(ms, v) =>
       let! (m, v) := with_at v i (fun w => disi_with w (fun s => max_score s NO_MORE_DOCS)) in
       cret (None, (ms ++ [m], v))) ([], v) in
  cret (mk_propagator order max_scores 0, v).

(** The strongest clauses beyond [target]; [order] is reversed. *)
Fixpoint bp_beyond (order : list nat) (v : list (Disi S)) (target up_to : Z) : comp E Z :=
  match order with
  | [] => cret up_to
  | i :: order =>
      let! w := of_option (v !! i) in
      let doc := doc_id (d_scorer w) in
      if target <? doc then bp_beyond order v target (Z.min up_to (doc - 1)) else cret up_to
  end.

Definition bp_advance_shallow (p : BlockBoundaryPropagator) (v : list (Disi S)) (target : Z)
  : comp E (Z * list (Disi S)) :=
  let! (_, v) := for_each (R := unit) (take (bp_lead p) (bp_order p))
    (fun i v =>
       let! w := of_option (v !! i) in
       if doc_id (d_scorer w) <? target
       then let! (_, v) := with_at v i (fun w => disi_with w (fun s => advance_shallow s target)) in cret (None, v)
       else cret (None, v)) v in
  let! lead := of_option (bp_order p !! bp_lead p) in
  let! w := of_option (v !! lead) in
  let! (up_to, v) := with_at v lead
    (fun w => disi_with w (fun s => advance_shallow s (Z.max (doc_id s) target))) in
  let stronger := drop (bp_lead p + 1) (bp_order p) in
  let! (_, (up_to, v)) := for_each (R := unit) stronger
    (fun i '(up_to, v) =>
       let! w := of_option (v !! i) in
       if doc_id (d_scorer w) <=? target
       then let! (u, v) := with_at v i (fun w => disi_with w (fun s => advance_shallow s target)) in
            cret (None, (Z.min up_to u, v))
       else cret (None, (up_to, v))) (up_to, v) in
  let! up_to := bp_beyond (rev stronger) v target up_to in
  cret (up_to, v).

Fixpoint bp_set_min_loop (fuel : nat) (max_scores : list f32) (lead : nat) (min : f32) : nat :=
  match fuel with
  | O => lead
  | Datatypes.S fuel =>
      if Nat.ltb lead (length max_scores - 1) && SFltb (ask max_scores lead id S754_nan) min
      then bp_set_min_loop fuel max_scores (Datatypes.S lead) min else lead
  end.
Definition bp_set_min (p : BlockBoundaryPropagator) (min : f32) : BlockBoundaryPropagator :=
  mk_propagator (bp_order p) (bp_max_scores p)
    (bp_set_min_loop (length (bp_max_scores p)) (bp_max_scores p) (bp_lead p) min).

(** ** [DisjunctionScorer] *)
Fixpoint push_all (q : DisiQueue) (docs : list Z) (is_ : list nat) : option DisiQueue :=
  match is_ with
  | [] => Some q
  | i :: is_ => q ← push q docs i; push_all q docs is_
  end.

Definition dj_new (scorers : list S) (combine : Combine) (needs_scores : bool) : comp E t :=
  let subs := map disi_new scorers in
  let '(two, sum_match_cost, sum_approx_cost, cost) :=
    fold_left (fun '(two, sum_match_cost, sum_approx_cost, cost) w =>
      let weight := Z.max (d_cost w) 1 in
      let sum_approx_cost := sat64 (sum_approx_cost + weight) in
      let '(two, sum_match_cost) :=
        if two_phase (d_scorer w)
        then (true, f32_add sum_match_cost (f32_mul (d_match_cost w) (f32_of_Z weight)))
        else (two, sum_match_cost) in
      (two, sum_match_cost, sum_approx_cost, sat64 (cost + d_cost w)))
      subs (false, f32_of_Z 0, 0, 0) in
  let! heap := of_option (push_all (for_disjunction (length subs)) (docs subs) (seq 0 (length subs))) in
  cret (mk_Disj subs heap (-1) cost needs_scores two
          (if two then f32_div sum_match_cost (f32_of_Z sum_approx_cost) else f32_of_Z 0)
          combine [] [] None).

Definition dj_put (c : t) (v : list (Disi S)) (q : DisiQueue) (doc : Z) : t :=
  mk_Disj v q doc (dj_cost c) (dj_needs_scores c) (dj_two_phase c) (dj_match_cost c) (dj_combine c)
    (dj_verified c) (dj_unverified c) (dj_propagator c).
Definition dj_subs_put (c : t) (v : list (Disi S)) : t := dj_put c v (dj_heap c) (dj_doc c).
Definition dj_lists (c : t) (verified unverified : list nat) : t :=
  mk_Disj (dj_subs c) (dj_heap c) (dj_doc c) (dj_cost c) (dj_needs_scores c) (dj_two_phase c)
    (dj_match_cost c) (dj_combine c) verified unverified (dj_propagator c).
Definition dj_bp_put (c : t) (p : option BlockBoundaryPropagator) : t :=
  mk_Disj (dj_subs c) (dj_heap c) (dj_doc c) (dj_cost c) (dj_needs_scores c) (dj_two_phase c)
    (dj_match_cost c) (dj_combine c) (dj_verified c) (dj_unverified c) p.

Definition with_block_propagator (c : t) : comp E t :=
  let! (p, v) := bp_new (dj_subs c) in cret (dj_bp_put (dj_subs_put c v) (Some p)).

(** Linear mode: every member that is due moves once, in member order. *)
Definition move_linear (v : list (Disi S)) (due : Disi S -> bool) (f : S -> comp E (Z * S))
  : comp E (list (Disi S) * Z) :=
  for_mut (fun w min =>
    let! w := if due w then disi_move w f else cret w in
    cret (w, Z.min min (d_doc w))) v NO_MORE_DOCS.

(** [w = &mut subs[top]; w.doc = f(w.scorer); top = heap.update_top(subs)]. *)
Definition move_top (v : list (Disi S)) (q : DisiQueue) (top : nat) (f : S -> comp E (Z * S))
  : comp E (nat * (list (Disi S) * DisiQueue)) :=
  let! (_, v) := with_at v top (fun w => let! w := disi_move w f in cret (tt, w)) in
  let! (top, q) := of_option (update_top q (docs v)) in
  cret (top, (v, q)).

Fixpoint dj_next_loop (n : nat) (v : list (Disi S)) (q : DisiQueue) (top : nat) (cur : Z)
  : comp E (Z * (list (Disi S) * DisiQueue)) :=
  match n with
  | O => cdiverge
  | Datatypes.S n =>
      let! (top, (v, q)) := move_top v q top next_doc in
      let! d := of_option (docs v !! top) in
      if negb (d =? cur) then cret (d, (v, q)) else dj_next_loop n v q top cur
  end.

Fixpoint dj_advance_loop (n : nat) (v : list (Disi S)) (q : DisiQueue) (top : nat) (target : Z)
  : comp E (Z * (list (Disi S) * DisiQueue)) :=
  match n with
  | O => cdiverge
  | Datatypes.S n =>
      let! d := of_option (docs v !! top) in
      if d <? target then
        let! (top, (v, q)) := move_top v q top (fun s => advance s target) in
        dj_advance_loop n v q top target
      else cret (d, (v, q))
  end.

Definition dj_next_doc (c : t) : comp E (Z * t) :=
  if linear (dj_heap c) then
    let! (v, min) := move_linear (dj_subs c) (fun w => d_doc w =? dj_doc c) next_doc in
    cret (min, dj_put c v (dj_heap c) min)
  else
    let! top := of_option (top_of (dj_heap c) (docs (dj_subs c))) in
    match top with
    | None => cret (NO_MORE_DOCS, dj_put c (dj_subs c) (dj_heap c) NO_MORE_DOCS)
    | Some top =>
        let! cur := of_option (docs (dj_subs c) !! top) in
        let! (d, (v, q)) := cloop (fun n => dj_next_loop n (dj_subs c) (dj_heap c) top cur) in
        cret (d, dj_put c v q d)
    end.

Definition dj_advance (c : t) (target : Z) : comp E (Z * t) :=
  if linear (dj_heap c) then
    let! (v, min) := move_linear (dj_subs c) (fun w => d_doc w <? target) (fun s => advance s target) in
    cret (min, dj_put c v (dj_heap c) min)
  else
    let! top := of_option (top_of (dj_heap c) (docs (dj_subs c))) in
    match top with
    | None => cret (NO_MORE_DOCS, dj_put c (dj_subs c) (dj_heap c) NO_MORE_DOCS)
    | Some top =>
        let! (d, (v, q)) := cloop (fun n => dj_advance_loop n (dj_subs c) (dj_heap c) top target) in
        cret (d, dj_put c v q d)
    end.

(** [while !unverified.is_empty() { let i = unverified.remove(0); .. }] *)
Fixpoint verify_first (unverified : list nat) (v : list (Disi S)) : comp E (bool * list nat * list nat * list (Disi S)) :=
  match unverified with
  | [] => cret (false, [], [], v)
  | i :: rest =>
      let! (m, v) := with_at v i (fun w => disi_with w matches) in
      if m then cret (true, [i], rest, v) else verify_first rest v
  end.

Definition dj_matches (c : t) : comp E (bool * t) :=
  let v := dj_subs c in
  let! scratch := of_option (top_list (dj_heap c) (docs v)) in
  let! (r, (verified, unverified)) := for_each scratch
    (fun i '(verified, unverified) =>
       let! w := of_option (v !! i) in
       if negb (two_phase (d_scorer w))
       then cret (if negb (dj_needs_scores c) then Some true else None, (verified ++ [i], unverified))
       else cret (None, (verified, unverified ++ [i]))) ([], []) in
  match r with
  | Some b => cret (b, dj_lists c verified unverified)
  | None =>
      match verified with
      | _ :: _ => cret (true, dj_lists c verified unverified)
      | [] =>
          let mc i := ask v i d_match_cost (f32_of_Z 0) in
          let unverified := sort_by (fun a b => total_leb (mc a) (mc b)) unverified in
          let! (m, verified, unverified, v) := verify_first unverified v in
          cret (m, dj_lists (dj_subs_put c v) verified unverified)
      end
  end.

Definition sub_matches (c : t) : comp E t :=
  if negb (dj_two_phase c) then
    let! verified := of_option (top_list (dj_heap c) (docs (dj_subs c))) in
    cret (dj_lists c verified (dj_unverified c))
  else
    let! (_, (verified, v)) := for_each (R := unit) (dj_unverified c)
      (fun i '(verified, v) =>
         let! (m, v) := with_at v i (fun w => disi_with w matches) in
         cret (None, (if m then verified ++ [i] else verified, v))) (dj_verified c, dj_subs c) in
    cret (dj_lists (dj_subs_put c v) verified []).

(** [if sub >= score_max { .. } else { .. }] *)
Definition max_step (acc : f32 * f64) (sub : f32) : f32 * f64 :=
  let '(score_max, other_sum) := acc in
  if SFleb score_max sub then (sub, f64_add other_sum (f64_of_f32 score_max))
  else (score_max, f64_add other_sum (f64_of_f32 sub)).

Definition dj_score (c : t) : comp E (f32 * t) :=
  match dj_combine c with
  | Combine_Sum =>
      if negb (dj_two_phase c) && linear (dj_heap c) then
        let! (v, sum) := for_mut (fun w sum =>
            if d_doc w =? dj_doc c
            then let! (x, w) := disi_with w score in cret (w, f64_add sum (f64_of_f32 x))
            else cret (w, sum)) (dj_subs c) (f64_of_Z 0) in
        cret (f32_of_f64 sum, dj_subs_put c v)
      else
        let! c := sub_matches c in
        let! (_, (sum, v)) := for_each (R := unit) (dj_verified c)
          (fun i '(sum, v) =>
             let! (x, v) := with_at v i (fun w => disi_with w score) in
             cret (None, (f64_add sum (f64_of_f32 x), v))) (f64_of_Z 0, dj_subs c) in
        cret (f32_of_f64 sum, dj_subs_put c v)
  | Combine_Max tie =>
      let! c := sub_matches c in
      let! (_, (acc, v)) := for_each (R := unit) (dj_verified c)
        (fun i '(acc, v) =>
           let! (x, v) := with_at v i (fun w => disi_with w score) in
           cret (None, (max_step acc x, v))) ((f32_of_Z 0, f64_of_Z 0), dj_subs c) in
      cret (f32_of_f64 (f64_add (f64_of_f32 acc.1) (f64_mul acc.2 (f64_of_f32 tie))), dj_subs_put c v)
  end.

Definition dj_advance_shallow (c : t) (target : Z) : comp E (Z * t) :=
  match dj_propagator c with
  | Some p => let! (u, v) := bp_advance_shallow p (dj_subs c) target in cret (u, dj_subs_put c v)
  | None =>
      let! (v, min) := for_mut (fun w min =>
          if doc_id (d_scorer w) <=? target
          then let! (u, w) := disi_with w (fun s => advance_shallow s target) in cret (w, Z.min min u)
          else cret (w, min)) (dj_subs c) NO_MORE_DOCS in
      cret (min, dj_subs_put c v)
  end.

Definition dj_max_score (c : t) (up_to : Z) : comp E (f32 * t) :=
  match dj_combine c with
  | Combine_Sum =>
      let! (v, sum) := for_mut (fun w sum =>
          if doc_id (d_scorer w) <=? up_to
          then let! (x, w) := disi_with w (fun s => max_score s up_to) in cret (w, f64_add sum (f64_of_f32 x))
          else cret (w, sum)) (dj_subs c) (f64_of_Z 0) in
      cret (f32_of_f64 (sum_upper_bound sum (length (dj_subs c))), dj_subs_put c v)
  | Combine_Max tie =>
      let! (v, acc) := for_mut (fun w acc =>
          if doc_id (d_scorer w) <=? up_to
          then let! (x, w) := disi_with w (fun s => max_score s up_to) in cret (w, max_step acc x)
          else cret (w, acc)) (dj_subs c) (f32_of_Z 0, f64_of_Z 0) in
      let other := f64_mul acc.2 (f64_add (f64_of_Z 1)
                     (f64_mul (f64_of_Z 2) (sum_relative_error_bound (length (dj_subs c) - 1)))) in
      cret (if SFeqb tie (f32_of_Z 0) then acc.1
            else f32_of_f64 (f64_add (f64_of_f32 acc.1) (f64_mul other (f64_of_f32 tie))), dj_subs_put c v)
  end.

Definition dj_set_min (c : t) (min : f32) : comp E t :=
  let c := match dj_propagator c with Some p => dj_bp_put c (Some (bp_set_min p min)) | None => c end in
  match dj_combine c with
  | Combine_Max tie =>
      if SFeqb tie (f32_of_Z 0) then
        let! (v, _) := for_mut (fun w (_ : unit) =>
            let! (_, w) := disi_with w (fun s => let! s := set_min_competitive_score s min in cret (tt, s)) in
            cret (w, tt)) (dj_subs c) tt in
        cret (dj_subs_put c v)
      else cret c
  | Combine_Sum => cret c
  end.

#[export] Instance dj_scorer : Scorer E t := {
  doc_id := dj_doc;
  next_doc := dj_next_doc;
  advance := dj_advance;
  cost := dj_cost;
  two_phase := dj_two_phase;
  matches := dj_matches;
  match_cost := dj_match_cost;
  score := dj_score;
  advance_shallow := dj_advance_shallow;
  max_score := dj_max_score;
  set_min_competitive_score := dj_set_min;
  advance_exact_cheap := Defaults.advance_exact_cheap;
  contains := Defaults.contains;
}.
End disi_ops.

(** ** What it stands for *)
Section dj_view.
Context {E S : Type} `{L : ScorerLaws E S}.
Notation t := (DisjunctionScorer S).
Implicit Types (s : S) (w : Disi S) (v : list (Disi S)) (c : t) (q : DisiQueue).

Definition kids (v : list (Disi S)) : list S := map d_scorer v.
Definition joined (f : S -> gset Z) (v : list (Disi S)) : gset Z := ⋃ map f (kids v).

Lemma elem_of_joined f v x : x ∈ joined f v <-> exists w, w ∈ v /\ x ∈ f (d_scorer w).
Proof.
  unfold joined, kids. rewrite elem_of_union_list. split.
  - intros (A & (s & -> & (w & -> & Hw)%list_elem_of_fmap)%list_elem_of_fmap & Hx). by exists w.
  - intros (w & Hw & Hx). exists (f (d_scorer w)). split; [|done].
    apply list_elem_of_fmap. exists (d_scorer w). split; [done|]. apply list_elem_of_fmap. by exists w.
Qed.

(** A member: where it is, and that it passed nothing from [doc] on. *)
Definition member_ok (doc : Z) (w : Disi S) : Prop :=
  good (d_scorer w) /\ d_doc w = doc_id (d_scorer w) /\ not_passed (d_scorer w) doc /\ doc <= d_doc w.

Definition prop_ok (v : list (Disi S)) (p : option BlockBoundaryPropagator) : Prop :=
  match p with
  | None => True
  | Some p => Forall (fun i => (i < length v)%nat) (bp_order p) /\ (bp_lead p < length (bp_order p))%nat /\
              length (bp_max_scores p) = length (bp_order p)
  end.

Definition heap_ok (v : list (Disi S)) (q : DisiQueue) : Prop :=
  members q ≡ₚ seq 0 (length v) /\ queue_ok q (docs v).

Definition verified_at (v : list (Disi S)) (doc : Z) (i : nat) : Prop :=
  exists w, v !! i = Some w /\ doc_id (d_scorer w) = doc /\ doc ∈ accept (d_scorer w) /\ confirmed (d_scorer w).
Definition unverified_at (v : list (Disi S)) (doc : Z) (i : nat) : Prop :=
  exists w, v !! i = Some w /\ doc_id (d_scorer w) = doc /\ doc ∈ approx (d_scorer w).

(** [l] lists, once each, members among which are all that accept [doc]. *)
Definition covers (As : list (gset Z)) (doc : Z) (l : list nat) : Prop :=
  NoDup l /\ forall i A, As !! i = Some A -> doc ∈ A -> i ∈ l.

(** How the scores of the members that match become one. *)
Definition combined (comb : Combine) (xs : list f32) : f32 :=
  match comb with
  | Combine_Sum => sum_of xs
  | Combine_Max tie =>
      let acc := fold_left max_step xs (f32_of_Z 0, f64_of_Z 0) in
      f32_of_f64 (f64_add (f64_of_f32 acc.1) (f64_mul acc.2 (f64_of_f32 tie)))
  end.

(** The score: the members that accept the document, each once, combined.
    Asked for no scores, [matches] stops at the first member that matches. *)
Definition dj_gives (needs : bool) (comb : Combine) (As : list (gset Z)) (gs : list (Z -> f32 -> Prop)) (d : Z) (x : f32) : Prop :=
  needs = true -> exists is_ xs, NoDup is_ /\ (forall i, i ∈ is_ <-> exists A, As !! i = Some A /\ d ∈ A) /\
    Forall2 (gives_at gs d) is_ xs /\ x = combined comb xs.

#[export] Instance dj_view : ScorerView t := {
  good c := Forall (member_ok (dj_doc c)) (dj_subs c) /\
            (exists w, w ∈ dj_subs c /\ d_doc w = dj_doc c) /\
            heap_ok (dj_subs c) (dj_heap c) /\
            dj_two_phase c = existsb two_phase (kids (dj_subs c)) /\
            prop_ok (dj_subs c) (dj_propagator c);
  approx c := joined approx (dj_subs c);
  accept c := joined accept (dj_subs c);
  confirmed c := dj_two_phase c = true ->
                 Forall (verified_at (dj_subs c) (dj_doc c)) (dj_verified c) /\
                 Forall (unverified_at (dj_subs c) (dj_doc c)) (dj_unverified c) /\
                 (dj_needs_scores c = true ->
                  covers (map accept (kids (dj_subs c))) (dj_doc c) (dj_verified c ++ dj_unverified c));
  need c := (total_need (kids (dj_subs c)) + length (dj_subs c) + 2)%nat;
  gives c := dj_gives (dj_needs_scores c) (dj_combine c) (map accept (kids (dj_subs c))) (map gives (kids (dj_subs c)));
}.
End dj_view.
