(* ===== verification/DisjunctionLaws.v ===== *)
(** * Laws of [DisjunctionScorer]

    That the scorer of [Disjunction.v] honours the contract of [Scorer.v]: it
    moves to the documents of the union of its sub-scorers' approximations,
    [matches] decides the union of what they accept, and the score combines
    those of the sub-scorers that match, each once ([dj_gives]). *)
From S2P Require Export Disjunction.

Section dj_laws.
Context {E S : Type} `{L : ScorerLaws E S}.
Notation t := (DisjunctionScorer S).
Implicit Types (s : S) (w : Disi S) (v : list (Disi S)) (c : t) (q : DisiQueue).

(** *** A member that stays where it is *)
Definition kept (w w' : Disi S) : Prop :=
  good (d_scorer w') /\ same (d_scorer w) (d_scorer w') /\
  doc_id (d_scorer w') = doc_id (d_scorer w) /\ d_doc w' = d_doc w /\
  (doc_id (d_scorer w) ∈ accept (d_scorer w) -> confirmed (d_scorer w) -> confirmed (d_scorer w')).
Notation all_kept := (Forall2 kept).

Lemma kept_refl w : good (d_scorer w) -> kept w w.
Proof. intros H. split_and!; done. Qed.

Lemma all_kept_refl v : Forall (fun w => good (d_scorer w)) v -> all_kept v v.
Proof. intros H. apply Forall_Forall2_diag. eapply Forall_impl, H. apply kept_refl. Qed.

Lemma kept_trans w1 w2 w3 : kept w1 w2 -> kept w2 w3 -> kept w1 w3.
Proof.
  intros (_ & A2 & A3 & A4 & A5) (B1 & B2 & B3 & B4 & B5).
  split; [done|]. split; [by eapply same_trans|]. split; [congruence|]. split; [congruence|].
  intros Ha Hc. apply B5; [|by apply A5]. rewrite A3. by rewrite (proj1 (proj2 A2)).
Qed.

Lemma all_kept_insert v0 v i w w' :
  all_kept v0 v -> v !! i = Some w -> kept w w' -> all_kept v0 (<[i := w']> v).
Proof.
  intros H Hi Hk. destruct (Forall2_lookup_r _ _ _ _ _ H Hi) as (w0 & H0 & Hk0).
  rewrite <- (list_insert_id v0 i w0 H0). apply Forall2_insert; [done|]. by eapply kept_trans.
Qed.

Lemma all_kept_same v0 v : all_kept v0 v -> all_same (kids v0) (kids v).
Proof. unfold all_same, kids. induction 1 as [|w w' l k Hk H IH]; cbn; constructor; [apply Hk|done]. Qed.

Lemma all_kept_docs v0 v : all_kept v0 v -> docs v = docs v0.
Proof. unfold docs. induction 1 as [|w w' l k Hk H IH]; cbn; [done|]. f_equal; [apply Hk|done]. Qed.

Lemma all_kept_good v0 v : all_kept v0 v -> Forall (fun w => good (d_scorer w)) v.
Proof. induction 1 as [|w w' l k Hk H IH]; constructor; [apply Hk|done]. Qed.

Lemma same_joined v0 v : all_same (kids v0) (kids v) -> joined approx v = joined approx v0 /\ joined accept v = joined accept v0.
Proof. intros H. unfold joined. by rewrite (all_same_approx _ _ H), (all_same_accept _ _ H). Qed.

Lemma same_existsb v0 v : all_same (kids v0) (kids v) -> existsb two_phase (kids v) = existsb two_phase (kids v0).
Proof.
  unfold all_same. induction 1 as [|s s' l k (_ & _ & Ht & _) H IH]; cbn; [done|]. by rewrite Ht, IH.
Qed.

Lemma kept_member doc w w' : kept w w' -> member_ok doc w -> member_ok doc w'.
Proof.
  intros (Hg & Hs & Hd & Hdd & _) (_ & H1 & H2 & H3). split; [done|]. split; [congruence|].
  split; [|congruence]. intros x. rewrite (proj1 Hs), Hd. apply H2.
Qed.

Lemma all_kept_members doc v0 v : all_kept v0 v -> Forall (member_ok doc) v0 -> Forall (member_ok doc) v.
Proof.
  induction 1 as [|w w' l k Hk H IH]; intros Hf; inversion Hf; subst; constructor; [by eapply kept_member|auto].
Qed.

Lemma all_kept_length v0 v : all_kept v0 v -> length v0 = length v.
Proof. apply Forall2_length. Qed.

Lemma all_kept_at v0 v d : all_kept v0 v -> (exists w, w ∈ v0 /\ d_doc w = d) -> exists w, w ∈ v /\ d_doc w = d.
Proof.
  intros H (w & [i Hi]%list_elem_of_lookup & Hd). destruct (Forall2_lookup_l _ _ _ _ _ H Hi) as (w' & Hi' & Hk).
  exists w'. split; [by eapply list_elem_of_lookup_2|]. destruct Hk as (_ & _ & _ & -> & _). done.
Qed.

Lemma same_put c v q d :
  all_same (kids (dj_subs c)) (kids v) -> same c (dj_put c v q d).
Proof.
  intros H. destruct (same_joined _ _ H) as [H1 H2]. split; [done|]. split; [done|]. split; [done|]. split.
  - change (total_need (kids v) + length v + 2 = total_need (kids (dj_subs c)) + length (dj_subs c) + 2)%nat.
    rewrite (all_same_need _ _ H). apply all_same_length in H. unfold kids in H. rewrite !length_map in H. lia.
  - cbn. fold (kids v). by rewrite (all_same_accept _ _ H), (all_same_gives _ _ H).
Qed.

Lemma all_kept_accept v0 v : all_kept v0 v -> map accept (kids v) = map accept (kids v0).
Proof. intros H. by apply all_same_accept, all_kept_same. Qed.

Lemma verified_kept v0 v doc i : all_kept v0 v -> verified_at v0 doc i -> verified_at v doc i.
Proof.
  intros Hk (w & Hi & Hd & Ha & Hcf).
  destruct (Forall2_lookup_l _ _ _ _ _ Hk Hi) as (w' & Hi' & (_ & Hs & Hd' & _ & Hc')).
  exists w'. split; [done|]. split; [congruence|].
  split; [by rewrite (proj1 (proj2 Hs))|]. apply Hc'; [by rewrite Hd|done].
Qed.

Lemma unverified_kept v0 v doc i : all_kept v0 v -> unverified_at v0 doc i -> unverified_at v doc i.
Proof.
  intros Hk (w & Hi & Hd & Ha). destruct (Forall2_lookup_l _ _ _ _ _ Hk Hi) as (w' & Hi' & (_ & Hs & Hd' & _)).
  exists w'. split; [done|]. split; [congruence|]. by rewrite (proj1 Hs).
Qed.

(** A step that only keeps the members. *)
Lemma put_kept c v :
  good c -> all_kept (dj_subs c) v -> stays c (dj_subs_put c v).
Proof.
  intros (Hm & Hat & [Hp Hq] & Ht & Hb) Hk. pose proof (all_kept_length _ _ Hk) as Hl.
  split; [|split; [apply same_put, all_kept_same, Hk|split; [done|]]].
  - split; [by eapply all_kept_members|]. split; [by eapply all_kept_at|].
    split; [split|].
    + change (members (dj_heap c) ≡ₚ seq 0 (length v)). by rewrite <- Hl.
    + change (queue_ok (dj_heap c) (docs v)). by rewrite (all_kept_docs _ _ Hk).
    + split.
      * change (dj_two_phase c = existsb two_phase (kids v)). by rewrite (same_existsb _ _ (all_kept_same _ _ Hk)).
      * change (prop_ok v (dj_propagator c)). destruct (dj_propagator c); [|done].
        unfold prop_ok in *. by rewrite <- Hl.
  - intros Hc Htwo. destruct (Hc Htwo) as (Hv & Hu & Hcov). split; [|split].
    + eapply Forall_impl, Hv. intros i. by apply verified_kept.
    + eapply Forall_impl, Hu. intros i. by apply unverified_kept.
    + intros Hns. cbn. fold (kids v). rewrite (all_kept_accept _ _ Hk). exact (Hcov Hns).
Qed.

Lemma member_good c w : good c -> w ∈ dj_subs c -> member_ok (dj_doc c) w.
Proof. intros (Hm & _) Hw. rewrite Forall_forall in Hm. apply Hm. by apply list_elem_of_In. Qed.

Lemma kids_need v i w : v !! i = Some w -> (need (d_scorer w) <= total_need (kids v))%nat.
Proof. intros Hi. apply (need_le _ i). unfold kids. by rewrite list_lookup_fmap, Hi. Qed.

(** *** Calls on a member *)
Definition set_scorer (w : Disi S) s : Disi S :=
  mk_Disi s (d_doc w) (d_cost w) (d_match_cost w) (d_scaled_max_score w).

Lemma stays_kept w s : stays (d_scorer w) s -> kept w (set_scorer w s).
Proof. intros (A1 & A2 & A3 & A4). do 4 (split; [done|]). intros _. exact A4. Qed.

Lemma disi_with_ok {A} w (f : S -> comp E (A * S)) n :
  wp (f (d_scorer w)) n (holds (d_scorer w)) -> wp (disi_with w f) n (fun r => kept w r.2).
Proof.
  intros H. unfold disi_with. wp_bind. wp_use H. intros [a s] Hst. wp_ret. by apply stays_kept.
Qed.

Lemma with_at_kept {A} v0 v i w (f : S -> comp E (A * S)) n :
  all_kept v0 v -> v !! i = Some w -> wp (f (d_scorer w)) n (holds (d_scorer w)) ->
  wp (with_at v i (fun w => disi_with w f)) n (fun r => all_kept v0 r.2).
Proof.
  intros Hk Hi H. eapply wp_with_at; [done|]. wp_use (disi_with_ok w f n H).
  intros [a w'] Hw. cbn in *. by eapply all_kept_insert.
Qed.

(** A loop over the members each of whose steps keeps the member. *)
Lemma for_mut_kept {Acc} (body : Disi S -> Acc -> comp E (Disi S * Acc)) v n acc :
  (forall i w acc, v !! i = Some w -> wp (body w acc) n (fun r => kept w r.1)) ->
  wp (for_mut body v acc) n (fun r => all_kept v r.1).
Proof.
  intros Hb. wp_use (wp_for_mut (fun pre pre' (_ : Acc) => all_kept pre pre') body n v); [|constructor|].
  - intros pre w post pre' acc' Hv HI. wp_use (Hb (length pre) w acc').
    + rewrite Hv, lookup_app_r, Nat.sub_diag by lia. done.
    + intros [w' acc''] Hk. cbn in *. apply Forall2_app; [done|by constructor].
  - intros [v' acc']. done.
Qed.

(** [advance_shallow] and [max_score]: reads of every member. *)
Lemma reading_loop {Acc A} v n (cond : Disi S -> bool) (f : S -> comp E (A * S)) (upd : Acc -> A -> Acc) acc :
  Forall (fun w => good (d_scorer w)) v ->
  (forall i w, v !! i = Some w -> wp (f (d_scorer w)) n (holds (d_scorer w))) ->
  wp (for_mut (fun w acc => if cond w then let! (x, w) := disi_with w f in cret (w, upd acc x) else cret (w, acc)) v acc) n
    (fun r => all_kept v r.1).
Proof.
  intros Hg Hf. apply for_mut_kept. intros i w acc' Hi. destruct (cond w).
  - wp_bind. wp_use (disi_with_ok w f n (Hf i w Hi)). intros [x w'] Hk. by wp_ret.
  - wp_ret. apply kept_refl. rewrite Forall_lookup in Hg. by eapply Hg.
Qed.

Lemma good_members c : good c -> Forall (fun w => good (d_scorer w)) (dj_subs c).
Proof. intros (Hm & _). eapply Forall_impl, Hm. by intros w []. Qed.

Lemma sub_need c n i w : (need c <= n)%nat -> dj_subs c !! i = Some w -> (need (d_scorer w) <= n)%nat.
Proof. cbn. intros Hn Hi. pose proof (kids_need _ _ _ Hi). lia. Qed.

Lemma sub_good c i w : good c -> dj_subs c !! i = Some w -> good (d_scorer w).
Proof. intros Hg Hi. eapply (member_good c w Hg). by eapply list_elem_of_lookup_2. Qed.

Lemma kept_index v0 v i : all_kept v0 v -> (i < length v0)%nat ->
  exists w0 w, v0 !! i = Some w0 /\ v !! i = Some w /\ kept w0 w.
Proof.
  intros H Hi. destruct (lookup_lt v0 i Hi) as [w0 H0].
  destruct (Forall2_lookup_l _ _ _ _ _ H H0) as (w & H1 & H2). eauto.
Qed.

Lemma kept_call n v0 v i w {A} (f : S -> comp E (A * S)) :
  all_kept v0 v -> v !! i = Some w -> (total_need (kids v0) <= n)%nat ->
  (forall s, good s -> (need s <= n)%nat -> wp (f s) n (holds s)) ->
  wp (with_at v i (fun w => disi_with w f)) n (fun r => all_kept v0 r.2).
Proof.
  intros Hk Hi Hn Hf. eapply with_at_kept; [done|done|].
  pose proof (all_kept_good _ _ Hk) as Hg. rewrite Forall_lookup in Hg. apply Hf; [by eapply Hg|].
  pose proof (kids_need v i w Hi). rewrite (all_same_need _ _ (all_kept_same _ _ Hk)) in H. lia.
Qed.

(** *** The propagator *)
Notation bounded v := (Forall (fun i => (i < length v)%nat)).

Lemma bp_beyond_ok n order v target up_to :
  bounded v order -> wp (bp_beyond order v target up_to) n (fun _ => True).
Proof.
  revert up_to. induction order as [|i order IH]; intros up_to H; cbn [bp_beyond]; [by wp_ret|].
  inversion H as [|? ? Hi Ho]; subst. destruct (lookup_lt v i Hi) as [w Hw].
  wp_bind. eapply wp_of_option; [exact Hw|]. destruct (_ <? _); [by apply IH|by wp_ret].
Qed.

Lemma bounded_kept v0 v l : all_kept v0 v -> bounded v0 l -> bounded v l.
Proof. intros H. by rewrite (all_kept_length _ _ H). Qed.

Lemma bp_shallow_ok n p v target :
  prop_ok v (Some p) -> Forall (fun w => good (d_scorer w)) v -> 0 <= target -> (total_need (kids v) <= n)%nat ->
  wp (bp_advance_shallow p v target) n (fun r => all_kept v r.2).
Proof.
  intros (Ho & Hlead & _) Hg Ht Hn. unfold bp_advance_shallow.
  assert (Hcall : forall v1 i w u, all_kept v v1 -> v1 !! i = Some w -> 0 <= u ->
    wp (with_at v1 i (fun w => disi_with w (fun s => advance_shallow s u))) n (fun r => all_kept v r.2)).
  { intros v1 i w u Hk Hi Hu. eapply kept_call; [done|done|done|]. intros s Hs Hns. by apply shallow_ok. }
  wp_bind. wp_use (wp_for_each (fun xs v1 => all_kept v v1 /\ bounded v xs)
    _ n (fun r => all_kept v r.2)).
  { intros i xs v1 [Hk Hb]. inversion Hb as [|? ? Hi Hb']; subst.
    destruct (kept_index v v1 i Hk Hi) as (w0 & w & _ & Hw & _). wp_bind. eapply wp_of_option; [exact Hw|].
    destruct (_ <? _); [|by wp_ret]. wp_bind. wp_use (Hcall v1 i w target Hk Hw Ht). intros [u v2] Hk2. by wp_ret. }
  { by intros v1 [Hk _]. }
  { split; [by apply all_kept_refl|by apply Forall_take]. }
  intros [r v1] Hk. cbn [snd] in Hk.
  destruct (lookup_lt (bp_order p) (bp_lead p) Hlead) as [lead Hl].
  wp_bind. eapply wp_of_option; [exact Hl|]. rewrite Forall_lookup in Ho. specialize (Ho _ _ Hl) as Hll.
  destruct (kept_index v v1 lead Hk Hll) as (w0 & w & _ & Hw & _).
  wp_bind. eapply wp_of_option; [exact Hw|]. wp_bind.
  wp_use (kept_call n v v1 lead w (fun s => advance_shallow s (Z.max (doc_id s) target)) Hk Hw Hn).
  { intros s Hs Hns. apply shallow_ok; [done|lia|done]. }
  intros [up_to v2] Hk2. cbn [snd] in Hk2. wp_bind.
  assert (Hst : bounded v (drop (bp_lead p + 1) (bp_order p))) by (apply Forall_drop, Forall_lookup, Ho).
  wp_use (wp_for_each (fun xs (st : Z * list (Disi S)) => all_kept v st.2 /\ bounded v xs)
    _ n (fun r => all_kept v r.2.2)).
  { intros i xs [u v3] [Hk3 Hb]. inversion Hb as [|? ? Hi Hb']; subst. cbn [snd] in Hk3.
    destruct (kept_index v v3 i Hk3 Hi) as (w1 & w2 & _ & Hw2 & _). wp_bind. eapply wp_of_option; [exact Hw2|].
    destruct (_ <=? _); [|by wp_ret]. wp_bind. wp_use (Hcall v3 i w2 target Hk3 Hw2 Ht). intros [u' v4] Hk4. by wp_ret. }
  { by intros [u v3] [Hk3 _]. }
  { by split. }
  intros [r2 [u v3]] Hk3. cbn [snd] in Hk3. wp_bind. wp_use bp_beyond_ok.
  { apply Forall_rev. by eapply bounded_kept. }
  intros u' _. by wp_ret.
Qed.

Lemma sorted_indices {A} (leb : A * nat -> A * nat -> bool) keyed k :
  map snd keyed = seq 0 k -> map snd (sort_by leb keyed) ≡ₚ seq 0 k.
Proof. intros H. rewrite (sort_by_perm leb keyed), H. done. Qed.

Lemma bp_new_ok n v :
  Forall (fun w => good (d_scorer w)) v -> v <> [] -> (total_need (kids v) <= n)%nat ->
  wp (bp_new v) n (fun r => all_kept v r.2 /\ prop_ok r.2 (Some r.1)).
Proof.
  intros Hg Hne Hn. unfold bp_new. wp_bind.
  wp_use (wp_for_mut (fun pre pre' (keyed : list (f32 * Z * nat)) =>
    all_kept pre pre' /\ map snd keyed = seq 0 (length pre)) _ n v); [|split; [constructor|done]|].
  { intros pre w post pre' keyed Hv [HI Hk].
    assert (Hi : v !! length pre = Some w) by (by rewrite Hv, lookup_app_r, Nat.sub_diag by lia).
    pose proof (kids_need _ _ _ Hi) as Hnw. rewrite Forall_lookup in Hg. specialize (Hg _ _ Hi).
    wp_bind. wp_use (disi_with_ok w (fun s => advance_shallow s 0) n); [apply shallow_ok; [done|lia|lia]|].
    intros [u w1] Hk1. cbn [snd] in Hk1. pose proof Hk1 as (Hg1 & (_ & _ & _ & Hn1 & _) & _). wp_bind.
    wp_use (disi_with_ok w1 (fun s => max_score s NO_MORE_DOCS) n); [apply max_score_ok; [done|lia]|].
    intros [m w2] Hk2. cbn [snd] in Hk2. wp_ret. split.
    - apply Forall2_app; [done|]. constructor; [by eapply kept_trans|done].
    - rewrite map_app, length_app, Hk. cbn. rewrite Nat.add_1_r, seq_S. cbn.
      replace (length keyed) with (length (map snd keyed)) by (by rewrite length_map).
      by rewrite Hk, length_seq. }
  intros [v1 keyed] [Hk1 Hkeys]. cbn [fst snd] in *. set (sorted := sort_by _ keyed).
  assert (Hp : map snd sorted ≡ₚ seq 0 (length v)) by (by apply sorted_indices).
  assert (Hb : bounded v (map snd sorted)).
  { apply Forall_forall. intros i Hi%list_elem_of_In. rewrite Hp in Hi. apply elem_of_seq in Hi. lia. }
  wp_bind.
  wp_use (wp_for_each (fun xs (st : list f32 * list (Disi S)) => all_kept v st.2 /\ bounded v xs /\
      (length st.1 + length xs)%nat = length (map snd sorted))
    _ n (fun r => all_kept v r.2.2 /\ length r.2.1 = length (map snd sorted))).
  { intros i xs [ms v2] (Hk2 & Hb2 & Hl). inversion Hb2 as [|? ? Hi Hb']; subst. cbn [fst snd] in *.
    destruct (kept_index v v2 i Hk2 Hi) as (w1 & w2 & _ & Hw2 & _). wp_bind.
    wp_use (kept_call n v v2 i w2 (fun s => max_score s NO_MORE_DOCS) Hk2 Hw2 Hn).
    { intros s Hs Hns. by apply max_score_ok. }
    intros [m v3] Hk3. wp_ret. split; [done|]. split; [done|]. rewrite length_app. cbn in *. lia. }
  { intros [ms v2] (Hk2 & _ & Hl). cbn in *. split; [done|lia]. }
  { split; [done|]. split; [done|]. done. }
  intros [r [ms v2]] [Hk2 Hl]. cbn [fst snd] in *. wp_ret. split; [done|]. split_and!; cbn.
  - by eapply bounded_kept.
  - apply Permutation_length in Hp. rewrite length_seq in Hp. rewrite Hp. destruct v; [done|cbn; lia].
  - done.
Qed.

Lemma bp_set_min_lead fuel ms lead min :
  (lead < length ms)%nat -> (bp_set_min_loop fuel ms lead min < length ms)%nat.
Proof.
  revert lead. induction fuel as [|fuel IH]; intros lead Hl; cbn [bp_set_min_loop]; [done|].
  destruct (Nat.ltb_spec lead (length ms - 1)); cbn [andb]; [|done]. destruct (SFltb _ _); [apply IH; lia|done].
Qed.

Lemma bp_set_min_ok v p min : prop_ok v (Some p) -> prop_ok v (Some (bp_set_min p min)).
Proof.
  intros (H1 & H2 & H3). split; [done|]. split; [|done]. cbn. rewrite <- H3. apply bp_set_min_lead. lia.
Qed.

(** *** Moving on: every member reaches [t] without passing a document *)
Definition reached (t : Z) (w w' : Disi S) : Prop :=
  good (d_scorer w') /\ same (d_scorer w) (d_scorer w') /\ d_doc w' = doc_id (d_scorer w') /\
  not_passed (d_scorer w') t.

Lemma member_reached doc t w : member_ok doc w -> doc <= t -> reached t w w.
Proof.
  intros (H1 & H2 & H3 & _) Ht. split; [done|]. split; [done|]. split; [done|].
  by eapply not_passed_later.
Qed.

Lemma reached_trans t w1 w2 w3 : reached t w1 w2 -> reached t w2 w3 -> reached t w1 w3.
Proof. intros (_ & H1 & _) (H2 & H3 & H4). split; [done|]. split; [by eapply same_trans|done]. Qed.

Lemma moved_reached t w d s :
  lands (d_scorer w) t (d, s) -> reached t w (mk_Disi s d (d_cost w) (d_match_cost w) (d_scaled_max_score w)).
Proof.
  intros (Hg & Hs & Hd & Hf). cbn [fst snd] in *. split; [done|]. split; [done|]. split; [done|].
  intros x. cbn. rewrite (proj1 Hs), Hd. intros Hx Hle. by apply Hf.
Qed.

Lemma reached_all_same t v0 v : Forall2 (reached t) v0 v -> all_same (kids v0) (kids v).
Proof. unfold all_same, kids. induction 1 as [|w w' l k (_ & Hs & _) H IH]; cbn; by constructor. Qed.

Lemma reached_doc_range t v0 v w : Forall2 (reached t) v0 v -> w ∈ v -> -1 <= d_doc w <= NO_MORE_DOCS.
Proof.
  intros H [i Hi]%list_elem_of_lookup. destruct (Forall2_lookup_r _ _ _ _ _ H Hi) as (w0 & _ & (Hg & _ & -> & _)).
  by apply doc_id_range.
Qed.

(** The state a move leaves: [d] is the least document and at least [t]. *)
Lemma settle c t v q d :
  good c -> dj_doc c < t -> Forall2 (reached t) (dj_subs c) v -> heap_ok v q ->
  (forall w, w ∈ v -> d <= d_doc w) -> (exists w, w ∈ v /\ d_doc w = d) -> t <= d ->
  lands c t (d, dj_put c v q d).
Proof.
  intros (Hm & Hat & Hh & Ht & Hb) Hlt Hr Hq Hmin Hd Htd. pose proof (reached_all_same _ _ _ Hr) as Hs.
  split; [|split; [by apply same_put|split; [done|]]].
  - split; [|split; [done|split; [done|split]]].
    + apply Forall_forall. intros w Hw%list_elem_of_In. pose proof Hw as [i Hi]%list_elem_of_lookup.
      destruct (Forall2_lookup_r _ _ _ _ _ Hr Hi) as (w0 & _ & (H1 & _ & H2 & H3)).
      split; [done|]. split; [done|]. split; [|by apply Hmin]. by eapply not_passed_later.
    + change (dj_two_phase c = existsb two_phase (kids v)). by rewrite (same_existsb _ _ Hs).
    + change (prop_ok v (dj_propagator c)). unfold prop_ok in *. by rewrite <- (Forall2_length Hr).
  - cbn [fst]. split; [done|]. change (approx c) with (joined approx (dj_subs c)).
    rewrite <- (proj1 (same_joined _ _ Hs)). split.
    + destruct Hd as (w & Hw & Hwd). pose proof Hw as [i Hi]%list_elem_of_lookup.
      destruct (Forall2_lookup_r _ _ _ _ _ Hr Hi) as (w0 & _ & (H1 & _ & H2 & H3)).
      pose proof (doc_id_range _ H1). destruct Hat as (w1 & Hw1 & Hd1).
      rewrite Forall_forall in Hm. pose proof (Hm w1 ltac:(by apply list_elem_of_In)) as (Hgw1 & Hdw1 & _).
      pose proof (doc_id_range _ Hgw1).
      destruct (decide (d = NO_MORE_DOCS)); [by left|right]. apply elem_of_joined. exists w. split; [done|].
      assert (d = doc_id (d_scorer w)) as -> by congruence. apply doc_id_positioned; [done|lia].
    + intros x (w & Hw & Hx)%elem_of_joined Hle. pose proof Hw as [i Hi]%list_elem_of_lookup.
      destruct (Forall2_lookup_r _ _ _ _ _ Hr Hi) as (w0 & _ & (H1 & _ & H2 & H3)).
      specialize (Hmin w Hw). specialize (H3 x Hx Hle). lia.
Qed.

(** *** Linear mode *)
Lemma move_linear_ok c n (due : Disi S -> bool) (f : S -> comp E (Z * S)) t :
  good c -> dj_doc c < t -> t <= NO_MORE_DOCS ->
  (forall i w, dj_subs c !! i = Some w ->
     if due w then wp (f (d_scorer w)) n (lands (d_scorer w) t) else t <= d_doc w) ->
  linear (dj_heap c) = true ->
  wp (move_linear (dj_subs c) due f) n
    (fun r : list (Disi S) * Z => lands c t (r.2, dj_put c r.1 (dj_heap c) r.2)).
Proof.
  intros Hg Hdt Ht Hf Hlin. pose proof Hg as (Hm & (w0 & Hw0 & _) & [Hp Hq] & _). unfold move_linear.
  wp_use (wp_for_mut (fun pre pre' min => Forall2 (reached t) pre pre' /\ Forall (fun w => t <= d_doc w) pre' /\
      Forall (fun w => min <= d_doc w) pre' /\
      (min = NO_MORE_DOCS \/ exists w, w ∈ pre' /\ d_doc w = min)) _ n (dj_subs c)).
  - intros pre w post pre' min Hv (H1 & H2 & H3 & H4).
    assert (Hi : dj_subs c !! length pre = Some w) by (by rewrite Hv, lookup_app_r, Nat.sub_diag by lia).
    assert (Hstep : forall w', reached t w w' -> t <= d_doc w' ->
      wp (cret (E := E) (w', Z.min min (d_doc w'))) n (fun r : Disi S * Z => Forall2 (reached t) (pre ++ [w]) (pre' ++ [r.1]) /\
        Forall (fun w => t <= d_doc w) (pre' ++ [r.1]) /\ Forall (fun w => r.2 <= d_doc w) (pre' ++ [r.1]) /\
        (r.2 = NO_MORE_DOCS \/ exists w, w ∈ pre' ++ [r.1] /\ d_doc w = r.2))).
    { intros w' Hr Hle. wp_ret. split; [by apply Forall2_app; [|constructor]|].
      split; [apply Forall_app; by repeat constructor|]. split.
      - apply Forall_app. split; [|constructor; [lia|done]]. eapply Forall_impl, H3. cbn. intros; lia.
      - destruct (Z.min_spec min (d_doc w')) as [[_ ->]|[_ ->]].
        + destruct H4 as [|(x & Hx & Hxd)]; [by left|right]. exists x. split; [set_solver|done].
        + right. exists w'. split; [set_solver|done]. }
    specialize (Hf _ _ Hi). wp_bind. destruct (due w).
    + unfold disi_move. wp_bind. wp_use Hf. intros [d s] Hl. wp_ret. apply Hstep; [by apply moved_reached|].
      cbn. destruct Hl as (_ & _ & _ & Hl). by apply first_at_le in Hl.
    + wp_ret. apply Hstep; [|done]. eapply member_reached; [|apply Z.lt_le_incl, Hdt].
      eapply member_good; [done|]. by eapply list_elem_of_lookup_2.
  - split; [constructor|]. split; [constructor|]. split; [constructor|by left].
  - intros [v min] (H1 & H2 & H3 & H4). cbn [fst snd] in *. rewrite Forall_forall in H2, H3.
    assert (Hwit : exists w, w ∈ v).
    { destruct v as [|w v]; [|exists w; by left]. inversion H1 as [He|]. rewrite <- He in Hw0.
      by apply not_elem_of_nil in Hw0. }
    assert (Hex : exists w, w ∈ v /\ d_doc w = min).
    { destruct H4 as [->|]; [|done]. destruct Hwit as [w Hw]. exists w. split; [done|].
      pose proof (reached_doc_range _ _ _ w H1 Hw). specialize (H3 w ltac:(by apply list_elem_of_In)). lia. }
    apply settle; [done|done|done| |intros; apply H3; by apply list_elem_of_In|done|].
    + split; [by rewrite <- (Forall2_length H1)|]. split; [|congruence].
      destruct Hq as [Hq _]. unfold in_docs, docs in *. rewrite length_map in *. by rewrite <- (Forall2_length H1).
    + destruct Hex as (w & Hw & <-). apply H2. by apply list_elem_of_In.
Qed.

(** *** Heap mode *)
Definition behind (t : Z) (v : list (Disi S)) : nat := length (filter (fun w => d_doc w < t) v).

Lemma behind_le t v : (behind t v <= length v)%nat.
Proof. apply length_filter. Qed.

Lemma behind_insert t v i w w' :
  v !! i = Some w -> d_doc w < t -> t <= d_doc w' -> (behind t (<[i := w']> v) < behind t v)%nat.
Proof.
  unfold behind. intros Hi H1 H2. revert i Hi. induction v as [|x v IH]; intros [|i] Hi; cbn in Hi; [done|done| |].
  - injection Hi as ->. change (<[O := w']> (w :: v)) with (w' :: v). rewrite !filter_cons. rewrite decide_False by lia. rewrite decide_True by done. cbn. lia.
  - change (<[Datatypes.S i := w']> (x :: v)) with (x :: <[i := w']> v). rewrite !filter_cons. specialize (IH i Hi). case_decide; cbn; [by apply le_n_S|exact IH].
Qed.

Lemma docs_insert v i w' : docs (<[i := w']> v) = <[i := d_doc w']> (docs v).
Proof. unfold docs. apply list_fmap_insert. Qed.

Definition heaping (v0 : list (Disi S)) (t : Z) (v : list (Disi S)) (q : DisiQueue) (top : nat) : Prop :=
  Forall2 (reached t) v0 v /\ heap_ok v q /\ linear q = false /\ head (members q) = Some top /\
  least q (docs v) top.

Lemma move_top_ok n v0 t v q top w (f : S -> comp E (Z * S)) :
  heaping v0 t v q top -> v !! top = Some w -> d_doc w < t -> wp (f (d_scorer w)) n (lands (d_scorer w) t) ->
  wp (move_top v q top f) n
    (fun r => heaping v0 t r.2.1 r.2.2 r.1 /\ (behind t r.2.1 < behind t v)%nat /\
              exists w', r.2.1 = <[top := w']> v /\ t <= d_doc w').
Proof.
  intros (Hr & [Hp Hq] & Hlin & Hhd & _) Hw Hlt Hf. unfold move_top. wp_bind.
  eapply wp_with_at; [exact Hw|]. wp_bind. unfold disi_move. wp_bind. wp_use Hf. intros [d s] Hl. wp_ret. wp_ret.
  set (w' := mk_Disi s d _ _ _).
  assert (Hle : t <= d_doc w') by (destruct Hl as (_ & _ & _ & Hl); by apply first_at_le in Hl).
  assert (Hnd : NoDup (members q)) by (rewrite Hp; apply NoDup_seq).
  assert (Hm : top_moved q (docs (<[top := w']> v))).
  { destruct q as [[|m ms] lin]; [done|]. cbn in Hhd. injection Hhd as ->.
    apply (moved_top (docs v)); [done|done| |].
    - by rewrite docs_insert, length_insert.
    - intros i Hi. by rewrite docs_insert, list_lookup_insert_ne. }
  destruct (queue_update_top_ok q _ Hm) as (top' & q' & Hu & Hq' & Hp' & Hl' & Hleast & Hhd').
  { intros He. by rewrite He in Hhd. }
  wp_bind. eapply wp_of_option; [exact Hu|]. wp_ret. split; [|split; [by eapply behind_insert|by exists w']].
  split; [|split; [split; [by rewrite length_insert, Hp'|done]|]].
  - destruct (Forall2_lookup_r _ _ _ _ _ Hr Hw) as (w0 & H0 & Hrw).
    rewrite <- (list_insert_id v0 top w0 H0). apply Forall2_insert; [done|].
    eapply reached_trans; [exact Hrw|]. by apply moved_reached.
  - split; [congruence|]. split; [by apply Hhd'|done].
Qed.

Lemma least_doc v q top w :
  heap_ok v q -> least q (docs v) top -> v !! top = Some w -> forall w', w' ∈ v -> d_doc w <= d_doc w'.
Proof.
  intros [Hp [Hd _]] [_ Hl] Hw w' [i Hi]%list_elem_of_lookup.
  assert (Him : i ∈ members q).
  { rewrite Hp. apply elem_of_seq. apply lookup_lt_Some in Hi. lia. }
  specialize (Hl i Him). unfold by_doc, key, docs in Hl. by rewrite !list_lookup_fmap, Hw, Hi in Hl.
Qed.

Lemma least_member v q top : heap_ok v q -> least q (docs v) top -> exists w, v !! top = Some w.
Proof.
  intros [Hp _] [Ht _]. rewrite Hp in Ht. apply elem_of_seq in Ht. apply lookup_lt. lia.
Qed.

Lemma docs_lookup v i w : v !! i = Some w -> docs v !! i = Some (d_doc w).
Proof. intros H. unfold docs. by rewrite list_lookup_fmap, H. Qed.

(** What the loops end with. *)
Definition heap_end (v0 : list (Disi S)) (t : Z) (r : Z * (list (Disi S) * DisiQueue)) : Prop :=
  Forall2 (reached t) v0 r.2.1 /\ heap_ok r.2.1 r.2.2 /\ t <= r.1 /\
  (forall w, w ∈ r.2.1 -> r.1 <= d_doc w) /\ exists w, w ∈ r.2.1 /\ d_doc w = r.1.

Lemma heaping_end v0 t v q top w :
  heaping v0 t v q top -> v !! top = Some w -> t <= d_doc w -> heap_end v0 t (d_doc w, (v, q)).
Proof.
  intros (Hr & Hh & _ & _ & Hl) Hw Ht. split; [done|]. split; [done|]. split; [done|].
  split; [by eapply least_doc|]. exists w. split; [by eapply list_elem_of_lookup_2|done].
Qed.

Lemma reached_need t v0 v i w n :
  Forall2 (reached t) v0 v -> (total_need (kids v0) <= n)%nat -> v !! i = Some w -> (need (d_scorer w) <= n)%nat.
Proof.
  intros Hr Hn Hi. pose proof (kids_need v i w Hi). rewrite (all_same_need _ _ (reached_all_same _ _ _ Hr)) in H. lia.
Qed.

Lemma dj_advance_loop_ok n v0 t k : forall v q top,
  heaping v0 t v q top -> (behind t v < k)%nat -> t <= NO_MORE_DOCS -> (total_need (kids v0) <= n)%nat ->
  wp (dj_advance_loop k v q top t) n (heap_end v0 t).
Proof.
  induction k as [|k IH]; intros v q top HI Hk Ht Hn; [lia|]. cbn [dj_advance_loop].
  pose proof HI as (Hr & Hh & _ & _ & Hl). destruct (least_member v q top Hh Hl) as [w Hw].
  wp_bind. eapply wp_of_option; [by apply docs_lookup|].
  destruct (Z.ltb_spec (d_doc w) t) as [Hlt|Hge]; [|wp_ret; by eapply heaping_end].
  destruct (Forall2_lookup_r _ _ _ _ _ Hr Hw) as (w0 & _ & (Hg & _ & Hd & _)).
  wp_bind. wp_use (move_top_ok n v0 t v q top w); [done|done|done| |].
  - apply advance_ok; [done|lia|done|by eapply reached_need].
  - intros [top' [v' q']] (HI' & Hb & _). cbn [fst snd] in *. apply IH; [done|lia|done|done].
Qed.

(** Members on [cur] step past it; the others are already past. *)
Lemma dj_next_loop_ok n v0 cur k : forall v q top w,
  heaping v0 (cur + 1) v q top -> v !! top = Some w -> d_doc w = cur -> (behind (cur + 1) v < k)%nat ->
  (forall w', w' ∈ v -> cur <= d_doc w') ->
  cur < NO_MORE_DOCS -> (total_need (kids v0) <= n)%nat ->
  wp (dj_next_loop k v q top cur) n (heap_end v0 (cur + 1)).
Proof.
  induction k as [|k IH]; intros v q top w HI Hw Hcur Hk Hall Hc Hn; [lia|]. cbn [dj_next_loop].
  pose proof HI as (Hr & Hh & _ & _ & Hl).
  destruct (Forall2_lookup_r _ _ _ _ _ Hr Hw) as (w0 & _ & (Hg & _ & Hd & _)).
  wp_bind. wp_use (move_top_ok n v0 (cur + 1) v q top w next_doc); [done|done|lia| |].
  - replace cur with (doc_id (d_scorer w)) by lia. apply next_doc_ok; [done|lia|by eapply reached_need].
  - intros [top' [v' q']] (HI' & Hb & w' & Hv' & Hw'). cbn [fst snd] in *.
    pose proof HI' as (_ & Hh' & _ & _ & Hl'). destruct (least_member v' q' top' Hh' Hl') as [x Hx].
    wp_bind. eapply wp_of_option; [by apply docs_lookup|].
    assert (Hall' : forall w', w' ∈ v' -> cur <= d_doc w').
    { intros y [i Hi]%list_elem_of_lookup. rewrite Hv' in Hi.
      apply list_lookup_insert_Some in Hi as [(_ & <- & _)|(_ & Hi)]; [lia|]. apply Hall. by eapply list_elem_of_lookup_2. }
    assert (Hxc : cur <= d_doc x) by (apply Hall'; by eapply list_elem_of_lookup_2).
    destruct (Z.eqb_spec (d_doc x) cur) as [He|Hne]; cbn [negb].
    + apply (IH _ _ _ x); [done|done|done|lia|done|done|done].
    + wp_ret. eapply heaping_end; [done|done|lia].
Qed.

Lemma heaping_start c t q : good c -> linear (dj_heap c) = false -> dj_doc c <= t ->
  exists top w, top_of (dj_heap c) (docs (dj_subs c)) = Some (Some top) /\
    heaping (dj_subs c) t (dj_subs c) (dj_heap c) top /\ dj_subs c !! top = Some w /\ d_doc w = dj_doc c.
Proof.
  intros (Hm & (w0 & Hw0 & Hd0) & Hh & _) Hlin Ht. pose proof Hh as [Hp Hq].
  destruct (queue_top_of_ok (dj_heap c) (docs (dj_subs c)) Hq) as (top & Htop & Hl & Hhd).
  { intros He. rewrite He in Hp. symmetry in Hp. apply Permutation_nil_r in Hp.
    destruct (dj_subs c); [by apply not_elem_of_nil in Hw0|done]. }
  destruct (least_member _ _ _ Hh Hl) as [w Hw]. exists top, w. split; [done|].
  split; [|split; [done|]].
  - split; [|split; [done|split; [done|split; [auto|done]]]]. apply Forall_Forall2_diag.
    eapply Forall_impl, Hm. intros x Hx. by eapply member_reached.
  - pose proof (least_doc _ _ _ _ Hh Hl Hw w0 Hw0). rewrite Forall_lookup in Hm.
    destruct (Hm _ _ Hw) as (_ & _ & _ & Hle). lia.
Qed.

Lemma dj_next_ok n c :
  good c -> dj_doc c < NO_MORE_DOCS -> (need c <= n)%nat -> wp (dj_next_doc c) n (lands c (dj_doc c + 1)).
Proof.
  intros Hg Hd Hn. pose proof Hg as (Hm & _). unfold dj_next_doc. destruct (linear (dj_heap c)) eqn:El.
  - wp_bind. wp_use (move_linear_ok c n (fun w => d_doc w =? dj_doc c) next_doc (dj_doc c + 1)); [done|lia|lia| |done|].
    + intros i w Hi. rewrite Forall_lookup in Hm. destruct (Hm _ _ Hi) as (H1 & H2 & _ & H4).
      destruct (Z.eqb_spec (d_doc w) (dj_doc c)) as [He|Hne]; [|lia].
      replace (dj_doc c) with (doc_id (d_scorer w)) by lia. apply next_doc_ok; [done|lia|by eapply sub_need].
    + intros [v min] Hl. by wp_ret.
  - destruct (heaping_start c (dj_doc c + 1) (dj_heap c) Hg El) as (top & w & Htop & HI & Hw & Hwd); [lia|].
    wp_bind. eapply wp_of_option; [exact Htop|]. wp_bind. eapply wp_of_option; [by apply docs_lookup|].
    rewrite Hwd. wp_bind. unfold cloop. cbn in Hn. pose proof (behind_le (dj_doc c + 1) (dj_subs c)).
    wp_use (dj_next_loop_ok n (dj_subs c) (dj_doc c) n (dj_subs c) (dj_heap c) top w); [done|done|done|lia| |done|lia|].
    + intros w' Hw'. by apply (member_good c w' Hg).
    + intros [d [v q]] (H1 & H2 & H3 & H4 & H5). wp_ret. cbn [fst snd] in *. apply settle; (done || lia).
Qed.

Lemma dj_advance_ok n c t :
  good c -> dj_doc c < t -> t <= NO_MORE_DOCS -> (need c <= n)%nat -> wp (dj_advance c t) n (lands c t).
Proof.
  intros Hg Hd Ht Hn. pose proof Hg as (Hm & _). unfold dj_advance. destruct (linear (dj_heap c)) eqn:El.
  - wp_bind. wp_use (move_linear_ok c n (fun w => d_doc w <? t) (fun s => advance s t) t); [done|done|done| |done|].
    + intros i w Hi. rewrite Forall_lookup in Hm. destruct (Hm _ _ Hi) as (H1 & H2 & _ & H4).
      destruct (Z.ltb_spec (d_doc w) t) as [Hlt|Hge]; [|lia].
      apply advance_ok; [done|lia|done|by eapply sub_need].
    + intros [v min] Hl. by wp_ret.
  - destruct (heaping_start c t (dj_heap c) Hg El) as (top & w & Htop & HI & Hw & Hwd); [lia|].
    wp_bind. eapply wp_of_option; [exact Htop|]. wp_bind. unfold cloop. cbn in Hn.
    pose proof (behind_le t (dj_subs c)).
    wp_use (dj_advance_loop_ok n (dj_subs c) t n (dj_subs c) (dj_heap c) top); [done|lia|done|lia|].
    intros [d [v q]] (H1 & H2 & H3 & H4 & H5). wp_ret. cbn [fst snd] in *. apply settle; done.
Qed.

(** *** Verification *)
Lemma lists_stay c v ver unv :
  good c -> all_kept (dj_subs c) v ->
  let c' := dj_lists (dj_subs_put c v) ver unv in
  good c' /\ same c c' /\ doc_id c' = doc_id c.
Proof. intros Hg Hk. destruct (put_kept c v Hg Hk) as (H1 & H2 & H3 & _). by split_and!. Qed.

Lemma on_doc_list c :
  good c -> exists l, top_list (dj_heap c) (docs (dj_subs c)) = Some l /\ NoDup l /\
    forall i, i ∈ l <-> exists w, dj_subs c !! i = Some w /\ d_doc w = dj_doc c.
Proof.
  intros Hg. pose proof Hg as (Hm & (w0 & Hw0 & Hd0) & Hh & _). pose proof Hh as [Hp Hq].
  destruct (top_list_ok (dj_heap c) (docs (dj_subs c)) Hq) as (l & Hl & Hnd & Hel); [rewrite Hp; apply NoDup_seq|].
  exists l. split; [done|]. split; [done|].
  destruct (queue_top_of_ok (dj_heap c) (docs (dj_subs c)) Hq) as (top & _ & Hleast & _).
  { intros He. rewrite He in Hp. symmetry in Hp. apply Permutation_nil_r in Hp.
    destruct (dj_subs c); [by apply not_elem_of_nil in Hw0|done]. }
  destruct (least_member _ _ _ Hh Hleast) as [w Hw].
  assert (Hwd : d_doc w = dj_doc c).
  { pose proof (least_doc _ _ _ _ Hh Hleast Hw w0 Hw0). rewrite Forall_lookup in Hm.
    destruct (Hm _ _ Hw) as (_ & _ & _ & Hle). lia. }
  intros i. rewrite (Hel top Hleast). unfold key. rewrite (docs_lookup _ _ _ Hw), Hp, elem_of_seq. cbn. rewrite Hwd.
  split.
  - intros [Hi Hk]. destruct (lookup_lt (dj_subs c) i) as [x Hx]; [lia|]. exists x. split; [done|].
    by rewrite (docs_lookup _ _ _ Hx) in Hk.
  - intros (x & Hx & Hxd). rewrite (docs_lookup _ _ _ Hx). split; [|done]. apply lookup_lt_Some in Hx. lia.
Qed.

(** Only members on the document can match it. *)
Lemma accepted_iff c :
  good c -> dj_doc c ∈ approx c ->
  dj_doc c ∈ accept c <->
  exists i w, dj_subs c !! i = Some w /\ d_doc w = dj_doc c /\ dj_doc c ∈ accept (d_scorer w).
Proof.
  intros Hg Hd. change (accept c) with (joined accept (dj_subs c)). rewrite elem_of_joined. split.
  - intros (w & Hw & Ha). pose proof (member_good c w Hg Hw) as (H1 & H2 & H3 & H4).
    apply list_elem_of_lookup in Hw as [i Hi]. exists i, w. split; [done|]. split; [|done].
    apply accept_approx in Ha; [|done]. specialize (H3 _ Ha). lia.
  - intros (i & w & Hi & _ & Ha). exists w. split; [by eapply list_elem_of_lookup_2|done].
Qed.

Lemma positioned c i w :
  good c -> dj_doc c ∈ approx c -> dj_subs c !! i = Some w -> d_doc w = dj_doc c ->
  good (d_scorer w) /\ doc_id (d_scorer w) = dj_doc c /\ dj_doc c ∈ approx (d_scorer w).
Proof.
  intros Hg (w0 & Hw0 & Hd)%elem_of_joined Hi Hwd.
  destruct (member_good c w Hg) as (H1 & H2 & _); [by eapply list_elem_of_lookup_2|].
  pose proof (member_good c w0 Hg Hw0) as (H3 & _). pose proof (approx_range _ _ H3 Hd).
  assert (He : doc_id (d_scorer w) = dj_doc c) by congruence. split; [done|]. split; [done|].
  rewrite <- He. apply doc_id_positioned; [done|lia].
Qed.

Lemma one_phase_verified c i w :
  good c -> dj_doc c ∈ approx c -> dj_subs c !! i = Some w -> d_doc w = dj_doc c ->
  two_phase (d_scorer w) = false -> verified_at (dj_subs c) (dj_doc c) i.
Proof.
  intros Hg Hd Hi Hwd Ht. destruct (positioned c i w Hg Hd Hi Hwd) as (H1 & H2 & H3). exists w.
  split; [done|]. split; [done|]. split; [by rewrite one_phase|]. apply one_phase_confirmed; [done|done|by rewrite H2].
Qed.

(** Nothing to verify: no member has a second phase. *)
Lemma all_one_phase c i w : good c -> dj_two_phase c = false -> dj_subs c !! i = Some w -> two_phase (d_scorer w) = false.
Proof.
  intros Hg E2 Hi. destruct (two_phase (d_scorer w)) eqn:Ew; [|done]. pose proof Hg as (_ & _ & _ & Ht & _).
  assert (existsb two_phase (kids (dj_subs c)) = true); [|congruence].
  apply existsb_exists. exists (d_scorer w). split; [|done]. unfold kids. apply in_map.
  apply list_elem_of_In. by eapply list_elem_of_lookup_2.
Qed.

(** Only members on the document can match it, so a list of those covers it. *)
Lemma on_doc_covers c l : good c -> NoDup l ->
  (forall i, i ∈ l <-> exists w, dj_subs c !! i = Some w /\ d_doc w = dj_doc c) ->
  covers (map accept (kids (dj_subs c))) (dj_doc c) l.
Proof.
  intros Hg Hnd Hel. split; [done|]. intros i A Hi HA. apply Hel. unfold kids in Hi. rewrite !list_lookup_fmap in Hi.
  destruct (dj_subs c !! i) as [w|] eqn:Ei; [|done]. injection Hi as <-. exists w. split; [done|].
  destruct (member_good c w Hg) as (G1 & G2 & G3 & G4); [by eapply list_elem_of_lookup_2|].
  apply accept_approx in HA; [|done]. specialize (G3 _ HA). lia.
Qed.

(** Scoring a member that was verified. *)
Lemma score_at n c v i w :
  all_kept (dj_subs c) v -> v !! i = Some w -> doc_id (d_scorer w) ∈ accept (d_scorer w) -> confirmed (d_scorer w) ->
  (need c <= n)%nat ->
  wp (with_at v i (fun w => disi_with w score)) n (fun r => all_kept (dj_subs c) r.2 /\
    gives_at (map gives (kids (dj_subs c))) (doc_id (d_scorer w)) i r.1).
Proof.
  intros Hk Hi Ha Hcf Hn. pose proof (all_kept_good _ _ Hk) as Hg. rewrite Forall_lookup in Hg.
  eapply wp_with_at; [exact Hi|]. unfold disi_with. wp_bind. wp_use score_ok; [by eapply Hg|done|done| |].
  { pose proof (kids_need v i w Hi) as Hle. rewrite (all_same_need _ _ (all_kept_same _ _ Hk)) in Hle. cbn in Hn. lia. }
  intros [x s] [Hst Hx]. wp_ret. cbn [fst snd] in *. split; [eapply all_kept_insert; [done|done|by apply (stays_kept w s)]|].
  destruct (Forall2_lookup_r _ _ _ _ _ Hk Hi) as (w0 & H0 & (_ & (_ & _ & _ & _ & Hgv) & _)).
  exists (gives (d_scorer w0)). split; [unfold kids; by rewrite !list_lookup_fmap, H0|]. by rewrite <- Hgv.
Qed.

(** The split of the members on the document. *)
Definition split_ok (c : t) (l xs ver unv : list nat) : Prop :=
  Forall (verified_at (dj_subs c) (dj_doc c)) ver /\ Forall (unverified_at (dj_subs c) (dj_doc c)) unv /\
  ver ++ unv ++ xs ≡ₚ l.

Lemma split_step c l i xs ver unv :
  good c -> dj_doc c ∈ approx c ->
  (forall i, i ∈ l <-> exists w, dj_subs c !! i = Some w /\ d_doc w = dj_doc c) ->
  split_ok c l (i :: xs) ver unv ->
  exists w, dj_subs c !! i = Some w /\
    if two_phase (d_scorer w) then split_ok c l xs ver (unv ++ [i]) else split_ok c l xs (ver ++ [i]) unv.
Proof.
  intros Hg Hd Hl (H1 & H2 & H3). destruct (proj1 (Hl i)) as (w & Hw & Hwd); [rewrite <- H3; set_solver|].
  exists w. split; [done|]. destruct (positioned c i w Hg Hd Hw Hwd) as (_ & Hx2 & Hx3).
  destruct (two_phase (d_scorer w)) eqn:E2.
  - split; [done|]. split; [apply Forall_app; split; [done|constructor; [by exists w|done]]|].
    rewrite <- H3. by rewrite <- (app_assoc unv [i] xs).
  - split; [apply Forall_app; split; [done|constructor; [by eapply one_phase_verified|done]]|].
    split; [done|]. rewrite <- H3, <- (app_assoc ver [i]). apply Permutation_app_head. cbn. apply Permutation_middle.
Qed.

Lemma matches_kept w s m :
  answers (d_scorer w) (m, s) -> kept w (set_scorer w s).
Proof.
  intros (H1 & H2 & H3 & H4 & H5). cbn [fst snd] in *. split; [done|]. split; [done|]. split; [done|]. split; [done|].
  intros Ha _. apply H5. rewrite H4. by apply bool_decide_eq_true.
Qed.

(** [matches] on a member of the unverified list. *)
Lemma matches_at n v0 v doc i :
  all_kept v0 v -> unverified_at v0 doc i -> (total_need (kids v0) <= n)%nat ->
  wp (with_at v i (fun w => disi_with w matches)) n
    (fun r => all_kept v0 r.2 /\ all_kept v r.2 /\
      if r.1 then verified_at r.2 doc i else exists w, v0 !! i = Some w /\ doc ∉ accept (d_scorer w)).
Proof.
  intros Hk Hu Hn. destruct (unverified_kept _ _ _ _ Hk Hu) as (w & Hi & Hd & Ha).
  pose proof (all_kept_good _ _ Hk) as Hg. rewrite Forall_lookup in Hg. specialize (Hg _ _ Hi).
  eapply wp_with_at; [exact Hi|]. unfold disi_with. wp_bind. wp_use matches_ok; [done|by rewrite Hd| |].
  { pose proof (kids_need v i w Hi) as Hle. rewrite (all_same_need _ _ (all_kept_same _ _ Hk)) in Hle. lia. }
  intros [m s] Hans. wp_ret. pose proof (matches_kept w s m Hans) as Hkw.
  assert (Hkv : all_kept v (<[i := set_scorer w s]> v)).
  { rewrite <- (list_insert_id v i w Hi) at 1. apply Forall2_insert; [|done].
    apply all_kept_refl. by eapply all_kept_good. }
  split; [by eapply all_kept_insert|]. split; [done|].
  destruct Hans as (H1 & H2 & H3 & H4 & H5). cbn [fst snd] in *. destruct m.
  - exists (set_scorer w s). split; [rewrite list_lookup_insert_eq by (by eapply lookup_lt_Some); done|].
    symmetry in H4. apply bool_decide_eq_true in H4. split; [cbn; congruence|].
    split; [cbn; rewrite (proj1 (proj2 H2)); by rewrite <- Hd|by apply H5].
  - destruct (Forall2_lookup_r _ _ _ _ _ Hk Hi) as (w0 & H0 & (_ & Hs0 & _)). exists w0. split; [done|].
    rewrite <- (proj1 (proj2 Hs0)). symmetry in H4. apply bool_decide_eq_false in H4. by rewrite <- Hd.
Qed.

(** A member that does not accept the document may be left out. *)
Lemma covers_drop As doc pre i l : covers As doc (pre ++ i :: l) ->
  (forall A, As !! i = Some A -> doc ∉ A) -> covers As doc (pre ++ l).
Proof.
  intros [H1 H2] Hi. split.
  - rewrite <- (Permutation_middle pre l i) in H1. by apply list.NoDup_cons in H1 as [_ H1].
  - intros j A Hj HA. pose proof (H2 j A Hj HA) as Hin. apply elem_of_app in Hin as [|[->|]%elem_of_cons]; [set_solver| |set_solver].
    by destruct (Hi A Hj).
Qed.

Lemma refuses v0 i doc w : v0 !! i = Some w -> doc ∉ accept (d_scorer w) ->
  forall A, map accept (kids v0) !! i = Some A -> doc ∉ A.
Proof. unfold kids. intros Hi Hn A. rewrite !list_lookup_fmap, Hi. cbn. by intros [= <-]. Qed.

Definition verify_post (v0 : list (Disi S)) (doc : Z) (unv : list nat) (r : bool * list nat * list nat * list (Disi S)) : Prop :=
  all_kept v0 r.2 /\ Forall (verified_at r.2 doc) r.1.1.2 /\ Forall (unverified_at r.2 doc) r.1.2 /\
  (covers (map accept (kids v0)) doc unv -> covers (map accept (kids v0)) doc (r.1.1.2 ++ r.1.2)) /\
  if r.1.1.1 then exists i, i ∈ unv /\ verified_at r.2 doc i
  else forall i, i ∈ unv -> exists w, v0 !! i = Some w /\ doc ∉ accept (d_scorer w).

Lemma verify_first_ok n v0 doc unv : forall v,
  all_kept v0 v -> Forall (unverified_at v0 doc) unv -> (total_need (kids v0) <= n)%nat ->
  wp (verify_first unv v) n (verify_post v0 doc unv).
Proof.
  induction unv as [|i unv IH]; intros v Hk Hu Hn; cbn [verify_first].
  - wp_ret. split; [done|]. split; [constructor|]. split; [constructor|]. split; [done|]. intros i Hi. by apply not_elem_of_nil in Hi.
  - inversion Hu as [|? ? Hui Hu']; subst. wp_bind. wp_use (matches_at n v0 v doc i Hk Hui Hn).
    intros [m v1] (Hk1 & Hk1' & Hm). cbn [fst snd] in *. destruct m.
    + wp_ret. split; [done|]. split; [by repeat constructor|]. split.
      * eapply Forall_impl, Hu'. intros j. by apply unverified_kept.
      * split; [done|]. exists i. split; [by left|done].
    + wp_use (IH v1 Hk1 Hu' Hn). intros [[[b ver] rest] v2] (P1 & P2 & P3 & P5 & P4). split; [done|]. split; [done|].
      split; [done|]. split.
      { intros Hcov. apply P5. destruct Hm as (w & Hw & Hno). apply (covers_drop _ _ [] i); [done|by eapply refuses]. }
      cbn [fst snd] in *. destruct b.
      * destruct P4 as (j & Hj & Hv). exists j. split; [by right|done].
      * intros j [->|Hj]%elem_of_cons; [done|by apply P4].
Qed.

Lemma verified_accepts c i : good c -> dj_doc c ∈ approx c -> forall v, all_kept (dj_subs c) v ->
  verified_at v (dj_doc c) i -> dj_doc c ∈ accept c.
Proof.
  intros Hg Hd v Hk (w & Hi & _ & Ha & _). change (accept c) with (joined accept (dj_subs c)).
  rewrite <- (proj2 (same_joined _ _ (all_kept_same _ _ Hk))). apply elem_of_joined. exists w.
  split; [by eapply list_elem_of_lookup_2|done].
Qed.

Lemma dj_matches_ok n c :
  good c -> dj_doc c ∈ approx c -> (need c <= n)%nat -> wp (dj_matches c) n (answers c).
Proof.
  intros Hg Hd Hn. destruct (on_doc_list c Hg) as (l & Hl & Hnd & Hel). unfold dj_matches.
  wp_bind. eapply wp_of_option; [exact Hl|]. wp_bind.
  assert (Hkr : all_kept (dj_subs c) (dj_subs c)) by (by apply all_kept_refl, good_members).
  assert (Hyes : forall v ver unv i, all_kept (dj_subs c) v -> i ∈ ver ->
    Forall (verified_at v (dj_doc c)) ver -> Forall (unverified_at v (dj_doc c)) unv ->
    (dj_needs_scores c = true -> covers (map accept (kids (dj_subs c))) (dj_doc c) (ver ++ unv)) ->
    answers c (true, dj_lists (dj_subs_put c v) ver unv)).
  { intros v ver unv i Hk Hi Hv Hu Hcov. destruct (lists_stay c v ver unv Hg Hk) as (G1 & G2 & G3).
    split; [done|]. split; [done|]. split; [done|]. cbn [fst snd]. split.
    2:{ intros _ _. split; [done|]. split; [done|]. intros Hns. cbn. fold (kids v). rewrite (all_kept_accept _ _ Hk). auto. }
    symmetry. apply bool_decide_eq_true. rewrite Forall_forall in Hv.
    eapply verified_accepts; [done|done|exact Hk|]. apply (Hv i). by apply list_elem_of_In. }
  assert (Hsame : forall ver unv, dj_lists (dj_subs_put c (dj_subs c)) ver unv = dj_lists c ver unv) by done.
  wp_use (wp_for_each (fun xs st => split_ok c l xs st.1 st.2) _ n
    (fun r => match r.1 with
              | Some b => answers c (b, dj_lists c r.2.1 r.2.2)
              | None => split_ok c l [] r.2.1 r.2.2
              end)).
  { intros i xs [ver unv] HI. cbn [fst snd] in *.
    destruct (split_step c l i xs ver unv Hg Hd Hel HI) as (w & Hw & Hs).
    wp_bind. eapply wp_of_option; [exact Hw|]. destruct (two_phase (d_scorer w)); cbn [negb]; [by wp_ret|].
    wp_ret. destruct (dj_needs_scores c) eqn:Ens; cbn [negb]; [done|]. destruct Hs as (Hs1 & Hs2 & _).
    rewrite <- Hsame. apply (Hyes _ _ _ i); [done|set_solver|done|done|done]. }
  { done. }
  { split; [constructor|]. by split; [constructor|]. }
  intros [[b|] [ver unv]] Hr; cbn [fst snd] in Hr; [by wp_ret|]. destruct Hr as (H1 & H2 & H3).
  rewrite app_nil_r in H3.
  assert (Hcov : covers (map accept (kids (dj_subs c))) (dj_doc c) (ver ++ unv)).
  { apply on_doc_covers; [done|by rewrite H3|]. intros i. by rewrite H3. }
  destruct ver as [|i ver].
  2:{ wp_ret. rewrite <- Hsame. apply (Hyes _ _ _ i); [done|by left|done|done|done]. }
  wp_bind. set (unv' := sort_by _ unv). assert (Hp : unv' ≡ₚ unv) by apply sort_by_perm.
  wp_use (verify_first_ok n (dj_subs c) (dj_doc c) unv' (dj_subs c)); [done|by rewrite Hp|cbn in Hn; lia|].
  intros [[[b ver] rest] v] (P1 & P2 & P3 & P5 & P4). cbn [fst snd] in *. wp_ret.
  destruct (lists_stay c v ver rest Hg P1) as (G1 & G2 & G3).
  split; [done|]. split; [done|]. split; [done|]. cbn [fst snd]. split.
  2:{ intros _ _. split; [done|]. split; [done|]. intros _. cbn. fold (kids v). rewrite (all_kept_accept _ _ P1).
      apply P5. destruct Hcov as [C1 C2]. split; [by rewrite Hp|]. intros i A Hi HA. rewrite Hp. by eapply C2. }
  symmetry. destruct b; [apply bool_decide_eq_true|apply bool_decide_eq_false].
  - destruct P4 as (i & _ & Hv). by eapply verified_accepts.
  - intros (i & w & Hi & Hwd & Ha)%accepted_iff; [|done|done].
    assert (Hil : i ∈ l) by (apply Hel; by exists w). rewrite <- H3 in Hil. cbn in Hil. rewrite <- Hp in Hil. destruct (P4 i Hil) as (w' & Hi' & Hn'). rewrite Hi in Hi'. injection Hi' as <-. done.
Qed.

(** *** Scoring *)
Lemma sub_matches_ok n c :
  good c -> dj_doc c ∈ approx c -> confirmed c -> (need c <= n)%nat ->
  wp (sub_matches c) n (fun c' => good c' /\ same c c' /\ dj_doc c' = dj_doc c /\ confirmed c' /\
    dj_combine c' = dj_combine c /\ dj_needs_scores c' = dj_needs_scores c /\
    Forall (verified_at (dj_subs c') (dj_doc c')) (dj_verified c') /\
    (dj_needs_scores c' = true -> covers (map accept (kids (dj_subs c'))) (dj_doc c') (dj_verified c'))).
Proof.
  intros Hg Hd Hc Hn. unfold sub_matches. pose proof Hg as (_ & _ & _ & Ht & _).
  assert (Hkr : all_kept (dj_subs c) (dj_subs c)) by (by apply all_kept_refl, good_members).
  destruct (dj_two_phase c) eqn:E2; cbn [negb].
  - destruct (Hc E2) as (Hv & Hu & Hcov). wp_bind. set (As := map accept (kids (dj_subs c))) in *.
    wp_use (wp_for_each (fun xs (st : list nat * list (Disi S)) => all_kept (dj_subs c) st.2 /\
        Forall (verified_at st.2 (dj_doc c)) st.1 /\ Forall (unverified_at (dj_subs c) (dj_doc c)) xs /\
        (dj_needs_scores c = true -> covers As (dj_doc c) (st.1 ++ xs)))
      _ n (fun r => all_kept (dj_subs c) r.2.2 /\ Forall (verified_at r.2.2 (dj_doc c)) r.2.1 /\
        (dj_needs_scores c = true -> covers As (dj_doc c) r.2.1))).
    + intros i xs [ver v] (Hk & Hver & Hun & Hcv). inversion Hun as [|? ? Hui Hu']; subst. cbn [fst snd] in *.
      wp_bind. wp_use (matches_at n (dj_subs c) v (dj_doc c) i Hk Hui); [cbn in Hn; lia|].
      intros [m v1] (Hk1 & Hk1' & Hm). cbn [fst snd] in *. wp_ret. split; [done|].
      assert (Hver1 : Forall (verified_at v1 (dj_doc c)) ver).
      { eapply Forall_impl, Hver. intros j. by apply verified_kept. }
      destruct m.
      * split; [apply Forall_app; split; [done|by repeat constructor]|]. split; [done|]. by rewrite <- app_assoc.
      * split; [done|]. split; [done|]. intros Hns. destruct Hm as (w & Hw & Hno).
        apply (covers_drop _ _ _ i); [auto|by eapply refuses].
    + intros [ver v] (Hk & Hver & _ & Hcv). cbn [fst snd] in *. by rewrite app_nil_r in Hcv.
    + done.
    + intros [r [ver v]] (Hk & Hver & Hcv). cbn [fst snd] in *. wp_ret.
      destruct (lists_stay c v ver [] Hg Hk) as (G1 & G2 & G3).
      assert (Hcv' : dj_needs_scores c = true -> covers (map accept (kids v)) (dj_doc c) ver).
      { rewrite (all_kept_accept _ _ Hk). exact Hcv. }
      split_and!; try done. intros _. split; [done|]. split; [constructor|]. cbn. by rewrite app_nil_r.
  - destruct (on_doc_list c Hg) as (l & Hl & Hnd & Hel). wp_bind. eapply wp_of_option; [exact Hl|]. wp_ret.
    destruct (lists_stay c (dj_subs c) l (dj_unverified c) Hg Hkr) as (G1 & G2 & G3).
    split; [done|]. split; [done|]. split; [done|]. split; [intros H; cbn in H; congruence|].
    split; [done|]. split; [done|]. split; [|intros _; by apply on_doc_covers].
    apply Forall_forall. intros i Hi%list_elem_of_In%Hel. destruct Hi as (w & Hi & Hwd).
    eapply one_phase_verified; [done|done|done|done|by eapply all_one_phase].
Qed.

(** What scoring the members listed adds up to. *)
Lemma score_list_ok {Acc} n c (upd : Acc -> f32 -> Acc) acc :
  good c -> Forall (verified_at (dj_subs c) (dj_doc c)) (dj_verified c) -> (need c <= n)%nat ->
  wp (for_each (R := unit) (dj_verified c)
        (fun i '(acc, v) => let! (x, v) := with_at v i (fun w => disi_with w score) in cret (None, (upd acc x, v)))
        (acc, dj_subs c)) n (fun r => all_kept (dj_subs c) r.2.2 /\
          exists xs, Forall2 (gives_at (map gives (kids (dj_subs c))) (dj_doc c)) (dj_verified c) xs /\
            r.2.1 = fold_left upd xs acc).
Proof.
  intros Hg Hv Hn.
  wp_use (wp_for_each (fun rest (st : Acc * list (Disi S)) => exists pre xs, dj_verified c = pre ++ rest /\
      all_kept (dj_subs c) st.2 /\ Forall (verified_at (dj_subs c) (dj_doc c)) rest /\
      Forall2 (gives_at (map gives (kids (dj_subs c))) (dj_doc c)) pre xs /\ st.1 = fold_left upd xs acc) _ n
      (fun r => all_kept (dj_subs c) r.2.2 /\
          exists xs, Forall2 (gives_at (map gives (kids (dj_subs c))) (dj_doc c)) (dj_verified c) xs /\
            r.2.1 = fold_left upd xs acc)).
  - intros i rest [a v] (pre & xs & Hpre & Hk & Hver & Hxs & Ha). inversion Hver as [|? ? Hvi Hv']; subst. cbn [fst snd] in *.
    destruct (verified_kept _ _ _ _ Hk Hvi) as (w & Hi & Hd & Hac & Hcf).
    wp_bind. wp_use (score_at n c v i w Hk Hi); [by rewrite Hd|done|done|].
    intros [x v1] [Hk1 Hx]. wp_ret. exists (pre ++ [i]), (xs ++ [x]). cbn [fst snd] in *. split; [by rewrite <- app_assoc|].
    split; [done|]. split; [done|]. split; [|by rewrite fold_left_app, <- Ha]. apply Forall2_app; [done|].
    constructor; [|constructor]. by rewrite <- Hd.
  - intros [a v] (pre & xs & Hpre & Hk & _ & Hxs & Ha). cbn [fst snd] in *. rewrite app_nil_r in Hpre. subst pre.
    split; [done|]. by exists xs.
  - exists [], []. split; [done|]. split; [by apply all_kept_refl, good_members|]. by split_and!.
  - intros r H. exact H.
Qed.

Lemma stays_trans_same c c1 c2 : good c1 -> same c c1 -> doc_id c1 = doc_id c -> confirmed c1 -> stays c1 c2 -> stays c c2.
Proof.
  intros _ H1 H2 H3 (B1 & B2 & B3 & B4). split; [done|]. split; [by eapply same_trans|]. split; [congruence|]. auto.
Qed.

(** Every list of exactly the members that accept the document answers its score. *)
Lemma dj_gives_list c is_ xs x :
  Forall (verified_at (dj_subs c) (dj_doc c)) is_ ->
  (dj_needs_scores c = true -> covers (map accept (kids (dj_subs c))) (dj_doc c) is_) ->
  Forall2 (gives_at (map gives (kids (dj_subs c))) (dj_doc c)) is_ xs -> x = combined (dj_combine c) xs ->
  gives c (doc_id c) x.
Proof.
  intros Hv Hcov Hxs Hx Hns. destruct (Hcov Hns) as [Hnd Hall]. exists is_, xs. split; [done|].
  split; [|by split]. intros i. split; [|intros (A & Hi & HA); by eapply Hall].
  intros Hi. rewrite Forall_forall in Hv. destruct (Hv i) as (w & Hw & _ & Ha & _); [by apply list_elem_of_In|].
  exists (accept (d_scorer w)). split; [|done]. unfold kids. by rewrite !list_lookup_fmap, Hw.
Qed.

(** The list of the verified members, scored. *)
Lemma dj_score_list_ok {Acc} n c (upd : Acc -> f32 -> Acc) acc (fin : Acc -> f32) :
  good c -> dj_doc c ∈ approx c -> confirmed c -> (need c <= n)%nat ->
  (forall xs, combined (dj_combine c) xs = fin (fold_left upd xs acc)) ->
  wp (let! c := sub_matches c in
      let! (_, (acc, v)) := for_each (R := unit) (dj_verified c)
        (fun i '(acc, v) => let! (x, v) := with_at v i (fun w => disi_with w score) in cret (None, (upd acc x, v)))
        (acc, dj_subs c) in
      cret (fin acc, dj_subs_put c v)) n (gives_score c).
Proof.
  intros Hg Hd Hc Hn Hfin. wp_bind. wp_use sub_matches_ok; [done..|]. intros c1 (G1 & G2 & G3 & G4 & G5 & G6 & G7 & G8).
  assert (Hn1 : (need c1 <= n)%nat) by (destruct G2 as (_ & _ & _ & -> & _); done).
  wp_bind. wp_use (score_list_ok n c1 upd acc G1 G7 Hn1). intros [r [acc1 v]] [Hk (xs & Hxs & Hacc)].
  cbn [fst snd] in *. wp_ret. split.
  - eapply stays_trans_same; [exact G1|done|done|done|]. by apply put_kept.
  - destruct G2 as (_ & _ & _ & _ & G2). rewrite <- G2. change (doc_id c) with (dj_doc c). rewrite <- G3.
    eapply dj_gives_list; [done|done|done|]. cbn [fst]. by rewrite G5, Hfin, Hacc.
Qed.

(** Linear mode without verification: the members on the document, in order. *)
Lemma dj_score_linear_ok n c :
  good c -> dj_doc c ∈ approx c -> dj_two_phase c = false -> dj_combine c = Combine_Sum -> (need c <= n)%nat ->
  wp (let! (v, sum) := for_mut (fun w sum =>
          if d_doc w =? dj_doc c
          then let! (x, w) := disi_with w score in cret (w, f64_add sum (f64_of_f32 x))
          else cret (w, sum)) (dj_subs c) (f64_of_Z 0) in
      cret (f32_of_f64 sum, dj_subs_put c v)) n (gives_score c).
Proof.
  intros Hg Hd E2 Ec Hn. wp_bind. set (gs := map gives (kids (dj_subs c))).
  wp_use (wp_for_mut (fun pre pre' sum => all_kept pre pre' /\ exists is_ xs, NoDup is_ /\
      (forall i, i ∈ is_ <-> exists w, pre !! i = Some w /\ d_doc w = dj_doc c) /\
      Forall2 (gives_at gs (dj_doc c)) is_ xs /\ sum = fold_left add_score xs (f64_of_Z 0)) _ n (dj_subs c)).
  - intros pre w post pre' sum Hv (Hk & is_ & xs & Hnd & Hel & Hxs & Hsum).
    assert (Hi : dj_subs c !! length pre = Some w) by (by rewrite Hv, lookup_app_r, Nat.sub_diag by lia).
    assert (Hlast : forall i, (exists w', (pre ++ [w]) !! i = Some w' /\ d_doc w' = dj_doc c) <->
      i ∈ is_ \/ i = length pre /\ d_doc w = dj_doc c).
    { intros i. rewrite Hel. split.
      - intros (w' & Hw' & Hdw). apply lookup_app_Some in Hw' as [Hw'|[Hlt Hw']]; [left; by exists w'|right].
        apply list_lookup_singleton_Some in Hw' as [Hz <-]. split; [lia|done].
      - intros [(w' & Hw' & Hdw)|[-> Hdw]]; [exists w'; split; [by apply lookup_app_l_Some|done]|].
        exists w. split; [|done]. by rewrite lookup_app_r, Nat.sub_diag by lia. }
    destruct (Z.eqb_spec (d_doc w) (dj_doc c)) as [He|Hne].
    + wp_bind. destruct (positioned c _ w Hg Hd Hi He) as (P1 & P2 & P3).
      assert (Ht : two_phase (d_scorer w) = false) by (by eapply all_one_phase).
      unfold disi_with. wp_bind. wp_use score_ok; [done|rewrite P2; by rewrite one_phase|apply one_phase_confirmed; [done|done|by rewrite P2]|by eapply sub_need|].
      intros [x s] [Hst Hx]. wp_ret. wp_ret. cbn [fst snd] in *. split.
      * apply Forall2_app; [done|]. constructor; [by apply (stays_kept w s)|constructor].
      * exists (is_ ++ [length pre]), (xs ++ [x]). split; [|split; [|split]].
        -- rewrite (Permutation_app_comm is_). cbn. apply list.NoDup_cons. split; [|done].
           intros (w' & Hw' & _)%Hel. apply lookup_lt_Some in Hw'. lia.
        -- intros i. rewrite Hlast. set_solver.
        -- apply Forall2_app; [done|]. constructor; [|constructor]. exists (gives (d_scorer w)).
           split; [unfold gs, kids; by rewrite !list_lookup_fmap, Hi|by rewrite <- P2].
        -- by rewrite fold_left_app, <- Hsum.
    + wp_ret. cbn [fst snd]. split; [apply Forall2_app; [done|]; constructor; [apply kept_refl; by eapply sub_good|constructor]|].
      exists is_, xs. split; [done|]. split; [|done]. intros i. rewrite Hlast. split; [by left|intros [|[_ ?]]; done].
  - split; [constructor|]. exists [], []. split; [constructor|]. split; [|by split]. intros i. split; [by intros ?%not_elem_of_nil|].
    by intros (w & Hw & _).
  - intros [v sum] (Hk & is_ & xs & Hnd & Hel & Hxs & Hsum). cbn [fst snd] in *. wp_ret. split; [by apply put_kept|].
    eapply dj_gives_list; [| |exact Hxs|by rewrite Ec, Hsum].
    + apply Forall_forall. intros i Hi%list_elem_of_In%Hel. destruct Hi as (w & Hi & Hwd).
      eapply one_phase_verified; [done|done|done|done|by eapply all_one_phase].
    + intros _. by apply on_doc_covers.
Qed.

Lemma dj_score_ok n c :
  good c -> dj_doc c ∈ accept c -> confirmed c -> (need c <= n)%nat -> wp (dj_score c) n (gives_score c).
Proof.
  intros Hg Ha Hc Hn.
  assert (Hd : dj_doc c ∈ approx c).
  { apply elem_of_joined in Ha as (w & Hw & Ha). apply elem_of_joined. exists w. split; [done|].
    apply accept_approx; [|done]. by apply (member_good c w Hg). }
  unfold dj_score. destruct (dj_combine c) as [|tie] eqn:Ec.
  - destruct (negb (dj_two_phase c) && linear (dj_heap c)) eqn:El.
    + apply andb_true_iff in El as [E2%negb_true_iff _]. by apply dj_score_linear_ok.
    + apply (dj_score_list_ok n c add_score (f64_of_Z 0) f32_of_f64); try done. intros xs. by rewrite Ec.
  - apply (dj_score_list_ok n c max_step (f32_of_Z 0, f64_of_Z 0)
      (fun acc => f32_of_f64 (f64_add (f64_of_f32 acc.1) (f64_mul acc.2 (f64_of_f32 tie))))); try done. intros xs. by rewrite Ec.
Qed.

Lemma dj_shallow_ok n c u : good c -> 0 <= u -> (need c <= n)%nat -> wp (dj_advance_shallow c u) n (holds c).
Proof.
  intros Hg Hu Hn. unfold dj_advance_shallow. pose proof Hg as (_ & _ & _ & _ & Hb).
  destruct (dj_propagator c) as [p|].
  - wp_bind. wp_use (bp_shallow_ok n p (dj_subs c) u Hb); [by apply good_members|done|cbn in Hn; lia|].
    intros [x v] Hk. wp_ret. by apply put_kept.
  - wp_bind. wp_use (reading_loop (dj_subs c) n (fun w => doc_id (d_scorer w) <=? u) (fun s => advance_shallow s u) Z.min).
    + by apply good_members.
    + intros i w Hi. apply shallow_ok; [by eapply sub_good|done|by eapply sub_need].
    + intros [v x] Hk. wp_ret. by apply put_kept.
Qed.

Lemma dj_max_score_ok n c u : good c -> (need c <= n)%nat -> wp (dj_max_score c u) n (holds c).
Proof.
  intros Hg Hn. unfold dj_max_score.
  assert (Hread : forall Acc (upd : Acc -> f32 -> Acc) acc,
    wp (for_mut (fun w acc => if doc_id (d_scorer w) <=? u
          then let! (x, w) := disi_with w (fun s => max_score s u) in cret (w, upd acc x) else cret (w, acc)) (dj_subs c) acc) n
      (fun r => all_kept (dj_subs c) r.1)).
  { intros Acc upd acc. apply (reading_loop (dj_subs c) n (fun w => doc_id (d_scorer w) <=? u)); [by apply good_members|].
    intros i w Hi. apply max_score_ok; [by eapply sub_good|by eapply sub_need]. }
  destruct (dj_combine c) as [|tie]; wp_bind.
  - wp_use (Hread _ (fun sum x => f64_add sum (f64_of_f32 x)) (f64_of_Z 0)). intros [v sum] Hk. wp_ret. by apply put_kept.
  - wp_use (Hread _ max_step (f32_of_Z 0, f64_of_Z 0)). intros [v acc] Hk. wp_ret. by apply put_kept.
Qed.

#[export] Instance dj_laws : ScorerLaws E t.
Proof.
  split.
  - intros c Hg x (w & Hw & Ha)%elem_of_joined. apply elem_of_joined. exists w. split; [done|].
    apply accept_approx; [by apply (member_good c w Hg)|done].
  - intros c d Hg (w & Hw & Ha)%elem_of_joined. eapply approx_range; [|done]. by apply (member_good c w Hg).
  - intros c Hg. pose proof Hg as (_ & (w & Hw & Hd) & _). destruct (member_good c w Hg Hw) as (H1 & H2 & _).
    cbn. rewrite <- Hd, H2. destruct (doc_id_ok _ H1) as [|[|Ha]]; [by left|by right; left|right; right].
    apply elem_of_joined. by exists w.
  - intros c Hg Ht. change (joined accept (dj_subs c) = joined approx (dj_subs c)). apply set_eq. intros x.
    pose proof Hg as (_ & _ & _ & H2 & _). rewrite !elem_of_joined.
    assert (Hone : forall w, w ∈ dj_subs c -> accept (d_scorer w) = approx (d_scorer w)).
    { intros w Hw. apply one_phase; [by apply (member_good c w Hg)|].
      destruct (two_phase (d_scorer w)) eqn:Ew; [|done]. cbn in Ht.
      assert (existsb two_phase (kids (dj_subs c)) = true); [|congruence].
      apply existsb_exists. exists (d_scorer w). split; [|done]. unfold kids. apply in_map. by apply list_elem_of_In. }
    split; intros (w & Hw & Hx); exists w; (split; [done|]); specialize (Hone w Hw); congruence.
  - intros n c. apply dj_next_ok.
  - intros n c u. apply dj_advance_ok.
  - intros n c. apply dj_matches_ok.
  - intros c _ Ht _ Ht'. cbn in Ht. congruence.
  - intros n c. apply dj_score_ok.
  - intros n c u. apply dj_shallow_ok.
  - intros n c u. apply dj_max_score_ok.
  - intros c u Hg _ _. cbn. by split_and!.
  - intros c d b _ _. done.
Qed.

(** The score over the clauses themselves. *)
Lemma dj_gives_scores comb (l : list S) d x :
  dj_gives true comb (map accept l) (map gives l) d x -> exists xs, scores_of l d xs /\ x = combined comb xs.
Proof.
  intros H. destruct (H eq_refl) as (is_ & xs & Hnd & Hel & Hxs & ->). set (P := fun s : S => bool_decide (d ∈ accept s)).
  assert (Hp : is_ ≡ₚ List.filter (fun i => ask l i P false) (seq 0 (length l))).
  { apply list.NoDup_Permutation; [done|apply NoDup_ListNoDup, List.NoDup_filter, seq_NoDup|]. intros i. rewrite Hel.
    rewrite list_elem_of_In, filter_In, <- list_elem_of_In, elem_of_seq. unfold ask. split.
    - intros (A & Hi & HA). change (map accept l) with (accept <$> l) in Hi. rewrite list_lookup_fmap in Hi.
      destruct (l !! i) as [s|] eqn:Es; [|done]. injection Hi as <-. apply lookup_lt_Some in Es as Hlt. split; [lia|].
      by apply bool_decide_eq_true.
    - intros [_ Hi]. destruct (l !! i) as [s|] eqn:Es; [|done]. exists (accept s).
      change (map accept l) with (accept <$> l). rewrite list_lookup_fmap, Es. split; [done|]. by apply bool_decide_eq_true in Hi. }
  assert (Hf : Forall2 (fun i s => l !! i = Some s) (List.filter (fun i => ask l i P false) (seq 0 (length l))) (List.filter P l))
    by apply filter_positions.
  symmetry in Hp. destruct (Permutation_Forall2 Hp Hf) as (ss & Hss & Hf').
  exists xs. split; [|done]. exists ss. split; [|by eapply gives_at_lookup].
  rewrite <- Hss. unfold P. by rewrite filter_decided.
Qed.

(** *** The constructor *)
Lemma push_all_ok dcs is_ : forall q,
  queue_ok q dcs -> Forall (fun i => (i < length dcs)%nat) is_ ->
  exists q', push_all q dcs is_ = Some q' /\ queue_ok q' dcs /\ members q' ≡ₚ is_ ++ members q /\ linear q' = linear q.
Proof.
  induction is_ as [|i is_ IH]; intros q Hq Hf; cbn [push_all]; [by exists q|].
  inversion Hf as [|? ? Hi Hf']; subst. destruct (queue_push_ok q dcs i Hq Hi) as (q1 & -> & H1 & H2 & H3).
  cbn [mbind option_bind]. destruct (IH q1 H1 Hf') as (q' & -> & H4 & H5 & H6). exists q'. split; [done|]. split; [done|].
  split; [|congruence]. rewrite H5, H2. symmetry. apply Permutation_middle.
Qed.

Lemma kids_new (l : list S) : kids (map disi_new l) = l.
Proof. unfold kids. rewrite map_map. cbn. apply map_id. Qed.

Lemma fold_two l : forall acc,
  (fold_left (fun '(two, sum_match_cost, sum_approx_cost, cost) (w : Disi S) =>
      let weight := Z.max (d_cost w) 1 in
      let sum_approx_cost := sat64 (sum_approx_cost + weight) in
      let '(two, sum_match_cost) :=
        if two_phase (d_scorer w)
        then (true, f32_add sum_match_cost (f32_mul (d_match_cost w) (f32_of_Z weight)))
        else (two, sum_match_cost) in
      (two, sum_match_cost, sum_approx_cost, sat64 (cost + d_cost w))) l acc).1.1.1
  = acc.1.1.1 || existsb two_phase (kids l).
Proof.
  induction l as [|w l IH]; intros [[[two a] b] c]; cbn [fold_left kids map existsb]; [by rewrite orb_false_r|].
  rewrite IH. cbn [fst]. unfold kids. destruct (two_phase (d_scorer w)); cbn; [by rewrite orb_true_r|done].
Qed.

Lemma dj_new_ok n (l : list S) comb ns :
  l <> [] -> Forall Scorer.fresh l ->
  wp (dj_new l comb ns) n (fun c => good c /\ doc_id c = -1 /\ approx c = ⋃ map approx l /\ accept c = ⋃ map accept l /\
    two_phase c = existsb two_phase l /\ need c = (total_need l + length l + 2)%nat /\
    gives c = dj_gives ns comb (map accept l) (map gives l)).
Proof.
  intros Hne Hf. unfold dj_new. pose proof (fold_two (map disi_new l) (false, f32_of_Z 0, 0, 0)) as Htwo.
  destruct (fold_left _ _ _) as [[[two smc] sac] cst]. cbn [fst] in Htwo. rewrite kids_new in Htwo. cbn in Htwo.
  set (v := map disi_new l). assert (Hlv : length (docs v) = length v) by (unfold docs; by rewrite length_map).
  destruct (push_all_ok (docs v) (seq 0 (length v)) (for_disjunction (length v))) as (q & Hq & H1 & H2 & H3).
  { apply queue_new. }
  { apply Forall_seq. lia. }
  wp_bind. eapply wp_of_option; [exact Hq|]. wp_ret.
  assert (Hkids : kids v = l) by apply kids_new.
  split; [|split; [done|]].
  - split; [|split; [|split; [split; [|done]|split]]].
    + apply Forall_forall. intros w [s [<- Hs]]%in_map_iff. rewrite Forall_forall in Hf. destruct (Hf s Hs) as [Hg Hd].
      split; [done|]. split; [done|]. split; [|cbn; lia]. intros x Hx Hle. cbn in *. lia.
    + destruct l as [|s l]; [done|]. exists (disi_new s). split; [by left|done].
    + cbn. rewrite H2. cbn. by rewrite app_nil_r.
    + change (two = existsb two_phase (kids v)). by rewrite Hkids.
    + done.
  - split; [change (joined approx v = ⋃ map approx l); unfold joined; by rewrite Hkids|].
    split; [change (joined accept v = ⋃ map accept l); unfold joined; by rewrite Hkids|].
    split; [done|]. split.
    + change (total_need (kids v) + length v + 2 = total_need l + length l + 2)%nat.
      rewrite Hkids. unfold v. by rewrite length_map.
    + change (dj_gives ns comb (map accept (kids v)) (map gives (kids v)) = dj_gives ns comb (map accept l) (map gives l)).
      by rewrite Hkids.
Qed.

Lemma with_block_propagator_ok n c :
  good c -> (need c <= n)%nat ->
  wp (with_block_propagator c) n (fun c' => good c' /\ same c c' /\ doc_id c' = doc_id c).
Proof.
  intros Hg Hn. unfold with_block_propagator. wp_bind. wp_use (bp_new_ok n (dj_subs c)).
  - by apply good_members.
  - destruct Hg as (_ & (w & Hw & _) & _). intros He. rewrite He in Hw. by apply not_elem_of_nil in Hw.
  - cbn in Hn. lia.
  - intros [p v] [Hk Hp]. cbn [fst snd] in *. wp_ret. destruct (put_kept c v Hg Hk) as ((G1 & G2 & G3 & G4 & _) & Hs & Hd & _).
    split; [|by split]. by split_and!.
Qed.
End dj_laws.
