(* ===== verification/Dyn.v ===== *)
(** * [Box<dyn Scorer>]

    Where the code boxes scorers of different types, the development has their
    sum: a scorer of either type is a scorer, with the laws of both. *)
From S2P Require Export Scorer.

Section dyn.
Context {E A B : Type} `{ScA : Scorer E A} `{ScB : Scorer E B}.

Definition dyn_with {R} (d : A + B) (f : A -> comp E (R * A)) (g : B -> comp E (R * B)) : comp E (R * (A + B)) :=
  match d with
  | inl a => let! (r, a) := f a in cret (r, inl a)
  | inr b => let! (r, b) := g b in cret (r, inr b)
  end.

Definition dyn_get {R} (d : A + B) (f : A -> R) (g : B -> R) : R :=
  match d with inl a => f a | inr b => g b end.

#[export] Instance dyn_scorer : Scorer E (A + B) := {
  doc_id d := dyn_get d doc_id doc_id;
  next_doc d := dyn_with d next_doc next_doc;
  advance d t := dyn_with d (fun a => advance a t) (fun b => advance b t);
  cost d := dyn_get d cost cost;
  two_phase d := dyn_get d two_phase two_phase;
  matches d := dyn_with d matches matches;
  match_cost d := dyn_get d match_cost match_cost;
  score d := dyn_with d score score;
  advance_shallow d t := dyn_with d (fun a => advance_shallow a t) (fun b => advance_shallow b t);
  max_score d u := dyn_with d (fun a => max_score a u) (fun b => max_score b u);
  set_min_competitive_score d m :=
    match d with
    | inl a => let! a := set_min_competitive_score a m in cret (inl a)
    | inr b => let! b := set_min_competitive_score b m in cret (inr b)
    end;
  advance_exact_cheap d t :=
    match d with
    | inl a => let '(r, a) := advance_exact_cheap a t in (r, inl a)
    | inr b => let '(r, b) := advance_exact_cheap b t in (r, inr b)
    end;
  contains d x := dyn_get d (fun a => contains a x) (fun b => contains b x);
}.
End dyn.

Section dyn_laws.
Context {E A B : Type} `{LA : ScorerLaws E A} `{LB : ScorerLaws E B}.

#[export] Instance dyn_view : ScorerView (A + B) := {
  good d := match d with inl a => good a | inr b => good b end;
  approx d := match d with inl a => approx a | inr b => approx b end;
  accept d := match d with inl a => accept a | inr b => accept b end;
  confirmed d := match d with inl a => confirmed a | inr b => confirmed b end;
  need d := match d with inl a => need a | inr b => need b end;
  gives d := match d with inl a => gives a | inr b => gives b end;
}.

Lemma dyn_left_ok {R} n (a : A) (f : A -> comp E (R * A)) (g : B -> comp E (R * B)) Q (P : R * (A + B) -> Prop) :
  wp (f a) n Q -> (forall r a', Q (r, a') -> P (r, inl a')) -> wp (dyn_with (inl a) f g) n P.
Proof. intros H HP. unfold dyn_with. wp_bind. wp_use H. intros [r a'] HQ. wp_ret. by apply HP. Qed.

Lemma dyn_right_ok {R} n (b : B) (f : A -> comp E (R * A)) (g : B -> comp E (R * B)) Q (P : R * (A + B) -> Prop) :
  wp (g b) n Q -> (forall r b', Q (r, b') -> P (r, inr b')) -> wp (dyn_with (inr b) f g) n P.
Proof. intros H HP. unfold dyn_with. wp_bind. wp_use H. intros [r b'] HQ. wp_ret. by apply HP. Qed.

#[export] Instance dyn_laws : ScorerLaws E (A + B).
Proof.
  split.
  - intros [a|b] Hg; cbn in *; by apply accept_approx.
  - intros [a|b] d Hg; cbn in *; by apply approx_range.
  - intros [a|b] Hg; cbn in *; by apply doc_id_ok.
  - intros [a|b] Hg Ht; cbn in *; by apply one_phase.
  - intros n [a|b] Hg Hd Hn; cbn in Hg, Hd, Hn |- *.
    + by apply (dyn_left_ok n a next_doc next_doc (lands a (doc_id a + 1)) _ (next_doc_ok n a Hg Hd Hn)).
    + by apply (dyn_right_ok n b next_doc next_doc (lands b (doc_id b + 1)) _ (next_doc_ok n b Hg Hd Hn)).
  - intros n [a|b] t Hg Hd Ht Hn; cbn in Hg, Hd, Hn |- *.
    + by apply (dyn_left_ok n a (fun a => advance a t) (fun b => advance b t) (lands a t) _ (advance_ok n a t Hg Hd Ht Hn)).
    + by apply (dyn_right_ok n b (fun a => advance a t) (fun b => advance b t) (lands b t) _ (advance_ok n b t Hg Hd Ht Hn)).
  - intros n [a|b] Hg Hd Hn; cbn in Hg, Hd, Hn |- *.
    + by apply (dyn_left_ok n a matches matches (answers a) _ (matches_ok n a Hg Hd Hn)).
    + by apply (dyn_right_ok n b matches matches (answers b) _ (matches_ok n b Hg Hd Hn)).
  - intros [a|b] Hg Ht Hd; cbn in *; by apply one_phase_confirmed.
  - intros n [a|b] Hg Hd Hc Hn; cbn in Hg, Hd, Hc, Hn |- *.
    + by apply (dyn_left_ok n a score score (gives_score a) _ (score_ok n a Hg Hd Hc Hn)).
    + by apply (dyn_right_ok n b score score (gives_score b) _ (score_ok n b Hg Hd Hc Hn)).
  - intros n [a|b] t Hg Ht Hn; cbn in Hg, Hn |- *.
    + by apply (dyn_left_ok n a (fun a => advance_shallow a t) (fun b => advance_shallow b t) (holds a) _ (shallow_ok n a t Hg Ht Hn)).
    + by apply (dyn_right_ok n b (fun a => advance_shallow a t) (fun b => advance_shallow b t) (holds b) _ (shallow_ok n b t Hg Ht Hn)).
  - intros n [a|b] t Hg Hn; cbn in Hg, Hn |- *.
    + by apply (dyn_left_ok n a (fun a => max_score a t) (fun b => max_score b t) (holds a) _ (max_score_ok n a t Hg Hn)).
    + by apply (dyn_right_ok n b (fun a => max_score a t) (fun b => max_score b t) (holds b) _ (max_score_ok n b t Hg Hn)).
  - intros [a|b] t Hg Hd Ht; cbn in Hg, Hd |- *.
    + pose proof (exact_cheap_ok a t Hg Hd Ht) as H. by destruct (advance_exact_cheap a t) as [[[]|] a'].
    + pose proof (exact_cheap_ok b t Hg Hd Ht) as H. by destruct (advance_exact_cheap b t) as [[[]|] b'].
  - intros [a|b] d x Hg Hd Hx; cbn in Hg, Hx |- *; by apply contains_ok.
Qed.

Lemma fresh_inl (a : A) : fresh a -> fresh (inl a : A + B).
Proof. done. Qed.
Lemma fresh_inr (b : B) : fresh b -> fresh (inr b : A + B).
Proof. done. Qed.
End dyn_laws.
