(* ===== verification/BooleanScorer.v ===== *)
(** * Composing a boolean query's scorer ([lucene-search/src/exec/build.rs])

    [compose] and its [req], [excl] and [opt]: the scorer of a boolean query
    from the scorers of its clauses.  The clauses' scorers have any type [S];
    none is a term leg, so the paths the code keeps for terms ([TermSum],
    [LegConjunctionScorer]) are not taken.  Where the code builds a
    [WandScorer] or a [BlockMaxConjunctionScorer] the result says so.  Proved:
    whatever else is built is fresh, accepts exactly the documents of the
    boolean ([matching]) and scores them with the boolean's scores
    ([boolean_score]). *)
From S2P Require Export DisjunctionLaws Conjunction Req Leaf Dyn.

(** What is built: a scorer, or one of the two that are not modelled. *)
Inductive built (S A : Type) :=
| Built (a : A)
| NeedsWand (optional : list S) (msm : nat) (top_scores : bool) (lead_cost : Z)
| NeedsBlockMax (filter must : list S).
Arguments Built {S A} _.
Arguments NeedsWand {S A} _ _ _ _.
Arguments NeedsBlockMax {S A} _ _.

(** [cost_with_min_should_match] ([exec/wand.rs]). *)
Definition cost_with_min_should_match (costs : list Z) (min_should_match : nat) : Z :=
  let sorted := sort_by Z.leb costs in
  fold_left (fun a c => sat64 (a + c)) (take (length costs + 1 - min_should_match) sorted) 0.

Definition built_bind {S A B E} (m : built S A) (f : A -> comp E (built S B)) : comp E (built S B) :=
  match m with
  | Built a => f a
  | NeedsWand o k t l => cret (NeedsWand o k t l)
  | NeedsBlockMax f m => cret (NeedsBlockMax f m)
  end.

(** The boxes: what each function returns as [Box<dyn Scorer>]. *)
Definition ReqBox (S : Type) : Type := S + (ZeroScorer S + ConjunctionScorer S).
Definition OptBox (S : Type) : Type := S + DisjunctionScorer S.
Definition ExclBox (M S : Type) : Type := M + ReqExclScorer M (OptBox S).
Definition Inner (S : Type) : Type :=
  (ExclBox (ReqBox S) S + ExclBox (OptBox S) S) +
  (ConjunctionScorer (ExclBox (ReqBox S) S + OptBox S) +
   ReqOptSumScorer (ExclBox (ReqBox S) S) (OptBox S)).
Definition Composed (S : Type) : Type := S + (Inner S + ConstantScorer (Inner S)).

Section compose.
Context {E S : Type} `{Sc : Scorer E S}.

(** [BooleanScorerSupplier.req]; at least one clause. *)
Definition req (filter must : list S) (mode : Mode) (top_level : bool) : built S (ReqBox S) :=
  match filter, must with
  | [], [s] => Built (inl s)
  | [s], [] => Built (if needs_scores mode then inr (inl (Zero s)) else inl s)
  | _, _ =>
      if bool_decide (mode = TopScores) && Nat.ltb 1 (length must) && top_level
      then NeedsBlockMax filter must
      else Built (inr (inr (conj_new filter must)))
  end.

(** [BooleanScorerSupplier.excl]. *)
Definition excl {M} `{ScM : Scorer E M} (main : M) (prohibited : list S) : comp E (ExclBox M S) :=
  match prohibited with
  | [] => cret (inl main)
  | _ =>
      let! excluded :=
        match prohibited with
        | [only] => cret (inl only)
        | _ => let! d := dj_new prohibited Combine_Sum false in cret (inr d)
        end in
      cret (inr (rx_new main excluded))
  end.

(** [BooleanScorerSupplier.opt]. *)
Definition opt (optional : list S) (msm : nat) (mode : Mode) (top_level : bool) (lead_cost : Z)
  : comp E (built S (OptBox S)) :=
  match optional with
  | [only] => cret (Built (inl only))
  | _ =>
      if (bool_decide (mode = TopScores) && top_level) || Nat.ltb 1 msm
      then cret (NeedsWand optional msm (bool_decide (mode = TopScores)) lead_cost)
      else let! d := dj_new optional Combine_Sum (needs_scores mode) in cret (Built (inr d))
  end.

Definition lead_cost_of (must filter should : list S) (msm : nat) : Z :=
  let min_of := fold_left (fun acc s => match acc with None => Some (cost s) | Some m => Some (Z.min m (cost s)) end) in
  match min_of (must ++ filter) None, Nat.eqb msm 0 with
  | Some c, true => c
  | m, _ => Z.min (default i64_max m) (cost_with_min_should_match (map cost should) msm)
  end.

(** The tail of [compose_child], once its early returns are behind. *)
Definition compose_inner (must filter should must_not : list S) (msm : nat) (mode : Mode) (top_level : bool)
  : comp E (built S (Inner S)) :=
  let lead_cost := lead_cost_of must filter should msm in
  match should with
  | [] =>
      built_bind (req filter must mode top_level) (fun r =>
        let! x := excl r must_not in cret (Built (inl (inl x))))
  | _ =>
      match filter ++ must with
      | [] =>
          let! o := opt should msm mode top_level lead_cost in
          built_bind o (fun o => let! x := excl o must_not in cret (Built (inl (inr x))))
      | _ =>
          built_bind (req filter must mode false) (fun r =>
            let! r := excl r must_not in
            let! o := opt should msm mode false lead_cost in
            built_bind o (fun o =>
              if Nat.ltb 0 msm
              then cret (Built (inr (inl (conj_new [] [inl r; inr o]))))
              else let! c := ro_new r o (bool_decide (mode = TopScores)) in cret (Built (inr (inr c)))))
      end
  end.

Definition compose (must filter should must_not : list S) (minimum_should_match : nat) (mode : Mode) (top_level : bool)
  : comp E (option (built S (Composed S))) :=
  let msm := minimum_should_match in
  let '(must, should, msm) :=
    if Nat.eqb (length should) msm then (must ++ should, [], 0%nat) else (must, should, msm) in
  if Nat.eqb (length filter + length must + length should) 0 then cret None
  else if Nat.ltb (length should) msm then cret None
  else
    let should :=
      if negb (needs_scores mode) && Nat.eqb msm 0 && Nat.ltb 0 (length must + length filter)
      then [] else should in
    match filter, must_not, must, should with
    | [], [], [only], [] => cret (Some (Built (inl only)))
    | [], [], [], [only] => cret (Some (Built (inl only)))
    | _, _, _, _ =>
        let! s := compose_inner must filter should must_not msm mode top_level in
        let! s := built_bind s (fun s =>
          cret (Built (inr (if bool_decide (mode = TopScores) && Nat.eqb (length should + length must) 0
                            then inr (const_new s (f32_of_Z 0) true) else inl s)))) in
        cret (Some s)
    end.
End compose.

(** ** The documents of a boolean *)
Section boolean.
Context {E S : Type} `{L : ScorerLaws E S}.
Implicit Types (s : S) (must filter should must_not : list S).

(** How many of the clauses match [x]. *)
Definition count (l : list S) (x : Z) : nat := length (base.filter (fun s => x ∈ accept s) l).

(** Every required clause matches, enough of the optional ones do (at least
    one, when nothing is required) and no prohibited one does. *)
Definition matching (must filter should must_not : list S) (msm : nat) (x : Z) : Prop :=
  (forall s, s ∈ must ++ filter -> x ∈ accept s) /\ (msm <= count should x)%nat /\
  (must ++ filter = [] -> 1 <= count should x)%nat /\ forall s, s ∈ must_not -> x ∉ accept s.

Lemma count_le l x : (count l x <= length l)%nat.
Proof. apply length_filter. Qed.

Lemma count_pos l x : (1 <= count l x)%nat <-> exists s, s ∈ l /\ x ∈ accept s.
Proof.
  unfold count. split.
  - destruct (base.filter _ l) as [|s k] eqn:Ef; [cbn; lia|]. intros _. exists s.
    assert (Hs : s ∈ base.filter (fun s => x ∈ accept s) l) by (rewrite Ef; by left).
    apply list_elem_of_filter in Hs. naive_solver.
  - intros (s & Hs & Hx). assert (Hin : s ∈ base.filter (fun s => x ∈ accept s) l) by (by apply list_elem_of_filter).
    destruct (base.filter _ l); [by apply not_elem_of_nil in Hin|cbn; lia].
Qed.

Lemma count_all l x : count l x = length l <-> forall s, s ∈ l -> x ∈ accept s.
Proof.
  induction l as [|s l IH]; unfold count in *; [split; [intros _ s Hs; by apply not_elem_of_nil in Hs|done]|].
  rewrite filter_cons. case_decide as Hd; cbn.
  - split.
    + intros [= H] y [->|Hy]%elem_of_cons; [done|]. by apply IH.
    + intros H. f_equal. apply IH. intros y Hy. apply H. by right.
  - split; [|intros H; exfalso; apply Hd, H; by left].
    intros H. pose proof (length_filter (fun s => x ∈ accept s) l). lia.
Qed.

Lemma in_union l x : x ∈ ⋃ map accept l <-> exists s, s ∈ l /\ x ∈ accept s.
Proof.
  rewrite elem_of_union_list. split.
  - intros (A & (s & -> & Hs)%list_elem_of_fmap & Hx). by exists s.
  - intros (s & Hs & Hx). exists (accept s). split; [|done]. apply list_elem_of_fmap. by exists s.
Qed.

Lemma in_meet l x : l <> [] -> x ∈ Conjunction.meet (map accept l) <-> forall s, s ∈ l -> x ∈ accept s.
Proof.
  intros Hne. rewrite elem_of_meet. split.
  - intros [_ H] s Hs. apply H. apply list_elem_of_fmap. by exists s.
  - intros H. split; [by destruct l|]. intros A (s & -> & Hs)%list_elem_of_fmap. by apply H.
Qed.

(** ** The scores of a boolean

    The score of what is required: one clause's own, or the [double] sum of
    the scoring clauses' as a [float]; filters add nothing. *)
Definition required_score filter must (d : Z) (x : f32) : Prop :=
  match filter, must with
  | [], [s] => gives s d x
  | _, _ => exists xs, scores_of must d xs /\ x = sum_of xs
  end.

(** Of the optional clauses: those that match, summed. *)
Definition optional_score should (d : Z) (x : f32) : Prop :=
  match should with
  | [s] => gives s d x
  | _ => exists xs, scores_of should d xs /\ x = sum_of xs
  end.

(** Of both: summed when some optional clause must match; otherwise the
    optional clauses add to the required ones' score when one matches. *)
Definition both_score must filter should (msm : nat) (d : Z) (x : f32) : Prop :=
  match should, filter ++ must with
  | [], _ => required_score filter must d x
  | _, [] => optional_score should d x
  | _, _ => exists r, required_score filter must d r /\
      if decide (1 <= count should d)%nat
      then exists o, optional_score should d o /\
             if Nat.ltb 0 msm then x = sum_of [r; o] \/ x = sum_of [o; r] else x = f32_add r o
      else x = r
  end.

(** As many optional clauses as must match are required ones. *)
Definition boolean_score must filter should (msm : nat) (d : Z) (x : f32) : Prop :=
  if Nat.eqb (length should) msm then both_score (must ++ should) filter [] 0 d x
  else both_score must filter should msm d x.

(** *** [req], [excl] and [opt] *)
(** [c] is fresh, accepts the documents of [P], and scores them as [G] says. *)
Definition stands_for {X} `{Scorer E X} `{ScorerView X} (c : X) (P : Z -> Prop) (G : Z -> f32 -> Prop) : Prop :=
  Scorer.fresh c /\ (forall x, x ∈ accept c <-> P x) /\ forall d x, P d -> gives c d x -> G d x.

(** Said of the modes that score. *)
Definition when_scoring (mode : Mode) (G : Z -> f32 -> Prop) (d : Z) (x : f32) : Prop := needs_scores mode = true -> G d x.

Lemma all_scores l d xs : (forall s, s ∈ l -> d ∈ accept s) ->
  (exists ss : list S, ss ≡ₚ l /\ Forall2 (fun s x => gives s d x) ss xs) -> scores_of l d xs.
Proof.
  intros Hall (ss & Hp & Hx). exists ss. split; [|done]. rewrite Hp. symmetry. rewrite filter_all; [done|].
  apply Forall_forall. intros s Hs. by apply Hall.
Qed.

Lemma req_ok filter must mode top :
  filter ++ must <> [] -> Forall Scorer.fresh (filter ++ must) ->
  match req filter must mode top with
  | Built r => stands_for r (fun x => forall s, s ∈ filter ++ must -> x ∈ accept s) (when_scoring mode (required_score filter must))
  | NeedsBlockMax _ _ => mode = TopScores /\ top = true
  | NeedsWand _ _ _ _ => False
  end.
Proof.
  intros Hne Hf.
  assert (Hone : forall s, Scorer.fresh s -> forall x, x ∈ accept s <-> forall t, t ∈ [s] -> x ∈ accept t).
  { intros s _ x. split; [intros H t ->%list_elem_of_singleton; done|intros H; apply H; by left]. }
  assert (Hconj : stands_for (inr (inr (conj_new filter must)) : ReqBox S)
                    (fun x => forall s, s ∈ filter ++ must -> x ∈ accept s)
                    (fun d x => exists xs, scores_of must d xs /\ x = sum_of xs)).
  { split; [by apply fresh_inr, fresh_inr, conj_new_fresh|]. split.
    - intros x. change (x ∈ accept (conj_new filter must) <-> forall s, s ∈ filter ++ must -> x ∈ accept s).
      rewrite conj_new_accept. by apply in_meet.
    - intros d x Hd Hx. destruct (conj_new_gives filter must d x Hx) as (ss & xs & Hp & Hxs & ->). exists xs. split; [|done].
      apply all_scores; [intros s Hs; apply Hd; set_solver|by exists ss]. }
  assert (Hgen : match (if bool_decide (mode = TopScores) && Nat.ltb 1 (length must) && top
                        then NeedsBlockMax filter must else Built (inr (inr (conj_new filter must)))) with
                 | Built r => stands_for (r : ReqBox S) (fun x => forall s, s ∈ filter ++ must -> x ∈ accept s)
                                (fun d x => exists xs, scores_of must d xs /\ x = sum_of xs)
                 | NeedsBlockMax _ _ => mode = TopScores /\ top = true
                 | NeedsWand _ _ _ _ => False
                 end).
  { destruct (bool_decide_reflect (mode = TopScores)), (Nat.ltb 1 (length must)), top; cbn [andb]; done. }
  assert (Hmore : match filter, must with [], [_] | [_], [] => True | _, _ =>
      match req filter must mode top with
      | Built r => stands_for (r : ReqBox S) (fun x => forall s, s ∈ filter ++ must -> x ∈ accept s)
                     (when_scoring mode (required_score filter must))
      | NeedsBlockMax _ _ => mode = TopScores /\ top = true
      | NeedsWand _ _ _ _ => False
      end end).
  { destruct filter as [|f [|f' filter]], must as [|m [|m' must]]; try done; unfold req, when_scoring, required_score;
      (destruct (if bool_decide (mode = TopScores) && _ && top then _ else _); [|exact Hgen..];
       destruct Hgen as (G1 & G2 & G3); split_and!; eauto). }
  unfold req in *. destruct filter as [|f [|f' filter]], must as [|m [|m' must]]; try exact Hmore; clear Hmore Hgen Hconj.
  - inversion Hf; subst. split; [done|]. split; [by apply Hone|]. intros d x _ Hx _. exact Hx.
  - inversion Hf; subst. destruct (needs_scores mode) eqn:En; (split; [done|]; split; [by apply Hone|]); intros d x _ Hx Hs; [|congruence].
    exists []. split; [|exact Hx]. by exists [].
Qed.

Lemma excl_ok {M} `{LM : ScorerLaws E M} n (main : M) prohibited P G :
  stands_for main P G -> Forall Scorer.fresh prohibited ->
  wp (excl main prohibited) n (fun c =>
    stands_for c (fun x => P x /\ forall s, s ∈ prohibited -> x ∉ accept s) G /\
    (need c <= need main + total_need prohibited + length prohibited + 2)%nat).
Proof.
  intros (Hfm & HP & HG) Hf. unfold excl.
  assert (Hrx : forall x : OptBox S, Scorer.fresh x -> (forall d, d ∈ accept x <-> exists s, s ∈ prohibited /\ d ∈ accept s) ->
    stands_for (inr (rx_new main x) : ExclBox M S) (fun d => P d /\ forall s, s ∈ prohibited -> d ∉ accept s) G).
  { intros x Hx Ha. split; [by apply fresh_inr, rx_new_fresh|]. split; [|intros d y [Hd _] Hy; by apply HG]. intros d.
    change (d ∈ accept main ∖ accept x <-> P d /\ forall s, s ∈ prohibited -> d ∉ accept s).
    rewrite elem_of_difference, HP, Ha. naive_solver. }
  destruct prohibited as [|p [|p' rest]].
  - wp_ret. split; [|cbn; lia]. split; [done|]. split; [|intros d y [Hd _] Hy; by apply HG]. intros x. change (x ∈ accept main <-> P x /\ forall s, s ∈ [] -> x ∉ accept s).
    rewrite HP. split; [|by intros []]. intros H. split; [done|]. intros s Hs. by apply not_elem_of_nil in Hs.
  - inversion Hf; subst. wp_bind. wp_ret. wp_ret. split; [|cbn; lia]. apply Hrx; [done|].
    intros d. change (d ∈ accept p <-> exists s, s ∈ [p] /\ d ∈ accept s). split; [exists p; split; [by left|done]|].
    by intros (s & ->%list_elem_of_singleton & H).
  - wp_bind. wp_bind. wp_use (dj_new_ok n (p :: p' :: rest) Combine_Sum false); [done|done|].
    intros d (G1 & G2 & _ & G4 & _ & G6 & _). wp_ret. wp_ret. split.
    + apply Hrx; [by split|]. intros x. change (x ∈ accept d <-> exists s, s ∈ p :: p' :: rest /\ x ∈ accept s).
      rewrite G4. apply in_union.
    + change (need main + need d <= need main + total_need (p :: p' :: rest) + length (p :: p' :: rest) + 2)%nat.
      rewrite G6. lia.
Qed.

Lemma opt_ok n optional msm mode top lead_cost :
  optional <> [] -> Forall Scorer.fresh optional ->
  wp (opt optional msm mode top lead_cost) n (fun r => match r with
    | Built o => stands_for o (fun x => exists s, s ∈ optional /\ x ∈ accept s) (when_scoring mode (optional_score optional)) /\
                 (need o <= total_need optional + length optional + 2)%nat /\
                 (1 < length optional -> msm <= 1)%nat
    | NeedsWand _ _ _ _ => (mode = TopScores /\ top = true) \/ (1 < msm)%nat
    | NeedsBlockMax _ _ => False
    end).
Proof.
  intros Hne Hf. unfold opt. destruct optional as [|o [|o' rest]]; [done| |].
  - inversion Hf; subst. wp_ret. split; [|split; cbn; lia]. split; [done|]. split; [|by intros d x _ Hx _]. intros x.
    change (x ∈ accept o <-> exists s, s ∈ [o] /\ x ∈ accept s). split; [exists o; split; [by left|done]|].
    by intros (s & ->%list_elem_of_singleton & H).
  - destruct (bool_decide_reflect (mode = TopScores)) as [Hm|Hm], top; cbn [andb orb]; try (wp_ret; by left);
      (destruct (Nat.ltb_spec 1 msm) as [Hk|Hk]; [wp_ret; by right|]);
      (wp_bind; wp_use (dj_new_ok n (o :: o' :: rest) Combine_Sum (needs_scores mode)); [done|done|];
       intros d (G1 & G2 & _ & G4 & _ & G6 & G7); wp_ret; split; [|split; [|intros _; exact Hk]];
       [split; [by split|]; split;
         [|intros y x _ Hx Hs; change (gives d y x) in Hx; rewrite G7, Hs in Hx; exact (dj_gives_scores Combine_Sum _ _ _ Hx)];
         intros x; change (x ∈ accept d <-> exists s, s ∈ o :: o' :: rest /\ x ∈ accept s);
        rewrite G4; apply in_union
       |change (need d <= total_need (o :: o' :: rest) + length (o :: o' :: rest) + 2)%nat; rewrite G6; lia]).
Qed.

(** *** [compose] *)
(** What a result says of the boolean. *)
Definition built_ok {X} `{Scorer E X} `{ScorerView X} (mode : Mode) (top : bool) (msm len : nat) (P : Z -> Prop)
    (G : Z -> f32 -> Prop) (r : built S X) : Prop :=
  match r with
  | Built c => stands_for c P G
  | NeedsWand _ _ _ _ => (mode = TopScores /\ top = true) \/ (1 < msm < len)%nat
  | NeedsBlockMax _ _ => mode = TopScores /\ top = true
  end.

Lemma stands_for_iff {X} `{Scorer E X} `{ScorerView X} (c : X) P Q (G K : Z -> f32 -> Prop) :
  stands_for c P G -> (forall x, P x <-> Q x) -> (forall d x, G d x -> K d x) -> stands_for c Q K.
Proof. intros (Hf & HP & HG) HQ HK. split; [done|]. split; [intros x; by rewrite HP|]. intros d x Hd Hx. apply HK, HG; [by apply HQ|done]. Qed.

(** With no optional clause. *)
Lemma compose_required_ok n must filter must_not msm mode top :
  filter ++ must <> [] -> Forall Scorer.fresh (filter ++ must) -> Forall Scorer.fresh must_not -> msm = 0%nat ->
  wp (compose_inner must filter [] must_not msm mode top) n
    (built_ok mode top msm 0 (matching must filter [] must_not msm) (when_scoring mode (both_score must filter [] msm))).
Proof.
  intros Hne Hf Hx ->. unfold compose_inner. pose proof (req_ok filter must mode top Hne Hf) as Hr.
  destruct (req filter must mode top) as [r| |]; cbn [built_bind]; [|done|by wp_ret].
  wp_bind. wp_use (excl_ok n r must_not _ _ Hr Hx). intros c [Hc _]. wp_ret.
  destruct Hc as (Hc1 & Hc2 & Hc3). assert (Hmf : must ++ filter <> []) by (by destruct must, filter).
  assert (HP : forall x, x ∈ accept c <-> matching must filter [] must_not 0 x);
    [|split; [done|]; split; [exact HP|]; intros d x Hd Hxv Hs; apply Hc3; [by apply Hc2, HP|exact Hxv|done]].
  intros x. rewrite Hc2. unfold matching. split.
  - intros [H1 H2]. split; [intros s Hs; apply H1; set_solver|]. split; [lia|]. by split.
  - intros (H1 & _ & _ & H2). split; [|done]. intros s Hs. apply H1. set_solver.
Qed.

(** With only optional clauses. *)
Lemma compose_optional_ok n should must_not msm mode top :
  should <> [] -> Forall Scorer.fresh should -> Forall Scorer.fresh must_not -> (msm < length should)%nat ->
  wp (compose_inner [] [] should must_not msm mode top) n
    (built_ok mode top msm (length should) (matching [] [] should must_not msm) (when_scoring mode (both_score [] [] should msm))).
Proof.
  intros Hne Hf Hx Hlt. unfold compose_inner. destruct should as [|s0 rest] eqn:Es; [done|]. rewrite <- Es in *.
  cbn [app]. wp_bind. wp_use (opt_ok n should msm mode top (lead_cost_of [] [] should msm) Hne Hf).
  intros [o| |] Ho; cbn [built_bind]; [|wp_ret; destruct Ho; [by left|right; lia]|done].
  destruct Ho as (Ho & _ & Hm). wp_bind. wp_use (excl_ok n o must_not _ _ Ho Hx). intros c [Hc _]. wp_ret.
  destruct Hc as (Hc1 & Hc2 & Hc3). assert (Hmsm : (msm <= 1)%nat) by (destruct (decide (1 < length should)%nat); [auto|lia]).
  assert (HP : forall x, x ∈ accept c <-> matching [] [] should must_not msm x).
  2:{ split; [done|]. split; [exact HP|]. intros d x Hd Hxv Hsc. unfold both_score. rewrite Es. rewrite <- Es. cbn [app].
      apply Hc3; [by apply Hc2, HP|exact Hxv|done]. }
  intros x. rewrite Hc2. unfold matching. split.
  - intros [H1%count_pos H2]. split; [intros s Hs; by apply not_elem_of_nil in Hs|]. split; [lia|]. by split.
  - intros (_ & _ & H1 & H2). split; [|done]. apply count_pos. by apply H1.
Qed.

(** With both: how the two halves are put together. *)
Lemma both_score_intro must filter should msm d r x :
  filter ++ must <> [] -> should <> [] -> required_score filter must d r ->
  (if decide (1 <= count should d)%nat
   then exists o, optional_score should d o /\
          if Nat.ltb 0 msm then x = sum_of [r; o] \/ x = sum_of [o; r] else x = f32_add r o
   else x = r) -> both_score must filter should msm d x.
Proof.
  intros H1 H2 Hr Hx. unfold both_score. destruct should as [|s0 rest]; [done|]. destruct (filter ++ must); [done|]. by exists r.
Qed.

Lemma conj_stands must filter should must_not msm mode (c : ExclBox (ReqBox S) S) (o : OptBox S) :
  filter ++ must <> [] -> should <> [] -> msm = 1%nat ->
  stands_for c (fun x => (forall s, s ∈ filter ++ must -> x ∈ accept s) /\ forall s, s ∈ must_not -> x ∉ accept s)
    (when_scoring mode (required_score filter must)) ->
  stands_for o (fun x => exists s, s ∈ should /\ x ∈ accept s) (when_scoring mode (optional_score should)) ->
  stands_for (inr (inl (conj_new [] [inl c; inr o])) : Inner S) (matching must filter should must_not msm)
    (when_scoring mode (both_score must filter should msm)).
Proof.
  intros Hne Hns -> (Hc1 & Hc2 & Hc3) (Ho1 & Ho2 & Ho3). assert (Hmf : must ++ filter <> []) by (by destruct must, filter).
  set (q := conj_new [] [inl c; inr o] : ConjunctionScorer (ExclBox (ReqBox S) S + OptBox S)).
  assert (HP : forall x, x ∈ accept q <-> matching must filter should must_not 1 x).
  { intros x. unfold q. rewrite conj_new_accept. cbn [app map]. unfold matching.
    assert (Hmeet : x ∈ Conjunction.meet [accept (inl c : ExclBox (ReqBox S) S + OptBox S);
                      accept (inr o : ExclBox (ReqBox S) S + OptBox S)] <-> x ∈ accept c /\ x ∈ accept o).
    { cbn [Conjunction.meet foldr]. rewrite elem_of_intersection. cbn [accept dyn_view]. tauto. }
    rewrite Hmeet, Hc2, Ho2, <- count_pos. split.
    - intros [[H1 H2] H3]. split; [intros s Hs; apply H1; set_solver|]. split; [lia|]. by split.
    - intros (H1 & H2 & _ & H3). split; [|lia]. split; [|done]. intros s Hs. apply H1. set_solver. }
  split; [|split; [exact HP|]].
  - apply fresh_inr, fresh_inl. apply conj_new_fresh; [done|].
    constructor; [exact Hc1|]. constructor; [exact Ho1|]. apply Forall_nil_2.
  - intros d x (H1 & H2 & _ & H3) Hx Hs. destruct (conj_new_gives _ _ _ _ Hx) as (ss & xs & Hp & Hxs & ->).
    assert (Hreq : forall r, gives c d r -> required_score filter must d r).
    { intros r Hr. apply Hc3; [split; [intros s Hs'; apply H1; set_solver|done]|done|done]. }
    assert (Hopt : forall y, gives o d y -> optional_score should d y).
    { intros y Hy. apply Ho3; [by apply count_pos|done|done]. }
    symmetry in Hp. apply Permutation_length_2_inv in Hp as [-> | ->].
    all: inversion Hxs as [|? ? ? ? Hx1 Hxs' E1 E2]; subst; inversion Hxs' as [|? ? ? ? Hx2 Hxs2 E3 E4]; subst;
      inversion Hxs2; subst; cbn [gives dyn_view] in Hx1, Hx2.
    + eapply both_score_intro; [done|done|by apply Hreq|]. rewrite decide_True by done. eexists. split; [by apply Hopt|by left].
    + eapply both_score_intro; [done|done|by apply Hreq|]. rewrite decide_True by done. eexists. split; [by apply Hopt|by right].
Qed.

Lemma req_opt_stands must filter should must_not mode (c : ExclBox (ReqBox S) S) (o : OptBox S) (q : ReqOptSumScorer (ExclBox (ReqBox S) S) (OptBox S)) :
  filter ++ must <> [] -> should <> [] ->
  stands_for c (fun x => (forall s, s ∈ filter ++ must -> x ∈ accept s) /\ forall s, s ∈ must_not -> x ∉ accept s)
    (when_scoring mode (required_score filter must)) ->
  stands_for o (fun x => exists s, s ∈ should /\ x ∈ accept s) (when_scoring mode (optional_score should)) ->
  Scorer.fresh q -> accept q = accept c ->
  (forall d v, gives q d v <-> exists x, gives c d x /\
     if decide (d ∈ accept o) then exists y, gives o d y /\ v = f32_add x y else v = x) ->
  stands_for (inr (inr q) : Inner S) (matching must filter should must_not 0) (when_scoring mode (both_score must filter should 0)).
Proof.
  intros Hne Hns (Hc1 & Hc2 & Hc3) (Ho1 & Ho2 & Ho3) Hq Ha Hgv. assert (Hmf : must ++ filter <> []) by (by destruct must, filter).
  split; [by apply fresh_inr, fresh_inr|].
  assert (HP : forall x, x ∈ accept q <-> matching must filter should must_not 0 x).
  { intros x. rewrite Ha, Hc2. unfold matching. split.
    - intros [H1 H2]. split; [intros s Hs; apply H1; set_solver|]. split; [lia|]. by split.
    - intros (H1 & _ & _ & H2). split; [|done]. intros s Hs. apply H1. set_solver. }
  split; [exact HP|]. intros d x Hd Hx Hs. change (gives q d x) in Hx. apply Hgv in Hx as (r & Hr & Hx).
  pose proof Hd as Hin. rewrite <- HP, Ha, Hc2 in Hin.
  apply (both_score_intro _ _ _ _ _ r); [done|done|by apply Hc3|].
  destruct (decide (d ∈ accept o)) as [Hdo|Hdo]; destruct (decide _) as [Hk|Hk].
  - destruct Hx as (y & Hy & ->). exists y. split; [apply Ho3; [by apply Ho2|done|done]|done].
  - exfalso. by apply Hk, count_pos, Ho2.
  - exfalso. by apply Hdo, Ho2, count_pos.
  - exact Hx.
Qed.

Lemma compose_both_ok must filter should must_not msm mode top :
  filter ++ must <> [] -> should <> [] -> Forall Scorer.fresh (filter ++ must) -> Forall Scorer.fresh should ->
  Forall Scorer.fresh must_not -> (msm < length should)%nat ->
  exists N, forall n, (N <= n)%nat ->
  wp (compose_inner must filter should must_not msm mode top) n
    (built_ok mode top msm (length should) (matching must filter should must_not msm)
      (when_scoring mode (both_score must filter should msm))).
Proof.
  intros Hne Hns Hf Hfs Hx Hlt. pose proof (req_ok filter must mode false Hne Hf) as Hr.
  assert (Hmf : must ++ filter <> []) by (by destruct must, filter).
  set (N := (match req filter must mode false with Built r => need r | _ => 0 end + total_need must_not
             + length must_not + total_need should + length should + 5)%nat).
  exists N. intros n Hn. unfold compose_inner. destruct should as [|s0 rest] eqn:Es; [done|]. rewrite <- Es in *.
  destruct (filter ++ must) as [|f0 fs] eqn:Efm; [done|]. rewrite <- Efm in *.
  destruct (req filter must mode false) as [r| |]; cbn [built_bind]; [|done|by destruct Hr].
  wp_bind. wp_use (excl_ok n r must_not _ _ Hr Hx). intros c [Hc Hcn].
  wp_bind. wp_use (opt_ok n should msm mode false (lead_cost_of must filter should msm) Hns Hfs).
  intros [o| |] Ho; cbn [built_bind]; [|wp_ret; destruct Ho as [[_ ?]|]; [done|right; lia]|done].
  destruct Ho as (Ho & Hon & Hm). assert (Hmsm : (msm <= 1)%nat) by (destruct (decide (1 < length should)%nat); [auto|lia]).
  destruct (Nat.ltb_spec 0 msm) as [H0|H0].
  - wp_ret. apply conj_stands; (done || lia).
  - pose proof Hc as (Hc1 & _). pose proof Ho as (Ho1 & _). wp_bind.
    wp_use (ro_new_ok n c o (bool_decide (mode = TopScores)) Hc1 Ho1); [unfold N in Hn; rewrite <- Es in Hn; lia|].
    intros q (Hq & _ & Ha & _ & Hgv). wp_ret. assert (msm = 0%nat) as -> by lia. by apply (req_opt_stands _ _ _ _ _ c o).
Qed.

(** [compose_inner], whatever clauses there are. *)
Lemma compose_inner_ok must filter should must_not msm mode top :
  (filter ++ must) ++ should <> [] -> Forall Scorer.fresh (filter ++ must) -> Forall Scorer.fresh should ->
  Forall Scorer.fresh must_not -> (msm < length should \/ msm = 0 /\ should = [])%nat ->
  exists N, forall n, (N <= n)%nat ->
  wp (compose_inner must filter should must_not msm mode top) n
    (built_ok mode top msm (length should) (matching must filter should must_not msm)
      (when_scoring mode (both_score must filter should msm))).
Proof.
  intros Hne Hf Hs Hx Hm. destruct (decide (should = [])) as [->|Hns].
  - exists 0%nat. intros n _. apply compose_required_ok; [by rewrite app_nil_r in Hne|done|done|].
    destruct Hm as [Hm|[-> _]]; [cbn in Hm; lia|done].
  - assert (Hlt : (msm < length should)%nat) by (destruct Hm as [|[_ ?]]; done).
    destruct (decide (filter ++ must = [])) as [He|Hnm].
    + apply app_eq_nil in He as [-> ->]. exists 0%nat. intros n _. by apply compose_optional_ok.
    + by apply compose_both_ok.
Qed.

Definition result_ok (mode : Mode) (top : bool) (msm len : nat) (P : Z -> Prop) (G : Z -> f32 -> Prop)
    (r : option (built S (Composed S))) : Prop :=
  match r with
  | None => forall x, ~ P x
  | Some r => built_ok mode top msm len P G r
  end.

Lemma result_iff mode top msm len msm' len' P Q (G K : Z -> f32 -> Prop) r :
  result_ok mode top msm len P G r -> (forall x, P x <-> Q x) -> (forall d x, G d x -> K d x) ->
  (1 < msm < len -> 1 < msm' < len')%nat -> result_ok mode top msm' len' Q K r.
Proof.
  intros H HQ HK Hm. destruct r as [[c| |]|]; cbn in *.
  - by eapply stands_for_iff.
  - intuition.
  - done.
  - intros x. rewrite <- HQ. apply H.
Qed.

(** One clause, and nothing else, is the boolean. *)
Lemma single_ok mode top msm len P (G : Z -> f32 -> Prop) s :
  Scorer.fresh s -> (forall x, P x <-> x ∈ accept s) -> (forall d x, gives s d x -> G d x) ->
  result_ok mode top msm len P G (Some (Built (inl s : Composed S))).
Proof. intros Hf HP HG. split; [done|]. split; [intros x; change (x ∈ accept s <-> P x); by rewrite HP|]. intros d x _. apply HG. Qed.

Lemma compose_tail_ok must filter should must_not msm mode top :
  (filter ++ must) ++ should <> [] -> Forall Scorer.fresh (filter ++ must) -> Forall Scorer.fresh should ->
  Forall Scorer.fresh must_not -> (msm < length should \/ msm = 0 /\ should = [])%nat ->
  exists N, forall n, (N <= n)%nat ->
  wp (match filter, must_not, must, should with
      | [], [], [only], [] => cret (Some (Built (inl only)))
      | [], [], [], [only] => cret (Some (Built (inl only)))
      | _, _, _, _ =>
        let! r := compose_inner must filter should must_not msm mode top in
        let! r := built_bind r (fun r =>
          cret (Built (inr (if bool_decide (mode = TopScores) && Nat.eqb (length should + length must) 0
                            then inr (const_new r (f32_of_Z 0) true) else inl r)))) in
        cret (Some r)
      end) n (result_ok mode top msm (length should) (matching must filter should must_not msm)
          (when_scoring mode (both_score must filter should msm))).
Proof.
  intros Hne Hf Hs Hx Hm.
  destruct (compose_inner_ok must filter should must_not msm mode top Hne Hf Hs Hx Hm) as [N HN].
  exists N. intros n Hn. specialize (HN n Hn).
  assert (Hgen : wp (let! r := compose_inner must filter should must_not msm mode top in
      let! r := built_bind r (fun r =>
        cret (Built (inr (if bool_decide (mode = TopScores) && Nat.eqb (length should + length must) 0
                          then inr (const_new r (f32_of_Z 0) true) else inl r)))) in
      cret (Some r)) n (result_ok mode top msm (length should) (matching must filter should must_not msm)
          (when_scoring mode (both_score must filter should msm)))).
  { wp_bind. wp_use HN. intros [c| |] Hc; cbn [built_bind]; wp_bind; wp_ret; wp_ret; [|exact Hc|exact Hc].
    destruct Hc as (Hc1 & Hc2 & Hc3). destruct (bool_decide (mode = TopScores) && Nat.eqb (length should + length must) 0) eqn:Ec.
    - split; [|split; [exact Hc2|]]; [destruct Hc1 as [Hg Hd]; split; [by split_and!|exact Hd]|].
      apply andb_true_iff in Ec as [_ Ec%Nat.eqb_eq]. destruct should as [|]; [|cbn in Ec; lia]. destruct must as [|]; [|cbn in Ec; lia].
      intros d x _ Hxv _. unfold both_score, required_score. destruct filter; (exists []; split; [by exists []|exact Hxv]).
    - split; [exact Hc1|]. split; [exact Hc2|exact Hc3]. }
  destruct filter as [|f filter]; [|exact Hgen]. destruct must_not as [|x must_not]; [|exact Hgen].
  destruct must as [|m [|m' must]]; [destruct should as [|o [|o' should]]; try exact Hgen| |exact Hgen].
  - wp_ret. apply single_ok; [by inversion Hs| |by intros d x Hxv _]. intros x. unfold matching. split.
    + intros (_ & _ & H1 & _). destruct (proj1 (count_pos [o] x) (H1 eq_refl)) as (s & ->%list_elem_of_singleton & H). done.
    + intros H. assert (Hc : (1 <= count [o] x)%nat) by (apply count_pos; exists o; split; [by left|done]).
      split; [intros s Hs'; by apply not_elem_of_nil in Hs'|]. split; [destruct Hm as [Hm|[-> _]]; cbn in *; lia|].
      split; [done|]. intros s Hs'. by apply not_elem_of_nil in Hs'.
  - destruct should as [|o should]; [|exact Hgen]. wp_ret. apply single_ok; [by inversion Hf| |by intros d x Hxv _].
    intros x. unfold matching. split.
    + intros (H & _). apply H. by left.
    + intros H. split; [intros s ->%list_elem_of_singleton; done|].
      split; [destruct Hm as [Hm|[-> _]]; cbn in *; lia|]. split; [done|]. intros s Hs'. by apply not_elem_of_nil in Hs'.
Qed.

(** As many optional clauses as must match: all are required. *)
Lemma matching_all_optional must filter should must_not x :
  matching must filter should must_not (length should) x <-> matching (must ++ should) filter [] must_not 0 x.
Proof.
  unfold matching. split.
  - intros (H1 & H2 & H3 & H4).
    assert (Hall : count should x = length should) by (pose proof (count_le should x); lia).
    rewrite count_all in Hall. split; [intros s Hs; rewrite !elem_of_app in Hs; destruct Hs as [[Hs|Hs]|Hs]; set_solver|].
    split; [lia|]. split; [|done]. intros He. apply app_eq_nil in He as [He ->]. apply app_eq_nil in He as [-> ->]. by apply H3.
  - intros (H1 & _ & H2 & H4).
    assert (Hall : count should x = length should) by (apply count_all; intros s Hs; apply H1; set_solver).
    split; [intros s Hs; apply H1; set_solver|]. split; [lia|]. split; [|done]. intros He.
    apply app_eq_nil in He as [-> ->]. destruct should as [|s should]; [by apply H2|rewrite Hall; cbn; lia].
Qed.

(** Optional clauses that need not match do not select when something is required. *)
Lemma matching_clear must filter should must_not x :
  must ++ filter <> [] -> matching must filter should must_not 0 x <-> matching must filter [] must_not 0 x.
Proof. intros Hne. unfold matching. split; intros (H1 & _ & _ & H4); (split; [done|]; split; [lia|]; by split). Qed.

Lemma compose_rest_ok must filter should must_not msm mode top :
  Forall Scorer.fresh (filter ++ must) -> Forall Scorer.fresh should -> Forall Scorer.fresh must_not ->
  (msm <> length should \/ msm = 0 /\ should = [])%nat ->
  exists N, forall n, (N <= n)%nat ->
  wp (if Nat.eqb (length filter + length must + length should) 0 then cret None
      else if Nat.ltb (length should) msm then cret None
      else
        let should :=
          if negb (needs_scores mode) && Nat.eqb msm 0 && Nat.ltb 0 (length must + length filter)
          then [] else should in
        match filter, must_not, must, should with
        | [], [], [only], [] => cret (Some (Built (inl only)))
        | [], [], [], [only] => cret (Some (Built (inl only)))
        | _, _, _, _ =>
          let! r := compose_inner must filter should must_not msm mode top in
          let! r := built_bind r (fun r =>
            cret (Built (inr (if bool_decide (mode = TopScores) && Nat.eqb (length should + length must) 0
                              then inr (const_new r (f32_of_Z 0) true) else inl r)))) in
          cret (Some r)
        end) n (result_ok mode top msm (length should) (matching must filter should must_not msm)
          (when_scoring mode (both_score must filter should msm))).
Proof.
  intros Hf Hs Hx Hm. destruct (Nat.eqb_spec (length filter + length must + length should) 0) as [He|Hne].
  { exists 0%nat. intros n _. wp_ret. intros x (_ & _ & H & _).
    destruct filter, must, should; try (cbn in He; lia). specialize (H eq_refl). cbn in H. lia. }
  destruct (Nat.ltb_spec (length should) msm) as [Hlt|Hge].
  { exists 0%nat. intros n _. wp_ret. intros x (_ & H & _). pose proof (count_le should x). lia. }
  assert (Hm' : (msm < length should \/ msm = 0 /\ should = [])%nat) by (destruct Hm as [|[]]; [left; lia|by right]).
  assert (Hnil : (filter ++ must) ++ should <> []).
  { intros H. apply (f_equal length) in H. rewrite !length_app in H. cbn in H. lia. }
  destruct (negb (needs_scores mode) && Nat.eqb msm 0 && Nat.ltb 0 (length must + length filter)) eqn:Ec.
  - rewrite !andb_true_iff, Nat.eqb_eq, Nat.ltb_lt in Ec. destruct Ec as [[Ens%negb_true_iff ->] Hlen].
    assert (Hmf : must ++ filter <> []).
    { intros H. apply (f_equal length) in H. rewrite length_app in H. cbn in H. lia. }
    destruct (compose_tail_ok must filter [] must_not 0 mode top) as [N HN].
    + rewrite app_nil_r. by destruct must, filter.
    + done.
    + constructor.
    + done.
    + by right.
    + exists N. intros n Hn. wp_use (HN n Hn). intros r Hr.
      eapply result_iff; [exact Hr|intros x; symmetry; by apply matching_clear| |lia].
      intros d x _ Hs'. congruence.
  - by apply compose_tail_ok.
Qed.

Lemma compose_ok must filter should must_not (minimum_should_match : nat) (mode : Mode) (top_level : bool)
    (Hmust : Forall Scorer.fresh must) (Hfilter : Forall Scorer.fresh filter)
    (Hshould : Forall Scorer.fresh should) (Hnot : Forall Scorer.fresh must_not) :
  exists N, forall n, (N <= n)%nat ->
  wp (compose must filter should must_not minimum_should_match mode top_level) n (fun r =>
    match r with
    | None => forall x, ~ matching must filter should must_not minimum_should_match x
    | Some (Built c) =>
        Scorer.fresh c /\ (forall x, x ∈ accept c <-> matching must filter should must_not minimum_should_match x) /\
        forall d x, d ∈ accept c -> gives c d x -> needs_scores mode = true ->
          boolean_score must filter should minimum_should_match d x
    | Some (NeedsWand _ _ _ _) =>
        (mode = TopScores /\ top_level = true) \/ (1 < minimum_should_match < length should)%nat
    | Some (NeedsBlockMax _ _) => mode = TopScores /\ top_level = true
    end).
Proof.
  assert (Hgoal : exists N, forall n, (N <= n)%nat ->
    wp (compose must filter should must_not minimum_should_match mode top_level) n
      (result_ok mode top_level minimum_should_match (length should)
        (matching must filter should must_not minimum_should_match)
        (when_scoring mode (boolean_score must filter should minimum_should_match)))).
  { unfold compose, boolean_score. destruct (Nat.eqb_spec (length should) minimum_should_match) as [<-|Hne].
    - destruct (compose_rest_ok (must ++ should) filter [] must_not 0 mode top_level) as [N HN].
      + rewrite !Forall_app. by split_and!.
      + constructor.
      + done.
      + by right.
      + exists N. intros n Hn. wp_use (HN n Hn). intros r Hr.
        eapply result_iff; [exact Hr|intros x; symmetry; apply matching_all_optional|done|cbn; lia].
    - apply compose_rest_ok; [by apply Forall_app|done|done|left; lia]. }
  destruct Hgoal as [N HN]. exists N. intros n Hn. wp_use (HN n Hn). intros [[c| |]|]; try done.
  intros (H1 & H2 & H3). split; [done|]. split; [done|]. intros d x Hd Hx Hs. apply H3; [by apply H2|done|done].
Qed.
End boolean.

