(* ===== verification/CachedScorer.v ===== *)
(** * Cached doc-id sets ([lucene-search/src/exec/cache.rs])

    A clause's matches in a segment as a bit set or a sorted list
    ([CachedSet]), the scorer that iterates one ([CachedScorer]) and [collect],
    which computes one from any scorer.  Proved: [CachedScorer] is a lawful
    scorer of its set, in both representations; [collect] of a lawful scorer
    holds exactly its matches below [max_doc], and picks the representation
    by the 1% rule. *)
From stdpp Require Import sorting.
From S2P Require Export Leaf.
From S2P Require Import BitWords FixedBitSet FixedBitSetSpec FixedBitSetAlgebra.

Inductive CachedSet := Bits (bits : FixedBitSet.t) (cardinality : Z) | Docs (docs : list Z).

Definition set_cardinality (s : CachedSet) : Z :=
  match s with Bits _ cardinality => cardinality | Docs docs => zlen docs end.
Definition set_is_empty (s : CachedSet) : bool :=
  match s with Bits _ cardinality => cardinality =? 0 | Docs docs => match docs with [] => true | _ => false end end.
Definition ram_bytes (s : CachedSet) : Z :=
  match s with Bits bits _ => zlen (FixedBitSet.words bits) * 8 | Docs docs => zlen docs * 4 end.
Definition live_count (s : CachedSet) (live_docs : option FixedBitSet.t) : Z :=
  match s, live_docs with
  | Bits _ cardinality, None => if cardinality <? 0 then 0 else cardinality
  | Bits bits _, Some live => FixedBitSet.intersection_count bits live
  | Docs docs, None => zlen docs
  | Docs docs, Some live => zlen (List.filter (FixedBitSet.get_doc live) docs)
  end.

(** ** The iterator *)
Record CachedScorer := mk_Cached {
  cs_set : CachedSet;
  cs_doc : Z;
  cs_at : nat;
  cs_score : f32;
  cs_top_scores : bool;
  cs_emptied : bool;
  cs_cost : option Z;
  cs_run : Z * Z;
}.

(** The trait method [constant_bits]. *)
Class ConstantBits (S : Type) := constant_bits : S -> option (CachedSet * f32).
#[global] Hint Mode ConstantBits ! : typeclass_instances.

Definition cached_constant (set : CachedSet) (score : f32) (top_scores : bool) : CachedScorer :=
  mk_Cached set (-1) 0 score top_scores false None (-1, -1).
Definition cached_new (set : CachedSet) : CachedScorer := cached_constant set (f32_of_Z 0) false.
Definition with_cost (s : CachedScorer) (cost : Z) : CachedScorer :=
  mk_Cached (cs_set s) (cs_doc s) (cs_at s) (cs_score s) (cs_top_scores s) (cs_emptied s) (Some cost) (cs_run s).

Definition cs_put (s : CachedScorer) (doc : Z) (at_ : nat) : CachedScorer :=
  mk_Cached (cs_set s) doc at_ (cs_score s) (cs_top_scores s) (cs_emptied s) (cs_cost s) (cs_run s).

Definition doc_or_end (docs : list Z) (at_ : nat) : Z := default NO_MORE_DOCS (docs !! at_).

(** Doubling the step until it passes [target]: where the last step started,
    and how far it went. *)
Fixpoint gallop (fuel : nat) (rest : list Z) (target : Z) (lo step : nat) : option (nat * nat) :=
  match fuel with
  | O => None
  | S fuel =>
      match rest !! step with
      | Some d => if d <? target then gallop fuel rest target step (step * 2) else Some (lo, step)
      | None => Some (lo, step)
      end
  end.

Section cached_ops.
Context {E : Type}.

Definition cs_advance (s : CachedScorer) (target : Z) : comp E (Z * CachedScorer) :=
  if cs_emptied s then cret (NO_MORE_DOCS, cs_put s NO_MORE_DOCS (cs_at s))
  else
    match cs_set s with
    | Bits bits _ =>
        let doc :=
          if target <? 0 then NO_MORE_DOCS
          else match FixedBitSet.next_set_bit bits target with Some d => wraps 32 d | None => NO_MORE_DOCS end in
        cret (doc, cs_put s doc (cs_at s))
    | Docs docs =>
        let rest := drop (cs_at s) docs in
        let! (lo, step) := of_option (gallop (S (length rest)) rest target 0 1) in
        let hi := Nat.min (step + 1) (length rest) in
        if Nat.leb lo hi then
          let skip := (lo + partition_point (fun d => (d <? target)%Z) (take (hi - lo) (drop lo rest)))%nat in
          let at_ := (cs_at s + skip)%nat in
          cret (doc_or_end docs at_, cs_put s (doc_or_end docs at_) at_)
        else cpanic
    end.

Definition cs_next_doc (s : CachedScorer) : comp E (Z * CachedScorer) :=
  match cs_set s, cs_emptied s with
  | Docs docs, false =>
      let next := if cs_doc s =? -1 then O else Nat.min (cs_at s + 1) (length docs) in
      cret (doc_or_end docs next, cs_put s (doc_or_end docs next) next)
  | _, _ => cs_advance s (sat32 (cs_doc s + 1))
  end.

(** One bit test. *)
Definition bits_has (bits : FixedBitSet.t) (doc : Z) : bool :=
  (0 <=? doc) && (doc <? FixedBitSet.len bits) &&
  match FixedBitSet.get bits doc with Some b => b | None => false end.

#[export] Instance cached_scorer : Scorer E CachedScorer := {
  doc_id := cs_doc;
  next_doc := cs_next_doc;
  advance := cs_advance;
  cost s := match cs_cost s with Some c => c | None => set_cardinality (cs_set s) end;
  two_phase := Defaults.two_phase;
  matches := Defaults.matches;
  match_cost := Defaults.match_cost;
  score s := cret (cs_score s, s);
  advance_shallow := Defaults.advance_shallow;
  max_score s _ := cret (cs_score s, s);
  set_min_competitive_score s min :=
    cret (mk_Cached (cs_set s) (cs_doc s) (cs_at s) (cs_score s) (cs_top_scores s)
            (cs_emptied s || (cs_top_scores s && SFltb (cs_score s) min)) (cs_cost s) (cs_run s));
  advance_exact_cheap s target :=
    if cs_emptied s then (None, s)
    else match cs_set s with
         | Bits bits _ =>
             let hit := bits_has bits target in (Some hit, if hit then cs_put s target (cs_at s) else s)
         | Docs _ => (None, s)
         end;
  contains s doc :=
    if cs_emptied s then None
    else match cs_set s with Bits bits _ => Some (bits_has bits doc) | Docs _ => None end;
}.

#[export] Instance cached_constant_bits : ConstantBits CachedScorer := fun s =>
  if negb (cs_emptied s) then
    match cs_set s with Bits _ _ => Some (cs_set s, cs_score s) | Docs _ => None end
  else None.
End cached_ops.

(** ** [collect] *)
Section collect.
Context {E S : Type} `{Sc : Scorer E S} `{CB : ConstantBits S}.

(** At least 1% of the segment. *)
Definition dense (max_doc n : Z) : bool := max_doc <=? sat64 (n * 100).

Definition into_bits (len : Z) (docs : list Z) : option FixedBitSet.t :=
  foldl (fun b d => b ← b; FixedBitSet.set b d) (Some (FixedBitSet.new len)) docs.

Definition bits_docs (bits : FixedBitSet.t) : list Z := map (wraps 32) (FixedBitSet.for_each_set_bit bits).

Record collecting := mk_collecting {
  co_docs : list Z;
  co_bits : option FixedBitSet.t;
  co_cardinality : Z;
}.

(** A match joins the list, or the set once there is one. *)
Definition collect_doc (max_doc : Z) (c : collecting) (doc : Z) : option collecting :=
  let len := Z.max 0 max_doc in
  if (0 <=? doc) && (doc <? len) then
    let cardinality := co_cardinality c + 1 in
    match co_bits c with
    | Some b => b ← FixedBitSet.set b doc; Some (mk_collecting (co_docs c) (Some b) cardinality)
    | None =>
        let docs := co_docs c ++ [doc] in
        if dense max_doc cardinality
        then b ← into_bits len docs; Some (mk_collecting [] (Some b) cardinality)
        else Some (mk_collecting docs None cardinality)
    end
  else Some c.

Fixpoint collect_loop (n : nat) (max_doc : Z) (s : S) (c : collecting) (doc : Z) : comp E (collecting * S) :=
  match n with
  | O => cdiverge
  | Datatypes.S n =>
      if doc =? NO_MORE_DOCS then cret (c, s)
      else
        let! c := of_option (collect_doc max_doc c doc) in
        let! (doc, s) := exact_next s in
        collect_loop n max_doc s c doc
  end.

(** A set of exactly the segment's bits is handed over. *)
Definition shortcut (s : S) (max_doc : Z) : option CachedSet :=
  if doc_id s =? -1 then
    match constant_bits s with
    | Some (Bits bits cardinality, _) =>
        if FixedBitSet.len bits =? Z.max 0 max_doc
        then Some (if dense max_doc cardinality then Bits bits cardinality else Docs (bits_docs bits))
        else None
    | _ => None
    end
  else None.

Definition collect (s : S) (max_doc : Z) : comp E (CachedSet * S) :=
  match shortcut s max_doc with
  | Some set => cret (set, s)
  | None =>
      let! bits :=
        if dense max_doc (cost s)
        then let! b := of_option (into_bits (Z.max 0 max_doc) []) in cret (Some b) else cret None in
      let! (doc, s) := exact_next s in
      let! (c, s) := cloop (fun n => collect_loop n max_doc s (mk_collecting [] bits 0) doc) in
      cret (match co_bits c with
            | None => Docs (co_docs c)
            | Some bits =>
                if dense max_doc (co_cardinality c) then Bits bits (co_cardinality c) else Docs (bits_docs bits)
            end, s)
  end.
End collect.

(** ** What a set holds, ascending *)
Definition set_list (s : CachedSet) : list Z :=
  match s with Bits b _ => BitWords.members (bit b) 0 (Z.to_nat (FixedBitSet.num_bits b)) | Docs docs => docs end.
Definition set_docs (s : CachedSet) : gset Z := doc_set (set_list s).
Definition set_ok (s : CachedSet) : Prop :=
  match s with
  | Bits b c => inv b /\ FixedBitSet.num_bits b <= NO_MORE_DOCS /\ c = zlen (BitWords.members (bit b) 0 (Z.to_nat (FixedBitSet.num_bits b)))
  | Docs docs => StronglySorted Z.lt docs /\ Forall (fun d => 0 <= d < NO_MORE_DOCS) docs
  end.

Lemma set_docs_range s x : set_ok s -> x ∈ set_docs s -> 0 <= x < NO_MORE_DOCS.
Proof.
  unfold set_docs, doc_set. rewrite elem_of_list_to_set. destruct s as [b c|docs]; cbn.
  - intros (Hi & Hn & _) [Hx _]%members_spec. pose proof (inv_len b Hi). lia.
  - intros [_ Hf] Hx. rewrite Forall_forall in Hf. by apply Hf.
Qed.

Lemma elem_of_bits b c x : inv b -> x ∈ set_docs (Bits b c) <-> 0 <= x /\ bit b x = true.
Proof.
  intros Hi. unfold set_docs, doc_set. rewrite elem_of_list_to_set. cbn. rewrite members_spec.
  pose proof (inv_len b Hi). split; [intros []; split; [lia|done]|]. intros [Hx Hb]. split; [|done]. split; [done|].
  destruct (Z.ltb_spec x (FixedBitSet.num_bits b)); [lia|]. rewrite (inv_ghost b Hi) in Hb by done. done.
Qed.

Lemma in_s32 x : 0 <= x <= NO_MORE_DOCS -> wraps 32 x = x.
Proof. intros H. apply wraps_id; [done|]. change NO_MORE_DOCS with (2 ^ 31 - 1) in H. unfold in_s. lia. Qed.

(** The next set bit is the next document. *)
Lemma next_bit_first b c t :
  set_ok (Bits b c) -> 0 <= t <= NO_MORE_DOCS ->
  first_at (set_docs (Bits b c)) t
    (match FixedBitSet.next_set_bit b t with Some d => wraps 32 d | None => NO_MORE_DOCS end).
Proof.
  intros (Hi & Hn & _) Ht. pose proof (next_set_bit_first b t Hi ltac:(lia)) as Hf. unfold FixedBitSetSpec.first in Hf.
  destruct (FixedBitSet.next_set_bit b t) as [d|].
  - destruct Hf as (Hd & Hb & Hbefore). rewrite in_s32 by lia. split; [lia|].
    split; [right; apply elem_of_bits; [done|split; [lia|done]]|].
    intros x [Hx Hbx]%elem_of_bits Hle; [|done]. destruct (Z.ltb_spec x d); [|lia].
    rewrite Hbefore in Hbx by lia. done.
  - split; [lia|]. split; [by left|]. intros x [Hx Hbx]%elem_of_bits Hle; [|done].
    destruct (Z.ltb_spec x (FixedBitSet.num_bits b)); [rewrite Hf in Hbx by lia; done|].
    rewrite (inv_ghost b Hi) in Hbx by done. done.
Qed.

(** *** Galloping *)
Lemma gallop_ok rest t fuel : forall lo step,
  (lo < step)%nat -> (1 <= fuel)%nat -> (length rest < fuel + step)%nat ->
  lo = O \/ (exists d, rest !! lo = Some d /\ d < t) ->
  exists lo' step', gallop fuel rest t lo step = Some (lo', step') /\ (lo' < step')%nat /\
    (lo' = O \/ exists d, rest !! lo' = Some d /\ d < t) /\ forall d, rest !! step' = Some d -> t <= d.
Proof.
  induction fuel as [|fuel IH]; intros lo step Hlt H1 Hf Hlo; [lia|]. cbn [gallop].
  destruct (rest !! step) as [d|] eqn:Ed; [|exists lo, step; split; [done|]; split; [done|]; split; [done|congruence]].
  pose proof (lookup_lt_Some _ _ _ Ed). destruct (Z.ltb_spec d t) as [Hd|Hd].
  - apply IH; [lia|lia|lia|right; by exists d].
  - exists lo, step. split; [done|]. split; [done|]. split; [done|]. intros x Hx. congruence.
Qed.

Lemma gallop_splits rest t lo step :
  StronglySorted Z.lt rest -> (lo < step)%nat -> (lo = O \/ exists d, rest !! lo = Some d /\ d < t) ->
  (forall d, rest !! step = Some d -> t <= d) ->
  let hi := Nat.min (step + 1) (length rest) in
  (lo <= hi)%nat /\
  splits rest t (lo + partition_point (fun d => (d <? t)%Z) (take (hi - lo) (drop lo rest)))%nat.
Proof.
  intros Hs Hlt Hlo Hstep hi.
  assert (Hle : (lo <= hi)%nat).
  { destruct Hlo as [->|(d & Hd & _)]; [lia|]. apply lookup_lt_Some in Hd. unfold hi. lia. }
  split; [done|]. set (window := take (hi - lo) (drop lo rest)).
  assert (Hlen : length window = (hi - lo)%nat) by (unfold window; rewrite length_take, length_drop; unfold hi; lia).
  assert (Hw : forall j, (j < hi - lo)%nat -> window !! j = rest !! (lo + j)%nat).
  { intros j Hj. unfold window. by rewrite lookup_take_lt, lookup_drop. }
  destruct (partition_point_spec (fun d => d <? t) window) as (P1 & P2 & P3). set (k := partition_point _ window) in *.
  split.
  - intros j x Hj Hx. destruct (decide (j < lo)%nat) as [Hjl|Hjl].
    + destruct Hlo as [->|(d & Hd & Hdt)]; [lia|]. pose proof (sorted_lookup rest j lo x d Hs Hjl Hx Hd). lia.
    + apply Z.ltb_lt, (P2 (j - lo)%nat); [lia|]. rewrite Hw by lia. rewrite <- Hx. f_equal. lia.
  - intros x Hx. destruct (decide (k < hi - lo)%nat) as [Hk|Hk].
    + apply Z.ltb_ge, P3. by rewrite Hw.
    + assert (k = (hi - lo)%nat) as -> by lia. replace (lo + (hi - lo))%nat with hi in Hx by lia.
      pose proof (lookup_lt_Some _ _ _ Hx) as Hxl. assert (Hhi : hi = (step + 1)%nat) by (unfold hi in *; lia).
      destruct (lookup_lt rest step) as [d Hd]; [lia|]. specialize (Hstep d Hd).
      pose proof (sorted_lookup rest step hi d x Hs ltac:(lia) Hd Hx). lia.
Qed.

Lemma splits_drop docs t at_ k :
  (forall j x, (j < at_)%nat -> docs !! j = Some x -> x < t) -> splits (drop at_ docs) t k -> splits docs t (at_ + k).
Proof.
  intros Hb [H1 H2]. split.
  - intros j x Hj Hx. destruct (decide (j < at_)%nat); [by eapply Hb|].
    apply (H1 (j - at_)%nat); [lia|]. rewrite lookup_drop, <- Hx. f_equal. lia.
  - intros x Hx. apply H2. by rewrite lookup_drop.
Qed.

Lemma sorted_drop (l : list Z) n : StronglySorted Z.lt l -> StronglySorted Z.lt (drop n l).
Proof.
  revert n. induction l as [|x l IH]; intros [|n] H; cbn; [done|done|done|]. apply IH. by inversion H.
Qed.

(** ** [CachedScorer] is lawful *)
Section cached_laws.
Context {E : Type}.
Implicit Types (s : CachedScorer).

#[export] Instance cached_view : ScorerView CachedScorer := {
  good s := set_ok (cs_set s) /\ cs_emptied s = false /\
            (forall x, (cs_run s).1 <= x < (cs_run s).2 -> x ∈ set_docs (cs_set s)) /\
            match cs_set s with
            | Bits _ _ => cs_doc s = -1 \/ cs_doc s = NO_MORE_DOCS \/ cs_doc s ∈ set_docs (cs_set s)
            | Docs docs => cs_doc s = -1 /\ cs_at s = O \/ cs_doc s = doc_or_end docs (cs_at s)
            end;
  approx s := set_docs (cs_set s);
  accept s := set_docs (cs_set s);
  confirmed s := True;
  need s := O;
  gives s _ v := v = cs_score s;
}.

Lemma doc_or_end_in docs k : doc_or_end docs k = NO_MORE_DOCS \/ doc_or_end docs k ∈ doc_set docs.
Proof.
  unfold doc_or_end, doc_set. destruct (docs !! k) as [d|] eqn:Ed; cbn; [right|by left].
  rewrite elem_of_list_to_set. by eapply list_elem_of_lookup_2.
Qed.

Lemma docs_land s docs t k :
  good s -> cs_set s = Docs docs -> t <= NO_MORE_DOCS -> splits docs t k ->
  lands (E := E) s t (doc_or_end docs k, cs_put s (doc_or_end docs k) k).
Proof.
  intros (Hok & He & Hr & _) Hset Ht Hk. rewrite Hset in Hok. split; [|split; [done|split; [done|]]].
  - split; [cbn; by rewrite Hset|]. split; [done|]. split; [exact Hr|]. cbn. rewrite Hset. by right.
  - cbn [fst]. change (approx s) with (set_docs (cs_set s)). rewrite Hset.
    unfold doc_or_end. pose proof (splits_first docs t k (proj1 Hok) Hk Ht) as Hf. by destruct (docs !! k).
Qed.

Lemma bits_land s b c t :
  good s -> cs_set s = Bits b c -> 0 <= t <= NO_MORE_DOCS ->
  let doc := match FixedBitSet.next_set_bit b t with Some d => wraps 32 d | None => NO_MORE_DOCS end in
  lands (E := E) s t (doc, cs_put s doc (cs_at s)).
Proof.
  intros (Hok & He & Hr & _) Hset Ht doc. rewrite Hset in Hok. pose proof (next_bit_first b c t Hok Ht) as Hf. fold doc in Hf.
  split; [|split; [done|split; [done|]]].
  - split; [cbn; by rewrite Hset|]. split; [done|]. split; [exact Hr|]. cbn. rewrite Hset. right. apply Hf.
  - cbn [fst]. change (approx s) with (set_docs (cs_set s)). by rewrite Hset.
Qed.

(** Everything before the index is below the next target. *)
Lemma docs_before s docs t j x :
  good s -> cs_set s = Docs docs -> cs_doc s < t -> t <= NO_MORE_DOCS -> (j <= cs_at s)%nat -> 0 <= cs_doc s ->
  docs !! j = Some x -> x < t.
Proof.
  intros (Hok & He & _ & Hp) Hset Hd Ht Hj H0 Hx. rewrite Hset in Hok, Hp. destruct Hp as [[? _]|Hp]; [lia|].
  unfold doc_or_end in Hp. destruct (docs !! cs_at s) as [d|] eqn:Ed; cbn in Hp; [|lia].
  destruct (decide (j = cs_at s)) as [->|]; [rewrite Ed in Hx; injection Hx as <-; lia|].
  pose proof (sorted_lookup docs j (cs_at s) x d (proj1 Hok) ltac:(lia) Hx Ed). lia.
Qed.

Lemma cs_advance_ok n s t :
  good s -> cs_doc s < t -> t <= NO_MORE_DOCS -> wp (@cs_advance E s t) n (lands (E := E) s t).
Proof.
  intros Hg Hd Ht. pose proof Hg as (Hok & He & Hr & Hp). unfold cs_advance. rewrite He.
  destruct (cs_set s) as [b c|docs] eqn:Es.
  - wp_ret. assert (Hge : -1 <= cs_doc s).
    { destruct Hp as [->|[->|Hin]]; [lia|pose proof no_more_pos; lia|].
      pose proof (set_docs_range _ _ Hok Hin). lia. }
    destruct (Z.ltb_spec t 0); [lia|]. apply (bits_land s b c t Hg Es). lia.
  - set (rest := drop (cs_at s) docs).
    destruct (gallop_ok rest t (Datatypes.S (length rest)) 0 1) as (lo & step & Hgal & H1 & H2 & H3); [lia|lia|lia|by left|].
    wp_bind. eapply wp_of_option; [exact Hgal|].
    destruct (gallop_splits rest t lo step (sorted_drop _ _ (proj1 Hok)) H1 H2 H3) as [Hle Hsp].
    destruct (Nat.leb_spec lo (Nat.min (step + 1) (length rest))); [|lia]. wp_ret.
    apply docs_land; [done|done|done|]. apply splits_drop; [|done].
    intros j x Hj Hx. destruct (decide (cs_doc s = -1)) as [Hn|Hn].
    + destruct Hp as [[_ Hat]|Hp]; [lia|]. unfold doc_or_end in Hp. destruct (docs !! cs_at s) as [d|] eqn:Ed; cbn in Hp.
      * destruct Hok as [_ Hf]. rewrite Forall_lookup in Hf. specialize (Hf _ _ Ed). lia.
      * pose proof no_more_pos. lia.
    + apply (docs_before s docs t j x); [done|done|done|done|lia| |done].
      destruct Hp as [[? _]|Hp]; [done|]. rewrite Hp. destruct (doc_or_end_in docs (cs_at s)) as [->|Hin]; [pose proof no_more_pos; lia|].
      assert (Hran := set_docs_range (Docs docs) _ Hok Hin). lia.
Qed.

Lemma cs_next_ok n s :
  good s -> cs_doc s < NO_MORE_DOCS -> wp (@cs_next_doc E s) n (lands (E := E) s (cs_doc s + 1)).
Proof.
  intros Hg Hd. pose proof Hg as (Hok & He & Hr & Hp). unfold cs_next_doc.
  assert (Hsat : -1 <= cs_doc s -> sat32 (cs_doc s + 1) = cs_doc s + 1).
  { intros H. apply sat32_id. change NO_MORE_DOCS with (2 ^ 31 - 1) in Hd. unfold in_s. lia. }
  destruct (cs_set s) as [b c|docs] eqn:Es.
  - assert (Hge : -1 <= cs_doc s).
    { destruct Hp as [->|[->|Hin]]; [lia|pose proof no_more_pos; lia|]. pose proof (set_docs_range _ _ Hok Hin). lia. }
    rewrite Hsat by done. apply cs_advance_ok; [done|lia|lia].
  - rewrite He. wp_ret. set (next := if cs_doc s =? -1 then O else Nat.min (cs_at s + 1) (length docs)).
    apply docs_land; [done|done|lia|].
    destruct (Z.eqb_spec (cs_doc s) (-1)) as [Hn|Hn]; cbn in next.
    + split; [unfold next; intros; lia|]. intros x Hx. destruct Hok as [_ Hf]. rewrite Forall_lookup in Hf.
      specialize (Hf _ _ Hx). lia.
    + destruct Hp as [[? _]|Hp]; [done|]. unfold doc_or_end in Hp.
      destruct (docs !! cs_at s) as [d|] eqn:Ed; cbn in Hp; [|lia]. pose proof (lookup_lt_Some _ _ _ Ed).
      assert (Hnx : next = (cs_at s + 1)%nat) by (unfold next; lia). rewrite Hnx, Hp. split.
      * intros j x Hj Hx. destruct (decide (j = cs_at s)) as [->|]; [rewrite Ed in Hx; injection Hx as <-; lia|].
        pose proof (sorted_lookup docs j (cs_at s) x d (proj1 Hok) ltac:(lia) Hx Ed). lia.
      * intros x Hx. pose proof (sorted_lookup docs (cs_at s) (cs_at s + 1) d x (proj1 Hok) ltac:(lia) Ed Hx). lia.
Qed.

Lemma bits_has_iff b c x : set_ok (Bits b c) -> bits_has b x = bool_decide (x ∈ set_docs (Bits b c)).
Proof.
  intros (Hi & Hn & _). apply Bool.eq_iff_eq_true. rewrite bool_decide_eq_true, elem_of_bits by done. unfold bits_has, FixedBitSet.len.
  rewrite !andb_true_iff, Z.leb_le, Z.ltb_lt. split.
  - intros [[H0 Hlt] Hb]. rewrite get_bit in Hb by (done || lia). done.
  - intros [H0 Hb]. destruct (Z.ltb_spec x (FixedBitSet.num_bits b)).
    + rewrite get_bit by (done || lia). done.
    + rewrite (inv_ghost b Hi) in Hb by done. done.
Qed.

#[export] Instance cached_laws : ScorerLaws E CachedScorer.
Proof.
  split.
  - done.
  - intros s d (Hok & _) Hd. by apply (set_docs_range (cs_set s)).
  - intros s (Hok & _ & _ & Hp). cbn. destruct (cs_set s) as [b c|docs] eqn:Es; [done|].
    destruct Hp as [[-> _]| ->]; [by left|right]. apply (doc_or_end_in docs).
  - done.
  - intros n s Hg Hd _. by apply cs_next_ok.
  - intros n s t Hg Hd Ht _. by apply cs_advance_ok.
  - intros n s Hg Hd Hn. by apply (answers_refl s).
  - done.
  - intros n s Hg Hd Hc Hn. by apply (gives_refl s).
  - intros n s t Hg Ht Hn. by apply (holds_refl s).
  - intros n s t Hg Hn. by apply (holds_refl s).
  - intros s t Hg Hd Ht. pose proof Hg as (Hok & He & Hr & Hp). cbn. rewrite He.
    destruct (cs_set s) as [b c|docs] eqn:Es; [|by apply (holds_refl s 0)].
    rewrite (bits_has_iff b c) by done. case_bool_decide as Hin.
    + pose proof (set_docs_range _ _ Hok Hin). split; [|split; [done|split; [done|]]].
      * split; [cbn; by rewrite Es|]. split; [done|]. split; [cbn; by rewrite Es|]. cbn. rewrite Es. by right; right.
      * cbn [fst]. change (approx s) with (set_docs (cs_set s)). rewrite Es. by apply first_at_here.
    + split; [by apply (holds_refl s 0)|done].
  - intros s d m Hg Hd. pose proof Hg as (Hok & He & _). cbn. rewrite He.
    destruct (cs_set s) as [b c|docs] eqn:Es; [|done]. intros [= <-]. by apply bits_has_iff.
Qed.

Lemma cached_fresh set score top : set_ok set -> Scorer.fresh (E := E) (cached_constant set score top).
Proof. intros H. split; [|done]. split; [done|]. split; [done|]. split; [cbn; lia|]. cbn. destruct set; [by left|by left]. Qed.
End cached_laws.

(** ** [collect] holds the scorer's matches *)
Class ConstantBitsLaws (E S : Type) `{Scorer E S} `{ScorerView S} `{ConstantBits S} : Prop :=
  constant_bits_ok (s : S) set sc : good s -> constant_bits s = Some (set, sc) ->
    set_ok set /\ set_docs set = accept s /\ forall d, d ∈ accept s -> gives s d sc.

#[export] Instance cached_constant_bits_laws E : ConstantBitsLaws E CachedScorer.
Proof.
  intros s set sc (Hok & He & _). unfold constant_bits, cached_constant_bits. rewrite He. cbn [negb].
  destruct (cs_set s) as [b c|] eqn:Es; [|done]. intros [= <- <-]. split; [done|]. split; [|done]. cbn. by rewrite Es.
Qed.

Lemma members_docs_in (P : Z -> bool) A lo n :
  (forall i, lo <= i < lo + Z.of_nat n -> P i = bool_decide (i ∈ A)) ->
  BitWords.members P lo n = docs_in A lo (lo + Z.of_nat n).
Proof.
  revert lo. induction n as [|n IH]; intros lo H; [by rewrite docs_in_nil by lia|].
  cbn [BitWords.members]. rewrite (H lo) by lia. rewrite (docs_in_step A lo (lo + 1)) by lia. f_equal.
  - case_bool_decide as Hin; [by rewrite docs_in_one|]. rewrite docs_in_none; [done|].
    intros x Hx Hle. destruct (decide (x = lo)) as [->|]; [done|lia].
  - rewrite IH; [f_equal; lia|]. intros i Hi. apply H. lia.
Qed.

Lemma set_model b i f n :
  models b n f -> 0 <= i < n -> exists b', FixedBitSet.set b i = Some b' /\ models b' n (fun j => (j =? i) || f j).
Proof.
  intros (Hi & <- & Hf) Hx. unfold FixedBitSet.set, FixedBitSet.check.
  destruct (Z.leb_spec (FixedBitSet.num_bits b) i); [lia|]. cbn [negb]. eexists. split; [done|].
  destruct (upd_mask (fun _ => true) b i (fun w => Z.lor w (FixedBitSet.bit_mask i)) Hi Hx (set_mask_word i)) as (H1 & H2 & H3).
  split; [done|]. split; [done|]. intros j Hj. rewrite H3 by done. cbn beta. destruct (j =? i); [done|]. by apply Hf.
Qed.

Lemma into_bits_model len docs :
  0 <= len -> Forall (fun d => 0 <= d < len) docs ->
  exists b, into_bits len docs = Some b /\ models b len (fun i => bool_decide (i ∈ docs)).
Proof.
  intros Hl Hf. unfold into_bits.
  assert (G : forall docs b f, models b len f -> Forall (fun d => 0 <= d < len) docs ->
    exists b', foldl (fun b d => b ← b; FixedBitSet.set b d) (Some b) docs = Some b' /\
      models b' len (fun i => f i || bool_decide (i ∈ docs))).
  { clear docs Hf. induction docs as [|d docs IH]; intros b f Hb Hf; cbn [foldl].
    - exists b. split; [done|]. eapply models_ext; [exact Hb|]. intros i. cbn beta.
      rewrite bool_decide_eq_false_2 by apply not_elem_of_nil. by rewrite orb_false_r.
    - inversion Hf as [|? ? Hd Hf']; subst. destruct (set_model b d f len Hb Hd) as (b1 & Hb1 & Hm1).
      cbn [mbind option_bind]. rewrite Hb1. destruct (IH b1 _ Hm1 Hf') as (b' & Hb' & Hm'). exists b'. split; [done|].
      eapply models_ext; [exact Hm'|]. intros i. cbn beta. destruct (Z.eqb_spec i d) as [->|Hne]; cbn.
      + rewrite (bool_decide_eq_true_2 (d ∈ d :: docs)) by left. by rewrite orb_true_r.
      + f_equal. apply bool_decide_ext. rewrite elem_of_cons. tauto. }
  destruct (G docs _ _ (new_inv len Hl) Hf) as (b & Hb & Hm). exists b. split; [done|].
  eapply models_ext; [exact Hm|]. done.
Qed.

(** The first [n] documents collected. *)
Definition co_ok (A : gset Z) (max_doc : Z) (c : collecting) (doc : Z) : Prop :=
  let seen := docs_in A 0 (Z.min doc max_doc) in
  co_cardinality c = zlen seen /\
  match co_bits c with
  | None => co_docs c = seen /\ (seen = [] \/ dense max_doc (zlen seen) = false)
  | Some b => models b max_doc (fun i => bool_decide (i ∈ seen))
  end.

Lemma docs_in_snoc A d : 0 <= d -> d ∈ A -> docs_in A 0 (d + 1) = docs_in A 0 d ++ [d].
Proof. intros H0 Hd. rewrite (docs_in_step A 0 d) by lia. by rewrite docs_in_one. Qed.

Lemma docs_in_forall A max_doc d : d <= max_doc -> Forall (fun x => 0 <= x < max_doc) (docs_in A 0 d).
Proof. intros H. apply Forall_forall. intros x [_ Hx]%elem_of_docs_in. lia. Qed.

Lemma collect_doc_ok A max_doc c doc :
  0 <= max_doc -> 0 <= doc -> doc ∈ A -> co_ok A max_doc c doc ->
  exists c', collect_doc max_doc c doc = Some c' /\ co_ok A max_doc c' (doc + 1).
Proof.
  intros Hm H0 Hd [Hc Hb]. unfold collect_doc. replace (Z.max 0 max_doc) with max_doc by lia.
  rewrite (proj2 (Z.leb_le 0 doc) H0). cbn [andb]. destruct (Z.ltb_spec doc max_doc) as [Hlt|Hge].
  2:{ exists c. split; [done|]. unfold co_ok in *. by replace (Z.min (doc + 1) max_doc) with (Z.min doc max_doc) by lia. }
  replace (Z.min doc max_doc) with doc in * by lia. unfold co_ok.
  replace (Z.min (doc + 1) max_doc) with (doc + 1) by lia. rewrite docs_in_snoc by done.
  assert (Hcard : co_cardinality c + 1 = zlen (docs_in A 0 doc ++ [doc])) by (rewrite zlen_app, Hc; done).
  destruct (co_bits c) as [b|] eqn:Eb.
  - destruct (set_model b doc _ max_doc Hb) as (b' & -> & Hm'); [lia|]. cbn [mbind option_bind].
    eexists. split; [done|]. split; [done|]. cbn [co_bits]. eapply models_ext; [exact Hm'|].
    intros i. cbn beta. destruct (Z.eqb_spec i doc) as [->|Hne]; cbn [orb].
    + symmetry. apply bool_decide_eq_true_2. set_solver.
    + apply bool_decide_ext. set_solver.
  - destruct (dense max_doc (co_cardinality c + 1)) eqn:Ed.
    + destruct (into_bits_model max_doc (co_docs c ++ [doc])) as (b & -> & Hmb); [done| |].
      { rewrite (proj1 Hb). apply Forall_app. split; [apply docs_in_forall; lia|by repeat constructor]. }
      cbn [mbind option_bind]. eexists. split; [done|]. split; [done|]. cbn [co_bits].
      eapply models_ext; [exact Hmb|]. intros i. cbn beta. by rewrite (proj1 Hb).
    + eexists. split; [done|]. split; [done|]. cbn. rewrite (proj1 Hb). split; [done|right]. by rewrite <- Hcard.
Qed.

Lemma co_ok_skip A max_doc c doc doc' :
  0 <= doc <= doc' -> (forall x, x ∈ A -> doc <= x -> doc' <= x) -> co_ok A max_doc c doc -> co_ok A max_doc c doc'.
Proof.
  intros Hd Hx. unfold co_ok. destruct (Z.le_ge_cases max_doc doc) as [Hle|Hle].
  - by replace (Z.min doc' max_doc) with (Z.min doc max_doc) by lia.
  - rewrite (docs_in_step A 0 (Z.min doc max_doc) (Z.min doc' max_doc)) by lia.
    rewrite (docs_in_none A (Z.min doc max_doc)); [by rewrite app_nil_r|].
    intros x Hxa Hle'. specialize (Hx x Hxa ltac:(lia)). lia.
Qed.

Lemma bits_docs_ok b : inv b -> FixedBitSet.num_bits b <= NO_MORE_DOCS ->
  bits_docs b = BitWords.members (bit b) 0 (Z.to_nat (FixedBitSet.num_bits b)).
Proof.
  intros Hi Hn. unfold bits_docs. rewrite for_each_set_bit_members by done.
  rewrite <- (map_id (BitWords.members _ _ _)) at 2. apply map_ext_in. intros x Hx%list_elem_of_In.
  apply members_spec in Hx as [Hx _]. pose proof (inv_len b Hi). apply in_s32. lia.
Qed.

Lemma docs_in_sorted A lo n : StronglySorted Z.lt (docs_in A lo (lo + Z.of_nat n)).
Proof.
  revert lo. induction n as [|n IH]; intros lo; [rewrite docs_in_nil by lia; constructor|].
  rewrite (docs_in_step A lo (lo + 1)) by lia. replace (lo + Z.of_nat (S n)) with (lo + 1 + Z.of_nat n) by lia.
  apply StronglySorted_app_2; [| |apply IH].
  - intros x y [_ Hx]%elem_of_docs_in [_ Hy]%elem_of_docs_in. lia.
  - destruct (decide (lo ∈ A)) as [Hin|Hn]; [rewrite docs_in_one by done; repeat constructor|].
    rewrite docs_in_none; [constructor|]. intros x Hx Hle. destruct (decide (x = lo)) as [->|]; [done|lia].
Qed.

(** Bits that are the documents of [[0, max_doc)]. *)
Lemma model_set b max_doc A :
  0 <= max_doc <= NO_MORE_DOCS -> models b max_doc (fun i => bool_decide (i ∈ docs_in A 0 max_doc)) ->
  set_list (Bits b (zlen (docs_in A 0 max_doc))) = docs_in A 0 max_doc /\ set_ok (Bits b (zlen (docs_in A 0 max_doc))) /\
  bits_docs b = docs_in A 0 max_doc.
Proof.
  intros Hm (Hi & Hn & Hb).
  assert (Hl : BitWords.members (bit b) 0 (Z.to_nat (FixedBitSet.num_bits b)) = docs_in A 0 max_doc).
  { rewrite (members_docs_in _ A); [f_equal; lia|]. intros i Hx. rewrite Hb by lia. apply bool_decide_ext.
    rewrite elem_of_docs_in. split; [by intros []|]. intros. split; [done|lia]. }
  split; [done|]. split; [split; [done|split; [lia|by rewrite Hl]]|]. rewrite bits_docs_ok by (done || lia). done.
Qed.

Section collect_ok.
Context {E S : Type} `{L : ScorerLaws E S} `{CB : ConstantBits S} `{CBL : !ConstantBitsLaws E S}.
Implicit Types (s : S).

Lemma collect_loop_ok n k s0 max_doc s c :
  good s -> same s0 s -> good s0 -> 0 <= max_doc <= NO_MORE_DOCS -> (exact_need s0 <= n)%nat ->
  0 <= doc_id s -> doc_id s = NO_MORE_DOCS \/ doc_id s ∈ accept s -> co_ok (accept s0) max_doc c (doc_id s) ->
  (count_from (accept s0) (doc_id s) < k)%nat ->
  wp (collect_loop k max_doc s c (doc_id s)) n (fun r => co_ok (accept s0) max_doc r.1 NO_MORE_DOCS).
Proof.
  intros Hg Hs Hg0 Hm Hn. revert s c Hg Hs. induction k as [|k IH]; intros s c Hg Hs H0 Hd Hc Hk; [lia|].
  cbn [collect_loop]. destruct (Z.eqb_spec (doc_id s) NO_MORE_DOCS) as [He|Hne].
  { wp_ret. by rewrite <- He. }
  destruct Hd as [|Hd]; [done|]. assert (Hacc : accept s = accept s0) by apply Hs. rewrite Hacc in Hd.
  destruct (collect_doc_ok (accept s0) max_doc c (doc_id s)) as (c' & Hc' & Hok); [lia|done|done|done|].
  wp_bind. eapply wp_of_option; [exact Hc'|]. wp_bind.
  wp_use exact_next_ok; [done| |by rewrite (exact_need_same _ _ Hs)|].
  { pose proof (accept_below s0 (doc_id s) Hg0 Hd). lia. }
  intros [doc s'] (Hg' & Hs' & Hd' & Hf & _). cbn [fst snd] in *. rewrite Hacc in Hf.
  pose proof (same_trans _ _ _ Hs Hs') as Hs2. pose proof (first_at_le _ _ _ Hf). rewrite <- Hd' in *.
  apply IH; [done|done|lia| | |].
  - destruct Hf as (_ & [|] & _); [by left|right]. by rewrite (proj1 (proj2 Hs2)).
  - eapply co_ok_skip; [|apply Hf|exact Hok]. lia.
  - pose proof (count_from_lt (accept s0) (doc_id s) (doc_id s') Hd). lia.
Qed.

Lemma bits_list b c A :
  set_ok (Bits b c) -> set_docs (Bits b c) = A ->
  BitWords.members (bit b) 0 (Z.to_nat (FixedBitSet.num_bits b)) = docs_in A 0 (FixedBitSet.num_bits b).
Proof.
  intros (Hi & _) <-. pose proof (inv_len b Hi).
  rewrite (members_docs_in _ (set_docs (Bits b c))); [f_equal; lia|]. intros i Hx. apply Bool.eq_iff_eq_true.
  rewrite bool_decide_eq_true, elem_of_bits by done. split; [split; [lia|done]|by intros []].
Qed.

(** What [collect] answers: the matches below [max_doc], by the 1% rule. *)
Definition collected_set (A : gset Z) (max_doc : Z) (set : CachedSet) : Prop :=
  set_ok set /\ set_list set = docs_in A 0 max_doc /\
  match set with
  | Bits _ cardinality => dense max_doc cardinality = true
  | Docs docs => docs = [] \/ dense max_doc (zlen docs) = false
  end.

Lemma docs_set_ok A max_doc : 0 <= max_doc <= NO_MORE_DOCS -> set_ok (Docs (docs_in A 0 max_doc)).
Proof.
  intros Hm. split.
  - replace max_doc with (0 + Z.of_nat (Z.to_nat max_doc)) by lia. apply docs_in_sorted.
  - apply Forall_forall. intros x [_ Hx]%elem_of_docs_in. lia.
Qed.

Lemma bits_collected A max_doc b :
  0 <= max_doc <= NO_MORE_DOCS -> models b max_doc (fun i => bool_decide (i ∈ docs_in A 0 max_doc)) ->
  let c := zlen (docs_in A 0 max_doc) in
  collected_set A max_doc (if dense max_doc c then Bits b c else Docs (bits_docs b)).
Proof.
  intros Hm Hb c. destruct (model_set b max_doc A Hm Hb) as (H1 & H2 & H3). destruct (dense max_doc c) eqn:Ed.
  - split; [done|]. by split.
  - rewrite H3. split; [by apply docs_set_ok|]. split; [done|by right].
Qed.

Lemma shortcut_ok s max_doc set :
  good s -> 0 <= max_doc <= NO_MORE_DOCS -> shortcut s max_doc = Some set -> collected_set (accept s) max_doc set.
Proof.
  intros Hg Hm. unfold shortcut. destruct (_ =? _); [|done].
  destruct (constant_bits s) as [[[b c|docs] sc]|] eqn:Ec; [|done|done].
  destruct (constant_bits_ok s _ _ Hg Ec) as (Hok & HA & _). pose proof Hok as (Hi & Hn & Hc).
  unfold FixedBitSet.len. destruct (Z.eqb_spec (FixedBitSet.num_bits b) (Z.max 0 max_doc)) as [He|]; [|done].
  replace (Z.max 0 max_doc) with max_doc in He by lia.
  pose proof (bits_list b c _ Hok HA) as Hl. rewrite He in Hl, Hc. intros [= <-]. destruct (dense max_doc c) eqn:Ed.
  - split; [done|]. split; [cbn; by rewrite He|done].
  - rewrite bits_docs_ok by done. rewrite He, Hl. split; [by apply docs_set_ok|]. split; [done|right].
    by rewrite Hl in Hc; rewrite <- Hc.
Qed.

Lemma collect_ok n s max_doc :
  Scorer.fresh s -> 0 <= max_doc <= NO_MORE_DOCS -> (exact_need s <= n)%nat ->
  wp (collect s max_doc) n (fun r => collected_set (accept s) max_doc r.1).
Proof.
  intros [Hg Hd] Hm Hn. unfold collect. destruct (shortcut s max_doc) as [set|] eqn:Es.
  { wp_ret. by eapply shortcut_ok. }
  wp_bind. apply (wp_mono _ _ (fun bits => co_ok (accept s) max_doc (mk_collecting [] bits 0) 0)).
  { unfold co_ok. rewrite docs_in_nil by lia. destruct (dense max_doc (cost s)).
    - wp_bind. replace (Z.max 0 max_doc) with max_doc by lia.
      destruct (into_bits_model max_doc []) as (b & Hb & Hmb); [lia|constructor|].
      eapply wp_of_option; [exact Hb|]. wp_ret. done.
    - wp_ret. split; [done|]. split; [done|by left]. }
  intros bits Hc. wp_bind. wp_use exact_next_ok; [done|rewrite Hd; pose proof no_more_pos; lia|done|].
  intros [doc s1] (Hg1 & Hs1 & Hd1 & Hf & _). cbn [fst snd] in *. rewrite Hd in Hf. cbn in Hf.
  pose proof (first_at_le _ _ _ Hf). wp_bind. unfold cloop. rewrite <- Hd1 in *.
  wp_use (collect_loop_ok n n s max_doc s1 (mk_collecting [] bits 0) Hg1 Hs1 Hg Hm Hn); [done| | | |].
  - destruct Hf as (_ & [|] & _); [by left|right]. by rewrite (proj1 (proj2 Hs1)).
  - eapply co_ok_skip; [|apply Hf|exact Hc]. lia.
  - unfold exact_need in Hn. pose proof (count_from_le (accept s) (doc_id s1)).
    pose proof (subseteq_size _ _ (accept_approx s Hg)). lia.
  - intros [c s2] [Hcard Hb]. cbn [fst] in *. wp_ret. replace (Z.min NO_MORE_DOCS max_doc) with max_doc in * by lia.
    destruct (co_bits c) as [b|].
    + rewrite Hcard. by apply bits_collected.
    + destruct Hb as [-> Hr]. split; [by apply docs_set_ok|]. by split.
Qed.
End collect_ok.
