(* ===== verification/BulkScore.v ===== *)
(** * Scoring a segment ([lucene-search/src/exec/bulk.rs])

    [default_score], the loop that drives a scorer into a collector, with its
    faster paths: a constant-scored bit set read word by word
    ([constant_bits_score]), runs handed over as ranges
    ([constant_runs_score]) and batches of hits ([batch_score]); and the
    windows a deadline is checked between ([score_segment_time_limited]).
    [RunScorer] holds the trait methods only these loops call;
    [doc_id_run_end] may remember what it found, so it answers a scorer too. *)
From S2P Require Export Collector CachedScorer.
From S2P Require Import BitWords FixedBitSet.

Class RunScorer (E S : Type) := {
  doc_id_run_end : S -> Z * S;
  constant_score : S -> option f32;
  prefers_batches : S -> bool;
}.
#[global] Hint Mode RunScorer - ! : typeclass_instances.

Definition DENSE_RUN_MIN : Z := 2048.

(** The collector's threshold in the form [set_min_competitive_score] takes. *)
Definition min_competitive_score {C} `{ScoringCollector C} (c : C) : option f32 :=
  t ← pruning_threshold c; Some (match t with Some t => next_up t | None => f32_of_Z 0 end).

(** [count_set_bits]: the words from [w] on, [k] of them. *)
Fixpoint count_words (k : nat) (words : list Z) (live : option (list Z)) (from end_ need count w : Z) : Z * option Z :=
  match k with
  | O => (count, None)
  | Datatypes.S k =>
      let word := at0 words w in
      let word := match live with Some l => Z.land word (at0 l w) | None => word end in
      let word := if w =? from / 64 then Z.land word (shlu 64 FixedBitSet.MAX64 (from mod 64)) else word in
      let word := if end_ <? (w + 1) * 64 then Z.land word (Z.shiftr FixedBitSet.MAX64 (64 - (end_ - w * 64))) else word in
      let ones := count_ones word in
      if need <=? count + ones then
        let word := Nat.iter (Z.to_nat (need - count - 1)) (fun x => Z.land x (x - 1)) word in
        (need, Some (w * 64 + trailing_zeros 64 word))
      else count_words k words live from end_ need (count + ones) (w + 1)
  end.
Definition count_set_bits (words : list Z) (live : option FixedBitSet.t) (from end_ need : Z) : Z * option Z :=
  let first := from / 64 in
  count_words (Z.to_nat ((end_ + 63) / 64 - first)) words (option_map FixedBitSet.words live) from end_ need 0 first.

Section score.
Context {E S C : Type} `{Sc : Scorer E S} `{CB : ConstantBits S} `{RS : RunScorer E S} `{SC : ScoringCollector C}.

(** The scorer, the collector and the threshold last published. *)
Definition bulk_state : Type := S * C * f32.

Definition publish (st : bulk_state) : comp E bulk_state :=
  let '(s, c, published) := st in
  let! m := of_option (min_competitive_score c) in
  if SFltb published m then let! s := set_min_competitive_score s m in cret (s, c, m)
  else cret (s, c, published).

Definition collect_hit (c : C) (doc : Z) (score : f32) : comp E C := of_option (Collector.collect c doc score).

(** The document-at-a-time loop. *)
Fixpoint score_loop (n : nat) (two_phase prune needs : bool) (live_docs : option FixedBitSet.t) (max : Z)
    (st : bulk_state) (doc : Z) : comp E (Z * bulk_state) :=
  match n with
  | O => cdiverge
  | Datatypes.S n =>
      if doc <? max then
        let! st :=
          if live live_docs doc then
            let '(s, c, p) := st in
            let! (m, s) := if two_phase then matches s else cret (true, s) in
            if m then
              let! (v, s) := if needs then score s else cret (f32_of_Z 0, s) in
              let! c := collect_hit c doc v in
              if prune then publish (s, c, p) else cret (s, c, p)
            else cret (s, c, p)
          else cret st in
        let '(s, c, p) := st in
        let! (doc, s) := next_doc s in
        score_loop n two_phase prune needs live_docs max (s, c, p) doc
      else cret (doc, st)
  end.

(** [batch_score]. *)
Fixpoint confirm_below (n : nat) (max : Z) (s : S) (doc : Z) : comp E (Z * S) :=
  match n with
  | O => cdiverge
  | Datatypes.S n =>
      if doc <? max then
        let! (m, s) := matches s in
        if m then cret (doc, s)
        else let! (doc, s) := next_doc s in confirm_below n max s doc
      else cret (doc, s)
  end.

Fixpoint batches_loop (n : nat) (prune : bool) (live_docs : option FixedBitSet.t) (max : Z) (st : bulk_state)
  : comp E (Z * bulk_state) :=
  match n with
  | O => cdiverge
  | Datatypes.S n =>
      let '(s, c, p) := st in
      let! (docs, scores, s) := docs_and_scores_one_by_one s max live_docs in
      match docs with
      | [] => cret (doc_id s, (s, c, p))
      | _ =>
          let! (from, c) := of_option (collect_many c docs scores 0) in
          let! c := of_option (collect_each c (zip (drop from docs) (drop from scores))) in
          let! st := if prune then publish (s, c, p) else cret (s, c, p) in
          batches_loop n prune live_docs max st
      end
  end.

Definition batch_score (prune : bool) (live_docs : option FixedBitSet.t) (st : bulk_state) (doc max : Z)
  : comp E (Z * bulk_state) :=
  let '(s, c, p) := st in
  let! (doc, s) := if two_phase s then cloop (fun n => confirm_below n max s doc) else cret (doc, s) in
  if two_phase s && (max <=? doc) then cret (doc, (s, c, p))
  else cloop (fun n => batches_loop n prune live_docs max (s, c, p)).

(** [constant_runs_score]. *)
Fixpoint runs_loop (n : nat) (score : f32) (max : Z) (s : S) (c : C) (doc : Z) : comp E (Z * (S * C)) :=
  match n with
  | O => cdiverge
  | Datatypes.S n =>
      if doc <? max then
        let '(run_end, s) := doc_id_run_end s in
        let end_ := Z.min run_end max in
        if sat32 (end_ - doc) <? DENSE_RUN_MIN then cret (doc, (s, c))
        else
          let! c := of_option (collect_range c doc end_ score) in
          let! (doc, s) := advance s end_ in
          runs_loop n score max s c doc
      else cret (doc, (s, c))
  end.

Fixpoint rest_loop (n : nat) (score : f32) (max : Z) (s : S) (c : C) (doc : Z) : comp E (Z * (S * C)) :=
  match n with
  | O => cdiverge
  | Datatypes.S n =>
      if doc <? max then
        let! c := collect_hit c doc score in
        let! (doc, s) := next_doc s in
        rest_loop n score max s c doc
      else cret (doc, (s, c))
  end.

Definition constant_runs_score (score : f32) (st : bulk_state) (doc max : Z) : comp E (Z * bulk_state) :=
  let '(s, c, p) := st in
  let! (doc, (s, c)) := cloop (fun n => runs_loop n score max s c doc) in
  let! (doc, (s, c)) := cloop (fun n => rest_loop n score max s c doc) in
  cret (doc, (s, c, p)).

(** [constant_bits_score]: [inl] returns from it, [inr] is where its loop stopped. *)
Definition emptied_after (s : S) (c : C) (p : f32) (d : Z) : comp E ((Z + Z) * bulk_state) :=
  let! (doc, s) := advance s (sat32 (d + 1)) in cret (inl doc, (s, c, p)).

(** The hits between a full queue and the count threshold, by popcount. *)
Definition count_losers (words : list Z) (score : f32) (live_docs : option FixedBitSet.t) (end_ : Z)
    (st : bulk_state) (at_ : Z) : comp E (option ((Z + Z) * bulk_state) * (Z * bulk_state)) :=
  let '(s, c, p) := st in
  match constant_score_hits_needed c with
  | Some need =>
      if 0 <? need then
        let! (can, c) := of_option (count_losing_hits c 0 score) in
        if can then
          let '(n, stop) := count_set_bits words live_docs (at_ + 1) end_ need in
          let! (counted, c) := of_option (count_losing_hits c n score) in
          if counted then
            match stop with
            | Some last =>
                let! (s, c, p) := publish (s, c, p) in
                if SFltb score p then let! r := emptied_after s c p (wraps 32 last) in cret (Some r, (at_, (s, c, p)))
                else cret (None, (last, (s, c, p)))
            | None => cret (Some (inr end_, (s, c, p)), (at_, (s, c, p)))
            end
          else cret (None, (at_, (s, c, p)))
        else cret (None, (at_, (s, c, p)))
      else cret (None, (at_, (s, c, p)))
  | None => cret (None, (at_, (s, c, p)))
  end.

Fixpoint bits_loop (n : nat) (prune : bool) (words : list Z) (len : Z) (score : f32) (live_docs : option FixedBitSet.t)
    (end_ : Z) (st : bulk_state) (at_ : Z) : comp E ((Z + Z) * bulk_state) :=
  match n with
  | O => cdiverge
  | Datatypes.S n =>
      if at_ <? end_ then
        let d := wraps 32 at_ in
        let! (r, (at_, st)) :=
          if live live_docs d then
            let '(s, c, p) := st in
            let! c := collect_hit c d score in
            if prune then
              let! (s, c, p) := publish (s, c, p) in
              if SFltb score p then let! r := emptied_after s c p d in cret (Some r, (at_, (s, c, p)))
              else count_losers words score live_docs end_ (s, c, p) at_
            else cret (None, (at_, (s, c, p)))
          else cret (None, (at_, st)) in
        match r with
        | Some r => cret r
        | None =>
            let at_ := match FixedBitSet.next_set_bit_in_words words (at_ + 1) with Some i => i | None => len end in
            bits_loop n prune words len score live_docs end_ st at_
        end
      else cret (inr at_, st)
  end.

Definition constant_bits_score (prune : bool) (bits : FixedBitSet.t) (score : f32) (live_docs : option FixedBitSet.t)
    (st : bulk_state) (doc max : Z) : comp E (Z * bulk_state) :=
  let words := FixedBitSet.words bits in
  let len := FixedBitSet.len bits in
  let end_ := if max <? 0 then len else Z.min max len in
  let at_ := if doc <? 0 then 0 else doc in
  let '(s, c, p) := st in
  let '(c, at_) :=
    if negb prune && (at_ <? end_) then
      let '(counts, c) := add_hits c 0 in
      if counts
      then let '(n, _) := count_set_bits words live_docs at_ end_ u64_max in ((add_hits c n).2, end_)
      else (c, at_)
    else (c, at_) in
  let! (r, (s, c, p)) := cloop (fun n => bits_loop n prune words len score live_docs end_ (s, c, p) at_) in
  match r with
  | inl doc => cret (doc, (s, c, p))
  | inr at_ =>
      let at_ := if at_ <? end_ then at_
                 else match FixedBitSet.next_set_bit_in_words words end_ with Some i => i | None => len end in
      let next := if at_ <? len then wraps 32 at_ else NO_MORE_DOCS in
      if next =? doc then cret (doc, (s, c, p))
      else let! (doc, s) := advance s next in cret (doc, (s, c, p))
  end.

(** [default_score], from its last path back: document by document, in
    batches, by runs, by the words of a bit set. *)
Definition walk (two prune needs : bool) (live_docs : option FixedBitSet.t) (st : bulk_state) (doc max : Z)
  : comp E (Z * bulk_state) :=
  cloop (fun n => score_loop n two prune needs live_docs max st doc).

Definition walk_or_batches (two prune needs : bool) (live_docs : option FixedBitSet.t) (st : bulk_state) (doc max : Z)
  : comp E (Z * bulk_state) :=
  if needs && (doc <? max) && prefers_batches st.1.1 then batch_score prune live_docs st doc max
  else walk two prune needs live_docs st doc max.

Definition walk_or_runs (two prune needs : bool) (live_docs : option FixedBitSet.t) (st : bulk_state) (doc max : Z)
  : comp E (Z * bulk_state) :=
  if negb two && negb prune && bool_decide (live_docs = None) && (doc <? max) then
    let '(s, c, p) := st in
    let '(run_end, s) := doc_id_run_end s in
    if DENSE_RUN_MIN <=? sat32 (Z.min run_end max - doc) then
      match constant_score s with
      | Some v => constant_runs_score (if needs then v else f32_of_Z 0) (s, c, p) doc max
      | None => walk_or_batches two prune needs live_docs (s, c, p) doc max
      end
    else walk_or_batches two prune needs live_docs (s, c, p) doc max
  else walk_or_batches two prune needs live_docs st doc max.

Definition default_score (mode : Mode) (live_docs : option FixedBitSet.t) (st : bulk_state) (min max : Z)
  : comp E (Z * bulk_state) :=
  let prune := bool_decide (mode = TopScores) in
  let needs := needs_scores mode in
  let two := two_phase st.1.1 in
  let! (s, c, p) := if prune then publish st else cret st in
  let doc := doc_id s in
  let! (doc, s) := if doc <? min then (if doc =? min - 1 then next_doc s else advance s min) else cret (doc, s) in
  if negb two && (doc <? max) then
    match constant_bits s with
    | Some (Bits bits _, v) => constant_bits_score prune bits (if needs then v else f32_of_Z 0) live_docs (s, c, p) doc max
    | _ => walk_or_runs two prune needs live_docs (s, c, p) doc max
    end
  else walk_or_runs two prune needs live_docs (s, c, p) doc max.

(** *** The time limit *)
Definition TIME_LIMIT_INTERVAL : Z := 100.

(** [score_segment_time_limited] over this scorer's [default_score]; the
    answers [should_exit] gives are a stream. *)
Fixpoint windows_loop (n : nat) (mode : Mode) (live_docs : option FixedBitSet.t) (should_exit : nat -> bool) (round : nat)
    (interval : Z) (st : bulk_state) (min : Z) : comp E (bool * bulk_state) :=
  match n with
  | O => cdiverge
  | Datatypes.S n =>
      if min <? NO_MORE_DOCS then
        let new_max := if i32_max <? min + interval then NO_MORE_DOCS else Z.min (min + interval) NO_MORE_DOCS in
        let grown := sat32 (interval + interval / 2) in
        let interval := if interval <? grown then grown else interval in
        if should_exit round then cret (true, st)
        else
          let! (min, st) := default_score mode live_docs st min new_max in
          windows_loop n mode live_docs should_exit (Datatypes.S round) interval st min
      else cret (false, st)
  end.

Definition score_segment_time_limited (mode : Mode) (live_docs : option FixedBitSet.t) (should_exit : nat -> bool)
    (st : bulk_state) : comp E (bool * bulk_state) :=
  cloop (fun n => windows_loop n mode live_docs should_exit 0 TIME_LIMIT_INTERVAL st 0).

(** [score_segment]. *)
Definition score_segment (mode : Mode) (live_docs : option FixedBitSet.t) (st : bulk_state) : comp E bulk_state :=
  let! (_, st) := default_score mode live_docs st 0 NO_MORE_DOCS in cret st.
End score.
