(* ===== verification/CountBits.v ===== *)
(** * Counting live set bits ([lucene-search/src/exec/bulk.rs])

    [count_set_bits] counts the live set bits of a window a word at a time and
    stops at the one that reaches a target.  Proved: it counts what the
    document-at-a-time walk would collect, and the document it stops at is the
    one the walk would have stopped at ([count_set_bits_is_the_walk]). *)
From S2P Require Export BulkScore.
From S2P Require Import BitWords FixedBitSet FixedBitSetSpec FixedBitSetAlgebra.

(** ** The members of a word *)
Lemma members_shift P d lo n : BitWords.members P (lo + d) n = map (Z.add d) (BitWords.members (fun i => P (i + d)) lo n).
Proof.
  revert lo. induction n as [|n IH]; intros lo; [done|]. cbn [BitWords.members].
  replace (lo + d + 1) with (lo + 1 + d) by lia. rewrite IH, map_app. f_equal.
  destruct (P (lo + d)); [|done]. cbn. f_equal. lia.
Qed.

Lemma word_members (P : Z -> bool) x w : in_u 64 x ->
  (forall i, 0 <= i < 64 -> P (64 * w + i) = Z.testbit x i) ->
  BitWords.members P (64 * w) 64 = map (Z.add (64 * w)) (BitWords.members (Z.testbit x) 0 64).
Proof.
  intros Hx HP. rewrite <- (Z.add_0_l (64 * w)) at 1. rewrite members_shift. f_equal. apply members_ext.
  intros i Hi. rewrite <- HP by lia. f_equal. lia.
Qed.

Lemma ones_members x : in_u 64 x -> count_ones x = zlen (BitWords.members (Z.testbit x) 0 64).
Proof. intros Hx. by rewrite members_length, (count_ones_count 64). Qed.

Lemma in_u_land_l x y : in_u 64 x -> in_u 64 y -> in_u 64 (Z.land x y).
Proof. intros Hx [Hy _]. apply in_u_land; [lia|done|done]. Qed.

(** [x & (x - 1)] drops the first member, which [trailing_zeros] names. *)
Lemma members_clear x : in_u 64 x -> x <> 0 ->
  in_u 64 (Z.land x (x - 1)) /\
  BitWords.members (Z.testbit x) 0 64 = trailing_zeros 64 x :: BitWords.members (Z.testbit (Z.land x (x - 1))) 0 64.
Proof.
  intros Hx Hne. destruct (trailing_zeros_spec 64 x Hx Hne) as (Hr & Hb & Hz). set (k := trailing_zeros 64 x) in *.
  assert (Hpos : 0 <= x) by apply Hx. split; [apply in_u_land; [lia|done|lia]|].
  assert (E : forall i, Z.testbit (Z.land x (x - 1)) i = Z.testbit x i && negb (i =? k)) by (intros i; apply clear_lowest; [done|lia|done|done]).
  replace 64%nat with (Z.to_nat k + (1 + Z.to_nat (63 - k)))%nat by lia. rewrite !members_app, !(members_false _ 0).
  - cbn [BitWords.members app]. replace (0 + Z.of_nat (Z.to_nat k)) with k by lia. rewrite Hb, E, Z.eqb_refl, andb_false_r. cbn [app].
    f_equal. apply members_ext. intros i Hi. rewrite E. destruct (Z.eqb_spec i k); [lia|]. by rewrite andb_true_r.
  - intros i Hi. rewrite E, Hz by lia. done.
  - intros i Hi. apply Hz. lia.
Qed.

Lemma clear_iter j x : in_u 64 x -> (j < length (BitWords.members (Z.testbit x) 0 64))%nat ->
  let y := Nat.iter j (fun x => Z.land x (x - 1)) x in
  in_u 64 y /\ BitWords.members (Z.testbit y) 0 64 = drop j (BitWords.members (Z.testbit x) 0 64).
Proof.
  intros Hx. induction j as [|j IH]; intros Hj; [done|]. cbn [Nat.iter nat_rect] in *.
  destruct (IH ltac:(lia)) as [Hy Hm]. set (y := Nat.iter j _ x) in *. change (nat_rect _ x _ j) with y.
  assert (Hne : y <> 0).
  { intros E. rewrite E in Hm. apply (f_equal length) in Hm. rewrite length_drop in Hm. vm_compute (length (BitWords.members (Z.testbit 0) 0 64)) in Hm. lia. }
  destruct (members_clear y Hy Hne) as [H1 H2]. split; [done|].
  replace (S j) with (j + 1)%nat by lia. rewrite <- drop_drop, <- Hm, H2. done.
Qed.

Lemma nth_bit j x : in_u 64 x -> (j < length (BitWords.members (Z.testbit x) 0 64))%nat ->
  BitWords.members (Z.testbit x) 0 64 !! j = Some (trailing_zeros 64 (Nat.iter j (fun x => Z.land x (x - 1)) x)).
Proof.
  intros Hx Hj. destruct (clear_iter j x Hx Hj) as [Hy Hm]. set (y := Nat.iter j _ x) in *.
  assert (Hne : y <> 0).
  { intros E. rewrite E in Hm. apply (f_equal length) in Hm. rewrite length_drop in Hm. vm_compute (length (BitWords.members (Z.testbit 0) 0 64)) in Hm. lia. }
  destruct (members_clear y Hy Hne) as [_ H2]. rewrite <- (Nat.add_0_r j), <- lookup_drop, <- Hm, H2. done.
Qed.

(** ** The window *)
Definition windowed (P : Z -> bool) (from end_ i : Z) : bool := P i && ((from <=? i) && (i <? end_)).

Definition both (words : list Z) (live : option (list Z)) (i : Z) : bool :=
  wbit words i && match live with Some l => wbit l i | None => true end.

(** The masked word of [count_set_bits]. *)
Definition masked_word (words : list Z) (live : option (list Z)) (from end_ w : Z) : Z :=
  let word := at0 words w in
  let word := match live with Some l => Z.land word (at0 l w) | None => word end in
  let word := if w =? from / 64 then Z.land word (shlu 64 FixedBitSet.MAX64 (from mod 64)) else word in
  if end_ <? (w + 1) * 64 then Z.land word (Z.shiftr FixedBitSet.MAX64 (64 - (end_ - w * 64))) else word.

Lemma tail_mask m : 0 < m < 64 ->
  in_u 64 (Z.shiftr FixedBitSet.MAX64 (64 - m)) /\
  forall i, 0 <= i < 64 -> Z.testbit (Z.shiftr FixedBitSet.MAX64 (64 - m)) i = (i <? m).
Proof.
  intros Hm. split.
  - rewrite Z.shiftr_div_pow2 by lia. destruct MAX64_ok as [H1 H2]. split; [apply Z.div_pos; lia|].
    eapply Z.le_lt_trans; [|exact H2]. apply Z.div_le_upper_bound; nia.
  - intros i Hi. rewrite Z.shiftr_spec, testbit_MAX64 by lia. bool_lia.
Qed.

Lemma masked_word_ok words live from end_ w :
  words_ok words -> (forall l, live = Some l -> words_ok l) -> 0 <= from -> from / 64 <= w -> 64 * w < end_ ->
  in_u 64 (masked_word words live from end_ w) /\
  forall i, 0 <= i < 64 -> windowed (both words live) from end_ (64 * w + i) = Z.testbit (masked_word words live from end_ w) i.
Proof.
  intros Hw Hl H0 Hf He. unfold masked_word.
  assert (Hin : forall ws i, 0 <= i < 64 -> wbit ws (64 * w + i) = Z.testbit (at0 ws w) i).
  { intros ws i Hi. unfold wbit. by destruct (word_of_unique (64 * w + i) w i) as [-> ->]; [lia|lia|]. }
  set (w0 := match live with Some l => Z.land (at0 words w) (at0 l w) | None => at0 words w end).
  assert (H1 : in_u 64 w0 /\ forall i, 0 <= i < 64 -> Z.testbit w0 i = both words live (64 * w + i)).
  { unfold w0, both. destruct live as [l|].
    - split; [apply in_u_land_l; apply at0_range; [done|by apply Hl]|]. intros i Hi. by rewrite Z.land_spec, !Hin.
    - split; [by apply at0_range|]. intros i Hi. by rewrite andb_true_r, Hin. }
  destruct H1 as [Hu0 Hb0]. pose proof (Z.div_mod from 64 ltac:(lia)) as Hdm. pose proof (Z.mod_pos_bound from 64 ltac:(lia)) as Hmb.
  set (w1 := if w =? from / 64 then _ else w0).
  assert (H1 : in_u 64 w1 /\ forall i, 0 <= i < 64 -> Z.testbit w1 i = both words live (64 * w + i) && (from <=? 64 * w + i)).
  { unfold w1. destruct (Z.eqb_spec w (from / 64)) as [E|E].
    - split; [apply in_u_land_l; [done|apply shlu_ok]|]. intros i Hi. change (shlu 64 FixedBitSet.MAX64 (from mod 64)) with (FixedBitSet.FROM_BIT (from mod 64)).
      rewrite Z.land_spec, Hb0, testbit_FROM_BIT by lia. f_equal. bool_lia.
    - split; [done|]. intros i Hi. rewrite Hb0 by done. destruct (Z.leb_spec from (64 * w + i)); [by rewrite andb_true_r|lia]. }
  destruct H1 as [Hu1 Hb1]. clearbody w0 w1. unfold windowed. destruct (Z.ltb_spec end_ ((w + 1) * 64)).
  - destruct (tail_mask (end_ - w * 64)) as [Ht1 Ht2]; [lia|]. split; [by apply in_u_land_l|]. intros i Hi.
    rewrite Z.land_spec, Hb1, Ht2 by lia. rewrite <- andb_assoc. f_equal. f_equal. bool_lia.
  - split; [done|]. intros i Hi. rewrite Hb1 by done. f_equal. destruct (Z.ltb_spec (64 * w + i) end_); [by rewrite andb_true_r|lia].
Qed.

Lemma count_words_spec words live from end_ need k : forall count w,
  words_ok words -> (forall l, live = Some l -> words_ok l) -> 0 <= from -> from / 64 <= w ->
  64 * (w + Z.of_nat k) < end_ + 64 -> count < need ->
  count_words k words live from end_ need count w =
  let m := BitWords.members (windowed (both words live) from end_) (64 * w) (64 * k) in
  if count + zlen m <? need then (count + zlen m, None) else (need, m !! Z.to_nat (need - count - 1)).
Proof.
  induction k as [|k IH]; intros count w Hw Hl H0 Hf He Hc.
  { cbn. rewrite Z.add_0_r. by destruct (Z.ltb_spec count need); [|lia]. }
  destruct (masked_word_ok words live from end_ w Hw Hl H0 Hf ltac:(lia)) as [Hu Hb].
  cbn [count_words]. change (match live with Some l => _ | None => at0 words w end) with
    (match live with Some l => Z.land (at0 words w) (at0 l w) | None => at0 words w end). cbv zeta.
  fold (masked_word words live from end_ w).
  set (x := masked_word words live from end_ w) in *. rewrite (ones_members x Hu).
  replace (64 * S k)%nat with (64 + 64 * k)%nat by lia. rewrite members_app, (word_members _ x w Hu Hb).
  set (m1 := BitWords.members (Z.testbit x) 0 64) in *. assert (Hz : forall (f : Z -> Z) l, zlen (map f l) = zlen l) by (intros; unfold zlen; by rewrite length_map).
  replace (64 * w + Z.of_nat 64) with (64 * (w + 1)) by lia. set (m2 := BitWords.members _ (64 * (w + 1)) _) in *.
  rewrite zlen_app, Hz. destruct (Z.leb_spec need (count + zlen m1)) as [Hn|Hn].
  - destruct (Z.ltb_spec (count + (zlen m1 + zlen m2)) need); [unfold zlen in *; lia|]. f_equal.
    assert (Hj : (Z.to_nat (need - count - 1) < length m1)%nat) by (unfold zlen in *; lia).
    rewrite lookup_app_l by (by rewrite length_map). change (map (Z.add (64 * w)) m1) with (Z.add (64 * w) <$> m1).
    rewrite list_lookup_fmap. unfold m1. rewrite (nth_bit _ x Hu Hj). cbn [fmap option_fmap option_map]. f_equal. lia.
  - rewrite IH by (done || lia). fold m2. cbv zeta. replace (count + zlen m1 + zlen m2) with (count + (zlen m1 + zlen m2)) by lia.
    destruct (Z.ltb_spec (count + (zlen m1 + zlen m2)) need); [done|]. f_equal.
    rewrite lookup_app_r by (rewrite length_map; unfold zlen in *; lia). f_equal. rewrite length_map. unfold zlen. lia.
Qed.

(** ** The walk *)
Lemma hits_members live_docs A lo n :
  hits live_docs A lo (lo + Z.of_nat n) = BitWords.members (fun i => bool_decide (i ∈ A) && live live_docs i) lo n.
Proof.
  revert lo. induction n as [|n IH]; intros lo; cbn [BitWords.members]; [unfold hits; by rewrite docs_in_nil by lia|].
  unfold hits in *. rewrite (docs_in_step A lo (lo + 1)), filter_app by lia.
  replace (lo + Z.of_nat (S n)) with (lo + 1 + Z.of_nat n) by lia. rewrite IH. f_equal. case_bool_decide as Hin.
  - rewrite docs_in_one by done. unfold filter. cbn. by destruct (live live_docs lo).
  - rewrite docs_in_none; [done|]. intros x Hx Hle. destruct (decide (x = lo)) as [->|]; [done|lia].
Qed.

(** The live documents are a bit set. *)
Definition live_ok (live_docs : option FixedBitSet.t) : Prop := forall l, live_docs = Some l -> inv l.

Lemma both_is_live bits c live_docs i : inv bits -> live_ok live_docs -> 0 <= i ->
  both (FixedBitSet.words bits) (option_map FixedBitSet.words live_docs) i =
  bool_decide (i ∈ set_docs (Bits bits c)) && live live_docs i.
Proof.
  intros Hb Hl Hi. unfold both. f_equal.
  - apply Bool.eq_iff_eq_true. rewrite bool_decide_eq_true, elem_of_bits by done. split; [by split|by intros []].
  - destruct live_docs as [l|]; [|done]. cbn. rewrite get_doc_bit by (by apply Hl). by destruct (Z.leb_spec 0 i); [|lia].
Qed.

Lemma count_set_bits_spec (bits : FixedBitSet.t) (cardinality : Z) (live_docs : option FixedBitSet.t) (from end_ need : Z)
    (Hb : inv bits) (Hl : live_ok live_docs) (Hfrom : 0 <= from <= end_) (Hneed : 0 < need) :
  count_set_bits (FixedBitSet.words bits) live_docs from end_ need =
  let m := hits live_docs (set_docs (Bits bits cardinality)) from end_ in
  if zlen m <? need then (zlen m, None) else (need, m !! Z.to_nat (need - 1)).
Proof.
  unfold count_set_bits. pose proof (Z.div_mod from 64 ltac:(lia)) as Hdm. pose proof (Z.mod_pos_bound from 64 ltac:(lia)) as Hmb.
  pose proof (Z.div_mod (end_ + 63) 64 ltac:(lia)) as Hde. pose proof (Z.mod_pos_bound (end_ + 63) 64 ltac:(lia)) as Hme.
  assert (Hle : from / 64 <= (end_ + 63) / 64) by (apply Z.div_le_mono; lia).
  rewrite count_words_spec; [|apply Hb| |lia|lia|lia|done].
  2:{ intros l E. destruct live_docs as [l'|]; [|done]. injection E as <-. by apply (Hl l'). }
  rewrite Z.sub_0_r. cbv zeta. cbn [Z.add].
  assert (E : BitWords.members (windowed (both (FixedBitSet.words bits) (option_map FixedBitSet.words live_docs)) from end_)
      (64 * (from / 64)) (64 * Z.to_nat ((end_ + 63) / 64 - from / 64)) =
    hits live_docs (set_docs (Bits bits cardinality)) from end_).
  { unfold windowed. rewrite members_inside by lia.
    replace end_ with (from + Z.of_nat (Z.to_nat (end_ - from))) at 2 by lia. rewrite hits_members.
    apply members_ext. intros i Hi. apply both_is_live; [done|done|lia]. }
  rewrite E. reflexivity.
Qed.

(** C35: [count_set_bits] is the walk it replaces: over a bit set and the live
    documents, whatever their lengths, it answers how many live documents of
    the set lie in the window, and, once there are [need] of them, [need] and
    the [need]-th, the document the walk would stop at. *)
Theorem count_set_bits_is_the_walk (bits : FixedBitSet.t) (cardinality : Z) (live_docs : option FixedBitSet.t) (from end_ need : Z)
    (Hb : inv bits) (Hl : live_ok live_docs) (Hfrom : 0 <= from <= end_) (Hneed : 0 < need) :
  count_set_bits (FixedBitSet.words bits) live_docs from end_ need =
  let m := hits live_docs (set_docs (Bits bits cardinality)) from end_ in
  if zlen m <? need then (zlen m, None) else (need, m !! Z.to_nat (need - 1)).
Proof. by apply count_set_bits_spec. Qed.

Lemma count_set_bits_is_the_walk_witness :
  let bits := default (FixedBitSet.new 0) (into_bits 200 [3; 64; 70; 130; 199]) in
  count_set_bits (FixedBitSet.words bits) None 4 200 3 = (3, Some 130).
Proof.
  intros bits. assert (Hb : inv bits).
  { destruct (into_bits_model 200 [3; 64; 70; 130; 199]) as (b & E & Hm & _); [lia|repeat constructor; lia|].
    unfold bits. rewrite E. exact Hm. }
  pose proof (count_set_bits_is_the_walk bits 0 None 4 200 3 Hb ltac:(by intros ?) ltac:(lia) ltac:(lia)) as H.
  rewrite H. by vm_compute.
Defined.
