(* ===== verification/IndexedDisiDecode.v ===== *)
(** * Sparse sets of documents: reading them whole

    [decode_doc_ids_below] reads back the list that was written. *)
From stdpp Require Import strings.
From Stdlib Require Import Sorting.Sorted.
From S2P Require Import Prelude StoreError DataOutput DataInput SliceInput Wire CodecUtil SegmentFile BitWords FixedBitSet FixedBitSetSpec CountBits IndexedDisi IndexedDisiSpec.

Module IndexedDisiDecode.
Import IndexedDisi IndexedDisiSpec.
Notation S := SliceInput.t.

(** ** The region's bytes. *)
Lemma rank_bytes_ok p lows : power_ok p -> lows_ok lows -> bytes_ok (rank_bytes p lows).
Proof.
  intros Hp Hl. destruct (rank_bytes_spec p lows Hp Hl) as [E H]. destruct (Z.eq_dec p NO_RANK) as [->|Hne]; [constructor|]. destruct (H Hne) as (_ & Hpos & He).
  assert (Heven : zlen (rank_bytes p lows) mod 2 = 0).
  { destruct Hp as [|Hp]; [done|]. unfold dense_rank_bytes, NO_RANK in E. destruct (Z.eqb_spec p 0xff); [lia|]. destruct (Z.leb_spec 7 p), (Z.leb_spec p 15); try lia. cbn [andb negb] in E. injection E as <-.
    rewrite Z.shiftr_div_pow2 by lia. change DENSE_BLOCK_LONGS with (2 ^ 10). rewrite <- Z.pow_sub_r by lia. replace (10 - (p - 7)) with (Z.succ (16 - p)) by lia. rewrite Z.pow_succ_r by lia. by rewrite Z.mul_comm, Z.mod_mul. }
  apply List.Forall_forall. intros x Hx. apply list_elem_of_In, list_elem_of_lookup in Hx as [i Hi]. pose proof (lookup_lt_Some _ _ _ Hi) as Hlt.
  pose proof (Z.div_mod (Z.of_nat i) 2 ltac:(lia)). pose proof (Z.mod_pos_bound (Z.of_nat i) 2 ltac:(lia)).
  destruct (He (Z.of_nat i / 2)) as [K1 K2]; [pose proof (Z.div_mod (zlen (rank_bytes p lows)) 2 ltac:(lia)); change (Z.of_nat (List.length (rank_bytes p lows))) with (zlen (rank_bytes p lows)) in *; assert (Z.of_nat i < zlen (rank_bytes p lows)) by (unfold zlen; lia); lia|]. assert (Hz : zget (rank_bytes p lows) (Z.of_nat i) = Some x) by (unfold zget; destruct (Z.ltb_spec (Z.of_nat i) 0); [lia|]; by rewrite Nat2Z.id).
  assert (Z.of_nat i mod 2 = 0 \/ Z.of_nat i mod 2 = 1) as [Em|Em] by lia.
  - replace (2 * (Z.of_nat i / 2)) with (Z.of_nat i) in K1 by lia. rewrite Hz in K1. injection K1 as ->. apply wrapu_range. lia.
  - replace (2 * (Z.of_nat i / 2) + 1) with (Z.of_nat i) in K2 by lia. rewrite Hz in K2. injection K2 as ->. change 0xff with (Z.ones 8). rewrite Z.land_ones by lia. apply Z.mod_pos_bound. lia.
Qed.

Lemma concat_le_ok n l : bytes_ok (concat (map (to_le n) l)).
Proof. induction l as [|x l IH]; [constructor|]. cbn [map concat]. apply bytes_ok_app; [apply to_le_ok|done]. Qed.

Lemma region_bytes_ok p bl : power_ok p -> Forall block_ok bl -> bytes_ok (bytes_of p bl).
Proof.
  intros Hp. induction 1 as [|b bl [Hb Hl] _ IH]; [constructor|]. rewrite bytes_of_cons. apply bytes_ok_app; [|done]. unfold block_bytes, payload. apply bytes_ok_app; [apply to_le_ok|]. apply bytes_ok_app; [apply to_le_ok|].
  destruct (_ <=? _); [apply concat_le_ok|]. destruct (_ =? _); [constructor|]. apply bytes_ok_app; [by apply rank_bytes_ok|apply concat_le_ok].
Qed.

(** ** Reading one block. *)
Lemma reads_u16 v : in_u 16 v -> reads (R := S) read_u16 (to_le 2 v) v.
Proof. intros Hv. eapply reads_map; [apply reads_bytes; by rewrite zlen_to_le|]. by apply from_to_le_id. Qed.

Lemma bits_of_members fuel : forall at_ w, in_u 64 w -> (List.length (members (Z.testbit w) 0 64) <= fuel)%nat -> bits_of fuel at_ w = Some (map (Z.add at_) (members (Z.testbit w) 0 64)).
Proof.
  induction fuel as [|fuel IH]; intros at_ w Hw Hf; destruct (Z.eq_dec w 0) as [->|Hne]; try done; cbn [bits_of]; destruct (Z.eqb_spec w 0); try done;
    destruct (members_clear w Hw Hne) as [Hc E]; rewrite E in Hf; cbn [List.length] in Hf; [lia|].
  rewrite E. cbn [map]. rewrite IH; [done|done|lia].
Qed.

(** Documents in order, above [last] and below [limit]. *)
Definition next_docs (limit last : Z) (l : list Z) : Prop := StronglySorted Z.lt l /\ Forall (fun d => last < d < limit) l.
Lemma next_docs_cons limit last d l : next_docs limit last (d :: l) -> last < d < limit /\ next_docs limit d l.
Proof.
  intros [Hs Hr]. apply StronglySorted_inv in Hs as [Hs Hd]. apply Forall_cons_1 in Hr as [Hd0 Hr]. split; [done|]. split; [done|].
  rewrite List.Forall_forall in *. intros x Hx. specialize (Hd x Hx). specialize (Hr x Hx). lia.
Qed.
Lemma next_docs_app limit last a b : next_docs limit last (a ++ b) -> next_docs limit last a /\ next_docs limit (List.last a last) b.
Proof.
  intros [Hs Hr]. apply Forall_app in Hr as [Ha Hb]. apply sorted_app_inv in Hs as (H1 & H2 & H3). split; [done|]. split; [done|].
  destruct a as [|x a]; [done|]. destruct (exists_last (l := x :: a)) as (a' & z & E); [done|]. rewrite E in *. rewrite List.last_last. rewrite List.Forall_forall in *.
  intros y Hy. split; [apply H3; [apply in_or_app; right; by left|done]|by apply Hb].
Qed.

Lemma reads_check limit first end_ last : last < first -> end_ < limit -> reads (check_doc limit first end_ last) [] tt.
Proof. intros H1 H2. unfold check_doc. destruct (Z.leb_spec first last); [lia|]. destruct (Z.leb_spec limit end_); [lia|]. apply reads_ret. Qed.

(** The documents' high half. *)
Lemma lor_low b i : 0 <= b < 2 ^ 15 -> 0 <= i < 65536 -> Z.lor (Z.shiftl b 16) i = Z.shiftl b 16 + i.
Proof.
  intros Hb Hi. apply lor_disjoint_add, Z.bits_inj'. intros n Hn. rewrite Z.land_spec, Z.bits_0. destruct (Z.ltb_spec n 16).
  - by rewrite Z.shiftl_spec_low.
  - rewrite (testbit_above 16 i n); [apply andb_false_r|split; lia|done].
Qed.

Lemma sparse_reads b limit lows : 0 <= b < 2 ^ 15 -> Forall (fun i => 0 <= i < 65536) lows -> limit <= NO_MORE_DOCS -> forall last docs,
  next_docs limit last (map (Z.add (Z.shiftl b 16)) lows) ->
  reads (sparse_docs_of (List.length lows) b limit last docs) (concat (map (to_le 2) lows)) (docs ++ map (Z.add (Z.shiftl b 16)) lows, Some (List.last (map (Z.add (Z.shiftl b 16)) lows) last)).
Proof.
  intros Hb Hr Hlim. induction Hr as [|i lows Hi _ IH]; intros last docs Hn; cbn [List.length sparse_docs_of map concat]; [rewrite app_nil_r; apply reads_ret|].
  cbn [map] in Hn. apply next_docs_cons in Hn as [Hd Hn]. eapply reads_bind; [apply reads_store, reads_u16; split; lia|]. cbv zeta. rewrite lor_low by done.
  destruct (Z.eqb_spec (Z.shiftl b 16 + i) (2 ^ 31 - 1)); [unfold NO_MORE_DOCS in Hlim; lia|]. rewrite <- (app_nil_l (concat _)). eapply reads_bind; [apply reads_check; lia|].
  specialize (IH _ (docs ++ [Z.shiftl b 16 + i]) Hn). rewrite <- app_assoc in IH. cbn [app] in IH. destruct lows as [|j lows]; [exact IH|]. cbn [map] in *. rewrite (last_default _ _ _ last) in IH. exact IH.
Qed.

Lemma last_app_default {A} (a b : list A) d : List.last (a ++ b) d = List.last b (List.last a d).
Proof. revert d. induction a as [|x a IH]; intros d; [done|]. cbn [app]. destruct a as [|y a]; [|exact (IH d)]. destruct b as [|z b]; [done|]. exact (last_default z b d x). Qed.

Lemma members_first_last w c d : in_u 64 w -> w <> 0 -> exists l, map (Z.add c) (members (Z.testbit w) 0 64) = c + trailing_zeros 64 w :: l /\
  List.last (map (Z.add c) (members (Z.testbit w) 0 64)) d = c + 63 - leading_zeros 64 w /\ In (c + 63 - leading_zeros 64 w) (map (Z.add c) (members (Z.testbit w) 0 64)).
Proof.
  intros Hw Hne. destruct (members_clear w Hw Hne) as [_ E]. destruct (leading_zeros_log2 64 w Hw Hne) as [Hl Hr]. destruct (log2_bits w) as [Hb Hz]; [destruct Hw; lia|].
  eexists. split; [rewrite E; cbn [map]; reflexivity|]. assert (Em : members (Z.testbit w) 0 64 = members (Z.testbit w) 0 (Z.to_nat (Z.log2 w)) ++ [Z.log2 w]).
  { replace 64%nat with (Z.to_nat (Z.log2 w) + (1 + Z.to_nat (63 - Z.log2 w)))%nat by lia. rewrite !members_app. f_equal. rewrite (members_false _ (_ + Z.of_nat 1)) by (intros i Hi; apply Hz; lia).
    rewrite app_nil_r. cbn [members]. rewrite Z.add_0_l, Z2Nat.id by lia. by rewrite Hb. }
  rewrite Em, map_app. cbn [map]. rewrite List.last_last. replace (c + 63 - leading_zeros 64 w) with (c + Z.log2 w) by lia. split; [done|]. apply in_or_app. right. by left.
Qed.

Lemma dense_reads base limit ws : words_ok ws -> forall idx last docs,
  let l := map (Z.add (base + idx * 64)) (members (wbit ws) 0 (64 * List.length ws)) in next_docs limit last l ->
  reads (dense_docs_of (List.length ws) base limit idx last docs) (concat (map (to_le 8) ws)) (docs ++ l, List.last l last).
Proof.
  induction 1 as [|w ws Hw Hws IH]; intros idx last docs l Hn; [cbn; rewrite app_nil_r; apply reads_ret|].
  set (here := map (Z.add (base + idx * 64)) (members (Z.testbit w) 0 64)). set (after := map (Z.add (base + (idx + 1) * 64)) (members (wbit ws) 0 (64 * List.length ws))).
  assert (El : l = here ++ after).
  { unfold l, here, after. cbn [List.length]. replace (64 * Datatypes.S (List.length ws))%nat with (64 + 64 * List.length ws)%nat by lia. rewrite members_app, map_app. apply (f_equal2 app).
    - reflexivity.
    - change (0 + Z.of_nat 64) with (0 + 64). rewrite members_shift, map_map. erewrite members_ext; [apply map_ext; intros i; lia|]. intros i Hi. unfold wbit. cbn beta.
      destruct (word_of_unique (i + 64) (i / 64 + 1) (i mod 64)) as [-> ->]; [apply Z.mod_pos_bound; lia|pose proof (Z.div_mod i 64 ltac:(lia)); lia|].
      f_equal. unfold at0. pose proof (Z.div_pos i 64 ltac:(lia) ltac:(lia)). by replace (Z.to_nat (i / 64 + 1)) with (Datatypes.S (Z.to_nat (i / 64))) by lia. }
  rewrite El in *. clearbody l. apply next_docs_app in Hn as [Hh Ha]. cbn [List.length dense_docs_of map concat].
  rewrite <- (to_le_wraps 8 w) by lia. eapply reads_bind; [apply reads_store, reads_i64, wraps_range; lia|]. change (8 * Z.of_nat 8) with 64. rewrite wrapu_wraps, wrapu_id by (done || lia).
  rewrite last_app_default. destruct (Z.eqb_spec w 0) as [->|Hne].
  - change here with (@nil Z) in *. cbn [app List.last] in *. by apply IH.
  - destruct (members_first_last w (base + idx * 64) last Hw Hne) as (l0 & E1 & E2 & E3). fold here in E1, E2, E3. cbv zeta. rewrite E2 in *. destruct Hh as [_ Hh]. rewrite List.Forall_forall in Hh.
    rewrite <- (app_nil_l (concat _)). eapply reads_bind; [apply reads_check; [apply Hh; rewrite E1; by left|by apply Hh]|]. rewrite <- (app_nil_l (concat _)). eapply reads_bind.
    + rewrite bits_of_members; [apply reads_ret|done|]. pose proof (count_range (Z.testbit w) 0 64). pose proof (members_length (Z.testbit w) 0 64) as Hz. unfold zlen in Hz. lia.
    + fold here. rewrite app_assoc. by apply IH.
Qed.

(** A full block's documents. *)
Lemma full_lows lows n : lows_ok lows -> zlen lows = BLOCK_SIZE -> Z.of_nat n = BLOCK_SIZE -> lows = map Z.of_nat (seq 0 n).
Proof.
  intros Hl Hz Hn. apply list_eq. intros k. rewrite list_lookup_fmap. destruct (Nat.lt_ge_cases k n) as [Hk|Hk].
  - destruct (full_block lows Hl Hz (Z.of_nat k)) as [W B]; [lia|]. rewrite lookup_seq_lt by done. cbn [fmap option_fmap option_map]. apply lows_lookup; [done|lia|]. by split.
  - rewrite lookup_ge_None_2 by (unfold zlen in Hz; lia). by rewrite lookup_seq_ge.
Qed.

Lemma full_docs b n last : block_ok b -> zlen b.2 = BLOCK_SIZE -> Z.of_nat n = BLOCK_SIZE ->
  block_docs b = map (fun k => Z.shiftl b.1 16 + Z.of_nat k) (seq 0 n) /\ In (Z.shiftl b.1 16) (block_docs b) /\
  In (Z.shiftl b.1 16 + BLOCK_SIZE - 1) (block_docs b) /\ List.last (block_docs b) last = Z.shiftl b.1 16 + BLOCK_SIZE - 1.
Proof.
  intros [Hb Hl] Hz Hn. assert (E : block_docs b = map (fun k => Z.shiftl b.1 16 + Z.of_nat k) (seq 0 n)) by (unfold block_docs; rewrite (full_lows b.2 n Hl Hz Hn); apply map_map).
  destruct n as [|n]; [done|]. assert (E2 : block_docs b = map (fun k => Z.shiftl b.1 16 + Z.of_nat k) (seq 0 n) ++ [Z.shiftl b.1 16 + BLOCK_SIZE - 1]).
  { rewrite E, seq_S, map_app. cbn [map]. do 2 f_equal. lia. }
  split; [done|]. split; [rewrite E; cbn [seq map]; left; lia|]. rewrite E2. split; [apply in_or_app; right; by left|apply List.last_last].
Qed.

Lemma dense_docs_are b : block_ok b -> block_docs b = map (Z.add (Z.shiftl b.1 16 + 0 * 64)) (members (wbit (words_of b.2)) 0 (64 * List.length (words_of b.2))).
Proof.
  intros [_ Hl]. destruct (words_facts b.2 Hl) as (_ & Hz & Hbits). unfold block_docs. replace (Z.shiftl b.1 16 + 0 * 64) with (Z.shiftl b.1 16) by lia. f_equal. rewrite (lows_members b.2 Hl) at 1.
  replace (64 * List.length (words_of b.2))%nat with (Z.to_nat BLOCK_SIZE) by (unfold zlen in Hz; unfold BLOCK_SIZE; lia). apply members_ext. intros i Hi. symmetry. apply Hbits. lia.
Qed.

Lemma decode_reads p limit : power_ok p -> limit <= NO_MORE_DOCS -> forall bl fuel last docs, Forall block_ok bl -> next_docs limit last (concat (map block_docs bl)) -> (List.length bl < fuel)%nat ->
  reads (decode_loop fuel p limit last docs) (bytes_of p (bl ++ [sentinel])) (docs ++ concat (map block_docs bl)).
Proof.
  intros Hp Hlim. induction bl as [|b bl IH]; intros fuel last docs Hok Hn Hf; (destruct fuel as [|fuel]; [cbn in Hf; lia|]); cbn [decode_loop app map concat].
  - rewrite app_nil_r. change (bytes_of p [sentinel]) with (to_le 2 0x7fff ++ to_le 2 0 ++ to_le 2 0xffff).
    eapply reads_bind; [apply reads_store, reads_u16; by split|]. eapply reads_bind; [apply reads_store, reads_u16; by split|]. cbv zeta. change (1 + 0 <=? MAX_ARRAY_LENGTH) with true. cbn iota.
    apply (reads_bind_last _ _ _ (docs, None)); [|apply reads_ret]. change (Z.to_nat (1 + 0)) with 1%nat. cbn [sparse_docs_of]. eapply reads_bind_last; [apply reads_store, reads_u16; by split|].
    cbv zeta. change (Z.lor (Z.shiftl 0x7fff 16) 0xffff =? 2 ^ 31 - 1) with true. apply reads_ret.
  - apply Forall_cons_1 in Hok as [Hb Hok]. apply next_docs_app in Hn as [Hh Ha]. rewrite bytes_of_cons. unfold block_bytes. rewrite <- !app_assoc. pose proof Hb as [Hb1 Hl]. destruct (lows_count _ Hl) as [_ Hc].
    eapply reads_bind; [apply reads_store, reads_u16; split; lia|]. eapply reads_bind; [apply reads_store, reads_u16; unfold BLOCK_SIZE in Hc; split; lia|]. cbv zeta.
    replace (1 + (zlen b.2 - 1)) with (zlen b.2) by lia. rewrite app_assoc. assert (IH' : forall last', last' = List.last (block_docs b) last -> reads (decode_loop fuel p limit last' (docs ++ block_docs b)) (bytes_of p (bl ++ [sentinel])) ((docs ++ block_docs b) ++ concat (map block_docs bl))).
    { intros last' ->. apply IH; [done|done|cbn in Hf; lia]. }
    unfold payload. destruct (zlen b.2 <=? MAX_ARRAY_LENGTH).
    + replace (Z.to_nat (zlen b.2)) with (List.length b.2) by (unfold zlen; lia). eapply reads_bind; [apply sparse_reads; [done| |done|exact Hh]|by apply IH'].
      apply (lows_range _ Hl).
    + destruct (Z.eqb_spec (zlen b.2) BLOCK_SIZE) as [Ef|Ef].
      * destruct (full_docs b (Z.to_nat BLOCK_SIZE) last Hb Ef) as (E1 & E2 & E3 & E4); [by rewrite Z2Nat.id|]. destruct Hh as [_ Hh]. rewrite List.Forall_forall in Hh. cbn [app].
        rewrite <- (app_nil_l (bytes_of _ _)). eapply reads_bind; [apply reads_check; by apply Hh|]. rewrite <- E1. apply IH'. by rewrite E4.
      * rewrite <- app_assoc. apply (reads_bind _ _ [] _ (zlen (rank_bytes p b.2))); [rewrite (proj1 (rank_bytes_spec p b.2 Hp Hl)); apply reads_ret|].
        eapply reads_bind; [apply reads_store, reads_skip|]. rewrite (dense_docs_are b Hb) in Hh. destruct (words_facts b.2 Hl) as (Hw & Hz & _).
        replace (Z.to_nat DENSE_BLOCK_LONGS) with (List.length (words_of b.2)) by (unfold zlen in Hz; change DENSE_BLOCK_LONGS with 1024; lia).
        eapply reads_bind; [apply (dense_reads _ limit _ Hw 0), Hh|]. cbn [fst snd]. rewrite <- (dense_docs_are b Hb). by apply IH'.
Qed.

Lemma table_bytes_ok l : bytes_ok (table_bytes l).
Proof. unfold table_bytes. induction l as [|x l IH]; [constructor|]. cbn [map concat]. apply bytes_ok_app; [apply bytes_ok_app; apply to_le_ok|done]. Qed.

(** C26: Reading the region whole gives back the list that was written, in
    any segment that holds its documents: sparse, dense and full blocks,
    with or without rank tables, and the table of jumps left alone. *)
Theorem whole_sets_are_read_back p doc_ids max_doc : power_ok p -> docs_ok doc_ids -> Forall (fun d => d < max_doc) doc_ids -> max_doc <= NO_MORE_DOCS -> exists region count,
  write_with_dense_rank_power doc_ids p = Some (region, count) /\ decode_doc_ids_below region p max_doc = Ok doc_ids.
Proof.
  intros Hp Hd Hmax Hlim. destruct (write_is_the_blocks p doc_ids Hp Hd) as (bl & A1 & A2 & A3 & A4 & A5 & E). eexists _, _. split; [exact E|].
  assert (Hok : bytes_ok (bytes_of p (bl ++ [sentinel]) ++ table_bytes (table_of p bl))) by (apply bytes_ok_app; [by apply region_bytes_ok, full_ok|apply table_bytes_ok]).
  pose proof (full_length p bl Hp A1) as Hlen. rewrite length_app in Hlen. cbn [List.length] in Hlen.
  assert (Hsize : zlen (bytes_of p (bl ++ [sentinel]) ++ table_bytes (table_of p bl)) < 2 ^ 63).
  { rewrite zlen_app, table_size, bytes_of_app, zlen_app. change (zlen (bytes_of p [sentinel])) with 6. pose proof (table_few p bl A2 A4). lia. }
  destruct (decode_reads p max_doc Hp Hlim bl (Datatypes.S (List.length (bytes_of p (bl ++ [sentinel]) ++ table_bytes (table_of p bl)))) (-1) [] A1) with (r := SliceInput.new (bytes_of p (bl ++ [sentinel]) ++ table_bytes (table_of p bl))) (bs := table_bytes (table_of p bl)) as (s' & Er & _).
  - rewrite A3. destruct Hd as [Hs Hr]. split; [done|]. rewrite List.Forall_forall in *. intros d Hd. specialize (Hr d Hd). specialize (Hmax d Hd). lia.
  - rewrite length_app. lia.
  - by apply new_input_inv.
  - done.
  - unfold decode_doc_ids_below. by rewrite Er, A3.
Qed.

Example whole_sets_are_read_back_witness : exists region count,
  write_with_dense_rank_power [3; 200000] 9 = Some (region, count) /\ decode_doc_ids_below region 9 200001 = Ok [3; 200000].
Proof. apply (whole_sets_are_read_back 9 [3; 200000] 200001); [right; lia|apply two_documents_ok|repeat constructor; done|done]. Defined.
End IndexedDisiDecode.
