(* ===== verification/BulkScoreSpec.v ===== *)
(** * What scoring a segment collects

    Over any lawful scorer and any lawful collector, outside the top-scores
    mode, every path of [default_score] collects the live matches of its
    window, in order, once each, every one with the score the scorer gives it
    ([score_of]), and leaves the scorer at the first stop past it, over no
    match. *)
From S2P Require Export CountBits.
From S2P Require Import BitWords FixedBitSet FixedBitSetSpec FixedBitSetAlgebra.

(** A run holds only documents of the approximation; a constant score is
    every match's. *)
Class RunLaws (E S : Type) `{Scorer E S} `{ScorerView S} `{RunScorer E S} : Prop := {
  run_end_ok (s : S) : good s -> two_phase s = false -> doc_id s ∈ approx s ->
    stays s (doc_id_run_end s).2 /\ doc_id s < (doc_id_run_end s).1 /\
    forall x, doc_id s <= x < (doc_id_run_end s).1 -> x ∈ approx s;
  constant_score_ok (s : S) v : good s -> constant_score s = Some v -> forall d, d ∈ accept s -> gives s d v;
}.

(** ** Filters *)
Section filters.
Context {A : Type} (P : A -> Prop) `{forall x, Decision (P x)}.
Lemma filter_sorted R l : Sorted.StronglySorted R l -> Sorted.StronglySorted R (filter P l).
Proof.
  induction 1 as [|x l Hl IH Hx]; [constructor|]. rewrite filter_cons. case_decide; [|done]. constructor; [done|].
  rewrite Forall_forall in *. intros y [_ Hy]%list_elem_of_filter. by apply Hx.
Qed.
End filters.

(** ** What was collected *)
Section collected.
Context {C : Type} `{CL : CollectorLaws C}.
Implicit Types (c : C) (A : gset Z).

Lemma collect_each_valid l : forall c, valid c -> exists c', collect_each c l = Some c' /\ valid c'.
Proof.
  induction l as [|[d s] l IH]; intros c Hv; cbn; [by eexists|].
  destruct (collect_safe c d s Hv) as (c1 & -> & Hv1). cbn. by apply IH.
Qed.

Lemma collect_each_keeps l c c' : valid c -> collect_each c l = Some c' -> valid c'.
Proof. intros Hv He. destruct (collect_each_valid l c Hv) as (c1 & H1 & H2). congruence. Qed.

Lemma collect_each_app l k c : collect_each c (l ++ k) = c' ← collect_each c l; collect_each c' k.
Proof. revert c. induction l as [|[d s] l IH]; intros c; cbn; [done|]. destruct (Collector.collect c d s); cbn; [apply IH|done]. Qed.

(** [c'] is [c] after the live documents of [A] in [[lo, hi)], each with a
    score [G] allows it. *)
Definition scored (G : Z -> f32 -> Prop) (live_docs : option FixedBitSet.t) A (lo hi : Z) (c c' : C) : Prop :=
  exists scores, Forall2 G (hits live_docs A lo hi) scores /\
    collect_each c (zip (hits live_docs A lo hi) scores) = Some c'.

Lemma hits_nil live_docs A lo hi : (forall x, x ∈ A -> lo <= x -> hi <= x) -> hits live_docs A lo hi = [].
Proof. intros H. unfold hits. by rewrite docs_in_none. Qed.

Lemma hits_split live_docs A lo mid hi : lo <= mid -> mid <= hi ->
  hits live_docs A lo hi = hits live_docs A lo mid ++ hits live_docs A mid hi.
Proof. intros H1 H2. unfold hits. rewrite (docs_in_step A lo mid hi) by done. apply filter_app. Qed.

Lemma hits_from live_docs A lo lo' hi : lo <= lo' -> (forall x, x ∈ A -> lo <= x -> lo' <= x) ->
  hits live_docs A lo hi = hits live_docs A lo' hi.
Proof.
  intros Hle Hx. destruct (Z.le_ge_cases hi lo') as [H|H].
  - rewrite !hits_nil; [done|intros; lia|]. intros x Hxa Hlo. specialize (Hx x Hxa Hlo). lia.
  - rewrite (hits_split live_docs A lo lo') by done. by rewrite (hits_nil live_docs A lo lo').
Qed.

Lemma hits_one live_docs A d : d ∈ A -> hits live_docs A d (d + 1) = if live live_docs d then [d] else [].
Proof. intros Hd. unfold hits. rewrite docs_in_one by done. unfold filter. cbn. by destruct (live live_docs d). Qed.

Lemma scored_none G live_docs A lo hi c : (forall x, x ∈ A -> lo <= x -> hi <= x) -> scored G live_docs A lo hi c c.
Proof. intros H. exists []. rewrite hits_nil by done. by split. Qed.

Lemma scored_from G live_docs A lo lo' hi c c' :
  lo <= lo' -> (forall x, x ∈ A -> lo <= x -> lo' <= x) ->
  scored G live_docs A lo' hi c c' -> scored G live_docs A lo hi c c'.
Proof. intros H1 H2. unfold scored. by rewrite (hits_from live_docs A lo lo' hi H1 H2). Qed.

Lemma scored_app G live_docs A lo mid hi c c1 c2 :
  lo <= mid -> mid <= hi -> scored G live_docs A lo mid c c1 -> scored G live_docs A mid hi c1 c2 ->
  scored G live_docs A lo hi c c2.
Proof.
  intros H1 H2 (s1 & F1 & E1) (s2 & F2 & E2). exists (s1 ++ s2).
  rewrite (hits_split live_docs A lo mid hi) by done. split; [by apply Forall2_app|].
  rewrite zip_with_app by (by eapply Forall2_length). rewrite collect_each_app, E1. exact E2.
Qed.

Lemma scored_hit G live_docs A d hi v c c1 c2 :
  d < hi -> d ∈ A -> live live_docs d = true -> Collector.collect c d v = Some c1 -> G d v ->
  scored G live_docs A (d + 1) hi c1 c2 -> scored G live_docs A d hi c c2.
Proof.
  intros Hlt Hd Hl Hc Hv. apply scored_app; [lia|lia|]. exists [v]. rewrite hits_one, Hl by done. split; [by repeat constructor|]. cbn. by rewrite Hc.
Qed.

Lemma scored_dead G live_docs A d hi c c' :
  (d ∈ A -> live live_docs d = false) -> scored G live_docs A (d + 1) hi c c' -> scored G live_docs A d hi c c'.
Proof.
  intros Hd. unfold scored. destruct (Z.ltb_spec d hi) as [Hlt|Hge].
  - rewrite (hits_split live_docs A d (d + 1) hi) by lia. destruct (decide (d ∈ A)) as [Hin|Hout].
    + rewrite hits_one, (Hd Hin) by done. done.
    + rewrite (hits_nil live_docs A d (d + 1)); [done|]. intros x Hx Hle. destruct (decide (x = d)) as [->|]; [done|lia].
  - by rewrite !hits_nil by (intros; lia).
Qed.

Lemma scored_valid G live_docs A lo hi c c' : valid c -> scored G live_docs A lo hi c c' -> valid c'.
Proof. intros Hv (s & _ & He). by eapply collect_each_keeps. Qed.
End collected.

(** ** The loops *)
Section score_laws.
Context {E S C : Type} `{L : ScorerLaws E S} `{CB : ConstantBits S} `{CBL : !ConstantBitsLaws E S}.
Context `{RS : RunScorer E S} `{RL : !RunLaws E S} `{CL : CollectorLaws C}.
Implicit Types (s : S) (c : C).

(** The scores the collector is fed: the scorer's, zero when none is needed. *)
Definition score_of (needs : bool) s (d : Z) (x : f32) : Prop := if needs then gives s d x else x = f32_of_Z 0.

Lemma score_of_same needs s s' : same s s' -> score_of needs s' = score_of needs s.
Proof. unfold score_of. by intros (_ & _ & _ & _ & ->). Qed.

(** Nothing to accept from [t] on was passed. *)
Definition not_missed s (t : Z) : Prop := forall x, x ∈ accept s -> t <= x -> doc_id s <= x.

(** The scorer is at [doc], the first document to score from [max] on. *)
Definition finished (s0 : S) (max doc : Z) (s : S) : Prop :=
  good s /\ same s0 s /\ doc_id s = doc /\ max <= doc /\ (doc = NO_MORE_DOCS \/ doc ∈ approx s0) /\
  forall x, x ∈ accept s0 -> max <= x -> doc <= x.

Definition scored_window (needs : bool) (live_docs : option FixedBitSet.t) (s0 : S) (lo max : Z) (c : C) (p : f32)
    (r : Z * bulk_state (S := S) (C := C)) : Prop :=
  finished s0 max r.1 r.2.1.1 /\ r.2.2 = p /\ scored (score_of needs s0) live_docs (accept s0) lo max c r.2.1.2.

Lemma window_skip needs live_docs s0 lo lo' max c p r :
  lo <= lo' -> (forall x, x ∈ accept s0 -> lo <= x -> lo' <= x) ->
  scored_window needs live_docs s0 lo' max c p r -> scored_window needs live_docs s0 lo max c p r.
Proof. intros H1 H2 (H3 & H4 & H5). split; [done|]. split; [done|]. by eapply scored_from. Qed.

Lemma at_end s0 s max :
  good s -> same s0 s -> max <= doc_id s -> doc_id s = NO_MORE_DOCS \/ doc_id s ∈ approx s0 -> not_missed s max ->
  finished s0 max (doc_id s) s.
Proof.
  intros Hg Hs Hm Hd Hn. split; [done|]. split; [done|]. split; [done|]. split; [done|]. split; [done|].
  intros x Hx. apply Hn. by rewrite (proj1 (proj2 Hs)).
Qed.

(** The next stop of the approximation. *)
Lemma next_stop n s0 s :
  good s -> same s0 s -> good s0 -> doc_id s < NO_MORE_DOCS -> (need s0 <= n)%nat ->
  wp (next_doc s) n (fun r => good r.2 /\ same s0 r.2 /\ doc_id r.2 = r.1 /\ first_at (approx s0) (doc_id s + 1) r.1).
Proof.
  intros Hg Hs Hg0 Hd Hn. wp_use next_doc_ok; [done|done|destruct Hs as (_ & _ & _ & -> & _); lia|].
  intros [d s1] (H1 & H2 & H3 & H4). cbn [fst snd] in *. split; [done|]. split; [by eapply same_trans|]. split; [done|].
  by rewrite (proj1 Hs) in H4.
Qed.

Lemma accept_stop s0 t d : good s0 -> first_at (approx s0) t d -> forall x, x ∈ accept s0 -> t <= x -> d <= x.
Proof. intros Hg (_ & _ & H) x Hx. apply H. by apply accept_approx. Qed.

Lemma stop_measure s0 d d' : first_at (approx s0) (d + 1) d' -> d ∈ approx s0 ->
  (count_from (approx s0) d' < count_from (approx s0) d)%nat.
Proof. intros Hf Hd. apply count_from_lt; [done|]. pose proof (first_at_le _ _ _ Hf). lia. Qed.

Lemma stop_place s0 t d : first_at (approx s0) t d -> d = NO_MORE_DOCS \/ d ∈ approx s0.
Proof. by intros (_ & H & _). Qed.

Lemma score_loop_ok n s0 needs live_docs max p k : forall s c,
  good s0 -> good s -> same s0 s -> valid c -> max <= NO_MORE_DOCS -> (exact_need s0 <= n)%nat ->
  doc_id s = NO_MORE_DOCS \/ doc_id s ∈ approx s0 -> not_missed s max ->
  (count_from (approx s0) (doc_id s) < k)%nat ->
  wp (score_loop k (two_phase s0) false needs live_docs max (s, c, p) (doc_id s)) n
    (scored_window needs live_docs s0 (doc_id s) max c p).
Proof.
  induction k as [|k IH]; intros s c Hg0 Hg Hs Hv Hm Hn Hd Hnm Hk; [lia|]. cbn [score_loop].
  destruct (Z.ltb_spec (doc_id s) max) as [Hlt|Hge].
  2:{ wp_ret. split; [by apply at_end|]. split; [done|]. apply scored_none. intros; lia. }
  destruct Hd as [Hd|Hd]; [lia|]. assert (Hda : doc_id s ∈ approx s) by (by rewrite (proj1 Hs)).
  assert (Hneed : (need s <= n)%nat) by (destruct Hs as (_ & _ & _ & -> & _); unfold exact_need in Hn; lia).
  wp_bind. eapply (wp_mono _ _ (fun st => good st.1.1 /\ same s0 st.1.1 /\ doc_id st.1.1 = doc_id s /\ st.2 = p /\ valid st.1.2 /\
    forall c2, scored (score_of needs s0) live_docs (accept s0) (doc_id s + 1) max st.1.2 c2 -> scored (score_of needs s0) live_docs (accept s0) (doc_id s) max c c2)).
  - destruct (live live_docs (doc_id s)) eqn:El; [|wp_ret; split_and!; try done; intros c2; by apply scored_dead].
    wp_bind. eapply (wp_mono _ _ (fun r => good r.2 /\ same s0 r.2 /\ doc_id r.2 = doc_id s /\
      r.1 = bool_decide (doc_id s ∈ accept s0) /\ (r.1 = true -> confirmed r.2))).
    { destruct (two_phase s0) eqn:E2.
      - wp_use matches_ok; [done|done|done|]. intros [m s1] (H1 & H2 & H3 & H4 & H5). cbn [fst snd] in *.
        rewrite (proj1 (proj2 Hs)) in H4. split_and!; [done|by eapply same_trans|done|done|done].
      - wp_ret. assert (Hacc : accept s0 = approx s0) by (by apply one_phase).
        split_and!; [done|done|done|symmetry; apply bool_decide_eq_true; by rewrite Hacc|].
        intros _. apply one_phase_confirmed; [done|by destruct Hs as (_ & _ & -> & _)|done]. }
    intros [m s1] (Hg1 & Hs1 & Hd1 & Hmb & Hcf). cbn [fst snd] in *. subst m. case_bool_decide as Hin.
    2:{ wp_ret. split_and!; try done. intros c2. by apply scored_dead. }
    wp_bind. eapply (wp_mono _ _ (fun r => good r.2 /\ same s0 r.2 /\ doc_id r.2 = doc_id s /\ score_of needs s0 (doc_id s) r.1)).
    { destruct needs; [|by wp_ret]. wp_use score_ok; [done|rewrite Hd1; by rewrite (proj1 (proj2 Hs1))|auto|
        destruct Hs1 as (_ & _ & _ & -> & _); unfold exact_need in Hn; lia|].
      intros [v s2] [(H1 & H2 & H3 & _) Hx]. cbn [fst snd] in *. split_and!; [done|by eapply same_trans|congruence|].
      cbn. rewrite <- Hd1. by destruct Hs1 as (_ & _ & _ & _ & <-). }
    intros [v s2] (Hg2 & Hs2 & Hd2 & Hz). cbn [fst snd] in *. wp_bind. unfold collect_hit.
    destruct (collect_safe c (doc_id s) v Hv) as (c1 & Hc1 & Hv1). eapply wp_of_option; [exact Hc1|]. wp_ret.
    split_and!; try done. intros c2. by eapply scored_hit.
  - intros [[s1 c1] p1] (Hg1 & Hs1 & Hd1 & Hp1 & Hv1 & Hsc). cbn [fst snd] in *. subst p1. wp_bind.
    wp_use (next_stop n s0 s1); [done|done|done|lia|unfold exact_need in Hn; lia|].
    intros [d s2] (Hg2 & Hs2 & Hd2 & Hf). cbn [fst snd] in *. rewrite Hd1 in Hf. pose proof (first_at_le _ _ _ Hf).
    rewrite <- Hd2 in *. wp_use (IH s2 c1); [done|done|done|done|done|done|by eapply stop_place| |pose proof (stop_measure _ _ _ Hf Hd); lia|].
    + intros x Hx Hle. rewrite (proj1 (proj2 Hs2)) in Hx. apply (accept_stop s0 _ _ Hg0 Hf); [done|lia].
    + intros r (H1 & H2 & H3). split; [done|]. split; [done|]. apply Hsc. eapply scored_from; [|by apply (accept_stop s0 _ _ Hg0 Hf)|done]. lia.
Qed.
(** Where a path may start: at a stop of the approximation, nothing missed. *)
Definition standing (s0 : S) (max : Z) s c : Prop :=
  good s /\ same s0 s /\ valid c /\ (doc_id s = NO_MORE_DOCS \/ doc_id s ∈ approx s0) /\ not_missed s max.

(** Enough fuel for one operation of a scorer like [s0]. *)
Lemma need_same n s0 s : same s0 s -> (exact_need s0 <= n)%nat -> (need s <= n)%nat.
Proof. intros (_ & _ & _ & -> & _). unfold exact_need. lia. Qed.

Lemma standing_done needs live_docs s0 max s c p :
  standing s0 max s c -> max <= doc_id s -> scored_window needs live_docs s0 (doc_id s) max c p (doc_id s, (s, c, p)).
Proof.
  intros (Hg & Hs & _ & Hd & Hn) Hm. split; [by apply at_end|]. split; [done|]. apply scored_none. intros; cbn in *; lia.
Qed.

(** After the stop at [t], the scorer stands. *)
Lemma standing_stop s0 max s s1 c t d :
  good s0 -> same s0 s -> t <= max -> valid c -> lands s t (d, s1) -> standing s0 max s1 c.
Proof.
  intros Hg0 Hs Ht Hv (Hg & Hs1 & Hd & Hf). cbn [fst snd] in *. rewrite (proj1 Hs), <- Hd in Hf.
  split; [done|]. split; [by eapply same_trans|]. split; [done|]. split; [by eapply stop_place|].
  intros x Hx Hm. rewrite (proj1 (proj2 Hs1)), (proj1 (proj2 Hs)) in Hx. apply (accept_stop s0 t _ Hg0 Hf); [done|lia].
Qed.

Lemma standing_stays s0 max s s1 c : standing s0 max s c -> stays s s1 -> standing s0 max s1 c.
Proof.
  intros (Hg & Hs & Hv & Hd & Hn) (Hg1 & Hs1 & Hd1 & _). split; [done|]. split; [by eapply same_trans|].
  split; [done|]. rewrite Hd1. split; [done|]. intros x Hx. rewrite Hd1. apply Hn. by rewrite <- (proj1 (proj2 Hs1)).
Qed.

(** *** Runs *)
Lemma scored_run needs s0 lo hi c c1 v :
  (forall x, lo <= x < hi -> x ∈ accept s0) -> 0 <= lo -> hi <= NO_MORE_DOCS -> valid c -> (forall d, d ∈ accept s0 -> score_of needs s0 d v) ->
  collect_range c lo hi v = Some c1 -> scored (score_of needs s0) None (accept s0) lo hi c c1.
Proof.
  intros Hin H0 Hm Hv Hz Hc. rewrite collect_range_ok in Hc by done.
  assert (Hh : hits None (accept s0) lo hi = seqZ lo (hi - lo)).
  { unfold hits, docs_in. rewrite !filter_all; [done|..]; [|apply Forall_forall; intros x _; done].
    apply Forall_forall. intros x Hx%elem_of_seqZ. apply Hin. lia. }
  exists (replicate (length (seqZ lo (hi - lo))) v). rewrite Hh. split.
  { apply Forall2_replicate_r; [done|]. apply Forall_forall. intros x Hx%elem_of_seqZ. apply Hz, Hin. lia. }
  rewrite <- Hc. f_equal.
  clear. induction (seqZ lo (hi - lo)) as [|x l IH]; cbn; [done|]. by f_equal.
Qed.

Lemma runs_loop_ok n s0 needs max v k : forall s c,
  good s0 -> two_phase s0 = false -> max <= NO_MORE_DOCS -> (exact_need s0 <= n)%nat -> (forall d, d ∈ accept s0 -> score_of needs s0 d v) ->
  standing s0 max s c -> (count_from (approx s0) (doc_id s) < k)%nat ->
  wp (runs_loop k v max s c (doc_id s)) n (fun r => r.1 = doc_id r.2.1 /\ standing s0 max r.2.1 r.2.2 /\
    forall c2, scored (score_of needs s0) None (accept s0) r.1 max r.2.2 c2 -> scored (score_of needs s0) None (accept s0) (doc_id s) max c c2).
Proof.
  induction k as [|k IH]; intros s c Hg0 H2 Hm Hn Hz Hst Hk; [lia|]. cbn [runs_loop].
  destruct (Z.ltb_spec (doc_id s) max) as [Hlt|Hge]; [|by wp_ret].
  pose proof Hst as (Hg' & Hs' & _ & [Hd|Hd] & _); [lia|].
  assert (Hacc : accept s0 = approx s0) by (by apply one_phase).
  destruct (run_end_ok s Hg') as (Hstay & Hlo & Hin); [by destruct Hs' as (_ & _ & -> & _)|by rewrite (proj1 Hs')|].
  rewrite (proj1 Hs') in Hin. destruct (doc_id_run_end s) as [run_end s'] eqn:Erun. cbn [fst snd] in *.
  apply (standing_stays _ _ _ _ _ Hst) in Hstay as Hst'. pose proof Hstay as (_ & _ & Hpos & _). rewrite <- Hpos in *.
  clear Hst Hstay Hg' Hs' Erun Hpos s. rename s' into s, Hst' into Hst. pose proof Hst as (Hg & Hs & Hv & _ & Hnm).
  destruct (Z.ltb_spec (sat32 (Z.min run_end max - doc_id s)) DENSE_RUN_MIN) as [|Hrun]; [by wp_ret|].
  set (end_ := Z.min run_end max) in *.
  assert (H0 : 0 <= doc_id s) by (pose proof (approx_range s0 _ Hg0 Hd); lia). assert (Hem : end_ <= NO_MORE_DOCS) by lia.
  destruct (collect_each_valid (map (fun d => (d, v)) (seqZ (doc_id s) (end_ - doc_id s))) c Hv) as (c1 & Hc1 & Hv1).
  wp_bind. eapply wp_of_option; [by rewrite collect_range_ok|]. wp_bind.
  wp_use (advance_ok n s end_); [done|lia|lia|by eapply need_same|]. intros [d s1] Hl. cbv beta.
  pose proof (standing_stop s0 max s s1 c1 end_ d Hg0 Hs ltac:(lia) Hv1 Hl) as Hst1.
  destruct Hl as (Hg1 & Hs1 & Hd1 & Hf). cbn [fst snd] in *. rewrite <- Hd1 in *. rewrite (proj1 Hs) in Hf.
  pose proof (first_at_le _ _ _ Hf). wp_use (IH s1 c1); [done..| |].
  { pose proof (count_from_lt (approx s0) (doc_id s) (doc_id s1) Hd). lia. }
  intros r (H1 & H3 & H4). split; [done|]. split; [done|]. intros c2 Hc2.
  apply (scored_app _ _ _ _ end_ _ _ c1); [lia|lia| |].
  - apply (scored_run _ _ _ _ _ _ v); [|done|done|done|done|by rewrite collect_range_ok].
    intros x Hx. rewrite Hacc. apply Hin. lia.
  - eapply scored_from; [exact H|by apply (accept_stop s0 _ _ Hg0 Hf)|by apply H4].
Qed.

Lemma rest_loop_ok n s0 needs max v p k : forall s c,
  good s0 -> two_phase s0 = false -> max <= NO_MORE_DOCS -> (exact_need s0 <= n)%nat -> (forall d, d ∈ accept s0 -> score_of needs s0 d v) ->
  standing s0 max s c -> (count_from (approx s0) (doc_id s) < k)%nat ->
  wp (rest_loop k v max s c (doc_id s)) n (fun r => scored_window needs None s0 (doc_id s) max c p (r.1, (r.2.1, r.2.2, p))).
Proof.
  induction k as [|k IH]; intros s c Hg0 H2 Hm Hn Hz Hst Hk; [lia|]. cbn [rest_loop].
  destruct (Z.ltb_spec (doc_id s) max) as [Hlt|Hge]; [|wp_ret; by apply standing_done].
  pose proof Hst as (Hg & Hs & Hv & [Hd|Hd] & Hnm); [lia|].
  destruct (collect_safe c (doc_id s) v Hv) as (c1 & Hc1 & Hv1).
  wp_bind. eapply wp_of_option; [exact Hc1|]. wp_bind.
  wp_use (next_doc_ok n s); [done|lia|by eapply need_same|]. intros [d s1] Hl. cbv beta.
  assert (Ht : doc_id s + 1 <= max) by lia. pose proof (standing_stop s0 max s s1 c1 _ d Hg0 Hs Ht Hv1 Hl) as Hst1.
  destruct Hl as (Hg1 & Hs1 & Hd1 & Hf). cbn [fst snd] in *. rewrite <- Hd1 in *. rewrite (proj1 Hs) in Hf.
  pose proof (first_at_le _ _ _ Hf). wp_use (IH s1 c1); [done..| |].
  { pose proof (stop_measure _ _ _ Hf Hd). lia. }
  intros r (H1 & H3 & H4). split; [done|]. split; [done|].
  eapply scored_hit; [done|by rewrite one_phase|done|exact Hc1|apply Hz; by rewrite one_phase|].
  eapply scored_from; [exact H|by apply (accept_stop s0 _ _ Hg0 Hf)|done].
Qed.

Lemma constant_runs_ok n s0 needs max v s c p :
  good s0 -> two_phase s0 = false -> max <= NO_MORE_DOCS -> (exact_need s0 <= n)%nat -> (forall d, d ∈ accept s0 -> score_of needs s0 d v) ->
  standing s0 max s c ->
  wp (constant_runs_score v (s, c, p) (doc_id s) max) n (scored_window needs None s0 (doc_id s) max c p).
Proof.
  intros Hg0 H2 Hm Hn Hz Hst. unfold constant_runs_score. wp_bind. unfold cloop at 1.
  assert (Hf : forall t, (count_from (approx s0) t < n)%nat).
  { intros t. pose proof (count_from_le (approx s0) t). unfold exact_need in Hn. lia. }
  wp_use runs_loop_ok; [done..|]. intros [d [s1 c1]] (H1 & Hst1 & Hsc). cbn [fst snd] in *. subst d.
  wp_bind. unfold cloop. wp_use (rest_loop_ok n s0 needs max v p); [done..|].
  intros [d [s2 c2]] (H3 & H4 & H5). wp_ret. cbn [fst snd] in *. split; [done|]. split; [done|]. by apply Hsc.
Qed.
(** *** Batches *)
Definition on_match (s0 : S) s : Prop := doc_id s = NO_MORE_DOCS \/ doc_id s ∈ accept s0 /\ confirmed s.

Lemma confirm_below_ok n s0 max c k : forall s,
  good s0 -> max <= NO_MORE_DOCS -> (exact_need s0 <= n)%nat -> standing s0 max s c ->
  (count_from (approx s0) (doc_id s) < k)%nat ->
  wp (confirm_below k max s (doc_id s)) n (fun r => r.1 = doc_id r.2 /\ standing s0 max r.2 c /\
    doc_id s <= r.1 /\ (forall x, x ∈ accept s0 -> doc_id s <= x -> r.1 <= x) /\ (r.1 < max -> on_match s0 r.2)).
Proof.
  induction k as [|k IH]; intros s Hg0 Hm Hn Hst Hk; [lia|]. cbn [confirm_below].
  destruct (Z.ltb_spec (doc_id s) max) as [Hlt|Hge]; [|wp_ret; split_and!; [done|done|lia|done|lia]].
  pose proof Hst as (Hg & Hs & Hv & [Hd|Hd] & Hnm); [lia|].
  wp_bind. wp_use (matches_ok n s); [done|by rewrite (proj1 Hs)|by eapply need_same|].
  intros [m s1] (Hg1 & Hs1 & Hd1 & Hmb & Hcf). cbn [fst snd] in *. rewrite (proj1 (proj2 Hs)) in Hmb.
  pose proof (same_trans _ _ _ Hs Hs1) as Hs01. subst m. case_bool_decide as Hin.
  - wp_ret. split_and!; [done| |lia|done|intros _; right; rewrite Hd1; auto].
    split_and!; [done|done|done|rewrite Hd1; by right|]. intros x Hx. rewrite Hd1. apply Hnm. by rewrite <- (proj1 (proj2 Hs1)).
  - wp_bind. wp_use (next_doc_ok n s1); [done|lia|by eapply need_same|]. intros [d s2] Hl. cbv beta.
    assert (Ht : doc_id s1 + 1 <= max) by lia. pose proof (standing_stop s0 max s1 s2 c _ d Hg0 Hs01 Ht Hv Hl) as Hst2.
    destruct Hl as (Hg2 & Hs2 & Hd2 & Hf). cbn [fst snd] in *. rewrite <- Hd2 in *. rewrite (proj1 Hs01), Hd1 in Hf.
    pose proof (first_at_le _ _ _ Hf). wp_use (IH s2); [done..| |].
    { pose proof (stop_measure _ _ _ Hf Hd). lia. }
    intros r (H1 & H2 & H3 & H4 & H5). split_and!; [done|done|lia| |done].
    intros x Hx Hle. apply H4; [done|]. apply (accept_stop s0 _ _ Hg0 Hf); [done|].
    destruct (decide (x = doc_id s)) as [->|]; [done|lia].
Qed.

Lemma zip_take_drop {A B} k (l : list A) (m : list B) : zip (take k l) (take k m) ++ zip (drop k l) (drop k m) = zip l m.
Proof. revert l m. induction k as [|k IH]; intros [|x l] [|y m]; cbn; [done..| |]; [by rewrite zip_with_nil_r|]. by rewrite IH. Qed.

(** A batch handed over, however much of it [collect_many] took. *)
Lemma batch_collected c docs scores :
  valid c -> Sorted.StronglySorted Z.lt docs -> length scores = length docs ->
  exists from c1 c2, collect_many c docs scores 0 = Some (from, c1) /\
    collect_each c1 (zip (drop from docs) (drop from scores)) = Some c2 /\
    valid c2 /\ collect_each c (zip docs scores) = Some c2.
Proof.
  intros Hv Hs Hl. destruct (collect_many_ok c docs scores 0 Hv Hs Hl) as (k & c1 & H1 & _ & H2).
  rewrite (map_ext _ id), map_id in H2 by done. pose proof (collect_each_keeps _ _ _ Hv H2) as Hv1.
  destruct (collect_each_valid (zip (drop k docs) (drop k scores)) c1 Hv1) as (c2 & H3 & Hv2).
  exists k, c1, c2. split_and!; [done..|]. by rewrite <- (zip_take_drop k docs), collect_each_app, H2.
Qed.

Lemma hits_sorted live_docs A lo hi : Sorted.StronglySorted Z.lt (hits live_docs A lo hi).
Proof.
  unfold hits. apply filter_sorted. destruct (Z.le_ge_cases hi lo); [rewrite docs_in_nil by lia; constructor|].
  replace hi with (lo + Z.of_nat (Z.to_nat (hi - lo))) by lia. apply docs_in_sorted.
Qed.

Lemma batches_loop_ok n s0 live_docs max p k : forall s c,
  good s0 -> max <= NO_MORE_DOCS -> (exact_need s0 <= n)%nat -> standing s0 max s c -> on_match s0 s ->
  (count_from (accept s0) (doc_id s) < k)%nat ->
  wp (batches_loop k false live_docs max (s, c, p)) n (scored_window true live_docs s0 (doc_id s) max c p).
Proof.
  induction k as [|k IH]; intros s c Hg0 Hm Hn Hst Hon Hk; [lia|]. cbn [batches_loop].
  pose proof Hst as (Hg & Hs & Hv & _ & Hnm). pose proof (proj1 (proj2 Hs)) as Hacc.
  wp_bind. wp_use (batch_ok n s max live_docs); [done|by rewrite Hacc|done|by rewrite (exact_need_same _ _ Hs)|].
  intros [[docs scores] s1] [(Hg1 & Hs1 & Hle & Hon1 & Hdocs & Hlen & _ & Hpast) Hfull]. cbn [fst snd] in *. rewrite Hacc in *.
  pose proof (same_trans _ _ _ Hs Hs1) as Hs01.
  assert (Hst1 : forall c', valid c' -> standing s0 max s1 c').
  { intros c' Hv'. split_and!; [done|done|done|destruct Hon1 as [|[Hin _]]; [by left|right; by apply accept_approx]|].
    intros x Hx Hle'. rewrite (proj1 (proj2 Hs01)) in Hx. apply Hpast; [done| |done]. apply Hnm; [by rewrite Hacc|done]. }
  destruct docs as [|x docs].
  - wp_ret. assert (Hge : max <= doc_id s1).
    { destruct (Z.le_gt_cases max (doc_id s1)) as [|Hlt]; [done|]. by specialize (Hfull ltac:(lia)). }
    rewrite Z.min_r in Hdocs by done. destruct (standing_done true live_docs s0 max s1 c p (Hst1 c Hv) Hge) as (H1 & H2 & _).
    split; [done|]. split; [done|]. exists []. rewrite <- Hdocs. by split.
  - assert (Hx : x ∈ hits live_docs (accept s0) (doc_id s) (Z.min (doc_id s1) max)) by (rewrite <- Hdocs; left).
    unfold hits in Hx. apply list_elem_of_filter in Hx as [_ [_ Hr]%elem_of_docs_in].
    assert (Hin : doc_id s ∈ accept s0) by (destruct Hon as [|[? _]]; [lia|done]).
    destruct (batch_collected c (x :: docs) scores Hv) as (from & c1 & c2 & H1 & H2 & Hv2 & H3); [rewrite Hdocs; apply hits_sorted|symmetry; by eapply Forall2_length|].
    wp_bind. eapply wp_of_option; [exact H1|]. wp_bind. eapply wp_of_option; [exact H2|]. wp_bind. wp_ret.
    wp_use (IH s1 c2); [done|done|done|by apply Hst1|done| |].
    { pose proof (count_from_lt (accept s0) _ (doc_id s1) Hin). lia. }
    intros r (H4 & H5 & H6). split; [done|]. split; [done|]. apply (scored_app _ _ _ _ (Z.min (doc_id s1) max) _ _ c2); [lia|lia| |].
    + exists scores. rewrite <- Hdocs. split; [|done]. by rewrite <- (score_of_same true _ _ Hs).
    + eapply scored_from; [| |exact H6]; [lia|]. intros y Hy Hle'. destruct (Z.le_ge_cases (doc_id s1) max); [lia|].
      apply Hpast; [done|lia|lia].
Qed.

Lemma batch_score_ok n s0 live_docs max s c p :
  good s0 -> max <= NO_MORE_DOCS -> (exact_need s0 <= n)%nat -> standing s0 max s c -> doc_id s < max ->
  wp (batch_score false live_docs (s, c, p) (doc_id s) max) n (scored_window true live_docs s0 (doc_id s) max c p).
Proof.
  intros Hg0 Hm Hn Hst Hlt. unfold batch_score. pose proof Hst as (Hg & Hs & Hv & [Hd|Hd] & Hnm); [lia|].
  assert (Hf : forall A t, A ⊆ approx s0 -> (count_from A t < n)%nat).
  { intros A t HA. pose proof (count_from_le A t). pose proof (subseteq_size _ _ HA). unfold exact_need in Hn. lia. }
  pose proof (accept_approx s0 Hg0) as Hsub. wp_bind. destruct (two_phase s) eqn:E2.
  - unfold cloop at 1. wp_use (confirm_below_ok n s0 max c); [done..|by apply Hf|].
    intros [d s1] (H1 & Hst1 & Hle & Hskip & Hon). cbn [fst snd] in *. subst d.
    assert (E1 : two_phase s1 = true).
    { destruct Hst1 as (_ & (_ & _ & -> & _) & _). by destruct Hs as (_ & _ & <- & _). }
    rewrite E1. cbn [andb]. destruct (Z.leb_spec max (doc_id s1)) as [Hge|Hlt1].
    + wp_ret. eapply window_skip; [exact Hle|exact Hskip|]. by apply standing_done.
    + unfold cloop. wp_use (batches_loop_ok n s0 live_docs max p); [done..|by apply Hon|by apply Hf|].
      intros r Hr. by eapply window_skip.
  - wp_ret. rewrite E2. cbn [andb]. unfold cloop. wp_use (batches_loop_ok n s0 live_docs max p); [done..| |by apply Hf|done].
    right. split; [|apply one_phase_confirmed; [done|done|by rewrite (proj1 Hs)]].
    rewrite <- (proj1 (proj2 Hs)), one_phase by done. by rewrite (proj1 Hs).
Qed.
(** *** A bit set, word by word *)
Lemma bits_range bits cardinality x : set_ok (Bits bits cardinality) -> x ∈ set_docs (Bits bits cardinality) ->
  0 <= x < FixedBitSet.len bits /\ FixedBitSet.len bits <= NO_MORE_DOCS.
Proof.
  intros (Hi & Hn & _) [Hx Hb]%elem_of_bits; [|done]. split; [|done]. split; [done|].
  destruct (Z.ltb_spec x (FixedBitSet.num_bits bits)); [done|]. by rewrite (inv_ghost bits Hi) in Hb.
Qed.

Definition next_or_len (bits : FixedBitSet.t) (t : Z) : Z :=
  match FixedBitSet.next_set_bit_in_words (FixedBitSet.words bits) t with Some i => i | None => FixedBitSet.len bits end.

Lemma next_or_len_ok bits cardinality t :
  let A := set_docs (Bits bits cardinality) in set_ok (Bits bits cardinality) -> 0 <= t ->
  (next_or_len bits t = FixedBitSet.len bits \/ next_or_len bits t ∈ A /\ t <= next_or_len bits t) /\
  forall x, x ∈ A -> t <= x -> next_or_len bits t <= x.
Proof.
  intros A Hok Ht. pose proof Hok as (Hi & Hn & _). unfold next_or_len.
  pose proof (next_set_words (FixedBitSet.words bits) t (inv_words bits Hi) Ht) as Hf.
  destruct (FixedBitSet.next_set_bit_in_words _ _) as [j|].
  - destruct Hf as (Hj & Hb & Hz). split; [right; split; [apply elem_of_bits; [done|split; [lia|done]]|lia]|].
    intros x [Hx Hbx]%elem_of_bits Hle; [|done]. destruct (Z.le_gt_cases j x); [done|]. unfold bit in Hbx. by rewrite Hz in Hbx by lia.
  - split; [by left|]. intros x [Hx Hbx]%elem_of_bits Hle; [|done]. unfold bit in Hbx.
    destruct (Z.ltb_spec x (64 * zlen (FixedBitSet.words bits))); [by rewrite Hf in Hbx by lia|]. by rewrite wbit_out in Hbx.
Qed.

Lemma bits_walk_ok n s bits cardinality G live_docs end_ v p k : forall c at_,
  let A := set_docs (Bits bits cardinality) in
  set_ok (Bits bits cardinality) -> valid c -> (forall d, d ∈ A -> G d v) ->
  0 <= at_ -> (at_ < end_ -> at_ ∈ A) -> end_ <= FixedBitSet.len bits -> (count_from A at_ < k)%nat ->
  wp (bits_loop (E := E) k false (FixedBitSet.words bits) (FixedBitSet.len bits) v live_docs end_ (s, c, p) at_) n
    (fun r => exists c2 at2, r = (inr at2, (s, c2, p)) /\ end_ <= at2 /\ scored G live_docs A at_ end_ c c2).
Proof.
  induction k as [|k IH]; intros c at_ A Hok Hv Hz H0 Hin He Hk; [lia|]. cbn [bits_loop].
  destruct (Z.ltb_spec at_ end_) as [Hlt|Hge].
  2:{ wp_ret. exists c, at_. split; [done|]. split; [done|]. apply scored_none. intros; lia. }
  specialize (Hin Hlt). destruct (bits_range bits cardinality at_ Hok Hin) as [Hr Hn]. rewrite in_s32 by lia.
  destruct (next_or_len_ok bits cardinality (at_ + 1) Hok ltac:(lia)) as [Hat Hpast]. fold A in Hat, Hpast.
  assert (Hgo : forall c1, valid c1 -> (forall c2, scored G live_docs A (at_ + 1) end_ c1 c2 -> scored G live_docs A at_ end_ c c2) ->
    wp (bits_loop (E := E) k false (FixedBitSet.words bits) (FixedBitSet.len bits) v live_docs end_ (s, c1, p) (next_or_len bits (at_ + 1))) n
      (fun r => exists c2 at2, r = (inr at2, (s, c2, p)) /\ end_ <= at2 /\ scored G live_docs A at_ end_ c c2)).
  { intros c1 Hv1 Hstep. wp_use (IH c1); [done|done|done|lia|destruct Hat as [->|[]]; [lia|done]|done| |].
    - assert (Hlt' : at_ < next_or_len bits (at_ + 1)) by (destruct Hat as [->|[]]; lia).
      pose proof (count_from_lt A at_ _ Hin Hlt'). change (set_docs (Bits bits cardinality)) with A. lia.
    - intros r (c2 & at2 & -> & Hge & Hsc). exists c2, at2. split; [done|]. split; [done|]. apply Hstep.
      eapply scored_from; [|exact Hpast|exact Hsc]. destruct Hat as [->|[]]; lia. }
  destruct (live live_docs at_) eqn:El.
  - destruct (collect_safe c at_ v Hv) as (c1 & Hc1 & Hv1). wp_bind. wp_bind. unfold collect_hit.
    eapply wp_of_option; [exact Hc1|]. wp_ret. apply Hgo; [done|]. intros c2. eapply scored_hit; eauto.
  - wp_bind. wp_ret. apply Hgo; [done|]. intros c2. by apply scored_dead.
Qed.

(** What a counter counts, it collects. *)
Lemma counted c c' G live_docs A lo hi v :
  valid c -> (forall d, d ∈ A -> G d v) -> add_hits c (zlen (hits live_docs A lo hi)) = (true, c') ->
  scored G live_docs A lo hi c c'.
Proof.
  intros Hv Hz Hc. exists (replicate (length (hits live_docs A lo hi)) v). split.
  - apply Forall2_replicate_r; [done|]. apply Forall_forall. intros x Hx. unfold hits in Hx.
    apply list_elem_of_filter in Hx as [_ [Hx _]%elem_of_docs_in]. by apply Hz.
  - eapply add_hits_ok; [done|exact Hc|]. unfold zlen. rewrite length_zip_with, length_replicate. f_equal. lia.
Qed.

Lemma constant_bits_score_ok n s0 bits cardinality needs live_docs max v s c p :
  good s0 -> two_phase s0 = false -> max <= NO_MORE_DOCS -> (exact_need s0 <= n)%nat -> (forall d, d ∈ accept s0 -> score_of needs s0 d v) ->
  live_ok live_docs -> set_ok (Bits bits cardinality) -> set_docs (Bits bits cardinality) = accept s0 ->
  standing s0 max s c -> doc_id s < max ->
  wp (constant_bits_score false bits v live_docs (s, c, p) (doc_id s) max) n (scored_window needs live_docs s0 (doc_id s) max c p).
Proof.
  intros Hg0 H2 Hm Hn Hz Hl Hok HA Hst Hlt. pose proof Hst as (Hg & Hs & Hv & [Hd|Hd] & _); [lia|].
  assert (Hacc : accept s0 = approx s0) by (by apply one_phase).
  assert (Hin : doc_id s ∈ set_docs (Bits bits cardinality)) by (by rewrite HA, Hacc).
  destruct (bits_range bits cardinality _ Hok Hin) as [Hr Hlen]. pose proof Hok as (Hi & _ & _).
  unfold constant_bits_score. cbn [negb andb]. destruct (Z.ltb_spec max 0) as [|Hmax]; [lia|].
  destruct (Z.ltb_spec (doc_id s) 0); [lia|]. set (end_ := Z.min max (FixedBitSet.len bits)) in *.
  destruct (Z.ltb_spec (doc_id s) end_); [|lia].
  set (start := match add_hits c 0 with (counts, c) => _ end).
  assert (Hstart : exists c1 at1, start = (c1, at1) /\ valid c1 /\ 0 <= at1 /\ (at1 < end_ -> at1 ∈ set_docs (Bits bits cardinality)) /\
    forall c2, scored (score_of needs s0) live_docs (accept s0) at1 end_ c1 c2 -> scored (score_of needs s0) live_docs (accept s0) (doc_id s) end_ c c2).
  { unfold start. destruct (add_hits c 0) as [[] c0] eqn:E0.
    - assert (c0 = c) as ->. { pose proof (add_hits_ok c 0 c0 Hv E0 [] eq_refl) as H1. cbn in H1. congruence. }
      assert (Hbd : 0 <= doc_id s <= end_) by lia.
      pose proof (count_set_bits_spec bits cardinality live_docs _ end_ u64_max Hi Hl Hbd ltac:(done)) as Hc.
      cbv zeta in Hc. rewrite HA in Hc.
      assert (Hb : zlen (hits live_docs (accept s0) (doc_id s) end_) < u64_max).
      { unfold zlen, hits. pose proof (length_filter (fun x => live live_docs x) (docs_in (accept s0) (doc_id s) end_)).
        pose proof (length_filter (.∈ accept s0) (seqZ (doc_id s) (end_ - doc_id s))). unfold docs_in in *. rewrite length_seqZ in *.
        change NO_MORE_DOCS with (2 ^ 31 - 1) in Hm. unfold u64_max. lia. }
      destruct (Z.ltb_spec (zlen (hits live_docs (accept s0) (doc_id s) end_)) u64_max) as [_|]; [|lia]. rewrite Hc.
      destruct (add_hits c (zlen (hits live_docs (accept s0) (doc_id s) end_))) as [b c1] eqn:E1.
      assert (b = true) as -> by (pose proof (add_hits_same c 0 (zlen (hits live_docs (accept s0) (doc_id s) end_)) Hv) as He; by rewrite E0, E1 in He).
      pose proof (counted c c1 (score_of needs s0) live_docs (accept s0) (doc_id s) end_ v Hv Hz E1) as Hsc.
      exists c1, end_. split_and!; [done|by eapply scored_valid|lia|lia|]. intros c2 H3.
      apply (scored_app _ _ _ _ end_ _ _ c1); [lia|lia|done|done].
    - apply add_hits_no in E0 as ->; [|done]. exists c, (doc_id s). split_and!; try done. }
  destruct Hstart as (c1 & at1 & -> & Hv1 & H01 & Hin1 & Hsc1). wp_bind. unfold cloop.
  wp_use (bits_walk_ok n s bits cardinality (score_of needs s0)); [done|done|by rewrite HA|done|done|lia| |].
  { rewrite HA, Hacc. pose proof (count_from_le (approx s0) at1). unfold exact_need in Hn. lia. }
  intros r (c2 & at2 & -> & Hge & Hsc2). rewrite HA in Hsc2. destruct (Z.ltb_spec at2 end_); [lia|]. clear at2 Hge H1.
  fold (next_or_len bits end_). destruct (next_or_len_ok bits cardinality end_ Hok ltac:(lia)) as [Hat Hpast]. rewrite HA in Hat, Hpast.
  set (next := if next_or_len bits end_ <? FixedBitSet.len bits then wraps 32 (next_or_len bits end_) else NO_MORE_DOCS).
  assert (Hf : first_at (accept s0) end_ next /\ max <= next).
  { unfold next. destruct (Z.ltb_spec (next_or_len bits end_) (FixedBitSet.len bits)) as [Hl1|Hl1].
    - destruct Hat as [|[Hat Hle]]; [lia|]. rewrite in_s32 by lia. split; [split; [done|split; [by right|done]]|lia].
    - split; [|lia]. split; [lia|]. split; [by left|]. intros x Hx Hle. specialize (Hpast x Hx Hle).
      rewrite <- HA in Hx. pose proof (bits_range bits cardinality x Hok Hx). lia. }
  clearbody next. destruct Hf as [Hf Hmn]. destruct (Z.eqb_spec next (doc_id s)); [lia|].
  assert (Hnm : next <= NO_MORE_DOCS). { destruct Hf as (_ & [->|Hx] & _); [done|]. pose proof (accept_below s0 next Hg0 Hx). lia. }
  wp_bind. wp_use (advance_ok n s next); [done|lia|done|by eapply need_same|]. intros [d s1] (Hg1 & Hs1 & Hd1 & Hf1). wp_ret.
  cbn [fst snd] in *. rewrite (proj1 Hs), <- Hacc in Hf1.
  assert (Hdn : d = next).
  { destruct Hf1 as (Hle & Hd1' & Hp1). destruct Hf as (_ & [Hx|Hx] & _).
    - subst next. destruct Hd1' as [|Hx]; [done|]. pose proof (accept_below s0 d Hg0 Hx). lia.
    - specialize (Hp1 next Hx ltac:(lia)). lia. }
  rewrite Hdn in Hd1 |- *. split; cbn [fst snd].
  - split; [done|]. split; [by eapply same_trans|]. split; [congruence|]. split; [done|].
    split; [rewrite Hacc in Hf; by eapply stop_place|]. intros x Hx Hle. destruct Hf as (_ & _ & Hp). apply Hp; [done|lia].
  - split; [done|]. apply Hsc1 in Hsc2. apply (scored_app _ _ _ _ end_ _ _ c2); [lia|lia|done|].
    apply scored_none. intros x Hx Hle. destruct Hf as (_ & _ & Hp). specialize (Hp x Hx Hle). lia.
Qed.
(** *** Any path *)
Lemma start_ok n s0 c min max :
  good s0 -> valid c -> 0 <= min -> min <= max -> max <= NO_MORE_DOCS -> not_missed s0 min -> (exact_need s0 <= n)%nat ->
  wp (if doc_id s0 <? min then (if doc_id s0 =? min - 1 then next_doc s0 else advance s0 min) else cret (doc_id s0, s0)) n
    (fun r => r.1 = doc_id r.2 /\ standing s0 max r.2 c /\ min <= r.1 /\ forall x, x ∈ accept s0 -> min <= x -> r.1 <= x).
Proof.
  intros Hg Hv H0 Hmm Hm Hnm Hn. destruct (Z.ltb_spec (doc_id s0) min) as [Hlt|Hge].
  - apply (wp_mono _ _ (lands s0 min)).
    + destruct (Z.eqb_spec (doc_id s0) (min - 1)) as [He|Hne].
      * replace min with (doc_id s0 + 1) by lia. apply next_doc_ok; [done|lia|unfold exact_need in Hn; lia].
      * apply advance_ok; [done|done|lia|unfold exact_need in Hn; lia].
    + intros [d s1] Hl. pose proof (standing_stop s0 max s0 s1 c min d Hg (same_refl s0) Hmm Hv Hl) as Hst.
      destruct Hl as (_ & _ & Hd & Hf). cbn [fst snd] in *. split_and!; [done|done|by eapply first_at_le|].
      by apply (accept_stop s0 min).
  - wp_ret. split_and!; [done| |done|done]. split; [done|]. split; [apply same_refl|]. split; [done|].
    split; [destruct (doc_id_ok s0 Hg) as [|[|]]; [lia|by left|by right]|]. intros x Hx Hle. apply Hnm; [done|lia].
Qed.

Lemma walk_ok n s0 needs live_docs max s c p :
  good s0 -> max <= NO_MORE_DOCS -> (exact_need s0 <= n)%nat -> standing s0 max s c ->
  wp (walk (two_phase s0) false needs live_docs (s, c, p) (doc_id s) max) n (scored_window needs live_docs s0 (doc_id s) max c p).
Proof.
  intros Hg0 Hm Hn (Hg & Hs & Hv & Hd & Hnm). unfold walk, cloop. apply (score_loop_ok n s0); try done.
  pose proof (count_from_le (approx s0) (doc_id s)). unfold exact_need in Hn. lia.
Qed.

Lemma walk_or_batches_ok n s0 needs live_docs max s c p :
  good s0 -> max <= NO_MORE_DOCS -> (exact_need s0 <= n)%nat -> standing s0 max s c ->
  wp (walk_or_batches (two_phase s0) false needs live_docs (s, c, p) (doc_id s) max) n
    (scored_window needs live_docs s0 (doc_id s) max c p).
Proof.
  intros Hg0 Hm Hn Hst. unfold walk_or_batches. cbn [fst snd]. destruct needs; cbn [andb]; [|by apply walk_ok].
  destruct (Z.ltb_spec (doc_id s) max); cbn [andb]; [|by apply walk_ok]. destruct (prefers_batches s); [|by apply walk_ok].
  by apply batch_score_ok.
Qed.

Lemma walk_or_runs_ok n s0 needs live_docs max s c p :
  good s0 -> max <= NO_MORE_DOCS -> (exact_need s0 <= n)%nat -> standing s0 max s c ->
  wp (walk_or_runs (two_phase s0) false needs live_docs (s, c, p) (doc_id s) max) n
    (scored_window needs live_docs s0 (doc_id s) max c p).
Proof.
  intros Hg0 Hm Hn Hst. pose proof (walk_or_batches_ok n s0 needs live_docs max s c p Hg0 Hm Hn Hst) as Hb.
  unfold walk_or_runs. destruct (two_phase s0) eqn:E2; cbn [negb andb]; [done|].
  case_bool_decide as El; cbn [andb]; [|done]. destruct (Z.ltb_spec (doc_id s) max) as [Hlt|]; [|done].
  pose proof Hst as (Hg & Hs & _ & [Hd|Hd] & _); [lia|].
  destruct (run_end_ok s Hg) as (Hstay & _); [by destruct Hs as (_ & _ & -> & _)|by rewrite (proj1 Hs)|].
  destruct (doc_id_run_end s) as [run_end s2]. cbn [snd] in Hstay. apply (standing_stays _ _ _ _ _ Hst) in Hstay as Hst2.
  pose proof (walk_or_batches_ok n s0 needs live_docs max s2 c p Hg0 Hm Hn Hst2) as Hb2. rewrite E2 in Hb2.
  destruct Hstay as (_ & _ & Hd2 & _). rewrite Hd2 in Hb2.
  destruct (DENSE_RUN_MIN <=? _); [destruct (constant_score s2) as [v|] eqn:Ecs|]; [|done..].
  rewrite El, <- Hd2. apply constant_runs_ok; try done. intros d Hd'. destruct needs; [|done]. cbn.
  destruct Hst2 as (Hg2 & (_ & Ha2 & _ & _ & Hv2) & _). rewrite <- Hv2. eapply constant_score_ok; [done|exact Ecs|by rewrite Ha2].
Qed.

Lemma default_score_ok n mode live_docs s c p min max :
  mode <> TopScores -> good s -> valid c -> live_ok live_docs -> 0 <= min -> min <= max -> max <= NO_MORE_DOCS ->
  not_missed s min -> (exact_need s <= n)%nat ->
  wp (default_score mode live_docs (s, c, p) min max) n (scored_window (needs_scores mode) live_docs s min max c p).
Proof.
  intros Hmode Hg Hv Hl H0 Hmm Hm Hnm Hn. unfold default_score. cbn [fst snd].
  rewrite (bool_decide_eq_false_2 _ Hmode). wp_bind. wp_ret. wp_bind.
  wp_use (start_ok n s c min max); [done..|]. intros [d s1] (Hd & Hst & Hle & Hskip). cbn [fst snd] in *. rewrite Hd in *. clear d Hd.
  eapply wp_mono; [|intros r; by apply (window_skip _ live_docs s min (doc_id s1))].
  pose proof (walk_or_runs_ok n s (needs_scores mode) live_docs max s1 c p Hg Hm Hn Hst) as Hruns.
  destruct (two_phase s) eqn:E2; [done|]. destruct (Z.ltb_spec (doc_id s1) max) as [Hlt|]; [|done]. cbn [negb andb].
  destruct (constant_bits s1) as [[[bits cardinality|] v]|] eqn:Ec; [|done|done].
  destruct (constant_bits_ok (E := E) s1 (Bits bits cardinality) v (proj1 Hst) Ec) as (Hok & HA & HG).
  destruct Hst as (Hg1 & Hs1 & Hst). pose proof Hs1 as (_ & Ha1 & _ & _ & Hv1).
  apply (constant_bits_score_ok n s bits cardinality); try done; [|by rewrite HA].
  intros d Hd. destruct (needs_scores mode); [|done]. cbn. rewrite <- Hv1. apply HG. by rewrite Ha1.
Qed.
End score_laws.
