(* ===== verification/TimeLimit.v ===== *)
(** * Scoring windows ([lucene-search/src/exec/bulk.rs])

    What [score_segment_time_limited] makes of the windows of [default_score]:
    it ends, runs a window for every [should_exit] that is no, of the growing
    interval's length, and what it collected is what one call over the part it
    covered collects ([windows], [covered]). *)
From S2P Require Export BulkScoreSpec.
From S2P Require Import FixedBitSet FixedBitSetSpec.

Section windows.
Context {E S C : Type} `{L : ScorerLaws E S} `{CB : ConstantBits S} `{CBL : !ConstantBitsLaws E S}.
Context `{RS : RunScorer E S} `{RL : !RunLaws E S} `{CL : CollectorLaws C}.
Implicit Types (s : S) (c : C).

(** A window and what follows it. *)
Lemma scored_past G live_docs s0 lo mid doc s c c1 c2 hi :
  finished s0 mid doc s -> lo <= mid -> doc <= hi -> scored G live_docs (accept s0) lo mid c c1 ->
  scored G live_docs (accept s0) doc hi c1 c2 -> scored G live_docs (accept s0) lo hi c c2.
Proof.
  intros (_ & _ & _ & Hm & _ & Hp) Hlo Hhi H1 H2. apply (scored_app _ _ _ _ mid _ _ c1); [done|lia|done|].
  eapply scored_from; [exact Hm|exact Hp|exact H2].
Qed.

(** The windows from [lo] on: each starts where the scorer stands, is as long
    as the interval, and is followed by the first stop past it, over no match;
    the interval grows by half. [up_to] is where the last one left the scorer. *)
Fixpoint windows (A P : gset Z) (interval lo up_to : Z) (ws : list (Z * Z)) : Prop :=
  match ws with
  | [] => up_to = lo
  | (a, b) :: ws =>
      a = lo /\ lo < NO_MORE_DOCS /\ b = Z.min (lo + interval) NO_MORE_DOCS /\
      exists next, b <= next /\ (next = NO_MORE_DOCS \/ next ∈ P) /\ (forall x, x ∈ A -> b <= x -> next <= x) /\
        windows A P (Z.min (interval + interval / 2) i32_max) next up_to ws
  end.

(** What the loop does from [min] on, [should_exit] asked for the [round]-th
    time: a window for every answer that is no. *)
Definition covered (mode : Mode) (live_docs : option FixedBitSet.t) (should_exit : nat -> bool) (round bound : nat)
    (s0 : S) (interval min : Z) (c : C) (r : bool * bulk_state (S := S) (C := C)) : Prop :=
  exists ws up_to, windows (accept s0) (approx s0) interval min up_to ws /\ (length ws <= bound)%nat /\
    (forall j, (j < length ws)%nat -> should_exit (round + j)%nat = false) /\ min <= up_to /\
    scored (score_of (needs_scores mode) s0) live_docs (accept s0) min up_to c r.2.1.2 /\
    if r.1 then should_exit (round + length ws)%nat = true /\ up_to < NO_MORE_DOCS else up_to = NO_MORE_DOCS.

Lemma covered_none mode live_docs should_exit round bound s0 interval min c st (stopped : bool) :
  st.1.2 = c -> (if stopped then should_exit round = true /\ min < NO_MORE_DOCS else min = NO_MORE_DOCS) ->
  covered mode live_docs should_exit round bound s0 interval min c (stopped, st).
Proof.
  intros Hc Hs. exists [], min. split; [done|]. split; [cbn; lia|]. split; [intros; cbn in *; lia|]. split; [lia|].
  split; [cbn [fst snd]; rewrite Hc; apply scored_none; intros; lia|]. cbn [length]. by rewrite Nat.add_0_r.
Qed.

Lemma grown_interval interval : 0 < interval <= i32_max ->
  let grown := sat32 (interval + interval / 2) in
  (if interval <? grown then grown else interval) = Z.min (interval + interval / 2) i32_max /\
  0 < Z.min (interval + interval / 2) i32_max <= i32_max.
Proof.
  intros Hi grown. assert (0 <= interval / 2) by (apply Z.div_pos; lia). unfold grown, sat32.
  destruct (Z.ltb_spec interval (Z.max (- 2 ^ 31) (Z.min i32_max (interval + interval / 2)))); lia.
Qed.

Lemma windows_loop_ok n s0 mode live_docs should_exit k : forall s c p round interval min first,
  mode <> TopScores -> good s0 -> good s -> same s0 s -> valid c -> live_ok live_docs ->
  0 <= min <= NO_MORE_DOCS -> 0 < interval <= i32_max -> not_missed s min -> (exact_need s0 <= n)%nat ->
  min = NO_MORE_DOCS \/ min ∈ approx s0 \/ first = 1%nat -> (count_from (approx s0) min + first < k)%nat ->
  wp (windows_loop k mode live_docs should_exit round interval (s, c, p) min) n
    (covered mode live_docs should_exit round (count_from (approx s0) min + first) s0 interval min c).
Proof.
  induction k as [|k IH]; intros s c p round interval min first Hmode Hg0 Hg Hs Hv Hl Hmin Hi Hnm Hn Hstop Hk; [lia|].
  cbn [windows_loop]. destruct (Z.ltb_spec min NO_MORE_DOCS) as [Hlt|Hge]; [|wp_ret; apply covered_none; [done|lia]].
  destruct (should_exit round) eqn:Ex; [wp_ret; by apply covered_none|].
  destruct (grown_interval interval Hi) as [-> Hgrown]. set (grown := Z.min (interval + interval / 2) i32_max) in *.
  assert (Hnew : (if i32_max <? min + interval then NO_MORE_DOCS else Z.min (min + interval) NO_MORE_DOCS) =
    Z.min (min + interval) NO_MORE_DOCS).
  { change NO_MORE_DOCS with i32_max. destruct (Z.ltb_spec i32_max (min + interval)); lia. }
  rewrite Hnew. set (new_max := Z.min (min + interval) NO_MORE_DOCS) in *. assert (Hm : min < new_max <= NO_MORE_DOCS) by lia. wp_bind.
  wp_use (default_score_ok n mode live_docs s c p min new_max); [done..|lia|lia|lia|done|by rewrite (exact_need_same _ _ Hs)|].
  intros [doc [[s1 c1] p1]] (Hfin & _ & Hsc). cbn [fst snd] in *. rewrite (proj1 (proj2 Hs)), (score_of_same _ _ _ Hs) in Hsc.
  assert (Hfin0 : finished s0 new_max doc s1).
  { destruct Hfin as (H1 & H2 & H3 & H4 & H5 & H6). rewrite (proj1 Hs) in H5. rewrite (proj1 (proj2 Hs)) in H6.
    split; [done|]. split; [by eapply same_trans|]. done. }
  pose proof Hfin0 as (Hg1 & Hs1 & Hd1 & Hle & Hin & Hpast).
  assert (Hdoc : doc <= NO_MORE_DOCS) by (pose proof (doc_id_range s1 Hg1); lia).
  assert (Hcount : (count_from (approx s0) doc < count_from (approx s0) min + first)%nat).
  { destruct Hstop as [|[Hma| ->]]; [lia| |].
    - pose proof (count_from_lt (approx s0) min doc Hma ltac:(lia)). lia.
    - pose proof (count_from_mono (approx s0) min doc ltac:(lia)). lia. }
  assert (Hst : doc = NO_MORE_DOCS \/ doc ∈ approx s0 \/ 0%nat = 1%nat) by (destruct Hin; [by left|right; by left]).
  wp_use (IH s1 c1 p1 (Datatypes.S round) grown doc 0%nat);
    [done..|by eapply scored_valid|done|lia|done|intros x Hx Hd; lia|done|exact Hst|lia|].
  intros r (ws & up_to & Hws & Hlen & Hj & Hup & Hr & Hend). exists ((min, new_max) :: ws), up_to.
  split; [do 3 (split; [done|]); by exists doc|]. split; [cbn; lia|]. split; [|split; [lia|split]].
  - intros [|j] Hlt'; [by rewrite Nat.add_0_r|]. rewrite Nat.add_succ_r. apply Hj. cbn in Hlt'. lia.
  - by eapply scored_past; [exact Hfin0|lia|exact Hup|..].
  - cbn [length]. by rewrite Nat.add_succ_r.
Qed.

Lemma time_limited_ok n mode live_docs should_exit s c p :
  mode <> TopScores -> good s -> valid c -> live_ok live_docs -> not_missed s 0 -> (exact_need s <= n)%nat ->
  wp (score_segment_time_limited mode live_docs should_exit (s, c, p)) n
    (covered mode live_docs should_exit 0 (size (approx s) + 1) s TIME_LIMIT_INTERVAL 0 c).
Proof.
  intros Hmode Hg Hv Hl Hnm Hn. pose proof (count_from_le (approx s) 0) as Hcf. pose proof no_more_pos. unfold exact_need in Hn.
  unfold score_segment_time_limited, cloop.
  wp_use (windows_loop_ok n s mode live_docs should_exit n s c p 0 TIME_LIMIT_INTERVAL 0 1);
    [done|done|done|apply same_refl|done|done|lia|done|done|unfold exact_need; lia|by right; right|lia|].
  intros r (ws & up_to & Hws & Hlen & Hr). exists ws, up_to. split; [done|]. split; [lia|done].
Qed.
End windows.
