(* ===== verification/RunScorers.v ===== *)
(** * What the bulk loops ask of a scorer ([lucene-search/src/exec])

    [doc_id_run_end], [constant_score], [prefers_batches] and [constant_bits]
    of every modelled scorer, each with its law: a run holds only documents
    of the approximation, and asking for one leaves the scorer where it was. *)
From S2P Require Export BulkScoreSpec BooleanScorer.
From S2P Require Import BitWords FixedBitSet FixedBitSetSpec.

(** The trait's provided method. *)
Definition run_end_of (doc : Z) : Z := sat32 (doc + 1).

Definition MAX_RUN_END_SCAN : Z := 2 ^ 16.

(** ** [CachedScorer]: the run is remembered *)
Definition cs_run_put (s : CachedScorer) (run : Z * Z) : CachedScorer :=
  mk_Cached (cs_set s) (cs_doc s) (cs_at s) (cs_score s) (cs_top_scores s) (cs_emptied s) (cs_cost s) run.

Definition cs_run_end (s : CachedScorer) : Z * CachedScorer :=
  if cs_emptied s then (run_end_of (cs_doc s), s)
  else
    match cs_set s with
    | Bits bits _ =>
        let doc := cs_doc s in
        let length := Z.min (FixedBitSet.len bits) i32_max in
        let '(run_start, run_end) :=
          let '(run_start, run_end) := cs_run s in
          if (doc <? run_start) || (run_end <=? doc) then (doc, sat32 (doc + 1)) else (run_start, run_end) in
        let up_to := sat32 (doc + Z.min (sat32 (length - doc)) MAX_RUN_END_SCAN) in
        let run_end :=
          if run_end <? up_to then
            let found := if (0 <=? run_end) && (0 <=? up_to) then FixedBitSet.next_clear_bit_in_range bits run_end up_to else None in
            match found with Some e => wraps 32 e | None => up_to end
          else run_end in
        (run_end, cs_run_put s (run_start, run_end))
    | Docs _ => (run_end_of (cs_doc s), s)
    end.

(** ** [DisjunctionScorer]: the longest run of the clauses on the document *)
Section subs.
Context {E S : Type} `{RS : RunScorer E S}.
Fixpoint subs_run_end (v : list (Disi S)) (doc end_ : Z) : Z * list (Disi S) :=
  match v with
  | [] => (end_, [])
  | w :: v =>
      let '(end_, w) :=
        if d_doc w =? doc
        then let '(e, s) := doc_id_run_end (d_scorer w) in (Z.max end_ e, set_scorer w s)
        else (end_, w) in
      let '(end_, v) := subs_run_end v doc end_ in (end_, w :: v)
  end.
End subs.

(** ** Instances *)
Section instances.
Context {E : Type}.
#[export] Instance all_run : RunScorer E AllDocs :=
  {| doc_id_run_end s := (all_max_doc s, s); constant_score _ := None; prefers_batches _ := false |}.
#[export] Instance dl_run : RunScorer E DocList :=
  {| doc_id_run_end s := (run_end_of (dl_current s), s); constant_score _ := None; prefers_batches _ := false |}.
#[export] Instance cached_run : RunScorer E CachedScorer :=
  {| doc_id_run_end := cs_run_end; constant_score _ := None; prefers_batches _ := false |}.

Section wrappers.
Context {S : Type} `{Sc : Scorer E S} `{RS : !RunScorer E S} `{CB : !ConstantBits S}.
#[export] Instance const_run : RunScorer E (ConstantScorer S) :=
  {| doc_id_run_end c :=
       if const_emptied c then (run_end_of (const_doc c), c)
       else let '(e, i) := doc_id_run_end (const_inner c) in (e, const_put c i (const_doc c));
     constant_score c := if const_emptied c then None else Some (const_score c);
     prefers_batches _ := false |}.
#[export] Instance zero_run : RunScorer E (ZeroScorer S) :=
  {| doc_id_run_end z := (run_end_of (doc_id z), z); constant_score _ := None; prefers_batches _ := false |}.
#[export] Instance below_run : RunScorer E (Below S) :=
  {| doc_id_run_end b :=
       let '(e, i) := doc_id_run_end (below_inner b) in
       (Z.min e (below_end b), mk_Below i (below_end b) (below_done b));
     constant_score _ := None; prefers_batches _ := false |}.
#[export] Instance conj_run : RunScorer E (ConjunctionScorer S) :=
  {| doc_id_run_end c := (run_end_of (doc_id c), c); constant_score _ := None; prefers_batches _ := false |}.
#[export] Instance dj_run : RunScorer E (DisjunctionScorer S) :=
  {| doc_id_run_end c :=
       let '(e, v) := subs_run_end (E := E) (dj_subs c) (dj_doc c) (run_end_of (dj_doc c)) in (e, dj_subs_put c v);
     constant_score _ := None; prefers_batches _ := false |}.
#[export] Instance const_constant_bits : ConstantBits (ConstantScorer S) := fun c =>
  if const_emptied c || two_phase (const_inner c) then None
  else '(set, _) ← constant_bits (const_inner c); Some (set, const_score c).
End wrappers.

Section pairs.
Context {A B : Type} `{ScA : Scorer E A} `{ScB : Scorer E B} `{RA : !RunScorer E A} `{RB : !RunScorer E B}.
Context `{CA : !ConstantBits A} `{CB : !ConstantBits B}.
#[export] Instance rx_run : RunScorer E (ReqExclScorer A B) :=
  {| doc_id_run_end c := (run_end_of (doc_id c), c); constant_score _ := None; prefers_batches _ := false |}.
#[export] Instance ro_run : RunScorer E (ReqOptSumScorer A B) :=
  {| doc_id_run_end c := (run_end_of (doc_id c), c); constant_score _ := None; prefers_batches _ := false |}.
#[export] Instance dyn_run : RunScorer E (A + B) :=
  {| doc_id_run_end d :=
       match d with
       | inl a => let '(e, a) := doc_id_run_end a in (e, inl a)
       | inr b => let '(e, b) := doc_id_run_end b in (e, inr b)
       end;
     constant_score d := dyn_get d (constant_score (E := E)) (constant_score (E := E));
     prefers_batches d := dyn_get d (prefers_batches (E := E)) (prefers_batches (E := E)) |}.
#[export] Instance dyn_constant_bits : ConstantBits (A + B) := fun d => dyn_get d constant_bits constant_bits.
End pairs.
End instances.

(** Every other scorer has the provided [constant_bits]. *)
#[export] Instance all_constant_bits : ConstantBits AllDocs := fun _ => None.
#[export] Instance doc_list_constant_bits : ConstantBits DocList := fun _ => None.
#[export] Instance zero_constant_bits S : ConstantBits (ZeroScorer S) := fun _ => None.
#[export] Instance below_constant_bits S : ConstantBits (Below S) := fun _ => None.
#[export] Instance conj_constant_bits S : ConstantBits (ConjunctionScorer S) := fun _ => None.
#[export] Instance dj_constant_bits S : ConstantBits (DisjunctionScorer S) := fun _ => None.
#[export] Instance rx_constant_bits A B : ConstantBits (ReqExclScorer A B) := fun _ => None.
#[export] Instance ro_constant_bits A B : ConstantBits (ReqOptSumScorer A B) := fun _ => None.

(** ** The laws *)
Section default_law.
Context {E S : Type} `{L : ScorerLaws E S}.
Implicit Types (s : S).

Lemma stays_same s : good s -> stays s s.
Proof. by intros Hg; split_and!. Qed.

Lemma run_end_of_next s : good s -> doc_id s ∈ approx s -> run_end_of (doc_id s) = doc_id s + 1.
Proof.
  intros Hg Hd. apply sat32_id. pose proof (approx_range s _ Hg Hd) as Hr.
  change NO_MORE_DOCS with (2 ^ 31 - 1) in Hr. unfold in_s. change (2 ^ (32 - 1)) with (2 ^ 31). lia.
Qed.

(** What the provided method answers. *)
Lemma run_of_one s : good s -> doc_id s ∈ approx s ->
  stays s s /\ doc_id s < run_end_of (doc_id s) /\ forall x, doc_id s <= x < run_end_of (doc_id s) -> x ∈ approx s.
Proof.
  intros Hg Hd. rewrite run_end_of_next by done. split; [by apply stays_same|]. split; [lia|].
  intros x Hx. by replace x with (doc_id s) by lia.
Qed.
End default_law.

#[export] Instance all_run_laws E : RunLaws E AllDocs.
Proof. split; [|done].
  intros s Hg _ Hd. split; [by apply stays_same|]. apply all_approx_elem in Hd as Hr. split; [cbn in *; lia|].
  intros x Hx. apply all_approx_elem. cbn in *. lia.
Qed.

#[export] Instance dl_run_laws E : RunLaws E DocList.
Proof. split; [|done]. intros s Hg _ Hd. exact (run_of_one (E := E) s Hg Hd). Qed.

(** A run remembered, extended to the next clear bit. *)
Lemma clear_extends bits cardinality lo from to e :
  set_ok (Bits bits cardinality) -> 0 <= from <= to -> to <= FixedBitSet.len bits ->
  (forall x, lo <= x < from -> x ∈ set_docs (Bits bits cardinality)) ->
  e = match FixedBitSet.next_clear_bit_in_range bits from to with Some e => wraps 32 e | None => to end ->
  from <= e /\ forall x, lo <= x < e -> x ∈ set_docs (Bits bits cardinality).
Proof.
  intros Hok Hf Ht Hlo ->. pose proof Hok as (Hi & Hn & _). change (FixedBitSet.len bits) with (FixedBitSet.num_bits bits) in Ht.
  pose proof (next_clear_range_first bits from to Hi ltac:(lia) ltac:(lia)) as Hc. rewrite Z.min_l in Hc by done.
  assert (Hbits : forall x, from <= x -> negb (bit bits x) = false -> x ∈ set_docs (Bits bits cardinality)).
  { intros x Hx Hb. apply elem_of_bits; [done|]. split; [lia|]. by apply negb_false_iff. }
  destruct (FixedBitSet.next_clear_bit_in_range bits from to) as [e|].
  - destruct Hc as (He & _ & Hbefore). rewrite in_s32 by lia. split; [lia|]. intros x Hx.
    destruct (Z.lt_ge_cases x from); [apply Hlo; lia|]. apply Hbits; [done|]. apply Hbefore. lia.
  - split; [lia|]. intros x Hx. destruct (Z.lt_ge_cases x from); [apply Hlo; lia|]. apply Hbits; [done|]. apply Hc. lia.
Qed.

Lemma cs_run_stays E (s : CachedScorer) run :
  good s -> (forall x, run.1 <= x < run.2 -> x ∈ set_docs (cs_set s)) -> stays (E := E) s (cs_run_put s run).
Proof. intros (Hok & He & _ & Hp) Hr. by split_and!. Qed.

#[export] Instance cached_run_laws E : RunLaws E CachedScorer.
Proof. split; [|done].
  intros s Hg _ Hd. pose proof (run_of_one (E := E) s Hg Hd) as Hone. pose proof (run_end_of_next (E := E) s Hg Hd) as Hnext.
  pose proof Hg as (Hok & He & Hrun & _). cbn [doc_id_run_end cached_run doc_id cached_scorer approx cached_view] in *.
  unfold cs_run_end. rewrite He. destruct (cs_set s) as [bits cardinality|docs] eqn:Es; [|done].
  pose proof (bits_range bits cardinality _ Hok Hd) as [Hr Hn].
  assert (Hlen : Z.min (FixedBitSet.len bits) i32_max = FixedBitSet.len bits) by (change i32_max with NO_MORE_DOCS; lia). rewrite Hlen.
  assert (Hrange : forall z, 0 <= z <= NO_MORE_DOCS -> sat32 z = z).
  { intros z Hz. apply sat32_id. change NO_MORE_DOCS with (2 ^ 31 - 1) in Hz. unfold in_s. change (2 ^ (32 - 1)) with (2 ^ 31). lia. }
  rewrite (Hrange (FixedBitSet.len bits - cs_doc s)) by lia.
  assert (Hup : 0 < Z.min (FixedBitSet.len bits - cs_doc s) MAX_RUN_END_SCAN) by (unfold MAX_RUN_END_SCAN; lia).
  rewrite (Hrange (cs_doc s + Z.min _ _)) by lia. set (up_to := cs_doc s + Z.min _ _) in *.
  set (known := let '(run_start, run_end) := cs_run s in _).
  assert (Hk : known.1 <= cs_doc s < known.2 /\ forall x, known.1 <= x < known.2 -> x ∈ set_docs (Bits bits cardinality)).
  { unfold known. destruct (cs_run s) as [rs re]. cbn [fst snd] in Hrun. rewrite (Hrange (cs_doc s + 1)) by lia.
    destruct (Z.ltb_spec (cs_doc s) rs); cbn [orb fst snd]; [|destruct (Z.leb_spec re (cs_doc s)); cbn [fst snd]];
      [split; [lia|]; intros x Hx; by replace x with (cs_doc s) by lia..|]. split; [lia|exact Hrun]. }
  destruct known as [rs re]. cbn [fst snd] in Hk. destruct Hk as [Hin Hall].
  set (e := if re <? up_to then _ else re).
  assert (Hee : re <= e /\ forall x, rs <= x < e -> x ∈ set_docs (Bits bits cardinality)).
  { unfold e. destruct (Z.ltb_spec re up_to) as [Hlt|]; [|split; [lia|done]].
    destruct (Z.leb_spec 0 re); [|lia]. destruct (Z.leb_spec 0 up_to); [|lia]. cbn [andb].
    apply (clear_extends bits cardinality rs re up_to); [done|lia|unfold up_to; lia|done|done]. }
  clearbody e. destruct Hee as [Hle Hall']. cbn [fst snd]. split; [apply cs_run_stays; [done|]; cbn [fst snd]; by rewrite Es|].
  split; [lia|]. intros x Hx. apply Hall'. lia.
Qed.

Section law_instances.
Context {E : Type}.

Section wrappers.
Context {S : Type} `{L : ScorerLaws E S} `{RS : !RunScorer E S} `{RL : !RunLaws E S} `{CB : !ConstantBits S} `{CBL : !ConstantBitsLaws E S}.

#[export] Instance const_run_laws : RunLaws E (ConstantScorer S).
Proof. split; [|intros c v (_ & He & _); cbn; rewrite He; by intros [= ->]].
  intros c (Hg & He & Hd) Htwo Hin. cbn in Htwo, Hin |- *. rewrite He. rewrite Hd in Hin |- *.
  destruct (run_end_ok (const_inner c) Hg Htwo Hin) as ((H1 & H2 & H3 & H4) & H5 & H6).
  destruct (doc_id_run_end (const_inner c)) as [e i]. cbn [fst snd] in *. split; [|by split].
  split; [split_and!; [done|done|cbn; congruence]|]. split; [by apply const_same|]. split; [cbn; congruence|done].
Qed.

#[export] Instance zero_run_laws : RunLaws E (ZeroScorer S).
Proof. split; [|done]. intros z Hg _ Hd. exact (run_of_one z Hg Hd). Qed.

#[export] Instance conj_run_laws : RunLaws E (ConjunctionScorer S).
Proof. split; [|done]. intros c Hg _ Hd. exact (run_of_one c Hg Hd). Qed.

#[export] Instance below_run_laws : RunLaws E (Below S).
Proof. split; [|done].
  intros b (Hg & He & Hd) Htwo Hin. cbn in Htwo, Hin |- *. apply elem_of_filter in Hin as [Hlt Hin].
  destruct (below_done b) eqn:Ed; [pose proof (approx_below _ _ Hg Hin); lia|].
  destruct (run_end_ok (below_inner b) Hg Htwo Hin) as ((H1 & H2 & H3 & H4) & H5 & H6).
  destruct (doc_id_run_end (below_inner b)) as [e i]. cbn [fst snd] in *. split; [split_and!|split; [lia|]].
  - split; [exact H1|]. split; [exact He|]. intros _. cbn. rewrite H3. by apply Hd.
  - apply (below_same b i false H2).
  - cbn. by rewrite Ed, H3.
  - done.
  - intros x Hx. apply elem_of_filter. split; [lia|]. apply H6. lia.
Qed.

#[export] Instance const_constant_bits_laws : ConstantBitsLaws E (ConstantScorer S).
Proof.
  intros c set sc (Hg & He & _). unfold constant_bits at 1, const_constant_bits. destruct (_ || _); [done|].
  destruct (constant_bits (const_inner c)) as [[set' sc']|] eqn:Ec; [|done]. intros [= -> <-].
  destruct (constant_bits_ok (E := E) (const_inner c) set sc' Hg Ec) as (H1 & H2 & _). by split_and!.
Qed.

Lemma subs_run_end_ok (v : list (Disi S)) doc end_ (A : gset Z) :
  Forall (fun w => good (d_scorer w) /\ d_doc w = doc_id (d_scorer w) /\ two_phase (d_scorer w) = false /\
                   (d_doc w = doc -> doc ∈ approx (d_scorer w)) /\ approx (d_scorer w) ⊆ A) v ->
  (forall x, doc <= x < end_ -> x ∈ A) ->
  Forall2 kept v (subs_run_end v doc end_).2 /\ end_ <= (subs_run_end v doc end_).1 /\
  forall x, doc <= x < (subs_run_end v doc end_).1 -> x ∈ A.
Proof.
  intros Hv. revert end_. induction Hv as [|w v (Hg & Hd & Ht & Hin & HA) Hv IH]; intros end_ Hend; cbn [subs_run_end].
  { split; [constructor|]. split; [done|exact Hend]. }
  destruct (Z.eqb_spec (d_doc w) doc) as [He|Hne].
  - specialize (Hin He). rewrite Hd in He. destruct (run_end_ok (d_scorer w) Hg Ht) as (Hst & Hlt & Hrun); [by rewrite He|].
    destruct (doc_id_run_end (d_scorer w)) as [e s]. cbn [fst snd] in *. rewrite He in Hrun.
    destruct (IH (Z.max end_ e)) as (H1 & H2 & H3).
    { intros x Hx. destruct (Z.lt_ge_cases x end_); [apply Hend; lia|]. apply HA, Hrun. lia. }
    destruct (subs_run_end v doc (Z.max end_ e)) as [r v']. cbn [fst snd] in *. split; [|split; [lia|done]].
    constructor; [by apply stays_kept|done].
  - destruct (IH end_ Hend) as (H1 & H2 & H3). destruct (subs_run_end v doc end_) as [r v']. cbn [fst snd] in *.
    split; [|by split]. constructor; [by apply kept_refl|done].
Qed.

#[export] Instance dj_run_laws : RunLaws E (DisjunctionScorer S).
Proof. split; [|done].
  intros c Hg Htwo Hin. destruct (run_of_one c Hg Hin) as (_ & Hlt & Hone). pose proof (approx_range c _ Hg Hin) as Hr.
  pose proof Hg as (Hm & _ & _ & Htp & _). change (two_phase c) with (dj_two_phase c) in Htwo. rewrite Htwo in Htp. symmetry in Htp.
  destruct (subs_run_end_ok (dj_subs c) (dj_doc c) (run_end_of (dj_doc c)) (approx c)) as (H1 & H2 & H3).
  - apply Forall_forall. intros w Hw. destruct (member_good c w Hg Hw) as (Hgw & Hdw & _ & _).
    split_and!; [done|done| | |].
    + destruct (two_phase (d_scorer w)) eqn:Ew; [|done]. rewrite <- Htp. symmetry. apply existsb_exists.
      exists (d_scorer w). split; [|done]. apply in_map. by apply list_elem_of_In.
    + intros He. rewrite <- He, Hdw. apply doc_id_positioned; [done|]. rewrite <- Hdw, He. exact Hr.
    + intros x Hx. apply elem_of_joined. by exists w.
  - exact Hone.
  - cbn [doc_id_run_end dj_run]. destruct (subs_run_end (dj_subs c) (dj_doc c) _) as [e v]. cbn [fst snd] in *.
    split; [by apply put_kept|]. change (doc_id c) with (dj_doc c) in *. split; [lia|exact H3].
Qed.
End wrappers.

Section pairs.
Context {A B : Type} `{LA : ScorerLaws E A} `{LB : ScorerLaws E B} `{RA : !RunScorer E A} `{RB : !RunScorer E B}.
Context `{RLA : !RunLaws E A} `{RLB : !RunLaws E B} `{CA : !ConstantBits A} `{CB : !ConstantBits B}.
Context `{CLA : !ConstantBitsLaws E A} `{CLB : !ConstantBitsLaws E B}.

#[export] Instance rx_run_laws : RunLaws E (ReqExclScorer A B).
Proof. split; [|done]. intros c Hg _ Hd. exact (run_of_one c Hg Hd). Qed.
#[export] Instance ro_run_laws : RunLaws E (ReqOptSumScorer A B).
Proof. split; [|done]. intros c Hg _ Hd. exact (run_of_one c Hg Hd). Qed.

#[export] Instance dyn_run_laws : RunLaws E (A + B).
Proof. split; [|intros [a|b] v Hg; [exact (constant_score_ok a v Hg)|exact (constant_score_ok b v Hg)]].
  intros [a|b] Hg Ht Hd; cbn in *.
  - pose proof (run_end_ok a Hg Ht Hd) as H. by destruct (doc_id_run_end a).
  - pose proof (run_end_ok b Hg Ht Hd) as H. by destruct (doc_id_run_end b).
Qed.
#[export] Instance dyn_constant_bits_laws : ConstantBitsLaws E (A + B).
Proof. intros [a|b] set sc Hg Hc; cbn in *; by eapply (constant_bits_ok (E := E)). Qed.
End pairs.

#[export] Instance all_constant_bits_laws : ConstantBitsLaws E AllDocs.
Proof. done. Qed.
#[export] Instance doc_list_constant_bits_laws : ConstantBitsLaws E DocList.
Proof. done. Qed.
#[export] Instance zero_constant_bits_laws {S} `{Scorer E S} `{ScorerView S} : ConstantBitsLaws E (ZeroScorer S).
Proof. done. Qed.
#[export] Instance below_constant_bits_laws {S} `{Scorer E S} `{ScorerView S} : ConstantBitsLaws E (Below S).
Proof. done. Qed.
#[export] Instance conj_constant_bits_laws {S} `{Scorer E S} `{ScorerView S} : ConstantBitsLaws E (ConjunctionScorer S).
Proof. done. Qed.
#[export] Instance dj_constant_bits_laws {S} `{Scorer E S} `{ScorerView S} : ConstantBitsLaws E (DisjunctionScorer S).
Proof. done. Qed.
#[export] Instance rx_constant_bits_laws {A B} `{Scorer E A} `{ScorerView A} `{Scorer E B} `{ScorerView B} :
  ConstantBitsLaws E (ReqExclScorer A B).
Proof. done. Qed.
#[export] Instance ro_constant_bits_laws {A B} `{Scorer E A} `{ScorerView A} `{Scorer E B} `{ScorerView B} :
  ConstantBitsLaws E (ReqOptSumScorer A B).
Proof. done. Qed.
End law_instances.
