(* ===== verification/SegmentQueryCache.v ===== *)
(** * The segment's query cache ([lucene-search/src/exec/cache.rs])

    A least-recently-used map from a clause's key to its matches in one
    segment ([SegmentQueryCache]), the caching policy that decides what is
    worth keeping ([UsageTrackingPolicy], [query_cache.rs]) and the two
    critical sections of [scorer_if_cacheable], with the computation of a set
    that runs between them under no lock ([search_step]).  A clause is its key (its
    [Debug] text) and the three answers of [shape]; the hash of a key is a
    parameter.  Proved: the byte count is what the entries hold, both bounds
    hold after every insertion, only the least recently used entries go, the
    policy counts the uses inside its window, and however searches interleave
    their sections and computations over one cache, every set found or computed
    is exactly its clause's matches. *)
From stdpp Require Import sorting strings.
From S2P Require Export CachedScorer RunScorers.
From S2P Require Import BitWords FixedBitSet FixedBitSetSpec.

Definition MAX_ENTRIES : nat := 1000.
Definition MAX_BYTES : Z := 2 ^ 24.
Definition MIN_SEGMENT_SIZE : Z := 10000.
Definition SKIP_CACHE_FACTOR : f32 := f32_of_Z 10.

Definition skip_cache (cost lead_cost : Z) : bool :=
  SFltb (f32_of_Z lead_cost) (f32_div (f32_of_Z cost) SKIP_CACHE_FACTOR).

(** ** [FrequencyRingBuffer] *)
Record FrequencyRingBuffer := mk_ring {
  rb_capacity : nat;
  rb_window : list Z;
  rb_frequencies : gmap Z Z;
}.

Definition ring_new (capacity : nat) : FrequencyRingBuffer := mk_ring (Nat.max capacity 1) [] ∅.

(** [*count -= 1], the entry going at zero. *)
Definition forget (frequencies : gmap Z Z) (evicted : Z) : gmap Z Z :=
  match frequencies !! evicted with
  | Some count => if count - 1 =? 0 then delete evicted frequencies else <[evicted := count - 1]> frequencies
  | None => frequencies
  end.

Definition ring_add (r : FrequencyRingBuffer) (hash : Z) : FrequencyRingBuffer :=
  let '(window, frequencies) :=
    if Nat.eqb (length (rb_window r)) (rb_capacity r) then
      match rb_window r with
      | evicted :: window => (window, forget (rb_frequencies r) evicted)
      | [] => ([], rb_frequencies r)
      end
    else (rb_window r, rb_frequencies r) in
  mk_ring (rb_capacity r) (window ++ [hash])
    (<[hash := default 0 (frequencies !! hash) + 1]> frequencies).

Definition ring_frequency (r : FrequencyRingBuffer) (hash : Z) : Z := default 0 (rb_frequencies r !! hash).

(** ** [UsageTrackingPolicy].  [PolicyKey]: a clause's key and shape. *)
Record PolicyKey := mk_policy_key {
  pk_key : string;
  pk_costly : bool;
  pk_composite : bool;
  pk_never : bool;
}.

Section cache.
Context (hash_of : string -> Z).

Definition min_frequency_to_cache (k : PolicyKey) : Z :=
  if pk_costly k then 2 else if pk_composite k then 4 else 5.

Definition on_use (p : FrequencyRingBuffer) (k : PolicyKey) : FrequencyRingBuffer :=
  if pk_never k then p else ring_add p (hash_of (pk_key k)).

Definition should_cache (p : FrequencyRingBuffer) (k : PolicyKey) : bool :=
  if pk_never k then false
  else min_frequency_to_cache k <=? ring_frequency p (hash_of (pk_key k)).

(** ** [SegmentQueryCache] *)
Record Entry := mk_entry { en_set : CachedSet; en_last_used : Z }.
Record Inner := mk_inner {
  in_policy : FrequencyRingBuffer;
  in_entries : gmap string Entry;
  in_clock : Z;
  in_bytes : Z;
}.

Definition cache_new : Inner := mk_inner (ring_new 256) ∅ 0 0.

(** [entries.iter().min_by_key(|e| e.last_used)]. *)
Definition older (acc : option (string * Entry)) (ke : string * Entry) : option (string * Entry) :=
  match acc with
  | Some ke' => if en_last_used ke.2 <? en_last_used ke'.2 then Some ke else acc
  | None => Some ke
  end.
Definition oldest (entries : gmap string Entry) : option string :=
  fst <$> fold_left older (map_to_list entries) None.

Fixpoint evict (fuel : nat) (entries : gmap string Entry) (bytes : Z) : option (gmap string Entry * Z) :=
  if Nat.ltb MAX_ENTRIES (size entries) || (MAX_BYTES <? bytes) then
    match oldest entries with
    | None => Some (entries, bytes)
    | Some k =>
        match fuel with
        | O => None
        | S fuel =>
            match entries !! k with
            | Some e => evict fuel (delete k entries) (bytes - ram_bytes (en_set e))
            | None => evict fuel entries bytes
            end
        end
    end
  else Some (entries, bytes).

(** The critical section of [insert]. *)
Definition insert (c : Inner) (key : string) (set : CachedSet) : option Inner :=
  let now := in_clock c + 1 in
  let bytes := in_bytes c + ram_bytes set in
  let bytes := match in_entries c !! key with Some old => bytes - ram_bytes (en_set old) | None => bytes end in
  let entries := <[key := mk_entry set now]> (in_entries c) in
  '(entries, bytes) ← evict (size entries) entries bytes;
  Some (mk_inner (in_policy c) entries now bytes).

(** The critical section that looks a clause up: answered, not to be cached
    now, or to be computed. *)
Inductive Lookup_result := Found (set : CachedSet) | Uncached | Compute.

Definition lookup_use (c : Inner) (k : PolicyKey) (cacheable : bool) : Lookup_result * Inner :=
  let now := in_clock c + 1 in
  let c := mk_inner (on_use (in_policy c) k) (in_entries c) now (in_bytes c) in
  if negb cacheable then (Uncached, c)
  else match in_entries c !! pk_key k with
       | Some e =>
           (Found (en_set e),
            mk_inner (in_policy c) (<[pk_key k := mk_entry (en_set e) now]> (in_entries c)) now (in_bytes c))
       | None => (if should_cache (in_policy c) k then Compute else Uncached, c)
       end.

Inductive CacheResult := Hit (set : CachedSet) | Empty.
Definition result_of (set : CachedSet) : CacheResult := if set_is_empty set then Empty else Hit set.

(** What [scorer_if_cacheable] does without the lock: the set to store and the
    answer, or [None] when the clause is run uncached this time. *)
Definition compute_set {E S} `{Scorer E S} `{ConstantBits S} (max_doc : Z)
    (skip : comp E bool) (uncached : comp E (option S)) : comp E (option (CachedSet * CacheResult)) :=
  let! skipped := skip in
  if skipped then cret None
  else
    let! s := uncached in
    match s with
    | None => cret (Some (Docs [], Empty))
    | Some s => let! (set, _) := collect s max_doc in cret (Some (set, Hit set))
    end.

(** [scorer_if_cacheable], with no other search in between. *)
Definition scorer_if_cacheable {E S} `{Scorer E S} `{ConstantBits S} (c : Inner) (k : PolicyKey) (max_doc : Z)
    (cacheable : bool) (skip : comp E bool) (uncached : comp E (option S)) : comp E (option CacheResult * Inner) :=
  if pk_never k || (max_doc <? MIN_SEGMENT_SIZE) then cret (None, c)
  else
    match lookup_use c k cacheable with
    | (Found set, c) => cret (Some (result_of set), c)
    | (Uncached, c) => cret (None, c)
    | (Compute, c) =>
        let! computed := compute_set max_doc skip uncached in
        match computed with
        | None => cret (None, c)
        | Some (set, answer) => let! c := of_option (insert c (pk_key k) set) in cret (Some answer, c)
        end
    end.

(** ** Searches that share the cache

    A call of [scorer_if_cacheable] as its caller makes it, and where it
    stands: before the section that looks up, computing without the lock,
    before the section that stores, or done. *)
Record Search (E S : Type) := mk_search {
  sr_clause : PolicyKey;
  sr_cacheable : bool;
  sr_skip : comp E bool;
  sr_uncached : comp E (option S);
  sr_fuel : nat;
}.
#[global] Arguments mk_search {E S}.
#[global] Arguments sr_clause {E S}.
#[global] Arguments sr_cacheable {E S}.
#[global] Arguments sr_skip {E S}.
#[global] Arguments sr_uncached {E S}.
#[global] Arguments sr_fuel {E S}.

Inductive Phase (E : Type) :=
| Starting
| Computing
| Storing (set : CachedSet) (answer : CacheResult)
| Finished (answer : option CacheResult)
| Failed (e : E).
#[global] Arguments Starting {E}.
#[global] Arguments Computing {E}.
#[global] Arguments Storing {E}.
#[global] Arguments Finished {E}.
#[global] Arguments Failed {E}.

(** The next thing a call does; [None] when it is over or panics. *)
Definition search_step {E S} `{Scorer E S} `{ConstantBits S} (max_doc : Z) (s : Search E S) (c : Inner) (ph : Phase E)
    : option (Inner * Phase E) :=
  let k := sr_clause s in
  match ph with
  | Starting =>
      if pk_never k || (max_doc <? MIN_SEGMENT_SIZE) then Some (c, Finished None)
      else
        match lookup_use c k (sr_cacheable s) with
        | (Found set, c) => Some (c, Finished (Some (result_of set)))
        | (Uncached, c) => Some (c, Finished None)
        | (Compute, c) => Some (c, Computing)
        end
  | Computing =>
      match compute_set max_doc (sr_skip s) (sr_uncached s) (sr_fuel s) with
      | Done None => Some (c, Finished None)
      | Done (Some (set, answer)) => Some (c, Storing set answer)
      | Fail e => Some (c, Failed e)
      | Panic | OutOfFuel => None
      end
  | Storing set answer => c ← insert c (pk_key k) set; Some (c, Finished (Some answer))
  | Finished _ | Failed _ => None
  end.

(** Any search moves next. *)
Inductive moves {E S} `{Scorer E S} `{ConstantBits S} (max_doc : Z) (searches : list (Search E S))
    : Inner * list (Phase E) -> Inner * list (Phase E) -> Prop :=
| moves_at i s c phases ph c' ph' :
    searches !! i = Some s -> phases !! i = Some ph -> search_step max_doc s c ph = Some (c', ph') ->
    moves max_doc searches (c, phases) (c', <[i := ph']> phases).

(** The searches moving in a given order. *)
Fixpoint run_schedule {E S} `{Scorer E S} `{ConstantBits S} (max_doc : Z) (searches : list (Search E S)) (order : list nat)
    (st : Inner * list (Phase E)) : option (Inner * list (Phase E)) :=
  match order with
  | [] => Some st
  | i :: order =>
      s ← searches !! i;
      ph ← st.2 !! i;
      '(c, ph) ← search_step max_doc s st.1 ph;
      run_schedule max_doc searches order (c, <[i := ph]> st.2)
  end.
End cache.

(** ** The policy's window *)
Definition occurrences (h : Z) (l : list Z) : nat := length (filter (fun x => x = h) l).

Lemma occurrences_cons h x l : occurrences h (x :: l) = ((if decide (x = h) then 1 else 0) + occurrences h l)%nat.
Proof. unfold occurrences. rewrite filter_cons. by case_decide. Qed.

Lemma occurrences_app h l k : occurrences h (l ++ k) = (occurrences h l + occurrences h k)%nat.
Proof. unfold occurrences. by rewrite filter_app, length_app. Qed.

(** The map counts the window, without zeros. *)
Definition counts (l : list Z) (m : gmap Z Z) : Prop :=
  forall h, m !! h = if Nat.eqb (occurrences h l) 0 then None else Some (Z.of_nat (occurrences h l)).

Definition ring_ok (r : FrequencyRingBuffer) : Prop :=
  (1 <= rb_capacity r)%nat /\ (length (rb_window r) <= rb_capacity r)%nat /\ counts (rb_window r) (rb_frequencies r).

Lemma forget_counts x l m : counts (x :: l) m -> counts l (forget m x).
Proof.
  intros Hc h. pose proof (Hc x) as Hx. rewrite occurrences_cons, decide_True in Hx by done. cbn in Hx.
  unfold forget. rewrite Hx. destruct (decide (h = x)) as [->|Hne].
  - destruct (Z.eqb_spec (Z.of_nat (S (occurrences x l)) - 1) 0) as [H0|H0].
    + rewrite lookup_delete_eq. destruct (Nat.eqb_spec (occurrences x l) 0); [done|lia].
    + rewrite lookup_insert_eq. destruct (Nat.eqb_spec (occurrences x l) 0); [lia|]. f_equal. lia.
  - assert (Hh : m !! h = if Nat.eqb (occurrences h l) 0 then None else Some (Z.of_nat (occurrences h l))).
    { rewrite (Hc h), occurrences_cons, decide_False by done. done. }
    destruct (_ =? 0); [by rewrite lookup_delete_ne|by rewrite lookup_insert_ne].
Qed.

Lemma push_counts h l m : counts l m -> counts (l ++ [h]) (<[h := default 0 (m !! h) + 1]> m).
Proof.
  intros Hc g. rewrite occurrences_app, occurrences_cons. unfold occurrences at 2 4. cbn [filter length].
  destruct (decide (h = g)) as [->|Hne].
  - rewrite lookup_insert_eq, (Hc g). cbn. rewrite Nat.add_1_r. cbn [Nat.eqb]. f_equal.
    destruct (Nat.eqb_spec (occurrences g l) 0) as [->|]; cbn; lia.
  - rewrite lookup_insert_ne, (Hc g) by done. cbn. by rewrite Nat.add_0_r.
Qed.

Lemma ring_new_ok capacity : ring_ok (ring_new capacity).
Proof. split; [cbn; lia|]. split; [cbn; lia|]. intros h. done. Qed.

(** The last [n] of a history. *)
Definition last_n (n : nat) (l : list Z) : list Z := drop (length l - n) l.

Lemma ring_add_ok r h :
  ring_ok r -> ring_ok (ring_add r h) /\ rb_capacity (ring_add r h) = rb_capacity r /\
  rb_window (ring_add r h) = last_n (rb_capacity r) (rb_window r ++ [h]).
Proof.
  intros (H1 & H2 & H3). unfold ring_add, last_n. rewrite length_app. cbn [length].
  destruct (Nat.eqb_spec (length (rb_window r)) (rb_capacity r)) as [He|Hne].
  - destruct (rb_window r) as [|x w] eqn:Ew; [cbn in He; lia|]. cbn [length] in He.
    split; [|split; [done|]].
    + split; [done|]. split; [cbn; rewrite length_app; cbn in *; lia|]. cbn. apply push_counts. by apply forget_counts.
    + cbn [rb_window]. replace (length (x :: w) + 1 - rb_capacity r)%nat with 1%nat by (cbn; lia). done.
  - split; [|split; [done|]].
    + split; [done|]. split; [cbn; rewrite length_app; cbn; lia|]. cbn. by apply push_counts.
    + cbn [rb_window]. by replace (length (rb_window r) + 1 - rb_capacity r)%nat with 0%nat by lia.
Qed.

Lemma last_n_snoc n l h : last_n n (last_n n l ++ [h]) = last_n n (l ++ [h]).
Proof.
  unfold last_n. rewrite !length_app, length_drop. cbn [length].
  destruct (Nat.le_gt_cases (length l) n) as [Hle|Hgt].
  - replace (length l - n)%nat with 0%nat by lia. cbn [drop]. f_equal. lia.
  - replace (length l - (length l - n) + 1 - n)%nat with 1%nat by lia.
    replace (length l + 1 - n)%nat with (length l - n + 1)%nat by lia.
    rewrite <- drop_drop. f_equal. rewrite drop_app_le by lia. done.
Qed.

(** After any sequence of uses, the frequency the policy sees for a hash
    is the number of its occurrences among the last [capacity] uses: the
    window and the counts never drift apart. *)
Lemma policy_counts_its_window (capacity : nat) (history : list Z) (h : Z) :
  let r := fold_left ring_add history (ring_new capacity) in
  ring_frequency r h = Z.of_nat (occurrences h (last_n (Nat.max capacity 1) history)).
Proof.
  cbn zeta.
  assert (G : forall history, let r := fold_left ring_add history (ring_new capacity) in
    ring_ok r /\ rb_capacity r = Nat.max capacity 1 /\ rb_window r = last_n (Nat.max capacity 1) history).
  { clear. intros history. induction history as [|x l (I1 & I2 & I3)] using rev_ind; [split; [apply ring_new_ok|done]|].
    cbn zeta in *. rewrite fold_left_app. cbn [fold_left]. destruct (ring_add_ok _ x I1) as (H1 & H2 & H3).
    split; [done|]. split; [congruence|]. rewrite H3, I2, I3. apply last_n_snoc. }
  destruct (G history) as ((_ & _ & Hc) & _ & Hw). unfold ring_frequency. rewrite (Hc h), Hw.
  by destruct (Nat.eqb_spec (occurrences h (last_n (Nat.max capacity 1) history)) 0) as [->|].
Qed.

(** ** The byte count and the order of use *)
Definition total_bytes (m : gmap string Entry) : Z := map_fold (fun _ e acc => ram_bytes (en_set e) + acc) 0 m.

Lemma total_insert m k e : m !! k = None -> total_bytes (<[k := e]> m) = ram_bytes (en_set e) + total_bytes m.
Proof. intros H. unfold total_bytes. rewrite map_fold_insert_L; [done| |done]. intros. lia. Qed.

Lemma total_delete m k e : m !! k = Some e -> total_bytes (delete k m) = total_bytes m - ram_bytes (en_set e).
Proof.
  intros H. unfold total_bytes. rewrite (map_fold_delete_L _ 0 k e m); [lia| |done]. intros. lia.
Qed.

Lemma total_replace m k e :
  total_bytes (<[k := e]> m) =
  total_bytes m + ram_bytes (en_set e) - match m !! k with Some old => ram_bytes (en_set old) | None => 0 end.
Proof.
  destruct (m !! k) as [old|] eqn:Ek; [|rewrite total_insert by done; lia].
  rewrite <- insert_delete_eq, total_insert by apply lookup_delete_eq. rewrite (total_delete _ _ old Ek). lia.
Qed.

Definition stamps_distinct (m : gmap string Entry) : Prop :=
  forall k k' e e', m !! k = Some e -> m !! k' = Some e' -> en_last_used e = en_last_used e' -> k = k'.

(** [oldest] is the entry whose stamp is least. *)
Lemma fold_older l acc :
  match fold_left older l acc with
  | Some ke => (acc = Some ke \/ ke ∈ l) /\
               (forall ke', acc = Some ke' \/ ke' ∈ l -> en_last_used ke.2 <= en_last_used ke'.2)
  | None => acc = None /\ l = []
  end.
Proof.
  revert acc. induction l as [|x l IH]; intros acc; cbn [fold_left].
  - destruct acc as [ke|]; [|done]. split; [by left|]. intros ke' [[= <-]|H]; [lia|by apply not_elem_of_nil in H].
  - specialize (IH (older acc x)). destruct (fold_left older l (older acc x)) as [ke|].
    + destruct IH as [I1 I2]. unfold older in *. destruct acc as [a|].
      * destruct (Z.ltb_spec (en_last_used x.2) (en_last_used a.2)) as [Hlt|Hge].
        -- split; [destruct I1 as [[= <-]|I1]; right; [by left|by right]|].
           intros ke' [[= <-]|[->|H]%elem_of_cons]; [|by apply I2; left|by apply I2; right].
           pose proof (I2 x (or_introl eq_refl)). lia.
        -- split; [destruct I1 as [I1|I1]; [by left|right; by right]|].
           intros ke' [[= <-]|[->|H]%elem_of_cons]; [by apply I2; left| |by apply I2; right].
           pose proof (I2 a (or_introl eq_refl)). lia.
      * split; [destruct I1 as [[= <-]|I1]; right; [by left|by right]|].
        intros ke' [?|[->|H]%elem_of_cons]; [done|by apply I2; left|by apply I2; right].
    + destruct IH as [I1 _]. unfold older in I1. destruct acc; [by destruct (_ <? _)|done].
Qed.

Lemma oldest_spec (m : gmap string Entry) :
  match oldest m with
  | Some k => exists e, m !! k = Some e /\ forall k' e', m !! k' = Some e' -> en_last_used e <= en_last_used e'
  | None => m = ∅
  end.
Proof.
  unfold oldest. pose proof (fold_older (map_to_list m) None) as H. destruct (fold_left _ _ _) as [[k e]|]; cbn.
  - destruct H as [[?|H1] H2]; [done|]. exists e. split; [by apply elem_of_map_to_list|].
    intros k' e' Hk. apply (H2 (k', e')). right. by apply elem_of_map_to_list.
  - apply map_to_list_empty_iff, H.
Qed.

(** What eviction leaves. *)
Definition evicted_to (m m' : gmap string Entry) : Prop :=
  m' ⊆ m /\ forall k e k' e', m !! k = Some e -> m' !! k = None -> m' !! k' = Some e' -> en_last_used e <= en_last_used e'.

Lemma evict_ok fuel : forall m bytes,
  bytes = total_bytes m -> (size m <= fuel)%nat ->
  exists m' bytes', evict fuel m bytes = Some (m', bytes') /\ bytes' = total_bytes m' /\ evicted_to m m' /\
    (size m' <= MAX_ENTRIES)%nat /\ bytes' <= MAX_BYTES.
Proof.
  assert (Hrefl : forall m, evicted_to m m).
  { intros m. split; [done|]. intros. congruence. }
  assert (Hdone : forall m bytes, bytes = total_bytes m -> Nat.ltb MAX_ENTRIES (size m) || (MAX_BYTES <? bytes) = false ->
    exists m' bytes', Some (m, bytes) = Some (m', bytes') /\ bytes' = total_bytes m' /\ evicted_to m m' /\
    (size m' <= MAX_ENTRIES)%nat /\ bytes' <= MAX_BYTES).
  { intros m bytes Hb [H1%Nat.ltb_ge H2%Z.ltb_ge]%orb_false_iff. exists m, bytes. by split_and!. }
  induction fuel as [|fuel IH]; intros m bytes Hb Hs; cbn [evict];
    (destruct (Nat.ltb MAX_ENTRIES (size m) || (MAX_BYTES <? bytes)) eqn:Ec; [|by apply Hdone]);
    pose proof (oldest_spec m) as Ho; destruct (oldest m) as [k|].
  - destruct Ho as (e & He & _). assert (Hm : m = ∅) by (apply map_size_empty_iff; lia). by rewrite Hm in He.
  - subst m. subst bytes. by vm_compute in Ec.
  - destruct Ho as (e & He & Hold). rewrite He.
    destruct (IH (delete k m) (bytes - ram_bytes (en_set e))) as (m' & bytes' & H1 & H2 & (H3 & H4) & H5 & H6).
    + rewrite (total_delete _ _ e He). lia.
    + rewrite map_size_delete_Some by (by eexists). lia.
    + exists m', bytes'. split; [done|]. split; [done|]. split; [|done]. split.
      * etrans; [exact H3|apply delete_subseteq].
      * intros k1 e1 k2 e2 Hk1 Hn Hk2. destruct (decide (k1 = k)) as [->|Hne].
        -- assert (e1 = e) as -> by congruence. apply (Hold k2).
           eapply lookup_weaken in H3; [|exact Hk2]. by apply lookup_delete_Some in H3 as [_ ?].
        -- apply (H4 k1 e1 k2 e2); [by rewrite lookup_delete_ne|done|done].
  - subst m. subst bytes. by vm_compute in Ec.
Qed.

(** ** The cache's invariant *)
Definition cache_ok (c : Inner) : Prop :=
  in_bytes c = total_bytes (in_entries c) /\
  (forall k e, in_entries c !! k = Some e -> en_last_used e <= in_clock c) /\
  stamps_distinct (in_entries c) /\
  (size (in_entries c) <= MAX_ENTRIES)%nat /\ in_bytes c <= MAX_BYTES.

(** Stamping one entry with a new time. *)
Lemma stamp_distinct m k e now :
  stamps_distinct m -> (forall k e, m !! k = Some e -> en_last_used e < now) -> en_last_used e = now ->
  stamps_distinct (<[k := e]> m).
Proof.
  intros Hd Hlt He k1 k2 e1 e2 H1 H2 Heq.
  apply lookup_insert_Some in H1 as [[<- <-]|[Hn1 H1]]; apply lookup_insert_Some in H2 as [[<- <-]|[Hn2 H2]]; try done.
  - pose proof (Hlt _ _ H2). lia.
  - pose proof (Hlt _ _ H1). lia.
  - by eapply Hd.
Qed.

Lemma insert_ok c key set :
  cache_ok c ->
  exists c', insert c key set = Some c' /\ cache_ok c' /\ in_policy c' = in_policy c /\
    evicted_to (<[key := mk_entry set (in_clock c + 1)]> (in_entries c)) (in_entries c').
Proof.
  intros (Hb & Hclk & Hd & _). unfold insert. set (e := mk_entry set (in_clock c + 1)).
  set (m := <[key := e]> (in_entries c)).
  assert (Hlt : forall k x, in_entries c !! k = Some x -> en_last_used x < in_clock c + 1).
  { intros k x Hx. specialize (Hclk k x Hx). lia. }
  assert (Hbytes : match in_entries c !! key with
                   | Some old => in_bytes c + ram_bytes set - ram_bytes (en_set old)
                   | None => in_bytes c + ram_bytes set end = total_bytes m).
  { unfold m. rewrite total_replace, Hb. cbn [e en_set]. destruct (in_entries c !! key); lia. }
  rewrite Hbytes. destruct (evict_ok (size m) m (total_bytes m) eq_refl) as (m' & b' & He & Hb' & Hev & Hs & Hm); [lia|].
  rewrite He. cbn [mbind option_bind]. exists (mk_inner (in_policy c) m' (in_clock c + 1) b'). split; [done|].
  split; [|done]. pose proof Hev as [Hsub _]. split; [done|]. split; [|split; [|done]].
  - intros k x Hx. cbn in Hx. eapply lookup_weaken in Hsub; [|exact Hx].
    apply lookup_insert_Some in Hsub as [[_ <-]|[_ Hx']]; [cbn; lia|]. specialize (Hlt k x Hx'). cbn. lia.
  - assert (Hdm : stamps_distinct m) by (by eapply stamp_distinct).
    intros k1 k2 e1 e2 H1 H2. apply Hdm; by eapply lookup_weaken.
Qed.

Lemma lookup_use_ok hash_of c k cacheable :
  cache_ok c -> cache_ok (lookup_use hash_of c k cacheable).2 /\
  (forall key e, in_entries (lookup_use hash_of c k cacheable).2 !! key = Some e ->
     exists e0, in_entries c !! key = Some e0 /\ en_set e0 = en_set e).
Proof.
  intros (Hb & Hclk & Hd & Hs & Hm). unfold lookup_use.
  assert (Hsame : cache_ok (mk_inner (on_use hash_of (in_policy c) k) (in_entries c) (in_clock c + 1) (in_bytes c))).
  { split; [done|]. split; [|by split]. intros k' e He. cbn in *. specialize (Hclk k' e He). lia. }
  destruct cacheable; cbn [negb].
  2:{ split; [done|]. cbn. intros key e He. by exists e. }
  cbn [in_entries]. destruct (in_entries c !! pk_key k) as [e|] eqn:Ee.
  2:{ split; [done|]. cbn. intros key e He. by exists e. }
  cbn [snd]. split.
  - split; [|split; [|split; [|split; [|done]]]]; cbn [in_entries in_bytes in_clock].
    + rewrite total_replace, Ee. cbn. lia.
    + intros k' x Hx. apply lookup_insert_Some in Hx as [[_ <-]|[_ Hx]]; [cbn; lia|]. specialize (Hclk k' x Hx). lia.
    + eapply stamp_distinct; [done| |done]. intros k' x Hx. specialize (Hclk k' x Hx). cbn. lia.
    + rewrite map_size_insert_Some by done. done.
  - intros key x Hx. cbn in Hx. apply lookup_insert_Some in Hx as [[<- <-]|[_ Hx]]; [by exists e|by exists x].
Qed.

Lemma cache_new_ok : cache_ok cache_new.
Proof.
  split; [done|]. split; [intros k e He; cbn in He; by rewrite lookup_empty in He|].
  split; [intros k k' e e' He; cbn in He; by rewrite lookup_empty in He|].
  split; [cbn; rewrite map_size_empty; unfold MAX_ENTRIES; lia|done].
Qed.

(** Inserting never fails and leaves a cache whose byte count is what its
    entries hold, within both bounds; the entries that went are among the
    least recently used: each is older than every entry that stayed. *)
Lemma insert_evicts_least_recently_used (c : Inner) (key : string) (set : CachedSet) (Hc : cache_ok c) :
  exists c', insert c key set = Some c' /\
    in_bytes c' = total_bytes (in_entries c') /\ (size (in_entries c') <= MAX_ENTRIES)%nat /\ in_bytes c' <= MAX_BYTES /\
    (forall k e, in_entries c' !! k = Some e -> k <> key -> in_entries c !! k = Some e) /\
    (forall e, in_entries c' !! key = Some e -> en_set e = set) /\
    (forall k e k' e', k <> key -> in_entries c !! k = Some e -> in_entries c' !! k = None ->
       in_entries c' !! k' = Some e' -> en_last_used e < en_last_used e').
Proof.
  destruct (insert_ok c key set Hc) as (c' & Hi & Hok & _ & Hev & Hold). exists c'. split; [done|].
  destruct Hok as (H1 & _ & H3 & H4 & H5). split; [done|]. split; [done|]. split; [done|].
  assert (Hsub : forall k e, in_entries c' !! k = Some e ->
    <[key := mk_entry set (in_clock c + 1)]> (in_entries c) !! k = Some e) by (intros; by eapply lookup_weaken).
  split; [|split].
  - intros k e He Hne. specialize (Hsub k e He). by rewrite lookup_insert_ne in Hsub.
  - intros e He. specialize (Hsub key e He). rewrite lookup_insert_eq in Hsub. by injection Hsub as <-.
  - intros k e k' e' Hne He Hn He'.
    assert (Hin : <[key := mk_entry set (in_clock c + 1)]> (in_entries c) !! k = Some e) by (by rewrite lookup_insert_ne).
    pose proof (Hold k e k' e' Hin Hn He') as Hle. destruct Hc as (_ & Hclk & Hd & _).
    destruct (decide (en_last_used e = en_last_used e')) as [Heq|]; [|lia].
    assert (Hdm : stamps_distinct (<[key := mk_entry set (in_clock c + 1)]> (in_entries c))).
    { eapply stamp_distinct; [done| |done]. intros k1 x Hx. specialize (Hclk k1 x Hx). cbn. lia. }
    assert (k = k') as -> by (eapply (Hdm k k'); [exact Hin|by apply Hsub|done]). congruence.
Qed.
Lemma insert_evicts_least_recently_used_witness :
  cache_ok cache_new /\ exists c', insert cache_new "a" (Docs [1; 5]) = Some c' /\
    in_bytes c' = total_bytes (in_entries c') /\ (size (in_entries c') <= MAX_ENTRIES)%nat /\ in_bytes c' <= MAX_BYTES.
Proof.
  split; [apply cache_new_ok|].
  destruct (insert_evicts_least_recently_used cache_new "a" (Docs [1; 5]) cache_new_ok) as (c' & H1 & H2 & H3 & H4 & _).
  exists c'. by split_and!.
Defined.

(** ** Sharing the cache *)
Section shared.
Context (hash_of : string -> Z).
(** The matches of the clause with this key in the segment. *)
Context (matches_of : string -> gset Z) (max_doc : Z).

Definition right (key : string) (set : CachedSet) : Prop :=
  set_ok set /\ set_list set = docs_in (matches_of key) 0 max_doc.
Definition coherent (c : Inner) : Prop := forall k e, in_entries c !! k = Some e -> right k (en_set e).

Lemma insert_coherent c key set c' :
  cache_ok c -> coherent c -> right key set -> insert c key set = Some c' -> coherent c'.
Proof.
  intros Hok Hco Hr Hi. destruct (insert_ok c key set Hok) as (c1 & Hi' & _ & _ & [Hsub _]).
  assert (c1 = c') as -> by congruence. intros k e He. eapply lookup_weaken in Hsub; [|exact He].
  apply lookup_insert_Some in Hsub as [[<- <-]|[_ Hk]]; [done|by apply Hco].
Qed.

Lemma lookup_coherent c k cacheable : cache_ok c -> coherent c -> coherent (lookup_use hash_of c k cacheable).2.
Proof.
  intros Hok Hco key e He. destruct (lookup_use_ok hash_of c k cacheable Hok) as [_ H].
  destruct (H key e He) as (e0 & He0 & <-). by apply Hco.
Qed.

End shared.

(** ** [scorer_if_cacheable] answers for the clause *)
Section answers.
Context {E S : Type} `{L : ScorerLaws E S} `{CB : ConstantBits S} `{CBL : !ConstantBitsLaws E S}.
Context (hash_of : string -> Z) (matches_of : string -> gset Z) (max_doc : Z).

(** What a result says of the clause's matches. *)
Definition answer_right (key : string) (r : option CacheResult) : Prop :=
  match r with
  | None => True
  | Some Empty => docs_in (matches_of key) 0 max_doc = []
  | Some (Hit set) => set_ok set /\ set_list set = docs_in (matches_of key) 0 max_doc
  end.

Lemma result_of_right key set : right matches_of max_doc key set -> answer_right key (Some (result_of set)).
Proof.
  intros [Hok Hl]. unfold result_of. destruct (set_is_empty set) eqn:Ee; cbn; [|done]. rewrite <- Hl.
  destruct set as [b c|docs]; cbn in *.
  - apply Z.eqb_eq in Ee. destruct Hok as (_ & _ & Hc). apply zlen_0_inv. rewrite <- Hc. lia.
  - by destruct docs.
Qed.

Lemma found_right c (k : PolicyKey) cacheable set c' : coherent matches_of max_doc c ->
  lookup_use hash_of c k cacheable = (Found set, c') -> right matches_of max_doc (pk_key k) set.
Proof.
  intros Hco. unfold lookup_use. destruct cacheable; cbn [negb]; [|done]. cbn [in_entries].
  destruct (in_entries c !! pk_key k) as [e|] eqn:Ee; [|by destruct (should_cache _ _ _)].
  intros [= <- _]. by apply (Hco (pk_key k)).
Qed.

(** A call that keeps the contract of [scorer_if_cacheable]: [skip] does not
    panic, and [uncached] builds a fresh lawful scorer of the clause, none
    only when nothing matches; [n] is fuel enough for both. *)
Definition runs_clause (key : string) (skip : comp E bool) (uncached : comp E (option S)) (n : nat) : Prop :=
  wp skip n (fun _ => True) /\
  wp uncached n (fun r => match r with
    | None => docs_in (matches_of key) 0 max_doc = []
    | Some s => Scorer.fresh s /\ accept s = matches_of key /\ (exact_need s <= n)%nat
    end).

Hypothesis max_doc_range : 0 <= max_doc <= NO_MORE_DOCS.

(** What is computed is the clause's matches, in the set and in the answer. *)
Lemma computed_right key skip uncached n : runs_clause key skip uncached n ->
  wp (compute_set (S := S) max_doc skip uncached) n (fun r => match r with
    | None => True
    | Some (set, answer) => right matches_of max_doc key set /\ answer_right key (Some answer)
    end).
Proof.
  intros [Hskip Huncached]. unfold compute_set. wp_bind. wp_use Hskip. intros [] _; [by wp_ret|].
  wp_bind. wp_use Huncached. intros [s|] Hs.
  - destruct Hs as (Hf & Ha & Hn). wp_bind. wp_use (collect_ok n s max_doc Hf max_doc_range Hn).
    intros [set s'] (H1 & H2 & _). cbn [fst] in *. rewrite Ha in H2. wp_ret. by split_and!.
  - wp_ret. split; [split; [split; constructor|]|done]. cbn. by rewrite Hs.
Qed.

(** Looking a clause up in a coherent cache, or computing and storing it,
    answers exactly its matches below [max_doc]: [Empty] only when there are
    none, a hit with precisely that set, and [None] leaves the caller to run
    the clause itself; the cache stays coherent and within its bounds. *)
Lemma cached_answer_is_the_clause (n : nat) (c : Inner) (k : PolicyKey) (cacheable : bool)
    (skip : comp E bool) (uncached : comp E (option S))
    (Hc : cache_ok c) (Hco : coherent matches_of max_doc c) (Hrun : runs_clause (pk_key k) skip uncached n) :
  wp (scorer_if_cacheable hash_of c k max_doc cacheable skip uncached) n
    (fun r => answer_right (pk_key k) r.1 /\ cache_ok r.2 /\ coherent matches_of max_doc r.2).
Proof.
  unfold scorer_if_cacheable. destruct (pk_never k || (max_doc <? MIN_SEGMENT_SIZE)); [by wp_ret|].
  pose proof (lookup_use_ok hash_of c k cacheable Hc) as [Hok1 _].
  pose proof (lookup_coherent hash_of matches_of max_doc c k cacheable Hc Hco) as Hco1.
  pose proof (found_right c k cacheable) as Hfound.
  destruct (lookup_use hash_of c k cacheable) as [[set| |] c1]; cbn [snd] in *.
  - wp_ret. split; [by eapply result_of_right, Hfound|done].
  - by wp_ret.
  - wp_bind. wp_use (computed_right _ _ _ _ Hrun). intros [[set answer]|] Hr; [|by wp_ret].
    destruct Hr as [Hset Hanswer]. destruct (insert_ok c1 (pk_key k) set Hok1) as (c2 & Hi & H5 & _).
    wp_bind. eapply wp_of_option; [exact Hi|]. wp_ret. split; [done|]. split; [done|].
    exact (insert_coherent _ _ _ _ _ _ Hok1 Hco1 Hset Hi).
Qed.

(** ** Interleavings *)
Definition keeps_contract (s : Search E S) : Prop :=
  runs_clause (pk_key (sr_clause s)) (sr_skip s) (sr_uncached s) (sr_fuel s).

(** What stands between the sections is the clause's too. *)
Definition phase_right (s : Search E S) (ph : Phase E) : Prop :=
  match ph with
  | Starting | Computing | Failed _ => True
  | Storing set answer => right matches_of max_doc (pk_key (sr_clause s)) set /\ answer_right (pk_key (sr_clause s)) (Some answer)
  | Finished answer => answer_right (pk_key (sr_clause s)) answer
  end.

Definition all_right (searches : list (Search E S)) (st : Inner * list (Phase E)) : Prop :=
  cache_ok st.1 /\ coherent matches_of max_doc st.1 /\ Forall2 phase_right searches st.2.

Lemma step_right s c ph c' ph' : keeps_contract s -> cache_ok c -> coherent matches_of max_doc c -> phase_right s ph ->
  search_step hash_of max_doc s c ph = Some (c', ph') -> cache_ok c' /\ coherent matches_of max_doc c' /\ phase_right s ph'.
Proof.
  intros Hk Hc Hco Hph. destruct ph as [| |set answer|answer|e]; cbn [search_step]; [| | |done|done].
  - destruct (pk_never _ || _); [by intros [= <- <-]|].
    pose proof (lookup_use_ok hash_of c (sr_clause s) (sr_cacheable s) Hc) as [Hok1 _].
    pose proof (lookup_coherent hash_of matches_of max_doc c (sr_clause s) (sr_cacheable s) Hc Hco) as Hco1.
    pose proof (found_right c (sr_clause s) (sr_cacheable s)) as Hfound.
    destruct (lookup_use _ _ _ _) as [[set| |] c1]; intros [= <- <-]; cbn [snd] in *; [|done..].
    split; [done|]. split; [done|]. by eapply result_of_right, Hfound.
  - pose proof (computed_right _ _ _ _ Hk) as Hw. unfold wp in Hw.
    destruct (compute_set _ _ _ _) as [[[set answer]|]|e| |]; [..|done|done]; intros [= <- <-]; split_and!; try done; apply Hw.
  - destruct Hph as [Hset Hanswer]. destruct (insert_ok c (pk_key (sr_clause s)) set Hc) as (c2 & Hi & Hok & _).
    rewrite Hi. cbn [mbind option_bind]. intros [= <- <-]. split; [done|]. split; [|done].
    exact (insert_coherent _ _ _ _ _ _ Hc Hco Hset Hi).
Qed.

Lemma run_schedule_moves (searches : list (Search E S)) order : forall st st',
  run_schedule hash_of max_doc searches order st = Some st' -> rtc (moves hash_of max_doc searches) st st'.
Proof.
  induction order as [|i order IH]; intros [c phases] st'; cbn [run_schedule fst snd]; [by intros [= <-]|].
  destruct (searches !! i) as [s|] eqn:Es; [|done]. destruct (phases !! i) as [ph|] eqn:Ep; [|done]. cbn [mbind option_bind].
  destruct (search_step hash_of max_doc s c ph) as [[c' ph']|] eqn:Et; [|done]. cbn [mbind option_bind].
  intros Hr. eapply rtc_l; [by eapply moves_at|]. by apply IH.
Qed.

Lemma moves_right searches st st' : Forall keeps_contract searches -> all_right searches st ->
  rtc (moves hash_of max_doc searches) st st' -> all_right searches st'.
Proof.
  intros Hk Hst Hr. induction Hr as [st|st st1 st2 Hm _ IH]; [done|]. apply IH. clear IH.
  destruct Hm as [i s c phases ph c' ph' Hi Hp He]. destruct Hst as (H1 & H2 & H3). cbn [fst snd] in *.
  destruct (step_right s c ph c' ph') as (H4 & H5 & H6); [by eapply Forall_lookup_1|done|done|by eapply Forall2_lookup_lr|done|].
  split; [done|]. split; [done|]. cbn [fst snd]. rewrite <- (list_insert_id searches i s Hi). by apply Forall2_insert.
Qed.

(** Nobody waits for anybody: whatever the others did, a call that is not
    over goes on. *)
Lemma step_total s c ph : keeps_contract s -> cache_ok c ->
  match ph with Finished _ | Failed _ => True | _ => is_Some (search_step hash_of max_doc s c ph) end.
Proof.
  intros Hk Hc. destruct ph as [| |set answer|answer|e]; cbn [search_step]; [| | |done|done].
  - destruct (pk_never _ || _); [done|]. by destruct (lookup_use _ _ _ _) as [[] ?].
  - pose proof (computed_right _ _ _ _ Hk) as Hw. unfold wp in Hw.
    by destruct (compute_set _ _ _ _) as [[[]|]| | |].
  - destruct (insert_ok c (pk_key (sr_clause s)) set Hc) as (c2 & -> & _). done.
Qed.

(** C15: however the sections of concurrent searches interleave, computing
    without the lock in between, starting from an empty cache: the byte count
    is exact and within its bound, the entry count is within its bound, every
    set stored is exactly its clause's matches below [max_doc], and so is what
    a finished search answers ([None] leaves it to run the clause itself); a
    search that is not over can always go on, to an answer or to an error of
    its own scorer. *)
Theorem shared_cache_is_coherent (searches : list (Search E S)) (c : Inner) (phases : list (Phase E)) :
  Forall keeps_contract searches ->
  rtc (moves hash_of max_doc searches) (cache_new, replicate (length searches) Starting) (c, phases) ->
  in_bytes c = total_bytes (in_entries c) /\ (size (in_entries c) <= MAX_ENTRIES)%nat /\ in_bytes c <= MAX_BYTES /\
  (forall key e, in_entries c !! key = Some e -> set_list (en_set e) = docs_in (matches_of key) 0 max_doc) /\
  (forall i s ph, searches !! i = Some s -> phases !! i = Some ph ->
     match ph with
     | Finished answer => answer_right (pk_key (sr_clause s)) answer
     | Failed _ => True
     | _ => is_Some (search_step hash_of max_doc s c ph)
     end).
Proof.
  intros Hk Hr. apply moves_right in Hr as (Hok & Hco & Hph); [|done|].
  - pose proof Hok as (H1 & _ & _ & H4 & H5). cbn [fst snd] in *. do 3 (split; [done|]). split; [intros key e He; by apply Hco|].
    intros i s ph Hs Hp. pose proof (step_total s c ph (Forall_lookup_1 _ _ _ _ Hk Hs) Hok) as Ht.
    pose proof (Forall2_lookup_lr _ _ _ _ _ _ Hph Hs Hp) as Hright. by destruct ph.
  - split; [apply cache_new_ok|]. split; [intros key e He; cbn in He; by rewrite lookup_empty in He|].
    cbn [snd]. apply Forall2_replicate_r; [done|]. by apply Forall_true.
Qed.
End answers.

Lemma cached_answer_is_the_clause_witness :
  let k := mk_policy_key "a" true false false in
  let c := mk_inner (ring_new 4) ∅ 0 0 in
  let s := dl_new [1; 5] [] in
  let use := (lookup_use (fun _ => 7) c k true).2 in
  cache_ok use /\ coherent (fun _ => {[1; 5]}) 10000 use /\
  wp (scorer_if_cacheable (E := Empty_set) (fun _ => 7) use k 10000 true (cret false) (cret (Some s))) 10
    (fun r => answer_right (fun _ => {[1; 5]}) 10000 "a" r.1).
Proof.
  intros k c s use.
  assert (Hok : cache_ok use) by (by apply (lookup_use_ok (fun _ => 7) c k true), cache_new_ok).
  assert (Hco : coherent (fun _ => {[1; 5]}) 10000 use).
  { apply (lookup_coherent (fun _ => 7) (fun _ => {[1; 5]}) 10000 c k true cache_new_ok).
    intros key e He. cbn in He. by apply lookup_empty_Some in He. }
  split; [exact Hok|]. split; [exact Hco|].
  assert (Hmax : 0 <= 10000 <= NO_MORE_DOCS) by (split; [done|by vm_compute]).
  assert (Hrun : runs_clause (E := Empty_set) (S := DocList) (fun _ => {[1; 5]}) 10000 "a" (cret false) (cret (Some s)) 10).
  { split; [done|]. apply wp_ret. split; [split; [|done]|split; [reflexivity|vm_compute; lia]].
    split; [repeat constructor|]. split; [repeat constructor; done|]. by vm_compute. }
  eapply wp_mono; [exact (cached_answer_is_the_clause (fun _ => 7) (fun _ => {[1; 5]}) 10000 Hmax 10 use k true (cret false) (cret (Some s)) Hok Hco Hrun)|].
  by intros r [H _].
Defined.

(** Three searches of one clause, the last two at once: the first use is
    counted, the second computes and stores, the third computes too and
    stores the same again. *)
Lemma shared_cache_is_coherent_witness :
  let k := mk_policy_key "a" true false false in
  let search := mk_search k true (cret false) (cret (Some (dl_new [1; 5] []))) 10 in
  exists c phases,
    run_schedule (E := Empty_set) (fun _ => 7) 10000 [search; search; search] [0; 1; 2; 1; 2; 2; 1]%nat (cache_new, replicate 3 Starting) = Some (c, phases) /\
    phases = [Finished None; Finished (Some (Hit (Docs [1; 5]))); Finished (Some (Hit (Docs [1; 5])))] /\
    in_bytes c = 8 /\ size (in_entries c) = 1%nat /\ in_bytes c <= MAX_BYTES /\
    forall key e, in_entries c !! key = Some e -> set_list (en_set e) = docs_in {[1; 5]} 0 10000.
Proof.
  intros k search.
  assert (Hr : exists c, run_schedule (E := Empty_set) (fun _ => 7) 10000 [search; search; search] [0; 1; 2; 1; 2; 2; 1]%nat (cache_new, replicate 3 Starting) =
    Some (c, [Finished None; Finished (Some (Hit (Docs [1; 5]))); Finished (Some (Hit (Docs [1; 5])))]) /\ in_bytes c = 8 /\ size (in_entries c) = 1%nat)
    by (eexists; split; [vm_compute; reflexivity|split; reflexivity]).
  destruct Hr as (c & Hr & Hb & Hs). eexists c, _. split; [exact Hr|]. split; [reflexivity|]. split; [exact Hb|]. split; [exact Hs|].
  assert (Hmax : 0 <= 10000 <= NO_MORE_DOCS) by (split; [done|by vm_compute]).
  assert (Hrun : runs_clause (E := Empty_set) (S := DocList) (fun _ => {[1; 5]}) 10000 "a" (cret false) (cret (Some (dl_new [1; 5] []))) 10).
  { split; [done|]. apply wp_ret. split; [split; [|done]|split; [reflexivity|vm_compute; lia]].
    split; [repeat constructor|]. split; [repeat constructor; done|]. by vm_compute. }
  apply run_schedule_moves in Hr.
  destruct (shared_cache_is_coherent (fun _ => 7) (fun _ => {[1; 5]}) 10000 Hmax [search; search; search] c _
    ltac:(repeat (constructor; [exact Hrun|]); constructor) Hr) as (_ & _ & H3 & H4 & _).
  split; [exact H3|exact H4].
Defined.
