(* ===== verification/Searching.v ===== *)
(** * Searching one segment

    The parts together: the scorer a boolean query composes, the bulk loop
    that drives it and the collector that keeps or counts what it finds.
    [Count] is [IndexSearcher::count]'s collector
    ([lucene-search/src/index_searcher.rs]). *)
From S2P Require Export TimeLimit RunScorers TopDocsSpec.
From S2P Require Import FixedBitSet FixedBitSetSpec.

#[local] Existing Instance TopDocs.top_docs_collector.

(** ** [Count]: a collector that only counts *)
Module Count.
Record t := mk { hits : Z }.

#[global] Instance count_collector : ScoringCollector t := {
  collect c _ _ := Some (mk (wrapu 64 (hits c + 1)));
  min_competitive _ := Some None;
  score_mode _ := ScoreMode.CompleteNoScores;
  pruning_threshold := CollectorDefaults.pruning_threshold (fun _ => ScoreMode.CompleteNoScores) (fun _ => Some None);
  constant_score_hits_needed _ := None;
  count_losing_hits := CollectorDefaults.count_losing_hits;
  add_hits c n := (true, mk (wrapu 64 (hits c + n)));
  collect_many c _ _ _ := Some (O, c);
  collect_range c min max _ := Some (mk (wrapu 64 (hits c + Z.max 0 (sat32 (max - min)))));
}.

Lemma wrapu_add a b : wrapu 64 (wrapu 64 a + b) = wrapu 64 (a + b).
Proof. unfold wrapu. by rewrite Zplus_mod_idemp_l. Qed.

Lemma each_counts l : forall c, in_u 64 (hits c) -> collect_each c l = Some (mk (wrapu 64 (hits c + zlen l))).
Proof.
  induction l as [|[d s] l IH]; intros [h] Hc; cbn [hits] in *.
  - rewrite zlen_nil, Z.add_0_r, wrapu_id by done. done.
  - unfold collect_each. cbn [each Collector.collect count_collector mbind option_bind]. fold (collect_each (C := t)).
    change (each _ ?c l) with (collect_each c l). rewrite IH by (apply wrapu_range; lia).
    cbn [hits]. rewrite wrapu_add, zlen_cons. do 3 f_equal. lia.
Qed.

#[global] Instance count_laws : CollectorLaws t.
Proof.
  apply (Build_CollectorLaws _ _ (fun c => in_u 64 (hits c))).
  - intros c d s Hc. eexists. split; [done|]. apply wrapu_range. lia.
  - intros c docs scores base Hc Hs Hl. exists O, c. split; [done|]. split; [lia|done].
  - intros c n c' Hc [= <-] l <-. by apply each_counts.
  - done.
  - done.
  - intros c lo hi s Hc H0 Hm. rewrite each_counts by done. cbn [Collector.collect_range count_collector]. do 2 f_equal.
    unfold zlen. rewrite length_map, length_seqZ. f_equal. f_equal.
    change NO_MORE_DOCS with (2 ^ 31 - 1) in Hm. unfold sat32, i32_max. lia.
Defined.
End Count.

(** ** A window, whatever path scores it *)
Section searching.
Context {E S : Type} `{L : ScorerLaws E S} `{CB : ConstantBits S} `{CBL : !ConstantBitsLaws E S}.
Context `{RS : RunScorer E S} `{RL : !RunLaws E S}.
Implicit Types (s : S) (must filter should must_not : list S).

(** C10: outside the top-scores mode, [default_score] ends without panicking and,
    unless the scorer fails, whichever of its paths it takes (bit set by words, popcounts, ranges,
    batches, one by one), has collected exactly the live matches of the window
    in ascending order, once each, every one with a score the scorer gives it
    (zero where the mode asks for none); the scorer stands at the first stop
    past the window, over no match, which is the answer. *)
Theorem default_score_collects_the_window {C : Type} `{CL : CollectorLaws C} (n : nat) (mode : Mode)
    (live_docs : option FixedBitSet.t) (s : S) (c : C) (published : f32) (min max : Z)
    (Hmode : mode <> TopScores) (Hs : good s) (Hc : valid c) (Hlive : live_ok live_docs)
    (Hrange : 0 <= min <= max) (Hmax : max <= NO_MORE_DOCS)
    (Hpassed : forall x, x ∈ accept s -> min <= x -> doc_id s <= x) (Hfuel : (exact_need s <= n)%nat) :
  wp (default_score mode live_docs (s, c, published) min max) n (fun '(next, (s', c', _)) =>
    (exists scores, Forall2 (score_of (needs_scores mode) s) (hits live_docs (accept s) min max) scores /\
       collect_each c (zip (hits live_docs (accept s) min max) scores) = Some c') /\
    doc_id s' = next /\ max <= next /\ (next = NO_MORE_DOCS \/ next ∈ approx s) /\
    forall x, x ∈ accept s -> max <= x -> next <= x).
Proof.
  wp_use (default_score_ok n mode live_docs s c published min max); [done..|lia|lia|done|done|done|].
  intros [next [[s' c'] p']] ((_ & _ & H1 & H2 & H3 & H4) & _ & scores & H5 & H6).
  split; [by exists scores|]. done.
Qed.

(** C34: outside the top-scores mode, a search under a deadline ends without
    panicking (with the scorer's error, if it fails), within one window per
    document of the approximation and one more. The windows are
    pinned: the first starts at 0 and is [TIME_LIMIT_INTERVAL] long, each
    later one starts where the last left the scorer and is half as long again
    (both cut at the end of the documents). [should_exit] is asked before every
    one, and a window is run exactly when the answer is no: the search stopped
    at the first yes, or it covered the segment. What it collected is exactly
    the live matches before where it stopped, ascending, with their scores. *)
Theorem deadline_ends_the_search {C : Type} `{CL : CollectorLaws C} (n : nat) (mode : Mode)
    (live_docs : option FixedBitSet.t) (should_exit : nat -> bool) (s : S) (c : C) (published : f32)
    (Hmode : mode <> TopScores) (Hs : Scorer.fresh s) (Hc : valid c) (Hlive : live_ok live_docs)
    (Hfuel : (exact_need s <= n)%nat) :
  wp (score_segment_time_limited mode live_docs should_exit (s, c, published)) n (fun '(stopped, (_, c', _)) =>
    exists ws up_to scores, windows (accept s) (approx s) TIME_LIMIT_INTERVAL 0 up_to ws /\
      (length ws <= size (approx s) + 1)%nat /\
      (forall j, (j < length ws)%nat -> should_exit j = false) /\
      (if stopped then should_exit (length ws) = true /\ up_to < NO_MORE_DOCS else up_to = NO_MORE_DOCS) /\
      Forall2 (score_of (needs_scores mode) s) (hits live_docs (accept s) 0 up_to) scores /\
      collect_each c (zip (hits live_docs (accept s) 0 up_to) scores) = Some c').
Proof.
  destruct Hs as [Hg Hd]. wp_use (time_limited_ok n mode live_docs should_exit s c published); [done..| |done|].
  { intros x Hx Hle. rewrite Hd. lia. }
  intros [stopped [[s' c'] p']] (ws & up_to & Hws & Hm & Hj & _ & (scores & Hl & Hc') & Hend).
  by exists ws, up_to, scores.
Qed.

Lemma hits_iff live_docs A lo hi x : x ∈ hits live_docs A lo hi <-> x ∈ A /\ live live_docs x = true /\ lo <= x < hi.
Proof. unfold hits. rewrite list_elem_of_filter, elem_of_docs_in. unfold Is_true. destruct (live live_docs x); naive_solver. Qed.

(** The live documents a boolean matches, ascending. *)
Definition live_matches (must filter should must_not : list S) (msm : nat) (live_docs : option FixedBitSet.t) (l : list Z) : Prop :=
  Sorted.StronglySorted Z.lt l /\
  forall x, x ∈ l <-> matching must filter should must_not msm x /\ live live_docs x = true.

(** The score a search asks for: the boolean's, zero in the mode that scores nothing. *)
Definition search_score (mode : Mode) (must filter should : list S) (msm : nat) (d : Z) (x : f32) : Prop :=
  if needs_scores mode then boolean_score must filter should msm d x else x = f32_of_Z 0.

(** [bulk_boolean_tree] and [score_segment]: what is composed, driven over the
    segment.  [Q] is said of the collector; a scorer's fuel is its own. *)
Definition tree_answers {C : Type} `{ScoringCollector C} (must filter should must_not : list S) (msm : nat) (mode : Mode)
    (live_docs : option FixedBitSet.t) (c : C) (Q : C -> Prop) : Prop :=
  exists N, forall n, (N <= n)%nat ->
  wp (BooleanScorer.compose must filter should must_not msm mode true) n (fun r =>
    match r with
    | None => Q c
    | Some (Built s) => forall m, (exact_need s <= m)%nat ->
        wp (score_segment mode live_docs (s, c, f32_of_Z 0)) m (fun '(_, c', _) => Q c')
    | Some _ => mode = TopScores \/ (1 < msm < length should)%nat
    end).

Lemma tree_answers_ok {C : Type} `{CL : CollectorLaws C} must filter should must_not msm mode live_docs (c : C) (Q : C -> Prop) :
  mode <> TopScores -> valid c -> live_ok live_docs ->
  Forall Scorer.fresh must -> Forall Scorer.fresh filter -> Forall Scorer.fresh should -> Forall Scorer.fresh must_not ->
  (forall l scores c', live_matches must filter should must_not msm live_docs l ->
    Forall2 (search_score mode must filter should msm) l scores -> zlen l <= NO_MORE_DOCS ->
    collect_each c (zip l scores) = Some c' -> Q c') ->
  tree_answers must filter should must_not msm mode live_docs c Q.
Proof.
  intros Hmode Hv Hl H1 H2 H3 H4 HQ. destruct (compose_ok must filter should must_not msm mode true H1 H2 H3 H4) as [N HN].
  exists N. intros n Hn. wp_use (HN n Hn). intros [[s|o k t l|f m']|].
  - intros ([Hg Hd] & Hacc & Hgv) m Hm. unfold score_segment. wp_bind.
    wp_use (default_score_ok m mode live_docs s c (f32_of_Z 0) 0 NO_MORE_DOCS); [done..|pose proof no_more_pos; lia|done| |done|].
    { intros x Hx Hle. rewrite Hd. lia. }
    intros [d [[s' c'] p']] (_ & _ & scores & Hsc & He). wp_ret. cbn [fst snd] in *.
    apply (HQ (hits live_docs (accept s) 0 NO_MORE_DOCS) scores); [split; [apply hits_sorted|]| | |exact He].
    + intros x. rewrite hits_iff, Hacc. split; [tauto|]. intros [Hx Hlx]. split; [done|]. split; [done|].
      apply (approx_range s); [done|]. apply accept_approx; [done|]. by apply Hacc.
    + clear He. assert (Hin : Forall (.∈ accept s) (hits live_docs (accept s) 0 NO_MORE_DOCS)).
      { apply Forall_forall. intros x Hx%list_elem_of_In. by apply hits_iff in Hx as [Hx _]. }
      induction Hsc as [|y x ds xs Hx Hsc IH]; [constructor|]. inversion Hin; subst. constructor; [|auto].
      unfold search_score, score_of in *. destruct (needs_scores mode); [by apply Hgv|done].
    + unfold zlen, hits. pose proof (length_filter (fun x => live live_docs x) (docs_in (accept s) 0 NO_MORE_DOCS)).
      pose proof (length_filter (.∈ accept s) (seqZ 0 (NO_MORE_DOCS - 0))). unfold docs_in in *. rewrite length_seqZ in *.
      pose proof no_more_pos. lia.
  - intros [[]|]; [done|by right].
  - intros []. done.
  - intros Hno. apply (HQ [] [] c); [split; [constructor|]|constructor|pose proof no_more_pos; rewrite zlen_nil; lia|done].
    intros x. split; [by intros ?%not_elem_of_nil|]. intros [Hx _]. by destruct (Hno x).
Qed.

(** [count] over one segment: the boolean composed from its clauses'
    scorers and driven into the counter answers the number of live documents
    that match, without panicking. *)
Lemma count_is_the_number_of_live_matches must filter should must_not (minimum_should_match : nat)
    (live_docs : option FixedBitSet.t) (Hlive : live_ok live_docs)
    (Hmust : Forall Scorer.fresh must) (Hfilter : Forall Scorer.fresh filter)
    (Hshould : Forall Scorer.fresh should) (Hnot : Forall Scorer.fresh must_not) :
  tree_answers must filter should must_not minimum_should_match NoScores live_docs (Count.mk 0)
    (fun c => exists l, live_matches must filter should must_not minimum_should_match live_docs l /\ Count.hits c = zlen l).
Proof.
  apply tree_answers_ok; try done. intros l scores c' Hm Hsc Hz He. exists l. split; [done|].
  pose proof (Forall2_length Hsc) as Hlen.
  rewrite Count.each_counts in He by done. injection He as <-. cbn [Count.hits].
  assert (Hzip : zlen (zip l scores) = zlen l) by (unfold zlen; rewrite length_zip_with; lia).
  rewrite Hzip. rewrite Z.add_0_l. apply wrapu_id. change NO_MORE_DOCS with (2 ^ 31 - 1) in Hz.
  unfold in_u. pose proof (zlen_nonneg l). lia.
Qed.

(** C3: outside the top-scores mode, a search for the best [n] in one
    segment. Where the clauses' scores make scores that are neither NaN, minus
    zero nor minus infinity for the live matches, the search ends without
    panicking and, unless a clause's scorer fails, the collector holds the best
    [n] of the live documents the boolean matches, best first, by the boolean's
    score of each ([boolean_score]: the sum of the scoring clauses that match
    it; zero in the mode without scores), and counted all of them.
    For [1 < minimum_should_match < should.len()] a [WandScorer] is composed,
    of which nothing is said. *)
Theorem search_keeps_the_best must filter should must_not (minimum_should_match : nat) (mode : Mode)
    (live_docs : option FixedBitSet.t) (n : nat) (threshold : Z) (Hmode : mode <> TopScores) (Hlive : live_ok live_docs)
    (Hmust : Forall Scorer.fresh must) (Hfilter : Forall Scorer.fresh filter)
    (Hshould : Forall Scorer.fresh should) (Hnot : Forall Scorer.fresh must_not)
    (Hscores : forall d x, matching must filter should must_not minimum_should_match d -> live live_docs d = true ->
       search_score mode must filter should minimum_should_match d x -> plain x = true /\ SFeqb x minus_infinity = false) :
  tree_answers must filter should must_not minimum_should_match mode live_docs (TopDocs.with_total_hits_threshold n threshold)
    (fun c => exists l scores, live_matches must filter should must_not minimum_should_match live_docs l /\
       Forall2 (search_score mode must filter should minimum_should_match) l scores /\
       (TopDocs.top_docs c).1 = take n (sort_by TopDocs.ahead (zip_with mk_ScoreDoc l scores)) /\
       TopDocs.total_hits c = zlen l).
Proof.
  apply tree_answers_ok; try done; [split; cbn; [lia|done]|]. intros l scores c' Hm Hsc _ He. exists l, scores.
  split; [done|]. split; [done|]. pose proof (Forall2_length Hsc) as Hlen.
  assert (Hsnd : Forall (fun p : Z * f32 => plain p.2 = true /\ SFeqb p.2 minus_infinity = false) (zip l scores)).
  { assert (Hin : Forall (fun d => matching must filter should must_not minimum_should_match d /\ live live_docs d = true) l)
      by (apply Forall_forall; intros x Hx%list_elem_of_In; by apply Hm).
    clear -Hin Hsc Hscores. induction Hsc as [|d x l xs Hx Hsc IH]; cbn; constructor; inversion Hin as [|? ? [H1 H2] Hin']; subst;
      [by eapply Hscores|auto]. }
  destruct (top_docs_ok n threshold None None (zip l scores)) as (c1 & He1 & Hd & Ht & _); [|done|].
  { eapply Forall_impl, Hsnd. by intros ? []. }
  assert (c1 = c') as -> by congruence. split; [|rewrite Ht; unfold zlen; rewrite length_zip_with; lia].
  rewrite Hd. f_equal. f_equal. rewrite forallb_filter_id by (clear -Hsnd; induction Hsnd as [|q l' [_ Hq] _ IH]; [done|cbn [forallb]; rewrite IH, !andb_true_r; apply negb_true_iff; exact Hq]).
  clear. revert scores. induction l as [|d l IH]; intros [|v scores]; cbn; [done..|]. by rewrite IH.
Qed.
End searching.

(** ** At concrete clauses *)
Lemma dl_fresh l scores : Sorted.StronglySorted Z.lt l -> Forall (fun d => 0 <= d < NO_MORE_DOCS) l -> zlen l <= i64_max ->
  Scorer.fresh (E := Empty_set) (dl_new l scores).
Proof. intros H1 H2 H3. split; [|done]. split; [done|]. split; [done|]. cbn. unfold i64_max. split; [lia|done]. Qed.

Ltac dl_fresh := apply dl_fresh; [repeat constructor; lia|repeat constructor; pose proof no_more_pos; vm_compute; done|by vm_compute].

Lemma default_score_collects_the_window_witness :
  let s := dl_new [1; 5; 9; 12] [] in
  exists r, default_score (E := Empty_set) NoScores None (s, Count.mk 0, f32_of_Z 0) 2 11 20%nat = Done r /\ Count.hits r.2.1.2 = 2.
Proof.
  intros s. assert (Hs : Scorer.fresh (E := Empty_set) s) by dl_fresh.
  assert (Hx : forall x, x ∈ accept s -> 2 <= x -> doc_id (E := Empty_set) s <= x) by (intros x _ Hx; rewrite (proj2 Hs); lia).
  assert (Hv : valid (Count.mk 0)) by (split; cbn; [lia|done]).
  assert (Hm : 11 <= NO_MORE_DOCS) by (by vm_compute). assert (Hn : (exact_need s <= 20)%nat) by (vm_compute; lia).
  destruct (wp_total _ _ _ (default_score_collects_the_window (E := Empty_set) 20 NoScores None s (Count.mk 0) (f32_of_Z 0) 2 11
    ltac:(done) (proj1 Hs) Hv ltac:(done) ltac:(lia) Hm Hx Hn)) as ([d [[s' c'] p']] & He & (scores & Hl & Hc) & _).
  exists (d, (s', c', p')). split; [exact He|]. cbn [fst snd].
  assert (Hh : hits None (accept s) 2 11 = [5; 9]) by (by vm_compute). rewrite Hh in Hl, Hc.
  inversion Hl as [|? v1 ? ? _ Hl1]; subst. inversion Hl1 as [|? v2 ? ? _ Hl2]; subst. inversion Hl2; subst. cbn in Hc. by injection Hc as <-.
Defined.

Lemma deadline_ends_the_search_witness :
  let s := dl_new [1; 5; 900] [] in
  exists r, score_segment_time_limited (E := Empty_set) NoScores None (Nat.leb 1) (s, Count.mk 0, f32_of_Z 0) 20%nat = Done r /\
    r.1 = true /\ Count.hits r.2.1.2 = 2.
Proof.
  intros s. assert (Hs : Scorer.fresh (E := Empty_set) s) by dl_fresh.
  assert (Hv : valid (Count.mk 0)) by (split; cbn; [lia|done]).
  assert (Hn : (exact_need s <= 20)%nat) by (vm_compute; lia).
  destruct (wp_total _ _ _ (deadline_ends_the_search (E := Empty_set) 20 NoScores None (Nat.leb 1) s (Count.mk 0) (f32_of_Z 0)
    ltac:(done) Hs Hv ltac:(done) Hn)) as ([stopped [[s' c'] p']] & He & ws & up_to & scores & Hws & _ & Hj & Hstop & Hl & Hc).
  exists (stopped, (s', c', p')). split; [exact He|]. cbn [fst snd].
  assert (Hlen : (length ws <= 1)%nat) by (destruct (le_lt_dec (length ws) 1) as [|Hlt]; [done|by specialize (Hj 1%nat Hlt)]).
  destruct ws as [|[a b] ws].
  { cbn in Hws, Hstop. destruct stopped; [by destruct Hstop|]. rewrite Hws in Hstop. by vm_compute in Hstop. }
  destruct Hws as (_ & _ & -> & next & Hle & Hin & Hpast & Hws). destruct ws as [|w ws]; [|cbn in Hlen; lia]. cbn in Hws. subst up_to.
  assert (Hnext : next = 900).
  { assert (H9 : 900 ∈ accept s) by (by vm_compute). pose proof (Hpast 900 H9 ltac:(by vm_compute)).
    destruct Hin as [->|Hin]; [by vm_compute in H|]. unfold s, doc_set in Hin. cbn [approx dl_view dl_docs dl_new] in Hin.
    apply elem_of_list_to_set in Hin. apply elem_of_cons in Hin as [->|Hin]; [by vm_compute in Hle|].
    apply elem_of_cons in Hin as [->|Hin]; [by vm_compute in Hle|]. by apply list_elem_of_singleton in Hin. }
  subst next. destruct stopped; [|by vm_compute in Hstop]. split; [done|].
  assert (Hh : hits None (accept s) 0 900 = [1; 5]) by (by vm_compute). rewrite Hh in Hl, Hc.
  inversion Hl as [|? v1 ? ? _ Hl1]; subst. inversion Hl1 as [|? v2 ? ? _ Hl2]; subst. inversion Hl2; subst. cbn in Hc. by injection Hc as <-.
Defined.

Lemma count_is_the_number_of_live_matches_witness :
  let a := dl_new [1; 3; 5; 8] [] in let b := dl_new [3; 5; 9] [] in let d := dl_new [8; 9] [] in
  tree_answers (E := Empty_set) [a] [] [b] [d] 0 NoScores None (Count.mk 0)
    (fun c => exists l, live_matches [a] [] [b] [d] 0 None l /\ Count.hits c = zlen l).
Proof.
  intros a b d. assert (Ha : Scorer.fresh (E := Empty_set) a) by dl_fresh. assert (Hb : Scorer.fresh (E := Empty_set) b) by dl_fresh.
  assert (Hd : Scorer.fresh (E := Empty_set) d) by dl_fresh.
  apply (count_is_the_number_of_live_matches (E := Empty_set) [a] [] [b] [d] 0 None); [done|by repeat constructor..].
Defined.

Lemma search_keeps_the_best_witness :
  let a := dl_new [1; 3; 5; 8] [f32_of_Z 1; f32_of_Z 4; f32_of_Z 2; f32_of_Z 4] in
  let b := dl_new [5; 9] [f32_of_Z 8; f32_of_Z 3] in let d := dl_new [8; 9] [] in
  tree_answers (E := Empty_set) [a] [] [b] [d] 0 Complete None (TopDocs.with_total_hits_threshold 2 10)
    (fun c => exists l scores, live_matches [a] [] [b] [d] 0 None l /\
       Forall2 (search_score Complete [a] [] [b] 0) l scores /\
       (TopDocs.top_docs c).1 = take 2 (sort_by TopDocs.ahead (zip_with mk_ScoreDoc l scores)) /\
       TopDocs.total_hits c = zlen l).
Proof.
  intros a b d. assert (Hd : Scorer.fresh (E := Empty_set) d) by dl_fresh.
  assert (Ha : Scorer.fresh (E := Empty_set) a) by dl_fresh. assert (Hb : Scorer.fresh (E := Empty_set) b) by dl_fresh.
  apply (search_keeps_the_best (E := Empty_set) [a] [] [b] [d] 0 Complete None 2 10); [done|done|by repeat constructor..|].
  intros y x _ _ (r & (k & Hk & ->) & Hx).
  assert (Hb' : forall o, gives b y o -> o = f32_of_Z 8 \/ o = f32_of_Z 3).
  { intros o (j & Hj & ->). destruct j as [|[|j]]; [by left|by right|done]. }
  destruct (decide _) as [_|_].
  - destruct Hx as (o & Ho%Hb' & ->). destruct k as [|[|[|[|k]]]]; [..|done]; destruct Ho as [-> | ->]; by vm_compute.
  - subst x. destruct k as [|[|[|[|k]]]]; [..|done]; by vm_compute.
Defined.
